(* ===== verification/_CoqProject ===== *)
-Q . S2P
Prelude.v
Binary.v
RaftCodec.v
RaftStorage.v
RaftServer.v
RaftElection.v
RaftReplication.v
HpackTables.v
HpackCodec.v
Http1Parser.v
Http1Safety.v
Http1Generator.v
Http1Run.v
Http1Roundtrip.v
Http1Chunked.v
InputBuffer.v
Http1Fragments.v
RequestUri.v
TokenShaper.v
TokenShaperTokens.v
TokenShaperQueue.v
FlowType.v
FlowInstruction.v
NetAddress.v
FlowConstants.v
FlowMatch.v
FlowVm.v
FlowSafety.v
FlowRun.v
FlowProgram.v
FlowIr.v
FlowPasses.v
FlowLinks.v
FlowPassesSafety.v
HeaderFieldList.v
FastCgi.v
FastCgiStream.v
Http2.v
Http2Frames.v
DataChain.v
Base64.v
HttpMessage.v
FlowBuilder.v
FlowCodegen.v
FlowCodegenSafety.v
FlowCodegenRun.v
FlowCodegenProgram.v
FlowFolding.v
FlowLexer.v
FlowLexerSafety.v
FlowLexerSpelling.v
Cli.v
CliEvaluate.v
StringUtil.v
Uri.v
UriRoundtrip.v
IniFile.v
IniSections.v
Utf8.v
Dates.v
HttpChannel.v
HttpChannelSafety.v
HttpMock.v
HttpFile.v
HttpFileServing.v
HttpCluster.v
HttpClusterSafety.v
HttpClusterShaper.v
JsonWriter.v
HttpClusterConfig.v
HttpClusterConfigRoundtrip.v
HttpClusterJson.v
HttpClusterApi.v
HttpClusterApiSafety.v
Http1Connection.v
Http1Serving.v
