(* ===== verification/Prelude.v ===== *)
(** * Verification of the x0 HTTP server library

    x0 is a C++ library (xzero) for network servers, with an HTTP server (x0d)
    configured in a language of its own (Flow) on top. This development models
    the parts of xzero that turn bytes into messages and back and that keep
    replicated state, and proves what makes them correct. Paths are relative to
    the repository's [src/] directory.

    ** Parts, files and what is shown

    The Raft consensus library, [src/xzero/raft]. A [Server] handles timeouts,
    messages from its peers and commands from its clients; it keeps its term,
    vote and log in a [Storage]; messages travel through a [Generator] and a
    [Parser] over variable-length integers.
    - [Binary]: [util/BinaryWriter.cc], [util/BinaryReader.cc]. Integers and
      strings that are written are read back, whatever follows them.
    - [RaftCodec]: [rpc.h], [Generator.cc], [Parser.cc]. Any sequence of
      messages, cut into fragments anywhere, is received as it was sent.
    - [RaftStorage]: [Storage.h], [Storage.cc]. The class [Storage] is the
      interface, [StorageSpec] what the server's theorems rely on; [MemoryStore]
      is shown to meet it, and three lemmas show where it departs from what
      [Storage.h] documents.
    - [RaftServer]: [Server.cc]. Every handler as a function from the state to
      the new state, its response and the effects on its surroundings, in order.
      The state machine, the discovery service and the configuration are
      parameters, the storage is any instance of [Storage].
    - [RaftElection]: the server as a transition system over its inputs. Over any
      interleaving it votes for one candidate per term, and its term grows.
    - [RaftReplication]: what a follower with a [MemoryStore] makes of an
      AppendEntries request (its log is extended, or an assertion fails), which
      index the leader commits, that committed commands are applied in order and
      once, what a replication message carries, what is refused.

    HTTP header compression, [src/xzero/http/hpack].
    - [HpackTables]: [StaticTable.cc], [DynamicTable.cc]. The binary search of
      the static table agrees with a linear one; the dynamic table stays within
      its limit and accounts its size exactly.
    - [HpackCodec]: [Generator.cc], [Parser.cc]. Header lists survive encoding
      and decoding and leave both tables equal, unless a name is in the static
      table with other values only (a variable is read that nobody has set);
      decoding ends on any input, with the inputs on which it is undefined.

    HTTP/1, [src/xzero/http/http1] and [src/xzero/http].
    - [Http1Parser]: [Parser.cc], the whole state machine; one iteration of its
      loop is a function of the current character, the events for the listener
      are its output.
    - [Http1Generator]: [Generator.cc] over [HttpInfo.h] and its subclasses.
    - [Http1Safety]: on any input the loop ends, stays inside its buffer and
      reports at most one error, last.
    - [Http1Run]: runs of the parser over a known text (the proof machinery).
    - [Http1Roundtrip], [Http1Chunked]: requests with a length and chunked
      requests that the generator writes are parsed back, exactly their bytes
      are consumed.
    - [InputBuffer]: [Buffer.cc], [net/EndPoint.cc]. The buffer of a connection
      with its capacity and the identity of its heap block.
    - [Http1Fragments]: cutting a message head into fragments is invisible as
      long as the input buffer keeps its block; when it gets a new one, the parser
      uses pointers into the old one.
    - [RequestUri]: [HttpRequestInfo.cc], [setUri]. Accepted paths do not leave
      the document root behind their first slash; percent-encoding is decoded.

    Rate limiting, [src/xzero/TokenShaper.h], [TokenShaper-inl.h].
    - [TokenShaper]: the tree of token buckets with their queues.
    - [TokenShaperTokens]: what [get] and [put] do to the tokens each bucket
      holds, when a request is granted.
    - [TokenShaperQueue]: [dequeue] serves a packet whenever one can be served.

    FastCGI, [src/xzero/http/fastcgi], and header lists, [src/xzero/http].
    - [HeaderFieldList]: [HeaderField.h], [HeaderFieldList.cc]. A header list
      implements a map from case-insensitive names to sequences of values.
    - [FastCgi]: [bits.h], [bits.cc], [Generator.cc], [RequestParser.cc] and
      [ResponseParser.cc]; the response parser runs the HTTP/1 parser on the
      contents of its records.
    - [FastCgiStream]: a generated request reaches its listener if somebody else
      writes the BEGIN_REQUEST record; requests on one connection do not affect
      one another if their records hold what is read as their content; it does
      not matter how the bytes arrive; encoded parameters are read back.

    HTTP/2, [src/xzero/http/http2].
    - [Http2]: [Generator.cc], [Parser.cc] with the HPACK coder and [setUri]
      they call, and the credits of [Flow-inl.h].
    - [Http2Frames]: which rules the reported events obey; frames that the
      generator writes are reported as sent; credits stay within the window.

    The virtual machine of the configuration language, [src/xzero-flow/vm], and
    the types it works on.
    - [FlowType]: [FlowType.cc], [Signature.cc]. Native signatures survive
      printing and parsing.
    - [FlowInstruction]: [Instruction.h], [Instruction.cc]. Instruction words,
      their tables, the register count and the disassembler; the range of
      operands in which decoding inverts encoding.
    - [NetAddress]: [net/IPAddress.h], [net/Cidr.cc]. When an IPv4 network
      contains an address, and where the code differs from that.
    - [FlowConstants]: [ConstantPool.cc]. Interning of literals.
    - [FlowMatch]: [Match.cc], [PrefixTree.h], [SuffixTree.h], [RegExp.cc]. A
      match table answers with the right label, compared with a linear search.
    - [FlowVm]: [Runner.cc]. The interpreter over registers, heap, constant pool
      and native functions; a native function may suspend the handler. PCRE, the
      native functions, the layout of objects in memory and [inet_ntop] are
      parameters.
    - [FlowSafety]: a static check of the code, and that checked code never
      leaves its registers, code and tables, nor its strings if it does not
      search or cut them.
    - [FlowRun]: code that only jumps forward ends if no native function
      rewinds; a run that is suspended and
      resumed does the same as one that is not.
    - [FlowProgram]: [Program.cc], [Runtime.cc], [NativeCallback.cc]. Linking
      finds every native function the program names, or fails.

    The intermediate representation of the configuration language,
    [src/xzero-flow/ir] and [src/xzero-flow/transform].
    - [FlowIr]: [Value.cc], [Instr.cc], [Instructions.cc], [BasicBlock.cc],
      [IRHandler.cc]. Blocks, instructions, their links and uses.
    - [FlowPasses]: the four passes, [InstructionVisitor.cc], [PassManager.cc]
      and the passes of each optimization level.
    - [FlowLinks]: the operations keep the predecessors and successors that the
      terminators name, and erasing a block fails no assertion.
    - [FlowPassesSafety]: at the default level the passes end and keep the meaning
      of a handler, whatever its instructions do, if no two of its blocks are
      taken for one; if two are, merging them is undefined.
    - [FlowBuilder]: [IRBuilder.cc]. The functions that create instructions, with
      their assertions and their constant folding.
    - [FlowFolding]: folding of numbers and booleans gives what the virtual
      machine computes.

    The compiler of the configuration language, [src/xzero-flow].
    - [FlowLexer]: [FlowLexer.cc], [FlowToken.cc]. Tokens from a stack of streams.
    - [FlowLexerSafety]: lexing ends, every token but the last takes something
      of the source, and the only error is a number that overflows.
    - [FlowLexerSpelling]: a source that is written as lexemes with space and comments
      between them is read as these lexemes.
    - [FlowCodegen]: [TargetCodeGenerator.cc]. Code, registers, jumps and match
      tables from the intermediate representation.
    - [FlowCodegenSafety]: a handler over numbers and booleans is compiled without a
      failing assertion, to code that the layout of its blocks describes.
    - [FlowCodegenRun]: the code of an instruction does what the instruction does.
    - [FlowCodegenProgram]: a compiled program runs as its handlers do, before
      and after the passes of the default level.

    Data chains and codecs, [src/xzero/io] and [src/xzero].
    - [DataChain]: [io/DataChain.cc]. A chain of chunks is a queue of bytes.
    - [Base64]: [base64-inl.h], [base64url-inl.h]. Encoding is decoded back.

    The command line and text, [src/xzero/cli], [src/xzero/text] and [src/xzero].
    - [Cli]: [cli/CLI.cc], [cli/Flags.cc]. Flags, their evaluation and the help text.
    - [CliEvaluate]: a command line that is written as options and parameters is
      evaluated as written, and the lines that are refused; required options
      are not looked at.
    - [StringUtil]: [StringUtil.cc], [BufferUtil.cc]. Searching, splitting, joining,
      replacing and classifying strings; what is split is joined again.
    - [Uri], [UriRoundtrip]: [Uri.cc]. Parsing, printing and queries; a URI that is
      printed is parsed back.
    - [IniFile], [IniSections]: [text/IniFile.cc]. Files of sections, keys and values:
      a file that is written as sections has these sections, in the order of their titles.
    - [JsonWriter]: [JsonWriter.cc]. Calls that write a tree write its text.
    - [Utf8]: [UTF8.cc]. Code points of up to 21 bits survive encoding and decoding.
    - [Dates]: [ISO8601.cc], [CivilTime.cc], [UnixTime.cc]. Dates are read back from
      their text, and the time since 1970 is that of the calendar in closed form.

    The HTTP server, [src/xzero/http].
    - [HttpMessage]: [HttpMethod.cc], [HttpRequest.cc], [HttpResponseInfo.h],
      [io/Filter.cc], [Tokenizer.h]. Requests, response heads and filters.
    - [HttpChannel]: [HttpChannel.cc], [HttpResponse.cc], [HttpOutputCompressor.cc].
      A channel between a transport and a handler: a handler is a program in a
      small state and error monad over the operations of a response, a transport
      an interface that records the calls it gets.
    - [HttpChannelSafety]: a Hoare logic for handlers; a head is handed to the
      transport once, which may refuse it, and a body is what was announced.
    - [HttpMock]: [mock/Transport.cc]. Requests arrive as they were made, and a
      handler that fails is answered with an error, on a channel without filters
      and hooks.
    - [HttpFile]: [HttpRangeDef-inl.h], [HttpFileHandler.cc]. Ranges and
      conditional requests.
    - [HttpFileServing]: what is served for a file: the bytes asked for with their
      length, a refusal, or an exception behind the head.
    - [Http1Connection]: [http1/Connection.cc], [http1/Channel.cc]. The parser, the
      channel, the generator and the end point of a connection together.
    - [Http1Serving]: whatever bytes arrive and whatever the handlers do, in
      however many pieces the socket takes the output, the responses keep the
      rules of a connection; a head that is refused is lost.
    - [HttpCluster]: [client/HttpCluster.cc], [HttpClusterScheduler.cc],
      [HttpClusterMember.cc], [HttpClusterRequest.cc], [HttpHealthMonitor.cc], over
      the interface of a shaper.
    - [HttpClusterSafety]: over any events no request is lost or served twice, no
      member exceeds a limit that its capacities have been within, and a request
      goes to a member that can take it.
    - [HttpClusterShaper]: the token shaper meets that interface.
    - [HttpClusterConfig]: the settings of [HttpCluster.cc] and its members, the
      configuration as text and from text, and the JSON a cluster is shown as.
    - [HttpClusterConfigRoundtrip]: a saved configuration cannot be loaded because of
      its empty lines; without them, the cluster that a new one becomes.
    - [HttpClusterJson]: what is shown is the text of a tree.
    - [HttpClusterApi], [HttpClusterApiSafety]: [HttpClusterApiHandler.cc] and the clusters
      of [x0d/modules/proxy.cc]. Requests are answered once but for the cases given, and
      refused ones change nothing.

    [Prelude] (this file) has what they share: exceptions as the type [result],
    machine integers, bytes.

    ** How code is modelled

    A function of the source is a function of the same name, its members and
    arguments are passed explicitly, and an exception is a value of [result].
    Integers are [Z], wrapped to their width where the source's type wraps;
    what C++ leaves undefined (signed overflow, reads outside a buffer) is the
    exception [UndefinedBehaviour], failing assertions are [AssertionFailure].
    A buffer is a list of bytes. Everything is executable.

    ** Fuel

    Loops that are not structurally recursive run on fuel that is shown to be
    enough: ten iterations for a 64-bit variable-length integer, the distance of
    two indices for [applyLogs], the number of entries for an eviction, one
    iteration per byte for the HPACK parser, four per remaining byte for
    [parseFragment] (at most three iterations in a row consume nothing), the
    height of the tree for [dequeue], 64 digits for a printed number, one
    iteration per byte for the records and parameters of FastCGI and the frames
    of HTTP/2 (a record has eight bytes at least, a frame header nine), one
    iteration per field and one more for the removal of a header, one per word of an IPv6
    address, one round per block and one more for the pass manager, one iteration
    per byte for the ranges of a request, twenty digits for a 64-bit number and one iteration
    per character and one more for every loop of the lexer and of the text functions. The interpreter takes its fuel as an argument: code that only jumps
    forward needs one step more than it has instructions, for other code the
    theorems hold for every fuel.

    ** Where the code does not do what it means to

    Some lemmas describe behaviour that is not intended: a commit index that
    goes backwards, a storage that truncates one entry too many, HPACK fields
    and table sizes that are read as something else, a chunked flag that is never
    reset, references into a buffer that was moved, a response whose head was
    refused, percent-encoded bytes decoded as others, paths whose last [".."] is not
    counted, a token tree that grants more than its capacity, FastCGI header
    names written as numbers, requests without first record and version, parameters
    read from the next one, HTTP/2 frames
    that are given the bytes of the next one, data that always ends its stream
    and requests that lose their first line, networks with prefixes inside a
    byte, instructions whose operands overwrite one another, comparisons of
    strings that only see whether they are empty, searches that read behind a
    string, passes that lose the entry block, fail an assertion or erase from the
    list they go over, code that confuses disjunction and conjunction or the
    operands of an immediate, folding that loses a string, comments and strings that end
    in the wrong place, switches that swallow arguments, INI files that cannot be read
    again, clusters whose saved settings come back as others or not at all, backends that are
    refused and updated, code points of five bytes, a 31st of February, ranges beyond the end of a file, a scheduler that
    stays with one member, tokens of a cluster that are lost. The round trips state the
    exact conditions under which these do not get in the way.

    ** What is not modelled

    Sockets, TLS, files, threads, clocks, logging: the library's interface to
    the operating system. The Huffman code of HPACK is not implemented in the
    source. The priorities and connections of HTTP/2, which the source leaves
    unfinished. The parser of the Flow language, its syntax trees and the
    generator of the intermediate representation, which resolve names against the
    native functions that modules register; the daemon and its modules, which are written against these parts.

    ** Plan

    Next, in this order: the parser of the Flow language over the tokens of
    [FlowLexer], and the generator of the intermediate representation. *)
From Stdlib Require Import Ascii String.
From Stdlib Require Export ZArith Lia.
From stdpp Require Export base tactics option list numbers.
Export String.StringSyntax.

Global Open Scope Z_scope.

(** ** Exceptions

    [RAISE(Type, ...)] of [src/xzero/RuntimeError.h] throws a C++ exception;
    [BadMessage] is the exception of [http/BadMessage.h], which carries an HTTP
    status, three more are those the Standard Library of C++ throws and four those of
    the command line, [cli/CLI.h]. A
    computation that may throw returns a [result]. Three further constructors stand
    for outcomes the language gives no value to: [AssertionFailure] for a
    failing [assert] (the builds the tests run have assertions enabled),
    [UndefinedBehaviour] for an operation the C++ standard leaves undefined
    (a shift by at least the width of the type, signed overflow, an access
    outside an object, a loop without effects that never ends),
    [SignedOverflow] for the undefined overflow of a number where a theorem
    keeps it apart from the others, and [Blocked] for a call that waits for an
    event that never comes. *)
Inductive exn : Type :=
  | IOError
  | ProtocolError
  | CompressionError
  | InternalError
  | RuntimeError
  | InvalidArgumentError
  | IllegalStateError
  | NotImplementedError
  | IndexError
  | HttpVersionNotSupported
  | BadMessage (status : Z)
  | StdInvalidArgument
  | StdOutOfRange
  | StdRuntimeError
  | EncodingError
  | InvalidUriPortError
  | CliTypeMismatchError
  | CliUnknownOptionError
  | CliMissingOptionValueError
  | CliFlagNotFoundError
  | AssertionFailure
  | UndefinedBehaviour
  | SignedOverflow
  | Blocked.

Inductive result (A : Type) : Type :=
  | Ok (a : A)
  | Raise (e : exn).
Arguments Ok {A} a.
Arguments Raise {A} e.

#[export] Instance exn_eq_dec : EqDecision exn.
Proof. solve_decision. Defined.
#[export] Instance result_eq_dec {A} `{EqDecision A} : EqDecision (result A).
Proof. solve_decision. Defined.

#[export] Instance result_ret : MRet result := @Ok.
#[export] Instance result_bind : MBind result := fun A B f m =>
  match m with Ok a => f a | Raise e => Raise e end.
#[export] Instance result_fmap : FMap result := fun A B f m =>
  match m with Ok a => Ok (f a) | Raise e => Raise e end.

(** [guard] of the code: throw [e] unless the test holds. *)
Definition ensure (b : bool) (e : exn) : result unit :=
  if b then Ok () else Raise e.

Lemma bind_Ok {A B} (f : A → result B) (m : result A) b :
  m ≫= f = Ok b ↔ ∃ a, m = Ok a ∧ f a = Ok b.
Proof.
  destruct m as [a|e]; cbn; split.
  - intros H; by exists a.
  - intros (a' & [= ->] & H); done.
  - done.
  - intros (a' & H & _); done.
Qed.

Lemma bind_ret {A B} (f : A → result B) a : Ok a ≫= f = f a.
Proof. done. Qed.

Lemma ensure_Ok b e u : ensure b e = Ok u ↔ b = true.
Proof. destruct b, u; cbn; split; congruence. Qed.

(** Split a hypothesis [m ≫= f = Ok b] into the equations of its steps. *)
Ltac inv_result :=
  repeat match goal with
  | H : (_ ≫= _) = Ok _ |- _ =>
      apply bind_Ok in H; let a := fresh "a" in let Ha := fresh "Ha" in
      destruct H as (a & Ha & H); cbn beta in H
  | H : ensure _ _ = Ok _ |- _ => apply ensure_Ok in H
  | H : Ok _ = Ok _ |- _ => injection H as H
  | H : Raise _ = Ok _ |- _ => discriminate H
  | H : mret _ = Ok _ |- _ => injection H as H
  end.

(** ** Machine integers *)

(** Conversion to an unsigned type of [w] bits (modular), and to the signed
    types of 32 and 64 bits (two's complement, as GCC and Clang define it). *)
Definition unsigned (w z : Z) : Z := z mod 2 ^ w.
Abbreviation u8 := (unsigned 8).
Abbreviation u16 := (unsigned 16).
Abbreviation u32 := (unsigned 32).
Abbreviation u64 := (unsigned 64).
Definition signed (w z : Z) : Z := (z + 2 ^ (w - 1)) mod 2 ^ w - 2 ^ (w - 1).
Abbreviation s32 := (signed 32).
Abbreviation s64 := (signed 64).

Definition fits (w z : Z) : Prop := 0 ≤ z < 2 ^ w.
Definition fitsb (w z : Z) : bool := (0 <=? z) && (z <? 2 ^ w).

#[export] Instance fits_dec w z : Decision (fits w z).
Proof. unfold fits; apply _. Defined.

Lemma fitsb_spec w z : fitsb w z = true ↔ fits w z.
Proof. unfold fitsb, fits; rewrite andb_true_iff, Z.leb_le, Z.ltb_lt; done. Qed.

Lemma unsigned_fits w z : 0 ≤ w → fits w (unsigned w z).
Proof. intros; apply Z.mod_pos_bound, Z.pow_pos_nonneg; lia. Qed.

Lemma unsigned_id w z : fits w z → unsigned w z = z.
Proof. intros H; apply Z.mod_small, H. Qed.

Lemma signed_id w z : 0 < w → - 2 ^ (w - 1) ≤ z < 2 ^ (w - 1) → signed w z = z.
Proof.
  intros Hw Hz; unfold signed.
  assert (2 ^ w = 2 * 2 ^ (w - 1)) by
    (rewrite <- Z.pow_succ_r by lia; f_equal; lia).
  rewrite Z.mod_small; lia.
Qed.

Lemma fits_mono w w' z : w ≤ w' → fits w z → fits w' z.
Proof.
  intros Hw [H1 H2]; split; [lia|].
  eapply Z.lt_le_trans; [exact H2|]. apply Z.pow_le_mono_r; lia.
Qed.

(** ** Bytes *)

(** A byte is an 8-bit [Z]; a buffer is a list of them. *)
Abbreviation bytes := (list Z).
Definition is_byte (b : Z) : Prop := fits 8 b.
Definition all_bytes (bs : bytes) : Prop := Forall is_byte bs.

Lemma land_7f b : Z.land b 127 = b mod 128.
Proof. change 127 with (Z.ones 7); rewrite Z.land_ones; [done|lia]. Qed.

Lemma land_low n b : 0 ≤ n → Z.land b (2 ^ n - 1) = b mod 2 ^ n.
Proof.
  intros; rewrite <- Z.land_ones by lia; f_equal.
  rewrite Z.ones_equiv; lia.
Qed.

(** A disjunction of a low part and a shifted part is their sum. *)
Lemma lor_shiftl_add n a b :
  0 ≤ n → fits n a → Z.lor a (Z.shiftl b n) = a + b * 2 ^ n.
Proof.
  intros Hn Ha. rewrite <- Z.shiftl_mul_pow2 by lia.
  assert (Hd : Z.land a (Z.shiftl b n) = 0).
  { apply Z.bits_inj'; intros k Hk. rewrite Z.land_spec, Z.bits_0.
    destruct (decide (k < n)) as [Hkn|Hkn].
    - rewrite (Z.shiftl_spec_low b n k) by lia. by rewrite andb_false_r.
    - rewrite <- (Z.mod_small a (2 ^ n)) by apply Ha.
      by rewrite Z.mod_pow2_bits_high by lia. }
  rewrite (Z.add_nocarry_lxor _ _ Hd). symmetry. by apply Z.lxor_lor.
Qed.

(** A boolean property of bytes holds of all of them once it evaluates to
    [true] on the 256 values. *)
Lemma byte_forall (P : Z → bool) :
  forallb P (seqZ 0 256) = true → ∀ b, is_byte b → P b = true.
Proof.
  intros H b [Hb1 Hb2]. rewrite forallb_forall in H. apply H, list_elem_of_In.
  apply elem_of_seqZ. change (2 ^ 8) with 256 in Hb2. lia.
Qed.

Lemma land_80_zero b : is_byte b → (Z.land b 128 =? 0) = (b <? 128).
Proof.
  intros Hb. apply Bool.eqb_prop.
  by apply (byte_forall (λ b, Bool.eqb (Z.land b 128 =? 0) (b <? 128))).
Qed.

(** A string literal of the source as bytes, and [std::tolower] in the "C"
    locale, on a byte and on a string ([StringUtil::toLower]). *)
Definition str (s : string) : bytes := (λ c, Z.of_N (N_of_ascii c)) <$> list_ascii_of_string s.
Arguments str s%_string_scope.

Definition lower_byte (b : Z) : Z := if (65 <=? b) && (b <=? 90) then b + 32 else b.
Definition toLower (s : bytes) : bytes := lower_byte <$> s.

Lemma str_bytes s : all_bytes (str s).
Proof.
  unfold all_bytes, str. apply Forall_fmap, Forall_true. intros c. cbn.
  pose proof (N_ascii_bounded c). unfold is_byte, fits. lia.
Qed.

(** ** Automation

    The hint database [x0] proves that integers are within the width of their
    type; [no_wrap] removes the reductions of those that are, inner ones
    first. *)
Create HintDb x0.
#[export] Hint Resolve unsigned_fits str_bytes : x0.
#[export] Hint Extern 1 (fits _ _) => unfold fits; lia : x0.
#[export] Hint Extern 1 (is_byte _) => unfold is_byte, fits; lia : x0.

Ltac no_wrap :=
  repeat match goal with |- context [unsigned ?w ?z] => rewrite (unsigned_id w z) by auto with x0 end.

(** ** Lexicographic order of byte strings ([std::string::compare]) *)
Fixpoint bytes_compare (a b : bytes) : comparison :=
  match a, b with
  | [], [] => Eq
  | [], _ => Lt
  | _, [] => Gt
  | x :: a, y :: b => match x ?= y with Eq => bytes_compare a b | c => c end
  end.

Lemma bytes_compare_eq a b : bytes_compare a b = Eq ↔ a = b.
Proof.
  revert b; induction a as [|x a IH]; intros [|y b]; cbn; try (split; congruence).
  destruct (Z.compare_spec x y) as [->| |]; rewrite ?IH; split; (congruence || intros [= ]; lia || intros ->; done).
Qed.

Lemma bytes_compare_antisym a b : bytes_compare b a = CompOpp (bytes_compare a b).
Proof.
  revert b; induction a as [|x a IH]; intros [|y b]; cbn; try done.
  rewrite (Z.compare_antisym x y). destruct (x ?= y); cbn; [apply IH|done|done].
Qed.

Lemma bytes_compare_trans a b c :
  bytes_compare a b = Lt → bytes_compare b c = Lt → bytes_compare a c = Lt.
Proof.
  revert b c; induction a as [|x a IH]; intros [|y b] [|z c]; cbn; try done.
  destruct (Z.compare_spec x y) as [->|Hxy|], (Z.compare_spec y z) as [->|Hyz|]; try done.
  - apply IH.
  - by rewrite (proj2 (Z.compare_lt_iff _ _)).
  - by rewrite (proj2 (Z.compare_lt_iff x z)) by lia.
Qed.
