(* ===== verification/Binary.v ===== *)
(** * Binary wire primitives

    [src/xzero/util/BinaryWriter.cc] and [src/xzero/util/BinaryReader.cc]: the
    variable-length integers, zig-zag signed integers, fixed-width integers and
    length-delimited strings that the Raft transport and its storage are built
    on.

    A [BinaryWriter] hands each encoded chunk to its [ChunkWriter]; every user
    appends the chunks to a buffer, so an operation is the function from its
    argument to the bytes it appends. A [BinaryReader] is a pair of pointers
    into a buffer; its state is the bytes between them, and an operation
    returns its value with the bytes left, or the exception it throws. *)
From S2P Require Import Prelude.

(** ** Writer *)

(** The [do ... while] loop of [writeVarUInt]. Its buffer has ten bytes, which
    is the number of iterations a 64-bit value can take at most (shown by
    [writeVarUInt_fuel]), so the recursion runs on ten units of fuel. *)
Fixpoint varuint_loop (fuel : nat) (value : Z) : bytes :=
  match fuel with
  | O => []
  | S fuel =>
      let b := Z.land value 127 in
      let value := Z.shiftr value 7 in
      if value =? 0 then [b] else Z.lor b 128 :: varuint_loop fuel value
  end.

Definition writeVarUInt (value : Z) : bytes := varuint_loop 10 (u64 value).

(** Zig-zag encodings. The [int64_t] shift stays within 64 bits; the [int32_t]
    shift is an [int] computation whose result is then converted to the
    [uint64_t] parameter of [writeVarUInt], which sign-extends it. *)
Definition writeVarSInt64 (n : Z) : bytes :=
  writeVarUInt (Z.lxor (s64 (Z.shiftl n 1)) (Z.shiftr n 63)).

Definition writeVarSInt32 (n : Z) : bytes :=
  writeVarUInt (Z.lxor (s32 (Z.shiftl n 1)) (Z.shiftr n 31)).

(** The object representation of an unsigned integer on a little-endian
    machine. *)
Fixpoint le_bytes (n : nat) (value : Z) : bytes :=
  match n with
  | O => []
  | S n => Z.land value 255 :: le_bytes n (Z.shiftr value 8)
  end.

Definition writeFixed64 (value : Z) : bytes := le_bytes 8 (u64 value).
Definition writeFixed32 (value : Z) : bytes := le_bytes 4 (u32 value).

Definition writeLengthDelimited (data : bytes) : bytes :=
  writeVarUInt (Z.of_nat (length data)) ++ data.

Definition writeString (str : bytes) : bytes := writeLengthDelimited str.

(** ** Reader *)

(** The loop of [tryParseVarUInt]: [i] counts the bytes seen. The shift
    amount is [7 * i] on a 64-bit operand, so an eleventh byte is undefined
    behaviour. *)
Fixpoint varuint_scan (i acc : Z) (r : bytes) : result (option (Z * bytes)) :=
  match r with
  | [] => Ok None
  | b :: r =>
      if 64 <=? 7 * i then Raise UndefinedBehaviour else
      let acc := Z.lor acc (u64 (Z.shiftl (Z.land b 127) (7 * i))) in
      if Z.land b 128 =? 0 then Ok (Some (acc, r))
      else varuint_scan (i + 1) acc r
  end.

Definition tryParseVarUInt (r : bytes) : result (option Z * bytes) :=
  o ← varuint_scan 0 0 r;
  match o with
  | Some (v, r') => Ok (Some v, r')
  | None => Ok (None, r)
  end.

Definition parseVarUInt (r : bytes) : result (Z * bytes) :=
  '(o, r') ← tryParseVarUInt r;
  match o with
  | Some v => Ok (v, r')
  | None => Raise IOError
  end.

(** [(z >> 1) ^ -(z & 1)] in [uint64_t], converted to the return type. *)
Definition unzigzag (z : Z) : Z :=
  Z.lxor (Z.shiftr z 1) (u64 (- Z.land z 1)).

Definition parseVarSInt32 (r : bytes) : result (Z * bytes) :=
  '(z, r') ← parseVarUInt r; Ok (s32 (unzigzag z), r').

Definition parseVarSInt64 (r : bytes) : result (Z * bytes) :=
  '(z, r') ← parseVarUInt r; Ok (s64 (unzigzag z), r').

(** [begin_ + len > end_] adds to a pointer. Memory is taken to be below address
    [2 ^ 63], so that a length below [2 ^ 63] cannot wrap around; for a larger one
    the test may pass, and what follows is undefined. *)
Definition parseLengthDelimited (r : bytes) : result (bytes * bytes) :=
  '(len, r') ← parseVarUInt r;
  if Z.of_nat (length r') <? len then (if 2 ^ 63 <=? len then Raise UndefinedBehaviour else Raise IOError)
  else Ok (take (Z.to_nat len) r', drop (Z.to_nat len) r').

Fixpoint le_value (bs : bytes) : Z :=
  match bs with
  | [] => 0
  | b :: bs => Z.lor b (Z.shiftl (le_value bs) 8)
  end.

Definition parseFixed64 (r : bytes) : result (Z * bytes) :=
  if Z.of_nat (length r) <? 8 then Raise IOError
  else Ok (le_value (take 8 r), drop 8 r).

Definition parseFixed32 (r : bytes) : result (Z * bytes) :=
  if Z.of_nat (length r) <? 4 then Raise IOError
  else Ok (le_value (take 4 r), drop 4 r).

Definition parseString (r : bytes) : result (bytes * bytes) :=
  parseLengthDelimited r.

Definition eof (r : bytes) : bool := bool_decide (r = []).
Definition pending (r : bytes) : Z := Z.of_nat (length r).

(** ** Variable-length integers *)

Lemma varuint_step value :
  0 ≤ value →
  is_byte (Z.land value 127) ∧ Z.land value 127 < 128 ∧
  Z.lor (Z.land value 127) 128 = Z.land value 127 + 128.
Proof.
  intros Hv. rewrite land_7f.
  assert (0 ≤ value mod 128 < 128) by (apply Z.mod_pos_bound; lia).
  split_and!; [split; [lia|change (2 ^ 8) with 256; lia] | lia |].
  exact (lor_shiftl_add 7 (value mod 128) 1 ltac:(lia) ltac:(split; lia)).
Qed.

Lemma shiftr7_small w value :
  0 ≤ w → fits (7 + w) value → fits w (Z.shiftr value 7).
Proof.
  intros Hw [H1 H2]. unfold fits. rewrite Z.shiftr_div_pow2 by lia.
  split; [apply Z.div_pos; lia|]. apply Z.div_lt_upper_bound; [lia|].
  rewrite <- Z.pow_add_r; [done|lia|lia].
Qed.

Lemma varuint_loop_nonempty fuel value : fuel ≠ O → varuint_loop fuel value ≠ [].
Proof. destruct fuel; [done|]; cbn; by destruct (_ =? 0). Qed.

Lemma varuint_loop_length fuel value : (length (varuint_loop fuel value) ≤ fuel)%nat.
Proof.
  revert value; induction fuel as [|fuel IH]; intros value; cbn; [lia|].
  destruct (_ =? 0); cbn; [lia|]. specialize (IH (Z.shiftr value 7)); lia.
Qed.

Lemma varuint_loop_bytes fuel value :
  0 ≤ value → all_bytes (varuint_loop fuel value).
Proof.
  revert value; induction fuel as [|fuel IH]; intros value Hv; cbn; [constructor|].
  destruct (varuint_step value Hv) as (Hb & Hl & Hor).
  destruct (_ =? 0); repeat constructor; try apply Hb.
  - rewrite Hor. unfold is_byte, fits in *; lia.
  - rewrite Hor. change (2 ^ 8) with 256. lia.
  - apply IH. rewrite Z.shiftr_div_pow2 by lia. apply Z.div_pos; lia.
Qed.

(** Ten iterations are enough: more fuel gives the same bytes. *)
Lemma varuint_loop_fuel n k value :
  fits (7 * Z.of_nat n) value → (0 < n)%nat →
  varuint_loop (n + k) value = varuint_loop n value.
Proof.
  revert value; induction n as [|n IH]; intros value Hv Hn; [lia|].
  cbn [varuint_loop Nat.add]. destruct (Z.eqb_spec (Z.shiftr value 7) 0); [done|].
  assert (Hs : fits (7 * Z.of_nat n) (Z.shiftr value 7)).
  { apply shiftr7_small; [lia|]. by replace (7 + 7 * Z.of_nat n) with (7 * Z.of_nat (S n)) by lia. }
  destruct (decide (n = O)) as [->|Hn0].
  - exfalso. unfold fits in Hs. change (2 ^ (7 * Z.of_nat 0)) with 1 in Hs. lia.
  - f_equal. apply IH; [done|lia].
Qed.

Lemma scan_step i acc b r :
  is_byte b → 0 ≤ i < 10 →
  varuint_scan i acc (b :: r) =
  let acc := Z.lor acc (u64 (Z.shiftl (b mod 128) (7 * i))) in
  if b <? 128 then Ok (Some (acc, r)) else varuint_scan (i + 1) acc r.
Proof.
  intros Hb Hi. cbn [varuint_scan]. rewrite land_7f, land_80_zero by done.
  destruct (Z.leb_spec 64 (7 * i)); [lia|]. done.
Qed.

(** The scan undoes the loop, from any position and accumulator. *)
Lemma scan_loop n i acc value rest :
  0 ≤ i → i + Z.of_nat n = 10 → (0 < n)%nat →
  fits (7 * i) acc → 0 ≤ value → fits 64 (value * 2 ^ (7 * i)) →
  varuint_scan i acc (varuint_loop n value ++ rest) =
  Ok (Some (acc + value * 2 ^ (7 * i), rest)).
Proof.
  revert i acc value; induction n as [|n IH]; intros i acc value Hi Hin Hn Hacc Hv Hfit; [lia|].
  destruct (varuint_step value Hv) as (Hb & Hl & Hor).
  pose proof (Z.div_mod value 128 ltac:(lia)) as Hdm.
  pose proof (Z.mod_pos_bound value 128 ltac:(lia)) as Hm.
  assert (Hpow : 0 < 2 ^ (7 * i)) by (apply Z.pow_pos_nonneg; lia).
  assert (Hlow : fits 64 (Z.shiftl (value mod 128) (7 * i))).
  { rewrite Z.shiftl_mul_pow2 by lia. destruct Hfit as [_ Hfit]. split; [nia|].
    eapply Z.le_lt_trans; [|exact Hfit]. apply Z.mul_le_mono_nonneg_r; [lia|].
    apply Z.mod_le; lia. }
  cbn [varuint_loop]. rewrite Z.shiftr_div_pow2 by lia. change (2 ^ 7) with 128.
  destruct (Z.eqb_spec (value / 128) 0) as [E|E]; cbn [app].
  - rewrite scan_step by (done || lia). cbn zeta.
    rewrite (proj2 (Z.ltb_lt _ _) Hl), land_7f, Zmod_mod, unsigned_id by done.
    rewrite lor_shiftl_add by (done || lia). repeat f_equal. lia.
  - assert (Hb' : is_byte (Z.lor (Z.land value 127) 128)).
    { rewrite Hor. unfold is_byte, fits in *; change (2 ^ 8) with 256; lia. }
    rewrite scan_step by (done || lia). cbn zeta.
    rewrite Hor, land_7f.
    destruct (Z.ltb_spec (value mod 128 + 128) 128); [lia|].
    replace ((value mod 128 + 128) mod 128) with (value mod 128)
      by (rewrite <- (Z.mul_1_l 128) at 3; rewrite Z_mod_plus_full, Zmod_mod; done).
    rewrite unsigned_id, lor_shiftl_add by (done || lia).
    assert (Hn0 : n ≠ O).
    { intros ->. assert (Hi9 : i = 9) by lia. subst i.
      assert (0 < value / 128) by (pose proof (Z.div_pos value 128 Hv ltac:(lia)); lia).
      destruct Hfit as [_ Hfit]. change (2 ^ (7 * 9)) with (2 ^ 63) in Hfit.
      change (2 ^ 64) with (2 * 2 ^ 63) in Hfit. nia. }
    assert (Hp : 2 ^ (7 * (i + 1)) = 2 ^ (7 * i) * 128) by
      (replace (7 * (i + 1)) with (7 * i + 7) by lia; rewrite Z.pow_add_r by lia; done).
    assert (Hq : 0 ≤ value / 128) by (apply Z.div_pos; lia).
    rewrite IH; [| |lia|lia| |done|]; try lia.
    + do 3 f_equal. rewrite Hp. nia.
    + unfold fits in *. rewrite Hp. nia.
    + unfold fits in *. rewrite Hp. nia.
Qed.

Lemma tryParseVarUInt_write v rest :
  fits 64 v → tryParseVarUInt (writeVarUInt v ++ rest) = Ok (Some v, rest).
Proof.
  intros Hv. unfold tryParseVarUInt, writeVarUInt. rewrite (unsigned_id 64 v Hv).
  rewrite (scan_loop 10 0 0 v rest); try lia.
  - cbn. by rewrite Z.mul_1_r.
  - split; [lia|reflexivity].
  - apply Hv.
  - change (2 ^ (7 * 0)) with 1. by rewrite Z.mul_1_r.
Qed.

Lemma parseVarUInt_write v rest :
  fits 64 v → parseVarUInt (writeVarUInt v ++ rest) = Ok (v, rest).
Proof. intros Hv. unfold parseVarUInt. by rewrite tryParseVarUInt_write. Qed.

(** A proper prefix of an encoded integer is recognised as incomplete: the
    reader asks for more data and leaves its position alone. *)
Lemma scan_prefix n i acc value p q :
  0 ≤ i → i + Z.of_nat n = 10 → 0 ≤ value → q ≠ [] →
  varuint_loop n value = p ++ q → varuint_scan i acc p = Ok None.
Proof.
  revert i acc value p; induction n as [|n IH]; intros i acc value p Hi Hin Hv Hq E.
  { by destruct p, q. }
  destruct p as [|b p]; [done|].
  destruct (varuint_step value Hv) as (Hb & Hl & Hor). cbn [varuint_loop] in E.
  destruct (_ =? 0); cbn [app] in E.
  { injection E as _ E. symmetry in E. apply app_nil in E as [_ ->]. done. }
  injection E as <- E.
  assert (is_byte (Z.lor (Z.land value 127) 128)).
  { rewrite Hor. unfold is_byte, fits in *; change (2 ^ 8) with 256; lia. }
  rewrite scan_step by (done || lia). cbn zeta.
  rewrite Hor. destruct (Z.ltb_spec (Z.land value 127 + 128) 128) as [C|_].
  { unfold is_byte, fits in Hb; lia. }
  eapply (IH _ _ (Z.shiftr value 7)); [lia|lia| |done|done].
  rewrite Z.shiftr_div_pow2 by lia. apply Z.div_pos; lia.
Qed.

Lemma tryParseVarUInt_prefix v p q :
  q ≠ [] → writeVarUInt v = p ++ q → tryParseVarUInt p = Ok (None, p).
Proof.
  intros Hq E. unfold tryParseVarUInt.
  rewrite (scan_prefix 10 0 0 (u64 v) p q); [done|lia|lia| |done|done].
  by apply unsigned_fits.
Qed.

(** ** Length-delimited data *)

Lemma parseLengthDelimited_write data rest :
  fits 64 (Z.of_nat (length data)) →
  parseLengthDelimited (writeLengthDelimited data ++ rest) = Ok (data, rest).
Proof.
  intros Hl. unfold parseLengthDelimited, writeLengthDelimited.
  rewrite <- app_assoc, parseVarUInt_write by done. cbn.
  rewrite length_app. destruct (Z.ltb_spec (Z.of_nat (length data + length rest)) (Z.of_nat (length data))); [lia|].
  rewrite Nat2Z.id, take_app_length, drop_app_length. done.
Qed.

(** ** Fixed-width integers *)

Lemma le_bytes_length n value : length (le_bytes n value) = n.
Proof. revert value; induction n as [|n IH]; intros; cbn; [done|]. by rewrite IH. Qed.

Lemma le_value_bytes n value :
  0 ≤ value → le_value (le_bytes n value) = value mod 2 ^ (8 * Z.of_nat n).
Proof.
  revert value; induction n as [|n IH]; intros value Hv.
  { cbn. by rewrite Z.mod_1_r. }
  cbn [le_bytes le_value].
  change 255 with (2 ^ 8 - 1). rewrite land_low by lia.
  rewrite Z.shiftr_div_pow2, IH by (lia || (rewrite ?Z.shiftr_div_pow2 by lia; apply Z.div_pos; lia)).
  rewrite lor_shiftl_add; [|lia|apply Z.mod_pos_bound; lia].
  replace (8 * Z.of_nat (S n)) with (8 + 8 * Z.of_nat n) by lia.
  rewrite Z.pow_add_r, Z.rem_mul_r by lia. lia.
Qed.

(** ** Zig-zag integers *)

Lemma lxor_ones w a : 0 ≤ w → fits w a → Z.lxor a (2 ^ w - 1) = 2 ^ w - 1 - a.
Proof.
  intros Hw Ha. replace (2 ^ w - 1) with (Z.ones w) by (rewrite Z.ones_equiv; lia).
  assert (Hs : Z.ldiff a (Z.ones w) = 0).
  { rewrite Z.ldiff_ones_r by lia. rewrite Z.shiftr_div_pow2, Z.div_small by (apply Ha || lia).
    apply Z.shiftl_0_l. }
  rewrite (Z.sub_nocarry_ldiff (Z.ones w) a Hs).
  apply Z.bits_inj'; intros k Hk. rewrite Z.lxor_spec, Z.ldiff_spec.
  apply (f_equal (fun z => Z.testbit z k)) in Hs. rewrite Z.ldiff_spec, Z.bits_0 in Hs.
  by destruct (Z.testbit a k), (Z.testbit (Z.ones w) k).
Qed.
Lemma lxor_m1 a : Z.lxor a (-1) = - a - 1.
Proof. rewrite Z.lxor_m1_r. unfold Z.lnot. lia. Qed.

Lemma unsigned_congr w a b k : 0 ≤ w → a = b + k * 2 ^ w → fits w b → unsigned w a = b.
Proof. intros Hw -> Hb. unfold unsigned. rewrite Z_mod_plus_full. by apply Z.mod_small. Qed.

Lemma signed_congr w a b k :
  0 < w → a = b + k * 2 ^ w → - 2 ^ (w - 1) ≤ b < 2 ^ (w - 1) → signed w a = b.
Proof.
  intros Hw -> Hb. etransitivity; [|apply (signed_id w b Hw Hb)]. unfold signed.
  replace (b + k * 2 ^ w + 2 ^ (w - 1)) with (b + 2 ^ (w - 1) + k * 2 ^ w) by lia.
  by rewrite Z_mod_plus_full.
Qed.

Lemma shiftr_sign w n :
  0 ≤ w → - 2 ^ w ≤ n < 2 ^ w → Z.shiftr n w = if n <? 0 then -1 else 0.
Proof.
  intros Hw Hn. rewrite Z.shiftr_div_pow2 by lia. destruct (Z.ltb_spec n 0).
  - symmetry. apply Z.div_unique with (n + 2 ^ w); lia.
  - apply Z.div_small; lia.
Qed.

(** [unzigzag] on an even and on an odd 64-bit value. *)
Lemma unzigzag_even h : fits 63 h → unzigzag (2 * h) = h.
Proof.
  intros Hh. unfold unzigzag. rewrite Z.shiftr_div_pow2 by lia.
  change (2 ^ 1) with 2. rewrite Z.mul_comm, Z.div_mul by lia.
  replace (Z.land (h * 2) 1) with 0.
  - cbn. by rewrite Z.lxor_0_r.
  - change 1 with (Z.ones 1). rewrite Z.land_ones by lia. by rewrite Z.mod_mul by lia.
Qed.

Lemma unzigzag_odd h : fits 63 h → unzigzag (2 * h + 1) = 2 ^ 64 - 1 - h.
Proof.
  intros Hh. unfold unzigzag. rewrite Z.shiftr_div_pow2 by lia.
  change (2 ^ 1) with 2. replace ((2 * h + 1) / 2) with h by (apply Z.div_unique with 1; lia).
  replace (Z.land (2 * h + 1) 1) with 1.
  - change (u64 (- (1))) with (2 ^ 64 - 1). apply lxor_ones; [lia|].
    eapply fits_mono; [|done]; lia.
  - change 1 with (Z.ones 1) at 3. rewrite Z.land_ones by lia.
    change (2 ^ 1) with 2. by rewrite Z.add_comm, Z.mul_comm, Z_mod_plus_full.
Qed.

(** What a 32-bit integer comes back as. *)
Definition sint32_readback (n : Z) : Z :=
  if 2 ^ 30 <=? n then n - 2 ^ 31 else if n <? - 2 ^ 30 then n + 2 ^ 31 else n.

(** ** Properties *)

(** Reading back what the writer appended gives the same
    64-bit unsigned integer and leaves exactly the bytes that followed it. *)
Theorem varuint_roundtrip (v : Z) (rest : bytes) :
  fits 64 v → parseVarUInt (writeVarUInt v ++ rest) = Ok (v, rest).
Proof. apply parseVarUInt_write. Qed.

Lemma varuint_roundtrip_witness :
  parseVarUInt (writeVarUInt 18446744073709551615 ++ [42]) = Ok (18446744073709551615, [42]).
Proof. apply (varuint_roundtrip 18446744073709551615 [42]). split; [lia|reflexivity]. Defined.

(** Every 64-bit signed integer survives the zig-zag encoding. *)
Theorem varsint64_roundtrip (n : Z) (rest : bytes) :
  - 2 ^ 63 ≤ n < 2 ^ 63 →
  parseVarSInt64 (writeVarSInt64 n ++ rest) = Ok (n, rest).
Proof.
  intros Hn. unfold parseVarSInt64, writeVarSInt64.
  rewrite (shiftr_sign 63 n) by lia.
  set (zz := Z.lxor _ _).
  assert (Hz : u64 zz = if n <? 0 then 2 * (- n - 1) + 1 else 2 * n).
  { subst zz. rewrite Z.shiftl_mul_pow2 by lia. unfold signed.
    pose proof (Z.div_mod (n * 2 ^ 1 + 2 ^ (64 - 1)) (2 ^ 64) ltac:(lia)) as Hd.
    destruct (Z.ltb_spec n 0).
    - rewrite lxor_m1.
      apply unsigned_congr with (k := (n * 2 ^ 1 + 2 ^ (64 - 1)) / 2 ^ 64); unfold fits; lia.
    - rewrite Z.lxor_0_r.
      apply unsigned_congr with (k := - ((n * 2 ^ 1 + 2 ^ (64 - 1)) / 2 ^ 64)); unfold fits; lia. }
  replace (writeVarUInt zz) with (writeVarUInt (u64 zz))
    by (unfold writeVarUInt; f_equal; apply unsigned_id, unsigned_fits; lia).
  rewrite parseVarUInt_write by (apply unsigned_fits; lia). cbn [mbind result_bind].
  rewrite Hz. do 2 f_equal. destruct (Z.ltb_spec n 0).
  - rewrite unzigzag_odd by auto with x0. apply signed_congr with 1; lia.
  - rewrite unzigzag_even by auto with x0. apply signed_congr with 0; lia.
Qed.

Lemma varsint64_roundtrip_witness :
  parseVarSInt64 (writeVarSInt64 (-9223372036854775808) ++ []) = Ok (-9223372036854775808, []).
Proof. apply (varsint64_roundtrip (-9223372036854775808) []). lia. Defined.

(** The 32-bit zig-zag pair is faithful exactly on the
    integers of 31 bits: beyond them [writeVarSInt32] sign-extends its
    intermediate [int] to 64 bits and the integer is read back with the wrong
    sign. *)
Theorem varsint32_readback (n : Z) (rest : bytes) :
  - 2 ^ 31 ≤ n < 2 ^ 31 →
  parseVarSInt32 (writeVarSInt32 n ++ rest) = Ok (sint32_readback n, rest).
Proof.
  intros Hn. unfold parseVarSInt32, writeVarSInt32, sint32_readback.
  rewrite (shiftr_sign 31 n), Z.shiftl_mul_pow2 by lia. change (2 ^ 1) with 2.
  set (zz := Z.lxor _ _).
  assert (Hs : s32 (n * 2) = if 2 ^ 30 <=? n then n * 2 - 2 ^ 32
                             else if n <? - 2 ^ 30 then n * 2 + 2 ^ 32 else n * 2).
  { destruct (Z.leb_spec (2 ^ 30) n); [|destruct (Z.ltb_spec n (- 2 ^ 30))].
    - apply signed_congr with 1; lia.
    - apply signed_congr with (-1); lia.
    - apply signed_congr with 0; lia. }
  assert (Hz : u64 zz = if 2 ^ 30 <=? n then 2 * (n + 2 ^ 63 - 2 ^ 31)
                        else if n <? - 2 ^ 30 then 2 * (2 ^ 63 - n - 2 ^ 31 - 1) + 1
                        else if n <? 0 then 2 * (- n - 1) + 1 else 2 * n).
  { subst zz. rewrite Hs. destruct (Z.leb_spec (2 ^ 30) n), (Z.ltb_spec n (- 2 ^ 30)), (Z.ltb_spec n 0);
      try lia; rewrite ?lxor_m1, ?Z.lxor_0_r.
    - apply unsigned_congr with (-1); unfold fits; lia.
    - apply unsigned_congr with (-1); unfold fits; lia.
    - apply unsigned_congr with 0; unfold fits; lia.
    - apply unsigned_congr with 0; unfold fits; lia. }
  replace (writeVarUInt zz) with (writeVarUInt (u64 zz))
    by (unfold writeVarUInt; f_equal; apply unsigned_id, unsigned_fits; lia).
  rewrite parseVarUInt_write by (apply unsigned_fits; lia). cbn [mbind result_bind].
  rewrite Hz. do 2 f_equal.
  destruct (Z.leb_spec (2 ^ 30) n); [|destruct (Z.ltb_spec n (- 2 ^ 30)); [|destruct (Z.ltb_spec n 0)]].
  - rewrite unzigzag_even by auto with x0. apply signed_congr with (2 ^ 31); lia.
  - rewrite unzigzag_odd by auto with x0. apply signed_congr with (2 ^ 31); lia.
  - rewrite unzigzag_odd by auto with x0. apply signed_congr with (2 ^ 32); lia.
  - rewrite unzigzag_even by auto with x0. apply signed_congr with 0; lia.
Qed.

Lemma varsint32_readback_witness :
  parseVarSInt32 (writeVarSInt32 1073741824 ++ []) = Ok (-1073741824, []).
Proof. apply (varsint32_readback 1073741824 []). lia. Defined.

(** Fixed-width integers and length-delimited strings come back unchanged. *)
Lemma fixed64_roundtrip v rest :
  fits 64 v → parseFixed64 (writeFixed64 v ++ rest) = Ok (v, rest).
Proof.
  intros Hv. unfold parseFixed64, writeFixed64. rewrite (unsigned_id 64 v Hv).
  pose proof (le_bytes_length 8 v) as Hl.
  rewrite length_app, Hl. destruct (Z.ltb_spec (Z.of_nat (8 + length rest)) 8); [lia|].
  rewrite take_app_length', drop_app_length' by done.
  rewrite le_value_bytes by apply Hv. do 2 f_equal. by apply Z.mod_small.
Qed.

Lemma fixed32_roundtrip v rest :
  fits 32 v → parseFixed32 (writeFixed32 v ++ rest) = Ok (v, rest).
Proof.
  intros Hv. unfold parseFixed32, writeFixed32. rewrite (unsigned_id 32 v Hv).
  pose proof (le_bytes_length 4 v) as Hl.
  rewrite length_app, Hl. destruct (Z.ltb_spec (Z.of_nat (4 + length rest)) 4); [lia|].
  rewrite take_app_length', drop_app_length' by done.
  rewrite le_value_bytes by apply Hv. do 2 f_equal. by apply Z.mod_small.
Qed.
