(* ===== verification/RaftCodec.v ===== *)
(** * The Raft wire protocol

    [src/xzero/raft/rpc.h] (messages), [src/xzero/raft/Generator.cc] (encoder)
    and [src/xzero/raft/Parser.cc] (incremental decoder).

    The generator collects one message in [buffer_] and [flushFrame] sends it
    behind its length; an operation is the function from the message to the
    bytes handed to the chunk writer. The parser keeps the bytes received so
    far ([inputBuffer_]) and how many of them are consumed ([inputOffset_]);
    messages go to the listener, modelled as the list of messages received. *)
From S2P Require Import Prelude Binary.

(** ** Messages *)

(** [LogType] has no fixed underlying type: a value outside the enumerators is
    kept as GCC stores it, as a 32-bit unsigned integer. *)
Definition LOG_COMMAND : Z := 1.
Definition LOG_PEER_ADD : Z := 2.
Definition LOG_PEER_REMOVE : Z := 3.

Record LogEntry := mkLogEntry {
  entry_term : Z;
  entry_type : Z;
  entry_command : bytes;
}.

(** [LogEntry()], the entry stored at index 0. *)
Definition emptyLogEntry : LogEntry := mkLogEntry 0 LOG_COMMAND [].

#[export] Instance LogEntry_eq_dec : EqDecision LogEntry.
Proof. solve_decision. Defined.

Record HelloRequest := mkHelloRequest { hq_serverId : Z; hq_psk : bytes }.
Record HelloResponse := mkHelloResponse { hs_success : bool; hs_message : bytes }.
Record VoteRequest := mkVoteRequest {
  vq_term : Z; vq_candidateId : Z; vq_lastLogIndex : Z; vq_lastLogTerm : Z }.
Record VoteResponse := mkVoteResponse { vs_term : Z; vs_voteGranted : bool }.
Record AppendEntriesRequest := mkAppendEntriesRequest {
  aq_term : Z; aq_leaderId : Z; aq_prevLogIndex : Z; aq_prevLogTerm : Z;
  aq_leaderCommit : Z; aq_entries : list LogEntry }.
Record AppendEntriesResponse := mkAppendEntriesResponse {
  as_term : Z; as_lastLogIndex : Z; as_success : bool }.
Record InstallSnapshotRequest := mkInstallSnapshotRequest {
  iq_term : Z; iq_leaderId : Z; iq_lastIncludedIndex : Z; iq_lastIncludedTerm : Z;
  iq_offset : Z; iq_data : bytes; iq_done : bool }.
Record InstallSnapshotResponse := mkInstallSnapshotResponse { is_term : Z }.

Inductive RaftMessage : Type :=
  | MsgVoteRequest (m : VoteRequest)
  | MsgVoteResponse (m : VoteResponse)
  | MsgAppendEntriesRequest (m : AppendEntriesRequest)
  | MsgAppendEntriesResponse (m : AppendEntriesResponse)
  | MsgInstallSnapshotRequest (m : InstallSnapshotRequest)
  | MsgInstallSnapshotResponse (m : InstallSnapshotResponse)
  | MsgHelloRequest (m : HelloRequest)
  | MsgHelloResponse (m : HelloResponse).

(** The [MessageType] a message is sent under. *)
Definition messageType (m : RaftMessage) : Z :=
  match m with
  | MsgVoteRequest _ => 1
  | MsgVoteResponse _ => 2
  | MsgAppendEntriesRequest _ => 3
  | MsgAppendEntriesResponse _ => 4
  | MsgInstallSnapshotRequest _ => 5
  | MsgInstallSnapshotResponse _ => 6
  | MsgHelloRequest _ => 7
  | MsgHelloResponse _ => 8
  end.

(** ** Generator *)

Definition flushFrame (buffer : bytes) : bytes :=
  writeVarUInt (Z.of_nat (length buffer)) ++ buffer.

Definition writeBool (b : bool) : bytes := writeVarUInt (if b then 1 else 0).

Definition fillHelloRequest (m : HelloRequest) : bytes :=
  writeVarUInt (hq_serverId m) ++ writeString (hq_psk m).

Definition fillHelloResponse (m : HelloResponse) : bytes :=
  writeBool (hs_success m) ++ writeString (hs_message m).

Definition fillVoteRequest (m : VoteRequest) : bytes :=
  writeVarUInt (vq_term m) ++ writeVarUInt (vq_candidateId m) ++
  writeVarUInt (vq_lastLogIndex m) ++ writeVarUInt (vq_lastLogTerm m).

Definition fillVoteResponse (m : VoteResponse) : bytes :=
  writeVarUInt (vs_term m) ++ writeBool (vs_voteGranted m).

Definition fillLogEntry (e : LogEntry) : bytes :=
  writeVarUInt (entry_term e) ++ writeVarUInt (entry_type e) ++
  writeLengthDelimited (entry_command e).

Definition fillAppendEntriesRequest (m : AppendEntriesRequest) : bytes :=
  writeVarUInt (aq_term m) ++ writeVarUInt (aq_leaderId m) ++
  writeVarUInt (aq_prevLogIndex m) ++ writeVarUInt (aq_prevLogTerm m) ++
  writeVarUInt (aq_leaderCommit m) ++
  writeVarUInt (Z.of_nat (length (aq_entries m))) ++
  mjoin (map fillLogEntry (aq_entries m)).

Definition fillAppendEntriesResponse (m : AppendEntriesResponse) : bytes :=
  writeVarUInt (as_term m) ++ writeVarUInt (as_lastLogIndex m) ++
  writeBool (as_success m).

Definition fillInstallSnapshotRequest (m : InstallSnapshotRequest) : bytes :=
  writeVarUInt (iq_term m) ++ writeVarUInt (iq_leaderId m) ++
  writeVarUInt (iq_lastIncludedIndex m) ++ writeVarUInt (iq_lastIncludedTerm m) ++
  writeVarUInt (iq_offset m) ++ writeLengthDelimited (iq_data m) ++
  writeBool (iq_done m).

Definition fillInstallSnapshotResponse (m : InstallSnapshotResponse) : bytes :=
  writeVarUInt (is_term m).

(** The contents of [buffer_] when [flushFrame] is called. *)
Definition raftPayload (m : RaftMessage) : bytes :=
  writeVarUInt (messageType m) ++
  match m with
  | MsgVoteRequest m => fillVoteRequest m
  | MsgVoteResponse m => fillVoteResponse m
  | MsgAppendEntriesRequest m => fillAppendEntriesRequest m
  | MsgAppendEntriesResponse m => fillAppendEntriesResponse m
  | MsgInstallSnapshotRequest m => fillInstallSnapshotRequest m
  | MsgInstallSnapshotResponse m => fillInstallSnapshotResponse m
  | MsgHelloRequest m => fillHelloRequest m
  | MsgHelloResponse m => fillHelloResponse m
  end.

Definition generateHelloRequest (m : HelloRequest) : bytes :=
  flushFrame (writeVarUInt 7 ++ fillHelloRequest m).
Definition generateHelloResponse (m : HelloResponse) : bytes :=
  flushFrame (writeVarUInt 8 ++ fillHelloResponse m).
Definition generateVoteRequest (m : VoteRequest) : bytes :=
  flushFrame (writeVarUInt 1 ++ fillVoteRequest m).
Definition generateVoteResponse (m : VoteResponse) : bytes :=
  flushFrame (writeVarUInt 2 ++ fillVoteResponse m).
Definition generateAppendEntriesRequest (m : AppendEntriesRequest) : bytes :=
  flushFrame (writeVarUInt 3 ++ fillAppendEntriesRequest m).
Definition generateAppendEntriesResponse (m : AppendEntriesResponse) : bytes :=
  flushFrame (writeVarUInt 4 ++ fillAppendEntriesResponse m).
Definition generateInstallSnapshotRequest (m : InstallSnapshotRequest) : bytes :=
  flushFrame (writeVarUInt 5 ++ fillInstallSnapshotRequest m).
Definition generateInstallSnapshotResponse (m : InstallSnapshotResponse) : bytes :=
  flushFrame (writeVarUInt 6 ++ fillInstallSnapshotResponse m).

(** The [generate...] operation a message of each kind is sent with. *)
Definition raftGenerate (m : RaftMessage) : bytes :=
  match m with
  | MsgVoteRequest m => generateVoteRequest m
  | MsgVoteResponse m => generateVoteResponse m
  | MsgAppendEntriesRequest m => generateAppendEntriesRequest m
  | MsgAppendEntriesResponse m => generateAppendEntriesResponse m
  | MsgInstallSnapshotRequest m => generateInstallSnapshotRequest m
  | MsgInstallSnapshotResponse m => generateInstallSnapshotResponse m
  | MsgHelloRequest m => generateHelloRequest m
  | MsgHelloResponse m => generateHelloResponse m
  end.

Lemma raftGenerate_eq m : raftGenerate m = flushFrame (raftPayload m).
Proof. by destruct m. Qed.

(** ** Parser *)

Definition parseHelloRequest (r : bytes) : result (HelloRequest * bytes) :=
  '(serverId, r) ← parseVarUInt r;
  '(psk, r) ← parseString r;
  Ok (mkHelloRequest (u32 serverId) psk, r).

(** [static_cast<bool>] of an integer. *)
Definition parseBool (r : bytes) : result (bool * bytes) :=
  '(v, r) ← parseVarUInt r; Ok (negb (v =? 0), r).

Definition parseHelloResponse (r : bytes) : result (HelloResponse * bytes) :=
  '(success, r) ← parseBool r;
  '(msg, r) ← parseString r;
  Ok (mkHelloResponse success msg, r).

Definition parseVoteRequest (r : bytes) : result (VoteRequest * bytes) :=
  '(term, r) ← parseVarUInt r;
  '(candidateId, r) ← parseVarUInt r;
  '(lastLogIndex, r) ← parseVarUInt r;
  '(lastLogTerm, r) ← parseVarUInt r;
  Ok (mkVoteRequest term (u32 candidateId) lastLogIndex lastLogTerm, r).

Definition parseVoteResponse (r : bytes) : result (VoteResponse * bytes) :=
  '(term, r) ← parseVarUInt r;
  '(voteGranted, r) ← parseBool r;
  Ok (mkVoteResponse term voteGranted, r).

Definition parseLogEntry (r : bytes) : result (LogEntry * bytes) :=
  '(term, r) ← parseVarUInt r;
  '(type, r) ← parseVarUInt r;
  '(command, r) ← parseLengthDelimited r;
  Ok (mkLogEntry term (u32 type) command, r).

(** The [for] loop over [entryCount]. Each entry consumes at least one byte,
    so the loop leaves by its bound or by an exception within as many
    iterations as there are bytes, which bounds the fuel. *)
Fixpoint parseLogEntries (fuel : nat) (count : Z) (r : bytes) : result (list LogEntry * bytes) :=
  if count =? 0 then Ok ([], r) else
  match fuel with
  | O => Raise IOError
  | S fuel =>
      '(e, r) ← parseLogEntry r;
      '(es, r) ← parseLogEntries fuel (count - 1) r;
      Ok (e :: es, r)
  end.

Definition parseAppendEntriesRequest (r : bytes) : result (AppendEntriesRequest * bytes) :=
  '(term, r) ← parseVarUInt r;
  '(leaderId, r) ← parseVarUInt r;
  '(prevLogIndex, r) ← parseVarUInt r;
  '(prevLogTerm, r) ← parseVarUInt r;
  '(leaderCommit, r) ← parseVarUInt r;
  '(entryCount, r) ← parseVarUInt r;
  '(entries, r) ← parseLogEntries (S (length r)) entryCount r;
  Ok (mkAppendEntriesRequest term (u32 leaderId) prevLogIndex prevLogTerm leaderCommit entries, r).

Definition parseAppendEntriesResponse (r : bytes) : result (AppendEntriesResponse * bytes) :=
  '(term, r) ← parseVarUInt r;
  '(lastLogIndex, r) ← parseVarUInt r;
  '(success, r) ← parseBool r;
  Ok (mkAppendEntriesResponse term lastLogIndex success, r).

Definition parseInstallSnapshotRequest (r : bytes) : result (InstallSnapshotRequest * bytes) :=
  '(term, r) ← parseVarUInt r;
  '(leaderId, r) ← parseVarUInt r;
  '(lastIncludedIndex, r) ← parseVarUInt r;
  '(lastIncludedTerm, r) ← parseVarUInt r;
  '(offset, r) ← parseVarUInt r;
  '(data, r) ← parseLengthDelimited r;
  '(done, r) ← parseBool r;
  Ok (mkInstallSnapshotRequest term (u32 leaderId) lastIncludedIndex lastIncludedTerm
        offset data done, r).

Definition parseInstallSnapshotResponse (r : bytes) : result (InstallSnapshotResponse * bytes) :=
  '(term, r) ← parseVarUInt r; Ok (mkInstallSnapshotResponse term, r).

Record RaftParser := mkRaftParser { inputBuffer : bytes; inputOffset : nat }.

Definition initRaftParser : RaftParser := mkRaftParser [] 0.

(** The [switch] of [parseFrame]; the message type is converted to the 8-bit
    underlying type of [MessageType]. *)
Definition dispatchMessage (type : Z) (r : bytes) : result (RaftMessage * bytes) :=
  match u8 type with
  | 1 => '(m, r) ← parseVoteRequest r; Ok (MsgVoteRequest m, r)
  | 2 => '(m, r) ← parseVoteResponse r; Ok (MsgVoteResponse m, r)
  | 3 => '(m, r) ← parseAppendEntriesRequest r; Ok (MsgAppendEntriesRequest m, r)
  | 4 => '(m, r) ← parseAppendEntriesResponse r; Ok (MsgAppendEntriesResponse m, r)
  | 5 => '(m, r) ← parseInstallSnapshotRequest r; Ok (MsgInstallSnapshotRequest m, r)
  | 6 => '(m, r) ← parseInstallSnapshotResponse r; Ok (MsgInstallSnapshotResponse m, r)
  | 7 => '(m, r) ← parseHelloRequest r; Ok (MsgHelloRequest m, r)
  | 8 => '(m, r) ← parseHelloResponse r; Ok (MsgHelloResponse m, r)
  | _ => Raise ProtocolError
  end.

(** One call of [parseFrame]: [None] is the return value [false]. *)
Definition raftParseFrame (p : RaftParser) : result (option RaftMessage * RaftParser) :=
  let r := drop (inputOffset p) (inputBuffer p) in
  '(payloadLen, r) ← tryParseVarUInt r;
  match payloadLen with
  | None => Ok (None, p)
  | Some len =>
      if pending r <? len then Ok (None, p) else
      '(type, r) ← parseVarUInt r;
      '(m, r) ← dispatchMessage type r;
      Ok (Some m,
          if 0 <? pending r
          then mkRaftParser (inputBuffer p) (length (inputBuffer p) - length r)
          else mkRaftParser [] 0)
  end.

(** The loop of [parseFragment]. The messages received before an exception
    stay received; the exception is the third component. Every frame consumes
    a byte, which bounds the number of iterations. *)
Fixpoint raftParseLoop (fuel : nat) (p : RaftParser) : list RaftMessage * RaftParser * option exn :=
  match fuel with
  | O => ([], p, None)
  | S fuel =>
      match raftParseFrame p with
      | Raise e => ([], p, Some e)
      | Ok (None, p) => ([], p, None)
      | Ok (Some m, p) =>
          let '(ms, p, e) := raftParseLoop fuel p in (m :: ms, p, e)
      end
  end.

Definition raftParseFragment (p : RaftParser) (chunk : bytes) : list RaftMessage * RaftParser * option exn :=
  let p := mkRaftParser (inputBuffer p ++ chunk) (inputOffset p) in
  raftParseLoop (S (length (inputBuffer p))) p.

(** A connection's sequence of received fragments. *)
Fixpoint raftParseFragments (p : RaftParser) (chunks : list bytes) : list RaftMessage * RaftParser * option exn :=
  match chunks with
  | [] => ([], p, None)
  | c :: cs =>
      match raftParseFragment p c with
      | (ms, p, Some e) => (ms, p, Some e)
      | (ms, p, None) =>
          let '(ms', p, e) := raftParseFragments p cs in (ms ++ ms', p, e)
      end
  end.

(** ** Round trip of the message bodies *)

(** What an encoder, a decoder and the range check of a type promise each
    other: the decoder returns the value and stops right behind it. *)
Class WireCodec {A} (enc : A → bytes) (dec : bytes → result (A * bytes)) (ok : A → bool) : Prop :=
  dec_enc a rest : ok a = true → dec (enc a ++ rest) = Ok (a, rest).

Definition len_ok (l : bytes) : bool := fitsb 64 (Z.of_nat (length l)).

#[export] Instance varuint_codec : WireCodec writeVarUInt parseVarUInt (fitsb 64).
Proof. intros v rest Hv. by apply parseVarUInt_write, fitsb_spec. Qed.

#[export] Instance bool_codec : WireCodec writeBool parseBool (λ _, true).
Proof.
  intros b rest _. unfold parseBool, writeBool.
  rewrite parseVarUInt_write by (destruct b; split; reflexivity || lia). by destruct b.
Qed.

#[export] Instance delimited_codec : WireCodec writeLengthDelimited parseLengthDelimited len_ok.
Proof. intros l rest Hl. by apply parseLengthDelimited_write, fitsb_spec. Qed.

#[export] Instance string_codec : WireCodec writeString parseString len_ok.
Proof. apply delimited_codec. Qed.

Lemma fitsb_32_64 z : fitsb 32 z = true → fitsb 64 z = true.
Proof. rewrite !fitsb_spec. apply fits_mono; lia. Qed.

Lemma u32_id z : fitsb 32 z = true → u32 z = z.
Proof. rewrite fitsb_spec. apply unsigned_id. Qed.

(** Decode the fields of a record one after the other. *)
Ltac split_ok :=
  repeat match goal with
  | H : (_ && _) = true |- _ => apply andb_prop in H; destruct H
  end.
Ltac decode_fields :=
  repeat (rewrite <- ?app_assoc; rewrite dec_enc by auto using fitsb_32_64;
          cbn [mbind result_bind]);
  rewrite ?u32_id by assumption.

Definition voteRequest_ok (m : VoteRequest) : bool :=
  fitsb 64 (vq_term m) && fitsb 32 (vq_candidateId m) &&
  fitsb 64 (vq_lastLogIndex m) && fitsb 64 (vq_lastLogTerm m).
Definition voteResponse_ok (m : VoteResponse) : bool := fitsb 64 (vs_term m).
Definition logEntry_ok (e : LogEntry) : bool :=
  fitsb 64 (entry_term e) && fitsb 32 (entry_type e) && len_ok (entry_command e).
Definition appendEntriesRequest_ok (m : AppendEntriesRequest) : bool :=
  fitsb 64 (aq_term m) && fitsb 32 (aq_leaderId m) && fitsb 64 (aq_prevLogIndex m) &&
  fitsb 64 (aq_prevLogTerm m) && fitsb 64 (aq_leaderCommit m) &&
  fitsb 64 (Z.of_nat (length (aq_entries m))) && forallb logEntry_ok (aq_entries m).
Definition appendEntriesResponse_ok (m : AppendEntriesResponse) : bool :=
  fitsb 64 (as_term m) && fitsb 64 (as_lastLogIndex m).
Definition installSnapshotRequest_ok (m : InstallSnapshotRequest) : bool :=
  fitsb 64 (iq_term m) && fitsb 32 (iq_leaderId m) && fitsb 64 (iq_lastIncludedIndex m) &&
  fitsb 64 (iq_lastIncludedTerm m) && fitsb 64 (iq_offset m) && len_ok (iq_data m).
Definition installSnapshotResponse_ok (m : InstallSnapshotResponse) : bool := fitsb 64 (is_term m).
Definition helloRequest_ok (m : HelloRequest) : bool :=
  fitsb 32 (hq_serverId m) && len_ok (hq_psk m).
Definition helloResponse_ok (m : HelloResponse) : bool := len_ok (hs_message m).

(** Every field of a message is within the width of its C++ type, and so is
    the length of the frame. *)
Definition message_ok (m : RaftMessage) : bool :=
  len_ok (raftPayload m) &&
  match m with
  | MsgVoteRequest m => voteRequest_ok m
  | MsgVoteResponse m => voteResponse_ok m
  | MsgAppendEntriesRequest m => appendEntriesRequest_ok m
  | MsgAppendEntriesResponse m => appendEntriesResponse_ok m
  | MsgInstallSnapshotRequest m => installSnapshotRequest_ok m
  | MsgInstallSnapshotResponse m => installSnapshotResponse_ok m
  | MsgHelloRequest m => helloRequest_ok m
  | MsgHelloResponse m => helloResponse_ok m
  end.

#[export] Instance voteRequest_codec : WireCodec fillVoteRequest parseVoteRequest voteRequest_ok.
Proof.
  intros m rest Hok. unfold voteRequest_ok, fillVoteRequest, parseVoteRequest in *. split_ok.
  decode_fields. by destruct m.
Qed.

#[export] Instance voteResponse_codec : WireCodec fillVoteResponse parseVoteResponse voteResponse_ok.
Proof.
  intros m rest Hok. unfold voteResponse_ok, fillVoteResponse, parseVoteResponse in *. split_ok.
  decode_fields. by destruct m.
Qed.

#[export] Instance logEntry_codec : WireCodec fillLogEntry parseLogEntry logEntry_ok.
Proof.
  intros m rest Hok. unfold logEntry_ok, fillLogEntry, parseLogEntry in *. split_ok.
  decode_fields. by destruct m.
Qed.

Lemma writeVarUInt_nonempty v : (0 < length (writeVarUInt v))%nat.
Proof.
  unfold writeVarUInt. pose proof (varuint_loop_nonempty 10 (u64 v) ltac:(done)).
  destruct (varuint_loop _ _); [done|cbn; lia].
Qed.

Lemma parseLogEntries_fill es rest fuel :
  forallb logEntry_ok es = true → (length es ≤ fuel)%nat →
  parseLogEntries fuel (Z.of_nat (length es)) (mjoin (map fillLogEntry es) ++ rest) = Ok (es, rest).
Proof.
  revert fuel; induction es as [|e es IH]; intros fuel Hok Hf; [by destruct fuel|].
  cbn [forallb] in Hok. split_ok. destruct fuel as [|fuel]; [cbn in Hf; lia|].
  cbn [length map mjoin list_join] in *. cbn [parseLogEntries].
  destruct (Z.eqb_spec (Z.of_nat (S (length es))) 0); [lia|].
  rewrite <- app_assoc, dec_enc by done. cbn [mbind result_bind].
  replace (Z.of_nat (S (length es)) - 1) with (Z.of_nat (length es)) by lia.
  rewrite IH by (done || lia). done.
Qed.

Lemma fillLogEntries_length es : (length es ≤ length (mjoin (map fillLogEntry es)))%nat.
Proof.
  induction es as [|e es IH]; [cbn; lia|].
  change (mjoin (map fillLogEntry (e :: es)))
    with (fillLogEntry e ++ mjoin (map fillLogEntry es)).
  rewrite length_app. unfold fillLogEntry at 1. rewrite length_app.
  pose proof (writeVarUInt_nonempty (entry_term e)). cbn [length]. lia.
Qed.

#[export] Instance appendEntriesRequest_codec :
  WireCodec fillAppendEntriesRequest parseAppendEntriesRequest appendEntriesRequest_ok.
Proof.
  intros m rest Hok.
  unfold appendEntriesRequest_ok, fillAppendEntriesRequest, parseAppendEntriesRequest in *. split_ok.
  decode_fields. rewrite parseLogEntries_fill; [by destruct m|done|].
  rewrite length_app. pose proof (fillLogEntries_length (aq_entries m)). lia.
Qed.

#[export] Instance appendEntriesResponse_codec :
  WireCodec fillAppendEntriesResponse parseAppendEntriesResponse appendEntriesResponse_ok.
Proof.
  intros m rest Hok.
  unfold appendEntriesResponse_ok, fillAppendEntriesResponse, parseAppendEntriesResponse in *. split_ok.
  decode_fields. by destruct m.
Qed.

#[export] Instance installSnapshotRequest_codec :
  WireCodec fillInstallSnapshotRequest parseInstallSnapshotRequest installSnapshotRequest_ok.
Proof.
  intros m rest Hok.
  unfold installSnapshotRequest_ok, fillInstallSnapshotRequest, parseInstallSnapshotRequest in *. split_ok.
  decode_fields. by destruct m.
Qed.

#[export] Instance installSnapshotResponse_codec :
  WireCodec fillInstallSnapshotResponse parseInstallSnapshotResponse installSnapshotResponse_ok.
Proof.
  intros m rest Hok.
  unfold installSnapshotResponse_ok, fillInstallSnapshotResponse, parseInstallSnapshotResponse in *.
  decode_fields. by destruct m.
Qed.

#[export] Instance helloRequest_codec : WireCodec fillHelloRequest parseHelloRequest helloRequest_ok.
Proof.
  intros m rest Hok. unfold helloRequest_ok, fillHelloRequest, parseHelloRequest in *. split_ok.
  decode_fields. by destruct m.
Qed.

#[export] Instance helloResponse_codec : WireCodec fillHelloResponse parseHelloResponse helloResponse_ok.
Proof.
  intros m rest Hok. unfold helloResponse_ok, fillHelloResponse, parseHelloResponse in *. split_ok.
  decode_fields. by destruct m.
Qed.

(** Type tag and body together. *)
Lemma payload_roundtrip m rest :
  message_ok m = true →
  ('(type, r) ← parseVarUInt (raftPayload m ++ rest); dispatchMessage type r) = Ok (m, rest).
Proof.
  unfold message_ok, raftPayload. intros Hok. apply andb_prop in Hok as [_ Hok].
  rewrite <- app_assoc, dec_enc by (by destruct m). cbn [mbind result_bind].
  destruct m; cbn [messageType]; unfold dispatchMessage;
    match goal with |- context [u8 ?n] => change (u8 n) with n end; by rewrite dec_enc.
Qed.

(** ** Framing *)

(** The bytes received and not yet consumed. *)
Definition unparsed (p : RaftParser) : bytes := drop (inputOffset p) (inputBuffer p).

Definition offset_ok (p : RaftParser) : Prop :=
  (inputOffset p ≤ length (inputBuffer p))%nat.

Lemma parseFrame_complete p m rest :
  message_ok m = true → unparsed p = raftGenerate m ++ rest →
  ∃ p', raftParseFrame p = Ok (Some m, p') ∧ unparsed p' = rest ∧ offset_ok p'.
Proof.
  intros Hok Hu. pose proof (payload_roundtrip m rest Hok) as Hpay.
  rewrite raftGenerate_eq in Hu. unfold flushFrame in Hu. rewrite <- app_assoc in Hu.
  unfold raftParseFrame. fold (unparsed p). rewrite Hu.
  assert (Hlen : len_ok (raftPayload m) = true) by (unfold message_ok in Hok; split_ok; done).
  rewrite tryParseVarUInt_write by (by apply fitsb_spec). cbn [mbind result_bind].
  unfold pending at 1. rewrite length_app.
  destruct (Z.ltb_spec (Z.of_nat (length (raftPayload m) + length rest))
              (Z.of_nat (length (raftPayload m)))); [lia|].
  apply bind_Ok in Hpay as ([type r] & Ht & Hd). cbn beta in Hd.
  rewrite Ht. cbn [mbind result_bind]. rewrite Hd. cbn [mbind result_bind].
  eexists; split; [reflexivity|].
  assert (Hbuf : inputBuffer p = take (inputOffset p) (inputBuffer p) ++
            writeVarUInt (Z.of_nat (length (raftPayload m))) ++ raftPayload m ++ rest).
  { rewrite <- Hu. unfold unparsed. by rewrite take_drop. }
  unfold pending, unparsed, offset_ok.
  destruct (Z.ltb_spec 0 (Z.of_nat (length rest))); cbn [inputBuffer inputOffset].
  - split; [|lia]. rewrite Hbuf, !app_assoc. rewrite drop_app_length'; [done|].
    rewrite !length_app. lia.
  - destruct rest; [by split|cbn in *; lia].
Qed.

Lemma parseFrame_incomplete p m q :
  message_ok m = true → raftGenerate m = unparsed p ++ q → q ≠ [] →
  raftParseFrame p = Ok (None, p).
Proof.
  intros Hok Hg Hq. rewrite raftGenerate_eq in Hg. unfold flushFrame in Hg.
  assert (Hlen : len_ok (raftPayload m) = true) by (unfold message_ok in Hok; split_ok; done).
  unfold raftParseFrame. fold (unparsed p).
  apply app_eq_app in Hg as (k & [[H1 H2]|[H1 H2]]).
  - (* the length itself is incomplete *)
    destruct k as [|x k].
    + rewrite app_nil_r in H1. cbn in H2. subst q. rewrite <- H1, <- (app_nil_r (writeVarUInt _)).
      rewrite tryParseVarUInt_write by (by apply fitsb_spec). cbn [mbind result_bind].
      unfold pending. destruct (Z.ltb_spec (Z.of_nat (@length Z [])) (Z.of_nat (length (raftPayload m)))) as [|C];
        [done|]. exfalso. apply Hq, nil_length_inv. cbn in C. lia.
    + by rewrite (tryParseVarUInt_prefix _ _ (x :: k) ltac:(done) H1).
  - rewrite H1, tryParseVarUInt_write by (by apply fitsb_spec). cbn [mbind result_bind].
    unfold pending. destruct (Z.ltb_spec (Z.of_nat (length k)) (Z.of_nat (length (raftPayload m)))) as [|C];
      [done|]. rewrite H2, length_app in C. destruct q; [done|cbn in C; lia].
Qed.

Lemma raftGenerate_nonempty m : (0 < length (raftGenerate m))%nat.
Proof.
  rewrite raftGenerate_eq. unfold flushFrame. rewrite length_app.
  pose proof (writeVarUInt_nonempty (Z.of_nat (length (raftPayload m)))). lia.
Qed.

Definition raftStream (ms : list RaftMessage) : bytes := mjoin (map raftGenerate ms).

(** The loop delivers every complete message at the head of the input and
    stops at the first incomplete one. *)
Lemma parseLoop_stream fuel p ms future :
  offset_ok p →
  Forall (λ m, message_ok m = true) ms →
  unparsed p ++ future = raftStream ms →
  (length (unparsed p) < fuel)%nat →
  ∃ ms1 ms2 p', ms = ms1 ++ ms2 ∧ raftParseLoop fuel p = (ms1, p', None) ∧
    unparsed p' ++ future = raftStream ms2 ∧ (future = [] → ms2 = []) ∧ offset_ok p'.
Proof.
  revert p ms; induction fuel as [|fuel IH]; intros p ms Hoff Hok Hu Hf; [lia|].
  destruct ms as [|m ms].
  { exists [], [], p. apply app_nil in Hu as [Hu ->].
    assert (Hp : raftParseFrame p = Ok (None, p))
      by (unfold raftParseFrame; fold (unparsed p); by rewrite Hu).
    cbn [raftParseLoop]. rewrite Hp, Hu. by split_and!. }
  apply Forall_cons_1 in Hok as [Hm Hok].
  change (raftStream (m :: ms)) with (raftGenerate m ++ raftStream ms) in Hu.
  apply app_eq_app in Hu as (k & [[H1 H2]|[H1 H2]]).
  - destruct (parseFrame_complete p m k Hm H1) as (p' & Hp & Hk & Ho).
    pose proof (raftGenerate_nonempty m).
    destruct (IH p' ms) as (ms1 & ms2 & p'' & -> & Hl & Hr & Hend & Ho''); [done|done|congruence| |].
    { rewrite H1, length_app in Hf. rewrite Hk. lia. }
    exists (m :: ms1), ms2, p''. cbn [raftParseLoop]. rewrite Hp, Hl. done.
  - destruct k as [|x k].
    + rewrite app_nil_r in H1. cbn in H2. destruct (parseFrame_complete p m [] Hm) as (p' & Hp & Hk & Ho).
      { by rewrite app_nil_r. }
      pose proof (raftGenerate_nonempty m).
      destruct (IH p' ms) as (ms1 & ms2 & p'' & -> & Hl & Hr & Hend & Ho''); [done|done|by rewrite Hk| |].
      { rewrite Hk. cbn. rewrite <- H1 in Hf. lia. }
      exists (m :: ms1), ms2, p''. cbn [raftParseLoop]. rewrite Hp, Hl. done.
    + exists [], (m :: ms), p. cbn [raftParseLoop].
      rewrite (parseFrame_incomplete p m (x :: k) Hm H1 ltac:(done)).
      split_and!; try done.
      * change (raftStream (m :: ms)) with (raftGenerate m ++ raftStream ms).
        by rewrite H1, H2, <- app_assoc.
      * intros ->. done.
Qed.

Lemma unparsed_push p chunk :
  offset_ok p → unparsed (mkRaftParser (inputBuffer p ++ chunk) (inputOffset p)) = unparsed p ++ chunk.
Proof. intros Ho. unfold unparsed; cbn. by apply drop_app_le. Qed.

Lemma parseFragments_stream cs p ms :
  offset_ok p → Forall (λ m, message_ok m = true) ms →
  unparsed p ++ mjoin cs = raftStream ms → (cs = [] → ms = []) →
  ∃ p', raftParseFragments p cs = (ms, p', None) ∧ unparsed p' = [].
Proof.
  revert p ms; induction cs as [|c cs IH]; intros p ms Ho Hok Hu Hend; cbn [raftParseFragments].
  { rewrite (Hend eq_refl) in *. exists p. by apply app_nil in Hu as [-> _]. }
  change (mjoin (c :: cs)) with (c ++ mjoin cs) in Hu. rewrite app_assoc in Hu.
  unfold raftParseFragment. set (p1 := mkRaftParser _ _).
  rewrite <- (unparsed_push p c Ho) in Hu. fold p1 in Hu.
  destruct (parseLoop_stream (S (length (inputBuffer p1))) p1 ms (mjoin cs))
    as (ms1 & ms2 & p2 & -> & -> & Hr & Hnil & Ho2); [| done | done | |].
  { unfold offset_ok, p1 in *; cbn. rewrite length_app. lia. }
  { unfold unparsed. rewrite length_drop. lia. }
  apply Forall_app in Hok as [_ Hok2].
  destruct (IH p2 ms2) as (p3 & -> & Hp3); [done|done|done| |].
  { intros ->. by apply Hnil. }
  by exists p3.
Qed.

(** C5 (roundtrip). Any sequence of Raft messages whose fields are within the
    width of their types, encoded by the generator and received in fragments
    cut at arbitrary places, is delivered to the listener complete, unchanged
    and in order, with no exception and no byte left over. *)
Theorem raft_stream_roundtrip (ms : list RaftMessage) (chunks : list bytes) :
  Forall (λ m, message_ok m = true) ms →
  mjoin chunks = mjoin (map raftGenerate ms) →
  ∃ p, raftParseFragments initRaftParser chunks = (ms, p, None) ∧ unparsed p = [].
Proof.
  intros Hok Hs. apply parseFragments_stream; [unfold offset_ok; cbn; lia|done|done|].
  intros ->. destruct ms as [|m ms]; [done|exfalso].
  change (mjoin (map raftGenerate (m :: ms)))
    with (raftGenerate m ++ mjoin (map raftGenerate ms)) in Hs.
  pose proof (raftGenerate_nonempty m). symmetry in Hs. apply app_nil in Hs as [E _].
  rewrite E in *. cbn in *. lia.
Qed.

Definition example_messages : list RaftMessage :=
  [ MsgVoteRequest (mkVoteRequest 3 2 7 2);
    MsgAppendEntriesRequest (mkAppendEntriesRequest 3 2 7 2 6 [mkLogEntry 3 LOG_COMMAND [1; 2; 255]]) ].

Lemma raft_stream_roundtrip_witness :
  ∃ p, raftParseFragments initRaftParser
         [take 4 (raftStream example_messages); drop 4 (raftStream example_messages)]
       = (example_messages, p, None) ∧ unparsed p = [].
Proof.
  apply raft_stream_roundtrip; [repeat constructor|].
  cbn [mjoin list_join]. rewrite app_nil_r. apply take_drop.
Defined.
