(* ===== verification/RaftStorage.v ===== *)
(** * Raft storage

    [src/xzero/raft/Storage.h] declares the interface [Storage] the Raft server
    talks to; [src/xzero/raft/Storage.cc] implements it in memory
    ([MemoryStore]). The interface is the class [Storage]; the class
    [StorageSpec] states what the server's theorems use of it, through the term,
    vote and log a store denotes. The server is verified against these classes
    (file RaftServer) and [MemoryStore] discharges them.

    Three things that Storage.h documents are not part of [StorageSpec], because
    [MemoryStore] does otherwise: the first term is 1 and not 0
    ([first_term]), [initialize] does not store the server's id
    ([initialize_keeps_id]), and [truncateLog] keeps one entry too few
    ([truncateLog_drops_last]). *)
From S2P Require Import Prelude Binary RaftCodec.

(** ** The interface *)

(** The operations. [initialize] also returns what it writes to the id, if
    it writes it. [error_code] results are always the success code in
    [MemoryStore] and ignored by the server, so operations return the new
    store; [truncateLog] has an assertion and [getLogEntry] an unchecked vector
    access, hence [result]. [getLogEntry] fails with [None]. *)
Class Storage (S : Type) := {
  st_initialize : S → S * option Z;
  st_currentTerm : S → Z;
  st_setCurrentTerm : S → Z → S;
  st_votedFor : S → option (Z * Z);
  st_setVotedFor : S → Z → Z → S;
  st_clearVotedFor : S → S;
  st_latestIndex : S → Z;
  st_appendLogEntry : S → LogEntry → S;
  st_getLogEntry : S → Z → result (option LogEntry);
  st_truncateLog : S → Z → result S;
}.

(** What a store denotes. The entry at index 0 is a sentinel; the log proper
    starts at index 1. *)
Record StoreView := mkStoreView {
  view_term : Z;
  view_vote : option (Z * Z);
  view_log : list LogEntry;
}.

(** A log has its sentinel and fewer entries than an [Index] can count. *)
Definition log_ok (log : list LogEntry) : Prop :=
  (0 < length log)%nat ∧ Z.of_nat (length log) < 2 ^ 64.

#[export] Instance log_ok_dec log : Decision (log_ok log).
Proof. unfold log_ok; apply _. Defined.

(** What the server relies on. Of [truncateLog] this is only that the ballot is
    kept, of [initialize] nothing. *)
Class StorageSpec (S : Type) `{Storage S} (view : S → StoreView) : Prop := {
  spec_currentTerm s : st_currentTerm s = view_term (view s);
  spec_setCurrentTerm s t :
    view (st_setCurrentTerm s t) = mkStoreView t (view_vote (view s)) (view_log (view s));
  spec_votedFor s : st_votedFor s = view_vote (view s);
  spec_setVotedFor s id t :
    view (st_setVotedFor s id t) =
    mkStoreView (view_term (view s)) (Some (id, t)) (view_log (view s));
  spec_clearVotedFor s :
    view (st_clearVotedFor s) = mkStoreView (view_term (view s)) None (view_log (view s));
  spec_latestIndex s :
    log_ok (view_log (view s)) →
    st_latestIndex s = Z.of_nat (length (view_log (view s))) - 1;
  spec_appendLogEntry s e :
    view (st_appendLogEntry s e) =
    mkStoreView (view_term (view s)) (view_vote (view s)) (view_log (view s) ++ [e]);
  spec_getLogEntry s i :
    log_ok (view_log (view s)) → 0 ≤ i →
    st_getLogEntry s i = Ok (view_log (view s) !! Z.to_nat i);
  spec_truncateLog_meta s last s' :
    st_truncateLog s last = Ok s' →
    view_term (view s') = view_term (view s) ∧ view_vote (view s') = view_vote (view s);
}.

(** ** MemoryStore *)

Record MemoryStore := mkMemoryStore {
  ms_votedFor : option (Z * Z);
  ms_currentTerm : Z;
  ms_log : list LogEntry;
  ms_snapshottedTerm : Z;
  ms_snapshottedIndex : Z;
  ms_snapshotData : bytes;
}.

Definition newMemoryStore : MemoryStore := mkMemoryStore None 1 [emptyLogEntry] 0 0 [].

(** [std::vector::resize] on the log: shrink, or fill with [LogEntry()]. *)
Definition log_resize (n : nat) (log : list LogEntry) : list LogEntry :=
  take n log ++ replicate (n - length log) emptyLogEntry.

(** The assignment to [*id] is commented out. *)
Definition MemoryStore_initialize (s : MemoryStore) : MemoryStore * option Z :=
  (mkMemoryStore (ms_votedFor s) (ms_currentTerm s) (log_resize 1 (ms_log s)) 0 0 [], None).

Definition MemoryStore_clearVotedFor (s : MemoryStore) : MemoryStore :=
  mkMemoryStore None (ms_currentTerm s) (ms_log s)
    (ms_snapshottedTerm s) (ms_snapshottedIndex s) (ms_snapshotData s).

Definition MemoryStore_setVotedFor (s : MemoryStore) (id term : Z) : MemoryStore :=
  mkMemoryStore (Some (id, term)) (ms_currentTerm s) (ms_log s)
    (ms_snapshottedTerm s) (ms_snapshottedIndex s) (ms_snapshotData s).

Definition MemoryStore_setCurrentTerm (s : MemoryStore) (term : Z) : MemoryStore :=
  mkMemoryStore (ms_votedFor s) term (ms_log s)
    (ms_snapshottedTerm s) (ms_snapshottedIndex s) (ms_snapshotData s).

Definition MemoryStore_set_log (s : MemoryStore) (log : list LogEntry) : MemoryStore :=
  mkMemoryStore (ms_votedFor s) (ms_currentTerm s) log
    (ms_snapshottedTerm s) (ms_snapshottedIndex s) (ms_snapshotData s).

(** [log_.size() - 1] in [size_t]: an empty vector gives [2^64 - 1]. *)
Definition MemoryStore_latestIndex (s : MemoryStore) : Z :=
  u64 (Z.of_nat (length (ms_log s)) - 1).

Definition MemoryStore_appendLogEntry (s : MemoryStore) (e : LogEntry) : MemoryStore :=
  MemoryStore_set_log s (ms_log s ++ [e]).

(** The task [appendLogEntryAsync] hands to its executor: append, then
    complete the promise with the new latest index. *)
Definition MemoryStore_storeTask (s : MemoryStore) (e : LogEntry) : MemoryStore * Z :=
  let s := MemoryStore_appendLogEntry s e in (s, MemoryStore_latestIndex s).

Definition MemoryStore_getLogEntry (s : MemoryStore) (index : Z) : result (option LogEntry) :=
  if MemoryStore_latestIndex s <? index then Ok None else
  match ms_log s !! Z.to_nat index with
  | Some e => Ok (Some e)
  | None => Raise UndefinedBehaviour
  end.

Definition MemoryStore_truncateLog (s : MemoryStore) (last : Z) : result MemoryStore :=
  _ ← ensure (last <=? Z.of_nat (length (ms_log s))) AssertionFailure;
  Ok (MemoryStore_set_log s (log_resize (Z.to_nat last) (ms_log s))).

#[export] Instance MemoryStore_storage : Storage MemoryStore := {
  st_initialize := MemoryStore_initialize;
  st_currentTerm := ms_currentTerm;
  st_setCurrentTerm := MemoryStore_setCurrentTerm;
  st_votedFor := ms_votedFor;
  st_setVotedFor := MemoryStore_setVotedFor;
  st_clearVotedFor := MemoryStore_clearVotedFor;
  st_latestIndex := MemoryStore_latestIndex;
  st_appendLogEntry := MemoryStore_appendLogEntry;
  st_getLogEntry := MemoryStore_getLogEntry;
  st_truncateLog := MemoryStore_truncateLog;
}.

Definition memory_view (s : MemoryStore) : StoreView :=
  mkStoreView (ms_currentTerm s) (ms_votedFor s) (ms_log s).

Lemma latestIndex_log_ok s :
  log_ok (ms_log s) → MemoryStore_latestIndex s = Z.of_nat (length (ms_log s)) - 1.
Proof. intros [H1 H2]. apply unsigned_id. unfold fits. lia. Qed.

(** ** FileStore

    [FileStore] is a stub: its term, log and snapshot operations return
    [NotImplementedError] or do nothing. What it computes are the two byte
    formats below. *)

(** The bytes [setVotedFor] builds for the file [voted_for]. *)
Definition FileStore_voteRecord (id term : Z) : bytes :=
  writeVarUInt id ++ writeVarUInt term.

Definition FileStore_parseVote (data : bytes) : result (option (Z * Z)) :=
  '(id, r) ← tryParseVarUInt data;
  '(term, r) ← tryParseVarUInt r;
  match id, term with
  | Some id, Some term => Ok (Some (u32 id, term))
  | _, _ => Ok None
  end.

(** The record [appendLogEntry] writes: a header with the size and a zero
    checksum, then the entry. *)
Definition FileStore_logRecord (e : LogEntry) : bytes :=
  let data := writeVarUInt (entry_term e) ++ writeVarUInt (entry_type e) ++
              writeLengthDelimited (entry_command e) in
  writeFixed64 (Z.of_nat (length data)) ++ writeFixed64 0 ++ data.

Lemma parseVote_record id term :
  fits 32 id → fits 64 term →
  FileStore_parseVote (FileStore_voteRecord id term) = Ok (Some (id, term)).
Proof.
  intros Hi Ht. unfold FileStore_parseVote, FileStore_voteRecord.
  rewrite tryParseVarUInt_write by (eapply fits_mono; [|done]; lia). cbn [mbind result_bind].
  rewrite <- (app_nil_r (writeVarUInt term)), tryParseVarUInt_write by done.
  cbn. by rewrite unsigned_id.
Qed.

#[export] Instance MemoryStore_spec : StorageSpec MemoryStore memory_view.
Proof.
  split; try done.
  - intros s. apply latestIndex_log_ok.
  - intros s i Hok Hi. cbn. unfold MemoryStore_getLogEntry. rewrite latestIndex_log_ok by done.
    cbn in Hok. destruct (Z.ltb_spec (Z.of_nat (length (ms_log s)) - 1) i).
    + by rewrite lookup_ge_None_2 by lia.
    + destruct (lookup_lt_is_Some_2 (ms_log s) (Z.to_nat i)) as [e ->]; [lia|done].
  - intros s last s' E. cbn in E. unfold MemoryStore_truncateLog in E. by inv_result; subst.
Qed.

(** ** Where [MemoryStore] departs from Storage.h *)

(** "initialized to 0 on first boot" *)
Lemma first_term : st_currentTerm newMemoryStore = 1.
Proof. reflexivity. Qed.

(** "the server's ID is stored at that address" *)
Lemma initialize_keeps_id (s : MemoryStore) : (st_initialize s).2 = None.
Proof. reflexivity. Qed.

(** [MemoryStore::truncateLog last] leaves the entries below
    index [last] only: the entry at [last], which the interface says to keep,
    is gone, and truncating at 0 removes the sentinel so that the latest index
    becomes [2^64 - 1]. *)
Theorem truncateLog_drops_last (s : MemoryStore) (last : Z) :
  log_ok (ms_log s) → 0 ≤ last < Z.of_nat (length (ms_log s)) →
  ∃ s', st_truncateLog s last = Ok s' ∧
    ms_log s' = take (Z.to_nat last) (ms_log s) ∧
    st_latestIndex s' = (if last =? 0 then 2 ^ 64 - 1 else last - 1).
Proof.
  intros [H1 H2] Hl. cbn. unfold MemoryStore_truncateLog.
  destruct (Z.leb_spec last (Z.of_nat (length (ms_log s)))); [|lia]. cbn [ensure mbind result_bind].
  eexists; split; [reflexivity|]. cbn.
  assert (Hr : log_resize (Z.to_nat last) (ms_log s) = take (Z.to_nat last) (ms_log s)).
  { unfold log_resize. replace (Z.to_nat last - length (ms_log s))%nat with O by lia. apply app_nil_r. }
  split; [done|]. unfold MemoryStore_latestIndex. cbn. rewrite Hr, length_take, Nat.min_l by lia.
  destruct (Z.eqb_spec last 0) as [->|]; [reflexivity|].
  rewrite Z2Nat.id by lia. apply unsigned_id. unfold fits. lia.
Qed.

Lemma truncateLog_drops_last_witness :
  ∃ s', st_truncateLog (MemoryStore_appendLogEntry newMemoryStore (mkLogEntry 1 1 [])) 1 = Ok s' ∧
    ms_log s' = [emptyLogEntry] ∧ st_latestIndex s' = 0.
Proof.
  apply (truncateLog_drops_last (MemoryStore_appendLogEntry newMemoryStore (mkLogEntry 1 1 [])) 1);
    [split; cbn; lia|cbn; lia].
Defined.
