(* ===== verification/RaftServer.v ===== *)
(** * The Raft server

    [src/xzero/raft/Server.cc]: leader election, log replication and the
    application of committed entries, as functions on the server's state. Each
    handler runs under [serverLock_] (one at a time), so a handler is a function
    from the state to the new state, its response and the effects it has on its
    surroundings, in order. The storage is any instance of [Storage]
    (file RaftStorage); the state machine, the discovery service and the
    configuration are parameters.

    Time enters only through [onTimeout], which the timer calls, and through
    [verifyLeader], which compares two points in time; timeout values, drawn at
    random by [ServerUtil], do not influence the state. Worker threads
    ([replicationLoop], [applyLogsLoop]) are modelled by the body of one
    iteration ([replicateLogsTo], [applyLogs]), run at any moment. *)
From stdpp Require Import gmap.
From S2P Require Import Prelude RaftCodec RaftStorage.

(** ** State *)

Inductive ServerState := Follower | Candidate | Leader.

#[export] Instance ServerState_eq_dec : EqDecision ServerState.
Proof. solve_decision. Defined.

(** The members of [FollowerState] the state depends on; a member that
    [followers_[peer]] creates is zero. *)
Record FollowerState := mkFollowerState { nextIndex : Z; matchIndex : Z }.

Definition newFollowerState : FollowerState := mkFollowerState 0 0.

(** [Discovery] and the batching limits of the constructor. *)
Record ServerConfig := mkServerConfig {
  listMembers : list Z;
  totalMemberCount : Z;
  maxCommandsPerMessage : Z;
  maxCommandsSizePerMessage : Z;
}.

(** What a handler does besides changing the state. *)
Inductive effect :=
  | Send (peer : Z) (m : RaftMessage)
  | StartReplication (peer : Z)
  | WakeupReplication (peer : Z)
  | StateChanged (old : ServerState)
  | LeaderChanged (old : Z)
  | Fulfil (index : Z) (reply : bytes).

Section server.
Context {S : Type} `{Storage S}.
Context {M : Type} (applyCommand : M → bytes → M * bytes).
Context (cfg : ServerConfig).

Record Server := mkServer {
  sv_id : Z;
  sv_currentLeaderId : Z;
  sv_storage : S;
  sv_state : ServerState;
  sv_timerActive : bool;
  sv_running : bool;
  sv_commitIndex : Z;
  sv_lastApplied : Z;
  sv_votesGranted : Z;
  sv_followers : gmap Z FollowerState;
  sv_appliedPromises : gset Z;
  sv_machine : M;
  (** entries handed to [appendLogEntryAsync] and not stored yet *)
  sv_pendingStores : list LogEntry;
}.

Definition newServer (id : Z) (storage : S) (machine : M) : Server :=
  mkServer id 0 storage Follower false false 0 0 0 ∅ ∅ machine [].

(** *** Assignments to single members *)

Definition set_id (x : Z) (sv : Server) : Server :=
  mkServer x (sv_currentLeaderId sv) (sv_storage sv) (sv_state sv) (sv_timerActive sv) (sv_running sv)
    (sv_commitIndex sv) (sv_lastApplied sv) (sv_votesGranted sv) (sv_followers sv)
    (sv_appliedPromises sv) (sv_machine sv) (sv_pendingStores sv).
Definition set_currentLeaderId (x : Z) (sv : Server) : Server :=
  mkServer (sv_id sv) x (sv_storage sv) (sv_state sv) (sv_timerActive sv) (sv_running sv)
    (sv_commitIndex sv) (sv_lastApplied sv) (sv_votesGranted sv) (sv_followers sv)
    (sv_appliedPromises sv) (sv_machine sv) (sv_pendingStores sv).
Definition set_storage (x : S) (sv : Server) : Server :=
  mkServer (sv_id sv) (sv_currentLeaderId sv) x (sv_state sv) (sv_timerActive sv) (sv_running sv)
    (sv_commitIndex sv) (sv_lastApplied sv) (sv_votesGranted sv) (sv_followers sv)
    (sv_appliedPromises sv) (sv_machine sv) (sv_pendingStores sv).
Definition set_state (x : ServerState) (sv : Server) : Server :=
  mkServer (sv_id sv) (sv_currentLeaderId sv) (sv_storage sv) x (sv_timerActive sv) (sv_running sv)
    (sv_commitIndex sv) (sv_lastApplied sv) (sv_votesGranted sv) (sv_followers sv)
    (sv_appliedPromises sv) (sv_machine sv) (sv_pendingStores sv).
Definition set_timerActive (x : bool) (sv : Server) : Server :=
  mkServer (sv_id sv) (sv_currentLeaderId sv) (sv_storage sv) (sv_state sv) x (sv_running sv)
    (sv_commitIndex sv) (sv_lastApplied sv) (sv_votesGranted sv) (sv_followers sv)
    (sv_appliedPromises sv) (sv_machine sv) (sv_pendingStores sv).
Definition set_running (x : bool) (sv : Server) : Server :=
  mkServer (sv_id sv) (sv_currentLeaderId sv) (sv_storage sv) (sv_state sv) (sv_timerActive sv) x
    (sv_commitIndex sv) (sv_lastApplied sv) (sv_votesGranted sv) (sv_followers sv)
    (sv_appliedPromises sv) (sv_machine sv) (sv_pendingStores sv).
Definition set_commitIndex (x : Z) (sv : Server) : Server :=
  mkServer (sv_id sv) (sv_currentLeaderId sv) (sv_storage sv) (sv_state sv) (sv_timerActive sv)
    (sv_running sv) x (sv_lastApplied sv) (sv_votesGranted sv) (sv_followers sv)
    (sv_appliedPromises sv) (sv_machine sv) (sv_pendingStores sv).
Definition set_votesGranted (x : Z) (sv : Server) : Server :=
  mkServer (sv_id sv) (sv_currentLeaderId sv) (sv_storage sv) (sv_state sv) (sv_timerActive sv)
    (sv_running sv) (sv_commitIndex sv) (sv_lastApplied sv) x (sv_followers sv)
    (sv_appliedPromises sv) (sv_machine sv) (sv_pendingStores sv).
Definition set_followers (x : gmap Z FollowerState) (sv : Server) : Server :=
  mkServer (sv_id sv) (sv_currentLeaderId sv) (sv_storage sv) (sv_state sv) (sv_timerActive sv)
    (sv_running sv) (sv_commitIndex sv) (sv_lastApplied sv) (sv_votesGranted sv) x
    (sv_appliedPromises sv) (sv_machine sv) (sv_pendingStores sv).
Definition set_appliedPromises (x : gset Z) (sv : Server) : Server :=
  mkServer (sv_id sv) (sv_currentLeaderId sv) (sv_storage sv) (sv_state sv) (sv_timerActive sv)
    (sv_running sv) (sv_commitIndex sv) (sv_lastApplied sv) (sv_votesGranted sv) (sv_followers sv)
    x (sv_machine sv) (sv_pendingStores sv).
Definition set_pendingStores (x : list LogEntry) (sv : Server) : Server :=
  mkServer (sv_id sv) (sv_currentLeaderId sv) (sv_storage sv) (sv_state sv) (sv_timerActive sv)
    (sv_running sv) (sv_commitIndex sv) (sv_lastApplied sv) (sv_votesGranted sv) (sv_followers sv)
    (sv_appliedPromises sv) (sv_machine sv) x.
(** the assignments [applyLogs] makes for one entry *)
Definition set_applied (index : Z) (promises : gset Z) (machine : M) (sv : Server) : Server :=
  mkServer (sv_id sv) (sv_currentLeaderId sv) (sv_storage sv) (sv_state sv) (sv_timerActive sv)
    (sv_running sv) (sv_commitIndex sv) index (sv_votesGranted sv) (sv_followers sv)
    promises machine (sv_pendingStores sv).

(** *** Accessors *)

Definition quorum : Z := totalMemberCount cfg / 2 + 1.
Definition currentTerm (sv : Server) : Z := st_currentTerm (sv_storage sv).
Definition latestIndex (sv : Server) : Z := st_latestIndex (sv_storage sv).

Definition storeLogTerm (s : S) (index : Z) : result Z :=
  if index <=? st_latestIndex s then
    e ← st_getLogEntry s index;
    match e with Some e => Ok (entry_term e) | None => Raise UndefinedBehaviour end
  else Ok 0.

Definition getLogTerm (sv : Server) (index : Z) : result Z := storeLogTerm (sv_storage sv) index.

Definition peers (sv : Server) : list Z := filter (λ p, p ≠ sv_id sv) (listMembers cfg).

(** ** Election *)

Definition setState (newState : ServerState) (sv : Server) : Server * list effect :=
  if decide (newState = sv_state sv) then (sv, [])
  else (set_state newState sv, [StateChanged (sv_state sv)]).

Definition setCurrentTerm (t : Z) (sv : Server) : Server :=
  set_storage (st_setCurrentTerm (sv_storage sv) t) sv.

Definition sendVoteRequest (sv : Server) : result (Server * list effect) :=
  _ ← ensure (bool_decide (sv_state sv = Candidate)) AssertionFailure;
  let sv := set_votesGranted 0 (set_timerActive true sv) in
  let sv := setCurrentTerm (u64 (currentTerm sv + 1)) sv in
  let sv := set_storage (st_setVotedFor (sv_storage sv) (sv_id sv) (currentTerm sv)) sv in
  lastLogTerm ← getLogTerm sv (latestIndex sv);
  let req := mkVoteRequest (currentTerm sv) (sv_id sv) (latestIndex sv) lastLogTerm in
  Ok (sv, map (λ p, Send p (MsgVoteRequest req)) (peers sv)).

(** The timer has fired: [DeadlineTimer::onFired] clears its active flag and
    calls [Server::onTimeout]. *)
Definition onTimeout (sv : Server) : result (Server * list effect) :=
  let sv := set_timerActive false sv in
  if negb (sv_running sv) then Ok (sv, []) else
  match sv_state sv with
  | Follower =>
      let '(sv, eff) := setState Candidate sv in
      '(sv, eff') ← sendVoteRequest sv;
      Ok (sv, eff ++ eff')
  | Candidate => sendVoteRequest sv
  | Leader => Raise AssertionFailure
  end.

Definition convertToFollower (newLeaderId leaderTerm : Z) (sv : Server) : Server * list effect :=
  let '(sv, eff) := setState Follower sv in
  let sv := setCurrentTerm leaderTerm sv in
  let sv := set_storage (st_clearVotedFor (sv_storage sv)) sv in
  let old := sv_currentLeaderId sv in
  let sv := set_currentLeaderId newLeaderId sv in
  (set_timerActive true sv, eff ++ [LeaderChanged old]).

Definition setupLeader (sv : Server) : Server * list effect :=
  let sv := set_currentLeaderId (sv_id sv) (set_timerActive false sv) in
  let '(sv, eff) := setState Leader sv in
  (sv, eff ++ map StartReplication (peers sv)).

Definition handleVoteRequest (req : VoteRequest) (sv : Server) : Server * list effect * VoteResponse :=
  if vq_term req <? currentTerm sv then (sv, [], mkVoteResponse (currentTerm sv) false) else
  let '(sv, eff) :=
    if currentTerm sv <? vq_term req
    then convertToFollower (vq_candidateId req) (vq_term req) sv else (sv, []) in
  let accept := (set_storage (st_setVotedFor (sv_storage sv) (vq_candidateId req) (vq_lastLogTerm req)) sv,
                 eff, mkVoteResponse (currentTerm sv) true) in
  match st_votedFor (sv_storage sv) with
  | None => accept
  | Some (id, term) =>
      if (vq_candidateId req =? id) && (term <? vq_lastLogTerm req) then accept
      else (sv, eff, mkVoteResponse (currentTerm sv) false)
  end.

Definition handleVoteResponse (resp : VoteResponse) (sv : Server) : Server * list effect :=
  if decide (sv_state sv = Leader) then (sv, []) else
  if vs_voteGranted resp then
    let sv := set_votesGranted (u64 (sv_votesGranted sv + 1)) sv in
    if (quorum <=? sv_votesGranted sv) && bool_decide (sv_state sv = Candidate)
    then setupLeader sv else (sv, [])
  else (sv, []).

Definition handleHelloRequest (req : HelloRequest) (sv : Server) : Server * HelloResponse :=
  (sv, mkHelloResponse true []).

Definition handleHelloResponse (resp : HelloResponse) (sv : Server) : Server := sv.

Definition handleInstallSnapshotRequest (req : InstallSnapshotRequest) (sv : Server) :
    result (Server * InstallSnapshotResponse) := Raise NotImplementedError.

Definition handleInstallSnapshotResponse (resp : InstallSnapshotResponse) (sv : Server) :
    result Server := Raise NotImplementedError.

(** ** Life cycle and commands *)

(** [storage_->initialize(&id_)] *)
Definition initialize (sv : Server) : Server :=
  let '(s, id) := st_initialize (sv_storage sv) in
  set_storage s (set_id (default (sv_id sv) id) sv).

Definition start (sv : Server) : Server :=
  let sv := initialize sv in
  set_timerActive true (set_running true sv).

Definition startWithLeader (leaderId : Z) (sv : Server) : Server * list effect :=
  let sv := initialize sv in
  let sv := set_running true sv in
  if leaderId =? sv_id sv then setupLeader sv
  else (set_timerActive true (set_currentLeaderId (sv_id sv) sv), []).

Definition stop (sv : Server) : Server := set_running false (set_timerActive false sv).

(** [None] is the failure [RaftError::NotLeading]. *)
Definition sendCommandAsync (command : bytes) (sv : Server) : Server * option LogEntry :=
  match sv_state sv with
  | Leader =>
      let e := mkLogEntry (currentTerm sv) LOG_COMMAND command in
      (set_pendingStores (sv_pendingStores sv ++ [e]) sv, Some e)
  | _ => (sv, None)
  end.

(** The storage executes its oldest pending task and completes the local
    acknowledgement: the promise is registered under the new index and the
    replication workers are woken up. *)
Definition localAck (sv : Server) : Server * list effect :=
  match sv_pendingStores sv with
  | [] => (sv, [])
  | e :: es =>
      let sv := set_pendingStores es (set_storage (st_appendLogEntry (sv_storage sv) e) sv) in
      let sv := set_appliedPromises ({[latestIndex sv]} ∪ sv_appliedPromises sv) sv in
      (sv, map WakeupReplication (peers sv))
  end.

(** [Some b] calls the callback with [b]; [None] defers it. *)
Definition verifyLeader (nextHeartbeat now : Z) (sv : Server) : option bool :=
  if decide (sv_state sv = Leader) then if nextHeartbeat <? now then Some true else None
  else Some false.

(** ** Applying committed entries *)

(** The loop of [applyLogs]; each iteration raises [lastApplied_] by one, so
    [commitIndex_ - lastApplied_] bounds the iterations. An exception leaves the
    state as the previous iterations made it. *)
Fixpoint applyLogs_loop (fuel : nat) (sv : Server) : Server * list effect * option exn :=
  match fuel with
  | O => (sv, [], None)
  | Datatypes.S fuel =>
      if sv_lastApplied sv <? sv_commitIndex sv then
        let index := u64 (sv_lastApplied sv + 1) in
        match st_getLogEntry (sv_storage sv) index with
        | Raise e => (sv, [], Some e)
        | Ok None => (sv, [], None)
        | Ok (Some e) =>
            if entry_type e =? LOG_COMMAND then
              let '(machine, reply) := applyCommand (sv_machine sv) (entry_command e) in
              let eff := if decide (index ∈ sv_appliedPromises sv) then [Fulfil index reply] else [] in
              let sv := set_applied index (sv_appliedPromises sv ∖ {[index]}) machine sv in
              let '(sv, eff', x) := applyLogs_loop fuel sv in
              (sv, eff ++ eff', x)
            else (sv, [], Some NotImplementedError)
        end
      else (sv, [], None)
  end.

Definition applyLogs (sv : Server) : Server * list effect * option exn :=
  applyLogs_loop (Z.to_nat (sv_commitIndex sv - sv_lastApplied sv)) sv.

(** ** Replication, follower side *)

(** Step 3 of the handler: the [for] loop that compares the received entries
    with the log. Returns the store and the values of [i] and [index] at the
    end of the loop. *)
Fixpoint matchEntries (s : S) (entries : list LogEntry) (i index : Z) : result (S * Z * Z) :=
  match entries with
  | [] => Ok (s, i, index)
  | e :: entries =>
      if st_latestIndex s <? index then Ok (s, i, index) else
      t ← storeLogTerm s index;
      if entry_term e =? t then matchEntries s entries (i + 1) (u64 (index + 1))
      else
        s ← st_truncateLog s (u64 (index - 1));
        Ok (s, i, index)
  end.

(** Step 4: [while (index <= lastIndex) appendLogEntry(entries[i])]. Reading
    past the end of [entries] is undefined; the loop appends at most as many
    entries as there are. *)
Fixpoint appendEntries (fuel : nat) (s : S) (entries : list LogEntry) (i index lastIndex : Z) : result S :=
  if index <=? lastIndex then
    match fuel with
    | O => Raise UndefinedBehaviour
    | Datatypes.S fuel =>
        match entries !! Z.to_nat i with
        | None => Raise UndefinedBehaviour
        | Some e => appendEntries fuel (st_appendLogEntry s e) entries (i + 1) (u64 (index + 1)) lastIndex
        end
    end
  else Ok s.

(** Step 5, with the worker that [applyLogsWakeup_] wakes up: the handler waits
    for the promise registered under [commitIndex_]. *)
Definition commitAndWait (leaderCommit lastIndex : Z) (sv : Server) : result (Server * list effect) :=
  if sv_commitIndex sv <? leaderCommit then
    let ci := Z.min leaderCommit lastIndex in
    let sv := set_commitIndex ci sv in
    let sv := set_appliedPromises ({[ci]} ∪ sv_appliedPromises sv) sv in
    let '(sv, eff, x) := applyLogs sv in
    if decide (ci ∈ sv_appliedPromises sv) then Raise Blocked else Ok (sv, eff)
  else Ok (sv, []).

Definition handleAppendEntriesRequest (req : AppendEntriesRequest) (sv : Server) :
    result (Server * list effect * AppendEntriesResponse) :=
  let refuse := mkAppendEntriesResponse (currentTerm sv) (latestIndex sv) false in
  if aq_term req <? currentTerm sv then Ok (sv, [], refuse) else
  t ← getLogTerm sv (aq_prevLogIndex req);
  if negb (t =? aq_prevLogTerm req) then Ok (sv, [], refuse) else
  let '(sv, eff) :=
    if currentTerm sv <? aq_term req
    then convertToFollower (aq_leaderId req) (aq_term req) sv else (sv, []) in
  let entries := aq_entries req in
  let lastIndex := u64 (aq_prevLogIndex req + Z.of_nat (length entries)) in
  '(s, i, index) ← matchEntries (sv_storage sv) entries 0 (u64 (aq_prevLogIndex req + 1));
  s ← appendEntries (length entries) s entries i index lastIndex;
  let sv := set_storage s sv in
  _ ← ensure (lastIndex =? latestIndex sv) AssertionFailure;
  '(sv, eff') ← commitAndWait (aq_leaderCommit req) lastIndex sv;
  Ok (sv, eff ++ eff', mkAppendEntriesResponse (currentTerm sv) (latestIndex sv) true).

(** ** Replication, leader side *)

(** The loop [for (i = first; i <= first + count; ++i)] of
    [tryLoadLogEntries]; [None] is the return value [false]. *)
Fixpoint loadEntries (n : nat) (i totalSize : Z) (sv : Server) : result (option (list LogEntry)) :=
  match n with
  | O => Ok (Some [])
  | Datatypes.S n =>
      e ← st_getLogEntry (sv_storage sv) i;
      match e with
      | None => Ok None
      | Some e =>
          let totalSize := totalSize + Z.of_nat (length (entry_command e)) in
          if maxCommandsSizePerMessage cfg <? totalSize then Ok (Some []) else
          es ← loadEntries n (i + 1) totalSize sv;
          Ok (match es with Some es => Some (e :: es) | None => None end)
      end
  end.

Definition tryLoadLogEntries (first : Z) (sv : Server) : result (option (list LogEntry)) :=
  let count := Z.min (maxCommandsPerMessage cfg) (u64 (latestIndex sv - first)) in
  loadEntries (Z.to_nat (count + 1)) first 0 sv.

Definition follower (peer : Z) (sv : Server) : FollowerState :=
  default newFollowerState (sv_followers sv !! peer).

(** The start of [replicationLoop], before its first iteration. *)
Definition initReplication (peer : Z) (sv : Server) : Server :=
  set_followers (<[peer := mkFollowerState (u64 (latestIndex sv + 1)) 0]> (sv_followers sv)) sv.

Definition replicateLogsTo (peer : Z) (sv : Server) : result (Server * list effect) :=
  let f := follower peer sv in
  let next := nextIndex f in
  let prev := u64 (next - 1) in
  entries ← (if next <=? latestIndex sv then tryLoadLogEntries next sv else Ok (Some []));
  match entries with
  | None => Ok (set_followers (<[peer := f]> (sv_followers sv)) sv, [])
  | Some entries =>
      prevTerm ← getLogTerm sv prev;
      let req := mkAppendEntriesRequest (currentTerm sv) (sv_id sv) prev prevTerm
                   (sv_commitIndex sv) entries in
      let f := mkFollowerState (u64 (next + Z.of_nat (length entries))) (matchIndex f) in
      Ok (set_followers (<[peer := f]> (sv_followers sv)) sv,
          [Send peer (MsgAppendEntriesRequest req)])
  end.

Definition matchIndices (followers : gmap Z FollowerState) : list Z :=
  (λ kv, matchIndex kv.2) <$> map_to_list followers.

(** [std::min_element] and [std::max_element] of the match indices. *)
Definition list_min (l : list Z) (x : Z) : Z := foldr Z.min x l.
Definition list_max (l : list Z) (x : Z) : Z := foldr Z.max x l.

Definition countReplicated (ms : list Z) (N : Z) : Z := Z.of_nat (length (filter (λ mi, N ≤ mi) ms)).

(** [for (N = low; N <= high; N++)], [n] iterations starting at [N]. *)
Fixpoint commitScan (ms : list Z) (q : Z) (n : nat) (N acc : Z) : Z :=
  match n with
  | O => acc
  | Datatypes.S n =>
      let acc := if (q <=? countReplicated ms N) && (acc <? N) then N else acc in
      commitScan ms q n (N + 1) acc
  end.

(** Dereferencing the end iterator of an empty map is undefined, and so is the
    loop that never ends when the largest index is the largest [Index]. *)
Definition computeCommitIndex (followers : gmap Z FollowerState) : result Z :=
  match matchIndices followers with
  | [] => Raise UndefinedBehaviour
  | m :: ms =>
      let low := list_min ms m in
      let high := list_max ms m in
      if high =? 2 ^ 64 - 1 then Raise UndefinedBehaviour else
      let q := Z.of_nat (length (m :: ms)) / 2 + 1 in
      Ok (commitScan (m :: ms) q (Z.to_nat (high - low + 1)) low low)
  end.

(** The commit index changed: the apply worker is woken up (the boolean). *)
Definition handleAppendEntriesResponse (peer : Z) (resp : AppendEntriesResponse) (sv : Server) :
    result (Server * bool) :=
  if negb (bool_decide (sv_state sv = Leader)) then Ok (sv, false) else
  let f := follower peer sv in
  let f := mkFollowerState (u64 (as_lastLogIndex resp + 1))
             (if as_success resp then as_lastLogIndex resp else 0) in
  let sv := set_followers (<[peer := f]> (sv_followers sv)) sv in
  ci ← computeCommitIndex (sv_followers sv);
  Ok (if sv_commitIndex sv =? ci then (sv, false) else (set_commitIndex ci sv, true)).

End server.
Arguments Server S M : clear implicits.
