(* ===== verification/RaftElection.v ===== *)
(** * Raft: votes and terms

    One server as a transition system: each input (a timeout, a message, a
    worker's iteration) is one step, labelled with the votes the server casts
    in it. The theorems hold for every storage that meets [StorageSpec]. *)
From stdpp Require Import gmap relations.
From S2P Require Import Prelude RaftCodec RaftStorage RaftServer.

Section election.
Context {S : Type} `{!Storage S} (view : S → StoreView) `{!StorageSpec S view}.
Context {M : Type} (applyCommand : M → bytes → M * bytes) (cfg : ServerConfig).

(** The term and the vote a server has in its storage. *)
Definition sv_term (sv : Server S M) : Z := view_term (view (sv_storage sv)).
Definition sv_vote (sv : Server S M) : option (Z * Z) := view_vote (view (sv_storage sv)).

(** The votes cast: the term they are cast in and the candidate. *)
Abbreviation votes := (list (Z * Z)).

(** The steps of a running server. A timeout is taken while the term can still
    be counted up in an [uint64_t]. *)
Inductive server_step : Server S M → votes → Server S M → Prop :=
  | step_timeout sv sv' eff :
      0 ≤ currentTerm sv < 2 ^ 64 - 1 →
      onTimeout cfg sv = Ok (sv', eff) →
      server_step sv (if currentTerm sv' =? currentTerm sv then []
                      else [(currentTerm sv', sv_id sv)]) sv'
  | step_voteRequest sv req sv' eff resp :
      handleVoteRequest req sv = (sv', eff, resp) →
      server_step sv (if vs_voteGranted resp then [(vs_term resp, vq_candidateId req)] else []) sv'
  | step_voteResponse sv resp sv' eff :
      handleVoteResponse cfg resp sv = (sv', eff) → server_step sv [] sv'
  | step_appendEntries sv req sv' eff resp :
      handleAppendEntriesRequest applyCommand req sv = Ok (sv', eff, resp) → server_step sv [] sv'
  | step_appendEntriesResponse sv peer resp sv' woken :
      handleAppendEntriesResponse peer resp sv = Ok (sv', woken) → server_step sv [] sv'
  | step_apply sv sv' eff x :
      applyLogs applyCommand sv = (sv', eff, x) → server_step sv [] sv'
  | step_initReplication sv peer : server_step sv [] (initReplication peer sv)
  | step_replicate sv peer sv' eff :
      replicateLogsTo cfg peer sv = Ok (sv', eff) → server_step sv [] sv'
  | step_command sv command sv' e :
      sendCommandAsync command sv = (sv', e) → server_step sv [] sv'
  | step_localAck sv sv' eff : localAck cfg sv = (sv', eff) → server_step sv [] sv'
  | step_stop sv : server_step sv [] (stop sv).

Inductive server_run : Server S M → votes → Server S M → Prop :=
  | run_nil sv : server_run sv [] sv
  | run_step sv vs sv' vs' sv'' :
      server_run sv vs sv' → server_step sv' vs' sv'' → server_run sv (vs ++ vs') sv''.

(** ** Effect of the operations on term and vote *)

Definition same_ballot (sv sv' : Server S M) : Prop :=
  sv_term sv' = sv_term sv ∧ sv_vote sv' = sv_vote sv.

Lemma currentTerm_view (sv : Server S M) : currentTerm sv = sv_term sv.
Proof. apply spec_currentTerm. Qed.

Lemma same_ballot_trans sv1 sv2 sv3 :
  same_ballot sv1 sv2 → same_ballot sv2 sv3 → same_ballot sv1 sv3.
Proof. intros [H1 H2] [H3 H4]. split; congruence. Qed.

Lemma setState_storage st (sv : Server S M) : sv_storage (setState st sv).1 = sv_storage sv.
Proof. unfold setState. by case_decide. Qed.

Lemma setState_id st (sv : Server S M) : sv_id (setState st sv).1 = sv_id sv.
Proof. unfold setState. by case_decide. Qed.

Lemma convertToFollower_ballot lid t (sv : Server S M) :
  sv_term (convertToFollower lid t sv).1 = t ∧ sv_vote (convertToFollower lid t sv).1 = None.
Proof.
  unfold convertToFollower. pose proof (setState_storage Follower sv) as Hs.
  destruct (setState Follower sv) as [sv1 eff]. cbn in Hs |- *. unfold sv_term, sv_vote. cbn.
  rewrite spec_clearVotedFor, spec_setCurrentTerm. done.
Qed.

Lemma setupLeader_storage (sv : Server S M) : sv_storage (setupLeader cfg sv).1 = sv_storage sv.
Proof.
  unfold setupLeader.
  pose proof (setState_storage Leader (set_currentLeaderId (sv_id (set_timerActive false sv)) (set_timerActive false sv))) as Hs.
  destruct (setState _ _); cbn in *. done.
Qed.

Lemma sendVoteRequest_ballot (sv sv' : Server S M) eff :
  sendVoteRequest cfg sv = Ok (sv', eff) →
  sv_term sv' = u64 (sv_term sv + 1) ∧ sv_vote sv' = Some (sv_id sv, u64 (sv_term sv + 1)) ∧
  sv_id sv' = sv_id sv.
Proof.
  unfold sendVoteRequest. intros E. inv_result. subst.
  unfold sv_term, sv_vote, setCurrentTerm, currentTerm; cbn.
  rewrite !spec_setVotedFor, !spec_setCurrentTerm, !spec_currentTerm; cbn.
  rewrite !spec_setCurrentTerm. done.
Qed.

Lemma applyLogs_storage fuel (sv : Server S M) :
  sv_storage (applyLogs_loop applyCommand fuel sv).1.1 = sv_storage sv.
Proof.
  revert sv; induction fuel as [|fuel IH]; intros sv; cbn; [done|].
  destruct (_ <? _); [|done]. destruct (st_getLogEntry _ _) as [[e|]|]; [|done|done].
  destruct (_ =? _); [|done]. destruct (applyCommand _ _) as [mc reply].
  match goal with |- context [applyLogs_loop _ fuel ?x] => specialize (IH x) end.
  destruct (applyLogs_loop _ _ _) as [[sv' eff'] x']. cbn in *. done.
Qed.

Lemma matchEntries_ballot es s i index s' i' index' :
  matchEntries s es i index = Ok (s', i', index') →
  view_term (view s') = view_term (view s) ∧ view_vote (view s') = view_vote (view s).
Proof.
  revert i index; induction es as [|e es IH]; intros i index E; cbn in E; [by simplify_eq|].
  destruct (_ <? _); [by simplify_eq|]. inv_result.
  destruct (entry_term e =? _); [by eapply IH|]. inv_result. simplify_eq.
  by eapply spec_truncateLog_meta.
Qed.

Lemma appendEntries_ballot fuel s es i index last s' :
  appendEntries fuel s es i index last = Ok s' →
  view_term (view s') = view_term (view s) ∧ view_vote (view s') = view_vote (view s).
Proof.
  revert s i index; induction fuel as [|fuel IH]; intros s i index E; cbn in E;
    (destruct (_ <=? _); [|by simplify_eq]); [done|].
  destruct (es !! _) as [e|]; [|done]. apply IH in E as [-> ->].
  rewrite spec_appendLogEntry. done.
Qed.

Lemma commitAndWait_storage lc li (sv sv' : Server S M) eff :
  commitAndWait applyCommand lc li sv = Ok (sv', eff) → sv_storage sv' = sv_storage sv.
Proof.
  unfold commitAndWait. destruct (_ <? _); [|intros; by simplify_eq]. cbn zeta.
  match goal with |- context [applyLogs _ ?x] => pose proof (applyLogs_storage (Z.to_nat (sv_commitIndex x - sv_lastApplied x)) x) as Hs end.
  unfold applyLogs. destruct (applyLogs_loop _ _ _) as [[sv1 eff1] x1]. cbn in *.
  case_decide; intros; by simplify_eq.
Qed.

(** ** Steps never take a term back *)

Lemma appendEntries_step_ballot req (sv sv' : Server S M) eff resp :
  handleAppendEntriesRequest applyCommand req sv = Ok (sv', eff, resp) →
  same_ballot sv sv' ∨ sv_term sv < sv_term sv' .
Proof.
  unfold handleAppendEntriesRequest. rewrite currentTerm_view.
  destruct (Z.ltb_spec (aq_term req) (sv_term sv)); [intros; simplify_eq; by left|].
  intros E. apply bind_Ok in E as (t & _ & E). destruct (negb _); [simplify_eq; by left|].
  set (c := if sv_term sv <? aq_term req then _ else _) in E.
  assert (Hc : (c.1 = sv) ∨ (sv_term sv < sv_term c.1)).
  { subst c. destruct (Z.ltb_spec (sv_term sv) (aq_term req)); [right|by left].
    by rewrite (proj1 (convertToFollower_ballot _ _ _)). }
  destruct c as [sv1 eff1]. cbn [fst] in Hc.
  apply bind_Ok in E as ([[s1 i1] index1] & Hm & E). cbn beta in E.
  apply bind_Ok in E as (s2 & Ha & E). apply bind_Ok in E as (u & _ & E).
  apply bind_Ok in E as ([sv3 eff3] & Hw & E). cbn beta in E. simplify_eq.
  apply matchEntries_ballot in Hm as [Hm1 Hm2]. apply appendEntries_ballot in Ha as [Ha1 Ha2].
  apply commitAndWait_storage in Hw. cbn in Hw.
  unfold same_ballot, sv_term, sv_vote in *. rewrite Hw, Ha1, Ha2, Hm1, Hm2.
  destruct Hc as [->|Hc]; [by left|by right].
Qed.

Lemma same_ballot_storage (sv sv' : Server S M) :
  sv_storage sv' = sv_storage sv → same_ballot sv sv'.
Proof. intros E. unfold same_ballot, sv_term, sv_vote. by rewrite E. Qed.

Lemma onTimeout_ballot (sv sv' : Server S M) eff :
  onTimeout cfg sv = Ok (sv', eff) →
  same_ballot sv sv' ∨
  (sv_term sv' = u64 (sv_term sv + 1) ∧ sv_vote sv' = Some (sv_id sv, u64 (sv_term sv + 1)) ∧
   sv_id sv' = sv_id sv).
Proof.
  unfold onTimeout. cbn zeta. destruct (negb _); [intros; simplify_eq; left; by apply same_ballot_storage|].
  pose proof (setState_storage Candidate (set_timerActive false sv)) as Hs.
  pose proof (setState_id Candidate (set_timerActive false sv)) as Hid.
  destruct (sv_state _); [|intros E|done].
  - destruct (setState _ _) as [sv1 eff1]. intros E. inv_result. destruct a as [sv2 eff2].
    inv_result. simplify_eq. right. apply sendVoteRequest_ballot in Ha.
    unfold sv_term in *. cbn in Hs, Hid. rewrite Hs, Hid in Ha. done.
  - right. by apply sendVoteRequest_ballot in E.
Qed.

Lemma voteRequest_step_ballot req (sv sv' : Server S M) eff resp :
  handleVoteRequest req sv = (sv', eff, resp) →
  let vs := if vs_voteGranted resp then [(vs_term resp, vq_candidateId req)] else [] in
  (vs = [] ∧ (same_ballot sv sv' ∨ sv_term sv < sv_term sv')) ∨
  (∃ c lt, vs = [(sv_term sv', c)] ∧ sv_vote sv' = Some (c, lt) ∧
     (sv_term sv < sv_term sv' ∨
      sv_term sv = sv_term sv' ∧ (sv_vote sv = None ∨ ∃ lt', sv_vote sv = Some (c, lt')))).
Proof.
  unfold handleVoteRequest. rewrite currentTerm_view.
  destruct (Z.ltb_spec (vq_term req) (sv_term sv)) as [_|Hge].
  { intros; simplify_eq; cbn. left; split; [done|]. by left. }
  set (c := if sv_term sv <? vq_term req then _ else _).
  assert (Hc : c.1 = sv ∨ sv_term sv < sv_term c.1).
  { subst c. destruct (Z.ltb_spec (sv_term sv) (vq_term req)); [right|by left].
    by rewrite (proj1 (convertToFollower_ballot _ _ _)). }
  destruct c as [sv1 eff1]. cbn [fst] in Hc. rewrite spec_votedFor, currentTerm_view.
  fold (sv_vote sv1).
  assert (Hterm : sv_term (set_storage (st_setVotedFor (sv_storage sv1) (vq_candidateId req) (vq_lastLogTerm req)) sv1) = sv_term sv1)
    by (unfold sv_term; cbn; by rewrite spec_setVotedFor).
  assert (Hvote : sv_vote (set_storage (st_setVotedFor (sv_storage sv1) (vq_candidateId req) (vq_lastLogTerm req)) sv1)
                  = Some (vq_candidateId req, vq_lastLogTerm req))
    by (unfold sv_vote; cbn; by rewrite spec_setVotedFor).
  destruct (sv_vote sv1) as [[id lt]|] eqn:Hv; [destruct (_ && _) eqn:Hand|]; intros E; simplify_eq; cbn.
  - apply andb_prop in Hand as [Hid _]. apply Z.eqb_eq in Hid. subst id. right.
    do 2 eexists. rewrite Hterm, Hvote. split_and!; [done|done|].
    destruct Hc as [->|Hc]; [right; split; [done|right; eauto]|by left].
  - left; split; [done|]. destruct Hc as [->|Hc]; [by left|by right].
  - right. do 2 eexists. rewrite Hterm, Hvote. split_and!; [done|done|].
    destruct Hc as [->|Hc]; [right; split; [done|by left]|by left].
Qed.

Lemma step_ballot (sv sv' : Server S M) vs :
  server_step sv vs sv' →
  (vs = [] ∧ (same_ballot sv sv' ∨ sv_term sv < sv_term sv')) ∨
  (∃ c lt, vs = [(sv_term sv', c)] ∧ sv_vote sv' = Some (c, lt) ∧
     (sv_term sv < sv_term sv' ∨
      sv_term sv = sv_term sv' ∧ (sv_vote sv = None ∨ ∃ lt', sv_vote sv = Some (c, lt')))).
Proof.
  destruct 1 as [sv sv' eff Ht E|sv req sv' eff resp E|sv resp sv' eff E|sv req sv' eff resp E
    |sv peer resp sv' woken E|sv sv' eff x E|sv peer|sv peer sv' eff E|sv command sv' e E|sv sv' eff E|sv].
  - (* timeout *) rewrite !currentTerm_view in *. apply onTimeout_ballot in E as [E|(Hts & Hv & Hid)].
    + left. rewrite (proj2 (Z.eqb_eq _ _)) by apply E. auto.
    + rewrite unsigned_id in Hts, Hv by auto with x0. right.
      rewrite (proj2 (Z.eqb_neq _ _)) by lia. do 2 eexists. split_and!; [done|done|lia].
  - (* vote request *) by eapply voteRequest_step_ballot.
  - left; split; [done|]; left. apply (f_equal fst) in E; cbn in E; subst sv'.
    apply same_ballot_storage. unfold handleVoteResponse. case_decide; [done|].
    destruct (vs_voteGranted resp); [|done]. destruct (_ && _); [|done].
    by rewrite setupLeader_storage.
  - left; split; [done|]. by eapply appendEntries_step_ballot.
  - left; split; [done|]; left. unfold handleAppendEntriesResponse in E.
    apply same_ballot_storage. destruct (negb _); [by simplify_eq|]. cbn zeta in E.
    inv_result. destruct (_ =? _); by simplify_eq.
  - left; split; [done|]; left. apply same_ballot_storage.
    pose proof (applyLogs_storage (Z.to_nat (sv_commitIndex sv - sv_lastApplied sv)) sv) as Hs.
    unfold applyLogs in E. by rewrite E in Hs.
  - left; split; [done|]; left. by apply same_ballot_storage.
  - left; split; [done|]; left. apply same_ballot_storage. unfold replicateLogsTo in E. cbn zeta in E.
    apply bind_Ok in E as ([entries|] & _ & E); [|by simplify_eq].
    apply bind_Ok in E as (pt & _ & E). by simplify_eq.
  - left; split; [done|]; left. apply same_ballot_storage. unfold sendCommandAsync in E.
    destruct (sv_state sv); by simplify_eq.
  - left; split; [done|]; left. unfold localAck in E. destruct (sv_pendingStores sv); simplify_eq; [by split|].
    split; unfold sv_term, sv_vote; cbn; by rewrite spec_appendLogEntry.
  - left; split; [done|]; left. by apply same_ballot_storage.
Qed.

(** ** The vote invariant *)

(** The votes cast so far: none in a later term than the current one, those of
    the current term are the vote on record, and one candidate per term. *)
Definition votes_ok (vs : votes) (sv : Server S M) : Prop :=
  (∀ t c, (t, c) ∈ vs → t ≤ sv_term sv) ∧
  (∀ c, (sv_term sv, c) ∈ vs → ∃ lt, sv_vote sv = Some (c, lt)) ∧
  (∀ t c c', (t, c) ∈ vs → (t, c') ∈ vs → c = c').

Lemma votes_ok_step vs vs' sv sv' :
  votes_ok vs sv → server_step sv vs' sv' → votes_ok (vs ++ vs') sv'.
Proof.
  intros (Hle & Hcur & Huniq) Hstep. unfold votes_ok. setoid_rewrite elem_of_app.
  apply step_ballot in Hstep as [(-> & [[Ht Hv]|Hlt])|(c & lt & -> & Hv & Hc)].
  - rewrite Ht, Hv. set_solver.
  - split_and!.
    + intros t c [Hin|Hin]; [apply Hle in Hin; lia|set_solver].
    + intros c [Hin|Hin]; [apply Hle in Hin; lia|set_solver].
    + set_solver.
  - setoid_rewrite list_elem_of_singleton.
    assert (Hold : ∀ c0, (sv_term sv', c0) ∈ vs → c0 = c).
    { intros c0 Hin. destruct Hc as [Hc|(Hc & Hvote)]; [apply Hle in Hin; lia|].
      rewrite <- Hc in Hin. destruct (Hcur _ Hin) as [lt0 Hlt0]. naive_solver. }
    assert (Ht : sv_term sv ≤ sv_term sv') by lia.
    split_and!.
    + intros t c0 [Hin|Hin]; [apply Hle in Hin; lia|simplify_eq; lia].
    + intros c0 [Hin|Hin]; [apply Hold in Hin as ->|simplify_eq]; eauto.
    + intros t c1 c2 [H1|H1] [H2|H2]; simplify_eq; eauto using eq_sym.
Qed.

Lemma run_votes_ok sv vs sv' : server_run sv vs sv' → votes_ok vs sv'.
Proof.
  induction 1 as [sv|sv vs sv' vs' sv'' Hrun IH Hstep].
  - unfold votes_ok. set_solver.
  - by eapply votes_ok_step.
Qed.

(** C1 (safety). A server casts its vote for at most one candidate per term,
    over every sequence of timeouts, messages and worker iterations, its own
    candidacies included. *)
Theorem vote_once_per_term sv vs sv' t c c' :
  server_run sv vs sv' → (t, c) ∈ vs → (t, c') ∈ vs → c = c'.
Proof. intros Hrun. apply (run_votes_ok _ _ _ Hrun). Qed.

(** The current term never decreases, and after any run it is
    at least the term of every vote the server has cast. *)
Theorem term_monotone sv vs sv' :
  server_run sv vs sv' →
  sv_term sv ≤ sv_term sv' ∧ (∀ t c, (t, c) ∈ vs → t ≤ sv_term sv').
Proof.
  intros Hrun. split; [|apply (run_votes_ok _ _ _ Hrun)].
  induction Hrun as [sv|sv vs sv' vs' sv'' Hrun IH Hstep]; [lia|].
  apply step_ballot in Hstep as [(_ & [[Ht _]|Hlt])|(c & lt & _ & _ & Hc)]; lia.
Qed.
End election.

(** A server that times out, then receives a request from a peer in a later
    term: two votes, in two terms. *)
Definition example_config : ServerConfig := mkServerConfig [1; 2; 3] 3 5 1024.
Definition example_machine (m : unit) (c : bytes) : unit * bytes := (m, []).
Definition example_server : Server MemoryStore unit := start (newServer 1 newMemoryStore ()).
Definition example_timed_out : Server MemoryStore unit :=
  match onTimeout example_config example_server with Ok (sv, _) => sv | Raise _ => example_server end.
Definition example_request : VoteRequest := mkVoteRequest 5 2 0 0.
Definition example_voted : Server MemoryStore unit :=
  (handleVoteRequest example_request example_timed_out).1.1.

Definition example_votes : list (Z * Z) := ([] ++ [(2, 1)]) ++ [(5, 2)].

Lemma example_run :
  server_run example_machine example_config example_server example_votes example_voted.
Proof.
  apply run_step with example_timed_out; [apply run_step with example_server; [apply run_nil|]|].
  - replace [(2, 1)] with (if currentTerm example_timed_out =? currentTerm example_server then []
      else [(currentTerm example_timed_out, sv_id example_server)]) by (by vm_compute).
    apply (step_timeout example_machine example_config example_server example_timed_out
      (StateChanged Follower :: map (λ p, Send p (MsgVoteRequest (mkVoteRequest 2 1 0 0))) [2; 3]));
      [by vm_compute|by vm_compute].
  - apply (step_voteRequest example_machine example_config example_timed_out example_request
      example_voted [StateChanged Candidate; LeaderChanged 0] (mkVoteResponse 5 true)).
    by vm_compute.
Qed.

Lemma vote_once_per_term_witness :
  server_run example_machine example_config example_server example_votes example_voted ∧ 2 = 2.
Proof.
  split; [apply example_run|].
  apply (vote_once_per_term memory_view example_machine example_config
           example_server example_votes example_voted 5 2 2 example_run); unfold example_votes; set_solver.
Defined.

Lemma term_monotone_witness :
  sv_term memory_view example_server ≤ sv_term memory_view example_voted ∧
  (∀ t c, (t, c) ∈ example_votes → t ≤ sv_term memory_view example_voted).
Proof.
  apply (term_monotone memory_view example_machine example_config
           example_server example_votes example_voted example_run).
Defined.
