(* ===== verification/RaftReplication.v ===== *)
(** * Raft: replication, commit and application

    The correctness of the handlers that move log entries around, for any
    storage that meets [StorageSpec], and for [MemoryStore] where truncation
    matters: what [handleRequest(AppendEntriesRequest)] does to
    the follower's log, what the leader commits, what is applied to the state
    machine, and what a replication message carries. *)
From stdpp Require Import gmap.
From S2P Require Import Prelude RaftCodec RaftStorage RaftServer.

(** ** The commit index *)

Lemma commitScan_spec ms q n N acc :
  acc ≤ N →
  let r := commitScan ms q n N acc in
  acc ≤ r ∧ (r = acc ∨ (N ≤ r < N + Z.of_nat n ∧ q ≤ countReplicated ms r)) ∧
  (∀ K, N ≤ K < N + Z.of_nat n → q ≤ countReplicated ms K → K ≤ r).
Proof.
  revert N acc; induction n as [|n IH]; intros N acc Hacc; cbn [commitScan].
  { split_and!; [lia|by left|lia]. }
  destruct (Z.leb_spec q (countReplicated ms N)) as [Hq|Hq]; cbn [andb].
  - destruct (Z.ltb_spec acc N).
    + destruct (IH (N + 1) N ltac:(lia)) as (H1 & H2 & H3). split_and!; [lia| |].
      * right. destruct H2 as [->|[H2 ?]]; [split; [lia|done]|split; [lia|done]].
      * intros K HK Hc. destruct (decide (K = N)) as [->|]; [lia|]. apply H3; [lia|done].
    + destruct (IH (N + 1) acc ltac:(lia)) as (H1 & H2 & H3). split_and!; [lia| |].
      * destruct H2 as [->|[H2 ?]]; [by left|right; split; [lia|done]].
      * intros K HK Hc. destruct (decide (K = N)) as [->|]; [lia|]. apply H3; [lia|done].
  - destruct (IH (N + 1) acc ltac:(lia)) as (H1 & H2 & H3). split_and!; [lia| |].
    + destruct H2 as [->|[H2 ?]]; [by left|right; split; [lia|done]].
    + intros K HK Hc. destruct (decide (K = N)) as [->|]; [lia|]. apply H3; [lia|done].
Qed.

Lemma list_min_spec l x : list_min l x ≤ x ∧ Forall (λ y, list_min l x ≤ y) l.
Proof.
  unfold list_min. induction l as [|y l [IH1 IH2]]; cbn; [split; [lia|constructor]|].
  split; [lia|]. constructor; [lia|]. revert IH2. apply Forall_impl. cbn; lia.
Qed.

Lemma list_max_spec l x : x ≤ list_max l x ∧ Forall (λ y, y ≤ list_max l x) l.
Proof.
  unfold list_max. induction l as [|y l [IH1 IH2]]; cbn; [split; [lia|constructor]|].
  split; [lia|]. constructor; [lia|]. revert IH2. apply Forall_impl. cbn; lia.
Qed.

Lemma list_max_in l x : list_max l x = x ∨ list_max l x ∈ l.
Proof.
  unfold list_max. induction l as [|y l IH]; cbn; [by left|].
  destruct (Z.max_spec y (foldr Z.max x l)) as [[_ ->]|[_ ->]]; [|set_solver].
  destruct IH as [->|IH]; [by left|set_solver].
Qed.

Lemma countReplicated_all ms N :
  Forall (λ y, N ≤ y) ms → countReplicated ms N = Z.of_nat (length ms).
Proof.
  intros H. unfold countReplicated. f_equal. induction H as [|y ms Hy H IH]; [done|].
  rewrite filter_cons_True by done. cbn [length]. by rewrite IH.
Qed.

Lemma countReplicated_none ms N : Forall (λ y, y < N) ms → countReplicated ms N = 0.
Proof.
  intros H. unfold countReplicated. induction H as [|y ms Hy H IH]; [done|].
  by rewrite filter_cons_False by lia.
Qed.

(** The number of followers whose log is known to reach [N]. *)
Definition replicas (followers : gmap Z FollowerState) (N : Z) : Z :=
  countReplicated (matchIndices followers) N.

(** C3 (functional). [computeCommitIndex] terminates and returns the largest
    index that [followers/2 + 1] followers have; together with the leader that
    is a strict majority of the cluster. *)
Theorem computeCommitIndex_maximal (followers : gmap Z FollowerState) :
  followers ≠ ∅ →
  map_Forall (λ _ f, matchIndex f < 2 ^ 64 - 1) followers →
  ∃ r, computeCommitIndex followers = Ok r ∧
    Z.of_nat (size followers) / 2 + 1 ≤ replicas followers r ∧
    (∀ N, Z.of_nat (size followers) / 2 + 1 ≤ replicas followers N → N ≤ r) ∧
    Z.of_nat (size followers) + 1 < 2 * (replicas followers r + 1).
Proof.
  intros Hne Hmax. unfold computeCommitIndex, replicas.
  assert (Hlen : length (matchIndices followers) = size followers)
    by (unfold matchIndices; by rewrite length_fmap, length_map_to_list).
  assert (Hbound : Forall (λ y, y < 2 ^ 64 - 1) (matchIndices followers)).
  { unfold matchIndices. apply Forall_fmap, Forall_forall. intros [k f] Hin%list_elem_of_In.
    apply elem_of_map_to_list in Hin. by apply (Hmax k f). }
  rewrite <- Hlen. destruct (matchIndices followers) as [|m ms] eqn:Hms.
  { exfalso. apply Hne, map_size_empty_inv. cbn in Hlen. lia. }
  destruct (list_min_spec ms m) as [Hlow Hlow']. destruct (list_max_spec ms m) as [Hhigh Hhigh'].
  apply Forall_cons_1 in Hbound as [Hm Hms'].
  assert (Hh : list_max ms m < 2 ^ 64 - 1).
  { destruct (list_max_in ms m) as [->|Hin]; [done|]. rewrite Forall_forall in Hms'. apply Hms'. by apply list_elem_of_In. }
  rewrite (proj2 (Z.eqb_neq _ _)) by lia.
  set (q := _ / 2 + 1). set (low := list_min ms m) in *. set (high := list_max ms m) in *.
  destruct (commitScan_spec (m :: ms) q (Z.to_nat (high - low + 1)) low low ltac:(lia)) as (H1 & H2 & H3).
  set (r := commitScan _ _ _ _ _) in *. exists r. split; [done|].
  assert (Hall : countReplicated (m :: ms) low = Z.of_nat (length (m :: ms)))
    by (apply countReplicated_all; by constructor).
  assert (Hlenpos : 1 ≤ Z.of_nat (length (m :: ms))) by (cbn; lia).
  assert (Hq : q ≤ Z.of_nat (length (m :: ms))) by (subst q; Z.to_euclidean_division_equations; lia).
  assert (Hr : q ≤ countReplicated (m :: ms) r) by (destruct H2 as [->|[_ H2]]; [by rewrite Hall|done]).
  split_and!; [done| |].
  - intros N HN. destruct (decide (N < low)); [lia|]. destruct (decide (N ≤ high)).
    + apply H3; [lia|done].
    + exfalso. rewrite countReplicated_none in HN.
      * subst q. Z.to_euclidean_division_equations; lia.
      * constructor; [lia|]. revert Hhigh'. apply Forall_impl. cbn; lia.
  - subst q. Z.to_euclidean_division_equations; lia.
Qed.

Definition example_followers : gmap Z FollowerState :=
  {[ 2 := mkFollowerState 8 7; 3 := mkFollowerState 5 4; 4 := mkFollowerState 10 9 ]}.

Lemma computeCommitIndex_maximal_witness :
  ∃ r, computeCommitIndex example_followers = Ok r ∧
    3 / 2 + 1 ≤ replicas example_followers r ∧
    (∀ N, 3 / 2 + 1 ≤ replicas example_followers N → N ≤ r) ∧
    3 + 1 < 2 * (replicas example_followers r + 1).
Proof.
  apply (computeCommitIndex_maximal example_followers); [done|].
  apply map_Forall_to_list. by repeat constructor.
Defined.

(** ** Reference definitions *)

(** The number of leading entries on which a log and a message agree, by term. *)
Fixpoint agree (log entries : list LogEntry) : nat :=
  match log, entries with
  | e :: log, e' :: entries => if entry_term e' =? entry_term e then S (agree log entries) else O
  | _, _ => O
  end.

Lemma drop_agree_nil log : agree log [] = O.
Proof. by destruct log. Qed.

Lemma agree_le log entries : (agree log entries ≤ length log)%nat ∧ (agree log entries ≤ length entries)%nat.
Proof.
  revert entries; induction log as [|e log IH]; intros [|e' entries]; cbn; try lia.
  destruct (_ =? _); [|lia]. specialize (IH entries). lia.
Qed.

(** An entry of the log has another term than the message's entry for it. *)
Definition conflicts (log entries : list LogEntry) : Prop :=
  (agree log entries < length log ∧ agree log entries < length entries)%nat.

#[export] Instance conflicts_dec log entries : Decision (conflicts log entries).
Proof. unfold conflicts; apply _. Defined.

Lemma conflicts_cons e e' log entries :
  conflicts (e :: log) (e' :: entries) ↔ entry_term e' ≠ entry_term e ∨ conflicts log entries.
Proof.
  unfold conflicts. cbn. destruct (Z.eqb_spec (entry_term e') (entry_term e)); [|split; [by left|lia]].
  split; [right; lia|]. intros [?|?]; [done|lia].
Qed.

(** Running the state machine over a list of entries: the machine and the
    replies. *)
Section machine.
Context {M : Type} (applyCommand : M → bytes → M * bytes).

Definition machine_run (m : M) (es : list LogEntry) : M :=
  foldl (λ m e, (applyCommand m (entry_command e)).1) m es.

Fixpoint machine_replies (m : M) (es : list LogEntry) : list bytes :=
  match es with
  | [] => []
  | e :: es => (applyCommand m (entry_command e)).2 ::
               machine_replies (applyCommand m (entry_command e)).1 es
  end.

(** The promises fulfilled when the entries from index [i] on are applied. *)
Definition fulfilments (promises : gset Z) (i : Z) (replies : list bytes) : list effect :=
  omap (λ p, if decide (p.1 ∈ promises) then Some (Fulfil p.1 p.2) else None)
       (zip (seqZ i (Z.of_nat (length replies))) replies).

Lemma fulfilments_cons P Q i r rs :
  (∀ j, i < j → j ∈ P ↔ j ∈ Q) →
  fulfilments P i (r :: rs) =
  (if decide (i ∈ P) then [Fulfil i r] else []) ++ fulfilments Q (i + 1) rs.
Proof.
  intros HPQ. unfold fulfilments. cbn [length].
  rewrite seqZ_cons by lia. cbn [zip zip_with omap list_omap fst snd].
  replace (Z.pred (Z.of_nat (S (length rs)))) with (Z.of_nat (length rs)) by lia.
  replace (Z.succ i) with (i + 1) by lia.
  assert (Hrest : ∀ j l, i < j →
    omap (λ p, if decide (p.1 ∈ P) then Some (Fulfil p.1 p.2) else None) (zip (seqZ j (Z.of_nat (length l))) l) =
    omap (λ p, if decide (p.1 ∈ Q) then Some (Fulfil p.1 p.2) else None) (zip (seqZ j (Z.of_nat (length l))) l)).
  { intros j l; revert j; induction l as [|x l IH]; intros j Hj; cbn [length]; [done|].
    rewrite seqZ_cons by lia. cbn [zip zip_with omap list_omap fst snd].
    replace (Z.pred (Z.of_nat (S (length l)))) with (Z.of_nat (length l)) by lia.
    replace (Z.succ j) with (j + 1) by lia. rewrite IH by lia.
    destruct (decide (j ∈ P)) as [H1|H1], (decide (j ∈ Q)) as [H2|H2]; [done| | |done];
      exfalso; specialize (HPQ j Hj); tauto. }
  rewrite (Hrest (i + 1) rs) by lia. by destruct (decide (i ∈ P)).
Qed.
End machine.

Section replication.
Context {S : Type} `{Storage S} (view : S → StoreView) `{!StorageSpec S view}.
Context {M : Type} (applyCommand : M → bytes → M * bytes).
Context (cfg : ServerConfig).

Abbreviation Server := (Server S M).
Definition sv_log (sv : Server) : list LogEntry := view_log (view (sv_storage sv)).

Lemma latestIndex_log (sv : Server) :
  log_ok (sv_log sv) → latestIndex sv = Z.of_nat (length (sv_log sv)) - 1.
Proof. apply (spec_latestIndex (view := view)). Qed.

(** The entries with indices in [(a, b]]. *)
Definition segment (log : list LogEntry) (a b : Z) : list LogEntry :=
  take (Z.to_nat (b - a)) (drop (Z.to_nat (a + 1)) log).

Definition is_command (e : LogEntry) : Prop := entry_type e = LOG_COMMAND.

Lemma segment_cons log a b :
  0 ≤ a < b → b < Z.of_nat (length log) →
  ∃ e, log !! Z.to_nat (a + 1) = Some e ∧ segment log a b = e :: segment log (a + 1) b.
Proof.
  intros Ha Hb. destruct (lookup_lt_is_Some_2 log (Z.to_nat (a + 1))) as [e He]; [lia|].
  exists e. split; [done|]. unfold segment. rewrite (drop_S _ _ _ He).
  replace (Z.to_nat (b - a)) with (Datatypes.S (Z.to_nat (b - (a + 1)))) by lia.
  cbn [take]. by replace (Datatypes.S (Z.to_nat (a + 1))) with (Z.to_nat (a + 1 + 1)) by lia.
Qed.

(** What a completed run of [applyLogs] leaves behind. *)
Record applied (sv sv' : Server) (eff : list effect) : Prop := {
  ap_storage : sv_storage sv' = sv_storage sv;
  ap_commitIndex : sv_commitIndex sv' = sv_commitIndex sv;
  ap_state : sv_state sv' = sv_state sv;
  ap_lastApplied : sv_lastApplied sv' = sv_commitIndex sv;
  ap_machine : sv_machine sv' =
    machine_run applyCommand (sv_machine sv)
      (segment (sv_log sv) (sv_lastApplied sv) (sv_commitIndex sv));
  ap_promises i : i ∈ sv_appliedPromises sv' ↔
    i ∈ sv_appliedPromises sv ∧ ¬ (sv_lastApplied sv < i ≤ sv_commitIndex sv);
  ap_effects : eff = fulfilments (sv_appliedPromises sv) (sv_lastApplied sv + 1)
    (machine_replies applyCommand (sv_machine sv)
      (segment (sv_log sv) (sv_lastApplied sv) (sv_commitIndex sv)));
}.

Lemma applyLogs_loop_spec n : ∀ sv : Server,
  log_ok (sv_log sv) → 0 ≤ sv_lastApplied sv →
  sv_commitIndex sv = sv_lastApplied sv + Z.of_nat n →
  sv_commitIndex sv < Z.of_nat (length (sv_log sv)) →
  Forall is_command (segment (sv_log sv) (sv_lastApplied sv) (sv_commitIndex sv)) →
  ∃ sv' eff, applyLogs_loop applyCommand n sv = (sv', eff, None) ∧ applied sv sv' eff.
Proof.
  induction n as [|n IH]; intros sv Hok Hla Hci Hlen Hcmd.
  { exists sv, []. split; [done|]. rewrite Nat2Z.inj_0, Z.add_0_r in Hci.
    assert (Hs : segment (sv_log sv) (sv_lastApplied sv) (sv_commitIndex sv) = [])
      by (unfold segment; by rewrite Hci, Z.sub_diag).
    split; try done; rewrite ?Hs; try done.
    intros i; split; [intros ?; split; [done|lia]|tauto]. }
  cbn [applyLogs_loop]. rewrite (proj2 (Z.ltb_lt _ _)) by lia.
  pose proof Hok as [_ Hmax]. rewrite unsigned_id by auto with x0.
  rewrite (spec_getLogEntry (view := view)) by (done || lia). fold (sv_log sv).
  destruct (segment_cons (sv_log sv) (sv_lastApplied sv) (sv_commitIndex sv)) as (e & He & Hseg); [lia|done|].
  rewrite He. rewrite Hseg in Hcmd. apply Forall_cons_1 in Hcmd as [Hce Hcmd].
  rewrite (proj2 (Z.eqb_eq _ _)) by done.
  destruct (applyCommand (sv_machine sv) (entry_command e)) as [m' reply] eqn:Happ.
  set (sv1 := set_applied _ _ _ sv).
  destruct (IH sv1) as (sv' & eff & -> & Hap); [done|cbn; lia|cbn; lia|done|done|].
  do 2 eexists; split; [reflexivity|]. destruct Hap; subst sv1; cbn in *.
  split; try done; rewrite ?Hseg; cbn [machine_run machine_replies foldl]; rewrite ?Happ; cbn [fst snd]; try done.
  - intros i. rewrite ap_promises0. set_solver by lia.
  - rewrite ap_effects0. symmetry. apply fulfilments_cons. intros j Hj. set_solver by lia.
Qed.

Lemma applyLogs_spec (sv : Server) :
  log_ok (sv_log sv) → 0 ≤ sv_lastApplied sv ≤ sv_commitIndex sv →
  sv_commitIndex sv < Z.of_nat (length (sv_log sv)) →
  Forall is_command (segment (sv_log sv) (sv_lastApplied sv) (sv_commitIndex sv)) →
  ∃ sv' eff, applyLogs applyCommand sv = (sv', eff, None) ∧ applied sv sv' eff.
Proof. intros Hok Hla Hlen Hcmd. apply applyLogs_loop_spec; (done || lia). Qed.

(** C4 (functional). [applyLogs] applies exactly the committed entries that
    were not applied before, each once and in log order, without an exception:
    the state machine ends where running those commands in order puts it, and
    exactly the clients waiting for one of these indices get its reply. *)
Theorem applyLogs_in_order (sv : Server) :
  log_ok (sv_log sv) → 0 ≤ sv_lastApplied sv ≤ sv_commitIndex sv →
  sv_commitIndex sv < Z.of_nat (length (sv_log sv)) →
  Forall is_command (segment (sv_log sv) (sv_lastApplied sv) (sv_commitIndex sv)) →
  ∃ sv' eff, applyLogs applyCommand sv = (sv', eff, None) ∧ applied sv sv' eff.
Proof. apply applyLogs_spec. Qed.

(** ** What a replication message carries *)

Definition commands_size (es : list LogEntry) : Z :=
  foldr (λ e n, Z.of_nat (length (entry_command e)) + n) 0 es.

Lemma commands_size_take_0 es : commands_size (take 0 es) = 0.
Proof. done. Qed.

Lemma commands_size_take_S k e es :
  commands_size (take (Datatypes.S k) (e :: es)) =
  Z.of_nat (length (entry_command e)) + commands_size (take k es).
Proof. done. Qed.

Lemma loadEntries_spec (sv : Server) n : ∀ i total,
  log_ok (sv_log sv) → 0 ≤ i → i + Z.of_nat n ≤ Z.of_nat (length (sv_log sv)) →
  total ≤ maxCommandsSizePerMessage cfg →
  ∃ k, loadEntries cfg n i total sv = Ok (Some (take k (drop (Z.to_nat i) (sv_log sv)))) ∧
    (k ≤ n)%nat ∧
    total + commands_size (take k (drop (Z.to_nat i) (sv_log sv))) ≤ maxCommandsSizePerMessage cfg ∧
    ((k < n)%nat → maxCommandsSizePerMessage cfg <
      total + commands_size (take (Datatypes.S k) (drop (Z.to_nat i) (sv_log sv)))).
Proof.
  induction n as [|n IH]; intros i total Hok Hi Hn Ht; cbn [loadEntries].
  { exists O. rewrite commands_size_take_0. split_and!; [done|lia|lia|lia]. }
  rewrite (spec_getLogEntry (view := view)) by done. fold (sv_log sv). cbn [mbind result_bind].
  destruct (lookup_lt_is_Some_2 (sv_log sv) (Z.to_nat i)) as [e He]; [lia|]. rewrite He.
  rewrite (drop_S _ _ _ He).
  destruct (Z.ltb_spec (maxCommandsSizePerMessage cfg) (total + Z.of_nat (length (entry_command e)))).
  { exists O. rewrite commands_size_take_0, commands_size_take_S, commands_size_take_0.
    split_and!; [done|lia|lia|lia]. }
  destruct (IH (i + 1) (total + Z.of_nat (length (entry_command e)))) as (k & -> & Hk & Hs & Hmax);
    [done|lia|lia|lia|].
  replace (Z.to_nat (i + 1)) with (Datatypes.S (Z.to_nat i)) in * by lia.
  exists (Datatypes.S k). cbn [mbind result_bind]. rewrite !commands_size_take_S.
  split_and!; [done|lia|lia|]. intros Hlt. specialize (Hmax ltac:(lia)). lia.
Qed.

(** A replication message from index [first] carries a contiguous
    slice of the log: at most [maxCommandsPerMessage + 1] entries, whose
    commands together respect the size limit, and the slice stops early only
    if the next command would exceed that limit. *)
Theorem tryLoadLogEntries_slice (sv : Server) first :
  log_ok (sv_log sv) → 0 ≤ first < Z.of_nat (length (sv_log sv)) →
  0 ≤ maxCommandsPerMessage cfg → 0 ≤ maxCommandsSizePerMessage cfg →
  let rest := drop (Z.to_nat first) (sv_log sv) in
  let count := Z.min (maxCommandsPerMessage cfg) (Z.of_nat (length rest) - 1) + 1 in
  ∃ k, tryLoadLogEntries cfg first sv = Ok (Some (take k rest)) ∧
    Z.of_nat k ≤ count ∧
    commands_size (take k rest) ≤ maxCommandsSizePerMessage cfg ∧
    (Z.of_nat k < count → maxCommandsSizePerMessage cfg < commands_size (take (Datatypes.S k) rest)).
Proof.
  intros Hok Hf Hc Hsz rest count. subst rest count. rewrite length_drop.
  unfold tryLoadLogEntries. rewrite latestIndex_log by done. pose proof Hok as [_ Hmax]. rewrite unsigned_id by auto with x0.
  destruct (loadEntries_spec sv (Z.to_nat (Z.min (maxCommandsPerMessage cfg)
    (Z.of_nat (length (sv_log sv)) - 1 - first) + 1)) first 0) as (k & -> & Hk & Hs & Hm); [done|lia|lia|done|].
  exists k. split_and!; [done|lia|lia|]. intros Hlt. specialize (Hm ltac:(lia)). lia.
Qed.

(** ** The follower's log *)

(** Two stores that differ in their logs at most. *)
Definition ballot_kept (s s' : S) : Prop :=
  view_term (view s') = view_term (view s) ∧ view_vote (view s') = view_vote (view s).

Lemma storeLogTerm_spec s i :
  log_ok (view_log (view s)) → 0 ≤ i →
  storeLogTerm s i = Ok (default 0 (entry_term <$> view_log (view s) !! Z.to_nat i)).
Proof.
  intros Hok Hi. unfold storeLogTerm.
  rewrite (spec_latestIndex (view := view)), (spec_getLogEntry (view := view)) by done.
  destruct (Z.leb_spec i (Z.of_nat (length (view_log (view s))) - 1)).
  - destruct (lookup_lt_is_Some_2 (view_log (view s)) (Z.to_nat i)) as [e He]; [lia|]. by rewrite He.
  - by rewrite lookup_ge_None_2 by lia.
Qed.

(** The comparison loop stops behind the agreeing entries; it truncates the
    log exactly if an entry with another term is there. *)
Lemma matchEntries_spec entries : ∀ s i n,
  log_ok (view_log (view s)) → (1 ≤ n ≤ length (view_log (view s)))%nat →
  Z.of_nat n + Z.of_nat (length entries) < 2 ^ 64 →
  let log := view_log (view s) in
  let k := agree (drop n log) entries in
  matchEntries s entries i (Z.of_nat n) =
    if decide (conflicts (drop n log) entries)
    then s' ← st_truncateLog s (Z.of_nat (n + k) - 1); Ok (s', i + Z.of_nat k, Z.of_nat (n + k))
    else Ok (s, i + Z.of_nat k, Z.of_nat (n + k)).
Proof.
  induction entries as [|e entries IH]; intros s i n Hok Hn Hmax log k; subst k.
  { rewrite drop_agree_nil, decide_False by (unfold conflicts; cbn; lia). cbn. by rewrite Z.add_0_r, Nat.add_0_r. }
  cbn [matchEntries]. rewrite (spec_latestIndex (view := view)) by done. fold log.
  destruct (Z.ltb_spec (Z.of_nat (length log) - 1) (Z.of_nat n)).
  { rewrite drop_ge by lia. rewrite decide_False by (unfold conflicts; cbn; lia). cbn. by rewrite Z.add_0_r, Nat.add_0_r. }
  destruct (lookup_lt_is_Some_2 log n) as [e0 He0]; [lia|].
  rewrite storeLogTerm_spec by (done || lia). fold log.
  rewrite Nat2Z.id, He0. cbn [fmap option_fmap option_map from_option id mbind result_bind].
  rewrite !(drop_S _ _ _ He0). cbn [agree].
  destruct (Z.eqb_spec (entry_term e) (entry_term e0)) as [Heq|Hne].
  - cbn [length] in Hmax. rewrite unsigned_id by auto with x0.
    replace (Z.of_nat n + 1) with (Z.of_nat (Datatypes.S n)) by lia.
    rewrite (IH s (i + 1) (Datatypes.S n)) by (done || (fold log; lia) || lia). fold log.
    set (k := agree _ _). replace (n + Datatypes.S k)%nat with (Datatypes.S n + k)%nat by lia.
    replace (i + Z.of_nat (Datatypes.S k)) with (i + 1 + Z.of_nat k) by lia.
    apply decide_ext. rewrite conflicts_cons. tauto.
  - rewrite unsigned_id by (unfold fits; pose proof Hok as [_ ?]; lia).
    rewrite decide_True by (apply conflicts_cons; by left). by rewrite Z.add_0_r, Nat.add_0_r.
Qed.

(** The append loop adds the remaining entries. *)
Lemma appendEntries_spec entries : ∀ fuel s i index,
  (i ≤ length entries)%nat → (length entries - i ≤ fuel)%nat → 0 ≤ index →
  index + Z.of_nat (length entries - i) < 2 ^ 64 →
  ∃ s', appendEntries fuel s entries (Z.of_nat i) index (index + Z.of_nat (length entries - i) - 1) = Ok s' ∧
    ballot_kept s s' ∧ view_log (view s') = view_log (view s) ++ drop i entries.
Proof.
  induction fuel as [|fuel IH]; intros s i index Hi Hf H0 Hmax; cbn [appendEntries].
  - replace (length entries - i)%nat with O by lia. rewrite (proj2 (Z.leb_gt _ _)) by lia.
    exists s. rewrite drop_ge by lia. by rewrite app_nil_r.
  - destruct (Z.leb_spec index (index + Z.of_nat (length entries - i) - 1)).
    + destruct (lookup_lt_is_Some_2 entries i) as [e He]; [lia|]. rewrite Nat2Z.id, He.
      rewrite unsigned_id by auto with x0.
      replace (Z.of_nat i + 1) with (Z.of_nat (Datatypes.S i)) by lia.
      replace (index + Z.of_nat (length entries - i) - 1)
        with (index + 1 + Z.of_nat (length entries - Datatypes.S i) - 1) by lia.
      destruct (IH (st_appendLogEntry s e) (Datatypes.S i) (index + 1)) as (s' & -> & Hb & Hl); [lia..|].
      exists s'. unfold ballot_kept in *. rewrite (spec_appendLogEntry (view := view)) in Hb, Hl.
      cbn in Hb, Hl. split_and!; [done|apply Hb..|].
      rewrite Hl, <- app_assoc. cbn. by rewrite <- (drop_S _ _ _ He).
    + exists s. rewrite drop_ge by lia. by rewrite app_nil_r.
Qed.

Definition enterTerm (req : AppendEntriesRequest) (sv : Server) : Server * list effect :=
  if currentTerm sv <? aq_term req
  then convertToFollower (aq_leaderId req) (aq_term req) sv else (sv, []).

Lemma enterTerm_spec req (sv : Server) :
  currentTerm sv ≤ aq_term req →
  let sv1 := (enterTerm req sv).1 in
  sv_log sv1 = sv_log sv ∧ currentTerm sv1 = aq_term req ∧
  sv_commitIndex sv1 = sv_commitIndex sv ∧ sv_lastApplied sv1 = sv_lastApplied sv ∧
  sv_machine sv1 = sv_machine sv ∧ sv_appliedPromises sv1 = sv_appliedPromises sv.
Proof.
  intros Ht. unfold enterTerm. destruct (Z.ltb_spec (currentTerm sv) (aq_term req)).
  - unfold convertToFollower, setState, sv_log, currentTerm.
    case_decide; cbn; rewrite (spec_currentTerm (view := view)), !(spec_clearVotedFor (view := view)),
      !(spec_setCurrentTerm (view := view)); done.
  - cbn. split_and!; try done. lia.
Qed.

(** A request that passes the checks of steps 1 and 2. *)
Definition consistent (req : AppendEntriesRequest) (sv : Server) : Prop :=
  currentTerm sv ≤ aq_term req ∧
  entry_term <$> sv_log sv !! Z.to_nat (aq_prevLogIndex req) = Some (aq_prevLogTerm req).

Definition req_last (req : AppendEntriesRequest) : Z :=
  aq_prevLogIndex req + Z.of_nat (length (aq_entries req)).
(** The part of the log behind the predecessor, which the message's entries are
    compared with. *)
Definition log_tail (req : AppendEntriesRequest) (sv : Server) : list LogEntry :=
  drop (Z.to_nat (aq_prevLogIndex req + 1)) (sv_log sv).

(** The request only adds to the log: no entry of the log has another term than
    the entry the message has for its index, and the log does not go on behind
    the message. *)
Definition req_extends (req : AppendEntriesRequest) (sv : Server) : Prop :=
  ¬ conflicts (log_tail req sv) (aq_entries req) ∧
  (length (log_tail req sv) ≤ length (aq_entries req))%nat.

#[export] Instance extends_dec req sv : Decision (req_extends req sv).
Proof. unfold req_extends; apply _. Defined.

(** The log with the message's new entries behind it. *)
Definition req_log (req : AppendEntriesRequest) (sv : Server) : list LogEntry :=
  sv_log sv ++ drop (length (log_tail req sv)) (aq_entries req).

Lemma consistent_prev req (sv : Server) :
  consistent req sv → (Z.to_nat (aq_prevLogIndex req) < length (sv_log sv))%nat.
Proof. intros [_ Hp]. apply lookup_lt_is_Some, (fmap_is_Some entry_term). by rewrite Hp. Qed.

Lemma extends_agree req (sv : Server) :
  req_extends req sv → agree (log_tail req sv) (aq_entries req) = length (log_tail req sv).
Proof.
  unfold req_extends, conflicts. intros [Hc Hl].
  pose proof (agree_le (log_tail req sv) (aq_entries req)). lia.
Qed.

Lemma req_log_length req (sv : Server) :
  0 ≤ aq_prevLogIndex req → consistent req sv → req_extends req sv →
  Z.of_nat (length (req_log req sv)) = req_last req + 1.
Proof.
  intros Hp Hcon [_ Hl]. apply consistent_prev in Hcon. unfold req_log, req_last.
  rewrite length_app, length_drop. unfold log_tail in *. rewrite length_drop in *. lia.
Qed.

(** The handler behind the checks of steps 1 and 2. *)
Lemma handleAppendEntries_split req (sv : Server) :
  log_ok (sv_log sv) → 0 ≤ aq_prevLogIndex req → req_last req + 1 < 2 ^ 64 →
  consistent req sv →
  ∃ sv0, sv_log sv0 = sv_log sv ∧ currentTerm sv0 = aq_term req ∧
    sv_commitIndex sv0 = sv_commitIndex sv ∧ sv_lastApplied sv0 = sv_lastApplied sv ∧
    sv_machine sv0 = sv_machine sv ∧
    handleAppendEntriesRequest applyCommand req sv =
      ('(s, i, index) ← matchEntries (sv_storage sv0) (aq_entries req) 0
                          (Z.of_nat (Z.to_nat (aq_prevLogIndex req + 1)));
       s ← appendEntries (length (aq_entries req)) s (aq_entries req) i index (req_last req);
       let sv1 := set_storage s sv0 in
       _ ← ensure (req_last req =? latestIndex sv1) AssertionFailure;
       '(sv2, eff) ← commitAndWait applyCommand (aq_leaderCommit req) (req_last req) sv1;
       Ok (sv2, (enterTerm req sv).2 ++ eff, mkAppendEntriesResponse (currentTerm sv2) (latestIndex sv2) true)).
Proof.
  intros Hok Hp Hmax Hcon. pose proof (consistent_prev _ _ Hcon) as Hlt. destruct Hcon as [Hterm Hprev].
  unfold handleAppendEntriesRequest.
  rewrite (proj2 (Z.ltb_ge _ _)) by lia. unfold getLogTerm. rewrite storeLogTerm_spec by done.
  fold (sv_log sv). rewrite Hprev. cbn [from_option mbind result_bind id]. rewrite Z.eqb_refl. cbn [negb].
  fold (enterTerm req sv). destruct (enterTerm_spec req sv Hterm) as (Hl & Ht & Hc & Ha & Hm & _).
  destruct (enterTerm req sv) as [sv0 eff0]. cbn [fst snd] in *. unfold req_last in *.
  exists sv0. split_and!; [done..|]. rewrite !unsigned_id by auto with x0.
  by rewrite Z2Nat.id by lia.
Qed.

(** Steps 3 and 4 for a request that extends the log. *)
Lemma extend_log req (sv sv0 : Server) :
  log_ok (sv_log sv) → 0 ≤ aq_prevLogIndex req → req_last req + 1 < 2 ^ 64 →
  consistent req sv → req_extends req sv → sv_log sv0 = sv_log sv →
  ∃ s, ('(s, i, index) ← matchEntries (sv_storage sv0) (aq_entries req) 0
                          (Z.of_nat (Z.to_nat (aq_prevLogIndex req + 1)));
        appendEntries (length (aq_entries req)) s (aq_entries req) i index (req_last req)) = Ok s ∧
    ballot_kept (sv_storage sv0) s ∧ view_log (view s) = req_log req sv.
Proof.
  intros Hok Hp Hmax Hcon Hext Hl. pose proof (consistent_prev _ _ Hcon) as Hlt.
  pose proof (extends_agree _ _ Hext) as Hk. destruct Hext as [Hnc Hle].
  unfold req_last in *. set (n := Z.to_nat (aq_prevLogIndex req + 1)).
  assert (Hlen : length (log_tail req sv) = (length (sv_log sv) - n)%nat)
    by (unfold log_tail; apply length_drop).
  rewrite matchEntries_spec; fold (sv_log sv0); rewrite ?Hl; [|done|lia|lia].
  change (drop n (sv_log sv)) with (log_tail req sv). rewrite decide_False, Hk by done. cbn [mbind result_bind].
  set (k := length (log_tail req sv)) in *. rewrite Z.add_0_l.
  destruct (appendEntries_spec (aq_entries req) (length (aq_entries req)) (sv_storage sv0) k (Z.of_nat (n + k)))
    as (s & He & Hb & Hs); [lia..|].
  replace (Z.of_nat (n + k) + Z.of_nat (length (aq_entries req) - k) - 1)
    with (aq_prevLogIndex req + Z.of_nat (length (aq_entries req))) in He by lia.
  exists s. split_and!; [done|apply Hb..|]. rewrite Hs. fold (sv_log sv0). by rewrite Hl.
Qed.

(** Step 5: what is committed and applied, and when the handler waits for a
    promise that nobody fulfils. *)
Lemma commitAndWait_spec (sv : Server) leaderCommit lastIndex :
  log_ok (sv_log sv) → 0 ≤ sv_lastApplied sv ≤ sv_commitIndex sv →
  sv_commitIndex sv ≤ lastIndex < Z.of_nat (length (sv_log sv)) →
  let ci := Z.min leaderCommit lastIndex in
  Forall is_command (segment (sv_log sv) (sv_lastApplied sv) ci) →
  if sv_commitIndex sv <? leaderCommit then
    if ci <=? sv_lastApplied sv then commitAndWait applyCommand leaderCommit lastIndex sv = Raise Blocked
    else ∃ sv' eff, commitAndWait applyCommand leaderCommit lastIndex sv = Ok (sv', eff) ∧
      sv_storage sv' = sv_storage sv ∧ sv_commitIndex sv' = ci ∧ sv_lastApplied sv' = ci ∧
      sv_machine sv' = machine_run applyCommand (sv_machine sv) (segment (sv_log sv) (sv_lastApplied sv) ci)
  else commitAndWait applyCommand leaderCommit lastIndex sv = Ok (sv, []).
Proof.
  intros Hok Ha Hl ci Hcmd. unfold commitAndWait.
  destruct (Z.ltb_spec (sv_commitIndex sv) leaderCommit) as [Hc|Hc]; [|done].
  fold ci. set (sv1 := set_appliedPromises _ _).
  destruct (applyLogs_spec sv1) as (sv' & eff & -> & Hap);
    [done|cbn; lia|change (sv_log sv1) with (sv_log sv); cbn; lia|done|].
  destruct Hap. subst sv1. cbn in *. destruct (Z.leb_spec ci (sv_lastApplied sv)).
  - rewrite decide_True; [done|]. rewrite ap_promises0. set_solver by lia.
  - rewrite decide_False; [by exists sv', eff|]. rewrite ap_promises0. lia.
Qed.

(** What a follower makes of a request that extends its log. *)
Definition accepted (req : AppendEntriesRequest) (sv : Server) : Prop :=
  let newCommit := Z.min (aq_leaderCommit req) (req_last req) in
  let commits := bool_decide (sv_commitIndex sv < aq_leaderCommit req) in
  if commits && (newCommit <=? sv_lastApplied sv)
  then handleAppendEntriesRequest applyCommand req sv = Raise Blocked
  else ∃ sv' eff,
    handleAppendEntriesRequest applyCommand req sv =
      Ok (sv', eff, mkAppendEntriesResponse (aq_term req) (req_last req) true) ∧
    sv_log sv' = req_log req sv ∧ currentTerm sv' = aq_term req ∧
    if commits then
      sv_commitIndex sv' = newCommit ∧ sv_lastApplied sv' = newCommit ∧
      sv_machine sv' = machine_run applyCommand (sv_machine sv)
        (segment (req_log req sv) (sv_lastApplied sv) newCommit)
    else sv_commitIndex sv' = sv_commitIndex sv ∧ sv_lastApplied sv' = sv_lastApplied sv ∧
      sv_machine sv' = sv_machine sv.

(** The follower's indices: what is applied is committed, what is committed is
    in the log. *)
Definition follower_indices_ok (sv : Server) : Prop :=
  0 ≤ sv_lastApplied sv ≤ sv_commitIndex sv ∧ sv_commitIndex sv < Z.of_nat (length (sv_log sv)).

Lemma appendEntries_extends req (sv : Server) :
  log_ok (sv_log sv) → 0 ≤ aq_prevLogIndex req → req_last req + 1 < 2 ^ 64 →
  consistent req sv → follower_indices_ok sv → req_extends req sv →
  Forall is_command (segment (req_log req sv) (sv_lastApplied sv)
                      (Z.min (aq_leaderCommit req) (req_last req))) →
  accepted req sv.
Proof.
  intros Hok Hp Hmax Hcon [Ha Hci] Hext Hcmd. unfold accepted.
  pose proof (req_log_length req sv Hp Hcon Hext) as Hlen.
  assert (Hgrow : (length (sv_log sv) ≤ length (req_log req sv))%nat)
    by (unfold req_log; rewrite length_app; lia).
  destruct (handleAppendEntries_split req sv) as (sv0 & Hl & Ht & Hc0 & Ha0 & Hm0 & ->); [done..|].
  destruct (extend_log req sv sv0) as (s & Hs & [Hb _] & Hv); [done..|].
  destruct (matchEntries _ _ _ _) as [[[s1 i] index]|]; cbn [mbind result_bind] in Hs |- *; [|done].
  rewrite Hs. cbn [mbind result_bind]. set (sv1 := set_storage s sv0).
  assert (Hl1 : sv_log sv1 = req_log req sv) by done.
  assert (Hok1 : log_ok (sv_log sv1)) by (rewrite Hl1; destruct Hok; unfold log_ok; lia).
  rewrite latestIndex_log, Hl1, Hlen, (proj2 (Z.eqb_eq _ _)) by (done || lia).
  cbn [ensure mbind result_bind].
  pose proof (commitAndWait_spec sv1 (aq_leaderCommit req) (req_last req)) as Hw.
  rewrite Hl1 in Hw. change (sv_lastApplied sv1) with (sv_lastApplied sv0) in Hw.
  change (sv_commitIndex sv1) with (sv_commitIndex sv0) in Hw.
  change (sv_machine sv1) with (sv_machine sv0) in Hw. rewrite Ha0, Hc0, Hm0 in Hw.
  specialize (Hw ltac:(by rewrite <- Hl1) Ha ltac:(lia) Hcmd).
  assert (Hans : ∀ sv' : Server, sv_storage sv' = s → sv_log sv' = req_log req sv ∧ currentTerm sv' = aq_term req ∧
      latestIndex sv' = req_last req).
  { intros sv' Hs'. assert (Hlog : sv_log sv' = req_log req sv) by (unfold sv_log; by rewrite Hs').
    split_and!; [done| |].
    - unfold currentTerm in *. rewrite Hs', (spec_currentTerm (view := view)), Hb.
      by rewrite <- (spec_currentTerm (view := view)).
    - rewrite latestIndex_log, Hlog; [lia|by rewrite Hlog, <- Hl1]. }
  case_bool_decide as Hcc; [rewrite (proj2 (Z.ltb_lt _ _)) in Hw by done; cbn [andb]|
                            rewrite (proj2 (Z.ltb_ge _ _)) in Hw by lia; cbn [andb]].
  - destruct (_ <=? _); [by rewrite Hw|]. destruct Hw as (sv' & eff & -> & Hs' & Hrest).
    destruct (Hans sv' Hs') as (H1 & H2 & H3). cbn [mbind result_bind].
    exists sv', ((enterTerm req sv).2 ++ eff). by rewrite H2, H3.
  - rewrite Hw. destruct (Hans sv1 eq_refl) as (H1 & H2 & H3). cbn [mbind result_bind].
    exists sv1, ((enterTerm req sv).2 ++ []). by rewrite H2, H3.
Qed.

(** The first two steps: a request from an older term or with an unknown
    predecessor is refused and changes nothing. *)
Theorem appendEntries_refused req (sv : Server) :
  log_ok (sv_log sv) → 0 ≤ aq_prevLogIndex req →
  aq_term req < currentTerm sv ∨
    default 0 (entry_term <$> sv_log sv !! Z.to_nat (aq_prevLogIndex req)) ≠ aq_prevLogTerm req →
  handleAppendEntriesRequest applyCommand req sv =
    Ok (sv, [], mkAppendEntriesResponse (currentTerm sv) (Z.of_nat (length (sv_log sv)) - 1) false).
Proof.
  intros Hok Hp Hr. rewrite <- latestIndex_log by done. unfold handleAppendEntriesRequest.
  destruct (Z.ltb_spec (aq_term req) (currentTerm sv)); [done|]. destruct Hr as [?|Hne]; [lia|].
  unfold getLogTerm. rewrite storeLogTerm_spec by done. fold (sv_log sv). cbn [mbind result_bind].
  by rewrite (proj2 (Z.eqb_neq _ _)).
Qed.

End replication.

(** ** A follower with a [MemoryStore] *)

Section memory.
Context {M : Type} (applyCommand : M → bytes → M * bytes).

Lemma resize_shrink n log : (n ≤ length log)%nat → log_resize n log = take n log.
Proof. intros. unfold log_resize. replace (n - length log)%nat with O by lia. apply app_nil_r. Qed.

(** A request that does not extend the log leaves its end somewhere else than
    the message says: behind a conflict [truncateLog] has removed the last
    agreeing entry too, and without one the log goes on behind the message. *)
Lemma memory_not_extended req (sv : Server MemoryStore M) :
  log_ok (ms_log (sv_storage sv)) → 0 ≤ aq_prevLogIndex req → req_last req + 1 < 2 ^ 64 →
  consistent memory_view req sv → ¬ req_extends memory_view req sv →
  handleAppendEntriesRequest applyCommand req sv = Raise AssertionFailure.
Proof.
  intros Hok Hp Hmax Hcon Hext. pose proof (consistent_prev memory_view _ _ Hcon) as Hlt.
  destruct (handleAppendEntries_split memory_view applyCommand req sv) as (sv0 & Hl & _ & _ & _ & _ & ->); [done..|].
  unfold sv_log, req_last in *. cbn [memory_view view_log] in *.
  rewrite (matchEntries_spec memory_view); cbn [memory_view view_log]; rewrite ?Hl; [|done|lia|lia].
  set (n := Z.to_nat (aq_prevLogIndex req + 1)) in *.
  change (drop n (ms_log (sv_storage sv))) with (log_tail memory_view req sv).
  unfold req_extends in Hext. set (tail := log_tail memory_view req sv) in *.
  assert (Htl : length tail = (length (ms_log (sv_storage sv)) - n)%nat) by apply length_drop.
  set (k := agree tail (aq_entries req)) in *. set (es := aq_entries req) in *.
  destruct (agree_le tail es) as [Hk1 Hk2]. fold k in Hk1, Hk2. destruct Hok as [Hok1 Hok2].
  assert (Hstep : ∀ s : MemoryStore,
    Z.of_nat (length (ms_log s)) + Z.of_nat (length es - k) ≠ aq_prevLogIndex req + Z.of_nat (length es) + 1 →
    Z.of_nat (length (ms_log s)) + Z.of_nat (length es - k) < 2 ^ 64 →
    0 < Z.of_nat (length (ms_log s)) + Z.of_nat (length es - k) →
    (s'' ← appendEntries (length es) s es (0 + Z.of_nat k) (Z.of_nat (n + k))
             (aq_prevLogIndex req + Z.of_nat (length es));
     let sv1 := set_storage s'' sv0 in
     _ ← ensure (aq_prevLogIndex req + Z.of_nat (length es) =? latestIndex sv1) AssertionFailure;
     '(sv2, eff) ← commitAndWait applyCommand (aq_leaderCommit req)
                     (aq_prevLogIndex req + Z.of_nat (length es)) sv1;
     Ok (sv2, (enterTerm req sv).2 ++ eff,
         mkAppendEntriesResponse (currentTerm sv2) (latestIndex sv2) true)) = Raise AssertionFailure).
  { intros s Hne Hfit Hpos. rewrite Z.add_0_l.
    destruct (appendEntries_spec memory_view es (length es) s k (Z.of_nat (n + k))) as (s2 & He & _ & Hv); [lia..|].
    replace (Z.of_nat (n + k) + Z.of_nat (length es - k) - 1)
      with (aq_prevLogIndex req + Z.of_nat (length es)) in He by lia.
    rewrite He. cbn [mbind result_bind]. cbn [memory_view view_log] in Hv.
    unfold latestIndex. cbn [set_storage sv_storage st_latestIndex MemoryStore_storage].
    assert (Hlen : length (ms_log s2) = (length (ms_log s) + (length es - k))%nat)
      by (rewrite Hv, length_app, length_drop; lia).
    rewrite latestIndex_log_ok by (unfold log_ok; lia).
    by rewrite (proj2 (Z.eqb_neq _ _)) by lia. }
  case_decide as Hc; unfold conflicts in *; fold k in Hc.
  - cbn [st_truncateLog MemoryStore_storage]. unfold MemoryStore_truncateLog. rewrite Hl.
    rewrite (proj2 (Z.leb_le _ _)) by lia. cbn [ensure mbind result_bind].
    apply Hstep; cbn [MemoryStore_set_log ms_log]; rewrite resize_shrink, length_take by lia; lia.
  - cbn [mbind result_bind]. apply Hstep; rewrite Hl; lia.
Qed.

(** C2 (functional). What a follower that keeps its log in a [MemoryStore] makes
    of a request whose term is not old and whose predecessor it has. If no entry
    of its log conflicts with the message and its log does not go on behind it,
    the message's new entries are appended, the follower enters the leader's
    term, commits up to [min(leaderCommit, last index of the message)], applies
    the newly committed commands in order and answers with success -- except
    that it waits forever when the leader has committed more and all entries of
    the message are applied already. Any other request, one with a conflicting
    entry or one that ends before the log does, fails the handler's assertion. *)
Theorem appendEntries_outcome req (sv : Server MemoryStore M) :
  log_ok (ms_log (sv_storage sv)) → 0 ≤ aq_prevLogIndex req → req_last req + 1 < 2 ^ 64 →
  consistent memory_view req sv → follower_indices_ok memory_view sv →
  Forall is_command (segment (req_log memory_view req sv) (sv_lastApplied sv)
                      (Z.min (aq_leaderCommit req) (req_last req))) →
  if decide (req_extends memory_view req sv) then accepted memory_view applyCommand req sv
  else handleAppendEntriesRequest applyCommand req sv = Raise AssertionFailure.
Proof.
  intros Hok Hp Hmax Hcon Hi Hcmd. case_decide.
  - exact (appendEntries_extends memory_view applyCommand req sv Hok Hp Hmax Hcon Hi H Hcmd).
  - exact (memory_not_extended req sv Hok Hp Hmax Hcon H).
Qed.

End memory.

(** The commit index of a leader is not monotone: in a cluster of
    two, any unsuccessful AppendEntries response (the follower lacks a
    predecessor, say after a restart) resets the leader's [commitIndex_] to 0,
    however much was committed before. *)
Theorem commitIndex_regresses {S M : Type} `{Storage S} (sv : Server S M) peer resp :
  sv_state sv = Leader → dom (sv_followers sv) ⊆ {[peer]} → as_success resp = false →
  ∃ sv' woken, handleAppendEntriesResponse peer resp sv = Ok (sv', woken) ∧ sv_commitIndex sv' = 0.
Proof.
  intros Hs Hd Hf. unfold handleAppendEntriesResponse. rewrite bool_decide_true by done. cbn [negb].
  rewrite Hf. cbn [set_followers sv_followers sv_commitIndex].
  set (f := mkFollowerState _ 0).
  assert (Hm : <[peer := f]> (sv_followers sv) = {[peer := f]}).
  { apply map_eq. intros i. destruct (decide (i = peer)) as [->|Hne].
    - by rewrite lookup_insert_eq, lookup_singleton_eq.
    - rewrite lookup_insert_ne, lookup_singleton_ne by done. apply not_elem_of_dom. set_solver. }
  rewrite Hm. assert (Hc : computeCommitIndex {[peer := f]} = Ok 0)
    by (unfold computeCommitIndex, matchIndices; by rewrite map_to_list_singleton).
  rewrite Hc. cbn [mbind result_bind]. destruct (Z.eqb_spec (sv_commitIndex sv) 0); [by do 2 eexists|].
  do 2 eexists; split; [reflexivity|done].
Qed.
(** ** Concrete followers *)

Definition example_cmd (t c : Z) : LogEntry := mkLogEntry t LOG_COMMAND [c].
Definition example_record (m : list bytes) (c : bytes) : list bytes * bytes := (m ++ [c], c).
Definition example_store (log : list LogEntry) : MemoryStore := mkMemoryStore None 1 log 0 0 [].
Definition example_follower : Server MemoryStore (list bytes) :=
  newServer 2 (example_store [emptyLogEntry; example_cmd 1 10; example_cmd 1 11]) [].
Definition example_append : AppendEntriesRequest :=
  mkAppendEntriesRequest 2 1 1 1 2 [example_cmd 1 11; example_cmd 2 13].
Definition example_conflict : AppendEntriesRequest :=
  mkAppendEntriesRequest 2 1 1 1 2 [example_cmd 2 12; example_cmd 2 13].
Definition example_leader : Server MemoryStore (list bytes) :=
  set_state Leader (set_commitIndex 2 example_follower).

(** One request is appended, commits and applies two commands; one with a
    conflicting entry, and an old heartbeat, fail the assertion. *)
Lemma appendEntries_outcome_witness :
  (∃ sv' eff, handleAppendEntriesRequest example_record example_append example_follower =
      Ok (sv', eff, mkAppendEntriesResponse 2 3 true) ∧
    sv_log memory_view sv' = [emptyLogEntry; example_cmd 1 10; example_cmd 1 11; example_cmd 2 13] ∧
    currentTerm sv' = 2 ∧
    sv_commitIndex sv' = 2 ∧ sv_lastApplied sv' = 2 ∧ sv_machine sv' = [[10]; [11]]) ∧
  handleAppendEntriesRequest example_record example_conflict example_follower = Raise AssertionFailure ∧
  handleAppendEntriesRequest example_record (mkAppendEntriesRequest 1 1 0 0 0 []) example_follower =
    Raise AssertionFailure.
Proof.
  assert (Hok : log_ok (ms_log (sv_storage example_follower))) by (split; cbn; lia).
  assert (Hi : follower_indices_ok memory_view example_follower) by (split; cbn; lia).
  split_and!.
  - apply (appendEntries_outcome example_record example_append example_follower);
      [done|cbn; lia|unfold req_last; cbn; lia|split; [cbn; lia|done]|done|repeat constructor].
  - apply (appendEntries_outcome example_record example_conflict example_follower);
      [done|cbn; lia|unfold req_last; cbn; lia|split; [cbn; lia|done]|done|repeat constructor].
  - apply (appendEntries_outcome example_record (mkAppendEntriesRequest 1 1 0 0 0 []) example_follower);
      [done|cbn; lia|unfold req_last; cbn; lia|split; [cbn; lia|done]|done|repeat constructor].
Defined.

Lemma applyLogs_in_order_witness :
  ∃ sv' eff, applyLogs example_record example_leader = (sv', eff, None) ∧
    applied memory_view example_record example_leader sv' eff.
Proof.
  apply (applyLogs_in_order memory_view example_record example_leader);
    [split; unfold req_last; cbn; lia|unfold req_last; cbn; lia|unfold req_last; cbn; lia|repeat constructor].
Defined.

Lemma tryLoadLogEntries_slice_witness :
  ∃ k, tryLoadLogEntries (mkServerConfig [1; 2] 2 1 64) 1 example_leader =
      Ok (Some (take k [example_cmd 1 10; example_cmd 1 11])) ∧
    Z.of_nat k ≤ 2 ∧
    commands_size (take k [example_cmd 1 10; example_cmd 1 11]) ≤ 64 ∧
    (Z.of_nat k < 2 → 64 < commands_size (take (S k) [example_cmd 1 10; example_cmd 1 11])).
Proof.
  apply (tryLoadLogEntries_slice memory_view (mkServerConfig [1; 2] 2 1 64) example_leader 1);
    [split; unfold req_last; cbn; lia|unfold req_last; cbn; lia|unfold req_last; cbn; lia|unfold req_last; cbn; lia].
Defined.

Lemma commitIndex_regresses_witness :
  ∃ sv' woken, handleAppendEntriesResponse 1 (mkAppendEntriesResponse 1 0 false) example_leader =
    Ok (sv', woken) ∧ sv_commitIndex sv' = 0.
Proof. apply commitIndex_regresses; done. Defined.
