(* ===== verification/HpackTables.v ===== *)
(** * HPACK: the static and the dynamic table

    [src/xzero/http/hpack/StaticTable.cc] and [DynamicTable.cc]. The static
    table is the two arrays of the source and the binary search over the sorted
    one; the dynamic table is a queue of header fields with a size limit. *)
From S2P Require Import Prelude.

Abbreviation TableEntry := (bytes * bytes)%type.

(** ** StaticTable *)

Definition static_entries : list TableEntry := [
  (str ":authority", str "");
  (str ":method", str "GET");
  (str ":method", str "POST");
  (str ":path", str "/");
  (str ":path", str "/index.html");
  (str ":scheme", str "http");
  (str ":scheme", str "https");
  (str ":status", str "200");
  (str ":status", str "204");
  (str ":status", str "206");
  (str ":status", str "304");
  (str ":status", str "400");
  (str ":status", str "404");
  (str ":status", str "500");
  (str "accept-charset", str "");
  (str "accept-encoding", str "gzip, deflate");
  (str "accept-language", str "");
  (str "accept-ranges", str "");
  (str "accept", str "");
  (str "access-control-allow-origin", str "");
  (str "age", str "");
  (str "allow", str "");
  (str "authorization", str "");
  (str "cache-control", str "");
  (str "content-disposition", str "");
  (str "content-encoding", str "");
  (str "content-language", str "");
  (str "content-length", str "");
  (str "content-location", str "");
  (str "content-range", str "");
  (str "content-type", str "");
  (str "cookie", str "");
  (str "date", str "");
  (str "etag", str "");
  (str "expect", str "");
  (str "expires", str "");
  (str "from", str "");
  (str "host", str "");
  (str "if-match", str "");
  (str "if-modified-since", str "");
  (str "if-none-match", str "");
  (str "if-range", str "");
  (str "if-unmodified-since", str "");
  (str "last-modified", str "");
  (str "link", str "");
  (str "location", str "");
  (str "max-forwards", str "");
  (str "proxy-authenticate", str "");
  (str "proxy-authorization", str "");
  (str "range", str "");
  (str "referer", str "");
  (str "refresh", str "");
  (str "retry-after", str "");
  (str "server", str "");
  (str "set-cookie", str "");
  (str "strict-transport-security", str "");
  (str "transfer-encoding", str "");
  (str "user-agent", str "");
  (str "vary", str "");
  (str "via", str "");
  (str "www-authenticate", str "")
].

Record SortedEntry := mkSortedEntry { se_index : nat; se_name : bytes; se_value : bytes }.

#[export] Instance SortedEntry_inhabited : Inhabited SortedEntry := populate (mkSortedEntry 0 [] []).

Definition sortedEntries : list SortedEntry := [
  mkSortedEntry 0 (str ":authority") (str "");
  mkSortedEntry 1 (str ":method") (str "GET");
  mkSortedEntry 2 (str ":method") (str "POST");
  mkSortedEntry 3 (str ":path") (str "/");
  mkSortedEntry 4 (str ":path") (str "/index.html");
  mkSortedEntry 5 (str ":scheme") (str "http");
  mkSortedEntry 6 (str ":scheme") (str "https");
  mkSortedEntry 7 (str ":status") (str "200");
  mkSortedEntry 8 (str ":status") (str "204");
  mkSortedEntry 9 (str ":status") (str "206");
  mkSortedEntry 10 (str ":status") (str "304");
  mkSortedEntry 11 (str ":status") (str "400");
  mkSortedEntry 12 (str ":status") (str "404");
  mkSortedEntry 13 (str ":status") (str "500");
  mkSortedEntry 18 (str "accept") (str "");
  mkSortedEntry 14 (str "accept-charset") (str "");
  mkSortedEntry 15 (str "accept-encoding") (str "gzip, deflate");
  mkSortedEntry 16 (str "accept-language") (str "");
  mkSortedEntry 17 (str "accept-ranges") (str "");
  mkSortedEntry 19 (str "access-control-allow-origin") (str "");
  mkSortedEntry 20 (str "age") (str "");
  mkSortedEntry 21 (str "allow") (str "");
  mkSortedEntry 22 (str "authorization") (str "");
  mkSortedEntry 23 (str "cache-control") (str "");
  mkSortedEntry 24 (str "content-disposition") (str "");
  mkSortedEntry 25 (str "content-encoding") (str "");
  mkSortedEntry 26 (str "content-language") (str "");
  mkSortedEntry 27 (str "content-length") (str "");
  mkSortedEntry 28 (str "content-location") (str "");
  mkSortedEntry 29 (str "content-range") (str "");
  mkSortedEntry 30 (str "content-type") (str "");
  mkSortedEntry 31 (str "cookie") (str "");
  mkSortedEntry 32 (str "date") (str "");
  mkSortedEntry 33 (str "etag") (str "");
  mkSortedEntry 34 (str "expect") (str "");
  mkSortedEntry 35 (str "expires") (str "");
  mkSortedEntry 36 (str "from") (str "");
  mkSortedEntry 37 (str "host") (str "");
  mkSortedEntry 38 (str "if-match") (str "");
  mkSortedEntry 39 (str "if-modified-since") (str "");
  mkSortedEntry 40 (str "if-none-match") (str "");
  mkSortedEntry 41 (str "if-range") (str "");
  mkSortedEntry 42 (str "if-unmodified-since") (str "");
  mkSortedEntry 43 (str "last-modified") (str "");
  mkSortedEntry 44 (str "link") (str "");
  mkSortedEntry 45 (str "location") (str "");
  mkSortedEntry 46 (str "max-forwards") (str "");
  mkSortedEntry 47 (str "proxy-authenticate") (str "");
  mkSortedEntry 48 (str "proxy-authorization") (str "");
  mkSortedEntry 49 (str "range") (str "");
  mkSortedEntry 50 (str "referer") (str "");
  mkSortedEntry 51 (str "refresh") (str "");
  mkSortedEntry 52 (str "retry-after") (str "");
  mkSortedEntry 53 (str "server") (str "");
  mkSortedEntry 54 (str "set-cookie") (str "");
  mkSortedEntry 55 (str "strict-transport-security") (str "");
  mkSortedEntry 56 (str "transfer-encoding") (str "");
  mkSortedEntry 57 (str "user-agent") (str "");
  mkSortedEntry 58 (str "vary") (str "");
  mkSortedEntry 59 (str "via") (str "");
  mkSortedEntry 60 (str "www-authenticate") (str "")
].

Definition static_length : nat := length static_entries.

(** [compare] of the source: the names first, then the values. *)
Definition entry_compare (a b : TableEntry) : comparison :=
  match bytes_compare a.1 b.1 with Eq => bytes_compare a.2 b.2 | c => c end.

Definition sorted_entry (m : nat) : TableEntry :=
  let e := sortedEntries !!! m in (se_name e, se_value e).

(** The [while] loop: the position of a full match, or the last [l] and [r].
    Each iteration shrinks [r - l], which therefore bounds the fuel. *)
Fixpoint static_find_loop (fuel : nat) (key : TableEntry) (l r : nat) : nat + nat * nat :=
  match fuel with
  | O => inr (l, r)
  | S fuel =>
      if decide (2 ≤ r - l)%nat then
        let m := ((l + r) / 2)%nat in
        match entry_compare key (sorted_entry m) with
        | Lt => static_find_loop fuel key l m
        | Gt => static_find_loop fuel key m r
        | Eq => inl m
        end
      else inr (l, r)
  end.

(** [Some (index, flag)] is the return value [true] with [*index] assigned;
    [flag] is [None] when [*nameValueMatch] is left as it was. *)
Definition static_find (name value : bytes) : option (nat * option bool) :=
  let r := (length sortedEntries - 1)%nat in
  match static_find_loop r (name, value) 0 r with
  | inl m => Some (se_index (sortedEntries !!! m), Some true)
  | inr (l, r) =>
      let el := sortedEntries !!! l in
      let er := sortedEntries !!! r in
      let foundLeft := bool_decide (name = se_name el) in
      if foundLeft && bool_decide (value = se_value el) then Some (se_index el, Some true) else
      let foundRight := bool_decide (name = se_name er) in
      if foundRight && bool_decide (value = se_value er) then Some (se_index er, Some true) else
      if foundRight then Some (se_index er, None)
      else if foundLeft then Some (se_index el, None)
      else None
  end.

Definition static_at (index : nat) : result TableEntry :=
  match static_entries !! index with Some e => Ok e | None => Raise AssertionFailure end.

(** ** DynamicTable *)

(** The most recent entry comes first. Sizes are sums over strings that exist
    in memory, so [size_t] does not overflow. *)
Record DynamicTable := mkDynamicTable {
  dt_maxSize : Z;
  dt_size : Z;
  dt_entries : list TableEntry;
}.

Definition HeaderFieldOverheadSize : Z := 32.

Definition newDynamicTable (maxSize : Z) : DynamicTable := mkDynamicTable maxSize 0 [].

Definition fieldSize (name value : bytes) : Z :=
  Z.of_nat (length name) + Z.of_nat (length value) + HeaderFieldOverheadSize.

(** The [while] loop of [evict]; [entries_.back()] of an empty queue is
    undefined. Each iteration removes an entry. *)
Fixpoint evict_loop (fuel : nat) (t : DynamicTable) : result DynamicTable :=
  if dt_maxSize t <? dt_size t then
    match list.last (dt_entries t), fuel with
    | Some e, S fuel =>
        evict_loop fuel (mkDynamicTable (dt_maxSize t) (dt_size t - fieldSize e.1 e.2)
                           (removelast (dt_entries t)))
    | _, _ => Raise UndefinedBehaviour
    end
  else Ok t.

Definition evict (t : DynamicTable) : result DynamicTable := evict_loop (length (dt_entries t)) t.

Definition dt_setMaxSize (limit : Z) (t : DynamicTable) : result DynamicTable :=
  evict (mkDynamicTable limit (dt_size t) (dt_entries t)).

Definition dt_add (name value : bytes) (t : DynamicTable) : result DynamicTable :=
  evict (mkDynamicTable (dt_maxSize t) (dt_size t + fieldSize name value)
           ((name, value) :: dt_entries t)).

(** The first entry with this name, and whether its value matches. *)
Fixpoint dt_find_from (i : nat) (name value : bytes) (es : list TableEntry) : option (nat * bool) :=
  match es with
  | [] => None
  | e :: es =>
      if decide (name = e.1) then Some (i, bool_decide (value = e.2))
      else dt_find_from (S i) name value es
  end.

Definition dt_find (name value : bytes) (t : DynamicTable) : option (nat * bool) :=
  dt_find_from 0 name value (dt_entries t).

Definition dt_at (index : nat) (t : DynamicTable) : result TableEntry :=
  match dt_entries t !! index with Some e => Ok e | None => Raise UndefinedBehaviour end.

Definition dt_clear (t : DynamicTable) : DynamicTable := mkDynamicTable (dt_maxSize t) 0 [].

(** ** The binary search *)

Lemma entry_compare_eq a b : entry_compare a b = Eq ↔ a = b.
Proof.
  destruct a as [n v], b as [n' v']. unfold entry_compare; cbn.
  destruct (bytes_compare n n') eqn:E; rewrite ?bytes_compare_eq in *.
  - split; [by intros ->; subst|by intros [= _ ->]].
  - split; [done|]. intros [= -> ->]. by rewrite (proj2 (bytes_compare_eq n' n')) in E.
  - split; [done|]. intros [= -> ->]. by rewrite (proj2 (bytes_compare_eq n' n')) in E.
Qed.

Lemma entry_compare_antisym a b : entry_compare b a = CompOpp (entry_compare a b).
Proof.
  unfold entry_compare. rewrite (bytes_compare_antisym a.1 b.1).
  destruct (bytes_compare a.1 b.1); cbn; [apply bytes_compare_antisym|done|done].
Qed.

Lemma entry_compare_trans a b c :
  entry_compare a b = Lt → entry_compare b c = Lt → entry_compare a c = Lt.
Proof.
  unfold entry_compare.
  destruct (bytes_compare a.1 b.1) eqn:E1, (bytes_compare b.1 c.1) eqn:E2; try done; intros H1 H2.
  - apply bytes_compare_eq in E1 as ->, E2 as ->. rewrite (proj2 (bytes_compare_eq _ _)) by done.
    by eapply bytes_compare_trans.
  - apply bytes_compare_eq in E1 as ->. by rewrite E2.
  - apply bytes_compare_eq in E2 as <-. by rewrite E1.
  - by rewrite (bytes_compare_trans _ _ _ E1 E2).
Qed.

(** Between two entries with the same name only entries with that name lie. *)
Lemma entry_between a b c :
  entry_compare a b = Lt → entry_compare b c = Lt → a.1 = c.1 → b.1 = a.1.
Proof.
  unfold entry_compare. intros H1 H2 Hac. rewrite <- Hac in H2.
  destruct (bytes_compare a.1 b.1) eqn:E1; [by apply bytes_compare_eq in E1| |done].
  by rewrite (bytes_compare_antisym a.1 b.1), E1 in H2.
Qed.

Definition increasing_from (i : nat) : bool :=
  forallb (λ j, match entry_compare (sorted_entry i) (sorted_entry j) with Lt => true | _ => false end)
    (seq (S i) (60 - i)).

Lemma sorted_increasing i j :
  (i < j ≤ 60)%nat → entry_compare (sorted_entry i) (sorted_entry j) = Lt.
Proof.
  intros Hij.
  assert (Hall : forallb increasing_from (seq 0 61) = true) by (by vm_compute).
  rewrite forallb_forall in Hall. specialize (Hall i). rewrite in_seq in Hall.
  specialize (Hall ltac:(lia)). unfold increasing_from in Hall. rewrite forallb_forall in Hall.
  specialize (Hall j). rewrite in_seq in Hall. specialize (Hall ltac:(lia)).
  by destruct (entry_compare _ _).
Qed.

Lemma sorted_static m :
  (m ≤ 60)%nat → static_entries !! se_index (sortedEntries !!! m) = Some (sorted_entry m).
Proof.
  intros Hm.
  assert (Hall : forallb (λ m, bool_decide (static_entries !! se_index (sortedEntries !!! m) =
    Some (sorted_entry m))) (seq 0 61) = true) by (by vm_compute).
  rewrite forallb_forall in Hall. eapply bool_decide_eq_true_1, Hall, in_seq. lia.
Qed.

Lemma static_sorted e : e ∈ static_entries → ∃ m, (m ≤ 60)%nat ∧ sorted_entry m = e.
Proof.
  intros He.
  assert (Hall : forallb (λ e, existsb (λ m, bool_decide (sorted_entry m = e)) (seq 0 61))
    static_entries = true) by (by vm_compute).
  rewrite forallb_forall in Hall. apply list_elem_of_In in He. specialize (Hall e He).
  apply existsb_exists in Hall as (m & Hm & E). apply in_seq in Hm. apply bool_decide_eq_true_1 in E.
  exists m. split; [lia|done].
Qed.

(** The last bounds enclose the key. *)
Definition encloses (key : TableEntry) (l r : nat) : Prop :=
  (l = 0%nat ∨ entry_compare (sorted_entry l) key = Lt) ∧
  (r = 60%nat ∨ entry_compare key (sorted_entry r) = Lt).

Lemma static_find_loop_spec fuel key l r :
  (l < r ≤ 60)%nat → (r - l ≤ fuel)%nat → encloses key l r →
  match static_find_loop fuel key l r with
  | inl m => (m ≤ 60)%nat ∧ sorted_entry m = key
  | inr (l', r') => r' = S l' ∧ (r' ≤ 60)%nat ∧ encloses key l' r'
  end.
Proof.
  revert l r; induction fuel as [|fuel IH]; intros l r Hlr Hf Henc; cbn [static_find_loop]; [lia|].
  case_decide as H2; [|split_and!; [lia|lia|done]].
  set (m := ((l + r) / 2)%nat). assert (Hm : (l < m < r)%nat).
  { subst m. pose proof (Nat.div_mod_eq (l + r) 2). pose proof (Nat.mod_upper_bound (l + r) 2). lia. }
  destruct (entry_compare key (sorted_entry m)) eqn:E.
  - apply entry_compare_eq in E. split; [lia|done].
  - apply IH; [lia|lia|]. split; [apply Henc|by right].
  - apply IH; [lia|lia|]. split; [right|apply Henc]. by rewrite entry_compare_antisym, E.
Qed.

(** Any entry is one of the two the search ends at, or does not share the
    key's name unless one of the two does. *)
Lemma encloses_name key l m :
  encloses key l (S l) → (S l ≤ 60)%nat → (m ≤ 60)%nat → (sorted_entry m).1 = key.1 →
  (sorted_entry l).1 = key.1 ∨ (sorted_entry (S l)).1 = key.1.
Proof.
  intros [Hl Hr] Hb Hm Hn. destruct (decide (m = l)) as [->|]; [by left|].
  destruct (decide (m = S l)) as [->|]; [by right|]. destruct (decide (m < l)%nat).
  - left. destruct Hl as [->|Hl]; [lia|]. rewrite <- Hn.
    apply (entry_between _ _ key); [apply sorted_increasing; lia|done|done].
  - right. destruct Hr as [Hr|Hr]; [lia|].
    apply (entry_between key _ (sorted_entry m)); [done|apply sorted_increasing; lia|done].
Qed.

Lemma encloses_eq key l m :
  encloses key l (S l) → (S l ≤ 60)%nat → (m ≤ 60)%nat → sorted_entry m = key →
  sorted_entry l = key ∨ sorted_entry (S l) = key.
Proof.
  intros [Hl Hr] Hb Hm <-. destruct (decide (m = l)) as [->|]; [by left|].
  destruct (decide (m = S l)) as [->|]; [by right|]. exfalso. destruct (decide (m < l)%nat).
  - destruct Hl as [->|Hl]; [lia|]. rewrite entry_compare_antisym, sorted_increasing in Hl; [done|lia].
  - destruct Hr as [Hr|Hr]; [lia|]. rewrite entry_compare_antisym, sorted_increasing in Hr; [done|lia].
Qed.

(** What [find] promises about its outcome. *)
Definition static_match (name value : bytes) (res : option (nat * option bool)) : Prop :=
  match res with
  | Some (i, Some b) => b = true ∧ static_entries !! i = Some (name, value)
  | Some (i, None) => (∃ v, static_entries !! i = Some (name, v)) ∧ (name, value) ∉ static_entries
  | None => name ∉ static_entries.*1
  end.

Lemma static_find_match name value : static_match name value (static_find name value).
Proof.
  unfold static_find. change (length sortedEntries - 1)%nat with 60%nat.
  pose proof (static_find_loop_spec 60 (name, value) 0 60) as Hloop.
  specialize (Hloop ltac:(lia) ltac:(lia)). destruct (static_find_loop 60 (name, value) 0 60) as [m|[l r]].
  { destruct Hloop as [Hm E]; [by split; left|]. split; [done|]. rewrite <- E. by apply sorted_static. }
  destruct Hloop as (-> & Hb & Henc); [by split; left|].
  pose proof (sorted_static l ltac:(lia)) as Sl. pose proof (sorted_static (S l) Hb) as Sr.
  assert (Hmiss : sorted_entry l ≠ (name, value) → sorted_entry (S l) ≠ (name, value) →
                  (name, value) ∉ static_entries).
  { intros H1 H2 (m & Hm & E)%static_sorted. by destruct (encloses_eq _ _ _ Henc Hb Hm E). }
  assert (Hname : name ∈ static_entries.*1 → (sorted_entry l).1 = name ∨ (sorted_entry (S l)).1 = name).
  { intros ([n v] & -> & (m & Hm & E)%static_sorted)%list_elem_of_fmap.
    apply (encloses_name _ _ _ Henc Hb Hm). by rewrite E. }
  unfold sorted_entry in *. cbn [fst] in Hname.
  set (el := sortedEntries !!! l) in *. set (er := sortedEntries !!! S l) in *.
  destruct (bool_decide_reflect (name = se_name el)), (bool_decide_reflect (value = se_value el)),
    (bool_decide_reflect (name = se_name er)), (bool_decide_reflect (value = se_value er));
    cbn [andb static_match];
    first [ split; [done|congruence]
          | split; [exists (se_value er); congruence|apply Hmiss; congruence]
          | split; [exists (se_value el); congruence|apply Hmiss; congruence]
          | intros Hin; destruct (Hname Hin); congruence ].
Qed.

(** The binary search over the re-sorted copy of the static
    table agrees with a search of the table itself: it reports a full match
    exactly if the field is in the table, a name match exactly if only the name
    is, in both cases with the index of such an entry. *)
Theorem static_find_correct name value :
  static_match name value (static_find name value) ∧
  ((name, value) ∈ static_entries → ∃ i, static_find name value = Some (i, Some true)) ∧
  (name ∈ static_entries.*1 → ∃ p, static_find name value = Some p).
Proof.
  pose proof (static_find_match name value) as Hm. split; [done|].
  destruct (static_find name value) as [[i [b|]]|]; cbn [static_match] in Hm.
  - destruct Hm as [-> _]. split; eauto.
  - split; [intros Hin; by destruct Hm|by eauto].
  - split; [|done]. intros Hin. destruct Hm. apply list_elem_of_fmap. by exists (name, value).
Qed.

(** ** The dynamic table *)

Definition entries_size (es : list TableEntry) : Z :=
  foldr (λ e n, fieldSize e.1 e.2 + n) 0 es.

(** The invariant: the accounted size is the size of the entries, and it
    respects the limit. *)
Definition dt_wf (t : DynamicTable) : Prop :=
  dt_size t = entries_size (dt_entries t) ∧ dt_size t ≤ dt_maxSize t.

(** The longest prefix (the most recent entries) that fits. *)
Definition longest_fit (max : Z) (es es' : list TableEntry) : Prop :=
  ∃ k, es' = take k es ∧ entries_size es' ≤ max ∧
    ((k < length es)%nat → max < entries_size (take (S k) es)).

Lemma entries_size_app es es' : entries_size (es ++ es') = entries_size es + entries_size es'.
Proof. unfold entries_size. induction es as [|e es IH]; cbn; [done|]. rewrite IH. lia. Qed.

Lemma evict_loop_spec fuel : ∀ t,
  (length (dt_entries t) ≤ fuel)%nat → dt_size t = entries_size (dt_entries t) → 0 ≤ dt_maxSize t →
  ∃ t', evict_loop fuel t = Ok t' ∧ dt_maxSize t' = dt_maxSize t ∧ dt_wf t' ∧
    longest_fit (dt_maxSize t) (dt_entries t) (dt_entries t').
Proof.
  induction fuel as [|fuel IH]; intros [max size es] Hf Hs Hm; cbn [dt_maxSize dt_size dt_entries] in *;
    unfold evict_loop; fold evict_loop; cbn [dt_maxSize dt_size dt_entries];
    destruct (Z.ltb_spec max size) as [Hgt|Hle].
  - destruct es; [cbn in Hs; lia|cbn in Hf; lia].
  - eexists; split; [done|]. split; [done|]. split; [done|].
    exists (length es). cbn [dt_entries]. rewrite take_ge by lia. split_and!; [done|lia|lia].
  - destruct es as [|e es _] using rev_ind; [cbn in Hs; lia|].
    rewrite list.last_snoc, removelast_last. rewrite length_app in Hf. cbn [length] in Hf.
    rewrite entries_size_app in Hs. cbn [entries_size foldr] in Hs.
    destruct (IH (mkDynamicTable max (size - fieldSize e.1 e.2) es)) as (t' & -> & Hmax & Hwf & k & Hk & Hfit & Hlong);
      cbn [dt_maxSize dt_size dt_entries] in *; [lia|unfold entries_size in *; lia|lia|].
    eexists; split; [done|]. split; [done|]. split; [done|].
    destruct (decide (k < length es)%nat) as [Hlt|Hge].
    + exists k. rewrite !take_app_le by lia. split_and!; [done|done|]. intros _. by apply Hlong.
    + exists (length es). rewrite take_app_length. rewrite take_ge in Hk by lia.
      split_and!; [done|done|]. intros _. rewrite take_ge by (rewrite length_app; cbn; lia).
      rewrite entries_size_app. cbn. unfold entries_size in *. lia.
  - eexists; split; [done|]. split; [done|]. split; [done|].
    exists (length es). cbn [dt_entries]. rewrite take_ge by lia. split_and!; [done|lia|lia].
Qed.

Lemma evict_spec t :
  dt_size t = entries_size (dt_entries t) → 0 ≤ dt_maxSize t →
  ∃ t', evict t = Ok t' ∧ dt_maxSize t' = dt_maxSize t ∧ dt_wf t' ∧
    longest_fit (dt_maxSize t) (dt_entries t) (dt_entries t').
Proof. intros. by apply evict_loop_spec. Qed.

Lemma dt_add_spec name value t :
  dt_wf t → 0 ≤ dt_maxSize t →
  ∃ t', dt_add name value t = Ok t' ∧ dt_maxSize t' = dt_maxSize t ∧ dt_wf t' ∧
    longest_fit (dt_maxSize t) ((name, value) :: dt_entries t) (dt_entries t').
Proof.
  intros [Hs _] Hm. apply (evict_spec (mkDynamicTable _ _ _)); [|done].
  cbn [dt_size dt_entries entries_size foldr fst snd]. rewrite Hs. unfold entries_size. lia.
Qed.

(** C26 (invariant). Every operation of the dynamic table terminates without
    undefined behaviour, keeps the accounted size equal to the size of the
    entries and within the limit, and evicts the oldest entries only, as few as
    necessary. *)
Theorem dynamic_table_invariant t :
  dt_wf t → 0 ≤ dt_maxSize t →
  (∀ name value, ∃ t', dt_add name value t = Ok t' ∧ dt_maxSize t' = dt_maxSize t ∧ dt_wf t' ∧
    longest_fit (dt_maxSize t) ((name, value) :: dt_entries t) (dt_entries t')) ∧
  (∀ limit, 0 ≤ limit → ∃ t', dt_setMaxSize limit t = Ok t' ∧ dt_maxSize t' = limit ∧ dt_wf t' ∧
    longest_fit limit (dt_entries t) (dt_entries t')) ∧
  dt_wf (dt_clear t).
Proof.
  intros Hwf Hm. split_and!; [intros; by apply dt_add_spec| |by split].
  intros limit Hl. apply (evict_spec (mkDynamicTable _ _ _)); [apply Hwf|done].
Qed.

Lemma dynamic_table_invariant_witness :
  ∃ t, dt_add (str "a") (str "b") (newDynamicTable 64) = Ok t ∧ dt_maxSize t = 64 ∧ dt_wf t ∧
    longest_fit 64 [(str "a", str "b")] (dt_entries t).
Proof.
  apply (proj1 (dynamic_table_invariant (newDynamicTable 64) ltac:(split; cbn; lia) ltac:(cbn; lia))).
Defined.

(** A lookup finds the most recent entry with the name. *)
Lemma dt_find_from_spec name value es : ∀ i,
  match dt_find_from i name value es with
  | Some (j, b) => ∃ k v, j = (i + k)%nat ∧ es !! k = Some (name, v) ∧ b = bool_decide (value = v)
  | None => name ∉ es.*1
  end.
Proof.
  induction es as [|[n v] es IH]; intros i; cbn; [apply not_elem_of_nil|].
  case_decide as Hn; cbn in Hn; [subst n; exists O, v; split_and!; [lia|done|done]|].
  specialize (IH (S i)). destruct (dt_find_from (S i) name value es) as [[j b]|].
  - destruct IH as (k & v' & -> & Hk & Hb). exists (S k), v'. split_and!; [lia|done|done].
  - by apply not_elem_of_cons.
Qed.

Lemma dt_find_spec name value t :
  match dt_find name value t with
  | Some (j, b) => ∃ v, dt_entries t !! j = Some (name, v) ∧ b = bool_decide (value = v)
  | None => name ∉ (dt_entries t).*1
  end.
Proof.
  pose proof (dt_find_from_spec name value (dt_entries t) 0) as Hf. unfold dt_find.
  destruct (dt_find_from _ _ _ _) as [[j b]|]; [|done]. destruct Hf as (k & v & -> & Hk & Hb). by exists v.
Qed.
