(* ===== verification/HpackCodec.v ===== *)
(** * HPACK: the header block generator and parser

    [src/xzero/http/hpack/Generator.cc] and [Parser.cc]. Huffman coding is not
    implemented in the source (an empty code table, decoding raises
    [NotImplementedError]).

    [generateHeader] reads the variable [nameValueMatch], which
    [StaticTable::find] leaves unassigned when only the name matches: reading it
    is undefined. *)
From stdpp Require Import relations.
From S2P Require Import Prelude HpackTables.

(** A header field as the emitter receives it and as the generator is given
    it. *)
Record HpackField := mkHpackField {
  hf_name : bytes;
  hf_value : bytes;
  hf_sensitive : bool;
}.

(** ** Generator *)

Definition maskLSB (n : Z) : Z := Z.shiftl 1 n - 1.

(** [while (value > 127)]; a 64-bit value needs at most ten bytes. *)
Fixpoint encodeInt_loop (fuel : nat) (value : Z) : bytes :=
  match fuel with
  | O => []
  | S fuel =>
      if maskLSB 7 <? value
      then Z.lor 128 (Z.land value (maskLSB 7)) :: encodeInt_loop fuel (Z.shiftr value 7)
      else [u8 value]
  end.

(** The static [encodeInt]: the bytes it writes to [output]. *)
Definition encodeInt (suffix prefixBits value : Z) : bytes :=
  let maxValue := maskLSB prefixBits in
  if value <? maxValue
  then [u8 (Z.lor (Z.shiftl suffix prefixBits) (u8 value))]
  else u8 maxValue :: encodeInt_loop 10 (value - maxValue).

Record HpackGenerator := mkHpackGenerator {
  hg_table : DynamicTable;
  hg_block : bytes;
}.

Definition newHpackGenerator (maxSize : Z) : HpackGenerator :=
  mkHpackGenerator (newDynamicTable maxSize) [].

Definition hg_write (bs : bytes) (g : HpackGenerator) : HpackGenerator :=
  mkHpackGenerator (hg_table g) (hg_block g ++ bs).

(** The member [encodeInt] reserves eight bytes; a longer integer would be
    written past them. *)
Definition hg_encodeInt (suffix prefixBits value : Z) (g : HpackGenerator) : result HpackGenerator :=
  let bs := encodeInt suffix prefixBits value in
  _ ← ensure (bool_decide (length bs ≤ 8)%nat) UndefinedBehaviour;
  Ok (hg_write bs g).

(** With [compressed], [Huffman::encodeLength] reads the empty code table. *)
Definition hg_encodeString (value : bytes) (compressed : bool) (g : HpackGenerator) : result HpackGenerator :=
  if compressed && negb (bool_decide (value = [])) then Raise UndefinedBehaviour else
  g ← hg_encodeInt 0 7 (Z.of_nat (length value)) g;
  Ok (hg_write value g).

Definition hg_add (name value : bytes) (g : HpackGenerator) : result HpackGenerator :=
  t ← dt_add name value (hg_table g);
  Ok (mkHpackGenerator t (hg_block g)).

Definition encodeHeaderIndexed (index : Z) (nameValueMatch : bool) (name value : bytes)
    (sensitive : bool) (g : HpackGenerator) : result HpackGenerator :=
  if nameValueMatch then hg_encodeInt 1 7 index g
  else if sensitive then
    g ← hg_encodeInt 1 4 index g; hg_encodeString value false g
  else if fieldSize name value <? dt_maxSize (hg_table g) then
    g ← hg_add name value g; g ← hg_encodeInt 1 6 index g; hg_encodeString value false g
  else
    g ← hg_encodeInt 0 4 index g; hg_encodeString value false g.

Definition encodeHeaderLiteral (name value : bytes) (sensitive : bool) (g : HpackGenerator) :
    result HpackGenerator :=
  if sensitive then
    g ← hg_encodeString name false (hg_write [Z.shiftl 1 4] g); hg_encodeString value false g
  else if fieldSize name value <? dt_maxSize (hg_table g) then
    g ← hg_add name value g;
    g ← hg_encodeString name false (hg_write [Z.shiftl 1 6] g); hg_encodeString value false g
  else
    g ← hg_encodeString name false (hg_write [0] g); hg_encodeString value false g.

Definition generateHeader (f : HpackField) (g : HpackGenerator) : result HpackGenerator :=
  let lwrName := toLower (hf_name f) in
  let value := hf_value f in
  match static_find lwrName value with
  | Some (index, Some nameValueMatch) =>
      encodeHeaderIndexed (Z.of_nat index + 1) nameValueMatch lwrName value (hf_sensitive f) g
  | Some (_, None) => Raise UndefinedBehaviour
  | None =>
      match dt_find lwrName value (hg_table g) with
      | Some (index, nameValueMatch) =>
          encodeHeaderIndexed (Z.of_nat index + Z.of_nat static_length) nameValueMatch
            lwrName value (hf_sensitive f) g
      | None => encodeHeaderLiteral lwrName value (hf_sensitive f) g
      end
  end.

Fixpoint generateHeaders (fs : list HpackField) (g : HpackGenerator) : result HpackGenerator :=
  match fs with
  | [] => Ok g
  | f :: fs => g ← generateHeader f g; generateHeaders fs g
  end.

Definition hg_setMaxSize (maxSize : Z) (g : HpackGenerator) : result HpackGenerator :=
  t ← dt_setMaxSize maxSize (hg_table g);
  hg_encodeInt 1 5 maxSize (mkHpackGenerator t (hg_block g)).

Definition hg_clear (g : HpackGenerator) : HpackGenerator := mkHpackGenerator (hg_table g) [].

Definition hg_reset (g : HpackGenerator) : result HpackGenerator :=
  let t := dt_clear (hg_table g) in
  g ← hg_encodeInt 1 5 0 (mkHpackGenerator t []);
  hg_encodeInt 1 5 (dt_maxSize t) g.

(** ** Parser

    A position is the rest of the header block. *)

(** [( octet & 127 ) << shift] is computed in [int]: undefined from shift 32 on
    and when the result does not fit 32 bits, negative from bit 31 on. *)
Fixpoint decodeInt_loop (output shift : Z) (pos : bytes) : result (Z * bytes) :=
  match pos with
  | [] => Raise CompressionError
  | octet :: pos =>
      let x := Z.shiftl (Z.land octet 127) shift in
      if (32 <=? shift) || (2 ^ 32 <=? x) then Raise UndefinedBehaviour else
      let output := u64 (output + s32 x) in
      if Z.land octet 128 =? 0 then Ok (output, pos)
      else decodeInt_loop output (shift + 7) pos
  end.

Definition decodeInt (prefixBits : Z) (pos : bytes) : result (Z * bytes) :=
  if negb ((1 <=? prefixBits) && (prefixBits <=? 8)) then Raise InternalError else
  match pos with
  | [] => Raise CompressionError
  | octet :: pos =>
      let output := Z.land octet (maskLSB prefixBits) in
      if output <? maskLSB prefixBits then Ok (output, pos)
      else decodeInt_loop output 0 pos
  end.

(** [n] octets from [pos]; there is nothing behind the end of the block. *)
Definition read_octets (n : Z) (pos : bytes) : result (bytes * bytes) :=
  _ ← ensure (n <=? Z.of_nat (length pos)) UndefinedBehaviour;
  Ok (take (Z.to_nat n) pos, drop (Z.to_nat n) pos).

(** The first octet is read before the check that there is one. *)
Definition decodeString (pos : bytes) : result (bytes * bytes) :=
  match pos with
  | [] => Raise UndefinedBehaviour
  | octet :: _ =>
      let compressed := negb (Z.land octet 128 =? 0) in
      '(slen, pos) ← decodeInt 7 pos;
      if Z.of_nat (length pos) <? slen then Raise CompressionError else
      if compressed then Raise NotImplementedError
      else read_octets slen pos
  end.

Definition parser_at (index : Z) (t : DynamicTable) : result TableEntry :=
  if index =? 0 then Raise CompressionError else
  let index := Z.to_nat (index - 1) in
  if decide (index < static_length)%nat then static_at index else
  let index := (index - static_length)%nat in
  if decide (index < length (dt_entries t))%nat then dt_at index t
  else Raise CompressionError.

Abbreviation step_result := (result (DynamicTable * list HpackField * bytes)).

Definition indexedHeaderField (t : DynamicTable) (pos : bytes) : step_result :=
  '(index, pos) ← decodeInt 7 pos;
  field ← parser_at index t;
  Ok (t, [mkHpackField field.1 field.2 false], pos).

(** With an index, [name] refers to the string in the table. An entry of the
    dynamic table that [add] evicts is gone when [emit] reads its name. *)
Definition name_evicted (index : Z) (t' : DynamicTable) : bool :=
  let index := Z.to_nat (index - 1) in
  bool_decide (static_length ≤ index ∧ length (dt_entries t') ≤ S (index - static_length))%nat.

Definition incrementalIndexedField (t : DynamicTable) (pos : bytes) : step_result :=
  '(index, pos) ← decodeInt 6 pos;
  if negb (index =? 0) then
    field ← parser_at index t;
    '(value, pos) ← decodeString pos;
    t' ← dt_add field.1 value t;
    if name_evicted index t' then Raise UndefinedBehaviour
    else Ok (t', [mkHpackField field.1 value false], pos)
  else
    '(name, pos) ← decodeString pos;
    '(value, pos) ← decodeString pos;
    t' ← dt_add name value t;
    Ok (t', [mkHpackField name value false], pos).

Definition updateTableSize (maxSize : Z) (t : DynamicTable) (pos : bytes) : step_result :=
  '(newMaxSize, pos) ← decodeInt 5 pos;
  if maxSize <? newMaxSize then Raise CompressionError else
  t' ← dt_setMaxSize newMaxSize t;
  Ok (t', [], pos).

(** [literalHeaderNoIndex] and [literalHeaderNeverIndex] differ in the flag
    they emit. *)
Definition literalHeader (sensitive : bool) (t : DynamicTable) (pos : bytes) : step_result :=
  '(index, pos) ← decodeInt 4 pos;
  if negb (index =? 0) then
    field ← parser_at index t;
    '(value, pos) ← decodeString pos;
    Ok (t, [mkHpackField field.1 value sensitive], pos)
  else
    '(name, pos) ← decodeString pos;
    '(value, pos) ← decodeString pos;
    Ok (t, [mkHpackField name value sensitive], pos).

Definition literalHeaderNoIndex : DynamicTable → bytes → step_result := literalHeader false.
Definition literalHeaderNeverIndex : DynamicTable → bytes → step_result := literalHeader true.

(** One iteration of [parse], at an octet. *)
Definition parse_field (maxSize : Z) (t : DynamicTable) (octet : Z) (pos : bytes) : step_result :=
  if negb (Z.land octet (Z.shiftl 1 7) =? 0) then indexedHeaderField t (octet :: pos)
  else if negb (Z.land octet (Z.shiftl 1 6) =? 0) then incrementalIndexedField t (octet :: pos)
  else if negb (Z.land octet (Z.shiftl 1 5) =? 0) then updateTableSize maxSize t (octet :: pos)
  else if negb (Z.land octet (Z.shiftl 1 4) =? 0) then literalHeaderNeverIndex t (octet :: pos)
  else literalHeaderNoIndex t (octet :: pos).

(** The table and the fields emitted so far survive an exception. Every
    iteration consumes an octet; running out of fuel would be [Blocked]. *)
Fixpoint parse_loop (fuel : nat) (maxSize : Z) (t : DynamicTable) (pos : bytes) :
    DynamicTable * list HpackField * result unit :=
  match pos, fuel with
  | [], _ => (t, [], Ok ())
  | _, O => (t, [], Raise Blocked)
  | octet :: pos, S fuel =>
      match parse_field maxSize t octet pos with
      | Raise e => (t, [], Raise e)
      | Ok (t', fs, pos') =>
          let '(t'', fs', r) := parse_loop fuel maxSize t' pos' in
          (t'', fs ++ fs', r)
      end
  end.

Definition hpack_parse (maxSize : Z) (t : DynamicTable) (block : bytes) :
    DynamicTable * list HpackField * result unit :=
  parse_loop (length block) maxSize t block.

(** ** Integers *)

Lemma maskLSB_pow n : 0 ≤ n → maskLSB n = 2 ^ n - 1.
Proof. intros. unfold maskLSB. rewrite Z.shiftl_mul_pow2; lia. Qed.

Lemma more_octet b :
  0 ≤ b < 128 →
  Z.lor 128 b = 128 + b ∧ Z.land (128 + b) 127 = b ∧ (Z.land (128 + b) 128 =? 0) = false.
Proof.
  intros Hb.
  assert (H : ((Z.lor 128 b =? 128 + b) && (Z.land (128 + b) 127 =? b) &&
    negb (Z.land (128 + b) 128 =? 0)) || (128 <=? b) = true).
  { apply (byte_forall (λ b, ((Z.lor 128 b =? 128 + b) && (Z.land (128 + b) 127 =? b) &&
      negb (Z.land (128 + b) 128 =? 0)) || (128 <=? b))); [by vm_compute|unfold is_byte, fits; lia]. }
  rewrite (proj2 (Z.leb_gt 128 b)), orb_false_r in H by lia.
  rewrite !andb_true_iff, !Z.eqb_eq, negb_true_iff in H. tauto.
Qed.

Lemma last_octet b : 0 ≤ b < 128 → u8 b = b ∧ Z.land b 127 = b ∧ (Z.land b 128 =? 0) = true.
Proof.
  intros Hb. split_and!; [apply unsigned_id; unfold fits; lia| |].
  - rewrite land_7f. apply Z.mod_small. lia.
  - rewrite land_80_zero by (unfold is_byte, fits; lia). apply Z.ltb_lt. lia.
Qed.

Lemma decodeInt_loop_last w shift out rest :
  0 ≤ w ≤ 127 → 0 ≤ shift < 32 → w * 2 ^ shift < 2 ^ 31 → 0 ≤ out → out + w * 2 ^ shift < 2 ^ 64 →
  decodeInt_loop out shift ([u8 w] ++ rest) = Ok (out + w * 2 ^ shift, rest).
Proof.
  intros Hw Hs Hlim Ho Hmax. assert (Hp : 0 < 2 ^ shift) by (apply Z.pow_pos_nonneg; lia).
  destruct (last_octet w) as (E1 & E2 & E3); [lia|]. rewrite E1.
  cbn [app decodeInt_loop]. rewrite E2, E3, Z.shiftl_mul_pow2 by lia.
  rewrite (proj2 (Z.leb_gt 32 shift)), (proj2 (Z.leb_gt (2 ^ 32) _)) by nia. cbn [orb].
  by rewrite signed_id, unsigned_id by (unfold fits; cbn; nia).
Qed.

Lemma encodeInt_loop_S n w :
  encodeInt_loop (S n) w =
  if 127 <? w then Z.lor 128 (Z.land w 127) :: encodeInt_loop n (Z.shiftr w 7) else [u8 w].
Proof. done. Qed.

Lemma encodeInt_loop_decode n : ∀ w shift out rest,
  0 ≤ w < 2 ^ (7 + 7 * Z.of_nat n) → 0 ≤ shift < 32 → w * 2 ^ shift < 2 ^ 31 →
  0 ≤ out → out + w * 2 ^ shift < 2 ^ 64 →
  decodeInt_loop out shift (encodeInt_loop (S n) w ++ rest) = Ok (out + w * 2 ^ shift, rest).
Proof.
  induction n as [|n IH]; intros w shift out rest Hw Hs Hlim Ho Hmax;
    (assert (Hp : 0 < 2 ^ shift) by (apply Z.pow_pos_nonneg; lia));
    rewrite encodeInt_loop_S; destruct (Z.ltb_spec 127 w) as [Hbig|Hsmall];
    try (apply decodeInt_loop_last; lia).
  - change (2 ^ (7 + 7 * Z.of_nat 0)) with 128 in Hw. lia.
  - rewrite land_7f, Z.shiftr_div_pow2 by lia. change (2 ^ 7) with 128.
    pose proof (Z.mod_pos_bound w 128 ltac:(lia)) as Hb.
    pose proof (Z.div_mod w 128 ltac:(lia)) as Hdm. set (b := w mod 128) in *. set (d := w / 128) in *.
    destruct (more_octet b Hb) as (E1 & E2 & E3).
    rewrite E1. cbn [app decodeInt_loop]. rewrite E2, E3, Z.shiftl_mul_pow2 by lia.
    assert (Hd : 1 ≤ d) by lia.
    assert (Hbx : 0 ≤ b * 2 ^ shift < 2 ^ 31) by nia.
    rewrite (proj2 (Z.leb_gt 32 shift)), (proj2 (Z.leb_gt (2 ^ 32) _)) by lia. cbn [orb].
    rewrite signed_id, unsigned_id by (unfold fits; cbn; nia).
    assert (Hpow : 2 ^ (shift + 7) = 128 * 2 ^ shift) by (rewrite Z.pow_add_r by lia; lia).
    rewrite IH; rewrite ?Hpow; try nia; [do 2 f_equal; nia| |].
    + split; [lia|]. replace (7 + 7 * Z.of_nat (S n)) with (7 + (7 + 7 * Z.of_nat n)) in Hw by lia.
      rewrite (Z.pow_add_r 2 7) in Hw by lia. change (2 ^ 7) with 128 in Hw. lia.
    + split; [lia|]. destruct (Z.lt_ge_cases (shift + 7) 31); [lia|].
      assert (2 ^ 31 ≤ 2 ^ (shift + 7)) by (apply Z.pow_le_mono_r; lia). nia.
Qed.

Lemma encodeInt_decode suffix p value rest :
  1 ≤ p ≤ 8 → 0 ≤ suffix < 2 ^ (8 - p) → 0 ≤ value < 2 ^ p - 1 + 2 ^ 31 →
  decodeInt p (encodeInt suffix p value ++ rest) = Ok (value, rest).
Proof.
  intros Hp Hs Hv. unfold decodeInt, encodeInt.
  rewrite (proj2 (Z.leb_le 1 p)), (proj2 (Z.leb_le p 8)) by lia. cbn [andb negb].
  rewrite !maskLSB_pow by lia.
  assert (H2p : 1 ≤ 2 ^ p - 1 < 256).
  { pose proof (Z.pow_le_mono_r 2 1 p). pose proof (Z.pow_le_mono_r 2 p 8). lia. }
  destruct (Z.ltb_spec value (2 ^ p - 1)) as [Hlt|Hge]; cbn [app].
  - rewrite (unsigned_id 8 value) by (unfold fits; lia).
    rewrite Z.lor_comm, lor_shiftl_add by (unfold fits; lia).
    assert (Hsum : 0 ≤ value + suffix * 2 ^ p < 2 ^ 8).
    { assert (2 ^ 8 = 2 ^ p * 2 ^ (8 - p)) by (rewrite <- Z.pow_add_r by lia; f_equal; lia). nia. }
    rewrite unsigned_id by done. rewrite land_low by lia.
    rewrite Z.mod_add, Z.mod_small by lia. by rewrite (proj2 (Z.ltb_lt _ _)).
  - rewrite (unsigned_id 8 (2 ^ p - 1)) by (unfold fits; lia).
    rewrite land_low, Z.mod_small by lia. rewrite Z.ltb_irrefl.
    rewrite encodeInt_loop_decode; [do 2 f_equal; lia|cbn; lia|lia|lia|lia|lia].
Qed.

(** An HPACK integer is decoded to the value that was encoded,
    with any prefix, as long as what exceeds the prefix is below [2^31], and the
    decoder stops right behind it. *)
Theorem hpack_int_roundtrip suffix p value rest :
  1 ≤ p ≤ 8 → 0 ≤ suffix < 2 ^ (8 - p) → 0 ≤ value < 2 ^ p - 1 + 2 ^ 31 →
  decodeInt p (encodeInt suffix p value ++ rest) = Ok (value, rest).
Proof. apply encodeInt_decode. Qed.

Lemma hpack_int_roundtrip_witness :
  decodeInt 5 (encodeInt 1 5 2147483678 ++ [7]) = Ok (2147483678, [7]).
Proof. apply (hpack_int_roundtrip 1 5 2147483678 [7]); lia. Defined.

(** ** The parser on arbitrary input *)

(** An integer for which [decodeInt] shifts beyond 32 bits: the prefix is full,
    four octets continue, and the fifth has more than four bits, or continues and
    is followed by a sixth. *)
Definition continues (octet : Z) : bool := negb (Z.land octet 128 =? 0).
Definition overlong (p : Z) (pos : bytes) : bool :=
  match pos with
  | o :: c1 :: c2 :: c3 :: c4 :: c5 :: rest =>
      (maskLSB p <=? Z.land o (maskLSB p)) && forallb continues [c1; c2; c3; c4] &&
      ((16 <=? Z.land c5 127) || (continues c5 && negb (bool_decide (rest = []))))
  | _ => false
  end.

Lemma seven_bits c shift : 0 ≤ shift ≤ 21 → (2 ^ 32 <=? Z.shiftl (Z.land c 127) shift) = false.
Proof.
  intros Hs. apply Z.leb_gt. rewrite land_7f, Z.shiftl_mul_pow2 by lia. pose proof (Z.mod_pos_bound c 128 ltac:(lia)).
  assert (2 ^ shift ≤ 2 ^ 21) by (apply Z.pow_le_mono_r; lia). change (2 ^ 32) with (2048 * 2 ^ 21). assert (0 < 2 ^ shift) by (apply Z.pow_pos_nonneg; lia). nia.
Qed.

Lemma seven_bits_28 c : (2 ^ 32 <=? Z.shiftl (Z.land c 127) 28) = (16 <=? Z.land c 127).
Proof.
  rewrite Z.shiftl_mul_pow2 by lia. change (2 ^ 32) with (16 * 2 ^ 28). apply eq_true_iff_eq. rewrite !Z.leb_le. lia.
Qed.

(** The exceptions of [decodeInt]. *)
Lemma decodeInt_raises p pos e :
  1 ≤ p ≤ 8 → decodeInt p pos = Raise e → e = CompressionError ∨ e = UndefinedBehaviour ∧ overlong p pos = true.
Proof.
  intros Hp. unfold decodeInt. rewrite (proj2 (Z.leb_le 1 p)), (proj2 (Z.leb_le p 8)) by lia. cbn [andb negb].
  destruct pos as [|o pos]; [intros [= <-]; by left|]. unfold overlong. rewrite Z.leb_antisym.
  destruct (_ <? _); [done|]. cbn [negb andb].
  destruct pos as [|c1 pos]; cbn [decodeInt_loop]; [intros [= <-]; by left|]. rewrite seven_bits by lia. cbn [Z.leb Z.compare orb forallb andb]. unfold continues at 1.
  destruct (Z.land c1 128 =? 0); [done|]. cbn [negb andb].
  destruct pos as [|c2 pos]; cbn [decodeInt_loop]; [intros [= <-]; by left|]. rewrite seven_bits by lia. cbn [Z.leb Z.compare orb]. unfold continues at 1.
  destruct (Z.land c2 128 =? 0); [done|]. cbn [negb andb].
  destruct pos as [|c3 pos]; cbn [decodeInt_loop]; [intros [= <-]; by left|]. rewrite seven_bits by lia. cbn [Z.leb Z.compare orb]. unfold continues at 1.
  destruct (Z.land c3 128 =? 0); [done|]. cbn [negb andb].
  destruct pos as [|c4 pos]; cbn [decodeInt_loop]; [intros [= <-]; by left|]. rewrite seven_bits by lia. cbn [Z.leb Z.compare orb]. unfold continues at 1.
  destruct (Z.land c4 128 =? 0); [done|]. cbn [negb andb].
  destruct pos as [|c5 pos]; cbn [decodeInt_loop]; [intros [= <-]; by left|]. rewrite seven_bits_28. change (32 <=? 0 + 7 + 7 + 7 + 7) with false. cbn [orb].
  destruct (16 <=? Z.land c5 127); [intros [= <-]; by right|]. cbn [orb]. unfold continues.
  destruct (Z.land c5 128 =? 0); [done|]. cbn [negb andb].
  destruct pos as [|c6 pos]; cbn [decodeInt_loop]; [intros [= <-]; by left|]. intros [= <-]. by right.
Qed.

Lemma decodeInt_loop_shorter out shift pos v rest :
  decodeInt_loop out shift pos = Ok (v, rest) → 0 ≤ v ∧ (length rest < length pos)%nat.
Proof.
  revert out shift; induction pos as [|o pos IH]; intros out shift; cbn [decodeInt_loop]; [done|].
  destruct (_ || _); [done|]. destruct (_ =? _).
  - intros [= <- <-]. split; [apply unsigned_fits; lia|cbn; lia].
  - intros H%IH. cbn. lia.
Qed.

Lemma decodeInt_shorter p pos v rest :
  decodeInt p pos = Ok (v, rest) → 0 ≤ v ∧ (length rest < length pos)%nat.
Proof.
  unfold decodeInt. destruct (Z.leb_spec 1 p), (Z.leb_spec p 8); cbn [andb negb]; try done.
  destruct pos as [|o pos]; [done|]. destruct (_ <? _).
  - intros [= <- <-]. split; [|cbn; lia]. apply Z.land_nonneg. right. rewrite maskLSB_pow by lia.
    pose proof (Z.pow_pos_nonneg 2 p). lia.
  - intros H'%decodeInt_loop_shorter. cbn. lia.
Qed.

Lemma decodeString_shorter pos s rest :
  decodeString pos = Ok (s, rest) → (length rest < length pos)%nat.
Proof.
  unfold decodeString. destruct pos as [|o pos]; [done|]. intros H.
  apply bind_Ok in H as ([slen pos'] & H1%decodeInt_shorter & H). destruct (_ <? _); [done|].
  destruct (negb _); [done|]. apply bind_Ok in H as (_ & _ & H). injection H as <- <-. rewrite length_drop. lia.
Qed.

(** A string that begins behind the end of the block, or whose length is too
    long an integer. *)
Definition string_undefined (pos : bytes) : Prop := pos = [] ∨ overlong 7 pos = true.

(** The exceptions of [decodeString]: the announced length is checked before its
    octets are read. *)
Lemma decodeString_raises pos e :
  decodeString pos = Raise e → e = CompressionError ∨ e = NotImplementedError ∨ e = UndefinedBehaviour ∧ string_undefined pos.
Proof.
  unfold decodeString. destruct pos as [|o pos]; [intros [= <-]; right; right; split; [done|by left]|].
  destruct (decodeInt 7 (o :: pos)) as [[slen rest]|x] eqn:E; cbn [mbind result_bind].
  - destruct (_ <? slen) eqn:El; [intros [= <-]; by left|]. destruct (negb _); [intros [= <-]; by right; left|].
    unfold read_octets. rewrite Z.leb_antisym, El. done.
  - intros [= <-]. apply decodeInt_raises in E as [->|[-> E]]; [by left| |lia]. right; right. split; [done|by right].
Qed.

(** What one iteration of [parse] guarantees, whatever the octets. *)
Definition step_ok (maxSize : Z) (pos : bytes) (out : DynamicTable * list HpackField * bytes) : Prop :=
  let '(t', _, rest) := out in
  dt_wf t' ∧ 0 ≤ dt_maxSize t' ≤ maxSize ∧ (length rest < length pos)%nat.

Ltac decode_facts :=
  repeat match goal with
  | H : (_ ≫= _) = Ok _ |- _ => apply bind_Ok in H as (? & ? & H)
  | p : Z * bytes |- _ => destruct p
  | p : bytes * bytes |- _ => destruct p
  | H : decodeInt _ _ = Ok _ |- _ => apply decodeInt_shorter in H
  | H : decodeString _ = Ok _ |- _ => apply decodeString_shorter in H
  | H : (if ?b then _ else _) = Ok _ |- _ => destruct b eqn:?
  | H : Ok _ = Ok _ |- _ => injection H as <-
  | H : Raise _ = Ok _ |- _ => discriminate H
  end.

Lemma parse_field_step ms t o pos out :
  dt_wf t → 0 ≤ dt_maxSize t ≤ ms →
  parse_field ms t o pos = Ok out → step_ok ms (o :: pos) out.
Proof.
  intros Hwf Hm H. unfold parse_field, indexedHeaderField, incrementalIndexedField, updateTableSize,
    literalHeaderNeverIndex, literalHeaderNoIndex, literalHeader in H.
  repeat match type of H with (if ?b then _ else _) = _ => destruct b end; decode_facts;
    unfold step_ok; cbn [fst snd];
    try match goal with
    | H : dt_add ?n ?v t = Ok ?t' |- _ =>
        destruct (dt_add_spec n v t) as (? & E & E' & ? & _); [done|lia|];
        rewrite H in E; injection E as <-; rewrite E'
    | H : dt_setMaxSize ?l t = Ok ?t' |- _ =>
        destruct (evict_spec (mkDynamicTable l (dt_size t) (dt_entries t))) as (? & E & E' & ? & _);
        [apply Hwf|cbn; lia|]; change (evict _) with (dt_setMaxSize l t) in E;
        rewrite H in E; injection E as <-; rewrite E'; cbn [dt_maxSize]
    end; (split; [done|split; [lia|lia]]).
Qed.

(** ** What is undefined

    The field at octet [o], with [pos] behind it and the table [t]. Its first
    integer has [prefix_bits o] bits; [index_of_field] is this integer with what
    is behind it. *)
Definition prefix_bits (o : Z) : Z :=
  if negb (Z.land o 128 =? 0) then 7 else if negb (Z.land o 64 =? 0) then 6 else if negb (Z.land o 32 =? 0) then 5 else 4.

(** The value of a literal field begins at [rest]: behind the index of a name or
    behind a name. *)
Definition value_begins (t : DynamicTable) (o : Z) (pos rest : bytes) : Prop :=
  ∃ i pos1, decodeInt (prefix_bits o) (o :: pos) = Ok (i, pos1) ∧
    (i ≠ 0 ∧ (∃ f, parser_at i t = Ok f) ∧ rest = pos1 ∨ i = 0 ∧ ∃ name, decodeString pos1 = Ok (name, rest)).
Definition literal_field (o : Z) : Prop := prefix_bits o = 6 ∨ prefix_bits o = 4.

Inductive undefined_field (t : DynamicTable) (o : Z) (pos : bytes) : Prop :=
  | undefined_index : overlong (prefix_bits o) (o :: pos) = true → undefined_field t o pos
  | undefined_name rest : literal_field o → decodeInt (prefix_bits o) (o :: pos) = Ok (0, rest) → string_undefined rest → undefined_field t o pos
  | undefined_value rest : literal_field o → value_begins t o pos rest → string_undefined rest → undefined_field t o pos
  | undefined_evicted i rest name value rest' t' :
      prefix_bits o = 6 → decodeInt 6 (o :: pos) = Ok (i, rest) → i ≠ 0 → parser_at i t = Ok name →
      decodeString rest = Ok (value, rest') → dt_add name.1 value t = Ok t' → name_evicted i t' = true → undefined_field t o pos.

Lemma parse_field_prefix ms t o pos :
  parse_field ms t o pos =
  (if prefix_bits o =? 7 then indexedHeaderField t (o :: pos)
   else if prefix_bits o =? 6 then incrementalIndexedField t (o :: pos)
   else if prefix_bits o =? 5 then updateTableSize ms t (o :: pos)
   else literalHeader (negb (Z.land o 16 =? 0)) t (o :: pos)).
Proof.
  unfold parse_field, prefix_bits. change (Z.shiftl 1 7) with 128. change (Z.shiftl 1 6) with 64.
  change (Z.shiftl 1 5) with 32. change (Z.shiftl 1 4) with 16.
  by destruct (Z.land o 128 =? 0), (Z.land o 64 =? 0), (Z.land o 32 =? 0), (Z.land o 16 =? 0).
Qed.

Lemma prefix_bits_cases o : prefix_bits o = 7 ∨ prefix_bits o = 6 ∨ prefix_bits o = 5 ∨ prefix_bits o = 4.
Proof. unfold prefix_bits. repeat case_match; auto. Qed.

Lemma parser_at_raises i t e : parser_at i t = Raise e → e = CompressionError.
Proof.
  unfold parser_at, static_at, dt_at. destruct (i =? 0); [by intros [= <-]|]. destruct (decide _) as [Hs|Hs].
  - destruct (lookup_lt_is_Some_2 static_entries _ Hs) as [x Hx]. by rewrite Hx.
  - destruct (decide _) as [Hd|Hd]; [|by intros [= <-]]. destruct (lookup_lt_is_Some_2 _ _ Hd) as [x Hx]. by rewrite Hx.
Qed.

(** An outcome the protocol has, or one of the causes above. *)
Definition explained (t : DynamicTable) (o : Z) (pos : bytes) (e : exn) : Prop :=
  e = CompressionError ∨ e = NotImplementedError ∨ e = UndefinedBehaviour ∧ undefined_field t o pos.

Section explanations.
Context (ms : Z) (t : DynamicTable) (Hwf : dt_wf t) (Hmax : 0 ≤ dt_maxSize t ≤ ms) (o : Z) (pos : bytes).

Lemma index_explained e : decodeInt (prefix_bits o) (o :: pos) = Raise e → explained t o pos e.
Proof.
  intros H. apply decodeInt_raises in H as [->|[-> H]]; [by left| |destruct (prefix_bits_cases o); lia].
  right; right. split; [done|by apply undefined_index].
Qed.

Lemma name_explained rest e :
  literal_field o → decodeInt (prefix_bits o) (o :: pos) = Ok (0, rest) → decodeString rest = Raise e → explained t o pos e.
Proof.
  intros Hl Hi H. apply decodeString_raises in H as [->|[->|[-> H]]]; [by left|by right; left|].
  right; right. split; [done|by eapply undefined_name].
Qed.

Lemma value_explained rest e : literal_field o → value_begins t o pos rest → decodeString rest = Raise e → explained t o pos e.
Proof.
  intros Hl Hv H. apply decodeString_raises in H as [->|[->|[-> H]]]; [by left|by right; left|].
  right; right. split; [done|by eapply undefined_value].
Qed.

Lemma literal_explained b e : prefix_bits o = 4 → literalHeader b t (o :: pos) = Raise e → explained t o pos e.
Proof.
  intros Hp H. assert (Hl : literal_field o) by by right. unfold literalHeader in H. rewrite <- Hp in H.
  destruct (decodeInt _ _) as [[i rest]|x] eqn:Ei; cbn [mbind result_bind] in H; [|injection H as <-; by apply index_explained].
  destruct (Z.eqb_spec i 0) as [->|Hi]; cbn [negb] in H.
  - destruct (decodeString rest) as [[n rest1]|x] eqn:En; cbn [mbind result_bind] in H; [|injection H as <-; by eapply name_explained].
    destruct (decodeString rest1) as [[v rest2]|x] eqn:Ev; cbn [mbind result_bind] in H; [done|injection H as <-].
    eapply value_explained; [done| |exact Ev]. exists 0, rest. split; [done|]. right. split; [done|by exists n].
  - destruct (parser_at i t) as [f|x] eqn:Ea; cbn [mbind result_bind] in H; [|injection H as <-; left; by eapply parser_at_raises].
    destruct (decodeString rest) as [[v rest2]|x] eqn:Ev; cbn [mbind result_bind] in H; [done|injection H as <-].
    eapply value_explained; [done| |exact Ev]. exists i, rest. split; [done|]. left. by split_and!; [|eexists|].
Qed.

Lemma incremental_explained e : prefix_bits o = 6 → incrementalIndexedField t (o :: pos) = Raise e → explained t o pos e.
Proof.
  intros Hp H. assert (Hl : literal_field o) by by left. unfold incrementalIndexedField in H.
  destruct (decodeInt 6 _) as [[i rest]|x] eqn:Ei; cbn [mbind result_bind] in H; [|injection H as <-; apply index_explained; by rewrite Hp].
  assert (Ei' : decodeInt (prefix_bits o) (o :: pos) = Ok (i, rest)) by by rewrite Hp.
  assert (Hadd : ∀ n v x, dt_add n v t ≠ Raise x) by (intros n v x Hx; destruct (dt_add_spec n v t) as (? & E & _); [done|lia|congruence]).
  destruct (Z.eqb_spec i 0) as [->|Hi]; cbn [negb] in H.
  - destruct (decodeString rest) as [[n rest1]|x] eqn:En; cbn [mbind result_bind] in H; [|injection H as <-; by eapply name_explained].
    destruct (decodeString rest1) as [[v rest2]|x] eqn:Ev; cbn [mbind result_bind] in H.
    + destruct (dt_add n v t) as [t'|x] eqn:Et; [done|]. by apply Hadd in Et.
    + injection H as <-. eapply value_explained; [done| |exact Ev]. exists 0, rest. split; [done|]. right. split; [done|by exists n].
  - destruct (parser_at i t) as [f|x] eqn:Ea; cbn [mbind result_bind] in H; [|injection H as <-; left; by eapply parser_at_raises].
    destruct (decodeString rest) as [[v rest2]|x] eqn:Ev; cbn [mbind result_bind] in H.
    + destruct (dt_add f.1 v t) as [t'|x] eqn:Et; cbn [mbind result_bind] in H; [|by apply Hadd in Et].
      destruct (name_evicted i t') eqn:Ee; [|done]. injection H as <-. right; right. split; [done|by eapply undefined_evicted].
    + injection H as <-. eapply value_explained; [done| |exact Ev]. exists i, rest. split; [done|]. left. by split_and!; [|eexists|].
Qed.

(** The exceptions of one iteration of [parse]. *)
Lemma parse_field_raises e : parse_field ms t o pos = Raise e → explained t o pos e.
Proof.
  rewrite parse_field_prefix. intros H. destruct (prefix_bits_cases o) as [Hp|[Hp|[Hp|Hp]]]; rewrite Hp in H; cbn [Z.eqb Pos.eqb] in H.
  - unfold indexedHeaderField in H. destruct (decodeInt 7 _) as [[i rest]|x] eqn:Ei; cbn [mbind result_bind] in H.
    + destruct (parser_at i t) eqn:Ea; [done|]. injection H as <-. left. by eapply parser_at_raises.
    + injection H as <-. apply index_explained. by rewrite Hp.
  - by apply incremental_explained.
  - unfold updateTableSize in H. destruct (decodeInt 5 _) as [[i rest]|x] eqn:Ei; cbn [mbind result_bind] in H.
    + destruct (_ <? _) eqn:El; [injection H as <-; by left|]. apply decodeInt_shorter in Ei as [Hi _].
      destruct (evict_spec (mkDynamicTable i (dt_size t) (dt_entries t))) as (? & E & _); [apply Hwf|cbn; lia|].
      unfold dt_setMaxSize in H. rewrite E in H. done.
    + injection H as <-. apply index_explained. by rewrite Hp.
  - by eapply literal_explained.
Qed.
End explanations.

(** One iteration, with the table and what is left of the block. *)
Definition field_step (ms : Z) (a b : DynamicTable * bytes) : Prop :=
  ∃ o pos fs, a.2 = o :: pos ∧ parse_field ms a.1 o pos = Ok (b.1, fs, b.2).

(** C25 (safety). Whatever octets a peer sends, [parse] comes to an end, and afterwards (also after
    an exception) the dynamic table is well formed and its limit no larger than the decoder allows.
    The block is read to its end, or is refused with a [CompressionError], or with
    [NotImplementedError] at a Huffman-coded string. Otherwise the behaviour is undefined, for one
    of these reasons, at a field that the iterations before it have come to: one of its integers has
    more than five octets behind its prefix or more than 32 bits ([overlong]); a name or value begins
    where the block ends, so that [decodeString] reads the octet behind it; or the name is taken from
    an entry of the dynamic table that adding the field evicts. So no other access leaves the block
    or a table. *)
Theorem hpack_parse_safe ms t block :
  dt_wf t → 0 ≤ dt_maxSize t ≤ ms →
  let '(t', _, r) := hpack_parse ms t block in
  dt_wf t' ∧ 0 ≤ dt_maxSize t' ≤ ms ∧
  match r with
  | Ok _ => True
  | Raise e =>
      e = CompressionError ∨ e = NotImplementedError ∨
      e = UndefinedBehaviour ∧ ∃ t1 o pos, rtc (field_step ms) (t, block) (t1, o :: pos) ∧ undefined_field t1 o pos
  end.
Proof.
  unfold hpack_parse. intros Hwf Hm. assert (Hf : (length block ≤ length block)%nat) by lia.
  revert Hf. generalize (length block) at 2 3. intros fuel. revert t block Hwf Hm.
  induction fuel as [|fuel IH]; intros t [|o pos] Hwf Hm Hf; cbn [parse_loop]; try done; [cbn in Hf; lia|].
  destruct (parse_field ms t o pos) as [[[t' fs] rest]|e] eqn:E.
  - pose proof E as E'. apply parse_field_step in E as (Hwf' & Hm' & Hlen); [|done..].
    specialize (IH t' rest Hwf' Hm'). cbn in Hlen, Hf.
    destruct (parse_loop fuel ms t' rest) as [[t'' fs'] r]. destruct IH as (H1 & H2 & H3); [lia|]. split; [done|]. split; [done|].
    destruct r as [|e]; [done|]. destruct H3 as [->|[->|(-> & t1 & o1 & pos1 & Hr & Hu)]]; [by left|by right; left|].
    right; right. split; [done|]. exists t1, o1, pos1. split; [|done]. eapply rtc_l; [|exact Hr]. by exists o, pos, fs.
  - split; [done|]. split; [done|]. destruct (parse_field_raises ms t Hwf Hm o pos e E) as [->|[->|[-> Hu]]]; [by left|by right; left|].
    right; right. split; [done|]. exists t, o, pos. split; [apply rtc_refl|done].
Qed.

Lemma hpack_parse_safe_witness :
  let '(t', _, r) := hpack_parse 4096 (newDynamicTable 4096) [64; 1; 97; 1; 98; 64] in
  dt_wf t' ∧ 0 ≤ dt_maxSize t' ≤ 4096 ∧
  match r with
  | Ok _ => True
  | Raise e =>
      e = CompressionError ∨ e = NotImplementedError ∨
      e = UndefinedBehaviour ∧ ∃ t1 o pos,
        rtc (field_step 4096) (newDynamicTable 4096, [64; 1; 97; 1; 98; 64]) (t1, o :: pos) ∧ undefined_field t1 o pos
  end.
Proof. apply (hpack_parse_safe 4096 (newDynamicTable 4096)); [split; cbn; lia|cbn; lia]. Defined.

(** A literal field at the end of the block, an integer of six octets, and a name
    that its own entry evicts. *)
Lemma parse_undefined :
  (hpack_parse 4096 (newDynamicTable 4096) [64]).2 = Raise UndefinedBehaviour ∧
  (hpack_parse 4096 (newDynamicTable 4096) [255; 128; 128; 128; 128; 128; 1]).2 = Raise UndefinedBehaviour ∧
  (hpack_parse 40 (newDynamicTable 40) [64; 1; 97; 1; 98; 126; 1; 99]).2 = Raise UndefinedBehaviour.
Proof. split_and!; by vm_compute. Qed.

(** ** What the generator writes *)

Lemma encodeInt_loop_length k n w :
  0 ≤ w < 2 ^ (7 * Z.of_nat k) → (1 ≤ k)%nat → (length (encodeInt_loop n w) ≤ k)%nat.
Proof.
  revert n w; induction k as [|k IH]; intros n w Hw Hk; [lia|].
  destruct n as [|n]; [cbn; lia|]. rewrite encodeInt_loop_S. destruct (Z.ltb_spec 127 w); [|cbn; lia].
  cbn [length]. replace (7 * Z.of_nat (S k)) with (7 + 7 * Z.of_nat k) in Hw by lia.
  rewrite Z.pow_add_r in Hw by lia. change (2 ^ 7) with 128 in Hw.
  rewrite Z.shiftr_div_pow2 by lia. change (2 ^ 7) with 128.
  destruct k as [|k]; [change (2 ^ (7 * Z.of_nat 0)) with 1 in Hw; lia|].
  apply le_n_S, IH; [|lia]. split; [apply Z.div_pos; lia|apply Z.div_lt_upper_bound; lia].
Qed.

(** Sizes and indices that occur: below [2^31]. *)
Definition small (v : Z) : Prop := 0 ≤ v < 2 ^ 31.

Lemma hg_encodeInt_small suffix p v g :
  1 ≤ p ≤ 8 → small v → hg_encodeInt suffix p v g = Ok (hg_write (encodeInt suffix p v) g).
Proof.
  intros Hp Hv. unfold hg_encodeInt. rewrite bool_decide_true; [done|].
  unfold encodeInt. rewrite maskLSB_pow by lia. destruct (Z.ltb_spec v (2 ^ p - 1)); cbn [length]; [lia|].
  pose proof (encodeInt_loop_length 5 10 (v - (2 ^ p - 1))) as Hl. unfold small in Hv.
  assert (2 ^ 1 ≤ 2 ^ p) by (apply Z.pow_le_mono_r; lia).
  specialize (Hl ltac:(cbn; lia) ltac:(lia)). lia.
Qed.

Definition string_bytes (s : bytes) : bytes := encodeInt 0 7 (Z.of_nat (length s)) ++ s.

Lemma hg_encodeString_small s g :
  small (Z.of_nat (length s)) → hg_encodeString s false g = Ok (hg_write (string_bytes s) g).
Proof.
  intros Hs. unfold hg_encodeString. cbn [andb]. rewrite hg_encodeInt_small by (done || lia). cbn.
  unfold hg_write, string_bytes. cbn. by rewrite app_assoc.
Qed.

Lemma decodeString_bytes s rest :
  small (Z.of_nat (length s)) → decodeString (string_bytes s ++ rest) = Ok (s, rest).
Proof.
  intros Hs. unfold small in Hs. unfold string_bytes. rewrite <- app_assoc.
  assert (Hfirst : ∃ o l, encodeInt 0 7 (Z.of_nat (length s)) = o :: l ∧ (Z.land o 128 =? 0) = true).
  { unfold encodeInt. change (maskLSB 7) with 127. destruct (Z.ltb_spec (Z.of_nat (length s)) 127).
    - do 2 eexists; split; [done|]. destruct (last_octet (Z.of_nat (length s))) as (E1 & _ & E3); [lia|].
      rewrite E1, Z.shiftl_0_l, Z.lor_0_l, E1. done.
    - by do 2 eexists. }
  destruct Hfirst as (o & l & E & Ho).
  pose proof (encodeInt_decode 0 7 (Z.of_nat (length s)) (s ++ rest)) as Hd.
  specialize (Hd ltac:(lia) ltac:(cbn; lia) ltac:(lia)). rewrite E in Hd |- *. cbn [app] in Hd |- *.
  unfold decodeString. rewrite Hd. cbn [mbind result_bind]. rewrite Ho. cbn [negb].
  unfold read_octets. rewrite length_app, (proj2 (Z.ltb_ge _ _)), (proj2 (Z.leb_le _ _)) by lia. cbn [ensure mbind result_bind].
  by rewrite Nat2Z.id, take_app_length, drop_app_length.
Qed.

(** The representations of RFC 7541, section 6: the octets, and that the parser
    takes them for what they are. [index] is an index of the static table. *)
Definition octet_class (o : Z) : Z :=
  if negb (Z.land o 128 =? 0) then 7 else if negb (Z.land o 64 =? 0) then 6
  else if negb (Z.land o 32 =? 0) then 5 else if negb (Z.land o 16 =? 0) then 4 else 0.

Lemma parse_field_class ms t o pos :
  parse_field ms t o pos =
  (if octet_class o =? 7 then indexedHeaderField t (o :: pos)
   else if octet_class o =? 6 then incrementalIndexedField t (o :: pos)
   else if octet_class o =? 5 then updateTableSize ms t (o :: pos)
   else if octet_class o =? 4 then literalHeaderNeverIndex t (o :: pos)
   else literalHeaderNoIndex t (o :: pos)).
Proof.
  unfold parse_field, octet_class. change (Z.shiftl 1 7) with 128. change (Z.shiftl 1 6) with 64.
  change (Z.shiftl 1 5) with 32. change (Z.shiftl 1 4) with 16.
  by destruct (Z.land o 128 =? 0), (Z.land o 64 =? 0), (Z.land o 32 =? 0), (Z.land o 16 =? 0).
Qed.

Definition head_class (s p i : Z) : Z := octet_class (default 0 (head (encodeInt s p i))).

Lemma static_index_forall (P : Z → bool) :
  forallb P (seqZ 1 61) = true → ∀ i, 1 ≤ i ≤ 61 → P i = true.
Proof.
  intros H i Hi. rewrite forallb_forall in H. apply H, list_elem_of_In, elem_of_seqZ. lia.
Qed.

(** The class of an encoded index. *)
Lemma head_class_indexed i : 1 ≤ i ≤ 61 → head_class 1 7 i = 7.
Proof.
  intros Hi. pose proof (static_index_forall (λ i, head_class 1 7 i =? 7) ltac:(by vm_compute) i Hi) as H. by apply Z.eqb_eq.
Qed.

Lemma encodeInt_cons s p v : ∃ o l, encodeInt s p v = o :: l.
Proof. unfold encodeInt. destruct (_ <? _); by do 2 eexists. Qed.

(** The octets [bs] are one representation, which the parser reads as [f] and
    which takes its table from [t] to [t']. *)
Definition parses_as (ms : Z) (t : DynamicTable) (bs : bytes) (t' : DynamicTable) (f : HpackField) : Prop :=
  ∃ o l, bs = o :: l ∧ ∀ rest, parse_field ms t o (l ++ rest) = Ok (t', [f], rest).

Lemma static_index i n v :
  static_entries !! i = Some (n, v) →
  1 ≤ Z.of_nat i + 1 ≤ 61 ∧ ∀ t, parser_at (Z.of_nat i + 1) t = Ok (n, v).
Proof.
  intros Hi. assert (Hlt : (i < 61)%nat) by (by apply lookup_lt_Some in Hi). split; [lia|].
  intros t. unfold parser_at. rewrite (proj2 (Z.eqb_neq _ _)) by lia.
  replace (Z.to_nat (Z.of_nat i + 1 - 1)) with i by lia.
  rewrite decide_True by done. unfold static_at. by rewrite Hi.
Qed.

(** An encoded index at the front selects the branch and is read back. *)
Lemma index_octets s p i tail :
  1 ≤ p ≤ 8 → 0 ≤ s < 2 ^ (8 - p) → small i →
  ∃ o l, encodeInt s p i ++ tail = o :: l ∧ octet_class o = head_class s p i ∧
    ∀ rest, decodeInt p (o :: l ++ rest) = Ok (i, tail ++ rest).
Proof.
  intros Hp Hs Hi. destruct (encodeInt_cons s p i) as (o & l & E). exists o, (l ++ tail).
  rewrite E. split; [done|]. split; [unfold head_class; by rewrite E|]. intros rest.
  pose proof (encodeInt_decode s p i (tail ++ rest)) as Hd. unfold small in Hi.
  assert (2 ^ 1 ≤ 2 ^ p) by (apply Z.pow_le_mono_r; lia).
  rewrite E in Hd. rewrite <- app_assoc. apply Hd; lia.
Qed.

Section representations.
Context (ms : Z) (t : DynamicTable).

Lemma parses_indexed i n v :
  static_entries !! i = Some (n, v) →
  parses_as ms t (encodeInt 1 7 (Z.of_nat i + 1)) t (mkHpackField n v false).
Proof.
  intros Hi%static_index. destruct Hi as [Hb Hat]. pose proof (head_class_indexed _ Hb) as Hc.
  destruct (index_octets 1 7 (Z.of_nat i + 1) []) as (o & l & E & Ho & Hd);
    [lia|cbn; lia|unfold small; lia|].
  rewrite app_nil_r in E. exists o, l. split; [done|]. intros rest.
  rewrite parse_field_class, Ho, Hc. cbn [Z.eqb Pos.eqb]. unfold indexedHeaderField. rewrite Hd. cbn [mbind result_bind]. by rewrite Hat.
Qed.

Lemma parses_literal n v :
  small (Z.of_nat (length n)) → small (Z.of_nat (length v)) →
  parses_as ms t (Z.shiftl 1 4 :: string_bytes n ++ string_bytes v) t (mkHpackField n v true) ∧
  parses_as ms t (0 :: string_bytes n ++ string_bytes v) t (mkHpackField n v false) ∧
  (∀ t', dt_add n v t = Ok t' →
     parses_as ms t (Z.shiftl 1 6 :: string_bytes n ++ string_bytes v) t' (mkHpackField n v false)).
Proof.
  intros Hn Hv.
  assert (Hlit : ∀ b o rest, decodeInt 4 (o :: string_bytes n ++ string_bytes v ++ rest) =
      Ok (0, string_bytes n ++ string_bytes v ++ rest) →
    literalHeader b t (o :: string_bytes n ++ string_bytes v ++ rest) = Ok (t, [mkHpackField n v b], rest)).
  { intros b o rest Hd. unfold literalHeader. rewrite Hd. cbn [mbind result_bind Z.eqb negb].
    rewrite decodeString_bytes by done. cbn [mbind result_bind]. by rewrite decodeString_bytes. }
  split_and!; [| |intros t' Hadd]; do 2 eexists; (split; [done|]); intros rest; rewrite <- app_assoc.
  - by apply (Hlit true 16).
  - by apply (Hlit false 0).
  - change (incrementalIndexedField t (64 :: string_bytes n ++ string_bytes v ++ rest) =
      Ok (t', [mkHpackField n v false], rest)).
    unfold incrementalIndexedField. change (decodeInt 6 (64 :: ?l)) with (Ok (0, l)).
    cbn [mbind result_bind Z.eqb negb]. rewrite decodeString_bytes by done. cbn [mbind result_bind].
    rewrite decodeString_bytes by done. cbn [mbind result_bind]. by rewrite Hadd.
Qed.
End representations.

(** ** Header lists *)

(** What the decoder is expected to emit for [f]: the lower-cased name, the
    value, and the sensitivity flag unless the field is in the static table. *)
Definition decoded (f : HpackField) : HpackField :=
  let name := toLower (hf_name f) in
  mkHpackField name (hf_value f) (match static_find name (hf_value f) with Some _ => false | None => hf_sensitive f end).

(** The name is not in the static table, or is there with this value:
    [nameValueMatch] has a value. *)
Definition determined (f : HpackField) : Prop :=
  match static_find (toLower (hf_name f)) (hf_value f) with Some (_, None) => False | _ => True end.
Lemma determined_find f : determined f → ∀ i, static_find (toLower (hf_name f)) (hf_value f) ≠ Some (i, None).
Proof. unfold determined. by intros H i E; rewrite E in H. Qed.
#[export] Instance determined_dec f : Decision (determined f).
Proof. unfold determined. destruct (static_find _ _) as [[i [b|]]|]; apply _. Defined.

Definition field_small (f : HpackField) : Prop :=
  small (Z.of_nat (length (hf_name f))) ∧ small (Z.of_nat (length (hf_value f))).

Definition table_names (t : DynamicTable) : list bytes := (dt_entries t).*1.

Lemma length_toLower s : length (toLower s) = length s.
Proof. apply length_fmap. Qed.

Lemma dt_add_names n v t t' :
  dt_wf t → 0 ≤ dt_maxSize t → dt_add n v t = Ok t' →
  dt_wf t' ∧ dt_maxSize t' = dt_maxSize t ∧ ∀ m, m ∈ table_names t' → m = n ∨ m ∈ table_names t.
Proof.
  intros Hwf Hm Hadd. destruct (dt_add_spec n v t Hwf Hm) as (t1 & E & E1 & Hwf1 & k & Hk & _).
  rewrite Hadd in E. injection E as <-. split_and!; [done|done|].
  intros m. unfold table_names. rewrite Hk, list_elem_of_fmap. intros ([a b] & -> & Hin).
  apply elem_of_take in Hin as (i & Hi & _). apply list_elem_of_lookup_2, elem_of_cons in Hi as [[= -> ->]|Hin];
    [by left|right]. apply list_elem_of_fmap. by exists (a, b).
Qed.

(** A field that is in the static table, or whose name is new to the dynamic
    table, is written so that the decoder reads it back, and both tables change
    alike. *)
Definition writes (ms : Z) (f : HpackField) (g : HpackGenerator) (m : result HpackGenerator) : Prop :=
  ∃ bs t', m = Ok (mkHpackGenerator t' (hg_block g ++ bs)) ∧
    parses_as ms (hg_table g) bs t' (decoded f) ∧
    dt_wf t' ∧ dt_maxSize t' = dt_maxSize (hg_table g) ∧
    (∀ n, n ∈ table_names t' → n = toLower (hf_name f) ∨ n ∈ table_names (hg_table g)).

Lemma hg_write_write bs bs' g : hg_write bs' (hg_write bs g) = hg_write (bs ++ bs') g.
Proof. unfold hg_write; cbn. by rewrite <- app_assoc. Qed.

Lemma small_index i : 1 ≤ i ≤ 61 → small i.
Proof. unfold small; lia. Qed.

Section header.
Context (ms : Z) (f : HpackField) (g : HpackGenerator).
Context (Hwf : dt_wf (hg_table g)) (Hmax : 0 ≤ dt_maxSize (hg_table g)) (Hsmall : field_small f).
Let name := toLower (hf_name f).
Let value := hf_value f.

Local Lemma small_name : small (Z.of_nat (length name)).
Proof. unfold name. rewrite length_toLower. apply Hsmall. Qed.

Lemma writes_unchanged bs m :
  m = Ok (hg_write bs g) → parses_as ms (hg_table g) bs (hg_table g) (decoded f) → writes ms f g m.
Proof. intros -> Hp. exists bs, (hg_table g). split_and!; auto. Qed.

Lemma writes_added bs t' m :
  dt_add name value (hg_table g) = Ok t' →
  m = Ok (hg_write bs (mkHpackGenerator t' (hg_block g))) →
  parses_as ms (hg_table g) bs t' (decoded f) → writes ms f g m.
Proof.
  intros Hadd -> Hp. exists bs, t'. split; [done|]. split; [done|]. by apply (dt_add_names name value).
Qed.

Lemma literal_writes :
  static_find name value = None → writes ms f g (encodeHeaderLiteral name value (hf_sensitive f) g).
Proof.
  intros Hf. destruct Hsmall as [_ Hv]. fold value in Hv. pose proof small_name as Hn.
  assert (Hd : decoded f = mkHpackField name value (hf_sensitive f))
    by (unfold decoded; fold name value; by rewrite Hf).
  destruct (parses_literal ms (hg_table g) name value Hn Hv) as (P1 & P2 & P3).
  unfold encodeHeaderLiteral. destruct (hf_sensitive f).
  - rewrite hg_encodeString_small by done. cbn [mbind result_bind].
    rewrite hg_encodeString_small, !hg_write_write by done.
    eapply writes_unchanged; [reflexivity|]. by rewrite Hd.
  - destruct (fieldSize name value <? _).
    + unfold hg_add. destruct (dt_add_spec name value (hg_table g)) as (t' & Hadd & _); [done..|].
      rewrite Hadd. cbn [mbind result_bind]. rewrite hg_encodeString_small by done. cbn [mbind result_bind].
      rewrite hg_encodeString_small, !hg_write_write by done.
      eapply writes_added; [exact Hadd|reflexivity|]. rewrite Hd. by apply P3.
    + rewrite hg_encodeString_small by done. cbn [mbind result_bind].
      rewrite hg_encodeString_small, !hg_write_write by done.
      eapply writes_unchanged; [reflexivity|]. by rewrite Hd.
Qed.

Lemma generateHeader_writes :
  determined f → (name ∉ static_entries.*1 → name ∉ table_names (hg_table g)) →
  writes ms f g (generateHeader f g).
Proof.
  intros Hdet Hnew. pose proof (determined_find f Hdet) as Hd. fold name value in Hd. clear Hdet. unfold generateHeader. fold name value.
  pose proof (static_find_match name value) as Hm.
  destruct (static_find name value) as [[i [b|]]|] eqn:E; cbn [static_match] in Hm; [|by destruct (Hd i)|].
  - destruct Hm as [-> Hi]. destruct (static_index _ _ _ Hi) as [Hb%small_index _].
    unfold encodeHeaderIndexed. rewrite hg_encodeInt_small by (done || lia).
    eapply writes_unchanged; [reflexivity|]. unfold decoded. fold name value. rewrite E.
    by apply parses_indexed.
  - pose proof (dt_find_spec name value (hg_table g)) as Hfind.
    destruct (dt_find name value (hg_table g)) as [[j b]|]; [|by apply literal_writes].
    destruct Hfind as (v & Hj & _). destruct (Hnew Hm). apply list_elem_of_fmap.
    exists (name, v). split; [done|]. by apply list_elem_of_lookup_2 in Hj.
Qed.

Lemma generateHeader_undetermined : ¬ determined f → generateHeader f g = Raise UndefinedBehaviour.
Proof. unfold determined, generateHeader. by destruct (static_find _ _) as [[i [b|]]|]. Qed.
End header.

(** The names that are not in the static table occur once, and not in the
    dynamic table. *)
Definition field_names (fs : list HpackField) : list bytes := (λ f, toLower (hf_name f)) <$> fs.

Fixpoint headers_fresh (fs : list HpackField) (seen : list bytes) : Prop :=
  match fs with
  | [] => True
  | f :: fs =>
      let n := toLower (hf_name f) in
      (n ∉ static_entries.*1 → n ∉ seen) ∧ headers_fresh fs (n :: seen)
  end.

Lemma headers_fresh_subseteq fs seen seen' :
  (∀ n, n ∈ seen' → n ∈ seen) → headers_fresh fs seen → headers_fresh fs seen'.
Proof.
  revert seen seen'; induction fs as [|f fs IH]; intros seen seen' Hsub; cbn [headers_fresh]; [done|].
  intros [Hn Hfs]. split; [intros Hs Hin; by apply (Hn Hs), Hsub|].
  eapply IH; [|exact Hfs]. intros n. rewrite !elem_of_cons. intros [->|Hin]; [by left|right; by apply Hsub].
Qed.

Lemma generateHeaders_parse ms fs : ∀ g fuel,
  dt_wf (hg_table g) → 0 ≤ dt_maxSize (hg_table g) → Forall field_small fs → Forall determined fs →
  headers_fresh fs (table_names (hg_table g)) →
  ∃ bs t', generateHeaders fs g = Ok (mkHpackGenerator t' (hg_block g ++ bs)) ∧
    ((length bs ≤ fuel)%nat → parse_loop fuel ms (hg_table g) bs = (t', decoded <$> fs, Ok ())).
Proof.
  induction fs as [|f fs IH]; intros g fuel Hwf Hm Hs Hdet Hfresh.
  { exists [], (hg_table g). split; [|by destruct fuel]. rewrite app_nil_r. by destruct g. }
  apply Forall_cons_1 in Hs as [Hf Hs]. apply Forall_cons_1 in Hdet as [Hd Hdet]. destruct Hfresh as [Hn Hfresh].
  destruct (generateHeader_writes ms f g Hwf Hm Hf Hd Hn) as (bs & t1 & E & (o & l & -> & Hp) & Hwf1 & Hm1 & Hnames).
  cbn [generateHeaders]. rewrite E. cbn [mbind result_bind].
  destruct (IH (mkHpackGenerator t1 (hg_block g ++ (o :: l))) (pred fuel)) as (bs' & t' & -> & Hparse);
    cbn [hg_table hg_block] in *; [done|lia|done..| |].
  { eapply headers_fresh_subseteq; [|exact Hfresh]. intros n [->|Hin]%Hnames; apply elem_of_cons; auto. }
  exists ((o :: l) ++ bs'), t'. rewrite <- app_assoc. split; [done|].
  rewrite length_app. cbn [length app]. intros Hfuel. destruct fuel as [|fuel]; [lia|].
  cbn [parse_loop]. rewrite Hp. cbn [pred] in Hparse. rewrite Hparse by lia. done.
Qed.

Lemma generateHeaders_undetermined (ms : Z) fs : ∀ g,
  dt_wf (hg_table g) → 0 ≤ dt_maxSize (hg_table g) → Forall field_small fs → ¬ Forall determined fs →
  headers_fresh fs (table_names (hg_table g)) → generateHeaders fs g = Raise UndefinedBehaviour.
Proof.
  induction fs as [|f fs IH]; intros g Hwf Hm Hs Hdet Hfresh; [by destruct Hdet|].
  apply Forall_cons_1 in Hs as [Hf Hs]. destruct Hfresh as [Hn Hfresh]. cbn [generateHeaders].
  destruct (decide (determined f)) as [Hd|Hd]; [|by rewrite generateHeader_undetermined].
  destruct (generateHeader_writes ms f g Hwf Hm Hf Hd Hn) as (bs & t1 & -> & _ & Hwf1 & Hm1 & Hnames). cbn [mbind result_bind].
  apply IH; cbn [hg_table]; [done|lia|done| |].
  - intros Hall. apply Hdet. by constructor.
  - eapply headers_fresh_subseteq; [|exact Hfresh]. intros n [->|Hin]%Hnames; apply elem_of_cons; auto.
Qed.

(** C24 (roundtrip). A header list, encoded by a generator whose dynamic table is the decoder's, in
    which every name either is in the static table together with its value, or is neither in the
    static table nor in the dynamic table nor in the list before it ([headers_fresh], [determined]),
    is read back in order, and leaves both tables equal again: names in lower case, values
    unchanged, the never-index flag unless the field is in the static table ([decoded]). If a name
    of the list is in the static table with other values only, [generateHeader] reads a variable
    that [StaticTable::find] has not assigned, and the behaviour is undefined. (A name that is in
    the dynamic table is written with an index that is one too small, [dynamic_match_misread].)
    Names and values are below [2^31] octets. *)
Theorem hpack_headers_roundtrip ms fs g :
  dt_wf (hg_table g) → 0 ≤ dt_maxSize (hg_table g) → Forall field_small fs →
  headers_fresh fs (table_names (hg_table g)) →
  (Forall determined fs → ∃ bs t', generateHeaders fs g = Ok (mkHpackGenerator t' (hg_block g ++ bs)) ∧
    hpack_parse ms (hg_table g) bs = (t', decoded <$> fs, Ok ())) ∧
  (¬ Forall determined fs → generateHeaders fs g = Raise UndefinedBehaviour).
Proof.
  intros Hwf Hm Hs Hfresh. split; [|intros Hdet; by apply (generateHeaders_undetermined ms)].
  intros Hdet. destruct (generateHeaders_parse ms fs g 0 Hwf Hm Hs Hdet Hfresh) as (bs & t' & E & _).
  destruct (generateHeaders_parse ms fs g (length bs) Hwf Hm Hs Hdet Hfresh) as (bs' & t'' & E' & Hp).
  rewrite E in E'. injection E' as <- Hbs. apply app_inv_head in Hbs as <-.
  exists bs, t'. split; [done|]. by apply Hp.
Qed.

Definition example_headers : list HpackField :=
  [mkHpackField (str ":method") (str "POST") false; mkHpackField (str "X-Test") (str "a") false;
   mkHpackField (str "Accept-Encoding") (str "gzip, deflate") true; mkHpackField (str "x-id") (str "7") true].

Lemma hpack_headers_roundtrip_witness :
  (∃ bs t', generateHeaders example_headers (newHpackGenerator 4096) = Ok (mkHpackGenerator t' ([] ++ bs)) ∧
    hpack_parse 4096 (newDynamicTable 4096) bs =
      (t', [mkHpackField (str ":method") (str "POST") false; mkHpackField (str "x-test") (str "a") false;
            mkHpackField (str "accept-encoding") (str "gzip, deflate") false; mkHpackField (str "x-id") (str "7") true],
       Ok ())) ∧
  generateHeaders [mkHpackField (str "Host") (str "x") false] (newHpackGenerator 4096) = Raise UndefinedBehaviour.
Proof.
  assert (Hwf : dt_wf (newDynamicTable 4096)) by (split; cbn; lia).
  assert (Hsmall : ∀ fs, forallb (λ f, (length (hf_name f) <=? 100)%nat && (length (hf_value f) <=? 100)%nat) fs = true → Forall field_small fs).
  { intros fs H. apply list.Forall_forall. intros f Hf. rewrite forallb_forall in H. apply list_elem_of_In in Hf. apply H, andb_true_iff in Hf as [H1%Nat.leb_le H2%Nat.leb_le].
    split; unfold small; lia. }
  split.
  - assert (Hfresh : headers_fresh example_headers (table_names (newDynamicTable 4096))).
    { cbn [headers_fresh example_headers]. repeat split; intros _; apply (bool_decide_unpack _); by vm_compute. }
    assert (Hdet : Forall determined example_headers) by (apply (bool_decide_unpack _); by vm_compute).
    destruct (hpack_headers_roundtrip 4096 example_headers (newHpackGenerator 4096) Hwf ltac:(cbn; lia) (Hsmall example_headers eq_refl) Hfresh) as [H _].
    destruct (H Hdet) as (bs & t' & E1 & E2). exists bs, t'. split; [exact E1|]. cbn [hg_table newHpackGenerator] in E2. rewrite E2. by vm_compute.
  - apply (proj2 (hpack_headers_roundtrip 4096 [mkHpackField (str "Host") (str "x") false] (newHpackGenerator 4096) Hwf ltac:(cbn; lia) (Hsmall [mkHpackField (str "Host") (str "x") false] eq_refl)
      (conj (λ _, not_elem_of_nil _) I))).
    intros H. apply Forall_cons_1 in H as [H _]. by vm_compute in H.
Defined.

(** A field found in the dynamic table (and not in the static
    one) is written with an index that is one too small: the decoder reads the
    next newer entry of the dynamic table or, for the newest entry, the last
    entry of the static table. *)
Theorem dynamic_match_misread ms f g i :
  static_find (toLower (hf_name f)) (hf_value f) = None →
  dt_find (toLower (hf_name f)) (hf_value f) (hg_table g) = Some (i, true) →
  (i < 66)%nat →
  ∃ o e, generateHeader f g = Ok (hg_write [o] g) ∧
    hpack_parse ms (hg_table g) [o] = (hg_table g, [mkHpackField e.1 e.2 false], Ok ()) ∧
    match i with
    | O => e = (str "www-authenticate", str "")
    | S j => dt_entries (hg_table g) !! j = Some e
    end.
Proof.
  intros Hs Hd Hi. pose proof (dt_find_spec (toLower (hf_name f)) (hf_value f) (hg_table g)) as Hf.
  rewrite Hd in Hf. destruct Hf as (v & Hj%lookup_lt_Some & _).
  assert (Hg : generateHeader f g = Ok (hg_write (encodeInt 1 7 (Z.of_nat i + 61)) g)).
  { unfold generateHeader. rewrite Hs, Hd. change (Z.of_nat static_length) with 61.
    unfold encodeHeaderIndexed. apply hg_encodeInt_small; [lia|unfold small; lia]. }
  assert (Ho : encodeInt 1 7 (Z.of_nat i + 61) = [128 + (Z.of_nat i + 61)]).
  { unfold encodeInt. change (maskLSB 7) with 127. rewrite (proj2 (Z.ltb_lt _ _)) by lia.
    change (Z.shiftl 1 7) with 128. destruct (more_octet (Z.of_nat i + 61)) as (E & _); [lia|].
    rewrite (unsigned_id 8 (Z.of_nat i + 61)) by auto with x0.
    by rewrite E, unsigned_id by auto with x0. }
  rewrite Ho in Hg.
  assert (Hparse : ∀ e, parser_at (Z.of_nat i + 61) (hg_table g) = Ok e →
    hpack_parse ms (hg_table g) [128 + (Z.of_nat i + 61)] = (hg_table g, [mkHpackField e.1 e.2 false], Ok ())).
  { intros e He. unfold hpack_parse. cbn [length parse_loop]. unfold parse_field.
    change (Z.shiftl 1 7) with 128. destruct (more_octet (Z.of_nat i + 61)) as (_ & _ & E); [lia|].
    rewrite E. cbn [negb]. unfold indexedHeaderField. rewrite <- Ho.
    pose proof (encodeInt_decode 1 7 (Z.of_nat i + 61) []) as Hdec. rewrite app_nil_r in Hdec.
    rewrite Hdec by (cbn; lia). cbn [mbind result_bind]. by rewrite He. }
  destruct i as [|j].
  - exists (128 + (Z.of_nat 0 + 61)), (str "www-authenticate", str ""). split_and!; [done| |done]. by apply Hparse.
  - destruct (lookup_lt_is_Some_2 (dt_entries (hg_table g)) j) as [e He]; [lia|].
    eexists _, e. split_and!; [exact Hg| |done]. apply Hparse. unfold parser_at.
    rewrite (proj2 (Z.eqb_neq _ _)) by lia. change static_length with 61%nat.
    rewrite decide_False, decide_True by lia.
    replace (Z.to_nat (Z.of_nat (S j) + 61 - 1) - 61)%nat with j by lia. unfold dt_at. by rewrite He.
Qed.

Definition example_generator : HpackGenerator :=
  mkHpackGenerator (mkDynamicTable 4096 70 [(str "x-b", str "2"); (str "x-a", str "1")]) [].

Lemma dynamic_match_misread_witness :
  ∃ o e, generateHeader (mkHpackField (str "x-a") (str "1") false) example_generator =
      Ok (hg_write [o] example_generator) ∧
    hpack_parse 4096 (hg_table example_generator) [o] =
      (hg_table example_generator, [mkHpackField e.1 e.2 false], Ok ()) ∧
    dt_entries (hg_table example_generator) !! 0%nat = Some e.
Proof.
  apply (dynamic_match_misread 4096 (mkHpackField (str "x-a") (str "1") false) example_generator 1);
    [by vm_compute|by vm_compute|lia].
Defined.

(** A table size update of 31 or more is written without the
    bits that mark it: a decoder takes the octets for a never-indexed literal
    field, so whatever follows, its table keeps its old limit. *)
Theorem size_update_misread n g :
  dt_wf (hg_table g) → 31 ≤ n < 2 ^ 31 →
  ∃ bs t, hg_setMaxSize n g = Ok (mkHpackGenerator t (hg_block g ++ 31 :: bs)) ∧ dt_maxSize t = n ∧
    ∀ ms td rest, parse_field ms td 31 (bs ++ rest) = literalHeaderNeverIndex td (31 :: bs ++ rest) ∧
      ∀ t' fs rest', parse_field ms td 31 (bs ++ rest) = Ok (t', fs, rest') → t' = td ∧ length fs = 1%nat.
Proof.
  intros Hwf Hn. unfold hg_setMaxSize, dt_setMaxSize.
  destruct (evict_spec (mkDynamicTable n (dt_size (hg_table g)) (dt_entries (hg_table g))))
    as (t & -> & Ht & _); [apply Hwf|cbn; lia|].
  cbn [mbind result_bind]. rewrite hg_encodeInt_small by (unfold small; lia).
  exists (encodeInt_loop 10 (n - 31)), t. split_and!.
  - unfold hg_write, encodeInt. change (maskLSB 5) with 31. by rewrite (proj2 (Z.ltb_ge _ _)) by lia.
  - done.
  - intros ms td rest. change (parse_field ms td 31 (encodeInt_loop 10 (n - 31) ++ rest))
      with (literalHeaderNeverIndex td (31 :: encodeInt_loop 10 (n - 31) ++ rest)).
    split; [done|]. intros t' fs rest' H. unfold literalHeaderNeverIndex, literalHeader in H.
    apply bind_Ok in H as ([i pos] & _ & H). destruct (negb (i =? 0)).
    + apply bind_Ok in H as (e & _ & H). apply bind_Ok in H as ([v r] & _ & H). by injection H as <- <- <-.
    + apply bind_Ok in H as ([m r'] & _ & H). apply bind_Ok in H as ([v r] & _ & H). by injection H as <- <- <-.
Qed.

Lemma size_update_misread_witness :
  ∃ bs t, hg_setMaxSize 4096 (newHpackGenerator 100) = Ok (mkHpackGenerator t ([] ++ 31 :: bs)) ∧
    dt_maxSize t = 4096 ∧
    ∀ ms td rest, parse_field ms td 31 (bs ++ rest) = literalHeaderNeverIndex td (31 :: bs ++ rest) ∧
      ∀ t' fs rest', parse_field ms td 31 (bs ++ rest) = Ok (t', fs, rest') → t' = td ∧ length fs = 1%nat.
Proof. apply (size_update_misread 4096 (newHpackGenerator 100)); [split; cbn; lia|lia]. Defined.
