(* ===== verification/Http1Parser.v ===== *)
(** * The HTTP/1 message parser

    [src/xzero/http/http1/Parser.cc]: the state machine behind
    [parseFragment]. The bytes received so far are one buffer [mem] (the
    connection's input buffer); a fragment is what it holds from some position
    on, so that the references the parser keeps across fragments
    ([method_], [value_], ...) are ranges of [mem]. One iteration of the
    [while] loop is a function of the current character; what the parser tells
    its listener is the list of events it returns.

    Characters are bytes; [isprint], [isdigit] and [isxdigit] are those of the
    "C" locale. Signed integers overflow into [UndefinedBehaviour]. *)
From S2P Require Import Prelude.

Inductive ParseMode := MESSAGE | REQUEST | RESPONSE.

(** [NO_STATE] is the value 0 that [lwsNext_] and [lwsNull_] are initialised
    with; it names no state. *)
Inductive State :=
  | NO_STATE
  | PROTOCOL_ERROR | MESSAGE_BEGIN
  | REQUEST_LINE_BEGIN | REQUEST_METHOD | REQUEST_ENTITY_BEGIN | REQUEST_ENTITY
  | REQUEST_PROTOCOL_BEGIN | REQUEST_PROTOCOL_T1 | REQUEST_PROTOCOL_T2 | REQUEST_PROTOCOL_P
  | REQUEST_PROTOCOL_SLASH | REQUEST_PROTOCOL_VERSION_MAJOR | REQUEST_PROTOCOL_VERSION_MINOR
  | REQUEST_LINE_LF | REQUEST_0_9_LF
  | STATUS_LINE_BEGIN | STATUS_PROTOCOL_BEGIN | STATUS_PROTOCOL_T1 | STATUS_PROTOCOL_T2
  | STATUS_PROTOCOL_P | STATUS_PROTOCOL_SLASH | STATUS_PROTOCOL_VERSION_MAJOR
  | STATUS_PROTOCOL_VERSION_MINOR | STATUS_CODE_BEGIN | STATUS_CODE
  | STATUS_MESSAGE_BEGIN | STATUS_MESSAGE | STATUS_MESSAGE_LF
  | HEADER_NAME_BEGIN | HEADER_NAME | HEADER_COLON | HEADER_VALUE_BEGIN | HEADER_VALUE
  | HEADER_VALUE_LF | HEADER_VALUE_END | HEADER_END_LF
  | LWS_BEGIN | LWS_LF | LWS_SP_HT_BEGIN | LWS_SP_HT
  | CONTENT_BEGIN | CONTENT | CONTENT_ENDLESS | CONTENT_CHUNK_SIZE_BEGIN | CONTENT_CHUNK_SIZE
  | CONTENT_CHUNK_LF1 | CONTENT_CHUNK_BODY | CONTENT_CHUNK_LF2 | CONTENT_CHUNK_CR3
  | CONTENT_CHUNK_LF3.

#[export] Instance ParseMode_eq_dec : EqDecision ParseMode.
Proof. solve_decision. Defined.
#[export] Instance State_eq_dec : EqDecision State.
Proof. solve_decision. Defined.

Inductive HttpVersion := UNKNOWN | VERSION_0_9 | VERSION_1_0 | VERSION_1_1 | VERSION_2_0.

(** ** References into the buffer *)

Record BufRef := mkRef { ref_off : nat; ref_len : nat }.
Definition noRef : BufRef := mkRef 0 0.
Definition shr (n : nat) (r : BufRef) : BufRef := mkRef (ref_off r) (ref_len r + n).
Definition ref_clear (r : BufRef) : BufRef := mkRef (ref_off r) 0.
Definition ref_empty (r : BufRef) : bool := bool_decide (ref_len r = 0%nat).
Definition deref (mem : bytes) (r : BufRef) : bytes := take (ref_len r) (drop (ref_off r) mem).

Definition iequals (a b : bytes) : bool := bool_decide (toLower a = toLower b).

(** [BufferBase::toInt]: the digits after an optional sign. *)
Fixpoint toInt_digits (val : Z) (s : bytes) : result Z :=
  match s with
  | [] => Ok val
  | c :: s =>
      if (c <? 48) || (57 <? c) then Ok val else
      let val' := val * 10 + (c - 48) in
      if 2 ^ 31 <=? val' then Raise UndefinedBehaviour else toInt_digits val' s
  end.

Definition toInt (s : bytes) : result Z :=
  match s with
  | [] => Ok 0
  | c :: s' =>
      if c =? 45 then val ← toInt_digits 0 s'; Ok (- val)
      else if c =? 43 then toInt_digits 0 s'
      else toInt_digits 0 s
  end.

(** ** State *)

Record Http1Parser := mkHttp1Parser {
  p_mode : ParseMode;
  p_state : State;
  p_bytesReceived : Z;
  p_lwsNext : State;
  p_lwsNull : State;
  p_method : BufRef;
  p_entity : BufRef;
  p_versionMajor : Z;
  p_versionMinor : Z;
  p_code : Z;
  p_message : BufRef;
  p_name : BufRef;
  p_value : BufRef;
  p_chunked : bool;
  p_contentLength : Z;
}.

Definition newHttp1Parser (mode : ParseMode) : Http1Parser :=
  mkHttp1Parser mode MESSAGE_BEGIN 0 NO_STATE NO_STATE noRef noRef 0 0 0 noRef noRef noRef false (-1).

Definition with_state (x : State) (p : Http1Parser) : Http1Parser :=
  mkHttp1Parser (p_mode p) x (p_bytesReceived p) (p_lwsNext p) (p_lwsNull p) (p_method p)
    (p_entity p) (p_versionMajor p) (p_versionMinor p) (p_code p) (p_message p) (p_name p)
    (p_value p) (p_chunked p) (p_contentLength p).
Definition with_bytesReceived (x : Z) (p : Http1Parser) : Http1Parser :=
  mkHttp1Parser (p_mode p) (p_state p) x (p_lwsNext p) (p_lwsNull p) (p_method p) (p_entity p)
    (p_versionMajor p) (p_versionMinor p) (p_code p) (p_message p) (p_name p) (p_value p)
    (p_chunked p) (p_contentLength p).
Definition with_lwsNext (x : State) (p : Http1Parser) : Http1Parser :=
  mkHttp1Parser (p_mode p) (p_state p) (p_bytesReceived p) x (p_lwsNull p) (p_method p) (p_entity p)
    (p_versionMajor p) (p_versionMinor p) (p_code p) (p_message p) (p_name p) (p_value p)
    (p_chunked p) (p_contentLength p).
Definition with_lwsNull (x : State) (p : Http1Parser) : Http1Parser :=
  mkHttp1Parser (p_mode p) (p_state p) (p_bytesReceived p) (p_lwsNext p) x (p_method p) (p_entity p)
    (p_versionMajor p) (p_versionMinor p) (p_code p) (p_message p) (p_name p) (p_value p)
    (p_chunked p) (p_contentLength p).
Definition with_method (x : BufRef) (p : Http1Parser) : Http1Parser :=
  mkHttp1Parser (p_mode p) (p_state p) (p_bytesReceived p) (p_lwsNext p) (p_lwsNull p) x
    (p_entity p) (p_versionMajor p) (p_versionMinor p) (p_code p) (p_message p) (p_name p)
    (p_value p) (p_chunked p) (p_contentLength p).
Definition with_entity (x : BufRef) (p : Http1Parser) : Http1Parser :=
  mkHttp1Parser (p_mode p) (p_state p) (p_bytesReceived p) (p_lwsNext p) (p_lwsNull p) (p_method p)
    x (p_versionMajor p) (p_versionMinor p) (p_code p) (p_message p) (p_name p) (p_value p)
    (p_chunked p) (p_contentLength p).
Definition with_versionMajor (x : Z) (p : Http1Parser) : Http1Parser :=
  mkHttp1Parser (p_mode p) (p_state p) (p_bytesReceived p) (p_lwsNext p) (p_lwsNull p) (p_method p)
    (p_entity p) x (p_versionMinor p) (p_code p) (p_message p) (p_name p) (p_value p) (p_chunked p)
    (p_contentLength p).
Definition with_versionMinor (x : Z) (p : Http1Parser) : Http1Parser :=
  mkHttp1Parser (p_mode p) (p_state p) (p_bytesReceived p) (p_lwsNext p) (p_lwsNull p) (p_method p)
    (p_entity p) (p_versionMajor p) x (p_code p) (p_message p) (p_name p) (p_value p) (p_chunked p)
    (p_contentLength p).
Definition with_code (x : Z) (p : Http1Parser) : Http1Parser :=
  mkHttp1Parser (p_mode p) (p_state p) (p_bytesReceived p) (p_lwsNext p) (p_lwsNull p) (p_method p)
    (p_entity p) (p_versionMajor p) (p_versionMinor p) x (p_message p) (p_name p) (p_value p)
    (p_chunked p) (p_contentLength p).
Definition with_message (x : BufRef) (p : Http1Parser) : Http1Parser :=
  mkHttp1Parser (p_mode p) (p_state p) (p_bytesReceived p) (p_lwsNext p) (p_lwsNull p) (p_method p)
    (p_entity p) (p_versionMajor p) (p_versionMinor p) (p_code p) x (p_name p) (p_value p)
    (p_chunked p) (p_contentLength p).
Definition with_name (x : BufRef) (p : Http1Parser) : Http1Parser :=
  mkHttp1Parser (p_mode p) (p_state p) (p_bytesReceived p) (p_lwsNext p) (p_lwsNull p) (p_method p)
    (p_entity p) (p_versionMajor p) (p_versionMinor p) (p_code p) (p_message p) x (p_value p)
    (p_chunked p) (p_contentLength p).
Definition with_value (x : BufRef) (p : Http1Parser) : Http1Parser :=
  mkHttp1Parser (p_mode p) (p_state p) (p_bytesReceived p) (p_lwsNext p) (p_lwsNull p) (p_method p)
    (p_entity p) (p_versionMajor p) (p_versionMinor p) (p_code p) (p_message p) (p_name p) x
    (p_chunked p) (p_contentLength p).
Definition with_chunked (x : bool) (p : Http1Parser) : Http1Parser :=
  mkHttp1Parser (p_mode p) (p_state p) (p_bytesReceived p) (p_lwsNext p) (p_lwsNull p) (p_method p)
    (p_entity p) (p_versionMajor p) (p_versionMinor p) (p_code p) (p_message p) (p_name p)
    (p_value p) x (p_contentLength p).
Definition with_contentLength (x : Z) (p : Http1Parser) : Http1Parser :=
  mkHttp1Parser (p_mode p) (p_state p) (p_bytesReceived p) (p_lwsNext p) (p_lwsNull p) (p_method p)
    (p_entity p) (p_versionMajor p) (p_versionMinor p) (p_code p) (p_message p) (p_name p)
    (p_value p) (p_chunked p) x.

(** [Parser::reset]. *)
Definition http1_reset (p : Http1Parser) : Http1Parser := with_bytesReceived 0 (with_state MESSAGE_BEGIN p).

Definition isContentExpected (p : Http1Parser) : bool :=
  (0 <? p_contentLength p) || p_chunked p ||
  ((p_contentLength p <? 0) && negb (bool_decide (p_mode p = REQUEST))).

(** ** Characters *)

Definition CR : Z := 13.
Definition LF : Z := 10.
Definition SP : Z := 32.
Definition HT : Z := 9.

Definition isChar (c : Z) : bool := c <=? 127.
Definition isControl (c : Z) : bool := (c <=? 31) || (c =? 127).
Definition separators : bytes := [40; 41; 60; 62; 64; 44; 59; 58; 92; 34; 47; 91; 93; 63; 61; 123; 125; SP; HT].
Definition isSeparator (c : Z) : bool := bool_decide (c ∈ separators).
Definition isToken (c : Z) : bool := isChar c && negb (isControl c || isSeparator c).
Definition isText (c : Z) : bool := negb (isControl c) || (c =? SP) || (c =? HT).
Definition isprint (c : Z) : bool := (32 <=? c) && (c <=? 126).
Definition isdigit (c : Z) : bool := (48 <=? c) && (c <=? 57).
Definition isxdigit (c : Z) : bool :=
  isdigit c || ((97 <=? c) && (c <=? 102)) || ((65 <=? c) && (c <=? 70)).

(** ** Events and outcomes *)

Inductive http_event :=
  | RequestBegin (method entity : bytes) (version : HttpVersion)
  | ResponseBegin (version : HttpVersion) (code : Z) (text : bytes)
  | MessageBegin
  | MessageHeader (name value : bytes)
  | MessageHeaderEnd
  | MessageContent (chunk : bytes)
  | MessageEnd
  | ProtocolErrorEvent (status : Z).

(** Whether the loop goes on, [goto done], or an exception leaves it. *)
Inductive control := Continue | Done | Throw (e : exn).

(** The new state, the number of characters consumed ([nextChar]), the events
    in order and the control. *)
Record step_out := mkOut {
  o_parser : Http1Parser;
  o_consumed : nat;
  o_events : list http_event;
  o_control : control;
}.

Definition next (s : State) (p : Http1Parser) : step_out := mkOut (with_state s p) 1 [] Continue.
Definition stay (s : State) (p : Http1Parser) : step_out := mkOut (with_state s p) 0 [] Continue.
Definition bad (p : Http1Parser) : step_out :=
  mkOut (with_state PROTOCOL_ERROR p) 0 [ProtocolErrorEvent 400] Continue.
Definition overflow (p : Http1Parser) : step_out := mkOut p 0 [] (Throw UndefinedBehaviour).

(** The states that wait for one particular character. *)
Definition expect (c x : Z) (s : State) (p : Http1Parser) : step_out :=
  if c =? x then next s p else bad p.

Definition make_version (major minor : Z) : HttpVersion :=
  if major =? 0 then if minor =? 9 then VERSION_0_9 else UNKNOWN
  else if major =? 1 then if minor =? 0 then VERSION_1_0 else if minor =? 1 then VERSION_1_1 else UNKNOWN
  else UNKNOWN.

(** [onMessageBegin] with a version: the event, or the exception. *)
Definition begin_message (v : HttpVersion) (ev : http_event) (p : Http1Parser) : step_out :=
  match v with
  | UNKNOWN => mkOut p 1 [] (Throw HttpVersionNotSupported)
  | _ => mkOut p 1 [ev] Continue
  end.

(** [v * 10 + c - '0'] in [int]. *)
Definition int_digit (v c : Z) : option Z := if v * 10 + c <? 2 ^ 31 then Some (v * 10 + c - 48) else None.

(** [v * 16 + ... ] in [ssize_t], for a hexadecimal digit. *)
Definition hex_digit (v c : Z) : option Z :=
  let d := if isdigit c then c else c + 10 in
  let zero := if isdigit c then 48 else if 97 <=? c then 97 else 65 in
  if v * 16 + d <? 2 ^ 63 then Some (v * 16 + d - zero) else None.

(** ** The start of a message *)

Definition step_message_begin (p : Http1Parser) : step_out :=
  let p := with_contentLength (-1) p in
  match p_mode p with
  | REQUEST => stay REQUEST_LINE_BEGIN (with_versionMajor 0 (with_versionMinor 0 p))
  | RESPONSE => stay STATUS_LINE_BEGIN (with_code 0 (with_versionMajor 0 (with_versionMinor 0 p)))
  | MESSAGE => mkOut (with_state HEADER_NAME_BEGIN p) 0 [MessageBegin] Continue
  end.

(** ** Request line *)

Definition step_request (mem : bytes) (pos : nat) (c : Z) (p : Http1Parser) : step_out :=
  match p_state p with
  | REQUEST_LINE_BEGIN =>
      if isToken c then next REQUEST_METHOD (with_method (mkRef pos 1) p) else bad p
  | REQUEST_METHOD =>
      if c =? SP then next REQUEST_ENTITY_BEGIN p
      else if isToken c then next REQUEST_METHOD (with_method (shr 1 (p_method p)) p)
      else bad p
  | REQUEST_ENTITY_BEGIN =>
      if isprint c then next REQUEST_ENTITY (with_entity (mkRef pos 1) p) else bad p
  | REQUEST_ENTITY =>
      if c =? SP then next REQUEST_PROTOCOL_BEGIN p
      else if isprint c then next REQUEST_ENTITY (with_entity (shr 1 (p_entity p)) p)
      else if c =? CR then next REQUEST_0_9_LF p
      else bad p
  | REQUEST_0_9_LF =>
      if c =? LF then
        mkOut p 0 [RequestBegin (deref mem (p_method p)) (deref mem (p_entity p)) VERSION_0_9;
                   MessageHeaderEnd; MessageEnd] Done
      else bad p
  | REQUEST_PROTOCOL_BEGIN => expect c 72 REQUEST_PROTOCOL_T1 p
  | REQUEST_PROTOCOL_T1 => expect c 84 REQUEST_PROTOCOL_T2 p
  | REQUEST_PROTOCOL_T2 => expect c 84 REQUEST_PROTOCOL_P p
  | REQUEST_PROTOCOL_P => expect c 80 REQUEST_PROTOCOL_SLASH p
  | REQUEST_PROTOCOL_SLASH => expect c 47 REQUEST_PROTOCOL_VERSION_MAJOR p
  | REQUEST_PROTOCOL_VERSION_MAJOR =>
      if c =? 46 then next REQUEST_PROTOCOL_VERSION_MINOR p
      else if negb (isdigit c) then bad p
      else match int_digit (p_versionMajor p) c with
           | Some v => next REQUEST_PROTOCOL_VERSION_MAJOR (with_versionMajor v p)
           | None => overflow p
           end
  | REQUEST_PROTOCOL_VERSION_MINOR =>
      if c =? CR then next REQUEST_LINE_LF p
      else if negb (isdigit c) then bad p
      else match int_digit (p_versionMinor p) c with
           | Some v => next REQUEST_PROTOCOL_VERSION_MINOR (with_versionMinor v p)
           | None => overflow p
           end
  | REQUEST_LINE_LF =>
      if c =? LF then
        let version := make_version (p_versionMajor p) (p_versionMinor p) in
        begin_message version (RequestBegin (deref mem (p_method p)) (deref mem (p_entity p)) version)
          (with_state HEADER_NAME_BEGIN p)
      else bad p
  | _ => mkOut p 0 [] Done
  end.

(** ** Status line *)

Definition step_status_code (c : Z) (p : Http1Parser) : step_out :=
  if isdigit c then
    match int_digit (p_code p) c with
    | Some v => next STATUS_CODE (with_code v p)
    | None => overflow p
    end
  else if c =? SP then next STATUS_MESSAGE_BEGIN p
  else if c =? CR then next STATUS_MESSAGE_LF p
  else bad p.

Definition step_status (mem : bytes) (pos : nat) (c : Z) (p : Http1Parser) : step_out :=
  match p_state p with
  | STATUS_LINE_BEGIN | STATUS_PROTOCOL_BEGIN => expect c 72 STATUS_PROTOCOL_T1 p
  | STATUS_PROTOCOL_T1 => expect c 84 STATUS_PROTOCOL_T2 p
  | STATUS_PROTOCOL_T2 => expect c 84 STATUS_PROTOCOL_P p
  | STATUS_PROTOCOL_P => expect c 80 STATUS_PROTOCOL_SLASH p
  | STATUS_PROTOCOL_SLASH => expect c 47 STATUS_PROTOCOL_VERSION_MAJOR p
  | STATUS_PROTOCOL_VERSION_MAJOR =>
      if c =? 46 then next STATUS_PROTOCOL_VERSION_MINOR p
      else if negb (isdigit c) then bad p
      else match int_digit (p_versionMajor p) c with
           | Some v => next STATUS_PROTOCOL_VERSION_MAJOR (with_versionMajor v p)
           | None => overflow p
           end
  | STATUS_PROTOCOL_VERSION_MINOR =>
      if c =? SP then next STATUS_CODE_BEGIN p
      else if negb (isdigit c) then bad p
      else match int_digit (p_versionMinor p) c with
           | Some v => next STATUS_PROTOCOL_VERSION_MINOR (with_versionMinor v p)
           | None => overflow p
           end
  | STATUS_CODE_BEGIN =>
      if negb (isdigit c) then bad p else step_status_code c (with_state STATUS_CODE p)
  | STATUS_CODE => step_status_code c p
  | STATUS_MESSAGE_BEGIN =>
      if isText c then next STATUS_MESSAGE (with_message (mkRef pos 1) p) else bad p
  | STATUS_MESSAGE =>
      if isText c && negb (c =? CR) && negb (c =? LF)
      then next STATUS_MESSAGE (with_message (shr 1 (p_message p)) p)
      else if c =? CR then next STATUS_MESSAGE_LF p
      else bad p
  | STATUS_MESSAGE_LF =>
      if c =? LF then
        let version := make_version (p_versionMajor p) (p_versionMinor p) in
        begin_message version (ResponseBegin version (p_code p) (deref mem (p_message p)))
          (with_state HEADER_NAME_BEGIN p)
      else bad p
  | _ => mkOut p 0 [] Done
  end.

(** ** Header fields *)

(** [HEADER_VALUE_END]: the field is complete. *)
Definition finish_header (mem : bytes) (p : Http1Parser) : step_out :=
  let name := deref mem (p_name p) in
  let value := deref mem (p_value p) in
  let finish p evs :=
    mkOut (with_state HEADER_NAME_BEGIN
             (with_value (ref_clear (p_value p)) (with_name (ref_clear (p_name p)) p))) 0 evs Continue in
  if iequals name (str "Content-Length") then
    match toInt value with
    | Ok n => finish (with_contentLength n p) [MessageHeader name value]
    | Raise e => mkOut p 0 [] (Throw e)
    end
  else if iequals name (str "Transfer-Encoding") then
    if iequals value (str "chunked") then finish (with_chunked true p) []
    else finish p [MessageHeader name value]
  else finish p [MessageHeader name value].

Definition step_header (mem : bytes) (pos : nat) (c : Z) (p : Http1Parser) : step_out :=
  match p_state p with
  | HEADER_NAME_BEGIN =>
      if isToken c then next HEADER_NAME (with_name (mkRef pos 1) p)
      else if c =? CR then next HEADER_END_LF p
      else bad p
  | HEADER_NAME =>
      if isToken c then next HEADER_NAME (with_name (shr 1 (p_name p)) p)
      else if c =? 58 then next LWS_BEGIN (with_lwsNext HEADER_VALUE_BEGIN (with_lwsNull HEADER_VALUE_END p))
      else if c =? CR then next LWS_LF (with_lwsNext HEADER_COLON (with_lwsNull PROTOCOL_ERROR p))
      else bad p
  | HEADER_COLON =>
      if c =? 58 then next LWS_BEGIN (with_lwsNext HEADER_VALUE_BEGIN (with_lwsNull HEADER_VALUE_END p))
      else bad p
  | HEADER_VALUE_BEGIN =>
      if isText c then next HEADER_VALUE (with_value (mkRef pos 1) p)
      else if c =? CR then next HEADER_VALUE_LF p
      else bad p
  | HEADER_VALUE =>
      if c =? CR then next LWS_LF (with_lwsNext HEADER_VALUE (with_lwsNull HEADER_VALUE_END p))
      else if isText c then next HEADER_VALUE (with_value (shr 1 (p_value p)) p)
      else bad p
  | HEADER_VALUE_LF => expect c LF HEADER_VALUE_END p
  | HEADER_VALUE_END => finish_header mem p
  | HEADER_END_LF =>
      if c =? LF then
        if isContentExpected p
        then mkOut (with_state CONTENT_BEGIN p) 1 [MessageHeaderEnd] Continue
        else mkOut (with_state MESSAGE_BEGIN p) 1 [MessageHeaderEnd; MessageEnd] Done
      else bad p
  | _ => mkOut p 0 [] Done
  end.

(** Linear white space inside a header field. *)
Definition step_lws (c : Z) (p : Http1Parser) : step_out :=
  match p_state p with
  | LWS_BEGIN =>
      if c =? CR then next LWS_LF p
      else if (c =? SP) || (c =? HT) then next LWS_SP_HT p
      else if isprint c then stay (p_lwsNext p) p
      else bad p
  | LWS_LF => expect c LF LWS_SP_HT_BEGIN p
  | LWS_SP_HT_BEGIN =>
      if (c =? SP) || (c =? HT) then
        next LWS_SP_HT (if ref_empty (p_value p) then p else with_value (shr 3 (p_value p)) p)
      else
        mkOut (with_state (p_lwsNull p) p) 0
          (if bool_decide (p_lwsNull p = PROTOCOL_ERROR) then [ProtocolErrorEvent 400] else []) Continue
  | LWS_SP_HT =>
      if (c =? SP) || (c =? HT) then
        next LWS_SP_HT (if ref_empty (p_value p) then p else with_value (shr 1 (p_value p)) p)
      else stay (p_lwsNext p) p
  | _ => mkOut p 0 [] Done
  end.

(** ** Content *)

(** [std::min(static_cast<size_t>(contentLength_), chunk.size() - offset)]. *)
Definition chunk_size (mem : bytes) (pos : nat) (p : Http1Parser) : nat :=
  Z.to_nat (Z.min (u64 (p_contentLength p)) (Z.of_nat (length mem) - Z.of_nat pos)).

(** The next [n] characters are content. *)
Definition pass_content (mem : bytes) (pos n : nat) (p : Http1Parser) (s : State) (evs : list http_event)
    (ctl : control) : step_out :=
  mkOut (with_state s (with_contentLength (p_contentLength p - Z.of_nat n) p)) n
    (MessageContent (deref mem (mkRef pos n)) :: evs) ctl.

Definition step_chunk_size (c : Z) (p : Http1Parser) : step_out :=
  if c =? CR then next CONTENT_CHUNK_LF1 p
  else if isxdigit c then
    match hex_digit (p_contentLength p) c with
    | Some v => next CONTENT_CHUNK_SIZE (with_contentLength v p)
    | None => overflow p
    end
  else bad p.

Definition step_content (mem : bytes) (pos : nat) (c : Z) (p : Http1Parser) : step_out :=
  match p_state p with
  | CONTENT_BEGIN =>
      if p_chunked p then stay CONTENT_CHUNK_SIZE_BEGIN p
      else if 0 <=? p_contentLength p then stay CONTENT p
      else stay CONTENT_ENDLESS p
  | CONTENT_ENDLESS =>
      let n := (length mem - pos)%nat in
      mkOut p n [MessageContent (deref mem (mkRef pos n))] Continue
  | CONTENT =>
      let n := chunk_size mem pos p in
      if p_contentLength p - Z.of_nat n =? 0
      then pass_content mem pos n p MESSAGE_BEGIN [MessageEnd] Done
      else pass_content mem pos n p CONTENT [] Continue
  | CONTENT_CHUNK_SIZE_BEGIN =>
      if negb (isxdigit c) then bad p
      else step_chunk_size c (with_contentLength 0 (with_state CONTENT_CHUNK_SIZE p))
  | CONTENT_CHUNK_SIZE => step_chunk_size c p
  | CONTENT_CHUNK_LF1 =>
      if negb (c =? LF) then bad p
      else if negb (p_contentLength p =? 0) then next CONTENT_CHUNK_BODY p
      else next CONTENT_CHUNK_CR3 p
  | CONTENT_CHUNK_BODY =>
      if negb (p_contentLength p =? 0)
      then pass_content mem pos (chunk_size mem pos p) p CONTENT_CHUNK_BODY [] Continue
      else expect c CR CONTENT_CHUNK_LF2 p
  | CONTENT_CHUNK_LF2 => expect c LF CONTENT_CHUNK_SIZE p
  | CONTENT_CHUNK_CR3 => expect c CR CONTENT_CHUNK_LF3 p
  | CONTENT_CHUNK_LF3 =>
      if negb (c =? LF) then bad p
      else mkOut (with_state MESSAGE_BEGIN p) 1 [MessageEnd] Done
  | _ => mkOut p 0 [] Done
  end.

(** ** One iteration, and the loop *)

Definition http1_step (mem : bytes) (pos : nat) (c : Z) (p : Http1Parser) : step_out :=
  match p_state p with
  | NO_STATE | PROTOCOL_ERROR => mkOut p 0 [] Done
  | MESSAGE_BEGIN => step_message_begin p
  | REQUEST_LINE_BEGIN | REQUEST_METHOD | REQUEST_ENTITY_BEGIN | REQUEST_ENTITY
  | REQUEST_PROTOCOL_BEGIN | REQUEST_PROTOCOL_T1 | REQUEST_PROTOCOL_T2 | REQUEST_PROTOCOL_P
  | REQUEST_PROTOCOL_SLASH | REQUEST_PROTOCOL_VERSION_MAJOR | REQUEST_PROTOCOL_VERSION_MINOR
  | REQUEST_LINE_LF | REQUEST_0_9_LF => step_request mem pos c p
  | STATUS_LINE_BEGIN | STATUS_PROTOCOL_BEGIN | STATUS_PROTOCOL_T1 | STATUS_PROTOCOL_T2
  | STATUS_PROTOCOL_P | STATUS_PROTOCOL_SLASH | STATUS_PROTOCOL_VERSION_MAJOR
  | STATUS_PROTOCOL_VERSION_MINOR | STATUS_CODE_BEGIN | STATUS_CODE
  | STATUS_MESSAGE_BEGIN | STATUS_MESSAGE | STATUS_MESSAGE_LF => step_status mem pos c p
  | HEADER_NAME_BEGIN | HEADER_NAME | HEADER_COLON | HEADER_VALUE_BEGIN | HEADER_VALUE
  | HEADER_VALUE_LF | HEADER_VALUE_END | HEADER_END_LF => step_header mem pos c p
  | LWS_BEGIN | LWS_LF | LWS_SP_HT_BEGIN | LWS_SP_HT => step_lws c p
  | CONTENT_BEGIN | CONTENT | CONTENT_ENDLESS | CONTENT_CHUNK_SIZE_BEGIN | CONTENT_CHUNK_SIZE
  | CONTENT_CHUNK_LF1 | CONTENT_CHUNK_BODY | CONTENT_CHUNK_LF2 | CONTENT_CHUNK_CR3
  | CONTENT_CHUNK_LF3 => step_content mem pos c p
  end.

(** What [parseFragment] leaves behind: the parser, the position, the events
    and the exception, if one was thrown. *)
Abbreviation parse_out := (Http1Parser * nat * list http_event * option exn)%type.

(** After the last character: a message without a body is complete. *)
Definition end_of_fragment (pos : nat) (p : Http1Parser) : parse_out :=
  if bool_decide (p_state p = CONTENT_BEGIN) && (p_contentLength p <? 0) && negb (p_chunked p) &&
     negb (bool_decide (p_mode p = MESSAGE))
  then (with_state MESSAGE_BEGIN p, pos, [MessageEnd], None)
  else (p, pos, [], None).

Definition receive (n : nat) (p : Http1Parser) : Http1Parser :=
  with_bytesReceived (p_bytesReceived p + Z.of_nat n) p.

(** The [while] loop; the fuel bounds the iterations, running out of it would
    be [Blocked]. *)
Fixpoint http1_loop (fuel : nat) (mem : bytes) (pos : nat) (p : Http1Parser) : parse_out :=
  match mem !! pos, fuel with
  | None, _ => end_of_fragment pos p
  | Some _, O => (p, pos, [], Some Blocked)
  | Some c, S fuel =>
      let out := http1_step mem pos c p in
      let p' := receive (o_consumed out) (o_parser out) in
      let pos' := (pos + o_consumed out)%nat in
      match o_control out with
      | Done => (p', pos', o_events out, None)
      | Throw e => (p', pos', o_events out, Some e)
      | Continue =>
          let '(p'', pos'', evs, x) := http1_loop fuel mem pos' p' in
          (p'', pos'', o_events out ++ evs, x)
      end
  end.

(** [parseFragment] on the bytes of [mem] from position [pos] on. At most three
    iterations in a row consume nothing before one that does or ends the loop. *)
Definition parseFragment (mem : bytes) (pos : nat) (p : Http1Parser) : parse_out :=
  http1_loop (4 * (length mem - pos) + 4) mem pos p.
