(* ===== verification/Http1Safety.v ===== *)
(** * The HTTP/1 parser on arbitrary input

    Whatever bytes arrive, in whatever fragments: the loop of [parseFragment]
    ends, never reads outside the buffer, and the references it hands out lie in
    the part of the buffer already read. A protocol error is final. *)
From S2P Require Import Prelude Http1Parser.

Definition ref_end (r : BufRef) : nat := (ref_off r + ref_len r)%nat.

(** Between the end of a header value and the continuation line it may have:
    CR, LF. *)
Definition value_gap (s : State) : nat :=
  match s with LWS_LF => 1 | LWS_SP_HT_BEGIN => 2 | _ => 0 end.

Definition refs_ok (pos : nat) (p : Http1Parser) : Prop :=
  (ref_end (p_method p) ≤ pos ∧ ref_end (p_entity p) ≤ pos ∧ ref_end (p_message p) ≤ pos ∧
   ref_end (p_name p) ≤ pos ∧ ref_end (p_value p) + value_gap (p_state p) ≤ pos)%nat.

(** The states white space leads to. *)
Definition lws_ok (p : Http1Parser) : Prop :=
  match p_state p with
  | LWS_BEGIN | LWS_LF | LWS_SP_HT_BEGIN | LWS_SP_HT =>
      (p_lwsNext p = HEADER_VALUE_BEGIN ∨ p_lwsNext p = HEADER_COLON ∨ p_lwsNext p = HEADER_VALUE) ∧
      (p_lwsNull p = HEADER_VALUE_END ∨ p_lwsNull p = PROTOCOL_ERROR)
  | _ => True
  end.

Definition content_ok (p : Http1Parser) : Prop :=
  - 2 ^ 63 ≤ p_contentLength p < 2 ^ 63 ∧
  match p_state p with
  | CONTENT | CONTENT_CHUNK_SIZE | CONTENT_CHUNK_LF1 | CONTENT_CHUNK_BODY | CONTENT_CHUNK_LF2
  | CONTENT_CHUNK_CR3 | CONTENT_CHUNK_LF3 => 0 ≤ p_contentLength p
  | _ => True
  end.

(** The invariant of a parser that has read up to position [pos]. *)
Definition parser_wf (pos : nat) (p : Http1Parser) : Prop :=
  refs_ok pos p ∧ lws_ok p ∧ content_ok p.

(** How many iterations without progress a state allows. *)
Definition rank (s : State) : nat :=
  match s with
  | NO_STATE | PROTOCOL_ERROR => 0
  | MESSAGE_BEGIN | HEADER_VALUE_END | LWS_BEGIN | LWS_SP_HT | CONTENT_BEGIN => 2
  | LWS_SP_HT_BEGIN => 3
  | _ => 1
  end.

Lemma toInt_digits_bound val s n :
  0 ≤ val < 2 ^ 31 → toInt_digits val s = Ok n → 0 ≤ n < 2 ^ 31.
Proof.
  revert val; induction s as [|c s IH]; intros val Hv; cbn [toInt_digits]; [by intros [= <-]|].
  destruct (Z.ltb_spec c 48), (Z.ltb_spec 57 c); cbn [orb]; try (by intros [= <-]).
  destruct (Z.leb_spec (2 ^ 31) (val * 10 + (c - 48))); [done|]. apply IH. lia.
Qed.

Lemma toInt_bound s n : toInt s = Ok n → - 2 ^ 31 < n < 2 ^ 31.
Proof.
  unfold toInt. destruct s as [|c s]; [intros [= <-]; lia|]. destruct (c =? 45); [|destruct (c =? 43)].
  - intros (v & H%toInt_digits_bound & [= <-])%bind_Ok; lia.
  - intros H%toInt_digits_bound; lia.
  - intros H%toInt_digits_bound; lia.
Qed.

Lemma toInt_digits_raise val s e : toInt_digits val s = Raise e → e = UndefinedBehaviour.
Proof.
  revert val; induction s as [|c s IH]; intros val; cbn [toInt_digits]; [done|].
  destruct (_ || _); [done|]. destruct (_ <=? _); [by intros [= <-]|apply IH].
Qed.

Lemma toInt_raise s e : toInt s = Raise e → e = UndefinedBehaviour.
Proof.
  unfold toInt. destruct s as [|c s]; [done|].
  destruct (c =? 45); [|destruct (c =? 43); apply toInt_digits_raise].
  destruct (toInt_digits 0 s) eqn:E; cbn; [done|]. intros [= <-]. by apply toInt_digits_raise in E.
Qed.

Lemma int_digit_bound v c n : int_digit v c = Some n → n = v * 10 + c - 48 ∧ v * 10 + c < 2 ^ 31.
Proof. unfold int_digit. destruct (Z.ltb_spec (v * 10 + c) (2 ^ 31)); [|done]. by intros [= <-]. Qed.

Lemma hex_digit_bound v c n :
  isxdigit c = true → 0 ≤ v → hex_digit v c = Some n → 0 ≤ n < 2 ^ 63.
Proof.
  unfold hex_digit, isxdigit, isdigit. intros Hx Hv.
  destruct (Z.leb_spec 48 c), (Z.leb_spec c 57), (Z.leb_spec 97 c), (Z.leb_spec c 102),
    (Z.leb_spec 65 c), (Z.leb_spec c 70); cbn [andb orb] in *; try done;
    match goal with |- context [?a <? 2 ^ 63] => destruct (Z.ltb_spec a (2 ^ 63)) end; intros [= <-]; lia.
Qed.

Lemma chunk_size_bound mem pos c p :
  mem !! pos = Some c → 0 ≤ p_contentLength p < 2 ^ 63 →
  let n := chunk_size mem pos p in
  (pos + n ≤ length mem)%nat ∧ Z.of_nat n ≤ p_contentLength p ∧
  (p_contentLength p ≠ 0 → (1 ≤ n)%nat).
Proof.
  intros Hc%lookup_lt_Some Hp. unfold chunk_size. rewrite unsigned_id by auto with x0. lia.
Qed.

(** What one iteration guarantees. *)
Definition step_safe (mem : bytes) (pos : nat) (p : Http1Parser) (out : step_out) : Prop :=
  (pos + o_consumed out ≤ length mem)%nat ∧
  parser_wf (pos + o_consumed out) (o_parser out) ∧
  p_mode (o_parser out) = p_mode p ∧
  p_bytesReceived (o_parser out) = p_bytesReceived p ∧
  (o_control out = Continue → o_consumed out = 0%nat →
     (rank (p_state (o_parser out)) < rank (p_state p))%nat) ∧
  o_control out ≠ Throw Blocked.

(** Unfold a step at a known state and split on its tests. *)
Ltac step_cases :=
  unfold expect, next, stay, bad, overflow, begin_message in *;
  repeat match goal with
  | |- step_safe _ _ _ (if ?b then _ else _) => destruct b eqn:?
  | |- step_safe _ _ _ (match ?x with _ => _ end) => destruct x eqn:?
  end.

Ltac step_done Hs :=
  unfold step_safe, parser_wf, refs_ok, lws_ok, content_ok, ref_end in *; cbn in *; rewrite ?Hs in *; cbn in *;
  repeat match goal with |- context [if ?b then _ else _] => destruct b; cbn end;
  intuition (try congruence; try lia).

Section steps.
Context (mem : bytes) (pos : nat) (c : Z) (p : Http1Parser).
Context (Hc : mem !! pos = Some c) (Hwf : parser_wf pos p).

Local Lemma pos_in : (pos < length mem)%nat.
Proof. by apply lookup_lt_Some in Hc. Qed.

Lemma step_request_safe : step_safe mem pos p (step_request mem pos c p).
Proof.
  pose proof pos_in. unfold step_request.
  destruct (p_state p) eqn:Hs; step_cases; step_done Hs.
Qed.

Lemma step_message_begin_safe : p_state p = MESSAGE_BEGIN → step_safe mem pos p (step_message_begin p).
Proof. intros Hs. pose proof pos_in. unfold step_message_begin. step_cases; step_done Hs. Qed.

Lemma step_status_safe : step_safe mem pos p (step_status mem pos c p).
Proof.
  pose proof pos_in. unfold step_status, step_status_code.
  destruct (p_state p) eqn:Hs; step_cases; step_done Hs.
Qed.

Lemma step_lws_safe : step_safe mem pos p (step_lws c p).
Proof.
  pose proof pos_in. unfold step_lws.
  destruct (p_state p) eqn:Hs; step_cases;
    unfold step_safe, parser_wf, refs_ok, lws_ok, content_ok, ref_end in *; rewrite Hs in *;
    try destruct (ref_empty (p_value p)); cbn in *;
    destruct_and!; repeat match goal with H : _ ∨ _ |- _ => destruct H end;
    repeat match goal with H : p_lwsNext p = _ |- _ => rewrite H end;
    repeat match goal with H : p_lwsNull p = _ |- _ => rewrite H end;
    cbn; rewrite ?Hs in *; cbn in *; intuition (try congruence; try lia).
Qed.

Lemma finish_header_safe : p_state p = HEADER_VALUE_END → step_safe mem pos p (finish_header mem p).
Proof.
  intros Hs. pose proof pos_in. unfold finish_header. cbv zeta. step_cases;
    try match goal with
        | H : toInt _ = Ok _ |- _ => apply toInt_bound in H
        | H : toInt _ = Raise _ |- _ => apply toInt_raise in H; subst
        end; step_done Hs.
Qed.

Lemma step_header_safe : step_safe mem pos p (step_header mem pos c p).
Proof.
  pose proof pos_in. unfold step_header.
  destruct (p_state p) eqn:Hs; try (by apply finish_header_safe); step_cases; step_done Hs.
Qed.

Lemma content_ok_state :
  match p_state p with
  | CONTENT | CONTENT_CHUNK_SIZE | CONTENT_CHUNK_LF1 | CONTENT_CHUNK_BODY | CONTENT_CHUNK_LF2
  | CONTENT_CHUNK_CR3 | CONTENT_CHUNK_LF3 => 0 ≤ p_contentLength p < 2 ^ 63
  | _ => True
  end.
Proof.
  destruct Hwf as (_ & _ & Hr & Hs). revert Hs. destruct (p_state p); try done; intros; lia.
Qed.

Lemma step_content_safe : step_safe mem pos p (step_content mem pos c p).
Proof.
  pose proof pos_in. pose proof content_ok_state as Hcl. unfold step_content, step_chunk_size.
  destruct (p_state p) eqn:Hs; cbv zeta;
    try (destruct (chunk_size_bound mem pos c p Hc Hcl) as (Hn1 & Hn2 & Hn3);
         set (n := chunk_size mem pos p) in *);
    unfold pass_content; step_cases;
    try match goal with
        | H : hex_digit _ _ = Some _ |- _ => apply hex_digit_bound in H; [|done|cbn; lia]
        end;
    rewrite ?negb_true_iff, ?negb_false_iff, ?Z.eqb_eq, ?Z.eqb_neq in *; step_done Hs.
Qed.

Lemma http1_step_safe : step_safe mem pos p (http1_step mem pos c p).
Proof.
  unfold http1_step. destruct (p_state p) eqn:Hs;
    first [ apply step_request_safe | apply step_status_safe | apply step_header_safe
          | apply step_lws_safe | apply step_content_safe | by apply step_message_begin_safe
          | pose proof pos_in; step_done Hs ].
Qed.
End steps.

Lemma receive_wf pos n p : parser_wf pos (receive n p) ↔ parser_wf pos p.
Proof. done. Qed.

Lemma end_of_fragment_safe pos p :
  parser_wf pos p →
  let '(p', pos', evs, x) := end_of_fragment pos p in
  parser_wf pos' p' ∧ pos' = pos ∧ x = None ∧ p_mode p' = p_mode p ∧
  p_bytesReceived p' = p_bytesReceived p.
Proof.
  intros Hwf. unfold end_of_fragment. destruct (bool_decide_reflect (p_state p = CONTENT_BEGIN)) as [Hs|]; cbn [andb];
    [|by split_and!].
  destruct (_ && _); [|by split_and!]. split_and!; try done.
  unfold parser_wf, refs_ok, lws_ok, content_ok in *; cbn in *; rewrite Hs in *; cbn in *. intuition lia.
Qed.

Lemma http1_loop_safe fuel mem : ∀ pos p,
  parser_wf pos p → (pos ≤ length mem)%nat →
  (4 * (length mem - pos) + rank (p_state p) ≤ fuel)%nat →
  let '(p', pos', evs, x) := http1_loop fuel mem pos p in
  parser_wf pos' p' ∧ (pos ≤ pos' ≤ length mem)%nat ∧ x ≠ Some Blocked ∧ p_mode p' = p_mode p ∧
  p_bytesReceived p' = p_bytesReceived p + Z.of_nat (pos' - pos).
Proof.
  induction fuel as [|fuel IH]; intros pos p Hwf Hpos Hfuel; cbn [http1_loop];
    destruct (mem !! pos) as [c|] eqn:Hc.
  - apply lookup_lt_Some in Hc. lia.
  - pose proof (end_of_fragment_safe pos p Hwf) as He.
    destruct (end_of_fragment pos p) as [[[p' pos'] evs] x]. destruct He as (? & -> & -> & ? & ->).
    split_and!; (done || lia).
  - pose proof (http1_step_safe mem pos c p Hc Hwf) as (Hlen & Hwf' & Hmode & Hbytes & Hrank & Hblk).
    set (out := http1_step mem pos c p) in *. destruct (o_control out) eqn:Hctl.
    + specialize (IH (pos + o_consumed out)%nat (receive (o_consumed out) (o_parser out)) Hwf' Hlen).
      assert (Hr : (rank (p_state (o_parser out)) ≤ 3)%nat) by (by destruct (p_state (o_parser out)); cbn; lia).
      specialize (Hrank eq_refl). cbn [p_state receive with_bytesReceived] in IH.
      destruct (http1_loop fuel mem _ _) as [[[p' pos'] evs] x].
      destruct IH as (? & ? & ? & Hm & Hb); [lia|]. split_and!; [done|lia|lia|done| |].
      * rewrite Hm. done.
      * rewrite Hb. cbn. rewrite Hbytes. lia.
    + split_and!; [done|lia|lia|done|done|]. cbn. rewrite Hbytes. lia.
    + split_and!; [done|lia|lia|congruence|done|]. cbn. rewrite Hbytes. lia.
  - pose proof (end_of_fragment_safe pos p Hwf) as He.
    destruct (end_of_fragment pos p) as [[[p' pos'] evs] x]. destruct He as (? & -> & -> & ? & ->).
    split_and!; (done || lia).
Qed.

Lemma parseFragment_ends mem pos p :
  parser_wf pos p → (pos ≤ length mem)%nat →
  let '(p', pos', evs, x) := parseFragment mem pos p in
  parser_wf pos' p' ∧ (pos ≤ pos' ≤ length mem)%nat ∧ x ≠ Some Blocked ∧ p_mode p' = p_mode p ∧
  p_bytesReceived p' = p_bytesReceived p + Z.of_nat (pos' - pos).
Proof.
  intros Hwf Hpos. apply http1_loop_safe; [done|done|].
  assert ((rank (p_state p) ≤ 3)%nat) by (destruct (p_state p); cbn; lia). lia.
Qed.

(** C6 (termination). On any bytes, from any state the parser can be in,
    [parseFragment] ends; it consumes no more than the fragment and accounts for
    what it consumed, and all references it keeps lie in what has been read. *)
Theorem parseFragment_total mem pos p :
  parser_wf pos p → (pos ≤ length mem)%nat →
  let '(p', pos', evs, x) := parseFragment mem pos p in
  parser_wf pos' p' ∧ (pos ≤ pos' ≤ length mem)%nat ∧ x ≠ Some Blocked ∧ p_mode p' = p_mode p ∧
  p_bytesReceived p' = p_bytesReceived p + Z.of_nat (pos' - pos).
Proof. apply parseFragment_ends. Qed.

Lemma new_parser_wf mode : parser_wf 0 (newHttp1Parser mode).
Proof. by repeat split; cbn; lia. Qed.

Lemma parseFragment_total_witness :
  let '(p', pos', evs, x) := parseFragment (str "GET /") 0 (newHttp1Parser REQUEST) in
  parser_wf pos' p' ∧ (0 ≤ pos' ≤ 5)%nat ∧ x ≠ Some Blocked ∧ p_mode p' = REQUEST ∧
  p_bytesReceived p' = 0 + Z.of_nat (pos' - 0).
Proof. apply (parseFragment_total (str "GET /") 0 (newHttp1Parser REQUEST) (new_parser_wf REQUEST)). lia. Defined.

(** ** Protocol errors *)

Definition not_error (ev : http_event) : Prop := match ev with ProtocolErrorEvent _ => False | _ => True end.

(** A step either reports an error and enters the error state, or does
    neither. *)
Definition step_reports (out : step_out) : Prop :=
  (o_events out = [ProtocolErrorEvent 400] ∧ p_state (o_parser out) = PROTOCOL_ERROR ∧
   o_control out = Continue ∧ o_consumed out = 0%nat) ∨
  (Forall not_error (o_events out) ∧ p_state (o_parser out) ≠ PROTOCOL_ERROR).

Ltac reports Hs :=
  unfold expect, next, stay, bad, overflow, begin_message, pass_content, step_status_code, step_chunk_size;
  repeat match goal with
  | |- step_reports (if ?b then _ else _) => destruct b eqn:?
  | |- step_reports (match ?x with _ => _ end) => destruct x eqn:?
  end;
  first [ left; by repeat split | right; cbn; rewrite ?Hs; split; [by repeat constructor|congruence] ].

Lemma step_lws_reports c p : lws_ok p → p_state p ≠ PROTOCOL_ERROR → step_reports (step_lws c p).
Proof.
  intros Hl Hne.
  unfold step_lws, lws_ok in *. destruct (p_state p) eqn:Hs; try reports Hs.
  - unfold next, stay, bad. repeat case_match; try reports Hs.
    right; cbn; split; [done|]. destruct Hl as [[->|[->| ->]] _]; done.
  - destruct (_ || _); [reports Hs|]. destruct Hl as [_ [->| ->]]; [reports Hs|left; by repeat split].
  - destruct (_ || _); [reports Hs|]. right; cbn; split; [done|]. destruct Hl as [[->|[->| ->]] _]; done.
Qed.

Lemma http1_step_reports mem pos c p :
  lws_ok p → p_state p ≠ PROTOCOL_ERROR → step_reports (http1_step mem pos c p).
Proof.
  intros Hl Hne. unfold http1_step. destruct (p_state p) eqn:Hs; try done;
    try (apply step_lws_reports; [done|by rewrite Hs]);
    unfold step_message_begin, step_request, step_status, step_header, step_content, finish_header;
    rewrite ?Hs; cbv zeta; reports Hs.
Qed.

Lemma receive_0 p : receive 0 p = p.
Proof. destruct p. unfold receive, with_bytesReceived. cbn. by rewrite Z.add_0_r. Qed.

Lemma http1_loop_error fuel mem pos p :
  p_state p = PROTOCOL_ERROR → (1 ≤ fuel)%nat → http1_loop fuel mem pos p = (p, pos, [], None).
Proof.
  intros Hs Hf. destruct fuel as [|fuel]; [lia|]. cbn [http1_loop]. destruct (mem !! pos) as [c|].
  - unfold http1_step. rewrite Hs. cbn [o_control o_consumed o_parser o_events].
    by rewrite receive_0, Nat.add_0_r.
  - unfold end_of_fragment. by rewrite Hs.
Qed.

(** The events of a run, with the error report at the end, if any. *)
Definition errors_last (p' : Http1Parser) (evs : list http_event) : Prop :=
  if decide (p_state p' = PROTOCOL_ERROR)
  then ∃ evs', evs = evs' ++ [ProtocolErrorEvent 400] ∧ Forall not_error evs'
  else Forall not_error evs.

Lemma errors_last_app p' evs evs' : Forall not_error evs → errors_last p' evs' → errors_last p' (evs ++ evs').
Proof.
  intros H. unfold errors_last. case_decide.
  - intros (evs0 & -> & Hevs0). exists (evs ++ evs0). rewrite app_assoc. split; [done|by apply Forall_app].
  - intros H'. by apply Forall_app.
Qed.

Lemma http1_loop_errors fuel mem : ∀ pos p,
  parser_wf pos p → (pos ≤ length mem)%nat → p_state p ≠ PROTOCOL_ERROR →
  (4 * (length mem - pos) + rank (p_state p) ≤ fuel)%nat →
  let '(p', _, evs, _) := http1_loop fuel mem pos p in errors_last p' evs.
Proof.
  assert (Hend : ∀ pos p, p_state p ≠ PROTOCOL_ERROR →
    let '(p', _, evs, _) := end_of_fragment pos p in errors_last p' evs).
  { intros pos p Hs. unfold end_of_fragment. destruct (_ && _); unfold errors_last; (rewrite decide_False by done); by repeat constructor. }
  induction fuel as [|fuel IH]; intros pos p Hwf Hpos Hs Hfuel; cbn [http1_loop];
    destruct (mem !! pos) as [c|] eqn:Hc; try (by apply Hend).
  { apply lookup_lt_Some in Hc. lia. }
  pose proof (http1_step_safe mem pos c p Hc Hwf) as (Hlen & Hwf' & _ & _ & Hrank & _).
  destruct (http1_step_reports mem pos c p) as [(Hev & Hst & Hct & Hn)|[Hev Hst]]; [apply Hwf|done| |];
    set (out := http1_step mem pos c p) in *.
  - rewrite Hct. rewrite http1_loop_error; [|done|].
    + rewrite Hev. unfold errors_last. rewrite decide_True by done. by exists [].
    + specialize (Hrank Hct Hn). apply lookup_lt_Some in Hc. lia.
  - assert (Hdone : errors_last (receive (o_consumed out) (o_parser out)) (o_events out))
      by (unfold errors_last; by rewrite decide_False).
    destruct (o_control out) eqn:Hct; try done.
    assert (Hr : (rank (p_state (o_parser out)) ≤ 3)%nat) by (by destruct (p_state (o_parser out)); cbn; lia).
    specialize (IH (pos + o_consumed out)%nat (receive (o_consumed out) (o_parser out)) Hwf' Hlen Hst).
    specialize (Hrank eq_refl). cbn [p_state receive with_bytesReceived] in IH.
    destruct (http1_loop fuel mem _ _) as [[[p' pos'] evs] x]. apply errors_last_app; [done|].
    apply IH. lia.
Qed.

(** C7 (error). The parser reports at most one protocol error per run, as its
    last event, exactly if it ends in the error state; from there on it consumes
    nothing and reports nothing, whatever it is given. *)
Theorem protocol_error_final mem pos p :
  parser_wf pos p → (pos ≤ length mem)%nat → p_state p ≠ PROTOCOL_ERROR →
  let '(p', _, evs, _) := parseFragment mem pos p in
  errors_last p' evs ∧
  (p_state p' = PROTOCOL_ERROR → ∀ mem' pos', parseFragment mem' pos' p' = (p', pos', [], None)).
Proof.
  intros Hwf Hpos Hs. pose proof (http1_loop_errors (4 * (length mem - pos) + 4) mem pos p Hwf Hpos Hs) as He.
  assert (Hr : (rank (p_state p) ≤ 3)%nat) by (destruct (p_state p); cbn; lia). specialize (He ltac:(lia)).
  unfold parseFragment at 1. destruct (http1_loop _ mem pos p) as [[[p' pos'] evs] x]. split; [done|].
  intros Hp' mem' pos''. unfold parseFragment. apply http1_loop_error; [done|lia].
Qed.

Lemma protocol_error_final_witness :
  let '(p', _, evs, _) := parseFragment (str "G T/") 0 (newHttp1Parser REQUEST) in
  errors_last p' evs ∧
  (p_state p' = PROTOCOL_ERROR → ∀ mem' pos', parseFragment mem' pos' p' = (p', pos', [], None)).
Proof.
  apply (protocol_error_final (str "G T/") 0 (newHttp1Parser REQUEST) (new_parser_wf REQUEST)); [lia|done].
Defined.
