(* ===== verification/Http1Generator.v ===== *)
(** * The HTTP/1 message generator

    [src/xzero/http/http1/Generator.cc], over the request and response infos of
    [HttpInfo.h], [HttpRequestInfo.h] and [HttpResponseInfo.h]. What the
    generator hands to its [EndPointWriter] is the list of bytes written. The
    overloads for [Buffer] and [BufferRef] chunks write the same bytes and share
    a definition; a file chunk is the bytes its [FileView] covers. *)
From S2P Require Import Prelude Http1Parser.

(** ** Numbers as text: [%lu], [%d] and [%zx] *)

Definition digit_char (d : Z) : Z := if d <? 10 then 48 + d else 87 + d.

(** At most 64 digits: enough for 64 bits in any base. *)
Fixpoint print_number (fuel : nat) (base n : Z) : bytes :=
  match fuel with
  | O => []
  | S fuel => if n <? base then [digit_char n]
              else print_number fuel base (n / base) ++ [digit_char (n mod base)]
  end.

Definition decimal (n : Z) : bytes := print_number 64 10 n.
Definition hexadecimal (n : Z) : bytes := print_number 64 16 n.

(** ** Messages *)

Definition UnknownContentLength : Z := 2 ^ 64 - 1.

Record HttpInfo := mkHttpInfo {
  hi_version : HttpVersion;
  hi_contentLength : Z;
  hi_headers : list (bytes * bytes);
  hi_trailers : list (bytes * bytes);
}.

Definition hasContentLength (info : HttpInfo) : bool := negb (hi_contentLength info =? UnknownContentLength).
Definition hasTrailers (info : HttpInfo) : bool := negb (bool_decide (hi_trailers info = [])).

Record HttpRequestInfo := mkHttpRequestInfo {
  rq_method : bytes;
  rq_uri : bytes;
  rq_info : HttpInfo;
}.

Record HttpResponseInfo := mkHttpResponseInfo {
  rs_status : Z;
  rs_reason : bytes;
  rs_info : HttpInfo;
}.

(** [to_string(HttpStatus)]. *)
Definition status_texts : list (Z * bytes) := [
  (100, str "Continue Request");
  (101, str "Switching Protocols");
  (102, str "Processing");
  (200, str "Ok");
  (201, str "Created");
  (202, str "Accepted");
  (203, str "Non Authoriative Information");
  (204, str "No Content");
  (205, str "Reset Content");
  (206, str "Partial Content");
  (300, str "Multiple Choices");
  (301, str "Moved Permanently");
  (302, str "Found");
  (304, str "Not Modified");
  (307, str "Temporary Redirect");
  (308, str "Permanent Redirect");
  (400, str "Bad Request");
  (401, str "Unauthorized");
  (402, str "Payment Required");
  (403, str "Forbidden");
  (404, str "Not Found");
  (405, str "Method Not Allowed");
  (406, str "Not Acceptable");
  (407, str "Proxy Authentication Required");
  (408, str "Request Timeout");
  (409, str "Conflict");
  (410, str "Gone");
  (411, str "Length Required");
  (412, str "Precondition Failed");
  (413, str "Payload Too Large");
  (414, str "Request Uri Too Long");
  (415, str "Unsupported Media Type");
  (416, str "Requested Range Not Satisfiable");
  (417, str "Expectation Failed");
  (421, str "Misdirected Request");
  (422, str "Unprocessable Entity");
  (423, str "Locked");
  (424, str "Failed Dependency");
  (425, str "Unordered Collection");
  (426, str "Upgrade Required");
  (428, str "Precondition Required");
  (429, str "Too Many Requests");
  (431, str "Request Header Fields Too Large");
  (500, str "Internal Server Error");
  (501, str "Not Implemented");
  (502, str "Bad Gateway");
  (503, str "Service Unavailable");
  (504, str "Gateway Timeout");
  (505, str "Http Version Not Supported");
  (506, str "Variant Also Negotiates");
  (507, str "Insufficient Storage");
  (508, str "Loop Detected");
  (509, str "Bandwidth Exceeded");
  (510, str "Not Extended");
  (511, str "Network Authentication Required")
].

Definition status_text (status : Z) : bytes :=
  match list_find (λ e, e.1 = status) status_texts with Some (_, (_, t)) => t | None => [] end.

Definition isContentForbidden (status : Z) : bool :=
  bool_decide (status ∈ [100; 101; 204; 205; 304; 444; 499]).

(** ** The generator *)

Record Http1Generator := mkHttp1Generator {
  g1_bytesTransmitted : Z;
  g1_contentLength : Z;
  g1_actualContentLength : Z;
  g1_chunked : bool;
  g1_buffer : bytes;
  (** the bytes handed to [writer_] so far *)
  g1_written : bytes;
}.

Definition newHttp1Generator : Http1Generator := mkHttp1Generator 0 UnknownContentLength 0 false [] [].

Definition g1_reset (g : Http1Generator) : Http1Generator :=
  mkHttp1Generator 0 UnknownContentLength 0 false [] (g1_written g).

Definition g1_push (bs : bytes) (g : Http1Generator) : Http1Generator :=
  mkHttp1Generator (g1_bytesTransmitted g) (g1_contentLength g) (g1_actualContentLength g)
    (g1_chunked g) (g1_buffer g ++ bs) (g1_written g).

Definition g1_write (bs : bytes) (g : Http1Generator) : Http1Generator :=
  mkHttp1Generator (g1_bytesTransmitted g) (g1_contentLength g) (g1_actualContentLength g)
    (g1_chunked g) (g1_buffer g) (g1_written g ++ bs).

Definition flushBuffer (g : Http1Generator) : Http1Generator :=
  if bool_decide (g1_buffer g = []) then g
  else mkHttp1Generator (u64 (g1_bytesTransmitted g + Z.of_nat (length (g1_buffer g)))) (g1_contentLength g)
         (g1_actualContentLength g) (g1_chunked g) [] (g1_written g ++ g1_buffer g).

(** [contentLength() - actualContentLength()] in [size_t]. *)
Definition remainingContentLength (g : Http1Generator) : Z :=
  u64 (g1_contentLength g - g1_actualContentLength g).

Definition CRLF : bytes := [13; 10].

Definition header_line (h : bytes * bytes) : bytes := h.1 ++ str ": " ++ h.2 ++ CRLF.

Definition generateRequestLine (info : HttpRequestInfo) (g : Http1Generator) : result Http1Generator :=
  let g := g1_push (rq_method info ++ [32] ++ rq_uri info) g in
  match hi_version (rq_info info) with
  | VERSION_0_9 => Ok (g1_push (str " HTTP/0.9" ++ CRLF) g)
  | VERSION_1_0 => Ok (g1_push (str " HTTP/1.0" ++ CRLF) g)
  | VERSION_1_1 => Ok (g1_push (str " HTTP/1.1" ++ CRLF) g)
  | _ => Raise InvalidArgumentError
  end.

Definition generateResponseLine (info : HttpResponseInfo) (g : Http1Generator) : result Http1Generator :=
  let rest := decimal (rs_status info) ++ [32] ++
    (if bool_decide (rs_reason info = []) then status_text (rs_status info) else rs_reason info) ++ CRLF in
  match hi_version (rs_info info) with
  | VERSION_0_9 => Ok (g1_push (str "HTTP/0.9 " ++ rest) g)
  | VERSION_1_0 => Ok (g1_push (str "HTTP/1.0 " ++ rest) g)
  | VERSION_1_1 => Ok (g1_push (str "HTTP/1.1 " ++ rest) g)
  | _ => Raise IllegalStateError
  end.

(** Pseudo headers start with a colon. *)
Definition is_pseudo (h : bytes * bytes) : bool := bool_decide (head h.1 = Some 58).

Definition header_lines (hs : list (bytes * bytes)) : bytes :=
  concat ((λ h, if is_pseudo h then [] else header_line h) <$> hs).

Fixpoint trailer_names (ts : list (bytes * bytes)) : bytes :=
  match ts with
  | [] => []
  | [t] => t.1
  | t :: ts => t.1 ++ str ", " ++ trailer_names ts
  end.

(** What [generateHeaders] appends to the buffer. *)
Definition header_block (info : HttpInfo) (bodyForbidden : bool) : bytes :=
  header_lines (hi_headers info) ++
  (if hasTrailers info then str "Trailer: " ++ trailer_names (hi_trailers info) ++ CRLF else []) ++
  (if bodyForbidden then []
   else if negb (hasContentLength info) || hasTrailers info then str "Transfer-Encoding: chunked" ++ CRLF
   else str "Content-Length: " ++ decimal (hi_contentLength info) ++ CRLF) ++
  CRLF.

Definition g1_generateHeaders (info : HttpInfo) (bodyForbidden : bool) (g : Http1Generator) : Http1Generator :=
  g1_push (header_block info bodyForbidden)
    (mkHttp1Generator (g1_bytesTransmitted g) (hi_contentLength info) (g1_actualContentLength g)
       (negb (hasContentLength info) || hasTrailers info) (g1_buffer g) (g1_written g)).

Definition generateBody (chunk : bytes) (g : Http1Generator) : result Http1Generator :=
  let n := Z.of_nat (length chunk) in
  if g1_chunked g then
    Ok (if 0 <? n then g1_write (hexadecimal n ++ CRLF ++ chunk ++ CRLF) g else g)
  else if n <=? remainingContentLength g then
    Ok (g1_write chunk
          (mkHttp1Generator (g1_bytesTransmitted g) (g1_contentLength g) (u64 (g1_actualContentLength g + n))
             (g1_chunked g) (g1_buffer g) (g1_written g)))
  else Raise RuntimeError.

(** The chunk line of a file is printed into 12 characters: [snprintf] cuts a
    line of 12 short, and a longer one is read from beyond the array. *)
Definition file_chunk_line (n : Z) : result bytes :=
  let line := hexadecimal n ++ CRLF in
  match Nat.compare (length line) 12 with
  | Lt => Ok line
  | Eq => Ok (take 11 line ++ [0])
  | Gt => Raise UndefinedBehaviour
  end.

Definition generateBodyFile (chunk : bytes) (g : Http1Generator) : result Http1Generator :=
  let n := Z.of_nat (length chunk) in
  if g1_chunked g then
    if 0 <? n then
      line ← file_chunk_line n;
      Ok (g1_write (line ++ chunk ++ CRLF)
            (mkHttp1Generator (u64 (g1_bytesTransmitted g + (Z.of_nat (length line) + n + 2))) (g1_contentLength g)
               (g1_actualContentLength g) (g1_chunked g) (g1_buffer g) (g1_written g)))
    else Ok g
  else if n <=? remainingContentLength g then
    Ok (g1_write chunk
          (mkHttp1Generator (u64 (g1_bytesTransmitted g + n)) (g1_contentLength g)
             (u64 (g1_actualContentLength g + n)) (g1_chunked g) (g1_buffer g) (g1_written g)))
  else Raise RuntimeError.

Definition generateTrailer (trailers : list (bytes * bytes)) (g : Http1Generator) : Http1Generator :=
  flushBuffer
    (if g1_chunked g
     then g1_push (str "0" ++ CRLF ++ concat (header_line <$> trailers) ++ CRLF) g
     else g).

Definition generateRequestHead (info : HttpRequestInfo) (g : Http1Generator) : result Http1Generator :=
  g ← generateRequestLine info g;
  Ok (flushBuffer (g1_generateHeaders (rq_info info) false g)).

Definition generateRequest (info : HttpRequestInfo) (chunk : bytes) (g : Http1Generator) : result Http1Generator :=
  g ← generateRequestHead info g; generateBody chunk g.

Definition generateRequestFile (info : HttpRequestInfo) (chunk : bytes) (g : Http1Generator) : result Http1Generator :=
  g ← generateRequestHead info g; generateBodyFile chunk g.

Definition generateResponseInfo (info : HttpResponseInfo) (g : Http1Generator) : result Http1Generator :=
  g ← generateResponseLine info g;
  let g := if (200 <=? rs_status info) || (rs_status info =? 101)
           then g1_generateHeaders (rs_info info) (isContentForbidden (rs_status info)) g
           else g1_push CRLF g in
  Ok (flushBuffer g).

Definition generateResponse (info : HttpResponseInfo) (chunk : bytes) (g : Http1Generator) : result Http1Generator :=
  g ← generateResponseInfo info g;
  g ← generateBody chunk g;
  Ok (flushBuffer g).

(** The overload for files does not flush the buffer again. *)
Definition generateResponseFile (info : HttpResponseInfo) (chunk : bytes) (g : Http1Generator) : result Http1Generator :=
  g ← generateResponseInfo info g; generateBodyFile chunk g.
