(* ===== verification/Http1Run.v ===== *)
(** * Runs of the HTTP/1 parser

    Reasoning about [parseFragment] on a known text: [reads mem pos p evs pos' p']
    says that the parser, at position [pos] in state [p], gets to [pos'] and [p']
    and reports [evs] on its way. The counter [bytesReceived_] (see
    [parseFragment_total]) is left aside. *)
From S2P Require Import Prelude Http1Parser Http1Safety.

(** ** Text in the buffer *)

Definition text_at (mem : bytes) (pos : nat) (s : bytes) : Prop :=
  ∀ i c, s !! i = Some c → mem !! (pos + i)%nat = Some c.

Lemma text_at_app mem pos s s' :
  text_at mem pos (s ++ s') ↔ text_at mem pos s ∧ text_at mem (pos + length s) s'.
Proof.
  unfold text_at. split.
  - intros H. split; intros i c Hi.
    + apply H. by apply lookup_app_l_Some.
    + rewrite <- Nat.add_assoc. apply H. rewrite lookup_app_r by lia. by replace (length s + i - length s)%nat with i by lia.
  - intros [H1 H2] i c [Hi|[Hl Hi]]%lookup_app_Some; [by apply H1|].
    specialize (H2 _ _ Hi). by replace (pos + length s + (i - length s))%nat with (pos + i)%nat in H2 by lia.
Qed.

Lemma text_at_cons mem pos c s :
  text_at mem pos (c :: s) ↔ mem !! pos = Some c ∧ text_at mem (S pos) s.
Proof.
  change (c :: s) with ([c] ++ s). rewrite text_at_app. cbn [length]. rewrite Nat.add_1_r.
  split; intros [H1 H2]; (split; [|done]).
  - specialize (H1 0%nat c eq_refl). by rewrite Nat.add_0_r in H1.
  - intros [|i] d Hd; [|done]. injection Hd as <-. by rewrite Nat.add_0_r.
Qed.

Lemma text_at_whole mem : text_at mem 0 mem.
Proof. by intros i c Hi. Qed.

Lemma text_at_deref mem pos s : text_at mem pos s → deref mem (mkRef pos (length s)) = s.
Proof.
  intros H. unfold deref. cbn [ref_off ref_len]. apply list_eq. intros i.
  destruct (decide (i < length s)%nat) as [Hi|Hi].
  - destruct (lookup_lt_is_Some_2 s i Hi) as [c Hc]. rewrite lookup_take_lt by done.
    rewrite lookup_drop, Hc. by apply H.
  - rewrite !lookup_ge_None_2; [done|lia|]. rewrite length_take. lia.
Qed.

(** ** Steps *)

Section runs.
Context (mem : bytes).

Inductive steps : nat → Http1Parser → list http_event → nat → Http1Parser → Prop :=
  | steps_refl pos p : steps pos p [] pos p
  | steps_cons pos p c evs pos' p' :
      mem !! pos = Some c →
      o_control (http1_step mem pos c p) = Continue →
      steps (pos + o_consumed (http1_step mem pos c p))
        (receive (o_consumed (http1_step mem pos c p)) (o_parser (http1_step mem pos c p))) evs pos' p' →
      steps pos p (o_events (http1_step mem pos c p) ++ evs) pos' p'.

Lemma steps_trans pos p evs pos' p' evs' pos'' p'' :
  steps pos p evs pos' p' → steps pos' p' evs' pos'' p'' → steps pos p (evs ++ evs') pos'' p''.
Proof.
  induction 1 as [|pos p c evs pos' p' Hc Hct _ IH]; intros H'; [done|].
  rewrite <- app_assoc. eapply steps_cons; [done|done|]. by apply IH.
Qed.

(** A run of the loop that does not run out of fuel does not depend on it. *)
Lemma http1_loop_more fuel fuel' : ∀ pos p out,
  http1_loop fuel mem pos p = out → out.2 ≠ Some Blocked → (fuel ≤ fuel')%nat →
  http1_loop fuel' mem pos p = out.
Proof.
  revert fuel'; induction fuel as [|fuel IH]; intros fuel' pos p out <- Hb Hle; cbn [http1_loop] in *.
  - destruct (mem !! pos) as [c|] eqn:Hc; [done|]. destruct fuel'; cbn [http1_loop]; by rewrite Hc.
  - destruct fuel' as [|fuel']; [lia|]. cbn [http1_loop]. destruct (mem !! pos) as [c|]; [|done].
    destruct (o_control (http1_step mem pos c p)); [|done|done].
    destruct (http1_loop fuel mem _ _) as [[[p2 pos2] evs2] x] eqn:E.
    rewrite (IH fuel' _ _ _ E); [done|done|lia].
Qed.

Lemma steps_loop pos p evs pos' p' fuel' p2 pos2 evs2 x :
  steps pos p evs pos' p' → http1_loop fuel' mem pos' p' = (p2, pos2, evs2, x) →
  ∃ fuel, http1_loop fuel mem pos p = (p2, pos2, evs ++ evs2, x).
Proof.
  induction 1 as [|pos p c evs pos' p' Hc Hct _ IH]; intros Hl; [by exists fuel'|].
  destruct (IH Hl) as [fuel Hf]. exists (S fuel). cbn [http1_loop]. rewrite Hc, Hct, Hf. by rewrite app_assoc.
Qed.

Lemma parseFragment_steps pos p evs pos' p' fuel' p2 pos2 evs2 x :
  parser_wf pos p → (pos ≤ length mem)%nat →
  steps pos p evs pos' p' → http1_loop fuel' mem pos' p' = (p2, pos2, evs2, x) → x ≠ Some Blocked →
  parseFragment mem pos p = (p2, pos2, evs ++ evs2, x).
Proof.
  intros Hwf Hpos Hs Hl Hx. destruct (steps_loop _ _ _ _ _ _ _ _ _ _ Hs Hl) as [fuel Hf].
  pose proof (parseFragment_ends mem pos p Hwf Hpos) as He. unfold parseFragment in *.
  set (fuel0 := (4 * (length mem - pos) + 4)%nat) in *.
  pose proof (http1_loop_more fuel (fuel `max` fuel0) pos p _ Hf Hx ltac:(lia)) as H1.
  destruct (http1_loop fuel0 mem pos p) as [[[p3 pos3] evs3] x3] eqn:E.
  destruct He as (_ & _ & Hx3 & _).
  pose proof (http1_loop_more fuel0 (fuel `max` fuel0) pos p _ E Hx3 ltac:(lia)) as H2. congruence.
Qed.

(** ** Runs, up to [bytesReceived_] *)

Definition reads (pos : nat) (p : Http1Parser) (evs : list http_event) (pos' : nat) (p' : Http1Parser) : Prop :=
  ∀ b, ∃ b', steps pos (with_bytesReceived b p) evs pos' (with_bytesReceived b' p').

Lemma reads_refl pos p : reads pos p [] pos p.
Proof. intros b. exists b. apply steps_refl. Qed.

Lemma reads_trans pos p evs pos' p' evs' pos'' p'' :
  reads pos p evs pos' p' → reads pos' p' evs' pos'' p'' → reads pos p (evs ++ evs') pos'' p''.
Proof.
  intros H1 H2 b. destruct (H1 b) as [b1 H1']. destruct (H2 b1) as [b2 H2']. exists b2.
  by eapply steps_trans.
Qed.

(** A step that does not look at the counter. *)
Lemma reads_step pos p c p' n evs :
  mem !! pos = Some c →
  (∀ b, http1_step mem pos c (with_bytesReceived b p) = mkOut (with_bytesReceived b p') n evs Continue) →
  reads pos p evs (pos + n) p'.
Proof.
  intros Hc Hstep b. exists (b + Z.of_nat n).
  pose proof (steps_cons pos (with_bytesReceived b p) c [] (pos + n) (with_bytesReceived (b + Z.of_nat n) p') Hc) as H.
  rewrite (Hstep b), app_nil_r in H. apply H; [done|apply steps_refl].
Qed.

(** A scan over [s]: [f i] is the parser after [i] characters. *)
Lemma reads_scan pos s (f : nat → Http1Parser) :
  text_at mem pos s →
  (∀ i c, s !! i = Some c → ∀ b, http1_step mem (pos + i) c (with_bytesReceived b (f i)) =
     mkOut (with_bytesReceived b (f (S i))) 1 [] Continue) →
  reads pos (f 0%nat) [] (pos + length s) (f (length s)).
Proof.
  revert pos f; induction s as [|c s IH]; intros pos f Hs Hstep.
  { cbn. rewrite Nat.add_0_r. apply reads_refl. }
  apply text_at_cons in Hs as [Hc Hs]. cbn [length]. rewrite <- Nat.add_succ_comm.
  change [] with ([] ++ [] : list http_event). apply (reads_trans _ _ _ (S pos) (f 1%nat)).
  - rewrite <- (Nat.add_1_r pos). eapply reads_step; [done|]. intros b.
    specialize (Hstep 0%nat c eq_refl b). by rewrite Nat.add_0_r in Hstep.
  - apply (IH (S pos) (λ i, f (S i))); [done|]. intros i d Hi b.
    specialize (Hstep (S i) d Hi b). by rewrite <- Nat.add_succ_comm in Hstep.
Qed.

(** A step in front of a run: over one character, or over none. *)
Lemma reads_next pos p c p1 evs0 evs pos' p' :
  mem !! pos = Some c →
  (∀ b, http1_step mem pos c (with_bytesReceived b p) = mkOut (with_bytesReceived b p1) 1 evs0 Continue) →
  reads (S pos) p1 evs pos' p' → reads pos p (evs0 ++ evs) pos' p'.
Proof. intros Hc Hs Hr. eapply reads_trans; [by eapply reads_step|]. by rewrite Nat.add_1_r. Qed.

Lemma reads_stay pos p c p1 evs0 evs pos' p' :
  mem !! pos = Some c →
  (∀ b, http1_step mem pos c (with_bytesReceived b p) = mkOut (with_bytesReceived b p1) 0 evs0 Continue) →
  reads pos p1 evs pos' p' → reads pos p (evs0 ++ evs) pos' p'.
Proof. intros Hc Hs Hr. eapply reads_trans; [by eapply reads_step|]. by rewrite Nat.add_0_r. Qed.
End runs.

(** One step over a known character to a known state, without events. *)
Ltac read_to p1 := eapply (reads_next _ _ _ _ p1 []); [eassumption|intros b; reflexivity|].
Ltac skip_to p1 := eapply (reads_stay _ _ _ _ p1 []); [eassumption|intros b; reflexivity|].

(** Every character of a string with a property has it. *)
Lemma Forall_char (P : Z → Prop) s i c : Forall P s → s !! i = Some c → P c.
Proof. intros H Hi. by apply (Forall_lookup_1 P s i c). Qed.
