(* ===== verification/Http1Roundtrip.v ===== *)
(** * HTTP/1: what is generated is parsed back *)
From S2P Require Import Prelude Http1Parser Http1Safety Http1Generator Http1Run.

(** ** The request line *)

Definition is_method (m : bytes) : Prop := m ≠ [] ∧ Forall (λ c, isToken c = true) m.
Definition is_uri (u : bytes) : Prop := u ≠ [] ∧ Forall (λ c, isprint c = true ∧ c ≠ SP) u.

Lemma isToken_not_SP c : isToken c = true → (c =? SP) = false.
Proof. intros H. apply Z.eqb_neq. intros ->. done. Qed.

Section request_line.
Context (mem : bytes) (ln lu : State) (co : Z) (ms nm vl : BufRef) (ch : bool).

Definition rl (st : State) (me en : BufRef) (vj vn : Z) : Http1Parser :=
  mkHttp1Parser REQUEST st 0 ln lu me en vj vn co ms nm vl ch (-1).

Lemma reads_method pos m me en :
  is_method m → text_at mem pos (m ++ [SP]) →
  reads mem pos (rl REQUEST_LINE_BEGIN me en 0 0) [] (pos + length m + 1)
    (rl REQUEST_ENTITY_BEGIN (mkRef pos (length m)) en 0 0).
Proof.
  intros [Hne Hm] [Ht [Hsp _]%text_at_cons]%text_at_app. destruct m as [|c m]; [done|].
  apply Forall_cons_1 in Hm as [Hc Hm]. apply text_at_cons in Ht as [Hc0 Ht].
  cbn [length] in *. eapply (reads_next _ _ _ _ (rl REQUEST_METHOD (mkRef pos 1) en 0 0) [] []); [done|..].
  { intros b. cbn. by rewrite Hc. }
  apply (reads_trans _ _ _ [] (S pos + length m) (rl REQUEST_METHOD (mkRef pos (S (length m))) en 0 0)).
  - apply (reads_scan mem (S pos) m (λ i, rl REQUEST_METHOD (mkRef pos (S i)) en 0 0)); [done|].
    intros i d Hi b. pose proof (Forall_char _ _ _ _ Hm Hi) as Hd. cbn. rewrite (isToken_not_SP d Hd), Hd. unfold next, shr, rl. cbn. by rewrite Nat.add_1_r.
  - replace (pos + S (length m) + 1)%nat with (S (S pos + length m)) by lia.
    replace (pos + S (length m))%nat with (S pos + length m)%nat in Hsp by lia.
    read_to (rl REQUEST_ENTITY_BEGIN (mkRef pos (S (length m))) en 0 0). apply reads_refl.
Qed.

Lemma reads_uri pos u me en :
  is_uri u → text_at mem pos (u ++ [SP]) →
  reads mem pos (rl REQUEST_ENTITY_BEGIN me en 0 0) [] (pos + length u + 1)
    (rl REQUEST_PROTOCOL_BEGIN me (mkRef pos (length u)) 0 0).
Proof.
  intros [Hne Hu] [Ht [Hsp _]%text_at_cons]%text_at_app. destruct u as [|c u]; [done|].
  apply Forall_cons_1 in Hu as [[Hc _] Hu]. apply text_at_cons in Ht as [Hc0 Ht].
  cbn [length] in *. eapply (reads_next _ _ _ _ (rl REQUEST_ENTITY me (mkRef pos 1) 0 0) [] []); [done|..].
  { intros b. cbn. by rewrite Hc. }
  apply (reads_trans _ _ _ [] (S pos + length u) (rl REQUEST_ENTITY me (mkRef pos (S (length u))) 0 0)).
  - apply (reads_scan mem (S pos) u (λ i, rl REQUEST_ENTITY me (mkRef pos (S i)) 0 0)); [done|].
    intros i d Hi b. destruct (Forall_char _ _ _ _ Hu Hi) as [Hd Hsp']. cbn.
    rewrite (proj2 (Z.eqb_neq d SP)), Hd by done. unfold next, shr, rl. cbn. by rewrite Nat.add_1_r.
  - replace (pos + S (length u) + 1)%nat with (S (S pos + length u)) by lia.
    replace (pos + S (length u))%nat with (S pos + length u)%nat in Hsp by lia.
    read_to (rl REQUEST_PROTOCOL_BEGIN me (mkRef pos (S (length u))) 0 0). apply reads_refl.
Qed.

(** The text of a version. *)
Definition version_text (v : HttpVersion) : bytes :=
  match v with
  | VERSION_0_9 => str "HTTP/0.9" | VERSION_1_0 => str "HTTP/1.0" | VERSION_1_1 => str "HTTP/1.1"
  | _ => []
  end.

Definition version_numbers (v : HttpVersion) : Z * Z :=
  match v with VERSION_0_9 => (0, 9) | VERSION_1_0 => (1, 0) | _ => (1, 1) end.

Definition known_version (v : HttpVersion) : Prop := v = VERSION_0_9 ∨ v = VERSION_1_0 ∨ v = VERSION_1_1.

Lemma reads_version pos v me en :
  known_version v → text_at mem pos (version_text v ++ CRLF) →
  reads mem pos (rl REQUEST_PROTOCOL_BEGIN me en 0 0)
    [RequestBegin (deref mem me) (deref mem en) v] (pos + 10)
    (rl HEADER_NAME_BEGIN me en (version_numbers v).1 (version_numbers v).2).
Proof.
  intros Hv Ht. replace (pos + 10)%nat with (S (S (S (S (S (S (S (S (S (S pos)))))))))) by lia.
  destruct Hv as [->|[->| ->]];
    [change (version_text _ ++ CRLF) with [72; 84; 84; 80; 47; 48; 46; 57; 13; 10] in Ht
    |change (version_text _ ++ CRLF) with [72; 84; 84; 80; 47; 49; 46; 48; 13; 10] in Ht
    |change (version_text _ ++ CRLF) with [72; 84; 84; 80; 47; 49; 46; 49; 13; 10] in Ht];
    rewrite !text_at_cons in Ht; destruct_and!;
    read_to (rl REQUEST_PROTOCOL_T1 me en 0 0); read_to (rl REQUEST_PROTOCOL_T2 me en 0 0);
    read_to (rl REQUEST_PROTOCOL_P me en 0 0); read_to (rl REQUEST_PROTOCOL_SLASH me en 0 0);
    read_to (rl REQUEST_PROTOCOL_VERSION_MAJOR me en 0 0).
  - read_to (rl REQUEST_PROTOCOL_VERSION_MAJOR me en 0 0). read_to (rl REQUEST_PROTOCOL_VERSION_MINOR me en 0 0).
    read_to (rl REQUEST_PROTOCOL_VERSION_MINOR me en 0 9). read_to (rl REQUEST_LINE_LF me en 0 9).
    eapply (reads_next _ _ _ _ (rl HEADER_NAME_BEGIN me en 0 9) [_] []); [eassumption|by intros b|apply reads_refl].
  - read_to (rl REQUEST_PROTOCOL_VERSION_MAJOR me en 1 0). read_to (rl REQUEST_PROTOCOL_VERSION_MINOR me en 1 0).
    read_to (rl REQUEST_PROTOCOL_VERSION_MINOR me en 1 0). read_to (rl REQUEST_LINE_LF me en 1 0).
    eapply (reads_next _ _ _ _ (rl HEADER_NAME_BEGIN me en 1 0) [_] []); [eassumption|by intros b|apply reads_refl].
  - read_to (rl REQUEST_PROTOCOL_VERSION_MAJOR me en 1 0). read_to (rl REQUEST_PROTOCOL_VERSION_MINOR me en 1 0).
    read_to (rl REQUEST_PROTOCOL_VERSION_MINOR me en 1 1). read_to (rl REQUEST_LINE_LF me en 1 1).
    eapply (reads_next _ _ _ _ (rl HEADER_NAME_BEGIN me en 1 1) [_] []); [eassumption|by intros b|apply reads_refl].
Qed.
End request_line.

(** ** Header fields *)

Definition is_blank (c : Z) : bool := (c =? SP) || (c =? HT).

Definition is_field (h : bytes * bytes) : Prop :=
  is_method h.1 ∧ Forall (λ c, isText c = true) h.2 ∧
  match h.2 with [] => True | c :: _ => is_blank c = false end.

(** What a field means to the parser: the events, and the new values of
    [chunked_] and [contentLength_]. *)
Definition field_effect (h : bytes * bytes) (ch : bool) (cl : Z) : result (list http_event * bool * Z) :=
  if iequals h.1 (str "Content-Length") then n ← toInt h.2; Ok ([MessageHeader h.1 h.2], ch, n)
  else if iequals h.1 (str "Transfer-Encoding") then
    if iequals h.2 (str "chunked") then Ok ([], true, cl) else Ok ([MessageHeader h.1 h.2], ch, cl)
  else Ok ([MessageHeader h.1 h.2], ch, cl).

Lemma isText_not_CR c : isText c = true → (c =? CR) = false.
Proof. intros H. apply Z.eqb_neq. by intros ->. Qed.

Section fields.
Context (mem : bytes) (md : ParseMode) (me en : BufRef) (vj vn co : Z) (ms : BufRef).

Definition hp (st ln lu : State) (nm vl : BufRef) (ch : bool) (cl : Z) : Http1Parser :=
  mkHttp1Parser md st 0 ln lu me en vj vn co ms nm vl ch cl.

(** Up to the white space after the colon. *)
Lemma reads_name pos name ln lu nm vl ch cl :
  is_method name → text_at mem pos (name ++ str ": ") →
  reads mem pos (hp HEADER_NAME_BEGIN ln lu nm vl ch cl) [] (pos + length name + 2)
    (hp LWS_SP_HT HEADER_VALUE_BEGIN HEADER_VALUE_END (mkRef pos (length name)) vl ch cl).
Proof.
  intros [Hne Hm] Ht. change (str ": ") with [58; 32] in Ht. rewrite text_at_app, !text_at_cons in Ht.
  destruct Ht as (Ht & Hcolon & Hsp & _). destruct name as [|c name]; [done|].
  apply Forall_cons_1 in Hm as [Hc Hm]. apply text_at_cons in Ht as [Hc0 Ht]. cbn [length] in *.
  eapply (reads_next _ _ _ _ (hp HEADER_NAME ln lu (mkRef pos 1) vl ch cl) [] []); [done|..].
  { intros b. cbn. by rewrite Hc. }
  apply (reads_trans _ _ _ [] (S pos + length name) (hp HEADER_NAME ln lu (mkRef pos (S (length name))) vl ch cl)).
  - apply (reads_scan mem (S pos) name (λ i, hp HEADER_NAME ln lu (mkRef pos (S i)) vl ch cl)); [done|].
    intros i d Hi b. pose proof (Forall_char _ _ _ _ Hm Hi) as Hd. cbn.
    rewrite Hd. unfold next, shr, hp. cbn. by rewrite Nat.add_1_r.
  - replace (pos + S (length name) + 2)%nat with (S (S (S pos + length name))) by lia.
    replace (pos + S (length name))%nat with (S pos + length name)%nat in * by lia.
    read_to (hp LWS_BEGIN HEADER_VALUE_BEGIN HEADER_VALUE_END (mkRef pos (S (length name))) vl ch cl).
    read_to (hp LWS_SP_HT HEADER_VALUE_BEGIN HEADER_VALUE_END (mkRef pos (S (length name))) vl ch cl).
    apply reads_refl.
Qed.

(** The value and the end of the line; [d] is the character behind it. *)
Lemma reads_value pos value d nm vl ch cl :
  Forall (λ c, isText c = true) value → match value with [] => True | c :: _ => is_blank c = false end →
  text_at mem pos (value ++ CRLF ++ [d]) → is_blank d = false → ref_len vl = 0%nat →
  ∃ ln lu vl', deref mem vl' = value ∧
    reads mem pos (hp LWS_SP_HT HEADER_VALUE_BEGIN HEADER_VALUE_END nm vl ch cl) []
      (pos + length value + 2) (hp HEADER_VALUE_END ln lu nm vl' ch cl).
Proof.
  intros Hv Hb Ht Hd Hvl. unfold CRLF in Ht. cbn [app] in Ht.
  rewrite text_at_app, !text_at_cons in Ht. destruct Ht as (Ht & Hcr & Hlf & Hnext & _).
  destruct value as [|c value]; cbn [length] in *.
  - exists HEADER_VALUE_BEGIN, HEADER_VALUE_END, vl.
    split; [unfold deref; by rewrite Hvl, take_0|]. rewrite Nat.add_0_r in *. rewrite Nat.add_comm. cbn [Nat.add].
    skip_to (hp HEADER_VALUE_BEGIN HEADER_VALUE_BEGIN HEADER_VALUE_END nm vl ch cl).
    read_to (hp HEADER_VALUE_LF HEADER_VALUE_BEGIN HEADER_VALUE_END nm vl ch cl).
    read_to (hp HEADER_VALUE_END HEADER_VALUE_BEGIN HEADER_VALUE_END nm vl ch cl). apply reads_refl.
  - exists HEADER_VALUE, HEADER_VALUE_END, (mkRef pos (S (length value))).
    split; [by apply (text_at_deref mem pos (c :: value))|].
    apply Forall_cons_1 in Hv as [Hc Hv]. apply text_at_cons in Ht as [Hc0 Ht].
    eapply (reads_stay _ _ _ _ (hp HEADER_VALUE_BEGIN HEADER_VALUE_BEGIN HEADER_VALUE_END nm vl ch cl) [] []); [done|..].
    { intros b. unfold is_blank in Hb. cbn. by rewrite Hb. }
    eapply (reads_next _ _ _ _ (hp HEADER_VALUE HEADER_VALUE_BEGIN HEADER_VALUE_END nm (mkRef pos 1) ch cl) [] []); [done|..].
    { intros b. cbn. by rewrite Hc. }
    apply (reads_trans _ _ _ [] (S pos + length value)
      (hp HEADER_VALUE HEADER_VALUE_BEGIN HEADER_VALUE_END nm (mkRef pos (S (length value))) ch cl)).
    + apply (reads_scan mem (S pos) value (λ i, hp HEADER_VALUE HEADER_VALUE_BEGIN HEADER_VALUE_END nm
        (mkRef pos (S i)) ch cl)); [done|].
      intros i e Hi b. pose proof (Forall_char _ _ _ _ Hv Hi) as He. cbn.
      rewrite (isText_not_CR e He), He. unfold next, shr, hp. cbn. by rewrite Nat.add_1_r.
    + replace (pos + S (length value) + 2)%nat with (S (S (S pos + length value))) by lia.
      replace (pos + S (length value))%nat with (S pos + length value)%nat in * by lia.
      read_to (hp LWS_LF HEADER_VALUE HEADER_VALUE_END nm (mkRef pos (S (length value))) ch cl).
      read_to (hp LWS_SP_HT_BEGIN HEADER_VALUE HEADER_VALUE_END nm (mkRef pos (S (length value))) ch cl).
      eapply (reads_stay _ _ _ _ (hp HEADER_VALUE_END HEADER_VALUE HEADER_VALUE_END nm
        (mkRef pos (S (length value))) ch cl) [] []); [done| |apply reads_refl].
      intros b. unfold is_blank in Hd. cbn. by rewrite Hd.
Qed.

(** A whole field, with the callback that it causes. *)
Lemma reads_field pos h d ln lu nm vl ch cl evs ch' cl' :
  is_field h → text_at mem pos (header_line h ++ [d]) → is_blank d = false → ref_len vl = 0%nat →
  field_effect h ch cl = Ok (evs, ch', cl') →
  ∃ ln' lu' nm' vl', ref_len vl' = 0%nat ∧
    reads mem pos (hp HEADER_NAME_BEGIN ln lu nm vl ch cl) evs (pos + length (header_line h))
      (hp HEADER_NAME_BEGIN ln' lu' nm' vl' ch' cl').
Proof.
  destruct h as [name value]. intros (Hname & Hvalue & Hblank) Ht Hd Hvl Heff. cbn [fst snd] in *.
  unfold header_line in *. cbn [fst snd] in *. rewrite <- !app_assoc, (app_assoc name) in Ht.
  apply text_at_app in Ht as [Hn Hv]. rewrite length_app in Hv. cbn [length str fmap list_fmap] in Hv.
  pose proof (reads_name pos name ln lu nm vl ch cl Hname Hn) as R1.
  change (length (str ": ")) with 2%nat in *. rewrite Nat.add_assoc in Hv.
  destruct (reads_value _ value d (mkRef pos (length name)) vl ch cl Hvalue Hblank Hv Hd Hvl)
    as (ln' & lu' & vl' & Hdv & R2).
  pose proof (reads_trans _ _ _ _ _ _ _ _ _ R1 R2) as R. cbn [app] in R.
  apply text_at_app in Hn as [Hn _]. apply text_at_deref in Hn.
  rewrite !length_app. change (length (str ": ")) with 2%nat. change (length CRLF) with 2%nat.
  replace (pos + (length name + (2 + (length value + 2))))%nat with (pos + length name + 2 + length value + 2)%nat by lia.
  rewrite text_at_app in Hv. destruct Hv as [_ Hv]. unfold CRLF in Hv. cbn [app] in Hv.
  rewrite !text_at_cons in Hv. destruct Hv as (_ & _ & Hnext & _).
  exists ln', lu', (ref_clear (mkRef pos (length name))), (ref_clear vl'). split; [done|].
  rewrite <- (app_nil_l evs). eapply reads_trans; [exact R|]. rewrite <- (app_nil_r evs).
  eapply reads_stay; [|intros b|apply reads_refl].
  { by replace (pos + length name + 2 + length value + 2)%nat
      with (S (S (pos + length name + 2 + length value)))%nat by lia. }
  unfold http1_step, step_header, finish_header. cbn [p_state hp with_bytesReceived p_name p_value].
  rewrite Hn, Hdv. unfold field_effect in Heff. cbn [fst snd] in Heff.
  destruct (iequals name (str "Content-Length")); [|destruct (iequals name (str "Transfer-Encoding"));
    [destruct (iequals value (str "chunked"))|]].
  - apply bind_Ok in Heff as (n & -> & [= <- <- <-]). reflexivity.
  - by injection Heff as <- <- <-.
  - by injection Heff as <- <- <-.
  - by injection Heff as <- <- <-.
Qed.
End fields.

(** ** Header lists and the whole head *)

Fixpoint fields_effect (hs : list (bytes * bytes)) (ch : bool) (cl : Z) : result (list http_event * bool * Z) :=
  match hs with
  | [] => Ok ([], ch, cl)
  | h :: hs =>
      '(evs, ch, cl) ← field_effect h ch cl;
      '(evs', ch, cl) ← fields_effect hs ch cl;
      Ok (evs ++ evs', ch, cl)
  end.

Lemma header_line_head h : is_field h → ∃ c l, header_line h = c :: l ∧ is_blank c = false.
Proof.
  intros ([Hne Hm] & _). destruct h as [[|c name] value]; [done|]. apply Forall_cons_1 in Hm as [Hc _].
  exists c. eexists. split; [done|]. unfold is_blank.
  destruct (Z.eqb_spec c SP) as [->|]; [done|]. by destruct (Z.eqb_spec c HT) as [->|].
Qed.

Section head.
Context (mem : bytes).

Lemma reads_fields md me en vj vn co ms hs : ∀ pos ln lu nm vl ch cl evs ch' cl',
  Forall is_field hs → text_at mem pos (concat (header_line <$> hs) ++ CRLF) → ref_len vl = 0%nat →
  fields_effect hs ch cl = Ok (evs, ch', cl') →
  ∃ ln' lu' nm' vl', ref_len vl' = 0%nat ∧
    reads mem pos (hp md me en vj vn co ms HEADER_NAME_BEGIN ln lu nm vl ch cl) evs
      (pos + length (concat (header_line <$> hs)))
      (hp md me en vj vn co ms HEADER_NAME_BEGIN ln' lu' nm' vl' ch' cl').
Proof.
  induction hs as [|h hs IH]; intros pos ln lu nm vl ch cl evs ch' cl' Hhs Ht Hvl Heff; cbn [fields_effect] in Heff.
  { injection Heff as <- <- <-. exists ln, lu, nm, vl. split; [done|]. cbn. rewrite Nat.add_0_r. apply reads_refl. }
  apply Forall_cons_1 in Hhs as [Hh Hhs]. cbn [fmap list_fmap concat] in *. rewrite <- app_assoc in Ht.
  apply bind_Ok in Heff as ([[evs1 ch1] cl1] & Heff1 & Heff).
  apply bind_Ok in Heff as ([[evs2 ch2] cl2] & Heff2 & [= <- <- <-]).
  assert (Hd : ∃ d l, concat (header_line <$> hs) ++ CRLF = d :: l ∧ is_blank d = false).
  { destruct hs as [|h' hs]; [by exists 13, [10]|]. apply Forall_cons_1 in Hhs as [Hh' _].
    destruct (header_line_head h' Hh') as (d & l & E & Hd). cbn. rewrite E. by do 2 eexists. }
  destruct Hd as (d & l & El & Hd).
  assert (Ht1 : text_at mem pos (header_line h ++ [d])).
  { rewrite El in Ht. change (d :: l) with ([d] ++ l) in Ht. rewrite app_assoc in Ht. by apply text_at_app in Ht as [Ht _]. }
  destruct (reads_field mem md me en vj vn co ms pos h d ln lu nm vl ch cl _ _ _ Hh Ht1 Hd Hvl Heff1)
    as (ln1 & lu1 & nm1 & vl1 & Hvl1 & R1).
  apply text_at_app in Ht as [_ Ht].
  destruct (IH _ ln1 lu1 nm1 vl1 ch1 cl1 _ _ _ Hhs Ht Hvl1 Heff2) as (ln2 & lu2 & nm2 & vl2 & Hvl2 & R2).
  exists ln2, lu2, nm2, vl2. split; [done|]. rewrite length_app, Nat.add_assoc. by eapply reads_trans.
Qed.

(** The text of a request up to the empty line. *)
Definition request_text (m u : bytes) (v : HttpVersion) (hs : list (bytes * bytes)) : bytes :=
  m ++ [32] ++ u ++ [32] ++ version_text v ++ CRLF ++ concat (header_line <$> hs).

(** A parser between two requests. *)
Definition ready (p : Http1Parser) : Prop :=
  p_mode p = REQUEST ∧ p_state p = MESSAGE_BEGIN ∧ ref_len (p_value p) = 0%nat.

Lemma reads_request pos p m u v hs evs ch' cl' :
  ready p → is_method m → is_uri u → known_version v → Forall is_field hs →
  text_at mem pos (request_text m u v hs ++ CRLF) →
  fields_effect hs (p_chunked p) (-1) = Ok (evs, ch', cl') →
  ∃ p', reads mem pos p (RequestBegin m u v :: evs) (pos + length (request_text m u v hs) + 1) p' ∧
    p_state p' = HEADER_END_LF ∧ p_mode p' = REQUEST ∧ ref_len (p_value p') = 0%nat ∧
    p_chunked p' = ch' ∧ p_contentLength p' = cl'.
Proof.
  intros (Hmode & Hst & Hvl) Hm Hu Hv Hhs Ht Heff. destruct p as [? ? br ln lu me en vj vn co ms nm vl ch cl].
  cbn in Hmode, Hst, Hvl, Heff. subst. unfold request_text in *. rewrite <- !app_assoc in Ht.
  rewrite (app_assoc m) in Ht. apply text_at_app in Ht as [Htm Ht].
  rewrite (app_assoc u) in Ht. apply text_at_app in Ht as [Htu Ht].
  rewrite (app_assoc (version_text v)) in Ht. apply text_at_app in Ht as [Htv Ht].
  pose proof (reads_method mem ln lu co ms nm vl ch pos m me en Hm Htm) as R1.
  rewrite !length_app in Htu. rewrite !length_app in Htv. rewrite !length_app in Ht. cbn [length] in Htu, Htv, Ht.
  assert (Hlv : (length (version_text v) + length CRLF = 10)%nat) by (destruct Hv as [->|[->| ->]]; done).
  change (length CRLF) with 2%nat in Hlv, Ht.
  replace (pos + (length m + 1))%nat with (pos + length m + 1)%nat in Htu, Htv, Ht by lia.
  replace (pos + length m + 1 + (length u + 1))%nat with (pos + length m + 1 + length u + 1)%nat in Htv, Ht by lia.
  rewrite Hlv in Ht.
  pose proof (reads_uri mem ln lu co ms nm vl ch _ u (mkRef pos (length m)) en Hu Htu) as R2.
  pose proof (reads_version mem ln lu co ms nm vl ch _ v (mkRef pos (length m)) (mkRef (pos + length m + 1) (length u)) Hv Htv) as R3.
  destruct (reads_fields REQUEST (mkRef pos (length m)) (mkRef (pos + length m + 1) (length u))
    (version_numbers v).1 (version_numbers v).2 co ms hs _ ln lu nm vl ch (-1) _ _ _ Hhs Ht Hvl Heff)
    as (ln' & lu' & nm' & vl' & Hvl' & R4).
  apply text_at_app in Ht as [_ Hend]. unfold CRLF in Hend. apply text_at_cons in Hend as [Hcr _].
  assert (Hfirst : ∃ c, mem !! pos = Some c).
  { destruct Hm as [Hne _]. destruct m as [|c m]; [done|]. cbn in Htm. apply text_at_cons in Htm as [Hc _]. by exists c. }
  destruct Hfirst as [c Hc].
  apply text_at_app in Htm as [Htm _]. apply text_at_app in Htu as [Htu _]. apply text_at_deref in Htm, Htu.
  rewrite Htm, Htu in R3.
  exists (hp REQUEST (mkRef pos (length m)) (mkRef (pos + length m + 1) (length u))
    (version_numbers v).1 (version_numbers v).2 co ms HEADER_END_LF ln' lu' nm' vl' ch' cl').
  split; [|done].
  eapply (reads_stay _ _ _ _ (rl ln lu co ms nm vl ch REQUEST_LINE_BEGIN me en 0 0) []); [exact Hc|intros b; reflexivity|].
  change (RequestBegin m u v :: evs) with ([] ++ [] ++ [RequestBegin m u v] ++ evs).
  eapply reads_trans; [exact R1|]. eapply reads_trans; [exact R2|]. eapply reads_trans; [exact R3|].
  rewrite <- (app_nil_r evs). eapply reads_trans; [exact R4|].
  rewrite !length_app. cbn [length]. change (length CRLF) with 2%nat.
  match goal with |- reads _ ?a _ _ ?b _ => replace b with (a + 1)%nat by lia end.
  eapply reads_step; [exact Hcr|intros b; reflexivity].
Qed.
End head.

(** ** Numbers *)

Definition is_decimal (s : bytes) : Prop := s ≠ [] ∧ Forall (λ c, isdigit c = true) s.

Lemma isdigit_range c : isdigit c = true ↔ 48 ≤ c ≤ 57.
Proof. unfold isdigit. rewrite andb_true_iff, !Z.leb_le. done. Qed.

Lemma print_number_nonempty fuel base n : (0 < fuel)%nat → print_number fuel base n ≠ [].
Proof.
  destruct fuel as [|fuel]; [lia|]. intros _. cbn [print_number]. destruct (_ <? _); [done|].
  by destruct (print_number fuel base (n / base)).
Qed.

Lemma print_decimal_digits fuel n : 0 ≤ n → Forall (λ c, isdigit c = true) (print_number fuel 10 n).
Proof.
  revert n; induction fuel as [|fuel IH]; intros n Hn; cbn [print_number]; [constructor|].
  assert (Hdig : ∀ d, 0 ≤ d < 10 → isdigit (digit_char d) = true).
  { intros d Hd. apply isdigit_range. unfold digit_char. rewrite (proj2 (Z.ltb_lt _ _)); lia. }
  destruct (Z.ltb_spec n 10); [constructor; [apply Hdig; lia|constructor]|].
  apply Forall_app. split; [apply IH, Z.div_pos; lia|].
  constructor; [apply Hdig, Z.mod_pos_bound; lia|constructor].
Qed.

Lemma toInt_digits_app v s s' :
  Forall (λ c, isdigit c = true) s → toInt_digits v (s ++ s') = (w ← toInt_digits v s; toInt_digits w s').
Proof.
  revert v; induction s as [|c s IH]; intros v Hs; [done|]. apply Forall_cons_1 in Hs as [Hc%isdigit_range Hs].
  cbn [app toInt_digits]. rewrite (proj2 (Z.ltb_ge c 48)), (proj2 (Z.ltb_ge 57 c)) by lia. cbn [orb].
  destruct (_ <=? _); [done|]. by apply IH.
Qed.

Lemma toInt_print fuel n :
  0 ≤ n < 10 ^ Z.of_nat fuel → n < 2 ^ 31 → toInt_digits 0 (print_number fuel 10 n) = Ok n.
Proof.
  revert n; induction fuel as [|fuel IH]; intros n Hn Hmax; [cbn in Hn; replace n with 0 by lia; done|].
  assert (Hlast : ∀ v d, 0 ≤ d < 10 → 0 ≤ v → v * 10 + d < 2 ^ 31 →
    toInt_digits v [digit_char d] = Ok (v * 10 + d)).
  { intros v d Hd Hv Hlim. unfold digit_char. rewrite (proj2 (Z.ltb_lt _ _)) by lia. cbn [toInt_digits].
    rewrite (proj2 (Z.ltb_ge _ 48)), (proj2 (Z.ltb_ge 57 _)) by lia. cbn [orb].
    rewrite (proj2 (Z.leb_gt _ _)) by lia. f_equal. lia. }
  cbn [print_number]. destruct (Z.ltb_spec n 10).
  - rewrite Hlast by lia. done.
  - pose proof (Z.mod_pos_bound n 10 ltac:(lia)). pose proof (Z.div_mod n 10 ltac:(lia)).
    rewrite toInt_digits_app by (apply print_decimal_digits, Z.div_pos; lia).
    rewrite Nat2Z.inj_succ, Z.pow_succ_r in Hn by lia.
    rewrite IH by (try split; (apply Z.div_pos || apply Z.div_lt_upper_bound || idtac); lia).
    cbn [mbind result_bind]. rewrite Hlast by (try apply Z.div_pos; lia). f_equal. lia.
Qed.

Lemma toInt_decimal n : 0 ≤ n < 2 ^ 31 → toInt (decimal n) = Ok n.
Proof.
  intros Hn. unfold decimal.
  pose proof (toInt_print 64 n ltac:(split; [lia|]; apply (Z.lt_trans _ (2 ^ 31)); [lia|done]) ltac:(lia)) as Hp.
  pose proof (print_decimal_digits 64 n ltac:(lia)) as Hd.
  destruct (print_number 64 10 n) as [|c s] eqn:E; [by apply print_number_nonempty in E; [|lia]|].
  unfold toInt. apply Forall_cons_1 in Hd as [Hc%isdigit_range _].
  by rewrite (proj2 (Z.eqb_neq c 45)), (proj2 (Z.eqb_neq c 43)) by lia.
Qed.

Lemma decimal_text n : 0 ≤ n → is_field (str "Content-Length", decimal n).
Proof.
  intros Hn. pose proof (print_decimal_digits 64 n Hn) as Hd. cbn [fst snd]. split; [|split].
  - split; [done|]. by apply (bool_decide_unpack _).
  - cbn [snd]. unfold decimal. eapply list.Forall_impl; [exact Hd|]. intros c Hc%isdigit_range.
    unfold isText, isControl. rewrite (proj2 (Z.leb_gt c 31)), (proj2 (Z.eqb_neq c 127)) by lia. done.
  - cbn [snd]. unfold decimal. destruct (print_number 64 10 n) as [|c s]; [done|].
    apply Forall_cons_1 in Hd as [Hc%isdigit_range _]. unfold is_blank, SP, HT.
    by rewrite (proj2 (Z.eqb_neq c 32)), (proj2 (Z.eqb_neq c 9)) by lia.
Qed.

(** ** From a run to [parseFragment] *)

Lemma with_own_bytes p : with_bytesReceived (p_bytesReceived p) p = p.
Proof. by destruct p. Qed.

Lemma parse_reads_done mem pos p evs pos' p' c p2 n evs2 :
  parser_wf pos p → (pos ≤ length mem)%nat → reads mem pos p evs pos' p' → mem !! pos' = Some c →
  (∀ b, http1_step mem pos' c (with_bytesReceived b p') = mkOut (with_bytesReceived b p2) n evs2 Done) →
  ∃ b, parseFragment mem pos p = (with_bytesReceived b p2, (pos' + n)%nat, evs ++ evs2, None).
Proof.
  intros Hwf Hpos Hr Hc Hstep. destruct (Hr (p_bytesReceived p)) as [b Hs]. rewrite with_own_bytes in Hs.
  exists (b + Z.of_nat n). eapply (parseFragment_steps mem pos p evs pos' _ 1); [done|done|exact Hs| |done].
  cbn [http1_loop]. rewrite Hc, Hstep. done.
Qed.

Lemma parse_reads_end mem pos p evs p' :
  parser_wf pos p → (pos ≤ length mem)%nat → reads mem pos p evs (length mem) p' →
  (∀ b, end_of_fragment (length mem) (with_bytesReceived b p') =
        (with_bytesReceived b p', length mem, [], None)) →
  ∃ b, parseFragment mem pos p = (with_bytesReceived b p', length mem, evs, None).
Proof.
  intros Hwf Hpos Hr Hend. destruct (Hr (p_bytesReceived p)) as [b Hs]. rewrite with_own_bytes in Hs.
  exists b. rewrite <- (app_nil_r evs).
  eapply (parseFragment_steps mem pos p evs (length mem) _ 0); [done|done|exact Hs| |done].
  cbn [http1_loop]. rewrite lookup_ge_None_2 by lia. apply Hend.
Qed.

(** ** Requests with a content length *)

(** A field the parser does not interpret. *)
Definition plain_field (h : bytes * bytes) : Prop :=
  is_field h ∧ iequals h.1 (str "Content-Length") = false ∧ iequals h.1 (str "Transfer-Encoding") = false.

Definition header_event (h : bytes * bytes) : http_event := MessageHeader h.1 h.2.
Definition content_events (body : bytes) : list http_event :=
  if bool_decide (body = []) then [] else [MessageContent body].

Lemma fields_effect_plain hs hs' ch cl :
  Forall plain_field hs →
  fields_effect (hs ++ hs') ch cl =
  ('(evs, ch, cl) ← fields_effect hs' ch cl; Ok ((header_event <$> hs) ++ evs, ch, cl)).
Proof.
  induction hs as [|h hs IH]; intros Hhs; cbn [app fields_effect].
  { by destruct (fields_effect hs' ch cl) as [[[? ?] ?]|]. }
  apply Forall_cons_1 in Hhs as [(_ & H1 & H2) Hhs]. unfold field_effect. rewrite H1, H2.
  cbn [mbind result_bind]. rewrite (IH Hhs). by destruct (fields_effect hs' ch cl) as [[[? ?] ?]|].
Qed.

Lemma header_lines_plain hs : Forall plain_field hs → header_lines hs = concat (header_line <$> hs).
Proof.
  intros Hhs. unfold header_lines. f_equal. induction Hhs as [|h hs ([[Hne Hm] _] & _) Hhs IH]; [done|].
  cbn. rewrite IH. f_equal. unfold is_pseudo. rewrite bool_decide_false; [done|].
  destruct h as [[|c n] v]; [done|]. cbn in *. apply Forall_cons_1 in Hm as [Hc _]. by intros [= ->].
Qed.

Lemma plain_is_field hs : Forall plain_field hs → Forall is_field hs.
Proof. intros H. eapply list.Forall_impl; [exact H|]. by intros h []. Qed.

Definition request_ok (info : HttpRequestInfo) : Prop :=
  is_method (rq_method info) ∧ is_uri (rq_uri info) ∧ known_version (hi_version (rq_info info)) ∧
  Forall plain_field (hi_headers (rq_info info)) ∧ hi_trailers (rq_info info) = [].

Definition length_field (n : Z) : bytes * bytes := (str "Content-Length", decimal n).

Lemma generateRequestHead_text info hs :
  request_ok info →
  header_block (rq_info info) false = concat (header_line <$> hs) ++ CRLF →
  ∃ b, generateRequestHead info newHttp1Generator =
    Ok (mkHttp1Generator b (hi_contentLength (rq_info info)) 0
          (negb (hasContentLength (rq_info info)) || hasTrailers (rq_info info)) []
          (request_text (rq_method info) (rq_uri info) (hi_version (rq_info info)) hs ++ CRLF)).
Proof.
  intros (_ & _ & Hv & _) Hb. unfold generateRequestHead, generateRequestLine, g1_generateHeaders.
  destruct Hv as [->|[->| ->]]; eexists; cbn [mbind result_bind]; unfold flushBuffer, g1_push, newHttp1Generator;
    cbn [g1_buffer g1_bytesTransmitted g1_contentLength g1_actualContentLength g1_chunked g1_written];
    rewrite Hb, bool_decide_false by (destruct (rq_method info); cbn; destruct (rq_uri info); done);
    do 2 f_equal; unfold request_text, version_text; rewrite <- !app_assoc; done.
Qed.

Lemma content_length_block info n :
  Forall plain_field (hi_headers info) → hi_trailers info = [] → hi_contentLength info = n →
  n ≠ UnknownContentLength →
  header_block info false = concat (header_line <$> hi_headers info ++ [length_field n]) ++ CRLF.
Proof.
  intros Hp Ht Hn Hne. unfold header_block, hasTrailers, hasContentLength.
  rewrite Ht, Hn, (proj2 (Z.eqb_neq n UnknownContentLength) Hne), (header_lines_plain _ Hp). cbn [negb orb].
  rewrite bool_decide_true by done. cbn [negb].
  rewrite fmap_app, concat_app, <- !app_assoc. f_equal. cbn [fmap list_fmap concat].
  rewrite app_nil_r. unfold header_line, length_field. cbn [fst snd]. by rewrite <- !app_assoc.
Qed.

Lemma text_at_length mem pos s : text_at mem pos s → s ≠ [] → (pos + length s ≤ length mem)%nat.
Proof.
  intros Ht Hne. destruct (lookup_lt_is_Some_2 s (length s - 1)) as [c Hc]; [destruct s; [done|cbn; lia]|].
  apply Ht, lookup_lt_Some in Hc. destruct s; [done|cbn in *; lia].
Qed.

(** The body of known length, in one piece. *)
Lemma reads_body mem pos body ln lu me en vj vn co ms nm vl br :
  body ≠ [] → Z.of_nat (length body) < 2 ^ 31 → text_at mem pos body →
  ∃ c, mem !! pos = Some c ∧
  ∀ b, http1_step mem pos c (with_bytesReceived b
      (mkHttp1Parser REQUEST CONTENT br ln lu me en vj vn co ms nm vl false (Z.of_nat (length body)))) =
    mkOut (with_bytesReceived b (mkHttp1Parser REQUEST MESSAGE_BEGIN br ln lu me en vj vn co ms nm vl false 0))
      (length body) [MessageContent body; MessageEnd] Done.
Proof.
  intros Hne Hmax Ht. pose proof (text_at_length _ _ _ Ht Hne) as Hlen.
  pose proof (text_at_deref _ _ _ Ht) as Hd.
  destruct body as [|c body]; [done|]. exists c. apply text_at_cons in Ht as [Hc _]. split; [done|].
  intros b. cbn [http1_step p_state with_bytesReceived step_content].
  assert (Hn : ∀ p, p_contentLength p = Z.of_nat (length (c :: body)) → chunk_size mem pos p = length (c :: body)).
  { intros p Hp. unfold chunk_size. rewrite Hp, unsigned_id by auto with x0. lia. }
  rewrite Hn by done. cbn [p_contentLength]. rewrite Z.sub_diag. cbn [Z.eqb].
  unfold pass_content. cbn [p_contentLength]. by rewrite Z.sub_diag, Hd.
Qed.

(** The end of a head that announces content, and of one that does not. *)
Lemma reads_head_end mem pos br ln lu me en vj vn co ms nm vl ch cl :
  mem !! pos = Some 10 → (0 <? cl) || ch = true →
  reads mem pos (mkHttp1Parser REQUEST HEADER_END_LF br ln lu me en vj vn co ms nm vl ch cl) [MessageHeaderEnd]
    (S pos) (mkHttp1Parser REQUEST CONTENT_BEGIN br ln lu me en vj vn co ms nm vl ch cl).
Proof.
  intros Hlf Hexp. eapply (reads_next _ _ _ _ _ [MessageHeaderEnd] []); [exact Hlf| |apply reads_refl].
  intros b. cbn. unfold isContentExpected. cbn. by rewrite Hexp.
Qed.

(** What the generator writes for a request with a content length. *)
Lemma generateRequest_length info body :
  request_ok info → hi_contentLength (rq_info info) = Z.of_nat (length body) →
  Z.of_nat (length body) < 2 ^ 31 →
  ∃ g, generateRequest info body newHttp1Generator = Ok g ∧
    g1_written g = (request_text (rq_method info) (rq_uri info) (hi_version (rq_info info))
      (hi_headers (rq_info info) ++ [length_field (Z.of_nat (length body))]) ++ CRLF) ++ body.
Proof.
  intros Hok Hlen Hmax. pose proof Hok as (_ & _ & _ & Hh & Ht). set (n := Z.of_nat (length body)) in *.
  assert (Hne : n ≠ UnknownContentLength) by (unfold UnknownContentLength; lia).
  destruct (generateRequestHead_text info (hi_headers (rq_info info) ++ [length_field n]) Hok) as [b Hg];
    [by apply content_length_block|].
  assert (Hch : negb (hasContentLength (rq_info info)) || hasTrailers (rq_info info) = false).
  { unfold hasContentLength, hasTrailers. by rewrite Hlen, Ht, (proj2 (Z.eqb_neq _ _)). }
  eexists. split.
  { unfold generateRequest. rewrite Hg. cbn [mbind result_bind]. unfold generateBody.
    cbn [g1_chunked]. rewrite Hch. unfold remainingContentLength. cbn [g1_contentLength g1_actualContentLength].
    rewrite Hlen, Z.sub_0_r, unsigned_id, Z.leb_refl by auto with x0. reflexivity. }
  done.
Qed.

(** The fields the parser reports and the length it takes from them. *)
Lemma length_fields hs n ch :
  Forall plain_field hs → 0 ≤ n < 2 ^ 31 →
  Forall is_field (hs ++ [length_field n]) ∧
  fields_effect (hs ++ [length_field n]) ch (-1) = Ok (header_event <$> hs ++ [length_field n], ch, n).
Proof.
  intros Hh Hn. split.
  - apply Forall_app. split; [by apply plain_is_field|]. constructor; [apply decimal_text; lia|constructor].
  - rewrite fields_effect_plain by done. cbn [fields_effect]. unfold field_effect, length_field.
    cbn [fst snd]. change (iequals (str "Content-Length") (str "Content-Length")) with true. cbn [mbind].
    rewrite toInt_decimal by lia. cbn [mbind result_bind]. by rewrite fmap_app.
Qed.

(** Positions behind the head. *)
Lemma text_at_head mem pos txt rest :
  text_at mem pos ((txt ++ CRLF) ++ rest) →
  text_at mem pos (txt ++ CRLF) ∧ (pos ≤ length mem)%nat ∧
  mem !! (pos + length txt + 1)%nat = Some 10 ∧ text_at mem (pos + length txt + 2) rest.
Proof.
  intros [Hh Hb]%text_at_app. split; [done|]. apply text_at_app in Hh as [_ Hcrlf].
  unfold CRLF in Hcrlf. rewrite !text_at_cons in Hcrlf. destruct Hcrlf as (_ & Hlf & _).
  rewrite length_app, Nat.add_assoc in Hb. split; [apply lookup_lt_Some in Hlf; lia|].
  split; [|done]. by replace (S (pos + length txt)) with (pos + length txt + 1)%nat in Hlf by lia.
Qed.


Definition example_request_info : HttpRequestInfo :=
  mkHttpRequestInfo (str "PUT") (str "/a?b") (mkHttpInfo VERSION_1_1 3 [(str "Host", str "x0.io")] []).

Lemma example_request_ok : request_ok example_request_info.
Proof.
  unfold request_ok, is_method, is_uri, known_version, plain_field, is_field. cbn [rq_method rq_uri rq_info hi_version hi_headers hi_trailers].
  split_and!; try done; try (by right; right); try (apply (bool_decide_unpack _); by vm_compute).
  constructor; [|constructor]. cbn [fst snd]. split_and!; try done; apply (bool_decide_unpack _); by vm_compute.
Qed.

