(* ===== verification/Http1Chunked.v ===== *)
(** * HTTP/1: chunked bodies, and what they leave behind *)
From S2P Require Import Prelude Http1Parser Http1Safety Http1Generator Http1Run Http1Roundtrip.

(** ** Hexadecimal numbers *)

Definition hex_value (c : Z) : Z := if isdigit c then c - 48 else if 97 <=? c then c - 87 else c - 55.
Definition hex_number (v : Z) (s : bytes) : Z := foldl (λ v c, v * 16 + hex_value c) v s.

Lemma hex_value_range c : isxdigit c = true → 0 ≤ hex_value c < 16.
Proof.
  unfold isxdigit, hex_value, isdigit. intros H.
  destruct (Z.leb_spec 48 c), (Z.leb_spec c 57), (Z.leb_spec 97 c), (Z.leb_spec c 102),
    (Z.leb_spec 65 c), (Z.leb_spec c 70); cbn [andb orb] in *; try done; lia.
Qed.

Lemma hex_digit_value v c :
  isxdigit c = true → 0 ≤ v → v * 16 + hex_value c < 2 ^ 62 → hex_digit v c = Some (v * 16 + hex_value c).
Proof.
  intros Hx Hv Hlim. unfold hex_digit. unfold isxdigit, hex_value, isdigit in *.
  destruct (Z.leb_spec 48 c), (Z.leb_spec c 57), (Z.leb_spec 97 c), (Z.leb_spec c 102),
    (Z.leb_spec 65 c), (Z.leb_spec c 70); cbn [andb orb] in *; try done;
    rewrite (proj2 (Z.ltb_lt _ _)) by lia; f_equal; lia.
Qed.

Lemma hex_number_mono s : ∀ v, 0 ≤ v → Forall (λ c, isxdigit c = true) s → v ≤ hex_number v s.
Proof.
  induction s as [|c s IH]; intros v Hv Hs; [done|]. apply Forall_cons_1 in Hs as [Hc%hex_value_range Hs].
  cbn. specialize (IH (v * 16 + hex_value c) ltac:(lia) Hs). unfold hex_number in *. lia.
Qed.

Lemma digit_char_hex d : 0 ≤ d < 16 → isxdigit (digit_char d) = true ∧ hex_value (digit_char d) = d.
Proof.
  intros Hd. assert (H : forallb (λ d, isxdigit (digit_char d) && (hex_value (digit_char d) =? d)) (seqZ 0 16) = true)
    by (by vm_compute).
  rewrite forallb_forall in H. specialize (H d).
  rewrite <- list_elem_of_In, elem_of_seqZ, andb_true_iff, Z.eqb_eq in H. apply H. lia.
Qed.

Lemma print_hex fuel n :
  0 ≤ n < 16 ^ Z.of_nat fuel →
  Forall (λ c, isxdigit c = true) (print_number fuel 16 n) ∧ hex_number 0 (print_number fuel 16 n) = n.
Proof.
  revert n; induction fuel as [|fuel IH]; intros n Hn; [cbn in *; split; [constructor|lia]|].
  cbn [print_number]. destruct (Z.ltb_spec n 16).
  - destruct (digit_char_hex n) as [H1 H2]; [lia|]. split; [by constructor|]. cbn. by rewrite H2.
  - rewrite Nat2Z.inj_succ, Z.pow_succ_r in Hn by lia.
    destruct (IH (n / 16)) as [H1 H2]; [split; [apply Z.div_pos|apply Z.div_lt_upper_bound]; lia|].
    pose proof (Z.mod_pos_bound n 16 ltac:(lia)) as Hm. destruct (digit_char_hex (n mod 16) Hm) as [H3 H4].
    split; [apply Forall_app; split; [done|by constructor]|].
    unfold hex_number in *. rewrite foldl_app, H2. cbn. rewrite H4. pose proof (Z.div_mod n 16). lia.
Qed.

Lemma hexadecimal_spec n :
  0 ≤ n < 2 ^ 31 →
  Forall (λ c, isxdigit c = true) (hexadecimal n) ∧ hex_number 0 (hexadecimal n) = n.
Proof. intros Hn. apply print_hex. split; [lia|]. apply (Z.lt_trans _ (2 ^ 31)); [lia|done]. Qed.

(** ** Chunks *)

Section chunks.
Context (mem : bytes) (md : ParseMode) (ln lu : State) (me en : BufRef) (vj vn co : Z) (ms nm vl : BufRef).

Definition cp (st : State) (cl : Z) : Http1Parser :=
  mkHttp1Parser md st 0 ln lu me en vj vn co ms nm vl true cl.

Lemma reads_hex s : ∀ pos v,
  0 ≤ v → Forall (λ c, isxdigit c = true) s → hex_number v s < 2 ^ 62 → text_at mem pos s →
  reads mem pos (cp CONTENT_CHUNK_SIZE v) [] (pos + length s) (cp CONTENT_CHUNK_SIZE (hex_number v s)).
Proof.
  induction s as [|c s IH]; intros pos v Hv Hs Hlim Ht.
  { cbn. rewrite Nat.add_0_r. apply reads_refl. }
  apply Forall_cons_1 in Hs as [Hc Hs]. apply text_at_cons in Ht as [Hc0 Ht]. cbn [length].
  pose proof (hex_value_range c Hc) as Hr.
  change (hex_number v (c :: s)) with (hex_number (v * 16 + hex_value c) s) in *.
  pose proof (hex_number_mono s (v * 16 + hex_value c) ltac:(lia) Hs) as Hmono.
  eapply (reads_next _ _ _ _ (cp CONTENT_CHUNK_SIZE (v * 16 + hex_value c)) [] []); [done| |].
  - intros b. cbn. unfold step_chunk_size. rewrite Hc. change (p_contentLength _) with v. rewrite hex_digit_value by (done || lia).
    destruct (Z.eqb_spec c CR) as [->|]; [done|]. done.
  - rewrite <- Nat.add_succ_comm. apply IH; [lia|done|done|done].
Qed.

Definition chunk_text (body : bytes) : bytes :=
  if 0 <? Z.of_nat (length body)
  then hexadecimal (Z.of_nat (length body)) ++ CRLF ++ body ++ CRLF else [].

(** The data of a chunk, in one piece. *)
Lemma reads_chunk_body pos body :
  body ≠ [] → Z.of_nat (length body) < 2 ^ 31 → text_at mem pos body →
  reads mem pos (cp CONTENT_CHUNK_BODY (Z.of_nat (length body))) [MessageContent body] (pos + length body)
    (cp CONTENT_CHUNK_BODY 0).
Proof.
  intros Hne Hmax Ht. pose proof (text_at_length _ _ _ Ht Hne) as Hlen. pose proof (text_at_deref _ _ _ Ht) as Hd.
  destruct body as [|c body]; [done|]. apply text_at_cons in Ht as [Hc _].
  eapply reads_step; [exact Hc|]. intros b. cbn [http1_step p_state with_bytesReceived step_content cp].
  assert (Hn : ∀ p, p_contentLength p = Z.of_nat (length (c :: body)) → chunk_size mem pos p = length (c :: body)).
  { intros p Hp. unfold chunk_size. rewrite Hp, unsigned_id by auto with x0. lia. }
  cbn [p_contentLength]. rewrite (proj2 (Z.eqb_neq _ 0)) by (cbn; lia). cbn [negb].
  unfold pass_content. rewrite Hn by done. cbn [p_contentLength]. by rewrite Z.sub_diag, Hd.
Qed.

Lemma reads_chunk pos body :
  Z.of_nat (length body) < 2 ^ 31 → text_at mem pos (chunk_text body) →
  reads mem pos (cp CONTENT_CHUNK_SIZE 0) (content_events body) (pos + length (chunk_text body))
    (cp CONTENT_CHUNK_SIZE 0).
Proof.
  intros Hmax Ht. unfold chunk_text, content_events in *. destruct body as [|c body].
  { cbn. rewrite Nat.add_0_r. apply reads_refl. }
  rewrite bool_decide_false by done. rewrite (proj2 (Z.ltb_lt 0 _)) in * by (cbn; lia).
  set (bd := c :: body) in *. set (n := Z.of_nat (length bd)) in *.
  destruct (hexadecimal_spec n) as [Hx Hval]; [lia|].
  apply text_at_app in Ht as [Hhex Ht]. apply text_at_app in Ht as [Hcrlf Ht].
  apply text_at_app in Ht as [Hbody Hcrlf'].
  change (length CRLF) with 2%nat in *. unfold CRLF in Hcrlf, Hcrlf'. rewrite !text_at_cons in Hcrlf, Hcrlf'.
  destruct Hcrlf as (Hcr & Hlf & _), Hcrlf' as (Hcr' & Hlf' & _).
  rewrite !length_app. change (length CRLF) with 2%nat.
  pose proof (reads_hex (hexadecimal n) pos 0 ltac:(lia) Hx ltac:(lia) Hhex) as R1. rewrite Hval in R1.
  set (q := (pos + length (hexadecimal n))%nat) in *.
  rewrite <- (app_nil_l [MessageContent bd]). eapply reads_trans; [exact R1|].
  read_to (cp CONTENT_CHUNK_LF1 n).
  eapply (reads_next _ _ _ _ (cp CONTENT_CHUNK_BODY n) []); [exact Hlf| |].
  { intros b. cbn. rewrite (proj2 (Z.eqb_neq n 0)) by (subst n; cbn; lia). done. }
  replace (S (S q)) with (q + 2)%nat by lia.
  rewrite <- (app_nil_r [MessageContent bd]).
  eapply reads_trans; [apply (reads_chunk_body (q + 2) bd); done|].
  read_to (cp CONTENT_CHUNK_LF2 0).
  replace (pos + (length (hexadecimal n) + (2 + (length bd + 2))))%nat with (S (S (q + 2 + length bd))) by (subst q; lia).
  read_to (cp CONTENT_CHUNK_SIZE 0). apply reads_refl.
Qed.

Definition body_events (chunks : list bytes) : list http_event := concat (content_events <$> chunks).

Lemma reads_chunks chunks : ∀ pos,
  Forall (λ body, Z.of_nat (length body) < 2 ^ 31) chunks →
  text_at mem pos (concat (chunk_text <$> chunks)) →
  reads mem pos (cp CONTENT_CHUNK_SIZE 0) (body_events chunks) (pos + length (concat (chunk_text <$> chunks)))
    (cp CONTENT_CHUNK_SIZE 0).
Proof.
  induction chunks as [|body chunks IH]; intros pos Hs Ht.
  { cbn. rewrite Nat.add_0_r. apply reads_refl. }
  apply Forall_cons_1 in Hs as [Hb Hs]. unfold body_events in *. cbn [fmap list_fmap concat] in *.
  apply text_at_app in Ht as [Ht1 Ht2]. rewrite length_app, Nat.add_assoc.
  eapply reads_trans; [by apply reads_chunk|]. by apply IH.
Qed.

(** The last chunk, up to the last line feed. *)
Definition last_chunk : bytes := str "0" ++ CRLF ++ CRLF.

Lemma reads_last_chunk pos :
  text_at mem pos last_chunk →
  reads mem pos (cp CONTENT_CHUNK_SIZE 0) [] (pos + 4) (cp CONTENT_CHUNK_LF3 0) ∧ mem !! (pos + 4)%nat = Some 10.
Proof.
  intros Ht. change last_chunk with [48; 13; 10; 13; 10] in Ht. rewrite !text_at_cons in Ht.
  destruct_and!. replace (pos + 4)%nat with (S (S (S (S pos)))) by lia. split; [|done].
  read_to (cp CONTENT_CHUNK_SIZE 0). read_to (cp CONTENT_CHUNK_LF1 0). read_to (cp CONTENT_CHUNK_CR3 0).
  read_to (cp CONTENT_CHUNK_LF3 0). apply reads_refl.
Qed.

(** The state before the first chunk size behaves like a size of zero. *)
Lemma chunk_size_begin pos c evs pos' p' :
  mem !! pos = Some c → isxdigit c = true → (pos < pos')%nat →
  reads mem pos (cp CONTENT_CHUNK_SIZE 0) evs pos' p' →
  reads mem pos (cp CONTENT_CHUNK_SIZE_BEGIN (-1)) evs pos' p'.
Proof.
  intros Hc Hx Hlt Hr b. destruct (Hr b) as [b' Hs]. exists b'.
  assert (Hstep : http1_step mem pos c (with_bytesReceived b (cp CONTENT_CHUNK_SIZE_BEGIN (-1))) =
                  http1_step mem pos c (with_bytesReceived b (cp CONTENT_CHUNK_SIZE 0))).
  { cbn. by rewrite Hx. }
  inversion Hs as [|? ? c' evs' ? ? Hc' Hct Hs']; subst; [lia|].
  rewrite Hc in Hc'. injection Hc' as <-. rewrite <- Hstep in *. by eapply steps_cons.
Qed.

(** A chunked body, from the end of the head to the last line feed. *)
Lemma reads_chunked pos chunks :
  Forall (λ body, Z.of_nat (length body) < 2 ^ 31) chunks →
  text_at mem pos (concat (chunk_text <$> chunks) ++ last_chunk) →
  let q := (pos + length (concat (chunk_text <$> chunks)) + 4)%nat in
  reads mem pos (cp CONTENT_BEGIN (-1)) (body_events chunks) q (cp CONTENT_CHUNK_LF3 0) ∧ mem !! q = Some 10.
Proof.
  intros Hs Ht q.
  assert (Hfirst : ∃ c, mem !! pos = Some c ∧ isxdigit c = true).
  { assert (Hhd : ∃ c l, concat (chunk_text <$> chunks) ++ last_chunk = c :: l ∧ isxdigit c = true).
    { clear q Ht. induction chunks as [|body chunks IH]; [by exists 48, [13; 10; 13; 10]|].
      apply Forall_cons_1 in Hs as [Hb Hs]. cbn [fmap list_fmap concat]. unfold chunk_text at 1.
      destruct (Z.ltb_spec 0 (Z.of_nat (length body))); [|by apply IH].
      destruct (hexadecimal_spec (Z.of_nat (length body))) as [Hx _]; [lia|].
      destruct (hexadecimal (Z.of_nat (length body))) as [|c l] eqn:E;
        [by apply print_number_nonempty in E; [|lia]|].
      apply Forall_cons_1 in Hx as [Hx _]. by do 2 eexists. }
    destruct Hhd as (c & l & E & Hx). rewrite E in Ht. apply text_at_cons in Ht as [Hc _]. by exists c. }
  destruct Hfirst as (c & Hc & Hx). apply text_at_app in Ht as [Ht1 Ht2].
  destruct (reads_last_chunk _ Ht2) as [R2 Hlf]. split; [|done].
  eapply (reads_stay _ _ _ _ (cp CONTENT_CHUNK_SIZE_BEGIN (-1)) [] (body_events chunks)); [exact Hc|by intros b|].
  apply (chunk_size_begin pos c); [done|done|subst q; lia|]. rewrite <- (app_nil_r (body_events chunks)).
  eapply reads_trans; [by apply reads_chunks|]. exact R2.
Qed.
End chunks.

(** ** Chunked requests *)

Fixpoint generateBodies (chunks : list bytes) (g : Http1Generator) : result Http1Generator :=
  match chunks with
  | [] => Ok g
  | c :: chunks => g ← generateBody c g; generateBodies chunks g
  end.

(** A request without a content length: the head, any number of chunks, the
    end. *)
Definition generateChunkedRequest (info : HttpRequestInfo) (chunks : list bytes) (g : Http1Generator) :
    result Http1Generator :=
  g ← generateRequestHead info g;
  g ← generateBodies chunks g;
  Ok (generateTrailer [] g).

Definition chunked_field : bytes * bytes := (str "Transfer-Encoding", str "chunked").

Lemma generateBodies_chunked chunks b cl w :
  generateBodies chunks (mkHttp1Generator b cl 0 true [] w) =
  Ok (mkHttp1Generator b cl 0 true [] (w ++ concat (chunk_text <$> chunks))).
Proof.
  revert w; induction chunks as [|c chunks IH]; intros w; cbn [generateBodies fmap list_fmap concat].
  { by rewrite app_nil_r. }
  unfold generateBody, chunk_text at 1. cbn [g1_chunked]. destruct (_ <? _); cbn [mbind result_bind].
  - unfold g1_write. cbn [g1_bytesTransmitted g1_contentLength g1_actualContentLength g1_chunked g1_buffer g1_written].
    rewrite IH. by rewrite <- app_assoc.
  - apply IH.
Qed.

Lemma chunked_block info :
  Forall plain_field (hi_headers info) → hi_trailers info = [] → hi_contentLength info = UnknownContentLength →
  header_block info false = concat (header_line <$> hi_headers info ++ [chunked_field]) ++ CRLF.
Proof.
  intros Hp Ht Hn. unfold header_block, hasTrailers, hasContentLength.
  rewrite Ht, Hn, Z.eqb_refl, (header_lines_plain _ Hp). cbn [negb orb]. rewrite bool_decide_true by done. cbn [negb].
  rewrite fmap_app, concat_app, <- !app_assoc. by f_equal.
Qed.

Lemma generateChunkedRequest_text info chunks :
  request_ok info → hi_contentLength (rq_info info) = UnknownContentLength →
  ∃ g, generateChunkedRequest info chunks newHttp1Generator = Ok g ∧
    g1_written g = (request_text (rq_method info) (rq_uri info) (hi_version (rq_info info))
      (hi_headers (rq_info info) ++ [chunked_field]) ++ CRLF) ++
      concat (chunk_text <$> chunks) ++ last_chunk.
Proof.
  intros Hok Hn. pose proof Hok as (_ & _ & _ & Hh & Ht).
  destruct (generateRequestHead_text info (hi_headers (rq_info info) ++ [chunked_field]) Hok) as [b Hg];
    [by apply chunked_block|].
  assert (Hch : negb (hasContentLength (rq_info info)) || hasTrailers (rq_info info) = true).
  { unfold hasContentLength. by rewrite Hn, Z.eqb_refl. }
  rewrite Hch in Hg. eexists. split.
  { unfold generateChunkedRequest. rewrite Hg. cbn [mbind result_bind]. rewrite generateBodies_chunked. reflexivity. }
  unfold generateTrailer. cbn [g1_chunked]. unfold flushBuffer, g1_push. cbn. by rewrite <- !app_assoc.
Qed.


Definition example_chunked : HttpRequestInfo :=
  mkHttpRequestInfo (str "PUT") (str "/a?b")
    (mkHttpInfo VERSION_1_1 UnknownContentLength [(str "Host", str "x0.io")] []).


(** [chunked_] is not reset between messages: after a chunked
    request on the same connection, a request without a body (content length 0)
    is not completed. The parser reports its head and waits for a chunk that
    never comes. *)
Theorem chunked_flag_sticks info :
  request_ok info → hi_contentLength (rq_info info) = 0 →
  ∃ g, generateRequest info [] newHttp1Generator = Ok g ∧
  ∀ mem pos p, parser_wf pos p → ready p → p_chunked p = true → text_at mem pos (g1_written g) →
  length mem = (pos + length (g1_written g))%nat →
  ∃ p', parseFragment mem pos p =
      (p', length mem,
       RequestBegin (rq_method info) (rq_uri info) (hi_version (rq_info info)) ::
         (header_event <$> hi_headers (rq_info info) ++ [length_field 0]) ++ [MessageHeaderEnd], None) ∧
    p_state p' = CONTENT_BEGIN.
Proof.
  intros Hok Hlen. destruct (generateRequest_length info [] Hok Hlen) as (g & Hg & Hw); [cbn; lia|].
  exists g. split; [done|]. rewrite Hw. clear Hg Hw g. pose proof Hok as (Hm & Hu & Hv & Hh & _).
  change (Z.of_nat (length [])) with 0.
  set (hs := hi_headers (rq_info info) ++ [length_field 0]). set (txt := request_text _ _ _ hs).
  intros mem pos p Hwf Hr Hpc (Hhead & Hpos & Hlf & _)%text_at_head Hend.
  rewrite !length_app in Hend. change (length CRLF) with 2%nat in Hend. cbn [length] in Hend.
  destruct (length_fields (hi_headers (rq_info info)) 0 (p_chunked p) Hh) as [Hfs Heff]; [lia|].
  destruct (reads_request mem pos p _ _ _ hs _ _ _ Hr Hm Hu Hv Hfs Hhead Heff)
    as (p' & R & Hst & Hmo & Hvl & Hpc' & Hcl). fold txt in R. rewrite Hpc in Hpc'.
  destruct p' as [mo st br ln lu me en vj vn co ms nm vl ch cl]. cbn in Hst, Hmo, Hvl, Hpc', Hcl. subst.
  assert (R2 := reads_head_end mem _ br ln lu me en vj vn co ms nm vl true 0 Hlf eq_refl).
  replace (S (pos + length txt + 1)) with (length mem) in R2 by lia.
  destruct (parse_reads_end _ _ _ _ _ Hwf Hpos (reads_trans _ _ _ _ _ _ _ _ _ R R2)) as [b' E]; [by intros b'|].
  rewrite E. eexists. split; [reflexivity|done].
Qed.

Definition example_sticky : Http1Parser := with_chunked true (newHttp1Parser REQUEST).
Definition example_get : HttpRequestInfo :=
  mkHttpRequestInfo (str "PUT") (str "/a?b") (mkHttpInfo VERSION_1_1 0 [(str "Host", str "x0.io")] []).

Lemma chunked_flag_sticks_witness :
  ∃ g p', generateRequest example_get [] newHttp1Generator = Ok g ∧
    parseFragment (g1_written g) 0 example_sticky =
      (p', length (g1_written g),
       [RequestBegin (str "PUT") (str "/a?b") VERSION_1_1; MessageHeader (str "Host") (str "x0.io");
        MessageHeader (str "Content-Length") (str "0"); MessageHeaderEnd], None) ∧
    p_state p' = CONTENT_BEGIN.
Proof.
  destruct (chunked_flag_sticks example_get example_request_ok eq_refl) as (g & Hg & Hp).
  destruct (Hp (g1_written g) 0%nat example_sticky) as (p' & E & Hs);
    [apply new_parser_wf|done|done|apply text_at_whole|done|].
  exists g, p'. done.
Defined.
