(* ===== verification/InputBuffer.v ===== *)
(** * The input buffer of a connection

    [src/xzero/Buffer.cc] and [Buffer.h] (the growing of a [Buffer]) and
    [src/xzero/net/EndPoint.cc] ([fill]). A buffer is its bytes, its capacity
    and the identity of the heap block that holds them: growing it goes through
    [realloc], after which pointers into the old block may not be used. *)
From S2P Require Import Prelude.

Record InputBuffer := mkInputBuffer {
  ib_data : bytes;
  ib_capacity : Z;
  (** how many blocks the buffer has had *)
  ib_block : nat;
}.

(** [MutableBuffer::reserve] and [Buffer::setCapacity], for a growing buffer:
    a buffer that has a block already grows to a multiple of [CHUNK_SIZE]. *)
Definition ib_reserve (value : Z) (b : InputBuffer) : InputBuffer :=
  if ib_capacity b <? value then
    let capacity :=
      if ib_capacity b =? 0 then value else value - 1 + 4096 - (value - 1) mod 4096 in
    mkInputBuffer (ib_data b) capacity (S (ib_block b))
  else b.

(** [Buffer(size_t capacity)] *)
Definition newInputBuffer (capacity : Z) : InputBuffer := ib_reserve capacity (mkInputBuffer [] 0 0).

Definition ib_space (b : InputBuffer) : Z := ib_capacity b - Z.of_nat (length (ib_data b)).

(** [EndPoint::fill(sink)] makes room for 4 kB at least. *)
Definition ib_make_room (b : InputBuffer) : InputBuffer :=
  if ib_space b <? 4 * 1024 then ib_reserve (ib_capacity b + 8 * 1024) b else b.

(** What is there to be read is read as far as there is room for it. *)
Definition ib_fill (data : bytes) (b : InputBuffer) : InputBuffer :=
  let b := ib_make_room b in
  mkInputBuffer (ib_data b ++ take (Z.to_nat (ib_space b)) data) (ib_capacity b) (ib_block b).

(** The bytes are in the block. *)
Definition ib_ok (b : InputBuffer) : Prop := 0 ≤ ib_space b.

Lemma ib_reserve_data value b : ib_data (ib_reserve value b) = ib_data b.
Proof. unfold ib_reserve. by destruct (_ <? _). Qed.

Lemma ib_reserve_capacity value b :
  ib_capacity b ≤ ib_capacity (ib_reserve value b) ∧ value ≤ ib_capacity (ib_reserve value b).
Proof.
  unfold ib_reserve. destruct (Z.ltb_spec (ib_capacity b) value); [|lia]. cbn [ib_capacity].
  destruct (_ =? _); [lia|]. pose proof (Z.mod_pos_bound (value - 1) 4096). lia.
Qed.

(** There is always room for 4 kB. *)
Lemma ib_make_room_space b : ib_ok b → 4 * 1024 ≤ ib_space (ib_make_room b).
Proof.
  unfold ib_ok, ib_make_room. destruct (Z.ltb_spec (ib_space b) (4 * 1024)); [|lia]. intros Hok.
  pose proof (ib_reserve_capacity (ib_capacity b + 8 * 1024) b) as [_ Hc].
  unfold ib_space in *. rewrite ib_reserve_data. lia.
Qed.

Lemma ib_fill_ok data b : ib_ok b → ib_ok (ib_fill data b).
Proof.
  intros Hok. apply ib_make_room_space in Hok. unfold ib_ok, ib_fill, ib_space in *.
  cbn [ib_data ib_capacity]. rewrite length_app, length_take. lia.
Qed.

(** The block stays where it is exactly as long as 4 kB are free. *)
Lemma ib_fill_block data b : ib_block (ib_fill data b) = ib_block b ↔ 4 * 1024 ≤ ib_space b.
Proof.
  unfold ib_fill, ib_make_room. cbn [ib_block]. destruct (Z.ltb_spec (ib_space b) (4 * 1024)); [|split; [lia|done]].
  unfold ib_reserve. rewrite (proj2 (Z.ltb_lt _ _)) by lia. cbn [ib_block]. split; lia.
Qed.

(** Data for which there is room is read as it is. *)
Lemma ib_fill_room data b :
  4 * 1024 ≤ ib_space b → Z.of_nat (length data) ≤ ib_space b →
  ib_fill data b = mkInputBuffer (ib_data b ++ data) (ib_capacity b) (ib_block b).
Proof.
  intros Hs Hl. unfold ib_fill, ib_make_room. rewrite (proj2 (Z.ltb_ge _ _)) by lia.
  by rewrite take_ge by lia.
Qed.
