(* ===== verification/Http1Fragments.v ===== *)
(** * HTTP/1: fragments

    How the bytes of a message head are cut into fragments does not matter as
    long as the input buffer stays where it is. *)
From S2P Require Import Prelude InputBuffer Http1Parser Http1Safety Http1Run.

Definition in_content (s : State) : bool :=
  match s with
  | CONTENT_BEGIN | CONTENT | CONTENT_ENDLESS | CONTENT_CHUNK_SIZE_BEGIN | CONTENT_CHUNK_SIZE
  | CONTENT_CHUNK_LF1 | CONTENT_CHUNK_BODY | CONTENT_CHUNK_LF2 | CONTENT_CHUNK_CR3
  | CONTENT_CHUNK_LF3 => true
  | _ => false
  end.

(** Between the first character of a message and the end of its head. *)
Definition in_head (s : State) : bool :=
  match s with
  | NO_STATE | PROTOCOL_ERROR | MESSAGE_BEGIN | REQUEST_0_9_LF => false
  | s => negb (in_content s)
  end.

Section fragments.
Context (mem mem2 : bytes).

Lemma deref_app r : (ref_end r ≤ length mem)%nat → deref (mem ++ mem2) r = deref mem r.
Proof.
  unfold ref_end, deref. intros H. rewrite drop_app_le by lia. rewrite take_app_le; [done|].
  rewrite length_drop. lia.
Qed.

(** Outside the content states a step looks at the current character and at
    references into what was read. *)
Lemma http1_step_app pos c p :
  (pos ≤ length mem)%nat → parser_wf pos p → in_content (p_state p) = false →
  http1_step (mem ++ mem2) pos c p = http1_step mem pos c p.
Proof.
  intros Hpos ((H1 & H2 & H3 & H4 & H5) & _) Hs. unfold http1_step.
  destruct (p_state p) eqn:E; try done; unfold step_request, step_status, step_header, finish_header;
    rewrite ?E, ?deref_app by lia; done.
Qed.

(** The content states are left through the end of the message or an error. *)
Lemma step_content_closed pos c p :
  in_content (p_state p) = true → o_control (http1_step mem pos c p) = Continue →
  in_content (p_state (o_parser (http1_step mem pos c p))) = true ∨
  p_state (o_parser (http1_step mem pos c p)) = PROTOCOL_ERROR.
Proof.
  unfold http1_step. destruct (p_state p) eqn:E; try done; intros _;
    unfold step_content, step_chunk_size, pass_content, expect, next, stay, bad, overflow; rewrite E;
    repeat case_match; cbn; rewrite ?E; try done; auto.
Qed.

Lemma steps_content pos p evs pos' p' :
  steps mem pos p evs pos' p' → in_content (p_state p) = true ∨ p_state p = PROTOCOL_ERROR →
  in_content (p_state p') = true ∨ p_state p' = PROTOCOL_ERROR.
Proof.
  induction 1 as [|pos p c evs pos' p' Hc Hct _ IH]; intros Hp; [done|]. apply IH.
  destruct Hp as [Hp|Hp]; [by apply step_content_closed|]. unfold http1_step in Hct. by rewrite Hp in Hct.
Qed.

(** Steps over the first fragment are steps over the whole. *)
Lemma steps_app pos p evs pos' p' :
  steps mem pos p evs pos' p' → parser_wf pos p → in_head (p_state p') = true →
  steps (mem ++ mem2) pos p evs pos' p'.
Proof.
  induction 1 as [|pos p c evs pos' p' Hc Hct Hs IH]; intros Hwf Hh; [apply steps_refl|].
  pose proof (http1_step_safe mem pos c p Hc Hwf) as (_ & Hwf' & _).
  destruct (in_content (p_state p)) eqn:Hp.
  { destruct (steps_content _ _ _ _ _ (steps_cons mem pos p c evs pos' p' Hc Hct Hs)) as [H|H]; [by left| |];
      destruct (p_state p'); done. }
  pose proof (lookup_lt_Some _ _ _ Hc) as Hlt.
  pose proof (steps_cons (mem ++ mem2) pos p c evs pos' p') as Hcons.
  rewrite http1_step_app in Hcons by (done || lia). apply Hcons; [by apply lookup_app_l_Some|done|].
  by apply IH.
Qed.
End fragments.

(** At the end of the fragment nothing more happens inside a head. *)
Lemma end_of_fragment_steps mem pos p p' evs :
  end_of_fragment pos p = (p', length mem, evs, None) → in_head (p_state p') = true →
  steps mem pos p evs (length mem) p'.
Proof.
  unfold end_of_fragment. destruct (_ && _).
  - by intros [= <- _ _].
  - intros [= <- -> <-] _. apply steps_refl.
Qed.

(** A run never ends before the position it starts from. *)
Lemma http1_loop_end mem fuel pos p p' n evs :
  (length mem < pos)%nat → http1_loop fuel mem pos p = (p', n, evs, None) → n = pos.
Proof.
  intros Hpos. destruct fuel; cbn [http1_loop]; rewrite lookup_ge_None_2 by lia;
    unfold end_of_fragment; destruct (_ && _); by intros [= _ <- _].
Qed.

(** A step that ends the message leaves its head. *)
Lemma step_done_head mem pos c p :
  o_control (http1_step mem pos c p) = Done →
  in_head (p_state (o_parser (http1_step mem pos c p))) = false.
Proof.
  unfold http1_step. destruct (p_state p) eqn:Es; try (cbn; by rewrite ?Es);
    unfold step_message_begin, step_request, step_status, step_status_code, step_header, finish_header,
      step_lws, step_content, step_chunk_size, pass_content, expect, next, stay, bad, overflow, begin_message;
    rewrite ?Es; repeat case_match; cbn; rewrite ?Es; try done.
Qed.

(** A run of the loop that consumes the fragment inside a head took only
    regular steps. *)
Lemma loop_steps mem fuel : ∀ pos p p' evs,
  http1_loop fuel mem pos p = (p', length mem, evs, None) → in_head (p_state p') = true →
  (pos ≤ length mem)%nat → steps mem pos p evs (length mem) p'.
Proof.
  induction fuel as [|fuel IH]; intros pos p p' evs; cbn [http1_loop];
    destruct (mem !! pos) as [c|] eqn:Hc; try done; try (intros; by apply end_of_fragment_steps).
  destruct (o_control (http1_step mem pos c p)) eqn:Hct; [| |done].
  - destruct (http1_loop fuel mem _ _) as [[[p2 pos2] evs2] x] eqn:E. intros [= -> -> <- ->] Hh Hpos.
    apply steps_cons; [done|done|]. apply (IH _ _ _ _ E); [done|].
    destruct (decide (pos + o_consumed (http1_step mem pos c p) ≤ length mem)%nat) as [|Hgt]; [done|].
    apply http1_loop_end in E; lia.
  - intros [= <- _ _] Hh. pose proof (step_done_head mem pos c p Hct) as Hr.
    cbn [receive with_bytesReceived p_state] in Hh. congruence.
Qed.

(** If the parser has consumed a first fragment and is still inside a head,
    giving it the rest afterwards yields the state, the position, the events and
    the outcome that giving it everything at once yields. *)
Lemma parseFragment_head mem1 mem2 pos p p1 evs1 :
  parser_wf pos p → (pos ≤ length mem1)%nat →
  parseFragment mem1 pos p = (p1, length mem1, evs1, None) → in_head (p_state p1) = true →
  parseFragment (mem1 ++ mem2) pos p =
  let '(p2, pos2, evs2, x) := parseFragment (mem1 ++ mem2) (length mem1) p1 in
  (p2, pos2, evs1 ++ evs2, x).
Proof.
  intros Hwf Hpos Hp Hh. pose proof (parseFragment_ends mem1 pos p Hwf Hpos) as Hends. rewrite Hp in Hends.
  destruct Hends as (Hwf1 & _). apply loop_steps in Hp; [|done|done].
  apply (steps_app mem1 mem2) in Hp; [|done|done].
  assert (Hlen : (length mem1 ≤ length (mem1 ++ mem2))%nat) by (rewrite length_app; lia).
  pose proof (parseFragment_ends (mem1 ++ mem2) (length mem1) p1 Hwf1 Hlen) as Hends.
  destruct (parseFragment (mem1 ++ mem2) (length mem1) p1) as [[[p2 pos2] evs2] x] eqn:E.
  destruct Hends as (_ & _ & Hx & _). eapply parseFragment_steps; [done|lia|exact Hp|exact E|done].
Qed.

(** ** References and the block they point into

    The parser's references are pointers into the block of the connection's
    input buffer. [live_refs] are those that a state still reads: what the other
    members hold is assigned before it is read. *)
Definition live_refs (p : Http1Parser) : list BufRef :=
  match p_state p with
  | REQUEST_METHOD | REQUEST_ENTITY_BEGIN => [p_method p]
  | REQUEST_ENTITY | REQUEST_PROTOCOL_BEGIN | REQUEST_PROTOCOL_T1 | REQUEST_PROTOCOL_T2 | REQUEST_PROTOCOL_P
  | REQUEST_PROTOCOL_SLASH | REQUEST_PROTOCOL_VERSION_MAJOR | REQUEST_PROTOCOL_VERSION_MINOR
  | REQUEST_LINE_LF | REQUEST_0_9_LF => [p_method p; p_entity p]
  | STATUS_MESSAGE | STATUS_MESSAGE_LF => [p_message p]
  | HEADER_NAME | HEADER_COLON => [p_name p]
  | HEADER_VALUE_BEGIN | HEADER_VALUE | HEADER_VALUE_LF | HEADER_VALUE_END
  | LWS_BEGIN | LWS_LF | LWS_SP_HT_BEGIN | LWS_SP_HT => [p_name p; p_value p]
  | _ => []
  end.

Definition holds_refs (p : Http1Parser) : bool := existsb (negb ∘ ref_empty) (live_refs p).

(** The parser at the position of the connection in its buffer. *)
Record Reader := mkReader { rd_buffer : InputBuffer; rd_offset : nat; rd_parser : Http1Parser }.

(** [Connection::onFillable] with a parser on its own: fill the buffer and parse
    what is new. A parser that still reads references into a block the buffer
    has left has undefined behaviour. *)
Definition read_fragment (data : bytes) (r : Reader) : result (Reader * list http_event * option exn) :=
  let b := ib_fill data (rd_buffer r) in
  if negb (ib_block b =? ib_block (rd_buffer r))%nat && holds_refs (rd_parser r) then Raise UndefinedBehaviour else
  let '(p, pos, evs, x) := parseFragment (ib_data b) (rd_offset r) (rd_parser r) in
  Ok (mkReader b pos p, evs, x).

Definition reader_wf (r : Reader) : Prop :=
  parser_wf (rd_offset r) (rd_parser r) ∧ (rd_offset r ≤ length (ib_data (rd_buffer r)))%nat.

(** Everything in the buffer is parsed, and the head has not ended. *)
Definition inside_head (r : Reader) : Prop :=
  rd_offset r = length (ib_data (rd_buffer r)) ∧ in_head (p_state (rd_parser r)) = true.

(** C10 (equivalence). A message head that arrives in two fragments is read as
    if it arrived at once -- the same state, position, events and outcome --
    provided the first fragment ends inside the head and the buffer has room
    for both and 4 kB more, so that it keeps its block. If the buffer has less
    than 4 kB left when the second fragment is read, it gets a new block, and
    a parser that is in the middle of a method, a URI, a reason or a field then
    reads memory that was freed: undefined behaviour. *)
Theorem fragmented_head data1 data2 (r r1 : Reader) evs1 :
  reader_wf r → read_fragment data1 r = Ok (r1, evs1, None) → inside_head r1 →
  (Z.of_nat (length data1) + Z.of_nat (length data2) + 4 * 1024 ≤ ib_space (rd_buffer r) →
   read_fragment (data1 ++ data2) r =
     ('(r2, evs2, x) ← read_fragment data2 r1; Ok (r2, evs1 ++ evs2, x))) ∧
  (ib_space (rd_buffer r1) < 4 * 1024 → holds_refs (rd_parser r1) = true →
   read_fragment data2 r1 = Raise UndefinedBehaviour).
Proof.
  intros [Hwf Hoff] Hr [Hpos Hh]. split.
  - intros Hroom. unfold read_fragment in *.
    rewrite ib_fill_room in Hr by lia. cbn [ib_block ib_data] in Hr. rewrite Nat.eqb_refl in Hr. cbn [negb andb] in Hr.
    destruct (parseFragment _ _ _) as [[[p1 pos1] evs] x] eqn:E. injection Hr as <- -> ->.
    cbn [rd_buffer rd_offset rd_parser ib_data] in *. subst pos1.
    rewrite !ib_fill_room by (unfold ib_space in *; cbn [ib_data ib_capacity]; rewrite ?length_app; lia).
    cbn [ib_block ib_data]. rewrite !Nat.eqb_refl. cbn [negb andb].
    rewrite (app_assoc (ib_data (rd_buffer r)) data1 data2).
    erewrite parseFragment_head; [|done| |exact E|done]; [|rewrite length_app; lia].
    by destruct (parseFragment _ _ p1) as [[[p2 pos2] evs2] x].
  - intros Hs Hd. unfold read_fragment. rewrite Hd, andb_true_r.
    pose proof (ib_fill_block data2 (rd_buffer r1)) as Hb.
    destruct (Nat.eqb_spec (ib_block (ib_fill data2 (rd_buffer r1))) (ib_block (rd_buffer r1))); [lia|done].
Qed.

(** A connection with buffers of a given size. *)
Definition example_reader (capacity : Z) : Reader :=
  mkReader (newInputBuffer capacity) 0 (newHttp1Parser REQUEST).

Lemma fragmented_head_witness :
  ∃ r1 r2, read_fragment (str "GET / HT") (example_reader 8192) = Ok (r1, [], None) ∧
  read_fragment (str "GET / HT" ++ str "TP/1.1") (example_reader 8192) =
    ('(r', evs2, x) ← read_fragment (str "TP/1.1") r1; Ok (r', [] ++ evs2, x)) ∧
  read_fragment (str "GET / HT") (example_reader 4099) = Ok (r2, [], None) ∧
  read_fragment (str "TP/1.1") r2 = Raise UndefinedBehaviour.
Proof.
  assert (Hwf : ∀ capacity, reader_wf (example_reader capacity))
    by (intros; split; [apply new_parser_wf|apply Nat.le_0_l]).
  do 2 eexists. split_and!.
  - by vm_compute.
  - refine (proj1 (fragmented_head (str "GET / HT") (str "TP/1.1") (example_reader 8192) _ [] (Hwf _) _ _) _);
      [by vm_compute|split; by vm_compute|vm_compute; discriminate].
  - by vm_compute.
  - refine (proj2 (fragmented_head (str "GET / HT") (str "TP/1.1") (example_reader 4099) _ [] (Hwf _) _ _) _ _);
      [by vm_compute|split; by vm_compute|by vm_compute|by vm_compute].
Defined.
