(* ===== verification/RequestUri.v ===== *)
(** * The request URI

    [HttpRequestInfo::setUri] ([src/xzero/http/HttpRequestInfo.cc]): decodes the
    percent-encoding of the path, splits off the query and counts how deep the
    path goes below the document root, so that requests that climb out of it
    can be refused. The depth counters of the source are 32-bit integers; they
    change by at most one per character, so that a URI below 2^31 characters
    does not overflow them. *)
From S2P Require Import Prelude.

(** ** State *)

Inductive UriState := Content | Slash | Dot | DotDot | QuoteStart | QuoteChar2 | QueryStart.

#[export] Instance UriState_eq_dec : EqDecision UriState.
Proof. solve_decision. Defined.

(** The members that [setUri] assigns. *)
Record UriInfo := mkUriInfo {
  u_unparsedUri : bytes;
  u_path : bytes;
  u_query : bytes;
  u_directoryDepth : Z;
}.

Definition newUriInfo : UriInfo := mkUriInfo [] [] [] 0.

(** The local variables of the loop, with the path it appends to. *)
Record UriScan := mkUriScan {
  us_state : UriState;
  us_quoted : UriState;
  us_decoded : Z;
  us_path : bytes;
  us_depth : Z;
  us_minDepth : Z;
}.

(** [path_ += ch], a new state and a change of the depth. *)
Definition us_append (st : UriState) (ch delta : Z) (s : UriScan) : UriScan :=
  mkUriScan st (us_quoted s) (us_decoded s) (us_path s ++ [ch]) (us_depth s + delta) (us_minDepth s).

Definition us_goto (st : UriState) (delta : Z) (s : UriScan) : UriScan :=
  mkUriScan st (us_quoted s) (us_decoded s) (us_path s) (us_depth s + delta) (us_minDepth s).

(** A percent sign: the decoded character continues in the current state. *)
Definition us_quote (s : UriScan) : UriScan :=
  mkUriScan QuoteStart (us_state s) (us_decoded s) (us_path s) (us_depth s) (us_minDepth s).

(** The end of ["/../"]. *)
Definition us_climb (ch : Z) (s : UriScan) : UriScan :=
  mkUriScan Slash (us_quoted s) (us_decoded s) (us_path s ++ [ch]) (us_depth s - 1)
    (Z.min (us_depth s - 1) (us_minDepth s)).

(** ** One character in the states [Content], [Slash], [Dot] and [DotDot] *)

Definition uri_path_step (st : UriState) (ch : Z) (s : UriScan) : UriScan :=
  match st with
  | Content =>
      if ch =? 47 then us_append Slash ch 0 s
      else if ch =? 37 then us_quote s
      else if ch =? 63 then us_goto QueryStart 0 s
      else us_append Content ch 0 s
  | Slash =>
      if ch =? 47 then us_append Slash ch 0 s
      else if ch =? 46 then us_append Dot ch 0 s
      else if ch =? 37 then us_quote s
      else if ch =? 63 then us_goto QueryStart 1 s
      else us_append Content ch 1 s
  | Dot =>
      if ch =? 47 then us_append Slash ch 0 s
      else if ch =? 46 then us_append DotDot ch 0 s
      else if ch =? 37 then us_quote s
      else if ch =? 63 then us_goto QueryStart 1 s
      else us_append Content ch 1 s
  | DotDot =>
      if ch =? 47 then us_climb ch s
      else if ch =? 37 then us_quote s
      else us_append Content ch 1 s
  | _ => s
  end.

(** ** Percent-encoding *)

(** [QuoteStart]: the high digit. For a letter the source computes
    [(ch - ('a' + 10)) << 4] in an [unsigned char]. *)
Definition quote_high (ch : Z) : option Z :=
  if (48 <=? ch) && (ch <=? 57) then Some (Z.shiftl (ch - 48) 4)
  else let ch := Z.lor ch 32 in
       if (97 <=? ch) && (ch <=? 102) then Some (unsigned 8 (Z.shiftl (ch - 107) 4)) else None.

(** [QuoteChar2]: the low digit, and the decoded character. *)
Definition quote_low (decoded ch : Z) : option Z :=
  if (48 <=? ch) && (ch <=? 57) then Some (Z.lor decoded (ch - 48))
  else let ch := Z.lor ch 32 in
       if (97 <=? ch) && (ch <=? 102) then Some (Z.lor decoded (ch - 87)) else None.

Definition us_digit (decoded : Z) (s : UriScan) : UriScan :=
  mkUriScan QuoteChar2 (us_quoted s) decoded (us_path s) (us_depth s) (us_minDepth s).

(** The decoded character: NUL is refused, a percent sign is literal, and any
    other character is scanned in the state the quote began in. That scan is
    the next iteration of the source's loop, which reads nothing in between. *)
Definition uri_decoded (c : Z) (s : UriScan) : option UriScan :=
  if c =? 0 then None
  else if c =? 37 then Some (us_append Content c 0 s)
  else Some (uri_path_step (us_quoted s) c (us_goto (us_quoted s) 0 s)).

(** ** The loop *)

(** How the loop ends: [return false], at the query, or at the end. *)
Inductive uri_end :=
  | UriBad (s : UriScan)
  | UriQuery (query : bytes) (s : UriScan)
  | UriDone (s : UriScan).

(** [rest] is the URI from the current character [ch] on; the terminating NUL,
    which the source reads last and never looks at, is left out. *)
Fixpoint uri_loop (rest : bytes) (s : UriScan) : uri_end :=
  match rest with
  | [] => UriDone s
  | ch :: rest' =>
      match us_state s with
      | QuoteStart =>
          match quote_high ch with
          | Some d => uri_loop rest' (us_digit d s)
          | None => UriBad s
          end
      | QuoteChar2 =>
          match quote_low (us_decoded s) ch with
          | Some c => match uri_decoded c s with
                      | Some s' => uri_loop rest' s'
                      | None => UriBad s
                      end
          | None => UriBad s
          end
      | QueryStart => if ch =? 63 then uri_loop rest' s else UriQuery rest s
      | st => uri_loop rest' (uri_path_step st ch s)
      end
  end.

Definition uri_start (info : UriInfo) : UriScan := mkUriScan Content Content 0 (u_path info) 0 0.

(** [setUri]: the result and the new members. *)
Definition setUri (uri : bytes) (info : UriInfo) : bool * UriInfo :=
  if bool_decide (uri = [42]) then (true, mkUriInfo uri [42] (u_query info) 0)
  else
    let finish query s :=
      (negb (us_minDepth s <? 0), mkUriInfo uri (us_path s) query (us_depth s)) in
    let fail s := (false, mkUriInfo uri (us_path s) (u_query info) (u_directoryDepth info)) in
    match uri_loop uri (uri_start info) with
    | UriBad s => fail s
    | UriQuery query s => finish query s
    | UriDone s =>
        match us_state s with
        | QuoteStart | QuoteChar2 => fail s
        | _ => finish (u_query info) s
        end
    end.

(** ** Depth of a path

    The reference: what walking along the path does to the distance from the
    root, segment by segment. *)

Fixpoint split_slash (p : bytes) : list bytes :=
  match p with
  | [] => [[]]
  | c :: p =>
      if c =? 47 then [] :: split_slash p
      else match split_slash p with [] => [[c]] | seg :: segs => (c :: seg) :: segs end
  end.

Definition seg_depth (seg : bytes) : Z :=
  if bool_decide (seg = [] ∨ seg = [46]) then 0 else if bool_decide (seg = [46; 46]) then -1 else 1.

Definition walk (p : bytes) : Z := foldr Z.add 0 (seg_depth <$> split_slash p).

(** A path is confined if no directory on its way lies above the root. *)
Definition confined (p : bytes) : Prop := ∀ pre post, p = pre ++ 47 :: post → 0 ≤ walk pre.

Lemma split_slash_cons_ne p : split_slash p ≠ [].
Proof. destruct p as [|c p]; cbn; repeat case_match; done. Qed.

Lemma split_slash_app a b : split_slash (a ++ 47 :: b) = split_slash a ++ split_slash b.
Proof.
  induction a as [|c a IH]; [done|]. cbn [split_slash app]. rewrite IH. destruct (c =? 47); [done|].
  pose proof (split_slash_cons_ne a). by destruct (split_slash a).
Qed.

Lemma split_slash_segment seg : Forall (λ c, c ≠ 47) seg → split_slash seg = [seg].
Proof.
  induction 1 as [|c seg Hc _ IH]; [done|]. cbn [split_slash]. rewrite IH. by apply Z.eqb_neq in Hc as ->.
Qed.

Lemma walk_segment pre seg : Forall (λ c, c ≠ 47) seg → walk (pre ++ 47 :: seg) = walk pre + seg_depth seg.
Proof.
  intros Hseg. unfold walk. rewrite split_slash_app, (split_slash_segment seg) by done.
  rewrite fmap_app, foldr_app. cbn [fmap list_fmap foldr]. generalize (seg_depth <$> split_slash pre).
  intros ds. induction ds as [|d ds IH]; cbn [foldr]; lia.
Qed.

(** ** The invariant of the scan *)

(** The state a quote will continue in. *)
Definition scan_state (s : UriScan) : UriState :=
  match us_state s with QuoteStart | QuoteChar2 => us_quoted s | st => st end.

Definition is_path_state (st : UriState) : bool :=
  match st with Content | Slash | Dot | DotDot => true | _ => false end.

(** What is known of the segment being read: which one it is if it starts with
    dots, and that it counts as a directory otherwise. *)
Definition segment_ok (st : UriState) (seg : bytes) : Prop :=
  match st with
  | Slash => seg = []
  | Dot => seg = [46]
  | DotDot => seg = [46; 46]
  | _ => Forall (λ c, c ≠ 47) seg ∧ seg_depth seg = 1
  end.

Definition depth_credit (st : UriState) : Z := match st with Content => 1 | _ => 0 end.

Definition prefixes_ok (p : bytes) (m : Z) : Prop := ∀ pre post, p = pre ++ 47 :: post → m ≤ walk pre.

Record scan_ok (s : UriScan) : Prop := mk_scan_ok {
  so_min : us_minDepth s ≤ us_depth s;
  so_prefixes : prefixes_ok (us_path s) (us_minDepth s);
  so_segment : is_path_state (scan_state s) = true → ∃ pre seg,
    us_path s = pre ++ 47 :: seg ∧ segment_ok (scan_state s) seg ∧
    us_depth s ≤ walk pre + depth_credit (scan_state s);
  so_quoted : us_state s = QuoteStart ∨ us_state s = QuoteChar2 → is_path_state (us_quoted s) = true;
}.

Lemma segment_ok_plain st seg : is_path_state st = true → segment_ok st seg → Forall (λ c, c ≠ 47) seg.
Proof. destruct st; cbn; try done; intros _; [by intros [? _]|intros ->..]; repeat constructor; lia. Qed.

Lemma prefixes_ok_char p c m : c ≠ 47 → prefixes_ok p m → prefixes_ok (p ++ [c]) m.
Proof.
  intros Hc Hp pre post He. destruct post as [|x post _] using rev_ind.
  - apply app_inj_tail in He as [_ He]. done.
  - rewrite app_comm_cons, app_assoc in He. apply app_inj_tail in He as [He _]. by apply (Hp pre post).
Qed.

Lemma prefixes_ok_slash p m : m ≤ walk p → prefixes_ok p m → prefixes_ok (p ++ [47]) m.
Proof.
  intros Hm Hp pre post He. destruct post as [|x post _] using rev_ind.
  - by apply app_inj_tail in He as [-> _].
  - rewrite app_comm_cons, app_assoc in He. apply app_inj_tail in He as [He _]. by apply (Hp pre post).
Qed.

Lemma prefixes_ok_mono p m m' : m' ≤ m → prefixes_ok p m → prefixes_ok p m'.
Proof. intros Hle Hp pre post He. specialize (Hp pre post He). lia. Qed.

Lemma seg_depth_grows seg c : seg_depth seg = 1 → seg_depth (seg ++ [c]) = 1.
Proof.
  unfold seg_depth. destruct seg as [|x [|y [|z seg]]]; [done| |intros _..]; cbn [app].
  - destruct (decide (x = 46)) as [->|Hx]; [done|]. intros _. rewrite !bool_decide_false; naive_solver.
  - rewrite !bool_decide_false; naive_solver.
  - rewrite !bool_decide_false; naive_solver.
Qed.

(** Another character in the segment. *)
Lemma append_ok st c delta s :
  scan_ok s → is_path_state (us_state s) = true → c ≠ 47 → is_path_state st = true → 0 ≤ delta →
  depth_credit (us_state s) + delta ≤ depth_credit st →
  (∀ seg, segment_ok (us_state s) seg → segment_ok st (seg ++ [c])) →
  scan_ok (us_append st c delta s).
Proof.
  intros [Hmin Hpre Hseg _] Hs Hc Hst Hd Hcr Hstep.
  assert (Hss : scan_state s = us_state s) by (unfold scan_state; by destruct (us_state s)).
  rewrite Hss in Hseg. destruct (Hseg Hs) as (pre & seg & He & Hok & Hle).
  assert (Hss' : scan_state (us_append st c delta s) = st) by (unfold scan_state; cbn; by destruct st).
  split; cbn [us_append us_minDepth us_depth us_path us_state us_quoted].
  - lia.
  - by apply prefixes_ok_char.
  - rewrite Hss'. intros _. exists pre, (seg ++ [c]). rewrite He, <- app_assoc. split_and!; [done|auto|lia].
  - intros [->| ->]; done.
Qed.

(** The end of the segment. *)
Lemma slash_ok s s' :
  scan_ok s → us_path s' = us_path s ++ [47] → us_state s' = Slash →
  us_minDepth s' ≤ us_depth s' → us_minDepth s' ≤ us_minDepth s → us_depth s' ≤ walk (us_path s) → scan_ok s'.
Proof.
  intros [_ Hpre _ _] Hp Hst Hmin Hmin' Hd. split; [done| | |].
  - rewrite Hp. apply prefixes_ok_slash; [lia|]. by eapply prefixes_ok_mono.
  - intros _. exists (us_path s), []. unfold scan_state. rewrite Hst. cbn. split_and!; [done|done|lia].
  - rewrite Hst. intros [?|?]; done.
Qed.

Lemma walk_scan s :
  scan_ok s → is_path_state (us_state s) = true →
  us_depth s - (if bool_decide (us_state s = DotDot) then 1 else 0) ≤ walk (us_path s).
Proof.
  intros [_ _ Hseg _] Hs.
  assert (Hss : scan_state s = us_state s) by (unfold scan_state; by destruct (us_state s)).
  rewrite Hss in Hseg. destruct (Hseg Hs) as (pre & seg & -> & Hok & Hle).
  rewrite walk_segment by by eapply segment_ok_plain.
  destruct (us_state s); try done; cbn [bool_decide] in *; cbn in Hok, Hle; try subst seg;
    [destruct Hok as [_ ->]|..]; try change (seg_depth []) with 0; try change (seg_depth [46]) with 0;
    try change (seg_depth [46; 46]) with (-1); case_bool_decide; try done; lia.
Qed.

Lemma quote_ok s : scan_ok s → is_path_state (us_state s) = true → scan_ok (us_quote s).
Proof.
  intros [Hmin Hpre Hseg _] Hs.
  assert (Hss : scan_state s = us_state s) by (unfold scan_state; by destruct (us_state s)).
  split; [done|done| |done]. change (scan_state (us_quote s)) with (us_state s). by rewrite <- Hss.
Qed.

Lemma query_ok delta s : scan_ok s → 0 ≤ delta → scan_ok (us_goto QueryStart delta s).
Proof. intros [Hmin Hpre _ _] Hd. split; [cbn; lia|done|done|]. intros [?|?]; done. Qed.

Lemma uri_path_step_ok ch s :
  scan_ok s → is_path_state (us_state s) = true → scan_ok (uri_path_step (us_state s) ch s).
Proof.
  intros Hok Hs. pose proof (walk_scan s Hok Hs) as Hw. pose proof (so_min s Hok) as Hmin.
  destruct (us_state s) eqn:Hst; try done; cbn [uri_path_step];
    destruct (Z.eqb_spec ch 47) as [->|H47];
    try (apply (slash_ok s); cbn in *; (done || lia));
    repeat (case_match; rewrite ?Z.eqb_eq, ?Z.eqb_neq in *);
    try (apply quote_ok; rewrite ?Hst; done); try (apply query_ok; done || lia);
    apply append_ok; rewrite ?Hst; try done; cbn [segment_ok];
    intros seg; try (intros ->; subst; try done).
  - intros [? ?]. split; [by apply Forall_app_2; [|repeat constructor]|by apply seg_depth_grows].
  - split; [by repeat constructor|]. unfold seg_depth. rewrite !bool_decide_false; naive_solver.
  - split; [by repeat constructor|]. unfold seg_depth. rewrite !bool_decide_false; naive_solver.
  - split; [by repeat constructor|]. unfold seg_depth. rewrite !bool_decide_false; naive_solver.
Qed.

(** A quote is scanned as the character it stands for. *)
Lemma unquote_ok s :
  scan_ok s → us_state s = QuoteChar2 →
  scan_ok (us_goto (us_quoted s) 0 s) ∧ is_path_state (us_quoted s) = true.
Proof.
  intros [Hmin Hpre Hseg Hq] Hst. unfold scan_state in Hseg. rewrite Hst in Hseg, Hq.
  assert (Hp : is_path_state (us_quoted s) = true) by auto. split; [|done].
  assert (Hss : scan_state (us_goto (us_quoted s) 0 s) = us_quoted s)
    by (unfold scan_state; cbn; by destruct (us_quoted s)).
  split; cbn [us_goto us_minDepth us_depth us_path us_state us_quoted].
  - lia.
  - done.
  - rewrite Hss, Z.add_0_r. exact Hseg.
  - auto.
Qed.

Lemma segment_ok_percent st seg : is_path_state st = true → segment_ok st seg → segment_ok Content (seg ++ [37]).
Proof.
  intros Hp Hok. cbn. split.
  - apply Forall_app_2; [by eapply segment_ok_plain|by repeat constructor].
  - destruct st; try done; cbn in Hok; [apply seg_depth_grows, Hok|subst seg; done..].
Qed.

Lemma uri_decoded_ok c s s' :
  scan_ok s → us_state s = QuoteChar2 → uri_decoded c s = Some s' → scan_ok s'.
Proof.
  intros Hok Hst. destruct (unquote_ok s Hok Hst) as [Hok' Hp]. unfold uri_decoded.
  destruct (c =? 0); [done|]. destruct (Z.eqb_spec c 37) as [->|Hc]; intros [= <-].
  - change (us_append Content 37 0 s) with (us_append Content 37 0 (us_goto (us_quoted s) 0 s)) ||
      (replace (us_append Content 37 0 s) with (us_append Content 37 0 (us_goto (us_quoted s) 0 s))
         by (unfold us_append, us_goto; cbn; by rewrite Z.add_0_r)).
    apply append_ok; try done; [cbn [us_goto us_state]; by destruct (us_quoted s)|].
    intros seg. by apply segment_ok_percent.
  - by apply (uri_path_step_ok c (us_goto (us_quoted s) 0 s)).
Qed.

Lemma uri_loop_ok rest : ∀ s,
  scan_ok s → match uri_loop rest s with UriBad s' | UriQuery _ s' | UriDone s' => scan_ok s' end.
Proof.
  induction rest as [|ch rest IH]; intros s Hok; [done|]. cbn [uri_loop].
  destruct (us_state s) eqn:Hst;
    try (rewrite <- Hst; apply IH, uri_path_step_ok; [done|by rewrite Hst]).
  - destruct (quote_high ch); [|done]. apply IH. destruct Hok as [Hmin Hpre Hseg Hq]. split; [done..| |].
    + unfold scan_state in *. rewrite Hst in Hseg. exact Hseg.
    + auto.
  - destruct (quote_low (us_decoded s) ch); [|done]. destruct (uri_decoded _ s) eqn:Hd; [|done].
    apply IH. by eapply uri_decoded_ok.
  - destruct (ch =? 63); [by apply IH|done].
Qed.

(** The path grows only. *)
Lemma path_step_grows st ch s : ∃ p, us_path (uri_path_step st ch s) = us_path s ++ p.
Proof. destruct st; cbn [uri_path_step]; repeat case_match; cbn; try (exists []; by rewrite app_nil_r); by exists [ch]. Qed.

Lemma loop_keeps_path rest s :
  match uri_loop rest s with UriBad s' | UriQuery _ s' | UriDone s' => ∃ p, us_path s' = us_path s ++ p end.
Proof.
  revert s. induction rest as [|ch rest IH]; intros s; [exists []; by rewrite app_nil_r|].
  assert (Hnext : ∀ s0, (∃ p, us_path s0 = us_path s ++ p) → match uri_loop rest s0 with UriBad s' | UriQuery _ s' | UriDone s' => ∃ p, us_path s' = us_path s ++ p end).
  { intros s0 [p Hp]. specialize (IH s0). destruct (uri_loop rest s0); destruct IH as [p' ->]; exists (p ++ p'); by rewrite Hp, app_assoc. }
  cbn [uri_loop]. destruct (us_state s); try (apply Hnext, path_step_grows).
  - destruct (quote_high ch); [apply Hnext|]; exists []; by rewrite app_nil_r.
  - destruct (quote_low _ ch) as [c|]; [|exists []; by rewrite app_nil_r]. unfold uri_decoded. destruct (c =? 0); [exists []; by rewrite app_nil_r|].
    destruct (c =? 37); apply Hnext; [by exists [c]|]. destruct (path_step_grows (us_quoted s) c (us_goto (us_quoted s) 0 s)) as [p Hp]. by exists p.
  - destruct (ch =? 63); [apply Hnext|]; exists []; by rewrite app_nil_r.
Qed.

(** The scan from the first slash on. *)
Definition at_slash (quoted : UriState) (decoded : Z) : UriScan := mkUriScan Slash quoted decoded [47] 0 0.

Lemma from_slash quoted decoded rest :
  match uri_loop rest (at_slash quoted decoded) with
  | UriBad _ => True | UriQuery _ s | UriDone s => (∃ p, us_path s = 47 :: p) ∧ (0 ≤ us_minDepth s → confined (us_path s))
  end.
Proof.
  assert (Hok : scan_ok (at_slash quoted decoded)).
  { split; cbn; [lia| | |].
    - intros pre post He. destruct pre as [|? [|??]]; [cbn; lia|done|done].
    - intros _. by exists [], [].
    - by intros [?|?]. }
  pose proof (uri_loop_ok rest _ Hok) as Hl. pose proof (loop_keeps_path rest (at_slash quoted decoded)) as Hk.
  assert (Hfin : ∀ s, scan_ok s → 0 ≤ us_minDepth s → confined (us_path s)).
  { intros s Hs Hm pre post He. pose proof (so_prefixes s Hs pre post He). lia. }
  destruct (uri_loop rest _) as [s|q s|s]; [done|split; [|by auto]..]; destruct Hk as [p ->]; by exists p.
Qed.

(** What is before the first slash does not matter to the scan behind it. *)
Definition us_behind (seg : bytes) (s : UriScan) : UriScan :=
  mkUriScan (us_state s) (us_quoted s) (us_decoded s) (seg ++ us_path s) (us_depth s) (us_minDepth s).

Lemma path_step_behind seg st ch s : uri_path_step st ch (us_behind seg s) = us_behind seg (uri_path_step st ch s).
Proof.
  destruct st; cbn [uri_path_step]; repeat (case_match; try done); unfold us_append, us_climb, us_behind; cbn; by rewrite ?app_assoc.
Qed.

Lemma loop_behind seg rest s :
  uri_loop rest (us_behind seg s) =
  match uri_loop rest s with UriBad s' => UriBad (us_behind seg s') | UriQuery q s' => UriQuery q (us_behind seg s') | UriDone s' => UriDone (us_behind seg s') end.
Proof.
  revert s. induction rest as [|ch rest IH]; intros s; [done|]. cbn [uri_loop].
  change (us_state (us_behind seg s)) with (us_state s).
  destruct (us_state s) eqn:Hst; try (by rewrite path_step_behind, IH).
  - destruct (quote_high ch) as [d|]; [|done]. apply (IH (us_digit d s)).
  - change (us_decoded (us_behind seg s)) with (us_decoded s). destruct (quote_low _ ch) as [c|]; [|done]. unfold uri_decoded.
    destruct (c =? 0); [done|]. destruct (c =? 37).
    + rewrite <- IH. unfold us_append, us_behind. cbn. by rewrite app_assoc.
    + change (us_goto (us_quoted (us_behind seg s)) 0 (us_behind seg s)) with (us_behind seg (us_goto (us_quoted s) 0 s)).
      change (us_quoted (us_behind seg s)) with (us_quoted s). by rewrite path_step_behind, IH.
  - by destruct (ch =? 63).
Qed.

(** Before the first slash. *)
Record first_segment (s : UriScan) : Prop := mk_first_segment {
  fs_state : us_state s = Content ∨ us_state s = QueryStart ∨ (us_state s = QuoteStart ∨ us_state s = QuoteChar2) ∧ us_quoted s = Content;
  fs_depth : us_depth s = 0;
  fs_min : us_minDepth s = 0;
  fs_path : Forall (λ c, c ≠ 47) (us_path s);
}.

Lemma content_step ch s : first_segment s → us_state s = Content →
  ch = 47 ∧ uri_path_step Content ch s = us_behind (us_path s) (at_slash (us_quoted s) (us_decoded s)) ∨
  first_segment (uri_path_step Content ch s).
Proof.
  intros [_ Hd Hm Hp] Hst. cbn [uri_path_step]. destruct (Z.eqb_spec ch 47) as [->|Hne].
  - left. split; [done|]. unfold us_append, us_behind, at_slash. cbn. by rewrite Hd, Hm.
  - right. destruct (ch =? 37); [|destruct (ch =? 63)]; split; cbn; auto; try lia. by apply Forall_app_2; [|repeat constructor].
Qed.

Lemma first_loop u s : first_segment s →
  match uri_loop u s with
  | UriBad _ => True
  | UriQuery _ s' | UriDone s' => Forall (λ c, c ≠ 47) (us_path s') ∨ ∃ seg p, us_path s' = seg ++ 47 :: p ∧ Forall (λ c, c ≠ 47) seg ∧ (0 ≤ us_minDepth s' → confined (47 :: p))
  end.
Proof.
  revert s. induction u as [|ch u IH]; intros s H; [left; apply H|].
  assert (Hslash : ∀ s0, first_segment s0 → match uri_loop u (us_behind (us_path s0) (at_slash (us_quoted s0) (us_decoded s0))) with
    | UriBad _ => True
    | UriQuery _ s' | UriDone s' => Forall (λ c, c ≠ 47) (us_path s') ∨ ∃ seg p, us_path s' = seg ++ 47 :: p ∧ Forall (λ c, c ≠ 47) seg ∧ (0 ≤ us_minDepth s' → confined (47 :: p))
    end).
  { intros s0 H0. rewrite loop_behind. pose proof (from_slash (us_quoted s0) (us_decoded s0) u) as Hf.
    destruct (uri_loop u _) as [s'|q s'|s']; [done|right..]; destruct Hf as [[p Hp] Hc]; cbn; rewrite Hp in *; exists (us_path s0), p;
      (split; [done|split; [apply H0|exact Hc]]). }
  assert (Hstep : ∀ c s0, first_segment s0 → us_state s0 = Content → match uri_loop u (uri_path_step Content c s0) with
    | UriBad _ => True
    | UriQuery _ s' | UriDone s' => Forall (λ c, c ≠ 47) (us_path s') ∨ ∃ seg p, us_path s' = seg ++ 47 :: p ∧ Forall (λ c, c ≠ 47) seg ∧ (0 ≤ us_minDepth s' → confined (47 :: p))
    end).
  { intros c s0 H0 Hs0. destruct (content_step c s0 H0 Hs0) as [[-> ->]|H1]; [by apply Hslash|by apply IH]. }
  destruct H as [Hst Hd Hm Hp]. cbn [uri_loop]. destruct Hst as [Hst|[Hst|[[Hst|Hst] Hq]]]; rewrite Hst.
  - apply Hstep; [split; auto|done].
  - destruct (ch =? 63); [apply IH; split; auto|by left].
  - destruct (quote_high ch) as [d|]; [|done]. apply IH. split; cbn; auto.
  - destruct (quote_low (us_decoded s) ch) as [c|]; [|done]. unfold uri_decoded. destruct (c =? 0); [done|]. destruct (Z.eqb_spec c 37) as [->|Hc].
    + apply IH. split; cbn; auto; [lia|]. by apply Forall_app_2; [|repeat constructor].
    + rewrite Hq. apply Hstep; [split; cbn; auto; lia|done].
Qed.

Lemma first_slash (seg1 seg2 p1 p2 : bytes) :
  seg1 ++ 47 :: p1 = seg2 ++ 47 :: p2 → Forall (λ c, c ≠ 47) seg1 → Forall (λ c, c ≠ 47) seg2 → p1 = p2.
Proof.
  revert seg2. induction seg1 as [|x seg1 IH]; intros [|y seg2] E H1 H2; cbn in E; injection E; intros; subst; try done;
    apply list.Forall_cons in H1 as [? H1] || apply list.Forall_cons in H2 as [? H2]; try done.
  apply list.Forall_cons in H2 as [? H2]. by eapply IH.
Qed.

(** C27 (safety). From its first slash on, a path that [setUri] accepts does not leave the document
    root: however the URI is encoded, every directory on the way of the decoded path lies at or
    below the directory that the part before the first slash names. So for a URI that begins with
    a slash (or its code) the whole path is confined to the document root. What is before the first slash is
    taken as it is: [setUri] accepts "../x" ([first_segment_unchecked]). (The last segment is not a
    directory on the way, see [trailing_climb_uncounted].) *)
Theorem setUri_confined uri info seg rest :
  setUri uri newUriInfo = (true, info) → u_path info = seg ++ 47 :: rest → Forall (λ c, c ≠ 47) seg →
  confined (47 :: rest).
Proof.
  intros H He Hseg. unfold setUri in H. destruct (bool_decide (uri = [42])).
  { injection H as <-. cbn in He. destruct seg as [|x [|y seg]]; injection He; intros; subst; done. }
  assert (Hf : first_segment (uri_start newUriInfo)) by (split; cbn; auto; lia).
  pose proof (first_loop uri _ Hf) as Hl.
  assert (Hfin : ∀ s, Forall (λ c, c ≠ 47) (us_path s) ∨ (∃ seg p, us_path s = seg ++ 47 :: p ∧ Forall (λ c, c ≠ 47) seg ∧ (0 ≤ us_minDepth s → confined (47 :: p))) →
    negb (us_minDepth s <? 0) = true → us_path s = seg ++ 47 :: rest → confined (47 :: rest)).
  { intros s [Hn|(seg' & p & Hp & Hs & Hc)] Hm E.
    - rewrite E in Hn. apply list.Forall_app in Hn as [_ Hn]. by apply list.Forall_cons in Hn as [? _].
    - rewrite Hp in E. apply first_slash in E as <-; [|done..]. apply Hc. apply negb_true_iff, Z.ltb_ge in Hm. done. }
  destruct (uri_loop uri _) as [s|q s|s]; [done|injection H as H <-; by eapply Hfin|].
  destruct (us_state s); try done; injection H as H <-; by eapply Hfin.
Qed.

(** The first segment of a path without a leading slash is content, also when
    it consists of two dots. *)
Lemma first_segment_unchecked :
  setUri (str "../x") newUriInfo = (true, mkUriInfo (str "../x") (str "../x") [] 1) ∧ ¬ confined (str "../x").
Proof. split; [by vm_compute|]. intros H. specialize (H (str "..") (str "x") eq_refl). vm_compute in H. by apply H. Qed.

Lemma setUri_confined_witness :
  setUri (str "/a/%2e%2E/b/../c?x=1") newUriInfo =
    (true, mkUriInfo (str "/a/%2e%2E/b/../c?x=1") (str "/a/../b/../c") (str "x=1") 1) ∧
  confined (str "/a/../b/../c").
Proof.
  split; [by vm_compute|].
  apply (setUri_confined (str "/a/%2e%2E/b/../c?x=1")
           (mkUriInfo (str "/a/%2e%2E/b/../c?x=1") (str "/a/../b/../c") (str "x=1") 1) [] (str "a/../b/../c")).
  - by vm_compute.
  - done.
  - constructor.
Defined.

(** ** Plain characters and percent-encoding *)

Lemma uri_loop_app a b s :
  uri_loop (a ++ b) s =
  match uri_loop a s with UriDone s' => uri_loop b s' | UriBad s' => UriBad s' | UriQuery q s' => UriQuery (q ++ b) s' end.
Proof.
  revert s; induction a as [|ch a IH]; intros s; [done|]. cbn [uri_loop app].
  destruct (us_state s); try apply IH.
  - destruct (quote_high ch); [apply IH|done].
  - destruct (quote_low _ ch); [|done]. destruct (uri_decoded _ s); [apply IH|done].
  - destruct (ch =? 63); [apply IH|done].
Qed.

(** A character other than a percent sign and a question mark is appended to the path. *)
Lemma path_step_appends st ch s :
  is_path_state st = true → ch ≠ 37 → ch ≠ 63 →
  us_path (uri_path_step st ch s) = us_path s ++ [ch] ∧ is_path_state (us_state (uri_path_step st ch s)) = true.
Proof.
  intros Hst H37%Z.eqb_neq H63%Z.eqb_neq. destruct st; try done; cbn [uri_path_step]; rewrite ?H37, ?H63;
    repeat case_match; done.
Qed.

Lemma plain_run u : ∀ s,
  is_path_state (us_state s) = true → Forall (λ c, c ≠ 37 ∧ c ≠ 63) u →
  ∃ s', uri_loop u s = UriDone s' ∧ us_path s' = us_path s ++ u ∧ is_path_state (us_state s') = true.
Proof.
  induction u as [|ch u IH]; intros s Hs Hu; [exists s; by rewrite app_nil_r|].
  apply Forall_cons_1 in Hu as [[Hc1 Hc2] Hu]. destruct (path_step_appends (us_state s) ch s Hs Hc1 Hc2) as [Hp Hs'].
  destruct (IH (uri_path_step (us_state s) ch s) Hs' Hu) as (s' & Hl & Hp' & Hst). exists s'.
  rewrite Hp', Hp, <- app_assoc. split; [|done]. cbn [uri_loop]. by destruct (us_state s).
Qed.

(** RFC 3986 percent-encoding of a byte. *)
Definition hex_upper (d : Z) : Z := if d <? 10 then 48 + d else 55 + d.
Definition percent (b : Z) : bytes := [37; hex_upper (b / 16); hex_upper (b mod 16)].

(** The byte that the quote of [b] stands for. *)
Definition unpercent (b : Z) : Z := if b <? 160 then b else b - 64.

Lemma unquote_percent b :
  is_byte b → ∃ h, quote_high (hex_upper (b / 16)) = Some h ∧ quote_low h (hex_upper (b mod 16)) = Some (unpercent b).
Proof.
  intros Hb. pose proof (byte_forall (λ b,
    match quote_high (hex_upper (b / 16)) with
    | Some h => bool_decide (quote_low h (hex_upper (b mod 16)) = Some (unpercent b))
    | None => false
    end) eq_refl b Hb) as H. cbn beta in H.
  destruct (quote_high _) as [h|]; [|done]. apply bool_decide_eq_true in H. by exists h.
Qed.

Lemma percent_run b s :
  is_byte b → b ≠ 0 → b ≠ 63 → is_path_state (us_state s) = true →
  ∃ s', (∀ rest, uri_loop (percent b ++ rest) s = uri_loop rest s') ∧
    us_path s' = us_path s ++ [unpercent b] ∧ is_path_state (us_state s') = true.
Proof.
  intros Hb H0 H63 Hs. destruct (unquote_percent b Hb) as (h & Hh & Hl).
  assert (Hq : ∀ rest, uri_loop (percent b ++ rest) s =
    uri_loop (hex_upper (b / 16) :: hex_upper (b mod 16) :: rest) (us_quote s)).
  { intros rest. unfold percent. cbn [app uri_loop]. by destruct (us_state s). }
  cbn [uri_loop us_quote us_state us_digit us_decoded] in Hq. rewrite Hh in Hq.
  cbn [us_digit us_decoded us_state us_quoted us_path us_depth us_minDepth] in Hq. rewrite Hl in Hq.
  unfold is_byte, fits in Hb. change (2 ^ 8) with 256 in Hb.
  assert (Hu0 : (unpercent b =? 0) = false)
    by (apply Z.eqb_neq; unfold unpercent; destruct (Z.ltb_spec b 160); lia).
  assert (Hu63 : unpercent b ≠ 63) by (unfold unpercent; destruct (Z.ltb_spec b 160); lia).
  unfold uri_decoded in Hq. rewrite Hu0 in Hq. destruct (Z.eqb_spec (unpercent b) 37) as [He|Hne].
  - eexists. split; [exact Hq|]. by rewrite He.
  - eexists. split; [exact Hq|].
    by apply (path_step_appends _ _ (us_goto (us_state s) 0 (us_digit h (us_quote s)))).
Qed.

Lemma percent_runs bs : ∀ s,
  Forall (λ b, is_byte b ∧ b ≠ 0 ∧ b ≠ 63) bs → is_path_state (us_state s) = true →
  ∃ s', uri_loop (bs ≫= percent) s = UriDone s' ∧
    us_path s' = us_path s ++ (unpercent <$> bs) ∧ is_path_state (us_state s') = true.
Proof.
  induction bs as [|b bs IH]; intros s Hbs Hs; [exists s; by rewrite app_nil_r|].
  apply Forall_cons_1 in Hbs as [(Hb & H0 & H63) Hbs].
  destruct (percent_run b s Hb H0 H63 Hs) as (s1 & Hl & Hp & Hs1).
  destruct (IH s1 Hbs Hs1) as (s2 & Hl2 & Hp2 & Hs2). exists s2.
  change ((b :: bs) ≫= percent) with (percent b ++ (bs ≫= percent)).
  rewrite Hl, Hl2, Hp2, Hp, <- app_assoc. done.
Qed.

(** A percent-encoded path is decoded byte by byte, whatever
    the bytes are (dots, slashes and percent signs included), except that NUL is
    refused and a question mark starts the query. But a byte from 160 on is
    decoded as one that is 64 smaller: the value of a high digit [a] to [f] is
    computed with the wrong sign. *)
Theorem percent_decoding bs :
  Forall (λ b, is_byte b ∧ b ≠ 0 ∧ b ≠ 63) bs →
  u_path (setUri (47 :: (bs ≫= percent)) newUriInfo).2 = 47 :: (unpercent <$> bs) ∧
  u_query (setUri (47 :: (bs ≫= percent)) newUriInfo).2 = [].
Proof.
  intros Hbs. unfold setUri. rewrite bool_decide_false by done.
  change (uri_loop (47 :: ?u) (uri_start newUriInfo)) with (uri_loop u (us_append Slash 47 0 (uri_start newUriInfo))).
  destruct (percent_runs bs (us_append Slash 47 0 (uri_start newUriInfo)) Hbs eq_refl) as (s & -> & Hp & Hs).
  destruct (us_state s); try done; cbn [snd u_path u_query newUriInfo]; by rewrite Hp.
Qed.

Lemma percent_decoding_witness :
  u_path (setUri (str "/%61%2E%AE") newUriInfo).2 = 47 :: (unpercent <$> [97; 46; 174]) ∧
  u_query (setUri (str "/%61%2E%AE") newUriInfo).2 = [].
Proof.
  change (str "/%61%2E%AE") with (47 :: ([97; 46; 174] ≫= percent)).
  apply (percent_decoding [97; 46; 174]). repeat constructor; done.
Defined.

(** ** What the depth does not see *)

Lemma slash_step s :
  is_path_state (us_state s) = true → us_state (uri_path_step (us_state s) 47 s) = Slash.
Proof. by destruct (us_state s). Qed.

(** A [".."] in the last segment is not counted: after any
    accepted directory, the same followed by [".."] is accepted as well with the
    same depth, also if the directory is the root. *)
Theorem trailing_climb_uncounted u info :
  Forall (λ c, c ≠ 37 ∧ c ≠ 63) u → setUri (u ++ [47]) newUriInfo = (true, info) →
  setUri (u ++ [47; 46; 46]) newUriInfo =
    (true, mkUriInfo (u ++ [47; 46; 46]) (u ++ [47; 46; 46]) [] (u_directoryDepth info)).
Proof.
  intros Hu. unfold setUri. rewrite !bool_decide_false by (intros He; by destruct u as [|? [|? ?]]).
  rewrite !uri_loop_app. destruct (plain_run u (uri_start newUriInfo) eq_refl Hu) as (s & -> & Hp & Hs).
  assert (Hl : ∀ rest, uri_loop (47 :: rest) s = uri_loop rest (uri_path_step (us_state s) 47 s)).
  { intros rest. cbn [uri_loop]. by destruct (us_state s). }
  rewrite !Hl. pose proof (slash_step s Hs) as Hs1.
  destruct (path_step_appends (us_state s) 47 s Hs ltac:(done) ltac:(done)) as [Hp1 _].
  set (s1 := uri_path_step (us_state s) 47 s) in *. cbn [uri_loop]. rewrite Hs1. cbn.
  intros [= Hm <-]. cbn [u_directoryDepth]. rewrite Hm, Hp1, Hp, <- !app_assoc. cbn. by rewrite !Z.add_0_r.
Qed.

Lemma trailing_climb_uncounted_witness :
  setUri (str "/..") newUriInfo = (true, mkUriInfo (str "/..") (str "/..") [] 0) ∧ walk (str "/..") = -1.
Proof.
  split; [|by vm_compute].
  apply (trailing_climb_uncounted [] (mkUriInfo (str "/") (str "/") [] 0)); [constructor|by vm_compute].
Defined.

(** The depth alone does not show that a path climbs above the
    root: ["/../x"] is refused by the result of [setUri], but leaves the depth
    at zero. *)
Theorem refused_depth_recovers x :
  x ≠ [] → Forall (λ c, c ≠ 37 ∧ c ≠ 46 ∧ c ≠ 47 ∧ c ≠ 63) x →
  setUri (str "/../" ++ x) newUriInfo = (false, mkUriInfo (str "/../" ++ x) (str "/../" ++ x) [] 0).
Proof.
  intros Hx Hc. unfold setUri. rewrite bool_decide_false by done. rewrite uri_loop_app.
  set (s := mkUriScan Slash Content 0 (str "/../") (-1) (-1)).
  change (uri_loop (str "/../") (uri_start newUriInfo)) with (UriDone s). cbv iota.
  destruct x as [|c x]; [done|]. clear Hx. apply Forall_cons_1 in Hc as [Hc Hx].
  assert (Hs : uri_loop (c :: x) s = uri_loop x (us_append Content c 1 s)).
  { cbn [uri_loop us_state s uri_path_step].
    rewrite !(proj2 (Z.eqb_neq c _)) by naive_solver. done. }
  rewrite Hs. clear Hs.
  assert (Hrun : ∀ t, us_state t = Content → us_depth t = 0 → us_minDepth t = -1 →
    ∃ t', uri_loop x t = UriDone t' ∧ us_path t' = us_path t ++ x ∧ us_state t' = Content ∧
      us_depth t' = 0 ∧ us_minDepth t' = -1).
  { induction Hx as [|d x Hd _ IH]; intros t Ht Hd0 Hm; [exists t; by rewrite app_nil_r|].
    cbn [uri_loop]. rewrite Ht. cbn [uri_path_step].
    rewrite !(proj2 (Z.eqb_neq d _)) by naive_solver.
    destruct (IH (us_append Content d 0 t)) as (t' & Hl & Hp & Hrest); [done|cbn; lia|done|].
    exists t'. split; [done|]. rewrite Hp. cbn [us_append us_path]. by rewrite <- app_assoc. }
  destruct (Hrun (us_append Content c 1 s)) as (t & -> & Hp & Ht & Hd & Hm); [done..|].
  rewrite Ht, Hm, Hd, Hp. cbn [us_append us_path s]. by rewrite <- app_assoc.
Qed.

Lemma refused_depth_recovers_witness :
  setUri (str "/../" ++ str "x") newUriInfo = (false, mkUriInfo (str "/../" ++ str "x") (str "/../" ++ str "x") [] 0).
Proof. apply (refused_depth_recovers (str "x")); [done|]. repeat constructor; done. Defined.
