(* ===== verification/TokenShaper.v ===== *)
(** * The token shaper

    [src/xzero/TokenShaper.h], [TokenShaper-inl.h] and [Counter.cc]: a tree of
    buckets that tokens are taken from and put back to. Each bucket is assured a
    share of its parent's tokens and may borrow from it up to a ceiling; packets
    that get no token wait in the bucket's queue.

    A bucket is addressed by its position: the indices from the root down to it
    ([path]), or from the bucket up to the root where the code follows
    [parent_] pointers ([up], the path reversed). The shaper is documented as not
    thread safe; the compare-and-swap loop of [get] then takes one iteration.
    [float] is IEEE binary32 ([SpecFloat] with 24 bits of precision and exponents
    up to 128); time is an argument. *)
From Stdlib Require Import SpecFloat.
From S2P Require Import Prelude.

(** ** Numbers *)

Abbreviation float := spec_float.
Definition f32_mul : float → float → float := SFmul 24 128.
Definition f32_add : float → float → float := SFadd 24 128.
Definition f32_zero : float := S754_zero false.
Definition f32_one : float := S754_finite false 8388608 (-23).

(** Conversions between [size_t] and [float]: rounding to nearest, truncation,
    undefined out of range. *)
Definition f32_of_size (n : Z) : float := binary_normalize 24 128 n 0 false.
Definition size_of_f32 (f : float) : result Z :=
  match f with
  | S754_zero _ => Ok 0
  | S754_finite s m e =>
      let z := if 0 <=? e then Z.pos m * 2 ^ e else Z.pos m / 2 ^ (- e) in
      if z =? 0 then Ok 0 else if s || (2 ^ 64 <=? z) then Raise UndefinedBehaviour else Ok z
  | _ => Raise UndefinedBehaviour
  end.

(** [n * f] assigned to a [size_t]. *)
Definition scale (n : Z) (f : float) : result Z := size_of_f32 (f32_mul (f32_of_size n) f).

(** ** Counter *)

Record Counter := mkCounter { c_current : Z; c_max : Z; c_total : Z }.
Definition newCounter : Counter := mkCounter 0 0 0.

Definition counter_increment (n : Z) (c : Counter) : Counter :=
  let current := u64 (c_current c + n) in
  mkCounter current (if c_max c <? current then current else c_max c) (u64 (c_total c + n)).
Definition counter_decrement (n : Z) (c : Counter) : Counter :=
  mkCounter (u64 (c_current c - n)) (c_max c) (c_total c).

(** ** Buckets *)

Inductive TokenShaperError := Success | RateLimitOverflow | CeilLimitOverflow | NameConflict | InvalidChildNode.

Section shaper.
Context {T : Type}.

Record NodeData := mkNodeData {
  nd_name : bytes;
  nd_rate : Z;
  nd_ceil : Z;
  nd_ratePercent : float;
  nd_ceilPercent : float;
  nd_actualRate : Counter;
  nd_queued : Counter;
  nd_dropped : Z;
  nd_queueTimeout : Z;
  nd_queue : list (T * Z);
  nd_dequeueOffset : nat;
}.

Inductive Node := mkNode { nd : NodeData; children : list Node }.

(** [queueTimeout_(50_seconds)], in microseconds. *)
Definition newNodeData (name : bytes) (tokenRate tokenCeil : Z) (rate ceil : float) : NodeData :=
  mkNodeData name tokenRate tokenCeil rate ceil newCounter newCounter 0 50000000 [] 0.

Definition createRoot (tokens : Z) : Node :=
  mkNode (newNodeData (str "root") tokens tokens f32_one f32_one) [].

Definition set_rates (rate ceil : Z) (d : NodeData) : NodeData :=
  mkNodeData (nd_name d) rate ceil (nd_ratePercent d) (nd_ceilPercent d) (nd_actualRate d)
    (nd_queued d) (nd_dropped d) (nd_queueTimeout d) (nd_queue d) (nd_dequeueOffset d).
Definition set_percents (rate ceil : float) (d : NodeData) : NodeData :=
  mkNodeData (nd_name d) (nd_rate d) (nd_ceil d) rate ceil (nd_actualRate d)
    (nd_queued d) (nd_dropped d) (nd_queueTimeout d) (nd_queue d) (nd_dequeueOffset d).
Definition set_name (name : bytes) (d : NodeData) : NodeData :=
  mkNodeData name (nd_rate d) (nd_ceil d) (nd_ratePercent d) (nd_ceilPercent d) (nd_actualRate d)
    (nd_queued d) (nd_dropped d) (nd_queueTimeout d) (nd_queue d) (nd_dequeueOffset d).
Definition set_actualRate (c : Counter) (d : NodeData) : NodeData :=
  mkNodeData (nd_name d) (nd_rate d) (nd_ceil d) (nd_ratePercent d) (nd_ceilPercent d) c
    (nd_queued d) (nd_dropped d) (nd_queueTimeout d) (nd_queue d) (nd_dequeueOffset d).
Definition set_queue (queued : Counter) (dropped : Z) (queue : list (T * Z)) (d : NodeData) : NodeData :=
  mkNodeData (nd_name d) (nd_rate d) (nd_ceil d) (nd_ratePercent d) (nd_ceilPercent d) (nd_actualRate d)
    queued dropped (nd_queueTimeout d) queue (nd_dequeueOffset d).
Definition set_queueTimeout (timeout : Z) (d : NodeData) : NodeData :=
  mkNodeData (nd_name d) (nd_rate d) (nd_ceil d) (nd_ratePercent d) (nd_ceilPercent d) (nd_actualRate d)
    (nd_queued d) (nd_dropped d) timeout (nd_queue d) (nd_dequeueOffset d).
Definition set_dequeueOffset (i : nat) (d : NodeData) : NodeData :=
  mkNodeData (nd_name d) (nd_rate d) (nd_ceil d) (nd_ratePercent d) (nd_ceilPercent d) (nd_actualRate d)
    (nd_queued d) (nd_dropped d) (nd_queueTimeout d) (nd_queue d) i.

(** ** Addressing *)

Fixpoint lookup_node (path : list nat) (t : Node) : option Node :=
  match path with
  | [] => Some t
  | i :: path => match children t !! i with Some c => lookup_node path c | None => None end
  end.

Fixpoint alter_node (f : Node → Node) (path : list nat) (t : Node) : Node :=
  match path with
  | [] => f t
  | i :: path => mkNode (nd t) (alter (alter_node f path) i (children t))
  end.

Definition on_data (f : NodeData → NodeData) (t : Node) : Node := mkNode (f (nd t)) (children t).

(** ** Rates *)

Definition actualRate (t : Node) : Z := c_current (nd_actualRate (nd t)).
Definition overRate (t : Node) : Z := Z.max (s64 (actualRate t - nd_rate (nd t))) 0.

Definition childRateP (t : Node) : float :=
  foldl (λ sum c, f32_add sum (nd_ratePercent (nd c))) f32_zero (children t).
Definition childRate (t : Node) : Z := foldl (λ sum c, u64 (sum + nd_rate (nd c))) 0 (children t).
Definition actualChildRate (t : Node) : Z := foldl (λ sum c, u64 (sum + actualRate c)) 0 (children t).
Definition actualChildOverRate (t : Node) : Z := foldl (λ sum c, u64 (sum + overRate c)) 0 (children t).

(** [update()] of a bucket whose parent has these rates; it goes down the tree. *)
Fixpoint update (prate pceil : Z) (t : Node) : result Node :=
  rate ← scale prate (nd_ratePercent (nd t));
  ceil ← scale pceil (nd_ceilPercent (nd t));
  cs ← (fix go cs := match cs with
                     | [] => Ok []
                     | c :: cs => c ← update rate ceil c; cs ← go cs; Ok (c :: cs)
                     end) (children t);
  Ok (mkNode (set_rates rate ceil (nd t)) cs).

Fixpoint update_all (prate pceil : Z) (cs : list Node) : result (list Node) :=
  match cs with
  | [] => Ok []
  | c :: cs => c ← update prate pceil c; cs ← update_all prate pceil cs; Ok (c :: cs)
  end.

(** [update(capacity)] of the root, and [TokenShaper::resize]. *)
Definition update_root (capacity : Z) (t : Node) : result Node :=
  rate ← scale capacity (nd_ratePercent (nd t));
  ceil ← scale capacity (nd_ceilPercent (nd t));
  cs ← update_all rate ceil (children t);
  Ok (mkNode (set_rates rate ceil (nd t)) cs).

Definition resize (capacity : Z) (t : Node) : result Node :=
  if nd_rate (nd t) =? capacity then Ok t else update_root capacity t.

(** ** Building and changing the tree *)

(** [findChild]: the direct children first, then their subtrees. *)
Fixpoint findChild (name : bytes) (t : Node) : option (list nat) :=
  match list_find (λ c, nd_name (nd c) = name) (children t) with
  | Some (i, _) => Some [i]
  | None =>
      (fix go i cs := match cs with
                      | [] => None
                      | c :: cs => match findChild name c with
                                   | Some path => Some (i :: path)
                                   | None => go (S i) cs
                                   end
                      end) 0%nat (children t)
  end.

Definition replace_node (path : list nat) (x : Node) (t : Node) : Node := alter_node (λ _, x) path t.

Definition createChild (name : bytes) (rate ceil : float) (path : list nat) (t : Node) :
    result (TokenShaperError * Node) :=
  match lookup_node path t with
  | None => Raise UndefinedBehaviour
  | Some x =>
      if SFltb rate f32_zero || SFltb f32_one (f32_add rate (childRateP x)) then Ok (RateLimitOverflow, t)
      else if SFltb ceil rate || SFltb f32_one ceil then Ok (CeilLimitOverflow, t)
      else match findChild name t with
           | Some _ => Ok (NameConflict, t)
           | None =>
               tokenRate ← scale (nd_rate (nd x)) rate;
               tokenCeil ← scale (nd_ceil (nd x)) ceil;
               let b := mkNode (newNodeData name tokenRate tokenCeil rate ceil) [] in
               Ok (Success, replace_node path (mkNode (nd x) (children x ++ [b])) t)
           end
  end.

(** [destroyNode], [destroyChild]: the root stays. *)
Definition destroyNode (path : list nat) (t : Node) : Node :=
  match list.last path with
  | None => t
  | Some i => alter_node (λ x, mkNode (nd x) (delete i (children x))) (removelast path) t
  end.

Definition setName (name : bytes) (path : list nat) (t : Node) : TokenShaperError * Node :=
  match findChild name t with
  | Some _ => (NameConflict, t)
  | None => (Success, alter_node (on_data (set_name name)) path t)
  end.

(** The bucket and its parent. *)
Definition with_parent (path : list nat) (t : Node) (f : Node → Node → result (TokenShaperError * Node)) :
    result (TokenShaperError * Node) :=
  match path with
  | [] => Ok (InvalidChildNode, t)
  | _ => match lookup_node (removelast path) t, lookup_node path t with
         | Some p, Some x => f p x
         | _, _ => Raise UndefinedBehaviour
         end
  end.

Definition setRate (newRate : float) (path : list nat) (t : Node) : result (TokenShaperError * Node) :=
  with_parent path t (λ p x,
    if SFltb newRate f32_zero || SFltb (nd_ceilPercent (nd x)) newRate then Ok (RateLimitOverflow, t)
    else
      rate ← scale (nd_rate (nd p)) newRate;
      cs ← update_all rate (nd_ceil (nd x)) (children x);
      Ok (Success, replace_node path
        (mkNode (set_rates rate (nd_ceil (nd x)) (set_percents newRate (nd_ceilPercent (nd x)) (nd x))) cs) t)).

Definition setCeil (newCeil : float) (path : list nat) (t : Node) : result (TokenShaperError * Node) :=
  with_parent path t (λ p x,
    if SFltb newCeil (nd_ratePercent (nd x)) || SFltb f32_one newCeil then Ok (CeilLimitOverflow, t)
    else
      ceil ← scale (nd_ceil (nd p)) newCeil;
      cs ← update_all (nd_rate (nd x)) ceil (children x);
      Ok (Success, replace_node path
        (mkNode (set_rates (nd_rate (nd x)) ceil (set_percents (nd_ratePercent (nd x)) newCeil (nd x))) cs) t)).

Definition setRateCeil (newRate newCeil : float) (path : list nat) (t : Node) : result (TokenShaperError * Node) :=
  with_parent path t (λ p x,
    if SFltb newRate f32_zero || SFltb newCeil newRate then Ok (RateLimitOverflow, t)
    else if SFltb f32_one newCeil then Ok (CeilLimitOverflow, t)
    else
      x ← update (nd_rate (nd p)) (nd_ceil (nd p)) (on_data (set_percents newRate newCeil) x);
      Ok (Success, replace_node path x t)).

Fixpoint setQueueTimeout (value : Z) (t : Node) : Node :=
  mkNode (set_queueTimeout value (nd t)) (setQueueTimeout value <$> children t).

(** ** Taking and returning tokens *)

Definition bump (n : Z) : Node → Node := on_data (λ d, set_actualRate (counter_increment n (nd_actualRate d)) d).
Definition drop_rate (n : Z) : Node → Node := on_data (λ d, set_actualRate (counter_decrement n (nd_actualRate d)) d).

(** [actualRate_ += n] of the bucket and of all its ancestors. *)
Fixpoint bump_up (up : list nat) (n : Z) (t : Node) : Node :=
  let t := alter_node (bump n) (rev up) t in
  match up with [] => t | _ :: up => bump_up up n t end.

(** The test for the assured tokens. *)
Definition assured (n : Z) (x : Node) : bool :=
  negb (nd_rate (nd x) <? u64 (Z.max (actualRate x) (u64 (childRate x + actualChildOverRate x)) + n)).

Fixpoint get (up : list nat) (n : Z) (t : Node) : Z * Node :=
  match lookup_node (rev up) t with
  | None => (0, t)
  | Some x =>
      if assured n x then (n, bump_up up n t)
      else if u64 (actualRate x + n) <=? nd_ceil (nd x) then
        match up with
        | [] => (0, t)
        | _ :: up' =>
            let '(m, t') := get up' n t in
            if m =? 0 then (0, t') else (n, alter_node (bump n) (rev up) t')
        end
      else (0, t)
  end.

(** The assertions of [put] on one bucket. *)
Definition may_drop (n : Z) (x : Node) : bool :=
  (n <=? actualRate x) && (actualChildRate x <=? u64 (actualRate x - n)).

Fixpoint put (up : list nat) (n : Z) (t : Node) : result Node :=
  match lookup_node (rev up) t with
  | None => Raise UndefinedBehaviour
  | Some x =>
      if may_drop n x then
        let t := alter_node (drop_rate n) (rev up) t in
        match up with [] => Ok t | _ :: up => put up n t end
      else Raise AssertionFailure
  end.

(** ** Queues *)

(** The loop of [updateQueueTimer]: what is left and what timed out. *)
Fixpoint expire (now timeout : Z) (q : list (T * Z)) : list (T * Z) * list T :=
  match q with
  | [] => ([], [])
  | (x, ctime) :: q' =>
      if now - ctime <? timeout then (q, [])
      else let '(rest, gone) := expire now timeout q' in (rest, x :: gone)
  end.

(** [updateQueueTimer]: the bucket, the packets handed to [onTimeout_] and the
    time after which it is to be called again. *)
Definition updateQueueTimer (now : Z) (d : NodeData) : NodeData * list T * option Z :=
  let '(rest, gone) := expire now (nd_queueTimeout d) (nd_queue d) in
  let n := Z.of_nat (length gone) in
  (set_queue (counter_decrement n (nd_queued d)) (u64 (nd_dropped d + n)) rest d, gone,
   match rest with [] => None | (_, ctime) :: _ => Some (nd_queueTimeout d - (now - ctime)) end).

Definition enqueue (x : T) (now : Z) (path : list nat) (t : Node) : Node * list T * option Z :=
  match lookup_node path t with
  | None => (t, [], None)
  | Some b =>
      let d := set_queue (counter_increment 1 (nd_queued (nd b))) (nd_dropped (nd b))
                 (nd_queue (nd b) ++ [(x, now)]) (nd b) in
      let '(d, gone, timer) := updateQueueTimer now d in
      (replace_node path (mkNode d (children b)) t, gone, timer)
  end.

Definition send (x : T) (cost now : Z) (up : list nat) (t : Node) : bool * Node * list T * option Z :=
  let '(m, t) := get up cost t in
  if m =? 0 then let '(t, gone, timer) := enqueue x now (rev up) t in (false, t, gone, timer)
  else (true, t, [], None).

(** [--queued_] of the bucket whose first packet leaves the queue. *)
Definition pop_queue (d : NodeData) : NodeData :=
  set_queue (counter_decrement 1 (nd_queued d)) (nd_dropped d) (tail (nd_queue d)) d.

(** The bucket's own queue: one token for the first packet. *)
Definition dequeue_own (up : list nat) (t : Node) : option T * Node :=
  match lookup_node (rev up) t with
  | Some x =>
      match nd_queue (nd x) with
      | [] => (None, t)
      | (item, _) :: _ =>
          let '(m, t) := get up 1 t in
          if m =? 0 then (None, t) else (Some item, alter_node (on_data pop_queue) (rev up) t)
      end
  | None => (None, t)
  end.

Definition previous (count offset : nat) : nat := match offset with O => count - 1 | S i => i end.

(** One round over the [count] children, the one before the last served first;
    an offset beyond the children is an access outside of the vector. *)
Definition dequeue_round (dequeue : list nat → Node → result (option T * Node)) (up : list nat) :=
  fix round (k count : nat) (t : Node) : result (option T * Node) :=
    match k with
    | O => Ok (None, t)
    | S k =>
        match lookup_node (rev up) t with
        | None => Raise UndefinedBehaviour
        | Some x =>
            let i := previous count (nd_dequeueOffset (nd x)) in
            if (i <? count)%nat then
              '(item, t) ← dequeue (i :: up) (alter_node (on_data (set_dequeueOffset i)) (rev up) t);
              match item with Some item => Ok (Some item, t) | None => round k count t end
            else Raise UndefinedBehaviour
        end
    end.

(** [dequeue]: the children first, then the bucket's own queue. The fuel bounds
    the height of the tree. *)
Fixpoint dequeue (fuel : nat) (up : list nat) (t : Node) : result (option T * Node) :=
  match fuel with
  | O => Raise Blocked
  | S fuel =>
      match lookup_node (rev up) t with
      | None => Raise UndefinedBehaviour
      | Some x =>
          '(item, t) ← dequeue_round (dequeue fuel) up (length (children x)) (length (children x)) t;
          match item with Some item => Ok (Some item, t) | None => Ok (dequeue_own up t) end
      end
  end.
End shaper.
Arguments NodeData T : clear implicits.
Arguments Node T : clear implicits.
