(* ===== verification/TokenShaperTokens.v ===== *)
(** * The token shaper: who holds how many tokens

    The tokens a bucket has taken for itself ([held]) are its actual rate
    without what its children have taken. In these terms [get] and [put] are
    what their documentation says: all or nothing, on one bucket, while the
    counters of the ancestors follow. *)
From Stdlib Require Import SpecFloat.
From S2P Require Import Prelude TokenShaper.

Section tokens.
Context {T : Type}.
Implicit Types (t x c : Node T) (p q up : list nat).

(** ** The tree after an allocation *)

(** [n] more tokens in the bucket at [p] and in all its ancestors. *)
Fixpoint charge (n : Z) p t : Node T :=
  match p with
  | [] => bump n t
  | i :: p => bump n (mkNode (nd t) (alter (charge n p) i (children t)))
  end.

Lemma charge_below n i p t : charge n (p ++ [i]) t = charge n p (alter_node (bump n) (p ++ [i]) t).
Proof.
  revert t; induction p as [|j p IH]; intros t; cbn [charge app alter_node nd children]; [done|].
  f_equal. f_equal. rewrite list_alter_alter_eq. apply list_alter_ext; [|done]. intros c _. apply IH.
Qed.

Lemma charge_above n i p t : charge n (p ++ [i]) t = alter_node (bump n) (p ++ [i]) (charge n p t).
Proof.
  revert t; induction p as [|j p IH]; intros t; cbn [charge app alter_node]; [done|].
  change (mkNode (nd (bump n ?x)) (alter ?f j (children (bump n ?x)))) with
    (bump n (mkNode (nd x) (alter f j (children x)))). cbn [nd children]. f_equal. f_equal.
  rewrite list_alter_alter_eq. apply list_alter_ext; [|done]. intros c _. apply IH.
Qed.

Lemma bump_up_charge n up t : bump_up up n t = charge n (rev up) t.
Proof.
  revert t; induction up as [|i up IH]; intros t; cbn [bump_up rev]; [done|].
  rewrite IH. symmetry. apply charge_below.
Qed.

(** ** When a request is granted *)

Definition within_ceil (n : Z) x : bool := u64 (actualRate x + n) <=? nd_ceil (nd x).

Definition node_has (f : Node T → bool) up t : bool :=
  match lookup_node (rev up) t with Some x => f x | None => false end.

(** By the bucket's assured tokens, or by those of its parent if the ceiling
    allows it. *)
Fixpoint granted up (n : Z) t : bool :=
  node_has (assured n) up t ||
  match up with [] => false | _ :: up' => node_has (within_ceil n) up t && granted up' n t end.

Lemma lookup_parent p i t x : lookup_node (p ++ [i]) t = Some x → is_Some (lookup_node p t).
Proof.
  revert t; induction p as [|j p IH]; intros t; cbn [lookup_node app]; [by eexists|].
  destruct (children t !! j); [apply IH|done].
Qed.

Lemma get_granted up n t :
  n ≠ 0 → is_Some (lookup_node (rev up) t) →
  get up n t = if granted up n t then (n, charge n (rev up) t) else (0, t).
Proof.
  intros Hn. induction up as [|i up IH]; intros [x Hx]; cbn [get granted]; unfold node_has; rewrite Hx.
  - rewrite bump_up_charge. destruct (assured n x); [done|]. by destruct (_ <=? _).
  - rewrite bump_up_charge. destruct (assured n x); [done|]. cbn [orb]. fold (within_ceil n x).
    destruct (within_ceil n x); [|done]. cbn [andb].
    cbn [rev] in Hx. rewrite IH by by eapply lookup_parent. destruct (granted up n t); [|done].
    apply Z.eqb_neq in Hn as ->. cbn [rev]. by rewrite charge_above.
Qed.

(** A request is granted if some bucket on the way up has assured tokens left
    and no bucket below it exceeds its ceiling. *)
Lemma granted_spec up n t :
  granted up n t = true ↔
  ∃ up1 up2, up = up1 ++ up2 ∧ node_has (assured n) up2 t = true ∧
    ∀ a b, up1 = a ++ b → b ≠ [] → node_has (within_ceil n) (b ++ up2) t = true.
Proof.
  induction up as [|i up IH]; cbn [granted].
  - rewrite orb_false_r. split.
    + intros H. exists [], []. split_and!; [done|done|]. intros [|??] [|??]; done.
    + intros (up1 & up2 & He & H & _). by destruct up1, up2.
  - rewrite orb_true_iff, andb_true_iff, IH. split.
    + intros [H|[Hc (up1 & up2 & -> & Ha & Hb)]].
      * exists [], (i :: up). split_and!; [done|done|]. intros [|??] [|??]; done.
      * exists (i :: up1), up2. split_and!; [done|done|]. intros [|j a] b He Hne.
        -- cbn in He. by subst b.
        -- cbn in He. injection He as _ ->. by apply (Hb a).
    + intros ([|j up1] & up2 & He & Ha & Hb); cbn in He; [left; by subst|]. injection He as -> ->. right. split.
      * by apply (Hb [] (j :: up1)).
      * exists up1, up2. split_and!; [done|done|]. intros a b -> Hne. by apply (Hb (j :: a)).
Qed.

(** ** Tokens held *)

Definition sum_rates (cs : list (Node T)) : Z := foldr (λ c, Z.add (actualRate c)) 0 cs.

Lemma sum_rates_cons c cs : sum_rates (c :: cs) = actualRate c + sum_rates cs.
Proof. done. Qed.

Definition own x : Z := actualRate x - sum_rates (children x).

(** What the bucket at [p] holds itself. *)
Definition held p t : option Z := own <$> lookup_node p t.

(** The counters are consistent: no bucket holds less than nothing, and all are
    within 64 bits. *)
Inductive tokens_consistent : Node T → Prop :=
  | tokens_consistent_node t :
      0 ≤ own t → 0 ≤ actualRate t < 2 ^ 64 → Forall tokens_consistent (children t) → tokens_consistent t.

Lemma tokens_consistent_inv t :
  tokens_consistent t → 0 ≤ own t ∧ 0 ≤ actualRate t < 2 ^ 64 ∧ Forall tokens_consistent (children t).
Proof. by inversion 1. Qed.

Lemma sum_rates_nonneg cs : Forall tokens_consistent cs → 0 ≤ sum_rates cs.
Proof.
  induction 1 as [|c cs Hc _ IH]; [done|]. apply tokens_consistent_inv in Hc as (_ & [? _] & _). rewrite sum_rates_cons. lia.
Qed.

Lemma sum_rates_alter f i cs c :
  cs !! i = Some c → sum_rates (alter f i cs) = sum_rates cs + actualRate (f c) - actualRate c.
Proof.
  revert i; induction cs as [|c' cs IH]; intros [|i]; try done.
  - intros [= ->]. change (alter f 0%nat (c :: cs)) with (f c :: cs). rewrite !sum_rates_cons. lia.
  - intros Hi. specialize (IH i Hi). change (alter f (S i) (c' :: cs)) with (c' :: alter f i cs).
    rewrite !sum_rates_cons. lia.
Qed.

Lemma sum_rates_le i cs c : Forall tokens_consistent cs → cs !! i = Some c → actualRate c ≤ sum_rates cs.
Proof.
  intros Hcs. revert i; induction Hcs as [|c' cs Hc Hcs IH]; intros [|i]; try done.
  - intros [= ->]. pose proof (sum_rates_nonneg cs Hcs). rewrite sum_rates_cons. lia.
  - intros Hi. specialize (IH i Hi). apply tokens_consistent_inv in Hc as (_ & [? _] & _). rewrite sum_rates_cons. lia.
Qed.

Lemma actualRate_bump n t : 0 ≤ n → 0 ≤ actualRate t → actualRate t + n < 2 ^ 64 → actualRate (bump n t) = actualRate t + n.
Proof.
  intros Hn Ht Hb. unfold bump, on_data, actualRate, set_actualRate, counter_increment in *. cbn in *.
  apply unsigned_id. split; lia.
Qed.

Lemma actualRate_charge n p t :
  0 ≤ n → 0 ≤ actualRate t → actualRate t + n < 2 ^ 64 → actualRate (charge n p t) = actualRate t + n.
Proof. intros Hn Ht Hb. destruct p as [|i p]; cbn [charge]; by rewrite actualRate_bump. Qed.

Lemma own_bump n t cs :
  0 ≤ n → 0 ≤ actualRate t → actualRate t + n < 2 ^ 64 →
  own (bump n (mkNode (nd t) cs)) = actualRate t + n - sum_rates cs.
Proof. intros Hn Ht Hb. unfold own. rewrite actualRate_bump by done. done. Qed.

Lemma held_below f i j q d d' cs c :
  cs !! i = Some c →
  held (j :: q) (mkNode d (alter f i cs)) = if decide (i = j) then held q (f c) else held (j :: q) (mkNode d' cs).
Proof.
  intros Hi. unfold held. cbn [lookup_node children]. destruct (decide (i = j)) as [<-|Hne].
  - by rewrite list_lookup_alter_eq, Hi.
  - by rewrite list_lookup_alter_ne.
Qed.

(** A consistent tree after one of its subtrees grew by [m] and its root by
    [n]. *)
Lemma tokens_consistent_alter f i d d' cs c m n :
  tokens_consistent (mkNode d cs) → cs !! i = Some c → tokens_consistent (f c) → actualRate (f c) = actualRate c + m →
  c_current (nd_actualRate d') = c_current (nd_actualRate d) + n → 0 ≤ own (mkNode d cs) + n - m →
  0 ≤ c_current (nd_actualRate d') < 2 ^ 64 →
  tokens_consistent (mkNode d' (alter f i cs)) ∧ own (mkNode d' (alter f i cs)) = own (mkNode d cs) + n - m.
Proof.
  intros Ht Hi Hf Hm Hn Ho Hd. apply tokens_consistent_inv in Ht as (_ & _ & Hcs).
  assert (Hown : own (mkNode d' (alter f i cs)) = own (mkNode d cs) + n - m).
  { unfold own. cbn [children]. rewrite (sum_rates_alter _ _ _ _ Hi), Hm. unfold actualRate. cbn [nd]. lia. }
  split; [|done]. constructor; [by rewrite Hown|done|]. cbn [children]. apply Forall_alter; [done|].
  intros c0 Hc0 _. congruence.
Qed.

Lemma tokens_consistent_child i d cs c :
  tokens_consistent (mkNode d cs) → cs !! i = Some c → tokens_consistent c ∧ 0 ≤ actualRate c ≤ actualRate (mkNode d cs).
Proof.
  intros Ht Hi. apply tokens_consistent_inv in Ht as (Ho & _ & Hcs). cbn [children] in Hcs.
  pose proof (Forall_lookup_1 _ _ _ _ Hcs Hi) as Hc. split; [done|].
  pose proof (sum_rates_le i cs c Hcs Hi). unfold own in Ho. cbn [children] in Ho.
  apply tokens_consistent_inv in Hc as (_ & [? _] & _). lia.
Qed.

(** Charging a bucket changes what it holds, and nothing else. *)
Lemma charge_held n p t : ∀ x,
  0 ≤ n → tokens_consistent t → actualRate t + n < 2 ^ 64 → lookup_node p t = Some x →
  tokens_consistent (charge n p t) ∧
  ∀ q, held q (charge n p t) = (λ h, if decide (q = p) then h + n else h) <$> held q t.
Proof.
  revert t; induction p as [|i p IH]; intros t x Hn Ht Hb Hp; cbn [charge]; destruct t as [d cs];
    pose proof (tokens_consistent_inv _ Ht) as (Ho & [Hr1 Hr2] & Hcs).
  - pose proof (own_bump n (mkNode d cs) cs Hn Hr1 Hb) as Hown. cbn [nd] in Hown. split.
    + constructor; [unfold own in *; cbn [children] in *; lia|rewrite actualRate_bump by done; lia|done].
    + intros [|j q].
      * unfold held. cbn [lookup_node fmap option_fmap option_map]. rewrite decide_True by done. f_equal.
        rewrite Hown. unfold own. cbn [children]. lia.
      * change (held (j :: q) (bump n (mkNode d cs))) with (held (j :: q) (mkNode d cs)).
        destruct (held (j :: q) (mkNode d cs)); [|done]. cbn. by rewrite decide_False.
  - cbn [lookup_node nd children] in *. destruct (cs !! i) as [c|] eqn:Hi; [|done].
    destruct (tokens_consistent_child i d cs c Ht Hi) as (Hc & Hc1 & Hc2).
    destruct (IH c x Hn Hc ltac:(lia) Hp) as [Hc' Hheld].
    pose proof (actualRate_bump n (mkNode d cs) Hn Hr1 Hb) as Ha. unfold bump, on_data in *. cbn [nd children] in *.
    set (d' := set_actualRate (counter_increment n (nd_actualRate d)) d) in *.
    destruct (tokens_consistent_alter (charge n p) i d d' cs c n n Ht Hi Hc'
      (actualRate_charge n p c Hn Hc1 ltac:(lia)) Ha ltac:(lia)) as [Hwf Hown]; [unfold actualRate in *; cbn in *; lia|].
    split; [exact Hwf|]. intros [|j q].
    + unfold held. cbn [lookup_node fmap option_fmap option_map]. rewrite decide_False by done. f_equal.
      rewrite Hown. lia.
    + rewrite (held_below _ _ _ _ _ d _ _ Hi). destruct (decide (i = j)) as [<-|Hne].
      * rewrite Hheld. unfold held. cbn [lookup_node children]. rewrite Hi. destruct (lookup_node q c); [|done].
        cbn. f_equal. destruct (decide (q = p)) as [->|Hq]; [by rewrite decide_True|]. rewrite decide_False; congruence.
      * destruct (held (j :: q) (mkNode d cs)); [|done]. cbn. rewrite decide_False; congruence.
Qed.

(** ** Returning tokens *)

(** What [actualRate_ -= n] of the bucket at [p] alone does to what is held: its
    parent holds the tokens until it returns them, too. *)
Definition handed_up (n : Z) p q : Z :=
  if decide (q = p) then - n else if decide (p ≠ [] ∧ q = removelast p) then n else 0.

Lemma handed_up_root n i p : handed_up n (i :: p) [] = if decide (p = []) then n else 0.
Proof.
  unfold handed_up. rewrite decide_False by done. destruct (decide (p = [])) as [->|Hp]; [done|].
  rewrite decide_False; [done|]. intros [_ He]. by destruct p.
Qed.

Lemma handed_up_below n i j p q :
  handed_up n (i :: p) (j :: q) = if decide (i = j) then handed_up n p q else 0.
Proof.
  unfold handed_up. destruct (decide (i = j)) as [<-|Hne].
  - destruct (decide (q = p)) as [->|Hq]; [by rewrite decide_True|]. rewrite decide_False by congruence.
    destruct p as [|k p]; [by rewrite !decide_False by naive_solver|].
    change (removelast (i :: k :: p)) with (i :: removelast (k :: p)).
    destruct (decide (q = removelast (k :: p))) as [->|Hr]; [by rewrite !decide_True|].
    by rewrite !decide_False by naive_solver.
  - rewrite decide_False by congruence. rewrite decide_False; [done|]. intros [_ He].
    destruct p as [|k p]; [done|]. change (removelast (i :: k :: p)) with (i :: removelast (k :: p)) in He. congruence.
Qed.

Lemma actualRate_drop n t : 0 ≤ n ≤ actualRate t → actualRate t < 2 ^ 64 → actualRate (drop_rate n t) = actualRate t - n.
Proof.
  intros Hn Hb. unfold drop_rate, on_data, actualRate, set_actualRate, counter_decrement in *. cbn in *.
  apply unsigned_id. split; lia.
Qed.

Lemma drop_held n p t : ∀ x,
  0 ≤ n ≤ own x → tokens_consistent t → lookup_node p t = Some x →
  let t' := alter_node (drop_rate n) p t in
  tokens_consistent t' ∧ actualRate t' = actualRate t - (if decide (p = []) then n else 0) ∧
  ∀ q, held q t' = (λ h, h + handed_up n p q) <$> held q t.
Proof.
  revert t; induction p as [|i p IH]; intros t x Hn Ht Hp; cbn [alter_node]; destruct t as [d cs];
    pose proof (tokens_consistent_inv _ Ht) as (Ho & [Hr1 Hr2] & Hcs).
  - injection Hp as <-. pose proof (sum_rates_nonneg cs Hcs) as Hs. unfold own in Hn. cbn [children] in Hn.
    pose proof (actualRate_drop n (mkNode d cs) ltac:(lia) Hr2) as Ha.
    assert (Hown : own (drop_rate n (mkNode d cs)) = own (mkNode d cs) - n) by (unfold own; rewrite Ha; cbn [drop_rate on_data children]; lia).
    split; [|split; [done|]].
    + constructor; [rewrite Hown; unfold own; cbn [children]; lia|lia|done].
    + intros [|j q].
      * unfold held. cbn [lookup_node fmap option_fmap option_map]. f_equal. rewrite Hown. unfold handed_up. rewrite decide_True by done. lia.
      * change (held (j :: q) (drop_rate n (mkNode d cs))) with (held (j :: q) (mkNode d cs)).
        destruct (held (j :: q) (mkNode d cs)); [|done]. cbn. f_equal. unfold handed_up. rewrite !decide_False; [lia|naive_solver..].
  - cbn [lookup_node nd children] in *. destruct (cs !! i) as [c|] eqn:Hi; [|done].
    destruct (tokens_consistent_child i d cs c Ht Hi) as (Hc & Hc1 & Hc2).
    pose proof (IH c x Hn Hc Hp) as H. cbn zeta in H. destruct H as (Hc' & Hrate & Hheld).
    assert (Hm : ∀ m, actualRate c - m = actualRate c + - m) by lia. rewrite Hm in Hrate. clear Hm.
    destruct (tokens_consistent_alter (alter_node (drop_rate n) p) i d d cs c
      (- (if decide (p = []) then n else 0)) 0 Ht Hi Hc' Hrate (eq_sym (Z.add_0_r _))) as [Hwf Hown];
      [destruct (decide _); lia|exact (conj Hr1 Hr2)|].
    split; [exact Hwf|]. split; [change (actualRate (mkNode d ?x)) with (actualRate (mkNode d cs)); rewrite decide_False by done; lia|].
    intros [|j q].
    + unfold held. cbn [lookup_node fmap option_fmap option_map]. f_equal. rewrite Hown, handed_up_root. lia.
    + rewrite (held_below _ _ _ _ _ d _ _ Hi), handed_up_below. destruct (decide (i = j)) as [<-|Hne].
      * rewrite Hheld. unfold held. cbn [lookup_node children]. by rewrite Hi.
      * destruct (held (j :: q) (mkNode d cs)); [|done]. cbn. f_equal. lia.
Qed.

Lemma actualChildRate_sum t : tokens_consistent t → actualChildRate t = sum_rates (children t).
Proof.
  intros Ht. apply tokens_consistent_inv in Ht as (Ho & [_ Hr] & Hcs). unfold own in Ho. unfold actualChildRate.
  assert (Hgen : ∀ a, 0 ≤ a → a + sum_rates (children t) < 2 ^ 64 →
    foldl (λ sum c, u64 (sum + actualRate c)) a (children t) = a + sum_rates (children t)); [|apply Hgen; lia].
  clear Ho Hr. induction Hcs as [|c cs Hc Hcs IH]; intros a Ha Hb; cbn [foldl]; [cbn; lia|].
  rewrite sum_rates_cons in *. apply tokens_consistent_inv in Hc as (_ & [Hc _] & _).
  pose proof (sum_rates_nonneg cs Hcs). no_wrap. rewrite IH by lia. lia.
Qed.

Lemma tokens_consistent_lookup p t x : tokens_consistent t → lookup_node p t = Some x → tokens_consistent x.
Proof.
  revert t; induction p as [|i p IH]; intros t Ht; cbn [lookup_node]; [by intros [= <-]|].
  destruct (children t !! i) as [c|] eqn:Hi; [|done]. apply IH.
  apply tokens_consistent_inv in Ht as (_ & _ & Hcs). by apply (Forall_lookup_1 _ _ _ _ Hcs Hi).
Qed.

Lemma may_drop_own n x : tokens_consistent x → 0 ≤ n ≤ own x → may_drop n x = true.
Proof.
  intros Hx Hn. unfold may_drop. rewrite actualChildRate_sum by done.
  pose proof (tokens_consistent_inv x Hx) as (_ & [Hr1 Hr2] & Hcs). pose proof (sum_rates_nonneg _ Hcs). unfold own in Hn.
  no_wrap. apply andb_true_iff. split; apply Z.leb_le; lia.
Qed.

Lemma handed_up_parent n p i q :
  handed_up n (p ++ [i]) q = if decide (q = p ++ [i]) then - n else if decide (q = p) then n else 0.
Proof.
  unfold handed_up. rewrite removelast_last. destruct (decide (q = p ++ [i])); [done|].
  destruct (decide (q = p)) as [->|Hq]; [|by rewrite decide_False by naive_solver].
  rewrite decide_True; [done|]. split; [by destruct p|done].
Qed.

Lemma app_ne_self p i : p ≠ p ++ [i].
Proof. intros He. apply (f_equal length) in He. rewrite length_app in He. cbn in He. lia. Qed.

Lemma put_held up n : ∀ t x,
  tokens_consistent t → lookup_node (rev up) t = Some x → 0 ≤ n ≤ own x →
  ∃ t', put up n t = Ok t' ∧ tokens_consistent t' ∧
  ∀ q, held q t' = (λ h, if decide (q = rev up) then h - n else h) <$> held q t.
Proof.
  induction up as [|i up IH]; intros t x Ht Hx Hn; cbn [put];
    pose proof (drop_held n _ t x Hn Ht Hx) as H; cbn zeta in H; destruct H as (Ht1 & _ & Hheld);
    pose proof (tokens_consistent_lookup _ _ _ Ht Hx) as Hxc; rewrite Hx, may_drop_own by done.
  - eexists. split; [done|]. split; [done|]. intros q. rewrite Hheld. cbn [rev]. destruct (held q t); [|done]. cbn.
    f_equal. unfold handed_up. destruct (decide (q = [])); [lia|]. rewrite decide_False by naive_solver. lia.
  - cbn [rev] in *. set (t1 := alter_node (drop_rate n) (rev up ++ [i]) t) in *.
    destruct (lookup_parent _ _ _ _ Hx) as [y Hy].
    assert (Hp : held (rev up) t1 = Some (own y + n)).
    { rewrite Hheld. unfold held. rewrite Hy. cbn. f_equal. rewrite handed_up_parent.
      rewrite decide_False by apply app_ne_self. by rewrite decide_True. }
    unfold held in Hp. destruct (lookup_node (rev up) t1) as [y1|] eqn:Hy1; [|done]. injection Hp as Hp.
    pose proof (tokens_consistent_inv y (tokens_consistent_lookup _ _ _ Ht Hy)) as (Hoy & _ & _).
    destruct (IH t1 y1 Ht1 Hy1 ltac:(lia)) as (t' & Hput & Ht' & Hheld'). exists t'. split; [exact Hput|]. split; [done|].
    intros q. rewrite Hheld', Hheld. destruct (held q t) as [h|]; [|done]. cbn. f_equal.
    rewrite handed_up_parent. destruct (decide (q = rev up ++ [i])) as [->|Hq].
    + rewrite decide_False by (intros He; by apply (app_ne_self (rev up) i)). lia.
    + destruct (decide (q = rev up)); lia.
Qed.

(** C28 (refinement). Token accounting: whatever the shape of the tree and the
    state of its counters, [get] takes either all the tokens or none, and they are
    then held by the bucket they were requested from and by no other; [put]
    returns any number of tokens the bucket holds without failing an assertion.
    Both keep the counters of all ancestors consistent. *)
Theorem get_put_accounting up n t x :
  tokens_consistent t → lookup_node (rev up) t = Some x → 0 < n → actualRate t + n < 2 ^ 64 →
  (let '(m, t') := get up n t in
   (m = n ∨ m = 0 ∧ t' = t) ∧ tokens_consistent t' ∧
   ∀ q, held q t' = (λ h, if decide (q = rev up) then h + m else h) <$> held q t) ∧
  (n ≤ own x → ∃ t', put up n t = Ok t' ∧ tokens_consistent t' ∧
   ∀ q, held q t' = (λ h, if decide (q = rev up) then h - n else h) <$> held q t).
Proof.
  intros Ht Hx Hn Hb. split; [|intros Ho; by apply (put_held up n t x); [..|lia]].
  rewrite get_granted by (lia || by eexists). destruct (granted up n t).
  - split; [by left|]. by apply (charge_held n (rev up) t x); [lia|..].
  - split; [by right|]. split; [done|]. intros q. destruct (held q t); [|done]. cbn. f_equal. case_decide; lia.
Qed.

(** When [get] succeeds: exactly if some bucket on the way from
    the bucket to the root has the tokens among those assured to it and not
    reserved for its children, and no bucket below that one exceeds its ceiling
    with them. *)
Theorem get_succeeds up n t :
  n ≠ 0 → is_Some (lookup_node (rev up) t) →
  (get up n t).1 = n ↔
  ∃ up1 up2, up = up1 ++ up2 ∧ node_has (assured n) up2 t = true ∧
    ∀ a b, up1 = a ++ b → b ≠ [] → node_has (within_ceil n) (b ++ up2) t = true.
Proof.
  intros Hn Hx. rewrite <- granted_spec, get_granted by done. destruct (granted up n t); cbn; split; done.
Qed.
End tokens.

(** ** An example: the tree of the unit tests

    Ten tokens, a bucket with a tenth of them and a ceiling of three tenths, and
    one with half of them. *)
Definition f_0_1 : float := S754_finite false 13421773 (-27).
Definition f_0_3 : float := S754_finite false 10066330 (-25).
Definition f_0_5 : float := S754_finite false 8388608 (-24).
Definition f_0_7 : float := S754_finite false 11744051 (-24).

Definition example_shaper : Node Z :=
  match '(_, t) ← createChild (str "vip") f_0_1 f_0_3 [] (createRoot 10);
        '(_, t) ← createChild (str "main") f_0_5 f_0_7 [] t;
        createChild (str "upload") f_0_5 f_0_5 [1%nat] t with
  | Ok (_, t) => t
  | Raise _ => createRoot 0
  end.

Lemma example_rates :
  (λ x, (nd_rate (nd x), nd_ceil (nd x))) <$> lookup_node [] example_shaper = Some (10, 10) ∧
  (λ x, (nd_rate (nd x), nd_ceil (nd x))) <$> lookup_node [0%nat] example_shaper = Some (1, 3) ∧
  (λ x, (nd_rate (nd x), nd_ceil (nd x))) <$> lookup_node [1%nat; 0%nat] example_shaper = Some (2, 3).
Proof. by vm_compute. Qed.

Lemma example_consistent : tokens_consistent example_shaper.
Proof. by repeat (constructor; [by vm_compute|by vm_compute|]; vm_compute children; repeat constructor). Qed.

Lemma get_put_accounting_witness :
  (get [0%nat] 2 example_shaper).1 = 2 ∧ held [0%nat] (get [0%nat] 2 example_shaper).2 = Some 2.
Proof.
  split; [by vm_compute|].
  destruct (lookup_node [0%nat] example_shaper) as [x|] eqn:Hx; [|by vm_compute in Hx].
  destruct (get_put_accounting [0%nat] 2 example_shaper x example_consistent Hx) as [Hg _];
    [done|by vm_compute|].
  destruct (get [0%nat] 2 example_shaper) as [m t'] eqn:E. destruct Hg as (_ & _ & Hh). cbn [snd]. rewrite Hh.
  assert (m = 2) as -> by (apply (f_equal fst) in E; by vm_compute in E). by vm_compute.
Defined.

Lemma get_succeeds_witness :
  (get [0%nat; 1%nat] 3 example_shaper).1 = 3 ↔
  ∃ up1 up2, [0%nat; 1%nat] = up1 ++ up2 ∧ node_has (assured 3) up2 example_shaper = true ∧
    ∀ a b, up1 = a ++ b → b ≠ [] → node_has (within_ceil 3) (b ++ up2) example_shaper = true.
Proof. apply (get_succeeds [0%nat; 1%nat] 3 example_shaper); [done|]. by vm_compute; eexists. Defined.

Abbreviation current d := (c_current (nd_actualRate d)).

(** The test on a bucket with one child without children, without overflow. *)
Lemma assured_one_child {T} n (d e : NodeData T) :
  0 ≤ n → 0 ≤ current d → 0 ≤ nd_rate e → 0 ≤ current e →
  current d + n < 2 ^ 64 → Z.max (nd_rate e) (current e) + n < 2 ^ 63 →
  assured n (mkNode d [mkNode e []]) = (Z.max (current d) (Z.max (nd_rate e) (current e)) + n <=? nd_rate d).
Proof.
  intros Hn Hd He Hce Hb1 Hb2. unfold assured, childRate, actualChildOverRate, overRate, actualRate.
  cbn [children foldl nd]. rewrite (signed_id 64) by lia. no_wrap.
  rewrite Z.leb_antisym. f_equal. f_equal. lia.
Qed.

Lemma assured_leaf {T} n (e : NodeData T) :
  0 ≤ n → 0 ≤ current e → current e + n < 2 ^ 64 → assured n (mkNode e []) = (current e + n <=? nd_rate e).
Proof.
  intros Hn He Hb. unfold assured, childRate, actualChildOverRate, actualRate. cbn [children foldl nd].
  no_wrap. rewrite Z.leb_antisym. f_equal. f_equal. lia.
Qed.

Lemma current_bump {T} n (d : NodeData T) :
  0 ≤ current d + n < 2 ^ 64 → current (set_actualRate (counter_increment n (nd_actualRate d)) d) = current d + n.
Proof. intros H. cbn. by apply unsigned_id. Qed.

(** The reservation of a child does not protect the capacity of its
    parent: since [get] compares with the larger of what is used and what is
    reserved instead of their sum, the root grants all its tokens to itself and
    the child still gets those reserved for it. The root then carries more than
    its capacity. *)
Theorem capacity_exceeded (capacity rate : Z) :
  0 < rate → 2 * rate ≤ capacity < 2 ^ 63 →
  let child := mkNode (newNodeData (str "child") rate rate f_0_5 f_0_5) [] in
  let t0 : Node Z := mkNode (newNodeData (str "root") capacity capacity f32_one f32_one) [child] in
  let '(m1, t1) := get [] (capacity - rate) t0 in
  let '(m2, t2) := get [] rate t1 in
  let '(m3, t3) := get [0%nat] rate t2 in
  m1 = capacity - rate ∧ m2 = rate ∧ m3 = rate ∧ actualRate t3 = capacity + rate ∧ nd_ceil (nd t3) = capacity.
Proof.
  intros Hr Hc. cbv zeta. cbn [get rev app lookup_node].
  set (d0 := newNodeData (str "root") capacity capacity f32_one f32_one : NodeData Z) in *.
  set (e0 := newNodeData (str "child") rate rate f_0_5 f_0_5 : NodeData Z) in *.
  assert (Hd0 : current d0 = 0) by done. assert (He0 : current e0 = 0) by done.
  rewrite (assured_one_child (capacity - rate) d0 e0 ltac:(lia)); rewrite ?Hd0, ?He0; change (nd_rate e0) with rate; try lia.
  change (nd_rate d0) with capacity. rewrite (proj2 (Z.leb_le _ _)) by lia. cbn [bump_up rev alter_node].
  unfold bump at 1, on_data at 1. cbn [nd children].
  pose proof (current_bump (capacity - rate) d0 ltac:(lia)) as Hd1.
  set (d1 := set_actualRate (counter_increment (capacity - rate) (nd_actualRate d0)) d0) in *.
  rewrite (assured_one_child rate d1 e0 ltac:(lia)); rewrite ?Hd1, ?He0; change (nd_rate e0) with rate; try lia.
  change (nd_rate d1) with capacity. rewrite (proj2 (Z.leb_le _ _)) by lia.
  unfold bump at 1, on_data at 1. cbn [nd children].
  pose proof (current_bump rate d1 ltac:(lia)) as Hd2.
  set (d2 := set_actualRate (counter_increment rate (nd_actualRate d1)) d1) in *.
  change (children ?x !! 0%nat) with (Some (mkNode e0 [])). cbv iota. rewrite (assured_leaf rate e0 ltac:(lia)); rewrite ?He0; try lia.
  change (nd_rate e0) with rate. rewrite (proj2 (Z.leb_le _ _)) by lia.
  split_and!; [done|done|done| |done].
  change (actualRate (bump rate ?t)) with (current (set_actualRate (counter_increment rate (nd_actualRate d2)) d2)).
  rewrite current_bump; lia.
Qed.

Lemma capacity_exceeded_witness :
  let child := mkNode (newNodeData (str "child") 5 5 f_0_5 f_0_5) [] in
  let t0 : Node Z := mkNode (newNodeData (str "root") 10 10 f32_one f32_one) [child] in
  let '(m1, t1) := get [] 5 t0 in
  let '(m2, t2) := get [] 5 t1 in
  let '(m3, t3) := get [0%nat] 5 t2 in
  m1 = 5 ∧ m2 = 5 ∧ m3 = 5 ∧ actualRate t3 = 15 ∧ nd_ceil (nd t3) = 10.
Proof. apply (capacity_exceeded 10 5); lia. Defined.
