(* ===== verification/TokenShaperQueue.v ===== *)
(** * The token shaper: dequeueing

    [dequeue] serves the first packet of some queue that can get a token if
    there is one, and changes nothing but its round-robin offsets if there is
    none. Trees that differ in these offsets only are [alike]. *)
From S2P Require Import Prelude TokenShaper TokenShaperTokens.

Section queue.
Context {T : Type}.
Implicit Types (t x y c : Node T) (p q up : list nat).

(** ** Trees up to the offsets *)

Fixpoint erase t : Node T := mkNode (set_dequeueOffset 0 (nd t)) (erase <$> children t).

Record alike t t' : Prop := mk_alike { alike_erase : erase t = erase t' }.

#[export] Instance alike_equivalence : Equivalence alike.
Proof.
  split; [done|by intros ?? [H]; constructor; symmetry|]. intros ??? [H1] [H2]. constructor. by rewrite H1.
Qed.

Lemma nd_erase t : nd (erase t) = set_dequeueOffset 0 (nd t).
Proof. by destruct t. Qed.
Lemma children_erase t : children (erase t) = erase <$> children t.
Proof. by destruct t. Qed.

Lemma lookup_erase p t : lookup_node p (erase t) = erase <$> lookup_node p t.
Proof.
  revert t; induction p as [|i p IH]; intros t; cbn [lookup_node]; [done|].
  rewrite children_erase, list_lookup_fmap. destruct (children t !! i); [apply IH|done].
Qed.

(** A function of a bucket that neither reads nor writes the offset. *)
Definition ignores_offset (f : NodeData T → NodeData T) : Prop :=
  ∀ d, set_dequeueOffset 0 (f d) = f (set_dequeueOffset 0 d).

Lemma erase_alter f p t : ignores_offset f → erase (alter_node (on_data f) p t) = alter_node (on_data f) p (erase t).
Proof.
  intros Hf. revert t; induction p as [|i p IH]; intros [d cs]; cbn [alter_node].
  - unfold on_data. cbn [nd children erase]. by rewrite Hf.
  - cbn [nd children erase]. f_equal. apply list_fmap_alter. apply Forall_forall. intros c _. apply IH.
Qed.

Lemma erase_offset k p t : erase (alter_node (on_data (set_dequeueOffset k)) p t) = erase t.
Proof.
  revert t; induction p as [|i p IH]; intros [d cs]; cbn [alter_node]; [done|].
  cbn [nd children erase]. f_equal. rewrite (list_fmap_alter _ _ id).
  - by apply list_alter_id.
  - apply Forall_forall. intros c _. apply IH.
Qed.

Lemma erase_charge n p t : erase (charge n p t) = charge n p (erase t).
Proof.
  revert t; induction p as [|i p IH]; intros [d cs]; cbn [charge]; [done|].
  unfold bump, on_data. cbn [nd children erase]. f_equal. apply list_fmap_alter. apply Forall_forall. intros c _. apply IH.
Qed.

(** Rates do not depend on the offsets. *)
Lemma foldl_erase (f : Z → Node T → Z) a cs : (∀ z c, f z (erase c) = f z c) → foldl f a (erase <$> cs) = foldl f a cs.
Proof.
  intros Hf. revert a; induction cs as [|c cs IH]; intros a; [done|].
  rewrite fmap_cons. cbn [foldl]. by rewrite Hf, IH.
Qed.

Lemma assured_erase n x : assured n (erase x) = assured n x.
Proof.
  unfold assured, childRate, actualChildOverRate, actualRate. rewrite children_erase, nd_erase.
  rewrite !foldl_erase; [done|..]; intros z c; unfold overRate, actualRate; by rewrite nd_erase.
Qed.

Lemma node_has_erase f up t : (∀ x, f (erase x) = f x) → node_has f up (erase t) = node_has f up t.
Proof. intros Hf. unfold node_has. rewrite lookup_erase. destruct (lookup_node _ t); [apply Hf|done]. Qed.

Lemma granted_erase up n t : granted up n (erase t) = granted up n t.
Proof.
  assert (Hc : ∀ x, within_ceil n (erase x) = within_ceil n x)
    by (intros x; unfold within_ceil, actualRate; by rewrite nd_erase).
  induction up as [|i up IH]; cbn [granted]; rewrite (node_has_erase (assured n)) by apply assured_erase; [done|].
  by rewrite (node_has_erase (within_ceil n)), IH.
Qed.

#[export] Instance granted_alike : Proper (eq ==> eq ==> alike ==> eq) (@granted T).
Proof. intros ? up -> ? n -> t t' [H]. rewrite <- (granted_erase up n t), <- (granted_erase up n t'). by rewrite H. Qed.
#[export] Instance charge_alike : Proper (eq ==> eq ==> alike ==> alike) (@charge T).
Proof. intros ? n -> ? p -> t t' [H]. constructor. by rewrite !erase_charge, H. Qed.

Lemma pop_queue_ignores : ignores_offset pop_queue.
Proof. done. Qed.

#[export] Instance pop_alike : Proper (eq ==> alike ==> alike) (alter_node (on_data (@pop_queue T))).
Proof. intros ? p -> t t' [H]. constructor. by rewrite !(erase_alter _ _ _ pop_queue_ignores), H. Qed.

Lemma alike_lookup p t t' y :
  alike t t' → lookup_node p t = Some y →
  ∃ y', lookup_node p t' = Some y' ∧ nd_queue (nd y') = nd_queue (nd y) ∧ length (children y') = length (children y).
Proof.
  intros [H] Hy. pose proof (lookup_erase p t) as H1. rewrite H, lookup_erase, Hy in H1.
  destruct (lookup_node p t') as [y'|]; [|done]. exists y'. split; [done|]. injection H1 as H1. split.
  - apply (f_equal (nd_queue ∘ nd)) in H1. cbn in H1. by rewrite !nd_erase in H1.
  - apply (f_equal (length ∘ children)) in H1. cbn in H1. by rewrite !children_erase, !length_fmap in H1.
Qed.

(** ** Offsets *)

Lemma lookup_on_data f p q t y' :
  lookup_node q (alter_node (on_data f) p t) = Some y' →
  ∃ y, lookup_node q t = Some y ∧ length (children y') = length (children y) ∧
    nd y' = if decide (q = p) then f (nd y) else nd y.
Proof.
  revert q t; induction p as [|i p IH]; intros [|j q] t; cbn [alter_node lookup_node].
  - intros [= <-]. eauto.
  - intros Hy. exists y'. split_and!; [done|done|]. by rewrite decide_False.
  - intros [= <-]. exists t. cbn [children nd]. by rewrite length_alter, decide_False.
  - cbn [children]. destruct (decide (i = j)) as [<-|Hne].
    + rewrite list_lookup_alter_eq. destruct (children t !! i) as [c|]; [|done]. cbn. intros Hy.
      destruct (IH _ _ Hy) as (y & Hy' & Hl & Hn). exists y. split_and!; [done|done|]. rewrite Hn.
      destruct (decide (q = p)) as [->|Hq]; [by rewrite decide_True|]. rewrite decide_False; congruence.
    + rewrite list_lookup_alter_ne by done. intros Hy. exists y'. split_and!; [done|done|].
      rewrite decide_False; congruence.
Qed.

Definition offset x : nat := nd_dequeueOffset (nd x).

(** No offset points beyond the children. *)
Definition offsets_ok t : Prop := ∀ p y, lookup_node p t = Some y → (offset y ≤ length (children y))%nat.

(** Outside the subtree at [up] the offsets are unchanged. *)
Definition offsets_kept up t t' : Prop :=
  ∀ p y y', (∀ q, p ≠ rev up ++ q) → lookup_node p t = Some y → lookup_node p t' = Some y' → offset y' = offset y.

(** The bucket is set to serve child [i] next. *)
Lemma set_offset up t x i :
  lookup_node (rev up) t = Some x → offsets_ok t → (i < length (children x))%nat →
  let t' := alter_node (on_data (set_dequeueOffset i)) (rev up) t in
  alike t' t ∧ offsets_ok t' ∧ offsets_kept up t t' ∧
  ∃ x', lookup_node (rev up) t' = Some x' ∧ offset x' = i ∧ length (children x') = length (children x).
Proof.
  intros Hx Hok Hi t'. assert (Ha : alike t' t) by (constructor; apply erase_offset). split_and!; [done| | |].
  - intros p y' Hy'. destruct (lookup_on_data _ _ _ _ _ Hy') as (y & Hy & Hl & Hn). unfold offset. rewrite Hn, Hl.
    destruct (decide (p = rev up)) as [->|_]; [|by apply (Hok p)]. cbn. replace y with x by congruence. lia.
  - intros p y y' Hp Hy Hy'. destruct (lookup_on_data _ _ _ _ _ Hy') as (y0 & Hy0 & _ & Hn).
    unfold offset. rewrite Hn, decide_False; [congruence|]. intros ->. apply (Hp []). by rewrite app_nil_r.
  - destruct (alike_lookup _ t t' x ltac:(by symmetry) Hx) as (x' & Hx' & _ & Hl). exists x'. split_and!; [done| |done].
    destruct (lookup_on_data _ _ _ _ _ Hx') as (? & _ & _ & Hn). unfold offset. by rewrite Hn, decide_True.
Qed.

(** ** What is dequeued *)

(** No bucket of the subtree at [up] can serve a packet. *)
Definition nothing_to_serve up t : Prop :=
  ∀ q y, lookup_node (rev up ++ q) t = Some y → nd_queue (nd y) ≠ [] → granted (rev q ++ up) 1 t = false.

(** [item] is the first packet of a bucket in the subtree at [up], which gets
    a token for it. *)
Definition served up t (item : T) t' : Prop :=
  ∃ q y, lookup_node (rev up ++ q) t = Some y ∧ fst <$> head (nd_queue (nd y)) = Some item ∧
    granted (rev q ++ up) 1 t = true ∧
    alike t' (alter_node (on_data pop_queue) (rev up ++ q) (charge 1 (rev up ++ q) t)).

Definition dequeued up t (item : option T) t' : Prop :=
  match item with
  | Some item => served up t item t'
  | None => alike t' t ∧ offsets_ok t' ∧ offsets_kept up t t' ∧ nothing_to_serve up t
  end.

Lemma served_alike up t1 t item t' : alike t1 t → served up t1 item t' → served up t item t'.
Proof.
  intros Ha (q & y & Hy & Hi & Hg & Ht'). destruct (alike_lookup _ _ _ _ Ha Hy) as (y' & Hy' & Hq & _).
  exists q, y'. split_and!; [done|by rewrite Hq|by rewrite <- Ha|by rewrite <- Ha].
Qed.

Lemma nothing_alike up t1 t : alike t1 t → nothing_to_serve up t1 → nothing_to_serve up t.
Proof.
  intros Ha Hn q y Hy Hq. symmetry in Ha. destruct (alike_lookup _ _ _ _ Ha Hy) as (y' & Hy' & Hq' & _).
  rewrite Ha. apply (Hn q y'); congruence.
Qed.

Lemma served_child i up t item t' : served (i :: up) t item t' → served up t item t'.
Proof.
  intros (q & y & Hy & Hi & Hg & Ht'). exists (i :: q), y. cbn [rev] in *. rewrite <- !app_assoc in *. done.
Qed.

(** The bucket's own queue comes last. *)
Lemma dequeue_own_spec up t x :
  lookup_node (rev up) t = Some x → offsets_ok t →
  (∀ i, (i < length (children x))%nat → nothing_to_serve (i :: up) t) →
  let '(item, t') := dequeue_own up t in dequeued up t item t'.
Proof.
  intros Hx Hok Hcs. unfold dequeue_own. rewrite Hx.
  assert (Hnone : (nd_queue (nd x) ≠ [] → granted up 1 t = false) → dequeued up t None t).
  { intros Hown. split_and!; [done|done|by intros p y y' _ Hy Hy'; congruence|]. intros [|i q] y Hy Hq.
    - rewrite app_nil_r in Hy. apply Hown. congruence.
    - assert (Hi : (i < length (children x))%nat).
      { clear -Hx Hy. revert t Hx Hy. generalize (rev up) as p. induction p as [|j p IH]; intros t Hx Hy; cbn in *.
        - injection Hx as ->. destruct (children x !! i) eqn:E; [by eapply lookup_lt_Some|done].
        - destruct (children t !! j); [by eapply IH|done]. }
      specialize (Hcs i Hi q y). cbn [rev] in *. rewrite <- !app_assoc in Hcs. rewrite <- app_assoc. by apply Hcs. }
  destruct (nd_queue (nd x)) as [|[item ctime] rest] eqn:Eq; [by apply Hnone|].
  rewrite get_granted by (done || by eexists). destruct (granted up 1 t) eqn:Hg; cbn.
  - exists [], x. rewrite app_nil_r, Eq. done.
  - by apply Hnone.
Qed.

(** ** Round robin *)

(** How many steps of the round it takes from offset [o] to child [j]. *)
Definition distance (count o j : nat) : nat := if (j <? o)%nat then o - j else o + count - j.

Lemma distance_le count o j : (o ≤ count)%nat → (j < count)%nat → (distance count o j ≤ count)%nat.
Proof. intros Ho Hj. unfold distance. destruct (Nat.ltb_spec j o); lia. Qed.

Lemma distance_step count o j k :
  (o ≤ count)%nat → (j < count)%nat → (distance count o j ≤ S k)%nat →
  j = previous count o ∨ (distance count (previous count o) j ≤ k)%nat.
Proof.
  intros Ho Hj. unfold distance, previous. destruct o as [|o].
  - destruct (Nat.ltb_spec j 0), (Nat.ltb_spec j (count - 1)); lia.
  - destruct (Nat.ltb_spec j (S o)), (Nat.ltb_spec j o); lia.
Qed.

Lemma previous_lt count o : (0 < count)%nat → (o ≤ count)%nat → (previous count o < count)%nat.
Proof. unfold previous. destruct o; lia. Qed.

Lemma kept_child up i t t1 t2 : offsets_kept up t t1 → offsets_kept (i :: up) t1 t2 → alike t1 t → offsets_kept up t t2.
Proof.
  intros H1 H2 Ha p y y' Hp Hy Hy'. symmetry in Ha. destruct (alike_lookup _ _ _ _ Ha Hy) as (y1 & Hy1 & _).
  rewrite (H2 p y1 y'); [by apply (H1 p)| |done|done]. intros q. cbn [rev]. rewrite <- app_assoc. apply Hp.
Qed.

Lemma kept_trans up t t1 t2 : offsets_kept up t t1 → offsets_kept up t1 t2 → alike t1 t → offsets_kept up t t2.
Proof.
  intros H1 H2 Ha p y y' Hp Hy Hy'. symmetry in Ha. destruct (alike_lookup _ _ _ _ Ha Hy) as (y1 & Hy1 & _).
  rewrite (H2 p y1 y') by done. by apply (H1 p).
Qed.

Lemma app_cons_ne up i q : rev up ≠ rev (i :: up) ++ q.
Proof.
  cbn [rev]. intros He. apply (f_equal length) in He. rewrite !length_app in He. cbn in He. lia.
Qed.

Section round.
Context (dq : list nat → Node T → result (option T * Node T)) (up : list nat) (t : Node T) (count : nat).
Hypothesis dq_ok : ∀ i t1, (i < count)%nat → alike t1 t → offsets_ok t1 →
  ∃ item t2, dq (i :: up) t1 = Ok (item, t2) ∧ dequeued (i :: up) t1 item t2.

(** After [k] rounds without success the last [k] children have nothing to serve. *)
Lemma round_spec k : ∀ t1 x,
  (k ≤ count)%nat → alike t1 t → offsets_ok t1 → offsets_kept up t t1 →
  lookup_node (rev up) t1 = Some x → length (children x) = count →
  ∃ item t2, dequeue_round dq up k count t1 = Ok (item, t2) ∧
  match item with
  | Some item => served up t item t2
  | None => alike t2 t ∧ offsets_ok t2 ∧ offsets_kept up t t2 ∧
      ∀ j, (j < count)%nat → (distance count (offset x) j ≤ k)%nat → nothing_to_serve (j :: up) t
  end.
Proof.
  induction k as [|k IH]; intros t1 x Hk Ha Hok Hkept Hx Hlen.
  { exists None, t1. split; [done|]. split_and!; [done|done|done|]. intros j Hj Hd. exfalso. revert Hd. unfold distance.
    pose proof (Hok _ _ Hx). destruct (Nat.ltb_spec j (offset x)); lia. }
  pose proof (Hok _ _ Hx) as Hoff. rewrite Hlen in Hoff. cbn [dequeue_round]. rewrite Hx. fold (offset x).
  set (i := previous count (offset x)).
  assert (Hi : (i < count)%nat) by (apply previous_lt; lia). rewrite (proj2 (Nat.ltb_lt i count) Hi).
  pose proof (set_offset up t1 x i Hx Hok ltac:(lia)) as H. cbn zeta in H.
  destruct H as (Ha1 & Hok1 & Hkept1 & x1 & Hx1 & Ho1 & Hlen1).
  set (t1' := alter_node (on_data (set_dequeueOffset i)) (rev up) t1) in *.
  assert (Ha1' : alike t1' t) by by rewrite Ha1.
  destruct (dq_ok i t1' Hi Ha1' Hok1) as (item & t2 & -> & Hd). cbn [mbind result_bind].
  destruct item as [item|]; [exists (Some item), t2; split; [done|]; by eapply served_alike, served_child|].
  destruct Hd as (Ha2 & Hok2 & Hkept2 & Hnone).
  destruct (alike_lookup (rev up) t1' t2 x1 ltac:(by symmetry) Hx1) as (x2 & Hx2 & _ & Hlen2).
  assert (Ho2 : offset x2 = i) by (rewrite (Hkept2 (rev up) x1 x2); [done|apply app_cons_ne|done|done]).
  assert (Hkept' : offsets_kept up t t2).
  { eapply kept_child; [|exact Hkept2|done]. by eapply kept_trans. }
  destruct (IH t2 x2) as (item & t3 & Hr & Hspec); [lia|by rewrite Ha2|done|done|done|lia|].
  exists item, t3. split; [done|]. destruct item as [item|]; [done|]. destruct Hspec as (Ha3 & Hok3 & Hkept3 & Hfail).
  split_and!; [done|done|done|]. intros j Hj Hd. destruct (distance_step count (offset x) j k Hoff Hj Hd) as [->|Hd'].
  - exact (nothing_alike _ _ _ Ha1' Hnone).
  - apply Hfail; [done|]. by rewrite Ho2.
Qed.
End round.

(** ** The whole tree *)

(** The subtree at [up] is less than [fuel] levels high. *)
Definition lower_than (fuel : nat) up t : Prop :=
  ∀ q y, lookup_node (rev up ++ q) t = Some y → (length q < fuel)%nat.

Lemma lower_alike fuel up t t' : alike t t' → lower_than fuel up t → lower_than fuel up t'.
Proof.
  intros Ha Hl q y Hy. symmetry in Ha. destruct (alike_lookup _ _ _ _ Ha Hy) as (y' & Hy' & _). by apply (Hl q y').
Qed.

Lemma lower_child fuel i up t : lower_than (S fuel) up t → lower_than fuel (i :: up) t.
Proof.
  intros Hl q y Hy. cbn [rev] in Hy. rewrite <- app_assoc in Hy. specialize (Hl _ _ Hy). cbn in Hl. lia.
Qed.

Lemma lookup_child up t x i :
  lookup_node (rev up) t = Some x → (i < length (children x))%nat → is_Some (lookup_node (rev (i :: up)) t).
Proof.
  cbn [rev]. generalize (rev up) as p. intros p. revert t; induction p as [|j p IH]; intros t; cbn [app lookup_node].
  - intros [= ->] Hi. destruct (lookup_lt_is_Some_2 _ _ Hi) as [c ->]. by eexists.
  - destruct (children t !! j); [apply IH|done].
Qed.

Lemma dequeue_spec fuel : ∀ up t x,
  lookup_node (rev up) t = Some x → lower_than fuel up t → offsets_ok t →
  ∃ item t', dequeue fuel up t = Ok (item, t') ∧ dequeued up t item t'.
Proof.
  induction fuel as [|fuel IH]; intros up t x Hx Hl Hok.
  { specialize (Hl [] x). rewrite app_nil_r in Hl. specialize (Hl Hx). cbn in Hl. lia. }
  cbn [dequeue]. rewrite Hx.
  destruct (round_spec (dequeue fuel) up t (length (children x))) with (k := length (children x)) (t1 := t) (x := x)
    as (item & t2 & -> & Hspec); [|done|done|done| |done|done|].
  { intros i t1 Hi Ha Hok1. destruct (alike_lookup _ t t1 x ltac:(by symmetry) Hx) as (x1 & Hx1 & _ & Hlen).
    destruct (lookup_child up t1 x1 i Hx1 ltac:(lia)) as [c Hc]. apply (IH _ _ c Hc); [|done].
    apply lower_child. eapply lower_alike; [by symmetry|done]. }
  { by intros p y y' _ Hy Hy'; congruence. }
  cbn [mbind result_bind]. destruct item as [item|]; [by exists (Some item), t2|].
  destruct Hspec as (Ha & Hok2 & Hkept & Hfail).
  destruct (alike_lookup _ t t2 x ltac:(by symmetry) Hx) as (x2 & Hx2 & _ & Hlen).
  pose proof (dequeue_own_spec up t2 x2 Hx2 Hok2) as Hown.
  destruct (dequeue_own up t2) as [item t3]. exists item, t3. split; [done|].
  assert (Hd : dequeued up t2 item t3).
  { apply Hown. intros i Hi. eapply nothing_alike; [by symmetry|]. apply Hfail; [lia|].
    apply distance_le; [by apply (Hok (rev up))|lia]. }
  destruct item as [item|]; [by eapply served_alike|]. destruct Hd as (Ha3 & Hok3 & Hkept3 & Hn).
  split_and!; [by rewrite Ha3|done|by eapply kept_trans|by eapply nothing_alike].
Qed.

(** C29 (functional). [dequeue] is work conserving: on a tree whose offsets are
    within bounds it ends, and returns the first packet of some queue of the
    subtree whose bucket gets a token for it, which is charged, the packet being
    removed; it returns nothing only if no bucket with waiting packets can get a
    token, and then the tree is unchanged but for the round-robin offsets. *)
Theorem dequeue_work_conserving fuel up t x :
  lookup_node (rev up) t = Some x → lower_than fuel up t → offsets_ok t →
  ∃ item t', dequeue fuel up t = Ok (item, t') ∧
  match item with
  | Some item => served up t item t'
  | None => alike t' t ∧ nothing_to_serve up t
  end.
Proof.
  intros Hx Hl Hok. destruct (dequeue_spec fuel up t x Hx Hl Hok) as (item & t' & Hd & Hs).
  exists item, t'. split; [done|]. destruct item; [done|]. by destruct Hs as (? & _ & _ & ?).
Qed.
End queue.

(** One bucket with two packets below the root. *)
Definition example_queue : Node Z :=
  mkNode (newNodeData (str "root") 10 10 f_0_5 f_0_5)
    [mkNode (set_queue newCounter 0 [(42, 0); (43, 0)] (newNodeData (str "child") 5 5 f_0_5 f_0_5)) []].

Lemma example_queue_nodes p y :
  lookup_node p example_queue = Some y → (length p < 2)%nat ∧ offset y = 0%nat.
Proof.
  destruct p as [|[|i] [|j p]]; intros H; try discriminate H.
  - injection H as <-. split; [cbn; lia|done].
  - injection H as <-. split; [cbn; lia|done].
Qed.

Lemma dequeue_work_conserving_witness :
  ∃ item t', dequeue 2 [] example_queue = Ok (item, t') ∧
  match item with
  | Some item => served [] example_queue item t'
  | None => alike t' example_queue ∧ nothing_to_serve [] example_queue
  end.
Proof.
  apply (dequeue_work_conserving 2 [] example_queue example_queue); [done| |].
  - intros q y Hy. by apply (example_queue_nodes q y).
  - intros p y Hy. destruct (example_queue_nodes p y Hy) as [_ ->]. lia.
Defined.
