(* ===== verification/FlowType.v ===== *)
(** * Types and signatures of the Flow language

    [src/xzero-flow/FlowType.h], [FlowType.cc], [vm/Signature.cc]: the types a
    register of the virtual machine can hold, and the text under which a native
    function is known to the code generator, the constant pool and the linker.
    A signature that is written is read back as itself. *)
From S2P Require Import Prelude.

Inductive FlowType : Type :=
  | TVoid | TBoolean | TNumber | TString | TIPAddress | TCidr | TRegExp | THandler
  | TIntArray | TStringArray | TIPAddrArray | TCidrArray.

#[export] Instance FlowType_eq_dec : EqDecision FlowType.
Proof. solve_decision. Defined.

Definition tos (t : FlowType) : bytes :=
  match t with
  | TVoid => str "void" | TBoolean => str "bool" | TNumber => str "int"
  | TString => str "string" | TIPAddress => str "IPAddress" | TCidr => str "Cidr"
  | TRegExp => str "RegExp" | THandler => str "HandlerRef" | TIntArray => str "IntArray"
  | TStringArray => str "StringArray" | TIPAddrArray => str "IPAddrArray"
  | TCidrArray => str "CidrArray"
  end.

Definition isArrayType (t : FlowType) : bool :=
  match t with TIntArray | TStringArray | TIPAddrArray | TCidrArray => true | _ => false end.

Definition elementTypeOf (t : FlowType) : FlowType :=
  match t with
  | TIntArray => TNumber | TStringArray => TString | TIPAddrArray => TIPAddress
  | TCidrArray => TCidr
  | t => t
  end.

(** ** Signatures *)

(** [abort()] on a character that names no type ends the process. *)
Definition typeSignature (ch : Z) : result FlowType :=
  if ch =? 86 then Ok TVoid else if ch =? 66 then Ok TBoolean
  else if ch =? 73 then Ok TNumber else if ch =? 83 then Ok TString
  else if ch =? 80 then Ok TIPAddress else if ch =? 67 then Ok TCidr
  else if ch =? 82 then Ok TRegExp else if ch =? 72 then Ok THandler
  else if ch =? 115 then Ok TStringArray else if ch =? 105 then Ok TIntArray
  else if ch =? 112 then Ok TIPAddrArray else if ch =? 99 then Ok TCidrArray
  else Raise AssertionFailure.

Definition signatureType (t : FlowType) : Z :=
  match t with
  | TVoid => 86 | TBoolean => 66 | TNumber => 73 | TString => 83 | TIPAddress => 80
  | TCidr => 67 | TRegExp => 82 | THandler => 72 | TStringArray => 115 | TIntArray => 105
  | TIPAddrArray => 112 | TCidrArray => 99
  end.

Record Signature := mkSignature {
  sig_name : bytes;
  sig_returnType : FlowType;
  sig_args : list FlowType }.

#[export] Instance Signature_eq_dec : EqDecision Signature.
Proof. solve_decision. Defined.

Definition to_s (s : Signature) : bytes :=
  sig_name s ++ [40] ++ (signatureType <$> sig_args s) ++ [41] ++ [signatureType (sig_returnType s)].

Inductive SigState := SigEND | SigName | SigArgsBegin | SigArgs | SigReturnType.

(** The loop of the constructor. [seen] is the text before [i]. The state
    [SigArgsBegin] is entered after the parenthesis and consumes nothing: it
    cuts the name and falls to the arguments on the same character. *)
Fixpoint signature_loop (st : SigState) (sig : Signature) (seen rest : bytes) : result (SigState * Signature) :=
  match rest with
  | [] => Ok (st, sig)
  | c :: rest =>
      let args (sig : Signature) :=
        if c =? 41 then signature_loop SigReturnType sig (seen ++ [c]) rest
        else t ← typeSignature c;
             signature_loop SigArgs (mkSignature (sig_name sig) (sig_returnType sig) (sig_args sig ++ [t]))
               (seen ++ [c]) rest in
      match st with
      | SigName => signature_loop (if c =? 40 then SigArgsBegin else SigName) sig (seen ++ [c]) rest
      | SigArgsBegin =>
          args (mkSignature (take (length seen - 1) seen) (sig_returnType sig) (sig_args sig))
      | SigArgs => args sig
      | SigReturnType =>
          t ← typeSignature c;
          signature_loop SigEND (mkSignature (sig_name sig) t (sig_args sig)) (seen ++ [c]) rest
      | SigEND => Ok (SigEND, sig)
      end
  end.

(** [Signature::Signature(const std::string&)]; a premature end or garbage after
    the return type only prints a message. *)
Definition parse_signature (text : bytes) : result Signature :=
  snd <$> signature_loop SigName (mkSignature [] TVoid []) [] text.

(** ** Reading a signature back *)

Lemma typeSignature_signatureType t : typeSignature (signatureType t) = Ok t.
Proof. by destruct t. Qed.

Lemma signatureType_not_paren t : (signatureType t =? 41) = false.
Proof. by destruct t. Qed.

Lemma parse_args_all sig seen args rest :
  signature_loop SigArgs sig seen ((signatureType <$> args) ++ 41 :: rest) =
  signature_loop SigReturnType (mkSignature (sig_name sig) (sig_returnType sig) (sig_args sig ++ args))
    (seen ++ (signatureType <$> args) ++ [41]) rest.
Proof.
  revert sig seen; induction args as [|t args IH]; intros sig seen.
  - cbn. rewrite app_nil_r. by destruct sig.
  - cbn [fmap list_fmap app signature_loop]. rewrite signatureType_not_paren, typeSignature_signatureType.
    cbn [mbind result_bind]. rewrite IH. cbn [sig_name sig_returnType sig_args]. by rewrite <- !(assoc_L (++)).
Qed.

Lemma parse_name_all sig seen name rest :
  40 ∉ name →
  signature_loop SigName sig seen (name ++ 40 :: rest) = signature_loop SigArgsBegin sig (seen ++ name ++ [40]) rest.
Proof.
  revert seen; induction name as [|c name IH]; intros seen Hn; cbn [app signature_loop].
  - done.
  - apply not_elem_of_cons in Hn as [Hc Hn].
    rewrite (proj2 (Z.eqb_neq c 40)) by done. rewrite IH by done. by rewrite <- (assoc_L (++)).
Qed.

Lemma parse_args_begin sig seen c rest :
  signature_loop SigArgsBegin sig seen (c :: rest) =
  signature_loop SigArgs (mkSignature (take (length seen - 1) seen) (sig_returnType sig) (sig_args sig)) seen (c :: rest).
Proof. done. Qed.

(** Reading the text of a signature gives the signature: name,
    argument types in order and return type. The name is cut at the first
    parenthesis, so it must have none. *)
Theorem signature_roundtrip (s : Signature) :
  40 ∉ sig_name s → parse_signature (to_s s) = Ok s.
Proof.
  intros Hn. unfold parse_signature, to_s.
  change ([40] ++ ?l) with (40 :: l). rewrite parse_name_all by done.
  change ([41] ++ ?l) with (41 :: l).
  assert (Hhd : ∃ c l, (signatureType <$> sig_args s) ++ 41 :: [signatureType (sig_returnType s)] = c :: l)
    by (destruct (sig_args s); cbn; eauto).
  destruct Hhd as (c & l & Hcl). rewrite Hcl, parse_args_begin, <- Hcl, parse_args_all.
  cbn [signature_loop sig_name sig_returnType sig_args app]. rewrite typeSignature_signatureType. cbn.
  rewrite length_app, Nat.add_sub, take_app_length. by destruct s.
Qed.

Lemma signature_roundtrip_witness :
  parse_signature (str "assert(BS)B") = Ok (mkSignature (str "assert") TBoolean [TBoolean; TString]).
Proof.
  change (str "assert(BS)B") with (to_s (mkSignature (str "assert") TBoolean [TBoolean; TString])).
  apply signature_roundtrip. apply (bool_decide_unpack _). vm_compute. exact I.
Defined.
