(* ===== verification/FlowInstruction.v ===== *)
(** * Instructions of the Flow virtual machine

    [src/xzero-flow/vm/Instruction.h], [Instruction.cc]: a 64-bit word with the
    opcode in its low byte and three 16-bit operands above the lowest 16 bits;
    the tables that say which operands are registers, what a result is and how
    an instruction prints; the number of registers a piece of code needs. *)
From S2P Require Import Prelude Http1Generator FlowType.

Inductive Opcode : Type :=
  | NOP | EXIT | JMP | JN | JZ | MOV | ITCONST | STCONST | PTCONST | CTCONST | IMOV
  | NCONST | NNEG | NNOT | NADD | NSUB | NMUL | NDIV | NREM | NSHL | NSHR | NPOW | NAND
  | NOR | NXOR | NCMPZ | NCMPEQ | NCMPNE | NCMPLE | NCMPGE | NCMPLT | NCMPGT | NIADD
  | NISUB | NIMUL | NIDIV | NIREM | NISHL | NISHR | NIPOW | NIAND | NIOR | NIXOR | NICMPEQ
  | NICMPNE | NICMPLE | NICMPGE | NICMPLT | NICMPGT | BNOT | BAND | BOR | BXOR | SCONST
  | SADD | SADDMULTI | SSUBSTR | SCMPEQ | SCMPNE | SCMPLE | SCMPGE | SCMPLT | SCMPGT
  | SCMPBEG | SCMPEND | SCONTAINS | SLEN | SISEMPTY | SMATCHEQ | SMATCHBEG | SMATCHEND
  | SMATCHR | PCONST | PCMPEQ | PCMPNE | PINCIDR | CCONST | SREGMATCH | SREGGROUP | I2S
  | P2S | C2S | R2S | S2I | SURLENC | SURLDEC | CALL | HANDLER.

#[export] Instance Opcode_eq_dec : EqDecision Opcode.
Proof. solve_decision. Defined.

(** The enumerators in order: the value of an enumerator is its index. *)
Definition opcodes : list Opcode :=
  [NOP; EXIT; JMP; JN; JZ; MOV; ITCONST; STCONST; PTCONST; CTCONST; IMOV; NCONST; NNEG;
   NNOT; NADD; NSUB; NMUL; NDIV; NREM; NSHL; NSHR; NPOW; NAND; NOR; NXOR; NCMPZ; NCMPEQ;
   NCMPNE; NCMPLE; NCMPGE; NCMPLT; NCMPGT; NIADD; NISUB; NIMUL; NIDIV; NIREM; NISHL; NISHR;
   NIPOW; NIAND; NIOR; NIXOR; NICMPEQ; NICMPNE; NICMPLE; NICMPGE; NICMPLT; NICMPGT; BNOT;
   BAND; BOR; BXOR; SCONST; SADD; SADDMULTI; SSUBSTR; SCMPEQ; SCMPNE; SCMPLE; SCMPGE;
   SCMPLT; SCMPGT; SCMPBEG; SCMPEND; SCONTAINS; SLEN; SISEMPTY; SMATCHEQ; SMATCHBEG;
   SMATCHEND; SMATCHR; PCONST; PCMPEQ; PCMPNE; PINCIDR; CCONST; SREGMATCH; SREGGROUP; I2S;
   P2S; C2S; R2S; S2I; SURLENC; SURLDEC; CALL; HANDLER].

Definition opcode_value (o : Opcode) : Z :=
  match o with
  | NOP => 0 | EXIT => 1 | JMP => 2 | JN => 3 | JZ => 4 | MOV => 5 | ITCONST => 6
  | STCONST => 7 | PTCONST => 8 | CTCONST => 9 | IMOV => 10 | NCONST => 11 | NNEG => 12
  | NNOT => 13 | NADD => 14 | NSUB => 15 | NMUL => 16 | NDIV => 17 | NREM => 18
  | NSHL => 19 | NSHR => 20 | NPOW => 21 | NAND => 22 | NOR => 23 | NXOR => 24
  | NCMPZ => 25 | NCMPEQ => 26 | NCMPNE => 27 | NCMPLE => 28 | NCMPGE => 29 | NCMPLT => 30
  | NCMPGT => 31 | NIADD => 32 | NISUB => 33 | NIMUL => 34 | NIDIV => 35 | NIREM => 36
  | NISHL => 37 | NISHR => 38 | NIPOW => 39 | NIAND => 40 | NIOR => 41 | NIXOR => 42
  | NICMPEQ => 43 | NICMPNE => 44 | NICMPLE => 45 | NICMPGE => 46 | NICMPLT => 47
  | NICMPGT => 48 | BNOT => 49 | BAND => 50 | BOR => 51 | BXOR => 52 | SCONST => 53
  | SADD => 54 | SADDMULTI => 55 | SSUBSTR => 56 | SCMPEQ => 57 | SCMPNE => 58
  | SCMPLE => 59 | SCMPGE => 60 | SCMPLT => 61 | SCMPGT => 62 | SCMPBEG => 63
  | SCMPEND => 64 | SCONTAINS => 65 | SLEN => 66 | SISEMPTY => 67 | SMATCHEQ => 68
  | SMATCHBEG => 69 | SMATCHEND => 70 | SMATCHR => 71 | PCONST => 72 | PCMPEQ => 73
  | PCMPNE => 74 | PINCIDR => 75 | CCONST => 76 | SREGMATCH => 77 | SREGGROUP => 78
  | I2S => 79 | P2S => 80 | C2S => 81 | R2S => 82 | S2I => 83 | SURLENC => 84
  | SURLDEC => 85 | CALL => 86 | HANDLER => 87
  end.

Inductive InstructionSig : Type :=
  | SigNone | SigR | SigRR | SigRRR | SigRI | SigRRI | SigRII | SigRIR | SigIRR | SigIIR | SigI.

#[export] Instance InstructionSig_eq_dec : EqDecision InstructionSig.
Proof. solve_decision. Defined.

(** ** Encoding

    [Opcode] and [Operand] are promoted to [int]: [op1 << 16] is a shift of an
    [int] and is negative from [op1 = 0x8000] on; the conversion to
    [Instruction] then fills the upper half of the word with ones. *)
Definition makeInstruction0 (opc : Opcode) : Z := opcode_value opc.

Definition makeInstruction1 (opc : Opcode) (op1 : Z) : Z :=
  u64 (Z.lor (opcode_value opc) (s32 (Z.shiftl op1 16))).

Definition makeInstruction2 (opc : Opcode) (op1 op2 : Z) : Z :=
  Z.lor (u64 (Z.lor (opcode_value opc) (s32 (Z.shiftl op1 16)))) (u64 (Z.shiftl op2 32)).

Definition makeInstruction3 (opc : Opcode) (op1 op2 op3 : Z) : Z :=
  Z.lor (Z.lor (u64 (Z.lor (opcode_value opc) (s32 (Z.shiftl op1 16)))) (u64 (Z.shiftl op2 32)))
        (u64 (Z.shiftl op3 48)).

(** ** Decoding. A low byte that is no enumerator has no [Opcode]. *)
Definition opcode (i : Z) : option Opcode := opcodes !! Z.to_nat (Z.land i 255).
Definition operandA (i : Z) : Z := u16 (Z.land (Z.shiftr i 16) 65535).
Definition operandB (i : Z) : Z := u16 (Z.land (Z.shiftr i 32) 65535).
Definition operandC (i : Z) : Z := u16 (Z.land (Z.shiftr i 48) 65535).

(** ** Tables. A key that is missing gives the value-initialised result:
    [None], a null pointer, [Void]. *)
Definition operandSignature (opc : option Opcode) : InstructionSig :=
  match opc with None => SigNone | Some opc =>
  match opc with
  | NOP => SigNone
  | EXIT | JMP => SigI
  | JN | JZ | ITCONST | STCONST | PTCONST | CTCONST | IMOV | NCONST | SCONST | SMATCHEQ
  | SMATCHBEG | SMATCHEND | SMATCHR | PCONST | CCONST => SigRI
  | MOV | NNEG | NNOT | NCMPZ | BNOT | SLEN | SISEMPTY | SREGGROUP | I2S | P2S | C2S | R2S
  | S2I | SURLENC | SURLDEC => SigRR
  | NADD | NSUB | NMUL | NDIV | NREM | NSHL | NSHR | NPOW | NAND | NOR | NXOR | NCMPEQ
  | NCMPNE | NCMPLE | NCMPGE | NCMPLT | NCMPGT | BAND | BOR | BXOR | SADD | SSUBSTR
  | SCMPEQ | SCMPNE | SCMPLE | SCMPGE | SCMPLT | SCMPGT | SCMPBEG | SCMPEND | SCONTAINS
  | PCMPEQ | PCMPNE | PINCIDR | SREGMATCH => SigRRR
  | NIADD | NISUB | NIMUL | NIDIV | NIREM | NISHL | NISHR | NIPOW | NIAND | NIOR | NIXOR
  | NICMPEQ | NICMPNE | NICMPLE | NICMPGE | NICMPLT | NICMPGT => SigRRI
  | CALL | HANDLER => SigIIR
  | SADDMULTI => SigNone
  end end.

Definition mnemonic (opc : Opcode) : option bytes :=
  match opc with
  | NOP => Some (str "NOP") | EXIT => Some (str "EXIT") | JMP => Some (str "JMP")
  | JN => Some (str "JN") | JZ => Some (str "JZ") | MOV => Some (str "MOV")
  | ITCONST => Some (str "ITCONST") | STCONST => Some (str "STCONST")
  | PTCONST => Some (str "PTCONST") | CTCONST => Some (str "CTCONST")
  | IMOV => Some (str "IMOV") | NCONST => Some (str "NCONST") | NNEG => Some (str "NNEG")
  | NNOT => Some (str "NNOT") | NADD => Some (str "NADD") | NSUB => Some (str "NSUB")
  | NMUL => Some (str "NMUL") | NDIV => Some (str "NDIV") | NREM => Some (str "NREM")
  | NSHL => Some (str "NSHL") | NSHR => Some (str "NSHR") | NPOW => Some (str "NPOW")
  | NAND => Some (str "NADN") | NOR => Some (str "NOR") | NXOR => Some (str "NXOR")
  | NCMPZ => Some (str "NCMPZ") | NCMPEQ => Some (str "NCMPEQ")
  | NCMPNE => Some (str "NCMPNE") | NCMPLE => Some (str "NCMPLE")
  | NCMPGE => Some (str "NCMPGE") | NCMPLT => Some (str "NCMPLT")
  | NCMPGT => Some (str "NCMPGT") | NIADD => Some (str "NIADD")
  | NISUB => Some (str "NISUB") | NIMUL => Some (str "NIMUL") | NIDIV => Some (str "NIDIV")
  | NIREM => Some (str "NIREM") | NISHL => Some (str "NISHL") | NISHR => Some (str "NISHR")
  | NIPOW => Some (str "NIPOW") | NIAND => Some (str "NIADN") | NIOR => Some (str "NIOR")
  | NIXOR => Some (str "NIXOR") | NICMPEQ => Some (str "NICMPEQ")
  | NICMPNE => Some (str "NICMPNE") | NICMPLE => Some (str "NICMPLE")
  | NICMPGE => Some (str "NICMPGE") | NICMPLT => Some (str "NICMPLT")
  | NICMPGT => Some (str "NICMPGT") | BNOT => Some (str "BNOT") | BAND => Some (str "BAND")
  | BOR => Some (str "BOR") | BXOR => Some (str "BXOR") | SCONST => Some (str "SCONST")
  | SADD => Some (str "SADD") | SSUBSTR => Some (str "SSUBSTR")
  | SCMPEQ => Some (str "SCMPEQ") | SCMPNE => Some (str "SCMPNE")
  | SCMPLE => Some (str "SCMPLE") | SCMPGE => Some (str "SCMPGE")
  | SCMPLT => Some (str "SCMPLT") | SCMPGT => Some (str "SCMPGT")
  | SCMPBEG => Some (str "SCMPBEG") | SCMPEND => Some (str "SCMPEND")
  | SCONTAINS => Some (str "SCONTAINS") | SLEN => Some (str "SLEN")
  | SISEMPTY => Some (str "SISEMPTY") | SMATCHEQ => Some (str "SMATCHEQ")
  | SMATCHBEG => Some (str "SMATCHBEG") | SMATCHEND => Some (str "SMATCHEND")
  | SMATCHR => Some (str "SMATCHR") | PCONST => Some (str "PCONST")
  | PCMPEQ => Some (str "PCMPEQ") | PCMPNE => Some (str "PCMPNE")
  | PINCIDR => Some (str "PINCIDR") | CCONST => Some (str "CCONST")
  | SREGMATCH => Some (str "SREGMATCH") | SREGGROUP => Some (str "SREGGROUP")
  | I2S => Some (str "I2S") | P2S => Some (str "P2S") | C2S => Some (str "C2S")
  | R2S => Some (str "R2S") | S2I => Some (str "S2I") | SURLENC => Some (str "SURLENC")
  | SURLDEC => Some (str "SURLDEC") | CALL => Some (str "CALL")
  | HANDLER => Some (str "HANDLER")
  | SADDMULTI => None
  end.

Definition resultType (opc : Opcode) : FlowType :=
  match opc with
  | NOP | EXIT | JMP | JN | JZ | MOV | SMATCHEQ | SMATCHBEG | SMATCHEND | SMATCHR | CALL
  | HANDLER => TVoid
  | ITCONST => TIntArray
  | STCONST => TStringArray
  | PTCONST => TIPAddrArray
  | CTCONST => TCidrArray
  | IMOV | NCONST | NNEG | NNOT | NADD | NSUB | NMUL | NDIV | NREM | NSHL | NSHR | NPOW
  | NAND | NOR | NXOR | NIADD | NISUB | NIMUL | NIDIV | NIREM | NISHL | NISHR | NIPOW
  | NIAND | NIOR | NIXOR | SLEN | S2I => TNumber
  | NCMPZ | NCMPEQ | NCMPNE | NCMPLE | NCMPGE | NCMPLT | NCMPGT | NICMPEQ | NICMPNE
  | NICMPLE | NICMPGE | NICMPLT | NICMPGT | BNOT | BAND | BOR | BXOR | SCMPEQ | SCMPNE
  | SCMPLE | SCMPGE | SCMPLT | SCMPGT | SCMPBEG | SCMPEND | SCONTAINS | SISEMPTY | PCMPEQ
  | PCMPNE | PINCIDR | SREGMATCH => TBoolean
  | SCONST | SADD | SSUBSTR | SREGGROUP | I2S | P2S | C2S | R2S | SURLENC | SURLDEC => TString
  | PCONST => TIPAddress
  | CCONST => TCidr
  | SADDMULTI => TVoid
  end.

(** ** Text *)

(** [%-ns] and [%nu]: pad with blanks on the right and on the left. *)
Definition pad_right (n : nat) (s : bytes) : bytes := s ++ replicate (n - length s) 32.
Definition pad_left (n : nat) (s : bytes) : bytes := replicate (n - length s) 32 ++ s.
Definition hex2 (b : Z) : bytes := [digit_char (Z.shiftr b 4); digit_char (Z.land b 15)].
Definition reg (r : Z) : bytes := str "r" ++ decimal r.

Definition operands_text (i : Z) : bytes :=
  let A := operandA i in let B := operandB i in let C := operandC i in
  let sep := str ", " in
  match operandSignature (opcode i) with
  | SigNone => []
  | SigR => str " " ++ reg A
  | SigRR => str " " ++ reg A ++ sep ++ reg B
  | SigRRR => str " " ++ reg A ++ sep ++ reg B ++ sep ++ reg C
  | SigRI => str " " ++ reg A ++ sep ++ decimal B
  | SigRII => str " " ++ reg A ++ sep ++ decimal B ++ sep ++ decimal C
  | SigRIR => str " " ++ reg A ++ sep ++ decimal B ++ sep ++ reg C
  | SigRRI => str " " ++ reg A ++ sep ++ reg B ++ sep ++ decimal C
  | SigIRR => str " " ++ decimal A ++ sep ++ reg B ++ sep ++ reg C
  | SigIIR => str " " ++ decimal A ++ sep ++ decimal B ++ sep ++ reg C
  | SigI => str " " ++ decimal A
  end.

(** [disassemble] of one instruction. [n] counts what was printed; when there
    are no operands, [rv] still holds the length of the mnemonic, which is
    counted twice. Printing a null mnemonic is undefined. *)
Definition disassemble (i ip : Z) (comment : bytes) : result bytes :=
  match opcode i ≫= mnemonic with
  | None => Raise UndefinedBehaviour
  | Some mnemo =>
      let head := str "  " ++ pad_right 10 mnemo in
      let ops := operands_text i in
      let rv := match operandSignature (opcode i) with SigNone => length head | _ => length ops end in
      let n := (length head + rv)%nat in
      let b k := hex2 (Z.land (Z.shiftr i (8 * k)) 255) in
      let blank := str " " in
      Ok (head ++ ops ++ replicate (30 - n) 32 ++
          str ";" ++ pad_left 4 (decimal ip) ++ str " | " ++
          b 0 ++ blank ++ b 1 ++ blank ++ b 2 ++ blank ++ b 3 ++ blank ++
          b 4 ++ blank ++ b 5 ++ blank ++ b 6 ++ blank ++ b 7 ++
          (match comment with [] => [] | _ => str "   " ++ comment end))
  end.

(** [disassemble] of a program: a line per instruction, with its index. *)
Fixpoint disassemble_from (i : Z) (code : list Z) : result bytes :=
  match code with
  | [] => Ok []
  | pc :: code =>
      line ← disassemble pc (u16 i) [];
      rest ← disassemble_from (i + 1) code;
      Ok (line ++ [10] ++ rest)
  end.
Definition disassemble_program (code : list Z) : result bytes := disassemble_from 0 code.

(** ** Registers *)

(** [(Operand)(1 + operand)] wraps to zero for the register 65535. *)
Definition after (operand : Z) : Z := u16 (1 + operand).

Definition registerMax (i : Z) : Z :=
  let rA := after (operandA i) in let rB := after (operandB i) in let rC := after (operandC i) in
  match operandSignature (opcode i) with
  | SigRRR => Z.max (Z.max (Z.max 0 rC) rB) rA
  | SigRRI | SigRR => Z.max (Z.max 0 rB) rA
  | SigR | SigRI => Z.max 0 rA
  | SigI | SigNone => 0
  | SigIRR => Z.max (Z.max 0 rB) rC
  | SigIIR => Z.max 0 rC
  | SigRIR => Z.max (Z.max 0 rA) rC
  | SigRII => Z.max 0 rA
  end.

Definition computeRegisterCount (code : list Z) : Z :=
  foldl (λ count i, Z.max count (registerMax i)) 0 code.

(** ** Decoding what was encoded *)

Lemma opcode_value_range o : 0 ≤ opcode_value o < 256.
Proof. destruct o; cbn; lia. Qed.

Lemma opcodes_value o : opcodes !! Z.to_nat (opcode_value o) = Some o.
Proof. by destruct o. Qed.

(** The low half of an instruction: opcode, and [op1] above the second byte. *)
Lemma low_half o a :
  fits 16 a →
  u64 (Z.lor (opcode_value o) (s32 (Z.shiftl a 16))) =
  opcode_value o + a * 2 ^ 16 + (if a <? 2 ^ 15 then 0 else (2 ^ 32 - 1) * 2 ^ 32).
Proof.
  intros [Ha1 Ha2]. pose proof (opcode_value_range o) as Ho.
  rewrite Z.shiftl_mul_pow2 by lia.
  assert (Hl : ∀ k, Z.lor (opcode_value o) (k * 2 ^ 16) = opcode_value o + k * 2 ^ 16).
  { intros k. rewrite <- Z.shiftl_mul_pow2 by lia.
    rewrite lor_shiftl_add by (lia || (unfold fits; lia)). by rewrite Z.shiftl_mul_pow2 by lia. }
  destruct (Z.ltb_spec a (2 ^ 15)) as [Hs|Hs].
  - rewrite signed_id by (cbn; lia). rewrite Hl. rewrite unsigned_id by (unfold fits; lia). lia.
  - assert (Hsg : s32 (a * 2 ^ 16) = (a - 2 ^ 16) * 2 ^ 16).
    { unfold signed. rewrite <- (Z.mod_add _ (-1)) by lia. rewrite Z.mod_small; lia. }
    rewrite Hsg, Hl. unfold unsigned.
    rewrite <- (Z.mod_add _ 1) by lia. rewrite Z.mod_small; lia.
Qed.

Lemma lor_high n a b : 0 ≤ n → fits n a → Z.lor a (b * 2 ^ n) = a + b * 2 ^ n.
Proof. intros. rewrite <- (Z.shiftl_mul_pow2 b n) by lia. rewrite lor_shiftl_add by done. by rewrite Z.shiftl_mul_pow2. Qed.

Definition fields (o : Opcode) (a b c : Z) : Z :=
  opcode_value o + a * 2 ^ 16 + b * 2 ^ 32 + c * 2 ^ 48.

(** A word whose fields are within their widths decodes to them. *)
Lemma decode_fields o a b c :
  fits 16 a → fits 16 b → fits 16 c →
  opcode (fields o a b c) = Some o ∧ operandA (fields o a b c) = a ∧
  operandB (fields o a b c) = b ∧ operandC (fields o a b c) = c.
Proof.
  intros [Ha1 Ha2] [Hb1 Hb2] [Hc1 Hc2]. pose proof (opcode_value_range o) as Ho. unfold fields.
  assert (Hop : ∀ i k x hi, i = x * 2 ^ k + hi → 0 ≤ k → 0 ≤ hi < 2 ^ k → Z.shiftr i k = x).
  { intros i k x hi -> Hk Hhi. rewrite Z.shiftr_div_pow2 by lia. symmetry.
    apply Z.div_unique with hi; [by left|lia]. }
  assert (Hmask : ∀ hi x, fits 16 x → u16 (Z.land (hi * 2 ^ 16 + x) 65535) = x).
  { intros hi x Hx. change 65535 with (2 ^ 16 - 1). rewrite land_low by lia.
    rewrite Z.add_comm, Z.mod_add, Z.mod_small by (unfold fits in Hx; lia). by apply unsigned_id. }
  repeat split.
  - unfold opcode. change 255 with (2 ^ 8 - 1). rewrite land_low by lia.
    replace ((opcode_value o + a * 2 ^ 16 + b * 2 ^ 32 + c * 2 ^ 48)) with
      (opcode_value o + (a * 2 ^ 8 + b * 2 ^ 24 + c * 2 ^ 40) * 2 ^ 8) by lia.
    rewrite Z.mod_add, Z.mod_small by lia. apply opcodes_value.
  - unfold operandA. rewrite (Hop _ 16 ((b + c * 2 ^ 16) * 2 ^ 16 + a) (opcode_value o)) by lia.
    by apply Hmask.
  - unfold operandB. rewrite (Hop _ 32 (c * 2 ^ 16 + b) (opcode_value o + a * 2 ^ 16)) by lia.
    by apply Hmask.
  - unfold operandC. rewrite (Hop _ 48 (0 * 2 ^ 16 + c) (opcode_value o + a * 2 ^ 16 + b * 2 ^ 32)) by lia.
    by apply Hmask.
Qed.

(** What an encoder puts into the second and third operand: the operand as
    long as the first has its top bit clear, ones otherwise. *)
Definition spilled (a x : Z) : Z := if a <? 2 ^ 15 then x else 65535.

Lemma makeInstruction3_fields o a b c :
  fits 16 a → fits 16 b → fits 16 c →
  makeInstruction3 o a b c = fields o a (spilled a b) (spilled a c).
Proof.
  intros Ha Hb Hc. pose proof (opcode_value_range o) as Ho. unfold fits in *.
  unfold makeInstruction3. rewrite low_half by done. rewrite !Z.shiftl_mul_pow2 by lia.
  rewrite (unsigned_id 64 (b * _)), (unsigned_id 64 (c * _)) by (unfold fits; lia).
  unfold fields, spilled. destruct (Z.ltb_spec a (2 ^ 15)) as [Hs|Hs].
  - rewrite Z.add_0_r, (lor_high 32), (lor_high 48) by (lia || (unfold fits; lia)). lia.
  - (* the upper half is all ones already *)
    assert (Hones : ∀ lo x, fits 32 lo → fits 32 x →
              Z.lor (lo + (2 ^ 32 - 1) * 2 ^ 32) (x * 2 ^ 32) = lo + (2 ^ 32 - 1) * 2 ^ 32).
    { intros lo x Hlo Hx. rewrite <- (lor_high 32 lo) by (lia || done). rewrite <- Z.lor_assoc. f_equal.
      rewrite <- !Z.shiftl_mul_pow2 by lia. rewrite <- Z.shiftl_lor. f_equal.
      change (2 ^ 32 - 1) with (Z.ones 32). rewrite Z.lor_comm. apply Z.lor_ones_low; [apply Hx|].
      destruct (decide (x = 0)) as [->|]; [cbn; lia|]. apply Z.log2_lt_pow2; unfold fits in Hx; lia. }
    rewrite Hones by (unfold fits; lia).
    replace (c * 2 ^ 48) with (c * 2 ^ 16 * 2 ^ 32) by lia. rewrite Hones by (unfold fits; lia). lia.
Qed.

Lemma makeInstruction2_fields o a b :
  fits 16 a → fits 16 b → makeInstruction2 o a b = fields o a (spilled a b) (spilled a 0).
Proof.
  intros Ha Hb. rewrite <- makeInstruction3_fields by (done || unfold fits; lia).
  unfold makeInstruction3, makeInstruction2. by rewrite Z.shiftl_0_l, Z.lor_0_r.
Qed.

Lemma makeInstruction1_fields o a :
  fits 16 a → makeInstruction1 o a = fields o a (spilled a 0) (spilled a 0).
Proof.
  intros Ha. rewrite <- makeInstruction2_fields by (done || unfold fits; lia).
  unfold makeInstruction2, makeInstruction1. by rewrite Z.shiftl_0_l, Z.lor_0_r.
Qed.

Lemma makeInstruction0_fields o : makeInstruction0 o = fields o 0 0 0.
Proof. unfold makeInstruction0, fields. lia. Qed.

(** Decoding an encoded instruction gives its opcode and first
    operand always, and its second and third operand when the first is below
    0x8000; otherwise both are read as 65535. *)
Theorem instruction_roundtrip (o : Opcode) (a b c : Z) :
  fits 16 a → fits 16 b → fits 16 c →
  let i := makeInstruction3 o a b c in
  opcode i = Some o ∧ operandA i = a ∧
  operandB i = (if a <? 2 ^ 15 then b else 65535) ∧
  operandC i = (if a <? 2 ^ 15 then c else 65535).
Proof.
  intros Ha Hb Hc. cbv zeta. rewrite makeInstruction3_fields by done.
  apply decode_fields; [done| |]; unfold spilled; case_match; done || (unfold fits; lia).
Qed.

Lemma instruction_roundtrip_witness :
  let i := makeInstruction3 NADD 32767 2 65535 in
  opcode i = Some NADD ∧ operandA i = 32767 ∧ operandB i = 2 ∧ operandC i = 65535.
Proof. apply (instruction_roundtrip NADD 32767 2 65535); unfold fits; lia. Defined.
