(* ===== verification/NetAddress.v ===== *)
(** * IP addresses and CIDR networks

    [src/xzero/net/IPAddress.h], [Cidr.h], [Cidr.cc]. An address is its family,
    the text it was made from and its bytes in network order; a network is an
    address and a prefix length. [Cidr::contains] reads the bytes as 32-bit
    words of the (little-endian) machine. *)
From S2P Require Import Prelude.

Definition AF_INET : Z := 2.
Definition AF_INET6 : Z := 10.

Record IPAddress := mkIPAddress {
  ip_family : Z;
  ip_cstr : bytes;
  ip_buf : bytes  (* 16 bytes *) }.

Record Cidr := mkCidr { cidr_addr : IPAddress; cidr_prefix : Z }.

#[export] Instance IPAddress_eq_dec : EqDecision IPAddress.
Proof. solve_decision. Defined.
#[export] Instance Cidr_eq_dec : EqDecision Cidr.
Proof. solve_decision. Defined.

Definition ip_size (a : IPAddress) : nat := if ip_family a =? AF_INET then 4 else 16.

(** [inet_ntop] and [inet_pton] are the system's. *)
Section Text.
Context (inet_ntop : Z → bytes → bytes) (inet_pton : Z → bytes → option bytes).

(** [IPAddress::c_str]: the cached text, filled on the first call. *)
Definition ip_str (a : IPAddress) : bytes :=
  match ip_cstr a with [] => inet_ntop (ip_family a) (ip_buf a) | s => s end.

(** [IPAddress::set]: text that does not parse leaves the bytes as they are.
    [strncpy] copies up to the terminator, at most the 46 bytes of [cstr_]. *)
Definition ip_set (a : IPAddress) (text : bytes) (family : Z) : IPAddress * bool :=
  match inet_pton family text with
  | None => (mkIPAddress family [] (ip_buf a), false)
  | Some addr => (mkIPAddress family (take 46 text) (addr ++ drop (length addr) (ip_buf a)), true)
  end.

Definition ip_of_text (uninit : IPAddress) (text : bytes) : IPAddress :=
  fst (ip_set uninit text (if bool_decide (58 ∈ text) then AF_INET6 else AF_INET)).

(** [Cidr::str]; the prefix is printed by [decimal]. *)
Definition cidr_str (decimal : Z → bytes) (c : Cidr) : bytes :=
  inet_ntop (ip_family (cidr_addr c)) (ip_buf (cidr_addr c)) ++ str "/" ++ decimal (cidr_prefix c).
End Text.

(** [operator==]; [same] says that both are one object. *)
Definition ip_equals (same : bool) (a b : IPAddress) : bool :=
  same ||
  (ip_family a =? ip_family b) &&
  (((ip_family a =? AF_INET) || (ip_family a =? AF_INET6)) &&
   bool_decide (take (ip_size a) (ip_buf a) = take (ip_size a) (ip_buf b))).

Definition cidr_equals (same : bool) (a b : Cidr) : bool :=
  same ||
  (ip_family (cidr_addr a) =? ip_family (cidr_addr b)) &&
  (((ip_family (cidr_addr a) =? AF_INET) || (ip_family (cidr_addr a) =? AF_INET6)) &&
   bool_decide (take (ip_size (cidr_addr a)) (ip_buf (cidr_addr a)) =
                take (ip_size (cidr_addr a)) (ip_buf (cidr_addr b))) &&
   (cidr_prefix a =? cidr_prefix b)).

(** The [k]-th 32-bit word of the bytes; outside of them the read is undefined. *)
Definition word (buf : bytes) (k : nat) : result Z :=
  match buf !! (4 * k)%nat, buf !! (4 * k + 1)%nat, buf !! (4 * k + 2)%nat, buf !! (4 * k + 3)%nat with
  | Some b0, Some b1, Some b2, Some b3 => Ok (b0 + b1 * 2 ^ 8 + b2 * 2 ^ 16 + b3 * 2 ^ 24)
  | _, _, _, _ => Raise UndefinedBehaviour
  end.

(** [0xFFFFFFFF >> n], a shift of a 32-bit word. *)
Definition mask (n : Z) : result Z :=
  if (0 <=? n) && (n <? 32) then Ok (Z.shiftr (2 ^ 32 - 1) n) else Raise UndefinedBehaviour.

(** The loop over whole words, then the last, partial one. *)
Fixpoint contains6 (fuel : nat) (words input : bytes) (k : nat) (bits : Z) : result bool :=
  match fuel with
  | O => Raise UndefinedBehaviour
  | S fuel =>
      w ← word words k;
      if 32 <=? bits then
        i ← word input k;
        if w =? i then contains6 fuel words input (S k) (bits - 32) else Ok false
      else
        m ← mask (32 - bits);
        i ← word input k;
        Ok (Z.land w m =? i)
  end.

Definition cidr_contains (c : Cidr) (ip : IPAddress) : result bool :=
  let addr := cidr_addr c in
  if negb (ip_family ip =? ip_family addr) then Ok false
  else if ip_family ip =? AF_INET then
    w ← word (ip_buf ip) 0;
    subnet ← word (ip_buf addr) 0;
    m ← mask (u64 (32 - cidr_prefix c));
    Ok (Z.land w m =? subnet)
  else contains6 5 (ip_buf addr) (ip_buf ip) 0 (s32 (cidr_prefix c)).

(** ** IPv4 networks *)

Definition word_of (b0 b1 b2 b3 : Z) : Z := b0 + b1 * 2 ^ 8 + b2 * 2 ^ 16 + b3 * 2 ^ 24.

Lemma mask_low p : 1 ≤ p ≤ 32 → mask (u64 (32 - p)) = Ok (2 ^ p - 1).
Proof.
  intros Hp. rewrite unsigned_id by (unfold fits; lia). unfold mask.
  rewrite (proj2 (Z.leb_le _ _)), (proj2 (Z.ltb_lt _ _)) by lia. cbn [andb]. f_equal.
  rewrite Z.shiftr_div_pow2 by lia. symmetry. apply Z.div_unique with (2 ^ (32 - p) - 1).
  - left. pose proof (Z.pow_pos_nonneg 2 (32 - p)). lia.
  - assert (2 ^ 32 = 2 ^ (32 - p) * 2 ^ p) by (rewrite <- Z.pow_add_r by lia; f_equal; lia). lia.
Qed.

(** The test compares the low [p] bits of the words. *)
Lemma contains4_mod c ip b0 b1 b2 b3 n0 n1 n2 n3 r r' :
  ip_family ip = AF_INET → ip_family (cidr_addr c) = AF_INET → 1 ≤ cidr_prefix c ≤ 32 →
  ip_buf ip = b0 :: b1 :: b2 :: b3 :: r → ip_buf (cidr_addr c) = n0 :: n1 :: n2 :: n3 :: r' →
  cidr_contains c ip = Ok (word_of b0 b1 b2 b3 mod 2 ^ cidr_prefix c =? word_of n0 n1 n2 n3).
Proof.
  intros Hf1 Hf2 Hp Hb Hn. unfold cidr_contains. rewrite Hf1, Hf2, Hb, Hn. cbn [Z.eqb negb AF_INET].
  change (2 =? 2) with true. cbn [negb].
  change (word (b0 :: b1 :: b2 :: b3 :: r) 0) with (Ok (word_of b0 b1 b2 b3)).
  change (word (n0 :: n1 :: n2 :: n3 :: r') 0) with (Ok (word_of n0 n1 n2 n3)).
  cbn [mbind result_bind]. rewrite mask_low by done. cbn [mbind result_bind].
  by rewrite land_low by lia.
Qed.

Lemma word_of_mod k b0 b1 b2 b3 :
  is_byte b0 → is_byte b1 → is_byte b2 → is_byte b3 → 1 ≤ k ≤ 4 →
  word_of b0 b1 b2 b3 mod 2 ^ (8 * k) =
  b0 + (if 2 <=? k then b1 else 0) * 2 ^ 8 + (if 3 <=? k then b2 else 0) * 2 ^ 16
     + (if 4 <=? k then b3 else 0) * 2 ^ 24.
Proof.
  unfold is_byte, fits, word_of. intros H0 H1 H2 H3 Hk.
  assert (k = 1 ∨ k = 2 ∨ k = 3 ∨ k = 4) as [->|[->|[->| ->]]] by lia; cbn [Z.leb Z.compare Pos.compare Pos.compare_cont];
    symmetry; [apply Z.mod_unique_pos with (b1 + b2 * 2 ^ 8 + b3 * 2 ^ 16)
    |apply Z.mod_unique_pos with (b2 + b3 * 2 ^ 8)|apply Z.mod_unique_pos with b3|apply Z.mod_unique_pos with 0]; lia.
Qed.

(** An IPv4 network whose prefix ends at a byte boundary and
    whose remaining bytes are zero contains exactly the IPv4 addresses with the
    same leading bytes. *)
Theorem cidr_contains_ipv4 (c : Cidr) (ip : IPAddress) (k : Z) net :
  ip_family ip = AF_INET → ip_family (cidr_addr c) = AF_INET →
  length (ip_buf ip) = 16%nat → all_bytes (ip_buf ip) → all_bytes (ip_buf (cidr_addr c)) →
  1 ≤ k ≤ 4 → cidr_prefix c = 8 * k →
  ip_buf (cidr_addr c) = net ++ replicate (16 - Z.to_nat k) 0 → length net = Z.to_nat k →
  cidr_contains c ip = Ok (bool_decide (take (Z.to_nat k) (ip_buf ip) = net)).
Proof.
  intros Hf1 Hf2 Hlen Hb1 Hb2 Hk Hp Hnet Hl.
  destruct (ip_buf ip) as [|b0 [|b1 [|b2 [|b3 r]]]] eqn:Hbuf; try discriminate Hlen.
  rewrite Hnet in Hb2.
  assert (Hn : ∃ n0 n1 n2 n3, net ++ replicate (16 - Z.to_nat k) 0 = n0 :: n1 :: n2 :: n3 :: replicate 12 0 ∧
    net = take (Z.to_nat k) [n0; n1; n2; n3] ∧ (k < 2 → n1 = 0) ∧ (k < 3 → n2 = 0) ∧ (k < 4 → n3 = 0)).
  { assert (k = 1 ∨ k = 2 ∨ k = 3 ∨ k = 4) as [->|[->|[->| ->]]] by lia;
      destruct net as [|n0 [|n1 [|n2 [|n3 [|]]]]]; try discriminate Hl; cbn; do 4 eexists;
      repeat split; lia. }
  destruct Hn as (n0 & n1 & n2 & n3 & Hn & Htk & Hz1 & Hz2 & Hz3).
  rewrite (contains4_mod c ip b0 b1 b2 b3 n0 n1 n2 n3 r (replicate 12 0)) by (done || lia || congruence).
  rewrite Hn in Hb2. unfold all_bytes in Hb1, Hb2.
  repeat match goal with H : Forall _ (_ :: _) |- _ => apply Forall_cons_1 in H as [? H] end.
  rewrite Hp, word_of_mod by done. f_equal.
  apply eq_bool_prop_intro. rewrite bool_decide_spec, Is_true_true, Z.eqb_eq, Htk.
  unfold is_byte, fits, word_of in *.
  assert (k = 1 ∨ k = 2 ∨ k = 3 ∨ k = 4) as [->|[->|[->| ->]]] by lia; cbn;
    try (specialize (Hz1 ltac:(lia))); try (specialize (Hz2 ltac:(lia))); try (specialize (Hz3 ltac:(lia)));
    repeat match goal with |- context [Z.to_nat ?z] =>
      let n := eval vm_compute in (Z.to_nat z) in change (Z.to_nat z) with n end; cbn [take];
    split; intros Heq; (injection Heq as ?; lia) || (repeat f_equal; lia).
Qed.

Definition v4 (b0 b1 b2 b3 : Z) : IPAddress := mkIPAddress AF_INET [] ([b0; b1; b2; b3] ++ replicate 12 0).

Lemma cidr_contains_ipv4_witness :
  cidr_contains (mkCidr (v4 10 1 0 0) 16) (v4 10 1 2 3) = Ok true.
Proof.
  rewrite (cidr_contains_ipv4 (mkCidr (v4 10 1 0 0) 16) (v4 10 1 2 3) 2 [10; 1]); [reflexivity|..];
    try reflexivity; try lia; apply (bool_decide_unpack _); vm_compute; exact I.
Defined.

(** A prefix inside a byte selects the low bits of that byte instead of the high
    ones: [172.16.0.0/12] does not contain [172.17.0.1] and contains
    [172.32.0.1]... *)
Example cidr_prefix_within_byte :
  cidr_contains (mkCidr (v4 172 16 0 0) 12) (v4 172 17 0 1) = Ok false ∧
  cidr_contains (mkCidr (v4 172 0 0 0) 12) (v4 172 32 0 1) = Ok true.
Proof. by vm_compute. Qed.

(** ... and [0.0.0.0/0] shifts a 32-bit word by 32. *)
Example cidr_prefix_zero ip :
  ip_family ip = AF_INET → length (ip_buf ip) = 16%nat →
  cidr_contains (mkCidr (v4 0 0 0 0) 0) ip = Raise UndefinedBehaviour.
Proof.
  intros Hf Hl. unfold cidr_contains. rewrite Hf. cbn.
  destruct (ip_buf ip) as [|b0 [|b1 [|b2 [|b3 r]]]]; done.
Qed.

(** An IPv6 network masks its own address and compares the result with the whole
    word of the input: hosts of [2001:db8::/40] that have a bit set after the
    prefix in that word are not contained. *)
Definition v6 (bs : bytes) : IPAddress := mkIPAddress AF_INET6 [] (bs ++ replicate (16 - length bs) 0).

Example cidr_ipv6_hosts :
  cidr_contains (mkCidr (v6 [32; 1; 13; 184]) 40) (v6 [32; 1; 13; 184; 0; 1]) = Ok false ∧
  cidr_contains (mkCidr (v6 [32; 1; 13; 184]) 32) (v6 [32; 1; 13; 184]) = Raise UndefinedBehaviour.
Proof. by vm_compute. Qed.
