(* ===== verification/FlowConstants.v ===== *)
(** * The constant pool of a Flow program

    [src/xzero-flow/vm/ConstantPool.h], [ConstantPool.cc], [vm/Match.h],
    [vm/MatchClass.h], [xzero/RegExp.h]. The code generator interns the literals
    of a program here; the operands of an instruction are indices into the
    tables. *)
From S2P Require Import Prelude FlowType NetAddress.

Inductive MatchClass : Type := MatchSame | MatchHead | MatchTail | MatchRegExp.

#[export] Instance MatchClass_eq_dec : EqDecision MatchClass.
Proof. solve_decision. Defined.

(** A regular expression is known by its pattern ([operator==]). *)
Record RegExp := mkRegExp { re_pattern : bytes }.

#[export] Instance RegExp_eq_dec : EqDecision RegExp.
Proof. solve_decision. Defined.

Record MatchCaseDef := mkCase { case_label : Z; case_pc : Z }.

Record MatchDef := mkMatchDef {
  md_handlerId : Z;
  md_op : MatchClass;
  md_elsePC : Z;
  md_cases : list MatchCaseDef }.

Record ConstantPool := mkPool {
  cp_numbers : list Z;
  cp_strings : list bytes;
  cp_ipaddrs : list IPAddress;
  cp_cidrs : list Cidr;
  cp_regularExpressions : list RegExp;
  cp_intArrays : list (list Z);
  cp_stringArrays : list (list bytes);
  cp_ipaddrArrays : list (list IPAddress);
  cp_cidrArrays : list (list Cidr);
  cp_modules : list (bytes * bytes);
  cp_handlers : list (bytes * list Z);
  cp_matchDefs : list MatchDef;
  cp_nativeHandlerSignatures : list bytes;
  cp_nativeFunctionSignatures : list bytes }.

Definition emptyPool : ConstantPool := mkPool [] [] [] [] [] [] [] [] [] [] [] [] [] [].

(** ** Interning *)

Section Intern.
Context {T : Type} (eqb : T → T → bool).

(** The index of the first entry that equals the literal. *)
Fixpoint find_index (i : nat) (table : list T) (literal : T) : option nat :=
  match table with
  | [] => None
  | x :: table => if eqb x literal then Some i else find_index (S i) table literal
  end.

Definition ensureValue (table : list T) (literal : T) : list T * nat :=
  match find_index 0 table literal with
  | Some i => (table, i)
  | None => (table ++ [literal], length table)
  end.

(** [equals] on vectors, element by element. *)
Fixpoint vec_equals (a b : list T) : bool :=
  match a, b with
  | [], [] => true
  | x :: a, y :: b => eqb x y && vec_equals a b
  | _, _ => false
  end.

Lemma find_index_Some i table x k :
  find_index i table x = Some k →
  (i ≤ k)%nat ∧ (∃ y, table !! (k - i)%nat = Some y ∧ eqb y x = true) ∧
  ∀ j y, (j < k - i)%nat → table !! j = Some y → eqb y x = false.
Proof.
  revert i; induction table as [|z table IH]; intros i H; cbn in H; [done|].
  destruct (eqb z x) eqn:E.
  - injection H as <-. rewrite Nat.sub_diag. repeat split; [lia|by exists z|lia].
  - destruct (IH _ H) as (Hle & Hat & Hlt).
    replace (k - i)%nat with (S (k - S i)) by lia. repeat split; [lia|done|].
    intros [|j] y Hj Hy; cbn in Hy; [congruence|]. apply (Hlt j); [lia|done].
Qed.

Lemma find_index_None i table x :
  find_index i table x = None ↔ Forall (λ y, eqb y x = false) table.
Proof.
  revert i; induction table as [|z table IH]; intros i; cbn; [by split; intros; constructor|].
  destruct (eqb z x) eqn:E; rewrite ?IH; (split; [try done|]); intros H.
  - apply Forall_cons_1 in H as [? _]. congruence.
  - by constructor.
  - by apply Forall_cons_1 in H as [_ ?].
Qed.

(** No two entries are equal. *)
Definition distinct (table : list T) : Prop :=
  ∀ i j x y, (i < j)%nat → table !! i = Some x → table !! j = Some y → eqb x y = false.

Lemma ensureValue_spec table x :
  let '(table', i) := ensureValue table x in
  table `prefix_of` table' ∧
  (∃ y, table' !! i = Some y ∧ (eqb y x = true ∨ y = x)) ∧
  (length table' ≤ S (length table))%nat.
Proof.
  unfold ensureValue. destruct (find_index 0 table x) as [k|] eqn:E.
  - apply find_index_Some in E as (_ & (y & Hy & He) & _). rewrite Nat.sub_0_r in Hy.
    split; [done|]. split; [exists y; auto|lia].
  - split; [by apply prefix_app_r|]. split; [|rewrite length_app; cbn; lia].
    exists x. split; [by apply list_lookup_middle|by right].
Qed.

Lemma ensureValue_distinct table x : distinct table → distinct (fst (ensureValue table x)).
Proof.
  unfold ensureValue. intros Hd. destruct (find_index 0 table x) as [k|] eqn:E; [done|].
  apply find_index_None in E. intros i j a b Hij Ha Hb. cbn in Ha, Hb.
  assert (Hi : (i < length table)%nat).
  { apply lookup_lt_Some in Hb. rewrite length_app in Hb. cbn in Hb. lia. }
  rewrite lookup_app_l in Ha by done.
  destruct (decide (j < length table)%nat) as [Hj|Hj].
  - rewrite lookup_app_l in Hb by done. by apply (Hd i j).
  - rewrite lookup_app_r in Hb by lia. replace (j - length table)%nat with 0%nat in Hb.
    + injection Hb as <-. by apply (Forall_lookup_1 _ _ _ _ E Ha).
    + apply lookup_lt_Some in Hb. cbn in Hb. lia.
Qed.

(** Interning what is there already changes nothing and finds the same index. *)
Lemma ensureValue_again table x :
  eqb x x = true → ensureValue (fst (ensureValue table x)) x =
                   (fst (ensureValue table x), snd (ensureValue table x)).
Proof.
  intros Hx. assert (Hd : ensureValue table x = match find_index 0 table x with
    | Some i => (table, i) | None => (table ++ [x], length table) end) by done.
  destruct (find_index 0 table x) as [k|] eqn:E; rewrite Hd; cbn [fst snd]; unfold ensureValue.
  - by rewrite E.
  - assert (H : ∀ i, find_index i (table ++ [x]) x = Some (i + length table)%nat).
    { apply find_index_None in E. clear -E Hx. induction table as [|z table IH]; intros i; cbn.
      - by rewrite Hx, Nat.add_0_r.
      - apply Forall_cons_1 in E as [-> E]. rewrite IH by done. f_equal. cbn. lia. }
    by rewrite H.
Qed.
End Intern.

(** The equalities of the element types. *)
Definition bytes_eqb (a b : bytes) : bool := bool_decide (a = b).
Definition regexp_eqb (a b : RegExp) : bool := bytes_eqb (re_pattern a) (re_pattern b).

(** ** Building the pool: the changed pool and the index *)

Definition makeInteger (p : ConstantPool) (v : Z) : ConstantPool * nat :=
  let '(t, i) := ensureValue Z.eqb (cp_numbers p) v in
  (mkPool t (cp_strings p) (cp_ipaddrs p) (cp_cidrs p) (cp_regularExpressions p) (cp_intArrays p)
     (cp_stringArrays p) (cp_ipaddrArrays p) (cp_cidrArrays p) (cp_modules p) (cp_handlers p)
     (cp_matchDefs p) (cp_nativeHandlerSignatures p) (cp_nativeFunctionSignatures p), i).

Definition makeString (p : ConstantPool) (v : bytes) : ConstantPool * nat :=
  let '(t, i) := ensureValue bytes_eqb (cp_strings p) v in
  (mkPool (cp_numbers p) t (cp_ipaddrs p) (cp_cidrs p) (cp_regularExpressions p) (cp_intArrays p)
     (cp_stringArrays p) (cp_ipaddrArrays p) (cp_cidrArrays p) (cp_modules p) (cp_handlers p)
     (cp_matchDefs p) (cp_nativeHandlerSignatures p) (cp_nativeFunctionSignatures p), i).

Definition makeIPAddress (p : ConstantPool) (v : IPAddress) : ConstantPool * nat :=
  let '(t, i) := ensureValue (ip_equals false) (cp_ipaddrs p) v in
  (mkPool (cp_numbers p) (cp_strings p) t (cp_cidrs p) (cp_regularExpressions p) (cp_intArrays p)
     (cp_stringArrays p) (cp_ipaddrArrays p) (cp_cidrArrays p) (cp_modules p) (cp_handlers p)
     (cp_matchDefs p) (cp_nativeHandlerSignatures p) (cp_nativeFunctionSignatures p), i).

Definition makeCidr (p : ConstantPool) (v : Cidr) : ConstantPool * nat :=
  let '(t, i) := ensureValue (cidr_equals false) (cp_cidrs p) v in
  (mkPool (cp_numbers p) (cp_strings p) (cp_ipaddrs p) t (cp_regularExpressions p) (cp_intArrays p)
     (cp_stringArrays p) (cp_ipaddrArrays p) (cp_cidrArrays p) (cp_modules p) (cp_handlers p)
     (cp_matchDefs p) (cp_nativeHandlerSignatures p) (cp_nativeFunctionSignatures p), i).

Definition makeRegExp (p : ConstantPool) (v : RegExp) : ConstantPool * nat :=
  let '(t, i) := ensureValue regexp_eqb (cp_regularExpressions p) v in
  (mkPool (cp_numbers p) (cp_strings p) (cp_ipaddrs p) (cp_cidrs p) t (cp_intArrays p)
     (cp_stringArrays p) (cp_ipaddrArrays p) (cp_cidrArrays p) (cp_modules p) (cp_handlers p)
     (cp_matchDefs p) (cp_nativeHandlerSignatures p) (cp_nativeFunctionSignatures p), i).

Definition makeIntegerArray (p : ConstantPool) (v : list Z) : ConstantPool * nat :=
  let '(t, i) := ensureValue (vec_equals Z.eqb) (cp_intArrays p) v in
  (mkPool (cp_numbers p) (cp_strings p) (cp_ipaddrs p) (cp_cidrs p) (cp_regularExpressions p) t
     (cp_stringArrays p) (cp_ipaddrArrays p) (cp_cidrArrays p) (cp_modules p) (cp_handlers p)
     (cp_matchDefs p) (cp_nativeHandlerSignatures p) (cp_nativeFunctionSignatures p), i).

(** The buffers and the references into them are one value here. *)
Definition makeStringArray (p : ConstantPool) (v : list bytes) : ConstantPool * nat :=
  let '(t, i) := ensureValue (vec_equals bytes_eqb) (cp_stringArrays p) v in
  (mkPool (cp_numbers p) (cp_strings p) (cp_ipaddrs p) (cp_cidrs p) (cp_regularExpressions p)
     (cp_intArrays p) t (cp_ipaddrArrays p) (cp_cidrArrays p) (cp_modules p) (cp_handlers p)
     (cp_matchDefs p) (cp_nativeHandlerSignatures p) (cp_nativeFunctionSignatures p), i).

Definition makeIPaddrArray (p : ConstantPool) (v : list IPAddress) : ConstantPool * nat :=
  let '(t, i) := ensureValue (vec_equals (ip_equals false)) (cp_ipaddrArrays p) v in
  (mkPool (cp_numbers p) (cp_strings p) (cp_ipaddrs p) (cp_cidrs p) (cp_regularExpressions p)
     (cp_intArrays p) (cp_stringArrays p) t (cp_cidrArrays p) (cp_modules p) (cp_handlers p)
     (cp_matchDefs p) (cp_nativeHandlerSignatures p) (cp_nativeFunctionSignatures p), i).

Definition makeCidrArray (p : ConstantPool) (v : list Cidr) : ConstantPool * nat :=
  let '(t, i) := ensureValue (vec_equals (cidr_equals false)) (cp_cidrArrays p) v in
  (mkPool (cp_numbers p) (cp_strings p) (cp_ipaddrs p) (cp_cidrs p) (cp_regularExpressions p)
     (cp_intArrays p) (cp_stringArrays p) (cp_ipaddrArrays p) t (cp_modules p) (cp_handlers p)
     (cp_matchDefs p) (cp_nativeHandlerSignatures p) (cp_nativeFunctionSignatures p), i).

(** A definition is appended with its members as [MatchDef()] leaves them; the
    caller fills it through [getMatchDef]. *)
Definition makeMatchDef (p : ConstantPool) : ConstantPool * nat :=
  (mkPool (cp_numbers p) (cp_strings p) (cp_ipaddrs p) (cp_cidrs p) (cp_regularExpressions p)
     (cp_intArrays p) (cp_stringArrays p) (cp_ipaddrArrays p) (cp_cidrArrays p) (cp_modules p)
     (cp_handlers p) (cp_matchDefs p ++ [mkMatchDef 0 MatchSame 0 []])
     (cp_nativeHandlerSignatures p) (cp_nativeFunctionSignatures p), length (cp_matchDefs p)).

Definition setMatchDef (p : ConstantPool) (id : nat) (d : MatchDef) : ConstantPool :=
  mkPool (cp_numbers p) (cp_strings p) (cp_ipaddrs p) (cp_cidrs p) (cp_regularExpressions p)
    (cp_intArrays p) (cp_stringArrays p) (cp_ipaddrArrays p) (cp_cidrArrays p) (cp_modules p)
    (cp_handlers p) (<[id := d]> (cp_matchDefs p))
    (cp_nativeHandlerSignatures p) (cp_nativeFunctionSignatures p).

Definition makeNativeHandler (p : ConstantPool) (sig : bytes) : ConstantPool * nat :=
  let '(t, i) := ensureValue bytes_eqb (cp_nativeHandlerSignatures p) sig in
  (mkPool (cp_numbers p) (cp_strings p) (cp_ipaddrs p) (cp_cidrs p) (cp_regularExpressions p)
     (cp_intArrays p) (cp_stringArrays p) (cp_ipaddrArrays p) (cp_cidrArrays p) (cp_modules p)
     (cp_handlers p) (cp_matchDefs p) t (cp_nativeFunctionSignatures p), i).

Definition makeNativeFunction (p : ConstantPool) (sig : bytes) : ConstantPool * nat :=
  let '(t, i) := ensureValue bytes_eqb (cp_nativeFunctionSignatures p) sig in
  (mkPool (cp_numbers p) (cp_strings p) (cp_ipaddrs p) (cp_cidrs p) (cp_regularExpressions p)
     (cp_intArrays p) (cp_stringArrays p) (cp_ipaddrArrays p) (cp_cidrArrays p) (cp_modules p)
     (cp_handlers p) (cp_matchDefs p) (cp_nativeHandlerSignatures p) t, i).

Definition set_handlers (p : ConstantPool) (hs : list (bytes * list Z)) : ConstantPool :=
  mkPool (cp_numbers p) (cp_strings p) (cp_ipaddrs p) (cp_cidrs p) (cp_regularExpressions p)
    (cp_intArrays p) (cp_stringArrays p) (cp_ipaddrArrays p) (cp_cidrArrays p) (cp_modules p)
    hs (cp_matchDefs p) (cp_nativeHandlerSignatures p) (cp_nativeFunctionSignatures p).

(** Handlers are found by name; a new one has no code yet. *)
Definition makeHandler (p : ConstantPool) (name : bytes) : ConstantPool * nat :=
  match find_index (λ h h' : bytes * list Z, bytes_eqb (fst h) (fst h')) 0 (cp_handlers p) (name, []) with
  | Some i => (p, i)
  | None => (set_handlers p (cp_handlers p ++ [(name, [])]), length (cp_handlers p))
  end.

Definition setModules (p : ConstantPool) (ms : list (bytes * bytes)) : ConstantPool :=
  mkPool (cp_numbers p) (cp_strings p) (cp_ipaddrs p) (cp_cidrs p) (cp_regularExpressions p)
    (cp_intArrays p) (cp_stringArrays p) (cp_ipaddrArrays p) (cp_cidrArrays p) ms
    (cp_handlers p) (cp_matchDefs p) (cp_nativeHandlerSignatures p) (cp_nativeFunctionSignatures p).

(** [operator=(ConstantPool&&)] returns [*this] without taking anything over. *)
Definition move_assign (this from : ConstantPool) : ConstantPool := this.

(** Interning an integer or a string: the index returned holds
    the literal, all entries keep their index, the table stays free of
    duplicates, and interning it again changes nothing. *)
Theorem intern_spec (p : ConstantPool) (n : Z) (s : bytes) :
  distinct Z.eqb (cp_numbers p) → distinct bytes_eqb (cp_strings p) →
  let '(p1, i) := makeInteger p n in
  let '(p2, j) := makeString p1 s in
  cp_numbers p2 !! i = Some n ∧ cp_strings p2 !! j = Some s ∧
  cp_numbers p `prefix_of` cp_numbers p2 ∧ cp_strings p `prefix_of` cp_strings p2 ∧
  distinct Z.eqb (cp_numbers p2) ∧ distinct bytes_eqb (cp_strings p2) ∧
  makeInteger p2 n = (p2, i) ∧ makeString p2 s = (p2, j).
Proof.
  intros Hn Hs. unfold makeInteger, makeString.
  pose proof (ensureValue_spec Z.eqb (cp_numbers p) n) as HN.
  pose proof (ensureValue_spec bytes_eqb (cp_strings p) s) as HS.
  pose proof (ensureValue_distinct Z.eqb (cp_numbers p) n Hn) as DN.
  pose proof (ensureValue_distinct bytes_eqb (cp_strings p) s Hs) as DS.
  pose proof (ensureValue_again Z.eqb (cp_numbers p) n (Z.eqb_refl n)) as AN.
  pose proof (ensureValue_again bytes_eqb (cp_strings p) s (bool_decide_eq_true_2 _ eq_refl)) as AS.
  destruct (ensureValue Z.eqb (cp_numbers p) n) as [tn i]. cbn [cp_strings].
  destruct (ensureValue bytes_eqb (cp_strings p) s) as [ts j]. cbn [fst snd cp_numbers cp_strings] in *.
  destruct HN as (Pn & (x & Hx & Ex) & _), HS as (Ps & (y & Hy & Ey) & _).
  rewrite AN, AS. repeat split; try done.
  - rewrite Hx. destruct Ex as [Ex| ->]; [|done]. by rewrite (proj1 (Z.eqb_eq _ _) Ex).
  - rewrite Hy. destruct Ey as [Ey| ->]; [|done]. by rewrite (bool_decide_eq_true_1 _ Ey).
Qed.

Lemma intern_spec_witness :
  let p := fst (makeInteger (fst (makeString emptyPool (str "a"))) 7) in
  cp_numbers p = [7] ∧ makeString (fst (makeInteger p 9)) (str "a") = (fst (makeInteger p 9), 0%nat).
Proof.
  set (p := fst (makeInteger (fst (makeString emptyPool (str "a"))) 7)).
  assert (H1 : distinct Z.eqb (cp_numbers p))
    by (intros [|i] [|j] x y Hij Hx Hy; cbn in Hx, Hy; try lia; rewrite ?lookup_nil in Hy; done).
  assert (H2 : distinct bytes_eqb (cp_strings p))
    by (intros [|i] [|j] x y Hij Hx Hy; cbn in Hx, Hy; try lia; rewrite ?lookup_nil in Hy; done).
  pose proof (intern_spec p 9 (str "a") H1 H2) as H. split; [reflexivity|].
  by destruct H as (_ & _ & _ & _ & _ & _ & _ & H).
Defined.
