(* ===== verification/FlowMatch.v ===== *)
(** * Prefix trees, suffix trees and the match tables of the virtual machine

    [src/xzero/PrefixTree.h], [SuffixTree.h], [src/xzero-flow/vm/Match.cc]. A
    [match] statement of Flow is a table of labels and code offsets; the four
    subclasses of [Match] find the offset for a string. *)
From stdpp Require Import gmap.
From S2P Require Import Prelude NetAddress FlowConstants.

(** ** The tree

    A node is identified by the elements on the way from it up to the root,
    deepest first, so that [parent] is the tail of the list and a child is a
    longer list; the tree maps each node to its [value]. The root is [[]]. *)
Abbreviation tree := (gmap bytes Z).

Definition emptyTree : tree := {[ [] := 0 ]}.

(** [acquire]: the child for an element, made with value [0] when missing. *)
Definition acquire (elem : Z) (n : bytes) (t : tree) : tree * bytes :=
  match t !! (elem :: n) with
  | Some _ => (t, elem :: n)
  | None => (<[elem :: n := 0]> t, elem :: n)
  end.

Fixpoint acquire_all (key : bytes) (level : bytes) (t : tree) : tree * bytes :=
  match key with
  | [] => (t, level)
  | ke :: key => let '(t, level) := acquire ke level t in acquire_all key level t
  end.

(** The walk down ends at the last node that exists. *)
Fixpoint descend (key : bytes) (level : bytes) (t : tree) : bytes :=
  match key with
  | [] => level
  | ke :: key => match t !! (ke :: level) with
                 | None => level
                 | Some _ => descend key (ke :: level) t
                 end
  end.

(** The walk up: [while (level && level->parent)]. *)
Fixpoint ascend (level : bytes) (t : tree) : option Z :=
  match level with
  | [] => None
  | _ :: parent =>
      match t !! level with
      | Some v => if v =? 0 then ascend parent t else Some v
      | None => None
      end
  end.

Definition prefix_insert (t : tree) (key : bytes) (value : Z) : tree :=
  let '(t, level) := acquire_all key [] t in <[level := value]> t.
Definition prefix_lookup (t : tree) (key : bytes) : option Z := ascend (descend key [] t) t.

Definition suffix_insert (t : tree) (key : bytes) (value : Z) : tree :=
  let '(t, level) := acquire_all (reverse key) [] t in <[level := value]> t.
Definition suffix_lookup (t : tree) (key : bytes) : option Z := ascend (descend (reverse key) [] t) t.

(** ** Tables *)

(** [strings_[id]] and [regularExpressions_[id]] outside of the pool. *)
Definition getString (p : ConstantPool) (id : Z) : result bytes :=
  match cp_strings p !! Z.to_nat id with Some s => Ok s | None => Raise UndefinedBehaviour end.
Definition getRegExp (p : ConstantPool) (id : Z) : result RegExp :=
  match cp_regularExpressions p !! Z.to_nat id with Some r => Ok r | None => Raise UndefinedBehaviour end.

Inductive MatchTable : Type :=
  | TableSame (map : gmap bytes Z)
  | TableHead (map : tree)
  | TableTail (map : tree)
  | TableRegEx (map : list (RegExp * Z)).

Record Match := mkMatch { match_def : MatchDef; match_table : MatchTable }.

(** A loop of the constructors over the cases. *)
Fixpoint fill {M} (ins : M → bytes → Z → M) (p : ConstantPool) (cases : list MatchCaseDef) (m : M) : result M :=
  match cases with
  | [] => Ok m
  | one :: cases => s ← getString p (case_label one); fill ins p cases (ins m s (case_pc one))
  end.

Fixpoint fill_regex (p : ConstantPool) (cases : list MatchCaseDef) (m : list (RegExp * Z)) : result (list (RegExp * Z)) :=
  match cases with
  | [] => Ok m
  | one :: cases => r ← getRegExp p (case_label one); fill_regex p cases (m ++ [(r, case_pc one)])
  end.

Definition newMatch (p : ConstantPool) (def : MatchDef) : result Match :=
  match md_op def with
  | MatchSame => m ← fill (λ m s pc, <[s := pc]> m) p (md_cases def) ∅; Ok (mkMatch def (TableSame m))
  | MatchHead => m ← fill prefix_insert p (md_cases def) emptyTree; Ok (mkMatch def (TableHead m))
  | MatchTail => m ← fill suffix_insert p (md_cases def) emptyTree; Ok (mkMatch def (TableTail m))
  | MatchRegExp => m ← fill_regex p (md_cases def) []; Ok (mkMatch def (TableRegEx m))
  end.

(** ** What the trees hold *)

(** A node exists for each key inserted and for everything above it. *)
Definition upward_closed (t : tree) : Prop :=
  t !! [] ≠ None ∧ ∀ e n, t !! (e :: n) ≠ None → t !! n ≠ None.

Definition node_value (t : tree) (n : bytes) : Z := default 0 (t !! n).

Lemma acquire_spec e n t t' l :
  acquire e n t = (t', l) → upward_closed t → t !! n ≠ None →
  l = e :: n ∧ upward_closed t' ∧ t' !! l ≠ None ∧ (∀ k, node_value t' k = node_value t k).
Proof.
  unfold acquire. intros H [Hr Hc] Hn. destruct (t !! (e :: n)) as [v|] eqn:E; injection H as <- <-.
  - split; [done|]. split; [done|]. split; [congruence|done].
  - split; [done|]. split; [split|split].
    + by rewrite lookup_insert_ne.
    + intros e' n'. destruct (decide (e' :: n' = e :: n)) as [[= -> ->]|Hne].
      * intros _. rewrite lookup_insert_ne; [done|]. intros Heq. by apply (f_equal length) in Heq; cbn in Heq; lia.
      * rewrite (lookup_insert_ne t) by congruence. intros H%Hc.
        destruct (decide (n' = e :: n)) as [->|]; [by rewrite lookup_insert_eq|]. by rewrite lookup_insert_ne by congruence.
    + by rewrite lookup_insert_eq.
    + intros k. unfold node_value. destruct (decide (k = e :: n)) as [->|].
      * by rewrite lookup_insert_eq, E.
      * by rewrite lookup_insert_ne by congruence.
Qed.

Lemma acquire_all_spec key : ∀ n t t' l,
  acquire_all key n t = (t', l) → upward_closed t → t !! n ≠ None →
  l = reverse key ++ n ∧ upward_closed t' ∧ t' !! l ≠ None ∧ (∀ k, node_value t' k = node_value t k).
Proof.
  induction key as [|e key IH]; intros n t t' l H Hu Hn; cbn in H.
  - by injection H as <- <-.
  - destruct (acquire e n t) as [t1 l1] eqn:E. apply acquire_spec in E as (-> & Hu1 & Hl1 & Hv1); [|done..].
    apply IH in H as (-> & Hu' & Hl' & Hv'); [|done..].
    rewrite reverse_cons, <- (assoc_L (++)). repeat split; try done; try apply Hu'.
    intros k. by rewrite Hv'.
Qed.

Lemma set_value_closed t n v : upward_closed t → t !! n ≠ None → upward_closed (<[n := v]> t).
Proof.
  intros [Hr Hc] Hn. split.
  - destruct (decide (n = [])) as [->|]; [by rewrite lookup_insert_eq|by rewrite lookup_insert_ne].
  - intros e k H. assert (Hk : t !! (e :: k) ≠ None).
    { destruct (decide (n = e :: k)) as [->|]; [done|]. by rewrite lookup_insert_ne in H. }
    apply Hc in Hk. destruct (decide (n = k)) as [->|]; [by rewrite lookup_insert_eq|by rewrite lookup_insert_ne].
Qed.

Lemma prefix_insert_spec t key v :
  upward_closed t →
  upward_closed (prefix_insert t key v) ∧
  ∀ n, node_value (prefix_insert t key v) n = if decide (n = reverse key) then v else node_value t n.
Proof.
  intros Hu. unfold prefix_insert. destruct (acquire_all key [] t) as [t' l] eqn:E.
  apply acquire_all_spec in E as (-> & Hu' & Hl' & Hv'); [|done|apply Hu].
  rewrite app_nil_r in *. split; [by apply set_value_closed|]. intros n. unfold node_value.
  destruct (decide _) as [->|Hne]; [by rewrite lookup_insert_eq|].
  rewrite lookup_insert_ne by done. apply Hv'.
Qed.

(** The walk up from the deepest existing node passes the same values as the walk
    up from the node the whole key would have. *)
Fixpoint deepest (f : bytes → Z) (n : bytes) : option Z :=
  match n with
  | [] => None
  | _ :: parent => if f n =? 0 then deepest f parent else Some (f n)
  end.

Lemma ascend_deepest n t : upward_closed t → t !! n ≠ None → ascend n t = deepest (node_value t) n.
Proof.
  intros [_ Hc]. induction n as [|e n IH]; intros Hn; [done|]. cbn.
  destruct (t !! (e :: n)) as [v|] eqn:E; [|done].
  assert (Hv : node_value t (e :: n) = v) by (unfold node_value; by rewrite E). rewrite Hv.
  destruct (v =? 0); [|done]. apply IH, (Hc e n). congruence.
Qed.

Lemma missing_below t e n : upward_closed t → t !! (e :: n) = None → ∀ key, t !! (key ++ e :: n) = None.
Proof.
  intros [_ Hc] He key. induction key as [|k key IH]; [done|].
  cbn [app]. destruct (t !! (k :: key ++ e :: n)) as [v|] eqn:E; [exfalso|done].
  apply (Hc k (key ++ e :: n)); [congruence|done].
Qed.

Lemma deepest_missing t e n key :
  upward_closed t → t !! (e :: n) = None →
  deepest (node_value t) (key ++ e :: n) = deepest (node_value t) n.
Proof.
  intros Hu He. induction key as [|k key IH]; cbn.
  - assert (Hv : node_value t (e :: n) = 0) by (unfold node_value; by rewrite He). by rewrite Hv.
  - pose proof (missing_below t e n Hu He (k :: key)) as Hm. cbn [app] in Hm.
    assert (Hv : node_value t (k :: key ++ e :: n) = 0) by (unfold node_value; by rewrite Hm). by rewrite Hv.
Qed.

Lemma lookup_deepest key n t :
  upward_closed t → t !! n ≠ None →
  ascend (descend key n t) t = deepest (node_value t) (reverse key ++ n).
Proof.
  intros Hu. revert n. induction key as [|e key IH]; intros n Hn; cbn [descend].
  - by apply ascend_deepest.
  - rewrite reverse_cons, <- (assoc_L (++)). cbn [app]. destruct (t !! (e :: n)) as [v|] eqn:E.
    + apply IH. congruence.
    + rewrite deepest_missing by done. by apply ascend_deepest.
Qed.

(** The longest suffix of [n] with a value. *)
Lemma deepest_Some f n v :
  deepest f n = Some v ↔
  ∃ p q, n = p ++ q ∧ q ≠ [] ∧ f q = v ∧ v ≠ 0 ∧
         ∀ p1 p2, p = p1 ++ p2 → p2 ≠ [] → f (p2 ++ q) = 0.
Proof.
  induction n as [|e n IH]; cbn.
  - split; [done|]. intros (p & q & Hn & Hq & _). by destruct p, q.
  - destruct (Z.eqb_spec (f (e :: n)) 0) as [H0|H0].
    + rewrite IH. split.
      * intros (p & q & -> & Hq & Hf & Hv & Hall). exists (e :: p), q. repeat split; try done.
        intros [|x p1] p2 Heq Hp2; cbn in Heq.
        -- subst p2. exact H0.
        -- injection Heq as -> ->. by apply (Hall p1).
      * intros ([|x p] & q & Heq & Hq & Hf & Hv & Hall); cbn in Heq; [congruence|].
        injection Heq as -> ->. exists p, q. repeat split; try done.
        intros p1 p2 -> Hp2. by apply (Hall (x :: p1)).
    + split.
      * intros [= <-]. exists [], (e :: n). repeat split; try done.
        intros p1 p2 Heq Hp2. by destruct p1, p2.
      * intros ([|x p] & q & Heq & Hq & Hf & Hv & Hall); cbn in Heq.
        -- subst q. congruence.
        -- injection Heq as -> ->. exfalso. apply H0. by apply (Hall [] (x :: p)).
Qed.

Lemma deepest_ext f g n : (∀ k, f k = g k) → deepest f n = deepest g n.
Proof. intros H. induction n as [|e n IH]; cbn; [done|]. by rewrite H, IH. Qed.

(** ** What a table answers *)

(** The value the last insertion of a key gave it. *)
Definition last_value (kvs : list (bytes * Z)) (key : bytes) : Z :=
  foldl (λ v kv, if decide (fst kv = key) then snd kv else v) 0 kvs.

Lemma last_value_snoc kvs k v key :
  last_value (kvs ++ [(k, v)]) key = if decide (k = key) then v else last_value kvs key.
Proof. unfold last_value. by rewrite foldl_app. Qed.

Definition prefix_tree (kvs : list (bytes * Z)) : tree :=
  foldl (λ t kv, prefix_insert t (fst kv) (snd kv)) emptyTree kvs.
Definition suffix_tree (kvs : list (bytes * Z)) : tree :=
  foldl (λ t kv, suffix_insert t (fst kv) (snd kv)) emptyTree kvs.

Lemma emptyTree_closed : upward_closed emptyTree ∧ ∀ n, node_value emptyTree n = 0.
Proof.
  unfold emptyTree. split; [split|].
  - by rewrite lookup_singleton_eq.
  - intros e n H. by rewrite lookup_singleton_ne in H.
  - intros n. unfold node_value. destruct (decide (n = [])) as [->|].
    + by rewrite lookup_singleton_eq.
    + by rewrite lookup_singleton_ne.
Qed.

Lemma prefix_tree_spec kvs :
  upward_closed (prefix_tree kvs) ∧ ∀ n, node_value (prefix_tree kvs) n = last_value kvs (reverse n).
Proof.
  induction kvs as [|[k v] kvs IH] using rev_ind; [apply emptyTree_closed|].
  unfold prefix_tree. rewrite foldl_app. cbn. destruct IH as [IH1 IH2].
  destruct (prefix_insert_spec (prefix_tree kvs) k v IH1) as [H1 H2]. split; [done|].
  intros n. fold (prefix_tree kvs). rewrite H2, IH2, last_value_snoc.
  destruct (decide (n = reverse k)) as [->|Hne]; destruct (decide (k = _)) as [Heq|Hne']; try done.
  - by rewrite reverse_involutive in Hne'.
  - by rewrite Heq, reverse_involutive in Hne.
Qed.

Lemma suffix_as_prefix kvs : suffix_tree kvs = prefix_tree ((λ kv, (reverse (fst kv), snd kv)) <$> kvs).
Proof.
  unfold suffix_tree, prefix_tree. generalize emptyTree. induction kvs as [|kv kvs IH]; intros t; cbn; [done|].
  apply IH.
Qed.

Lemma last_value_reverse kvs key :
  last_value ((λ kv : bytes * Z, (reverse (fst kv), snd kv)) <$> kvs) (reverse key) = last_value kvs key.
Proof.
  unfold last_value. generalize 0. induction kvs as [|[k v] kvs IH]; intros z; [done|].
  cbn [fmap list_fmap foldl fst snd] in *. rewrite IH. destruct (decide (reverse k = reverse key)) as [Heq|Hne]; destruct (decide (k = key)) as [->|Hne']; try done.
  by apply (inj reverse) in Heq.
Qed.

(** Lookup in a tree finds the value of the longest label: the reference is a
    search over all non-empty prefixes, respectively suffixes, of the key. *)
Definition is_longest (kvs : list (bytes * Z)) (is_part : bytes → Prop) (v : Z) : Prop :=
  ∃ p, is_part p ∧ p ≠ [] ∧ last_value kvs p = v ∧ v ≠ 0 ∧
       ∀ q, is_part q → (length p < length q)%nat → last_value kvs q = 0.

Lemma reverse_nonempty (l : bytes) : l ≠ [] → reverse l ≠ [].
Proof. intros H Hr. apply H. by apply (inj reverse). Qed.

Lemma prefix_lookup_longest kvs key v :
  prefix_lookup (prefix_tree kvs) key = Some v ↔ is_longest kvs (λ p, p `prefix_of` key) v.
Proof.
  destruct (prefix_tree_spec kvs) as [Hc Hv]. unfold prefix_lookup, is_longest.
  rewrite lookup_deepest by (done || apply Hc). rewrite app_nil_r, deepest_Some. split.
  - intros (p & q & Hkey & Hq & Hf & Hnz & Hall). exists (reverse q). rewrite <- Hv.
    apply (f_equal reverse) in Hkey. rewrite reverse_involutive, reverse_app in Hkey.
    split; [by exists (reverse p)|]. split; [by apply reverse_nonempty|].
    split; [done|]. split; [done|]. intros q' [r Hr] Hlen.
    destruct (prefix_weak_total (reverse q) q' key) as [[s ->]|[s Hs]]; [by exists (reverse p)|by exists r| |].
    + rewrite <- (reverse_involutive (reverse q ++ s)), <- Hv, reverse_app, reverse_involutive.
      destruct (decide (s = [])) as [->|Hs]; [rewrite app_nil_r in Hlen; lia|].
      apply (Hall (reverse r)).
      * rewrite <- (assoc_L (++)) in Hr. rewrite Hkey in Hr. apply (inj (app _)) in Hr.
        apply (f_equal reverse) in Hr. by rewrite reverse_involutive, reverse_app in Hr.
      * by apply reverse_nonempty.
    + rewrite Hs, length_app in Hlen. lia.
  - intros (p & [r Hr] & Hp & Hl & Hnz & Hall). exists (reverse r), (reverse p).
    rewrite Hv, reverse_involutive. split; [by rewrite Hr, reverse_app|].
    split; [by apply reverse_nonempty|]. split; [done|]. split; [done|].
    intros p1 p2 Heq Hp2. rewrite Hv, reverse_app, reverse_involutive. apply Hall.
    + apply (f_equal reverse) in Heq. rewrite reverse_involutive, reverse_app in Heq.
      rewrite Hr, Heq. exists (reverse p1). by rewrite <- (assoc_L (++)).
    + rewrite length_app, length_reverse. destruct p2; [done|]. cbn. lia.
Qed.

Lemma suffix_lookup_longest kvs key v :
  suffix_lookup (suffix_tree kvs) key = Some v ↔ is_longest kvs (λ p, p `suffix_of` key) v.
Proof.
  unfold suffix_lookup. rewrite suffix_as_prefix.
  change (ascend (descend (reverse key) [] ?t) ?t) with (prefix_lookup t (reverse key)).
  rewrite prefix_lookup_longest. unfold is_longest. split.
  - intros (p & Hp & Hne & Hl & Hv & Hall). exists (reverse p).
    rewrite <- last_value_reverse, reverse_involutive.
    split; [by apply suffix_prefix_reverse; rewrite reverse_involutive|].
    split; [by apply reverse_nonempty|]. split; [done|]. split; [done|]. intros q Hq Hlen.
    rewrite <- last_value_reverse. apply Hall; [by apply suffix_prefix_reverse|].
    rewrite length_reverse in *. done.
  - intros (p & Hp & Hne & Hl & Hv & Hall). exists (reverse p).
    rewrite last_value_reverse. split; [by apply suffix_prefix_reverse|].
    split; [by apply reverse_nonempty|]. split; [done|]. split; [done|]. intros q Hq Hlen.
    rewrite <- (reverse_involutive q), last_value_reverse. apply Hall.
    + apply suffix_prefix_reverse. by rewrite reverse_involutive.
    + rewrite length_reverse in *. done.
Qed.

(** ** Regular expressions

    [src/xzero/RegExp.cc] over the PCRE library, which is a parameter: whether a
    pattern compiles, and the return code and offset vector of [pcre_exec]. *)

(** A sub-match is a pointer into the subject and a length. *)
Record Group := mkGroup { g_subject : bytes; g_offset : Z; g_length : Z }.

(** [env->userdata()] is cast to a [RegExpContext]; it may be null, be one (with
    or without its result vector) or be something else. *)
Inductive Userdata : Type :=
  | NoUserdata
  | RegexUserdata (rs : option (list Group))
  | OtherUserdata.

Section RegEx.
Context (compiles : bytes → bool) (pcre_exec : bytes → bytes → Z * list Z).

Fixpoint groups (n : nat) (i : nat) (subject : bytes) (ov : list Z) : list Group :=
  match n with
  | O => []
  | S n => mkGroup subject (default 0 (ov !! i)) (u64 (default 0 (ov !! S i) - default 0 (ov !! i)))
           :: groups n (S (S i)) subject ov
  end.

(** [RegExp::match]; [result] is the vector to fill, if any. *)
Definition re_match (r : RegExp) (subject : bytes) (result : option (list Group)) : bool * option (list Group) :=
  if negb (compiles (re_pattern r)) then (false, result)
  else
    let '(rc, ov) := pcre_exec (re_pattern r) subject in
    (0 <? rc,
     match result with
     | None => None
     | Some _ => Some (if 0 <? rc then groups (Z.to_nat rc) 0 subject ov else [mkGroup [] 0 0])
     end).

Fixpoint first_match (map : list (RegExp * Z)) (condition : bytes) (rs : option (list Group)) : option Z * option (list Group) :=
  match map with
  | [] => (None, rs)
  | (r, pc) :: map =>
      let '(ok, rs) := re_match r condition rs in
      if ok then (Some pc, rs) else first_match map condition rs
  end.

(** [Match::evaluate] of the four subclasses: the code offset to go on at. *)
Definition evaluate (m : Match) (condition : bytes) (u : Userdata) : result (Z * Userdata) :=
  let elsePC := md_elsePC (match_def m) in
  match match_table m with
  | TableSame map => Ok (default elsePC (map !! condition), u)
  | TableHead map => Ok (default elsePC (prefix_lookup map condition), u)
  | TableTail map => Ok (default elsePC (suffix_lookup map condition), u)
  | TableRegEx map =>
      match u with
      | OtherUserdata => Raise UndefinedBehaviour
      | NoUserdata => Ok (default elsePC (fst (first_match map condition None)), u)
      | RegexUserdata rs =>
          let '(pc, rs) := first_match map condition (Some (default [] rs)) in
          Ok (default elsePC pc, RegexUserdata rs)
      end
  end.

(** The labels and offsets of a definition. *)
Fixpoint labelled (p : ConstantPool) (cases : list MatchCaseDef) : result (list (bytes * Z)) :=
  match cases with
  | [] => Ok []
  | one :: cases =>
      s ← getString p (case_label one); kvs ← labelled p cases; Ok ((s, case_pc one) :: kvs)
  end.

(** Which offset a table of strings is meant to give. *)
Definition chooses (op : MatchClass) (kvs : list (bytes * Z)) (condition : bytes) (pc : Z) : Prop :=
  match op with
  | MatchSame => ∃ l1 l2, kvs = l1 ++ (condition, pc) :: l2 ∧ condition ∉ l2.*1
  | MatchHead => is_longest kvs (λ p, p `prefix_of` condition) pc
  | MatchTail => is_longest kvs (λ p, p `suffix_of` condition) pc
  | MatchRegExp => False
  end.

Lemma fill_foldl {M} (ins : M → bytes → Z → M) p cases : ∀ m m',
  fill ins p cases m = Ok m' ↔
  ∃ kvs, labelled p cases = Ok kvs ∧ m' = foldl (λ m kv, ins m (fst kv) (snd kv)) m kvs.
Proof.
  induction cases as [|one cases IH]; intros m m'; cbn.
  - split; [intros [= ->]; by exists []|]. by intros (kvs & [= <-] & ->).
  - destruct (getString p (case_label one)) as [s|e]; cbn; [|split; [done|by intros (kvs & ? & _)]].
    rewrite IH. split.
    + intros (kvs & -> & ->). by eexists.
    + intros (kvs & H & ->). apply bind_Ok in H as (kvs' & Hk & [= <-]). by exists kvs'.
Qed.

Lemma same_map_chooses kvs condition pc :
  foldl (λ (m : gmap bytes Z) kv, <[fst kv := snd kv]> m) ∅ kvs !! condition = Some pc ↔
  chooses MatchSame kvs condition pc.
Proof.
  cbn. induction kvs as [|[k v] kvs IH] using rev_ind; cbn.
  - split; [done|]. intros ([|] & l2 & H & _); done.
  - rewrite foldl_app. cbn. destruct (decide (k = condition)) as [->|Hne].
    + rewrite lookup_insert_eq. split.
      * intros [= ->]. exists kvs, []. split; [done|]. apply not_elem_of_nil.
      * intros (l1 & l2 & Heq & Hnot). destruct l2 as [|x l2 _] using rev_ind.
        -- apply app_inj_tail in Heq as [_ [= ->]]. done.
        -- rewrite app_comm_cons, (assoc_L (++)) in Heq. apply app_inj_tail in Heq as [_ <-].
           exfalso. apply Hnot. rewrite fmap_app. apply elem_of_app. right. by constructor.
    + rewrite lookup_insert_ne by done. rewrite IH. split.
      * intros (l1 & l2 & -> & Hnot). exists l1, (l2 ++ [(k, v)]). split; [by rewrite <- (assoc_L (++))|].
        rewrite fmap_app, elem_of_app. intros [H|H]; [done|]. apply list_elem_of_singleton in H. done.
      * intros (l1 & l2 & Heq & Hnot). destruct l2 as [|x l2 _] using rev_ind.
        -- apply app_inj_tail in Heq as [_ [= -> ->]]. done.
        -- rewrite app_comm_cons, (assoc_L (++)) in Heq. apply app_inj_tail in Heq as [-> _].
           exists l1, l2. split; [done|]. intros H. apply Hnot. rewrite fmap_app, elem_of_app. by left.
Qed.

Lemma default_chooses (o : option Z) (P : Z → Prop) d :
  (∀ v, o = Some v ↔ P v) → P (default d o) ∨ (∀ v, ¬ P v) ∧ default d o = d.
Proof.
  intros H. destruct o as [v|]; cbn; [left; by apply H|right]. split; [|done]. intros v Hv. by apply H in Hv.
Qed.
End RegEx.

(** C40 (equivalence). A match table on strings answers with the offset of the case
    that is meant: for [==] the last case with that label, for [=^] and [=$] the
    case with the longest label the string begins, respectively ends, with; and
    with the offset of the [else] branch exactly when there is none. Labels that
    are empty and cases at offset 0 are never found by [=^] and [=$]. *)
Theorem match_dispatch compiles pcre_exec (p : ConstantPool) (def : MatchDef) (m : Match) condition u :
  newMatch p def = Ok m → md_op def ≠ MatchRegExp →
  ∃ kvs pc, labelled p (md_cases def) = Ok kvs ∧
    evaluate compiles pcre_exec m condition u = Ok (pc, u) ∧
    (chooses (md_op def) kvs condition pc ∨
     (∀ v, ¬ chooses (md_op def) kvs condition v) ∧ pc = md_elsePC def).
Proof.
  unfold newMatch. intros Hm Hop.
  destruct (md_op def); try done; apply bind_Ok in Hm as (t & Ht & [= <-]);
    apply fill_foldl in Ht as (kvs & Hk & ->); exists kvs;
    unfold evaluate; cbn [match_table match_def]; eexists; (split; [done|]); (split; [done|]).
  - apply (default_chooses _ (chooses MatchSame kvs condition)). intros v. apply same_map_chooses.
  - apply (default_chooses _ (chooses MatchHead kvs condition)). intros v. apply prefix_lookup_longest.
  - apply (default_chooses _ (chooses MatchTail kvs condition)). intros v. apply suffix_lookup_longest.
Qed.

Definition demo_pool : ConstantPool :=
  fst (makeString (fst (makeString emptyPool (str "/api/"))) (str "/api/v1/")).
Definition demo_match : MatchDef := mkMatchDef 0 MatchHead 9 [mkCase 0 5; mkCase 1 7].

Lemma match_dispatch_witness :
  ∃ m, newMatch demo_pool demo_match = Ok m ∧
       evaluate (λ _, true) (λ _ _, (0, [])) m (str "/api/v1/x") NoUserdata = Ok (7, NoUserdata) ∧
       ∃ kvs, chooses MatchHead kvs (str "/api/v1/x") 7.
Proof.
  destruct (newMatch demo_pool demo_match) as [m|] eqn:Hm; [|discriminate Hm].
  exists m. split; [done|].
  assert (He : evaluate (λ _, true) (λ _ _, (0, [])) m (str "/api/v1/x") NoUserdata = Ok (7, NoUserdata))
    by (injection Hm as <-; vm_compute; reflexivity).
  split; [exact He|].
  destruct (match_dispatch (λ _, true) (λ _ _, (0, [])) demo_pool demo_match m (str "/api/v1/x") NoUserdata Hm)
    as (kvs & pc & _ & Hev & Hch); [discriminate|].
  rewrite He in Hev. injection Hev as <-. destruct Hch as [Hch|[_ Habs]]; [by exists kvs|discriminate Habs].
Defined.
