(* ===== verification/FlowVm.v ===== *)
(** * The Flow virtual machine

    [src/xzero-flow/vm/Runner.h], [Runner.cc], [Params.h], [Handler.cc]. A handler
    is a list of instructions over an array of 64-bit registers; a register holds
    a number or the address of an object. The machine is a function from a
    state to the next state or to a fault. The interpreter modelled is the one
    that decodes every instruction; [ENABLE_FLOW_DIRECT_THREADED_VM] is off. *)
From stdpp Require Import gmap.
From S2P Require Import Prelude Http1Parser Http1Generator NetAddress FlowType FlowInstruction FlowConstants FlowMatch.

(** ** Faults

    What a step may end with instead of a new state. The first four are accesses
    outside of the code, the registers, the objects and the tables. *)
Inductive fault : Type :=
  | BadCode        (* an offset outside of the code, or a byte that is no opcode *)
  | BadRegister    (* an operand beyond the registers of the handler *)
  | BadPointer     (* a register that is not the address of an object of that type *)
  | BadConstant    (* an index outside of a table, an unresolved native function *)
  | Arithmetic     (* signed overflow, division by zero, a shift by 64 or more *)
  | OverRead       (* a read behind the end of a string *)
  | AssertFailed
  | OutOfRange     (* [std::out_of_range], thrown by [vector::at] *)
  | OutOfMemory    (* [std::bad_alloc] *)
  | NativeError.   (* an exception thrown by a native function *)

#[export] Instance fault_eq_dec : EqDecision fault.
Proof. solve_decision. Defined.

Definition vm (A : Type) : Type := fault + A.
#[export] Instance vm_ret : MRet vm := λ A a, inr a.
#[export] Instance vm_bind : MBind vm := λ A B f m, match m with inr a => f a | inl e => inl e end.

Definition vm_opt {A} (e : fault) (o : option A) : vm A := match o with Some a => inr a | None => inl e end.
Definition vm_result {A} (e : fault) (o : result A) : vm A := match o with Ok a => inr a | Raise _ => inl e end.
Definition require (b : bool) (e : fault) : vm unit := if b then inr () else inl e.

(** ** State *)

(** A string is its bytes and what is allocated behind them. *)
Inductive object : Type :=
  | OString (s slack : bytes)
  | OIPAddress (a : IPAddress)
  | OCidr (c : Cidr)
  | ORegExp (r : RegExp)
  | OIntArray (l : list Z)
  | OStringArray (l : list bytes)
  | OIPAddrArray (l : list IPAddress)
  | OCidrArray (l : list Cidr).

Abbreviation heap := (gmap Z object).

Inductive RunState : Type := Inactive | Running | Suspended.

#[export] Instance RunState_eq_dec : EqDecision RunState.
Proof. solve_decision. Defined.

(** [r_heap] has the constants of the program, the strings of [stringGarbage_] and
    whatever the native functions hand out; [r_regexp] is the vector of
    [regexpContext_], if there is one yet; [r_world] is the rest of what native
    functions read and change. *)
Record Runner (W : Type) := mkRunner {
  r_state : RunState;
  r_pc : Z;
  r_data : list Z;
  r_heap : heap;
  r_regexp : option (list Group);
  r_userdata : Userdata;
  r_world : W }.
Arguments mkRunner {W}.
Arguments r_state {W}.
Arguments r_pc {W}.
Arguments r_data {W}.
Arguments r_heap {W}.
Arguments r_regexp {W}.
Arguments r_userdata {W}.
Arguments r_world {W}.

Section Setters.
Context {W : Type}.
Implicit Types r : Runner W.
Definition with_run_state r st := mkRunner st (r_pc r) (r_data r) (r_heap r) (r_regexp r) (r_userdata r) (r_world r).
Definition with_pc r pc := mkRunner (r_state r) pc (r_data r) (r_heap r) (r_regexp r) (r_userdata r) (r_world r).
Definition with_data r d := mkRunner (r_state r) (r_pc r) d (r_heap r) (r_regexp r) (r_userdata r) (r_world r).
Definition with_heap r h := mkRunner (r_state r) (r_pc r) (r_data r) h (r_regexp r) (r_userdata r) (r_world r).
Definition with_regexp r g := mkRunner (r_state r) (r_pc r) (r_data r) (r_heap r) g (r_userdata r) (r_world r).
Definition with_userdata r u := mkRunner (r_state r) (r_pc r) (r_data r) (r_heap r) (r_regexp r) u (r_world r).

(** [data_[R]], read and written. *)
Definition reg_get r (R : Z) : vm Z := vm_opt BadRegister (r_data r !! Z.to_nat R).
Definition reg_set r (R v : Z) : vm (Runner W) :=
  match r_data r !! Z.to_nat R with
  | Some _ => inr (with_data r (<[Z.to_nat R := v]> (r_data r)))
  | None => inl BadRegister
  end.

(** [toNumber], [toString], [toIPAddress], [toCidr], [toRegExp]. *)
Definition toNumber r R : vm Z := v ← reg_get r R; mret (s64 v).
Definition toStringObj r R : vm (bytes * bytes) :=
  v ← reg_get r R; match r_heap r !! v with Some (OString s t) => inr (s, t) | _ => inl BadPointer end.
Definition toString r R : vm bytes := s ← toStringObj r R; mret (fst s).
Definition toIPAddress r R : vm IPAddress :=
  v ← reg_get r R; match r_heap r !! v with Some (OIPAddress a) => inr a | _ => inl BadPointer end.
Definition toCidr r R : vm Cidr :=
  v ← reg_get r R; match r_heap r !! v with Some (OCidr c) => inr c | _ => inl BadPointer end.
Definition toRegExp r R : vm RegExp :=
  v ← reg_get r R; match r_heap r !! v with Some (ORegExp e) => inr e | _ => inl BadPointer end.
End Setters.

(** ** Arithmetic on [int64_t] *)

(** A result that does not fit is undefined. *)
Definition arith (z : Z) : vm Z :=
  if (- 2 ^ 63 <=? z) && (z <? 2 ^ 63) then inr (u64 z) else inl Arithmetic.
Definition divide (b c : Z) : vm Z := if c =? 0 then inl Arithmetic else arith (Z.quot b c).
Definition remainder (b c : Z) : vm Z :=
  if c =? 0 then inl Arithmetic else if (b =? - 2 ^ 63) && (c =? -1) then inl Arithmetic else arith (Z.rem b c).
(** A left shift wants a non-negative operand and a result that fits the unsigned
    type; a right shift of a negative number is arithmetic. *)
Definition shift_left (b c : Z) : vm Z :=
  if (0 <=? c) && (c <? 64) && (0 <=? b) && (b * 2 ^ c <? 2 ^ 64) then inr (b * 2 ^ c) else inl Arithmetic.
Definition shift_right (b c : Z) : vm Z :=
  if (0 <=? c) && (c <? 64) then inr (u64 (Z.shiftr b c)) else inl Arithmetic.
Definition bit (b : bool) : Z := if b then 1 else 0.

(** ** Strings *)

(** [BufferBase::find(const BufferRef&)]. The inner loop compares before it tests
    for the end, so it reads the byte behind both strings. *)
Fixpoint scan (fuel : nat) (hay needle : bytes) (p q qe : nat) : vm nat :=
  match fuel with
  | O => inl OverRead
  | S fuel =>
      x ← vm_opt OverRead (hay !! p);
      y ← vm_opt OverRead (needle !! q);
      if (x =? y) && negb (p =? qe)%nat then scan fuel hay needle (S p) (S q) qe else mret p
  end.

(** [n] positions are left before the end of the haystack. *)
Fixpoint find_from (n : nat) (hay needle : bytes) (i len : nat) : vm (option nat) :=
  match n with
  | O => mret None
  | S n =>
      x ← vm_opt OverRead (hay !! i);
      y ← vm_opt OverRead (needle !! 0%nat);
      if x =? y then
        p ← scan (S (length hay)) hay needle (S i) 1 (i + len);
        if (p =? i + len)%nat then mret (Some i) else find_from n hay needle (S i) len
      else find_from n hay needle (S i) len
  end.

Fixpoint memchr (s : bytes) (i : nat) (c : Z) : option nat :=
  match s with [] => None | x :: s => if x =? c then Some i else memchr s (S i) c end.

(** [const int value_length = buf.size()]. *)
Definition find (hay needle : bytes * bytes) : vm (option nat) :=
  let len := s32 (Z.of_nat (length (fst needle))) in
  if len =? 1 then
    c ← vm_opt AssertFailed (fst needle !! 0%nat); mret (memchr (fst hay) 0 c)
  else if Z.of_nat (length (fst hay)) <? u64 len then mret None
  else find_from (length (fst hay)) (fst hay ++ snd hay) (fst needle ++ snd needle) 0 (Z.to_nat len).

Definition beginsWith (data prefix : bytes) : bool :=
  if (length data <? length prefix)%nat then false else bool_decide (take (length prefix) data = prefix).
Definition endsWith (data suffix : bytes) : bool :=
  if (length data <? length suffix)%nat then false
  else bool_decide (drop (length data - length suffix) data = suffix).

(** [substr]: the assertion adds in [size_t]. *)
Definition substr (s : bytes) (offset count : Z) : vm bytes :=
  _ ← require (u64 (offset + count) <=? Z.of_nat (length s)) AssertFailed;
  if count =? 0 then mret []
  else _ ← require (offset + count <=? Z.of_nat (length s)) OverRead;
       mret (take (Z.to_nat count) (drop (Z.to_nat offset) s)).

(** [BufferRef] has no ordering of its own: [<=], [>=], [<] and [>] go through
    its conversion to [bool], which says whether it is non-empty. *)
Definition nonempty (s : bytes) : Z := match s with [] => 0 | _ => 1 end.

(** [%ld]. *)
Definition signed_decimal (n : Z) : bytes := if n <? 0 then str "-" ++ decimal (- n) else decimal n.

(** The bytes a sub-match points to. *)
Definition group_text (g : Group) : vm bytes :=
  if g_length g =? 0 then mret []
  else _ ← require ((0 <=? g_offset g) && (g_offset g + g_length g <=? Z.of_nat (length (g_subject g)))) OverRead;
       mret (take (Z.to_nat (g_length g)) (drop (Z.to_nat (g_offset g)) (g_subject g))).

(** ** The machine *)

(** Where the constants of the program are in memory. *)
Record Layout := mkLayout {
  at_string : Z → Z; at_ipaddr : Z → Z; at_cidr : Z → Z;
  at_intArray : Z → Z; at_stringArray : Z → Z; at_ipaddrArray : Z → Z; at_cidrArray : Z → Z }.

(** What the machine runs on: the handler's code, the linked program and its
    surroundings. A native function gets the number of arguments, the register of
    its result (the arguments follow it) and the runner, as [Params] has them.
    [malloc] gives the address of a new string object and the byte allocated
    behind its text, or nothing; [powl] the value of the power as a [Register],
    if it is one. *)
Record Machine (W : Type) := mkMachine {
  m_code : list Z;
  m_pool : ConstantPool;
  m_layout : Layout;
  m_matches : list Match;
  m_functions : list (option (Z → Z → Runner W → vm (Runner W)));
  m_handlers : list (option (Z → Z → Runner W → vm (Runner W)));
  m_malloc : heap → option (Z * Z);
  m_powl : Z → Z → option Z;
  m_compiles : bytes → bool;
  m_pcre_exec : bytes → bytes → Z * list Z;
  m_inet_ntop : Z → bytes → bytes }.
Arguments m_code {W}.
Arguments m_pool {W}.
Arguments m_layout {W}.
Arguments m_matches {W}.
Arguments m_functions {W}.
Arguments m_handlers {W}.
Arguments m_malloc {W}.
Arguments m_powl {W}.
Arguments m_compiles {W}.
Arguments m_pcre_exec {W}.
Arguments m_inet_ntop {W}.

(** A step goes on at an offset or returns from the loop. *)
Inductive outcome : Type := Goto (pc : Z) | Return (b : bool).

Section Machine.
Context {W : Type} (m : Machine W).
Implicit Types r : Runner W.

(** [newString]: the new object and the runner that owns it. *)
Definition newString r (s : bytes) : vm (Runner W * Z) :=
  match m_malloc m (r_heap r) with
  | None => inl OutOfMemory
  | Some (p, b) => inr (with_heap r (<[p := OString s [b]]> (r_heap r)), p)
  end.
Definition set_string r A s : vm (Runner W) := '(r, p) ← newString r s; reg_set r A p.

(** [&table[B]], stored as a number. *)
Definition set_address {T} r (A B : Z) (table : list T) (at_ : Z → Z) : vm (Runner W) :=
  match table !! Z.to_nat B with Some _ => reg_set r A (at_ B) | None => inl BadConstant end.

(** Instructions on two numbers: registers, or a register and an immediate. *)
Definition numeric (o : Opcode) (b c : Z) : vm Z :=
  match o with
  | NADD | NIADD => arith (b + c) | NSUB | NISUB => arith (b - c) | NMUL | NIMUL => arith (b * c)
  | NDIV | NIDIV => divide b c | NREM | NIREM => remainder b c
  | NSHL | NISHL => shift_left b c | NSHR | NISHR => shift_right b c
  | NPOW | NIPOW => vm_opt Arithmetic (m_powl m b c)
  | NAND | NIAND => mret (u64 (Z.land b c)) | NOR | NIOR => mret (u64 (Z.lor b c))
  | NXOR | NIXOR | BXOR => mret (u64 (Z.lxor b c))
  | NCMPEQ | NICMPEQ => mret (bit (b =? c)) | NCMPNE | NICMPNE => mret (bit (negb (b =? c)))
  | NCMPLE | NICMPLE => mret (bit (b <=? c)) | NCMPGE | NICMPGE => mret (bit (c <=? b))
  | NCMPLT | NICMPLT => mret (bit (b <? c)) | NCMPGT | NICMPGT => mret (bit (c <? b))
  | BAND => mret (bit (negb (b =? 0) && negb (c =? 0)))
  | BOR => mret (bit (negb (b =? 0) || negb (c =? 0)))
  | _ => inl BadCode
  end.

(** Instructions on one number. *)
Definition numeric1 (o : Opcode) (b : Z) : vm Z :=
  match o with
  | NNEG => arith (- b) | NNOT => mret (u64 (Z.lnot b)) | NCMPZ => mret (bit (b =? 0))
  | BNOT => mret (bit (b =? 0))
  | _ => inl BadCode
  end.

(** Comparisons of two strings. *)
Definition string_compare (o : Opcode) (b c : bytes) : bool :=
  match o with
  | SCMPEQ => bool_decide (b = c) | SCMPNE => negb (bool_decide (b = c))
  | SCMPLE => nonempty b <=? nonempty c | SCMPGE => nonempty c <=? nonempty b
  | SCMPLT => nonempty b <? nonempty c | SCMPGT => nonempty c <? nonempty b
  | SCMPBEG => beginsWith b c | SCMPEND => endsWith b c
  | _ => false
  end.

(** [invoke] of a native function or handler; a null pointer is a symbol that
    the linker did not resolve. *)
Definition invoke (table : list (option (Z → Z → Runner W → vm (Runner W)))) (id argc base : Z) r : vm (Runner W) :=
  match table !! Z.to_nat id with Some (Some f) => f argc base r | _ => inl BadConstant end.

(** One instruction, at the offset [pc]. *)
Definition exec (i pc : Z) r : vm (Runner W * outcome) :=
  let A := operandA i in let B := operandB i in let C := operandC i in
  let next r := inr (r, Goto (pc + 1)) in
  match opcode i with
  | None => inl BadCode
  | Some o =>
    match o with
    | NOP => next r
    | EXIT => inr (with_run_state r Inactive, Return (negb (A =? 0)))
    | JMP => inr (r, Goto A)
    | JN => a ← reg_get r A; if negb (a =? 0) then inr (r, Goto B) else next r
    | JZ => a ← reg_get r A; if a =? 0 then inr (r, Goto B) else next r
    | MOV => b ← reg_get r B; r ← reg_set r A b; next r
    | ITCONST => r ← set_address r A B (cp_intArrays (m_pool m)) (at_intArray (m_layout m)); next r
    | STCONST => r ← set_address r A B (cp_stringArrays (m_pool m)) (at_stringArray (m_layout m)); next r
    | PTCONST => r ← set_address r A B (cp_ipaddrArrays (m_pool m)) (at_ipaddrArray (m_layout m)); next r
    | CTCONST => r ← set_address r A B (cp_cidrArrays (m_pool m)) (at_cidrArray (m_layout m)); next r
    | IMOV => r ← reg_set r A B; next r
    | NCONST => n ← vm_opt BadConstant (cp_numbers (m_pool m) !! Z.to_nat B); r ← reg_set r A (u64 n); next r
    | NNEG | NNOT | NCMPZ | BNOT => b ← toNumber r B; v ← numeric1 o b; r ← reg_set r A v; next r
    | NADD | NSUB | NMUL | NDIV | NREM | NSHL | NSHR | NPOW | NAND | NOR | NXOR
    | NCMPEQ | NCMPNE | NCMPLE | NCMPGE | NCMPLT | NCMPGT | BAND | BOR | BXOR =>
        b ← toNumber r B; c ← toNumber r C; v ← numeric o b c; r ← reg_set r A v; next r
    | NIADD | NISUB | NIMUL | NIDIV | NIREM | NISHL | NISHR | NIPOW | NIAND | NIOR | NIXOR
    | NICMPEQ | NICMPNE | NICMPLE | NICMPGE | NICMPLT | NICMPGT =>
        b ← toNumber r B; v ← numeric o b C; r ← reg_set r A v; next r
    | SCONST => r ← set_address r A B (cp_strings (m_pool m)) (at_string (m_layout m)); next r
    | SADD => b ← toString r B; c ← toString r C; r ← set_string r A (b ++ c); next r
    | SSUBSTR =>
        b ← toString r B; offset ← reg_get r C; count ← reg_get r (C + 1);
        s ← substr b offset count; r ← set_string r A s; next r
    | SADDMULTI | SURLENC | SURLDEC => next r
    | SCMPEQ | SCMPNE | SCMPLE | SCMPGE | SCMPLT | SCMPGT | SCMPBEG | SCMPEND =>
        b ← toString r B; c ← toString r C; r ← reg_set r A (bit (string_compare o b c)); next r
    | SCONTAINS =>
        b ← toStringObj r B; c ← toStringObj r C; f ← find c b;
        r ← reg_set r A (bit (bool_decide (is_Some f))); next r
    | SLEN => b ← toString r B; r ← reg_set r A (u64 (Z.of_nat (length b))); next r
    | SISEMPTY => b ← toString r B; r ← reg_set r A (bit (nonempty b =? 0)); next r
    | SMATCHEQ | SMATCHBEG | SMATCHEND | SMATCHR =>
        a ← toString r A; t ← vm_opt BadConstant (m_matches m !! Z.to_nat B);
        '(result, u) ← vm_result BadPointer (evaluate (m_compiles m) (m_pcre_exec m) t a (r_userdata r));
        inr (with_userdata r u, Goto result)
    | PCONST => r ← set_address r A B (cp_ipaddrs (m_pool m)) (at_ipaddr (m_layout m)); next r
    | PCMPEQ | PCMPNE =>
        x ← reg_get r B; y ← reg_get r C; b ← toIPAddress r B; c ← toIPAddress r C;
        let same := ip_equals (x =? y) b c in
        r ← reg_set r A (bit (match o with PCMPEQ => same | _ => negb same end)); next r
    | PINCIDR =>
        b ← toIPAddress r B; c ← toCidr r C; v ← vm_result Arithmetic (cidr_contains c b);
        r ← reg_set r A (bit v); next r
    | CCONST => r ← set_address r A B (cp_cidrs (m_pool m)) (at_cidr (m_layout m)); next r
    | SREGMATCH =>
        e ← vm_opt BadConstant (cp_regularExpressions (m_pool m) !! Z.to_nat C); b ← toString r B;
        let '(v, rs) := re_match (m_compiles m) (m_pcre_exec m) e b (Some (default [] (r_regexp r))) in
        r ← reg_set (with_regexp r rs) A (bit v); next r
    | SREGGROUP =>
        position ← toNumber r B;
        let rr := default [] (r_regexp r) in
        g ← vm_opt OutOfRange (if u64 position <? Z.of_nat (length rr) then rr !! Z.to_nat (u64 position) else None);
        s ← group_text g; r ← set_string (with_regexp r (Some rr)) A s; next r
    | I2S => b ← reg_get r B; r ← set_string r A (signed_decimal (s64 b)); next r
    | P2S => b ← toIPAddress r B; r ← set_string r A (ip_str (m_inet_ntop m) b); next r
    | C2S => b ← toCidr r B; r ← set_string r A (cidr_str (m_inet_ntop m) decimal b); next r
    | R2S => b ← toRegExp r B; r ← set_string r A (re_pattern b); next r
    | S2I => b ← toString r B; v ← vm_result Arithmetic (toInt b); r ← reg_set r A (u64 v); next r
    | CALL =>
        r ← invoke (m_functions m) A B C (with_pc r (pc + 1));
        match r_state r with
        | Suspended => inr (r, Return false)
        | _ => inr (r, Goto (r_pc r))
        end
    | HANDLER =>
        r ← invoke (m_handlers m) A B C (with_pc r (pc + 1));
        handled ← reg_get r C;
        match r_state r with
        | Suspended => inr (r, Return false)
        | _ => if negb (handled =? 0) then inr (with_run_state r Inactive, Return true)
               else inr (r, Goto (r_pc r))
        end
    end
  end.

(** The instruction at an offset of the code. *)
Definition fetch (pc : Z) : vm Z :=
  if 0 <=? pc then vm_opt BadCode (m_code m !! Z.to_nat pc) else inl BadCode.
Definition step (pc : Z) r : vm (Runner W * outcome) := i ← fetch pc; exec i pc r.

(** The interpreter; [None] when the fuel ends before the loop does. *)
Fixpoint interpret (fuel : nat) (pc : Z) r : option (vm (Runner W * bool)) :=
  match fuel with
  | O => None
  | S fuel =>
      match step pc r with
      | inl e => Some (inl e)
      | inr (r, Return b) => Some (inr (r, b))
      | inr (r, Goto pc) => interpret fuel pc r
      end
  end.

Definition loop (fuel : nat) r : option (vm (Runner W * bool)) := interpret fuel (r_pc r) (with_run_state r Running).

Definition run (fuel : nat) r : option (vm (Runner W * bool)) :=
  if decide (r_state r = Inactive) then loop fuel r else Some (inl AssertFailed).
Definition resume (fuel : nat) r : option (vm (Runner W * bool)) :=
  if decide (r_state r = Suspended) then loop fuel r else Some (inl AssertFailed).
Definition suspend r : vm (Runner W) :=
  if decide (r_state r = Running) then inr (with_run_state r Suspended) else inl AssertFailed.
Definition rewind r : Runner W := with_pc r 0.

(** [Runner::create]: the registers of the handler, all zero, and the empty
    string. [h] is the memory with the constants. *)
Definition create (h : heap) (u : Userdata) (w : W) : vm (Runner W) :=
  let r := mkRunner Inactive 0 (replicate (Z.to_nat (computeRegisterCount (m_code m))) 0) h None u w in
  '(r, _) ← newString r []; mret r.

(** [Handler::run]. *)
Definition handler_run (fuel : nat) (h : heap) (u : Userdata) (w : W) : option (vm (Runner W * bool)) :=
  match create h u w with inl e => Some (inl e) | inr r => run fuel r end.
End Machine.
