(* ===== verification/FlowSafety.v ===== *)
(** * Type safety of the Flow virtual machine

    Nothing in [Runner::loop] checks an operand, an index or a pointer: the
    machine relies on the code it is given. This file states what it relies on,
    as a check of the code against a type for every register at every offset, and
    shows that checked code never leaves its code, registers, objects and tables,
    whatever its input and wherever it is suspended and resumed. The types of the
    results are those of [resultType]. *)
From stdpp Require Import gmap.
From S2P Require Import Prelude Http1Parser Http1Generator NetAddress FlowType FlowInstruction FlowConstants FlowMatch FlowVm.

(** ** Values *)

(** Types whose values are plain numbers. *)
Definition plain (t : FlowType) : bool :=
  match t with TVoid | TBoolean | TNumber | THandler => true | _ => false end.

Definition object_ok (t : FlowType) (o : object) : Prop :=
  match t, o with
  | TString, OString _ _ | TIPAddress, OIPAddress _ | TCidr, OCidr _ | TRegExp, ORegExp _
  | TIntArray, OIntArray _ | TStringArray, OStringArray _ | TIPAddrArray, OIPAddrArray _
  | TCidrArray, OCidrArray _ => True
  | _, _ => False
  end.

Definition value_ok (h : heap) (t : FlowType) (v : Z) : Prop :=
  fits 64 v ∧ (plain t = true ∨ ∃ o, h !! v = Some o ∧ object_ok t o).

(** A value of type [t] may be used where [t'] is wanted. *)
Definition usable (t t' : FlowType) : bool := plain t' || bool_decide (t = t').

Lemma value_ok_usable h t t' v : usable t t' = true → value_ok h t v → value_ok h t' v.
Proof.
  unfold usable. intros [Hp|Ht]%orb_true_iff [Hf Hv]; split; try done; [by left|].
  by apply bool_decide_eq_true in Ht as <-.
Qed.

Lemma value_ok_mono h h' t v : h ⊆ h' → value_ok h t v → value_ok h' t v.
Proof.
  intros Hh [Hf [Hp|(o & Ho & Hok)]]; split; try done; [by left|]. right. exists o. split; [|done].
  by eapply lookup_weaken.
Qed.

Lemma value_ok_plain h t v : plain t = true → fits 64 v → value_ok h t v.
Proof. split; [done|by left]. Qed.

(** ** Faults that are accesses outside of something

    [over] says whether a read behind the end of a string is put up with. *)
Definition memory_fault (over : bool) (e : fault) : bool :=
  match e with
  | BadCode | BadRegister | BadPointer | BadConstant => true
  | OverRead => negb over
  | _ => false
  end.

Definition safe (over : bool) {A} (c : vm A) (P : A → Prop) : Prop :=
  match c with inr a => P a | inl e => memory_fault over e = false end.

Lemma safe_bind {over A B} (c : vm A) (f : A → vm B) (P : A → Prop) (Q : B → Prop) :
  safe over c P → (∀ a, P a → safe over (f a) Q) → safe over (c ≫= f) Q.
Proof. destruct c as [e|a]; cbn; auto. Qed.

Lemma safe_mono {over A} (c : vm A) (P Q : A → Prop) : safe over c P → (∀ a, P a → Q a) → safe over c Q.
Proof. destruct c; cbn; auto. Qed.

Lemma safe_over {over A} (c : vm A) (P : A → Prop) : safe false c P → safe over c P.
Proof. destruct c as [e|a]; [|done]. by destruct e. Qed.

(** The two instructions that may read behind the strings they are given:
    [BufferBase::find] compares before it tests for the end, [substr] tests a sum
    that may have wrapped around. *)
Definition reads_behind (o : Opcode) : bool := match o with SCONTAINS | SSUBSTR => true | _ => false end.
Definition over_reads (code : list Z) : bool :=
  existsb (λ i, match opcode i with Some o => reads_behind o | None => false end) code.

(** ** Typed states *)

Record pool_in {T} (h : heap) (table : list T) (at_ : Z → Z) (t : FlowType) : Prop := {
  pool_at : ∀ i, is_Some (table !! Z.to_nat i) → value_ok h t (at_ i) }.

(** The constants are where the layout says. *)
Record constants_in {W} (m : Machine W) (h : heap) : Prop := {
  in_strings : pool_in h (cp_strings (m_pool m)) (at_string (m_layout m)) TString;
  in_ipaddrs : pool_in h (cp_ipaddrs (m_pool m)) (at_ipaddr (m_layout m)) TIPAddress;
  in_cidrs : pool_in h (cp_cidrs (m_pool m)) (at_cidr (m_layout m)) TCidr;
  in_intArrays : pool_in h (cp_intArrays (m_pool m)) (at_intArray (m_layout m)) TIntArray;
  in_stringArrays : pool_in h (cp_stringArrays (m_pool m)) (at_stringArray (m_layout m)) TStringArray;
  in_ipaddrArrays : pool_in h (cp_ipaddrArrays (m_pool m)) (at_ipaddrArray (m_layout m)) TIPAddrArray;
  in_cidrArrays : pool_in h (cp_cidrArrays (m_pool m)) (at_cidrArray (m_layout m)) TCidrArray }.

Lemma constants_in_mono {W} (m : Machine W) h h' : h ⊆ h' → constants_in m h → constants_in m h'.
Proof.
  intros Hh [[] [] [] [] [] [] []]. split; split; intros i Hi; eapply value_ok_mono; eauto.
Qed.

(** The userdata is a [RegExpContext] or null. *)
Definition regex_userdata (u : Userdata) : bool := match u with OtherUserdata => false | _ => true end.

(** A group of the last match is empty or lies in the text it was found in. *)
Definition group_ok (g : Group) : Prop :=
  g_length g = 0 ∨ 0 ≤ g_offset g ∧ g_offset g + g_length g ≤ Z.of_nat (length (g_subject g)).

Record typed {W} (m : Machine W) (Γ : list FlowType) (r : Runner W) : Prop := {
  typed_data : Forall2 (value_ok (r_heap r)) Γ (r_data r);
  typed_constants : constants_in m (r_heap r);
  typed_userdata : regex_userdata (r_userdata r) = true;
  typed_groups : Forall group_ok (default [] (r_regexp r)) }.

(** ** The check *)

(** The registers an instruction reads and the type it wants them to have. *)
Definition uses (o : Opcode) (A B C : Z) : list (Z * FlowType) :=
  match o with
  | NOP | EXIT | JMP | SADDMULTI | SURLENC | SURLDEC | IMOV | NCONST | SCONST | PCONST | CCONST
  | ITCONST | STCONST | PTCONST | CTCONST | CALL | HANDLER => []
  | JN | JZ => [(A, TVoid)]
  | MOV | NNEG | NNOT | NCMPZ | BNOT | SREGGROUP | I2S => [(B, TVoid)]
  | NIADD | NISUB | NIMUL | NIDIV | NIREM | NISHL | NISHR | NIPOW | NIAND | NIOR | NIXOR
  | NICMPEQ | NICMPNE | NICMPLE | NICMPGE | NICMPLT | NICMPGT => [(B, TVoid)]
  | NADD | NSUB | NMUL | NDIV | NREM | NSHL | NSHR | NPOW | NAND | NOR | NXOR
  | NCMPEQ | NCMPNE | NCMPLE | NCMPGE | NCMPLT | NCMPGT | BAND | BOR | BXOR => [(B, TVoid); (C, TVoid)]
  | SADD | SCMPEQ | SCMPNE | SCMPLE | SCMPGE | SCMPLT | SCMPGT | SCMPBEG | SCMPEND | SCONTAINS =>
      [(B, TString); (C, TString)]
  | SSUBSTR => [(B, TString); (C, TVoid); (C + 1, TVoid)]
  | SLEN | SISEMPTY | S2I | SREGMATCH => [(B, TString)]
  | SMATCHEQ | SMATCHBEG | SMATCHEND | SMATCHR => [(A, TString)]
  | PCMPEQ | PCMPNE => [(B, TIPAddress); (C, TIPAddress)]
  | PINCIDR => [(B, TIPAddress); (C, TCidr)]
  | P2S => [(B, TIPAddress)]
  | C2S => [(B, TCidr)]
  | R2S => [(B, TRegExp)]
  end.

Section Check.
Context {W : Type} (m : Machine W).
(** The signatures of the native functions and handlers, and the types of the
    registers at every offset. *)
Context (functions handlers : list Signature) (types : list (list FlowType)).

Definition in_table {T} (table : list T) (i : Z) : bool := bool_decide (Z.to_nat i < length table)%nat.

(** The indices an instruction has into the tables of the program. *)
Definition indices_ok (o : Opcode) (A B C : Z) : bool :=
  match o with
  | ITCONST => in_table (cp_intArrays (m_pool m)) B
  | STCONST => in_table (cp_stringArrays (m_pool m)) B
  | PTCONST => in_table (cp_ipaddrArrays (m_pool m)) B
  | CTCONST => in_table (cp_cidrArrays (m_pool m)) B
  | NCONST => in_table (cp_numbers (m_pool m)) B
  | SCONST => in_table (cp_strings (m_pool m)) B
  | PCONST => in_table (cp_ipaddrs (m_pool m)) B
  | CCONST => in_table (cp_cidrs (m_pool m)) B
  | SREGMATCH => in_table (cp_regularExpressions (m_pool m)) C
  | SMATCHEQ | SMATCHBEG | SMATCHEND | SMATCHR => in_table (m_matches m) B
  | _ => true
  end.

(** The register an instruction writes and the type it gives it. The three
    instructions without a body write nothing, whatever [resultType] says. *)
Definition defines (Γ : list FlowType) (o : Opcode) (A B C : Z) : option (Z * FlowType) :=
  match o with
  | SADDMULTI | SURLENC | SURLDEC => None
  | MOV => Some (A, default TVoid (Γ !! Z.to_nat B))
  | CALL => Some (C, match functions !! Z.to_nat A with Some s => sig_returnType s | None => TVoid end)
  | HANDLER => Some (C, TVoid)
  | o => match resultType o with TVoid => None | t => Some (A, t) end
  end.

(** The offsets an instruction may go on at. A native function may rewind. *)
Definition next_pcs (o : Opcode) (A B : Z) (pc : Z) : list Z :=
  match o with
  | EXIT => []
  | JMP => [A]
  | JN | JZ => [B; pc + 1]
  | SMATCHEQ | SMATCHBEG | SMATCHEND | SMATCHR =>
      match m_matches m !! Z.to_nat B with
      | Some t => md_elsePC (match_def t) :: (case_pc <$> md_cases (match_def t))
      | None => []
      end
  | CALL | HANDLER => [pc + 1; 0]
  | _ => [pc + 1]
  end.

Definition reads_ok (Γ : list FlowType) (us : list (Z * FlowType)) : bool :=
  forallb (λ u, match Γ !! Z.to_nat (fst u) with Some t => usable t (snd u) | None => false end) us.

(** A call: the arguments follow the result. *)
Definition arguments (sigs : list Signature) (A C : Z) : option (list (Z * FlowType)) :=
  match sigs !! Z.to_nat A with
  | Some s => Some (imap (λ k t, (C + 1 + Z.of_nat k, t)) (sig_args s))
  | None => None
  end.
Definition call_ok (Γ : list FlowType) (sigs : list Signature) (A B C : Z) : bool :=
  match arguments sigs A C with
  | Some us => reads_ok Γ us && (B =? 1 + Z.of_nat (length us))
  | None => false
  end.

Fixpoint env_le (Γ Γ' : list FlowType) : bool :=
  match Γ, Γ' with
  | [], [] => true
  | t :: Γ, t' :: Γ' => usable t t' && env_le Γ Γ'
  | _, _ => false
  end.

Definition goes_to (Γ : list FlowType) (pc : Z) : bool :=
  (0 <=? pc) && match types !! Z.to_nat pc with Some Γ' => env_le Γ Γ' | None => false end.

Definition check (Γ : list FlowType) (pc i : Z) : bool :=
  let A := operandA i in let B := operandB i in let C := operandC i in
  match opcode i with
  | None => false
  | Some o =>
      reads_ok Γ (uses o A B C) && indices_ok o A B C &&
      match o with
      | CALL => call_ok Γ functions A B C
      | HANDLER => call_ok Γ handlers A B C
      | _ => true
      end &&
      match defines Γ o A B C with
      | Some (R, t) => bool_decide (Z.to_nat R < length Γ)%nat &&
                       forallb (goes_to (<[Z.to_nat R := t]> Γ)) (next_pcs o A B pc)
      | None => forallb (goes_to Γ) (next_pcs o A B pc)
      end
  end.

Fixpoint check_from (pc : Z) (code : list Z) (ts : list (list FlowType)) : bool :=
  match code, ts with
  | [], [] => true
  | i :: code, Γ :: ts => check Γ pc i && check_from (pc + 1) code ts
  | _, _ => false
  end.

(** The registers are zero at the start: at offset 0 none of them is used as an
    address, and their number is the one [computeRegisterCount] finds. *)
Definition check_code : bool :=
  check_from 0 (m_code m) types &&
  match types with
  | Γ :: _ => forallb plain Γ && (Z.of_nat (length Γ) =? computeRegisterCount (m_code m))
  | [] => false
  end.
End Check.

(** ** What the surroundings promise *)

(** A native function with signature [s] gets a typed runner with the arguments
    in place; it may fail, allocate, change its own state, suspend and rewind; it
    writes one register, with a value of its return type, and reads behind no
    string. *)
Definition native_ok {W} (m : Machine W) (ret : FlowType) (args : list FlowType)
    (f : Z → Z → Runner W → vm (Runner W)) : Prop :=
  ∀ Γ argc base r,
    typed m Γ r → r_state r = Running → (Z.to_nat base < length Γ)%nat → 0 ≤ base →
    argc = 1 + Z.of_nat (length args) →
    reads_ok Γ (imap (λ k t, (base + 1 + Z.of_nat k, t)) args) = true →
    safe false (f argc base r) (λ r',
      r_heap r ⊆ r_heap r' ∧
      (∃ v, r_data r' = <[Z.to_nat base := v]> (r_data r) ∧ value_ok (r_heap r') ret v) ∧
      regex_userdata (r_userdata r') = true ∧
      Forall group_ok (default [] (r_regexp r')) ∧
      (r_pc r' = r_pc r ∨ r_pc r' = 0) ∧
      (r_state r' = Running ∨ r_state r' = Suspended)).

(** The offsets that [pcre_exec] reports lie in the subject; a group that took no
    part in the match has -1 twice. *)
Definition pcre_in_range (pcre_exec : bytes → bytes → Z * list Z) : Prop :=
  ∀ p s rc ov k, pcre_exec p s = (rc, ov) → (k < Z.to_nat rc)%nat →
    ∃ a b, ov !! (2 * k)%nat = Some a ∧ ov !! S (2 * k) = Some b ∧
           (a = -1 ∧ b = -1 ∨ 0 ≤ a ≤ b ∧ b ≤ Z.of_nat (length s)).

Record environment_ok {W} (m : Machine W) (functions handlers : list Signature) : Prop := {
  malloc_fresh : ∀ h p b, m_malloc m h = Some (p, b) → h !! p = None ∧ fits 64 p;
  powl_fits : ∀ b c v, m_powl m b c = Some v → fits 64 v;
  pcre_ranges : pcre_in_range (m_pcre_exec m);
  matches_linked : Forall2 (λ def t, newMatch (m_pool m) def = Ok t) (cp_matchDefs (m_pool m)) (m_matches m);
  functions_ok : ∀ i s, functions !! i = Some s →
    ∃ f, m_functions m !! i = Some (Some f) ∧ native_ok m (sig_returnType s) (sig_args s) f;
  handlers_ok : ∀ i s, handlers !! i = Some s →
    ∃ f, m_handlers m !! i = Some (Some f) ∧ native_ok m TBoolean (sig_args s) f }.

Section Sound.
Context {W : Type} (m : Machine W) (functions handlers : list Signature) (types : list (list FlowType)).
Context (Henv : environment_ok m functions handlers) {over : bool}.
Implicit Types r : Runner W.

(** *** Reading and writing registers *)

Lemma reads_ok_cons Γ R t us :
  reads_ok Γ ((R, t) :: us) = true →
  (∃ t', Γ !! Z.to_nat R = Some t' ∧ usable t' t = true) ∧ reads_ok Γ us = true.
Proof.
  cbn. intros [H1 H2]%andb_true_iff. split; [|done].
  destruct (Γ !! Z.to_nat R) as [t'|]; [by exists t'|done].
Qed.

Lemma reg_get_safe Γ r R t :
  typed m Γ r → (∃ t', Γ !! Z.to_nat R = Some t' ∧ usable t' t = true) →
  safe over (reg_get r R) (value_ok (r_heap r) t).
Proof.
  intros [Hd _ _ _] (t' & Ht & Hu). unfold reg_get.
  destruct (Forall2_lookup_l _ _ _ _ _ Hd Ht) as (v & Hv & Hok). rewrite Hv. cbn.
  by eapply value_ok_usable.
Qed.

Lemma toNumber_safe Γ r R :
  typed m Γ r → (∃ t', Γ !! Z.to_nat R = Some t' ∧ usable t' TVoid = true) →
  safe over (toNumber r R) (λ n, True).
Proof. intros H1 H2. eapply safe_bind; [by eapply reg_get_safe|]. done. Qed.

Lemma pointer_safe Γ r R t (A : Type) (f : object → option A) :
  typed m Γ r → (∃ t', Γ !! Z.to_nat R = Some t' ∧ usable t' t = true) → plain t = false →
  (∀ o, object_ok t o → is_Some (f o)) →
  safe over (v ← reg_get r R; match r_heap r !! v with Some o => vm_opt BadPointer (f o) | None => inl BadPointer end)
    (λ _, True).
Proof.
  intros H1 H2 Hp Hf. eapply safe_bind; [by eapply reg_get_safe|]. intros v [_ [Hv|(o & Ho & Hok)]]; [congruence|].
  rewrite Ho. destruct (Hf o Hok) as [a ->]. done.
Qed.

Lemma toStringObj_safe Γ r R :
  typed m Γ r → (∃ t', Γ !! Z.to_nat R = Some t' ∧ usable t' TString = true) →
  safe over (toStringObj r R) (λ _, True).
Proof.
  intros H1 H2. eapply safe_bind; [by eapply reg_get_safe|]. intros v [_ [Hv|(o & Ho & Hok)]]; [done|].
  rewrite Ho. by destruct o.
Qed.

Lemma toString_safe Γ r R :
  typed m Γ r → (∃ t', Γ !! Z.to_nat R = Some t' ∧ usable t' TString = true) →
  safe over (toString r R) (λ _, True).
Proof. intros H1 H2. eapply safe_bind; [by eapply toStringObj_safe|]. done. Qed.

Lemma toIPAddress_safe Γ r R :
  typed m Γ r → (∃ t', Γ !! Z.to_nat R = Some t' ∧ usable t' TIPAddress = true) →
  safe over (toIPAddress r R) (λ _, True).
Proof.
  intros H1 H2. eapply safe_bind; [by eapply reg_get_safe|]. intros v [_ [Hv|(o & Ho & Hok)]]; [done|].
  rewrite Ho. by destruct o.
Qed.

Lemma toCidr_safe Γ r R :
  typed m Γ r → (∃ t', Γ !! Z.to_nat R = Some t' ∧ usable t' TCidr = true) →
  safe over (toCidr r R) (λ _, True).
Proof.
  intros H1 H2. eapply safe_bind; [by eapply reg_get_safe|]. intros v [_ [Hv|(o & Ho & Hok)]]; [done|].
  rewrite Ho. by destruct o.
Qed.

Lemma toRegExp_safe Γ r R :
  typed m Γ r → (∃ t', Γ !! Z.to_nat R = Some t' ∧ usable t' TRegExp = true) →
  safe over (toRegExp r R) (λ _, True).
Proof.
  intros H1 H2. eapply safe_bind; [by eapply reg_get_safe|]. intros v [_ [Hv|(o & Ho & Hok)]]; [done|].
  rewrite Ho. by destruct o.
Qed.

(** A step keeps the state and the saved offset. *)
Definition same_control r r' : Prop := r_state r' = r_state r ∧ r_pc r' = r_pc r.

Lemma reg_set_safe Γ r R t v :
  typed m Γ r → (Z.to_nat R < length Γ)%nat → value_ok (r_heap r) t v →
  safe over (reg_set r R v) (λ r', typed m (<[Z.to_nat R := t]> Γ) r' ∧ same_control r r').
Proof.
  intros [Hd Hc Hu Hg] HR Hv. unfold reg_set.
  destruct (r_data r !! Z.to_nat R) as [old|] eqn:E.
  - cbn. split; [split; cbn; try done|done]. by apply Forall2_insert.
  - apply lookup_ge_None in E. apply Forall2_length in Hd. lia.
Qed.

Lemma typed_heap Γ r h : typed m Γ r → r_heap r ⊆ h → typed m Γ (with_heap r h).
Proof.
  intros [Hd Hc Hu Hg] Hh. split; cbn; [|by eapply constants_in_mono|done|done].
  eapply Forall2_impl; [|exact Hd]. intros t v Hv. by eapply value_ok_mono.
Qed.

Lemma newString_safe Γ r s :
  typed m Γ r →
  safe over (newString m r s) (λ '(r', p), typed m Γ r' ∧ same_control r r' ∧ value_ok (r_heap r') TString p).
Proof.
  intros Hr. unfold newString. destruct (m_malloc m (r_heap r)) as [[p b]|] eqn:E; [|done]. cbn.
  apply (malloc_fresh _ _ _ Henv) in E as [Hfresh Hfit].
  split; [|split; [done|]].
  - apply typed_heap; [done|]. by apply insert_subseteq.
  - split; [done|right]. eexists. rewrite lookup_insert_eq. done.
Qed.

Lemma set_string_safe Γ r A s :
  typed m Γ r → (Z.to_nat A < length Γ)%nat →
  safe over (set_string m r A s) (λ r', typed m (<[Z.to_nat A := TString]> Γ) r' ∧ same_control r r').
Proof.
  intros Hr HA. eapply safe_bind; [by eapply newString_safe|]. intros [r1 p] (H1 & [H2 H2'] & H3).
  eapply safe_mono; [by eapply reg_set_safe|]. intros r' [Ht [Hc Hc']]. split; [done|]. split; congruence.
Qed.

Lemma set_address_safe {T} Γ r A B (table : list T) at_ t :
  typed m Γ r → (Z.to_nat A < length Γ)%nat → pool_in (r_heap r) table at_ t →
  in_table table B = true →
  safe over (set_address r A B table at_) (λ r', typed m (<[Z.to_nat A := t]> Γ) r' ∧ same_control r r').
Proof.
  intros Hr HA Hp HB. unfold set_address, in_table in *. apply bool_decide_eq_true in HB.
  apply lookup_lt_is_Some in HB. pose proof HB as HB'. destruct HB' as [x Hx]. rewrite Hx.
  apply reg_set_safe; [done|done|]. by apply Hp.
Qed.

(** *** Results *)

Lemma bit_fits b : fits 64 (bit b).
Proof. destruct b; cbn; unfold fits; lia. Qed.

Lemma arith_safe z : safe over (arith z) (fits 64).
Proof. unfold arith. destruct (_ && _); cbn; auto with x0. apply unsigned_fits. lia. Qed.

(** The instructions on two numbers. *)
Definition is_numeric (o : Opcode) : bool :=
  match o with
  | NADD | NSUB | NMUL | NDIV | NREM | NSHL | NSHR | NPOW | NAND | NOR | NXOR
  | NCMPEQ | NCMPNE | NCMPLE | NCMPGE | NCMPLT | NCMPGT | BAND | BOR | BXOR
  | NIADD | NISUB | NIMUL | NIDIV | NIREM | NISHL | NISHR | NIPOW | NIAND | NIOR | NIXOR
  | NICMPEQ | NICMPNE | NICMPLE | NICMPGE | NICMPLT | NICMPGT => true
  | _ => false
  end.

Lemma divide_safe b c : safe over (divide b c) (fits 64).
Proof. unfold divide. destruct (c =? 0); [done|]. apply arith_safe. Qed.
Lemma remainder_safe b c : safe over (remainder b c) (fits 64).
Proof. unfold remainder. destruct (c =? 0); [done|]. destruct (_ && _); [done|]. apply arith_safe. Qed.
Lemma shift_left_safe b c : safe over (shift_left b c) (fits 64).
Proof.
  unfold shift_left. destruct (_ && _) eqn:E; [|done]. cbn.
  rewrite !andb_true_iff, !Z.leb_le, !Z.ltb_lt in E. unfold fits.
  split; [|lia]. apply Z.mul_nonneg_nonneg; [lia|]. apply Z.pow_nonneg. lia.
Qed.
Lemma shift_right_safe b c : safe over (shift_right b c) (fits 64).
Proof. unfold shift_right. destruct (_ && _); [|done]. cbn. apply unsigned_fits. lia. Qed.
Lemma powl_safe b c : safe over (vm_opt Arithmetic (m_powl m b c)) (fits 64).
Proof. destruct (m_powl m b c) as [v|] eqn:E; [|done]. cbn. by eapply powl_fits. Qed.
Lemma u64_safe z : safe over (mret (u64 z) : vm Z) (fits 64).
Proof. cbn. apply unsigned_fits. lia. Qed.
Lemma bit_safe b : safe over (mret (bit b) : vm Z) (fits 64).
Proof. apply bit_fits. Qed.

Create HintDb vm.
Hint Resolve arith_safe divide_safe remainder_safe shift_left_safe shift_right_safe powl_safe
  u64_safe bit_safe bit_fits : vm.

Lemma numeric_safe o b c : is_numeric o = true → safe over (numeric m o b c) (fits 64).
Proof. intros H. destruct o; try discriminate H; unfold numeric; auto with vm nocore. Qed.

Lemma numeric1_safe o b :
  match o with NNEG | NNOT | NCMPZ | BNOT => True | _ => False end → safe over (numeric1 o b) (fits 64).
Proof. intros H. destruct o; try destruct H; unfold numeric1; auto with vm nocore. Qed.

(** *** Match tables *)

Lemma last_value_In kvs key v : last_value kvs key = v → v ≠ 0 → v ∈ kvs.*2.
Proof.
  induction kvs as [|[k x] kvs IH] using rev_ind; [by intros <-|].
  rewrite last_value_snoc, fmap_app. intros H Hv. apply elem_of_app. destruct (decide (k = key)) as [->|].
  - right. rewrite H. cbn. by constructor.
  - left. by apply IH.
Qed.

Lemma labelled_pcs p cases kvs : labelled p cases = Ok kvs → kvs.*2 = case_pc <$> cases.
Proof.
  revert kvs; induction cases as [|one cases IH]; intros kvs H; cbn in H.
  - by injection H as <-.
  - apply bind_Ok in H as (s & _ & H). apply bind_Ok in H as (kvs' & H & [= <-]). cbn. f_equal. by apply IH.
Qed.

Lemma fill_regex_pcs p cases : ∀ t t', fill_regex p cases t = Ok t' → t'.*2 = t.*2 ++ (case_pc <$> cases).
Proof.
  induction cases as [|one cases IH]; intros t t' H; cbn in H.
  - injection H as <-. by rewrite app_nil_r.
  - apply bind_Ok in H as (e & _ & H). apply IH in H. rewrite H, fmap_app, <- (assoc_L (++)). done.
Qed.

Lemma first_match_pc compiles exec t s rs pc rs' :
  first_match compiles exec t s rs = (Some pc, rs') → pc ∈ t.*2.
Proof.
  revert rs. induction t as [|[e x] t IH]; intros rs H; cbn in H; [done|].
  destruct (re_match compiles exec e s rs) as [[|] rs1].
  - injection H as <- _. cbn. by left.
  - cbn. right. by eapply IH.
Qed.

(** An evaluation ends at a case or at the [else] branch... *)
Lemma evaluate_pc compiles exec p def t s u pc u' :
  newMatch p def = Ok t → evaluate compiles exec t s u = Ok (pc, u') →
  pc ∈ md_elsePC (match_def t) :: (case_pc <$> md_cases (match_def t)).
Proof.
  unfold newMatch. intros Ht He.
  assert (Hpick : ∀ (o : option Z) d l, (∀ v, o = Some v → v ∈ l) → default d o ∈ d :: l).
  { intros [v|] d l H; cbn; [right; by apply H|left]. }
  destruct (md_op def); apply bind_Ok in Ht as (t' & Ht & [= <-]); unfold evaluate in He;
    cbn [match_table match_def] in He |- *.
  1-3: apply fill_foldl in Ht as (kvs & Hk & ->); injection He as <- _;
    apply Hpick; intros v Hv; rewrite <- (labelled_pcs _ _ _ Hk).
  - apply same_map_chooses in Hv as (l1 & l2 & -> & _). rewrite fmap_app. apply elem_of_app. right. by left.
  - apply prefix_lookup_longest in Hv as (q & _ & _ & Hq & Hnz & _). by eapply last_value_In.
  - apply suffix_lookup_longest in Hv as (q & _ & _ & Hq & Hnz & _). by eapply last_value_In.
  - apply fill_regex_pcs in Ht. cbn in Ht. rewrite <- Ht.
    assert (Hf : ∀ rs v, fst (first_match compiles exec t' s rs) = Some v → v ∈ t'.*2).
    { intros rs v Hv. destruct (first_match compiles exec t' s rs) as [o rs'] eqn:E. cbn in Hv. subst o.
      by eapply first_match_pc. }
    destruct u as [|rs|]; [| |done].
    + injection He as <- _. apply Hpick. apply Hf.
    + specialize (Hf (Some (default [] rs))).
      destruct (first_match compiles exec t' s (Some (default [] rs))) as [o rs'].
      injection He as <- _. by apply Hpick.
Qed.

(** ... and does not fail on a userdata that is what it is taken for. *)
Lemma evaluate_target compiles exec p def t s u :
  newMatch p def = Ok t → regex_userdata u = true →
  ∃ pc u', evaluate compiles exec t s u = Ok (pc, u') ∧ regex_userdata u' = true ∧
           pc ∈ md_elsePC (match_def t) :: (case_pc <$> md_cases (match_def t)).
Proof.
  intros Ht Hu. destruct (evaluate compiles exec t s u) as [[pc u']|e] eqn:E.
  - exists pc, u'. split; [done|]. split; [|by eapply evaluate_pc].
    unfold evaluate in E. destruct (match_table t); [by injection E as _ <-..|].
    destruct u as [|rs|]; [by injection E as _ <-| |done]. by destruct (first_match _ _ _ _ _); injection E as _ <-.
  - exfalso. unfold evaluate in E. destruct (match_table t); try done.
    destruct u as [|rs|]; try done. by destruct (first_match _ _ _ _ _).
Qed.

(** *** Steps *)

(** The runner fits the types at the offset. *)
Definition resumable r (pc : Z) : Prop :=
  0 ≤ pc ∧ ∃ Γ, types !! Z.to_nat pc = Some Γ ∧ typed m Γ r.

(** Where a step may end: at a ready offset, returning for good, or suspended
    and ready to be resumed at the saved offset. *)
Definition well_ended (res : Runner W * outcome) : Prop :=
  match snd res with
  | Goto pc => r_state (fst res) = Running ∧ resumable (fst res) pc
  | Return _ => r_state (fst res) = Inactive ∨
                r_state (fst res) = Suspended ∧ resumable (fst res) (r_pc (fst res))
  end.

Lemma env_le_typed Γ Γ' r : env_le Γ Γ' = true → typed m Γ r → typed m Γ' r.
Proof.
  intros He [Hd Hc Hu Hg]. split; [|done|done|done]. clear Hc Hu Hg. revert Γ' He.
  induction Hd as [|t v Γ d Hv Hd IH]; intros [|t' Γ'] He; try done; cbn in He.
  apply andb_true_iff in He as [H1 H2]. constructor; [by eapply value_ok_usable|by apply IH].
Qed.

Lemma goes_to_ready Γ r pc : typed m Γ r → goes_to types Γ pc = true → resumable r pc.
Proof.
  unfold goes_to. intros Hr [H0 H]%andb_true_iff. apply Z.leb_le in H0. split; [done|].
  destruct (types !! Z.to_nat pc) as [Γ'|]; [|done]. exists Γ'. split; [done|]. by eapply env_le_typed.
Qed.

Lemma goto_ended Γ r pc :
  typed m Γ r → r_state r = Running → goes_to types Γ pc = true → safe over (inr (r, Goto pc)) well_ended.
Proof. intros. cbn. split; [done|]. by eapply goes_to_ready. Qed.

Lemma set_next Γ r R t v pc :
  typed m Γ r → r_state r = Running → (Z.to_nat R < length Γ)%nat → value_ok (r_heap r) t v →
  goes_to types (<[Z.to_nat R := t]> Γ) pc = true →
  safe over (r' ← reg_set r R v; inr (r', Goto pc)) well_ended.
Proof.
  intros Hr Hs HR Hv Hg. eapply safe_bind; [by eapply reg_set_safe|]. intros r' [Ht [Hc _]].
  eapply goto_ended; [done|congruence|done].
Qed.

Lemma set_string_next Γ r R s pc :
  typed m Γ r → r_state r = Running → (Z.to_nat R < length Γ)%nat →
  goes_to types (<[Z.to_nat R := TString]> Γ) pc = true →
  safe over (r' ← set_string m r R s; inr (r', Goto pc)) well_ended.
Proof.
  intros Hr Hs HR Hg. eapply safe_bind; [by eapply set_string_safe|]. intros r' [Ht [Hc _]].
  eapply goto_ended; [done|congruence|done].
Qed.

Lemma set_address_next {T} Γ r A B (table : list T) at_ t pc :
  typed m Γ r → r_state r = Running → (Z.to_nat A < length Γ)%nat → pool_in (r_heap r) table at_ t →
  in_table table B = true → goes_to types (<[Z.to_nat A := t]> Γ) pc = true →
  safe over (r' ← set_address r A B table at_; inr (r', Goto pc)) well_ended.
Proof.
  intros Hr Hs HR Hp HB Hg. eapply safe_bind; [by eapply set_address_safe|]. intros r' [Ht [Hc _]].
  eapply goto_ended; [done|congruence|done].
Qed.

Lemma in_table_opt {T} (table : list T) i : in_table table i = true → safe over (vm_opt BadConstant (table !! Z.to_nat i)) (λ x, table !! Z.to_nat i = Some x).
Proof.
  unfold in_table. intros H%bool_decide_eq_true. apply lookup_lt_is_Some in H as [x ->]. done.
Qed.

Lemma typed_regexp Γ r g : typed m Γ r → Forall group_ok (default [] g) → typed m Γ (with_regexp r g).
Proof. by intros []. Qed.
Lemma typed_pc Γ r pc : typed m Γ r → typed m Γ (with_pc r pc).
Proof. by intros []. Qed.

(** A native call, up to its result. *)
Lemma invoke_safe Γ r ret sigs table A B C pc :
  (∀ i s, sigs !! i = Some s → ∃ f, table !! i = Some (Some f) ∧ native_ok m (ret s) (sig_args s) f) →
  typed m Γ r → r_state r = Running → 0 ≤ C → (Z.to_nat C < length Γ)%nat →
  call_ok Γ sigs A B C = true →
  safe over (invoke table A B C (with_pc r pc)) (λ r',
    (∃ s, sigs !! Z.to_nat A = Some s ∧ typed m (<[Z.to_nat C := ret s]> Γ) r') ∧
    (r_pc r' = pc ∨ r_pc r' = 0) ∧ (r_state r' = Running ∨ r_state r' = Suspended)).
Proof.
  intros Hsigs Hr Hs HC0 HC Hcall. unfold call_ok, arguments in Hcall.
  destruct (sigs !! Z.to_nat A) as [s|] eqn:Es; [|done].
  apply andb_true_iff in Hcall as [Hreads Hargc]. apply Z.eqb_eq in Hargc. rewrite length_imap in Hargc.
  destruct (Hsigs _ _ Es) as (f & Hf & Hok). unfold invoke. rewrite Hf.
  eapply safe_over, safe_mono; [apply (Hok Γ); [by apply typed_pc|done|done|done|done|done]|].
  intros r' (Hh & (v & Hdata & Hv) & Hu & Hg & Hpc & Hst). split; [|done]. exists s. split; [done|].
  destruct Hr as [Hd Hc _ _]. split; cbn in *; [|by eapply constants_in_mono|done|done].
  rewrite Hdata. apply Forall2_insert; [|done].
  eapply Forall2_impl; [|exact Hd]. intros t x Hx. by eapply value_ok_mono.
Qed.

Lemma operandC_nonneg i : 0 ≤ operandC i.
Proof. apply (unsigned_fits 16). lia. Qed.

Lemma operandB_fits i : fits 64 (operandB i).
Proof. apply (fits_mono 16); [lia|]. apply (unsigned_fits 16). lia. Qed.

(** *** One instruction *)

Ltac reads H :=
  repeat match type of H with
  | reads_ok _ (_ :: _) = true => apply reads_ok_cons in H as [? H]
  end.
Ltac read :=
  match goal with
  | |- safe over (reg_get _ _ ≫= _) _ => eapply safe_bind; [eapply reg_get_safe; eassumption|intros ? ?]
  | |- safe over (toNumber _ _ ≫= _) _ => eapply safe_bind; [eapply toNumber_safe; eassumption|intros ? _]
  | |- safe over (toString _ _ ≫= _) _ => eapply safe_bind; [eapply toString_safe; eassumption|intros ? _]
  | |- safe over (toStringObj _ _ ≫= _) _ => eapply safe_bind; [eapply toStringObj_safe; eassumption|intros ? _]
  | |- safe over (toIPAddress _ _ ≫= _) _ => eapply safe_bind; [eapply toIPAddress_safe; eassumption|intros ? _]
  | |- safe over (toCidr _ _ ≫= _) _ => eapply safe_bind; [eapply toCidr_safe; eassumption|intros ? _]
  | |- safe over (toRegExp _ _ ≫= _) _ => eapply safe_bind; [eapply toRegExp_safe; eassumption|intros ? _]
  | |- safe over (vm_opt BadConstant _ ≫= _) _ => eapply safe_bind; [apply in_table_opt; eassumption|intros ? ?]
  end.

(** The facts a check gives for an instruction that writes a register... *)
Definition writes_ok (Γ : list FlowType) (R : Z) (t : FlowType) (pc : Z) : Prop :=
  (Z.to_nat R < length Γ)%nat ∧ goes_to types (<[Z.to_nat R := t]> Γ) (pc + 1) = true.

Lemma check_writes Γ R t pc :
  bool_decide (Z.to_nat R < length Γ)%nat && forallb (goes_to types (<[Z.to_nat R := t]> Γ)) [pc + 1] = true →
  writes_ok Γ R t pc.
Proof. cbn. rewrite andb_true_r. intros [H1%bool_decide_eq_true H2]%andb_true_iff. done. Qed.

Lemma find_safe hay needle : over = true → safe over (find hay needle) (λ _, True).
Proof.
  intros ->.
  assert (Hscan : ∀ fuel h n p q qe, safe true (scan fuel h n p q qe) (λ _, True)).
  { induction fuel as [|fuel IH]; intros; cbn; [done|].
    destruct (h !! p); [|done]. cbn. destruct (n !! q); [|done]. cbn. by destruct (_ && _). }
  assert (Hfrom : ∀ k h n i len, safe true (find_from k h n i len) (λ _, True)).
  { induction k as [|k IH]; intros; cbn [find_from]; [done|].
    destruct (h !! i); [|done]. cbn [vm_opt mbind vm_bind]. destruct (n !! 0%nat); [|done].
    cbn [vm_opt mbind vm_bind]. destruct (_ =? _); [|done].
    eapply safe_bind; [apply Hscan|]. intros p _. by destruct (_ =? _)%nat. }
  unfold find. destruct (_ =? _).
  - destruct (needle.1 !! 0%nat); done.
  - destruct (_ <? _); [done|]. apply Hfrom.
Qed.

Lemma substr_safe s a b : over = true → safe over (substr s a b) (λ _, True).
Proof.
  intros ->. unfold substr, require. destruct (u64 (a + b) <=? _); [|done]. cbn [mbind vm_bind].
  destruct (b =? 0); [done|]. by destruct (_ <=? _).
Qed.

Lemma group_text_safe g : group_ok g → safe over (group_text g) (λ _, True).
Proof.
  unfold group_text, require. destruct (Z.eqb_spec (g_length g) 0); [done|]. intros [?|[H1 H2]]; [done|].
  by rewrite (proj2 (Z.leb_le _ _) H1), (proj2 (Z.leb_le _ _) H2).
Qed.

Lemma groups_ok n : ∀ i s ov,
  (∀ k, (k < n)%nat → ∃ a b, ov !! (i + 2 * k)%nat = Some a ∧ ov !! S (i + 2 * k) = Some b ∧
     (a = -1 ∧ b = -1 ∨ 0 ≤ a ≤ b ∧ b ≤ Z.of_nat (length s))) →
  Forall group_ok (groups n i s ov).
Proof.
  induction n as [|n IH]; intros i s ov H; cbn [groups]; [constructor|]. constructor.
  - destruct (H 0%nat ltac:(lia)) as (a & b & Ha & Hb & Hr). rewrite Nat.mul_0_r, Nat.add_0_r in Ha, Hb.
    rewrite Ha, Hb. cbn. destruct Hr as [[-> ->]|[H1 H2]]; [by left|right]. cbn. split; [lia|].
    assert (u64 (b - a) ≤ b - a) by (apply Z.mod_le; lia). lia.
  - apply IH. intros k Hk. destruct (H (S k) ltac:(lia)) as (a & b & Ha & Hb & Hr). exists a, b.
    replace (S (S i) + 2 * k)%nat with (i + 2 * S k)%nat by lia. done.
Qed.

Lemma re_match_groups e s rs v rs' :
  Forall group_ok (default [] rs) →
  re_match (m_compiles m) (m_pcre_exec m) e s rs = (v, rs') → Forall group_ok (default [] rs').
Proof.
  intros Hrs H. unfold re_match in H. destruct (negb _); [by injection H as <- <-|].
  destruct (m_pcre_exec m (re_pattern e) s) as [rc ov] eqn:E. injection H as <- <-.
  destruct rs as [rs|]; [cbn|done]. destruct (0 <? rc).
  - apply groups_ok. intros k Hk. rewrite Nat.add_0_l. by apply (pcre_ranges _ _ _ Henv _ _ _ _ _ E).
  - constructor; [by left|constructor].
Qed.

Lemma vm_result_safe {A} (c : result A) : safe over (vm_result Arithmetic c) (λ _, True).
Proof. by destruct c. Qed.
Lemma group_at_safe (b : bool) (rs : list Group) i :
  Forall group_ok rs → safe over (vm_opt OutOfRange (if b then rs !! i else None)) group_ok.
Proof.
  intros H. destruct b; [|done]. destruct (rs !! i) as [g|] eqn:E; [|done]. by apply (Forall_lookup_1 _ _ _ _ H E).
Qed.

Ltac benign :=
  match goal with
  | |- safe over (find _ _ ≫= _) _ => eapply safe_bind; [by apply find_safe; auto|intros ? _]
  | |- safe over (substr _ _ _ ≫= _) _ => eapply safe_bind; [by apply substr_safe; auto|intros ? _]
  | |- safe over (group_text _ ≫= _) _ => eapply safe_bind; [by apply group_text_safe|intros ? _]
  | |- safe over (vm_result Arithmetic _ ≫= _) _ => eapply safe_bind; [apply vm_result_safe|intros ? _]
  | |- safe over (vm_opt OutOfRange _ ≫= _) _ => eapply safe_bind; [by apply group_at_safe|intros ? ?]
  | |- safe over (numeric _ _ _ _ ≫= _) _ => eapply safe_bind; [by apply numeric_safe|intros ? ?]
  | |- safe over (numeric1 _ _ ≫= _) _ => eapply safe_bind; [by apply numeric1_safe|intros ? ?]
  end.
Ltac writes :=
  match goal with
  | |- safe over (reg_set _ _ _ ≫= _) _ =>
      eapply set_next; [eassumption || (apply typed_regexp; [eassumption|cbn; assumption])|eassumption|eassumption| |eassumption];
      first [assumption | apply value_ok_plain; [reflexivity|]]; auto using bit_fits; try (apply unsigned_fits; lia)
  | |- safe over (set_string _ _ _ _ ≫= _) _ =>
      eapply set_string_next; [eassumption || (apply typed_regexp; [eassumption|cbn; assumption])|eassumption|eassumption|eassumption]
  | |- safe over (set_address _ _ _ _ _ ≫= _) _ =>
      eapply set_address_next; eassumption
  end.

(** Instructions other than jumps, moves, matches and calls. *)
Definition straight (o : Opcode) : bool :=
  match o with
  | EXIT | JMP | JN | JZ | MOV | SMATCHEQ | SMATCHBEG | SMATCHEND | SMATCHR | CALL | HANDLER => false
  | _ => true
  end.

Lemma exec_straight Γ r pc i o :
  opcode i = Some o → straight o = true → (reads_behind o = true → over = true) →
  typed m Γ r → r_state r = Running → check m functions handlers types Γ pc i = true →
  safe over (exec m i pc r) well_ended.
Proof.
  intros Ho Hstr Hover Hr Hs Hcheck. unfold check in Hcheck. rewrite Ho in Hcheck.
  pose proof (typed_constants _ _ _ Hr) as []. pose proof (typed_groups _ _ _ Hr) as Hgroups.
  apply andb_true_iff in Hcheck as [Hcheck Hdef]. apply andb_true_iff in Hcheck as [Hcheck _].
  apply andb_true_iff in Hcheck as [Hreads Hidx].
  unfold exec. rewrite Ho. set (A := operandA i) in *. set (B := operandB i) in *. set (C := operandC i) in *.
  destruct o; try discriminate Hstr; cbn [uses indices_ok] in Hreads, Hidx;
    cbn [defines resultType next_pcs] in Hdef; reads Hreads;
    try (apply check_writes in Hdef as [HA Hnext]);
    try (cbn [forallb] in Hdef; rewrite andb_true_r in Hdef; eapply goto_ended; eassumption).
  all: repeat first [read | benign].
  all: try (destruct (re_match _ _ _ _ _) as [? ?] eqn:Ere; apply re_match_groups in Ere; [|exact Hgroups]).
  all: writes; try apply operandB_fits.
Qed.

Lemma exec_jump Γ r pc i o :
  opcode i = Some o → straight o = false → o ≠ CALL → o ≠ HANDLER →
  typed m Γ r → r_state r = Running → check m functions handlers types Γ pc i = true →
  safe over (exec m i pc r) well_ended.
Proof.
  intros Ho Hstr Hcall Hhandler Hr Hs Hcheck. unfold check in Hcheck. rewrite Ho in Hcheck.
  apply andb_true_iff in Hcheck as [Hcheck Hdef]. apply andb_true_iff in Hcheck as [Hcheck _].
  apply andb_true_iff in Hcheck as [Hreads Hidx].
  unfold exec. rewrite Ho. set (A := operandA i) in *. set (B := operandB i) in *. set (C := operandC i) in *.
  assert (Hmatch : ∀ a t, m_matches m !! Z.to_nat B = Some t →
    forallb (goes_to types Γ) (md_elsePC (match_def t) :: (case_pc <$> md_cases (match_def t))) = true →
    safe over ('(result, u) ← vm_result BadPointer (evaluate (m_compiles m) (m_pcre_exec m) t a (r_userdata r));
          inr (with_userdata r u, Goto result)) well_ended).
  { intros a t Ht Hall. destruct (Forall2_lookup_r _ _ _ _ _ (matches_linked _ _ _ Henv) Ht) as (def & _ & Hnew).
    destruct (evaluate_target (m_compiles m) (m_pcre_exec m) _ _ _ a _ Hnew (typed_userdata _ _ _ Hr))
      as (pc' & u' & -> & Hu' & Hin).
    cbn. split; [done|]. apply (goes_to_ready Γ); [by destruct Hr; split|].
    rewrite forallb_forall in Hall. apply Hall. by apply list_elem_of_In. }
  destruct o; try discriminate Hstr; try done; cbn [uses indices_ok] in Hreads, Hidx;
    cbn [defines resultType next_pcs forallb] in Hdef; rewrite ?andb_true_r in Hdef; reads Hreads.
  - by left.
  - by eapply goto_ended.
  - apply andb_true_iff in Hdef as [H1 H2]. read. destruct (negb _); by eapply goto_ended.
  - apply andb_true_iff in Hdef as [H1 H2]. read. destruct (_ =? _); by eapply goto_ended.
  - apply andb_true_iff in Hdef as [HA%bool_decide_eq_true Hnext]. destruct H as (t & Ht & _).
    rewrite Ht in Hnext. cbn [default] in Hnext.
    eapply safe_bind; [eapply (reg_get_safe Γ r B t); [done|exists t; split; [done|]]|].
    + unfold usable. rewrite bool_decide_eq_true_2 by done. apply orb_true_r.
    + intros v Hv. by eapply set_next.
  - read. read. by eapply Hmatch; [|rewrite H0 in Hdef].
  - read. read. by eapply Hmatch; [|rewrite H0 in Hdef].
  - read. read. by eapply Hmatch; [|rewrite H0 in Hdef].
  - read. read. by eapply Hmatch; [|rewrite H0 in Hdef].
Qed.

Lemma native_ended Γ R t r' (pc : Z) k :
  typed m (<[Z.to_nat R := t]> Γ) r' → (r_pc r' = pc + 1 ∨ r_pc r' = 0) →
  (r_state r' = Running ∨ r_state r' = Suspended) →
  forallb (goes_to types (<[Z.to_nat R := t]> Γ)) [pc + 1; 0] = true →
  (r_state r' = Running → safe over k well_ended) →
  safe over (match r_state r' with Suspended => inr (r', Return false) | _ => k end) well_ended.
Proof.
  cbn [forallb]. rewrite andb_true_r. intros Hr Hpc Hst [H1 H2]%andb_true_iff Hk.
  destruct Hst as [Hst|Hst]; rewrite Hst; [by apply Hk|]. right. split; [done|]. cbn.
  destruct Hpc as [-> | ->]; by eapply goes_to_ready.
Qed.

Lemma exec_call Γ r pc i o :
  opcode i = Some o → o = CALL ∨ o = HANDLER →
  typed m Γ r → r_state r = Running → check m functions handlers types Γ pc i = true →
  safe over (exec m i pc r) well_ended.
Proof.
  intros Ho Hcall Hr Hs Hcheck. unfold check in Hcheck. rewrite Ho in Hcheck.
  apply andb_true_iff in Hcheck as [Hcheck Hdef]. apply andb_true_iff in Hcheck as [_ Hargs].
  unfold exec. rewrite Ho. set (A := operandA i) in *. set (B := operandB i) in *.
  pose proof (operandC_nonneg i) as HC0. set (C := operandC i) in *.
  destruct Hcall as [-> | ->]; cbn [defines next_pcs] in Hdef;
    apply andb_true_iff in Hdef as [HC%bool_decide_eq_true Hdef].
  - eapply safe_bind; [eapply (invoke_safe Γ r sig_returnType); try done; by eapply functions_ok|].
    intros r' ((s & Es & Hr') & Hpc & Hst). rewrite Es in Hdef.
    eapply native_ended; try done. intros Hrun. cbn [forallb] in Hdef. rewrite andb_true_r in Hdef.
    apply andb_true_iff in Hdef as [H1 H2]. destruct Hpc as [-> | ->]; by eapply goto_ended.
  - eapply safe_bind; [eapply (invoke_safe Γ r (λ _, TBoolean)); try done; by eapply handlers_ok|].
    intros r' ((s & Es & Hr') & Hpc & Hst).
    assert (Hr'' : typed m (<[Z.to_nat C := TVoid]> Γ) r').
    { destruct Hr' as [Hd ? ? ?]. split; [|done|done|done]. apply Forall2_lookup. intros k.
      rewrite Forall2_lookup in Hd. specialize (Hd k).
      destruct (decide (k = Z.to_nat C)) as [->|].
      - rewrite list_lookup_insert_eq by done. rewrite list_lookup_insert_eq in Hd by done.
        destruct (r_data r' !! Z.to_nat C) as [v|]; inversion Hd as [x y Hv|]; subst. constructor.
        by eapply value_ok_usable.
      - rewrite list_lookup_insert_ne by done. by rewrite list_lookup_insert_ne in Hd by done. }
    eapply safe_bind.
    { eapply (reg_get_safe _ _ _ TVoid); [exact Hr''|]. exists TVoid. split; [by apply list_lookup_insert_eq|done]. }
    intros h _. eapply native_ended; try done. intros Hrun.
    destruct (negb _); [by left|]. cbn [forallb] in Hdef. rewrite andb_true_r in Hdef.
    apply andb_true_iff in Hdef as [H1 H2]. destruct Hpc as [-> | ->]; by eapply goto_ended.
Qed.

Lemma exec_safe Γ r pc i :
  (∀ o, opcode i = Some o → reads_behind o = true → over = true) →
  typed m Γ r → r_state r = Running → check m functions handlers types Γ pc i = true →
  safe over (exec m i pc r) well_ended.
Proof.
  intros Hover Hr Hs Hcheck. destruct (opcode i) as [o|] eqn:Ho; [|by unfold check in Hcheck; rewrite Ho in Hcheck].
  destruct (straight o) eqn:Hstr; [by eapply exec_straight; eauto|].
  destruct (decide (o = CALL)); [by eapply exec_call; eauto|].
  destruct (decide (o = HANDLER)); [by eapply exec_call; eauto|].
  by eapply exec_jump.
Qed.

(** *** Runs *)

Hypothesis (Hcheck : check_code m functions handlers types = true).
Hypothesis (Hover : over_reads (m_code m) = true → over = true).

Lemma check_from_lookup code ts : ∀ pc k Γ,
  check_from m functions handlers types pc code ts = true → ts !! k = Some Γ →
  ∃ i, code !! k = Some i ∧ check m functions handlers types Γ (pc + Z.of_nat k) i = true.
Proof.
  revert ts; induction code as [|i code IH]; intros [|Γ0 ts] pc k Γ Hc Hk; try done; cbn in Hc.
  apply andb_true_iff in Hc as [H1 H2]. destruct k as [|k]; cbn in Hk.
  - injection Hk as <-. exists i. by rewrite Z.add_0_r.
  - destruct (IH ts (pc + 1) k Γ H2 Hk) as (j & Hj & Hok). exists j. split; [done|].
    by replace (pc + Z.of_nat (S k)) with (pc + 1 + Z.of_nat k) by lia.
Qed.

Lemma vm_step_safe r pc : resumable r pc → r_state r = Running → safe over (step m pc r) well_ended.
Proof.
  intros (H0 & Γ & HΓ & Hr) Hs. unfold step, fetch. rewrite (proj2 (Z.leb_le _ _)) by done.
  pose proof Hcheck as [Hall _]%andb_true_iff.
  destruct (check_from_lookup _ _ 0 _ _ Hall HΓ) as (i & Hi & Hok). rewrite Hi. cbn [vm_opt mbind vm_bind].
  rewrite Z.add_0_l, Z2Nat.id in Hok by done. eapply exec_safe; try done.
  intros o Ho Hb. apply Hover. apply existsb_exists. exists i. rewrite Ho. split; [|done].
  by eapply list_elem_of_In, list_elem_of_lookup_2.
Qed.

Definition run_ended (res : Runner W * bool) : Prop :=
  r_state (fst res) = Inactive ∨ r_state (fst res) = Suspended ∧ resumable (fst res) (r_pc (fst res)).

Lemma steps_safe fuel r pc res :
  resumable r pc → r_state r = Running → interpret m fuel pc r = Some res → safe over res run_ended.
Proof.
  revert r pc; induction fuel as [|fuel IH]; intros r pc Hr Hs Hst; cbn in Hst; [done|].
  pose proof (vm_step_safe r pc Hr Hs) as Hstep.
  destruct (step m pc r) as [e|[r' [pc'|b]]]; cbn in Hstep.
  - injection Hst as <-. exact Hstep.
  - by eapply IH; [apply Hstep|apply Hstep|].
  - injection Hst as <-. exact Hstep.
Qed.

Lemma loop_safe fuel r res : resumable r (r_pc r) → loop m fuel r = Some res → safe over res run_ended.
Proof.
  intros Hr H. apply (steps_safe fuel (with_run_state r Running) (r_pc r)); [|done|exact H]. destruct Hr as (H0 & Γ & HΓ & []). split; [done|].
  exists Γ. split; [done|]. by split.
Qed.

Lemma create_ready h u w :
  constants_in m h → regex_userdata u = true →
  safe over (create m h u w) (λ r, r_state r = Inactive ∧ resumable r (r_pc r)).
Proof.
  intros Hc Hu. pose proof Hcheck as [_ H0]%andb_true_iff. destruct types as [|Γ ts] eqn:Ets; [done|].
  apply andb_true_iff in H0 as [Hplain Hlen]. apply Z.eqb_eq in Hlen.
  set (r0 := mkRunner Inactive 0 (replicate (Z.to_nat (computeRegisterCount (m_code m))) 0) h None u w).
  assert (Hr0 : typed m Γ r0).
  { split; cbn; [|done|done|constructor]. rewrite <- Hlen, Nat2Z.id.
    clear -Hplain. induction Γ as [|t Γ IH]; cbn; [constructor|]. cbn in Hplain.
    apply andb_true_iff in Hplain as [H1 H2]. constructor; [|by apply IH].
    apply value_ok_plain; [done|unfold fits; lia]. }
  unfold create. eapply safe_bind; [by apply (newString_safe Γ r0)|].
  intros [r' p] (H1 & [H2 H2'] & _). cbn. split; [by rewrite H2|]. rewrite H2'. split; [done|].
  exists Γ. rewrite Ets. done.
Qed.
End Sound.

(** C37 (type). Code that passes the check, run on any input: every register that an
    instruction uses as an address holds the address of an object of the type
    [resultType] or the signature of a native function gave it, so the machine
    never leaves its code, registers and tables and never takes anything else
    for an object. Unless the code has a [SCONTAINS] or a [SSUBSTR], it does not
    read behind the end of a string either: those two may
    ([contains_reads_behind], [substr_reads_behind]). A run ends for good, in a
    fault that is none of these, or suspended in a state from which it can be
    resumed with the same guarantee. *)
Theorem checked_code_is_safe {W} (m : Machine W) functions handlers types :
  environment_ok m functions handlers → check_code m functions handlers types = true →
  (∀ h u w, constants_in m h → regex_userdata u = true →
     safe false (create m h u w) (λ r, r_state r = Inactive ∧ resumable m types r (r_pc r))) ∧
  (∀ fuel r res, resumable m types r (r_pc r) → run m fuel r = Some res → r_state r = Inactive →
     safe (over_reads (m_code m)) res (run_ended m types)) ∧
  (∀ fuel r res, run_ended m types (r, false) → r_state r = Suspended → resume m fuel r = Some res →
     safe (over_reads (m_code m)) res (run_ended m types)).
Proof.
  intros Henv Hcheck. split; [|split].
  - intros h u w. by eapply create_ready.
  - intros fuel r res Hr Hrun Hs. unfold run in Hrun. rewrite decide_True in Hrun by done. by eapply loop_safe.
  - intros fuel r res [Hr|[_ Hr]] Hs Hrun; [cbn in Hr; congruence|].
    unfold resume in Hrun. rewrite decide_True in Hrun by done. by eapply loop_safe.
Qed.

(** ** Reads behind a string

    Checked code that looks for [b\0c] in [xab], both with a null byte behind their
    text, and code that takes one byte at the offset [-1] of a string. *)
Definition strings_machine (code : list Z) : Machine unit :=
  mkMachine unit code (fst (makeInteger (fst (makeString (fst (makeString emptyPool (str "xab"))) [98; 0; 99])) (-1)))
    (mkLayout (λ i, 4096 + 8 * i) (λ i, 0) (λ i, 0) (λ i, 0) (λ i, 0) (λ i, 0) (λ i, 0))
    [] [] []
    (λ h, match h !! 8192 with None => Some (8192, 0) | Some _ => None end)
    (λ b c, None) (λ _, true) (λ _ _, (0, [])) (λ _ _, []).
Definition strings_heap : heap := {[ 4096 := OString (str "xab") [0]; 4104 := OString [98; 0; 99] [0] ]}.

Definition contains_code : list Z :=
  [makeInstruction2 SCONST 1 0; makeInstruction2 SCONST 2 1; makeInstruction3 SCONTAINS 0 2 1; makeInstruction1 EXIT 0].

Lemma contains_reads_behind :
  check_code (strings_machine contains_code) [] []
    [[TVoid; TVoid; TVoid]; [TVoid; TString; TVoid]; [TVoid; TString; TString]; [TVoid; TVoid; TVoid]] = true ∧
  handler_run (strings_machine contains_code) 10 strings_heap NoUserdata () = Some (inl OverRead).
Proof. split; vm_compute; reflexivity. Qed.

Definition substr_code : list Z :=
  [makeInstruction2 SCONST 1 0; makeInstruction2 NCONST 2 0; makeInstruction2 IMOV 3 1; makeInstruction3 SSUBSTR 0 1 2;
   makeInstruction1 EXIT 0].

Lemma substr_reads_behind :
  check_code (strings_machine substr_code) [] []
    [[TVoid; TVoid; TVoid; TVoid]; [TVoid; TString; TVoid; TVoid]; [TVoid; TString; TNumber; TVoid];
     [TVoid; TString; TNumber; TNumber]; [TVoid; TVoid; TVoid; TVoid]] = true ∧
  handler_run (strings_machine substr_code) 10 strings_heap NoUserdata () = Some (inl OverRead).
Proof. split; vm_compute; reflexivity. Qed.

(** ** A handler that calls a native function

    [strlen("abc")] decides how the handler ends. *)
Definition demo_strlen (argc base : Z) (r : Runner unit) : vm (Runner unit) :=
  s ← toString r (base + 1); reg_set r base (u64 (Z.of_nat (length s))).

Definition demo_strlen_sig : Signature := mkSignature (str "strlen") TNumber [TString].

Definition demo_code : list Z :=
  [makeInstruction2 SCONST 3 0; makeInstruction3 CALL 0 2 2; makeInstruction2 JZ 2 4;
   makeInstruction1 EXIT 1; makeInstruction1 EXIT 0].

Definition demo_types : list (list FlowType) :=
  [[TVoid; TVoid; TVoid; TVoid]; [TVoid; TVoid; TVoid; TString]; [TVoid; TVoid; TNumber; TVoid];
   [TVoid; TVoid; TVoid; TVoid]; [TVoid; TVoid; TVoid; TVoid]].

Definition demo_machine : Machine unit :=
  mkMachine unit demo_code (fst (makeString emptyPool (str "abc")))
    (mkLayout (λ i, 4096) (λ i, 0) (λ i, 0) (λ i, 0) (λ i, 0) (λ i, 0) (λ i, 0))
    [] [Some demo_strlen] []
    (λ h, match h !! 8192 with None => Some (8192, 0) | Some _ => None end)
    (λ b c, None) (λ _, true) (λ _ _, (0, [])) (λ _ _, []).

Definition demo_heap : heap := {[ 4096 := OString (str "abc") [] ]}.

Lemma demo_environment : environment_ok demo_machine [demo_strlen_sig] [].
Proof.
  split.
  - intros h p b H. cbn in H. destruct (h !! 8192) eqn:E; [done|]. injection H as <- _. split; [done|unfold fits; lia].
  - done.
  - intros p s rc ov k [= <- <-] Hk. cbn in Hk. lia.
  - constructor.
  - intros [|i] s Hs; [|discriminate Hs]. injection Hs as <-. exists demo_strlen. split; [done|].
    intros Γ argc base r Hr Hst Hb Hb0 _ Hreads. cbn [sig_args demo_strlen_sig imap] in Hreads.
    apply reads_ok_cons in Hreads as [Hr1 _]. unfold demo_strlen.
    eapply safe_bind; [eapply toString_safe; [exact Hr|]|].
    { change (Z.of_nat 0) with 0 in Hr1. by rewrite Z.add_0_r in Hr1. }
    intros s _. unfold reg_set. destruct (r_data r !! Z.to_nat base) as [old|] eqn:E.
    + cbn. split; [done|]. split; [|split; [apply Hr|split; [apply Hr|auto]]]. eexists. split; [done|].
      apply value_ok_plain; [done|]. apply unsigned_fits. lia.
    + apply lookup_ge_None in E. pose proof (Forall2_length (typed_data _ _ _ Hr)). lia.
  - intros i s Hs. by rewrite lookup_nil in Hs.
Qed.

Lemma demo_constants : constants_in demo_machine demo_heap.
Proof.
  split; split; intros i [x Hi]; cbn in Hi; try (by rewrite lookup_nil in Hi).
  split; [cbn; unfold fits; lia|right]. exists (OString (str "abc") []). by vm_compute.
Qed.

Lemma checked_code_is_safe_witness :
  check_code demo_machine [demo_strlen_sig] [] demo_types = true ∧
  safe false (create demo_machine demo_heap NoUserdata ()) (λ r, r_state r = Inactive ∧ resumable demo_machine demo_types r (r_pc r)) ∧
  ∃ r, handler_run demo_machine 10 demo_heap NoUserdata () = Some (inr (r, true)).
Proof.
  assert (Hc : check_code demo_machine [demo_strlen_sig] [] demo_types = true) by (vm_compute; reflexivity).
  split; [exact Hc|]. split.
  - apply (checked_code_is_safe demo_machine [demo_strlen_sig] [] demo_types demo_environment Hc);
      [apply demo_constants|reflexivity].
  - eexists. vm_compute. reflexivity.
Defined.
