(* ===== verification/FlowRun.v ===== *)
(** * Runs of the Flow virtual machine

    What [Runner::run], [suspend] and [resume] promise over whole runs: code
    whose jumps go forward ends if no native function rewinds, and a handler that
    is suspended and resumed any number of times ends as if it had never been
    interrupted. *)
From stdpp Require Import gmap.
From S2P Require Import Prelude Http1Parser Http1Generator Http1Roundtrip NetAddress FlowType FlowInstruction FlowConstants FlowMatch FlowVm FlowSafety.

(** What holds of the result of a step, if there is one. *)
Definition yields {A} (c : vm A) (P : A → Prop) : Prop := ∀ a, c = inr a → P a.

Lemma yields_bind {A B} (c : vm A) (f : A → vm B) (P : A → Prop) (Q : B → Prop) :
  yields c P → (∀ a, P a → yields (f a) Q) → yields (c ≫= f) Q.
Proof. unfold yields. destruct c as [e|a]; cbn; [done|]. intros H1 H2 b Hb. by apply (H2 a); [apply H1|]. Qed.

Lemma yields_any {A} (c : vm A) : yields c (λ _, True).
Proof. done. Qed.

Lemma yields_ret {A} (a : A) (P : A → Prop) : P a → yields (inr a) P.
Proof. intros H b [= <-]. done. Qed.

Section Runs.
Context {W : Type} (m : Machine W).
Implicit Types r : Runner W.

(** ** Forward code *)

(** The offsets an instruction jumps to. *)
Definition jumps (o : Opcode) (A B : Z) : list Z :=
  match o with
  | JMP => [A]
  | JN | JZ => [B]
  | SMATCHEQ | SMATCHBEG | SMATCHEND | SMATCHR =>
      match m_matches m !! Z.to_nat B with
      | Some t => md_elsePC (match_def t) :: (case_pc <$> md_cases (match_def t))
      | None => []
      end
  | _ => []
  end.

Definition forward_at (pc i : Z) : bool :=
  match opcode i with
  | Some o => forallb (λ pc', pc <? pc') (jumps o (operandA i) (operandB i))
  | None => true
  end.

Fixpoint forward_from (pc : Z) (code : list Z) : bool :=
  match code with [] => true | i :: code => forward_at pc i && forward_from (pc + 1) code end.

Definition forward_code : bool := forward_from 0 (m_code m).

(** A native function that does not rewind. *)
Definition keeps_pc (f : Z → Z → Runner W → vm (Runner W)) : Prop :=
  ∀ argc base r r', f argc base r = inr r' → r_pc r' = r_pc r.

(** Where a step goes on. *)
Definition goes_on (i pc : Z) (res : Runner W * outcome) : Prop :=
  match snd res with
  | Return _ => True
  | Goto pc' => pc' = pc + 1 ∨
                (∃ o, opcode i = Some o ∧ pc' ∈ jumps o (operandA i) (operandB i))
  end.

Context (Hmatches : Forall2 (λ def t, newMatch (m_pool m) def = Ok t) (cp_matchDefs (m_pool m)) (m_matches m)).
Context (Hfunctions : Forall (λ f, ∀ g, f = Some g → keeps_pc g) (m_functions m)).
Context (Hhandlers : Forall (λ f, ∀ g, f = Some g → keeps_pc g) (m_handlers m)).

Lemma invoke_pc table id argc base r pc :
  Forall (λ f, ∀ g, f = Some g → keeps_pc g) table →
  yields (invoke table id argc base (with_pc r pc)) (λ r', r_pc r' = pc).
Proof.
  intros Ht r' Hr'. unfold invoke in Hr'. destruct (table !! Z.to_nat id) as [[f|]|] eqn:E; try done.
  apply (Forall_lookup_1 _ _ _ _ Ht E f eq_refl) in Hr'. done.
Qed.

Lemma match_goes_on i pc r o a :
  opcode i = Some o →
  match o with SMATCHEQ | SMATCHBEG | SMATCHEND | SMATCHR => True | _ => False end →
  yields (t ← vm_opt BadConstant (m_matches m !! Z.to_nat (operandB i));
        '(result, u) ← vm_result BadPointer (evaluate (m_compiles m) (m_pcre_exec m) t a (r_userdata r));
        inr (with_userdata r u, Goto result)) (goes_on i pc).
Proof.
  intros Ho Hm. destruct (m_matches m !! Z.to_nat (operandB i)) as [t|] eqn:Et; [|done]. cbn [vm_opt mbind vm_bind].
  destruct (Forall2_lookup_r _ _ _ _ _ Hmatches Et) as (def & _ & Hnew).
  destruct (evaluate (m_compiles m) (m_pcre_exec m) t a (r_userdata r)) as [[pc' u]|e] eqn:E; [|done].
  apply yields_ret. right. exists o. split; [done|]. apply (evaluate_pc _ _ _ _ _ _ _ _ _ Hnew) in E.
  destruct o; try done; cbn [jumps]; by rewrite Et.
Qed.

Lemma exec_goes_on i pc r : yields (exec m i pc r) (goes_on i pc).
Proof.
  unfold exec. destruct (opcode i) as [o|] eqn:Ho; [|done].
  set (A := operandA i). set (C := operandC i).
  assert (Hnext : ∀ r, yields (inr (r, Goto (pc + 1))) (goes_on i pc)) by (intros; apply yields_ret; by left).
  assert (Hjump : ∀ r pc', pc' ∈ jumps o A (operandB i) → yields (inr (r, Goto pc')) (goes_on i pc)).
  { intros r' pc' Hin. apply yields_ret. right. by exists o. }
  destruct o; try (repeat (eapply yields_bind; [apply yields_any|]; intros ? _); apply Hnext);
    try (eapply yields_bind; [apply yields_any|]; intros a _; by apply (match_goes_on i pc r _ a Ho)).
  - by apply yields_ret.
  - apply Hjump. by left.
  - eapply yields_bind; [apply yields_any|]. intros a _. destruct (negb _); [apply Hjump; by left|apply Hnext].
  - eapply yields_bind; [apply yields_any|]. intros a _. destruct (_ =? _); [apply Hjump; by left|apply Hnext].
  - eapply yields_bind; [apply yields_any|]. intros e _. eapply yields_bind; [apply yields_any|]. intros b _.
    destruct (re_match _ _ _ _ _) as [v rs]. eapply yields_bind; [apply yields_any|]. intros ? _. apply Hnext.
  - eapply yields_bind; [by apply invoke_pc|]. intros r' Hpc. destruct (r_state r'); rewrite ?Hpc; try apply Hnext.
    by apply yields_ret.
  - eapply yields_bind; [by apply invoke_pc|]. intros r' Hpc. eapply yields_bind; [apply yields_any|]. intros h _.
    destruct (r_state r'); [destruct (negb _)..|]; rewrite ?Hpc; try apply Hnext; by apply yields_ret.
Qed.

Lemma forward_from_lookup pc code k i :
  forward_from pc code = true → code !! k = Some i → forward_at (pc + Z.of_nat k) i = true.
Proof.
  revert pc k; induction code as [|j code IH]; intros pc k Hf Hk; [done|]. cbn in Hf.
  apply andb_true_iff in Hf as [H1 H2]. destruct k as [|k]; cbn in Hk.
  - injection Hk as <-. by rewrite Z.add_0_r.
  - replace (pc + Z.of_nat (S k)) with (pc + 1 + Z.of_nat k) by lia. by apply IH.
Qed.

(** A step of forward code goes to a later offset. *)
Lemma forward_step pc r r' pc' :
  forward_code = true → step m pc r = inr (r', Goto pc') → 0 ≤ pc < Z.of_nat (length (m_code m)) ∧ pc < pc'.
Proof.
  intros Hf Hs. unfold step, fetch in Hs. destruct (Z.leb_spec 0 pc) as [H0|]; [|done].
  destruct (m_code m !! Z.to_nat pc) as [i|] eqn:Ei; [|done]. cbn [vm_opt mbind vm_bind] in Hs.
  pose proof (lookup_lt_Some _ _ _ Ei) as Hlt. split; [lia|].
  apply exec_goes_on in Hs. cbn in Hs. destruct Hs as [->|(o & Ho & Hin)]; [lia|].
  apply (forward_from_lookup 0 _ _ _ Hf) in Ei. rewrite Z.add_0_l, Z2Nat.id in Ei by done.
  unfold forward_at in Ei. rewrite Ho, forallb_forall in Ei. apply Z.ltb_lt, Ei. by apply list_elem_of_In.
Qed.

Lemma forward_steps fuel pc r :
  forward_code = true → (Z.to_nat (Z.of_nat (length (m_code m)) - pc) < fuel)%nat →
  ∃ res, interpret m fuel pc r = Some res.
Proof.
  intros Hf. revert pc r; induction fuel as [|fuel IH]; intros pc r Hlt; [lia|]. cbn [interpret].
  destruct (step m pc r) as [e|[r' [pc'|b]]] eqn:Es; [by eexists| |by eexists].
  apply forward_step in Es as [Hpc Hgt]; [|done]. apply IH. lia.
Qed.
End Runs.

(** C39 (liveness). Where no native function and no native handler moves the saved
    offset ([keeps_pc]), code whose jumps and match tables all go forward ends: a
    run or a resumed run returns, suspends or faults after at most one step per
    instruction. A native function that rewinds, as [sendErrorPage] does, starts
    the handler over, and nothing bounds how often ([rewinding_never_ends]). *)
Theorem forward_code_ends {W} (m : Machine W) (r : Runner W) :
  Forall2 (λ def t, newMatch (m_pool m) def = Ok t) (cp_matchDefs (m_pool m)) (m_matches m) →
  Forall (λ f, ∀ g, f = Some g → keeps_pc g) (m_functions m) →
  Forall (λ f, ∀ g, f = Some g → keeps_pc g) (m_handlers m) →
  forward_code m = true → 0 ≤ r_pc r →
  (∃ res, run m (S (length (m_code m))) r = Some res) ∧
  (∃ res, resume m (S (length (m_code m))) r = Some res).
Proof.
  intros Hm Hf Hh Hfwd Hpc.
  assert (Hl : ∃ res, loop m (S (length (m_code m))) r = Some res)
    by (unfold loop; apply forward_steps; [done..|lia]).
  unfold run, resume. split; case_decide; eauto.
Qed.

Lemma demo_keeps_pc : keeps_pc demo_strlen.
Proof.
  intros argc base r. change (yields (demo_strlen argc base r) (λ r', r_pc r' = r_pc r)).
  unfold demo_strlen. eapply yields_bind; [apply yields_any|]. intros s _ r'' H.
  unfold reg_set in H. case_match; [by injection H as <-|done].
Qed.

Lemma forward_code_ends_witness :
  ∃ res, run demo_machine 6 (mkRunner Inactive 0 [0; 0; 0; 0] demo_heap None NoUserdata ()) = Some res.
Proof.
  apply (forward_code_ends demo_machine (mkRunner Inactive 0 [0; 0; 0; 0] demo_heap None NoUserdata ())).
  - constructor.
  - constructor; [|constructor]. intros g [= <-]. exact demo_keeps_pc.
  - constructor.
  - vm_compute. reflexivity.
  - reflexivity.
Defined.

(** Without the condition on the native functions it is false: a handler of two
    instructions that calls a function which rewinds, as [sendErrorPage] of
    [XzeroContext.cc] does, never ends. *)
Definition rewinding : Machine unit :=
  mkMachine unit [makeInstruction3 CALL 0 1 0; makeInstruction1 EXIT 0] emptyPool (m_layout demo_machine) []
    [Some (λ _ _ r, inr (rewind r))] [] (λ _, None) (λ _ _, None) (λ _, true) (λ _ _, (0, [])) (λ _ _, []).

Lemma rewinding_never_ends :
  forward_code rewinding = true ∧
  ∀ fuel, run rewinding fuel (mkRunner Inactive 0 [0] ∅ None NoUserdata ()) = None.
Proof.
  split; [vm_compute; reflexivity|]. intros fuel. unfold run, loop. cbn [decide r_state]. rewrite decide_True by done.
  enough (∀ pc0 r, r_state r = Running → interpret rewinding fuel 0 (with_pc r pc0) = None) as H
    by apply (H 0 (mkRunner Running 0 [0] ∅ None NoUserdata ()) eq_refl).
  induction fuel as [|fuel IH]; intros pc0 r Hr; [done|]. cbn [interpret].
  assert (step rewinding 0 (with_pc r pc0) = inr (with_pc r 0, Goto 0)) as ->.
  { unfold step. change (fetch rewinding 0) with (inr (makeInstruction3 CALL 0 1 0) : vm Z). cbn [mbind vm_bind].
    unfold exec. change (opcode (makeInstruction3 CALL 0 1 0)) with (Some CALL). cbn -[operandA operandB operandC].
    change (invoke _ _ _ _ _) with (inr (with_pc r 0) : vm (Runner unit)). cbn. by rewrite Hr. }
  by apply IH.
Qed.

(** ** Suspension *)

Section Suspension.
Context {W : Type} (m : Machine W).
Implicit Types r : Runner W.

(** The native function with its suspension undone. *)
Definition awake (f : Z → Z → Runner W → vm (Runner W)) (argc base : Z) r : vm (Runner W) :=
  r ← f argc base r; mret (with_run_state r Running).

(** The machine whose native functions never suspend. *)
Definition awake_machine : Machine W :=
  mkMachine W (m_code m) (m_pool m) (m_layout m) (m_matches m)
    (fmap (fmap (M := option) awake) (m_functions m)) (fmap (fmap (M := option) awake) (m_handlers m))
    (m_malloc m) (m_powl m) (m_compiles m) (m_pcre_exec m) (m_inet_ntop m).

(** Resume a run, with [fuel] each time, until it does not end suspended. *)
Fixpoint complete (n fuel : nat) (o : option (vm (Runner W * bool))) : option (vm (Runner W * bool)) :=
  match o with
  | Some (inr (r, b)) =>
      if decide (r_state r = Suspended) then
        match n with O => None | S n => complete n fuel (resume m fuel r) end
      else o
  | o => o
  end.

(** A native function leaves the runner running or suspended; a handler that
    suspends has not handled the request. *)
Definition proper (f : Z → Z → Runner W → vm (Runner W)) : Prop :=
  ∀ argc base r r', f argc base r = inr r' → r_state r = Running →
    r_state r' = Running ∨ r_state r' = Suspended.
Definition undecided (f : Z → Z → Runner W → vm (Runner W)) : Prop :=
  ∀ argc base r r', f argc base r = inr r' → r_state r' = Suspended → reg_get r' base = inr 0.

Context (Hfunctions : Forall (λ f, ∀ g, f = Some g → proper g) (m_functions m)).
Context (Hhandlers : Forall (λ f, ∀ g, f = Some g → proper g ∧ undecided g) (m_handlers m)).

(** The instruction of the two machines: the same, or one of them suspends where
    the other goes on. *)
Definition agrees (a b : vm (Runner W * outcome)) : Prop :=
  a = b ∧ yields a (λ res, match snd res with Return _ => r_state (fst res) ≠ Suspended | Goto _ => r_state (fst res) = Running end) ∨
  ∃ r, a = inr (r, Return false) ∧ r_state r = Suspended ∧ b = inr (with_run_state r Running, Goto (r_pc r)).

Lemma invoke_awake table id argc base r :
  invoke (fmap (fmap (M := option) awake) table) id argc base r =
  (r' ← invoke table id argc base r; mret (with_run_state r' Running)).
Proof.
  unfold invoke. rewrite list_lookup_fmap. by destruct (table !! Z.to_nat id) as [[f|]|].
Qed.

Lemma reg_set_state r R v : yields (reg_set r R v) (λ r', r_state r' = r_state r).
Proof. intros r' H. unfold reg_set in H. case_match; [by injection H as <-|done]. Qed.
Lemma set_string_state r R s : yields (set_string m r R s) (λ r', r_state r' = r_state r).
Proof.
  unfold set_string. eapply (yields_bind _ _ (λ x, r_state (fst x) = r_state r)).
  - intros [r' p] H. unfold newString in H. destruct (m_malloc m (r_heap r)) as [[q b]|]; [|done].
    by injection H as <- _.
  - intros [r1 p] H1 r2 H2. apply reg_set_state in H2. by rewrite H2.
Qed.
Lemma set_address_state {T} r A B (table : list T) at_ :
  yields (set_address r A B table at_) (λ r', r_state r' = r_state r).
Proof. unfold set_address. destruct (table !! _); [apply reg_set_state|done]. Qed.

(** Without a call both machines do the same and stay in their state. *)
Definition calls (o : option Opcode) : bool := match o with Some CALL | Some HANDLER => true | _ => false end.

Definition stays (res : Runner W * outcome) : Prop :=
  match snd res with Return _ => r_state (fst res) ≠ Suspended | Goto _ => r_state (fst res) = Running end.

Ltac skip :=
  lazymatch goal with
  | |- yields (reg_set _ _ _ ≫= _) _ => fail
  | |- yields (set_string _ _ _ _ ≫= _) _ => fail
  | |- yields (set_address _ _ _ _ _ ≫= _) _ => fail
  | |- yields (_ ≫= _) _ => eapply yields_bind; [apply yields_any|intros ? _]
  end.

Lemma exec_state i pc r :
  calls (opcode i) = false → r_state r = Running → yields (exec m i pc r) stays.
Proof.
  intros Hc Hs. unfold exec. destruct (opcode i) as [o|]; [|done].
  set (A := operandA i). set (B := operandB i). set (C := operandC i).
  assert (Hgo : ∀ r' pc', r_state r' = r_state r → yields (inr (r', Goto pc')) stays)
    by (intros r' pc' H; apply yields_ret; cbn; congruence).
  assert (Hset : ∀ r' R v pc', r_state r' = r_state r → yields (r'' ← reg_set r' R v; inr (r'', Goto pc')) stays).
  { intros r' R v pc' H. eapply yields_bind; [apply reg_set_state|]. intros r'' H'. apply Hgo. congruence. }
  assert (Hstr : ∀ r' R v pc', r_state r' = r_state r → yields (r'' ← set_string m r' R v; inr (r'', Goto pc')) stays).
  { intros r' R v pc' H. eapply yields_bind; [apply set_string_state|]. intros r'' H'. apply Hgo. congruence. }
  destruct o; try discriminate Hc; repeat skip; try (destruct (re_match _ _ _ _ _) as [? ?]);
    try (first [by apply Hset|by apply Hstr|by apply Hgo]);
    try (eapply yields_bind; [apply set_address_state|]; intros r'' H'; by apply Hgo).
  all: try (case_match; by apply Hgo).
  by apply yields_ret.
Qed.

Lemma exec_same i pc r : calls (opcode i) = false → exec awake_machine i pc r = exec m i pc r.
Proof. intros Hc. unfold exec. destruct (opcode i) as [o|]; [|done]. by destruct o. Qed.

Lemma exec_agrees i pc r : r_state r = Running → agrees (exec m i pc r) (exec awake_machine i pc r).
Proof.
  intros Hs. destruct (calls (opcode i)) eqn:Hc.
  2:{ left. rewrite exec_same by done. split; [done|]. by apply exec_state. }
  unfold exec. destruct (opcode i) as [o|]; [|done].
  set (A := operandA i). set (B := operandB i). set (C := operandC i).
  destruct o; try discriminate Hc; cbn [m_functions m_handlers awake_machine]; rewrite invoke_awake;
    unfold invoke.
  - destruct (m_functions m !! Z.to_nat A) as [[f|]|] eqn:Ef; [|by left..].
    destruct (f B C (with_pc r (pc + 1))) as [e|r'] eqn:Er; [by left|]. cbn [mbind vm_bind mret vm_ret].
    destruct (Forall_lookup_1 _ _ _ _ Hfunctions Ef f eq_refl _ _ _ _ Er Hs) as [Hr'|Hr']; rewrite Hr'.
    + left. split; [by destruct r'; cbn in Hr'; subst|]. by apply yields_ret.
    + right. exists r'. done.
  - destruct (m_handlers m !! Z.to_nat A) as [[f|]|] eqn:Ef; [|by left..].
    destruct (f B C (with_pc r (pc + 1))) as [e|r'] eqn:Er; [by left|]. cbn [mbind vm_bind mret vm_ret].
    destruct (Forall_lookup_1 _ _ _ _ Hhandlers Ef f eq_refl) as [Hp Hu].
    destruct (Hp _ _ _ _ Er Hs) as [Hr'|Hr'].
    + left. assert (Hw : with_run_state r' Running = r') by (destruct r'; cbn in Hr'; by subst).
      rewrite Hw. split; [done|]. eapply yields_bind; [apply yields_any|]. intros h _. rewrite Hr'.
      case_match; by apply yields_ret.
    + right. exists r'. pose proof (Hu _ _ _ _ Er Hr') as Hz. split; [by rewrite Hz; cbn; rewrite Hr'|].
      split; [done|]. change (reg_get (with_run_state r' Running) C) with (reg_get r' C). by rewrite Hz.
Qed.

Lemma step_agrees pc r : r_state r = Running → agrees (step m pc r) (step awake_machine pc r).
Proof.
  intros Hs. unfold step, fetch. cbn [m_code awake_machine]. destruct (0 <=? pc); [|by left].
  destruct (m_code m !! Z.to_nat pc) as [i|]; [|by left]. cbn [vm_opt mbind vm_bind]. by apply exec_agrees.
Qed.

Lemma steps_complete N : ∀ pc r res fuel n k,
  r_state r = Running → interpret awake_machine N pc r = Some res → (N ≤ fuel)%nat → (N ≤ n)%nat → (N ≤ k)%nat →
  complete n k (interpret m fuel pc r) = Some res.
Proof.
  induction N as [|N IH]; intros pc r res fuel n k Hs Hst Hfuel Hn Hk; [done|].
  destruct fuel as [|fuel]; [lia|]. cbn [interpret] in Hst |- *.
  destruct (step_agrees pc r Hs) as [[Heq Hstay]|(r1 & Ha & Hr1 & Hb)].
  - rewrite <- Heq in Hst. destruct (step m pc r) as [e|[r' [pc'|b]]] eqn:Es.
    + injection Hst as <-. by destruct n.
    + apply IH; [by apply (Hstay _ eq_refl)|done|lia..].
    + injection Hst as <-. specialize (Hstay _ eq_refl). cbn in Hstay.
      destruct n; cbn [complete]; by rewrite decide_False.
  - rewrite Ha. rewrite Hb in Hst. destruct n as [|n]; [lia|]. cbn [complete]. rewrite decide_True by done.
    unfold resume. rewrite decide_True by done. unfold loop. apply IH; [done|done|lia..].
Qed.
End Suspension.

(** C38 (equivalence). A handler whose native functions suspend it, resumed until it
    is done, ends in the same state with the same result as the handler whose
    native functions do not suspend; it needs no more resumptions than the latter
    takes steps. A native handler that suspends must not report the request as
    handled: that answer is lost. *)
Theorem suspension_is_transparent {W} (m : Machine W) (r : Runner W) fuel res :
  Forall (λ f, ∀ g, f = Some g → proper g) (m_functions m) →
  Forall (λ f, ∀ g, f = Some g → proper g ∧ undecided g) (m_handlers m) →
  run (awake_machine m) fuel r = Some res →
  complete m fuel fuel (run m fuel r) = Some res.
Proof.
  intros Hf Hh Hrun. unfold run in *. case_decide as Hs.
  - unfold loop in *. by apply (steps_complete m Hf Hh fuel _ _ _ fuel fuel fuel).
  - injection Hrun as <-. by destruct fuel.
Qed.

(** The handler of before, with a native function that suspends. *)
Definition demo_sleepy (argc base : Z) (r : Runner unit) : vm (Runner unit) :=
  r ← demo_strlen argc base r; suspend r.

Definition demo_suspending : Machine unit :=
  mkMachine unit demo_code (m_pool demo_machine) (m_layout demo_machine) [] [Some demo_sleepy] []
    (m_malloc demo_machine) (m_powl demo_machine) (m_compiles demo_machine) (m_pcre_exec demo_machine)
    (m_inet_ntop demo_machine).

Lemma suspension_is_transparent_witness :
  let r := mkRunner Inactive 0 [0; 0; 0; 0] demo_heap None NoUserdata () in
  (∃ r', run demo_suspending 6 r = Some (inr (r', false)) ∧ r_state r' = Suspended) ∧
  ∃ r', complete demo_suspending 6 6 (run demo_suspending 6 r) = Some (inr (r', true)).
Proof.
  intros r. split; [eexists; split; [vm_compute; reflexivity|reflexivity]|].
  destruct (run (awake_machine demo_suspending) 6 r) as [res|] eqn:E; [|vm_compute in E; discriminate E].
  pose proof E as E'. vm_compute in E'. injection E' as <-. eexists.
  apply (suspension_is_transparent demo_suspending r 6).
  - constructor; [|constructor]. intros g [= <-] argc base r1 r2 H _. right.
    unfold demo_sleepy, suspend in H. destruct (demo_strlen argc base r1) as [|r3]; [done|].
    cbn in H. case_decide; [by injection H as <-|done].
  - constructor.
  - exact E.
Defined.

(** ** Strings *)

(** [S2I] undoes [I2S] on what fits a 32-bit [int]... *)
Lemma string_of_number_roundtrip n : - 2 ^ 31 < n < 2 ^ 31 → toInt (signed_decimal n) = Ok n.
Proof.
  intros Hn. unfold signed_decimal. destruct (Z.ltb_spec n 0) as [H|H]; [|apply toInt_decimal; lia].
  change (str "-") with [45]. cbn [app toInt Z.eqb Pos.eqb]. unfold decimal.
  rewrite toInt_print; [cbn; f_equal; lia| |lia]. split; [lia|]. apply (Z.lt_trans _ (2 ^ 31)); [lia|done].
Qed.

(** ... the ordering of strings only sees whether they are empty... *)
Lemma string_order_is_emptiness b c :
  (string_compare SCMPLT b c = true ↔ b = [] ∧ c ≠ []) ∧ (string_compare SCMPLE b c = false ↔ b ≠ [] ∧ c = []).
Proof. destruct b, c; cbn; naive_solver. Qed.

(** ... and a string contains what begins in it and goes on in the memory behind it. *)
Example contains_beyond_the_end : find (str "ab", str "cd") (str "bc", [0]) = inr (Some 1%nat).
Proof. by vm_compute. Qed.
