(* ===== verification/FlowProgram.v ===== *)
(** * Programs of the Flow virtual machine and their linking

    [src/xzero-flow/vm/Program.cc], [Runtime.cc], [NativeCallback.cc],
    [Handler.cc]. A program is a constant pool with one handler per entry and one
    match table per definition; [link] resolves the signatures of its native
    functions and handlers against the callbacks a runtime has registered. *)
From stdpp Require Import gmap.
From S2P Require Import Prelude FlowType FlowInstruction FlowConstants FlowMatch FlowVm.

(** A registered callback; [cb_function] is what [bind] was given. *)
Record NativeCallback (W : Type) := mkCallback {
  cb_isHandler : bool;
  cb_signature : Signature;
  cb_names : list bytes;
  cb_function : Z → Z → Runner W → vm (Runner W) }.
Arguments mkCallback {W}.
Arguments cb_isHandler {W}.
Arguments cb_signature {W}.
Arguments cb_names {W}.
Arguments cb_function {W}.

Record Handler := mkHandler { h_name : bytes; h_registerCount : Z; h_code : list Z }.

Definition newHandler (name : bytes) (code : list Z) : Handler := mkHandler name (computeRegisterCount code) code.
Definition setCode (h : Handler) (code : list Z) : Handler := mkHandler (h_name h) (computeRegisterCount code) code.

Record Program (W : Type) := mkProgram {
  p_cp : ConstantPool;
  p_handlers : list Handler;
  p_matches : list Match;
  p_nativeHandlers : list (option (NativeCallback W));
  p_nativeFunctions : list (option (NativeCallback W)) }.
Arguments mkProgram {W}.
Arguments p_cp {W}.
Arguments p_handlers {W}.
Arguments p_matches {W}.
Arguments p_nativeHandlers {W}.
Arguments p_nativeFunctions {W}.

Section Program.
Context {W : Type}.
Implicit Types (p : Program W) (builtins : list (option (NativeCallback W))).

(** ** Runtime *)

Definition registerHandler builtins (name : bytes) f : list (option (NativeCallback W)) :=
  builtins ++ [Some (mkCallback true (mkSignature name TBoolean []) [] f)].
Definition registerFunction builtins (name : bytes) (ret : FlowType) f : list (option (NativeCallback W)) :=
  builtins ++ [Some (mkCallback false (mkSignature name ret []) [] f)].

(** [param<T>(name)] of the signature builder. *)
Definition add_param (c : NativeCallback W) (name : bytes) (t : FlowType) : NativeCallback W :=
  let s := cb_signature c in
  mkCallback (cb_isHandler c) (mkSignature (sig_name s) (sig_returnType s) (sig_args s ++ [t]))
    (cb_names c ++ [name]) (cb_function c).

(** [Runtime::find]: the first callback with that signature text. *)
Fixpoint runtime_find builtins (signature : bytes) : option (NativeCallback W) :=
  match builtins with
  | [] => None
  | Some c :: rest => if bytes_eqb (to_s (cb_signature c)) signature then Some c else runtime_find rest signature
  | None :: rest => runtime_find rest signature
  end.

(** [unregisterNative]: the first callback with that name becomes null. *)
Fixpoint unregisterNative builtins (name : bytes) : list (option (NativeCallback W)) :=
  match builtins with
  | [] => []
  | Some c :: rest => if bytes_eqb (sig_name (cb_signature c)) name then None :: rest
                      else Some c :: unregisterNative rest name
  | None :: rest => None :: unregisterNative rest name
  end.

(** [NativeCallback::find]: the position of a named parameter, or [-1]. *)
Fixpoint param_find (i : Z) (names : list bytes) (name : bytes) : Z :=
  match names with
  | [] => -1
  | n :: names => if bytes_eqb n name then i else param_find (i + 1) names name
  end.

(** ** Program *)

Definition newProgram (cp : ConstantPool) : Program W := mkProgram cp [] [] [] [].

Definition createHandler p (name : bytes) (code : list Z) : Program W :=
  mkProgram (p_cp p) (p_handlers p ++ [newHandler name code]) (p_matches p) (p_nativeHandlers p) (p_nativeFunctions p).

Fixpoint setup_matches (cp : ConstantPool) (defs : list MatchDef) : result (list Match) :=
  match defs with
  | [] => Ok []
  | def :: defs => m ← newMatch cp def; ms ← setup_matches cp defs; Ok (m :: ms)
  end.

Definition setup p : result (Program W) :=
  let p := foldl (λ p h, createHandler p (fst h) (snd h)) p (cp_handlers (p_cp p)) in
  ms ← setup_matches (p_cp p) (cp_matchDefs (p_cp p));
  Ok (mkProgram (p_cp p) (p_handlers p) (p_matches p ++ ms) (p_nativeHandlers p) (p_nativeFunctions p)).

Fixpoint find_handler (hs : list Handler) (name : bytes) : option Handler :=
  match hs with [] => None | h :: hs => if bytes_eqb (h_name h) name then Some h else find_handler hs name end.
Definition findHandler p (name : bytes) : option Handler := find_handler (p_handlers p) name.
Definition handlerNames p : list bytes := h_name <$> p_handlers p.

(** The number of unresolved signatures, and the table. *)
Fixpoint resolve builtins (sigs : list bytes) : list (option (NativeCallback W)) * Z :=
  match sigs with
  | [] => ([], 0)
  | s :: sigs =>
      let '(table, errors) := resolve builtins sigs in
      match runtime_find builtins s with
      | Some c => (Some c :: table, errors)
      | None => (None :: table, errors + 1)
      end
  end.

(** [import] loads a module into the runtime, which may register callbacks. *)
Context (import : list (option (NativeCallback W)) → bytes * bytes → list (option (NativeCallback W)) * bool).

Fixpoint import_all builtins (modules : list (bytes * bytes)) : list (option (NativeCallback W)) * Z :=
  match modules with
  | [] => (builtins, 0)
  | m :: modules =>
      let '(b, ok) := import builtins m in
      let '(b, errors) := import_all b modules in
      (b, if ok : bool then errors else errors + 1)
  end.

Definition link p builtins : Program W * list (option (NativeCallback W)) * bool :=
  let '(b, e1) := import_all builtins (cp_modules (p_cp p)) in
  let '(hs, e2) := resolve b (cp_nativeHandlerSignatures (p_cp p)) in
  let '(fs, e3) := resolve b (cp_nativeFunctionSignatures (p_cp p)) in
  (mkProgram (p_cp p) (p_handlers p) (p_matches p) hs fs, b, e1 + e2 + e3 =? 0).

(** The machine that runs one handler of the program. *)
Definition machine_of p (h : Handler) (layout : Layout) malloc powl compiles pcre_exec inet_ntop : Machine W :=
  mkMachine W (h_code h) (p_cp p) layout (p_matches p)
    (fmap (fmap (M := option) cb_function) (p_nativeFunctions p))
    (fmap (fmap (M := option) cb_function) (p_nativeHandlers p))
    malloc powl compiles pcre_exec inet_ntop.

(** ** Linking *)

Lemma runtime_find_signature builtins s c :
  runtime_find builtins s = Some c → Some c ∈ builtins ∧ to_s (cb_signature c) = s.
Proof.
  induction builtins as [|[c'|] builtins IH]; cbn; [done| |].
  - destruct (bytes_eqb _ s) eqn:E; [|intros [? ?]%IH; split; [by right|done]].
    intros [= ->]. split; [by left|by apply bool_decide_eq_true in E].
  - intros [? ?]%IH. split; [by right|done].
Qed.

Lemma resolve_spec builtins sigs :
  let '(table, errors) := resolve builtins sigs in
  0 ≤ errors ∧ table = runtime_find builtins <$> sigs ∧
  (errors = 0 ↔ Forall (λ s, is_Some (runtime_find builtins s)) sigs).
Proof.
  induction sigs as [|s sigs IH]; cbn; [done|]. destruct (resolve builtins sigs) as [table errors].
  destruct IH as (H0 & -> & Hiff).
  destruct (runtime_find builtins s) as [c|] eqn:E.
  - split; [done|]. split; [by rewrite ?E|]. rewrite Hiff. split.
    + intros H. constructor; [by rewrite ?E|done].
    + by intros [_ H]%Forall_cons_1.
  - split; [lia|]. split; [by rewrite ?E|]. split; [lia|]. intros [H _]%Forall_cons_1. rewrite E in H. by destruct H.
Qed.

Lemma import_all_errors builtins modules : 0 ≤ snd (import_all builtins modules).
Proof.
  revert builtins; induction modules as [|x modules IH]; intros b; cbn; [done|].
  destruct (import b x) as [b' ok]. specialize (IH b'). destruct (import_all b' modules) as [b'' e]. cbn in *.
  destruct ok; lia.
Qed.

Lemma setup_matches_spec cp defs ms :
  setup_matches cp defs = Ok ms ↔ Forall2 (λ def t, newMatch cp def = Ok t) defs ms.
Proof.
  revert ms; induction defs as [|d defs IH]; intros ms; cbn.
  - split; [intros [= <-]; constructor|]. intros H. by inversion H.
  - rewrite bind_Ok. split.
    + intros (t & Ht & H). apply bind_Ok in H as (ms' & H & [= <-]). constructor; [done|by apply IH].
    + intros H. inversion H as [|? t ? ms' Ht Hms]; subst. exists t. split; [done|].
      apply bind_Ok. exists ms'. split; [by apply IH|done].
Qed.
End Program.

(** A program that links: each of its native functions and handlers
    is, in the order of the constant pool, a registered callback with exactly that
    signature, so no call of it is unresolved; and linking fails if a signature has
    no callback. *)
Theorem link_resolves {W} (import : _ → bytes * bytes → _ * bool) (p : Program W) builtins :
  let '(p', b, ok) := link import p builtins in
  (ok = true → ∀ i s, cp_nativeFunctionSignatures (p_cp p) !! i = Some s →
     ∃ c, p_nativeFunctions p' !! i = Some (Some c) ∧ Some c ∈ b ∧ to_s (cb_signature c) = s) ∧
  (ok = true → ∀ i s, cp_nativeHandlerSignatures (p_cp p) !! i = Some s →
     ∃ c, p_nativeHandlers p' !! i = Some (Some c) ∧ Some c ∈ b ∧ to_s (cb_signature c) = s) ∧
  (∀ s, s ∈ cp_nativeFunctionSignatures (p_cp p) ++ cp_nativeHandlerSignatures (p_cp p) →
     runtime_find b s = None → ok = false).
Proof.
  unfold link. pose proof (import_all_errors import builtins (cp_modules (p_cp p))) as Hi.
  destruct (import_all import builtins (cp_modules (p_cp p))) as [b e1]. cbn in Hi.
  pose proof (resolve_spec b (cp_nativeHandlerSignatures (p_cp p))) as Hh.
  pose proof (resolve_spec b (cp_nativeFunctionSignatures (p_cp p))) as Hf.
  destruct (resolve b (cp_nativeHandlerSignatures (p_cp p))) as [hs e2].
  destruct (resolve b (cp_nativeFunctionSignatures (p_cp p))) as [fs e3].
  destruct Hh as (Hh0 & -> & Hh), Hf as (Hf0 & -> & Hf). cbn [p_nativeFunctions p_nativeHandlers].
  assert (Hat : ∀ sigs i s, Forall (λ s, is_Some (runtime_find b s)) sigs → sigs !! i = Some s →
    ∃ c, (runtime_find b <$> sigs) !! i = Some (Some c) ∧ Some c ∈ b ∧ to_s (cb_signature c) = s).
  { intros sigs i s Hall Hs. destruct (Forall_lookup_1 _ _ _ _ Hall Hs) as [c Hc]. exists c.
    rewrite list_lookup_fmap, Hs. cbn. rewrite Hc. split; [done|]. by apply runtime_find_signature. }
  split; [|split].
  - intros He%Z.eqb_eq i s Hs. apply Hat; [apply Hf; lia|done].
  - intros He%Z.eqb_eq i s Hs. apply Hat; [apply Hh; lia|done].
  - intros s Hs Hn. apply Z.eqb_neq. intros He. apply elem_of_app in Hs as [Hs|Hs].
    + assert (Hall : Forall (λ s, is_Some (runtime_find b s)) (cp_nativeFunctionSignatures (p_cp p))) by (apply Hf; lia).
      rewrite Forall_forall in Hall. apply list_elem_of_In, Hall in Hs. rewrite Hn in Hs. by destruct Hs.
    + assert (Hall : Forall (λ s, is_Some (runtime_find b s)) (cp_nativeHandlerSignatures (p_cp p))) by (apply Hh; lia).
      rewrite Forall_forall in Hall. apply list_elem_of_In, Hall in Hs. rewrite Hn in Hs. by destruct Hs.
Qed.
