(* ===== verification/FlowIr.v ===== *)
(** * The intermediate representation of Flow, and its passes

    [src/xzero-flow/ir] ([Value.cc], [Instr.cc], [Instructions.h], [BasicBlock.cc],
    [IRHandler.cc], [InstructionVisitor.cc], [PassManager.cc]) and
    [src/xzero-flow/transform]: a handler is a list of basic blocks, a block a
    list of instructions that ends in a terminator; blocks keep the vectors of
    their predecessors and successors.

    Blocks and instructions are objects: they are kept under numbers. The uses of
    a value are the instructions that have it as an operand; destroying a value
    that is used fails an assertion. Names, which only the dump uses, are left
    out. *)
From stdpp Require Import gmap.
From S2P Require Import Prelude FlowType NetAddress FlowConstants.

(** ** Values *)

Inductive UnaryOperator := INeg | INot | BNot | SLen | SIsEmpty.
Inductive BinaryOperator :=
  | IAdd | ISub | IMul | IDiv | IRem | IPow | IAnd | IOr | IXor | IShl | IShr
  | ICmpEQ | ICmpNE | ICmpLE | ICmpGE | ICmpLT | ICmpGT
  | BAnd | BOr | BXor
  | SAdd | SSubStr | SCmpEQ | SCmpNE | SCmpLE | SCmpGE | SCmpLT | SCmpGT | SCmpRE | SCmpBeg | SCmpEnd | SIn
  | PCmpEQ | PCmpNE | PInCidr.
#[export] Instance UnaryOperator_eq_dec : EqDecision UnaryOperator.
Proof. solve_decision. Defined.
#[export] Instance BinaryOperator_eq_dec : EqDecision BinaryOperator.
Proof. solve_decision. Defined.

(** Constants are shared: [IRProgram::get] looks for an equal one before it makes
    a new one, so that the value stands for the object. An array is known by its
    elements, a builtin by its signature, a handler by its name. *)
Inductive IrConstant :=
  | ConstantBoolean (b : bool)
  | ConstantInt (n : Z)
  | ConstantString (s : bytes)
  | ConstantIP (a : IPAddress)
  | ConstantCidr (c : Cidr)
  | ConstantRegExp (r : RegExp)
  | ConstantIntArray (l : list Z)
  | ConstantStringArray (l : list bytes)
  | ConstantIPArray (l : list IPAddress)
  | ConstantCidrArray (l : list Cidr)
  | IRBuiltinFunction (sig : Signature)
  | IRBuiltinHandler (sig : Signature)
  | ConstantHandler (name : bytes).
#[export] Instance IrConstant_eq_dec : EqDecision IrConstant.
Proof. solve_decision. Defined.

Definition constant_type (c : IrConstant) : FlowType :=
  match c with
  | ConstantBoolean _ => TBoolean | ConstantInt _ => TNumber | ConstantString _ => TString
  | ConstantIP _ => TIPAddress | ConstantCidr _ => TCidr | ConstantRegExp _ => TRegExp
  | ConstantIntArray _ => TIntArray | ConstantStringArray _ => TStringArray
  | ConstantIPArray _ => TIPAddrArray | ConstantCidrArray _ => TCidrArray
  | IRBuiltinFunction sig => sig_returnType sig | IRBuiltinHandler _ => TBoolean
  | ConstantHandler _ => THandler
  end.

Inductive Operand := ONull | OConst (c : IrConstant) | OInstr (v : nat) | OBlock (b : nat).
#[export] Instance Operand_eq_dec : EqDecision Operand.
Proof. solve_decision. Defined.

(** The classes of instructions, with what else they keep. *)
Inductive InstrKind :=
  | NopInstr | AllocaInstr | StoreInstr | LoadInstr | PhiNode | CallInstr | HandlerCallInstr
  | CastInstr | UnaryInstr (op : UnaryOperator) | BinaryInstr (op : BinaryOperator)
  | CondBrInstr | BrInstr | RetInstr | MatchInstr (op : MatchClass).
#[export] Instance InstrKind_eq_dec : EqDecision InstrKind.
Proof. solve_decision. Defined.

Definition is_terminator (k : InstrKind) : bool :=
  match k with CondBrInstr | BrInstr | RetInstr | MatchInstr _ => true | _ => false end.

(** The types of the results of the operators, from the list of instructions in
    [InstructionVisitor.h]. *)
Definition unary_type (op : UnaryOperator) : FlowType :=
  match op with INeg | INot | SLen => TNumber | BNot | SIsEmpty => TBoolean end.
Definition binary_type (op : BinaryOperator) : FlowType :=
  match op with
  | IAdd | ISub | IMul | IDiv | IRem | IPow | IAnd | IOr | IXor | IShl | IShr => TNumber
  | SAdd | SSubStr => TString
  | _ => TBoolean
  end.

Record Instr := mkInstr { in_id : nat; in_kind : InstrKind; in_type : FlowType; in_operands : list Operand }.
#[export] Instance Instr_eq_dec : EqDecision Instr.
Proof. solve_decision. Defined.

Definition op_block (o : Operand) : option nat := match o with OBlock b => Some b | _ => None end.
Definition op_value (o : Operand) : option nat := match o with OInstr v => Some v | _ => None end.
(** The blocks among the operands of an instruction, in order. *)
Definition targets (i : Instr) : list nat := omap op_block (in_operands i).

(** ** Handlers *)

Record IRHandler := mkIRHandler {
  hd_blocks : list nat;
  hd_code : gmap nat (list Instr);
  hd_preds : gmap nat (list nat);
  hd_succs : gmap nat (list nat);
  hd_next : nat;
}.
Implicit Types h : IRHandler.

Definition set_blocks (x : list nat) h := mkIRHandler x (hd_code h) (hd_preds h) (hd_succs h) (hd_next h).
Definition set_code (x : gmap nat (list Instr)) h := mkIRHandler (hd_blocks h) x (hd_preds h) (hd_succs h) (hd_next h).
Definition set_preds (x : gmap nat (list nat)) h := mkIRHandler (hd_blocks h) (hd_code h) x (hd_succs h) (hd_next h).
Definition set_succs (x : gmap nat (list nat)) h := mkIRHandler (hd_blocks h) (hd_code h) (hd_preds h) x (hd_next h).
Definition set_counter (x : nat) h := mkIRHandler (hd_blocks h) (hd_code h) (hd_preds h) (hd_succs h) x.

Definition code_of h (b : nat) : list Instr := default [] (hd_code h !! b).
Definition predecessors h (b : nat) : list nat := default [] (hd_preds h !! b).
Definition successors h (b : nat) : list nat := default [] (hd_succs h !! b).
Definition set_block_code (b : nat) (c : list Instr) h : IRHandler := set_code (<[b := c]> (hd_code h)) h.

(** [new IRHandler], and [createBlock] of the builder; blocks and instructions
    share one numbering. *)
Definition newIRHandler : IRHandler := mkIRHandler [] ∅ ∅ ∅ 0.
Definition createBlock h : IRHandler := set_counter (S (hd_next h)) (set_blocks (hd_blocks h ++ [hd_next h]) (set_block_code (hd_next h) [] h)).

(** [getEntryBlock]: the front of the list. *)
Definition getEntryBlock h : option nat := head (hd_blocks h).

(** [getTerminator]: the last instruction, if it is a terminator; [back()] of an
    empty vector is undefined. *)
Definition terminator_of (c : list Instr) : option Instr :=
  match list.last c with Some i => if is_terminator (in_kind i) then Some i else None | None => None end.
(** The blocks that the terminator of a block names. *)
Definition targets_of h (p : nat) : list nat :=
  match terminator_of (code_of h p) with Some i => targets i | None => [] end.
Definition getTerminator h (b : nat) : result (option Instr) :=
  match code_of h b with [] => Raise UndefinedBehaviour | c => Ok (terminator_of c) end.

(** Whether an instruction is an operand of some instruction: [isUsed]. *)
Definition uses_value (v : nat) (i : Instr) : bool := existsb (λ o, bool_decide (o = OInstr v)) (in_operands i).
Definition isUsed h (v : nat) : bool := existsb (λ p, existsb (uses_value v) p.2) (map_to_list (hd_code h)).

(** ** Links *)

(** [std::find] followed by [erase]. *)
Fixpoint erase_one (x : nat) (l : list nat) : option (list nat) :=
  match l with
  | [] => None
  | y :: l => if bool_decide (y = x) then Some l else (y ::.) <$> erase_one x l
  end.

Definition linkSuccessor (p s : nat) h : IRHandler :=
  let h := set_succs (<[p := successors h p ++ [s]]> (hd_succs h)) h in
  set_preds (<[s := predecessors h s ++ [p]]> (hd_preds h)) h.

Definition unlinkSuccessor (p s : nat) h : result IRHandler :=
  match erase_one p (predecessors h s) with
  | None => Raise AssertionFailure
  | Some ps =>
      let h := set_preds (<[s := ps]> (hd_preds h)) h in
      match erase_one s (successors h p) with
      | None => Raise AssertionFailure
      | Some ss => Ok (set_succs (<[p := ss]> (hd_succs h)) h)
      end
  end.

Fixpoint link_all (p : nat) (ss : list nat) h : IRHandler :=
  match ss with [] => h | s :: ss => link_all p ss (linkSuccessor p s h) end.
Fixpoint unlink_all (p : nat) (ss : list nat) h : result IRHandler :=
  match ss with [] => Ok h | s :: ss => h ← unlinkSuccessor p s h; unlink_all p ss h end.

(** ** Basic blocks *)

(** [remove] of the last instruction of a block, the only use of it; the links
    of a terminator go first. *)
Definition block_remove (b : nat) (i : Instr) h : result IRHandler :=
  h ← (if is_terminator (in_kind i) then unlink_all b (targets i) h else Ok h);
  Ok (set_block_code b (removelast (code_of h b)) h).

(** [push_back] of an instruction; a terminator links its targets. *)
Definition block_push_back (b : nat) (i : Instr) h : IRHandler :=
  let h := set_block_code b (code_of h b ++ [i]) h in
  if is_terminator (in_kind i) then link_all b (targets i) h else h.

(** [new] and [clone]: a new object with these operands. *)
Definition new_instr (k : InstrKind) (ty : FlowType) (ops : list Operand) h : Instr * IRHandler :=
  (mkInstr (hd_next h) k ty ops, set_counter (S (hd_next h)) h).
Definition clone (i : Instr) h : Instr * IRHandler := new_instr (in_kind i) (in_type i) (in_operands i) h.

(** [delete] of an instruction that is in no block: its value must not be used. *)
Definition delete_instr (i : Instr) h : result unit := ensure (negb (isUsed h (in_id i))) AssertionFailure.

Definition push_new (b : nat) (k : InstrKind) (ty : FlowType) (ops : list Operand) h : IRHandler :=
  let '(i, h) := new_instr k ty ops h in block_push_back b i h.

(** [merge_back]: clones of the instructions of the other block, in order; the
    loop goes over the vector it appends to when the block is merged into itself. *)
Fixpoint merge_loop (b : nat) (is_ : list Instr) h : IRHandler :=
  match is_ with [] => h | i :: is_ => let '(i', h) := clone i h in merge_loop b is_ (block_push_back b i' h) end.
Definition merge_back (b other : nat) h : result IRHandler :=
  t ← getTerminator h b;
  _ ← ensure (bool_decide (t = None)) AssertionFailure;
  _ ← ensure (negb (bool_decide (b = other))) UndefinedBehaviour;
  Ok (merge_loop b (code_of h other) h).

(** [isAfter]: the other block is the next in the list. *)
Fixpoint next_in (b : nat) (l : list nat) : option nat :=
  match l with [] => None | x :: l => if bool_decide (x = b) then head l else next_in b l end.
Definition isAfter h (b other : nat) : bool := bool_decide (next_in b (hd_blocks h) = Some other).

(** [list.remove], then [insert] behind or before. *)
Fixpoint insert_after (b x : nat) (l : list nat) : list nat :=
  match l with [] => [x] | y :: l => if bool_decide (y = b) then y :: x :: l else y :: insert_after b x l end.
Fixpoint insert_before (b x : nat) (l : list nat) : list nat :=
  match l with [] => [x] | y :: l => if bool_decide (y = b) then x :: y :: l else y :: insert_before b x l end.
Definition without (x : nat) (l : list nat) : list nat := List.filter (λ y, negb (bool_decide (y = x))) l.
Definition moveAfter (b other : nat) h : IRHandler := set_blocks (insert_after b other (without other (hd_blocks h))) h.
Definition moveBefore (b other : nat) h : IRHandler := set_blocks (insert_before b other (without other (hd_blocks h))) h.

(** ** Operands of a terminator *)

(** [setOperand] at position [n] of the terminator of block [b]. *)
Definition setOperand (b n : nat) (new : Operand) h : result IRHandler :=
  match terminator_of (code_of h b) with
  | None => Raise UndefinedBehaviour
  | Some i =>
      match in_operands i !! n with
      | None => Raise UndefinedBehaviour
      | Some old =>
          let i' := mkInstr (in_id i) (in_kind i) (in_type i) (<[n := new]> (in_operands i)) in
          let h := set_block_code b (removelast (code_of h b) ++ [i']) h in
          h ← match old with OBlock s => unlinkSuccessor b s h | _ => Ok h end;
          Ok match new with OBlock s => linkSuccessor b s h | _ => h end
      end
  end.

(** The loop of [replaceOperand] over the positions [ns]. *)
Fixpoint replace_loop (b : nat) (old new : Operand) (ns : list nat) h : result IRHandler :=
  match ns with
  | [] => Ok h
  | n :: ns =>
      match terminator_of (code_of h b) with
      | None => Raise UndefinedBehaviour
      | Some i =>
          if bool_decide (in_operands i !! n = Some old) then h ← setOperand b n new h; replace_loop b old new ns h
          else replace_loop b old new ns h
      end
  end.
Definition replaceOperand (b : nat) (old new : Operand) h : result IRHandler :=
  match terminator_of (code_of h b) with
  | None => Raise UndefinedBehaviour
  | Some i => replace_loop b old new (seq 0 (length (in_operands i))) h
  end.

(** [addOperand] of the terminator of block [b]. *)
Definition addOperand (b : nat) (o : Operand) h : result IRHandler :=
  match terminator_of (code_of h b) with
  | None => Raise UndefinedBehaviour
  | Some i =>
      let i' := mkInstr (in_id i) (in_kind i) (in_type i) (in_operands i ++ [o]) in
      let h := set_block_code b (removelast (code_of h b) ++ [i']) h in
      Ok match o with OBlock s => linkSuccessor b s h | _ => h end
  end.

(** A match has its condition, the default block, and pairs of a label and a
    block as operands; it is inserted without a default and without cases. *)
Definition createMatch (b : nat) (op : MatchClass) (cond : Operand) h : IRHandler := push_new b (MatchInstr op) TVoid [cond; ONull] h.
Definition addCase (b : nat) (label : IrConstant) (code : nat) h : result IRHandler :=
  h ← addOperand b (OConst label) h; addOperand b (OBlock code) h.
Definition setElseBlock (b code : nat) h : result IRHandler := setOperand b 1 (OBlock code) h.
Definition elseBlock (i : Instr) : option Operand := in_operands i !! 1%nat.
Fixpoint match_cases (ops : list Operand) : list (Operand * Operand) :=
  match ops with l :: c :: ops => (l, c) :: match_cases ops | _ => [] end.
Definition cases (i : Instr) : list (Operand * Operand) := match_cases (drop 2 (in_operands i)).

(** ** Erasing a block *)

(** [delete] of the instructions of a block, the last first. *)
Fixpoint delete_code (b : nat) (fuel : nat) h : result IRHandler :=
  match fuel, list.last (code_of h b) with
  | S fuel, Some i =>
      let h := set_block_code b (removelast (code_of h b)) h in
      _ ← delete_instr i h;
      delete_code b fuel h
  | _, _ => Ok h
  end.

(** [~BasicBlock]: no predecessor is left, and no instruction refers to the
    block. *)
Definition uses_block (b : nat) (i : Instr) : bool := existsb (λ o, bool_decide (o = OBlock b)) (in_operands i).
Definition delete_block (b : nat) h : result IRHandler :=
  h ← delete_code b (length (code_of h b)) h;
  _ ← ensure (bool_decide (predecessors h b = [])) AssertionFailure;
  h ← unlink_all b (successors h b) h;
  _ ← ensure (negb (existsb (λ p, existsb (uses_block b) p.2) (map_to_list (hd_code h)))) AssertionFailure;
  Ok (mkIRHandler (hd_blocks h) (delete b (hd_code h)) (delete b (hd_preds h)) (delete b (hd_succs h)) (hd_next h)).

Definition handler_erase (b : nat) h : result IRHandler :=
  match erase_one b (hd_blocks h) with
  | None => Raise AssertionFailure
  | Some bs =>
      let h := set_blocks bs h in
      t ← getTerminator h b;
      h ← match t with Some i => h ← block_remove b i h; _ ← delete_instr i h; Ok h | None => Ok h end;
      delete_block b h
  end.

Fixpoint erase_all (bs : list nat) h : result IRHandler :=
  match bs with [] => Ok h | b :: bs => h ← handler_erase b h; erase_all bs h end.

(** [setEntryBlock] of a block of the handler. *)
Definition setEntryBlock (b : nat) h : result IRHandler :=
  match erase_one b (hd_blocks h) with None => Raise AssertionFailure | Some bs => Ok (set_blocks (b :: bs) h) end.
