(* ===== verification/FlowPasses.v ===== *)
(** * The passes over the intermediate representation

    [src/xzero-flow/transform/*.cc] and [ir/PassManager.cc]. A pass returns
    whether it has changed the handler. *)
From stdpp Require Import gmap.
From S2P Require Import Prelude FlowType FlowConstants FlowIr.
Implicit Types h : IRHandler.

(** ** Comparing instructions: [IsSameInstruction]

    The dynamic types and the operands are compared; the class of a match and the
    type of the value are not part of the dynamic type. *)
Definition same_class (a b : InstrKind) : bool :=
  match a, b with
  | MatchInstr _, MatchInstr _ => true
  | _, _ => bool_decide (a = b)
  end.
Definition isSameInstruction (a b : Instr) : bool :=
  same_class (in_kind a) (in_kind b) && bool_decide (in_operands a = in_operands b).
Fixpoint isSameInstructions (a b : list Instr) : bool :=
  match a, b with
  | [], [] => true
  | i :: a, j :: b => isSameInstruction i j && isSameInstructions a b
  | _, _ => false
  end.
Definition isSameBlock h (a b : nat) : bool :=
  isSameInstructions (code_of h a) (code_of h b) && bool_decide (successors h a = successors h b).

(** ** Redirecting the predecessors of a block

    [for (BasicBlock* pred: bb->predecessors()) pred->getTerminator()->replaceOperand(bb, to)]:
    [predecessors] returns the vector itself, and [replaceOperand] erases from it,
    through [unlinkSuccessor], when the terminator names [bb]. The iterators of
    the loop are not valid behind that, and going on with them is undefined. *)
Fixpoint retarget_loop (bb to : nat) (ps : list nat) h : result IRHandler :=
  match ps with
  | [] => Ok h
  | pred :: ps =>
      h' ← replaceOperand pred (OBlock bb) (OBlock to) h;
      if bool_decide (bb ∈ targets_of h pred) then Raise UndefinedBehaviour else retarget_loop bb to ps h'
  end.
Definition retarget (bb to : nat) h : result IRHandler := retarget_loop bb to (predecessors h bb) h.

(** ** [UnusedBlockPass] *)

Definition unused_block h (b : nat) : bool :=
  negb (bool_decide (getEntryBlock h = Some b)) && bool_decide (predecessors h b = []).
Definition unusedBlockPass h : result (bool * IRHandler) :=
  let unused := List.filter (unused_block h) (hd_blocks h) in
  h ← erase_all unused h;
  Ok (negb (bool_decide (unused = [])), h).

(** ** [MergeBlockPass] *)

Fixpoint classify h (bb : nat) (uniques : list (list nat)) : list (list nat) :=
  match uniques with
  | [] => [[bb]]
  | uniq :: uniques => if existsb (isSameBlock h bb) uniq then (uniq ++ [bb]) :: uniques else uniq :: classify h bb uniques
  end.
Definition uniques_of h : list (list nat) := foldl (λ u bb, classify h bb u) [] (hd_blocks h).

Fixpoint merge_into (front : nat) (others : list nat) h : result IRHandler :=
  match others with [] => Ok h | b :: others => h ← retarget b front h; merge_into front others h end.
Fixpoint merge_uniques (uniques : list (list nat)) h : result IRHandler :=
  match uniques with
  | [] => Ok h
  | [] :: uniques => merge_uniques uniques h
  | (front :: others) :: uniques => h ← merge_into front others h; merge_uniques uniques h
  end.
(** It returns false in any case. *)
Definition mergeBlockPass h : result (bool * IRHandler) :=
  h' ← merge_uniques (uniques_of h) h;
  Ok (false, h').

(** ** [EmptyBlockElimination] *)

Definition br_target (i : Instr) : option nat :=
  match in_kind i, in_operands i with BrInstr, OBlock t :: _ => Some t | _, _ => None end.

(** The loop over the blocks: those to be erased; at the entry block it ends. *)
Fixpoint empty_loop (bs : list nat) (eliminated : list nat) h : result (list nat * IRHandler) :=
  match bs with
  | [] => Ok (eliminated, h)
  | bb :: bs =>
      match code_of h bb with
      | [i] =>
          match br_target i with
          | Some newSuccessor =>
              if bool_decide (getEntryBlock h = Some bb) then h ← setEntryBlock bb h; Ok (eliminated ++ [bb], h)
              else h ← retarget bb newSuccessor h; empty_loop bs (eliminated ++ [bb]) h
          | None => empty_loop bs eliminated h
          end
      | _ => empty_loop bs eliminated h
      end
  end.
Definition emptyBlockElimination h : result (bool * IRHandler) :=
  '(eliminated, h) ← empty_loop (hd_blocks h) [] h;
  h ← erase_all eliminated h;
  Ok (negb (bool_decide (eliminated = [])), h).

(** ** [InstructionElimination] *)

(** A terminator that is replaced by a branch. *)
Definition replace_by_br (bb : nat) (i : Instr) (to : nat) h : result IRHandler :=
  h ← block_remove bb i h;
  _ ← delete_instr i h;
  Ok (push_new bb BrInstr TVoid [OBlock to] h).

Definition rewriteCondBrToSameBranches (bb : nat) h : result (bool * IRHandler) :=
  t ← getTerminator h bb;
  match t with
  | Some (mkInstr id CondBrInstr ty [c; OBlock t1; OBlock t2]) =>
      if bool_decide (t1 = t2) then h ← replace_by_br bb (mkInstr id CondBrInstr ty [c; OBlock t1; OBlock t2]) t1 h; Ok (true, h)
      else Ok (false, h)
  | _ => Ok (false, h)
  end.

Definition eliminateLinearBr (bb : nat) h : result (bool * IRHandler) :=
  t ← getTerminator h bb;
  match t with
  | Some br =>
      match br_target br with
      | Some nextBB =>
          if bool_decide (predecessors h nextBB = [bb]) then
            h ← block_remove bb br h;
            _ ← delete_instr br h;
            h ← merge_back bb nextBB h;
            h ← handler_erase nextBB h;
            Ok (true, h)
          else Ok (false, h)
      | None => Ok (false, h)
      end
  | None => Ok (false, h)
  end.

Definition foldConstantCondBr (bb : nat) h : result (bool * IRHandler) :=
  t ← getTerminator h bb;
  match t with
  | Some (mkInstr id CondBrInstr ty [OConst (ConstantBoolean c); OBlock t1; OBlock t2]) =>
      let i := mkInstr id CondBrInstr ty [OConst (ConstantBoolean c); OBlock t1; OBlock t2] in
      h ← replace_by_br bb i (if c then t1 else t2) h;
      Ok (true, h)
  | _ => Ok (false, h)
  end.

Definition branchToExit (bb : nat) h : result (bool * IRHandler) :=
  t ← getTerminator h bb;
  match t with
  | Some br =>
      match br_target br with
      | Some targetBB =>
          match code_of h targetBB with
          | [ret] =>
              if isAfter h bb targetBB then Ok (false, h)
              else if bool_decide (in_kind ret = RetInstr) then
                h ← block_remove bb br h;
                _ ← delete_instr br h;
                Ok (true, push_new bb RetInstr TVoid (in_operands ret) h)
              else Ok (false, h)
          | _ => Ok (false, h)
          end
      | None => Ok (false, h)
      end
  | None => Ok (false, h)
  end.

(** The first of [ps] that changes something. *)
Fixpoint first_change (ps : list (IRHandler → result (bool * IRHandler))) h : result (bool * IRHandler) :=
  match ps with
  | [] => Ok (false, h)
  | p :: ps => '(changed, h) ← p h; if (changed : bool) then Ok (true, h) else first_change ps h
  end.
Definition block_rewrites (bb : nat) : list (IRHandler → result (bool * IRHandler)) :=
  [rewriteCondBrToSameBranches bb; eliminateLinearBr bb; foldConstantCondBr bb; branchToExit bb].
Definition instructionElimination h : result (bool * IRHandler) := first_change (hd_blocks h ≫= block_rewrites) h.

(** ** [PassManager::run] and the passes of a level *)

Fixpoint passManager_run (fuel : nat) (passes : list (IRHandler → result (bool * IRHandler))) h : result IRHandler :=
  match fuel with
  | O => Raise Blocked
  | S fuel =>
      '(changed, h) ← first_change passes h;
      if (changed : bool) then passManager_run fuel passes h else Ok h
  end.

Definition passes_of_level (level : nat) : list (IRHandler → result (bool * IRHandler)) :=
  [unusedBlockPass] ++ (if (1 <=? level)%nat then [mergeBlockPass] else []) ++
  (if (2 <=? level)%nat then [emptyBlockElimination] else []) ++
  (if (3 <=? level)%nat then [instructionElimination] else []).
