(* ===== verification/FlowLinks.v ===== *)
(** * The links between blocks

    The predecessors and successors a block keeps are those its terminator and
    the terminators of the other blocks name, each as often as it is named. The
    operations of [BasicBlock.cc], [Instr.cc] and [IRHandler.cc] keep it so, and
    none of their assertions fails: a block without predecessors, whose values no
    other block uses, is erased. *)
From stdpp Require Import gmap relations.
From S2P Require Import Prelude FlowType FlowConstants FlowIr FlowPasses.
Implicit Types h : IRHandler.
Local Open Scope nat_scope.

Abbreviation occ l x := (count_occ Nat.eq_dec l x).
Abbreviation one P := (Nat.b2n (bool_decide P)).

Definition ids (c : list Instr) : list nat := in_id <$> c.

Definition links h : Prop :=
  ∀ p s, occ (predecessors h s) p = occ (targets_of h p) s ∧ occ (successors h p) s = occ (targets_of h p) s.

(** A terminator at the end, and only there names of blocks. *)
Definition block_ends (c : list Instr) : bool :=
  match terminator_of c with Some _ => forallb (λ j, bool_decide (targets j = [])) (removelast c) | None => false end.

(** A value of block [d] that another block uses. *)
Definition escapes h (d : nat) : Prop :=
  ∃ c i v, c ≠ d ∧ i ∈ code_of h c ∧ OInstr v ∈ in_operands i ∧ v ∈ ids (code_of h d).

(** In a block, a value is used behind its definition only. *)
Definition ordered (c : list Instr) : Prop :=
  ∀ c1 i c2 v, c = c1 ++ i :: c2 → OInstr v ∈ in_operands i → v ∉ ids (i :: c2).

Record ir_ok h : Prop := {
  io_nodup : NoDup (hd_blocks h);
  io_dom : ∀ b, b ∈ hd_blocks h ↔ is_Some (hd_code h !! b);
  io_ends : Forall (λ b, block_ends (code_of h b) = true) (hd_blocks h);
  io_links : links h;
  io_ids : ∀ a b v, v ∈ ids (code_of h a) → v ∈ ids (code_of h b) → a = b;
  io_order : ∀ b, ordered (code_of h b);
}.

Definition ir_reachable h (b : nat) : Prop := ∃ e, getEntryBlock h = Some e ∧ rtc (λ p s, s ∈ targets_of h p) e b.

(** ** Lists *)

Lemma erase_one_spec x l :
  0 < occ l x → ∃ l', erase_one x l = Some l' ∧ l ≡ₚ x :: l' ∧ ∀ y, occ l' y + one (x = y) = occ l y.
Proof.
  induction l as [|z l IH]; intros H; [cbn in H; lia|]. cbn. case_bool_decide as Hz.
  - subst z. exists l. split_and!; [done..|]. intros y. cbn.
    destruct (Nat.eq_dec x y); [rewrite bool_decide_true by done|rewrite bool_decide_false by done]; cbn; lia.
  - rewrite count_occ_cons_neq in H by done. destruct (IH H) as (l' & -> & Hp & Hc). exists (z :: l'). split_and!; [done|..].
    + rewrite Hp. constructor.
    + intros y. specialize (Hc y). cbn. destruct (Nat.eq_dec z y); lia.
Qed.

Lemma erase_one_head x e l : e ≠ x → erase_one x (e :: l) = (e ::.) <$> erase_one x l.
Proof. intros H. cbn. by rewrite bool_decide_false. Qed.

Lemma occ_elem l (x : nat) : 0 < occ l x ↔ x ∈ l.
Proof. rewrite list_elem_of_In. symmetry. apply count_occ_In. Qed.

Lemma occ_nil (l : list nat) : (∀ x, occ l x = 0) → l = [].
Proof. intros H. destruct l as [|x l]; [done|]. specialize (H x). rewrite count_occ_cons_eq in H by done. lia. Qed.

Lemma upd_default {A} (m : gmap nat (list A)) a b x :
  default [] (<[a := x]> m !! b) = if decide (a = b) then x else default [] (m !! b).
Proof. destruct (decide (a = b)) as [->|]; [by rewrite lookup_insert_eq|by rewrite lookup_insert_ne]. Qed.

Lemma code_of_set b c h b' : code_of (set_block_code b c h) b' = if decide (b = b') then c else code_of h b'.
Proof. apply upd_default. Qed.

Lemma terminator_snoc c i : is_terminator (in_kind i) = true → terminator_of (c ++ [i]) = Some i.
Proof. intros H. unfold terminator_of. rewrite list.last_snoc. cbn. by rewrite H. Qed.

Lemma terminator_inv c i : terminator_of c = Some i → c = removelast c ++ [i] ∧ is_terminator (in_kind i) = true.
Proof.
  unfold terminator_of. destruct c as [|x c] using rev_ind; [done|]. rewrite list.last_snoc, removelast_last. cbn.
  destruct (is_terminator (in_kind x)) eqn:E; [|done]. intros [= <-]. done.
Qed.

(** ** Linking and unlinking *)

(** [h'] has the code and the blocks of [h]. *)
Definition same_code h h' : Prop := hd_blocks h' = hd_blocks h ∧ hd_code h' = hd_code h.

Lemma linkSuccessor_spec p s h :
  let h' := linkSuccessor p s h in
  same_code h h' ∧
  (∀ a b, occ (predecessors h' b) a = occ (predecessors h b) a + one (a = p ∧ b = s)) ∧
  (∀ a b, occ (successors h' a) b = occ (successors h a) b + one (a = p ∧ b = s)).
Proof.
  split_and!; [done|..]; intros a b; unfold linkSuccessor, predecessors, successors; cbn; rewrite upd_default;
    case_decide as E; subst; rewrite ?count_occ_app; cbn; repeat case_bool_decide; repeat destruct (Nat.eq_dec _ _); cbn; naive_solver lia.
Qed.

Lemma unlinkSuccessor_spec p s h :
  0 < occ (predecessors h s) p → 0 < occ (successors h p) s →
  ∃ h', unlinkSuccessor p s h = Ok h' ∧ same_code h h' ∧
  (∀ a b, occ (predecessors h' b) a + one (a = p ∧ b = s) = occ (predecessors h b) a) ∧
  (∀ a b, occ (successors h' a) b + one (a = p ∧ b = s) = occ (successors h a) b) ∧
  (∀ a, a ≠ p → successors h' a = successors h a).
Proof.
  intros H1 H2. unfold unlinkSuccessor. destruct (erase_one_spec _ _ H1) as (ps & -> & _ & Hps). cbn.
  unfold successors at 1; cbn. fold (successors h p). destruct (erase_one_spec _ _ H2) as (ss & -> & _ & Hss).
  eexists. split; [done|]. split_and!; [done..| | |].
  - intros a b. unfold predecessors; cbn. rewrite upd_default. fold (predecessors h b). specialize (Hps a).
    repeat case_decide; subst; repeat case_bool_decide; cbn in *; naive_solver lia.
  - intros a b. unfold successors; cbn. rewrite upd_default. fold (successors h a). specialize (Hss b).
    repeat case_decide; subst; repeat case_bool_decide; cbn in *; naive_solver lia.
  - intros a Ha. unfold successors; cbn. rewrite upd_default. by rewrite decide_False.
Qed.

Lemma same_code_trans h1 h2 h3 : same_code h1 h2 → same_code h2 h3 → same_code h1 h3.
Proof. unfold same_code. intuition congruence. Qed.

Lemma code_of_same h h' b : same_code h h' → code_of h' b = code_of h b.
Proof. intros [_ H]. unfold code_of. by rewrite H. Qed.

Lemma unlink_all_spec p ss h :
  (∀ s, occ ss s ≤ occ (predecessors h s) p ∧ occ ss s ≤ occ (successors h p) s) →
  ∃ h', unlink_all p ss h = Ok h' ∧ same_code h h' ∧
  (∀ a b, occ (predecessors h' b) a + (if decide (a = p) then occ ss b else 0) = occ (predecessors h b) a) ∧
  (∀ a b, occ (successors h' a) b + (if decide (a = p) then occ ss b else 0) = occ (successors h a) b) ∧
  (∀ a, a ≠ p → successors h' a = successors h a).
Proof.
  revert h. induction ss as [|s ss IH]; intros h H.
  { exists h. split_and!; try done; intros; case_decide; cbn; lia. }
  assert (H0 := H s). rewrite count_occ_cons_eq in H0 by done.
  destruct (unlinkSuccessor_spec p s h) as (h1 & E1 & S1 & P1 & Q1 & F1); [lia..|]. cbn. rewrite E1. cbn.
  destruct (IH h1) as (h2 & E2 & S2 & P2 & Q2 & F2).
  { intros t. specialize (H t). specialize (P1 p t). specialize (Q1 p t). cbn in H.
    destruct (Nat.eq_dec s t); repeat case_bool_decide; cbn in *; naive_solver lia. }
  exists h2. split_and!; [done|by eapply same_code_trans|..].
  1,2: intros a b; specialize (P1 a b); specialize (Q1 a b); specialize (P2 a b); specialize (Q2 a b); cbn;
    repeat case_decide; repeat destruct (Nat.eq_dec _ _); repeat case_bool_decide; cbn in *; naive_solver lia.
  intros a Ha. rewrite F2, F1; done.
Qed.

Lemma link_all_spec p ss h :
  let h' := link_all p ss h in
  same_code h h' ∧
  (∀ a b, occ (predecessors h' b) a = occ (predecessors h b) a + (if decide (a = p) then occ ss b else 0)) ∧
  (∀ a b, occ (successors h' a) b = occ (successors h a) b + (if decide (a = p) then occ ss b else 0)).
Proof.
  revert h. induction ss as [|s ss IH]; intros h; cbn.
  { split_and!; try done; intros; case_decide; cbn; lia. }
  destruct (IH (linkSuccessor p s h)) as (S2 & P2 & Q2). destruct (linkSuccessor_spec p s h) as (S1 & P1 & Q1).
  split; [by eapply same_code_trans|].
  split; intros a b; [rewrite P2, P1|rewrite Q2, Q1];
    repeat case_decide; repeat destruct (Nat.eq_dec _ _); repeat case_bool_decide; cbn in *; naive_solver lia.
Qed.

(** ** Building a handler *)

Lemma targets_of_code h h' b : code_of h' b = code_of h b → targets_of h' b = targets_of h b.
Proof. unfold targets_of. by intros ->. Qed.

Lemma newHandler_links : links newIRHandler.
Proof. intros p s. done. Qed.

Lemma createBlock_links h : links h → code_of h (hd_next h) = [] → links (createBlock h).
Proof.
  intros H Hn p s. rewrite (targets_of_code h (createBlock h) p); [apply H|].
  unfold createBlock, code_of; cbn. rewrite upd_default. fold (code_of h p). case_decide; [by subst|done].
Qed.

(** An instruction is appended to a block that has no terminator yet. *)
Lemma push_back_links b i h :
  terminator_of (code_of h b) = None → links h → links (block_push_back b i h).
Proof.
  intros Ht H p s. unfold block_push_back.
  assert (Hb : targets_of h b = []) by (unfold targets_of; by rewrite Ht).
  destruct (is_terminator (in_kind i)) eqn:Ei.
  - destruct (link_all_spec b (targets i) (set_block_code b (code_of h b ++ [i]) h)) as (Sc & P & Q).
    rewrite P, Q. destruct (H p s) as [H1 H2].
    change (predecessors (set_block_code b (code_of h b ++ [i]) h) s) with (predecessors h s).
    change (successors (set_block_code b (code_of h b ++ [i]) h) p) with (successors h p). rewrite H1, H2.
    unfold targets_of at 2 4. rewrite (code_of_same _ _ _ Sc), code_of_set. case_decide as E1.
    + subst p. rewrite decide_True by done. rewrite terminator_snoc by done. rewrite Hb. cbn. lia.
    + rewrite decide_False by done. fold (targets_of h p). lia.
  - specialize (H p s).
    change (predecessors (set_block_code b (code_of h b ++ [i]) h) s) with (predecessors h s).
    change (successors (set_block_code b (code_of h b ++ [i]) h) p) with (successors h p).
    unfold targets_of. rewrite code_of_set. case_decide as E1; [|exact H]. subst p.
    rewrite Hb in H. assert (terminator_of (code_of h b ++ [i]) = None) as ->; [|done].
    unfold terminator_of. rewrite list.last_snoc. cbn. by rewrite Ei.
Qed.

(** ** Redirecting an operand *)

Lemma occ_targets_insert (ops : list Operand) n a b y :
  ops !! n = Some (OBlock a) →
  occ (omap op_block (<[n := OBlock b]> ops)) y + one (a = y) = occ (omap op_block ops) y + one (b = y).
Proof.
  revert n. induction ops as [|o ops IH]; intros [|n] H; try done.
  - injection H as ->. cbn. destruct (Nat.eq_dec a y), (Nat.eq_dec b y); repeat case_bool_decide; cbn; try done; lia.
  - specialize (IH n H). change (<[S n := OBlock b]> (o :: ops)) with (o :: <[n := OBlock b]> ops).
    cbn. destruct (op_block o) as [x|]; cbn; [destruct (Nat.eq_dec x y)|]; lia.
Qed.

Lemma addOperand_links b o i h :
  terminator_of (code_of h b) = Some i → links h → ∃ h', addOperand b o h = Ok h' ∧ links h' ∧
    terminator_of (code_of h' b) = Some (mkInstr (in_id i) (in_kind i) (in_type i) (in_operands i ++ [o])).
Proof.
  intros Hi H. destruct (terminator_inv _ _ Hi) as [Hc Hterm]. unfold addOperand. rewrite Hi.
  set (i' := mkInstr _ _ _ _). set (h1 := set_block_code b _ h). eexists. split; [done|].
  assert (Hb : targets_of h b = targets i) by (unfold targets_of; by rewrite Hi).
  assert (C1 : ∀ p, code_of h1 p = if decide (b = p) then removelast (code_of h b) ++ [i'] else code_of h p) by (intros p; apply code_of_set).
  assert (T1 : ∀ p, targets_of h1 p = if decide (b = p) then targets i ++ omap op_block [o] else targets_of h p).
  { intros p. unfold targets_of. rewrite C1. case_decide; [|done]. rewrite terminator_snoc by done. unfold targets, i'. apply omap_app. }
  destruct o as [|c|v|s].
  1-3: split; [|rewrite C1, decide_True by done; by apply terminator_snoc]; intros p t; rewrite T1;
    change (predecessors h1 t) with (predecessors h t); change (successors h1 p) with (successors h p);
    case_decide; [subst p; cbn; rewrite app_nil_r, <- Hb|]; apply H.
  destruct (linkSuccessor_spec b s h1) as (Sc & P & Q). split.
  2: { rewrite (code_of_same h1), C1, decide_True by done. by apply terminator_snoc. }
  intros p t. rewrite P, Q. rewrite (targets_of_code h1) by (by apply code_of_same). rewrite T1. destruct (H p t) as [H1 H2].
  change (predecessors h1 t) with (predecessors h t). change (successors h1 p) with (successors h p). rewrite H1, H2.
  destruct (decide (b = p)) as [<-|Hne]; [rewrite count_occ_app, Hb; cbn; destruct (Nat.eq_dec s t)|];
    repeat case_bool_decide; cbn; naive_solver lia.
Qed.

Lemma setOperand_spec b n old new i h :
  terminator_of (code_of h b) = Some i → in_operands i !! n = Some (OBlock old) → links h →
  let i' := mkInstr (in_id i) (in_kind i) (in_type i) (<[n := OBlock new]> (in_operands i)) in
  ∃ h', setOperand b n (OBlock new) h = Ok h' ∧ hd_blocks h' = hd_blocks h ∧
    hd_code h' = <[b := removelast (code_of h b) ++ [i']]> (hd_code h) ∧ links h'.
Proof.
  intros Hi Hn H i'. destruct (terminator_inv _ _ Hi) as [Hc Hterm]. unfold setOperand. rewrite Hi, Hn.
  fold i'. set (h1 := set_block_code b _ h).
  assert (Hb : targets_of h b = targets i) by (unfold targets_of; by rewrite Hi).
  assert (Hold : 0 < occ (targets i) old).
  { apply occ_elem. apply list_elem_of_omap. exists (OBlock old). split; [|done]. by eapply list_elem_of_lookup_2. }
  destruct (H b old) as [Hp Hs]. rewrite Hb in Hp, Hs.
  destruct (unlinkSuccessor_spec b old h1) as (h2 & E2 & [S2 C2] & P2 & Q2 & _).
  { change (predecessors h1 old) with (predecessors h old). lia. }
  { change (successors h1 b) with (successors h b). lia. }
  rewrite E2. cbn. destruct (linkSuccessor_spec b new h2) as ([S3 C3] & P3 & Q3).
  eexists. split; [done|]. split_and!; [by rewrite S3, S2|by rewrite C3, C2|].
  intros p s. rewrite P3, Q3. specialize (P2 p s). specialize (Q2 p s). destruct (H p s) as [H1 H2].
  change (predecessors h1 s) with (predecessors h s) in P2. change (successors h1 p) with (successors h p) in Q2.
  unfold targets_of. rewrite (code_of_same h2), (code_of_same h1) by done. unfold h1. rewrite code_of_set.
  destruct (decide (b = p)) as [<-|Hne].
  - rewrite terminator_snoc by done. rewrite Hb in H1, H2. pose proof (occ_targets_insert _ _ _ new s Hn) as Ho.
    change (omap op_block (<[n:=OBlock new]> (in_operands i))) with (targets i') in Ho.
    change (omap op_block (in_operands i)) with (targets i) in Ho.
    repeat case_bool_decide; cbn in *; naive_solver lia.
  - fold (targets_of h p). repeat case_bool_decide; cbn in *; naive_solver lia.
Qed.

(** ** Erasing a block *)

Lemma existsb_code_false h (f : Instr → bool) :
  (∀ c i, i ∈ code_of h c → f i = false) → existsb (λ p, existsb f p.2) (map_to_list (hd_code h)) = false.
Proof.
  intros H. apply not_true_iff_false. rewrite existsb_exists. intros ([c l] & Hin & He).
  apply list_elem_of_In, elem_of_map_to_list in Hin. cbn in He. apply existsb_exists in He as (i & Hi & Hf).
  rewrite (H c i) in Hf; [done|]. unfold code_of. rewrite Hin. by apply list_elem_of_In.
Qed.

Lemma uses_value_spec v i : uses_value v i = false ↔ OInstr v ∉ in_operands i.
Proof.
  unfold uses_value. rewrite <- not_true_iff_false, existsb_exists. apply not_iff_compat. split.
  - intros (o & Ho & E). apply bool_decide_eq_true in E as ->. by apply list_elem_of_In.
  - intros Ho. exists (OInstr v). split; [by apply list_elem_of_In|by apply bool_decide_eq_true].
Qed.

Lemma uses_block_spec b i : uses_block b i = false ↔ b ∉ targets i.
Proof.
  unfold uses_block. rewrite <- not_true_iff_false, existsb_exists. apply not_iff_compat.
  unfold targets. rewrite list_elem_of_omap. split; intros (o & Ho & E).
  - apply bool_decide_eq_true in E as ->. exists (OBlock b). split; [by apply list_elem_of_In|done].
  - destruct o; try done. injection E as ->. exists (OBlock b). split; [by apply list_elem_of_In|by apply bool_decide_eq_true].
Qed.

(** The instructions of a block whose values are used in it only, and behind
    their definitions, are deleted. *)
Definition deletable h (b : nat) : Prop := ¬ escapes h b ∧ ordered (code_of h b).

Lemma ordered_prefix c1 c2 : ordered (c1 ++ c2) → ordered c1.
Proof.
  intros H d1 i d2 v -> Hv Hin. refine (H d1 i (d2 ++ c2) v _ Hv _); [by rewrite <- app_assoc|].
  unfold ids in *. rewrite fmap_cons, fmap_app, app_comm_cons. apply elem_of_app. by left.
Qed.

Lemma deletable_prefix h h' b c1 c2 :
  code_of h b = c1 ++ c2 → (∀ a, code_of h' a = if decide (b = a) then c1 else code_of h a) → deletable h b → deletable h' b.
Proof.
  intros Hb Hc [He Ho]. split.
  - intros (c & i & v & Hne & Hi & Hv & Hd). rewrite Hc, decide_False in Hi by done. rewrite Hc, decide_True in Hd by done.
    apply He. exists c, i, v. split_and!; [done..|]. rewrite Hb. unfold ids. rewrite fmap_app. apply elem_of_app. by left.
  - rewrite Hc, decide_True by done. rewrite Hb in Ho. by eapply ordered_prefix.
Qed.

Lemma last_deletable h h' b c i :
  code_of h b = c ++ [i] → (∀ a, code_of h' a = if decide (b = a) then c else code_of h a) → deletable h b →
  delete_instr i h' = Ok ().
Proof.
  intros Hb Hc [He Ho]. unfold delete_instr, isUsed. rewrite existsb_code_false; [done|].
  intros a j Hj. apply uses_value_spec. intros Hv. rewrite Hc in Hj. case_decide as E.
  - subst a. rewrite Hb in Ho. apply list_elem_of_split in Hj as (c1 & c2 & ->).
    refine (Ho c1 j (c2 ++ [i]) _ _ Hv _); [by rewrite <- app_assoc|]. unfold ids. rewrite fmap_cons, fmap_app.
    apply elem_of_cons; right. apply elem_of_app; right. cbn. by apply list_elem_of_singleton.
  - apply He. exists a, j, (in_id i). split_and!; [done..|]. rewrite Hb. unfold ids. rewrite fmap_app.
    apply elem_of_app; right. cbn. by apply list_elem_of_singleton.
Qed.

Lemma delete_code_spec b h :
  deletable h b → ∃ h', delete_code b (length (code_of h b)) h = Ok h' ∧
    hd_blocks h' = hd_blocks h ∧ hd_preds h' = hd_preds h ∧ hd_succs h' = hd_succs h ∧
    (∀ a, a ≠ b → hd_code h' !! a = hd_code h !! a) ∧ (∀ a, code_of h' a = if decide (b = a) then [] else code_of h a).
Proof.
  remember (code_of h b) as c eqn:E. symmetry in E. revert h E. induction c as [|i c IH] using rev_ind; intros h E Hd.
  { exists h. split_and!; try done. intros a. case_decide; [by subst|done]. }
  rewrite length_app, Nat.add_1_r. cbn [delete_code]. rewrite E, list.last_snoc. cbn. rewrite removelast_last.
  assert (Hc := λ a, code_of_set b c h a). rewrite (last_deletable h _ b c i) by done. cbn.
  destruct (IH (set_block_code b c h)) as (h' & -> & B & P & S & K & C).
  { rewrite Hc. by apply decide_True. }
  { eapply deletable_prefix; [exact E|exact Hc|done]. }
  exists h'. split_and!; try done.
  - intros a Ha. rewrite K by done. cbn. by apply lookup_insert_ne.
  - intros a. rewrite C, Hc. by repeat case_decide.
Qed.

Lemma code_of_block h b i : ir_ok h → i ∈ code_of h b → b ∈ hd_blocks h.
Proof.
  intros H Hi. apply (io_dom h H). unfold code_of in Hi. destruct (hd_code h !! b); [done|]. by apply not_elem_of_nil in Hi.
Qed.

Lemma named_by_terminator h c i s : ir_ok h → i ∈ code_of h c → s ∈ targets i → s ∈ targets_of h c.
Proof.
  intros H Hi Hs. pose proof (code_of_block h c i H Hi) as Hc.
  pose proof (proj1 (list.Forall_forall _ _) (io_ends h H) c Hc) as He. unfold block_ends in He. unfold targets_of.
  destruct (terminator_of (code_of h c)) as [t|] eqn:Et; [|done]. apply terminator_inv in Et as [Et _].
  rewrite Et in Hi. apply elem_of_app in Hi as [Hi|Hi].
  - rewrite forallb_forall in He. apply list_elem_of_In in Hi. apply He, bool_decide_eq_true in Hi. rewrite Hi in Hs.
    by apply not_elem_of_nil in Hs.
  - by apply list_elem_of_singleton in Hi as ->.
Qed.

Lemma block_has_end h b : ir_ok h → b ∈ hd_blocks h → ∃ c i, code_of h b = c ++ [i] ∧ terminator_of (code_of h b) = Some i.
Proof.
  intros H Hb. pose proof (proj1 (list.Forall_forall _ _) (io_ends h H) b Hb) as He. unfold block_ends in He.
  destruct (terminator_of (code_of h b)) as [i|] eqn:Et; [|done]. exists (removelast (code_of h b)), i.
  split; [|done]. by apply terminator_inv.
Qed.

Lemma getTerminator_Ok h b c i : code_of h b = c ++ [i] → getTerminator h b = Ok (terminator_of (code_of h b)).
Proof. intros H. unfold getTerminator. rewrite H. by destruct c. Qed.

Lemma remove_terminator_spec b c i bs h :
  links h → code_of h b = c ++ [i] → terminator_of (code_of h b) = Some i →
  ∃ h', block_remove b i (set_blocks bs h) = Ok h' ∧ hd_blocks h' = bs ∧ hd_code h' = <[b := c]> (hd_code h) ∧
    (∀ a s, occ (predecessors h' s) a = if decide (a = b) then 0 else occ (predecessors h s) a) ∧
    (∀ a, successors h' a = if decide (a = b) then [] else successors h a).
Proof.
  intros Hl Hc Ht. destruct (terminator_inv _ _ Ht) as [_ Hterm]. unfold block_remove. rewrite Hterm.
  assert (Htb : targets_of h b = targets i) by (unfold targets_of; by rewrite Ht).
  destruct (unlink_all_spec b (targets i) (set_blocks bs h)) as (h1 & -> & [B1 C1] & P1 & Q1 & F1).
  { intros s. destruct (Hl b s) as [X Y]. change (predecessors (set_blocks bs h) s) with (predecessors h s).
    change (successors (set_blocks bs h) b) with (successors h b). rewrite X, Y, Htb. done. }
  cbn. eexists. split; [done|]. rewrite (code_of_same (set_blocks bs h)) by done.
  change (code_of (set_blocks bs h) b) with (code_of h b). rewrite Hc, removelast_last. split_and!; [done|cbn; by rewrite C1|..].
  - intros a s. specialize (P1 a s). change (predecessors (set_blocks bs h) s) with (predecessors h s) in P1.
    change (predecessors (set_block_code b c h1) s) with (predecessors h1 s). case_decide; [subst|lia].
    destruct (Hl b s) as [X _]. rewrite Htb in X. lia.
  - intros a. change (successors (set_block_code b c h1) a) with (successors h1 a). case_decide as Ea; [subst|by apply F1].
    apply occ_nil. intros x. specialize (Q1 b x). rewrite decide_True in Q1 by done.
    change (successors (set_blocks bs h) b) with (successors h b) in Q1. destruct (Hl b x) as [_ Y]. rewrite Htb in Y. lia.
Qed.

Lemma delete_block_spec b h :
  deletable h b → predecessors h b = [] → successors h b = [] → (∀ a j, a ≠ b → j ∈ code_of h a → b ∉ targets j) →
  ∃ h', delete_block b h = Ok h' ∧ hd_blocks h' = hd_blocks h ∧
    (∀ a, hd_code h' !! a = if decide (b = a) then None else hd_code h !! a) ∧
    (∀ a, predecessors h' a = predecessors h a) ∧ (∀ a, successors h' a = successors h a).
Proof.
  intros Hd Hp Hs Hno. unfold delete_block. destruct (delete_code_spec b h Hd) as (h1 & -> & B & P & S & K & C). cbn.
  assert (Pr : ∀ s, predecessors h1 s = predecessors h s) by (intros s; unfold predecessors; by rewrite P).
  assert (Su : ∀ s, successors h1 s = successors h s) by (intros s; unfold successors; by rewrite S).
  rewrite Pr, Su, Hp, Hs. cbn. rewrite existsb_code_false; cbn.
  2: { intros a j Hj. apply uses_block_spec. rewrite C in Hj. case_decide; [by apply not_elem_of_nil in Hj|by apply (Hno a)]. }
  eexists. split; [done|]. cbn. split_and!; [done|..]; intros a.
  - case_decide; [subst; apply lookup_delete_eq|]. rewrite lookup_delete_ne by done. by apply K.
  - unfold predecessors at 1; cbn. destruct (decide (b = a)) as [<-|]; [by rewrite lookup_delete_eq, Hp|].
    rewrite lookup_delete_ne by done. apply Pr.
  - unfold successors at 1; cbn. destruct (decide (b = a)) as [<-|]; [by rewrite lookup_delete_eq, Hs|].
    rewrite lookup_delete_ne by done. apply Su.
Qed.

Lemma not_named h p b : links h → predecessors h b = [] → b ∉ targets_of h p.
Proof. intros Hl Hp Hin. apply occ_elem in Hin. destruct (Hl p b) as [X _]. rewrite Hp in X. cbn in X. lia. Qed.

(** A block without predecessors whose values stay in it is erased, and nothing
    else changes but the predecessors of its targets. *)
Lemma handler_erase_spec b h :
  ir_ok h → b ∈ hd_blocks h → predecessors h b = [] → ¬ escapes h b →
  ∃ h', handler_erase b h = Ok h' ∧ erase_one b (hd_blocks h) = Some (hd_blocks h') ∧
    (∀ a, hd_code h' !! a = if decide (b = a) then None else hd_code h !! a) ∧
    (∀ a, a ≠ b → successors h' a = successors h a) ∧
    (∀ s, predecessors h s = [] → predecessors h' s = []) ∧ links h'.
Proof.
  intros H Hb Hp He. pose proof (io_links h H) as Hl. destruct (block_has_end h b H Hb) as (c & i & Hc & Ht).
  destruct (erase_one_spec b (hd_blocks h)) as (bs & Ebs & _ & _); [by apply occ_elem|].
  assert (Hd : deletable h b) by (split; [done|apply (io_order h H)]).
  unfold handler_erase. rewrite Ebs. cbn. rewrite (getTerminator_Ok (set_blocks bs h) b c i Hc).
  change (code_of (set_blocks bs h) b) with (code_of h b). rewrite Ht. cbn.
  destruct (remove_terminator_spec b c i bs h Hl Hc Ht) as (h1 & -> & B1 & C1 & P1 & S1). cbn.
  assert (C2 : ∀ a, code_of h1 a = if decide (b = a) then c else code_of h a).
  { intros a. unfold code_of. rewrite C1. apply upd_default. }
  rewrite (last_deletable h h1 b c i) by done. cbn.
  destruct (delete_block_spec b h1) as (h2 & -> & B2 & C3 & P3 & S3).
  { eapply deletable_prefix; [exact Hc|exact C2|done]. }
  { apply occ_nil. intros x. rewrite P1, Hp. by case_decide. }
  { rewrite S1. by apply decide_True. }
  { intros a j Ha Hj Hin. rewrite C2, decide_False in Hj by done. apply (not_named h a b Hl Hp). by eapply named_by_terminator. }
  assert (Cd : ∀ a, code_of h2 a = if decide (b = a) then [] else code_of h a).
  { intros a. unfold code_of. rewrite C3, C1. case_decide; [done|]. by rewrite lookup_insert_ne. }
  exists h2. split_and!; [done|by rewrite B2, B1|..].
  - intros a. rewrite C3, C1. case_decide; [done|]. by apply lookup_insert_ne.
  - intros a Ha. rewrite S3, S1. by apply decide_False.
  - intros s Hs. apply occ_nil. intros x. rewrite P3, P1, Hs. by case_decide.
  - intros p s. rewrite P3, P1, S3, S1. unfold targets_of. rewrite Cd. destruct (decide (p = b)) as [->|Np].
    + rewrite decide_True by done. done.
    + rewrite decide_False by done. apply Hl.
Qed.
