(* ===== verification/FlowPassesSafety.v ===== *)
(** * The passes of the default level keep the meaning of a handler

    The daemon compiles with optimization level 1: [UnusedBlockPass] until it
    finds no block, then [MergeBlockPass]. On a well-formed handler without two
    blocks that [isSameBlock] takes for one they end without a failing assertion,
    and whatever the instructions do, the handler does the same from its entry
    block as before, step by step. With two such blocks [MergeBlockPass] erases
    from the list of predecessors it is going over, which is undefined. *)
From stdpp Require Import gmap relations.
From S2P Require Import Prelude FlowType FlowConstants FlowIr FlowPasses FlowLinks.
Implicit Types h : IRHandler.
Local Open Scope nat_scope.

(** ** Running a handler

    What an instruction does is a parameter: from its operands and the state it
    gives a value, or goes on at one of the blocks it names, or leaves. *)
Section semantics.
Context {V W X : Type}.

Inductive Arg := ANull | AConst (c : IrConstant) | AValue (v : option V) | ABlock.
Inductive Effect := Continue (v : V) (w : W) | Jump (n : nat) (w : W) | Exit (x : X) (w : W).
Inductive Ending := GoesTo (b : nat) (env : gmap nat V) (w : W) | Left (x : X) (w : W) | NoInstr | NoTarget.
Inductive Outcome := OutOfFuel | Exited (x : X) (w : W) | Stuck.

Context (exec : InstrKind → FlowType → list Arg → W → Effect).

Definition arg_of (env : gmap nat V) (o : Operand) : Arg :=
  match o with ONull => ANull | OConst c => AConst c | OInstr v => AValue (env !! v) | OBlock _ => ABlock end.

Fixpoint exec_code (c : list Instr) (env : gmap nat V) (w : W) : Ending :=
  match c with
  | [] => NoInstr
  | i :: c =>
      match exec (in_kind i) (in_type i) (arg_of env <$> in_operands i) w with
      | Continue v w => exec_code c (<[in_id i := v]> env) w
      | Jump n w => match targets i !! n with Some b => GoesTo b env w | None => NoTarget end
      | Exit x w => Left x w
      end
  end.

Fixpoint exec_blocks (fuel : nat) h (b : nat) (env : gmap nat V) (w : W) : Outcome :=
  match fuel with
  | O => OutOfFuel
  | S fuel =>
      match exec_code (code_of h b) env w with
      | GoesTo b env w => exec_blocks fuel h b env w
      | Left x w => Exited x w
      | _ => Stuck
      end
  end.

Definition exec_handler (fuel : nat) h (w : W) : Outcome :=
  match getEntryBlock h with Some e => exec_blocks fuel h e ∅ w | None => Stuck end.

(** A run goes on at a block that the code names. *)
Lemma exec_code_goto c env w b env' w' : exec_code c env w = GoesTo b env' w' → ∃ i, i ∈ c ∧ b ∈ targets i.
Proof.
  revert env w. induction c as [|i c IH]; intros env w H; [done|]. cbn in H. destruct (exec _ _ _ w) as [v w1|n w1|x w1]; [|..|done].
  - destruct (IH _ _ H) as (j & Hj & Hb). exists j. split; [by apply elem_of_cons; right|done].
  - destruct (targets i !! n) as [t|] eqn:Et; [|done]. injection H as <- _ _. exists i.
    split; [by apply elem_of_cons; left|by eapply list_elem_of_lookup_2].
Qed.

(** Blocks a run does not reach do not matter. *)
Lemma exec_blocks_ext (P : nat → Prop) h h' fuel b env w :
  (∀ a, P a → code_of h' a = code_of h a) → (∀ a i t, P a → i ∈ code_of h a → t ∈ targets i → P t) →
  P b → exec_blocks fuel h' b env w = exec_blocks fuel h b env w.
Proof.
  intros Hc Hs. revert b env w. induction fuel as [|fuel IH]; intros b env w Hb; [done|]. cbn. rewrite Hc by done.
  destruct (exec_code (code_of h b) env w) as [t env' w'| | |] eqn:E; try done. apply IH.
  apply exec_code_goto in E as (i & Hi & Ht). by eapply Hs.
Qed.
End semantics.
Arguments Effect : clear implicits.
Arguments Outcome : clear implicits.
Arguments Arg : clear implicits.

(** ** Erasing blocks *)

Record erased (us : list nat) h h' : Prop := {
  er_blocks : hd_blocks h ≡ₚ us ++ hd_blocks h';
  er_code : ∀ a, hd_code h' !! a = if decide (a ∈ us) then None else hd_code h !! a;
  er_succs : ∀ a, a ∉ us → successors h' a = successors h a;
  er_preds : ∀ s, predecessors h s = [] → predecessors h' s = [];
  er_entry : ∀ e, e ∉ us → getEntryBlock h = Some e → getEntryBlock h' = Some e;
}.

Lemma erased_code us h h' a : erased us h h' → code_of h' a = if decide (a ∈ us) then [] else code_of h a.
Proof. intros H. unfold code_of. rewrite (er_code _ _ _ H). by case_decide. Qed.

Lemma erased_sub us h h' a i : erased us h h' → i ∈ code_of h' a → i ∈ code_of h a.
Proof. intros H Hi. rewrite (erased_code us h) in Hi by done. case_decide; [by apply not_elem_of_nil in Hi|done]. Qed.

Lemma erased_ids us h h' a v : erased us h h' → v ∈ ids (code_of h' a) → v ∈ ids (code_of h a).
Proof. intros H Hi. rewrite (erased_code us h) in Hi by done. case_decide; [by apply not_elem_of_nil in Hi|done]. Qed.

Lemma erased_escapes us h h' d : erased us h h' → escapes h' d → escapes h d.
Proof.
  intros H (c & i & v & Hne & Hi & Hv & Hd). exists c, i, v.
  split_and!; [done|by eapply erased_sub|done|by eapply erased_ids].
Qed.

Lemma erased_ok us h h' : ir_ok h → erased us h h' → links h' → ir_ok h'.
Proof.
  intros H E L. destruct H as [Hn Hdom He _ Hi Ho]. pose proof E as [Eb Ec Es Ep Ee].
  assert (Hn' := Hn). rewrite Eb in Hn'. apply list.NoDup_app in Hn' as (_ & Hdis & Hn').
  assert (Hin : ∀ b, b ∈ hd_blocks h' ↔ b ∈ hd_blocks h ∧ b ∉ us).
  { intros b. rewrite Eb, elem_of_app. split; [intros Hb; split; [by right|]; intros Hu; by apply (Hdis b)|intuition]. }
  split; try done.
  - intros b. rewrite Hin, Hdom, Ec. case_decide; [|naive_solver]. split; [naive_solver|by intros [? ?]].
  - apply list.Forall_forall. intros b Hb. apply Hin in Hb as [Hb Hu].
    rewrite (erased_code us h) by done. rewrite decide_False by done. by apply (proj1 (list.Forall_forall _ _) He).
  - intros a b v Ha Hb. apply (Hi a b v); by eapply erased_ids.
  - intros b. rewrite (erased_code us h) by done. case_decide; [|done]. intros [|x l] j c2 v; done.
Qed.

Lemma erase_one_erased b h :
  ir_ok h → b ∈ hd_blocks h → predecessors h b = [] → ¬ escapes h b →
  ∃ h', handler_erase b h = Ok h' ∧ ir_ok h' ∧ erased [b] h h'.
Proof.
  intros H Hb Hp He. destruct (handler_erase_spec b h H Hb Hp He) as (h' & E & Eb & Ec & Es & Ep & L).
  assert (X : erased [b] h h').
  { split; try done.
    - destruct (erase_one_spec b (hd_blocks h)) as (l & El & Hl & _); [by apply occ_elem|]. by simplify_eq.
    - intros a. rewrite Ec. repeat case_decide; set_solver.
    - intros a Ha. apply Es. set_solver.
    - intros e Hne Hent. unfold getEntryBlock in *. destruct (hd_blocks h) as [|x l]; [done|]. injection Hent as ->.
      rewrite erase_one_head in Eb by set_solver. destruct (erase_one b l); [|done]. by injection Eb as <-. }
  exists h'. split_and!; [done| |done]. by eapply erased_ok.
Qed.

Lemma erased_app u1 u2 h1 h2 h3 : erased u1 h1 h2 → erased u2 h2 h3 → erased (u1 ++ u2) h1 h3.
Proof.
  intros [B1 C1 S1 P1 E1] [B2 C2 S2 P2 E2]. split.
  - by rewrite B1, B2, app_assoc.
  - intros a. rewrite C2, C1. repeat case_decide; set_solver.
  - intros a Ha. rewrite S2, S1; set_solver.
  - auto.
  - intros e He Hent. apply E2; [set_solver|]. apply E1; [set_solver|done].
Qed.

Lemma erase_all_erased us h :
  ir_ok h → NoDup us → (∀ b, b ∈ us → b ∈ hd_blocks h ∧ predecessors h b = [] ∧ ¬ escapes h b) →
  ∃ h', erase_all us h = Ok h' ∧ ir_ok h' ∧ erased us h h'.
Proof.
  revert h. induction us as [|b us IH]; intros h H Hn Hu.
  { exists h. split_and!; [done..|]. split; try done. }
  apply list.NoDup_cons in Hn as [Hb Hn]. destruct (Hu b) as (Hin & Hp & He); [set_solver|].
  destruct (erase_one_erased b h H Hin Hp He) as (h1 & E1 & H1 & X1). cbn. rewrite E1. cbn.
  destruct (IH h1 H1 Hn) as (h2 & E2 & H2 & X2).
  { intros a Ha. destruct (Hu a) as (Ia & Pa & Ea); [set_solver|]. split_and!.
    - rewrite (er_blocks _ _ _ X1) in Ia. set_solver.
    - by apply (er_preds _ _ _ X1).
    - intros Hesc. by apply Ea, (erased_escapes [b] h h1). }
  exists h2. split_and!; [done..|]. by apply (erased_app [b] us h h1 h2).
Qed.

(** ** Unused blocks *)

(** A block whose values others use is on a path from the entry block. *)
Definition values_confined h : Prop := ∀ d, escapes h d → ir_reachable h d.

Lemma unused_spec h b :
  b ∈ List.filter (unused_block h) (hd_blocks h) ↔ b ∈ hd_blocks h ∧ getEntryBlock h ≠ Some b ∧ predecessors h b = [].
Proof.
  rewrite list_elem_of_In, filter_In, <- list_elem_of_In. unfold unused_block.
  rewrite andb_true_iff, negb_true_iff, bool_decide_eq_false, bool_decide_eq_true. tauto.
Qed.

Lemma reachable_used h d : links h → ir_reachable h d → getEntryBlock h = Some d ∨ predecessors h d ≠ [].
Proof.
  intros L (e & He & Hr). apply rtc_inv_r in Hr as [->|(p & _ & Hp)]; [by left|]. right. intros Hd. by apply (not_named h p d L Hd).
Qed.

Lemma NoDup_filter_list (f : nat → bool) l : NoDup l → NoDup (List.filter f l).
Proof. rewrite !base.NoDup_ListNoDup. apply List.NoDup_filter. Qed.

Lemma unused_erased h :
  ir_ok h → values_confined h →
  let us := List.filter (unused_block h) (hd_blocks h) in
  ∃ h', unusedBlockPass h = Ok (negb (bool_decide (us = [])), h') ∧ ir_ok h' ∧ erased us h h'.
Proof.
  intros H Hc us. destruct (erase_all_erased us h H) as (h' & E & H' & X).
  - apply NoDup_filter_list, H.
  - intros b Hb. apply unused_spec in Hb as (Hb & Hne & Hp). split_and!; [done..|]. intros He.
    destruct (reachable_used h b (io_links h H) (Hc b He)); done.
  - exists h'. unfold unusedBlockPass. fold us. by rewrite E.
Qed.

Lemma unused_targets h us h' a :
  erased us h h' → a ∉ us → targets_of h' a = targets_of h a.
Proof. intros X Ha. apply targets_of_code. rewrite (erased_code us h) by done. by apply decide_False. Qed.

(** What is reachable is not erased, and stays reachable. *)
Lemma unused_reachable h h' d :
  ir_ok h → erased (List.filter (unused_block h) (hd_blocks h)) h h' → ir_reachable h d → ir_reachable h' d.
Proof.
  intros H X (e & He & Hr). set (us := List.filter _ _) in X. exists e.
  assert (Hu : ∀ b, rtc (λ p s, s ∈ targets_of h p) e b → b ∉ us).
  { intros b Hb Hin. apply unused_spec in Hin as (_ & Hne & Hp). destruct (reachable_used h b (io_links h H)); [by exists e|done..]. }
  split; [apply (er_entry _ _ _ X); [by apply Hu, rtc_refl|done]|]. revert d Hr. refine (rtc_ind_r _ e _ _); [done|]. intros p s Hr1 Hs IH.
  eapply rtc_r; [exact IH|]. cbn. by rewrite (unused_targets h us) by (done || by apply Hu).
Qed.

Lemma unused_same {V W X} (exec : InstrKind → FlowType → list (Arg V) → W → Effect V W X) h h' :
  ir_ok h → erased (List.filter (unused_block h) (hd_blocks h)) h h' →
  getEntryBlock h' = getEntryBlock h ∧ ∀ fuel w, exec_handler exec fuel h' w = exec_handler exec fuel h w.
Proof.
  intros H Er. set (us := List.filter _ _) in Er.
  assert (Ee : getEntryBlock h' = getEntryBlock h).
  { destruct (getEntryBlock h) as [e|] eqn:Eh.
    - apply (er_entry _ _ _ Er); [|done]. intros Hu. apply unused_spec in Hu as (_ & ? & _). done.
    - unfold getEntryBlock in *. pose proof (er_blocks _ _ _ Er) as B. destruct (hd_blocks h); [|done].
      symmetry in B. apply Permutation_nil_r in B. destruct us; [|done]. cbn in B. by rewrite B. }
  split; [done|]. intros fuel w. unfold exec_handler. rewrite Ee. destruct (getEntryBlock h) as [e|] eqn:Eh; [|done].
  apply (exec_blocks_ext _ (λ a, a ∉ us)).
  - intros a Ha. rewrite (erased_code us h) by done. by apply decide_False.
  - intros a i t _ Hi Ht Hu. apply unused_spec in Hu as (_ & _ & Hp).
    apply (not_named h a t (io_links h H) Hp). by eapply named_by_terminator.
  - intros Hu. apply unused_spec in Hu as (_ & ? & _). done.
Qed.

(** ** Blocks that are the same *)

(** What [IsSameInstruction] and the comparison of successors look at. *)
Definition class_of (k : InstrKind) : InstrKind :=
  match k with MatchInstr _ => MatchInstr MatchSame | _ => k end.
Definition instr_key (i : Instr) : InstrKind * list Operand := (class_of (in_kind i), in_operands i).
Definition block_key h (b : nat) : list (InstrKind * list Operand) * list nat := (instr_key <$> code_of h b, successors h b).

Lemma same_class_key a b : same_class a b = true ↔ class_of a = class_of b.
Proof. destruct a, b; cbn; rewrite ?bool_decide_eq_true; try done; split; congruence. Qed.

Lemma same_instr_key a b : isSameInstruction a b = true ↔ instr_key a = instr_key b.
Proof.
  unfold isSameInstruction, instr_key. rewrite andb_true_iff, same_class_key, bool_decide_eq_true. split; [by intros [-> ->]|by intros [= -> ->]].
Qed.

Lemma same_block_key h a b : isSameBlock h a b = true ↔ block_key h a = block_key h b.
Proof.
  unfold isSameBlock, block_key. rewrite andb_true_iff, bool_decide_eq_true.
  assert (K : ∀ c d, isSameInstructions c d = true ↔ instr_key <$> c = instr_key <$> d).
  { induction c as [|i c IH]; intros [|j d]; cbn; try done. rewrite andb_true_iff, IH, same_instr_key. split; [intros [? ?]; congruence|split; congruence]. }
  rewrite K. split; [intros [? ?]; congruence|split; congruence].
Qed.

(** Two blocks of the handler that [MergeBlockPass] takes for one. *)
Definition twins h (a b : nat) : Prop := a ∈ hd_blocks h ∧ b ∈ hd_blocks h ∧ a ≠ b ∧ isSameBlock h a b = true.
#[export] Instance twins_dec h a b : Decision (twins h a b) := _.
Definition has_twins h : bool := existsb (λ a, existsb (λ b, bool_decide (twins h a b)) (hd_blocks h)) (hd_blocks h).

Lemma has_twins_spec h : has_twins h = true ↔ ∃ a b, twins h a b.
Proof.
  unfold has_twins. rewrite existsb_exists. split.
  - intros (a & _ & H). apply existsb_exists in H as (b & _ & H). apply bool_decide_eq_true in H. by exists a, b.
  - intros (a & b & H). exists a. split; [apply list_elem_of_In, H|]. apply existsb_exists. exists b.
    split; [apply list_elem_of_In, H|by apply bool_decide_eq_true].
Qed.

(** ** The classes [MergeBlockPass] collects

    Each has a block, all its blocks have the same key, the keys of the classes
    differ, and the block the pass saw first is the front of the first class. *)
Definition class_key h (k : list (InstrKind * list Operand) * list nat) (u : list nat) : Prop :=
  u ≠ [] ∧ Forall (λ b, block_key h b = k) u.
Definition classes h (us : list (list nat)) : Prop := ∃ ks, NoDup ks ∧ Forall2 (class_key h) ks us.

Lemma classify_known h bb ks us :
  Forall2 (class_key h) ks us → ∃ ks', Forall2 (class_key h) ks' (classify h bb us) ∧
    (∀ k, k ∈ ks' ↔ k ∈ ks ∨ k = block_key h bb) ∧ (NoDup ks → NoDup ks').
Proof.
  intros F. induction F as [|k u ks us [Hne Hu] F (ks' & F' & Hin & Hn)]; cbn.
  - exists [block_key h bb]. split_and!; [by repeat constructor|set_solver|intros _; apply NoDup_singleton].
  - assert (Hsame : existsb (isSameBlock h bb) u = true ↔ k = block_key h bb).
    { rewrite existsb_exists. split.
      - intros (c & Hc & Hs). apply list_elem_of_In in Hc. apply same_block_key in Hs. rewrite Hs.
        by rewrite (proj1 (list.Forall_forall _ _) Hu c Hc).
      - intros ->. destruct u as [|c u]; [done|]. apply list.Forall_cons in Hu as [Hc _]. exists c. split; [by left|]. by apply same_block_key. }
    destruct (existsb (isSameBlock h bb) u).
    + apply proj1 in Hsame. specialize (Hsame eq_refl) as ->. exists (block_key h bb :: ks). split_and!; [|set_solver|done].
      constructor; [|done]. split; [by destruct u|]. apply Forall_app. by repeat constructor.
    + exists (k :: ks'). split_and!; [by repeat constructor|set_solver|]. intros [H1 H2]%list.NoDup_cons. apply list.NoDup_cons.
      split; [|by auto]. rewrite Hin. intros [?|Hk]; [done|]. by apply Hsame in Hk.
Qed.

Lemma classify_concat h bb us : concat (classify h bb us) ≡ₚ bb :: concat us.
Proof.
  induction us as [|u us IH]; cbn; [done|]. destruct (existsb _ u); cbn; [|rewrite IH]; solve_Permutation.
Qed.

Lemma classify_front h bb e u us : ∃ u' us', classify h bb ((e :: u) :: us) = (e :: u') :: us'.
Proof. cbn. destruct (_ || _); eauto. Qed.

Lemma classes_collected h bs us :
  classes h us → classes h (foldl (λ u bb, classify h bb u) us bs) ∧ concat (foldl (λ u bb, classify h bb u) us bs) ≡ₚ bs ++ concat us.
Proof.
  revert us. induction bs as [|b bs IH]; intros us (ks & Hn & F); [by split; [exists ks|]|]. cbn.
  destruct (classify_known h b ks us F) as (ks' & F' & _ & Hn'). destruct (IH (classify h b us)) as [C P]; [exists ks'; auto|].
  split; [done|]. by rewrite P, classify_concat, Permutation_middle.
Qed.

Lemma front_collected h bs e u us : ∃ u' us', foldl (λ u bb, classify h bb u) ((e :: u) :: us) bs = (e :: u') :: us'.
Proof.
  revert u us. induction bs as [|b bs IH]; intros u us; [by eauto|]. cbn [foldl].
  destruct (classify_front h b e u us) as (u' & us' & ->). apply IH.
Qed.

Lemma uniques_spec h : classes h (uniques_of h) ∧ concat (uniques_of h) ≡ₚ hd_blocks h.
Proof. destruct (classes_collected h (hd_blocks h) []) as [C P]; [exists []; by repeat constructor|]. split; [done|]. by rewrite app_nil_r in P. Qed.

(** A block behind the front of its class is not the entry block, and has a twin. *)
Lemma behind_front h front b others us1 us2 :
  NoDup (hd_blocks h) → uniques_of h = us1 ++ (front :: b :: others) :: us2 → twins h front b ∧ getEntryBlock h ≠ Some b.
Proof.
  intros Hall E. assert (Hn := Hall). destruct (uniques_spec h) as [(ks & _ & F) P]. rewrite E in F. rewrite <- P, E in Hn.
  assert (Hin : ∀ x, x ∈ [front; b] → x ∈ hd_blocks h).
  { intros x Hx. rewrite <- P, E, concat_app, elem_of_app. right. cbn. set_solver. }
  rewrite concat_app in Hn. apply list.NoDup_app in Hn as (_ & _ & Hn). cbn in Hn. apply list.NoDup_cons in Hn as [Hfb Hn].
  split.
  - apply Forall2_app_inv_r in F as (l1 & l2 & _ & F & ->). inversion F as [|k u ks' us' [_ Hk] _]; subst.
    apply list.Forall_cons in Hk as [Hf Hk]. apply list.Forall_cons in Hk as [Hb _].
    split_and!; [apply Hin; set_solver..|set_solver|apply same_block_key; congruence].
  - intros He. unfold getEntryBlock in He. destruct (hd_blocks h) as [|e bs] eqn:Eb; [done|]. injection He as ->.
    assert (Hf : head (concat (uniques_of h)) = Some b).
    { unfold uniques_of. rewrite Eb. cbn. destruct (front_collected h bs b [] []) as (u' & us' & ->). done. }
    rewrite E, concat_app in Hf. rewrite <- P, E, concat_app in Hall. cbn in *.
    destruct (concat us1) as [|x l]; cbn in *; [injection Hf as ->|injection Hf as ->]; apply list.NoDup_cons in Hall as [Hx _]; set_solver.
Qed.

(** ** Merging *)

Lemma replace_loop_links b old new ns h t :
  terminator_of (code_of h b) = Some t → links h → ∃ h', replace_loop b (OBlock old) (OBlock new) ns h = Ok h'.
Proof.
  revert h t. induction ns as [|n ns IH]; intros h t Ht L; cbn; [by exists h|]. rewrite Ht. case_bool_decide as Hn; [|by eapply IH].
  destruct (setOperand_spec b n old new t h Ht Hn L) as (h2 & -> & _ & C & L2). cbn.
  apply terminator_inv in Ht as [_ Hk].
  apply (IH h2 (mkInstr (in_id t) (in_kind t) (in_type t) (<[n := OBlock new]> (in_operands t)))); [|done].
  unfold code_of at 1. rewrite C, upd_default, decide_True by done. by apply terminator_snoc.
Qed.

(** A block with a predecessor is not redirected. *)
Lemma retarget_used bb to h : links h → predecessors h bb ≠ [] → retarget bb to h = Raise UndefinedBehaviour.
Proof.
  intros L Hp. unfold retarget. destruct (predecessors h bb) as [|p ps] eqn:E; [done|].
  assert (Ht : bb ∈ targets_of h p).
  { apply occ_elem. rewrite <- (proj1 (L p bb)), E. apply occ_elem. by left. }
  assert (Hs : ∃ t, terminator_of (code_of h p) = Some t).
  { unfold targets_of in Ht. destruct (terminator_of _); [by eauto|by apply not_elem_of_nil in Ht]. }
  destruct Hs as [t Hs]. destruct (replace_loop_links p bb to (seq 0 (length (in_operands t))) h t Hs L) as [h' E'].
  cbn. unfold replaceOperand. rewrite Hs, E'. cbn. by rewrite bool_decide_true.
Qed.

Lemma merge_uniques_single us h : Forall (λ u, length u ≤ 1) us → merge_uniques us h = Ok h.
Proof. intros F. induction F as [|u us Hu F IH]; [done|]. destruct u as [|x [|y u]]; cbn in *; [done..|lia]. Qed.

Lemma merge_uniques_app us1 us2 h : Forall (λ u, length u ≤ 1) us1 → merge_uniques (us1 ++ us2) h = merge_uniques us2 h.
Proof. intros F. induction F as [|u us Hu F IH]; [done|]. destruct u as [|x [|y u]]; cbn in *; [done..|lia]. Qed.

Lemma twins_collected h a b : twins h a b → ∃ u, u ∈ uniques_of h ∧ 1 < length u.
Proof.
  intros (Ha & Hb & Hne & Hs). apply same_block_key in Hs. destruct (uniques_spec h) as [(ks & Hn & F) P].
  assert (Hof : ∀ x, x ∈ hd_blocks h → ∃ i u, uniques_of h !! i = Some u ∧ x ∈ u ∧ ks !! i = Some (block_key h x)).
  { intros x Hx. rewrite <- P in Hx. apply list_elem_of_In, in_concat in Hx as (u & Hu & Hx). apply list_elem_of_In in Hu, Hx.
    apply list_elem_of_lookup in Hu as [i Hi]. destruct (Forall2_lookup_r _ _ _ _ _ F Hi) as (k & Hk & _ & Hall).
    exists i, u. by rewrite (proj1 (list.Forall_forall _ _) Hall x Hx). }
  destruct (Hof a Ha) as (i & u & Hi & Hau & Hki), (Hof b Hb) as (j & w & Hj & Hbw & Hkj). rewrite <- Hs in Hkj.
  assert (i = j) as <- by by eapply NoDup_lookup. rewrite Hi in Hj. injection Hj as <-. exists u. split; [by eapply list_elem_of_lookup_2|].
  destruct u as [|x [|y u]]; cbn; [by apply not_elem_of_nil in Hau| |lia].
  apply list_elem_of_singleton in Hau, Hbw. congruence.
Qed.

(** When no block is unused, the pass finds nothing, or goes on with the
    iterators of a vector it has erased from. *)
Lemma merge_spec h :
  ir_ok h → (∀ b, b ∈ hd_blocks h → getEntryBlock h = Some b ∨ predecessors h b ≠ []) →
  mergeBlockPass h = if has_twins h then Raise UndefinedBehaviour else Ok (false, h).
Proof.
  intros Hok Hu. unfold mergeBlockPass.
  destruct (decide (Forall (λ u, length u ≤ 1) (uniques_of h))) as [F|F].
  - rewrite merge_uniques_single by done. destruct (has_twins h) eqn:Et; [|done].
    apply has_twins_spec in Et as (a & b & Ht). destruct (twins_collected h a b Ht) as (u & Hin & Hl).
    pose proof (proj1 (list.Forall_forall _ _) F u Hin). cbn in *. lia.
  - assert (Hs : ∃ us1 front b others us2, uniques_of h = us1 ++ (front :: b :: others) :: us2 ∧ Forall (λ u, length u ≤ 1) us1).
    { clear -F. induction (uniques_of h) as [|u us IH]; [by destruct F|]. destruct (decide (length u ≤ 1)) as [Hu|Hu].
      - destruct IH as (us1 & f & b & o & us2 & -> & F1); [by intros F2; apply F; constructor|]. exists (u :: us1), f, b, o, us2. split; [done|by constructor].
      - destruct u as [|f [|b o]]; cbn in Hu; [lia..|]. exists [], f, b, o, us. split; [done|constructor]. }
    destruct Hs as (us1 & front & b & others & us2 & E & F1). destruct (behind_front h front b others us1 us2) as [Ht He]; [apply Hok|done|].
    destruct (Hu b) as [|Hp]; [apply Ht|done|]. rewrite E, merge_uniques_app by done. cbn.
    rewrite retarget_used by (done || apply Hok). cbn. rewrite (proj2 (has_twins_spec h)); [done|by eauto].
Qed.

(** ** The pass manager *)

(** What a round keeps, whatever the instructions do. *)
Definition same_runs h h' : Prop :=
  getEntryBlock h' = getEntryBlock h ∧ (∀ b, b ∈ hd_blocks h' → b ∈ hd_blocks h) ∧
  ∀ (V W X : Type) (exec : InstrKind → FlowType → list (Arg V) → W → Effect V W X) fuel w,
    exec_handler exec fuel h' w = exec_handler exec fuel h w.

(** No block is left that nothing names, the entry block apart. *)
Definition all_used h : Prop := ∀ b, b ∈ hd_blocks h → getEntryBlock h = Some b ∨ predecessors h b ≠ [].

Lemma last_round h n :
  ir_ok h → List.filter (unused_block h) (hd_blocks h) = [] →
  all_used h ∧ passManager_run (S n) (passes_of_level 1) h = if has_twins h then Raise UndefinedBehaviour else Ok h.
Proof.
  intros Hok Hu. assert (Ha : all_used h).
  { intros b Hb. destruct (decide (getEntryBlock h = Some b)); [by left|]. right. intros Hp.
    assert (Hin : b ∈ List.filter (unused_block h) (hd_blocks h)) by (by apply unused_spec). rewrite Hu in Hin. by apply not_elem_of_nil in Hin. }
  split; [done|]. cbn. unfold unusedBlockPass. rewrite Hu. cbn. rewrite merge_spec by done. by destruct (has_twins h).
Qed.

Lemma erasing_round h n :
  ir_ok h → values_confined h → List.filter (unused_block h) (hd_blocks h) ≠ [] →
  ∃ h', passManager_run (S n) (passes_of_level 1) h = passManager_run n (passes_of_level 1) h' ∧
    length (hd_blocks h') < length (hd_blocks h) ∧ ir_ok h' ∧ values_confined h' ∧ same_runs h h'.
Proof.
  intros Hok Hc Hu. destruct (unused_erased h Hok Hc) as (h1 & E1 & Hok1 & X1). set (us := List.filter _ _) in *.
  exists h1. pose proof (er_blocks _ _ _ X1) as B. split_and!.
  - cbn. rewrite E1, bool_decide_false by done. done.
  - rewrite B, length_app. destruct us; [done|]. cbn. lia.
  - done.
  - intros d Hd. apply (unused_reachable h); [done..|]. by apply Hc, (erased_escapes us h h1).
  - split_and!; [by apply (unused_same (V:=nat) (W:=nat) (X:=nat) (λ _ _ _ w, Exit 0 w) h h1)| |].
    + intros b Hb. rewrite B. apply elem_of_app. by right.
    + intros V W X exec fuel w. by apply unused_same.
Qed.

Lemma same_runs_trans h1 h2 h3 : same_runs h1 h2 → same_runs h2 h3 → same_runs h1 h3.
Proof.
  intros (E1 & B1 & R1) (E2 & B2 & R2). split_and!; [congruence|by auto|]. intros V W X exec fuel w. by rewrite R2, R1.
Qed.

Lemma level_one_rounds n h :
  length (hd_blocks h) ≤ n → ir_ok h → values_confined h →
  ∃ h', ir_ok h' ∧ all_used h' ∧ same_runs h h' ∧
    passManager_run (S n) (passes_of_level 1) h = if has_twins h' then Raise UndefinedBehaviour else Ok h'.
Proof.
  revert h. induction n as [|n IH]; intros h Hn Hok Hc.
  - exists h. destruct (last_round h 0 Hok) as [Ha E]; [|by split_and!]. destruct (hd_blocks h); [done|cbn in Hn; lia].
  - destruct (decide (List.filter (unused_block h) (hd_blocks h) = [])) as [Hu|Hu].
    { exists h. destruct (last_round h (S n) Hok Hu) as [Ha E]. by split_and!. }
    destruct (erasing_round h (S n) Hok Hc Hu) as (h1 & E1 & Hl & Hok1 & Hc1 & S1). rewrite E1.
    destruct (IH h1) as (h2 & Hok2 & Ha2 & S2 & E2); [lia|done..|]. exists h2. split_and!; [done..|by eapply same_runs_trans|done].
Qed.

(** C19 (equivalence). The passes of the default optimization level, on a handler whose links are
    those its terminators name, whose identities are its own, and whose values are used behind
    their definition or come from blocks that the entry block reaches. Erasing the unused blocks
    ends after at most one round per block, without a failing assertion, and leaves a well-formed
    handler with the same entry block in which every other block is named by some terminator; for
    every meaning of the instructions, every state and every number of blocks it runs with the same
    outcome as before. When no two of its blocks have the same instructions and successors in the
    eyes of [MergeBlockPass], that handler is the result. When two have, and the pass goes about
    merging them, the pass manager ends in undefined behaviour: the loop over the predecessors of
    the second goes on with iterators of a vector that [replaceOperand] has erased from. *)
Theorem level_one_preserves h :
  ir_ok h → values_confined h →
  ∃ h', ir_ok h' ∧ getEntryBlock h' = getEntryBlock h ∧ (∀ b, b ∈ hd_blocks h' → b ∈ hd_blocks h) ∧
    (∀ b, b ∈ hd_blocks h' → getEntryBlock h' = Some b ∨ predecessors h' b ≠ []) ∧
    (∀ (V W X : Type) (exec : InstrKind → FlowType → list (Arg V) → W → Effect V W X) fuel w,
      exec_handler exec fuel h' w = exec_handler exec fuel h w) ∧
    passManager_run (S (length (hd_blocks h))) (passes_of_level 1) h =
      if has_twins h' then Raise UndefinedBehaviour else Ok h'.
Proof.
  intros Hok Hc. destruct (level_one_rounds (length (hd_blocks h)) h) as (h' & Ho & Ha & (He & Hb & Hr) & E); [lia|done..|].
  by exists h'.
Qed.

(** ** Checking a handler *)

Fixpoint ordered_check (before : list nat) (c : list Instr) (own : list nat) : bool :=
  match c with
  | [] => true
  | i :: c =>
      forallb (λ o, match op_value o with Some v => bool_decide (v ∈ before) || negb (bool_decide (v ∈ own)) | None => true end) (in_operands i) &&
      ordered_check (before ++ [in_id i]) c own
  end.

Definition escapes_check h (d : nat) : bool :=
  existsb (λ p, negb (bool_decide (p.1 = d)) && existsb (λ i, existsb (λ o, match op_value o with Some v => bool_decide (v ∈ ids (code_of h d)) | None => false end) (in_operands i)) p.2)
    (map_to_list (hd_code h)).

Lemma escapes_checked h d : escapes h d → escapes_check h d = true ∧ is_Some (hd_code h !! d).
Proof.
  intros (c & i & v & Hne & Hi & Hv & Hd). split.
  - unfold escapes_check. apply existsb_exists. unfold code_of in Hi. destruct (hd_code h !! c) as [l|] eqn:El; [|by apply not_elem_of_nil in Hi].
    exists (c, l). split; [by apply list_elem_of_In, elem_of_map_to_list|]. cbn. rewrite bool_decide_false by done. cbn.
    apply existsb_exists. exists i. split; [by apply list_elem_of_In|]. apply existsb_exists. exists (OInstr v).
    split; [by apply list_elem_of_In|]. cbn. by apply bool_decide_eq_true.
  - unfold code_of in Hd. destruct (hd_code h !! d); [done|]. by apply not_elem_of_nil in Hd.
Qed.

Lemma ordered_checked b c own :
  NoDup (b ++ ids c) → (∀ v, v ∈ ids c → v ∈ own) → ordered_check b c own = true →
  ∀ c1 i c2 v, c = c1 ++ i :: c2 → OInstr v ∈ in_operands i → v ∉ ids (i :: c2).
Proof.
  revert b. induction c as [|j c IH]; intros b Hn Ho Hc c1 i c2 v E Hv Hin; [by destruct c1|]. cbn in Hc. apply andb_true_iff in Hc as [H1 H2].
  destruct c1 as [|x c1]; injection E as -> ->.
  - rewrite forallb_forall in H1. apply list_elem_of_In in Hv. specialize (H1 _ Hv). cbn in H1.
    apply orb_true_iff in H1 as [H1|H1]; [|apply negb_true_iff, bool_decide_eq_false in H1; auto].
    apply bool_decide_eq_true in H1. apply list.NoDup_app in Hn as (_ & Hd & _). by apply (Hd v).
  - apply (IH (b ++ [in_id x])) with c1 i c2 v; try done.
    + rewrite <- app_assoc. done.
    + intros u Hu. apply Ho, elem_of_cons. by right.
Qed.

(** The conditions on the blocks of a handler, evaluated. *)
Definition ir_check h : bool :=
  bool_decide (NoDup (hd_blocks h)) && bool_decide (dom (hd_code h) = list_to_set (C := gset nat) (hd_blocks h)) &&
  forallb (λ b, block_ends (code_of h b)) (hd_blocks h) &&
  forallb (λ b, bool_decide (NoDup (ids (code_of h b))) && ordered_check [] (code_of h b) (ids (code_of h b))) (hd_blocks h) &&
  forallb (λ a, forallb (λ b, bool_decide (a = b) || forallb (λ v, negb (bool_decide (v ∈ ids (code_of h b)))) (ids (code_of h a))) (hd_blocks h)) (hd_blocks h).

Lemma ir_checked h : ir_check h = true → links h → ir_ok h.
Proof.
  unfold ir_check. rewrite !andb_true_iff, !bool_decide_eq_true, !forallb_forall. intros ((((Hn & Hd) & He) & Ho) & Hi) L.
  assert (Hdom : ∀ b, b ∈ hd_blocks h ↔ is_Some (hd_code h !! b)).
  { intros b. rewrite <- elem_of_dom, Hd. by rewrite elem_of_list_to_set. }
  assert (Hin : ∀ a v, v ∈ ids (code_of h a) → In a (hd_blocks h)).
  { intros a v Hv. apply list_elem_of_In, Hdom. unfold code_of in Hv. destruct (hd_code h !! a); [done|]. by apply not_elem_of_nil in Hv. }
  split; try done.
  - apply list.Forall_forall. intros b Hb. apply He. by apply list_elem_of_In.
  - intros a b v Ha Hb. specialize (Hi a (Hin a v Ha)). rewrite forallb_forall in Hi. specialize (Hi b (Hin b v Hb)).
    apply orb_true_iff in Hi as [Hi|Hi]; [by apply bool_decide_eq_true in Hi|]. rewrite forallb_forall in Hi.
    apply list_elem_of_In in Ha. apply Hi in Ha. by apply negb_true_iff, bool_decide_eq_false in Ha.
  - intros b c1 i c2 v E Hv. assert (Hb : In b (hd_blocks h)).
    { apply (Hin b (in_id i)). rewrite E. unfold ids. rewrite fmap_app. apply elem_of_app. right. cbn. apply elem_of_cons. by left. }
    apply Ho, andb_true_iff in Hb as [Hb1 Hb2]. apply bool_decide_eq_true in Hb1.
    exact (ordered_checked [] (code_of h b) (ids (code_of h b)) Hb1 (λ u Hu, Hu) Hb2 c1 i c2 v E Hv).
Qed.

(** ** Handlers with an unused block, without and with equal blocks

    The entry block makes a variable and branches to one of two blocks; block 4 is
    named by no one. *)
Definition callee (n : Z) : Operand := OConst (ConstantInt n).
Fixpoint blocks_made (n : nat) : IRHandler := match n with O => newIRHandler | S n => createBlock (blocks_made n) end.
Fixpoint pushed (is_ : list (nat * InstrKind * FlowType * list Operand)) h : IRHandler :=
  match is_ with [] => h | (b, k, ty, ops) :: is_ => pushed is_ (push_new b k ty ops h) end.

Definition example_code (callee2 : Z) : list (nat * InstrKind * FlowType * list Operand) :=
  [(0, AllocaInstr, TBoolean, [callee 1]); (0, CondBrInstr, TVoid, [callee 2; OBlock 1; OBlock 2]);
   (1, CallInstr, TVoid, [callee 3; OInstr 5]); (1, BrInstr, TVoid, [OBlock 3]);
   (2, CallInstr, TVoid, [callee callee2; OInstr 5]); (2, BrInstr, TVoid, [OBlock 3]);
   (3, LoadInstr, TVoid, [OInstr 5]); (3, RetInstr, TVoid, [OInstr 11]);
   (4, NopInstr, TVoid, []); (4, BrInstr, TVoid, [OBlock 3])].
Definition example_handler : IRHandler := pushed (example_code 4) (blocks_made 5).
(** The two branches call the same function. *)
Definition twin_handler : IRHandler := pushed (example_code 3) (blocks_made 5).

(** The instructions go to blocks that have no terminator yet. *)
Fixpoint pushable (is_ : list (nat * InstrKind * FlowType * list Operand)) h : bool :=
  match is_ with
  | [] => true
  | (b, k, ty, ops) :: is_ => bool_decide (terminator_of (code_of h b) = None) && pushable is_ (push_new b k ty ops h)
  end.

Lemma pushed_links is_ h : pushable is_ h = true → links h → links (pushed is_ h).
Proof.
  revert h. induction is_ as [|[[[b k] ty] ops] is_ IH]; intros h Hp L; [done|]. cbn in *. apply andb_true_iff in Hp as [Ht Hp].
  apply bool_decide_eq_true in Ht. apply IH; [done|]. apply push_back_links; done.
Qed.

Lemma example_ok : ir_ok example_handler.
Proof.
  apply ir_checked; [by vm_compute|]. apply pushed_links; [by vm_compute|].
  repeat (apply createBlock_links; [|by vm_compute]). apply newHandler_links.
Qed.

Lemma example_escapes d : escapes example_handler d → d = 0.
Proof.
  intros H. apply escapes_checked in H as [Hc Hs]. apply (io_dom _ example_ok), list_elem_of_In in Hs. cbn in Hs.
  destruct Hs as [<-|[<-|[<-|[<-|[<-|[]]]]]]; [done|by vm_compute in Hc..].
Qed.

(** [level_one_preserves] at the first: the unused block is gone. *)
Lemma level_one_preserves_witness :
  ir_ok example_handler ∧ values_confined example_handler ∧
  ∃ h', passManager_run 6 (passes_of_level 1) example_handler = Ok h' ∧ hd_blocks h' = [0; 1; 2; 3] ∧
    ∀ (V W X : Type) (exec : InstrKind → FlowType → list (Arg V) → W → Effect V W X) fuel w,
      exec_handler exec fuel h' w = exec_handler exec fuel example_handler w.
Proof.
  assert (Hc : values_confined example_handler).
  { intros d Hd. apply example_escapes in Hd as ->. exists 0. split; [done|apply rtc_refl]. }
  split_and!; [exact example_ok|exact Hc|].
  destruct (level_one_preserves example_handler example_ok Hc) as (h' & _ & _ & _ & _ & R & E). exists h'.
  destruct (has_twins h'); [vm_compute in E; discriminate E|].
  split_and!; [exact E| |exact R]. vm_compute in E. injection E as <-. reflexivity.
Defined.

(** ** Passes that do not do what they mean to *)

(** Two equal blocks, each with a predecessor: merging them is undefined. *)
Lemma merge_invalidates :
  ir_check twin_handler = true ∧ passManager_run 6 (passes_of_level 1) twin_handler = Raise UndefinedBehaviour.
Proof. split; by vm_compute. Qed.

(** Matches of different classes are taken for the same. *)
Lemma match_class_ignored :
  isSameInstruction (mkInstr 1 (MatchInstr MatchSame) TVoid [callee 1; OBlock 1]) (mkInstr 2 (MatchInstr MatchHead) TVoid [callee 1; OBlock 1]) = true.
Proof. done. Qed.

(** An empty entry block is erased, and the block behind it in the list becomes
    the entry block, not the one it branches to. *)
Definition empty_entry : IRHandler :=
  pushed [(0, BrInstr, TVoid, [OBlock 2]); (1, RetInstr, TVoid, [callee 0]); (2, CondBrInstr, TVoid, [callee 1; OBlock 1; OBlock 1])] (blocks_made 3).
Lemma empty_entry_lost :
  ∃ h', emptyBlockElimination empty_entry = Ok (true, h') ∧ getEntryBlock h' = Some 1 ∧ targets_of empty_entry 0 = [2].
Proof. eexists. split_and!; [vm_compute; reflexivity|done..]. Qed.

(** An empty block with a predecessor: the same loop, the same end. *)
Definition empty_block : IRHandler :=
  pushed [(0, CondBrInstr, TVoid, [callee 1; OBlock 1; OBlock 2]); (1, BrInstr, TVoid, [OBlock 2]); (2, RetInstr, TVoid, [callee 0])] (blocks_made 3).
Lemma empty_block_invalidates : emptyBlockElimination empty_block = Raise UndefinedBehaviour.
Proof. by vm_compute. Qed.

(** A block that is moved behind its only predecessor: the copies of its
    instructions still use the values of the originals. *)
Definition linear_branch : IRHandler :=
  pushed [(0, CallInstr, TVoid, [callee 1]); (0, BrInstr, TVoid, [OBlock 1]); (1, CallInstr, TVoid, [callee 2]); (1, CallInstr, TVoid, [callee 3; OInstr 4]);
          (1, RetInstr, TVoid, [callee 0])] (blocks_made 2).
Lemma linear_branch_fails : eliminateLinearBr 0 linear_branch = Raise AssertionFailure.
Proof. by vm_compute. Qed.
