(* ===== verification/HeaderFieldList.v ===== *)
(** * Header lists

    [src/xzero/http/HeaderField.h], [HeaderField.cc] and [HeaderFieldList.cc]: an
    ordered list of name and value pairs whose names compare without regard to
    case. The abstract view of a list is, for each name, the sequence of its
    values ([values_of]); [header_list_refines] shows that every operation acts
    on that view as a multi-map would. *)
From S2P Require Import Prelude.

(** ** Names

    [iequals] of two [std::string]s: equal lengths, and [strncasecmp], which
    stops at the first NUL. *)
Fixpoint strncasecmp_eq (a b : bytes) : bool :=
  match a, b with
  | x :: a, y :: b => (lower_byte x =? lower_byte y) && ((x =? 0) || strncasecmp_eq a b)
  | _, _ => true
  end.

Definition iequals_str (a b : bytes) : bool :=
  (length a =? length b)%nat && strncasecmp_eq a b.

Definition same_name (a b : bytes) : Prop := iequals_str a b = true.

#[export] Instance same_name_dec a b : Decision (same_name a b).
Proof. unfold same_name. apply _. Defined.

(** ** Fields *)

Record HeaderField := mkField { fld_name : bytes; fld_value : bytes; fld_sensitive : bool }.

#[export] Instance HeaderField_eq_dec : EqDecision HeaderField.
Proof. solve_decision. Defined.

Definition setValue (v : bytes) (f : HeaderField) : HeaderField := mkField (fld_name f) v (fld_sensitive f).

Definition prependValue (value delim : bytes) (f : HeaderField) : HeaderField :=
  setValue (match fld_value f with [] => value | _ => value ++ delim ++ fld_value f end) f.

Definition appendValue (value delim : bytes) (f : HeaderField) : HeaderField :=
  setValue (match fld_value f with [] => value | _ => fld_value f ++ delim ++ value end) f.

Definition isspace (c : Z) : bool := (c =? 32) || ((9 <=? c) && (c <=? 13)).

Fixpoint skip_spaces (s : bytes) : bytes :=
  match s with c :: t => if isspace c then skip_spaces t else s | [] => [] end.

(** [HeaderField::parse]: without a colon [find] gives [npos], so the name is
    the whole text and the value starts at [npos + 1 = 0]. *)
Definition field_parse (field : bytes) : HeaderField :=
  match list_find (λ c, c = 58) field with
  | Some (i, _) => mkField (take i field) (skip_spaces (drop (S i) field)) false
  | None => mkField field (skip_spaces field) false
  end.

Definition field_equal (a b : HeaderField) : bool :=
  iequals_str (fld_name a) (fld_name b) && iequals_str (fld_value a) (fld_value b).

(** ** Lists *)

Abbreviation HeaderFieldList := (list HeaderField).

Definition hl_push_field (f : HeaderField) (l : HeaderFieldList) : result HeaderFieldList :=
  match fld_name f with [] => Raise RuntimeError | _ => Ok (l ++ [f]) end.

Definition hl_push_back (name value : bytes) (l : HeaderFieldList) : result HeaderFieldList :=
  hl_push_field (mkField name value false) l.

Definition hl_push_sensitive (name value : bytes) (sensitive : bool) (l : HeaderFieldList) : result HeaderFieldList :=
  hl_push_field (mkField name value sensitive) l.

(** [push_back(const HeaderFieldList&)] copies names and values: the fields it
    adds are not sensitive. [push_back(HeaderFieldList&&)] moves the fields. *)
Fixpoint hl_push_all (fs l : HeaderFieldList) : result HeaderFieldList :=
  match fs with
  | [] => Ok l
  | f :: fs => l' ← hl_push_back (fld_name f) (fld_value f) l; hl_push_all fs l'
  end.

Fixpoint hl_push_moved (fs l : HeaderFieldList) : result HeaderFieldList :=
  match fs with
  | [] => Ok l
  | f :: fs => l' ← hl_push_field f l; hl_push_moved fs l'
  end.

(** The constructors from a sequence of pairs. *)
Fixpoint hl_of_pairs (init : list (bytes * bytes)) (l : HeaderFieldList) : result HeaderFieldList :=
  match init with
  | [] => Ok l
  | (n, v) :: init => l' ← hl_push_back n v l; hl_of_pairs init l'
  end.

(** The loop of [remove] looks for a match from the beginning each time, erases it
    and goes on until the place it erased at is the end. [erase] has invalidated
    the iterator [start] that the test then compares; iterators are taken for
    positions of the vector here, which is what they are while it stays where it
    is. *)
Fixpoint erase_first (name : bytes) (l : HeaderFieldList) : option (nat * HeaderFieldList) :=
  match l with
  | [] => None
  | f :: l =>
      if iequals_str (fld_name f) name then Some (0%nat, l)
      else '(i, l) ← erase_first name l; Some (S i, f :: l)
  end.

Fixpoint remove_loop (fuel : nat) (name : bytes) (start : nat) (l : HeaderFieldList) : HeaderFieldList :=
  match fuel with
  | O => l
  | S fuel =>
      if (start =? length l)%nat then l
      else match erase_first name l with
           | Some (i, l) => remove_loop fuel name i l
           | None => l
           end
  end.

Definition hl_remove (name : bytes) (l : HeaderFieldList) : HeaderFieldList := remove_loop (S (length l)) name 0 l.

Definition hl_overwrite (name value : bytes) (l : HeaderFieldList) : result HeaderFieldList :=
  match name with [] => Raise RuntimeError | _ => hl_push_back name value (hl_remove name l) end.

(** The first field of that name changed by [f]. *)
Fixpoint alter_first (name : bytes) (g : HeaderField → HeaderField) (l : HeaderFieldList) : option HeaderFieldList :=
  match l with
  | [] => None
  | f :: l => if iequals_str (fld_name f) name then Some (g f :: l) else (f ::.) <$> alter_first name g l
  end.

Definition hl_prepend (name value delim : bytes) (l : HeaderFieldList) : result HeaderFieldList :=
  match alter_first name (prependValue value delim) l with
  | Some l => Ok l
  | None => hl_push_back name value l
  end.

Definition hl_append (name value delim : bytes) (l : HeaderFieldList) : result HeaderFieldList :=
  match alter_first name (appendValue value delim) l with
  | Some l => Ok l
  | None => hl_push_back name value l
  end.

Fixpoint hl_contains (name : bytes) (l : HeaderFieldList) : bool :=
  match l with
  | [] => false
  | f :: l => if iequals_str (fld_name f) name then true else hl_contains name l
  end.

Fixpoint hl_contains_value (name value : bytes) (l : HeaderFieldList) : bool :=
  match l with
  | [] => false
  | f :: l => if iequals_str (fld_name f) name && iequals_str (fld_value f) value then true
              else hl_contains_value name value l
  end.

(** An absent name gives the empty string. *)
Fixpoint hl_get (name : bytes) (l : HeaderFieldList) : bytes :=
  match l with
  | [] => []
  | f :: l => if iequals_str (fld_name f) name then fld_value f else hl_get name l
  end.

(** [operator[](size_t)]: the loop steps the iterator [index] times. *)
Fixpoint hl_advance (index : nat) (l : HeaderFieldList) : option HeaderField :=
  match l, index with
  | [], _ => None
  | f :: _, O => Some f
  | _ :: l, S index => hl_advance index l
  end.

Definition hl_at (index : nat) (l : HeaderFieldList) : result HeaderField :=
  if (length l <=? index)%nat then Raise IndexError
  else match hl_advance index l with Some f => Ok f | None => Raise UndefinedBehaviour end.

(** ** The abstract view *)

Definition values_of (name : bytes) (l : HeaderFieldList) : list bytes :=
  fld_value <$> filter (λ f, same_name (fld_name f) name) l.

(** The changes a list can undergo. *)
Inductive header_op : Type :=
  | PushBack (name value : bytes)
  | Overwrite (name value : bytes)
  | Prepend (name value delim : bytes)
  | Append (name value delim : bytes)
  | Remove (name : bytes).

Definition op_name (op : header_op) : bytes :=
  match op with
  | PushBack n _ | Overwrite n _ | Prepend n _ _ | Append n _ _ | Remove n => n
  end.

Definition hl_run (op : header_op) (l : HeaderFieldList) : result HeaderFieldList :=
  match op with
  | PushBack n v => hl_push_back n v l
  | Overwrite n v => hl_overwrite n v l
  | Prepend n v d => hl_prepend n v d l
  | Append n v d => hl_append n v d l
  | Remove n => Ok (hl_remove n l)
  end.

Definition join_values (value delim old : bytes) : bytes :=
  match old with [] => value | _ => old ++ delim ++ value end.

(** What the operation does to the values under its own name. *)
Definition op_spec (op : header_op) (vs : list bytes) : list bytes :=
  match op, vs with
  | PushBack _ v, _ => vs ++ [v]
  | Overwrite _ v, _ => [v]
  | Prepend _ v d, [] :: vs => v :: vs
  | Prepend _ v d, old :: vs => (v ++ d ++ old) :: vs
  | Append _ v d, old :: vs => join_values v d old :: vs
  | (Prepend _ v _ | Append _ v _), [] => [v]
  | Remove _, _ => []
  end.

(** Only a field with an empty name cannot be added. *)
Definition op_refused (op : header_op) (l : HeaderFieldList) : bool :=
  match op with
  | PushBack n _ | Overwrite n _ => bool_decide (n = [])
  | Prepend n _ _ | Append n _ _ => bool_decide (n = []) && bool_decide (values_of n l = [])
  | Remove _ => false
  end.

(** ** Names form an equivalence *)

Lemma lower_byte_zero x y : lower_byte x = lower_byte y → x = 0 → y = 0.
Proof. unfold lower_byte. intros H ->. cbn in H. repeat case_match; lia. Qed.

Lemma strncasecmp_refl a : strncasecmp_eq a a = true.
Proof. induction a as [|x a IH]; cbn; [done|]. by rewrite Z.eqb_refl, IH, orb_true_r. Qed.

Lemma strncasecmp_sym a b : strncasecmp_eq a b = true → strncasecmp_eq b a = true.
Proof.
  revert b. induction a as [|x a IH]; intros [|y b]; cbn; try done.
  rewrite !andb_true_iff, !orb_true_iff, !Z.eqb_eq. intros [Hl [->|H]]; (split; [done|]).
  - left. by eapply lower_byte_zero.
  - right. by apply IH.
Qed.

Lemma strncasecmp_trans a b c :
  length a = length b → length b = length c →
  strncasecmp_eq a b = true → strncasecmp_eq b c = true → strncasecmp_eq a c = true.
Proof.
  revert b c. induction a as [|x a IH]; intros [|y b] [|z c]; cbn; try done.
  rewrite !andb_true_iff, !orb_true_iff, !Z.eqb_eq. intros [= Hab] [= Hbc] [Hl [->|H]] [Hl' H'].
  - split; [congruence|by left].
  - split; [congruence|]. destruct H' as [->|H'].
    + left. eapply lower_byte_zero; [symmetry; exact Hl|done].
    + right. by eapply IH.
Qed.

#[export] Instance same_name_equivalence : Equivalence same_name.
Proof.
  unfold same_name, iequals_str. split.
  - intros a. by rewrite Nat.eqb_refl, strncasecmp_refl.
  - intros a b. rewrite !andb_true_iff, !Nat.eqb_eq. intros [? ?]. split; [done|by apply strncasecmp_sym].
  - intros a b c. rewrite !andb_true_iff, !Nat.eqb_eq. intros [? ?] [? ?].
    split; [congruence|]. by eapply (strncasecmp_trans a b).
Qed.

#[export] Instance iequals_proper : Proper (same_name ==> same_name ==> eq) iequals_str.
Proof.
  intros a a' Ha b b' Hb. apply eq_bool_prop_intro; rewrite !Is_true_true. fold (same_name a b) (same_name a' b').
  by rewrite Ha, Hb.
Qed.

(** ** The view of each operation *)

Lemma values_of_cons n f l :
  values_of n (f :: l) = (if iequals_str (fld_name f) n then [fld_value f] else []) ++ values_of n l.
Proof.
  unfold values_of. rewrite filter_cons. destruct (decide (same_name (fld_name f) n)) as [H|H]; unfold same_name in H.
  - by rewrite H.
  - by rewrite (not_true_is_false _ H).
Qed.

Lemma values_of_app n l l' : values_of n (l ++ l') = values_of n l ++ values_of n l'.
Proof. induction l as [|f l IH]; [done|]. cbn [app]. by rewrite !values_of_cons, IH, app_assoc. Qed.

#[export] Instance values_of_proper : Proper (same_name ==> eq ==> eq) values_of.
Proof.
  intros a b H l l' <-. induction l as [|f l IH]; [done|]. by rewrite !values_of_cons, IH, H.
Qed.

Lemma hl_contains_values n l : hl_contains n l = negb (bool_decide (values_of n l = [])).
Proof. induction l as [|f l IH]; [done|]. rewrite values_of_cons. cbn. by case_match. Qed.

Lemma hl_get_values n l : hl_get n l = default [] (head (values_of n l)).
Proof. induction l as [|f l IH]; [done|]. rewrite values_of_cons. cbn. by case_match. Qed.

Lemma other_name n n' f : ¬ same_name n n' → same_name f n → iequals_str f n' = false.
Proof. intros Hn Hf. apply not_true_is_false. intros H. apply Hn. rewrite <-Hf. exact H. Qed.

Lemma erase_first_spec n l :
  match erase_first n l with
  | Some (i, l') => length l = S (length l') ∧ values_of n (take i l') = [] ∧
      ∀ n', ¬ same_name n n' → values_of n' l' = values_of n' l
  | None => values_of n l = []
  end.
Proof.
  induction l as [|f l IH]; [done|]. cbn [erase_first]. rewrite values_of_cons.
  destruct (iequals_str (fld_name f) n) eqn:E; cbn [app].
  - split; [done|]. split; [by rewrite take_0|]. intros n' Hn. rewrite values_of_cons. by rewrite (other_name n n').
  - destruct (erase_first n l) as [[i l']|]; cbn [mbind option_bind length]; [|done]. destruct IH as (Hl & Hv & Ho).
    split; [by rewrite Hl|]. split; [cbn [take]; by rewrite values_of_cons, E|].
    intros n' Hn. by rewrite !values_of_cons, Ho.
Qed.

(** What is before [start] does not match. *)
Lemma remove_loop_spec fuel n start l :
  (length l < fuel)%nat → values_of n (take start l) = [] →
  values_of n (remove_loop fuel n start l) = [] ∧
  ∀ n', ¬ same_name n n' → values_of n' (remove_loop fuel n start l) = values_of n' l.
Proof.
  revert start l. induction fuel as [|fuel IH]; intros start l Hl Hs; [lia|]. cbn [remove_loop].
  destruct (Nat.eqb_spec start (length l)) as [->|_]; [by rewrite firstn_all in Hs|].
  pose proof (erase_first_spec n l) as He. destruct (erase_first n l) as [[i l']|]; [|done].
  destruct He as (Hlen & Hv & Ho). destruct (IH i l') as [Hs' Ho']; [lia|done|]. split; [done|].
  intros n' Hn. by rewrite Ho', Ho.
Qed.

Lemma hl_remove_spec n l :
  values_of n (hl_remove n l) = [] ∧ ∀ n', ¬ same_name n n' → values_of n' (hl_remove n l) = values_of n' l.
Proof. apply remove_loop_spec; [lia|by rewrite take_0]. Qed.

Lemma alter_first_spec n g l : (∀ f, fld_name (g f) = fld_name f) →
  match alter_first n g l with
  | Some l' => (∃ f vs, values_of n l = fld_value f :: vs ∧ values_of n l' = fld_value (g f) :: vs) ∧
      ∀ n', ¬ same_name n n' → values_of n' l' = values_of n' l
  | None => values_of n l = []
  end.
Proof.
  intros Hg. induction l as [|f l IH]; [done|]. cbn [alter_first]. rewrite values_of_cons.
  destruct (iequals_str (fld_name f) n) eqn:E; cbn [app].
  - split.
    + exists f, (values_of n l). by rewrite values_of_cons, Hg, E.
    + intros n' Hn. by rewrite !values_of_cons, Hg, (other_name n n').
  - destruct (alter_first n g l) as [l'|]; cbn [fmap option_fmap option_map length]; [|done]. destruct IH as [(f0 & vs & Hv & Hv') Ho]. split.
    + exists f0, vs. by rewrite values_of_cons, E.
    + intros n' Hn. by rewrite !values_of_cons, Ho.
Qed.

Lemma hl_push_back_spec n v l :
  match hl_push_back n v l with
  | Ok l' => n ≠ [] ∧ values_of n l' = values_of n l ++ [v] ∧
      ∀ n', ¬ same_name n n' → values_of n' l' = values_of n' l
  | Raise e => e = RuntimeError ∧ n = []
  end.
Proof.
  unfold hl_push_back, hl_push_field. cbn. destruct n as [|c n]; [done|]. split; [done|]. split.
  - rewrite values_of_app, values_of_cons. cbn [fld_name fld_value].
    assert (iequals_str (c :: n) (c :: n) = true) as -> by (apply (reflexivity (R := same_name))). done.
  - intros n' Hn. rewrite values_of_app, values_of_cons. cbn [fld_name fld_value].
    rewrite (other_name (c :: n) n') by done. by rewrite app_nil_r.
Qed.

Lemma alter_or_push_spec n v g l spec :
  (∀ f, fld_name (g f) = fld_name f) → (∀ f vs, spec (fld_value f :: vs) = fld_value (g f) :: vs) → spec [] = [v] →
  match match alter_first n g l with Some l' => Ok l' | None => hl_push_back n v l end with
  | Ok l' => (n ≠ [] ∨ values_of n l ≠ []) ∧ values_of n l' = spec (values_of n l) ∧
      ∀ n', ¬ same_name n n' → values_of n' l' = values_of n' l
  | Raise e => e = RuntimeError ∧ n = [] ∧ values_of n l = []
  end.
Proof.
  intros Hg Hs H0. pose proof (alter_first_spec n g l Hg) as Ha. destruct (alter_first n g l) as [l'|].
  - destruct Ha as [(f & vs & Hv & Hv') Ho]. split; [right; by rewrite Hv|]. by rewrite Hv, Hv', Hs.
  - pose proof (hl_push_back_spec n v l) as Hp. destruct (hl_push_back n v l); [|by destruct Hp].
    destruct Hp as (Hn & Hv & Ho). split; [by left|]. by rewrite Hv, Ha, H0.
Qed.

(** C34 (refinement). A header list implements a map from names, compared
    without regard to case, to sequences of values: every operation is refused
    exactly when it would add a field with an empty name, changes the values
    under its own name as [op_spec] says and those under no other name, and the
    observers [contains] and [get] report whether there is a value and the
    first one. *)
Theorem header_list_refines (op : header_op) (l : HeaderFieldList) :
  match hl_run op l with
  | Raise e => e = RuntimeError ∧ op_refused op l = true
  | Ok l' => op_refused op l = false ∧
      ∀ n, values_of n l' = (if iequals_str (op_name op) n then op_spec op (values_of n l) else values_of n l) ∧
        hl_contains n l' = negb (bool_decide (values_of n l' = [])) ∧
        hl_get n l' = default [] (head (values_of n l'))
  end.
Proof.
  assert (∀ l', (values_of (op_name op) l' = op_spec op (values_of (op_name op) l) ∧
      ∀ n', ¬ same_name (op_name op) n' → values_of n' l' = values_of n' l) →
      ∀ n, values_of n l' = (if iequals_str (op_name op) n then op_spec op (values_of n l) else values_of n l) ∧
        hl_contains n l' = negb (bool_decide (values_of n l' = [])) ∧
        hl_get n l' = default [] (head (values_of n l'))) as Hcore.
  { intros l' [Hs Ho] n. split; [|by rewrite hl_contains_values, hl_get_values].
    destruct (iequals_str (op_name op) n) eqn:E.
    - assert (same_name (op_name op) n) as <- by exact E. exact Hs.
    - apply Ho. unfold same_name. congruence. }
  destruct op as [n v|n v|n v d|n v d|n]; cbn [hl_run op_name op_refused] in *.
  - pose proof (hl_push_back_spec n v l) as H. destruct (hl_push_back n v l).
    + destruct H as (Hn & H). split; [by rewrite bool_decide_eq_false|]. apply Hcore. by destruct H.
    + destruct H as [-> ->]. done.
  - unfold hl_overwrite. destruct n as [|c n]; [done|]. pose proof (hl_push_back_spec (c :: n) v (hl_remove (c :: n) l)) as H.
    destruct (hl_push_back (c :: n) v (hl_remove (c :: n) l)); [|by destruct H].
    destruct H as (Hn & Hs & Ho). destruct (hl_remove_spec (c :: n) l) as [Hr Hr'].
    split; [done|]. apply Hcore. split.
    + by rewrite Hs, Hr.
    + intros n' Hn'. rewrite Ho by done. by apply Hr'.
  - assert (∀ f vs, op_spec (Prepend n v d) (fld_value f :: vs) = fld_value (prependValue v d f) :: vs) as Hv
      by (intros [? [|??] ?] ?; done).
    pose proof (alter_or_push_spec n v (prependValue v d) l _ (λ _, eq_refl) Hv eq_refl) as H. fold (hl_prepend n v d l) in H.
    destruct (hl_prepend n v d l).
    + destruct H as (Hn & H). split; [|by apply Hcore]. apply andb_false_iff. by rewrite !bool_decide_eq_false.
    + by destruct H as (-> & -> & ->).
  - assert (∀ f vs, op_spec (Append n v d) (fld_value f :: vs) = fld_value (appendValue v d f) :: vs) as Hv
      by (intros [? [|??] ?] ?; done).
    pose proof (alter_or_push_spec n v (appendValue v d) l _ (λ _, eq_refl) Hv eq_refl) as H. fold (hl_append n v d l) in H.
    destruct (hl_append n v d l).
    + destruct H as (Hn & H). split; [|by apply Hcore]. apply andb_false_iff. by rewrite !bool_decide_eq_false.
    + by destruct H as (-> & -> & ->).
  - destruct (hl_remove_spec n l) as [Hr Hr']. split; [done|]. apply Hcore. done.
Qed.

(** The index operator gives the field at that place, and refuses an index
    behind the end; the unreachable third outcome does not occur. *)
Lemma hl_at_spec i l : hl_at i l = match l !! i with Some f => Ok f | None => Raise IndexError end.
Proof.
  unfold hl_at. assert (hl_advance i l = l !! i) as -> by (revert i; induction l; intros [|i]; cbn; auto).
  destruct (length l <=? i)%nat eqn:E; [apply Nat.leb_le in E|apply Nat.leb_gt in E].
  - by rewrite (proj2 (lookup_ge_None l i)).
  - by destruct (lookup_lt_is_Some_2 l i E) as [f ->].
Qed.

(** Names compare without regard to case. *)
Example append_values :
  hl_append (str "via") (str "b") (str ", ") [mkField (str "Via") (str "a") false] =
    Ok [mkField (str "Via") (str "a, b") false].
Proof. reflexivity. Qed.

Example parse_without_colon : field_parse (str "Host") = mkField (str "Host") (str "Host") false.
Proof. reflexivity. Qed.
