(* ===== verification/FastCgi.v ===== *)
(** * FastCGI

    [src/xzero/http/fastcgi]: the records and parameter streams of [bits.h],
    [bits-inl.h] and [bits.cc], the [Generator], the [RequestParser] and the
    [ResponseParser]. A parser works on the bytes of its input buffer: [mem] is
    the buffer, [pos] the place where the chunk starts, and an access behind the
    end of [mem] is [UndefinedBehaviour]. The callbacks and the listeners they
    return appear as events, tagged with the request id of their channel. *)
From stdpp Require Import gmap.
From S2P Require Import Prelude HeaderFieldList Http1Parser Http1Generator.

(** ** Records *)

Inductive RecordType :=
  | BeginRequest | AbortRequest | EndRequest | Params | StdIn | StdOut | StdErr | Data
  | GetValues | GetValuesResult | UnknownType.

#[export] Instance RecordType_eq_dec : EqDecision RecordType.
Proof. solve_decision. Defined.

Definition type_code (t : RecordType) : Z :=
  match t with
  | BeginRequest => 1 | AbortRequest => 2 | EndRequest => 3 | Params => 4 | StdIn => 5 | StdOut => 6
  | StdErr => 7 | Data => 8 | GetValues => 9 | GetValuesResult => 10 | UnknownType => 11
  end.

(** [static_cast<Type>(type_)]; a byte without an enumerator is [None]. *)
Definition type_of (c : Z) : option RecordType :=
  match c with
  | 1 => Some BeginRequest | 2 => Some AbortRequest | 3 => Some EndRequest | 4 => Some Params
  | 5 => Some StdIn | 6 => Some StdOut | 7 => Some StdErr | 8 => Some Data | 9 => Some GetValues
  | 10 => Some GetValuesResult | 11 => Some UnknownType | _ => None
  end.

Definition type_to_string (c : Z) : bytes :=
  match type_of c with
  | Some BeginRequest => str "BeginRequest" | Some AbortRequest => str "AbortRequest"
  | Some EndRequest => str "EndRequest" | Some Params => str "Params" | Some StdIn => str "StdIn"
  | Some StdOut => str "StdOut" | Some StdErr => str "StdErr" | Some Data => str "Data"
  | Some GetValues => str "GetValues" | Some GetValuesResult => str "GetValuesResult"
  | Some UnknownType => str "UnknownType"
  | None => decimal c
  end.

(** The header of a record, with its 16-bit fields in host order. *)
Record FcgiRecord := mkRecord {
  r_version : Z;
  r_type : Z;
  r_requestId : Z;
  r_contentLength : Z;
  r_paddingLength : Z;
  r_reserved : Z;
}.

Definition newRecord (t : RecordType) (requestId contentLength paddingLength : Z) : FcgiRecord :=
  mkRecord 1 (type_code t) (u16 requestId) (u16 contentLength) (u8 paddingLength) 0.

Definition record_size (r : FcgiRecord) : Z := 8 + r_contentLength r + r_paddingLength r.

(** [htons] and [ntohs] over the two bytes of a field. *)
Definition htons (x : Z) : bytes := [Z.land (Z.shiftr x 8) 255; Z.land x 255].
Definition ntohs (hi lo : Z) : Z := Z.lor (Z.shiftl hi 8) lo.

(** The packed struct in memory. *)
Definition record_bytes (r : FcgiRecord) : bytes :=
  [r_version r; r_type r] ++ htons (r_requestId r) ++ htons (r_contentLength r) ++
  [r_paddingLength r; r_reserved r].

(** The record that starts at a byte of the buffer; [None] when the chunk is
    shorter than a header. *)
Definition record_at (m : bytes) : option FcgiRecord :=
  match m with
  | ver :: ty :: i1 :: i0 :: c1 :: c0 :: pad :: rsv :: _ =>
      Some (mkRecord ver ty (ntohs i1 i0) (ntohs c1 c0) pad rsv)
  | _ => None
  end.

Inductive Role := Responder | Authorizer | FilterRole.
Definition role_code (r : Role) : Z := match r with Responder => 1 | Authorizer => 2 | FilterRole => 3 end.

Definition BeginRequestRecord (role : Role) (requestId : Z) (keepAlive : bool) : bytes :=
  record_bytes (newRecord BeginRequest requestId 8 0) ++
  htons (role_code role) ++ [if keepAlive then 1 else 0; 0; 0; 0; 0; 0].

(** [isKeepAlive] reads the third byte of the content. *)
Definition isKeepAlive (m : bytes) : result bool :=
  match m !! 10%nat with Some flags => Ok (Z.odd flags) | None => Raise UndefinedBehaviour end.

Definition AbortRequestRecord (requestId : Z) : bytes := record_bytes (newRecord AbortRequest requestId 0 0).

Definition UnknownTypeRecord (t requestId : Z) : bytes :=
  record_bytes (newRecord UnknownType requestId 8 0) ++ [u8 t; 0; 0; 0; 0; 0; 0; 0].

(** [appStatus_] is stored in host order (little-endian here), and the 8-bit
    [protocolStatus_] gets the low byte of [htonl]: zero for every status. *)
Definition EndRequestRecord (requestId appStatus protocolStatus : Z) : bytes :=
  record_bytes (newRecord EndRequest requestId 8 0) ++
  [Z.land appStatus 255; Z.land (Z.shiftr appStatus 8) 255;
   Z.land (Z.shiftr appStatus 16) 255; Z.land (Z.shiftr appStatus 24) 255] ++
  [u8 (Z.shiftl (u8 protocolStatus) 24); 0; 0; 0].

(** ** Parameter streams *)

Definition encodeLength (len : Z) : bytes :=
  if len <? 127 then [len]
  else [Z.lor (Z.land (Z.shiftr len 24) 255) 128; Z.land (Z.shiftr len 16) 255;
        Z.land (Z.shiftr len 8) 255; Z.land len 255].

Definition size_of (s : bytes) : Z := Z.of_nat (length s).

Definition encodeParam (name value : bytes) : bytes :=
  encodeLength (size_of name) ++ encodeLength (size_of value) ++ name ++ value.

(** The overload with a value in two parts. *)
Definition encodeParam2 (name v1 v2 : bytes) : bytes :=
  encodeLength (size_of name) ++ encodeLength (size_of v1 + size_of v2) ++ name ++ v1 ++ v2.

Definition toupper (c : Z) : Z := if (97 <=? c) && (c <=? 122) then c - 32 else c.

(** [buffer_ << std::toupper(ch)]: [toupper] returns an [int], which the buffer
    writes as a number; a byte from 128 on is a negative [char]. *)
Definition header_char (ch : Z) : bytes :=
  if ch =? 45 then [95]
  else let c := toupper (signed 8 ch) in if c <? 0 then 45 :: decimal (- c) else decimal c.

Definition encodeHeader (name value : bytes) : bytes :=
  encodeLength (5 + size_of name) ++ encodeLength (size_of value) ++
  str "HTTP_" ++ (name ≫= header_char) ++ value.

(** Reading: a cursor is the rest of the buffer from that place on. *)
Definition param_length (m : bytes) : result (Z * bytes) :=
  match m with
  | b :: m =>
      if Z.shiftr (signed 8 b) 7 =? 0 then Ok (Z.land b 255, m)
      else match m with
           | b1 :: b2 :: b3 :: m =>
               Ok (Z.shiftl (Z.land (Z.land b 127) 255) 24 + Z.shiftl (Z.land b1 255) 16 +
                   Z.shiftl (Z.land b2 255) 8 + Z.land b3 255, m)
           | _ => Raise UndefinedBehaviour
           end
  | [] => Raise UndefinedBehaviour
  end.

(** [std::string(p, n)]. *)
Definition read_bytes (n : Z) (m : bytes) : result (bytes * bytes) :=
  if size_of m <? n then Raise UndefinedBehaviour
  else Ok (take (Z.to_nat n) m, drop (Z.to_nat n) m).

(** One round of [processParams]: the pair and the cursor behind it. *)
Definition read_param (m : bytes) : result (bytes * bytes * bytes) :=
  '(nameLength, m) ← param_length m;
  '(valueLength, m) ← param_length m;
  '(name, m) ← read_bytes nameLength m;
  '(value, m) ← read_bytes valueLength m;
  Ok (name, value, m).

(** ** Generator *)

Inductive fcgi_mode := Nothing | GenerateRequest | GenerateResponse.
#[export] Instance fcgi_mode_eq_dec : EqDecision fcgi_mode.
Proof. solve_decision. Defined.

Record FcgiGenerator := mkFcgiGenerator {
  fg_mode : fcgi_mode;
  fg_requestId : Z;
  fg_bytesTransmitted : Z;
  fg_buffer : bytes;
  (** the bytes handed to [writer_] so far *)
  fg_written : bytes;
}.

Definition newFcgiGenerator (requestId : Z) : FcgiGenerator := mkFcgiGenerator Nothing requestId 0 [] [].

Definition fg_set_mode (x : fcgi_mode) (g : FcgiGenerator) : FcgiGenerator :=
  mkFcgiGenerator x (fg_requestId g) (fg_bytesTransmitted g) (fg_buffer g) (fg_written g).

Definition fg_push (bs : bytes) (g : FcgiGenerator) : FcgiGenerator :=
  mkFcgiGenerator (fg_mode g) (fg_requestId g) (fg_bytesTransmitted g) (fg_buffer g ++ bs) (fg_written g).

Definition fcgi_flushBuffer (g : FcgiGenerator) : FcgiGenerator :=
  match fg_buffer g with
  | [] => g
  | buf => mkFcgiGenerator (fg_mode g) (fg_requestId g) (u64 (fg_bytesTransmitted g + size_of buf)) []
             (fg_written g ++ buf)
  end.

Definition chunkSizeCap : nat := Z.to_nat 65535.

(** The records of [write]: chunks of at most [chunkSizeCap] bytes, each padded
    to a multiple of eight. [size_t] does not wrap for a buffer in memory. *)
Definition padding_of (clen : Z) : Z := if clen mod 8 =? 0 then 0 else 8 - clen mod 8.

Fixpoint write_loop (fuel : nat) (t : RecordType) (requestId : Z) (buf : bytes) : bytes :=
  match fuel, buf with
  | S fuel, _ :: _ =>
      let chunk := take chunkSizeCap buf in
      let plen := padding_of (size_of chunk) in
      record_bytes (newRecord t requestId (size_of chunk) plen) ++ chunk ++
      replicate (Z.to_nat plen) 0 ++ write_loop fuel t requestId (drop chunkSizeCap buf)
  | _, _ => []
  end.

Definition fcgi_write (t : RecordType) (buf : bytes) (g : FcgiGenerator) : FcgiGenerator :=
  match buf with
  | [] => fg_push (record_bytes (newRecord t (fg_requestId g) 0 0)) g
  | _ => fg_push (write_loop (length buf) t (fg_requestId g) buf) g
  end.

(** [to_string(HttpVersion)]. *)
Definition version_string (v : HttpVersion) : result bytes :=
  match v with
  | VERSION_0_9 => Ok (str "0.9") | VERSION_1_0 => Ok (str "1.0")
  | VERSION_1_1 => Ok (str "1.1") | VERSION_2_0 => Ok (str "2.0")
  | UNKNOWN => Raise RuntimeError
  end.

Definition fields_of (hs : list (bytes * bytes)) : HeaderFieldList := (λ h, mkField h.1 h.2 false) <$> hs.

(** The parameters of a request, and then its headers. *)
Definition request_params (info : HttpRequestInfo) : result bytes :=
  version ← version_string (hi_version (rq_info info));
  let headers := hi_headers (rq_info info) in
  Ok (encodeParam (str "GATEWAY_INTERFACE") (str "CGI/1.1") ++
      encodeParam (str "SERVER_SOFTWARE") (str "xzero/http") ++
      encodeParam (str "SERVER_PROTOCOL") version ++
      (if hl_contains (str "Host") (fields_of headers)
       then encodeParam (str "SERVER_NAME") (hl_get (str "Host") (fields_of headers)) else []) ++
      encodeParam (str "REQUEST_METHOD") (rq_method info) ++
      encodeParam (str "REQUEST_URI") (rq_uri info) ++
      (headers ≫= λ h, encodeHeader h.1 h.2)).

Definition fcgi_generateRequest (info : HttpRequestInfo) (g : FcgiGenerator) : result FcgiGenerator :=
  let g := fg_set_mode GenerateRequest g in
  params ← request_params info;
  Ok (fcgi_write Params [] (fcgi_write Params params g)).

Definition body_type (g : FcgiGenerator) : RecordType :=
  if bool_decide (fg_mode g = GenerateRequest) then StdIn else StdOut.

Definition fcgi_generateBody (chunk : bytes) (g : FcgiGenerator) : FcgiGenerator :=
  match chunk with [] => g | _ => fcgi_write (body_type g) chunk g end.

(** A file: each part's header goes through the buffer, which is flushed before
    the part itself is handed to the writer; there is no padding. *)
Definition write_file_part (part : bytes) (g : FcgiGenerator) : FcgiGenerator :=
  mkFcgiGenerator (fg_mode g) (fg_requestId g) (u64 (fg_bytesTransmitted g + size_of part)) (fg_buffer g)
    (fg_written g ++ part).

Fixpoint body_file_loop (fuel : nat) (chunk : bytes) (g : FcgiGenerator) : FcgiGenerator :=
  match fuel with
  | O => g
  | S fuel =>
      let part := take chunkSizeCap chunk in
      let header := record_bytes (newRecord (body_type g) (fg_requestId g) (size_of part) 0) in
      let g := write_file_part part (fcgi_flushBuffer (fg_push header g)) in
      match drop chunkSizeCap chunk with [] => g | rest => body_file_loop fuel rest g end
  end.

Definition fcgi_generateBodyFile (chunk : bytes) (g : FcgiGenerator) : FcgiGenerator :=
  match chunk with [] => g | _ => body_file_loop (length chunk) chunk g end.

Definition fcgi_generateRequestBody (info : HttpRequestInfo) (chunk : bytes) (g : FcgiGenerator) : result FcgiGenerator :=
  g ← fcgi_generateRequest info g; Ok (fcgi_generateBody chunk g).

Definition response_head (info : HttpResponseInfo) : bytes :=
  str "Status: " ++ decimal (rs_status info) ++ CRLF ++
  (hi_headers (rs_info info) ≫= header_line) ++ CRLF.

Definition fcgi_generateResponse (info : HttpResponseInfo) (g : FcgiGenerator) : FcgiGenerator :=
  fcgi_write StdOut (response_head info) (fg_set_mode GenerateResponse g).

Definition fcgi_generateResponseBody (info : HttpResponseInfo) (chunk : bytes) (g : FcgiGenerator) : FcgiGenerator :=
  fcgi_generateBody chunk (fcgi_generateResponse info g).

Definition fcgi_generateResponseFile (info : HttpResponseInfo) (chunk : bytes) (g : FcgiGenerator) : FcgiGenerator :=
  fcgi_generateBodyFile chunk (fcgi_generateResponse info g).

Definition fcgi_generateEnd (g : FcgiGenerator) : FcgiGenerator :=
  fcgi_flushBuffer
    match fg_mode g with
    | GenerateRequest => fg_push (record_bytes (newRecord StdIn (fg_requestId g) 0 0)) g
    | GenerateResponse =>
        fg_push (record_bytes (newRecord StdOut (fg_requestId g) 0 0) ++ EndRequestRecord (u16 (fg_requestId g)) 0 0) g
    | Nothing => g
    end.

(** ** What the parsers do *)

Inductive fcgi_event :=
  | CreateChannel (requestId : Z) (keepAlive : bool)
  | CreateResponseChannel (requestId : Z)
  | UnknownPacket (requestId recordId : Z)
  | AbortedRequest (requestId : Z)
  | StdErrData (requestId : Z) (content : bytes)
  | Listener (requestId : Z) (ev : http_event).

(** A call: the new state, the events in order, and the exception, if any, that
    ends it. *)
Abbreviation call S := (S * list fcgi_event * option exn)%type.

Definition andThen {S T} (c : call S) (k : S → call T) (stop : S → T) : call T :=
  match c with
  | (s, evs, None) => let '(t, evs', x) := k s in (t, evs ++ evs', x)
  | (s, evs, Some e) => (stop s, evs, Some e)
  end.

Section Fragments.
Context {S : Type} (process : bytes → nat → FcgiRecord → S → call S).

(** [parseFragment] from position [pos] of the buffer on: the records that are
    there in full; it returns the position behind the last of them. A record
    has at least eight bytes, which bounds the number of rounds. *)
Fixpoint fragment_loop (fuel : nat) (mem : bytes) (pos : nat) (s : S) : call (S * nat) :=
  match fuel with
  | O => ((s, pos), [], Some Blocked)
  | Datatypes.S fuel =>
      match record_at (drop pos mem) with
      | None => ((s, pos), [], None)
      | Some r =>
          if size_of (drop pos mem) <? record_size r then ((s, pos), [], None)
          else
            let pos' := (pos + Z.to_nat (record_size r))%nat in
            andThen (process mem pos r s) (fragment_loop fuel mem pos') (λ s, (s, pos'))
      end
  end.

Definition parse_records (mem : bytes) (pos : nat) (s : S) : call (S * nat) :=
  fragment_loop (Datatypes.S (length mem - pos)) mem pos s.
End Fragments.

(** ** Requests *)

Record StreamState := mkStream {
  st_listener : option Z;
  st_totalBytesReceived : Z;
  st_paramsFullyReceived : bool;
  st_contentFullyReceived : bool;
  st_params : HeaderFieldList;
  st_headers : HeaderFieldList;
  st_body : bytes;
}.

Definition newStream : StreamState := mkStream None 0 false false [] [] [].

Definition st_receive (n : Z) (s : StreamState) : StreamState :=
  mkStream (st_listener s) (u64 (st_totalBytesReceived s + n)) (st_paramsFullyReceived s)
    (st_contentFullyReceived s) (st_params s) (st_headers s) (st_body s).
Definition st_set_listener (l : option Z) (s : StreamState) : StreamState :=
  mkStream l (st_totalBytesReceived s) (st_paramsFullyReceived s)
    (st_contentFullyReceived s) (st_params s) (st_headers s) (st_body s).
Definition st_set_paramsFullyReceived (b : bool) (s : StreamState) : StreamState :=
  mkStream (st_listener s) (st_totalBytesReceived s) b
    (st_contentFullyReceived s) (st_params s) (st_headers s) (st_body s).
Definition st_set_contentFullyReceived (b : bool) (s : StreamState) : StreamState :=
  mkStream (st_listener s) (st_totalBytesReceived s) (st_paramsFullyReceived s)
    b (st_params s) (st_headers s) (st_body s).
Definition st_set_params (l : HeaderFieldList) (s : StreamState) : StreamState :=
  mkStream (st_listener s) (st_totalBytesReceived s) (st_paramsFullyReceived s)
    (st_contentFullyReceived s) l (st_headers s) (st_body s).
Definition st_set_headers (l : HeaderFieldList) (s : StreamState) : StreamState :=
  mkStream (st_listener s) (st_totalBytesReceived s) (st_paramsFullyReceived s)
    (st_contentFullyReceived s) (st_params s) l (st_body s).

(** A call of the stream's listener: the events, or the access through a null
    pointer. *)
Definition notify (s : StreamState) (evs : list http_event) : list fcgi_event * option exn :=
  match st_listener s with
  | Some rid => (Listener rid <$> evs, None)
  | None => ([], match evs with [] => None | _ => Some UndefinedBehaviour end)
  end.

(** [StreamState::onParam]: [HTTP_] names become headers, with each underscore a
    dash. *)
Definition onParam (name value : bytes) (s : StreamState) : result StreamState :=
  if bool_decide (take 5 name = str "HTTP_") then
    headers ← hl_push_back ((λ c, if c =? 95 then 45 else c) <$> drop 5 name) value (st_headers s);
    Ok (st_set_headers headers s)
  else
    params ← hl_push_back name value (st_params s);
    Ok (st_set_params params s).

(** [processParams]: [left] is [length - pos]. The state is kept when a
    parameter is refused. *)
Fixpoint params_loop (fuel : nat) (left : Z) (m : bytes) (s : StreamState) : StreamState * option exn :=
  if left <=? 0 then (s, None)
  else
    match fuel with
    | O => (s, Some Blocked)
    | S fuel =>
        match read_param m with
        | Raise e => (s, Some e)
        | Ok (name, value, m') =>
            match onParam name value s with
            | Raise e => (s, Some e)
            | Ok s => params_loop fuel (left - (size_of m - size_of m')) m' s
            end
        end
    end.

Definition processParams (len : Z) (m : bytes) (s : StreamState) : StreamState * option exn :=
  params_loop (length m) len m s.

Abbreviation RequestParser := (gmap Z StreamState).

Definition registerStreamState (rid : Z) (ps : RequestParser) : result RequestParser :=
  match ps !! rid with Some _ => Raise RuntimeError | None => Ok (<[rid := newStream]> ps) end.

Definition removeStreamState (rid : Z) (ps : RequestParser) : RequestParser := delete rid ps.

Definition beginRequest (m : bytes) (r : FcgiRecord) (ps : RequestParser) : call RequestParser :=
  let rid := r_requestId r in
  match registerStreamState rid ps with
  | Raise e => (ps, [], Some e)
  | Ok ps =>
      let stream := st_receive (record_size r) newStream in
      match isKeepAlive m with
      | Raise e => (<[rid := stream]> ps, [], Some e)
      | Ok keepAlive => (<[rid := st_set_listener (Some rid) stream]> ps, [CreateChannel rid keepAlive], None)
      end
  end.

Definition protocol_version (serverProtocol : bytes) : HttpVersion :=
  if bool_decide (serverProtocol = str "HTTP/1.1") then VERSION_1_1
  else if bool_decide (serverProtocol = str "HTTP/1.0") then VERSION_1_0
  else if bool_decide (serverProtocol = str "HTTP/0.9") then VERSION_0_9
  else UNKNOWN.

(** What the listener hears when the parameters are complete. *)
Definition request_events (s : StreamState) : list http_event :=
  [RequestBegin (hl_get (str "REQUEST_METHOD") (st_params s)) (hl_get (str "REQUEST_URI") (st_params s))
     (protocol_version (hl_get (str "SERVER_PROTOCOL") (st_params s)))] ++
  ((λ f, MessageHeader (fld_name f) (fld_value f)) <$> st_headers s) ++
  [MessageHeaderEnd] ++
  (match st_body s with [] => [] | body => [MessageContent body] end) ++
  (if st_paramsFullyReceived s && st_contentFullyReceived s then [MessageEnd] else []).

Definition with_stream (rid : Z) (ps : RequestParser) (k : StreamState → StreamState * list fcgi_event * option exn)
    : call RequestParser :=
  match ps !! rid with
  | None => (ps, [], None)
  | Some s => let '(s, evs, x) := k s in (<[rid := s]> ps, evs, x)
  end.

Definition streamParams (m : bytes) (r : FcgiRecord) (ps : RequestParser) : call RequestParser :=
  with_stream (r_requestId r) ps (λ s,
    let s := st_receive (record_size r) s in
    if negb (r_contentLength r =? 0) then
      let '(s, x) := processParams (r_contentLength r) (drop 8 m) s in (s, [], x)
    else
      let s := st_set_paramsFullyReceived true s in
      (s, (notify s (request_events s)).1, (notify s (request_events s)).2)).

(** The content of a record that is in the buffer in full. *)
Definition record_content (m : bytes) (r : FcgiRecord) : bytes := take (Z.to_nat (r_contentLength r)) (drop 8 m).

Definition stdin_events (content : bytes) (s : StreamState) : list http_event :=
  MessageContent content :: (if st_paramsFullyReceived s && st_contentFullyReceived s then [MessageEnd] else []).

Definition streamStdIn (m : bytes) (r : FcgiRecord) (ps : RequestParser) : call RequestParser :=
  with_stream (r_requestId r) ps (λ s,
    let s := st_receive (record_size r) s in
    let s' := if r_contentLength r =? 0 then st_set_contentFullyReceived true s else s in
    let '(evs, x) := notify s' (stdin_events (record_content m r) s') in
    (match x with None => s' | Some _ => s end, evs, x)).

Definition streamData (r : FcgiRecord) (ps : RequestParser) : call RequestParser :=
  with_stream (r_requestId r) ps (λ s, (st_receive (record_size r) s, [], None)).

Definition abortRequest (r : FcgiRecord) (ps : RequestParser) : call RequestParser :=
  match ps !! r_requestId r with
  | None => (ps, [], None)
  | Some _ => (removeStreamState (r_requestId r) ps, [AbortedRequest (r_requestId r)], None)
  end.

Definition request_process (mem : bytes) (pos : nat) (r : FcgiRecord) (ps : RequestParser) : call RequestParser :=
  let m := drop pos mem in
  match type_of (r_type r) with
  | Some BeginRequest => beginRequest m r ps
  | Some AbortRequest => abortRequest r ps
  | Some Params => streamParams m r ps
  | Some StdIn => streamStdIn m r ps
  | Some Data => streamData r ps
  | _ => (ps, [UnknownPacket (r_requestId r) (r_type r)], None)
  end.

Definition request_parseFragment : bytes → nat → RequestParser → call (RequestParser * nat) :=
  parse_records request_process.

(** [RequestParser::reset]. *)
Definition request_parser_reset : RequestParser := ∅.

(** ** Responses *)

Record ResponseStream := mkResponseStream {
  rst_listener : option Z;
  rst_totalBytesReceived : Z;
  rst_contentFullyReceived : bool;
  rst_http1Parser : Http1Parser;
}.

Definition newResponseStream : ResponseStream := mkResponseStream None 0 false (newHttp1Parser MESSAGE).

Abbreviation ResponseParser := (gmap Z ResponseStream).

(** [getStream] creates a missing stream and its channel. *)
Definition response_getStream (rid : Z) (ps : ResponseParser) : ResponseStream * list fcgi_event :=
  match ps !! rid with
  | Some s => (s, [])
  | None => (mkResponseStream (Some rid) 0 false (newHttp1Parser MESSAGE), [CreateResponseChannel rid])
  end.

Definition rst_receive (n : Z) (s : ResponseStream) : ResponseStream :=
  mkResponseStream (rst_listener s) (u64 (rst_totalBytesReceived s + n)) (rst_contentFullyReceived s) (rst_http1Parser s).

Definition response_notify (s : ResponseStream) (evs : list http_event) : list fcgi_event :=
  match rst_listener s with Some rid => Listener rid <$> evs | None => [] end.

(** The content is parsed in place: [take ... mem] is the buffer up to the end
    of the content, so that references from earlier calls stay valid. *)
Definition streamStdOut (mem : bytes) (pos : nat) (r : FcgiRecord) (ps : ResponseParser) : call ResponseParser :=
  let rid := r_requestId r in
  let '(s, created) := response_getStream rid ps in
  let s := rst_receive (record_size r) s in
  let ended := rst_contentFullyReceived s || (r_contentLength r =? 0) in
  let start := (pos + 8)%nat in
  let '(p, _, evs, x) :=
    parseFragment (take (start + Z.to_nat (r_contentLength r)) mem) start (rst_http1Parser s) in
  let s' := mkResponseStream (rst_listener s) (rst_totalBytesReceived s) ended p in
  (<[rid := s']> ps,
   created ++ response_notify s' (evs ++ match x with None => if ended then [MessageEnd] else [] | Some _ => [] end), x).

(** With the callback [onStdErr_] set. *)
Definition streamStdErr (mem : bytes) (pos : nat) (r : FcgiRecord) (ps : ResponseParser) : call ResponseParser :=
  let rid := r_requestId r in
  let '(s, created) := response_getStream rid ps in
  (<[rid := rst_receive (record_size r) s]> ps,
   created ++ [StdErrData rid (record_content (drop pos mem) r)], None).

Definition response_process (mem : bytes) (pos : nat) (r : FcgiRecord) (ps : ResponseParser) : call ResponseParser :=
  match type_of (r_type r) with
  | Some StdOut => streamStdOut mem pos r ps
  | Some StdErr => streamStdErr mem pos r ps
  | _ => (ps, [UnknownPacket (r_requestId r) (r_type r)], None)
  end.

Definition response_parseFragment : bytes → nat → ResponseParser → call (ResponseParser * nat) :=
  parse_records response_process.
