(* ===== verification/FastCgiStream.v ===== *)
(** * FastCGI streams: what the parser makes of what the generator writes

    The parameter encoding is read back ([params_roundtrip]); a generated
    request reaches the listener of its channel with its body in order
    ([fcgi_request_roundtrip]); requests that share a connection do not affect
    one another ([requests_independent]); and it does not matter how the bytes
    arrive ([request_fragments]). *)
From stdpp Require Import gmap.
From S2P Require Import Prelude HeaderFieldList Http1Parser Http1Generator FastCgi.

(** ** Parameters *)

Definition short (s : bytes) : Prop := size_of s < 2 ^ 31.

Definition encodeParams (ps : list (bytes * bytes)) : bytes := ps ≫= λ p, encodeParam p.1 p.2.

(** The pairs handed to [onParam] one after the other. *)
Fixpoint deliver (ps : list (bytes * bytes)) (s : StreamState) : StreamState * option exn :=
  match ps with
  | [] => (s, None)
  | (n, v) :: ps => match onParam n v s with Raise e => (s, Some e) | Ok s => deliver ps s end
  end.

Lemma size_of_app a b : size_of (a ++ b) = size_of a + size_of b.
Proof. unfold size_of. rewrite length_app. lia. Qed.

Lemma size_of_nonneg a : 0 ≤ size_of a.
Proof. unfold size_of. lia. Qed.

Lemma land_255 b : Z.land b 255 = b mod 256.
Proof. exact (land_low 8 b ltac:(lia)). Qed.

Lemma byte_land b : fits 8 b → Z.land b 255 = b.
Proof. intros H. rewrite land_255. by apply Z.mod_small. Qed.

Lemma param_length_short b m : 0 ≤ b < 128 → param_length (b :: m) = Ok (b, m).
Proof.
  intros H. unfold param_length. rewrite signed_id by lia.
  rewrite Z.shiftr_div_pow2, Z.div_small by lia. rewrite byte_land by (red; lia). done.
Qed.

Lemma param_length_long b1 b2 b3 b4 m : 128 ≤ b1 < 256 →
  param_length (b1 :: b2 :: b3 :: b4 :: m) =
    Ok ((b1 - 128) * 2 ^ 24 + b2 mod 256 * 2 ^ 16 + b3 mod 256 * 2 ^ 8 + b4 mod 256, m).
Proof.
  intros H. unfold param_length.
  assert (signed 8 b1 = b1 - 256) as ->.
  { unfold signed. change (2 ^ 8) with 256. change (2 ^ (8 - 1)) with 128.
    replace (b1 + 128) with (b1 - 128 + 1 * 256) by lia. rewrite Z_mod_plus_full, Z.mod_small by lia. lia. }
  assert (Z.shiftr (b1 - 256) 7 = -1) as ->.
  { rewrite Z.shiftr_div_pow2 by lia. change (2 ^ 7) with 128. symmetry. apply Z.div_unique with (b1 - 128); lia. }
  cbn [Z.eqb]. rewrite land_7f, !land_255, !Z.shiftl_mul_pow2 by lia.
  replace (b1 mod 128) with (b1 - 128); [by rewrite (Z.mod_small (b1 - 128) 256) by lia|].
  apply Z.mod_unique with 1; lia.
Qed.

Lemma lor_128 b : 0 ≤ b < 128 → Z.lor b 128 = b + 128.
Proof.
  intros H. apply (lor_shiftl_add 7 b 1); [lia|exact H].
Qed.

Lemma split_bytes x : 0 ≤ x < 2 ^ 31 →
  0 ≤ x / 2 ^ 24 < 128 ∧
  x / 2 ^ 24 * 2 ^ 24 + x / 2 ^ 16 mod 256 * 2 ^ 16 + x / 2 ^ 8 mod 256 * 2 ^ 8 + x mod 256 = x.
Proof.
  intros H. pose proof (Z.div_mod x 256). pose proof (Z.div_mod (x / 256) 256).
  pose proof (Z.div_mod (x / 256 / 256) 256).
  replace (x / 2 ^ 8) with (x / 256) by done.
  replace (x / 2 ^ 16) with (x / 256 / 256) by (rewrite Z.div_div by lia; done).
  replace (x / 2 ^ 24) with (x / 256 / 256 / 256) by (rewrite !Z.div_div by lia; done).
  assert (0 ≤ x / 256 / 256 / 256 < 128).
  { rewrite !Z.div_div by lia. split; [apply Z.div_pos; lia|apply Z.div_lt_upper_bound; lia]. }
  split; [done|]. change (2 ^ 24) with (256 * 256 * 256). change (2 ^ 16) with (256 * 256). change (2 ^ 8) with 256. lia.
Qed.

Lemma param_length_encode x m : 0 ≤ x < 2 ^ 31 → param_length (encodeLength x ++ m) = Ok (x, m).
Proof.
  intros H. unfold encodeLength. destruct (Z.ltb_spec x 127); [apply param_length_short; lia|].
  destruct (split_bytes x H) as [Ht Hx]. cbn [app].
  rewrite !Z.shiftr_div_pow2, !land_255 by lia.
  rewrite (Z.mod_small (x / 2 ^ 24)), lor_128 by lia.
  rewrite param_length_long, !Z.mod_mod by lia. f_equal. f_equal. rewrite <-Hx at 5. f_equal. lia.
Qed.

Lemma read_bytes_app s m : read_bytes (size_of s) (s ++ m) = Ok (s, m).
Proof.
  unfold read_bytes. rewrite (proj2 (Z.ltb_ge _ _)) by (rewrite size_of_app; pose proof (size_of_nonneg m); lia).
  unfold size_of. by rewrite Nat2Z.id, take_app_length, drop_app_length.
Qed.

Lemma read_param_encode n v m : short n → short v → read_param (encodeParam n v ++ m) = Ok (n, v, m).
Proof.
  intros Hn Hv. unfold short in *. pose proof (size_of_nonneg n). pose proof (size_of_nonneg v).
  unfold read_param, encodeParam. rewrite <-!app_assoc. rewrite param_length_encode by done.
  cbn [mbind result_bind]. rewrite param_length_encode by done.
  cbn [mbind result_bind]. rewrite read_bytes_app. cbn [mbind result_bind]. by rewrite read_bytes_app.
Qed.

Lemma encodeLength_nonempty x : (1 ≤ length (encodeLength x))%nat.
Proof. unfold encodeLength. case_match; cbn; lia. Qed.

Lemma encodeParam_nonempty n v : (1 ≤ length (encodeParam n v))%nat.
Proof. unfold encodeParam. rewrite length_app. pose proof (encodeLength_nonempty (size_of n)). lia. Qed.

Lemma params_loop_encode ps fuel m s :
  Forall (λ p, short p.1 ∧ short p.2) ps → (length (encodeParams ps) ≤ fuel)%nat →
  params_loop fuel (size_of (encodeParams ps)) (encodeParams ps ++ m) s = deliver ps s.
Proof.
  intros Hps. revert fuel s. induction Hps as [|[n v] ps [Hn Hv] Hps IH]; intros fuel s Hf.
  - by destruct fuel.
  - change (encodeParams ((n, v) :: ps)) with (encodeParam n v ++ encodeParams ps) in *.
    pose proof (encodeParam_nonempty n v) as He. rewrite length_app in Hf.
    destruct fuel as [|fuel]; [lia|]. cbn [params_loop deliver].
    rewrite (proj2 (Z.leb_gt _ _)).
    2:{ rewrite size_of_app. pose proof (size_of_nonneg (encodeParams ps)). unfold size_of in *. lia. }
    rewrite <-app_assoc, read_param_encode by done. destruct (onParam n v s) as [s'|]; [|done].
    replace (_ - _) with (size_of (encodeParams ps)) by (rewrite !size_of_app; lia).
    apply IH. lia.
Qed.

Lemma params_roundtrip_shared ps rest s : Forall (λ p, short p.1 ∧ short p.2) ps →
  processParams (size_of (encodeParams ps)) (encodeParams ps ++ rest) s = deliver ps s.
Proof. intros Hps. apply params_loop_encode; [done|]. rewrite length_app. lia. Qed.

(** The parameters that [CgiParamStreamWriter::encode] writes,
    with names and values shorter than 2^31 bytes, are handed to [onParam] by
    [processParams] as they were and in order, whatever follows them in the
    buffer; the processing ends, at the first parameter that is refused or
    after the last. *)
Theorem params_roundtrip (ps : list (bytes * bytes)) (rest : bytes) (s : StreamState) :
  Forall (λ p, short p.1 ∧ short p.2) ps →
  processParams (size_of (encodeParams ps)) (encodeParams ps ++ rest) s = deliver ps s.
Proof. apply params_roundtrip_shared. Qed.

Lemma params_roundtrip_witness :
  processParams (size_of (encodeParams [(str "HTTP_A_B", str "x"); (str "Q", [])]))
    (encodeParams [(str "HTTP_A_B", str "x"); (str "Q", [])] ++ [1; 2; 3]) newStream =
  (mkStream None 0 false false [mkField (str "Q") [] false] [mkField (str "A-B") (str "x") false] [], None).
Proof.
  rewrite (params_roundtrip _ [1; 2; 3] newStream); [reflexivity|].
  repeat constructor; reflexivity.
Defined.

(** [encodeHeader] writes the code of each character in decimal, more bytes than
    the length in front of them says: reading the parameter back gives another
    name and another value, and leaves the reader inside the old one. *)
Example header_name_corrupted :
  read_param (encodeHeader (str "Foo") (str "bar")) = Ok (str "HTTP_707", str "979", str "bar").
Proof. reflexivity. Qed.

(** ** Records in the buffer *)

Lemma ntohs_htons x : fits 16 x →
  ntohs (Z.land (Z.shiftr x 8) 255) (Z.land x 255) = x.
Proof.
  intros H. unfold ntohs. rewrite Z.lor_comm, !land_255, (Z.shiftr_div_pow2 x 8) by lia.
  rewrite (lor_shiftl_add 8); [|lia|exact (unsigned_fits 8 x ltac:(lia))].
  change (2 ^ 8) with 256. red in H. rewrite (Z.mod_small (x / 256)).
  - pose proof (Z.div_mod x 256). lia.
  - split; [apply Z.div_pos; lia|apply Z.div_lt_upper_bound; lia].
Qed.

Lemma record_at_bytes r m :
  fits 16 (r_requestId r) → fits 16 (r_contentLength r) → record_at (record_bytes r ++ m) = Some r.
Proof. intros Hi Hc. destruct r. unfold record_bytes, htons. cbn in *. by rewrite !ntohs_htons. Qed.

Lemma record_bytes_length r : length (record_bytes r) = 8%nat.
Proof. reflexivity. Qed.

Lemma record_at_lengths m r : record_at m = Some r → all_bytes m → 0 ≤ r_contentLength r ∧ 0 ≤ r_paddingLength r.
Proof.
  destruct m as [|b0 [|b1 [|b2 [|b3 [|c1 [|c0 [|pad [|b7 m]]]]]]]]; intros [= <-] Hm. cbn [r_contentLength r_paddingLength].
  unfold all_bytes in Hm. rewrite !Forall_cons_iff in Hm. unfold is_byte, fits in Hm. unfold ntohs.
  rewrite Z.lor_nonneg, Z.shiftl_nonneg. lia.
Qed.

Lemma record_at_size m r : record_at m = Some r → all_bytes m → 8 ≤ record_size r.
Proof. intros Hr Hm. destruct (record_at_lengths m r Hr Hm). unfold record_size. lia. Qed.

Lemma record_at_length m r : record_at m = Some r → (8 ≤ length m)%nat.
Proof. destruct m as [|b0 [|b1 [|b2 [|b3 [|c1 [|c0 [|pad [|b7 m]]]]]]]]; try done. intros _. cbn. lia. Qed.

Section Parsing.
Context {S : Type} (process : bytes → nat → FcgiRecord → S → call S).

(** The rounds the loop can need. *)
Lemma fragment_loop_fuel mem f f' pos s : all_bytes mem →
  (length mem - pos < f)%nat → (length mem - pos < f')%nat →
  fragment_loop process f mem pos s = fragment_loop process f' mem pos s.
Proof.
  intros Hm. revert f' pos s. induction f as [|f IH]; intros [|f'] pos s Hf Hf'; try lia.
  cbn [fragment_loop]. destruct (record_at (drop pos mem)) as [r|] eqn:Hr; [|done].
  destruct (Z.ltb_spec (size_of (drop pos mem)) (record_size r)); [done|].
  assert (8 ≤ record_size r) by (eapply record_at_size; [done|by apply Forall_drop]).
  unfold size_of in *. rewrite length_drop in *.
  destruct (process mem pos r s) as [[s' evs] [e|]]; cbn [andThen]; [done|].
  rewrite (IH f') by lia. done.
Qed.

(** A fragment with a complete record at its start. *)
Lemma parse_records_step mem pos s r content pad rest :
  all_bytes mem → drop pos mem = record_bytes r ++ content ++ pad ++ rest →
  fits 16 (r_requestId r) → fits 16 (r_contentLength r) →
  size_of content = r_contentLength r → size_of pad = r_paddingLength r →
  parse_records process mem pos s =
    andThen (process mem pos r s)
      (parse_records process mem (pos + (8 + length content + length pad)))
      (λ s, (s, pos + (8 + length content + length pad))%nat).
Proof.
  intros Hm Hd Hi Hc Hcl Hpl. unfold parse_records at 1. cbn [fragment_loop].
  rewrite Hd, record_at_bytes by done.
  assert (record_size r = Z.of_nat (8 + length content + length pad)) as Hs.
  { unfold record_size. rewrite <-Hcl, <-Hpl. unfold size_of. lia. }
  assert (length (drop pos mem) = 8 + length content + length pad + length rest)%nat as Hl.
  { rewrite Hd, !length_app, record_bytes_length. lia. }
  rewrite (proj2 (Z.ltb_ge _ _)).
  2:{ rewrite <-Hd. unfold size_of. rewrite Hl, Hs. lia. }
  rewrite Hs, Nat2Z.id. rewrite length_drop in Hl.
  destruct (process mem pos r s) as [[s' evs] [e|]]; cbn [andThen]; [done|].
  unfold parse_records.
  rewrite (fragment_loop_fuel mem (length mem - pos)
    (Datatypes.S (length mem - (pos + (8 + length content + length pad))))) by (try done; lia). done.
Qed.

(** A fragment that is used up. *)
Lemma parse_records_end mem pos s : drop pos mem = [] → parse_records process mem pos s = ((s, pos), [], None).
Proof. intros Hd. unfold parse_records. cbn [fragment_loop]. by rewrite Hd. Qed.
End Parsing.

Lemma drop_past {A} (pos : nat) (mem a b c d : list A) :
  drop pos mem = a ++ b ++ c ++ d → drop (pos + (length a + length b + length c)) mem = d.
Proof.
  intros H. rewrite <-drop_drop, H, !app_assoc. apply drop_app_length'. rewrite !length_app. lia.
Qed.

(** ** One record of [write] *)

Definition record_for (t : RecordType) (rid : Z) (chunk : bytes) : FcgiRecord :=
  newRecord t rid (size_of chunk) (padding_of (size_of chunk)).

Definition one_record (t : RecordType) (rid : Z) (chunk : bytes) : bytes :=
  record_bytes (record_for t rid chunk) ++ chunk ++ replicate (Z.to_nat (padding_of (size_of chunk))) 0.

Definition fits_record (chunk : bytes) : Prop := size_of chunk < 2 ^ 16.

Lemma padding_range n : 0 ≤ padding_of n < 8.
Proof. unfold padding_of. pose proof (Z.mod_pos_bound n 8). destruct (Z.eqb_spec (n mod 8) 0); lia. Qed.

Lemma record_for_fields t rid chunk : fits 16 rid → fits_record chunk →
  record_for t rid chunk = mkRecord 1 (type_code t) rid (size_of chunk) (padding_of (size_of chunk)) 0.
Proof.
  intros Hr Hc. unfold record_for, newRecord. pose proof (padding_range (size_of chunk)). pose proof (size_of_nonneg chunk).
  rewrite !unsigned_id by (unfold fits, fits_record in *; lia). done.
Qed.

Lemma type_of_code t : type_of (type_code t) = Some t.
Proof. by destruct t. Qed.

Lemma one_record_length t rid chunk :
  length (one_record t rid chunk) =
    (8 + length chunk + length (replicate (Z.to_nat (padding_of (size_of chunk))) 0%Z))%nat.
Proof. unfold one_record. rewrite !length_app, record_bytes_length. by rewrite Nat.add_assoc. Qed.

Lemma record_for_size t rid chunk : fits 16 rid → fits_record chunk →
  record_size (record_for t rid chunk) = size_of (one_record t rid chunk).
Proof.
  intros Hr Hc. change (size_of (one_record t rid chunk)) with (Z.of_nat (length (one_record t rid chunk))).
  rewrite one_record_length, length_replicate, record_for_fields by done.
  pose proof (padding_range (size_of chunk)). unfold record_size, size_of in *. cbn [r_contentLength r_paddingLength]. lia.
Qed.

(** A call after some events. *)
Definition preceded {T} (evs : list fcgi_event) (c : call T) : call T :=
  let '(t, evs', x) := c in (t, evs ++ evs', x).

Lemma preceded_twice {T} evs evs' (c : call T) : preceded evs (preceded evs' c) = preceded (evs ++ evs') c.
Proof. destruct c as [[??]?]. cbn. by rewrite app_assoc. Qed.

Lemma preceded_nil {T} (c : call T) : preceded [] c = c.
Proof. by destruct c as [[??]?]. Qed.

Lemma andThen_preceded {S T} s evs (k : S → call T) stop : andThen (s, evs, None) k stop = preceded evs (k s).
Proof. reflexivity. Qed.

Lemma parse_one_record {S} (process : bytes → nat → FcgiRecord → S → call S) mem pos s t rid chunk rest :
  all_bytes mem → fits 16 rid → fits_record chunk → drop pos mem = one_record t rid chunk ++ rest →
  parse_records process mem pos s =
    andThen (process mem pos (record_for t rid chunk) s)
      (parse_records process mem (pos + length (one_record t rid chunk)))
      (λ s, (s, pos + length (one_record t rid chunk))%nat) ∧
  drop (pos + length (one_record t rid chunk)) mem = rest ∧
  record_content (drop pos mem) (record_for t rid chunk) = chunk.
Proof.
  intros Hm Hr Hc Hd. pose proof (record_for_fields t rid chunk Hr Hc) as Hf.
  pose proof (padding_range (size_of chunk)). rewrite one_record_length.
  unfold one_record in Hd. rewrite <-!app_assoc in Hd. split; [|split].
  - apply parse_records_step with rest; rewrite ?Hf; cbn [r_requestId r_contentLength r_paddingLength]; try done.
    + rewrite <-Hf. done.
    + pose proof (size_of_nonneg chunk). done.
    + unfold size_of at 1. rewrite length_replicate. lia.
  - exact (drop_past _ _ _ _ _ _ Hd).
  - unfold record_content. rewrite Hd, Hf. cbn [r_contentLength]. rewrite <-Hf.
    change 8%nat with (length (record_bytes (record_for t rid chunk))). rewrite drop_app_length.
    unfold size_of. by rewrite Nat2Z.id, take_app_length.
Qed.

Lemma write_loop_step fuel t rid buf : buf ≠ [] →
  write_loop (S fuel) t rid buf =
    one_record t rid (take chunkSizeCap buf) ++ write_loop fuel t rid (drop chunkSizeCap buf).
Proof.
  intros H. destruct buf as [|b buf]; [done|]. unfold one_record, record_for. cbn [write_loop].
  by rewrite <-!app_assoc.
Qed.

Lemma nil_fits : fits_record [].
Proof. reflexivity. Qed.

Lemma cap_fits buf : fits_record (take chunkSizeCap buf).
Proof. unfold fits_record, size_of, chunkSizeCap. rewrite length_take. lia. Qed.

Lemma cap_positive : (0 < chunkSizeCap)%nat.
Proof. unfold chunkSizeCap. lia. Qed.

Lemma write_loop_short t rid buf : buf ≠ [] → fits_record buf → write_loop (length buf) t rid buf = one_record t rid buf.
Proof.
  intros Hb Hf. destruct (length buf) as [|n] eqn:E; [by destruct buf|].
  assert (length buf ≤ chunkSizeCap)%nat by (unfold fits_record, size_of, chunkSizeCap in *; lia).
  rewrite write_loop_step, take_ge, drop_ge by done. destruct n; cbn; by rewrite app_nil_r.
Qed.

(** ** The body *)

Lemma st_receive_add a b s : st_receive b (st_receive a s) = st_receive (a + b) s.
Proof.
  unfold st_receive. cbn. f_equal. unfold unsigned. rewrite Zplus_mod_idemp_l. f_equal. lia.
Qed.

Lemma stdin_process mem pos rid chunk ps s :
  fits 16 rid → fits_record chunk → ps !! rid = Some s → st_listener s = Some rid →
  record_content (drop pos mem) (record_for StdIn rid chunk) = chunk →
  let s' := if bool_decide (chunk = []) then st_set_contentFullyReceived true s else s in
  request_process mem pos (record_for StdIn rid chunk) ps =
    (<[rid := st_receive (size_of (one_record StdIn rid chunk)) s']> ps, Listener rid <$> stdin_events chunk s', None).
Proof.
  intros Hr Hc Hs Hl Hcont s'. unfold request_process. rewrite (record_for_fields _ _ _ Hr Hc) in *.
  cbn [r_type]. rewrite type_of_code. unfold streamStdIn, with_stream. rewrite Hcont. cbn [r_requestId]. rewrite Hs.
  rewrite <-(record_for_fields StdIn _ _ Hr Hc), record_for_size, (record_for_fields _ _ _ Hr Hc) by done.
  cbn [r_contentLength].
  assert ((size_of chunk =? 0) = bool_decide (chunk = [])) as ->.
  { destruct chunk; [done|]. rewrite bool_decide_eq_false_2 by done. apply Z.eqb_neq. unfold size_of. cbn. lia. }
  unfold s', notify. destruct (bool_decide (chunk = [])); cbn [st_listener st_receive st_set_contentFullyReceived];
    rewrite Hl; done.
Qed.

(** The chunks of a body arrive one by one. *)
Lemma parse_body mem rid s0 fuel : ∀ buf pos ps n rest,
  all_bytes mem → fits 16 rid → (length buf ≤ fuel)%nat →
  st_listener s0 = Some rid → st_contentFullyReceived s0 = false →
  drop pos mem = write_loop fuel StdIn rid buf ++ rest →
  let k := length (write_loop fuel StdIn rid buf) in
  ∃ chunks, concat chunks = buf ∧ Forall (λ c, c ≠ [] ∧ fits_record c) chunks ∧ drop (pos + k) mem = rest ∧
    request_parseFragment mem pos (<[rid := st_receive n s0]> ps) =
      preceded ((λ c, Listener rid (MessageContent c)) <$> chunks)
        (request_parseFragment mem (pos + k) (<[rid := st_receive (n + Z.of_nat k) s0]> ps)).
Proof.
  induction fuel as [|fuel IH]; intros buf pos ps n rest Hm Hr Hf Hl Hc Hd k.
  - destruct buf; [|cbn in Hf; lia]. exists []. unfold k. cbn [write_loop length].
    rewrite Nat.add_0_r, Z.add_0_r. split_and!; [done|constructor|done|by rewrite preceded_nil].
  - destruct (decide (buf = [])) as [->|Hb].
    { exists []. unfold k. cbn [write_loop length].
      rewrite Nat.add_0_r, Z.add_0_r. split_and!; [done|constructor|done|by rewrite preceded_nil]. }
    pose proof (cap_fits buf) as Hcap. rewrite write_loop_step, <-app_assoc in Hd by done.
    set (first := take chunkSizeCap buf) in *.
    destruct (parse_one_record request_process mem pos (<[rid := st_receive n s0]> ps) _ _ _ _ Hm Hr Hcap Hd)
      as (Hp & Hd' & Hcont).
    rewrite (stdin_process mem pos rid _ _ _ Hr Hcap (lookup_insert_eq _ _ _)) in Hp by done.
    pose proof cap_positive. assert (first ≠ []) as Hne.
    { subst first. destruct buf; [done|]. destruct chunkSizeCap; [lia|done]. }
    rewrite bool_decide_eq_false_2, insert_insert_eq, st_receive_add in Hp by done.
    unfold stdin_events in Hp. cbn [st_receive st_contentFullyReceived] in Hp.
    rewrite Hc, andb_false_r, andThen_preceded in Hp.
    destruct (IH (drop chunkSizeCap buf) (pos + length (one_record StdIn rid first))%nat ps
      (n + size_of (one_record StdIn rid first)) rest) as (chunks & Hch & Hall & Hd'' & Hrest); try done.
    { rewrite length_drop. destruct buf; [done|]. cbn in *. lia. }
    exists (first :: chunks). unfold k. rewrite write_loop_step, length_app, Nat.add_assoc by done. fold first.
    split_and!; [cbn; rewrite Hch; apply take_drop|by constructor|done|].
    unfold request_parseFragment in *. rewrite Hp, Hrest, preceded_twice.
    rewrite <-Z.add_assoc. change (size_of ?a) with (Z.of_nat (length a)). by rewrite <-Nat2Z.inj_add.
Qed.

(** ** A request from its first record on *)

Lemma parse_begin mem pos role rid keepAlive ps rest :
  all_bytes mem → fits 16 rid → ps !! rid = None →
  drop pos mem = BeginRequestRecord role rid keepAlive ++ rest →
  drop (pos + 16) mem = rest ∧
  request_parseFragment mem pos ps =
    preceded [CreateChannel rid keepAlive]
      (request_parseFragment mem (pos + 16) (<[rid := st_receive 16 (st_set_listener (Some rid) newStream)]> ps)).
Proof.
  intros Hm Hr Hps Hd.
  set (content := htons (role_code role) ++ [if keepAlive then 1 else 0; 0; 0; 0; 0; 0]).
  assert (BeginRequestRecord role rid keepAlive = one_record BeginRequest rid content) as E by reflexivity.
  assert (fits_record content) as Hc by reflexivity. rewrite E in Hd.
  destruct (parse_one_record request_process mem pos ps _ _ _ _ Hm Hr Hc Hd) as (Hp & Hd' & _).
  split; [exact Hd'|]. unfold request_parseFragment. rewrite Hp.
  assert (isKeepAlive (drop pos mem) = Ok keepAlive) as Hk by (rewrite Hd; by destruct keepAlive).
  unfold request_process. rewrite record_for_fields by done. cbn [r_type]. rewrite type_of_code.
  unfold beginRequest. cbn [r_requestId]. unfold registerStreamState. rewrite Hps, Hk, insert_insert_eq.
  apply andThen_preceded.
Qed.

Lemma parse_params mem pos rid pl ps s s' rest :
  all_bytes mem → fits 16 rid → fits_record (encodeParams pl) → encodeParams pl ≠ [] →
  Forall (λ p, short p.1 ∧ short p.2) pl →
  let k := length (one_record Params rid (encodeParams pl)) in
  deliver pl (st_receive (Z.of_nat k) s) = (s', None) →
  drop pos mem = one_record Params rid (encodeParams pl) ++ rest →
  drop (pos + k) mem = rest ∧
  request_parseFragment mem pos (<[rid := s]> ps) = request_parseFragment mem (pos + k) (<[rid := s']> ps).
Proof.
  intros Hm Hr Hf Hne Hpl k Hdel Hd.
  destruct (parse_one_record request_process mem pos (<[rid := s]> ps) _ _ _ _ Hm Hr Hf Hd) as (Hp & Hd' & _).
  split; [exact Hd'|]. unfold request_parseFragment. rewrite Hp. clear Hp.
  assert (request_process mem pos (record_for Params rid (encodeParams pl)) (<[rid := s]> ps) =
    (<[rid := s']> ps, [], None)) as ->.
  2:{ rewrite andThen_preceded. apply preceded_nil. }
  unfold request_process. pose proof (record_for_size Params rid _ Hr Hf) as Hsz.
  rewrite record_for_fields in * by done. cbn [r_type]. rewrite type_of_code.
  unfold streamParams, with_stream. cbn [r_requestId r_contentLength]. rewrite lookup_insert_eq, Hsz.
  assert (negb (size_of (encodeParams pl) =? 0) = true) as ->.
  { apply negb_true_iff, Z.eqb_neq. unfold size_of. destruct (encodeParams pl); [done|cbn; lia]. }
  unfold one_record in Hd. rewrite <-!app_assoc in Hd. rewrite Hd.
  change 8%nat with (length (record_bytes (record_for Params rid (encodeParams pl)))).
  rewrite drop_app_length, params_roundtrip_shared by done. unfold size_of. fold k. by rewrite Hdel, insert_insert_eq.
Qed.

Lemma parse_params_end mem pos rid ps s rest :
  all_bytes mem → fits 16 rid → st_listener s = Some rid →
  drop pos mem = one_record Params rid [] ++ rest →
  let s' := st_set_paramsFullyReceived true (st_receive 8 s) in
  drop (pos + 8) mem = rest ∧
  request_parseFragment mem pos (<[rid := s]> ps) =
    preceded (Listener rid <$> request_events s') (request_parseFragment mem (pos + 8) (<[rid := s']> ps)).
Proof.
  intros Hm Hr Hl Hd s'.
  destruct (parse_one_record request_process mem pos (<[rid := s]> ps) _ _ _ _ Hm Hr nil_fits Hd) as (Hp & Hd' & _).
  split; [exact Hd'|]. unfold request_parseFragment. rewrite Hp. clear Hp.
  unfold request_process. rewrite record_for_fields by done. cbn [r_type]. rewrite type_of_code.
  unfold streamParams, with_stream. cbn [r_requestId]. rewrite lookup_insert_eq. cbn [r_contentLength].
  unfold notify. cbn [st_listener st_set_paramsFullyReceived st_receive negb]. rewrite Hl.
  replace (<[rid := s']> ps) with (<[rid := s']> (<[rid := s]> ps)) by apply insert_insert_eq. apply andThen_preceded.
Qed.

Lemma parse_stdin_end mem pos rid ps s rest :
  all_bytes mem → fits 16 rid → st_listener s = Some rid →
  drop pos mem = one_record StdIn rid [] ++ rest →
  let s' := st_set_contentFullyReceived true s in
  drop (pos + 8) mem = rest ∧
  request_parseFragment mem pos (<[rid := s]> ps) =
    preceded (Listener rid <$> stdin_events [] s') (request_parseFragment mem (pos + 8) (<[rid := st_receive 8 s']> ps)).
Proof.
  intros Hm Hr Hl Hd s'.
  destruct (parse_one_record request_process mem pos (<[rid := s]> ps) _ _ _ _ Hm Hr nil_fits Hd) as (Hp & Hd' & Hc).
  split; [exact Hd'|]. unfold request_parseFragment. rewrite Hp.
  rewrite (stdin_process mem pos rid [] _ s Hr nil_fits (lookup_insert_eq _ _ _) Hl Hc), insert_insert_eq. apply andThen_preceded.
Qed.

Lemma concat_fmap_listener rid (chunks : list bytes) :
  (λ c, Listener rid (MessageContent c)) <$> chunks = Listener rid <$> (MessageContent <$> chunks).
Proof. by rewrite <-list_fmap_compose. Qed.

(** The stream of a request whose parameters are complete. *)
Definition stream_of (rid : Z) (version : bytes) (info : HttpRequestInfo) : StreamState :=
  mkStream (Some rid) 0 true false
    [mkField (str "GATEWAY_INTERFACE") (str "CGI/1.1") false;
     mkField (str "SERVER_SOFTWARE") (str "xzero/http") false;
     mkField (str "SERVER_PROTOCOL") version false;
     mkField (str "REQUEST_METHOD") (rq_method info) false;
     mkField (str "REQUEST_URI") (rq_uri info) false] [] [].

Definition params_of (version : bytes) (info : HttpRequestInfo) : list (bytes * bytes) :=
  [(str "GATEWAY_INTERFACE", str "CGI/1.1"); (str "SERVER_SOFTWARE", str "xzero/http");
   (str "SERVER_PROTOCOL", version); (str "REQUEST_METHOD", rq_method info); (str "REQUEST_URI", rq_uri info)].

Lemma params_short ps : fits_record (encodeParams ps) → Forall (λ p, short p.1 ∧ short p.2) ps.
Proof.
  induction ps as [|[n v] ps IH]; intros H; [constructor|].
  change (encodeParams ((n, v) :: ps)) with (encodeParam n v ++ encodeParams ps) in H.
  unfold fits_record, short, encodeParam in *. rewrite !size_of_app in H.
  pose proof (size_of_nonneg (encodeLength (size_of n))). pose proof (size_of_nonneg (encodeLength (size_of v))).
  pose proof (size_of_nonneg n). pose proof (size_of_nonneg v). pose proof (size_of_nonneg (encodeParams ps)).
  constructor; [split; cbn [fst snd]; lia|apply IH; lia].
Qed.

Lemma request_params_list info version :
  hi_headers (rq_info info) = [] → version_string (hi_version (rq_info info)) = Ok version →
  request_params info = Ok (encodeParams (params_of version info)).
Proof.
  intros Hh Hv. unfold request_params. rewrite Hh, Hv. unfold encodeParams, params_of.
  cbn [mbind result_bind list_bind hl_contains fields_of fmap list_fmap fst snd]. by rewrite !app_nil_r.
Qed.

Lemma flush_written g : fg_written (fcgi_flushBuffer g) = fg_written g ++ fg_buffer g.
Proof. unfold fcgi_flushBuffer. destruct (fg_buffer g) eqn:E; [by rewrite app_nil_r|done]. Qed.

Lemma generated_bytes rid info body params :
  request_params info = Ok params → params ≠ [] → fits_record params →
  ∃ g, fcgi_generateRequestBody info body (newFcgiGenerator rid) = Ok g ∧
    fg_written (fcgi_generateEnd g) = one_record Params rid params ++ one_record Params rid [] ++
      write_loop (length body) StdIn rid body ++ one_record StdIn rid [].
Proof.
  intros Hp Hne Hf. unfold fcgi_generateRequestBody, fcgi_generateRequest. rewrite Hp.
  cbn [mbind result_bind fg_set_mode newFcgiGenerator]. eexists. split; [done|].
  unfold fcgi_generateEnd. rewrite flush_written.
  assert (∀ g, fcgi_write Params params g = fg_push (one_record Params (fg_requestId g) params) g) as Hw.
  { intros g. unfold fcgi_write. destruct params as [|c params]; [done|]. by rewrite write_loop_short. }
  rewrite Hw. destruct body as [|b body]; 
    cbn [fcgi_generateBody fcgi_write fg_push fg_mode fg_buffer fg_written fg_requestId fg_set_mode newFcgiGenerator app].
  - by rewrite <-!app_assoc.
  - unfold body_type. cbn [fg_mode fg_push fg_set_mode newFcgiGenerator]. rewrite bool_decide_eq_true_2 by done.
    by rewrite <-!app_assoc.
Qed.

(** The version that is written is not one the parser knows. *)
Lemma request_events_of rid version info n : version_string (hi_version (rq_info info)) = Ok version →
  request_events (st_receive n (stream_of rid version info)) =
    [RequestBegin (rq_method info) (rq_uri info) UNKNOWN; MessageHeaderEnd].
Proof.
  intros Hv. assert (protocol_version version = UNKNOWN) as Hu.
  { destruct (hi_version (rq_info info)); try discriminate Hv; injection Hv as <-; reflexivity. }
  rewrite <-Hu. reflexivity.
Qed.

Lemma empty_record_length t rid : length (one_record t rid []) = 8%nat.
Proof. reflexivity. Qed.

Lemma begin_record_length role rid keepAlive : length (BeginRequestRecord role rid keepAlive) = 16%nat.
Proof. reflexivity. Qed.

(** ** Without the record that opens the request *)

Lemma parse_ignored mem pos ps t rid chunk rest :
  all_bytes mem → fits 16 rid → fits_record chunk → ps !! rid = None → t = Params ∨ t = StdIn →
  drop pos mem = one_record t rid chunk ++ rest →
  drop (pos + length (one_record t rid chunk)) mem = rest ∧
  request_parseFragment mem pos ps = request_parseFragment mem (pos + length (one_record t rid chunk)) ps.
Proof.
  intros Hm Hr Hc Hps Ht Hd. destruct (parse_one_record request_process mem pos ps _ _ _ _ Hm Hr Hc Hd) as (Hp & Hd' & _).
  split; [exact Hd'|]. unfold request_parseFragment. rewrite Hp.
  assert (request_process mem pos (record_for t rid chunk) ps = (ps, [], None)) as ->; [|rewrite andThen_preceded; apply preceded_nil].
  unfold request_process. rewrite record_for_fields by done. cbn [r_type]. rewrite type_of_code.
  destruct Ht as [-> | ->]; unfold streamParams, streamStdIn, with_stream; cbn [r_requestId]; by rewrite Hps.
Qed.

Lemma body_ignored mem rid ps fuel : ∀ buf pos rest,
  all_bytes mem → fits 16 rid → ps !! rid = None → drop pos mem = write_loop fuel StdIn rid buf ++ rest →
  let k := length (write_loop fuel StdIn rid buf) in
  drop (pos + k) mem = rest ∧ request_parseFragment mem pos ps = request_parseFragment mem (pos + k) ps.
Proof.
  induction fuel as [|fuel IH]; intros buf pos rest Hm Hr Hps Hd; [cbn; by rewrite Nat.add_0_r|].
  destruct (decide (buf = [])) as [->|Hb]; [cbn; by rewrite Nat.add_0_r|].
  rewrite write_loop_step in Hd |- * by done. cbn zeta. rewrite <- app_assoc in Hd.
  destruct (parse_ignored mem pos ps StdIn rid _ _ Hm Hr (cap_fits buf) Hps ltac:(by right) Hd) as [Hd1 ->].
  rewrite length_app, Nat.add_assoc. by apply IH.
Qed.

(** What the generator writes for a request. *)
Definition request_bytes (rid : Z) (version : bytes) (info : HttpRequestInfo) (body : bytes) : bytes :=
  one_record Params rid (encodeParams (params_of version info)) ++ one_record Params rid [] ++
    write_loop (length body) StdIn rid body ++ one_record StdIn rid [].

Lemma request_unopened rid version info body pre ps :
  fits 16 rid → ps !! rid = None → fits_record (encodeParams (params_of version info)) →
  let mem := pre ++ request_bytes rid version info body in
  all_bytes mem → request_parseFragment mem (length pre) ps = ((ps, length mem), [], None).
Proof.
  intros Hr Hps Hfit mem Hm. assert (drop (length pre) mem = request_bytes rid version info body) as Hd by apply drop_app_length.
  assert (length mem = length pre + length (one_record Params rid (encodeParams (params_of version info))) + 8 +
    length (write_loop (length body) StdIn rid body) + 8)%nat as Hlen
    by (unfold mem, request_bytes; rewrite !length_app, !empty_record_length; lia).
  clearbody mem. unfold request_bytes in Hd.
  destruct (parse_ignored mem _ ps Params rid _ _ Hm Hr Hfit Hps ltac:(by left) Hd) as [Hd1 ->].
  destruct (parse_ignored mem _ ps Params rid [] _ Hm Hr nil_fits Hps ltac:(by left) Hd1) as [Hd2 ->].
  destruct (body_ignored mem rid ps _ _ _ _ Hm Hr Hps Hd2) as [Hd3 ->].
  destruct (parse_ignored mem _ ps StdIn rid [] [] Hm Hr nil_fits Hps ltac:(by right) (eq_trans Hd3 (eq_sym (app_nil_r _)))) as [Hd4 ->].
  unfold request_parseFragment. rewrite parse_records_end by done. by rewrite Hlen, !empty_record_length.
Qed.

Lemma request_opened role rid keepAlive info body version pre ps :
  fits 16 rid → ps !! rid = None → version_string (hi_version (rq_info info)) = Ok version →
  fits_record (encodeParams (params_of version info)) →
  let mem := pre ++ BeginRequestRecord role rid keepAlive ++ request_bytes rid version info body in
  all_bytes mem →
  ∃ chunks s, concat chunks = body ∧ Forall (λ c, c ≠ [] ∧ fits_record c) chunks ∧
    request_parseFragment mem (length pre) ps =
      ((<[rid := s]> ps, length mem),
       CreateChannel rid keepAlive :: (Listener rid <$>
         [RequestBegin (rq_method info) (rq_uri info) UNKNOWN; MessageHeaderEnd] ++
         (MessageContent <$> chunks) ++ [MessageContent []; MessageEnd]), None).
Proof.
  intros Hr Hps Hv Hfit mem Hm.
  assert (Forall (λ p, short p.1 ∧ short p.2) (params_of version info)) as Hshort by by apply params_short.
  assert (drop (length pre) mem = BeginRequestRecord role rid keepAlive ++
    one_record Params rid (encodeParams (params_of version info)) ++ one_record Params rid [] ++
      write_loop (length body) StdIn rid body ++ one_record StdIn rid []) as Hd by apply drop_app_length.
  set (k := length (one_record Params rid (encodeParams (params_of version info)))) in *.
  assert (length mem = length pre + 16 + k + 8 + length (write_loop (length body) StdIn rid body) + 8)%nat as Hlen
    by (unfold mem, request_bytes; rewrite !length_app, !empty_record_length, begin_record_length; fold k; lia).
  clearbody mem.
  destruct (parse_begin _ _ _ _ _ ps _ Hm Hr Hps Hd) as [Hd1 ->].
  assert (deliver (params_of version info) (st_receive (Z.of_nat k) (st_receive 16 (st_set_listener (Some rid) newStream)))
    = (st_receive (16 + Z.of_nat k) (st_set_paramsFullyReceived false (stream_of rid version info)), None)) as Hdel
    by (rewrite st_receive_add; reflexivity).
  destruct (parse_params mem _ rid (params_of version info) ps _ _ _ Hm Hr Hfit ltac:(done) Hshort Hdel Hd1) as [Hd2 ->].
  destruct (parse_params_end mem _ rid ps (st_receive (16 + Z.of_nat k)
    (st_set_paramsFullyReceived false (stream_of rid version info))) _ Hm Hr eq_refl Hd2) as [Hd3 ->].
  assert (st_set_paramsFullyReceived true (st_receive 8 (st_receive (16 + Z.of_nat k)
    (st_set_paramsFullyReceived false (stream_of rid version info)))) =
    st_receive (16 + Z.of_nat k + 8) (stream_of rid version info)) as -> by (rewrite st_receive_add; reflexivity).
  destruct (parse_body mem rid (stream_of rid version info) (length body) body _ ps (16 + Z.of_nat k + 8) _
    Hm Hr ltac:(done) eq_refl eq_refl Hd3) as (chunks & Hch & Hall & Hd4 & ->).
  destruct (parse_stdin_end mem _ rid ps (st_receive (16 + Z.of_nat k + 8 +
    Z.of_nat (length (write_loop (length body) StdIn rid body))) (stream_of rid version info)) [] Hm Hr eq_refl
    (eq_trans Hd4 (eq_sym (app_nil_r _)))) as [Hd5 ->].
  exists chunks. eexists. split; [done|]. split; [done|].
  unfold request_parseFragment. rewrite parse_records_end by done. rewrite !preceded_twice. cbn [preceded].
  rewrite (request_events_of rid version info _ Hv), concat_fmap_listener, app_nil_r, Hlen, !fmap_app, <-!app_assoc. reflexivity.
Qed.

(** C30 (roundtrip). A request without header fields and with parameters that fit into one record,
    as the generator writes it for a request id. The generator writes no BEGIN_REQUEST record, and
    without one the parser takes no notice: it consumes every byte, and nothing is reported or
    changed. Behind a BEGIN_REQUEST record for the id, which somebody else has to write, the parser
    opens the channel and tells its listener the method, the URI, the end of the headers, the body
    in order and in pieces of at most 65535 bytes, and the end of the message; it consumes every
    byte and leaves the other requests alone. The version does not arrive: it is written as "1.1"
    and read as [UNKNOWN]. *)
Theorem fcgi_request_roundtrip (role : Role) (rid : Z) (keepAlive : bool) (info : HttpRequestInfo)
    (body version pre : bytes) (ps : RequestParser) :
  fits 16 rid → ps !! rid = None → hi_headers (rq_info info) = [] →
  version_string (hi_version (rq_info info)) = Ok version →
  fits_record (encodeParams (params_of version info)) →
  ∃ g, fcgi_generateRequestBody info body (newFcgiGenerator rid) = Ok g ∧
    (let mem := pre ++ fg_written (fcgi_generateEnd g) in
     all_bytes mem → request_parseFragment mem (length pre) ps = ((ps, length mem), [], None)) ∧
    let mem := pre ++ BeginRequestRecord role rid keepAlive ++ fg_written (fcgi_generateEnd g) in
    (all_bytes mem →
     ∃ chunks s, concat chunks = body ∧ Forall (λ c, c ≠ [] ∧ fits_record c) chunks ∧
       request_parseFragment mem (length pre) ps =
         ((<[rid := s]> ps, length mem),
          CreateChannel rid keepAlive :: (Listener rid <$>
            [RequestBegin (rq_method info) (rq_uri info) UNKNOWN; MessageHeaderEnd] ++
            (MessageContent <$> chunks) ++ [MessageContent []; MessageEnd]), None)).
Proof.
  intros Hr Hps Hh Hv Hfit.
  pose proof (request_params_list info version Hh Hv) as Hpar.
  destruct (generated_bytes rid info body _ Hpar ltac:(done) Hfit) as (g & Hg & Hout).
  exists g. split; [done|]. rewrite Hout. split; [by apply (request_unopened rid version info body)|].
  by apply request_opened.
Qed.

Definition example_put : HttpRequestInfo :=
  mkHttpRequestInfo (str "PUT") (str "/a") (mkHttpInfo VERSION_1_1 3 [] []).

Lemma fcgi_request_roundtrip_witness :
  ∃ g, fcgi_generateRequestBody example_put [7; 8; 9] (newFcgiGenerator 1) = Ok g ∧
    let mem := [] ++ BeginRequestRecord Responder 1 true ++ fg_written (fcgi_generateEnd g) in
    ∃ chunks s, concat chunks = [7; 8; 9] ∧
      request_parseFragment mem 0 ∅ =
        ((<[1 := s]> ∅, length mem),
         CreateChannel 1 true :: (Listener 1 <$>
           [RequestBegin (str "PUT") (str "/a") UNKNOWN; MessageHeaderEnd] ++
           (MessageContent <$> chunks) ++ [MessageContent []; MessageEnd]), None).
Proof.
  destruct (fcgi_request_roundtrip Responder 1 true example_put [7; 8; 9] (str "1.1") [] ∅)
    as (g & Hg & _ & H); [split; [discriminate|reflexivity]|reflexivity..|].
  exists g. split; [exact Hg|].
  assert (match fcgi_generateRequestBody example_put [7; 8; 9] (newFcgiGenerator 1) with
    | Ok g => forallb (fitsb 8) (BeginRequestRecord Responder 1 true ++ fg_written (fcgi_generateEnd g)) = true
    | Raise _ => False end) as Hb by (vm_compute; reflexivity).
  rewrite Hg in Hb. destruct H as (chunks & s & Hc & _ & Hp).
  - apply List.Forall_forall. intros b Hin. apply fitsb_spec. by apply (proj1 (forallb_forall _ _) Hb).
  - exists chunks, s. split; [exact Hc|exact Hp].
Defined.

(** ** Records that are followed by more bytes *)

Lemma record_at_app m more r : record_at m = Some r → record_at (m ++ more) = Some r.
Proof. destruct m as [|? [|? [|? [|? [|? [|? [|? [|? m]]]]]]]]; done. Qed.

Lemma param_length_app m n m' more : param_length m = Ok (n, m') → param_length (m ++ more) = Ok (n, m' ++ more).
Proof.
  unfold param_length. destruct m as [|b m]; [done|]. cbn [app]. case_match; [by intros [= <- <-]|].
  destruct m as [|b1 [|b2 [|b3 m]]]; try done. by intros [= <- <-].
Qed.

Lemma read_bytes_more n m s m' more : read_bytes n m = Ok (s, m') → read_bytes n (m ++ more) = Ok (s, m' ++ more).
Proof.
  unfold read_bytes. rewrite size_of_app. pose proof (size_of_nonneg more).
  destruct (Z.ltb_spec (size_of m) n); [done|]. intros [= <- <-].
  rewrite (proj2 (Z.ltb_ge _ _)) by lia. unfold size_of in *.
  by rewrite take_app_le, drop_app_le by lia.
Qed.

Lemma read_param_app m n v m' more : read_param m = Ok (n, v, m') → read_param (m ++ more) = Ok (n, v, m' ++ more).
Proof.
  unfold read_param. intros H.
  apply bind_Ok in H as ([nl m1] & H1 & H). apply bind_Ok in H as ([vl m2] & H2 & H).
  apply bind_Ok in H as ([n' m3] & H3 & H). apply bind_Ok in H as ([v' m4] & H4 & [= <- <- <-]).
  rewrite (param_length_app _ _ _ _ H1). cbn [mbind result_bind]. rewrite (param_length_app _ _ _ _ H2).
  cbn [mbind result_bind]. rewrite (read_bytes_more _ _ _ _ _ H3). cbn [mbind result_bind].
  by rewrite (read_bytes_more _ _ _ _ _ H4).
Qed.

Lemma params_loop_app fuel fuel' left m more : ∀ s s', (fuel ≤ fuel')%nat →
  params_loop fuel left m s = (s', None) → params_loop fuel' left (m ++ more) s = (s', None).
Proof.
  revert fuel' left m. induction fuel as [|fuel IH]; intros fuel' left m s s' Hf H; cbn [params_loop] in H.
  - destruct fuel'; cbn [params_loop]; by destruct (left <=? 0).
  - destruct fuel' as [|fuel']; [lia|]. cbn [params_loop]. destruct (left <=? 0); [done|].
    destruct (read_param m) as [[[n v] m']|] eqn:E; [|done]. rewrite (read_param_app _ _ _ _ more E).
    destruct (onParam n v s) as [s1|]; [|done]. rewrite !size_of_app.
    replace (size_of m + size_of more - (size_of m' + size_of more)) with (size_of m - size_of m') by lia.
    apply IH; [lia|done].
Qed.

Lemma drop_app_record {A} pos (mem more : list A) : drop pos mem ≠ [] → drop pos (mem ++ more) = drop pos mem ++ more.
Proof.
  intros H. apply drop_app_le. destruct (decide (pos ≤ length mem)%nat); [done|]. destruct H. apply drop_ge. lia.
Qed.

(** A record that is there in full is processed alike when more bytes follow. *)
Definition settled {S} (process : bytes → nat → FcgiRecord → S → call S) : Prop :=
  ∀ mem more pos r s s' evs,
    record_at (drop pos mem) = Some r → record_size r ≤ size_of (drop pos mem) → all_bytes mem →
    process mem pos r s = (s', evs, None) → process (mem ++ more) pos r s = (s', evs, None).

Lemma record_content_app m more r :
  record_at m = Some r → record_size r ≤ size_of m → all_bytes m →
  record_content (m ++ more) r = record_content m r.
Proof.
  intros Hr Hs Hm. unfold record_content. destruct (record_at_lengths m r Hr Hm) as [Hc Hp].
  unfold record_size, size_of in Hs. rewrite drop_app_le by lia. apply take_app_le. rewrite length_drop. lia.
Qed.

Lemma request_process_settled : settled request_process.
Proof.
  intros mem more pos r ps ps' evs Hr Hs Hm. assert (all_bytes (drop pos mem)) as Hm' by by apply Forall_drop.
  unfold request_process. rewrite drop_app_record by (intros E; by rewrite E in Hr).
  destruct (type_of (r_type r)) as [[]|]; try done.
  - unfold beginRequest. destruct (registerStreamState (r_requestId r) ps); [|done].
    unfold isKeepAlive. destruct (drop pos mem !! 10%nat) as [b|] eqn:E; [|done].
    by rewrite (lookup_app_l_Some _ _ _ _ E).
  - unfold streamParams, with_stream. destruct (ps !! r_requestId r) as [s|]; [|done].
    destruct (negb (r_contentLength r =? 0)); [|done]. unfold processParams.
    destruct (params_loop (length (drop 8 (drop pos mem))) _ _ _) as [s' x] eqn:E. intros [= <- <- ->].
    rewrite (drop_app_le _ more) by (by eapply record_at_length).
    eapply (params_loop_app _ (length (drop 8 (drop pos mem) ++ more)) _ _ more) in E; [by rewrite E|].
    rewrite length_app. lia.
  - unfold streamStdIn. by rewrite (record_content_app _ more r).
Qed.

(** ** Requests that share a connection *)

Definition owner (ev : fcgi_event) : Z :=
  match ev with
  | CreateChannel rid _ | CreateResponseChannel rid | UnknownPacket rid _ | AbortedRequest rid
  | StdErrData rid _ | Listener rid _ => rid
  end.

Definition events_of (id : Z) (evs : list fcgi_event) : list fcgi_event := filter (λ ev, owner ev = id) evs.

(** Each stream reports to the channel of its own request. *)
Definition streams_ok (ps : RequestParser) : Prop := map_Forall (λ id s, st_listener s = Some id) ps.

(** The records that are in the buffer in full, with their places. *)
Fixpoint records_loop (fuel : nat) (mem : bytes) (pos : nat) : list (nat * FcgiRecord) :=
  match fuel, record_at (drop pos mem) with
  | S fuel, Some r =>
      if size_of (drop pos mem) <? record_size r then []
      else (pos, r) :: records_loop fuel mem (pos + Z.to_nat (record_size r))
  | _, _ => []
  end.

Definition records_in (mem : bytes) (pos : nat) : list (nat * FcgiRecord) :=
  records_loop (S (length mem - pos)) mem pos.

(** Some records of the buffer, processed in order. *)
Fixpoint run_records (mem : bytes) (rs : list (nat * FcgiRecord)) (ps : RequestParser) : call RequestParser :=
  match rs with
  | [] => (ps, [], None)
  | (pos, r) :: rs => andThen (request_process mem pos r ps) (run_records mem rs) id
  end.

Lemma onParam_listener n v s s' : onParam n v s = Ok s' → st_listener s' = st_listener s.
Proof. unfold onParam. intros Hp. case_bool_decide; apply bind_Ok in Hp as (l & _ & [= <-]); done. Qed.

Lemma params_loop_listener fuel left m s : st_listener (params_loop fuel left m s).1 = st_listener s.
Proof.
  revert left m s. induction fuel as [|fuel IH]; intros left m s; cbn [params_loop]; case_match; try done.
  destruct (read_param m) as [[[n v] m']|]; [|done]. destruct (onParam n v s) as [s'|] eqn:E; [|done].
  rewrite IH. by eapply onParam_listener.
Qed.

Lemma events_of_same id evs : Forall (λ ev, owner ev = id) evs → events_of id evs = evs.
Proof. induction 1 as [|ev evs He _ IH]; [done|]. unfold events_of in *. rewrite filter_cons_True by done. by rewrite IH. Qed.

Lemma events_of_other id id' evs : id ≠ id' → Forall (λ ev, owner ev = id) evs → events_of id' evs = [].
Proof.
  intros Hn. induction 1 as [|ev evs He _ IH]; [done|]. unfold events_of in *.
  rewrite filter_cons_False by congruence. done.
Qed.

Lemma events_of_app id a b : events_of id (a ++ b) = events_of id a ++ events_of id b.
Proof.
  induction a as [|ev a IH]; [done|]. unfold events_of in *. cbn [app]. rewrite !filter_cons, IH. by case_decide.
Qed.

(** What a record can do: events of its own request, a change of its own stream,
    depending on that stream alone. *)
Definition local (rid : Z) (f : RequestParser → call RequestParser) : Prop :=
  ∃ act : option StreamState → option StreamState * list fcgi_event * option exn,
    (∀ s, (∀ s0, s = Some s0 → st_listener s0 = Some rid) → let '(s', evs, x) := act s in
       Forall (λ ev, owner ev = rid) evs ∧ (x = None → ∀ s0, s' = Some s0 → st_listener s0 = Some rid)) ∧
    ∀ ps, let '(s', evs, x) := act (ps !! rid) in
      f ps = (partial_alter (λ _, s') rid ps, evs, x).

Lemma partial_alter_missing (ps : RequestParser) rid : ps !! rid = None → partial_alter (λ _, None) rid ps = ps.
Proof. intros E. transitivity (partial_alter (λ _, ps !! rid) rid ps); [by rewrite E|apply partial_alter_self]. Qed.

Lemma local_with_stream rid k :
  (∀ s, st_listener s = Some rid → let '(s', evs, x) := k s in
     Forall (λ ev, owner ev = rid) evs ∧ (x = None → st_listener s' = Some rid)) →
  local rid (λ ps, with_stream rid ps k).
Proof.
  intros Hk. exists (λ o, match o with None => (None, [], None) | Some s => let '(s', evs, x) := k s in (Some s', evs, x) end).
  split.
  - intros [s|] Hs; [|done]. specialize (Hk s (Hs s eq_refl)). destruct (k s) as [[s' evs] x]. destruct Hk as [Ho Hl].
    split; [done|]. intros Hx ? [= <-]. by apply Hl.
  - intros ps. unfold with_stream. destruct (ps !! rid) as [s|] eqn:E; [by destruct (k s) as [[??]?]|].
    f_equal. f_equal. by rewrite partial_alter_missing.
Qed.

Lemma owner_listener rid evs : Forall (λ ev, owner ev = rid) (Listener rid <$> evs).
Proof. induction evs; constructor; done. Qed.

Lemma request_process_local mem pos r : local (r_requestId r) (request_process mem pos r).
Proof.
  unfold request_process. set (rid := r_requestId r).
  assert (local rid (λ ps, (ps, [UnknownPacket rid (r_type r)], None))) as Hunknown.
  { exists (λ o, (o, [UnknownPacket rid (r_type r)], None)). split; [by intros s Hs; split; [constructor|intros _]|].
    intros ps. by rewrite partial_alter_self. }
  destruct (type_of (r_type r)) as [[]|]; try exact Hunknown.
  - exists (λ o, match o with
      | Some s => (Some s, [], Some RuntimeError)
      | None => let s := st_receive (record_size r) newStream in
          match isKeepAlive (drop pos mem) with
          | Raise e => (Some s, [], Some e)
          | Ok b => (Some (st_set_listener (Some rid) s), [CreateChannel rid b], None)
          end
      end). split.
    + intros [s|] Hs; [done|]. cbn zeta. destruct (isKeepAlive (drop pos mem)); (split; [by repeat constructor|]); [|done].
      by intros _ ? [= <-].
    + intros ps. unfold beginRequest, registerStreamState. fold rid.
      destruct (ps !! rid) as [s|] eqn:E; [by rewrite <-E, partial_alter_self|].
      cbn zeta. destruct (isKeepAlive (drop pos mem)); by rewrite insert_insert_eq.
  - exists (λ o, match o with Some _ => (None, [AbortedRequest rid], None) | None => (None, [], None) end). split.
    + intros [s|] Hs; split; by repeat constructor.
    + intros ps. unfold abortRequest. fold rid. destruct (ps !! rid) eqn:E; [done|].
      f_equal. f_equal. by rewrite partial_alter_missing.
  - apply (local_with_stream rid). intros s Hs. destruct (negb (r_contentLength r =? 0)).
    + unfold processParams. pose proof (params_loop_listener (length (drop 8 (drop pos mem))) (r_contentLength r)
        (drop 8 (drop pos mem)) (st_receive (record_size r) s)) as Hl.
      destruct (params_loop _ _ _ _) as [s' x]. split; [constructor|]. intros _. cbn [fst] in Hl. by rewrite Hl.
    + unfold notify. cbn [st_listener st_set_paramsFullyReceived st_receive]. rewrite Hs.
      split; [apply owner_listener|done].
  - apply (local_with_stream rid). intros s Hs. cbn zeta. unfold notify.
    destruct (r_contentLength r =? 0); cbn [st_listener st_set_contentFullyReceived st_receive]; rewrite Hs;
      (split; [apply owner_listener|done]).
  - apply (local_with_stream rid). intros s Hs. split; [constructor|done].
Qed.

(** One record and the stream of some request. *)
Lemma process_step id mem pos r ps ps' evs : streams_ok ps → request_process mem pos r ps = (ps', evs, None) →
  streams_ok ps' ∧
  if decide (r_requestId r = id) then
    events_of id evs = evs ∧
    ∀ qs, qs !! id = ps !! id → ∃ qs', request_process mem pos r qs = (qs', evs, None) ∧ qs' !! id = ps' !! id
  else events_of id evs = [] ∧ ps' !! id = ps !! id.
Proof.
  intros Hok Hp. destruct (request_process_local mem pos r) as (act & Hact & Hf). set (rid := r_requestId r) in *.
  pose proof (Hf ps) as Hps. specialize (Hact (ps !! rid) (λ s0, Hok rid s0)).
  destruct (act (ps !! rid)) as [[s' evs'] x] eqn:Ea. rewrite Hp in Hps. injection Hps as -> -> <-.
  destruct Hact as [Hown Hl]. split.
  - intros id' s0. destruct (decide (rid = id')) as [<-|Hn].
    + rewrite lookup_partial_alter_eq. by apply Hl.
    + rewrite lookup_partial_alter_ne by done. apply Hok.
  - destruct (decide (rid = id)) as [<-|Hn].
    + split; [by apply events_of_same|]. intros qs Hq. pose proof (Hf qs) as Hqs. rewrite Hq, Ea in Hqs.
      eexists. split; [exact Hqs|]. by rewrite !lookup_partial_alter_eq.
    + split; [by eapply events_of_other|]. by rewrite lookup_partial_alter_ne.
Qed.

Lemma run_independent id mem rs : ∀ ps qs ps' evs,
  streams_ok ps → qs !! id = ps !! id → run_records mem rs ps = (ps', evs, None) →
  ∃ qs', run_records mem (filter (λ e, r_requestId e.2 = id) rs) qs = (qs', events_of id evs, None) ∧ qs' !! id = ps' !! id.
Proof.
  induction rs as [|[pos r] rs IH]; intros ps qs ps' evs Hok Hq Hrun; [injection Hrun as <- <-; by exists qs|].
  cbn [run_records] in Hrun. destruct (request_process mem pos r ps) as [[ps1 evs1] [e|]] eqn:Hp; [by injection Hrun|].
  rewrite andThen_preceded in Hrun. destruct (run_records mem rs ps1) as [[ps2 evs2] x] eqn:Hr. injection Hrun as <- <- ->.
  destruct (process_step id mem pos r ps ps1 evs1 Hok Hp) as [Hok1 Hs]. rewrite events_of_app, filter_cons.
  cbn [snd]. destruct (decide (r_requestId r = id)) as [Hid|Hid]; destruct Hs as [He Hs].
  - destruct (Hs qs Hq) as (qs1 & Hq1 & Hl1). destruct (IH ps1 qs1 _ _ Hok1 Hl1 Hr) as (qs2 & Hq2 & Hl2).
    exists qs2. split; [|done]. cbn [run_records]. by rewrite Hq1, andThen_preceded, Hq2, He.
  - rewrite He. apply (IH ps1 qs _ _ Hok1); [by rewrite Hs|done].
Qed.

(** [parseFragment] processes the records of the buffer. *)
Lemma fragment_loop_run fuel mem : ∀ pos ps ps' pos' evs,
  fragment_loop request_process fuel mem pos ps = ((ps', pos'), evs, None) →
  run_records mem (records_loop fuel mem pos) ps = (ps', evs, None).
Proof.
  induction fuel as [|fuel IH]; intros pos ps ps' pos' evs; cbn [fragment_loop records_loop]; [done|].
  destruct (record_at (drop pos mem)) as [r|]; [|by intros [= <- _ <-]].
  destruct (size_of (drop pos mem) <? record_size r); [by intros [= <- _ <-]|].
  cbn [run_records]. destruct (request_process mem pos r ps) as [[ps1 evs1] [e|]]; [done|]. rewrite !andThen_preceded.
  destruct (fragment_loop _ _ _ _ _) as [[[ps2 pos2] evs2] x] eqn:E. intros [= <- _ <- ->].
  by rewrite (IH _ _ _ _ _ E).
Qed.

(** ** A request on a connection of its own *)

(** The pairs in [m] end with it. *)
Fixpoint params_fit (fuel : nat) (m : bytes) : bool :=
  match m, fuel with
  | [], _ => true
  | _, O => false
  | _, S fuel => match read_param m with Ok (_, _, m') => params_fit fuel m' | Raise _ => false end
  end.

(** A record whose content holds what is read as its content: [processParams]
    and [isKeepAlive] do not look for its end. *)
Definition self_contained (mem : bytes) (e : nat * FcgiRecord) : bool :=
  let content := record_content (drop e.1 mem) e.2 in
  match type_of (r_type e.2) with
  | Some BeginRequest => 3 <=? r_contentLength e.2
  | Some Params => params_fit (length content) content
  | _ => true
  end.

(** The bytes of a record. *)
Definition record_slice (mem : bytes) (e : nat * FcgiRecord) : bytes := take (Z.to_nat (record_size e.2)) (drop e.1 mem).

(** The record is in the buffer in full. *)
Definition slice_placed (mem : bytes) (e : nat * FcgiRecord) : Prop :=
  record_at (drop e.1 mem) = Some e.2 ∧ record_size e.2 ≤ size_of (drop e.1 mem).

Lemma records_placed fuel mem pos : Forall (slice_placed mem) (records_loop fuel mem pos).
Proof.
  revert pos. induction fuel as [|fuel IH]; intros pos; cbn [records_loop]; [constructor|].
  destruct (record_at (drop pos mem)) as [r|] eqn:E; [|constructor]. destruct (Z.ltb_spec (size_of (drop pos mem)) (record_size r)); [constructor|].
  constructor; [by split|apply IH].
Qed.

Lemma param_length_shorter m n m' : param_length m = Ok (n, m') → (length m' < length m)%nat.
Proof.
  unfold param_length. destruct m as [|b m]; [done|]. case_match; [intros [= <- <-]; cbn; lia|].
  destruct m as [|b1 [|b2 [|b3 m]]]; try done. intros [= <- <-]. cbn. lia.
Qed.

Lemma read_param_shorter m n v m' : read_param m = Ok (n, v, m') → (length m' < length m)%nat.
Proof.
  unfold read_param. intros H.
  apply bind_Ok in H as ([nl m1] & H1%param_length_shorter & H). apply bind_Ok in H as ([vl m2] & H2%param_length_shorter & H).
  apply bind_Ok in H as ([n' m3] & H3 & H). apply bind_Ok in H as ([v' m4] & H4 & [= <- <- <-]). unfold read_bytes in *.
  destruct (_ <? _); [done|]. injection H3 as _ <-. destruct (_ <? _); [done|]. injection H4 as _ <-. rewrite !length_drop. lia.
Qed.

Lemma params_loop_alone f fuel fuel' m more s s' :
  params_fit f m = true → (length m ≤ fuel')%nat →
  params_loop fuel (size_of m) (m ++ more) s = (s', None) → params_loop fuel' (size_of m) m s = (s', None).
Proof.
  revert fuel fuel' m s. induction f as [|f IH]; intros fuel fuel' m s Hfit Hf H.
  { destruct m; [|done]. destruct fuel, fuel'; cbn in *; done. }
  destruct m as [|b m]; [destruct fuel, fuel'; cbn in *; done|].
  cbn [params_fit] in Hfit. destruct (read_param (b :: m)) as [[[n v] m']|] eqn:E; [|done]. pose proof (read_param_shorter _ _ _ _ E) as Hl.
  assert (Hpos : (size_of (b :: m) <=? 0) = false) by (apply Z.leb_gt; unfold size_of; cbn; lia).
  destruct fuel as [|fuel]; cbn [params_loop] in H; rewrite Hpos in H; [done|]. destruct fuel' as [|fuel']; [cbn in Hf; lia|]. cbn [params_loop].
  rewrite Hpos, E. rewrite (read_param_app _ _ _ _ more E) in H. destruct (onParam n v s) as [s1|]; [|done].
  replace (size_of (b :: m) - (size_of (b :: m) - size_of m')) with (size_of m') by lia.
  rewrite !size_of_app in H. replace (size_of (b :: m) - (size_of (b :: m) + size_of more - (size_of m' + size_of more))) with (size_of m') in H by lia.
  eapply IH; [exact Hfit| |exact H]. cbn in *. lia.
Qed.

(** A self-contained record is processed alike without the bytes behind it. *)
Lemma process_alone mem e ps ps' evs :
  slice_placed mem e → all_bytes mem → self_contained mem e = true →
  request_process mem e.1 e.2 ps = (ps', evs, None) → request_process (record_slice mem e) 0 e.2 ps = (ps', evs, None).
Proof.
  destruct e as [pos r]. unfold slice_placed, self_contained, record_slice. cbn [fst snd]. intros [Hr Hs] Hm Hc.
  assert (all_bytes (drop pos mem)) as Hm' by by apply Forall_drop.
  destruct (record_at_lengths _ r Hr Hm') as [Hcl Hpl]. set (m := drop pos mem) in *. set (k := Z.to_nat (record_size r)).
  assert (Hk : k = (8 + Z.to_nat (r_contentLength r) + Z.to_nat (r_paddingLength r))%nat) by (unfold k, record_size; lia).
  assert (Hkl : (k ≤ length m)%nat) by (unfold size_of in Hs; lia).
  assert (Hcont : record_content (take k m) r = record_content m r).
  { unfold record_content. rewrite skipn_firstn_comm, take_take. f_equal. lia. }
  unfold request_process. rewrite drop_0. fold m. destruct (type_of (r_type r)) as [[]|]; try done.
  - unfold beginRequest. destruct (registerStreamState _ _); [|done]. unfold isKeepAlive.
    rewrite lookup_take_lt; [done|]. apply Z.leb_le in Hc. lia.
  - unfold streamParams, with_stream. destruct (ps !! r_requestId r) as [s|]; [|done].
    destruct (negb (r_contentLength r =? 0)); [|done]. unfold processParams.
    destruct (params_loop (length (drop 8 m)) _ _ _) as [s' x] eqn:E. intros [= <- <- ->].
    set (content := record_content m r) in *. assert (Hsz : size_of content = r_contentLength r).
    { unfold content, record_content, size_of. rewrite length_take, length_drop. lia. }
    rewrite <- Hsz in E |- *. assert (Hd : drop 8 m = content ++ drop (Z.to_nat (r_contentLength r)) (drop 8 m)) by (symmetry; apply take_drop).
    rewrite Hd in E. eapply (params_loop_alone (length content) _ (length content)) in E; [|done|done].
    assert (Ht : drop 8 (take k m) = content ++ drop (Z.to_nat (r_contentLength r)) (drop 8 (take k m))).
    { rewrite <- Hcont. symmetry. apply take_drop. }
    rewrite Ht. eapply params_loop_app in E; [rewrite E; done|]. rewrite length_app. lia.
  - unfold streamStdIn. by rewrite Hcont.
Qed.

Lemma request_process_place mem pos mem2 pos2 r ps :
  drop pos mem = drop pos2 mem2 → request_process mem pos r ps = request_process mem2 pos2 r ps.
Proof. unfold request_process. by intros ->. Qed.

Lemma slice_facts mem e : slice_placed mem e → all_bytes mem →
  all_bytes (record_slice mem e) ∧ size_of (record_slice mem e) = record_size e.2 ∧ record_at (record_slice mem e) = Some e.2.
Proof.
  destruct e as [pos r]. unfold slice_placed, record_slice. cbn [fst snd]. intros [Hr Hs] Hm.
  assert (all_bytes (drop pos mem)) as Hm' by by apply Forall_drop. pose proof (record_at_size _ r Hr Hm') as H8.
  split; [by apply Forall_take|]. split; [unfold size_of in *; rewrite length_take; lia|].
  assert (Hk : ∃ k, Z.to_nat (record_size r) = (8 + k)%nat) by (exists (Z.to_nat (record_size r) - 8)%nat; lia). destruct Hk as [k ->].
  by destruct (drop pos mem) as [|? [|? [|? [|? [|? [|? [|? [|? l]]]]]]]].
Qed.

(** The records one behind the other, from [pre] on. *)
Lemma run_alone mem rs : all_bytes mem → Forall (slice_placed mem) rs → Forall (λ e, self_contained mem e = true) rs → ∀ pre fuel ps ps' evs,
  all_bytes pre → (length (concat (record_slice mem <$> rs)) < fuel)%nat →
  run_records mem rs ps = (ps', evs, None) →
  fragment_loop request_process fuel (pre ++ concat (record_slice mem <$> rs)) (length pre) ps =
    ((ps', length (pre ++ concat (record_slice mem <$> rs))), evs, None).
Proof.
  intros Hm Hp. induction Hp as [|[pos r] rs Hp1 Hp IH]; intros Hc pre fuel ps ps' evs Hpre Hf Hrun.
  - cbn in *. injection Hrun as <- <-. destruct fuel as [|fuel]; [lia|]. cbn [fragment_loop]. rewrite app_nil_r, drop_all. done.
  - apply list.Forall_cons in Hc as [Hc1 Hc]. cbn [run_records] in Hrun.
    destruct (request_process mem pos r ps) as [[ps1 evs1] [x|]] eqn:E; [done|]. rewrite andThen_preceded in Hrun.
    destruct (run_records mem rs ps1) as [[ps2 evs2] x] eqn:Er. injection Hrun as <- <- ->.
    destruct (slice_facts mem (pos, r) Hp1 Hm) as (Hsb & Hss & Hsr). apply (process_alone mem (pos, r)) in E; [|done..].
    set (sl := record_slice mem (pos, r)) in *. cbn [fmap list_fmap concat] in *. fold sl in Hf |- *. set (rest := concat (record_slice mem <$> rs)) in *.
    cbn [fst snd] in *. destruct fuel as [|fuel]; [lia|]. cbn [fragment_loop]. rewrite drop_app_length, (record_at_app _ rest r Hsr), size_of_app.
    pose proof (size_of_nonneg rest). rewrite (proj2 (Z.ltb_ge _ _)) by lia.
    assert (Hlen : Z.to_nat (record_size r) = length sl) by (rewrite <- Hss; unfold size_of; lia).
    rewrite (request_process_place sl 0 (pre ++ sl) (length pre)) in E by by rewrite drop_app_length.
    apply (request_process_settled (pre ++ sl) rest) in E; [|by rewrite drop_app_length|rewrite drop_app_length; lia|by apply Forall_app].
    rewrite <- app_assoc in E. rewrite E, andThen_preceded, Hlen.
    replace (length pre + length sl)%nat with (length (pre ++ sl)) by apply length_app.
    pose proof (record_at_length _ r Hsr). rewrite length_app in Hf.
    rewrite app_assoc, (IH Hc (pre ++ sl) fuel ps1 ps2 evs2); [done|by apply Forall_app|lia|done].
Qed.

(** C31 (safety). Requests that share a connection do not affect one another: when a fragment is
    processed without an exception, then the bytes of the records of one request id alone, as a
    fragment of their own, are consumed without an exception and lead to the same stream and to the
    same events for its channel. The records of this request must hold their content: a
    BEGIN_REQUEST its flags and a PARAMS record whole pairs. [processParams] does not look for the
    end of the record, so that a pair that is cut off takes its bytes from the record behind it, which may be
    another request's ([truncated_param_reads_on]). What the other records hold does not matter. *)
Theorem requests_independent (id : Z) (mem : bytes) (pos pos' : nat) (ps ps' : RequestParser) (evs : list fcgi_event) :
  streams_ok ps → all_bytes mem →
  let own := filter (λ e, r_requestId e.2 = id) (records_in mem pos) in
  Forall (λ e, self_contained mem e = true) own →
  request_parseFragment mem pos ps = ((ps', pos'), evs, None) →
  let alone := concat (record_slice mem <$> own) in
  ∃ qs, request_parseFragment alone 0 ps = ((qs, length alone), events_of id evs, None) ∧ qs !! id = ps' !! id.
Proof.
  intros Hok Hm own Hself Hp alone.
  destruct (run_independent id mem (records_in mem pos) ps ps ps' evs Hok eq_refl) as (qs & Hq & Hl).
  { by apply (fragment_loop_run _ _ _ _ _ pos'). }
  exists qs. split; [|done]. apply (run_alone mem own Hm) with (pre := []); [|done|constructor|fold alone; lia|exact Hq].
  apply list.Forall_forall. intros e [_ He]%list_elem_of_filter. by apply (proj1 (list.Forall_forall _ _) (records_placed (S (length mem - pos)) mem pos)).
Qed.

Definition two_requests : bytes :=
  BeginRequestRecord Responder 1 false ++ BeginRequestRecord FilterRole 2 true ++
  one_record Params 1 (encodeParam (str "REQUEST_METHOD") (str "GET")) ++ one_record StdIn 2 (str "hi") ++
  one_record Params 1 [] ++ AbortRequestRecord 2 ++ one_record StdIn 1 [].

Lemma requests_independent_witness :
  ∃ ps' evs qs,
    request_parseFragment two_requests 0 ∅ = ((ps', length two_requests), evs, None) ∧
    (let alone := BeginRequestRecord Responder 1 false ++ one_record Params 1 (encodeParam (str "REQUEST_METHOD") (str "GET")) ++
       one_record Params 1 [] ++ one_record StdIn 1 [] in
     request_parseFragment alone 0 ∅ = ((qs, length alone), events_of 1 evs, None)) ∧
    qs !! 1 = ps' !! 1.
Proof.
  assert (forallb (fitsb 8) two_requests = true) as Hb by (vm_compute; reflexivity).
  assert (all_bytes two_requests) as Hall.
  { apply List.Forall_forall. intros b Hin. apply fitsb_spec. by apply (proj1 (forallb_forall _ _) Hb). }
  assert ((λ c : call (RequestParser * nat), c.1.1.2 = length two_requests ∧ c.2 = None)
    (request_parseFragment two_requests 0 ∅)) as H by (vm_compute; done).
  destruct (request_parseFragment two_requests 0 ∅) as [[[ps' n] evs] x] eqn:E.
  destruct H as (Hn & Hx). cbn [fst snd] in Hn, Hx. subst n x.
  assert (Forall (λ e, self_contained two_requests e = true) (filter (λ e, r_requestId e.2 = 1) (records_in two_requests 0))) as Hself.
  { apply (bool_decide_unpack _). by vm_compute. }
  destruct (requests_independent 1 two_requests 0 _ ∅ ps' evs (map_Forall_empty _) Hall Hself E) as (qs & Hq & Hl).
  exists ps', evs, qs. split; [reflexivity|]. split; [exact Hq|exact Hl].
Defined.

(** A PARAMS record of request 1 announces nine bytes of value and holds five: the
    other four are the beginning of the record of another request behind it. *)
Definition cut_off (behind : Z) : bytes :=
  BeginRequestRecord Responder 1 false ++ one_record Params 1 [1; 9; 88; 97; 98; 99; 100; 101] ++ one_record StdIn behind (str "hi").
Lemma truncated_param_reads_on :
  (st_params <$> (request_parseFragment (cut_off 2) 0 ∅).1.1.1 !! 1) ≠ (st_params <$> (request_parseFragment (cut_off 3) 0 ∅).1.1.1 !! 1).
Proof. by vm_compute. Qed.

(** ** Bytes that arrive in pieces *)

Lemma response_process_settled : settled response_process.
Proof.
  intros mem more pos r ps ps' evs Hr Hs Hm Hp. assert (all_bytes (drop pos mem)) as Hm' by by apply Forall_drop.
  assert (drop pos mem ≠ []) as Hne by (intros E; by rewrite E in Hr).
  unfold response_process in *. destruct (type_of (r_type r)) as [[]|]; try done.
  - unfold streamStdOut in *. rewrite take_app_le; [done|].
    destruct (record_at_lengths _ r Hr Hm') as [Hc Hpad]. pose proof (record_at_length _ r Hr) as H8.
    unfold record_size, size_of in Hs. rewrite length_drop in Hs, H8. lia.
  - unfold streamStdErr in *. rewrite drop_app_record by done. by rewrite (record_content_app _ more r).
Qed.

Lemma fragment_loop_resume {S} (process : bytes → nat → FcgiRecord → S → call S) mem more fuel fuel' :
  settled process → all_bytes mem → all_bytes more → ∀ pos s s1 pos1 evs1,
  (length (mem ++ more) - pos < fuel')%nat →
  fragment_loop process fuel mem pos s = ((s1, pos1), evs1, None) →
  fragment_loop process fuel' (mem ++ more) pos s = preceded evs1 (parse_records process (mem ++ more) pos1 s1).
Proof.
  intros Hset Hm Hmore. assert (all_bytes (mem ++ more)) as Hall by by apply Forall_app.
  revert fuel'. induction fuel as [|fuel IH]; intros fuel' pos s s1 pos1 evs1 Hf H; cbn [fragment_loop] in H; [done|].
  destruct (record_at (drop pos mem)) as [r|] eqn:Hr.
  2:{ injection H as <- <- <-. rewrite preceded_nil. apply fragment_loop_fuel; try done. lia. }
  destruct (Z.ltb_spec (size_of (drop pos mem)) (record_size r)).
  { injection H as <- <- <-. rewrite preceded_nil. apply fragment_loop_fuel; try done. lia. }
  destruct fuel' as [|fuel']; [lia|]. cbn [fragment_loop].
  rewrite drop_app_record by (intros E; by rewrite E in Hr). rewrite (record_at_app _ more r Hr), size_of_app.
  pose proof (size_of_nonneg more). rewrite (proj2 (Z.ltb_ge _ _)) by lia.
  destruct (process mem pos r s) as [[s' evs] [e|]] eqn:Hp; [done|].
  rewrite (Hset mem more pos r s s' evs Hr ltac:(lia) Hm Hp). rewrite andThen_preceded in *.
  destruct (fragment_loop process fuel mem _ s') as [[[s2 pos2] evs2] x] eqn:E. injection H as <- <- <- ->.
  assert (8 ≤ record_size r) by (eapply record_at_size; [done|by apply Forall_drop]).
  pose proof (record_at_length _ r Hr) as H8. rewrite length_drop in H8. rewrite length_app in *.
  eapply (IH fuel') in E; [rewrite E; apply preceded_twice|lia].
Qed.

(** C32 (equivalence). It does not matter how the bytes of a connection arrive:
    what [parseFragment] of the request parser and of the response parser does
    with a buffer, once it has handled a shorter buffer without an exception, is
    to go on where it stopped there, and both parts together are what it does
    with the whole buffer at once. *)
Theorem fragments_transparent (mem more : bytes) (pos : nat) :
  all_bytes mem → all_bytes more →
  (∀ ps ps1 pos1 evs1, request_parseFragment mem pos ps = ((ps1, pos1), evs1, None) →
     request_parseFragment (mem ++ more) pos ps = preceded evs1 (request_parseFragment (mem ++ more) pos1 ps1)) ∧
  (∀ ps ps1 pos1 evs1, response_parseFragment mem pos ps = ((ps1, pos1), evs1, None) →
     response_parseFragment (mem ++ more) pos ps = preceded evs1 (response_parseFragment (mem ++ more) pos1 ps1)).
Proof.
  intros Hm Hmore. split; intros ps ps1 pos1 evs1 H.
  - eapply (fragment_loop_resume request_process); try done; [exact request_process_settled|lia].
  - eapply (fragment_loop_resume response_process); try done; [exact response_process_settled|lia].
Qed.

Lemma fragments_transparent_witness :
  ∃ ps1 evs1,
    request_parseFragment (take 30 two_requests) 0 ∅ = ((ps1, 16%nat), evs1, None) ∧
    request_parseFragment (take 30 two_requests ++ drop 30 two_requests) 0 ∅ =
      preceded evs1 (request_parseFragment (take 30 two_requests ++ drop 30 two_requests) 16 ps1).
Proof.
  assert (forallb (fitsb 8) two_requests = true) as Hb by (vm_compute; reflexivity).
  assert (all_bytes two_requests) as Hall.
  { apply List.Forall_forall. intros b Hin. apply fitsb_spec. by apply (proj1 (forallb_forall _ _) Hb). }
  assert ((λ c : call (RequestParser * nat), c.1.1.2 = 16%nat ∧ c.2 = None)
    (request_parseFragment (take 30 two_requests) 0 ∅)) as H by (vm_compute; done).
  destruct (request_parseFragment (take 30 two_requests) 0 ∅) as [[[ps1 n] evs1] x] eqn:E.
  destruct H as [Hn Hx]. cbn [fst snd] in Hn, Hx. subst n x. exists ps1, evs1. split; [reflexivity|].
  apply (fragments_transparent (take 30 two_requests) (drop 30 two_requests) 0); [by apply Forall_take|by apply Forall_drop|].
  exact E.
Defined.
