(* ===== verification/Http2.v ===== *)
(** * HTTP/2 frames and flow control

    [src/xzero/http/http2]: the frame [Generator], the frame [Parser] and the
    credit counter [Flow]. The bytes the generator hands to its [DataChain] are
    a list; the listener's callbacks are events. The payload of a frame is what
    the source makes it: every byte of the fragment behind the frame's header.
    An access behind the fragment is [UndefinedBehaviour].

    A member the constructor leaves uninitialised ([promisedStreamID_]) starts
    as [None], and reading it then is [UndefinedBehaviour]; [streamWeight_] is
    written but never read. *)
From S2P Require Import Prelude HeaderFieldList HpackTables HpackCodec RequestUri.

Local Open Scope string_scope.
Local Open Scope list_scope.
Local Open Scope Z_scope.

(** ** Frame types, error codes, settings *)

Inductive FrameType :=
  | DataFrame | HeadersFrame | PriorityFrame | ResetStreamFrame | SettingsFrame | PushPromiseFrame
  | PingFrame | GoAwayFrame | WindowUpdateFrame | ContinuationFrame.

#[export] Instance FrameType_eq_dec : EqDecision FrameType.
Proof. solve_decision. Defined.

Definition frame_code (t : FrameType) : Z :=
  match t with
  | DataFrame => 0 | HeadersFrame => 1 | PriorityFrame => 2 | ResetStreamFrame => 3 | SettingsFrame => 4
  | PushPromiseFrame => 5 | PingFrame => 6 | GoAwayFrame => 7 | WindowUpdateFrame => 8 | ContinuationFrame => 9
  end.

Definition frame_type (c : Z) : option FrameType :=
  match c with
  | 0 => Some DataFrame | 1 => Some HeadersFrame | 2 => Some PriorityFrame | 3 => Some ResetStreamFrame
  | 4 => Some SettingsFrame | 5 => Some PushPromiseFrame | 6 => Some PingFrame | 7 => Some GoAwayFrame
  | 8 => Some WindowUpdateFrame | 9 => Some ContinuationFrame | _ => None
  end.

(** The codes the parser reports; a code received is kept as its number. *)
Inductive H2Error := H2NoError | H2ProtocolError | H2FlowControlError | H2FrameSizeError.

Definition HeaderTableSize : Z := 1.
Definition EnablePush : Z := 2.
Definition MaxConcurrentStreams : Z := 3.
Definition InitialWindowSize : Z := 4.
Definition MaxFrameSize : Z := 5.
Definition MaxHeaderListSize : Z := 6.

Definition END_STREAM : Z := 1.
Definition ACK : Z := 1.
Definition END_HEADERS : Z := 4.
Definition PADDED : Z := 8.
Definition PRIORITY : Z := 32.
Definition has (flags bit : Z) : bool := negb (Z.land flags bit =? 0).

(** [x & ~(1 << 31)] on 32 bits. *)
Definition clear31 (x : Z) : Z := Z.land (u32 x) (2 ^ 31 - 1).

(** ** Big-endian integers: [DataChain::write8] to [write64] and [read16] to [read32] *)

Fixpoint be_bytes (n : nat) (x : Z) : bytes :=
  match n with
  | O => []
  | S n => Z.land (Z.shiftr x (8 * Z.of_nat n)) 255 :: be_bytes n x
  end.

Definition write8 (x : Z) : bytes := be_bytes 1 x.
Definition write16 (x : Z) : bytes := be_bytes 2 x.
Definition write24 (x : Z) : bytes := be_bytes 3 x.
Definition write32 (x : Z) : bytes := be_bytes 4 x.
Definition write64 (x : Z) : bytes := be_bytes 8 x.

(** [n] bytes from a place on, as a number; the rest behind them. *)
Fixpoint be_read (n : nat) (acc : Z) (m : bytes) : result (Z * bytes) :=
  match n, m with
  | O, _ => Ok (acc, m)
  | S _, [] => Raise UndefinedBehaviour
  | S n, b :: m => be_read n (Z.lor (Z.shiftl acc 8) (Z.land b 255)) m
  end.

Definition read8 (m : bytes) : result (Z * bytes) := be_read 1 0 m.
Definition read16 (m : bytes) : result (Z * bytes) := be_read 2 0 m.
Definition read24 (m : bytes) : result (Z * bytes) := be_read 3 0 m.
Definition read32 (m : bytes) : result (Z * bytes) := be_read 4 0 m.

(** ** Generator *)

Record H2Generator := mkH2Generator {
  h2g_sink : bytes;
  h2g_maxFrameSize : Z;
  h2g_headers : HpackGenerator;
}.

(** The constructor asserts a frame size above ten. *)
Definition newH2Generator (maxFrameSize headerTableSize : Z) : result H2Generator :=
  if 9 + 1 <? maxFrameSize then Ok (mkH2Generator [] maxFrameSize (newHpackGenerator headerTableSize))
  else Raise AssertionFailure.

Definition h2g_write (bs : bytes) (g : H2Generator) : H2Generator :=
  mkH2Generator (h2g_sink g ++ bs) (h2g_maxFrameSize g) (h2g_headers g).

Definition h2g_setMaxFrameSize (value : Z) (g : H2Generator) : H2Generator :=
  mkH2Generator (h2g_sink g) (Z.max value 16384) (h2g_headers g).

Definition h2_preface : bytes := str "PRI * HTTP/2.0" ++ [13; 10; 13; 10] ++ str "SM" ++ [13; 10; 13; 10].

Definition generateClientConnectionPreface (g : H2Generator) : H2Generator := h2g_write h2_preface g.

Definition frame_header (t : FrameType) (flags sid payloadSize : Z) : bytes :=
  write24 payloadSize ++ write8 (frame_code t) ++ write8 flags ++ write32 (clear31 sid).

Definition generateFrameHeader (t : FrameType) (flags sid payloadSize : Z) (g : H2Generator) : H2Generator :=
  h2g_write (frame_header t flags sid payloadSize) g.

Definition blen (s : bytes) : Z := Z.of_nat (length s).

(** The [for] loop of [generateData], once for each frame; the last frame gets
    [END_STREAM] in any case, and with [last] set every frame gets it. *)
Fixpoint data_loop (fuel : nat) (sid : Z) (data : bytes) (last : bool) (g : H2Generator) : result H2Generator :=
  match fuel with
  | O => Raise Blocked
  | S fuel =>
      let payloadSize := Z.min (blen data) (h2g_maxFrameSize g) in
      let flags := if negb last && (payloadSize <? blen data) then 0 else END_STREAM in
      let part := take (Z.to_nat payloadSize) data in
      let g := h2g_write part (generateFrameHeader DataFrame flags sid payloadSize g) in
      match drop (Z.to_nat payloadSize) data with [] => Ok g | rest => data_loop fuel sid rest last g end
  end.

Definition generateData (sid : Z) (data : bytes) (last : bool) (g : H2Generator) : result H2Generator :=
  if sid =? 0 then Raise AssertionFailure else data_loop (S (length data)) sid data last g.

Fixpoint continuation_loop (fuel : nat) (sid : Z) (payload : bytes) (g : H2Generator) : result H2Generator :=
  match fuel with
  | O => Raise Blocked
  | S fuel =>
      let max := Z.to_nat (h2g_maxFrameSize g) in
      if h2g_maxFrameSize g <? blen payload then
        continuation_loop fuel sid (drop max payload)
          (h2g_write (take max payload) (generateFrameHeader ContinuationFrame 0 sid (h2g_maxFrameSize g) g))
      else Ok (h2g_write payload (generateFrameHeader ContinuationFrame END_HEADERS sid (blen payload) g))
  end.

Definition generateContinuations (sid : Z) (payload : bytes) (g : H2Generator) : result H2Generator :=
  continuation_loop (S (length payload)) sid payload g.

Definition hpack_field (f : HeaderField) : HpackField := mkHpackField (fld_name f) (fld_value f) (fld_sensitive f).

(** [headerGenerator_.clear()] and the fields one by one. *)
Definition encode_block (fs : list HpackField) (g : H2Generator) : result H2Generator :=
  hg ← generateHeaders fs (hg_clear (h2g_headers g));
  Ok (mkH2Generator (h2g_sink g) (h2g_maxFrameSize g) hg).

Definition priority_fields (dependsOnSID : Z) (isExclusive : bool) (weight : Z) : bytes :=
  if dependsOnSID =? 0 then []
  else write32 (if isExclusive then Z.lor dependsOnSID (2 ^ 31) else clear31 dependsOnSID) ++ write8 weight.

(** A block that fits one frame is announced but not written. *)
Definition h2_generateHeaders_dep (sid : Z) (headers : HeaderFieldList) (dependsOnSID : Z)
    (isExclusive : bool) (weight : Z) (last : bool) (g : H2Generator) : result H2Generator :=
  if sid =? 0 then Raise AssertionFailure else
  g ← encode_block (hpack_field <$> headers) g;
  let payload := hg_block (h2g_headers g) in
  let flags := Z.lor (if last then END_STREAM else 0) (if dependsOnSID =? 0 then 0 else PRIORITY) in
  let max := Z.to_nat (h2g_maxFrameSize g) in
  if blen payload <=? h2g_maxFrameSize g then
    Ok (h2g_write (priority_fields dependsOnSID isExclusive weight)
          (generateFrameHeader HeadersFrame (Z.lor flags END_HEADERS) sid (blen payload) g))
  else
    generateContinuations sid (drop max payload)
      (h2g_write (priority_fields dependsOnSID isExclusive weight ++ take max payload)
        (generateFrameHeader HeadersFrame flags sid (h2g_maxFrameSize g) g)).

(** The overload without a dependency passes [last, 0, false, 0] for the
    parameters [dependsOnSID, isExclusive, weight, last]. *)
Definition h2_generateHeaders (sid : Z) (headers : HeaderFieldList) (last : bool) (g : H2Generator) :
    result H2Generator :=
  h2_generateHeaders_dep sid headers (if last then 1 else 0) false 0 false g.

Definition generatePriority (sid : Z) (exclusive : bool) (dependantStreamID weight : Z) (g : H2Generator) :
    result H2Generator :=
  if negb ((1 <=? weight) && (weight <=? 256)) || (sid =? 0) then Raise AssertionFailure else
  Ok (h2g_write (write32 (Z.lor dependantStreamID (if exclusive then 2 ^ 31 else 0)) ++ write8 (weight - 1))
        (generateFrameHeader PriorityFrame 0 sid 5 g)).

Definition generateResetStream (sid errorCode : Z) (g : H2Generator) : H2Generator :=
  h2g_write (write32 errorCode) (generateFrameHeader ResetStreamFrame 0 sid 4 g).

Definition setting_bytes (s : Z * Z) : bytes := write16 s.1 ++ write32 s.2.

Definition generateSettings (settings : list (Z * Z)) (g : H2Generator) : H2Generator :=
  h2g_write (settings ≫= setting_bytes)
    (generateFrameHeader SettingsFrame 0 0 (Z.of_nat (length settings) * 6) g).

Definition generateSettingsAck (g : H2Generator) : H2Generator := generateFrameHeader SettingsFrame ACK 0 0 g.

(** The accessors of the [HttpRequestInfo] that a promise reads. *)
Record PushInfo := mkPushInfo {
  pi_method : bytes; pi_path : bytes; pi_scheme : bytes; pi_authority : bytes; pi_headers : HeaderFieldList;
}.

Definition push_fields (info : PushInfo) : list HpackField :=
  [mkHpackField (str ":method") (pi_method info) false; mkHpackField (str ":path") (pi_path info) false;
   mkHpackField (str ":scheme") (pi_scheme info) false; mkHpackField (str ":authority") (pi_authority info) false] ++
  (hpack_field <$> filter (λ f, fld_name f ≠ [] ∧ head (fld_name f) ≠ Some 58) (pi_headers info)).

(** The length of the frame leaves out the promised id; a block longer than one
    frame leaves out the id itself. *)
Definition generatePushPromise (sid psid : Z) (info : PushInfo) (g : H2Generator) : result H2Generator :=
  g ← encode_block (push_fields info) g;
  let payload := hg_block (h2g_headers g) in
  let max := Z.to_nat (h2g_maxFrameSize g) in
  if blen payload <=? h2g_maxFrameSize g then
    Ok (h2g_write (write32 (clear31 psid) ++ payload)
          (generateFrameHeader PushPromiseFrame END_HEADERS sid (blen payload) g))
  else
    generateContinuations sid (drop max payload)
      (h2g_write (take max payload) (generateFrameHeader PushPromiseFrame 0 sid (h2g_maxFrameSize g) g)).

Definition generatePing64 (payload : Z) (g : H2Generator) : H2Generator :=
  h2g_write (write64 payload) (generateFrameHeader PingFrame 0 0 8 g).

Definition generatePingAck64 (payload : Z) (g : H2Generator) : H2Generator :=
  h2g_write (write64 payload) (generateFrameHeader PingFrame ACK 0 8 g).

Definition generatePing (payload : bytes) (g : H2Generator) : result H2Generator :=
  if blen payload =? 8 then Ok (h2g_write payload (generateFrameHeader PingFrame 0 0 8 g)) else Raise AssertionFailure.

Definition generatePingAck (payload : bytes) (g : H2Generator) : result H2Generator :=
  if blen payload =? 8 then Ok (h2g_write payload (generateFrameHeader PingFrame ACK 0 8 g)) else Raise AssertionFailure.

Definition generateGoAway (lastStreamID errorCode : Z) (debugData : bytes) (g : H2Generator) : result H2Generator :=
  let debugDataSize := Z.min (u64 (h2g_maxFrameSize g - 8)) (blen debugData) in
  if lastStreamID =? 0 then Raise AssertionFailure else
  Ok (h2g_write (write32 (clear31 lastStreamID) ++ write32 errorCode ++ take (Z.to_nat debugDataSize) debugData)
        (generateFrameHeader GoAwayFrame 0 lastStreamID (debugDataSize + 8) g)).

Definition generateWindowUpdate (sid size : Z) (g : H2Generator) : result H2Generator :=
  if (1 <=? size) && (size <=? 2 ^ 31 - 1)
  then Ok (h2g_write (write32 (clear31 size)) (generateFrameHeader WindowUpdateFrame 0 sid 4 g))
  else Raise AssertionFailure.

(** ** Parser *)

Inductive H2State := ConnectionPreface | Framing.

(** The request that [onRequestBegin] hands over. *)
Record H2Request := mkH2Request {
  hr_headers : HeaderFieldList;
  hr_method : bytes;
  hr_uri : UriInfo;
}.

Inductive h2_event :=
  | OnData (sid : Z) (data : bytes) (last : bool)
  | OnRequestBegin (sid : Z) (noContent : bool) (info : H2Request)
  | OnPushPromise (sid promised : Z) (info : H2Request)
  | OnPriority (sid : Z) (exclusive : bool) (dependency weight : Z)
  | OnResetStream (sid errorCode : Z)
  | OnSettings (settings : list (Z * Z))
  | OnSettingsAck
  | OnPing (data : bytes)
  | OnPingAck (data : bytes)
  | OnGoAway (lastStreamID errorCode : Z) (debugData : bytes)
  | OnWindowUpdate (sid increment : Z)
  | OnConnectionError (e : H2Error) (msg : String.string)
  | OnStreamError (sid : Z) (e : H2Error) (msg : String.string).

Record H2Parser := mkH2Parser {
  h2_state : H2State;
  h2_maxFrameSize : Z;
  h2_maxHeaderTableSize : Z;
  h2_headerContext : DynamicTable;
  h2_pendingHeaders : bytes;
  h2_newestStreamID : Z;
  h2_lastFrameType : FrameType;
  h2_lastStreamID : Z;
  h2_promisedStreamID : option Z;
  h2_dependsOnSID : Z;
  h2_isStreamClosed : bool;
  h2_isExclusiveDependency : bool;
}.

Definition newH2Parser (maxFrameSize maxHeaderTableSize : Z) : H2Parser :=
  mkH2Parser ConnectionPreface maxFrameSize maxHeaderTableSize (newDynamicTable maxHeaderTableSize) [] 0
    DataFrame 0 None 0 false false.

Definition h2_setState (x : H2State) (p : H2Parser) : H2Parser :=
  mkH2Parser x (h2_maxFrameSize p) (h2_maxHeaderTableSize p) (h2_headerContext p) (h2_pendingHeaders p)
    (h2_newestStreamID p) (h2_lastFrameType p) (h2_lastStreamID p) (h2_promisedStreamID p) (h2_dependsOnSID p)
    (h2_isStreamClosed p) (h2_isExclusiveDependency p).
Definition h2_set_table (maxSize : Z) (t : DynamicTable) (p : H2Parser) : H2Parser :=
  mkH2Parser (h2_state p) (h2_maxFrameSize p) maxSize t (h2_pendingHeaders p)
    (h2_newestStreamID p) (h2_lastFrameType p) (h2_lastStreamID p) (h2_promisedStreamID p) (h2_dependsOnSID p)
    (h2_isStreamClosed p) (h2_isExclusiveDependency p).
Definition h2_set_last (t : FrameType) (sid : Z) (p : H2Parser) : H2Parser :=
  mkH2Parser (h2_state p) (h2_maxFrameSize p) (h2_maxHeaderTableSize p) (h2_headerContext p) (h2_pendingHeaders p)
    (h2_newestStreamID p) t sid (h2_promisedStreamID p) (h2_dependsOnSID p)
    (h2_isStreamClosed p) (h2_isExclusiveDependency p).
Definition h2_set_dependency (exclusive : bool) (sid : Z) (p : H2Parser) : H2Parser :=
  mkH2Parser (h2_state p) (h2_maxFrameSize p) (h2_maxHeaderTableSize p) (h2_headerContext p) (h2_pendingHeaders p)
    (h2_newestStreamID p) (h2_lastFrameType p) (h2_lastStreamID p) (h2_promisedStreamID p) sid
    (h2_isStreamClosed p) exclusive.
Definition h2_set_request (sid : Z) (closed : bool) (p : H2Parser) : H2Parser :=
  mkH2Parser (h2_state p) (h2_maxFrameSize p) (h2_maxHeaderTableSize p) (h2_headerContext p) (h2_pendingHeaders p)
    sid (h2_lastFrameType p) (h2_lastStreamID p) (Some 0) (h2_dependsOnSID p)
    closed (h2_isExclusiveDependency p).
Definition h2_set_promised (sid : Z) (p : H2Parser) : H2Parser :=
  mkH2Parser (h2_state p) (h2_maxFrameSize p) (h2_maxHeaderTableSize p) (h2_headerContext p) (h2_pendingHeaders p)
    (h2_newestStreamID p) (h2_lastFrameType p) (h2_lastStreamID p) (Some sid) (h2_dependsOnSID p)
    (h2_isStreamClosed p) (h2_isExclusiveDependency p).
Definition h2_push_pending (bs : bytes) (p : H2Parser) : H2Parser :=
  mkH2Parser (h2_state p) (h2_maxFrameSize p) (h2_maxHeaderTableSize p) (h2_headerContext p)
    (h2_pendingHeaders p ++ bs)
    (h2_newestStreamID p) (h2_lastFrameType p) (h2_lastStreamID p) (h2_promisedStreamID p) (h2_dependsOnSID p)
    (h2_isStreamClosed p) (h2_isExclusiveDependency p).

(** The state, the events in order, and the exception that ends the call. *)
Abbreviation h2_call := (H2Parser * list h2_event * option exn)%type.

Definition report (ev : h2_event) (p : H2Parser) : h2_call := (p, [ev], None).

Definition conn_error (e : H2Error) (msg : String.string) (p : H2Parser) : h2_call := report (OnConnectionError e msg) p.

(** A value read from the payload, or the end of the call. *)
Definition reading {A} (r : result A) (p : H2Parser) (k : A → h2_call) : h2_call :=
  match r with Ok a => k a | Raise e => (p, [], Some e) end.

(** [n] bytes copied from a place on. *)
Definition copy_bytes (n : Z) (m : bytes) : result bytes :=
  if blen m <? n then Raise UndefinedBehaviour else Ok (take (Z.to_nat n) m).

(** [isAnyUpper]: a character that [toupper] leaves alone counts as upper case. *)
Definition isAnyUpper (text : bytes) : bool := existsb (λ ch, negb ((97 <=? ch) && (ch <=? 122))) text.

(** The header block through the HPACK parser: [addHeader] counts malformed names
    and appends to the list, which refuses an empty name. *)
Fixpoint header_loop (fuel : nat) (maxSize : Z) (t : DynamicTable) (pos : bytes) (errors : Z) (l : HeaderFieldList) :
    DynamicTable * Z * HeaderFieldList * option exn :=
  match pos, fuel with
  | [], _ => (t, errors, l, None)
  | _, O => (t, errors, l, Some Blocked)
  | octet :: pos, S fuel =>
      match parse_field maxSize t octet pos with
      | Raise e => (t, errors, l, Some e)
      | Ok (t, fs, pos) =>
          let errors := errors + Z.of_nat (length (filter (λ f, isAnyUpper (hf_name f) = true) fs)) in
          match hl_push_moved ((λ f, mkField (hf_name f) (hf_value f) (hf_sensitive f)) <$> fs) l with
          | Raise e => (t, errors, l, Some e)
          | Ok l => header_loop fuel maxSize t pos errors l
          end
      end
  end.

Definition request_of (headers : HeaderFieldList) : H2Request :=
  mkH2Request headers (hl_get (str ":method") headers) (setUri (hl_get (str ":path") headers) newUriInfo).2.

Definition onRequestBegin (p : H2Parser) : h2_call :=
  let '(t, errors, headers, x) :=
    header_loop (length (h2_pendingHeaders p)) (h2_maxHeaderTableSize p) (h2_headerContext p) (h2_pendingHeaders p) 0 [] in
  let p := h2_set_table (h2_maxHeaderTableSize p) t p in
  match x with
  | Some e => (p, [], Some e)
  | None =>
      if negb (errors =? 0)
      then report (OnStreamError (h2_lastStreamID p) H2ProtocolError "Malformed header name received.") p
      else
        match h2_promisedStreamID p with
        | None => (p, [], Some UndefinedBehaviour)
        | Some promised =>
            if promised =? 0
            then report (OnRequestBegin (h2_lastStreamID p) (h2_isStreamClosed p) (request_of headers)) p
            else report (OnPushPromise (h2_lastStreamID p) promised (request_of headers)) p
        end
  end.

Definition verifyPadding (padding : bytes) : bool := forallb (λ ch, ch =? 0) padding.

(** The padding length, a [char] converted to [size_t], and the whole payload as
    content: [contentLength] is never reduced. *)
Definition parseData (flags sid : Z) (payload : bytes) (p : H2Parser) : h2_call :=
  let contentLength := blen payload in
  reading (if has flags PADDED then '(b, _) ← read8 payload; Ok (u64 (signed 8 b)) else Ok 0) p (λ paddingLength,
  if sid =? 0 then conn_error H2ProtocolError "Invalid stream id 0 on DATA frame." p
  else if negb (paddingLength =? 0) && (contentLength <=? paddingLength)
  then conn_error H2ProtocolError "DATA's padding length is larger than the frame." p
  else if negb (paddingLength =? 0) && negb (verifyPadding (drop (Z.to_nat contentLength) payload))
  then conn_error H2ProtocolError "DATA's padding contains non-zero bytes." p
  else report (OnData sid payload (has flags END_STREAM)) p).

Definition parseHeaders (flags sid : Z) (payload : bytes) (p : H2Parser) : h2_call :=
  reading (if has flags PADDED then read8 payload else Ok (0, payload)) p (λ '(padlen, pos),
  let headerBlockLength := if has flags PRIORITY then u64 (blen payload - 6) else blen payload in
  reading (if has flags PRIORITY then '(dep, pos) ← read32 pos; '(_, pos) ← read8 pos; Ok (Some dep, pos)
           else Ok (None, pos)) p (λ '(dep, pos),
  let p := match dep with
           | Some dep => h2_set_dependency (has dep (2 ^ 31)) (clear31 dep) p
           | None => h2_set_dependency false (h2_dependsOnSID p) p
           end in
  if headerBlockLength <? padlen then conn_error H2ProtocolError "HEADERS padding-length too large." p
  else if sid <=? h2_newestStreamID p
  then conn_error H2ProtocolError "Unexpected stream id for HEADERS frame received." p
  else
    let p := h2_set_request sid (has flags END_STREAM) p in
    reading (copy_bytes (headerBlockLength - padlen) pos) p (λ block,
    let p := h2_push_pending block p in
    if has flags END_HEADERS then onRequestBegin p else (p, [], None)))).

Definition parsePriority (sid : Z) (payload : bytes) (p : H2Parser) : h2_call :=
  if negb (blen payload =? 5)
  then report (OnStreamError sid H2FrameSizeError "PRIORITY frame size must be 5 bytes") p
  else if sid =? 0 then conn_error H2ProtocolError "Invalid stream id 0 on PRIORITY frame." p
  else
    reading (read32 payload) p (λ '(dep, pos),
    (** [payload[5]] *)
    reading (read8 (drop 1 pos)) p (λ '(weight, _),
    report (OnPriority sid (has dep (2 ^ 31)) (clear31 dep) (u32 (signed 8 weight + 1))) p)).

Definition parseResetStream (sid : Z) (payload : bytes) (p : H2Parser) : h2_call :=
  if negb (blen payload =? 4) then conn_error H2FrameSizeError "RST_STREAM frame size must be 4 bytes" p
  else if sid =? 0 then conn_error H2ProtocolError "Invalid stream id 0 on RST_STREAM frame." p
  else if h2_newestStreamID p <? sid then conn_error H2ProtocolError "RST_STREAM received for an idle stream." p
  else reading (read32 payload) p (λ '(code, _), report (OnResetStream sid code) p).

(** [decodeSettings]: the settings, or the error and its text. *)
Fixpoint settings_loop (fuel : nat) (m : bytes) : result (list (Z * Z) + H2Error * String.string) :=
  match m, fuel with
  | [], _ => Ok (inl [])
  | _, O => Raise Blocked
  | _, S fuel =>
      '(id, m) ← read16 m;
      '(value, m) ← read32 m;
      if id =? InitialWindowSize then
        if value <? 2 ^ 31 - 1 then
          rest ← settings_loop fuel m;
          Ok (match rest with inl l => inl ((id, value) :: l) | inr e => inr e end)
        else Ok (inr (H2FlowControlError, "Given SETTINGS_INITIAL_WINDOW_size exceeds valid range."))
      else
        rest ← settings_loop fuel m;
        Ok (match rest with
            | inl l => inl (if (1 <=? id) && (id <=? 6) then (id, value) :: l else l)
            | inr e => inr e
            end)
  end.

Definition decodeSettings (payload : bytes) : result (list (Z * Z) + H2Error * String.string) :=
  if negb (blen payload mod 6 =? 0) then Ok (inr (H2FrameSizeError, "SETTINGS frame contains wrong frame size"))
  else settings_loop (length payload) payload.

(** The settings that concern the parser itself, in order. *)
Fixpoint apply_settings (settings : list (Z * Z)) (p : H2Parser) : H2Parser * option exn :=
  match settings with
  | [] => (p, None)
  | (id, value) :: settings =>
      if id =? HeaderTableSize then
        match dt_setMaxSize value (h2_headerContext p) with
        | Ok t => apply_settings settings (h2_set_table value t p)
        | Raise e => (h2_set_table value (h2_headerContext p) p, Some e)
        end
      else apply_settings settings p
  end.

Definition parseSettings (flags sid : Z) (payload : bytes) (p : H2Parser) : h2_call :=
  if negb (sid =? 0) then conn_error H2ProtocolError "SETTINGS frame received an invalid stream identifier." p
  else if has flags ACK then
    match payload with
    | [] => report OnSettingsAck p
    | _ => conn_error H2FrameSizeError "SETTINGS frame with ACK flags set must not contain any payload." p
    end
  else
    reading (decodeSettings payload) p (λ d,
    match d with
    | inr (e, msg) => conn_error e msg p
    | inl settings =>
        match apply_settings settings p with
        | (p, None) => report (OnSettings settings) p
        | (p, Some e) => (p, [], Some e)
        end
    end).

Definition parsePushPromise (flags : Z) (payload : bytes) (p : H2Parser) : h2_call :=
  let contentLength := blen payload in
  reading (if has flags PADDED then '(b, pos) ← read8 payload; Ok (u64 (signed 8 b), pos) else Ok (0, payload)) p
    (λ '(paddingLength, pos),
  reading (read32 pos) p (λ '(promised, pos),
  let p := h2_set_promised (clear31 promised) p in
  if contentLength <? paddingLength then conn_error H2ProtocolError "PUSH_PROMISE padding-length too large." p
  else
    reading (copy_bytes (contentLength - paddingLength) pos) p (λ block,
    let p := h2_push_pending block p in
    if has flags END_HEADERS then onRequestBegin p else (p, [], None)))).

Definition parsePing (flags : Z) (payload : bytes) (p : H2Parser) : h2_call :=
  if negb (blen payload =? 8) then conn_error H2FrameSizeError "PING frame size must be 8 bytes." p
  else report (if has flags ACK then OnPingAck payload else OnPing payload) p.

Definition parseGoAway (sid : Z) (payload : bytes) (p : H2Parser) : h2_call :=
  if negb (sid =? 0) then conn_error H2ProtocolError "Unepxected stream id on GO_AWAY frame." p
  else if blen payload <? 8 then conn_error H2FrameSizeError "GO_AWAY frame size too small." p
  else
    reading (read32 payload) p (λ '(last, pos),
    reading (read32 pos) p (λ '(code, pos), report (OnGoAway (clear31 last) code pos) p)).

(** A frame of the wrong size is reported and then read all the same. *)
Definition parseWindowUpdate (sid : Z) (payload : bytes) (p : H2Parser) : h2_call :=
  let wrong := if blen payload =? 4 then []
               else [OnConnectionError H2FrameSizeError "WINDOW_UPDATE frame size must be 4 bytes"] in
  match read32 payload with
  | Raise e => (p, wrong, Some e)
  | Ok (x, _) =>
      let increment := clear31 x in
      (p, wrong ++ [if increment =? 0
                    then OnStreamError sid H2ProtocolError "WINDOW_UPDATE received an invalid increment of 0."
                    else OnWindowUpdate sid increment], None)
  end.

(** The payload itself is not added to the pending headers. *)
Definition parseContinuation (flags sid : Z) (payload : bytes) (p : H2Parser) : h2_call :=
  if negb (h2_lastStreamID p =? sid) then conn_error H2ProtocolError "Interleaved CONTINUATION frame received." p
  else if negb (bool_decide (h2_lastFrameType p ∈ [HeadersFrame; ContinuationFrame; PushPromiseFrame]))
  then conn_error H2ProtocolError
    "A CONTINUATION frame must be following a HEADERS, PUSH_PROMISE or CONTINUATION frame." p
  else match payload with
       | [] => conn_error H2FrameSizeError "Payload empty in CONTINUATION frame." p
       | _ => if has flags END_HEADERS then onRequestBegin p else (p, [], None)
       end.

Definition dispatch (t : FrameType) (flags sid : Z) (payload : bytes) (p : H2Parser) : h2_call :=
  match t with
  | DataFrame => parseData flags sid payload p
  | HeadersFrame => parseHeaders flags sid payload p
  | PriorityFrame => parsePriority sid payload p
  | ResetStreamFrame => parseResetStream sid payload p
  | SettingsFrame => parseSettings flags sid payload p
  | PushPromiseFrame => parsePushPromise flags payload p
  | PingFrame => parsePing flags payload p
  | GoAwayFrame => parseGoAway sid payload p
  | WindowUpdateFrame => parseWindowUpdate sid payload p
  | ContinuationFrame => parseContinuation flags sid payload p
  end.

Definition too_large : String.string := "Received frame exceeds negotiated maximum frame size.".

Definition parseFrame (frame : bytes) (p : H2Parser) : h2_call :=
  reading (read24 frame) p (λ '(_, m),
  reading (read8 m) p (λ '(ty, m),
  reading (read8 m) p (λ '(flags, m),
  reading (read32 m) p (λ '(sid, payload),
  let sid := clear31 sid in
  if h2_maxFrameSize p <? blen payload then
    if negb (sid =? 0) then report (OnStreamError sid H2FrameSizeError too_large) p
    else conn_error H2FrameSizeError too_large p
  else
    match frame_type ty with
    | None => (p, [], None)
    | Some t =>
        match dispatch t flags sid payload p with
        | (p, evs, None) => (h2_set_last t sid p, evs, None)
        | (p, evs, Some e) => (p, evs, Some e)
        end
    end)))).

(** [parseFragment]: [m] is the fragment from the offset on. Every round skips
    at least the nine bytes of a frame header; the offset may end up behind the
    fragment. *)
Fixpoint frames_loop (fuel : nat) (offset : Z) (m : bytes) (p : H2Parser) : H2Parser * Z * list h2_event * option exn :=
  if negb (9 <? blen m) then (p, offset, [], None)
  else
    match fuel with
    | O => (p, offset, [], Some Blocked)
    | S fuel =>
        match read24 m with
        | Raise e => (p, offset, [], Some e)
        | Ok (frameSize, _) =>
            match parseFrame m p with
            | (p, evs, Some e) => (p, offset, evs, Some e)
            | (p, evs, None) =>
                let '(p, offset, evs', x) :=
                  frames_loop fuel (offset + frameSize + 9) (drop (Z.to_nat (frameSize + 9)) m) p in
                (p, offset, evs ++ evs', x)
            end
        end
    end.

Definition h2_parseFragment (chunk : bytes) (p : H2Parser) : H2Parser * Z * list h2_event * option exn :=
  match h2_state p with
  | Framing => frames_loop (length chunk) 0 chunk p
  | ConnectionPreface =>
      if bool_decide (take (length h2_preface) chunk = h2_preface)
      then frames_loop (length chunk) (blen h2_preface) (drop (length h2_preface) chunk) (h2_setState Framing p)
      else (p, 0, [OnConnectionError H2ProtocolError "No connection preface found."], None)
  end.

(** ** Flow control *)

Definition FlowMaxValue : Z := 2 ^ 31 - 1.

Definition newFlow : Z := 65536.

(** [MaxValue - available()] in [size_t]. *)
Definition flow_charge (n credits : Z) : bool * Z :=
  if u64 (FlowMaxValue - credits) <? n then (false, credits) else (true, u64 (credits + n)).

Definition flow_take (n credits : Z) : Z := if credits <? n then credits else u64 (credits - n).
