(* ===== verification/Http2Frames.v ===== *)
(** * HTTP/2 frames: what the parser reports

    Whatever arrives, the events of the parser obey the rules of the protocol
    that their frames are checked against ([h2_events_ok]); a frame that the
    generator writes is reported as what it is when it arrives alone
    ([h2_frame_roundtrip]); a flow's credits stay within the window
    ([flow_window]). The lemmas at the end show where the code departs from the
    protocol. *)
From S2P Require Import Prelude HeaderFieldList HpackTables HpackCodec RequestUri Http2.

Local Open Scope string_scope.
Local Open Scope list_scope.
Local Open Scope Z_scope.

(** ** Integers in frames *)

Lemma h2_land_255 b : Z.land b 255 = b mod 256.
Proof. exact (land_low 8 b ltac:(lia)). Qed.

Lemma be_read_bytes n acc x m : 0 ≤ acc →
  be_read n acc (be_bytes n x ++ m) = Ok (acc * 2 ^ (8 * Z.of_nat n) + x mod 2 ^ (8 * Z.of_nat n), m).
Proof.
  revert acc. induction n as [|n IH]; intros acc Ha; cbn [be_bytes be_read app].
  { change (2 ^ (8 * Z.of_nat 0)) with 1. rewrite Z.mod_1_r. f_equal. f_equal. lia. }
  set (k := 8 * Z.of_nat n). replace (8 * Z.of_nat (S n)) with (k + 8) by lia.
  assert (0 ≤ k) by lia. rewrite !h2_land_255, Z.mod_mod, Z.shiftr_div_pow2 by lia.
  assert (0 ≤ x / 2 ^ k mod 256 < 256) as Hb by (apply Z.mod_pos_bound; lia).
  rewrite Z.lor_comm, (lor_shiftl_add 8) by (try exact Hb; lia). rewrite IH by lia. fold k.
  f_equal. f_equal. rewrite Z.pow_add_r by lia. change (2 ^ 8) with 256.
  rewrite (Z.rem_mul_r x (2 ^ k) 256) by lia. ring.
Qed.

Lemma be_bytes_length n x : length (be_bytes n x) = n.
Proof. induction n; cbn; congruence. Qed.

Lemma be_bytes_bytes n x : all_bytes (be_bytes n x).
Proof.
  induction n as [|n IH]; [constructor|]. constructor; [|exact IH]. rewrite h2_land_255.
  exact (Z.mod_pos_bound _ 256 ltac:(lia)).
Qed.

Lemma be_read_range n : ∀ acc m x m', 0 ≤ acc → be_read n acc m = Ok (x, m') →
  acc * 2 ^ (8 * Z.of_nat n) ≤ x < (acc + 1) * 2 ^ (8 * Z.of_nat n) ∧ length m = (n + length m')%nat ∧ drop n m = m'.
Proof.
  induction n as [|n IH]; intros acc m x m' Ha; cbn [be_read].
  { intros [= <- <-]. change (2 ^ (8 * Z.of_nat 0)) with 1. split; [lia|done]. }
  destruct m as [|b m]; [done|]. rewrite h2_land_255.
  assert (0 ≤ b mod 256 < 256) as Hb by (apply Z.mod_pos_bound; lia).
  rewrite Z.lor_comm, (lor_shiftl_add 8) by (try exact Hb; lia). change (2 ^ 8) with 256. intros H.
  apply IH in H as (Hr & Hl & Hd); [|lia]. split; [|split; [cbn; lia|done]].
  replace (8 * Z.of_nat (S n)) with (8 + 8 * Z.of_nat n) by lia. rewrite Z.pow_add_r by lia. change (2 ^ 8) with 256.
  pose proof (Z.pow_pos_nonneg 2 (8 * Z.of_nat n)). nia.
Qed.

Lemma clear31_range x : 0 ≤ clear31 x < 2 ^ 31.
Proof.
  unfold clear31. rewrite (land_low 31) by lia. apply Z.mod_pos_bound. lia.
Qed.

Lemma clear31_id x : 0 ≤ x < 2 ^ 31 → clear31 x = x.
Proof.
  intros H. unfold clear31. rewrite (land_low 31) by lia. unfold unsigned.
  rewrite (Z.mod_small x (2 ^ 32)) by lia. apply Z.mod_small. lia.
Qed.

Lemma read32_range m x m' : read32 m = Ok (x, m') → fits 32 x.
Proof. intros H. apply be_read_range in H as (H & _); [|lia]. red. lia. Qed.

(** ** Requests of which the line is lost *)

(** The request line of no request arrives: the names of its fields start with a
    colon, which counts as an upper case letter. *)
Lemma lower_name_no_pseudo name s : isAnyUpper name = false → iequals_str name (58 :: s) = false.
Proof.
  unfold iequals_str. destruct name as [|c name]; [done|]. cbn [isAnyUpper existsb strncasecmp_eq].
  intros H. apply orb_false_iff in H as [H _]. apply negb_false_iff in H. apply andb_true_iff in H as [H1 H2].
  unfold lower_byte at 1. rewrite (proj2 (Z.leb_gt c 90)) by lia. rewrite andb_false_r.
  rewrite (proj2 (Z.eqb_neq c (lower_byte 58))) by (cbn; lia). by rewrite andb_false_l, andb_false_r.
Qed.

Lemma no_pseudo_get l s : Forall (λ f, isAnyUpper (fld_name f) = false) l → hl_get (58 :: s) l = [].
Proof. induction 1 as [|f l Hf _ IH]; [done|]. cbn [hl_get]. by rewrite lower_name_no_pseudo. Qed.

Lemma hl_push_moved_app fs : ∀ l l', hl_push_moved fs l = Ok l' → l' = l ++ fs.
Proof.
  induction fs as [|f fs IH]; intros l l'; cbn [hl_push_moved]; [intros [= <-]; by rewrite app_nil_r|].
  unfold hl_push_field. destruct (fld_name f); [done|]. cbn [mbind result_bind]. intros H. apply IH in H as ->.
  by rewrite <-app_assoc.
Qed.

Lemma header_loop_names fuel maxSize : ∀ t pos errors l t' errors' l',
  header_loop fuel maxSize t pos errors l = (t', errors', l', None) →
  errors ≤ errors' ∧ (errors' = errors → Forall (λ f, isAnyUpper (fld_name f) = false) l →
    Forall (λ f, isAnyUpper (fld_name f) = false) l').
Proof.
  induction fuel as [|fuel IH]; intros t pos errors l t' errors' l'; destruct pos as [|octet pos]; cbn [header_loop];
    try done; [intros [= _ <- <-]; split; [lia|done]..|].
  destruct (parse_field maxSize t octet pos) as [[[t1 fs] pos1]|]; [|done].
  set (n := Z.of_nat (length (filter (λ f, isAnyUpper (hf_name f) = true) fs))).
  destruct (hl_push_moved _ l) as [l1|] eqn:Hp; [|done]. apply hl_push_moved_app in Hp as ->. intros H.
  apply IH in H as [Hle Hok]. split; [lia|]. intros -> Hl. apply Hok; [lia|].
  apply Forall_app. split; [done|]. apply Forall_fmap.
  assert (filter (λ f, isAnyUpper (hf_name f) = true) fs = []) as Hnil by (apply length_zero_iff_nil; lia).
  apply List.Forall_forall. intros f Hf. cbn [fld_name compose]. apply not_true_is_false. intros Ht.
  assert (f ∈ filter (λ f, isAnyUpper (hf_name f) = true) fs) as Hin by (apply list_elem_of_filter; split; [done|by apply list_elem_of_In]).
  rewrite Hnil in Hin. by apply not_elem_of_nil in Hin.
Qed.

(** A request as it arrives: fields with names of lower case letters alone, so
    without pseudo fields, and neither a method nor a URI. *)
Definition lower_name (name : bytes) : bool := forallb (λ c, (97 <=? c) && (c <=? 122)) name.
Definition plain_request (r : H2Request) : Prop :=
  hr_method r = [] ∧ hr_uri r = (setUri [] newUriInfo).2 ∧ Forall (λ f, lower_name (fld_name f) = true) (hr_headers r).

Lemma request_of_ok headers : Forall (λ f, isAnyUpper (fld_name f) = false) headers → plain_request (request_of headers).
Proof.
  intros H. unfold request_of. split; cbn [hr_method hr_uri hr_headers]; [|split].
  - change (str ":method") with (58 :: str "method"). by rewrite no_pseudo_get.
  - change (str ":path") with (58 :: str "path"). by rewrite no_pseudo_get.
  - eapply list.Forall_impl; [exact H|]. intros f. unfold isAnyUpper, lower_name. induction (fld_name f) as [|c n IH]; [done|]. cbn.
    rewrite orb_false_iff, negb_false_iff. intros [Hc Hn]. rewrite Hc. auto.
Qed.

(** ** Every event obeys its frame's rules *)

Definition setting_ok (s : Z * Z) : Prop :=
  1 ≤ s.1 ≤ 6 ∧ fits 32 s.2 ∧ (s.1 = InitialWindowSize → s.2 < 2 ^ 31 - 1).

Definition event_ok (newest : Z) (ev : h2_event) : Prop :=
  match ev with
  | OnData sid _ _ => sid ≠ 0
  | OnRequestBegin _ _ info => plain_request info
  | OnPriority _ _ _ _ => False
  | OnResetStream sid code => 0 < sid ≤ newest ∧ fits 32 code
  | OnSettings settings => Forall setting_ok settings
  | OnPing data | OnPingAck data => length data = 8%nat
  | OnGoAway last code _ => fits 31 last ∧ fits 32 code
  | OnWindowUpdate _ increment => 1 ≤ increment < 2 ^ 31
  | OnPushPromise _ promised info => 0 < promised ∧ plain_request info
  | _ => True
  end.

Lemma event_ok_mono n n' ev : n ≤ n' → event_ok n ev → event_ok n' ev.
Proof. destruct ev; cbn; intuition lia. Qed.

(** The members the rules depend on. *)
Definition promised_ok (p : H2Parser) : Prop := ∀ sid, h2_promisedStreamID p = Some sid → 0 ≤ sid.

(** A call reports proper events and never lets the newest stream id fall. *)
Definition h2_good (p : H2Parser) (c : h2_call) : Prop :=
  let '(p', evs, _) := c in
  promised_ok p' ∧ h2_newestStreamID p ≤ h2_newestStreamID p' ∧ Forall (event_ok (h2_newestStreamID p')) evs.

Lemma good_report p ev : promised_ok p → event_ok (h2_newestStreamID p) ev → h2_good p (report ev p).
Proof. intros Hp H. split; [done|]. split; [lia|]. by constructor. Qed.

Lemma good_error p e msg : promised_ok p → h2_good p (conn_error e msg p).
Proof. intros Hp. by apply good_report. Qed.

Lemma good_reading {A} (r : result A) p k : promised_ok p →
  (∀ a, r = Ok a → h2_good p (k a)) → h2_good p (reading r p k).
Proof. intros Hp Hk. destruct r as [a|e]; [by apply Hk|]. split; [done|]. split; [lia|constructor]. Qed.

Lemma good_trans p q c : h2_newestStreamID p ≤ h2_newestStreamID q → h2_good q c → h2_good p c.
Proof. intros H. destruct c as [[p' evs] x]. intros (Hp & Hn & He). split; [done|]. split; [lia|done]. Qed.

Lemma good_quiet p q x : promised_ok q → h2_newestStreamID p ≤ h2_newestStreamID q → h2_good p (q, [], x).
Proof. intros Hq H. split; [done|]. split; [done|constructor]. Qed.

Create HintDb h2.
#[export] Hint Resolve good_report good_error good_quiet : h2.

Lemma onRequestBegin_good p : promised_ok p → h2_good p (onRequestBegin p).
Proof.
  intros Hp. unfold onRequestBegin. destruct (header_loop _ _ _ _ _ _) as [[[t errors] headers] x] eqn:El.
  set (q := h2_set_table (h2_maxHeaderTableSize p) t p).
  assert (promised_ok q) as Hq by exact Hp. assert (h2_newestStreamID p ≤ h2_newestStreamID q) by done.
  destruct x; [by apply good_quiet|]. destruct (Z.eqb_spec errors 0) as [->|]; cbn [negb].
  2:{ eapply good_trans; [done|]. by apply good_report. }
  apply header_loop_names in El as [_ Hok]. assert (plain_request (request_of headers)) as Hreq by (apply request_of_ok, Hok; [done|constructor]).
  destruct (h2_promisedStreamID q) as [promised|] eqn:E; [|by apply good_quiet].
  eapply good_trans; [done|]. destruct (Z.eqb_spec promised 0); apply good_report; try done.
  split; [|done]. specialize (Hq _ E). lia.
Qed.

Lemma parseData_good flags sid payload p : promised_ok p → h2_good p (parseData flags sid payload p).
Proof.
  intros Hp. unfold parseData. apply good_reading; [done|]. intros n _. destruct (Z.eqb_spec sid 0); [by apply good_error|].
  repeat case_match; auto with h2.
Qed.

Lemma parseHeaders_good flags sid payload p : promised_ok p → h2_good p (parseHeaders flags sid payload p).
Proof.
  intros Hp. unfold parseHeaders. apply good_reading; [done|]. intros [padlen pos] _.
  apply good_reading; [done|]. intros [dep pos'] _.
  set (q := match dep with Some _ => _ | None => _ end).
  assert (promised_ok q) as Hq by (by destruct dep).
  assert (h2_newestStreamID q = h2_newestStreamID p) as Hn by by destruct dep.
  eapply (good_trans p q); [lia|]. match goal with |- h2_good q (if ?b then _ else _) => destruct b end; [by apply good_error|].
  destruct (Z.leb_spec sid (h2_newestStreamID q)); [by apply good_error|].
  set (q' := h2_set_request sid _ q). assert (promised_ok q') as Hq' by (intros ? [= <-]; lia).
  eapply (good_trans q q'); [cbn; lia|]. apply good_reading; [done|]. intros block _.
  eapply (good_trans q' (h2_push_pending block q')); [done|].
  destruct (has flags END_HEADERS); [by apply onRequestBegin_good|by apply good_quiet].
Qed.

(** The weight of a PRIORITY frame is read from behind its five bytes. *)
Lemma priority_reads_behind sid payload p : length payload = 5%nat → sid ≠ 0 →
  parsePriority sid payload p = (p, [], Some UndefinedBehaviour).
Proof.
  intros Hl Hs. unfold parsePriority. unfold blen. rewrite Hl, (proj2 (Z.eqb_neq sid 0)) by done. cbn [Z.of_nat Z.eqb negb].
  destruct payload as [|a [|b [|c [|d [|e [|? ?]]]]]]; try done.
Qed.

Lemma parsePriority_good sid payload p : promised_ok p → h2_good p (parsePriority sid payload p).
Proof.
  intros Hp. destruct (Z.eqb_spec sid 0) as [->|Hs]; [|destruct (decide (length payload = 5%nat)) as [Hl|Hl]].
  - unfold parsePriority. case_match; [by apply good_report|by apply good_error].
  - rewrite priority_reads_behind by done. by apply good_quiet.
  - unfold parsePriority. rewrite (proj2 (Z.eqb_neq (blen payload) 5)) by (unfold blen; lia). by apply good_report.
Qed.

Lemma parseResetStream_good sid payload p : promised_ok p → 0 ≤ sid → h2_good p (parseResetStream sid payload p).
Proof.
  intros Hp Hs. unfold parseResetStream. case_match; [by apply good_error|].
  destruct (Z.eqb_spec sid 0); [by apply good_error|].
  destruct (Z.ltb_spec (h2_newestStreamID p) sid); [by apply good_error|].
  apply good_reading; [done|]. intros [code m] Hr. apply good_report; [done|]. split; [lia|by eapply read32_range].
Qed.

Lemma settings_loop_ok fuel : ∀ m l, settings_loop fuel m = Ok (inl l) → Forall setting_ok l.
Proof.
  induction fuel as [|fuel IH]; intros [|b m] l; cbn [settings_loop]; try done;
    [intros [= E]; rewrite <-E; constructor..|].
  intros H. apply bind_Ok in H as ([id m1] & H1 & H). apply bind_Ok in H as ([value m2] & H2 & H).
  apply read32_range in H2 as Hv.
  assert (0 ≤ id) as Hid by (apply be_read_range in H1 as (H1 & _); lia).
  destruct (Z.eqb_spec id InitialWindowSize) as [->|Hne].
  - destruct (Z.ltb_spec value (2 ^ 31 - 1)); [|done].
    apply bind_Ok in H as ([l'|e] & H3 & H); [|discriminate H]; injection H as <-. constructor; [|by eapply IH].
    split; [cbn; unfold InitialWindowSize; lia|done].
  - apply bind_Ok in H as ([l'|e] & H3 & H); [|discriminate H]; injection H as <-. apply IH in H3.
    destruct ((1 <=? id) && (id <=? 6)) eqn:E; [|done]. constructor; [|done]. apply andb_true_iff in E as [E1 E2].
    split; [cbn; lia|]. by split.
Qed.

Lemma apply_settings_kept settings : ∀ p, let q := (apply_settings settings p).1 in
  h2_newestStreamID q = h2_newestStreamID p ∧ h2_promisedStreamID q = h2_promisedStreamID p.
Proof.
  induction settings as [|[id value] settings IH]; intros p; [done|]. cbn [apply_settings].
  case_match; [|apply IH]. destruct (dt_setMaxSize value (h2_headerContext p)); [|done]. apply (IH (h2_set_table _ _ p)).
Qed.

Lemma parseSettings_good flags sid payload p : promised_ok p → h2_good p (parseSettings flags sid payload p).
Proof.
  intros Hp. unfold parseSettings. case_match; [by apply good_error|]. case_match.
  { destruct payload; [by apply good_report|by apply good_error]. }
  apply good_reading; [done|]. intros [settings|[e msg]] Hd; [|by apply good_error].
  unfold decodeSettings in Hd. case_match; [done|]. apply settings_loop_ok in Hd.
  destruct (apply_settings_kept settings p) as [Hn Hk]. destruct (apply_settings settings p) as [q x]. cbn [fst] in *.
  assert (promised_ok q) by (intros s Hs; apply Hp; congruence).
  eapply (good_trans p q); [lia|]. destruct x; [by apply good_quiet|by apply good_report].
Qed.

Lemma parsePushPromise_good flags payload p : promised_ok p → h2_good p (parsePushPromise flags payload p).
Proof.
  intros Hp. unfold parsePushPromise. apply good_reading; [done|]. intros [padding pos] _.
  apply good_reading; [done|]. intros [promised pos'] _. set (q := h2_set_promised _ p).
  assert (promised_ok q) as Hq by (intros ? [= <-]; apply clear31_range).
  eapply (good_trans p q); [done|]. case_match; [by apply good_error|]. apply good_reading; [done|]. intros block _.
  eapply (good_trans q (h2_push_pending block q)); [done|].
  destruct (has flags END_HEADERS); [by apply onRequestBegin_good|by apply good_quiet].
Qed.

Lemma parsePing_good flags payload p : promised_ok p → h2_good p (parsePing flags payload p).
Proof.
  intros Hp. unfold parsePing. destruct (Z.eqb_spec (blen payload) 8) as [E|]; [|by apply good_error].
  apply good_report; [done|]. unfold blen in E. case_match; cbn; lia.
Qed.

Lemma parseGoAway_good sid payload p : promised_ok p → h2_good p (parseGoAway sid payload p).
Proof.
  intros Hp. unfold parseGoAway. case_match; [by apply good_error|]. case_match; [by apply good_error|].
  apply good_reading; [done|]. intros [last pos] _. apply good_reading; [done|]. intros [code pos'] Hr.
  apply good_report; [done|]. split; [apply clear31_range|by eapply read32_range].
Qed.

Lemma parseWindowUpdate_good sid payload p : promised_ok p → h2_good p (parseWindowUpdate sid payload p).
Proof.
  intros Hp. unfold parseWindowUpdate.
  set (wrong := if blen payload =? 4 then _ else _).
  assert (Forall (event_ok (h2_newestStreamID p)) wrong) as Hw by (unfold wrong; case_match; by repeat constructor).
  destruct (read32 payload) as [[x m]|]; (split; [done|]; split; [lia|]); [|done].
  apply Forall_app. split; [done|]. constructor; [|constructor]. pose proof (clear31_range x).
  destruct (Z.eqb_spec (clear31 x) 0); cbn; [done|lia].
Qed.

Lemma parseContinuation_good flags sid payload p : promised_ok p → h2_good p (parseContinuation flags sid payload p).
Proof.
  intros Hp. unfold parseContinuation. case_match; [by apply good_error|]. case_match; [by apply good_error|].
  destruct payload; [by apply good_error|]. case_match; [by apply onRequestBegin_good|by apply good_quiet].
Qed.

#[export] Hint Resolve parseData_good parseHeaders_good parsePriority_good parseResetStream_good parseSettings_good
  parsePushPromise_good parsePing_good parseGoAway_good parseWindowUpdate_good parseContinuation_good : h2.

Lemma parseFrame_good frame p : promised_ok p → h2_good p (parseFrame frame p).
Proof.
  intros Hp. unfold parseFrame. do 4 (apply good_reading; [done|]; intros [? ?] _).
  case_match; [case_match; [by apply good_report|by apply good_error]|].
  destruct (frame_type z0) as [t|]; [|by apply good_quiet].
  assert (0 ≤ clear31 z2) by apply clear31_range.
  assert (h2_good p (dispatch t z1 (clear31 z2) l2 p)) as Hg by (destruct t; cbn [dispatch]; auto with h2).
  destruct (dispatch t z1 (clear31 z2) l2 p) as [[q evs] [e|]]; exact Hg.
Qed.

Lemma frames_loop_good fuel : ∀ offset m p, promised_ok p →
  let '(p', _, evs, _) := frames_loop fuel offset m p in
  promised_ok p' ∧ h2_newestStreamID p ≤ h2_newestStreamID p' ∧ Forall (event_ok (h2_newestStreamID p')) evs.
Proof.
  induction fuel as [|fuel IH]; intros offset m p Hp; cbn [frames_loop];
    (destruct (negb (9 <? blen m)); [by apply (good_quiet p p None)|]).
  { by apply (good_quiet p p None). }
  destruct (read24 m) as [[size m']|]; [|by apply (good_quiet p p None)].
  pose proof (parseFrame_good m p Hp) as Hg. destruct (parseFrame m p) as [[q evs] [e|]]; [exact Hg|].
  destruct Hg as (Hq & Hn & He). specialize (IH (offset + size + 9) (drop (Z.to_nat (size + 9)) m) q Hq).
  destruct (frames_loop fuel _ _ q) as [[[p' off] evs'] x]. destruct IH as (Hp' & Hn' & He').
  split; [done|]. split; [lia|]. apply Forall_app. split; [|done]. eapply Forall_impl; [|exact He].
  intros ev. by apply event_ok_mono.
Qed.



(** ** Frames of the generator *)

Lemma read8_write x m : read8 (write8 x ++ m) = Ok (x mod 2 ^ 8, m).
Proof. exact (be_read_bytes 1 0 x m ltac:(lia)). Qed.
Lemma read16_write x m : read16 (write16 x ++ m) = Ok (x mod 2 ^ 16, m).
Proof. exact (be_read_bytes 2 0 x m ltac:(lia)). Qed.
Lemma read24_write x m : read24 (write24 x ++ m) = Ok (x mod 2 ^ 24, m).
Proof. exact (be_read_bytes 3 0 x m ltac:(lia)). Qed.
Lemma read32_write x m : read32 (write32 x ++ m) = Ok (x mod 2 ^ 32, m).
Proof. exact (be_read_bytes 4 0 x m ltac:(lia)). Qed.

Lemma frame_type_code t : frame_type (frame_code t) = Some t.
Proof. by destruct t. Qed.

Definition is_stream_id (sid : Z) : Prop := 0 ≤ sid < 2 ^ 31.

Lemma parseFrame_header t flags sid n payload p :
  fits 8 flags → is_stream_id sid → blen payload ≤ h2_maxFrameSize p →
  parseFrame (frame_header t flags sid n ++ payload) p =
    match dispatch t flags sid payload p with
    | (p, evs, None) => (h2_set_last t sid p, evs, None)
    | (p, evs, Some e) => (p, evs, Some e)
    end.
Proof.
  intros Hf Hs Hl. unfold parseFrame, frame_header, is_stream_id in *. rewrite <-!app_assoc, read24_write. cbn [reading].
  rewrite read8_write. cbn [reading]. rewrite read8_write. cbn [reading]. rewrite read32_write. cbn [reading].
  rewrite (clear31_id sid) by done. rewrite (Z.mod_small sid) by lia. rewrite clear31_id by done.
  rewrite (proj2 (Z.ltb_ge _ _)) by lia. rewrite (Z.mod_small flags) by exact Hf.
  replace (frame_code t mod 2 ^ 8) with (frame_code t) by by destruct t. by rewrite frame_type_code.
Qed.

(** A fragment that holds exactly one frame, with a payload. *)
Lemma parse_single t flags sid payload p q evs :
  fits 8 flags → is_stream_id sid → payload ≠ [] → blen payload ≤ h2_maxFrameSize p → blen payload < 2 ^ 24 →
  h2_state p = Framing → dispatch t flags sid payload p = (q, evs, None) →
  h2_parseFragment (frame_header t flags sid (blen payload) ++ payload) p =
    (h2_set_last t sid q, blen payload + 9, evs, None).
Proof.
  intros Hf Hs Hne Hmax H24 Hst Hd. unfold h2_parseFragment. rewrite Hst.
  set (m := frame_header t flags sid (blen payload) ++ payload).
  assert (length m = 9 + length payload)%nat as Hlen by done.
  assert (0 < length payload)%nat by (destruct payload; [done|cbn; lia]).
  rewrite Hlen. cbn [Nat.add frames_loop]. unfold blen at 1. rewrite Hlen.
  rewrite (proj2 (Z.ltb_lt _ _)) by lia. cbn [negb].
  assert (read24 m = Ok (blen payload, write8 (frame_code t) ++ write8 flags ++ write32 (clear31 sid) ++ payload)) as ->.
  { unfold m, frame_header. rewrite <-!app_assoc, read24_write. rewrite Z.mod_small; [done|]. unfold blen in *. lia. }
  unfold m. rewrite parseFrame_header, Hd by done.
  rewrite drop_ge by (fold m; rewrite Hlen; unfold blen; lia).
  cbn [frames_loop]. change (negb (9 <? blen [])) with true. cbn iota. by rewrite app_nil_r.
Qed.

(** What one end sends, and what the other should hear of it. *)
Inductive sent :=
  | SendData (sid : Z) (data : bytes)
  | SendReset (sid code : Z)
  | SendSettings (settings : list (Z * Z))
  | SendPing (data : bytes)
  | SendPingAck (data : bytes)
  | SendWindowUpdate (sid size : Z).

Definition send_frame_of (s : sent) (g : H2Generator) : result H2Generator :=
  match s with
  | SendData sid data => generateData sid data true g
  | SendReset sid code => Ok (generateResetStream sid code g)
  | SendSettings settings => Ok (generateSettings settings g)
  | SendPing data => generatePing data g
  | SendPingAck data => generatePingAck data g
  | SendWindowUpdate sid size => generateWindowUpdate sid size g
  end.

Definition heard (s : sent) : h2_event :=
  match s with
  | SendData sid data => OnData sid data true
  | SendReset sid code => OnResetStream sid code
  | SendSettings settings => OnSettings settings
  | SendPing data => OnPing data
  | SendPingAck data => OnPingAck data
  | SendWindowUpdate sid size => OnWindowUpdate sid size
  end.

Definition sendable (p : H2Parser) (g : H2Generator) (s : sent) : Prop :=
  match s with
  | SendData sid data => 0 < sid < 2 ^ 31 ∧ data ≠ [] ∧ blen data ≤ h2g_maxFrameSize g ∧ blen data ≤ h2_maxFrameSize p
  | SendReset sid code => 0 < sid < 2 ^ 31 ∧ sid ≤ h2_newestStreamID p ∧ fits 32 code
  | SendSettings settings =>
      settings ≠ [] ∧ Forall setting_ok settings ∧ 6 * Z.of_nat (length settings) ≤ h2_maxFrameSize p
  | SendPing data | SendPingAck data => length data = 8%nat
  | SendWindowUpdate sid size => is_stream_id sid ∧ 1 ≤ size < 2 ^ 31
  end.

Lemma settings_loop_write settings : ∀ fuel, Forall setting_ok settings →
  (length (settings ≫= setting_bytes) ≤ fuel)%nat → settings_loop fuel (settings ≫= setting_bytes) = Ok (inl settings).
Proof.
  induction settings as [|[id value] settings IH]; intros fuel Hok Hf; [by destruct fuel|].
  apply Forall_cons_iff in Hok as [(Hid & Hv & Hw) Hok]. cbn [fst snd] in *.
  change (((id, value) :: settings) ≫= setting_bytes) with
    ((write16 id ++ write32 value) ++ (settings ≫= setting_bytes)) in *.
  rewrite <-app_assoc in *. destruct fuel as [|fuel]; [cbn in Hf; lia|].
  assert (length (settings ≫= setting_bytes) ≤ fuel)%nat as Hf' by (rewrite !length_app in Hf; cbn in Hf; lia).
  cbn [settings_loop]. set (m := write16 id ++ write32 value ++ (settings ≫= setting_bytes)) in *.
  assert (m ≠ []) by done. destruct m as [|b m'] eqn:E; [done|]. rewrite <-E. unfold m in E |- *. clear E.
  rewrite read16_write. cbn [mbind result_bind]. rewrite read32_write. cbn [mbind result_bind].
  rewrite (Z.mod_small id) by lia. rewrite (Z.mod_small value) by exact Hv. rewrite IH by done.
  cbn [mbind result_bind]. destruct (Z.eqb_spec id InitialWindowSize) as [->|Hne].
  - by rewrite (proj2 (Z.ltb_lt _ _)) by (by apply Hw).
  - by rewrite !(proj2 (Z.leb_le _ _)) by lia.
Qed.

(** A parser behind the preface, with a frame limit the protocol allows. *)
Definition h2_ready (p : H2Parser) : Prop :=
  h2_state p = Framing ∧ 8 ≤ h2_maxFrameSize p < 2 ^ 24 ∧ dt_wf (h2_headerContext p).

Lemma apply_settings_ok settings : ∀ p, Forall setting_ok settings → dt_wf (h2_headerContext p) →
  ∃ q, apply_settings settings p = (q, None) ∧ h2_newestStreamID q = h2_newestStreamID p.
Proof.
  induction settings as [|[id value] settings IH]; intros p Hok Hwf; [by exists p|].
  apply Forall_cons_iff in Hok as [(_ & Hv & _) Hok]. cbn [apply_settings].
  destruct (id =? HeaderTableSize); [|by apply IH].
  destruct (evict_spec (mkDynamicTable value (dt_size (h2_headerContext p)) (dt_entries (h2_headerContext p))))
    as (t' & Ht & _ & Hwf' & _); [apply Hwf|apply Hv|].
  unfold dt_setMaxSize. rewrite Ht. destruct (IH (h2_set_table value t' p) Hok Hwf') as (q & Hq & Hn). by exists q.
Qed.

Lemma send_settings_frame settings p g :
  dt_wf (h2_headerContext p) → settings ≠ [] → Forall setting_ok settings →
  6 * Z.of_nat (length settings) ≤ h2_maxFrameSize p →
  ∃ g' t flags sid payload q, Ok (generateSettings settings g) = Ok g' ∧
    h2g_sink g' = h2g_sink g ++ frame_header t flags sid (blen payload) ++ payload ∧
    fits 8 flags ∧ 0 ≤ sid < 2 ^ 31 ∧ payload ≠ [] ∧ blen payload ≤ h2_maxFrameSize p ∧
    dispatch t flags sid payload p = (q, [OnSettings settings], None) ∧ h2_newestStreamID q = h2_newestStreamID p.
Proof.
  intros Hwf Hne Hok Hlen.
  assert (length (settings ≫= setting_bytes) = 6 * length settings)%nat as Hl.
  { clear. induction settings as [|s settings IH]; [done|]. cbn [mbind list_bind length]. rewrite length_app, IH. cbn. lia. }
  destruct (apply_settings_ok settings p Hok Hwf) as (q & Hq & Hn).
  eexists _, SettingsFrame, 0, 0, (settings ≫= setting_bytes), q. split; [done|].
  cbn [h2g_sink h2g_write generateFrameHeader generateSettings]. rewrite <-app_assoc.
  replace (Z.of_nat (length settings) * 6) with (blen (settings ≫= setting_bytes)) by (unfold blen; lia).
  split_and!; try done; try lia; [intros E; rewrite E in Hl; destruct settings; [done|cbn in Hl; lia]|unfold blen; lia|].
  cbn [dispatch]. unfold parseSettings, decodeSettings. cbn [Z.eqb negb]. change (has 0 ACK) with false. cbn iota.
  replace (blen (settings ≫= setting_bytes) mod 6) with 0.
  2:{ symmetry. apply Z.mod_divide; [done|]. exists (Z.of_nat (length settings)). unfold blen. lia. }
  cbn [Z.eqb negb]. rewrite settings_loop_write by done. cbn [reading]. by rewrite Hq.
Qed.

(** The bytes of each frame, and what [dispatch] makes of its payload. *)
Lemma send_frame s p g : h2_ready p → sendable p g s →
  ∃ g' t flags sid payload q, send_frame_of s g = Ok g' ∧
    h2g_sink g' = h2g_sink g ++ frame_header t flags sid (blen payload) ++ payload ∧
    fits 8 flags ∧ is_stream_id sid ∧ payload ≠ [] ∧ blen payload ≤ h2_maxFrameSize p ∧
    dispatch t flags sid payload p = (q, [heard s], None) ∧ h2_newestStreamID q = h2_newestStreamID p.
Proof.
  intros (Hst & Hmax & Hwf) Hs. unfold sendable, is_stream_id in *.
  destruct s as [sid data|sid code|settings|data|data|sid size]; cbn [send_frame_of] in *.
  - destruct Hs as (Hsid & Hne & Hg & Hp). unfold generateData. rewrite (proj2 (Z.eqb_neq sid 0)) by lia. cbn [data_loop].
    rewrite Z.min_l, Z.ltb_irrefl by done. cbn [negb andb]. rewrite take_ge, drop_ge by (unfold blen; lia).
    eexists _, DataFrame, 1, sid, data, p. split; [done|]. cbn [h2g_sink h2g_write generateFrameHeader].
    rewrite <-app_assoc. split_and!; try done; try lia. cbn [dispatch parseData]. unfold parseData.
    cbn [has PADDED reading]. change (has 1 PADDED) with false. cbn [reading].
    by rewrite (proj2 (Z.eqb_neq sid 0)) by lia.
  - destruct Hs as (Hsid & Hn & Hc). eexists _, ResetStreamFrame, 0, sid, (write32 code), p. split; [done|].
    cbn [h2g_sink h2g_write generateFrameHeader generateResetStream]. rewrite <-app_assoc.
    change (blen (write32 code)) with 4.
    split_and!; try done; try lia. cbn [dispatch]. unfold parseResetStream. change (blen (write32 code)) with 4.
    rewrite (proj2 (Z.eqb_neq sid 0)), (proj2 (Z.ltb_ge (h2_newestStreamID p) sid)) by lia. cbn [negb Z.eqb Pos.eqb].
    rewrite <-(app_nil_r (write32 code)), read32_write. cbn [reading]. by rewrite Z.mod_small by exact Hc.
  - destruct Hs as (Hne & Hok & Hlen). by apply send_settings_frame.
  - unfold generatePing, blen. rewrite Hs. cbn [Z.of_nat Z.eqb Pos.eqb].
    eexists _, PingFrame, 0, 0, data, p. split; [done|]. cbn [h2g_sink h2g_write generateFrameHeader]. rewrite <-app_assoc.
    unfold blen. rewrite Hs. split_and!; try done; try lia; [by destruct data|].
    cbn [dispatch]. unfold parsePing, blen. by rewrite Hs.
  - unfold generatePingAck, blen. rewrite Hs. cbn [Z.of_nat Z.eqb Pos.eqb].
    eexists _, PingFrame, 1, 0, data, p. split; [done|]. cbn [h2g_sink h2g_write generateFrameHeader]. rewrite <-app_assoc.
    unfold blen. rewrite Hs. split_and!; try done; try lia; [by destruct data|].
    cbn [dispatch]. unfold parsePing, blen. by rewrite Hs.
  - destruct Hs as (Hsid & Hsize). unfold generateWindowUpdate. rewrite !(proj2 (Z.leb_le _ _)) by lia. cbn [andb].
    eexists _, WindowUpdateFrame, 0, sid, (write32 size), p. split; [done|].
    cbn [h2g_sink h2g_write generateFrameHeader]. rewrite <-app_assoc, clear31_id by lia.
    change (blen (write32 size)) with 4.
    split_and!; try done; try lia. cbn [dispatch]. unfold parseWindowUpdate. change (blen (write32 size)) with 4.
    rewrite <-(app_nil_r (write32 size)), read32_write. rewrite (Z.mod_small size), clear31_id by lia.
    cbn [Z.eqb Pos.eqb app]. by rewrite (proj2 (Z.eqb_neq size 0)) by lia.
Qed.

(** A DATA frame of a finished stream, a RST_STREAM, SETTINGS,
    PING and WINDOW_UPDATE frame that the generator writes, and that reaches the
    parser as a fragment of its own, is consumed in full and reported as exactly
    what was sent. *)
Theorem h2_frame_roundtrip (s : sent) (p : H2Parser) (g : H2Generator) :
  h2_ready p → sendable p g s →
  ∃ g' frame q, send_frame_of s g = Ok g' ∧ h2g_sink g' = h2g_sink g ++ frame ∧
    h2_parseFragment frame p = (q, blen frame, [heard s], None) ∧ h2_newestStreamID q = h2_newestStreamID p.
Proof.
  intros Hr Hs. destruct (send_frame s p g Hr Hs) as (g' & t & flags & sid & payload & q & Hg & Hsink & Hf & Hsid & Hne & Hl & Hd & Hn).
  destruct Hr as (Hst & Hmax & _).
  exists g', (frame_header t flags sid (blen payload) ++ payload), (h2_set_last t sid q). split_and!; try done.
  rewrite (parse_single t flags sid payload p q [heard s]); try done; [|lia].
  unfold blen. rewrite length_app. do 3 f_equal. cbn. lia.
Qed.

Definition example_h2_parser : H2Parser := h2_setState Framing (newH2Parser 16384 4096).
Definition example_h2_generator : H2Generator := mkH2Generator [] 16384 (newHpackGenerator 4096).

Lemma h2_frame_roundtrip_witness :
  ∃ g' frame q, send_frame_of (SendSettings [(InitialWindowSize, 65535); (HeaderTableSize, 1024)]) example_h2_generator = Ok g' ∧
    h2g_sink g' = [] ++ frame ∧
    h2_parseFragment frame example_h2_parser =
      (q, blen frame, [OnSettings [(InitialWindowSize, 65535); (HeaderTableSize, 1024)]], None) ∧
    h2_newestStreamID q = 0.
Proof.
  apply (h2_frame_roundtrip (SendSettings [(InitialWindowSize, 65535); (HeaderTableSize, 1024)]) example_h2_parser example_h2_generator).
  - split; [reflexivity|]. split; [cbn; lia|]. split; cbn; lia.
  - split; [discriminate|]. split; [|cbn; lia].
    repeat constructor; cbn; unfold InitialWindowSize, HeaderTableSize, fits; lia.
Defined.

(** ** Flow control *)

Inductive flow_op := Charge (n : Z) | Take (n : Z).

Definition flow_step (credits : Z) (op : flow_op) : Z :=
  match op with Charge n => (flow_charge n credits).2 | Take n => flow_take n credits end.

(** What an operation amounts to: a charge or a withdrawal that does not fit is
    ignored. *)
Definition flow_delta (credits : Z) (op : flow_op) : Z :=
  match op with
  | Charge n => if credits + n <=? FlowMaxValue then n else 0
  | Take n => if n <=? credits then - n else 0
  end.

Fixpoint flow_balance (credits : Z) (ops : list flow_op) : Z :=
  match ops with
  | [] => credits
  | op :: ops => flow_balance (credits + flow_delta credits op) ops
  end.

Definition flow_size (op : flow_op) : Z := match op with Charge n | Take n => n end.

(** A flow with at most 2^31 - 1 credits keeps to that: however it
    is charged and drawn upon with amounts of 64 bits, its credits are the exact
    balance of the operations that fit, between 0 and the maximum; no machine
    operation wraps around, and [charge] answers [false] exactly when it would
    exceed the maximum. *)
Theorem flow_window (ops : list flow_op) (credits : Z) :
  0 ≤ credits ≤ FlowMaxValue → Forall (λ op, fits 64 (flow_size op)) ops →
  foldl flow_step credits ops = flow_balance credits ops ∧ 0 ≤ flow_balance credits ops ≤ FlowMaxValue ∧
  ∀ n, fits 64 n → (flow_charge n credits).1 = (credits + n <=? FlowMaxValue).
Proof.
  assert (∀ c n, 0 ≤ c ≤ FlowMaxValue → (u64 (FlowMaxValue - c) <? n) = negb (c + n <=? FlowMaxValue)) as Hroom.
  { intros c n Hc. unfold FlowMaxValue in *. rewrite unsigned_id by (unfold fits; lia).
    destruct (Z.ltb_spec (2 ^ 31 - 1 - c) n), (Z.leb_spec (c + n) (2 ^ 31 - 1)); try done; lia. }
  intros Hc Hops. split.
  - revert credits Hc. induction Hops as [|op ops Hop Hops IH]; intros c Hc; [done|]. cbn [foldl flow_balance].
    assert (flow_step c op = c + flow_delta c op ∧ 0 ≤ c + flow_delta c op ≤ FlowMaxValue) as [-> Hc']; [|by apply IH].
    destruct op as [n|n]; cbn [flow_step flow_delta flow_size] in *; unfold fits, FlowMaxValue in *.
    + unfold flow_charge. rewrite Hroom by (unfold FlowMaxValue; lia). unfold FlowMaxValue.
      destruct (Z.leb_spec (c + n) (2 ^ 31 - 1)); cbn [negb snd]; [rewrite unsigned_id by (unfold fits; lia); lia|lia].
    + unfold flow_take. destruct (Z.ltb_spec c n), (Z.leb_spec n c); try lia. rewrite unsigned_id by (unfold fits; lia). lia.
  - split.
    + revert credits Hc. induction Hops as [|op ops Hop Hops IH]; intros c Hc; [done|]. cbn [flow_balance]. apply IH.
      destruct op as [n|n]; cbn [flow_delta flow_size] in *; unfold fits in *; case_match; lia.
    + intros n Hn. unfold flow_charge. rewrite Hroom by done. by destruct (credits + n <=? FlowMaxValue).
Qed.

Lemma flow_window_witness :
  foldl flow_step newFlow [Take 65536; Take 1; Charge (2 ^ 31 - 1); Charge 1] = 2 ^ 31 - 1 ∧
  (flow_charge (2 ^ 31) newFlow).1 = false.
Proof.
  destruct (flow_window [Take 65536; Take 1; Charge (2 ^ 31 - 1); Charge 1] newFlow) as (H & _ & Hc).
  - unfold newFlow, FlowMaxValue. lia.
  - repeat constructor; cbn; unfold fits; lia.
  - rewrite H, Hc by (unfold fits; lia). split; vm_compute; reflexivity.
Defined.

(** ** Where the code departs from the protocol *)

(** A header-only frame at the end of a fragment waits for more bytes. *)
Lemma header_only_frame_waits t flags sid n p : h2_state p = Framing →
  h2_parseFragment (frame_header t flags sid n) p = (p, 0, [], None).
Proof. intros H. unfold h2_parseFragment. rewrite H. reflexivity. Qed.

(** A frame's payload is everything behind its header: the first of two frames
    in one fragment is taken to have the bytes of both. *)
Example two_pings :
  (h2_parseFragment (frame_header PingFrame 0 0 8 ++ [1; 2; 3; 4; 5; 6; 7; 8] ++
    frame_header PingFrame 0 0 8 ++ [1; 2; 3; 4; 5; 6; 7; 8]) example_h2_parser).1.2 =
  [OnConnectionError H2FrameSizeError "PING frame size must be 8 bytes."; OnPing [1; 2; 3; 4; 5; 6; 7; 8]].
Proof. reflexivity. Qed.

(** Data that is not the last of its stream is sent as if it were. *)
Lemma data_always_ends sid data g : blen data ≤ h2g_maxFrameSize g →
  generateData sid data false g = generateData sid data true g.
Proof.
  intros H. unfold generateData. cbn [data_loop]. rewrite Z.min_l, Z.ltb_irrefl by done. cbn [negb andb].
  by rewrite drop_ge by (unfold blen; lia).
Qed.

(** A header block that fits a frame is not written at all. *)
Example header_block_missing :
  (g ← h2_generateHeaders 1 [mkField (str ":method") (str "GET") false] false example_h2_generator; Ok (h2g_sink g)) =
    Ok (frame_header HeadersFrame 4 1 1).
Proof. reflexivity. Qed.

(** The parser refuses the generator's GOAWAY frame, which carries the last
    stream id in its header. *)
Example goaway_refused :
  match generateGoAway 1 0 [] example_h2_generator with
  | Ok g => (h2_parseFragment (h2g_sink g) example_h2_parser).1.2 =
      [OnConnectionError H2ProtocolError "Unepxected stream id on GO_AWAY frame."]
  | Raise _ => False
  end.
Proof. reflexivity. Qed.

(** A WINDOW_UPDATE frame of five bytes is an error, and an update. *)
Example wrong_size_still_read :
  (h2_parseFragment (frame_header WindowUpdateFrame 0 1 5 ++ [0; 0; 1; 0; 0]) example_h2_parser).1.2 =
    [OnConnectionError H2FrameSizeError "WINDOW_UPDATE frame size must be 4 bytes"; OnWindowUpdate 1 256].
Proof. reflexivity. Qed.

(** The request is attributed to the stream of the frame before. *)
Example request_on_wrong_stream :
  let p := h2_set_last PingFrame 0 example_h2_parser in
  (h2_parseFragment (frame_header HeadersFrame 4 1 4 ++ [0; 1; 97; 0]) p).1.2 =
    [OnRequestBegin 0 false (request_of [mkField (str "a") [] false])].
Proof. reflexivity. Qed.
