(* ===== verification/DataChain.v ===== *)
(** * Chains of output data

    [src/xzero/io/DataChain.cc]: the queue of buffers and files between a
    generator and the socket ([net/EndPointWriter.cc] wraps one). Small writes
    are collected in a buffer; a chunk is a buffer or a file with the offset of
    what is left of it. [DataChain_is_queue] shows that a chain implements a
    queue of bytes: everything written comes out once, in order, and the
    answer of [transferTo] tells whether all of it did. *)
From S2P Require Import Prelude.

(** ** Chunks *)

(** A buffer with an offset; a file view, as the bytes of the file with the
    offset and the size of the view. *)
Inductive Chunk :=
  | BufferChunk (buffer : bytes) (offset : nat)
  | FileChunk (file : bytes) (offset size : nat).

Definition ck_size (c : Chunk) : nat :=
  match c with BufferChunk b off => length b - off | FileChunk _ _ size => size end.

(** The bytes of a chunk. *)
Definition chunk_data (c : Chunk) : bytes :=
  match c with BufferChunk b off => drop off b | FileChunk f off size => take size (drop off f) end.

(** A file has as many bytes as its view says. *)
Definition chunk_ok (c : Chunk) : Prop :=
  match c with BufferChunk b off => (off ≤ length b)%nat | FileChunk f off size => (off + size ≤ length f)%nat end.

(** [get]: a new chunk with the first [n] bytes, which leave this one. *)
Definition chunk_get (n : nat) (c : Chunk) : Chunk * Chunk :=
  match c with
  | BufferChunk b off => (BufferChunk (take n (drop off b)) 0, BufferChunk b (off + n))
  | FileChunk f off size => (FileChunk f off (Nat.min n size), FileChunk f (off + n) (size - n))
  end.

(** What [transferTo] offers to the sink; [out] bytes were taken. *)
Definition chunk_offer (n : nat) (c : Chunk) : bytes :=
  match c with
  | BufferChunk b off => take (Nat.min n (length b - off)) (drop off b)
  | FileChunk f off size => take (Nat.min n size) (drop off f)
  end.

Definition chunk_advance (out : nat) (c : Chunk) : Chunk :=
  match c with
  | BufferChunk b off => BufferChunk b (off + out)
  | FileChunk f off size => FileChunk f (off + out) (size - out)
  end.

(** ** The chain *)

Record DataChain := mkDataChain { dc_chunks : list Chunk; dc_buffer : bytes; dc_size : nat }.

Definition newDataChain : DataChain := mkDataChain [] [] 0.
Definition dc_reset (c : DataChain) : DataChain := newDataChain.

Definition dc_empty (c : DataChain) : bool := bool_decide (dc_chunks c = []) && bool_decide (dc_buffer c = []).

Definition dc_flushBuffer (c : DataChain) : DataChain :=
  if negb (bool_decide (dc_buffer c = []))
  then mkDataChain (dc_chunks c ++ [BufferChunk (dc_buffer c) 0]) [] (dc_size c) else c.

(** The overloads of [write]: for characters and references, for a buffer that
    is given away, for a file, for a chunk. *)
Definition dc_write (buf : bytes) (c : DataChain) : DataChain :=
  mkDataChain (dc_chunks c) (dc_buffer c ++ buf) (dc_size c + length buf).

Definition dc_write_buffer (buf : bytes) (c : DataChain) : DataChain :=
  if (length buf <? 1024)%nat then mkDataChain (dc_chunks c) (dc_buffer c ++ buf) (dc_size c + length buf)
  else let c := dc_flushBuffer c in mkDataChain (dc_chunks c) buf (dc_size c + length buf).

Definition dc_write_chunk (ch : Chunk) (c : DataChain) : DataChain :=
  let c := dc_flushBuffer c in mkDataChain (dc_chunks c ++ [ch]) (dc_buffer c) (dc_size c + ck_size ch).

Definition dc_write_file (file : bytes) (offset size : nat) (c : DataChain) : DataChain :=
  let c := dc_flushBuffer c in
  if (size =? 0)%nat then c else mkDataChain (dc_chunks c ++ [FileChunk file offset size]) (dc_buffer c) (dc_size c + size).

(** [write8] to [write64]: the low [n] bytes, most significant first. *)
Fixpoint big_endian (n : nat) (bin : Z) : bytes :=
  match n with O => [] | S n => Z.land (Z.shiftr bin (8 * Z.of_nat n)) 255 :: big_endian n bin end.

Definition dc_write_int (n : nat) (bin : Z) (c : DataChain) : DataChain :=
  mkDataChain (dc_chunks c) (dc_buffer c ++ big_endian n bin) (dc_size c + n).

(** [get]: a chunk with at most [n] bytes from the front. *)
Definition dc_get (n : nat) (c : DataChain) : option Chunk * DataChain :=
  let c := match dc_chunks c with [] => dc_flushBuffer c | _ => c end in
  match dc_chunks c with
  | [] => (None, c)
  | front :: rest =>
      if (ck_size front <? n)%nat then (Some front, mkDataChain rest (dc_buffer c) (dc_size c - ck_size front))
      else let '(chunk, front) := chunk_get n front in
           (Some chunk, mkDataChain (front :: rest) (dc_buffer c) (dc_size c - ck_size chunk))
  end.

Section transfer.
Context {K : Type} (transfer : K → bytes → nat * K).

(** [transferTo]: the sink takes a part of what it is offered ([transfer]); the
    third result is what it took. The loop ends when the sink takes nothing, so
    that one round per byte and one per chunk are enough; [Blocked] is out of
    fuel, an empty queue would be read from beyond its end. *)
Fixpoint transfer_loop (fuel n : nat) (c : DataChain) (sink : K) (out : bytes) : result (bool * DataChain * K * bytes) :=
  if (0 <? n)%nat && (0 <? dc_size c)%nat then
    match fuel, dc_chunks c with
    | O, _ => Raise Blocked
    | _, [] => Raise UndefinedBehaviour
    | S fuel, front :: rest =>
        let '(transferred, sink) := transfer sink (chunk_offer n front) in
        let out := out ++ take transferred (chunk_offer n front) in
        let front := chunk_advance transferred front in
        let size := (dc_size c - transferred)%nat in
        let n := (n - transferred)%nat in
        if (transferred <? ck_size front)%nat && (0 <? n)%nat
        then Ok (false, mkDataChain (front :: rest) (dc_buffer c) size, sink, out)
        else
          let c := mkDataChain (if (ck_size front =? 0)%nat then rest else front :: rest) (dc_buffer c) size in
          if (n =? 0)%nat then Ok (true, c, sink, out) else transfer_loop fuel n c sink out
    end
  else Ok ((n =? 0)%nat, c, sink, out).

Definition transferTo (n : nat) (c : DataChain) (sink : K) : result (bool * DataChain * K * bytes) :=
  let c := dc_flushBuffer c in transfer_loop (dc_size c + length (dc_chunks c)) n c sink [].

Definition transferAll (c : DataChain) (sink : K) : result (bool * DataChain * K * bytes) := transferTo (dc_size c) c sink.
End transfer.

(** ** The specification: a queue of bytes *)

Definition contents (c : DataChain) : bytes := concat (chunk_data <$> dc_chunks c) ++ dc_buffer c.

Record chain_ok (c : DataChain) : Prop := mk_chain_ok {
  co_chunks : Forall chunk_ok (dc_chunks c);
  co_size : dc_size c = length (contents c);
}.

Lemma chunk_data_length ch : chunk_ok ch → length (chunk_data ch) = ck_size ch.
Proof. destruct ch; cbn; intros Hc; rewrite ?length_take, ?length_drop; lia. Qed.

Lemma contents_flush c : contents (dc_flushBuffer c) = contents c.
Proof.
  unfold dc_flushBuffer, contents. case_bool_decide as Hb; cbn; [done|].
  by rewrite fmap_app, concat_app; cbn; rewrite !app_nil_r.
Qed.

Lemma flush_ok c : chain_ok c → chain_ok (dc_flushBuffer c) ∧ dc_buffer (dc_flushBuffer c) = [].
Proof.
  intros [Hc Hs]. split; [split|]; rewrite ?contents_flush; unfold dc_flushBuffer; case_bool_decide as Hb; cbn; try done.
  apply Forall_app. split; [done|]. repeat constructor. cbn. lia.
Qed.

Lemma chunk_offer_data n ch : chunk_ok ch → chunk_offer n ch = take n (chunk_data ch).
Proof.
  destruct ch; cbn; intros Hc; rewrite ?take_take; [|done].
  destruct (decide (n ≤ length buffer - offset)%nat); [by rewrite Nat.min_l|].
  rewrite Nat.min_r by lia. rewrite !take_ge; rewrite ?length_drop; try done; lia.
Qed.

Lemma chunk_advance_data k ch :
  chunk_ok ch → (k ≤ ck_size ch)%nat →
  chunk_ok (chunk_advance k ch) ∧ chunk_data (chunk_advance k ch) = drop k (chunk_data ch) ∧
  ck_size (chunk_advance k ch) = (ck_size ch - k)%nat.
Proof.
  destruct ch; cbn; intros Hc Hk; repeat split; try lia.
  - by rewrite drop_drop.
  - by rewrite <- drop_drop, skipn_firstn_comm.
Qed.

(** A sink takes at most what it is offered. *)
Definition sink_ok {K} (transfer : K → bytes → nat * K) : Prop := ∀ k data, (fst (transfer k data) ≤ length data)%nat.

Section queue.
Context {K : Type} (transfer : K → bytes → nat * K) (Hsink : sink_ok transfer).

(** What a transfer of up to [n] bytes does: it takes [sent] off the front. *)
Definition transferred (n : nat) (c : DataChain) (out : bytes) (r : result (bool * DataChain * K * bytes)) : Prop :=
  ∃ b c' k sent, r = Ok (b, c', k, out ++ sent) ∧ chain_ok c' ∧ contents c = sent ++ contents c' ∧
    (length sent ≤ n)%nat ∧ (b = true ↔ length sent = n).

(** One round: [t] bytes leave the front chunk. *)
Lemma advance_front t front rest size :
  chain_ok (mkDataChain (front :: rest) [] size) → (t ≤ ck_size front)%nat →
  let front' := chunk_advance t front in
  let c' := mkDataChain (if (ck_size front' =? 0)%nat then rest else front' :: rest) [] (size - t) in
  chain_ok c' ∧ chain_ok (mkDataChain (front' :: rest) [] (size - t)) ∧
  contents (mkDataChain (front :: rest) [] size) = take t (chunk_data front) ++ contents c' ∧
  contents (mkDataChain (front' :: rest) [] (size - t)) = contents c'.
Proof.
  intros [Hf Hs] Ht front' c'. apply Forall_cons_iff in Hf as [Hf Hr]. cbn in Hs.
  destruct (chunk_advance_data t front Hf Ht) as (Hok & Hd & Hsz). fold front' in Hok, Hd, Hsz.
  pose proof (chunk_data_length _ Hf) as Hl. pose proof (chunk_data_length _ Hok) as Hl'.
  assert (He : contents (mkDataChain (front' :: rest) [] (size - t)) = contents c').
  { unfold c'. destruct (Nat.eqb_spec (ck_size front') 0) as [Hz|]; [|done]. unfold contents. cbn.
    destruct (chunk_data front'); [done|cbn in Hl'; lia]. }
  assert (Hc : contents (mkDataChain (front :: rest) [] size) = take t (chunk_data front) ++ contents c').
  { rewrite <- He. unfold contents. cbn. by rewrite Hd, !app_nil_r, app_assoc, take_drop. }
  assert (Hn : (size - t)%nat = length (contents c')).
  { change (size = length (contents (mkDataChain (front :: rest) [] size))) in Hs.
    rewrite Hc, length_app, length_take in Hs. lia. }
  repeat split; try done.
  - unfold c'. destruct (ck_size front' =? 0)%nat; cbn; [done|]. by constructor.
  - by constructor.
  - rewrite He. exact Hn.
Qed.

Lemma transferred_nothing n c k out : chain_ok c → transferred n c out (Ok ((n =? 0)%nat, c, k, out)).
Proof.
  intros Hok. exists (n =? 0)%nat, c, k, []. rewrite app_nil_r. split; [done|]. repeat split; try apply Hok; cbn; [lia| |].
  - by intros ->%Nat.eqb_eq.
  - by intros <-.
Qed.

Lemma transfer_loop_spec fuel : ∀ n c k out,
  chain_ok c → dc_buffer c = [] → (dc_size c + length (dc_chunks c) ≤ fuel)%nat →
  transferred n c out (transfer_loop transfer fuel n c k out).
Proof.
  induction fuel as [|fuel IH]; intros n [chunks buf size] k out Hok Hb Hfuel; cbn in Hb, Hfuel; subst buf; cbn [transfer_loop].
  all: destruct ((0 <? n)%nat && (0 <? dc_size _)%nat) eqn:Hgo; cbn [dc_size] in Hgo.
  all: try (by apply transferred_nothing).
  all: apply andb_true_iff in Hgo as [Hn%Nat.ltb_lt Hs%Nat.ltb_lt]. 1: lia. cbn [dc_chunks dc_size dc_buffer].
  destruct chunks as [|front rest]; [apply co_size in Hok; cbn in Hok; lia|].
  pose proof (Forall_inv (co_chunks _ Hok)) as Hf. rewrite (chunk_offer_data n front Hf).
  pose proof (Hsink k (take n (chunk_data front))) as Ht. destruct (transfer k (take n (chunk_data front))) as [t k'].
  cbn [fst] in Ht. rewrite length_take, (chunk_data_length _ Hf) in Ht. rewrite take_take, Nat.min_l by lia.
  destruct (advance_front t front rest size Hok) as (H1 & H2 & H3 & H4); [lia|].
  pose proof (chunk_data_length _ Hf) as Hlen.
  set (front' := chunk_advance t front) in *. set (rest' := if (ck_size front' =? 0)%nat then rest else front' :: rest) in *.
  assert (Hsent : length (take t (chunk_data front)) = t) by (rewrite length_take; lia).
  destruct ((t <? ck_size front')%nat && (0 <? n - t)%nat) eqn:Hstop.
  { apply andb_true_iff in Hstop as [_ Hr%Nat.ltb_lt]. eexists false, _, k', _. split; [done|]. rewrite H4, Hsent.
    split; [done|]. split; [done|]. split; [lia|]. split; [done|intros; lia]. }
  destruct (Nat.eqb_spec (n - t) 0) as [Hz|Hz].
  { eexists true, _, k', _. split; [done|]. rewrite Hsent. split; [done|]. split; [done|]. split; [lia|]. split; [lia|done]. }
  assert (Hmeas : (size - t + length rest' ≤ fuel)%nat).
  { apply andb_false_iff in Hstop as [Hst|Hst]; apply Nat.ltb_ge in Hst; [|lia].
    unfold rest'. cbn in Hfuel. destruct (Nat.eqb_spec (ck_size front') 0); cbn; lia. }
  destruct (IH (n - t)%nat (mkDataChain rest' [] (size - t)) k' (out ++ take t (chunk_data front)) H1 eq_refl Hmeas)
    as (b & c' & k2 & sent & -> & Hok' & Hc & Hle & Hb).
  exists b, c', k2, (take t (chunk_data front) ++ sent). rewrite app_assoc. split; [done|]. split; [done|].
  rewrite <- app_assoc, <- Hc, length_app, Hsent. repeat split; [done|lia|intros ->%Hb; lia|intros ?; apply Hb; lia].
Qed.

Lemma transferTo_spec n c k : chain_ok c → transferred n c [] (transferTo transfer n c k).
Proof.
  intros Hok. destruct (flush_ok c Hok) as [Hok' Hb].
  destruct (transfer_loop_spec (dc_size (dc_flushBuffer c) + length (dc_chunks (dc_flushBuffer c))) n (dc_flushBuffer c) k []
    Hok' Hb) as (b & c' & k' & sent & Hr & H1 & H2 & H3 & H4); [done|].
  exists b, c', k', sent. rewrite contents_flush in H2. done.
Qed.
End queue.

(** ** Runs: writes, chunks taken and transfers, in any order *)

Inductive chain_op :=
  | OpWrite (buf : bytes)
  | OpWriteBuffer (buf : bytes)
  | OpWriteFile (file : bytes) (offset size : nat)
  | OpWriteChunk (ch : Chunk)
  | OpWriteInt (n : nat) (bin : Z)
  | OpGet (n : nat)
  | OpTransfer (n : nat).

(** What an operation appends. *)
Definition op_data (op : chain_op) : bytes :=
  match op with
  | OpWrite buf | OpWriteBuffer buf => buf
  | OpWriteFile file offset size => take size (drop offset file)
  | OpWriteChunk ch => chunk_data ch
  | OpWriteInt n bin => big_endian n bin
  | OpGet _ | OpTransfer _ => []
  end.

Definition chain_op_ok (op : chain_op) : Prop :=
  match op with
  | OpWriteFile file offset size => (offset + size ≤ length file)%nat
  | OpWriteChunk ch => chunk_ok ch
  | _ => True
  end.

(** A run gives the bytes that left the chain, and the sink's state. *)
Definition op_run {K} (transfer : K → bytes → nat * K) (op : chain_op) (c : DataChain) (k : K) :
    result (DataChain * K * bytes) :=
  match op with
  | OpWrite buf => Ok (dc_write buf c, k, [])
  | OpWriteBuffer buf => Ok (dc_write_buffer buf c, k, [])
  | OpWriteFile file offset size => Ok (dc_write_file file offset size c, k, [])
  | OpWriteChunk ch => Ok (dc_write_chunk ch c, k, [])
  | OpWriteInt n bin => Ok (dc_write_int n bin c, k, [])
  | OpGet n => let '(ch, c) := dc_get n c in Ok (c, k, match ch with Some ch => chunk_data ch | None => [] end)
  | OpTransfer n => '(b, c, k, out) ← transferTo transfer n c k; Ok (c, k, out)
  end.

Fixpoint chain_run {K} (transfer : K → bytes → nat * K) (ops : list chain_op) (c : DataChain) (k : K) :
    result (DataChain * K * bytes) :=
  match ops with
  | [] => Ok (c, k, [])
  | op :: ops =>
      '(c, k, out) ← op_run transfer op c k;
      '(c, k, out') ← chain_run transfer ops c k;
      Ok (c, k, out ++ out')
  end.

Lemma big_endian_length n bin : length (big_endian n bin) = n.
Proof. induction n; cbn; [done|by rewrite IHn]. Qed.

Lemma dc_get_spec n c :
  chain_ok c → let '(ch, c') := dc_get n c in
  chain_ok c' ∧ contents c = match ch with Some ch => chunk_data ch | None => [] end ++ contents c'.
Proof.
  intros Hok. unfold dc_get. set (c1 := match dc_chunks c with [] => dc_flushBuffer c | _ => c end).
  assert (H1 : chain_ok c1 ∧ contents c1 = contents c).
  { unfold c1. destruct (dc_chunks c); [|done]. split; [by apply flush_ok|apply contents_flush]. }
  destruct H1 as [[Hf Hs] <-]. destruct c1 as [[|front rest] buf size]; cbn [dc_chunks dc_buffer dc_size] in *; [done|].
  apply Forall_cons_iff in Hf as [Hf Hr]. pose proof (chunk_data_length _ Hf) as Hl.
  unfold contents in Hs. cbn in Hs. rewrite !length_app in Hs.
  destruct (Nat.ltb_spec (ck_size front) n) as [Hn|Hn].
  - split; [split; [done|]|]; unfold contents; cbn; rewrite ?length_app; [lia|by rewrite app_assoc].
  - assert (Hg : ∃ a b, chunk_get n front = (a, b) ∧ chunk_ok a ∧ chunk_ok b ∧ chunk_data front = chunk_data a ++ chunk_data b ∧ ck_size a = n).
    { destruct front; cbn in *; eexists _, _; (split; [done|]); cbn; repeat split; try lia.
      - by rewrite <- drop_drop, drop_0, take_drop.
      - rewrite length_take, length_drop. lia.
      - rewrite Nat.min_l by lia. rewrite <- drop_drop.
        rewrite <- (take_drop n (take size0 (drop offset file))) at 1.
        by rewrite take_take, Nat.min_l, skipn_firstn_comm by lia. }
    destruct Hg as (a & b & -> & Hga & Hb & Hd & Ha). pose proof (chunk_data_length _ Hga) as Hla.
    split; [split; [by constructor|]|]; unfold contents; cbn; [|by rewrite Hd, <- !app_assoc].
    rewrite Hd, length_app in Hl, Hs. rewrite !length_app. lia.
Qed.

(** What a write has to do. *)
Lemma write_ok c c' data :
  chain_ok c → Forall chunk_ok (dc_chunks c') → contents c' = contents c ++ data → dc_size c' = (dc_size c + length data)%nat →
  chain_ok c' ∧ contents c ++ data = [] ++ contents c'.
Proof. intros [_ Hs] Hf Hc Hz. split; [split; [done|]|by rewrite Hc]. by rewrite Hc, length_app, <- Hs. Qed.

Lemma flushed_chunks c : concat (chunk_data <$> dc_chunks (dc_flushBuffer c)) = contents c.
Proof.
  rewrite <- contents_flush. unfold contents, dc_flushBuffer. case_bool_decide as Hb; cbn; [by rewrite Hb, app_nil_r|].
  by rewrite app_nil_r.
Qed.

Lemma flush_size c : dc_size (dc_flushBuffer c) = dc_size c.
Proof. unfold dc_flushBuffer. by case_bool_decide. Qed.

Lemma write_chunk_ok ch c :
  chain_ok c → chunk_ok ch → chain_ok (dc_write_chunk ch c) ∧ contents c ++ chunk_data ch = [] ++ contents (dc_write_chunk ch c).
Proof.
  intros Hok Hch. destruct (flush_ok c Hok) as [[Hf' _] Hb']. apply write_ok; [done| | |].
  - apply Forall_app. split; [done|by constructor].
  - unfold contents at 1. cbn. by rewrite Hb', fmap_app, concat_app, flushed_chunks; cbn; rewrite !app_nil_r.
  - cbn. by rewrite flush_size, chunk_data_length.
Qed.

Lemma write_file_chunk file offset size c :
  dc_write_file file offset size c = if (size =? 0)%nat then dc_flushBuffer c else dc_write_chunk (FileChunk file offset size) c.
Proof. unfold dc_write_file, dc_write_chunk. by destruct (size =? 0)%nat. Qed.

(** An operation takes [out] off the front and puts its data at the end. *)
Lemma op_run_spec {K} (transfer : K → bytes → nat * K) op c k :
  sink_ok transfer → chain_ok c → chain_op_ok op →
  ∃ c' k' out, op_run transfer op c k = Ok (c', k', out) ∧ chain_ok c' ∧ contents c ++ op_data op = out ++ contents c'.
Proof.
  intros Hsink Hok Hop. pose proof Hok as [Hf Hs]. destruct (flush_ok c Hok) as [Hok' Hb'].
  destruct op as [buf|buf|file off size|ch|n bin|n|n]; cbn [op_run op_data]; cbn in Hop.
  - eexists _, _, []. split; [done|]. apply write_ok; try done. unfold contents. cbn. by rewrite app_assoc.
  - eexists _, _, []. split; [done|]. unfold dc_write_buffer. destruct (_ <? _)%nat; apply write_ok; try done.
    + unfold contents. cbn. by rewrite app_assoc.
    + apply Hok'.
    + unfold contents at 1. cbn. by rewrite flushed_chunks.
    + cbn. by rewrite flush_size.
  - eexists _, _, []. split; [done|]. rewrite write_file_chunk. destruct (Nat.eqb_spec size 0) as [->|Hz].
    + by rewrite contents_flush, app_nil_r.
    + by apply write_chunk_ok.
  - eexists _, _, []. split; [done|]. by apply write_chunk_ok.
  - eexists _, _, []. split; [done|]. apply write_ok; try done; [unfold contents; cbn; by rewrite app_assoc|].
    by rewrite big_endian_length.
  - pose proof (dc_get_spec n c Hok) as Hg. destruct (dc_get n c) as [ch c']. destruct Hg as [Hg1 Hg2].
    eexists _, _, _. split; [done|]. by rewrite app_nil_r.
  - destruct (transferTo_spec transfer Hsink n c k Hok) as (b & c' & k' & sent & -> & H1 & H2 & _). cbn.
    exists c', k', sent. by rewrite app_nil_r.
Qed.

Lemma chain_run_spec {K} (transfer : K → bytes → nat * K) ops : ∀ c k,
  sink_ok transfer → chain_ok c → Forall chain_op_ok ops →
  ∃ c' k' out, chain_run transfer ops c k = Ok (c', k', out) ∧ chain_ok c' ∧
    contents c ++ concat (op_data <$> ops) = out ++ contents c'.
Proof.
  induction ops as [|op ops IH]; intros c k Hsink Hok Hops.
  - exists c, k, []. cbn. by rewrite app_nil_r.
  - apply Forall_cons_iff in Hops as [Hop Hops].
    destruct (op_run_spec transfer op c k Hsink Hok Hop) as (c1 & k1 & out1 & H1 & Hok1 & Hc1).
    destruct (IH c1 k1 Hsink Hok1 Hops) as (c2 & k2 & out2 & H2 & Hok2 & Hc2).
    exists c2, k2, (out1 ++ out2). cbn [chain_run]. rewrite H1. cbn. rewrite H2. cbn. split; [done|]. split; [done|].
    by rewrite app_assoc, Hc1, <- !app_assoc, Hc2.
Qed.

(** C35 (refinement). A chain is a queue of bytes: any sequence of writes of
    buffers, files, chunks and integers, of chunks taken and of transfers to a
    sink that takes some of what it is offered, runs to its end; the bytes that
    left the chain, followed by those still in it, are the bytes written, in
    order; its size is the number of bytes in it; and a final transfer of all
    of them answers [true] if and only if the sink has taken all. *)
Theorem DataChain_is_queue {K} (transfer : K → bytes → nat * K) ops k :
  sink_ok transfer → Forall chain_op_ok ops →
  ∃ c k' out, chain_run transfer ops newDataChain k = Ok (c, k', out) ∧
    concat (op_data <$> ops) = out ++ contents c ∧ dc_size c = length (contents c) ∧
    ∃ b c2 k2 sent, transferAll transfer c k' = Ok (b, c2, k2, sent) ∧ contents c = sent ++ contents c2 ∧
      (b = true ↔ contents c2 = []).
Proof.
  intros Hsink Hops. destruct (chain_run_spec transfer ops newDataChain k Hsink) as (c & k' & out & Hr & Hok & Hc); [by split|done|].
  exists c, k', out. split; [done|]. split; [exact Hc|]. split; [apply Hok|].
  destruct (transferTo_spec transfer Hsink (dc_size c) c k' Hok) as (b & c2 & k2 & sent & H1 & _ & H2 & _ & Hb).
  exists b, c2, k2, sent. split; [exact H1|]. split; [done|]. rewrite Hb, (co_size _ Hok), H2, length_app.
  destruct (contents c2); cbn; split; intros; try done; exfalso; lia.
Qed.

(** A sink that takes at most two bytes at a time, five in all. *)
Definition slow_sink (left : nat) (data : bytes) : nat * nat :=
  let t := Nat.min left (Nat.min 2 (length data)) in (t, left - t)%nat.

Lemma DataChain_is_queue_witness :
  ∃ c k' out, chain_run slow_sink [OpWrite [1; 2]; OpWriteFile [3; 4; 5; 6] 1 2; OpTransfer 3; OpWriteInt 2 258] newDataChain 5%nat =
      Ok (c, k', out) ∧ [1; 2; 4; 5; 1; 2] = out ++ contents c ∧ dc_size c = length (contents c) ∧
    ∃ b c2 k2 sent, transferAll slow_sink c k' = Ok (b, c2, k2, sent) ∧ contents c = sent ++ contents c2 ∧
      (b = true ↔ contents c2 = []).
Proof.
  apply (DataChain_is_queue slow_sink [OpWrite [1; 2]; OpWriteFile [3; 4; 5; 6] 1 2; OpTransfer 3; OpWriteInt 2 258] 5%nat).
  - intros left data. unfold slow_sink. cbn [fst]. lia.
  - repeat (constructor; [cbn; try exact I; try lia|]). constructor.
Defined.
