(* ===== verification/Base64.v ===== *)
(** * Base64

    [src/xzero/base64-inl.h], [base64.cc], [base64url-inl.h] and [base64url.cc]:
    the encoder and the decoder with their two alphabets; the channel of HTTP/1
    decodes the settings of an upgrade to HTTP/2 with it, the authentication
    module a user's password. *)
From Stdlib Require Import String.
From S2P Require Import Prelude.

(** ** Alphabets and index tables *)

Definition base64_alphabet : bytes := str "ABCDEFGHIJKLMNOPQRSTUVWXYZabcdefghijklmnopqrstuvwxyz0123456789+/".
Definition base64url_alphabet : bytes := str "ABCDEFGHIJKLMNOPQRSTUVWXYZabcdefghijklmnopqrstuvwxyz0123456789-_".

(** The lower half of a table; the entries of the upper half are all 64. *)
Definition index_rows (r2 r5 : list Z) : list Z :=
  replicate 32 64 ++ r2 ++
  [52; 53; 54; 55; 56; 57; 58; 59; 60; 61; 64; 64; 64; 64; 64; 64] ++
  [64; 0; 1; 2; 3; 4; 5; 6; 7; 8; 9; 10; 11; 12; 13; 14] ++ r5 ++
  [64; 26; 27; 28; 29; 30; 31; 32; 33; 34; 35; 36; 37; 38; 39; 40] ++
  [41; 42; 43; 44; 45; 46; 47; 48; 49; 50; 51; 64; 64; 64; 64; 64].

Definition base64_indexmap : list Z :=
  index_rows [64; 64; 64; 64; 64; 64; 64; 64; 64; 64; 64; 62; 64; 64; 64; 63]
    [15; 16; 17; 18; 19; 20; 21; 22; 23; 24; 25; 64; 64; 64; 64; 64] ++ replicate 128 64.
Definition base64url_indexmap : list Z :=
  index_rows [64; 64; 64; 64; 64; 64; 64; 64; 64; 64; 64; 64; 64; 62; 64; 64]
    [15; 16; 17; 18; 19; 20; 21; 22; 23; 24; 25; 64; 64; 64; 64; 63] ++ replicate 128 64.

(** ** Encoding: three characters at a time, then one or two with padding. *)

Definition sextet (alphabet : bytes) (i : Z) : Z := nth (Z.to_nat i) alphabet 0.

Fixpoint base64_encode (alphabet : bytes) (input : bytes) : bytes :=
  match input with
  | [] => []
  | [a] =>
      [sextet alphabet (Z.land (Z.shiftr a 2) 63); sextet alphabet (Z.shiftl (Z.land a 3) 4); 61; 61]
  | [a; b] =>
      [sextet alphabet (Z.land (Z.shiftr a 2) 63);
       sextet alphabet (Z.lor (Z.shiftl (Z.land a 3) 4) (Z.shiftr (Z.land b 240) 4));
       sextet alphabet (Z.shiftl (Z.land b 15) 2); 61]
  | a :: b :: c :: rest =>
      sextet alphabet (Z.land (Z.shiftr a 2) 63) ::
      sextet alphabet (Z.lor (Z.shiftl (Z.land a 3) 4) (Z.shiftr (Z.land b 240) 4)) ::
      sextet alphabet (Z.lor (Z.shiftl (Z.land b 15) 2) (Z.shiftr (Z.land c 192) 6)) ::
      sextet alphabet (Z.land c 63) :: base64_encode alphabet rest
  end.

(** ** Decoding *)

(** [index]: a character is signed, one above 127 is read from before the
    table. *)
Definition char_index (indexmap : list Z) (c : Z) : result Z :=
  if c <? 128 then Ok (nth (Z.to_nat c) indexmap 64) else Raise UndefinedBehaviour.

(** The characters before the first that is not in the alphabet (the NUL at the
    end of the string, at the latest), as their indices. *)
Fixpoint scan_indices (indexmap : list Z) (input : bytes) : result (list Z) :=
  match input with
  | [] => Ok []
  | c :: input =>
      i ← char_index indexmap c;
      if i <=? 63 then rest ← scan_indices indexmap input; Ok (i :: rest) else Ok []
  end.

Definition octet1 (i j : Z) : Z := u8 (Z.lor (Z.shiftl i 2) (Z.shiftr j 4)).
Definition octet2 (i j : Z) : Z := u8 (Z.lor (Z.shiftl i 4) (Z.shiftr j 2)).
Definition octet3 (i j : Z) : Z := u8 (Z.lor (Z.shiftl i 6) j).

(** The loop, while more than four are left, and what follows it. *)
Fixpoint decode_indices (ixs : list Z) : bytes :=
  match ixs with
  | i :: j :: k :: l :: ((_ :: _) as rest) => octet1 i j :: octet2 j k :: octet3 k l :: decode_indices rest
  | [i; j] => [octet1 i j]
  | [i; j; k] => [octet1 i j; octet2 j k]
  | [i; j; k; l] => [octet1 i j; octet2 j k; octet3 k l]
  | _ => []
  end.

(** The number of bytes that is returned, computed beside the loop from the
    number of characters: [n - 4] while more than four are left. *)
Definition decodedCount (nprbytes : Z) : Z :=
  let left := if nprbytes =? 0 then 0 else (nprbytes - 1) mod 4 + 1 in
  (nprbytes + 3) / 4 * 3 - Z.land (4 - left) 3.

(** The output, cut to that number by the callers' [resize]. *)
Definition base64_decode (indexmap : list Z) (input : bytes) : result bytes :=
  ixs ← scan_indices indexmap input;
  Ok (take (Z.to_nat (decodedCount (Z.of_nat (length ixs)))) (decode_indices ixs)).

(** [decodeLength]: the space a caller reserves; the scan stops at the end. *)
Definition decodeLength (indexmap : list Z) (value : bytes) : result Z :=
  ixs ← scan_indices indexmap value;
  Ok (Z.quot (Z.of_nat (length ixs) - 1 + 3) 4 * 3 + 1).

(** ** Facts *)

Lemma small_forall n (P : Z → bool) : forallb P (seqZ 0 n) = true → ∀ x, 0 ≤ x < n → P x = true.
Proof. intros H x Hx. rewrite forallb_forall in H. apply H, list_elem_of_In, elem_of_seqZ. lia. Qed.

(** An alphabet and a table that belong together. *)
Definition table_ok (alphabet : bytes) (indexmap : list Z) : bool :=
  forallb (λ i, (sextet alphabet i <? 128) && (nth (Z.to_nat (sextet alphabet i)) indexmap 64 =? i)) (seqZ 0 64) &&
  (nth 61 indexmap 64 =? 64).

Lemma base64_tables : table_ok base64_alphabet base64_indexmap = true ∧ table_ok base64url_alphabet base64url_indexmap = true.
Proof. by vm_compute. Qed.

Section tables.
Context (alphabet : bytes) (indexmap : list Z) (Hok : table_ok alphabet indexmap = true).

Lemma scan_sextet i rest :
  0 ≤ i < 64 →
  scan_indices indexmap (sextet alphabet i :: rest) = (ixs ← scan_indices indexmap rest; Ok (i :: ixs)).
Proof.
  intros Hi. apply andb_true_iff in Hok as [Ht _]. pose proof (small_forall _ _ Ht i Hi) as Hx. cbn beta in Hx.
  apply andb_true_iff in Hx as [H1 H2%Z.eqb_eq]. cbn [scan_indices]. unfold char_index. rewrite H1. cbn [mbind result_bind].
  rewrite H2. by rewrite (proj2 (Z.leb_le i 63)) by lia.
Qed.

Lemma scan_padding rest : scan_indices indexmap (61 :: rest) = Ok [].
Proof.
  apply andb_true_iff in Hok as [_ Hp%Z.eqb_eq]. cbn [scan_indices]. unfold char_index.
  change (61 <? 128) with true. cbn [mbind result_bind]. change (Z.to_nat 61) with 61%nat. by rewrite Hp.
Qed.
End tables.

(** The indices of a triple are below 64 and give its bytes back. *)
Definition first_index (a : Z) : Z := Z.land (Z.shiftr a 2) 63.
Definition second_index (a b : Z) : Z := Z.lor (Z.shiftl (Z.land a 3) 4) (Z.shiftr (Z.land b 240) 4).
Definition third_index (b c : Z) : Z := Z.lor (Z.shiftl (Z.land b 15) 2) (Z.shiftr (Z.land c 192) 6).
Definition fourth_index (c : Z) : Z := Z.land c 63.

Definition below_64 (x : Z) : bool := (0 <=? x) && (x <? 64).
Definition pairs_ok (P : Z → Z → bool) : bool := forallb (λ a, forallb (P a) (seqZ 0 256)) (seqZ 0 256).

Lemma pairs_forall P : pairs_ok P = true → ∀ a b, is_byte a → is_byte b → P a b = true.
Proof.
  intros H a b Ha Hb. apply (small_forall 256); [|unfold is_byte, fits in *; lia].
  apply (small_forall 256 (λ a, forallb (P a) (seqZ 0 256))); [exact H|unfold is_byte, fits in *; lia].
Qed.

Lemma sextets_ok a b :
  is_byte a → is_byte b →
  below_64 (first_index a) && below_64 (second_index a b) && below_64 (third_index a b) && below_64 (fourth_index a) = true.
Proof.
  apply (pairs_forall (λ a b, below_64 (first_index a) && below_64 (second_index a b) && below_64 (third_index a b) &&
    below_64 (fourth_index a))).
  by vm_compute.
Qed.

Lemma octets_ok a b :
  is_byte a → is_byte b →
  (octet1 (first_index a) (second_index a b) =? a) && (octet3 (third_index a b) (fourth_index b) =? b) = true.
Proof.
  apply (pairs_forall (λ a b, (octet1 (first_index a) (second_index a b) =? a) && (octet3 (third_index a b) (fourth_index b) =? b))).
  by vm_compute.
Qed.

Lemma octet2_ok a b c : is_byte a → is_byte b → is_byte c → octet2 (second_index a b) (third_index b c) = b.
Proof.
  intros Ha Hb Hc. unfold second_index, third_index.
  assert (Hx : 0 ≤ Z.land a 3 < 4) by (rewrite (land_low 2) by lia; apply Z.mod_pos_bound; lia).
  assert (Hy : 0 ≤ Z.shiftr (Z.land c 192) 6 < 4).
  { rewrite Z.shiftr_land. change (Z.shiftr 192 6) with (2 ^ 2 - 1). rewrite land_low by lia. apply Z.mod_pos_bound; lia. }
  revert Hx Hy. generalize (Z.land a 3) as x, (Z.shiftr (Z.land c 192) 6) as y. intros x y Hx Hy.
  apply Z.eqb_eq. revert y Hy. apply small_forall. revert x Hx. apply small_forall. revert b Hb. apply byte_forall. by vm_compute.
Qed.

(** Three bytes at a time. *)
Lemma triple_induction (P : bytes → Prop) :
  P [] → (∀ a, P [a]) → (∀ a b, P [a; b]) → (∀ a b c rest, P rest → P (a :: b :: c :: rest)) → ∀ s, P s.
Proof.
  intros H0 H1 H2 H3 s. assert (∀ n s, (length s ≤ n)%nat → P s) as Hn; [|by apply (Hn (length s))].
  clear s. intros n. induction n as [|n IH]; intros [|a [|b [|c rest]]] Hl; auto; cbn in Hl; try lia. apply H3, IH. lia.
Qed.

Section roundtrip.
Context (alphabet : bytes) (indexmap : list Z) (Hok : table_ok alphabet indexmap = true).

(** The indices of an encoded text. *)
Fixpoint indices_of (input : bytes) : list Z :=
  match input with
  | [] => []
  | [a] => [first_index a; second_index a 0]
  | [a; b] => [first_index a; second_index a b; third_index b 0]
  | a :: b :: c :: rest => first_index a :: second_index a b :: third_index b c :: fourth_index c :: indices_of rest
  end.

Lemma below_range x : below_64 x = true → 0 ≤ x < 64.
Proof. unfold below_64. intros [?%Z.leb_le ?%Z.ltb_lt]%andb_true_iff. lia. Qed.

Lemma index_ranges a b :
  is_byte a → is_byte b →
  (0 ≤ first_index a < 64 ∧ 0 ≤ fourth_index a < 64) ∧ 0 ≤ second_index a b < 64 ∧ 0 ≤ third_index a b < 64.
Proof.
  intros Ha Hb. pose proof (sextets_ok a b Ha Hb) as H. rewrite !andb_true_iff in H. destruct H as [[[H1 H2] H3] H4].
  by repeat split; apply below_range.
Qed.

Lemma scan_encoded input : all_bytes input → scan_indices indexmap (base64_encode alphabet input) = Ok (indices_of input).
Proof.
  assert (H0 : is_byte 0) by (unfold is_byte, fits; lia).
  induction input as [|a|a b|a b c rest IH] using triple_induction; intros Hb; unfold all_bytes in *; cbn [base64_encode indices_of].
  - done.
  - apply Forall_cons_iff in Hb as [Ha _]. destruct (index_ranges a 0 Ha H0) as ([? ?] & ? & ?).
    replace (Z.shiftl (Z.land a 3) 4) with (second_index a 0) by (unfold second_index; by rewrite Z.lor_0_r).
    by rewrite !(scan_sextet alphabet indexmap Hok), (scan_padding alphabet indexmap Hok) by done.
  - rewrite !Forall_cons_iff in Hb. destruct Hb as (Ha & Hb & _). destruct (index_ranges a b Ha Hb) as ([? ?] & ? & ?).
    destruct (index_ranges b 0 Hb H0) as ([? ?] & ? & ?).
    replace (Z.shiftl (Z.land b 15) 2) with (third_index b 0) by (unfold third_index; by rewrite Z.lor_0_r).
    by rewrite !(scan_sextet alphabet indexmap Hok), (scan_padding alphabet indexmap Hok) by done.
  - rewrite !Forall_cons_iff in Hb. destruct Hb as (Ha & Hb & Hc & Hr). destruct (index_ranges a b Ha Hb) as ([? ?] & ? & ?).
    destruct (index_ranges b c Hb Hc) as ([? ?] & ? & ?). destruct (index_ranges c 0 Hc H0) as ([? ?] & ? & ?).
    by rewrite !(scan_sextet alphabet indexmap Hok), IH by done.
Qed.

Lemma decode_indices_of input : all_bytes input → decode_indices (indices_of input) = input.
Proof.
  assert (H0 : is_byte 0) by (unfold is_byte, fits; lia).
  induction input as [|a|a b|a b c rest IH] using triple_induction; intros Hb; unfold all_bytes in *; cbn [indices_of decode_indices].
  - done.
  - apply Forall_cons_iff in Hb as [Ha _]. pose proof (octets_ok a 0 Ha H0) as [H1%Z.eqb_eq _]%andb_true_iff. by rewrite H1.
  - rewrite !Forall_cons_iff in Hb. destruct Hb as (Ha & Hb & _).
    pose proof (octets_ok a b Ha Hb) as [H1%Z.eqb_eq _]%andb_true_iff. by rewrite H1, octet2_ok.
  - rewrite !Forall_cons_iff in Hb. destruct Hb as (Ha & Hb & Hc & Hr).
    pose proof (octets_ok a b Ha Hb) as [H1%Z.eqb_eq _]%andb_true_iff.
    pose proof (octets_ok b c Hb Hc) as [_ H3%Z.eqb_eq]%andb_true_iff.
    destruct (indices_of rest) as [|i is'] eqn:Hi.
    + rewrite H1, octet2_ok, H3 by done. specialize (IH Hr). cbn in IH. by rewrite <- IH.
    + by rewrite H1, octet2_ok, H3, IH by done.
Qed.

(** The returned count is the number of bytes written. *)
Lemma decodedCount_step n : 0 < n → decodedCount (n + 4) = 3 + decodedCount n.
Proof.
  intros Hn. unfold decodedCount. rewrite (proj2 (Z.eqb_neq n 0)), (proj2 (Z.eqb_neq (n + 4) 0)) by lia.
  replace (n + 4 - 1) with (n - 1 + 1 * 4) by lia. rewrite Z.mod_add by lia.
  replace (n + 4 + 3) with (n + 3 + 1 * 4) by lia. rewrite Z.div_add by lia. lia.
Qed.

Lemma decode_indices_length ixs : Z.of_nat (length (decode_indices ixs)) = decodedCount (Z.of_nat (length ixs)).
Proof.
  assert (∀ n ixs, (length ixs ≤ n)%nat → Z.of_nat (length (decode_indices ixs)) = decodedCount (Z.of_nat (length ixs)))
    as Hn; [|by apply (Hn (length ixs))].
  clear ixs. intros n. induction n as [|n IH]; intros [|i [|j [|k [|l [|m rest]]]]] Hl; try done; [cbn in Hl; lia|].
  change (decode_indices (i :: j :: k :: l :: m :: rest)) with
    (octet1 i j :: octet2 j k :: octet3 k l :: decode_indices (m :: rest)).
  pose proof (IH (m :: rest)) as Hm. cbn [length] in *. replace (Z.of_nat (S (S (S (S (S (length rest)))))))
    with (Z.of_nat (S (length rest)) + 4) by lia.
  rewrite decodedCount_step, <- Hm by lia. lia.
Qed.

(** C36 (roundtrip). Decoding what was encoded gives the bytes back, for both
    alphabets (any alphabet and index table that belong together): every byte,
    whatever the length and so the padding. *)
Theorem base64_roundtrip input : all_bytes input → base64_decode indexmap (base64_encode alphabet input) = Ok input.
Proof.
  intros Hb. unfold base64_decode. rewrite scan_encoded by done. cbn [mbind result_bind].
  by rewrite <- decode_indices_length, Nat2Z.id, decode_indices_of, firstn_all by done.
Qed.
End roundtrip.

Lemma base64_roundtrip_witness :
  base64_decode base64_indexmap (base64_encode base64_alphabet (str "foo:bar")) = Ok (str "foo:bar") ∧
  base64_decode base64url_indexmap (base64_encode base64url_alphabet [255; 254]) = Ok [255; 254].
Proof.
  split; apply base64_roundtrip; try apply base64_tables; [apply str_bytes|].
  repeat constructor; unfold is_byte, fits; lia.
Defined.

Example base64_foobar : base64_encode base64_alphabet (str "foo:bar") = str "Zm9vOmJhcg==".
Proof. by vm_compute. Qed.
