(* ===== verification/HttpMessage.v ===== *)
(** * HTTP messages

    What the channel of an HTTP connection works on: the request and response
    objects of [src/xzero/http] ([HttpMethod.cc], [HttpStatus.h], [HttpInfo.h],
    [HttpRequestInfo.h], [HttpRequest.cc], [HttpResponseInfo.h]), the tokenizer of
    [Tokenizer.h], the filter chain of [io/Filter.cc] and the conversion
    [std::stoi] they use. *)
From S2P Require Import Prelude HeaderFieldList Http1Parser Http1Generator RequestUri.

#[export] Instance HttpVersion_eq_dec : EqDecision HttpVersion.
Proof. solve_decision. Defined.

(** ** Methods *)

Inductive HttpMethod :=
  | UNKNOWN_METHOD | OPTIONS | GET | HEAD | POST | PUT | DELETE | TRACE | CONNECT
  | PROPFIND | PROPPATCH | MKCOL | COPY | MOVE | LOCK | UNLOCK.

#[export] Instance HttpMethod_eq_dec : EqDecision HttpMethod.
Proof. solve_decision. Defined.

Definition method_string (m : HttpMethod) : bytes :=
  match m with
  | UNKNOWN_METHOD => str "UNKNOWN_METHOD"
  | OPTIONS => str "OPTIONS"
  | GET => str "GET"
  | HEAD => str "HEAD"
  | POST => str "POST"
  | PUT => str "PUT"
  | DELETE => str "DELETE"
  | TRACE => str "TRACE"
  | CONNECT => str "CONNECT"
  | PROPFIND => str "PROPFIND"
  | PROPPATCH => str "PROPPATCH"
  | MKCOL => str "MKCOL"
  | COPY => str "COPY"
  | MOVE => str "MOVE"
  | LOCK => str "LOCK"
  | UNLOCK => str "UNLOCK"
  end.

(** The table of [to_method], which has no entry for [LOCK] and [UNLOCK]. *)
Definition method_table : list (bytes * HttpMethod) := [
  (str "CONNECT", CONNECT); (str "COPY", COPY); (str "DELETE", DELETE); (str "GET", GET);
  (str "HEAD", HEAD); (str "MKCOL", MKCOL); (str "MOVE", MOVE); (str "OPTIONS", OPTIONS);
  (str "POST", POST); (str "PROPFIND", PROPFIND); (str "PROPPATCH", PROPPATCH); (str "PUT", PUT);
  (str "TRACE", TRACE)].

Definition to_method (value : bytes) : HttpMethod :=
  match list_find (λ e, e.1 = value) method_table with
  | Some (_, (_, m)) => m
  | None => UNKNOWN_METHOD
  end.

(** ** Status codes: the number, with the classes of [HttpStatus.h]. *)

Definition isClientError (code : Z) : bool := Z.quot code 100 =? 4.
Definition isServerError (code : Z) : bool := Z.quot code 100 =? 5.
Definition isError (code : Z) : bool := isClientError code || isServerError code.

(** ** [std::stoi], [std::stoll]: [strtol] skips white space, takes a sign and
    the digits that follow; no digit is [std::invalid_argument], a value outside
    the result type [std::out_of_range]. *)
Fixpoint std_digits (acc : Z) (s : bytes) : Z :=
  match s with
  | c :: t => if isdigit c then std_digits (acc * 10 + (c - 48)) t else acc
  | [] => acc
  end.

Definition std_unsigned (s : bytes) : option Z :=
  match s with
  | c :: _ => if isdigit c then Some (std_digits 0 s) else None
  | [] => None
  end.

Definition std_stox (lo hi : Z) (s : bytes) : result Z :=
  let s := skip_spaces s in
  let v := match s with
           | 45 :: t => Z.opp <$> std_unsigned t
           | 43 :: t => std_unsigned t
           | _ => std_unsigned s
           end in
  match v with
  | Some v => if (lo <=? v) && (v <=? hi) then Ok v else Raise StdOutOfRange
  | None => Raise StdInvalidArgument
  end.

Definition std_stoi : bytes → result Z := std_stox (- 2 ^ 31) (2 ^ 31 - 1).
Definition std_stoll : bytes → result Z := std_stox (- 2 ^ 63) (2 ^ 63 - 1).

(** ** The tokenizer: [end] skips delimiters, [nextToken] takes the characters
    up to the next one. Each round of [tokenize] takes at least one. *)
Definition is_delim (delims : bytes) (c : Z) : bool := bool_decide (c ∈ delims).

Fixpoint consumeDelimiter (delims s : bytes) : bytes :=
  match s with
  | c :: t => if is_delim delims c then consumeDelimiter delims t else s
  | [] => []
  end.

Fixpoint tok_word (delims s : bytes) : bytes * bytes :=
  match s with
  | c :: t => if is_delim delims c then ([], s) else let '(w, rest) := tok_word delims t in (c :: w, rest)
  | [] => ([], [])
  end.

Fixpoint tok_loop (fuel : nat) (delims s : bytes) : list bytes :=
  match consumeDelimiter delims s, fuel with
  | [], _ | _, O => []
  | s, S fuel => let '(w, rest) := tok_word delims s in w :: tok_loop fuel delims rest
  end.

Definition tokenize (delims s : bytes) : list bytes := tok_loop (length s) delims s.

(** ** Messages *)

(** [HttpResponseInfo] with the members of its base [HttpInfo]. *)
Record RespInfo := mkRespInfo {
  i_version : HttpVersion;
  i_status : Z;
  i_reason : bytes;
  i_isHead : bool;
  i_contentLength : Z;
  i_headers : HeaderFieldList;
  i_trailers : HeaderFieldList;
}.

(** The default constructor, which is also what [reset] restores. *)
Definition newRespInfo : RespInfo := mkRespInfo UNKNOWN 0 [] false UnknownContentLength [] [].

Definition info_setVersion (v : HttpVersion) (i : RespInfo) : RespInfo :=
  mkRespInfo v (i_status i) (i_reason i) (i_isHead i) (i_contentLength i) (i_headers i) (i_trailers i).
Definition info_setStatus (s : Z) (i : RespInfo) : RespInfo :=
  mkRespInfo (i_version i) s (i_reason i) (i_isHead i) (i_contentLength i) (i_headers i) (i_trailers i).
Definition info_setReason (r : bytes) (i : RespInfo) : RespInfo :=
  mkRespInfo (i_version i) (i_status i) r (i_isHead i) (i_contentLength i) (i_headers i) (i_trailers i).
Definition info_setIsHead (b : bool) (i : RespInfo) : RespInfo :=
  mkRespInfo (i_version i) (i_status i) (i_reason i) b (i_contentLength i) (i_headers i) (i_trailers i).
Definition info_setContentLength (n : Z) (i : RespInfo) : RespInfo :=
  mkRespInfo (i_version i) (i_status i) (i_reason i) (i_isHead i) n (i_headers i) (i_trailers i).
Definition info_setHeaders (h : HeaderFieldList) (i : RespInfo) : RespInfo :=
  mkRespInfo (i_version i) (i_status i) (i_reason i) (i_isHead i) (i_contentLength i) h (i_trailers i).
Definition info_setTrailers (t : HeaderFieldList) (i : RespInfo) : RespInfo :=
  mkRespInfo (i_version i) (i_status i) (i_reason i) (i_isHead i) (i_contentLength i) (i_headers i) t.

Definition info_hasContentLength (i : RespInfo) : bool := negb (i_contentLength i =? UnknownContentLength).

(** The response as the generator of HTTP/1 sees it. *)
Definition field_pair (f : HeaderField) : bytes * bytes := (fld_name f, fld_value f).

Definition to_generator (i : RespInfo) : HttpResponseInfo :=
  mkHttpResponseInfo (i_status i) (i_reason i)
    (mkHttpInfo (i_version i) (i_contentLength i) (field_pair <$> i_headers i) (field_pair <$> i_trailers i)).

(** [HttpRequest] with the members of its bases; an address is its text, the
    buffered content the bytes written to it. The two callbacks of the content
    are kept by the channel. *)
Record HttpRequest := mkHttpRequest {
  q_version : HttpVersion;
  q_unparsedMethod : bytes;
  q_method : HttpMethod;
  q_uri : UriInfo;
  q_contentLength : Z;
  q_headers : HeaderFieldList;
  q_remoteAddress : option bytes;
  q_localAddress : option bytes;
  q_bytesReceived : Z;
  q_host : bytes;
  q_secure : bool;
  q_expect100Continue : bool;
  q_content : bytes;
  q_username : bytes;
}.

(** The constructor gives the content length 0, [recycle] the unknown one. *)
Definition newHttpRequest : HttpRequest :=
  mkHttpRequest UNKNOWN [] UNKNOWN_METHOD newUriInfo 0 [] None None 0 [] false false [] [].

Definition request_recycle (q : HttpRequest) : HttpRequest :=
  mkHttpRequest UNKNOWN [] UNKNOWN_METHOD newUriInfo UnknownContentLength [] None None 0 [] false false [] [].

Definition req_setVersion (v : HttpVersion) (q : HttpRequest) : HttpRequest :=
  mkHttpRequest v (q_unparsedMethod q) (q_method q) (q_uri q) (q_contentLength q) (q_headers q) (q_remoteAddress q)
    (q_localAddress q) (q_bytesReceived q) (q_host q) (q_secure q) (q_expect100Continue q) (q_content q) (q_username q).
Definition req_setMethod (m : bytes) (q : HttpRequest) : HttpRequest :=
  mkHttpRequest (q_version q) m (to_method m) (q_uri q) (q_contentLength q) (q_headers q) (q_remoteAddress q)
    (q_localAddress q) (q_bytesReceived q) (q_host q) (q_secure q) (q_expect100Continue q) (q_content q) (q_username q).
Definition req_withUri (u : UriInfo) (q : HttpRequest) : HttpRequest :=
  mkHttpRequest (q_version q) (q_unparsedMethod q) (q_method q) u (q_contentLength q) (q_headers q) (q_remoteAddress q)
    (q_localAddress q) (q_bytesReceived q) (q_host q) (q_secure q) (q_expect100Continue q) (q_content q) (q_username q).
Definition req_setContentLength (n : Z) (q : HttpRequest) : HttpRequest :=
  mkHttpRequest (q_version q) (q_unparsedMethod q) (q_method q) (q_uri q) n (q_headers q) (q_remoteAddress q)
    (q_localAddress q) (q_bytesReceived q) (q_host q) (q_secure q) (q_expect100Continue q) (q_content q) (q_username q).
Definition req_setHeaders (h : HeaderFieldList) (q : HttpRequest) : HttpRequest :=
  mkHttpRequest (q_version q) (q_unparsedMethod q) (q_method q) (q_uri q) (q_contentLength q) h (q_remoteAddress q)
    (q_localAddress q) (q_bytesReceived q) (q_host q) (q_secure q) (q_expect100Continue q) (q_content q) (q_username q).
Definition req_setAddresses (remote local : option bytes) (q : HttpRequest) : HttpRequest :=
  mkHttpRequest (q_version q) (q_unparsedMethod q) (q_method q) (q_uri q) (q_contentLength q) (q_headers q) remote
    local (q_bytesReceived q) (q_host q) (q_secure q) (q_expect100Continue q) (q_content q) (q_username q).
Definition req_setBytesReceived (n : Z) (q : HttpRequest) : HttpRequest :=
  mkHttpRequest (q_version q) (q_unparsedMethod q) (q_method q) (q_uri q) (q_contentLength q) (q_headers q)
    (q_remoteAddress q) (q_localAddress q) n (q_host q) (q_secure q) (q_expect100Continue q) (q_content q) (q_username q).
Definition req_setHost (h : bytes) (q : HttpRequest) : HttpRequest :=
  mkHttpRequest (q_version q) (q_unparsedMethod q) (q_method q) (q_uri q) (q_contentLength q) (q_headers q)
    (q_remoteAddress q) (q_localAddress q) (q_bytesReceived q) h (q_secure q) (q_expect100Continue q) (q_content q)
    (q_username q).
Definition req_setExpect100Continue (b : bool) (q : HttpRequest) : HttpRequest :=
  mkHttpRequest (q_version q) (q_unparsedMethod q) (q_method q) (q_uri q) (q_contentLength q) (q_headers q)
    (q_remoteAddress q) (q_localAddress q) (q_bytesReceived q) (q_host q) (q_secure q) b (q_content q) (q_username q).
Definition req_writeContent (chunk : bytes) (q : HttpRequest) : HttpRequest :=
  mkHttpRequest (q_version q) (q_unparsedMethod q) (q_method q) (q_uri q) (q_contentLength q) (q_headers q)
    (q_remoteAddress q) (q_localAddress q) (q_bytesReceived q) (q_host q) (q_secure q) (q_expect100Continue q)
    (q_content q ++ chunk) (q_username q).

(** ** Filters

    A filter is an object with one method, [filter(input, output, last)], that
    may throw; what zlib does is behind it. [FilterImpl] is the interface: the
    objects, the method (which is given the output buffer's contents) and the
    constructor of the compressing filter. *)
Class FilterImpl (F : Type) := {
  filter_apply : F → bytes → bytes → bool → result (F * bytes);
  gzip_filter : Z → F;
}.

(** A filter that only appends to its output, as [GzipFilter] does. *)
Definition appends {F} `{FilterImpl F} (f : F) : Prop :=
  ∀ input out last, filter_apply f input out last =
    match filter_apply f input [] last with Ok (f', o) => Ok (f', out ++ o) | Raise e => Raise e end.

(** The loop of [applyFilters]: [tmp] and [output] change roles; [output] keeps
    what [tmp] held before. *)
Fixpoint apply_rest {F} `{FilterImpl F} (fs : list F) (tmp output : bytes) (last : bool) : result (list F * bytes) :=
  match fs with
  | [] => Ok ([], output)
  | f :: fs =>
      '(f', output') ← filter_apply f output tmp last;
      '(fs', out) ← apply_rest fs output output' last;
      Ok (f' :: fs', out)
  end.

Definition applyFilters {F} `{FilterImpl F} (fs : list F) (input output : bytes) (last : bool) : result (list F * bytes) :=
  match fs with
  | [] => Ok ([], input)
  | f :: fs =>
      '(f', output') ← filter_apply f input output last;
      '(fs', out) ← apply_rest fs [] output' last;
      Ok (f' :: fs', out)
  end.

(** A file: its size, and the bytes that reading it yields. *)
Record FileView := mkFileView { fv_size : Z; fv_data : bytes }.

(** [FileView::fill]: all of it is read, or it fails. *)
Definition fileView_fill (file : FileView) : result bytes :=
  if Z.of_nat (length (fv_data file)) =? fv_size file then Ok (fv_data file) else Raise RuntimeError.

(** The test of the size that follows [fill] never fails. *)
Definition applyFilters_file {F} `{FilterImpl F} (fs : list F) (file : FileView) (output : bytes) (last : bool) :
    result (list F * bytes) :=
  input ← fileView_fill file;
  if negb (Z.of_nat (length input) =? fv_size file) then Raise StdRuntimeError
  else applyFilters fs input output last.

(** ** Facts *)

(** The tokens are what is between the delimiters: none is empty or has a
    delimiter, and together they are the other characters in order. *)
Lemma consumeDelimiter_spec delims s :
  let s' := consumeDelimiter delims s in
  (length s' ≤ length s)%nat ∧ List.filter (negb ∘ is_delim delims) s' = List.filter (negb ∘ is_delim delims) s ∧
  match s' with c :: _ => is_delim delims c = false | [] => True end.
Proof.
  induction s as [|c s IH]; cbn; [done|]. destruct (is_delim delims c) eqn:Hc; cbn; rewrite ?Hc; [|done].
  cbn in IH. destruct IH as (? & ? & ?). split; [lia|done].
Qed.

Lemma tok_word_spec delims s :
  let '(w, rest) := tok_word delims s in
  s = w ++ rest ∧ Forall (λ c, is_delim delims c = false) w ∧
  List.filter (negb ∘ is_delim delims) s = w ++ List.filter (negb ∘ is_delim delims) rest.
Proof.
  induction s as [|c s IH]; cbn; [done|]. destruct (is_delim delims c) eqn:Hc; cbn; rewrite ?Hc; [done|].
  destruct (tok_word delims s) as [w rest]. destruct IH as (-> & Hw & Hf). cbn. by rewrite Hf; repeat constructor.
Qed.

Lemma tok_loop_spec fuel delims s :
  (length s ≤ fuel)%nat →
  Forall (λ w, w ≠ [] ∧ Forall (λ c, is_delim delims c = false) w) (tok_loop fuel delims s) ∧
  concat (tok_loop fuel delims s) = List.filter (negb ∘ is_delim delims) s.
Proof.
  revert s; induction fuel as [|fuel IH]; intros s Hs; destruct (consumeDelimiter_spec delims s) as (Hl & Hf & Hh).
  - destruct s; [by cbn|cbn in Hs; lia].
  - cbn [tok_loop]. rewrite <- Hf. destruct (consumeDelimiter delims s) as [|c t] eqn:Hc; [done|].
    pose proof (tok_word_spec delims (c :: t)) as Hw. destruct (tok_word delims (c :: t)) as [w rest] eqn:Hr.
    destruct Hw as (He & Hw & ->). assert (Hn : w ≠ []).
    { cbn in Hr. rewrite Hh in Hr. destruct (tok_word delims t). by injection Hr as <- <-. }
    assert (length rest ≤ fuel)%nat.
    { apply (f_equal length) in He. rewrite length_app in He. destruct w; [done|]. cbn in *. lia. }
    destruct (IH rest) as [HF HC]; [done|]. cbn. by rewrite HC; repeat constructor.
Qed.

Lemma tokenize_spec delims s :
  Forall (λ w, w ≠ [] ∧ Forall (λ c, is_delim delims c = false) w) (tokenize delims s) ∧
  concat (tokenize delims s) = List.filter (negb ∘ is_delim delims) s.
Proof. by apply tok_loop_spec. Qed.

(** Methods survive printing and parsing, but for two that are missing. *)
Lemma to_method_string m : to_method (method_string m) = if bool_decide (m = LOCK ∨ m = UNLOCK) then UNKNOWN_METHOD else m.
Proof. by destruct m; vm_compute. Qed.

(** Two filters that append are applied one after the other; the output of a
    third starts with what the first one left in the buffer. *)
Lemma applyFilters_two {F} `{FilterImpl F} f g input last :
  applyFilters [f; g] input [] last =
  ('(f', a) ← filter_apply f input [] last; '(g', b) ← filter_apply g a [] last; Ok ([f'; g'], b)).
Proof.
  unfold applyFilters. cbn. destruct (filter_apply f input [] last) as [[f' a]|]; [|done]. cbn.
  by destruct (filter_apply g a [] last) as [[g' b]|].
Qed.

Lemma applyFilters_three_garbage {F} `{FilterImpl F} f g h f' g' h' input a b c last :
  appends h → filter_apply f input [] last = Ok (f', a) → filter_apply g a [] last = Ok (g', b) →
  filter_apply h b [] last = Ok (h', c) →
  applyFilters [f; g; h] input [] last = Ok ([f'; g'; h'], a ++ c).
Proof. intros Hh Hf Hg Hc. unfold applyFilters. cbn. rewrite Hf. cbn. rewrite Hg. cbn. rewrite Hh, Hc. done. Qed.
