(* ===== verification/FlowBuilder.v ===== *)
(** * The builder of the intermediate representation

    [src/xzero-flow/ir/IRBuilder.cc]: one function per operation of the language;
    each appends an instruction to a block, or computes the result at once when
    its operands are constants. The names it invents for values are left out. *)
From stdpp Require Import gmap.
From S2P Require Import Prelude FlowType NetAddress FlowConstants FlowIr FlowInstruction Http1Parser FlowVm HttpMessage.
Implicit Types h : IRHandler.

(** ** Types of values *)

Definition find_instr h (v : nat) : option Instr :=
  head (List.filter (λ i, bool_decide (in_id i = v)) (hd_blocks h ≫= code_of h)).
(** [value->type()]; a null pointer or an object that is gone has none. *)
Definition value_type h (o : Operand) : result FlowType :=
  match o with
  | OConst c => Ok (constant_type c)
  | OInstr v => match find_instr h v with Some i => Ok (in_type i) | None => Raise UndefinedBehaviour end
  | OBlock _ => Ok TVoid
  | ONull => Raise UndefinedBehaviour
  end.
Definition assert_type h (o : Operand) (t : FlowType) : result unit :=
  ty ← value_type h o; ensure (bool_decide (ty = t)) AssertionFailure.
Definition assert_same_type h (a b : Operand) : result unit :=
  x ← value_type h a; y ← value_type h b; ensure (bool_decide (x = y)) AssertionFailure.

(** ** Inserting *)

(** [insert] at the insert point [b]; the instruction is the value. *)
Definition ir_insert (b : nat) (k : InstrKind) (ty : FlowType) (ops : list Operand) h : Operand * IRHandler :=
  (OInstr (hd_next h), push_new b k ty ops h).
Definition ir_value : Type := result (Operand * IRHandler).
Definition constant (c : IrConstant) h : ir_value := Ok (OConst c, h).
Definition insert_unary (b : nat) (op : UnaryOperator) (rhs : Operand) h : ir_value :=
  Ok (ir_insert b (UnaryInstr op) (unary_type op) [rhs] h).
Definition insert_binary (b : nat) (op : BinaryOperator) (lhs rhs : Operand) h : ir_value :=
  Ok (ir_insert b (BinaryInstr op) (binary_type op) [lhs; rhs] h).

Definition createAlloca (b : nat) (ty : FlowType) (arraySize : Operand) h : ir_value := Ok (ir_insert b AllocaInstr ty [arraySize] h).
Definition createLoad (b : nat) (value : Operand) h : ir_value :=
  match value with
  | OConst _ => Ok (value, h)
  | _ => ty ← value_type h value; Ok (ir_insert b LoadInstr ty [value] h)
  end.
Definition createStore (b : nat) (lhs : Operand) (index : Z) (rhs : Operand) h : ir_value :=
  match lhs with
  | OInstr v =>
      match find_instr h v with
      | Some i => _ ← ensure (bool_decide (in_kind i = AllocaInstr)) AssertionFailure;
                  Ok (ir_insert b StoreInstr TVoid [lhs; OConst (ConstantInt index); rhs] h)
      | None => Raise UndefinedBehaviour
      end
  | _ => Raise AssertionFailure
  end.
Definition createPhi (b : nat) (incomings : list Operand) h : ir_value :=
  match incomings with
  | [] => Raise UndefinedBehaviour
  | o :: _ => ty ← value_type h o; Ok (ir_insert b PhiNode ty incomings h)
  end.

(** ** Boolean operations *)

Definition createBNot (b : nat) (rhs : Operand) h : ir_value :=
  _ ← assert_type h rhs TBoolean;
  match rhs with
  | OConst (ConstantBoolean x) => constant (ConstantBoolean (negb x)) h
  | _ => insert_unary b BNot rhs h
  end.
Definition createBAnd (b : nat) (lhs rhs : Operand) h : ir_value :=
  _ ← assert_type h rhs TBoolean;
  match lhs, rhs with
  | OConst (ConstantBoolean x), OConst (ConstantBoolean y) => constant (ConstantBoolean (x && y)) h
  | _, _ => insert_binary b BAnd lhs rhs h
  end.
(** It inserts the instruction of the conjunction. *)
Definition createBXor (b : nat) (lhs rhs : Operand) h : ir_value :=
  _ ← assert_type h rhs TBoolean;
  match lhs, rhs with
  | OConst (ConstantBoolean x), OConst (ConstantBoolean y) => constant (ConstantBoolean (xorb x y)) h
  | _, _ => insert_binary b BAnd lhs rhs h
  end.

(** ** Numbers *)

(** [get(int64_t)], also for the result of a comparison; what does not fit is
    undefined. *)
Definition get_int (z : Z) : result IrConstant :=
  if (- 2 ^ 63 <=? z) && (z <? 2 ^ 63) then Ok (ConstantInt z) else Raise UndefinedBehaviour.
Definition get_bit (b : bool) : result IrConstant := Ok (ConstantInt (bit b)).

Definition create_numeric (b : nat) (op : BinaryOperator) (f : Z → Z → result IrConstant) (lhs rhs : Operand) h : ir_value :=
  _ ← assert_same_type h lhs rhs;
  _ ← assert_type h lhs TNumber;
  match lhs, rhs with
  | OConst (ConstantInt x), OConst (ConstantInt y) => c ← f x y; constant c h
  | _, _ => insert_binary b op lhs rhs h
  end.

Definition createNeg (b : nat) (rhs : Operand) h : ir_value :=
  _ ← assert_type h rhs TNumber;
  match rhs with
  | OConst (ConstantInt x) => c ← get_int (- x); constant c h
  | _ => insert_unary b INeg rhs h
  end.
Definition createNot (b : nat) (rhs : Operand) h : ir_value :=
  _ ← assert_type h rhs TNumber;
  match rhs with
  | OConst (ConstantInt x) => c ← get_int (Z.lnot x); constant c h
  | _ => insert_unary b INot rhs h
  end.
Definition createAdd (b : nat) := create_numeric b IAdd (λ x y, get_int (x + y)).
Definition createSub (b : nat) := create_numeric b ISub (λ x y, get_int (x - y)).
Definition createMul (b : nat) := create_numeric b IMul (λ x y, get_int (x * y)).
Definition createDiv (b : nat) :=
  create_numeric b IDiv (λ x y, _ ← ensure (negb (y =? 0)) UndefinedBehaviour; get_int (Z.quot x y)).
Definition createRem (b : nat) :=
  create_numeric b IRem (λ x y, _ ← ensure (negb (y =? 0) && negb ((x =? - 2 ^ 63) && (y =? -1))) UndefinedBehaviour; get_int (Z.rem x y)).
Definition createShl (b : nat) :=
  create_numeric b IShl (λ x y, _ ← ensure ((0 <=? y) && (y <? 64) && (0 <=? x) && (x * 2 ^ y <? 2 ^ 64)) UndefinedBehaviour; get_int (s64 (x * 2 ^ y))).
Definition createShr (b : nat) :=
  create_numeric b IShr (λ x y, _ ← ensure ((0 <=? y) && (y <? 64)) UndefinedBehaviour; get_int (Z.shiftr x y)).
(** [powl] is the power converted to [int64_t], or nothing where that is
    undefined. *)
Definition createPow (powl : Z → Z → option Z) (b : nat) :=
  create_numeric b IPow (λ x y, match powl x y with Some z => get_int z | None => Raise UndefinedBehaviour end).
Definition createAnd (b : nat) := create_numeric b IAnd (λ x y, get_int (Z.land x y)).
Definition createOr (b : nat) := create_numeric b IOr (λ x y, get_int (Z.lor x y)).
Definition createXor (b : nat) := create_numeric b IXor (λ x y, get_int (Z.lxor x y)).
Definition createNCmpEQ (b : nat) := create_numeric b ICmpEQ (λ x y, get_bit (x =? y)).
Definition createNCmpNE (b : nat) := create_numeric b ICmpNE (λ x y, get_bit (negb (x =? y))).
Definition createNCmpLE (b : nat) := create_numeric b ICmpLE (λ x y, get_bit (x <=? y)).
Definition createNCmpGE (b : nat) := create_numeric b ICmpGE (λ x y, get_bit (y <=? x)).
Definition createNCmpLT (b : nat) := create_numeric b ICmpLT (λ x y, get_bit (x <? y)).
Definition createNCmpGT (b : nat) := create_numeric b ICmpGT (λ x y, get_bit (y <? x)).

(** ** Strings *)

Definition createSAdd (b : nat) (lhs rhs : Operand) h : ir_value :=
  _ ← assert_same_type h lhs rhs;
  _ ← assert_type h lhs TString;
  match lhs, rhs with
  | OConst (ConstantString x), OConst (ConstantString y) => constant (ConstantString (x ++ y)) h
  | OConst (ConstantString []), _ => Ok (rhs, h)
  | OConst (ConstantString (_ :: _)), _ => insert_binary b SAdd lhs rhs h
  | _, OConst (ConstantString []) => Ok (rhs, h)
  | _, _ => insert_binary b SAdd lhs rhs h
  end.

Definition create_string (checked : bool) (b : nat) (op : BinaryOperator) (f : bytes → bytes → result bool) (lhs rhs : Operand) h : ir_value :=
  _ ← (if checked then _ ← assert_same_type h lhs rhs; assert_type h lhs TString else Ok ());
  match lhs, rhs with
  | OConst (ConstantString x), OConst (ConstantString y) => r ← f x y; c ← get_bit r; constant c h
  | _, _ => insert_binary b op lhs rhs h
  end.
Definition less_equal (x y : bytes) : bool := negb (bool_decide (bytes_compare x y = Gt)).
Definition createSCmpEQ (b : nat) := create_string true b SCmpEQ (λ x y, Ok (bool_decide (x = y))).
Definition createSCmpNE (b : nat) := create_string true b SCmpNE (λ x y, Ok (negb (bool_decide (x = y)))).
Definition createSCmpLE (b : nat) := create_string true b SCmpLE (λ x y, Ok (less_equal x y)).
Definition createSCmpGE (b : nat) := create_string true b SCmpGE (λ x y, Ok (less_equal y x)).
Definition createSCmpLT (b : nat) := create_string true b SCmpLT (λ x y, Ok (negb (less_equal y x))).
Definition createSCmpGT (b : nat) := create_string true b SCmpGT (λ x y, Ok (negb (less_equal x y))).
Definition createSCmpRE (b : nat) (lhs rhs : Operand) h : ir_value :=
  _ ← assert_type h lhs TString;
  _ ← assert_type h rhs TRegExp;
  insert_binary b SCmpRE lhs rhs h.
Definition createSCmpEB (b : nat) := create_string false b SCmpBeg (λ x y, Ok (beginsWith x y)).
Definition createSCmpEE (b : nat) := create_string false b SCmpEnd (λ x y, Ok (endsWith x y)).
(** A [std::string] has a zero byte behind its text. *)
Definition createSIn (b : nat) := create_string false b SIn (λ x y,
  match find (y, [0]) (x, [0]) with inr r => Ok (bool_decide (is_Some r)) | inl _ => Raise UndefinedBehaviour end).

(** ** Addresses *)

Definition create_ip (b : nat) (op : BinaryOperator) (f : IPAddress → IPAddress → bool) (lhs rhs : Operand) h : ir_value :=
  match lhs, rhs with
  | OConst (ConstantIP x), OConst (ConstantIP y) => c ← get_bit (f x y); constant c h
  | _, _ => insert_binary b op lhs rhs h
  end.
(** [get()] returns a copy. *)
Definition createPCmpEQ (b : nat) := create_ip b PCmpEQ (ip_equals false).
Definition createPCmpNE (b : nat) := create_ip b PCmpNE (λ x y, negb (ip_equals false x y)).
Definition createPInCidr (b : nat) (lhs rhs : Operand) h : ir_value :=
  match lhs, rhs with
  | OConst (ConstantIP x), OConst (ConstantCidr y) => r ← cidr_contains y x; c ← get_bit r; constant c h
  | _, _ => insert_binary b PInCidr lhs rhs h
  end.

(** ** Casts *)

Section casts.
Context (inet_ntop : Z → bytes → bytes).

Definition insert_cast (b : nat) (ty : FlowType) (rhs : Operand) h : ir_value := Ok (ir_insert b CastInstr ty [rhs] h).
Definition createB2S (b : nat) (rhs : Operand) h : ir_value :=
  _ ← assert_type h rhs TBoolean;
  match rhs with
  | OConst (ConstantBoolean x) => constant (ConstantString (if x then str "true" else str "false")) h
  | _ => insert_cast b TString rhs h
  end.
Definition createI2S (b : nat) (rhs : Operand) h : ir_value :=
  _ ← assert_type h rhs TNumber;
  match rhs with
  | OConst (ConstantInt x) => constant (ConstantString (signed_decimal x)) h
  | _ => insert_cast b TString rhs h
  end.
Definition createP2S (b : nat) (rhs : Operand) h : ir_value :=
  _ ← assert_type h rhs TIPAddress;
  match rhs with
  | OConst (ConstantIP x) => constant (ConstantString (ip_str inet_ntop x)) h
  | _ => insert_cast b TString rhs h
  end.
Definition createC2S (b : nat) (rhs : Operand) h : ir_value :=
  _ ← assert_type h rhs TCidr;
  match rhs with
  | OConst (ConstantCidr x) => constant (ConstantString (cidr_str inet_ntop Http1Generator.decimal x)) h
  | _ => insert_cast b TString rhs h
  end.
Definition createR2S (b : nat) (rhs : Operand) h : ir_value :=
  _ ← assert_type h rhs TRegExp;
  match rhs with
  | OConst (ConstantRegExp x) => constant (ConstantString (re_pattern x)) h
  | _ => insert_cast b TString rhs h
  end.
Definition createS2I (b : nat) (rhs : Operand) h : ir_value :=
  _ ← assert_type h rhs TString;
  match rhs with
  | OConst (ConstantString x) => n ← std_stoi x; constant (ConstantInt n) h
  | _ => insert_cast b TNumber rhs h
  end.
End casts.

(** ** Calls and terminators *)

Definition createCallFunction (b : nat) (callee : Signature) (args : list Operand) h : ir_value :=
  Ok (ir_insert b CallInstr (sig_returnType callee) (OConst (IRBuiltinFunction callee) :: args) h).
Definition createInvokeHandler (b : nat) (callee : Signature) (args : list Operand) h : ir_value :=
  Ok (ir_insert b HandlerCallInstr TVoid (OConst (IRBuiltinHandler callee) :: args) h).
Definition createRet (b : nat) (result : Operand) h : ir_value := Ok (ir_insert b RetInstr TVoid [result] h).
Definition createBr (b target : nat) h : ir_value := Ok (ir_insert b BrInstr TVoid [OBlock target] h).
Definition createCondBr (b : nat) (condValue : Operand) (trueBlock falseBlock : nat) h : ir_value :=
  Ok (ir_insert b CondBrInstr TVoid [condValue; OBlock trueBlock; OBlock falseBlock] h).
