(* ===== verification/FlowCodegen.v ===== *)
(** * The code generator

    [src/xzero-flow/TargetCodeGenerator.cc]: code for the virtual machine from the
    intermediate representation. Every value has a register of its own; jumps are
    placeholders until the offsets of all blocks are known. *)
From stdpp Require Import gmap.
From S2P Require Import Prelude FlowType NetAddress FlowConstants FlowIr FlowInstruction FlowVm FlowBuilder.

(** ** State

    The registers of values ([variables_]), the last assignment first; jumps with
    the block they lead to. *)
Record Gen := mkGen {
  tg_code : list Z;
  tg_conditionalJumps : list (nat * (nat * Opcode * Z));
  tg_unconditionalJumps : list (nat * (nat * Opcode));
  tg_matchHints : list (Instr * nat);
  tg_variables : list (Operand * Z);
  tg_allocations : list bool;
  tg_pool : ConstantPool;
}.

(** The constructor: register 0 is taken. *)
Definition newGen : Gen := mkGen [] [] [] [] [] [true] emptyPool.

Definition tg_set_code x g := mkGen x (tg_conditionalJumps g) (tg_unconditionalJumps g) (tg_matchHints g) (tg_variables g) (tg_allocations g) (tg_pool g).
Definition tg_add_conditional x g := mkGen (tg_code g) (tg_conditionalJumps g ++ [x]) (tg_unconditionalJumps g) (tg_matchHints g) (tg_variables g) (tg_allocations g) (tg_pool g).
Definition tg_add_unconditional x g := mkGen (tg_code g) (tg_conditionalJumps g) (tg_unconditionalJumps g ++ [x]) (tg_matchHints g) (tg_variables g) (tg_allocations g) (tg_pool g).
Definition tg_add_hint x g := mkGen (tg_code g) (tg_conditionalJumps g) (tg_unconditionalJumps g) (tg_matchHints g ++ [x]) (tg_variables g) (tg_allocations g) (tg_pool g).
Definition tg_set_variable (o : Operand) (r : Z) g := mkGen (tg_code g) (tg_conditionalJumps g) (tg_unconditionalJumps g) (tg_matchHints g) ((o, r) :: tg_variables g) (tg_allocations g) (tg_pool g).
Definition tg_set_allocations x g := mkGen (tg_code g) (tg_conditionalJumps g) (tg_unconditionalJumps g) (tg_matchHints g) (tg_variables g) x (tg_pool g).
Definition tg_set_pool x g := mkGen (tg_code g) (tg_conditionalJumps g) (tg_unconditionalJumps g) (tg_matchHints g) (tg_variables g) (tg_allocations g) x.

(** A step of the generator changes the state and may fail an assertion. *)
Definition G (A : Type) : Type := Gen → result (A * Gen).
#[export] Instance G_ret : MRet G := λ A a g, Ok (a, g).
#[export] Instance G_bind : MBind G := λ A B f m g, match m g with Ok (a, g) => f a g | Raise e => Raise e end.
Definition G_modify (f : Gen → Gen) : G unit := λ g, Ok ((), f g).
Definition G_gets {A} (f : Gen → A) : G A := λ g, Ok (f g, g).
Definition G_lift {A} (r : result A) : G A := λ g, match r with Ok a => Ok (a, g) | Raise e => Raise e end.
Definition G_fail {A} (e : exn) : G A := λ _, Raise e.
Definition G_assert (b : bool) : G unit := G_lift (ensure b AssertionFailure).
(** Interning in the constant pool gives an index. *)
Definition G_intern (f : ConstantPool → ConstantPool * nat) : G Z :=
  λ g, let '(p, i) := f (tg_pool g) in Ok (Z.of_nat i, tg_set_pool p g).

(** ** Emitting; operands are cut to 16 bits *)

Definition emit_word (w : Z) : G nat := λ g, Ok (length (tg_code g), tg_set_code (tg_code g ++ [w]) g).
Definition emit0 (o : Opcode) : G nat := emit_word (makeInstruction0 o).
Definition emit1 (o : Opcode) (a : Z) : G nat := emit_word (makeInstruction1 o (u16 a)).
Definition emit2 (o : Opcode) (a b : Z) : G nat := emit_word (makeInstruction2 o (u16 a) (u16 b)).
Definition emit3 (o : Opcode) (a b c : Z) : G nat := emit_word (makeInstruction3 o (u16 a) (u16 b) (u16 c)).
Definition emit_conditional (o : Opcode) (cond : Z) (bb : nat) : G nat :=
  pc ← emit0 NOP; _ ← G_modify (tg_add_conditional (bb, (pc, o, cond))); mret pc.
Definition emit_jump (o : Opcode) (bb : nat) : G nat :=
  pc ← emit0 NOP; _ ← G_modify (tg_add_unconditional (bb, (pc, o))); mret pc.

(** ** Registers *)

Definition allocate (count : nat) : G Z :=
  λ g, let a := tg_allocations g ++ replicate count true in Ok (Z.of_nat (length a - count), tg_set_allocations a g).
Definition allocate_for (count : nat) (alias : Operand) : G Z :=
  rbase ← allocate count; _ ← G_modify (tg_set_variable alias rbase); mret rbase.
Definition free_registers (base : Z) (count : nat) : G unit :=
  G_modify (λ g, tg_set_allocations (foldl (λ a i, <[i := false]> a) (tg_allocations g) (seq (Z.to_nat base) count)) g).

Fixpoint variable_of (o : Operand) (vs : list (Operand * Z)) : option Z :=
  match vs with [] => None | (x, r) :: vs => if bool_decide (x = o) then Some r else variable_of o vs end.

Definition getConstantInt (o : Operand) : G Z :=
  match o with OConst (ConstantInt n) => mret (u16 n) | _ => G_fail AssertionFailure end.

(** The code that sets a register to a constant, for those that have one; a
    regular expression fails an assertion. *)
Definition loadable (c : IrConstant) : bool :=
  match c with IRBuiltinFunction _ | IRBuiltinHandler _ | ConstantHandler _ => false | _ => true end.
Definition emit_constant (reg : Z) (c : IrConstant) : G nat :=
  match c with
  | ConstantInt n => if n =? signed 16 n then emit2 IMOV reg n else i ← G_intern (λ p, makeInteger p n); emit2 NCONST reg i
  | ConstantBoolean b => emit2 IMOV reg (bit b)
  | ConstantString s => i ← G_intern (λ p, makeString p s); emit2 SCONST reg i
  | ConstantIP a => i ← G_intern (λ p, makeIPAddress p a); emit2 PCONST reg i
  | ConstantCidr c => i ← G_intern (λ p, makeCidr p c); emit2 CCONST reg i
  | ConstantIntArray l => i ← G_intern (λ p, makeIntegerArray p l); emit2 ITCONST reg i
  | ConstantStringArray l => i ← G_intern (λ p, makeStringArray p l); emit2 STCONST reg i
  | ConstantIPArray l => i ← G_intern (λ p, makeIPaddrArray p l); emit2 PTCONST reg i
  | ConstantCidrArray l => i ← G_intern (λ p, makeCidrArray p l); emit2 CTCONST reg i
  | _ => G_fail AssertionFailure
  end.

Definition getRegister (value : Operand) : G Z :=
  vs ← G_gets tg_variables;
  match variable_of value vs with
  | Some r => mret (u16 r)
  | None =>
      match value with
      | OConst c =>
          if loadable c then reg ← allocate 1; _ ← emit_constant reg c; mret (u16 reg)
          else r ← allocate_for 1 value; mret (u16 r)
      | _ => r ← allocate_for 1 value; mret (u16 r)
      end
  end.

(** ** Instructions *)

(** [operand(n)]; reading past the end is undefined. *)
Definition operand (i : Instr) (n : nat) : G Operand :=
  match in_operands i !! n with Some o => mret o | None => G_fail UndefinedBehaviour end.
Definition self (i : Instr) : Operand := OInstr (in_id i).
Definition assert_sig (o : Opcode) (s : InstructionSig) : G unit := G_assert (bool_decide (operandSignature (Some o) = s)).

Definition emitBinary (i : Instr) (rr : Opcode) : G nat :=
  _ ← assert_sig rr SigRRR;
  x ← operand i 0; y ← operand i 1;
  a ← allocate_for 1 (self i);
  b ← getRegister x; c ← getRegister y;
  emit3 rr a b c.
Definition emitBinaryAssoc (i : Instr) (rr ri : Opcode) : G nat :=
  _ ← assert_sig rr SigRRR; _ ← assert_sig ri SigRRI;
  x ← operand i 0; y ← operand i 1;
  a ← allocate_for 1 (self i);
  match x, y with
  | _, OConst (ConstantInt n) => b ← getRegister x; emit3 ri a b n
  | OConst (ConstantInt n), _ => b ← getRegister y; emit3 ri a b n
  | _, _ => b ← getRegister x; c ← getRegister y; emit3 rr a b c
  end.
Definition emitBinary_imm (i : Instr) (rr ri : Opcode) : G nat :=
  _ ← assert_sig rr SigRRR; _ ← assert_sig ri SigRRI;
  x ← operand i 0; y ← operand i 1;
  a ← allocate_for 1 (self i);
  match y with
  | OConst (ConstantInt n) => b ← getRegister x; emit3 ri a b n
  | _ => b ← getRegister x; c ← getRegister y; emit3 rr a b c
  end.
Definition emitUnary (i : Instr) (r : Opcode) : G nat :=
  _ ← assert_sig r SigRR;
  x ← operand i 0;
  a ← allocate_for 1 (self i);
  b ← getRegister x;
  emit2 r a b.

Definition visit_unary (i : Instr) (op : UnaryOperator) : G unit :=
  match op with
  | INeg => _ ← emitUnary i NNEG; mret ()
  | INot => _ ← emitUnary i NNOT; mret ()
  | BNot => _ ← emitUnary i BNOT; mret ()
  | SLen | SIsEmpty => G_fail AssertionFailure
  end.

Definition visit_regexp (i : Instr) : G nat :=
  x ← operand i 0; y ← operand i 1;
  match y with
  | OConst (ConstantRegExp re) =>
      a ← allocate_for 1 (self i);
      b ← getRegister x;
      c ← G_intern (λ p, makeRegExp p re);
      emit3 SREGMATCH a b c
  | _ => G_fail AssertionFailure
  end.

(** The disjunction is given the code of the conjunction. *)
Definition visit_binary (i : Instr) (op : BinaryOperator) : G unit :=
  let assoc rr ri := _ ← emitBinaryAssoc i rr ri; mret () in
  let binary rr := _ ← emitBinary i rr; mret () in
  match op with
  | IAdd => assoc NADD NIADD | ISub => assoc NSUB NISUB | IMul => assoc NMUL NIMUL
  | IDiv => assoc NDIV NIDIV | IRem => assoc NREM NIREM
  | IPow => _ ← emitBinary_imm i NPOW NIPOW; mret ()
  | IAnd => assoc NAND NIAND | IOr => assoc NOR NIOR | IXor => assoc NXOR NIXOR
  | IShl => assoc NSHL NISHL | IShr => assoc NSHR NISHR
  | ICmpEQ => assoc NCMPEQ NICMPEQ | ICmpNE => assoc NCMPNE NICMPNE
  | ICmpLE => assoc NCMPLE NICMPLE | ICmpGE => assoc NCMPGE NICMPGE
  | ICmpLT => assoc NCMPLT NICMPLT | ICmpGT => assoc NCMPGT NICMPGT
  | BAnd => binary BAND | BOr => binary BAND | BXor => binary BXOR
  | SAdd => binary SADD | SSubStr => G_fail AssertionFailure
  | SCmpEQ => binary SCMPEQ | SCmpNE => binary SCMPNE | SCmpLE => binary SCMPLE
  | SCmpGE => binary SCMPGE | SCmpLT => binary SCMPLT | SCmpGT => binary SCMPGT
  | SCmpRE => _ ← visit_regexp i; mret ()
  | SCmpBeg => binary SCMPBEG | SCmpEnd => binary SCMPEND | SIn => binary SCONTAINS
  | PCmpEQ => binary PCMPEQ | PCmpNE => binary PCMPNE | PInCidr => binary PINCIDR
  end.

Definition visit_alloca (i : Instr) : G unit :=
  n ← operand i 0; count ← getConstantInt n; _ ← allocate_for (Z.to_nat count) (self i); mret ().

Definition visit_store (i : Instr) : G unit :=
  lhs ← operand i 0; index ← operand i 1; rhs ← operand i 2;
  n ← getConstantInt index;
  r ← getRegister lhs;
  let lhsReg := r + n in
  let moved := vs ← G_gets tg_variables;
               match variable_of rhs vs with
               | Some x => _ ← emit2 MOV lhsReg x; mret ()
               | None => G_fail AssertionFailure
               end in
  match rhs with
  | OConst c => if loadable c then _ ← emit_constant lhsReg c; mret () else moved
  | _ => moved
  end.

(** The value of a load is the register of the variable. *)
Definition visit_load (i : Instr) : G unit :=
  v ← operand i 0; r ← getRegister v; G_modify (tg_set_variable (self i) r).

Section calls.
Context (h : IRHandler).

(** [alloca->arraySize()] of an operand that is a variable. *)
Definition array_size (o : Operand) : option Operand :=
  match o with
  | OInstr v => match find_instr h v with
                | Some j => if decide (in_kind j = AllocaInstr) then in_operands j !! 0%nat else None
                | None => None
                end
  | _ => None
  end.

Fixpoint emit_args (rbase : Z) (n : nat) (args : list Operand) : G unit :=
  match args with
  | [] => mret ()
  | o :: args =>
      tmp ← getRegister o;
      size ← match array_size o with Some s => getConstantInt s | None => mret 1 end;
      _ ← emit2 (if 1 <? size then IMOV else MOV) (rbase + Z.of_nat n) tmp;
      emit_args rbase (S n) args
  end.
Definition emitCallArgs (i : Instr) : G Z :=
  rbase ← allocate_for (length (in_operands i)) (self i);
  _ ← emit_args rbase 1 (drop 1 (in_operands i));
  mret rbase.

Definition visit_call (i : Instr) : G unit :=
  let argc := length (in_operands i) in
  rbase ← emitCallArgs i;
  callee ← operand i 0;
  match callee with
  | OConst (IRBuiltinFunction sig) =>
      id ← G_intern (λ p, makeNativeFunction p (to_s sig));
      _ ← emit3 CALL id (Z.of_nat argc) rbase;
      _ ← G_modify (tg_set_variable (self i) rbase);
      free_registers (rbase + 1) (argc - 1)
  | _ => G_fail UndefinedBehaviour
  end.
Definition visit_handler_call (i : Instr) : G unit :=
  let argc := length (in_operands i) in
  rbase ← emitCallArgs i;
  callee ← operand i 0;
  match callee with
  | OConst (IRBuiltinHandler sig) =>
      id ← G_intern (λ p, makeNativeHandler p (to_s sig));
      _ ← emit3 HANDLER id (Z.of_nat argc) rbase;
      _ ← G_modify (tg_set_variable (self i) rbase);
      free_registers (rbase + 1) (argc - 1)
  | _ => G_fail UndefinedBehaviour
  end.
End calls.

(** ** Terminators and casts *)

Section handler.
Context (name : bytes) (h : IRHandler).

Definition block_operand (i : Instr) (n : nat) : G nat :=
  o ← operand i n; match o with OBlock b => mret b | _ => G_fail UndefinedBehaviour end.

Definition visit_condbr (b : nat) (i : Instr) : G unit :=
  c ← operand i 0; t ← block_operand i 1; f ← block_operand i 2;
  if isAfter h b t then r ← getRegister c; _ ← emit_conditional JZ r f; mret ()
  else if isAfter h b f then r ← getRegister c; _ ← emit_conditional JN r t; mret ()
  else r ← getRegister c; _ ← emit_conditional JN r t; _ ← emit_jump JMP f; mret ().

Definition visit_br (b : nat) (i : Instr) : G unit :=
  t ← block_operand i 0;
  if isAfter h b t then mret () else _ ← emit_jump JMP t; mret ().

Definition visit_ret (i : Instr) : G unit :=
  o ← operand i 0; n ← getConstantInt o; _ ← emit1 EXIT n; mret ().

Definition match_opcode (op : MatchClass) : Opcode :=
  match op with MatchSame => SMATCHEQ | MatchHead => SMATCHBEG | MatchTail => SMATCHEND | MatchRegExp => SMATCHR end.

Definition case_label_of (label : Operand) : G Z :=
  match label with
  | OConst (ConstantString s) => G_intern (λ p, makeString p s)
  | OConst (ConstantRegExp r) => G_intern (λ p, makeRegExp p r)
  | _ => G_fail AssertionFailure
  end.
Fixpoint case_defs (cs : list (Operand * Operand)) : G (list MatchCaseDef) :=
  match cs with
  | [] => mret []
  | (l, _) :: cs => n ← case_label_of l; ds ← case_defs cs; mret (mkCase n 0 :: ds)
  end.

Definition visit_match (i : Instr) (op : MatchClass) : G unit :=
  matchId ← G_intern makeMatchDef;
  handlerId ← G_intern (λ p, makeHandler p name);
  _ ← G_modify (tg_add_hint (i, Z.to_nat matchId));
  ds ← case_defs (cases i);
  _ ← G_modify (λ g, tg_set_pool (setMatchDef (tg_pool g) (Z.to_nat matchId) (mkMatchDef handlerId op 0 ds)) g);
  c ← operand i 0;
  condition ← getRegister c;
  _ ← emit2 (match_opcode op) condition matchId;
  mret ().

Definition cast_opcode (target source : FlowType) : option Opcode :=
  match target, source with
  | TString, TNumber => Some I2S | TString, TIPAddress => Some P2S
  | TString, TCidr => Some C2S | TString, TRegExp => Some R2S
  | TNumber, TString => Some S2I
  | _, _ => None
  end.
Definition visit_cast (i : Instr) : G unit :=
  s ← operand i 0;
  ty ← G_lift (value_type h s);
  if decide (in_type i = ty) then r ← getRegister s; G_modify (tg_set_variable (self i) r)
  else match cast_opcode (in_type i) ty with
       | Some op => result ← allocate_for 1 (self i); a ← getRegister s; _ ← emit2 op result a; mret ()
       | None => G_fail AssertionFailure
       end.

(** [accept]: the visitor of an instruction of block [b]. *)
Definition visit (b : nat) (i : Instr) : G unit :=
  match in_kind i with
  | NopInstr => _ ← emit0 NOP; mret ()
  | AllocaInstr => visit_alloca i
  | StoreInstr => visit_store i
  | LoadInstr => visit_load i
  | PhiNode => G_fail AssertionFailure
  | CallInstr => visit_call h i
  | HandlerCallInstr => visit_handler_call h i
  | CastInstr => visit_cast i
  | UnaryInstr op => visit_unary i op
  | BinaryInstr op => visit_binary i op
  | CondBrInstr => visit_condbr b i
  | BrInstr => visit_br b i
  | RetInstr => visit_ret i
  | MatchInstr op => visit_match i op
  end.

(** ** Handlers *)

Fixpoint visit_code (b : nat) (c : list Instr) : G unit :=
  match c with [] => mret () | i :: c => _ ← visit b i; visit_code b c end.

(** The offsets of the blocks ([basicBlockEntryPoints]), in order. *)
Fixpoint visit_blocks (bs : list nat) : G (list (nat * nat)) :=
  match bs with
  | [] => mret []
  | b :: bs =>
      pc ← G_gets (λ g, length (tg_code g));
      _ ← visit_code b (code_of h b);
      rest ← visit_blocks bs;
      mret ((b, pc) :: rest)
  end.

(** [basicBlockEntryPoints[bb]] of a block that has no offset is 0. *)
Fixpoint entry_point (entries : list (nat * nat)) (b : nat) : nat :=
  match entries with [] => 0 | (x, pc) :: entries => if (x =? b)%nat then pc else entry_point entries b end.

Fixpoint patch_conditional (entries : list (nat * nat)) (js : list (nat * (nat * Opcode * Z))) (code : list Z) : list Z :=
  match js with
  | [] => code
  | (bb, (pc, o, cond)) :: js =>
      patch_conditional entries js (<[pc := makeInstruction2 o (u16 cond) (u16 (Z.of_nat (entry_point entries bb)))]> code)
  end.
Fixpoint patch_jumps (entries : list (nat * nat)) (js : list (nat * (nat * Opcode))) (code : list Z) : list Z :=
  match js with
  | [] => code
  | (bb, (pc, o)) :: js => patch_jumps entries js (<[pc := makeInstruction1 o (u16 (Z.of_nat (entry_point entries bb)))]> code)
  end.

Definition patched_case (entries : list (nat * nat)) (d : MatchCaseDef) (c : Operand * Operand) : MatchCaseDef :=
  match c.2 with OBlock b => mkCase (case_label d) (Z.of_nat (entry_point entries b)) | _ => d end.
Definition patch_hint (entries : list (nat * nat)) (hint : Instr * nat) (p : ConstantPool) : ConstantPool :=
  match cp_matchDefs p !! hint.2 with
  | None => p
  | Some d =>
      let cs := zip_with (patched_case entries) (md_cases d) (cases hint.1) in
      let else_ := match elseBlock hint.1 with Some (OBlock b) => Z.of_nat (entry_point entries b) | _ => md_elsePC d end in
      setMatchDef p hint.2 (mkMatchDef (md_handlerId d) (md_op d) else_ cs)
  end.

(** [generate] of a handler; what remains for the next one is the pool. The
    registers start at 0 then. *)
Definition generate_handler : G unit :=
  id ← G_intern (λ p, makeHandler p name);
  entries ← visit_blocks (hd_blocks h);
  G_modify (λ g,
    let code := patch_jumps entries (tg_unconditionalJumps g) (patch_conditional entries (tg_conditionalJumps g) (tg_code g)) in
    let p := foldl (λ p hint, patch_hint entries hint p) (tg_pool g) (tg_matchHints g) in
    mkGen [] [] [] [] [] [] (set_handlers p (<[Z.to_nat id := (name, code)]> (cp_handlers p)))).
End handler.

(** [generate] of a program: its handlers in order. *)
Fixpoint generate_handlers (hs : list (bytes * IRHandler)) : G unit :=
  match hs with [] => mret () | (name, h) :: hs => _ ← generate_handler name h; generate_handlers hs end.
Definition generate_program (modules : list (bytes * bytes)) (hs : list (bytes * IRHandler)) : result ConstantPool :=
  match generate_handlers hs newGen with
  | Ok (_, g) => Ok (setModules (tg_pool g) modules)
  | Raise e => Raise e
  end.
