(* ===== verification/FlowCodegenSafety.v ===== *)
(** * The code of numeric handlers does what the handler means

    Handlers over numbers and booleans: variables, arithmetic, comparisons,
    branches. A meaning for their instructions is given without reference to the
    virtual machine; the generated code, run on it, ends as the handler does. *)
From stdpp Require Import gmap.
From S2P Require Import Prelude FlowType FlowConstants FlowIr FlowInstruction FlowVm FlowBuilder FlowPasses FlowLinks FlowPassesSafety FlowCodegen.
Implicit Types h : IRHandler.

(** ** The meaning of instructions

    A value is a number (a boolean is 0 or 1) or the cell of a variable; the state
    is the contents of the cells. *)
Inductive Val := VNum (z : Z) | VCell (n : nat).
Abbreviation cells := (list (option Z)).

Definition eval_unary (op : UnaryOperator) (x : Z) : vm Z :=
  match op with
  | INeg => arith (- x) | INot => mret (u64 (Z.lnot x)) | BNot => mret (bit (x =? 0))
  | _ => inl BadCode
  end.

Section meaning.
Context (powl : Z → Z → option Z).

Definition eval_binary (op : BinaryOperator) (x y : Z) : vm Z :=
  match op with
  | IAdd => arith (x + y) | ISub => arith (x - y) | IMul => arith (x * y)
  | IDiv => divide x y | IRem => remainder x y
  | IPow => vm_opt Arithmetic (powl x y)
  | IAnd => mret (u64 (Z.land x y)) | IOr => mret (u64 (Z.lor x y)) | IXor => mret (u64 (Z.lxor x y))
  | IShl => shift_left x y | IShr => shift_right x y
  | ICmpEQ => mret (bit (x =? y)) | ICmpNE => mret (bit (negb (x =? y)))
  | ICmpLE => mret (bit (x <=? y)) | ICmpGE => mret (bit (y <=? x))
  | ICmpLT => mret (bit (x <? y)) | ICmpGT => mret (bit (y <? x))
  | BAnd => mret (bit (negb (x =? 0) && negb (y =? 0)))
  | BOr => mret (bit (negb (x =? 0) || negb (y =? 0)))
  | BXor => mret (u64 (Z.lxor x y))
  | _ => inl BadCode
  end.

Definition number_of (a : Arg Val) : option Z :=
  match a with
  | AConst (ConstantInt n) => Some n
  | AConst (ConstantBoolean b) => Some (bit b)
  | AValue (Some (VNum z)) => Some z
  | _ => None
  end.

(** An instruction that has no meaning goes on nowhere. *)
Definition no_meaning (args : list (Arg Val)) (w : cells) : Effect Val cells (fault + bool) := Jump (length args) w.
Definition of_word (v : vm Z) (w : cells) : Effect Val cells (fault + bool) :=
  match v with inr z => Continue (VNum (s64 z)) w | inl e => Exit (inl e) w end.

Definition num_exec (k : InstrKind) (ty : FlowType) (args : list (Arg Val)) (w : cells) : Effect Val cells (fault + bool) :=
  match k, args with
  | NopInstr, [] => Continue (VNum 0) w
  | AllocaInstr, [AConst (ConstantInt 1)] => Continue (VCell (length w)) (w ++ [None])
  | StoreInstr, [AValue (Some (VCell n)); AConst (ConstantInt 0); a] =>
      match number_of a with Some z => Continue (VNum 0) (<[n := Some z]> w) | None => no_meaning args w end
  | LoadInstr, [AValue (Some (VCell n))] =>
      match w !! n with Some (Some z) => Continue (VNum z) w | _ => no_meaning args w end
  | UnaryInstr op, [a] => match number_of a with Some x => of_word (eval_unary op x) w | None => no_meaning args w end
  | BinaryInstr op, [a; b] =>
      match number_of a, number_of b with
      | Some x, Some y => of_word (eval_binary op x y) w
      | _, _ => no_meaning args w
      end
  | CondBrInstr, [a; ABlock; ABlock] =>
      match number_of a with Some x => Jump (if x =? 0 then 1%nat else 0%nat) w | None => no_meaning args w end
  | BrInstr, [ABlock] => Jump 0 w
  | RetInstr, [AConst (ConstantInt n)] => Exit (inr (negb (n =? 0))) w
  | _, _ => no_meaning args w
  end.
End meaning.

(** ** The handlers that are compiled right

    A constant in a register is not negative, or does not fit 16 bits; an
    immediate operand has 16 bits and is on the right, or the operation is
    commutative. There is no code for the disjunction. A terminator is the last
    instruction of its block. *)
Definition int64 (z : Z) : bool := (- 2 ^ 63 <=? z) && (z <? 2 ^ 63).
Definition register_constant (c : IrConstant) : bool :=
  match c with
  | ConstantInt n => int64 n && negb ((- 2 ^ 15 <=? n) && (n <? 0))
  | ConstantBoolean _ => true
  | _ => false
  end.
Definition immediate (n : Z) : bool := (0 <=? n) && (n <? 2 ^ 16).
Definition commutative (op : BinaryOperator) : bool :=
  match op with IAdd | IMul | IAnd | IOr | IXor | ICmpEQ | ICmpNE => true | _ => false end.
Definition has_code (op : BinaryOperator) : bool :=
  match op with
  | IAdd | ISub | IMul | IDiv | IRem | IPow | IAnd | IOr | IXor | IShl | IShr
  | ICmpEQ | ICmpNE | ICmpLE | ICmpGE | ICmpLT | ICmpGT | BAnd | BXor => true
  | _ => false
  end.

(** The values that may be used at a point: [vars] are the variables, [vals] the
    other values with a register of their own, [loads] the loads of this block
    since whose variable was not assigned. *)
Record Usable := mkUsable { us_vars : list nat; us_vals : list nat; us_loads : list (nat * nat) }.

Definition usable_operand (u : Usable) (o : Operand) : bool :=
  match o with
  | OInstr v => bool_decide (v ∈ us_vals u) || bool_decide (v ∈ (us_loads u).*1)
  | OConst c => register_constant c
  | _ => false
  end.

Definition as_int (o : Operand) : option Z := match o with OConst (ConstantInt n) => Some n | _ => None end.
Definition binary_ok (u : Usable) (op : BinaryOperator) (x y : Operand) : bool :=
  has_code op &&
  match op with
  | BAnd | BXor => usable_operand u x && usable_operand u y
  | IPow => usable_operand u x && match as_int y with Some n => immediate n | None => usable_operand u y end
  | _ =>
      match as_int y, as_int x with
      | Some n, _ => usable_operand u x && immediate n
      | None, Some n => commutative op && usable_operand u y && immediate n
      | None, None => usable_operand u x && usable_operand u y
      end
  end.

Definition instr_ok (u : Usable) (i : Instr) : bool :=
  match in_kind i, in_operands i with
  | NopInstr, [] => true
  | AllocaInstr, [OConst (ConstantInt 1)] => true
  | StoreInstr, [OInstr x; OConst (ConstantInt 0); o] => bool_decide (x ∈ us_vars u) && usable_operand u o
  | LoadInstr, [OInstr x] => bool_decide (x ∈ us_vars u)
  | UnaryInstr (INeg | INot | BNot), [o] => usable_operand u o
  | BinaryInstr op, [x; y] => binary_ok u op x y
  | CondBrInstr, [c; OBlock _; OBlock _] => usable_operand u c
  | BrInstr, [OBlock _] => true
  | RetInstr, [OConst (ConstantInt n)] => immediate n
  | _, _ => false
  end.

(** What may be used behind an instruction. *)
Definition define (i : Instr) (u : Usable) : Usable :=
  match in_kind i, in_operands i with
  | AllocaInstr, _ => mkUsable (in_id i :: us_vars u) (us_vals u) (us_loads u)
  | StoreInstr, OInstr x :: _ => mkUsable (us_vars u) (us_vals u) (List.filter (λ l, negb (l.2 =? x)%nat) (us_loads u))
  | LoadInstr, OInstr x :: _ => mkUsable (us_vars u) (us_vals u) ((in_id i, x) :: us_loads u)
  | (UnaryInstr _ | BinaryInstr _), _ => mkUsable (us_vars u) (in_id i :: us_vals u) (us_loads u)
  | _, _ => u
  end.

Fixpoint code_ok (u : Usable) (c : list Instr) : bool :=
  match c with
  | [] => true
  | i :: c => instr_ok u i && (negb (is_terminator (in_kind i)) || bool_decide (c = [])) && code_ok (define i u) c
  end.
Fixpoint defined (c : list Instr) (u : Usable) : Usable :=
  match c with [] => u | i :: c => defined c (define i u) end.

(** The blocks in the order of the code: what a block uses is defined in it or
    in one before it. *)
Fixpoint blocks_ok h (u : Usable) (bs : list nat) : bool :=
  match bs with
  | [] => true
  | b :: bs =>
      let u := mkUsable (us_vars u) (us_vals u) [] in
      code_ok u (code_of h b) && blocks_ok h (defined (code_of h b) u) bs
  end.
Definition layout_of h (bs : list nat) : list Instr := flat_map (code_of h) bs.

(** A handler of at most 4000 instructions. *)
Definition handler_ok h : bool :=
  blocks_ok h (mkUsable [] [] []) (hd_blocks h) &&
  bool_decide (NoDup (hd_blocks h)) && bool_decide (NoDup (in_id <$> layout_of h (hd_blocks h))) &&
  forallb (λ i, forallb (λ t, bool_decide (t ∈ hd_blocks h)) (targets i)) (layout_of h (hd_blocks h)) &&
  (length (layout_of h (hd_blocks h)) <=? 4000)%nat.

(** ** Steps of the machine *)

Section machine.
Context {W : Type} (m : Machine W) (r0 : Runner W).

(** The state of a run: code without calls changes the registers only. *)
Definition at_regs (d : list Z) : Runner W := with_data r0 d.

Definition reaches (pc : Z) (d : list Z) (pc' : Z) (d' : list Z) : Prop :=
  ∃ n, ∀ fuel, interpret m (n + fuel) pc (at_regs d) = interpret m fuel pc' (at_regs d').
Definition ends_with (pc : Z) (d : list Z) (e : fault) : Prop :=
  ∃ n, ∀ fuel, interpret m (n + S fuel) pc (at_regs d) = Some (inl e).

Definition code_at (pc : nat) (seg : list Z) : Prop := ∀ k w, seg !! k = Some w → m_code m !! (pc + k)%nat = Some w.

Lemma reaches_refl pc d : reaches pc d pc d.
Proof. by exists 0%nat. Qed.

Lemma reaches_trans pc1 d1 pc2 d2 pc3 d3 : reaches pc1 d1 pc2 d2 → reaches pc2 d2 pc3 d3 → reaches pc1 d1 pc3 d3.
Proof. intros [n1 H1] [n2 H2]. exists (n1 + n2)%nat. intros fuel. by rewrite <- Nat.add_assoc, H1, H2. Qed.

Lemma reaches_ends pc d pc' d' e : reaches pc d pc' d' → ends_with pc' d' e → ends_with pc d e.
Proof. intros [n1 H1] [n2 H2]. exists (n1 + n2)%nat. intros fuel. by rewrite <- Nat.add_assoc, H1, H2. Qed.

Lemma step_at (pc : nat) w r : m_code m !! pc = Some w → step m (Z.of_nat pc) r = exec m w (Z.of_nat pc) r.
Proof. intros H. unfold step, fetch. rewrite (proj2 (Z.leb_le 0 _)) by lia. rewrite Nat2Z.id, H. done. Qed.

Lemma reaches_step (pc : nat) w d d' pc' :
  m_code m !! pc = Some w → exec m w (Z.of_nat pc) (at_regs d) = inr (at_regs d', Goto pc') → reaches (Z.of_nat pc) d pc' d'.
Proof. intros Hw He. exists 1%nat. intros fuel. cbn. rewrite (step_at pc w) by done. by rewrite He. Qed.

Lemma ends_step (pc : nat) w d e :
  m_code m !! pc = Some w → exec m w (Z.of_nat pc) (at_regs d) = inl e → ends_with (Z.of_nat pc) d e.
Proof. intros Hw He. exists 0%nat. intros fuel. cbn. rewrite (step_at pc w) by done. by rewrite He. Qed.

Lemma code_at_app pc s1 s2 : code_at pc (s1 ++ s2) ↔ code_at pc s1 ∧ code_at (pc + length s1) s2.
Proof.
  split.
  - intros H. split; intros k w Hk.
    + apply H. by apply lookup_app_l_Some.
    + rewrite <- Nat.add_assoc. apply H. rewrite lookup_app_r by lia. by rewrite Nat.add_comm, Nat.add_sub.
  - intros [H1 H2] k w Hk. apply lookup_app_Some in Hk as [Hk|[Hl Hk]]; [by apply H1|].
    apply H2 in Hk. by replace (pc + k)%nat with (pc + length s1 + (k - length s1))%nat by lia.
Qed.

Lemma code_at_one pc w : code_at pc [w] ↔ m_code m !! pc = Some w.
Proof.
  split; [intros H; specialize (H 0%nat w eq_refl); by rewrite Nat.add_0_r in H|].
  intros H [|k] v Hk; [|done]. injection Hk as <-. by rewrite Nat.add_0_r.
Qed.

(** ** Registers *)

Definition regs_ok (d : list Z) : Prop := Z.of_nat (length d) = computeRegisterCount (m_code m).

Lemma registerMax_count w : w ∈ m_code m → registerMax w ≤ computeRegisterCount (m_code m).
Proof.
  unfold computeRegisterCount. intros H.
  assert (G : ∀ l c, c ≤ foldl (λ count i, Z.max count (registerMax i)) c l ∧
    (w ∈ l → registerMax w ≤ foldl (λ count i, Z.max count (registerMax i)) c l)).
  { induction l as [|x l IH]; intros c; cbn; [split; [lia|by intros ?%elem_of_nil]|].
    destruct (IH (Z.max c (registerMax x))) as [H1 H2]. split; [lia|].
    intros [->|Hin]%elem_of_cons; [lia|by apply H2]. }
  by apply G.
Qed.

(** The register an instruction writes is there. *)
Lemma written_register o a b c d :
  fields o a b c ∈ m_code m → fits 15 a → fits 16 b → fits 16 c → regs_ok d →
  (operandSignature (Some o) = SigRRR ∨ operandSignature (Some o) = SigRRI ∨ operandSignature (Some o) = SigRR ∨ operandSignature (Some o) = SigRI) →
  (Z.to_nat a < length d)%nat.
Proof.
  intros Hin Ha Hb Hc Hd Hs. apply registerMax_count in Hin. rewrite <- Hd in Hin.
  destruct (decode_fields o a b c) as (D1 & D2 & D3 & D4); [by eapply fits_mono; [|exact Ha]|done..|].
  assert (Hm : after a ≤ registerMax (fields o a b c)).
  { unfold registerMax. rewrite D1, D2. destruct Hs as [->|[->|[->| ->]]]; lia. }
  unfold after in Hm. rewrite unsigned_id in Hm by (unfold fits in *; lia). unfold fits in Ha. lia.
Qed.

Lemma read_reg d (R v : Z) : d !! Z.to_nat R = Some v → reg_get (at_regs d) R = inr v.
Proof. intros H. unfold reg_get, at_regs. cbn. by rewrite H. Qed.

Lemma read_number d (R z : Z) : int64 z = true → d !! Z.to_nat R = Some (u64 z) → toNumber (at_regs d) R = inr z.
Proof.
  intros Hz H. unfold toNumber. rewrite (read_reg _ _ (u64 z)) by done. cbn. unfold int64 in Hz. apply andb_true_iff in Hz as [H1 H2].
  apply Z.leb_le in H1. apply Z.ltb_lt in H2. unfold mret, vm_ret. f_equal. unfold signed, unsigned.
  rewrite Zplus_mod_idemp_l, Z.mod_small by lia. lia.
Qed.

Lemma write_reg d (R v : Z) : (Z.to_nat R < length d)%nat → reg_set (at_regs d) R v = inr (at_regs (<[Z.to_nat R := v]> d)).
Proof. intros H. unfold reg_set, at_regs. cbn. by destruct (lookup_lt_is_Some_2 d (Z.to_nat R) H) as [x ->]. Qed.

(** ** One instruction *)

Definition two_registers (o : Opcode) : bool :=
  match o with
  | NADD | NSUB | NMUL | NDIV | NREM | NSHL | NSHR | NPOW | NAND | NOR | NXOR
  | NCMPEQ | NCMPNE | NCMPLE | NCMPGE | NCMPLT | NCMPGT | BAND | BXOR => true
  | _ => false
  end.
Definition with_immediate (o : Opcode) : bool :=
  match o with
  | NIADD | NISUB | NIMUL | NIDIV | NIREM | NISHL | NISHR | NIPOW | NIAND | NIOR | NIXOR
  | NICMPEQ | NICMPNE | NICMPLE | NICMPGE | NICMPLT | NICMPGT => true
  | _ => false
  end.

Definition word3 (o : Opcode) (a b c : Z) : Z := makeInstruction3 o (u16 a) (u16 b) (u16 c).
Definition word2 (o : Opcode) (a b : Z) : Z := makeInstruction2 o (u16 a) (u16 b).

Lemma word3_fields o a b c : fits 15 a → fits 16 b → fits 16 c → word3 o a b c = fields o a b c.
Proof.
  intros Ha Hb Hc. unfold word3. rewrite !unsigned_id by (done || by eapply fits_mono; [|exact Ha]).
  rewrite makeInstruction3_fields by (done || by eapply fits_mono; [|exact Ha]). unfold spilled.
  rewrite (proj2 (Z.ltb_lt a (2 ^ 15))) by apply Ha. done.
Qed.

Lemma word2_fields o a b : fits 15 a → fits 16 b → word2 o a b = fields o a b 0.
Proof.
  intros Ha Hb. unfold word2. rewrite !unsigned_id by (done || by eapply fits_mono; [|exact Ha]).
  rewrite makeInstruction2_fields by (done || by eapply fits_mono; [|exact Ha]). unfold spilled.
  rewrite (proj2 (Z.ltb_lt a (2 ^ 15))) by apply Ha. done.
Qed.

Lemma exec_fields o a b c pc d k : fits 15 a → fits 16 b → fits 16 c →
  (∀ i, opcode i = Some o → operandA i = a → operandB i = b → operandC i = c → exec m i pc (at_regs d) = k) →
  exec m (fields o a b c) pc (at_regs d) = k.
Proof.
  intros Ha Hb Hc H. destruct (decode_fields o a b c) as (D1 & D2 & D3 & D4); [by eapply fits_mono; [|exact Ha]|done..|]. by apply H.
Qed.

(** The state behind an instruction that writes [v] to register [a]. *)
Lemma exec_written (pc : nat) o a b c d v :
  m_code m !! pc = Some (fields o a b c) → fits 15 a → fits 16 b → fits 16 c → regs_ok d →
  (operandSignature (Some o) = SigRRR ∨ operandSignature (Some o) = SigRRI ∨ operandSignature (Some o) = SigRR ∨ operandSignature (Some o) = SigRI) →
  exec m (fields o a b c) (Z.of_nat pc) (at_regs d) = (r ← reg_set (at_regs d) a v; inr (r, Goto (Z.of_nat pc + 1))) →
  reaches (Z.of_nat pc) d (Z.of_nat (S pc)) (<[Z.to_nat a := v]> d).
Proof.
  intros Hw Ha Hb Hc Hd Hs He. replace (Z.of_nat (S pc)) with (Z.of_nat pc + 1) by lia.
  eapply reaches_step; [exact Hw|]. rewrite He.
  rewrite write_reg by (eapply written_register; [by eapply list_elem_of_lookup_2|done..]). done.
Qed.

Lemma exec_two o a b c pc d x y : two_registers o = true → fits 15 a → fits 16 b → fits 16 c →
  toNumber (at_regs d) b = inr x → toNumber (at_regs d) c = inr y →
  exec m (fields o a b c) pc (at_regs d) = (v ← numeric m o x y; r ← reg_set (at_regs d) a v; inr (r, Goto (pc + 1))).
Proof.
  intros Ho Ha Hb Hc Hx Hy. apply exec_fields; [done..|]. intros i D1 D2 D3 D4. unfold exec. rewrite D1, ?D2, ?D3, ?D4.
  destruct o; try discriminate; by rewrite Hx, Hy.
Qed.

Lemma exec_immediate o a b c pc d x : with_immediate o = true → fits 15 a → fits 16 b → fits 16 c →
  toNumber (at_regs d) b = inr x →
  exec m (fields o a b c) pc (at_regs d) = (v ← numeric m o x c; r ← reg_set (at_regs d) a v; inr (r, Goto (pc + 1))).
Proof.
  intros Ho Ha Hb Hc Hx. apply exec_fields; [done..|]. intros i D1 D2 D3 D4. unfold exec. rewrite D1, ?D2, ?D3, ?D4.
  destruct o; try discriminate; by rewrite Hx.
Qed.

Lemma exec_one o a b c pc d x : bool_decide (o ∈ [NNEG; NNOT; BNOT]) = true → fits 15 a → fits 16 b → fits 16 c →
  toNumber (at_regs d) b = inr x →
  exec m (fields o a b c) pc (at_regs d) = (v ← numeric1 o x; r ← reg_set (at_regs d) a v; inr (r, Goto (pc + 1))).
Proof.
  intros Ho Ha Hb Hc Hx. apply exec_fields; [done..|]. intros i D1 D2 D3 D4. unfold exec. rewrite D1, ?D2, ?D3, ?D4.
  destruct o; try discriminate; by rewrite Hx.
Qed.

Lemma exec_imov a b pc d : fits 15 a → fits 16 b →
  exec m (fields IMOV a b 0) pc (at_regs d) = (r ← reg_set (at_regs d) a b; inr (r, Goto (pc + 1))).
Proof. intros Ha Hb. apply exec_fields; [done..|]. intros i D1 D2 D3 D4. unfold exec. by rewrite D1, ?D2, ?D3, ?D4. Qed.

Lemma exec_nconst a b pc d n : fits 15 a → fits 16 b → cp_numbers (m_pool m) !! Z.to_nat b = Some n →
  exec m (fields NCONST a b 0) pc (at_regs d) = (r ← reg_set (at_regs d) a (u64 n); inr (r, Goto (pc + 1))).
Proof. intros Ha Hb Hn. apply exec_fields; [done..|]. intros i D1 D2 D3 D4. unfold exec. by rewrite D1, ?D2, ?D3, ?D4, Hn. Qed.

Lemma exec_mov a b pc d v : fits 15 a → fits 16 b → d !! Z.to_nat b = Some v →
  exec m (fields MOV a b 0) pc (at_regs d) = (r ← reg_set (at_regs d) a v; inr (r, Goto (pc + 1))).
Proof.
  intros Ha Hb Hn. apply exec_fields; [done..|]. intros i D1 D2 D3 D4. unfold exec. rewrite D1, ?D2, ?D3, ?D4.
  by rewrite (read_reg _ _ v).
Qed.
End machine.

(** ** What the generator has done *)

Lemma G_step {A B} (c : G A) (f : A → G B) g a g1 : c g = Ok (a, g1) → (x ← c; f x) g = f a g1.
Proof. intros H. unfold mbind, G_bind. by rewrite H. Qed.

Definition nregs (g : Gen) : nat := length (tg_allocations g).
Definition numbers (g : Gen) : list Z := cp_numbers (tg_pool g).

(** Only registers, constants and code have been added. *)
Record grows (g g' : Gen) (seg : list Z) : Prop := {
  gr_code : tg_code g' = tg_code g ++ seg;
  gr_variables : tg_variables g' = tg_variables g;
  gr_conditional : tg_conditionalJumps g' = tg_conditionalJumps g;
  gr_unconditional : tg_unconditionalJumps g' = tg_unconditionalJumps g;
  gr_hints : tg_matchHints g' = tg_matchHints g;
  gr_regs : (nregs g ≤ nregs g')%nat;
  gr_numbers : numbers g `prefix_of` numbers g';
}.

Lemma grows_refl g : grows g g [].
Proof. split; try done. by rewrite app_nil_r. Qed.

Lemma grows_trans g1 g2 g3 s1 s2 : grows g1 g2 s1 → grows g2 g3 s2 → grows g1 g3 (s1 ++ s2).
Proof.
  intros [] []. split; try congruence; [by rewrite app_assoc; congruence|lia|by etrans].
Qed.

Lemma emit_word_grows w g : ∃ g', emit_word w g = Ok (length (tg_code g), g') ∧ grows g g' [w] ∧ nregs g' = nregs g ∧ numbers g' = numbers g.
Proof. eexists. split; [done|]. split; [|done]. by split. Qed.

Lemma allocate_grows n g : ∃ g', allocate n g = Ok (Z.of_nat (nregs g), g') ∧ grows g g' [] ∧ nregs g' = (nregs g + n)%nat ∧ numbers g' = numbers g.
Proof.
  eexists. split; [unfold allocate; rewrite length_app, length_replicate, Nat.add_sub; done|].
  assert (E : nregs (tg_set_allocations (tg_allocations g ++ replicate n true) g) = (nregs g + n)%nat).
  { unfold nregs. cbn. by rewrite length_app, length_replicate. }
  split; [|done]. split; try done; [cbn; by rewrite app_nil_r|rewrite E; lia].
Qed.

(** The registers the generator hands out, the constants and the offsets fit
    their operands. *)
Definition small_gen (g : Gen) : Prop := Z.of_nat (nregs g) ≤ 2 ^ 15 ∧ Z.of_nat (length (numbers g)) ≤ 2 ^ 16.

(** The values the code may use have their registers [ρ]. *)
Record known (ρ : nat → Z) (u : Usable) (g : Gen) : Prop := {
  kn_own : ∀ v, v ∈ us_vars u ++ us_vals u ++ (us_loads u).*1 →
    variable_of (OInstr v) (tg_variables g) = Some (ρ v) ∧ 0 ≤ ρ v < Z.of_nat (nregs g);
  kn_consts : ∀ c, variable_of (OConst c) (tg_variables g) = None;
}.

Lemma known_grows ρ u g g' seg : grows g g' seg → known ρ u g → known ρ u g'.
Proof.
  intros G [H1 H2]. split.
  - intros v Hv. rewrite (gr_variables _ _ _ G). destruct (H1 v Hv). pose proof (gr_regs _ _ _ G). split; [done|lia].
  - intros c. by rewrite (gr_variables _ _ _ G).
Qed.

(** The registers hold the numbers of the environment. *)
Definition holds (ρ : nat → Z) (u : Usable) (env : gmap nat Val) (d : list Z) : Prop :=
  ∀ v val, v ∈ us_vals u ++ (us_loads u).*1 → env !! v = Some val →
  ∃ z, val = VNum z ∧ int64 z = true ∧ d !! Z.to_nat (ρ v) = Some (u64 z).

Definition same_regs_outside (lo hi : nat) (d d' : list Z) : Prop :=
  length d' = length d ∧ ∀ k, (k < lo ∨ hi ≤ k)%nat → d' !! k = d !! k.

Lemma same_outside_refl lo hi d : same_regs_outside lo hi d d.
Proof. done. Qed.

Lemma same_outside_trans l1 t1 l2 t2 l t d1 d2 d3 :
  same_regs_outside l1 t1 d1 d2 → same_regs_outside l2 t2 d2 d3 → (l ≤ l1)%nat → (l ≤ l2)%nat → (t1 ≤ t)%nat → (t2 ≤ t)%nat → same_regs_outside l t d1 d3.
Proof. intros [L1 H1] [L2 H2] ? ? ? ?. split; [congruence|]. intros k Hk. rewrite H2, H1 by lia. done. Qed.

Lemma holds_outside ρ u g env d d' lo hi :
  known ρ u g → (nregs g ≤ lo)%nat → same_regs_outside lo hi d d' → holds ρ u env d → holds ρ u env d'.
Proof.
  intros K Hlo [_ H] Hh v val Hv He. destruct (Hh v val Hv He) as (z & -> & Hz & Hd). exists z. split_and!; [done..|].
  destruct (kn_own _ _ _ K v) as [_ Hr]; [set_solver|]. rewrite H by lia. done.
Qed.

Lemma insert_outside d (k : nat) x lo hi : (lo ≤ k < hi)%nat → same_regs_outside lo hi d (<[k := x]> d).
Proof. intros H. split; [by rewrite length_insert|]. intros j Hj. apply list_lookup_insert_ne. lia. Qed.

(** ** Operands *)

Section operands.
Context {W : Type} (m : Machine W) (r0 : Runner W) (ρ : nat → Z).

(** The code [seg] puts the number of [o] into register [reg]. *)
Definition puts (u : Usable) (o : Operand) (g g' : Gen) (seg : list Z) (reg : Z) : Prop :=
  0 ≤ reg < Z.of_nat (nregs g') ∧
  ∀ env d pc z, small_gen g' → numbers g' `prefix_of` cp_numbers (m_pool m) → code_at m pc seg → regs_ok m d →
  holds ρ u env d → number_of (arg_of env o) = Some z →
  int64 z = true ∧
  ∃ d', reaches m r0 (Z.of_nat pc) d (Z.of_nat (pc + length seg)) d' ∧ same_regs_outside (nregs g) (nregs g') d d' ∧
    d' !! Z.to_nat reg = Some (u64 z).

Lemma makeInteger_numbers p n : ∃ p' k, makeInteger p n = (p', k) ∧ cp_numbers p `prefix_of` cp_numbers p' ∧ cp_numbers p' !! k = Some n.
Proof.
  unfold makeInteger. pose proof (ensureValue_spec Z.eqb (cp_numbers p) n) as S.
  destruct (ensureValue Z.eqb (cp_numbers p) n) as [t k]. destruct S as (Hp & (y & Hy & He) & _).
  eexists _, k. split; [done|]. split; [done|]. cbn. rewrite Hy. f_equal. destruct He as [He|He]; [by apply Z.eqb_eq|done].
Qed.

(** One instruction that sets a new register. *)
Lemma sets_register g o a b n seg_pc (d : list Z) :
  fits 15 a → fits 16 b → a = Z.of_nat (nregs g) → regs_ok m d → m_code m !! seg_pc = Some (fields o a b 0) →
  operandSignature (Some o) = SigRI →
  exec m (fields o a b 0) (Z.of_nat seg_pc) (at_regs r0 d) = (r ← reg_set (at_regs r0 d) a n; inr (r, Goto (Z.of_nat seg_pc + 1))) →
  ∃ d', reaches m r0 (Z.of_nat seg_pc) d (Z.of_nat (seg_pc + 1)) d' ∧ same_regs_outside (nregs g) (nregs g + 1) d d' ∧ d' !! Z.to_nat a = Some n.
Proof.
  intros Ha Hb -> Hd Hw Hs He. exists (<[nregs g := n]> d). split_and!.
  - rewrite Nat.add_1_r. rewrite <- (Nat2Z.id (nregs g)) at 1. apply (exec_written m r0 _ o _ b 0); auto. done.
  - apply insert_outside. lia.
  - rewrite Nat2Z.id. apply list_lookup_insert_eq.
    pose proof (written_register m o (Z.of_nat (nregs g)) b 0 d (list_elem_of_lookup_2 _ _ _ Hw) Ha Hb) as Hl.
    rewrite Nat2Z.id in Hl. apply Hl; auto. done.
Qed.
Lemma u16_le x : 0 ≤ x → 0 ≤ u16 x ≤ x.
Proof. intros H. unfold unsigned. pose proof (Z.mod_pos_bound x (2 ^ 16)). pose proof (Z.mod_le x (2 ^ 16)). lia. Qed.

Lemma getRegister_value u v g :
  known ρ u g → v ∈ us_vals u ++ (us_loads u).*1 →
  getRegister (OInstr v) g = Ok (u16 (ρ v), g) ∧ puts u (OInstr v) g g [] (u16 (ρ v)).
Proof.
  intros K Hv. destruct (kn_own _ _ _ K v) as [Hr Hb]; [set_solver|]. split.
  { unfold getRegister. rewrite (G_step _ _ g (tg_variables g) g) by done. cbn. by rewrite Hr. }
  pose proof (u16_le (ρ v)). split; [lia|]. intros env d pc z Hs _ _ _ Hh Hn. cbn in Hn.
  destruct (env !! v) as [val|] eqn:Ev; [|done]. destruct (Hh v val Hv Ev) as (z' & -> & Hz & Hd). injection Hn as <-.
  split; [done|]. exists d. rewrite Nat.add_0_r. split_and!; [apply reaches_refl|apply same_outside_refl|].
  destruct Hs as [Hs _]. rewrite unsigned_id by (unfold fits; lia). done.
Qed.

(** Setting register [reg] to a constant. *)
Lemma emit_constant_spec c reg g :
  register_constant c = true → ∃ k g' w, emit_constant reg c g = Ok (k, g') ∧ grows g g' [w] ∧ nregs g' = nregs g ∧
  ∀ pc d z, small_gen g' → numbers g' `prefix_of` cp_numbers (m_pool m) → fits 15 reg → number_of (@AConst Val c) = Some z →
    int64 z = true ∧ ∃ o b, w = fields o reg b 0 ∧ fits 16 b ∧ operandSignature (Some o) = SigRI ∧
      exec m (fields o reg b 0) pc (at_regs r0 d) = (r ← reg_set (at_regs r0 d) reg (u64 z); inr (r, Goto (pc + 1))).
Proof.
  intros Hc. destruct c as [b|n| | | | | | | | | | |]; try discriminate Hc; cbn [emit_constant].
  - destruct (emit_word_grows (word2 IMOV reg (bit b)) g) as (g' & E & G & Hr & Hn). eexists _, g', _. split_and!; [exact E|exact G|done|].
    intros pc d z _ _ Hf Hz. injection Hz as <-. split; [by destruct b|]. exists IMOV, (bit b).
    assert (fits 16 (bit b)) by (destruct b; cbn; unfold fits; lia). rewrite word2_fields by done. split_and!; try done.
    rewrite exec_imov by done. by destruct b.
  - unfold register_constant in Hc. apply andb_true_iff in Hc as [Hi Hc]. destruct (Z.eqb_spec n (signed 16 n)) as [E16|E16].
    + destruct (emit_word_grows (word2 IMOV reg n) g) as (g' & E & G & Hr & Hn). eexists _, g', _. split_and!; [exact E|exact G|done|].
      intros pc d z _ _ Hf Hz. injection Hz as <-. split; [done|]. exists IMOV, n.
      assert (Hn16 : 0 ≤ n < 2 ^ 15).
      { unfold signed in E16. pose proof (Z.mod_pos_bound (n + 2 ^ (16 - 1)) (2 ^ 16)). apply negb_true_iff, andb_false_iff in Hc.
        rewrite Z.leb_gt, Z.ltb_ge in Hc. lia. }
      assert (fits 16 n) by (unfold fits; lia). rewrite word2_fields by done. split_and!; try done.
      rewrite exec_imov by done. rewrite (unsigned_id 64) by (unfold fits; lia). done.
    + destruct (makeInteger_numbers (tg_pool g) n) as (p' & k & Em & Hp & Hk).
      rewrite (G_step _ _ g (Z.of_nat k) (tg_set_pool p' g)) by (unfold G_intern; by rewrite Em).
      destruct (emit_word_grows (word2 NCONST reg (Z.of_nat k)) (tg_set_pool p' g)) as (g' & E & G & Hr & Hn).
      eexists _, g', _. split_and!; [exact E| |done|].
      { destruct G as [G1 G2 G3 G4 G5 G6 G7]. split; try done. by rewrite Hn. }
      intros pc d z [_ Hsn] Hpre Hf Hz. injection Hz as <-. split; [done|]. exists NCONST, (Z.of_nat k).
      assert (Hkn : numbers g' !! k = Some n) by (rewrite Hn; exact Hk). pose proof (lookup_lt_Some _ _ _ Hkn).
      assert (fits 16 (Z.of_nat k)) by (unfold fits; lia). rewrite word2_fields by done. split_and!; try done.
      apply exec_nconst; [done..|]. rewrite Nat2Z.id. by eapply prefix_lookup_Some.
Qed.

Lemma getRegister_constant u c g :
  known ρ u g → register_constant c = true →
  ∃ g' seg reg, getRegister (OConst c) g = Ok (reg, g') ∧ grows g g' seg ∧ puts u (OConst c) g g' seg reg.
Proof.
  intros K Hc. unfold getRegister. rewrite (G_step _ _ g (tg_variables g) g) by done. rewrite (kn_consts _ _ _ K).
  assert (loadable c = true) as -> by (by destruct c). destruct (allocate_grows 1 g) as (g1 & E1 & G1 & R1 & N1). rewrite (G_step _ _ _ _ _ E1).
  destruct (emit_constant_spec c (Z.of_nat (nregs g)) g1 Hc) as (k & g2 & w & E2 & G2 & R2 & X). rewrite (G_step _ _ _ _ _ E2).
  exists g2, [w], (u16 (Z.of_nat (nregs g))). split_and!; [done|by apply (grows_trans _ _ _ [] [w] G1 G2)|].
  pose proof (u16_le (Z.of_nat (nregs g))). split; [lia|]. intros env d pc z Hs Hp Hw Hd _ Hz.
  destruct Hs as [Hs1 Hs2]. assert (Hf : fits 15 (Z.of_nat (nregs g))) by (unfold fits; lia).
  destruct (X (Z.of_nat pc) d z) as (Hi & o & b & -> & Hb & Hsig & He); [done..|]. split; [done|]. apply code_at_one in Hw.
  rewrite unsigned_id by (by eapply fits_mono; [|exact Hf]). rewrite R2, R1.
  by apply (sets_register g o (Z.of_nat (nregs g)) b (u64 z) pc d).
Qed.

(** The register of an operand that may be used. *)
Lemma getRegister_spec u o g :
  known ρ u g → usable_operand u o = true → ∃ g' seg reg, getRegister o g = Ok (reg, g') ∧ grows g g' seg ∧ puts u o g g' seg reg.
Proof.
  intros K Hu. destruct o as [|c|v|b]; try discriminate Hu.
  - by apply getRegister_constant.
  - cbn in Hu. apply orb_true_iff in Hu. rewrite !bool_decide_eq_true in Hu.
    destruct (getRegister_value u v g) as [E P]; [done|set_solver|]. eexists g, [], _. split_and!; [exact E|apply grows_refl|exact P].
Qed.
End operands.

(** ** Instructions with a value *)

Definition ids_of (u : Usable) : list nat := us_vars u ++ us_vals u ++ (us_loads u).*1.

(** A register for the value of [i], then more code. *)
Record gives_register (i : Instr) (g g' : Gen) (seg : list Z) : Prop := {
  df_code : tg_code g' = tg_code g ++ seg;
  df_variables : tg_variables g' = (self i, Z.of_nat (nregs g)) :: tg_variables g;
  df_conditional : tg_conditionalJumps g' = tg_conditionalJumps g;
  df_unconditional : tg_unconditionalJumps g' = tg_unconditionalJumps g;
  df_hints : tg_matchHints g' = tg_matchHints g;
  df_regs : (nregs g < nregs g')%nat;
  df_numbers : numbers g `prefix_of` numbers g';
}.

Lemma allocate_for_spec i g : ∃ g1, allocate_for 1 (self i) g = Ok (Z.of_nat (nregs g), g1) ∧ gives_register i g g1 [] ∧ nregs g1 = S (nregs g).
Proof.
  destruct (allocate_grows 1 g) as (g0 & E & [C V J1 J2 M R N] & Hr & Hn). unfold allocate_for. rewrite (G_step _ _ _ _ _ E).
  eexists. split; [done|]. assert (nregs (tg_set_variable (self i) (Z.of_nat (nregs g)) g0) = S (nregs g)) as Hr'.
  { change (nregs g0 = S (nregs g)). lia. }
  split; [|done]. split; try done; [cbn; by rewrite V|rewrite Hr'; lia].
Qed.

Lemma defines_grows i g g1 g2 s1 s2 : gives_register i g g1 s1 → grows g1 g2 s2 → gives_register i g g2 (s1 ++ s2).
Proof. intros [] []. split; try congruence; [by rewrite app_assoc; congruence|lia|by etrans]. Qed.

Lemma known_defines ρ u i g g' seg : in_id i ∉ ids_of u → gives_register i g g' seg → known ρ u g → known ρ u g'.
Proof.
  intros Hi D [H1 H2]. split.
  - intros v Hv. rewrite (df_variables _ _ _ _ D). cbn. rewrite bool_decide_false by (intros [= <-]; by apply Hi).
    destruct (H1 v Hv) as [? ?]. pose proof (df_regs _ _ _ _ D). split; [done|lia].
  - intros c. rewrite (df_variables _ _ _ _ D). cbn. apply H2.
Qed.

Section values.
Context {W : Type} (m : Machine W) (r0 : Runner W) (ρ : nat → Z) (u : Usable).

(** The code [seg] of the value [f] of the environment, in a new register. *)
Definition computes (g g' : Gen) (seg : list Z) (f : gmap nat Val → option (vm Z)) : Prop :=
  ∀ env d pc v, small_gen g' → numbers g' `prefix_of` cp_numbers (m_pool m) → code_at m pc seg → regs_ok m d →
  holds ρ u env d → f env = Some v →
  match v with
  | inl e => ends_with m r0 (Z.of_nat pc) d e
  | inr x => ∃ d', reaches m r0 (Z.of_nat pc) d (Z.of_nat (pc + length seg)) d' ∧
                   same_regs_outside (nregs g) (nregs g') d d' ∧ d' !! nregs g = Some x
  end.

(** The last instruction: from registers that hold the operands. *)
Lemma last_instruction g g' (pc : nat) o b c d (v : vm Z) :
  small_gen g' → (nregs g < nregs g')%nat → fits 16 b → fits 16 c → regs_ok m d →
  (operandSignature (Some o) = SigRRR ∨ operandSignature (Some o) = SigRRI ∨ operandSignature (Some o) = SigRR ∨ operandSignature (Some o) = SigRI) →
  m_code m !! pc = Some (fields o (Z.of_nat (nregs g)) b c) →
  exec m (fields o (Z.of_nat (nregs g)) b c) (Z.of_nat pc) (at_regs r0 d) =
    (x ← v; r ← reg_set (at_regs r0 d) (Z.of_nat (nregs g)) x; inr (r, Goto (Z.of_nat pc + 1))) →
  match v with
  | inl e => ends_with m r0 (Z.of_nat pc) d e
  | inr x => ∃ d', reaches m r0 (Z.of_nat pc) d (Z.of_nat (S pc)) d' ∧ same_regs_outside (nregs g) (nregs g') d d' ∧ d' !! nregs g = Some x
  end.
Proof.
  intros [Hs _] Hlt Hb Hc Hd Hsig Hw He. assert (Ha : fits 15 (Z.of_nat (nregs g))) by (unfold fits; lia).
  destruct v as [e|x]; [by eapply ends_step|]. exists (<[nregs g := x]> d). split_and!.
  - rewrite <- (Nat2Z.id (nregs g)) at 1. by apply (exec_written m r0 _ o _ b c).
  - apply insert_outside. lia.
  - apply list_lookup_insert_eq. rewrite <- (Nat2Z.id (nregs g)).
    by apply (written_register m o _ b c); [eapply list_elem_of_lookup_2|..].
Qed.

Lemma regs_ok_outside lo hi d d' : same_regs_outside lo hi d d' → regs_ok m d → regs_ok m d'.
Proof. intros [H _]. unfold regs_ok. by rewrite H. Qed.

(** Two operands, one after the other. *)
Lemma two_operands x y g : known ρ u g → usable_operand u x = true → usable_operand u y = true →
  ∃ g1 g2 seg1 seg2 b c, getRegister x g = Ok (b, g1) ∧ getRegister y g1 = Ok (c, g2) ∧ grows g g2 (seg1 ++ seg2) ∧
    0 ≤ b < Z.of_nat (nregs g2) ∧ 0 ≤ c < Z.of_nat (nregs g2) ∧
    ∀ env d pc p q, small_gen g2 → numbers g2 `prefix_of` cp_numbers (m_pool m) → code_at m pc (seg1 ++ seg2) → regs_ok m d →
    holds ρ u env d → number_of (arg_of env x) = Some p → number_of (arg_of env y) = Some q →
    ∃ d', reaches m r0 (Z.of_nat pc) d (Z.of_nat (pc + length (seg1 ++ seg2))) d' ∧ same_regs_outside (nregs g) (nregs g2) d d' ∧
      toNumber (at_regs r0 d') b = inr p ∧ toNumber (at_regs r0 d') c = inr q.
Proof.
  intros K Hx Hy. destruct (getRegister_spec m r0 ρ u x g K Hx) as (g1 & s1 & b & E1 & G1 & B1 & P1).
  destruct (getRegister_spec m r0 ρ u y g1 (known_grows _ _ _ _ _ G1 K) Hy) as (g2 & s2 & c & E2 & G2 & B2 & P2).
  pose proof (gr_regs _ _ _ G1) as R1. pose proof (gr_regs _ _ _ G2) as R2. pose proof (gr_numbers _ _ _ G2) as N2.
  exists g1, g2, s1, s2, b, c. split_and!; [done..|by eapply grows_trans|lia|lia|lia|lia|].
  intros env d pc p q [Hs1 Hs2] Hp Hcode Hd Hh Hnp Hnq. apply code_at_app in Hcode as [Hc1 Hc2].
  assert (small_gen g1) by (split; [lia|]; apply prefix_length in N2; lia).
  destruct (P1 env d pc p) as (Ip & d1 & Re1 & O1 & V1); [done|by etrans|done..|].
  destruct (P2 env d1 (pc + length s1)%nat q) as (Iq & d2 & Re2 & O2 & V2); [done|done|done|by eapply regs_ok_outside| |done|].
  { by eapply (holds_outside ρ u g); [|reflexivity|exact O1|]. }
  exists d2. rewrite length_app, Nat.add_assoc. split_and!.
  - by eapply reaches_trans.
  - eapply same_outside_trans; [exact O1|exact O2|lia..].
  - apply read_number; [done|]. destruct O2 as [_ O2]. rewrite O2 by lia. done.
  - by apply read_number.
Qed.
Definition number2 (env : gmap nat Val) (x y : Operand) (f : Z → Z → vm Z) : option (vm Z) :=
  match number_of (arg_of env x), number_of (arg_of env y) with Some p, Some q => Some (f p q) | _, _ => None end.
Definition number1 (env : gmap nat Val) (x : Operand) (f : Z → vm Z) : option (vm Z) :=
  match number_of (arg_of env x) with Some p => Some (f p) | None => None end.

(** What all three forms have in common: code for the operands from [g1] to [g2],
    then one instruction. *)
Lemma emitted i g g1 g2 seg w : gives_register i g g1 [] → grows g1 g2 seg →
  ∃ g3, emit_word w g2 = Ok (length (tg_code g2), g3) ∧ gives_register i g g3 (seg ++ [w]) ∧ nregs g3 = nregs g2 ∧ numbers g3 = numbers g2.
Proof.
  intros D G. destruct (emit_word_grows w g2) as (g3 & E & G3 & R & N). exists g3. split_and!; try done.
  apply (defines_grows i g g1 g3 [] (seg ++ [w]) D). by eapply grows_trans.
Qed.

Lemma then_instruction g g1 g2 g3 seg o b c (pc : nat) d d' (v : vm Z) :
  nregs g1 = S (nregs g) → grows g1 g2 seg → nregs g3 = nregs g2 → small_gen g3 → fits 16 b → fits 16 c → regs_ok m d →
  (operandSignature (Some o) = SigRRR ∨ operandSignature (Some o) = SigRRI ∨ operandSignature (Some o) = SigRR ∨ operandSignature (Some o) = SigRI) →
  m_code m !! (pc + length seg)%nat = Some (fields o (Z.of_nat (nregs g)) b c) →
  reaches m r0 (Z.of_nat pc) d (Z.of_nat (pc + length seg)) d' → same_regs_outside (nregs g1) (nregs g2) d d' →
  exec m (fields o (Z.of_nat (nregs g)) b c) (Z.of_nat (pc + length seg)) (at_regs r0 d') =
    (x ← v; r ← reg_set (at_regs r0 d') (Z.of_nat (nregs g)) x; inr (r, Goto (Z.of_nat (pc + length seg) + 1))) →
  match v with
  | inl e => ends_with m r0 (Z.of_nat pc) d e
  | inr x => ∃ d2, reaches m r0 (Z.of_nat pc) d (Z.of_nat (S (pc + length seg))) d2 ∧
                   same_regs_outside (nregs g) (nregs g3) d d2 ∧ d2 !! nregs g = Some x
  end.
Proof.
  intros R1 G2 R3 Hs Hb Hc Hd Hsig Hw Re O He. pose proof (gr_regs _ _ _ G2) as Hr2.
  pose proof (last_instruction g g3 _ o b c d' v Hs ltac:(lia) Hb Hc (regs_ok_outside _ _ _ _ O Hd) Hsig Hw He) as L.
  destruct v as [e|z]; [by eapply reaches_ends|]. destruct L as (d2 & Re2 & O2 & V2). exists d2.
  split_and!; [by eapply reaches_trans| |done]. eapply same_outside_trans; [exact O|exact O2|lia..].
Qed.

Lemma small_same g g' : nregs g' = nregs g → numbers g' = numbers g → small_gen g' → small_gen g.
Proof. unfold small_gen. by intros -> ->. Qed.

Lemma immediate_fits n : immediate n = true → fits 16 n.
Proof. unfold immediate. by intros [?%Z.leb_le ?%Z.ltb_lt]%andb_true_iff. Qed.

Lemma rrr_spec i rr x y g :
  known ρ u g → in_id i ∉ ids_of u → usable_operand u x = true → usable_operand u y = true → two_registers rr = true →
  ∃ k g' seg, (a ← allocate_for 1 (self i); b ← getRegister x; c ← getRegister y; emit3 rr a b c) g = Ok (k, g') ∧
    gives_register i g g' seg ∧ computes g g' seg (λ env, number2 env x y (numeric m rr)).
Proof.
  intros K Hi Hx Hy Hrr. destruct (allocate_for_spec i g) as (g1 & E1 & D1 & R1). rewrite (G_step _ _ _ _ _ E1).
  pose proof (known_defines ρ u i g g1 [] Hi D1 K) as K1.
  destruct (two_operands x y g1 K1 Hx Hy) as (ga & g2 & s1 & s2 & b & c & Ea & E2 & G2 & Hb & Hc & X).
  rewrite (G_step _ _ _ _ _ Ea), (G_step _ _ _ _ _ E2).
  destruct (emitted i g g1 g2 (s1 ++ s2) (word3 rr (Z.of_nat (nregs g)) b c) D1 G2) as (g3 & E3 & D3 & R3 & N3).
  pose proof (df_regs _ _ _ _ D3) as Hreg.
  eexists _, g3, _. split; [exact E3|]. split; [exact D3|]. intros env d pc v Hs Hp Hcode Hd Hh Hv.
  unfold number2 in Hv. destruct (number_of (arg_of env x)) as [p|] eqn:Ep; [|done]. destruct (number_of (arg_of env y)) as [q|] eqn:Eq; [|done].
  injection Hv as <-. apply code_at_app in Hcode as [Hc1 Hc2]. apply code_at_one in Hc2.
  pose proof (small_same _ _ R3 N3 Hs) as Hs2. destruct (X env d pc p q) as (d' & Re & O & Tb & Tc); [done|by rewrite <- N3|done..|].
  destruct Hs2 as [Hs2 _]. rewrite word3_fields in Hc2 by (unfold fits; lia).
  rewrite length_app, Nat.add_assoc, Nat.add_1_r.
  apply (then_instruction g g1 g2 g3 (s1 ++ s2) rr b c pc d d'); try done; [unfold fits; lia..|by left; destruct rr|].
  apply exec_two; done || (unfold fits; lia).
Qed.

Lemma rri_spec i ri x n g :
  known ρ u g → in_id i ∉ ids_of u → usable_operand u x = true → immediate n = true → with_immediate ri = true →
  ∃ k g' seg, (a ← allocate_for 1 (self i); b ← getRegister x; emit3 ri a b n) g = Ok (k, g') ∧
    gives_register i g g' seg ∧ computes g g' seg (λ env, number1 env x (λ p, numeric m ri p n)).
Proof.
  intros K Hi Hx Hn%immediate_fits Hri. destruct (allocate_for_spec i g) as (g1 & E1 & D1 & R1). rewrite (G_step _ _ _ _ _ E1).
  pose proof (known_defines ρ u i g g1 [] Hi D1 K) as K1.
  destruct (getRegister_spec m r0 ρ u x g1 K1 Hx) as (g2 & s1 & b & E2 & G2 & Hb & X). rewrite (G_step _ _ _ _ _ E2).
  destruct (emitted i g g1 g2 s1 (word3 ri (Z.of_nat (nregs g)) b n) D1 G2) as (g3 & E3 & D3 & R3 & N3).
  pose proof (df_regs _ _ _ _ D3) as Hreg.
  eexists _, g3, _. split; [exact E3|]. split; [exact D3|]. intros env d pc v Hs Hp Hcode Hd Hh Hv.
  unfold number1 in Hv. destruct (number_of (arg_of env x)) as [p|] eqn:Ep; [|done].
  injection Hv as <-. apply code_at_app in Hcode as [Hc1 Hc2]. apply code_at_one in Hc2.
  pose proof (small_same _ _ R3 N3 Hs) as Hs2. destruct (X env d pc p) as (Ip & d' & Re & O & Tb); [done|by rewrite <- N3|done..|].
  destruct Hs2 as [Hs2 _]. rewrite word3_fields in Hc2 by (done || (unfold fits; lia)).
  rewrite length_app, Nat.add_assoc, Nat.add_1_r.
  apply (then_instruction g g1 g2 g3 s1 ri b n pc d d'); try done; [unfold fits; lia..|by right; left; destruct ri|].
  apply exec_immediate; done || (unfold fits; lia) || by apply read_number.
Qed.

Lemma rr_spec i o x g :
  known ρ u g → in_id i ∉ ids_of u → usable_operand u x = true → bool_decide (o ∈ [NNEG; NNOT; BNOT]) = true →
  ∃ k g' seg, (a ← allocate_for 1 (self i); b ← getRegister x; emit2 o a b) g = Ok (k, g') ∧
    gives_register i g g' seg ∧ computes g g' seg (λ env, number1 env x (numeric1 o)).
Proof.
  intros K Hi Hx Ho. destruct (allocate_for_spec i g) as (g1 & E1 & D1 & R1). rewrite (G_step _ _ _ _ _ E1).
  pose proof (known_defines ρ u i g g1 [] Hi D1 K) as K1.
  destruct (getRegister_spec m r0 ρ u x g1 K1 Hx) as (g2 & s1 & b & E2 & G2 & Hb & X). rewrite (G_step _ _ _ _ _ E2).
  destruct (emitted i g g1 g2 s1 (word2 o (Z.of_nat (nregs g)) b) D1 G2) as (g3 & E3 & D3 & R3 & N3).
  pose proof (df_regs _ _ _ _ D3) as Hreg.
  eexists _, g3, _. split; [exact E3|]. split; [exact D3|]. intros env d pc v Hs Hp Hcode Hd Hh Hv.
  unfold number1 in Hv. destruct (number_of (arg_of env x)) as [p|] eqn:Ep; [|done].
  injection Hv as <-. apply code_at_app in Hcode as [Hc1 Hc2]. apply code_at_one in Hc2.
  pose proof (small_same _ _ R3 N3 Hs) as Hs2. destruct (X env d pc p) as (Ip & d' & Re & O & Tb); [done|by rewrite <- N3|done..|].
  destruct Hs2 as [Hs2 _]. rewrite word2_fields in Hc2 by (unfold fits; lia).
  rewrite length_app, Nat.add_assoc, Nat.add_1_r.
  apply (then_instruction g g1 g2 g3 s1 o b 0 pc d d'); try done; [unfold fits; lia..|by right; right; left; destruct o|].
  apply exec_one; done || (unfold fits; lia) || by apply read_number.
Qed.
(** ** Operators *)

Definition codes (op : BinaryOperator) : option (Opcode * Opcode) :=
  match op with
  | IAdd => Some (NADD, NIADD) | ISub => Some (NSUB, NISUB) | IMul => Some (NMUL, NIMUL)
  | IDiv => Some (NDIV, NIDIV) | IRem => Some (NREM, NIREM)
  | IAnd => Some (NAND, NIAND) | IOr => Some (NOR, NIOR) | IXor => Some (NXOR, NIXOR)
  | IShl => Some (NSHL, NISHL) | IShr => Some (NSHR, NISHR)
  | ICmpEQ => Some (NCMPEQ, NICMPEQ) | ICmpNE => Some (NCMPNE, NICMPNE)
  | ICmpLE => Some (NCMPLE, NICMPLE) | ICmpGE => Some (NCMPGE, NICMPGE)
  | ICmpLT => Some (NCMPLT, NICMPLT) | ICmpGT => Some (NCMPGT, NICMPGT)
  | _ => None
  end.

Lemma codes_mean op rr ri p q : codes op = Some (rr, ri) →
  two_registers rr = true ∧ with_immediate ri = true ∧
  numeric m rr p q = eval_binary (m_powl m) op p q ∧ numeric m ri p q = eval_binary (m_powl m) op p q.
Proof. destruct op; intros [= <- <-]; done. Qed.

Lemma codes_visit i op rr ri : codes op = Some (rr, ri) → visit_binary i op = (_ ← emitBinaryAssoc i rr ri; mret ()).
Proof. destruct op; intros [= <- <-]; done. Qed.

Lemma commutes op p q : commutative op = true → eval_binary (m_powl m) op p q = eval_binary (m_powl m) op q p.
Proof.
  destruct op; try done; intros _; cbn.
  - by rewrite Z.add_comm.
  - by rewrite Z.mul_comm.
  - by rewrite Z.land_comm.
  - by rewrite Z.lor_comm.
  - by rewrite Z.lxor_comm.
  - by rewrite Z.eqb_sym.
  - by rewrite Z.eqb_sym.
Qed.

Lemma computes_ext g g' seg f f' : (∀ env, f env = f' env) → computes g g' seg f → computes g g' seg f'.
Proof. intros H C env d pc v Hs Hp Hc Hd Hh Hv. apply (C env d pc v); try done. by rewrite H. Qed.

Lemma assert_sig_true {A} o s (k : G A) g : operandSignature (Some o) = s → (_ ← assert_sig o s; k) g = k g.
Proof. intros H. unfold mbind, G_bind, assert_sig, G_assert. rewrite bool_decide_true by done. done. Qed.

Lemma operands_two {A} i x y (k : Operand → Operand → G A) g : in_operands i = [x; y] → (a ← operand i 0; b ← operand i 1; k a b) g = k x y g.
Proof. intros H. unfold operand. by rewrite H. Qed.

(** A result of the generator up to the offset of the last instruction. *)
Lemma drop_offset (c : G nat) g k g' : c g = Ok (k, g') → (_ ← c; mret ()) g = Ok ((), g').
Proof. intros H. unfold mbind, G_bind. by rewrite H. Qed.

Definition compiled (i : Instr) (c : G unit) (g : Gen) (f : gmap nat Val → option (vm Z)) : Prop :=
  ∃ g' seg, c g = Ok ((), g') ∧ gives_register i g g' seg ∧ computes g g' seg f.

(** The choice of the form of an instruction. *)
Lemma choose_form {A} (x y : Operand) (r : A) (f g : Z → A) :
  match x, y with _, OConst (ConstantInt n) => f n | OConst (ConstantInt n), _ => g n | _, _ => r end =
  match as_int y, as_int x with Some n, _ => f n | None, Some n => g n | None, None => r end.
Proof. destruct x as [|[]| |], y as [|[]| |]; done. Qed.

Lemma choose_immediate {A} (y : Operand) (r : A) (f : Z → A) :
  match y with OConst (ConstantInt n) => f n | _ => r end = match as_int y with Some n => f n | None => r end.
Proof. destruct y as [|[]| |]; done. Qed.

Lemma as_int_number env o n : as_int o = Some n → number_of (arg_of env o) = Some n.
Proof. destruct o as [|[]| |]; try done; by intros [= ->]. Qed.

Lemma number1_right env x y n f : as_int y = Some n → number1 env x (λ p, f p n) = number2 env x y f.
Proof. intros H. unfold number1, number2. rewrite (as_int_number env y n H). done. Qed.

Lemma number1_left env x y n f : as_int x = Some n → number1 env y (λ q, f n q) = number2 env x y f.
Proof. intros H. unfold number1, number2. by rewrite (as_int_number env x n H). Qed.

Lemma assoc_compiled i op rr ri x y g :
  codes op = Some (rr, ri) → in_operands i = [x; y] → binary_ok u op x y = true → known ρ u g → in_id i ∉ ids_of u →
  compiled i (visit_binary i op) g (λ env, number2 env x y (eval_binary (m_powl m) op)).
Proof.
  intros Hop Hi Hok K Hid. unfold compiled. rewrite (codes_visit i op rr ri Hop). destruct (codes_mean op rr ri 0 0 Hop) as (Hrr & Hri & _).
  assert (Hsrr : operandSignature (Some rr) = SigRRR) by (by destruct rr). assert (Hsri : operandSignature (Some ri) = SigRRI) by (by destruct ri).
  assert (Hok' : match as_int y, as_int x with
      | Some n, _ => usable_operand u x && immediate n
      | None, Some n => commutative op && usable_operand u y && immediate n
      | None, None => usable_operand u x && usable_operand u y
      end = true).
  { unfold binary_ok in Hok. apply andb_true_iff in Hok as [_ Hok]. by destruct op. }
  assert (Huse : ∀ k g', (a ← allocate_for 1 (self i);
     match as_int y, as_int x with
     | Some n, _ => b ← getRegister x; emit3 ri a b n
     | None, Some n => b ← getRegister y; emit3 ri a b n
     | None, None => b ← getRegister x; c ← getRegister y; emit3 rr a b c
     end) g = Ok (k, g') → (_ ← emitBinaryAssoc i rr ri; mret ()) g = Ok ((), g')).
  { intros k g' H. apply (drop_offset _ g k). unfold emitBinaryAssoc. rewrite assert_sig_true, assert_sig_true, (operands_two i x y) by done.
    rewrite <- H. unfold mbind, G_bind. destruct (allocate_for 1 (self i) g) as [[a ga]|]; [|done]. by rewrite choose_form. }
  destruct (as_int y) as [n|] eqn:Ey; [|destruct (as_int x) as [n|] eqn:Ex]; rewrite ?andb_true_iff in Hok'.
  - destruct Hok' as [Hx Hn]. destruct (rri_spec i ri x n g K Hid Hx Hn Hri) as (k & g' & seg & E & D & C).
    exists g', seg. split; [by eapply Huse|]. split; [done|]. eapply computes_ext; [|exact C]. intros env. cbn.
    rewrite <- (number1_right env x y n) by done. unfold number1. destruct (number_of (arg_of env x)) as [p|]; [|done].
    f_equal. by apply (codes_mean op rr ri).
  - destruct Hok' as [[Hc Hy] Hn]. destruct (rri_spec i ri y n g K Hid Hy Hn Hri) as (k & g' & seg & E & D & C).
    exists g', seg. split; [by eapply Huse|]. split; [done|]. eapply computes_ext; [|exact C]. intros env. cbn.
    rewrite <- (number1_left env x y n) by done. unfold number1. destruct (number_of (arg_of env y)) as [q|]; [|done].
    f_equal. rewrite (commutes op n q Hc). by apply (codes_mean op rr ri).
  - destruct Hok' as [Hx Hy]. destruct (rrr_spec i rr x y g K Hid Hx Hy Hrr) as (k & g' & seg & E & D & C).
    exists g', seg. split; [by eapply Huse|]. split; [done|]. eapply computes_ext; [|exact C]. intros env. unfold number2.
    destruct (number_of (arg_of env x)) as [p|]; [|done]. destruct (number_of (arg_of env y)) as [q|]; [|done].
    f_equal. by apply (codes_mean op rr ri).
Qed.

Lemma pow_compiled i x y g :
  in_operands i = [x; y] → binary_ok u IPow x y = true → known ρ u g → in_id i ∉ ids_of u →
  compiled i (visit_binary i IPow) g (λ env, number2 env x y (eval_binary (m_powl m) IPow)).
Proof.
  intros Hi Hok K Hid. unfold compiled. cbn in Hok. apply andb_true_iff in Hok as [Hx Hok].
  assert (Huse : ∀ k g', (a ← allocate_for 1 (self i);
     match as_int y with
     | Some n => b ← getRegister x; emit3 NIPOW a b n
     | None => b ← getRegister x; c ← getRegister y; emit3 NPOW a b c
     end) g = Ok (k, g') → visit_binary i IPow g = Ok ((), g')).
  { intros k g' H. apply (drop_offset _ g k). unfold emitBinary_imm. rewrite assert_sig_true, assert_sig_true, (operands_two i x y) by done.
    rewrite <- H. unfold mbind, G_bind. destruct (allocate_for 1 (self i) g) as [[a ga]|]; [|done]. by rewrite choose_immediate. }
  destruct (as_int y) as [n|] eqn:Ey.
  - destruct (rri_spec i NIPOW x n g K Hid Hx Hok eq_refl) as (k & g' & seg & E & D & C).
    exists g', seg. split; [by eapply Huse|]. split; [done|]. eapply computes_ext; [|exact C]. intros env. by apply number1_right.
  - destruct (rrr_spec i NPOW x y g K Hid Hx Hok eq_refl) as (k & g' & seg & E & D & C). exists g', seg. split; [by eapply Huse|done].
Qed.

Lemma boolean_compiled i op rr x y g :
  (op = BAnd ∧ rr = BAND) ∨ (op = BXor ∧ rr = BXOR) → in_operands i = [x; y] → binary_ok u op x y = true → known ρ u g → in_id i ∉ ids_of u →
  compiled i (visit_binary i op) g (λ env, number2 env x y (eval_binary (m_powl m) op)).
Proof.
  intros Hop Hi Hok K Hid. assert (Hxy : usable_operand u x = true ∧ usable_operand u y = true).
  { apply andb_true_iff. by destruct Hop as [[-> _]|[-> _]]. }
  destruct Hxy as [Hx Hy]. destruct (rrr_spec i rr x y g K Hid Hx Hy) as (k & g' & seg & E & D & C); [by destruct Hop as [[_ ->]|[_ ->]]|].
  exists g', seg. split_and!; [|done|by destruct Hop as [[-> ->]|[-> ->]]].
  assert (visit_binary i op = (_ ← emitBinary i rr; mret ())) as -> by (by destruct Hop as [[-> ->]|[-> ->]]).
  apply (drop_offset _ g k). unfold emitBinary.
  rewrite assert_sig_true, (operands_two i x y) by (done || by destruct Hop as [[_ ->]|[_ ->]]). done.
Qed.

(** Every operator the check accepts is given code for its meaning. *)
Lemma binary_compiled i op x y g :
  in_operands i = [x; y] → binary_ok u op x y = true → known ρ u g → in_id i ∉ ids_of u →
  compiled i (visit_binary i op) g (λ env, number2 env x y (eval_binary (m_powl m) op)).
Proof.
  intros Hi Hok K Hid. destruct (codes op) as [[rr ri]|] eqn:Hc; [by eapply assoc_compiled|].
  assert (op = IPow ∨ op = BAnd ∨ op = BXor) as [->|[->| ->]].
  { unfold binary_ok in Hok. apply andb_true_iff in Hok as [Hok _]. destruct op; try discriminate; auto. }
  - by apply pow_compiled.
  - apply (boolean_compiled i BAnd BAND); auto.
  - apply (boolean_compiled i BXor BXOR); auto.
Qed.

Lemma unary_compiled i op x g :
  in_operands i = [x] → usable_operand u x = true → op = INeg ∨ op = INot ∨ op = BNot → known ρ u g → in_id i ∉ ids_of u →
  compiled i (visit_unary i op) g (λ env, number1 env x (eval_unary op)).
Proof.
  intros Hi Hx Hop K Hid. set (o := match op with INeg => NNEG | INot => NNOT | _ => BNOT end).
  destruct (rr_spec i o x g K Hid Hx) as (k & g' & seg & E & D & C); [by destruct Hop as [->|[->| ->]]|].
  exists g', seg. split_and!; [|done|by destruct Hop as [->|[->| ->]]].
  assert (visit_unary i op = (_ ← emitUnary i o; mret ())) as -> by (by destruct Hop as [->|[->| ->]]).
  apply (drop_offset _ g k). unfold emitUnary. rewrite assert_sig_true by (by destruct Hop as [->|[->| ->]]).
  unfold operand. rewrite Hi. done.
Qed.
End values.

(** ** The simulation *)

(** The state of the handler and the registers: every value has its number in
    its register, every variable the contents of its cell. *)
Section simulation.
Context (vars vals : list nat) (ρ : nat → Z).

Definition in_register (env : gmap nat Val) (d : list Z) (v : nat) : Prop :=
  ∀ val, env !! v = Some val → ∃ z, val = VNum z ∧ int64 z = true ∧ d !! Z.to_nat (ρ v) = Some (u64 z).
Definition cell_in_register (env : gmap nat Val) (w : cells) (d : list Z) (v : nat) : Prop :=
  ∀ val, env !! v = Some val → ∃ n, val = VCell n ∧ (n < length w)%nat ∧
  ∀ z, w !! n = Some (Some z) → int64 z = true ∧ d !! Z.to_nat (ρ v) = Some (u64 z).

Record rel (env : gmap nat Val) (w : cells) (d : list Z) : Prop := {
  rl_vals : ∀ v, v ∈ vals → in_register env d v;
  rl_vars : ∀ v, v ∈ vars → cell_in_register env w d v;
  rl_cells : ∀ v v' n, v ∈ vars → v' ∈ vars → env !! v = Some (VCell n) → env !! v' = Some (VCell n) → v = v';
}.

(** What may be used is among the values of the handler; a load has the
    register of its variable. *)
Record usable_ok (u : Usable) : Prop := {
  uo_vars : ∀ v, v ∈ us_vars u → v ∈ vars;
  uo_vals : ∀ v, v ∈ us_vals u → v ∈ vals;
  uo_loads : ∀ v x, (v, x) ∈ us_loads u → x ∈ vars ∧ ρ v = ρ x;
}.
Definition loads_hold (u : Usable) (env : gmap nat Val) (d : list Z) : Prop := ∀ v, v ∈ (us_loads u).*1 → in_register env d v.

Lemma rel_holds u env w d : usable_ok u → rel env w d → loads_hold u env d → holds ρ u env d.
Proof.
  intros U R L v val Hv He. apply elem_of_app in Hv as [Hv|Hv]; [|by apply (L v)].
  by apply (rl_vals _ _ _ R v); [apply (uo_vals _ U)|].
Qed.

(** The instruction [i] and its registers from [lo] to [hi]: no other value has
    one of them, and its id is that of a value of its kind. *)
Record placed (i : Instr) (lo hi : nat) : Prop := {
  pl_apart : ∀ v, v ∈ vars ++ vals → v ≠ in_id i → (Z.to_nat (ρ v) < lo ∨ hi ≤ Z.to_nat (ρ v))%nat;
  pl_var : in_id i ∈ vars → in_kind i = AllocaInstr;
  pl_val : in_id i ∈ vals → match in_kind i with UnaryInstr _ | BinaryInstr _ => True | _ => False end;
}.

Lemma in_register_outside env d d' v lo hi id val :
  same_regs_outside lo hi d d' → (Z.to_nat (ρ v) < lo ∨ hi ≤ Z.to_nat (ρ v))%nat → v ≠ id → in_register env d v → in_register (<[id := val]> env) d' v.
Proof.
  intros [_ O] Hr Hne H x Hx. rewrite lookup_insert_ne in Hx by done. destruct (H x Hx) as (z & -> & Hz & Hd).
  exists z. split_and!; [done..|]. by rewrite O.
Qed.

Lemma cell_outside env w d d' v lo hi id val :
  same_regs_outside lo hi d d' → (Z.to_nat (ρ v) < lo ∨ hi ≤ Z.to_nat (ρ v))%nat → v ≠ id → cell_in_register env w d v → cell_in_register (<[id := val]> env) w d' v.
Proof.
  intros [_ O] Hr Hne H x Hx. rewrite lookup_insert_ne in Hx by done. destruct (H x Hx) as (n & -> & Hn & Hz).
  exists n. split_and!; [done..|]. intros z Ez. destruct (Hz z Ez). split; [done|]. by rewrite O.
Qed.

Lemma loads_outside u env d d' lo hi i val :
  usable_ok u → placed i lo hi → in_id i ∉ ids_of u → same_regs_outside lo hi d d' → (∀ v x, (v, x) ∈ us_loads u → x ≠ in_id i) →
  loads_hold u env d → loads_hold u (<[in_id i := val]> env) d'.
Proof.
  intros U P Hi O Hx L v Hv. apply list_elem_of_fmap in Hv as ([v' x] & -> & Hin). destruct (uo_loads _ U _ _ Hin) as [Hxv Hr].
  eapply in_register_outside; [exact O| | |]; cbn.
  - rewrite Hr. apply (pl_apart _ _ _ P); [set_solver|by eapply Hx].
  - intros ->. apply Hi. unfold ids_of. apply elem_of_app; right. apply elem_of_app; right. apply list_elem_of_fmap. by exists (in_id i, x).
  - apply (L v'). apply list_elem_of_fmap. by exists (v', x).
Qed.

(** An instruction that changes registers of its own only. *)
Lemma rel_outside env w d d' lo hi i val :
  placed i lo hi → same_regs_outside lo hi d d' → rel env w d →
  (in_id i ∈ vals → in_register (<[in_id i := val]> env) d' (in_id i)) → in_id i ∉ vars →
  rel (<[in_id i := val]> env) w d'.
Proof.
  intros P O R Hval Hvar. split.
  - intros v Hv. destruct (decide (v = in_id i)) as [->|Hne]; [by apply Hval|].
    eapply in_register_outside; [exact O| |done|by apply R]. apply (pl_apart _ _ _ P); [set_solver|done].
  - intros v Hv. assert (v ≠ in_id i) by congruence. eapply cell_outside; [exact O| |done|by apply R]. apply (pl_apart _ _ _ P); [set_solver|done].
  - intros v v' n Hv Hv'. rewrite !lookup_insert_ne by congruence. by apply (rl_cells _ _ _ R).
Qed.

(** A new variable. *)
Lemma rel_alloca env w d i lo hi :
  placed i lo hi → in_id i ∉ vals → rel env w d → rel (<[in_id i := VCell (length w)]> env) (w ++ [None]) d.
Proof.
  intros P Hval R. split.
  - intros v Hv x Hx. assert (v ≠ in_id i) by congruence. rewrite lookup_insert_ne in Hx by done. by apply (rl_vals _ _ _ R v Hv).
  - intros v Hv x Hx. destruct (decide (v = in_id i)) as [->|Hne].
    + rewrite lookup_insert_eq in Hx. injection Hx as <-. exists (length w). rewrite length_app. split_and!; [done|cbn; lia|].
      intros z Hz. rewrite lookup_app_r, Nat.sub_diag in Hz by lia. done.
    + rewrite lookup_insert_ne in Hx by done. destruct (rl_vars _ _ _ R v Hv x Hx) as (n & -> & Hn & Hz). exists n.
      rewrite length_app. split_and!; [done|lia|]. intros z Ez. apply Hz. by rewrite lookup_app_l in Ez by done.
  - assert (Hnew : ∀ v, v ∈ vars → v ≠ in_id i → env !! v = Some (VCell (length w)) → False).
    { intros v Hv Hne E. destruct (rl_vars _ _ _ R v Hv _ E) as (n & [= <-] & Hn & _). lia. }
    intros v v' n Hv Hv'. destruct (decide (v = in_id i)) as [->|Hne], (decide (v' = in_id i)) as [->|Hne'];
      rewrite ?lookup_insert_eq, ?lookup_insert_ne by done; try done.
    + intros [= <-] E. by destruct (Hnew v').
    + intros E [= <-]. by destruct (Hnew v).
    + by apply (rl_cells _ _ _ R).
Qed.
End simulation.
