(* ===== verification/FlowCodegenRun.v ===== *)
(** * Generated code runs as the handler does

    The rest of the proof about [TargetCodeGenerator]: every instruction of the
    handler is simulated by the code the visitor emitted for it, jumps included
    once they are patched, and so the run of the machine ends as the handler does. *)
From stdpp Require Import gmap.
From S2P Require Import Prelude FlowType FlowConstants FlowMatch FlowIr FlowInstruction FlowVm FlowBuilder FlowPasses FlowLinks FlowPassesSafety FlowCodegen FlowCodegenSafety.
Implicit Types h : IRHandler.

(** ** Jumps and the end of a run *)

Section jumps.
Context {W : Type} (m : Machine W) (r0 : Runner W).

Definition returns (pc : Z) (d : list Z) (b : bool) : Prop :=
  ∃ n r, ∀ fuel, interpret m (n + S fuel) pc (at_regs r0 d) = Some (inr (r, b)).

Lemma reaches_returns pc d pc' d' b : reaches m r0 pc d pc' d' → returns pc' d' b → returns pc d b.
Proof. intros [n1 H1] (n2 & r & H2). exists (n1 + n2)%nat, r. intros fuel. by rewrite <- Nat.add_assoc, H1, H2. Qed.

Lemma run_nop (pc : nat) d : m_code m !! pc = Some (makeInstruction0 NOP) → reaches m r0 (Z.of_nat pc) d (Z.of_nat (pc + 1)) d.
Proof.
  intros H. rewrite makeInstruction0_fields in H. eapply reaches_step; [exact H|].
  apply exec_fields; [unfold fits; lia..|]. intros i D1 D2 D3 D4. unfold exec. rewrite D1. repeat f_equal. lia.
Qed.

Definition word1 (o : Opcode) (a : Z) : Z := makeInstruction1 o (u16 a).

Lemma decode_word1 o a : fits 16 a → opcode (word1 o a) = Some o ∧ operandA (word1 o a) = a.
Proof.
  intros Ha. unfold word1. rewrite unsigned_id, makeInstruction1_fields by done.
  destruct (decode_fields o a (spilled a 0) (spilled a 0)) as (D1 & D2 & _); [done| | |done];
    unfold spilled, fits; destruct (a <? 2 ^ 15); lia.
Qed.

Lemma run_jmp (pc target : nat) d :
  m_code m !! pc = Some (word1 JMP (Z.of_nat target)) → Z.of_nat target < 2 ^ 16 → reaches m r0 (Z.of_nat pc) d (Z.of_nat target) d.
Proof.
  intros H Ht. eapply reaches_step; [exact H|]. destruct (decode_word1 JMP (Z.of_nat target)) as [D1 D2]; [unfold fits; lia|].
  unfold exec. by rewrite D1, D2.
Qed.

Lemma run_exit (pc : nat) n d : m_code m !! pc = Some (word1 EXIT n) → fits 16 n → returns (Z.of_nat pc) d (negb (n =? 0)).
Proof.
  intros H Hn. eexists 0%nat, _. intros fuel. cbn. rewrite (step_at m pc _ _ H). destruct (decode_word1 EXIT n Hn) as [D1 D2].
  unfold exec. by rewrite D1, D2.
Qed.

(** [JN] and [JZ]; [sense] is the truth of the condition that jumps. *)
Lemma run_conditional (pc target : nat) (sense : bool) R d z :
  m_code m !! pc = Some (word2 (if sense then JN else JZ) R (Z.of_nat target)) → fits 15 R → Z.of_nat target < 2 ^ 16 →
  d !! Z.to_nat R = Some (u64 z) → int64 z = true →
  reaches m r0 (Z.of_nat pc) d (if Bool.eqb sense (negb (z =? 0)) then Z.of_nat target else Z.of_nat (pc + 1)) d.
Proof.
  intros H HR Ht Hd Hz. rewrite word2_fields in H by (done || (unfold fits; lia)).
  assert (Hu : (u64 z =? 0) = (z =? 0)).
  { unfold int64 in Hz. apply andb_true_iff in Hz as [?%Z.leb_le ?%Z.ltb_lt]. unfold unsigned.
    destruct (Z.eqb_spec z 0) as [->|Hne]; [done|]. apply Z.eqb_neq. intros E%Z.mod_divide; [|lia].
    destruct E as [k E]. nia. }
  eapply reaches_step; [exact H|]. apply exec_fields; [unfold fits in *; lia..|]. intros i D1 D2 D3 D4. unfold exec.
  rewrite D1, D2, D3. replace (Z.of_nat (pc + 1)) with (Z.of_nat pc + 1) by lia.
  destruct sense; rewrite (read_reg _ _ _ _ Hd); cbn; rewrite Hu; by destruct (z =? 0).
Qed.
End jumps.

(** ** Numbers in registers *)

Lemma signed_int64 z : int64 (s64 z) = true.
Proof. unfold int64, signed. pose proof (Z.mod_pos_bound (z + 2 ^ (64 - 1)) (2 ^ 64)). apply andb_true_iff. rewrite Z.leb_le, Z.ltb_lt. lia. Qed.

Lemma unsigned_signed z : fits 64 z → u64 (s64 z) = z.
Proof.
  intros H. unfold signed, unsigned. rewrite Zminus_mod_idemp_l. replace (z + 2 ^ (64 - 1) - 2 ^ (64 - 1)) with z by lia.
  apply Z.mod_small, H.
Qed.

(** Results are words of 64 bits. *)
Section results.
Context (powl : Z → Z → option Z).
Hypothesis powl_word : ∀ b c v, powl b c = Some v → fits 64 v.

Lemma u64_word z : fits 64 (u64 z).
Proof. by apply unsigned_fits. Qed.
Lemma bit_word b : fits 64 (bit b).
Proof. by destruct b. Qed.
Lemma arith_word z v : arith z = inr v → fits 64 v.
Proof. unfold arith. destruct (_ && _); [|done]. intros [= <-]. apply u64_word. Qed.

Lemma unary_word op x v : eval_unary op x = inr v → fits 64 v.
Proof.
  destruct op; try discriminate; [apply arith_word|..]; intros [= <-]; [apply u64_word|apply bit_word].
Qed.

Lemma binary_word op x y v : eval_binary powl op x y = inr v → fits 64 v.
Proof.
  destruct op; try discriminate; try apply arith_word; try (intros [= <-]; apply u64_word || apply bit_word); cbn.
  - unfold divide. destruct (y =? 0); [done|apply arith_word].
  - unfold remainder. destruct (y =? 0); [done|]. destruct (_ && _); [done|apply arith_word].
  - destruct (powl x y) as [z|] eqn:E; [|done]. intros [= <-]. by eapply powl_word.
  - unfold shift_left. destruct (_ && _) eqn:E; [|done]. intros [= <-]. rewrite !andb_true_iff, !Z.leb_le, !Z.ltb_lt in E.
    split; [|lia]. apply Z.mul_nonneg_nonneg; [lia|]. apply Z.pow_nonneg. lia.
  - unfold shift_right. destruct (_ && _); [|done]. intros [= <-]. apply u64_word.
Qed.
End results.

(** ** The simulation of one instruction *)

Section instructions.
Context {W : Type} (m : Machine W) (r0 : Runner W) (vars vals : list nat) (ρ : nat → Z) (entry : nat → nat).
Hypothesis powl_word : ∀ b c v, m_powl m b c = Some v → fits 64 v.

(** The code of [i] at [pc], of [len] words: it computes the value and goes on
    behind itself, or at the entry of the block the handler goes to, or ends the
    run, as the handler does. *)
Definition simulates (u : Usable) (i : Instr) (pc len : nat) : Prop :=
  ∀ env w d, rel vars vals ρ env w d → loads_hold ρ u env d → regs_ok m d →
  match num_exec (m_powl m) (in_kind i) (in_type i) (arg_of env <$> in_operands i) w with
  | Continue v w' => ∃ d', reaches m r0 (Z.of_nat pc) d (Z.of_nat (pc + len)) d' ∧ regs_ok m d' ∧
      rel vars vals ρ (<[in_id i := v]> env) w' d' ∧ loads_hold ρ (define i u) (<[in_id i := v]> env) d'
  | Jump n w' => ∀ t, targets i !! n = Some t →
      ∃ d', reaches m r0 (Z.of_nat pc) d (Z.of_nat (entry t)) d' ∧ regs_ok m d' ∧ rel vars vals ρ env w' d'
  | Exit (inl e) _ => ends_with m r0 (Z.of_nat pc) d e
  | Exit (inr b) _ => returns m r0 (Z.of_nat pc) d b
  end.

(** An instruction without a meaning goes nowhere. *)
Lemma no_target i env : targets i !! length (arg_of (V := Val) env <$> in_operands i) = None.
Proof.
  apply lookup_ge_None. rewrite length_fmap. unfold targets. induction (in_operands i) as [|o l IH]; cbn; [lia|].
  destruct (op_block o); cbn; lia.
Qed.

(** The instruction is apart from what may be used. *)
Record apart (u : Usable) (i : Instr) (lo hi : nat) : Prop := {
  ap_usable : usable_ok vars vals ρ u;
  ap_placed : placed vars vals ρ i lo hi;
  ap_new : in_id i ∉ ids_of u;
  ap_loads : ∀ v x, (v, x) ∈ us_loads u → x ≠ in_id i;
}.

(** Values computed by [seg] from [g] to [g']. *)
Lemma value_simulates u i g g' seg f :
  apart u i (nregs g) (nregs g') → computes m r0 ρ u g g' seg f → (nregs g < nregs g')%nat →
  match in_kind i with UnaryInstr _ | BinaryInstr _ => True | _ => False end → ρ (in_id i) = Z.of_nat (nregs g) →
  small_gen g' → numbers g' `prefix_of` cp_numbers (m_pool m) →
  (∀ env w, num_exec (m_powl m) (in_kind i) (in_type i) (arg_of env <$> in_operands i) w =
    match f env with Some v => of_word v w | None => no_meaning (arg_of env <$> in_operands i) w end) →
  (∀ env v, f env = Some (inr v) → fits 64 v) →
  ∀ pc, code_at m pc seg → simulates u i pc (length seg).
Proof.
  intros [U P Hnew Hl] C Hlt Hk Hρ Hs Hp Hf Hw pc Hc env w d R L Hd. rewrite Hf.
  destruct (f env) as [v|] eqn:Ef; [|intros t Ht; by rewrite no_target in Ht].
  pose proof (C env d pc v Hs Hp Hc Hd (rel_holds vars vals ρ u env w d U R L) Ef) as Cv.
  destruct v as [e|x]; cbn; [done|]. destruct Cv as (d' & Re & O & Hx). apply Hw in Ef.
  assert (Hin : in_register ρ (<[in_id i := VNum (s64 x)]> env) d' (in_id i)).
  { intros val. rewrite lookup_insert_eq. intros [= <-]. exists (s64 x). split_and!; [done|apply signed_int64|].
    by rewrite Hρ, Nat2Z.id, unsigned_signed. }
  exists d'. split_and!; [done|by eapply regs_ok_outside| |].
  - eapply rel_outside; [exact P|exact O|done|done|]. intros Hv. apply (pl_var _ _ _ _ _ _ P) in Hv. by rewrite Hv in Hk.
  - assert (Hd' : us_loads (define i u) = us_loads u) by (unfold define; by destruct (in_kind i)).
    unfold loads_hold. rewrite Hd'. by eapply loads_outside.
Qed.
End instructions.

(** ** What generation adds *)

Section extension.
Context (own : list nat).

Definition register_of (g : Gen) (v : nat) : option Z := variable_of (OInstr v) (tg_variables g).
Definition offset_in {A} (g g' : Gen) (pc_of : A → nat) (js : list A) : Prop :=
  ∀ j, j ∈ js → (length (tg_code g) ≤ pc_of j < length (tg_code g'))%nat.
Definition conditional_pc (j : nat * (nat * Opcode * Z)) : nat := j.2.1.1.
Definition jump_pc (j : nat * (nat * Opcode)) : nat := j.2.1.

(** From [g] to [g'] the instructions [ids] were visited: code, constants,
    registers and jumps were added; those of [own] got registers of their own. *)
Record extends (ids : list nat) (g g' : Gen) : Prop := {
  ex_code : tg_code g `prefix_of` tg_code g';
  ex_conditional : ∃ js, tg_conditionalJumps g' = tg_conditionalJumps g ++ js ∧ offset_in g g' conditional_pc js;
  ex_jumps : ∃ js, tg_unconditionalJumps g' = tg_unconditionalJumps g ++ js ∧ offset_in g g' jump_pc js;
  ex_regs : (nregs g ≤ nregs g')%nat;
  ex_numbers : numbers g `prefix_of` numbers g';
  ex_other : ∀ v, v ∉ ids → register_of g' v = register_of g v;
  ex_constants : ∀ c, variable_of (OConst c) (tg_variables g') = variable_of (OConst c) (tg_variables g);
  ex_own : ∀ v, v ∈ ids → v ∈ own → ∃ r, register_of g' v = Some r ∧ Z.of_nat (nregs g) ≤ r < Z.of_nat (nregs g');
  ex_apart : ∀ v v' r, v ∈ ids → v' ∈ ids → v ∈ own → v' ∈ own → register_of g' v = Some r → register_of g' v' = Some r → v = v';
}.

Lemma extends_refl g : extends [] g g.
Proof.
  split; try done.
  - exists []. split; [by rewrite app_nil_r|]. by intros j ?%elem_of_nil.
  - exists []. split; [by rewrite app_nil_r|]. by intros j ?%elem_of_nil.
  - by intros v ?%elem_of_nil.
  - by intros v v' r ?%elem_of_nil.
Qed.

Lemma offsets_trans {A} (f : A → nat) g1 g2 g3 (l1 l2 l3 : list A) :
  tg_code g1 `prefix_of` tg_code g2 → tg_code g2 `prefix_of` tg_code g3 →
  (∃ js, l2 = l1 ++ js ∧ offset_in g1 g2 f js) → (∃ js, l3 = l2 ++ js ∧ offset_in g2 g3 f js) →
  ∃ js, l3 = l1 ++ js ∧ offset_in g1 g3 f js.
Proof.
  intros L12%prefix_length L23%prefix_length (a & -> & Ha) (b & -> & Hb). exists (a ++ b). split; [by rewrite app_assoc|].
  intros j [H|H]%elem_of_app; [apply Ha in H|apply Hb in H]; lia.
Qed.

Lemma extends_trans ids1 ids2 g1 g2 g3 :
  (∀ v, v ∈ ids1 → v ∉ ids2) → extends ids1 g1 g2 → extends ids2 g2 g3 → extends (ids1 ++ ids2) g1 g3.
Proof.
  intros Hd [C1 J1 K1 R1 N1 O1 P1 W1 A1] [C2 J2 K2 R2 N2 O2 P2 W2 A2].
  assert (Hfirst : ∀ v, v ∈ ids1 → v ∈ own → ∃ r, register_of g3 v = Some r ∧ Z.of_nat (nregs g1) ≤ r < Z.of_nat (nregs g2)).
  { intros v Hv Ho. destruct (W1 v Hv Ho) as (r & Hr & Hb). exists r. rewrite O2 by auto. split; [done|lia]. }
  split; try lia; [by etrans|by eapply offsets_trans|by eapply offsets_trans|by etrans| | | |].
  - intros v Hv. rewrite elem_of_app in Hv. rewrite O2, O1 by tauto. done.
  - intros c. by rewrite P2, P1.
  - intros v [Hv|Hv]%elem_of_app Ho.
    + destruct (Hfirst v Hv Ho) as (r & Hr & Hb). exists r. split; [done|lia].
    + destruct (W2 v Hv Ho) as (r & Hr & Hb). exists r. split; [done|lia].
  - intros v v' r [Hv|Hv]%elem_of_app [Hv'|Hv']%elem_of_app Ho Ho' E E'.
    + rewrite O2 in E, E' by auto. by eapply A1.
    + destruct (Hfirst v Hv Ho) as (r1 & H1 & B1). destruct (W2 v' Hv' Ho') as (r2 & H2 & B2). assert (r1 = r ∧ r2 = r) by (split; congruence). lia.
    + destruct (Hfirst v' Hv' Ho') as (r1 & H1 & B1). destruct (W2 v Hv Ho) as (r2 & H2 & B2). assert (r1 = r ∧ r2 = r) by (split; congruence). lia.
    + by eapply A2.
Qed.

Lemma no_offsets {A} g g' (f : A → nat) (l : list A) : ∃ js, l = l ++ js ∧ offset_in g g' f js.
Proof. exists []. split; [by rewrite app_nil_r|]. by intros j ?%elem_of_nil. Qed.

(** A register of its own. *)
Lemma defines_extends i g g' seg : gives_register i g g' seg → extends [in_id i] g g'.
Proof.
  intros [C V J K M R N].
  assert (Hr : register_of g' (in_id i) = Some (Z.of_nat (nregs g))).
  { unfold register_of. rewrite V. cbn. by rewrite bool_decide_true. }
  split.
  - exists seg. done.
  - rewrite J. apply no_offsets.
  - rewrite K. apply no_offsets.
  - lia.
  - done.
  - intros v Hv. unfold register_of. rewrite V. cbn. rewrite bool_decide_false; [done|]. intros [= <-]. apply Hv, list_elem_of_singleton. done.
  - intros c. rewrite V. done.
  - intros v ->%list_elem_of_singleton _. exists (Z.of_nat (nregs g)). split; [done|lia].
  - by intros v v' r ->%list_elem_of_singleton ->%list_elem_of_singleton.
Qed.

(** No value. *)
Lemma grows_extends g g' seg : grows g g' seg → extends [] g g'.
Proof.
  intros [C V J K M R N]. split.
  - exists seg. done.
  - rewrite J. apply no_offsets.
  - rewrite K. apply no_offsets.
  - done.
  - done.
  - intros x Hx. unfold register_of. by rewrite V.
  - intros c. by rewrite V.
  - by intros x ?%elem_of_nil.
  - by intros x x' r ?%elem_of_nil.
Qed.

Lemma extends_add v g g' : v ∉ own → extends [] g g' → extends [v] g g'.
Proof.
  intros Ho [C J K R N O P W A]. split; try done.
  - intros x _. apply O. by intros ?%elem_of_nil.
  - by intros x ->%list_elem_of_singleton.
  - by intros x x' r ->%list_elem_of_singleton.
Qed.

(** The register of a variable. *)
Lemma load_extends v r g : v ∉ own → extends [v] g (tg_set_variable (OInstr v) r g).
Proof.
  intros Ho. split; try done.
  - apply no_offsets.
  - apply no_offsets.
  - intros x Hx. unfold register_of. cbn. rewrite bool_decide_false; [done|]. intros [= <-]. by apply Hx, list_elem_of_singleton.
  - by intros x ->%list_elem_of_singleton.
  - by intros x x' r' ->%list_elem_of_singleton.
Qed.

(** Jumps at their own offsets. *)
Lemma conditional_extends o R t g :
  ∃ g', emit_conditional o R t g = Ok (length (tg_code g), g') ∧ extends [] g g' ∧ tg_code g' = tg_code g ++ [makeInstruction0 NOP] ∧
    tg_conditionalJumps g' = tg_conditionalJumps g ++ [(t, (length (tg_code g), o, R))] ∧ tg_unconditionalJumps g' = tg_unconditionalJumps g ∧
    tg_variables g' = tg_variables g ∧ nregs g' = nregs g.
Proof.
  eexists. split; [done|]. split_and!; try done. split; try done.
  - by exists [makeInstruction0 NOP].
  - eexists. split; [done|]. intros j ->%list_elem_of_singleton. cbn. rewrite length_app. cbn. lia.
  - apply no_offsets.
  - by intros x ?%elem_of_nil.
  - by intros x x' r' ?%elem_of_nil.
Qed.

Lemma jump_extends o t g :
  ∃ g', emit_jump o t g = Ok (length (tg_code g), g') ∧ extends [] g g' ∧ tg_code g' = tg_code g ++ [makeInstruction0 NOP] ∧
    tg_unconditionalJumps g' = tg_unconditionalJumps g ++ [(t, (length (tg_code g), o))] ∧ tg_conditionalJumps g' = tg_conditionalJumps g ∧
    tg_variables g' = tg_variables g ∧ nregs g' = nregs g.
Proof.
  eexists. split; [done|]. split_and!; try done. split; try done.
  - by exists [makeInstruction0 NOP].
  - apply no_offsets.
  - eexists. split; [done|]. intros j ->%list_elem_of_singleton. cbn. rewrite length_app. cbn. lia.
  - by intros x ?%elem_of_nil.
  - by intros x x' r' ?%elem_of_nil.
Qed.
End extension.

(** ** Patching *)

Section patching.
Context (entries : list (nat * nat)).

Definition conditional_word (j : nat * (nat * Opcode * Z)) : Z := word2 j.2.1.2 j.2.2 (Z.of_nat (entry_point entries j.1)).
Definition jump_word (j : nat * (nat * Opcode)) : Z := word1 j.2.2 (Z.of_nat (entry_point entries j.1)).

Lemma patch_conditional_length js code : length (patch_conditional entries js code) = length code.
Proof. revert code. induction js as [|[bb [[pc o] c]] js IH]; intros code; cbn; [done|]. by rewrite IH, length_insert. Qed.
Lemma patch_jumps_length js code : length (patch_jumps entries js code) = length code.
Proof. revert code. induction js as [|[bb [pc o]] js IH]; intros code; cbn; [done|]. by rewrite IH, length_insert. Qed.

Lemma patch_conditional_other js code k : (∀ j, j ∈ js → conditional_pc j ≠ k) → patch_conditional entries js code !! k = code !! k.
Proof.
  revert code. induction js as [|[bb [[pc o] c]] js IH]; intros code H; cbn; [done|]. rewrite IH by (intros j Hj; apply H; by right).
  apply list_lookup_insert_ne. apply (H (bb, (pc, o, c))). by left.
Qed.
Lemma patch_jumps_other js code k : (∀ j, j ∈ js → jump_pc j ≠ k) → patch_jumps entries js code !! k = code !! k.
Proof.
  revert code. induction js as [|[bb [pc o]] js IH]; intros code H; cbn; [done|]. rewrite IH by (intros j Hj; apply H; by right).
  apply list_lookup_insert_ne. apply (H (bb, (pc, o))). by left.
Qed.

Lemma patch_conditional_at js code j k :
  j ∈ js → conditional_pc j = k → (∀ j', j' ∈ js → conditional_pc j' = k → j' = j) → (k < length code)%nat →
  patch_conditional entries js code !! k = Some (conditional_word j).
Proof.
  revert code. induction js as [|[bb [[pc o] c]] js IH]; intros code Hj Hk Hu Hl; [by apply elem_of_nil in Hj|]. cbn.
  destruct (decide (j ∈ js)) as [Hin|Hout].
  - apply IH; [done|done| |by rewrite length_insert]. intros j' Hj'. apply Hu. by right.
  - apply elem_of_cons in Hj as [->|Hj]; [|done]. cbn in Hk. subst pc. rewrite patch_conditional_other; [by apply list_lookup_insert_eq|].
    intros j' Hj' E. apply Hout. rewrite <- (Hu j'); [done|by right|done].
Qed.
Lemma patch_jumps_at js code j k :
  j ∈ js → jump_pc j = k → (∀ j', j' ∈ js → jump_pc j' = k → j' = j) → (k < length code)%nat →
  patch_jumps entries js code !! k = Some (jump_word j).
Proof.
  revert code. induction js as [|[bb [pc o]] js IH]; intros code Hj Hk Hu Hl; [by apply elem_of_nil in Hj|]. cbn.
  destruct (decide (j ∈ js)) as [Hin|Hout].
  - apply IH; [done|done| |by rewrite length_insert]. intros j' Hj'. apply Hu. by right.
  - apply elem_of_cons in Hj as [->|Hj]; [|done]. cbn in Hk. subst pc. rewrite patch_jumps_other; [by apply list_lookup_insert_eq|].
    intros j' Hj' E. apply Hout. rewrite <- (Hu j'); [done|by right|done].
Qed.

Definition final_code (g : Gen) : list Z :=
  patch_jumps entries (tg_unconditionalJumps g) (patch_conditional entries (tg_conditionalJumps g) (tg_code g)).
End patching.

(** ** The code of an instruction in the finished handler *)

Definition jumps_inside (g : Gen) : Prop :=
  (∀ j, j ∈ tg_conditionalJumps g → conditional_pc j < length (tg_code g))%nat ∧
  (∀ j, j ∈ tg_unconditionalJumps g → jump_pc j < length (tg_code g))%nat.

Lemma jumps_inside_extends own ids g g' : extends own ids g g' → jumps_inside g → jumps_inside g'.
Proof.
  intros X [H1 H2]. pose proof (prefix_length _ _ (ex_code _ _ _ _ X)) as L.
  destruct (ex_conditional _ _ _ _ X) as (cs & Ec & Hc), (ex_jumps _ _ _ _ X) as (js & Ej & Hj). split.
  - intros j. rewrite Ec. intros [H|H]%elem_of_app; [apply H1 in H|apply Hc in H]; lia.
  - intros j. rewrite Ej. intros [H|H]%elem_of_app; [apply H2 in H|apply Hj in H]; lia.
Qed.

Section final.
Context {W : Type} (m : Machine W) (r0 : Runner W) (name : bytes) (h : IRHandler) (vars vals : list nat).
Context (ρ : nat → Z) (entries : list (nat * nat)) (gF : Gen).
Abbreviation own := (vars ++ vals).
Abbreviation following := (extends (vars ++ vals)).

(** The machine runs the handler whose generation ended with [gF]. *)
Record final_ok : Prop := {
  fo_code : m_code m = final_code entries gF;
  fo_small : small_gen gF;
  fo_offsets : Z.of_nat (length (tg_code gF)) < 2 ^ 16;
  fo_entries : ∀ b, (entry_point entries b ≤ length (tg_code gF))%nat;
  fo_numbers : numbers gF `prefix_of` cp_numbers (m_pool m);
  fo_powl : ∀ b c v, m_powl m b c = Some v → fits 64 v;
}.

Lemma final_between g g' post cs js k :
  jumps_inside g → tg_conditionalJumps g' = tg_conditionalJumps g ++ cs → tg_unconditionalJumps g' = tg_unconditionalJumps g ++ js →
  following post g' gF → (length (tg_code g) ≤ k < length (tg_code g'))%nat →
  (∀ j, j ∈ tg_conditionalJumps gF → conditional_pc j = k → j ∈ cs) ∧ (∀ j, j ∈ tg_unconditionalJumps gF → jump_pc j = k → j ∈ js).
Proof.
  intros [I1 I2] Ec Ej X Hk. destruct (ex_conditional _ _ _ _ X) as (cs' & Ec' & Hc), (ex_jumps _ _ _ _ X) as (js' & Ej' & Hj). split.
  - intros j. rewrite Ec', Ec, !elem_of_app. intros [[H|H]|H] E; [apply I1 in H; lia|done|apply Hc in H; lia].
  - intros j. rewrite Ej', Ej, !elem_of_app. intros [[H|H]|H] E; [apply I2 in H; lia|done|apply Hj in H; lia].
Qed.

Lemma final_lookup g post k : following post g gF → (k < length (tg_code g))%nat → tg_code gF !! k = tg_code g !! k.
Proof. intros X Hk. destruct (ex_code _ _ _ _ X) as [t ->]. by apply lookup_app_l. Qed.

(** Code that is not a jump stays. *)
Lemma plain_code g g' seg post :
  final_ok → jumps_inside g → tg_code g' = tg_code g ++ seg → tg_conditionalJumps g' = tg_conditionalJumps g → tg_unconditionalJumps g' = tg_unconditionalJumps g →
  following post g' gF → code_at m (length (tg_code g)) seg.
Proof.
  intros F I E Ec Ej X k w Hk. apply lookup_lt_Some in Hk as Hl. set (n := (length (tg_code g) + k)%nat).
  assert (Hn : (length (tg_code g) ≤ n < length (tg_code g'))%nat) by (rewrite E, length_app; unfold n; lia).
  destruct (final_between g g' post [] [] n I) as [N1 N2]; [by rewrite app_nil_r..|done|done|].
  rewrite (fo_code F). unfold final_code. rewrite patch_jumps_other, patch_conditional_other.
  - rewrite (final_lookup g' post n X) by lia. rewrite E. unfold n. rewrite lookup_app_r by lia. by rewrite Nat.add_comm, Nat.add_sub.
  - intros j Hj Ej'. by apply N1, elem_of_nil in Ej'.
  - intros j Hj Ej'. by apply N2, elem_of_nil in Ej'.
Qed.

Lemma final_length : length (final_code entries gF) = length (tg_code gF).
Proof. unfold final_code. by rewrite patch_jumps_length, patch_conditional_length. Qed.

(** The conditional jump among the jumps [cs] and [js] of an instruction. *)
Lemma conditional_code g g' post cs js j :
  final_ok → jumps_inside g → tg_conditionalJumps g' = tg_conditionalJumps g ++ cs → tg_unconditionalJumps g' = tg_unconditionalJumps g ++ js →
  following post g' gF → j ∈ cs → (length (tg_code g) ≤ conditional_pc j < length (tg_code g'))%nat →
  (∀ j', j' ∈ cs → j' = j) → (∀ j', j' ∈ js → jump_pc j' ≠ conditional_pc j) →
  m_code m !! conditional_pc j = Some (conditional_word entries j).
Proof.
  intros F I Ec Ej X Hj Hk Hu Hd. destruct (final_between g g' post cs js _ I Ec Ej X Hk) as [N1 N2].
  rewrite (fo_code F). unfold final_code. rewrite patch_jumps_other.
  - apply patch_conditional_at; [|done| |].
    + destruct (ex_conditional _ _ _ _ X) as (t & -> & _). rewrite Ec, !elem_of_app. auto.
    + intros j' Hj' E. by apply Hu, N1.
    + pose proof (prefix_length _ _ (ex_code _ _ _ _ X)). lia.
  - intros j' Hj' E. apply (Hd j'); [by apply N2|done].
Qed.

Lemma jump_code g g' post cs js j :
  final_ok → jumps_inside g → tg_conditionalJumps g' = tg_conditionalJumps g ++ cs → tg_unconditionalJumps g' = tg_unconditionalJumps g ++ js →
  following post g' gF → j ∈ js → (length (tg_code g) ≤ jump_pc j < length (tg_code g'))%nat →
  (∀ j', j' ∈ js → j' = j) → m_code m !! jump_pc j = Some (jump_word entries j).
Proof.
  intros F I Ec Ej X Hj Hk Hu. destruct (final_between g g' post cs js _ I Ec Ej X Hk) as [N1 N2].
  rewrite (fo_code F). unfold final_code. apply patch_jumps_at; [|done| |].
  - destruct (ex_jumps _ _ _ _ X) as (t & -> & _). rewrite Ej, !elem_of_app. auto.
  - intros j' Hj' E. by apply Hu, N2.
  - rewrite patch_conditional_length. pose proof (prefix_length _ _ (ex_code _ _ _ _ X)). lia.
Qed.

Lemma final_small g post : final_ok → following post g gF → small_gen g.
Proof.
  intros F X. destruct (fo_small F) as [H1 H2]. pose proof (ex_regs _ _ _ _ X). pose proof (prefix_length _ _ (ex_numbers _ _ _ _ X)).
  split; lia.
Qed.

Lemma final_numbers g post : final_ok → following post g gF → numbers g `prefix_of` cp_numbers (m_pool m).
Proof. intros F X. etrans; [apply (ex_numbers _ _ _ _ X)|apply F]. Qed.

(** What is to be shown of an instruction: the visitor succeeds, and its code
    in the finished handler simulates the instruction. *)
Definition words (g g' : Gen) : nat := (length (tg_code g') - length (tg_code g))%nat.
Definition in_final (u : Usable) (i : Instr) (g g' : Gen) : Prop :=
  ∀ post, final_ok → jumps_inside g → following post g' gF → apart vars vals ρ u i (nregs g) (nregs g') →
  register_of g' (in_id i) = register_of gF (in_id i) → (∀ r, register_of gF (in_id i) = Some r → ρ (in_id i) = r) →
  (∀ v v', v ∈ own → v' ∈ own → v ≠ v' → Z.to_nat (ρ v) ≠ Z.to_nat (ρ v')) →
  simulates m r0 vars vals ρ (entry_point entries) u i (length (tg_code g)) (words g g').
Definition visited (u : Usable) (b : nat) (i : Instr) (g : Gen) : Prop :=
  ∃ g', visit name h b i g = Ok ((), g') ∧ following [in_id i] g g' ∧
    (in_id i ∈ ids_of (define i u) → ∃ r, register_of g' (in_id i) = Some r ∧ 0 ≤ r < Z.of_nat (nregs g')) ∧
    ((∀ t, is_terminator (in_kind i) = true → isAfter h b t = true → t ∈ targets i → entry_point entries t = length (tg_code g')) → in_final u i g g').

(** The registers an instruction of a kind without a value does not have. *)
Definition has_value (k : InstrKind) : bool := match k with AllocaInstr | UnaryInstr _ | BinaryInstr _ => true | _ => false end.

Lemma defined_register i g g' seg :
  gives_register i g g' seg → ∃ r, register_of g' (in_id i) = Some r ∧ 0 ≤ r < Z.of_nat (nregs g').
Proof.
  intros D. exists (Z.of_nat (nregs g)). unfold register_of. rewrite (df_variables _ _ _ _ D). cbn. rewrite bool_decide_true by done.
  pose proof (df_regs _ _ _ _ D). split; [done|lia].
Qed.

Lemma words_app g g' seg : tg_code g' = tg_code g ++ seg → words g g' = length seg.
Proof. intros E. unfold words. rewrite E, length_app. lia. Qed.

(** Instructions with a value. *)
Lemma value_visited u b i g f :
  compiled m r0 ρ u i (visit name h b i) g f → match in_kind i with UnaryInstr _ | BinaryInstr _ => True | _ => False end →
  (∀ env w, num_exec (m_powl m) (in_kind i) (in_type i) (arg_of env <$> in_operands i) w =
    match f env with Some v => of_word v w | None => no_meaning (arg_of env <$> in_operands i) w end) →
  (final_ok → ∀ env v, f env = Some (inr v) → fits 64 v) →
  visited u b i g.
Proof.
  intros (g' & seg & E & D & C) Hk Hf Hw. exists g'. split_and!; [done|by eapply defines_extends|intros _; by eapply defined_register|].
  intros _ post F I X A Hreg Hρ _. rewrite (words_app g g' seg) by apply D.
  assert (Hr : ρ (in_id i) = Z.of_nat (nregs g)).
  { apply Hρ. rewrite <- Hreg. unfold register_of. rewrite (df_variables _ _ _ _ D). cbn. by rewrite bool_decide_true. }
  eapply (value_simulates m r0 vars vals ρ); [exact A|exact C|apply D|done|done|by eapply final_small|by eapply final_numbers|done|by apply Hw|].
  eapply plain_code; [done|done|apply D|apply D|apply D|done].
Qed.

Lemma unary_visited u b i op x g :
  known ρ u g → in_id i ∉ ids_of u → in_kind i = UnaryInstr op → in_operands i = [x] → usable_operand u x = true → op = INeg ∨ op = INot ∨ op = BNot →
  visited u b i g.
Proof.
  intros K Hid Hk Ho Hx Hop. eapply value_visited.
  - unfold visit. rewrite Hk. by apply (unary_compiled m r0 ρ u i op x g).
  - by rewrite Hk.
  - intros env w. rewrite Hk, Ho. cbn. unfold number1. by destruct (number_of (arg_of env x)).
  - intros F env v Hv. unfold number1 in Hv. destruct (number_of _); [|done]. injection Hv as Hv. by eapply unary_word.
Qed.

Lemma binary_visited u b i op x y g :
  known ρ u g → in_id i ∉ ids_of u → in_kind i = BinaryInstr op → in_operands i = [x; y] → binary_ok u op x y = true → visited u b i g.
Proof.
  intros K Hid Hk Ho Hok. eapply value_visited.
  - unfold visit. rewrite Hk. by apply (binary_compiled m r0 ρ u i op x y g).
  - by rewrite Hk.
  - intros env w. rewrite Hk, Ho. cbn. unfold number2. destruct (number_of (arg_of env x)); [|done]. by destruct (number_of (arg_of env y)).
  - intros F env v Hv. unfold number2 in Hv. destruct (number_of _); [|done]. destruct (number_of _); [|done]. injection Hv as Hv.
    eapply binary_word; [apply F|exact Hv].
Qed.

(** A variable. *)
Lemma alloca_visited u b i g :
  in_kind i = AllocaInstr → in_operands i = [OConst (ConstantInt 1)] → visited u b i g.
Proof.
  intros Hk Ho. destruct (allocate_for_spec i g) as (g' & E & D & R). exists g'. split_and!.
  - unfold visit, visit_alloca. rewrite Hk. unfold operand. rewrite Ho.
    change ((_ ← allocate_for 1 (self i); mret ()) g = Ok ((), g')). by rewrite (G_step _ _ _ _ _ E).
  - by eapply defines_extends.
  - intros _. by eapply defined_register.
  - intros _ post F I X A _ _ _ env w d Rl L Hd. rewrite (words_app g g' []) by apply D. rewrite Hk, Ho. cbn.
    destruct A as [U P Hnew Hl]. exists d. rewrite Nat.add_0_r. split_and!; [apply reaches_refl|done| |].
    + eapply rel_alloca; [exact P| |done]. intros Hv. apply (pl_val _ _ _ _ _ _ P) in Hv. by rewrite Hk in Hv.
    + assert (Hd' : us_loads (define i u) = us_loads u) by (unfold define; by rewrite Hk).
      unfold loads_hold. rewrite Hd'. eapply loads_outside; [exact U|exact P|done| |done|exact L]. apply same_outside_refl.
Qed.

(** Registers that do not change. *)
Lemma no_value u i : has_value (in_kind i) = false → in_kind i ≠ LoadInstr → ids_of (define i u) ⊆ ids_of u.
Proof.
  unfold define. destruct (in_kind i); try done. intros _ _. destruct (in_operands i) as [|[]]; try done.
  unfold ids_of. cbn. intros y Hy. rewrite !elem_of_app in *. destruct Hy as [?|[?|Hy]]; auto. right; right.
  apply list_elem_of_fmap in Hy as (q & -> & Hl%list_elem_of_In). apply filter_In in Hl as [Hl%list_elem_of_In _]. by apply list_elem_of_fmap_2.
Qed.

(** An assignment. *)
Lemma rel_store env w d x n z id val :
  (∀ v v', v ∈ own → v' ∈ own → v ≠ v' → Z.to_nat (ρ v) ≠ Z.to_nat (ρ v')) → id ∉ own →
  x ∈ vars → env !! x = Some (VCell n) → int64 z = true → (Z.to_nat (ρ x) < length d)%nat → rel vars vals ρ env w d → NoDup own →
  rel vars vals ρ (<[id := val]> env) (<[n := Some z]> w) (<[Z.to_nat (ρ x) := u64 z]> d).
Proof.
  intros Hinj Hid Hx Ex Hz Hl R Hnd. assert (Hxo : x ∈ own) by (apply elem_of_app; auto). split.
  - intros v Hv y Hy. assert (v ∈ own) by (apply elem_of_app; auto). rewrite lookup_insert_ne in Hy by (intros ->; auto).
    destruct (rl_vals _ _ _ _ _ _ R v Hv y Hy) as (q & -> & Hq & Hd). exists q. split_and!; [done..|].
    rewrite list_lookup_insert_ne; [done|]. apply Hinj; [done..|]. intros ->. apply list.NoDup_app in Hnd as (_ & Hnd & _). by apply (Hnd v).
  - intros v Hv y Hy. assert (v ∈ own) by (apply elem_of_app; auto). rewrite lookup_insert_ne in Hy by (intros ->; auto).
    destruct (rl_vars _ _ _ _ _ _ R v Hv y Hy) as (k & -> & Hk & Hd). exists k. rewrite length_insert. split_and!; [done..|].
    intros q Hq. destruct (decide (v = x)) as [->|Hne].
    + assert (k = n) as -> by congruence. rewrite list_lookup_insert_eq in Hq by done. injection Hq as <-.
      split; [done|]. by apply list_lookup_insert_eq.
    + rewrite list_lookup_insert_ne in Hq; [|intros ->; by apply Hne, (rl_cells _ _ _ _ _ _ R v x k)].
      destruct (Hd q Hq) as [? Hdq]. split; [done|]. rewrite list_lookup_insert_ne; [done|]. by apply Hinj.
  - intros v v' k Hv Hv'. rewrite !lookup_insert_ne by (intros ->; apply Hid, elem_of_app; auto). by apply (rl_cells _ _ _ _ _ _ R).
Qed.

Lemma loads_store u env d x z id val :
  usable_ok vars vals ρ u → x ∈ vars → id ∉ ids_of u →
  (∀ v v', v ∈ own → v' ∈ own → v ≠ v' → Z.to_nat (ρ v) ≠ Z.to_nat (ρ v')) →
  loads_hold ρ u env d →
  loads_hold ρ (mkUsable (us_vars u) (us_vals u) (List.filter (λ l, negb (l.2 =? x)%nat) (us_loads u))) (<[id := val]> env) (<[Z.to_nat (ρ x) := u64 z]> d).
Proof.
  intros U Hx Hid Hinj L v Hv y Hy. cbn in Hv. apply list_elem_of_fmap in Hv as ([v' x'] & -> & Hin%list_elem_of_In). cbn in *.
  apply filter_In in Hin as [Hin%list_elem_of_In Hne]. cbn in Hne. apply negb_true_iff, Nat.eqb_neq in Hne.
  assert (Hvl : v' ∈ (us_loads u).*1) by (apply list_elem_of_fmap; by exists (v', x')).
  rewrite lookup_insert_ne in Hy by (intros ->; apply Hid; unfold ids_of; rewrite !elem_of_app; auto).
  destruct (L v' Hvl y Hy) as (q & -> & Hq & Hd). exists q. split_and!; [done..|]. destruct (uo_loads _ _ _ _ U _ _ Hin) as [Hx' Hr].
  rewrite list_lookup_insert_ne; [done|]. rewrite Hr. apply Hinj; [apply elem_of_app; auto..|done].
Qed.

(** The instructions that only give their id a number. *)
Lemma unchanged_simulates u i pc len env w d z lo hi :
  apart vars vals ρ u i lo hi → in_id i ∉ own → define i u = u → reaches m r0 (Z.of_nat pc) d (Z.of_nat (pc + len)) d →
  rel vars vals ρ env w d → loads_hold ρ u env d → regs_ok m d →
  ∃ d', reaches m r0 (Z.of_nat pc) d (Z.of_nat (pc + len)) d' ∧ regs_ok m d' ∧
      rel vars vals ρ (<[in_id i := VNum z]> env) w d' ∧ loads_hold ρ (define i u) (<[in_id i := VNum z]> env) d'.
Proof.
  intros [U P Hnew Hl] Ho -> Re R L Hd. rewrite elem_of_app in Ho. exists d. split_and!; [done|done| |].
  - eapply rel_outside; [exact P|apply same_outside_refl|done|by intros ?; destruct Ho; right|auto].
  - eapply loads_outside; [exact U|exact P|done|apply same_outside_refl|done|exact L].
Qed.

Lemma nop_visited u b i g : in_kind i = NopInstr → in_operands i = [] → in_id i ∉ own → in_id i ∉ ids_of u → visited u b i g.
Proof.
  intros Hk Ho Hown Hid. destruct (emit_word_grows (makeInstruction0 NOP) g) as (g' & E & G & R & N). exists g'. split_and!.
  - unfold visit. rewrite Hk. unfold emit0. by rewrite (G_step _ _ _ _ _ E).
  - by apply extends_add; [|eapply grows_extends].
  - intros H. apply no_value in H; [done|by rewrite Hk..].
  - intros _ post F I X A _ _ _ env w d Rl L Hd. rewrite (words_app g g' [makeInstruction0 NOP]) by apply G. rewrite Hk, Ho. cbn.
    eapply unchanged_simulates; [exact A|done|unfold define; by rewrite Hk| |done..]. apply run_nop.
    apply code_at_one. eapply plain_code; [done|done|apply G|apply G|apply G|done].
Qed.

Lemma getRegister_known u v g : known ρ u g → v ∈ ids_of u → getRegister (OInstr v) g = Ok (u16 (ρ v), g).
Proof.
  intros K Hv. destruct (kn_own _ _ _ K v Hv) as [Hr _]. unfold getRegister. rewrite (G_step _ _ g (tg_variables g) g) by done. by rewrite Hr.
Qed.

Lemma known_register u v g : known ρ u g → small_gen g → v ∈ ids_of u → fits 15 (ρ v) ∧ u16 (ρ v) = ρ v.
Proof.
  intros K [Hs _] Hv. destruct (kn_own _ _ _ K v Hv) as [_ Hr]. split; [unfold fits; lia|]. apply unsigned_id. unfold fits. lia.
Qed.

Lemma var_usable u x : x ∈ us_vars u → x ∈ ids_of u.
Proof. intros H. apply elem_of_app. auto. Qed.

Lemma load_visited u b i x g :
  known ρ u g → in_id i ∉ ids_of u → in_id i ∉ own → in_kind i = LoadInstr → in_operands i = [OInstr x] → x ∈ us_vars u → visited u b i g.
Proof.
  intros K Hid Hown Hk Ho Hx. exists (tg_set_variable (self i) (u16 (ρ x)) g). pose proof (var_usable u x Hx) as Hxu.
  assert (Hreg : register_of (tg_set_variable (self i) (u16 (ρ x)) g) (in_id i) = Some (u16 (ρ x))).
  { unfold register_of. cbn. by rewrite bool_decide_true. }
  split_and!.
  - unfold visit, visit_load. rewrite Hk. unfold operand. rewrite Ho.
    change ((r ← getRegister (OInstr x); G_modify (tg_set_variable (self i) r)) g = Ok ((), tg_set_variable (self i) (u16 (ρ x)) g)).
    by rewrite (G_step _ _ _ _ _ (getRegister_known u x g K Hxu)).
  - by apply load_extends.
  - intros _. exists (u16 (ρ x)). split; [done|]. destruct (kn_own _ _ _ K x Hxu) as [_ Hb]. pose proof (u16_le (ρ x)).
    change (0 ≤ u16 (ρ x) < Z.of_nat (nregs g)). lia.
  - intros _ post F I X [U P Hnew Hl] HregF Hρ _ env w d Rl L Hd. rewrite (words_app g _ []) by (cbn; by rewrite app_nil_r). rewrite Hk, Ho. cbn.
    assert (Hri : ρ (in_id i) = ρ x).
    { destruct (known_register u x g K) as [_ E]; [by eapply (final_small (tg_set_variable (self i) (u16 (ρ x)) g))|done|].
      rewrite (Hρ (u16 (ρ x))); [done|]. by rewrite <- HregF. }
    destruct (env !! x) as [[?|n]|] eqn:Ex; [intros t Ht; by rewrite (lookup_ge_None_2 (targets i)) in Ht by (unfold targets; rewrite Ho; cbn; lia)| |
      intros t Ht; by rewrite (lookup_ge_None_2 (targets i)) in Ht by (unfold targets; rewrite Ho; cbn; lia)].
    destruct (w !! n) as [[z|]|] eqn:Ew; [|intros t Ht; by rewrite (lookup_ge_None_2 (targets i)) in Ht by (unfold targets; rewrite Ho; cbn; lia)..].
    rewrite elem_of_app in Hown. exists d. rewrite Nat.add_0_r. split_and!; [apply reaches_refl|done| |].
    + eapply rel_outside; [exact P|apply same_outside_refl|done|by intros ?; destruct Hown; right|auto].
    + assert (Hdef : define i u = mkUsable (us_vars u) (us_vals u) ((in_id i, x) :: us_loads u)) by (unfold define; by rewrite Hk, Ho).
      rewrite Hdef. intros v Hv. cbn in Hv. apply elem_of_cons in Hv as [->|Hv].
      * intros val. rewrite lookup_insert_eq. intros [= <-]. exists z. destruct (rl_vars _ _ _ _ _ _ Rl x (uo_vars _ _ _ _ U x Hx) _ Ex) as (k & [= <-] & _ & Hz).
        destruct (Hz z Ew) as [? Hz']. rewrite Hri. done.
      * eapply (loads_outside vars vals ρ u); [exact U|exact P|done|apply same_outside_refl|done|exact L|done].
Qed.

(** The value of an assignment is in its register behind the code. *)
Definition assigns (u : Usable) (o : Operand) (R : Z) (g' : Gen) (w : Z) : Prop :=
  ∀ env d (pc : nat) z, small_gen g' → numbers g' `prefix_of` cp_numbers (m_pool m) → m_code m !! pc = Some w → regs_ok m d → fits 15 R →
  holds ρ u env d → number_of (arg_of env o) = Some z →
  int64 z = true ∧ (Z.to_nat R < length d)%nat ∧ reaches m r0 (Z.of_nat pc) d (Z.of_nat (pc + 1)) (<[Z.to_nat R := u64 z]> d).

Lemma store_constant u c R g : register_constant c = true →
  ∃ g' w, (_ ← emit_constant R c; mret ()) g = Ok ((), g') ∧ grows g g' [w] ∧ nregs g' = nregs g ∧ assigns u (OConst c) R g' w.
Proof.
  intros Hc. destruct (emit_constant_spec m r0 c R g Hc) as (k & g' & w & E & G & Hreg & X). exists g', w.
  split_and!; [by rewrite (G_step _ _ _ _ _ E)|done|done|]. intros env d pc z Hs Hp Hw Hd Hf _ Hz.
  destruct (X (Z.of_nat pc) d z Hs Hp Hf Hz) as (Hi & o & b & -> & Hb & Hsig & He). split; [done|].
  split; [eapply (written_register m o _ b 0); [by eapply list_elem_of_lookup_2|done|done|unfold fits; lia|done|auto]|].
  rewrite Nat.add_1_r. apply (exec_written m r0 _ o _ b 0); auto. unfold fits; lia.
Qed.

Lemma store_value u v R g : known ρ u g → v ∈ us_vals u ++ (us_loads u).*1 →
  ∃ g' w, (_ ← emit2 MOV R (ρ v); mret ()) g = Ok ((), g') ∧ grows g g' [w] ∧ nregs g' = nregs g ∧ assigns u (OInstr v) R g' w.
Proof.
  intros K Hv. destruct (emit_word_grows (word2 MOV R (ρ v)) g) as (g' & E & G & Hreg & N). exists g', (word2 MOV R (ρ v)).
  split_and!; [|done|done|].
  { unfold emit2. change (makeInstruction2 MOV (u16 R) (u16 (ρ v))) with (word2 MOV R (ρ v)). by rewrite (G_step _ _ _ _ _ E). }
  intros env d pc z Hs Hp Hw Hd Hf Hh Hz. cbn in Hz. destruct (env !! v) as [[q|]|] eqn:Ev; [|done..]. injection Hz as ->.
  destruct (Hh v _ Hv Ev) as (q & [= <-] & Hi & Hr). split; [done|].
  assert (Hvu : v ∈ ids_of u) by (apply elem_of_app; auto). assert (small_gen g) by (by eapply small_same).
  destruct (known_register u v g) as [Hf' _]; [done..|]. assert (fits 16 (ρ v)) by (unfold fits in *; lia). rewrite word2_fields in Hw by done.
  split; [eapply (written_register m MOV _ (ρ v) 0); [by eapply list_elem_of_lookup_2|done|done|unfold fits; lia|done|auto]|].
  rewrite Nat.add_1_r. apply (exec_written m r0 _ MOV _ (ρ v) 0); auto; [unfold fits; lia|]. by apply exec_mov.
Qed.

Lemma store_visited u b i x o g :
  known ρ u g → in_id i ∉ ids_of u → in_id i ∉ own → NoDup own → in_kind i = StoreInstr →
  in_operands i = [OInstr x; OConst (ConstantInt 0); o] → x ∈ us_vars u → usable_operand u o = true → visited u b i g.
Proof.
  intros K Hid Hown Hnd Hk Ho Hx Hu. pose proof (var_usable u x Hx) as Hxu. set (R := u16 (ρ x) + 0).
  assert (Hs : ∃ g' w, visit name h b i g = Ok ((), g') ∧ grows g g' [w] ∧ nregs g' = nregs g ∧ assigns u o R g' w).
  { unfold visit, visit_store. rewrite Hk. unfold operand. rewrite Ho. cbn [lookup list_lookup].
    unfold mbind at 1, G_bind at 1, mret at 1, G_ret at 1. unfold mbind at 1, G_bind at 1, mret at 1, G_ret at 1.
    unfold mbind at 1, G_bind at 1, mret at 1, G_ret at 1. cbn [getConstantInt].
    unfold mbind at 1, G_bind at 1, mret at 1, G_ret at 1. rewrite (G_step _ _ _ _ _ (getRegister_known u x g K Hxu)).
    change (u16 0) with 0. fold R. destruct o as [|c|v|]; try discriminate Hu.
    - assert (loadable c = true) as -> by (by destruct c). by apply store_constant.
    - cbn in Hu. apply orb_true_iff in Hu. rewrite !bool_decide_eq_true in Hu. assert (Hv : v ∈ us_vals u ++ (us_loads u).*1) by (apply elem_of_app; auto).
      rewrite (G_step _ _ g (tg_variables g) g) by done. destruct (kn_own _ _ _ K v) as [-> _]; [apply elem_of_app; auto|]. by apply store_value. }
  destruct Hs as (g' & w & E & G & Hn & A). exists g'. split_and!; [done|by apply extends_add; [|eapply grows_extends]|intros H; apply no_value in H; [done|by rewrite Hk..]|].
  intros _ post F I X [U P Hnew Hl] _ _ Hinj env w' d Rl L Hd. rewrite (words_app g g' [w]) by apply G. rewrite Hk, Ho. cbn.
  assert (Hnone : ∀ t, targets i !! 3%nat = Some t → ∃ d' : list Z, reaches m r0 (Z.of_nat (length (tg_code g))) d (Z.of_nat (entry_point entries t)) d' ∧ regs_ok m d' ∧ rel vars vals ρ env w' d').
  { intros t Ht. unfold targets in Ht. rewrite Ho in Ht. cbn in Ht. by destruct (op_block o). }
  destruct (env !! x) as [[?|n]|] eqn:Ex; [done| |done]. destruct (number_of (arg_of env o)) as [z|] eqn:Ez; [|done].
  pose proof (final_small g' post F X) as Hs'. destruct (known_register u x g') as [Hf E16]; [by eapply known_grows|done|done|].
  assert (HR : R = ρ x) by (unfold R; lia). rewrite HR in A.
  destruct (A env d (length (tg_code g)) z) as (Hz & Hlt & Re); [done|by eapply final_numbers| |done|done|by eapply rel_holds|done|].
  { apply code_at_one. eapply plain_code; [done|done|apply G|apply G|apply G|done]. }
  eexists. split_and!; [exact Re| | |].
  - unfold regs_ok in *. by rewrite length_insert.
  - eapply rel_store; try done. by apply (uo_vars _ _ _ _ U).
  - assert (Hdef : define i u = mkUsable (us_vars u) (us_vals u) (List.filter (λ l, negb (l.2 =? x)%nat) (us_loads u))) by (unfold define; by rewrite Hk, Ho).
    rewrite Hdef. apply loads_store; try done. by apply (uo_vars _ _ _ _ U).
Qed.

(** ** Terminators *)

Lemma terminator_ids u i : is_terminator (in_kind i) = true → ids_of (define i u) ⊆ ids_of u.
Proof. intros H. apply no_value; by destruct (in_kind i). Qed.

Lemma ret_visited u b i n g :
  in_id i ∉ ids_of u → in_id i ∉ own → in_kind i = RetInstr → in_operands i = [OConst (ConstantInt n)] → immediate n = true → visited u b i g.
Proof.
  intros Hid Hown Hk Ho Hn%immediate_fits. destruct (emit_word_grows (word1 EXIT (u16 n)) g) as (g' & E & G & R & N). exists g'. split_and!.
  - unfold visit, visit_ret. rewrite Hk. unfold operand. rewrite Ho.
    change ((_ ← emit_word (word1 EXIT (u16 n)); mret ()) g = Ok ((), g')). by rewrite (G_step _ _ _ _ _ E).
  - by apply extends_add; [|eapply grows_extends].
  - intros H. apply terminator_ids in H; [done|by rewrite Hk].
  - intros _ post F I X A _ _ _ env w d Rl L Hd. rewrite Hk, Ho. cbn. apply run_exit; [|done]. rewrite <- (unsigned_id 16 n) by done.
    apply code_at_one. eapply plain_code; [done|done|apply G|apply G|apply G|done].
Qed.

Lemma br_visited u b i t g :
  in_id i ∉ ids_of u → in_id i ∉ own → in_kind i = BrInstr → in_operands i = [OBlock t] → visited u b i g.
Proof.
  intros Hid Hown Hk Ho.
  assert (Hv : visit name h b i g = (if isAfter h b t then mret () else _ ← emit_jump JMP t; mret ()) g).
  { unfold visit, visit_br, block_operand. rewrite Hk. unfold operand. by rewrite Ho. }
  assert (Ht : targets i = [t]) by (unfold targets; by rewrite Ho).
  assert (Hids : in_id i ∈ ids_of (define i u) → False) by (intros H; apply terminator_ids in H; [done|by rewrite Hk]).
  unfold visited. rewrite Hv. destruct (isAfter h b t) eqn:Ea.
  - exists g. split_and!; [done|by apply extends_add; [|apply extends_refl]|by intros ?%Hids|].
    intros He post F I X A _ _ _ env w d Rl L Hd. rewrite Hk, Ho, Ht. cbn. intros t' [= <-].
    rewrite (He t); [|by rewrite Hk|done|rewrite Ht; by apply list_elem_of_singleton]. exists d. split_and!; [apply reaches_refl|done..].
  - destruct (jump_extends own JMP t g) as (g' & E & X1 & Ec & Ej & Ecj & Ev & En). exists g'. split_and!.
    + by rewrite (G_step _ _ _ _ _ E).
    + by apply extends_add.
    + by intros ?%Hids.
    + intros He post F I X A _ _ _ env w d Rl L Hd. rewrite Hk, Ho, Ht. cbn. intros t' [= <-]. exists d. split_and!; [|done..].
      apply run_jmp; [|pose proof (fo_entries F t); pose proof (fo_offsets F); lia].
      apply (jump_code g g' post [] [(t, (length (tg_code g), JMP))] (t, (length (tg_code g), JMP))); try done.
      * by rewrite app_nil_r.
      * by apply list_elem_of_singleton.
      * cbn. rewrite Ec, length_app. cbn. lia.
      * by intros j' ->%list_elem_of_singleton.
Qed.

Lemma rel_temporaries env w d d' i lo hi :
  placed vars vals ρ i lo hi → in_id i ∉ own → same_regs_outside lo hi d d' → rel vars vals ρ env w d → rel vars vals ρ env w d'.
Proof.
  intros P Hi [_ O] R.
  assert (Hs : ∀ v, v ∈ own → d' !! Z.to_nat (ρ v) = d !! Z.to_nat (ρ v)).
  { intros v Hv. apply O, (pl_apart _ _ _ _ _ _ P); [done|]. by intros ->. }
  split.
  - intros v Hv y Hy. destruct (rl_vals _ _ _ _ _ _ R v Hv y Hy) as (q & -> & Hq & Hd). exists q. split_and!; [done..|].
    rewrite Hs; [done|apply elem_of_app; auto].
  - intros v Hv y Hy. destruct (rl_vars _ _ _ _ _ _ R v Hv y Hy) as (k & -> & Hl & Hq). exists k. split_and!; [done..|].
    intros z Hz. rewrite Hs; [by apply Hq|apply elem_of_app; auto].
  - apply (rl_cells _ _ _ _ _ _ R).
Qed.

(** The three ways of a conditional branch behind the code of its condition. *)
Definition branch (reg : Z) (b t f : nat) : G unit :=
  if isAfter h b t then _ ← emit_conditional JZ reg f; mret ()
  else if isAfter h b f then _ ← emit_conditional JN reg t; mret ()
  else _ ← emit_conditional JN reg t; _ ← emit_jump JMP f; mret ().

(** From offset [pc] with the condition [z] in its register. *)
Definition branches (g1 g' : Gen) (reg : Z) (b t f : nat) : Prop :=
  ∀ post d z, final_ok → jumps_inside g1 → following post g' gF → fits 15 reg → d !! Z.to_nat reg = Some (u64 z) → int64 z = true →
  (isAfter h b t = true → entry_point entries t = length (tg_code g')) → (isAfter h b f = true → entry_point entries f = length (tg_code g')) →
  reaches m r0 (Z.of_nat (length (tg_code g1))) d (Z.of_nat (entry_point entries (if z =? 0 then f else t))) d.

Lemma one_branch (sense : bool) reg b t f g1 :
  (if sense then isAfter h b f else isAfter h b t) = true →
  ∃ g', (_ ← emit_conditional (if sense then JN else JZ) reg (if sense then t else f); mret ()) g1 = Ok ((), g') ∧ following [] g1 g' ∧ nregs g' = nregs g1 ∧
    branches g1 g' reg b t f.
Proof.
  intros Ha. destruct (conditional_extends own (if sense then JN else JZ) reg (if sense then t else f) g1) as (g' & E & X1 & Ec & Ecj & Ej & Ev & En).
  exists g'. split_and!; [by rewrite (G_step _ _ _ _ _ E)|done|done|]. intros post d z F I X Hr Hd Hz Ht Hf.
  set (j := (if sense then t else f, (length (tg_code g1), if sense then JN else JZ, reg))).
  assert (Hlen : length (tg_code g') = (length (tg_code g1) + 1)%nat) by (rewrite Ec, length_app; done).
  assert (Hw : m_code m !! length (tg_code g1) = Some (conditional_word entries j)).
  { apply (conditional_code g1 g' post [j] [] j); try done; [by rewrite app_nil_r|by apply list_elem_of_singleton|cbn; lia|by intros j' ->%list_elem_of_singleton|by intros j' ?%elem_of_nil]. }
  pose proof (fo_entries F) as He. pose proof (fo_offsets F) as Ho.
  assert (Hlt : Z.of_nat (entry_point entries (if sense then t else f)) < 2 ^ 16) by (specialize (He (if sense then t else f)); lia).
  pose proof (run_conditional m r0 (length (tg_code g1)) _ sense reg d z Hw Hr Hlt Hd Hz) as Re.
  destruct sense, (z =? 0); cbn in Re; try done; rewrite <- Hlen, <- ?Hf, <- ?Ht in Re by done; done.
Qed.

Lemma branch_spec reg b t f g1 :
  ∃ g', branch reg b t f g1 = Ok ((), g') ∧ following [] g1 g' ∧ nregs g' = nregs g1 ∧ branches g1 g' reg b t f.
Proof.
  unfold branch. destruct (isAfter h b t) eqn:Et; [by apply (one_branch false)|]. destruct (isAfter h b f) eqn:Ef; [by apply (one_branch true)|].
  destruct (conditional_extends own JN reg t g1) as (g2 & E & X1 & Ec & Ecj & Ej & Ev & En).
  destruct (jump_extends own JMP f g2) as (g3 & E2 & X2 & Ec2 & Ej2 & Ecj2 & Ev2 & En2). exists g3. split_and!.
  - by rewrite (G_step _ _ _ _ _ E), (G_step _ _ _ _ _ E2).
  - apply (extends_trans own [] [] g1 g2 g3); [by intros v ?%elem_of_nil|done..].
  - lia.
  - intros post d z F I X Hr Hd Hz Ht Hf.
    set (j := (t, (length (tg_code g1), JN, reg))). set (k := (f, (length (tg_code g2), JMP))).
    assert (Hl2 : length (tg_code g2) = (length (tg_code g1) + 1)%nat) by (rewrite Ec, length_app; done).
    assert (Hl3 : length (tg_code g3) = (length (tg_code g1) + 2)%nat) by (rewrite Ec2, length_app, Hl2; cbn; lia).
    assert (Hc3 : tg_conditionalJumps g3 = tg_conditionalJumps g1 ++ [j]) by (rewrite Ecj2; done).
    assert (Hj3 : tg_unconditionalJumps g3 = tg_unconditionalJumps g1 ++ [k]) by (rewrite Ej2, Ej; done).
    assert (Hw : m_code m !! length (tg_code g1) = Some (conditional_word entries j)).
    { apply (conditional_code g1 g3 post [j] [k] j); try done; [by apply list_elem_of_singleton|cbn; lia|by intros j' ->%list_elem_of_singleton|].
      intros j' ->%list_elem_of_singleton. cbn. lia. }
    assert (Hw2 : m_code m !! length (tg_code g2) = Some (jump_word entries k)).
    { apply (jump_code g1 g3 post [j] [k] k); try done; [by apply list_elem_of_singleton|cbn; lia|by intros j' ->%list_elem_of_singleton]. }
    pose proof (fo_entries F t) as He. pose proof (fo_entries F f) as He'. pose proof (fo_offsets F) as Ho.
    pose proof (run_conditional m r0 (length (tg_code g1)) (entry_point entries t) true reg d z Hw Hr ltac:(lia) Hd Hz) as Re.
    destruct (z =? 0); cbn in Re; [|done]. rewrite <- Hl2 in Re. eapply reaches_trans; [exact Re|]. apply run_jmp; [done|lia].
Qed.

Lemma condbr_visited u b i c t f g :
  known ρ u g → in_id i ∉ ids_of u → in_id i ∉ own → in_kind i = CondBrInstr → in_operands i = [c; OBlock t; OBlock f] → usable_operand u c = true → visited u b i g.
Proof.
  intros K Hid Hown Hk Ho Hc. destruct (getRegister_spec m r0 ρ u c g K Hc) as (g1 & seg & reg & E1 & G1 & Hreg & P1).
  destruct (branch_spec reg b t f g1) as (g' & E2 & X2 & R2 & B). exists g'.
  assert (Ht : targets i = [t; f]) by (unfold targets; rewrite Ho; by destruct c). split_and!.
  - unfold visit, visit_condbr, block_operand. rewrite Hk. unfold operand. rewrite Ho. rewrite <- E2. unfold branch.
    transitivity ((if isAfter h b t then r ← getRegister c; _ ← emit_conditional JZ r f; mret ()
      else if isAfter h b f then r ← getRegister c; _ ← emit_conditional JN r t; mret ()
      else r ← getRegister c; _ ← emit_conditional JN r t; _ ← emit_jump JMP f; mret ()) g); [done|].
    destruct (isAfter h b t); [by rewrite (G_step _ _ _ _ _ E1)|]. destruct (isAfter h b f); by rewrite (G_step _ _ _ _ _ E1).
  - apply extends_add; [done|]. apply (extends_trans own [] [] g g1 g'); [by intros v ?%elem_of_nil|by eapply grows_extends|done].
  - intros H. apply terminator_ids in H; [done|by rewrite Hk].
  - intros He post F I X [U P Hnew Hl] _ _ _ env w d Rl L Hd. rewrite Hk, Ho, Ht. cbn.
    destruct (number_of (arg_of env c)) as [z|] eqn:Ez; [|done].
    assert (X1 : following ([] ++ post) g1 gF) by (eapply extends_trans; [by intros v ?%elem_of_nil|done..]).
    destruct (P1 env d (length (tg_code g)) z) as (Hz & d' & Re & O & Hr);
      [by eapply final_small|by eapply final_numbers|eapply plain_code; [done|done|apply G1|apply G1|apply G1|exact X1]|done|by eapply rel_holds|done|].
    assert (Hl1 : length (tg_code g1) = (length (tg_code g) + length seg)%nat) by (rewrite (gr_code _ _ _ G1), length_app; done).
    rewrite <- Hl1 in Re. destruct (final_small g1 _ F X1) as [Hs _].
    assert (Rb : reaches m r0 (Z.of_nat (length (tg_code g1))) d' (Z.of_nat (entry_point entries (if z =? 0 then f else t))) d').
    { apply (B post); try done; [|unfold fits; lia|intros Ha; apply He; [by rewrite Hk|done|rewrite Ht; set_solver]..].
      eapply (jumps_inside_extends own []); [by eapply grows_extends|done]. }
    intros t' Ht'. assert (t' = if z =? 0 then f else t) as -> by (by destruct (z =? 0); cbn in Ht'; injection Ht').
    exists d'. split_and!; [by eapply reaches_trans|by eapply regs_ok_outside|].
    eapply rel_temporaries; [|exact Hown|exact O|done]. by rewrite <- R2.
Qed.

(** Every instruction that the check accepts. *)
Lemma instr_visited u b i g :
  known ρ u g → instr_ok u i = true → in_id i ∉ ids_of u → NoDup own → (has_value (in_kind i) = false → in_id i ∉ own) → visited u b i g.
Proof.
  intros K Hok Hid Hnd Hown. unfold instr_ok in Hok.
  destruct (in_kind i) as [| | | | | | | |op|op| | | |] eqn:Hk; try discriminate Hok; try specialize (Hown eq_refl).
  - destruct (in_operands i) eqn:Ho; [|done]. by apply nop_visited.
  - destruct (in_operands i) as [|[|[|[|[]|]| | | | | | | | | | |]| |] [|]] eqn:Ho; try discriminate Hok. by apply alloca_visited.
  - destruct (in_operands i) as [|[| |x|] [|[|[|[]| | | | | | | | | | |]| |] [|o [|]]]] eqn:Ho; try discriminate Hok.
    apply andb_true_iff in Hok as [Hx%bool_decide_eq_true Hu]. by apply (store_visited u b i x o).
  - destruct (in_operands i) as [|[| |x|] [|]] eqn:Ho; try discriminate Hok. apply bool_decide_eq_true in Hok. by apply (load_visited u b i x).
  - destruct (in_operands i) as [|x [|]] eqn:Ho; [by destruct op..| |by destruct op].
    assert ((op = INeg ∨ op = INot ∨ op = BNot) ∧ usable_operand u x = true) as [Hop Hu] by (destruct op; try discriminate Hok; auto).
    by apply (unary_visited u b i op x).
  - destruct (in_operands i) as [|x [|y [|]]] eqn:Ho; try discriminate Hok. by apply (binary_visited u b i op x y).
  - destruct (in_operands i) as [|c [|[| | |t] [|[| | |f] [|]]]] eqn:Ho; try discriminate Hok. by apply (condbr_visited u b i c t f).
  - destruct (in_operands i) as [|[| | |t] [|]] eqn:Ho; try discriminate Hok. by apply (br_visited u b i t).
  - destruct (in_operands i) as [|[|[|n| | | | | | | | | | |]| |] [|]] eqn:Ho; try discriminate Hok. by apply (ret_visited u b i n).
Qed.
End final.

(** ** The registers of the values at a point *)

Definition regs_of (g : Gen) (v : nat) : Z := default 0 (register_of g v).
Definition knows (u : Usable) (g : Gen) : Prop := known (regs_of g) u g.

Lemma define_ids i u v : v ∈ ids_of (define i u) → v = in_id i ∨ v ∈ ids_of u.
Proof.
  unfold ids_of. rewrite !elem_of_app. unfold define. destruct (in_kind i); cbn; try tauto.
  - rewrite elem_of_cons. tauto.
  - destruct (in_operands i) as [|[| |x|]]; cbn; try tauto. intros [?|[?|Hv]]; auto. right; right; right.
    apply list_elem_of_fmap in Hv as (q & -> & Hq%list_elem_of_In). apply filter_In in Hq as [Hq%list_elem_of_In _]. by apply list_elem_of_fmap_2.
  - destruct (in_operands i) as [|[| |x|]]; cbn; try tauto. rewrite elem_of_cons. tauto.
  - rewrite elem_of_cons. tauto.
  - rewrite elem_of_cons. tauto.
Qed.

Lemma known_next own u i g g' :
  knows u g → extends own [in_id i] g g' → in_id i ∉ ids_of u →
  (in_id i ∈ ids_of (define i u) → ∃ r, register_of g' (in_id i) = Some r ∧ 0 ≤ r < Z.of_nat (nregs g')) → knows (define i u) g'.
Proof.
  intros [K1 K2] X Hid Hr. split.
  - intros v Hv. fold (ids_of (define i u)) in Hv. pose proof (define_ids i u v Hv) as [->|Hu].
    + destruct (Hr Hv) as (r & E & Hb). unfold regs_of. rewrite E. by split.
    + destruct (K1 v Hu) as [E Hb]. pose proof (ex_regs _ _ _ _ X). assert (E' : register_of g' v = register_of g v).
      { apply (ex_other _ _ _ _ X). intros ->%list_elem_of_singleton. done. }
      unfold regs_of in *. fold (register_of g v) in E. fold (register_of g' v). rewrite E', E in *. cbn in *. split; [done|lia].
  - intros c. rewrite (ex_constants _ _ _ _ X). apply K2.
Qed.

(** Later registers do not change the earlier ones. *)
Lemma knows_final own u g gF ids : knows u g → extends own ids g gF → (∀ v, v ∈ ids_of u → v ∉ ids) → known (regs_of gF) u g.
Proof.
  intros [K1 K2] X Hd. split; [|done]. intros v Hv. destruct (K1 v Hv) as [E Hb]. unfold regs_of in *.
  rewrite (ex_other _ _ _ _ X v) by (by apply Hd). done.
Qed.

Lemma knows_subset u u' g : ids_of u' ⊆ ids_of u → knows u g → knows u' g.
Proof. intros H [K1 K2]. split; [|done]. intros v Hv. apply K1. by apply H. Qed.

(** ** Generation succeeds *)

(** Any machine will do to run the generator. *)
Definition idle_machine : Machine unit :=
  mkMachine unit [] emptyPool (mkLayout (λ _, 0) (λ _, 0) (λ _, 0) (λ _, 0) (λ _, 0) (λ _, 0) (λ _, 0)) [] [] []
    (λ _, None) (λ _ _, None) (λ _, true) (λ _ _, (0, [])) (λ _ _, []).
Definition idle_runner : Runner unit := mkRunner Inactive 0 [] ∅ None NoUserdata ().

Section generation.
Context (name : bytes) (h : IRHandler) (vars vals : list nat).
Hypothesis vars_vals_distinct : NoDup (vars ++ vals).

Definition kinds_fit (c : list Instr) : Prop := ∀ i, i ∈ c → has_value (in_kind i) = false → in_id i ∉ vars ++ vals.

Lemma instr_succeeds u b i g :
  knows u g → instr_ok u i = true → in_id i ∉ ids_of u → (has_value (in_kind i) = false → in_id i ∉ vars ++ vals) →
  ∃ g', visit name h b i g = Ok ((), g') ∧ extends (vars ++ vals) [in_id i] g g' ∧ knows (define i u) g'.
Proof.
  intros K Hok Hid Hown.
  destruct (instr_visited idle_machine idle_runner name h vars vals (regs_of g) [] g u b i g K Hok Hid vars_vals_distinct Hown) as (g' & E & X & Hr & _).
  exists g'. split_and!; [done..|]. by eapply known_next.
Qed.

Lemma code_succeeds b c u g pre :
  knows u g → code_ok u c = true → ids_of u ⊆ pre → NoDup (pre ++ (in_id <$> c)) → kinds_fit c →
  ∃ g', visit_code name h b c g = Ok ((), g') ∧ extends (vars ++ vals) (in_id <$> c) g g' ∧ knows (defined c u) g' ∧
    ids_of (defined c u) ⊆ pre ++ (in_id <$> c).
Proof.
  revert u g pre. induction c as [|i c IH]; intros u g pre K Hok Hu Hnd Hf.
  { exists g. split_and!; [done|apply extends_refl|done|by rewrite app_nil_r]. }
  cbn in Hok. rewrite !andb_true_iff in Hok. destruct Hok as [[Hi _] Hok].
  assert (Hid : in_id i ∉ pre) by (rewrite fmap_cons in Hnd; apply list.NoDup_app in Hnd as (_ & Hnd & _); intros H; by apply (Hnd _ H); left).
  destruct (instr_succeeds u b i g K Hi) as (g1 & E1 & X1 & K1); [intros H; by apply Hid, Hu|apply Hf; by left|].
  destruct (IH (define i u) g1 (pre ++ [in_id i])) as (g2 & E2 & X2 & K2 & Hs); [done|done| |by rewrite <- app_assoc|intros j Hj; apply Hf; by right|].
  { intros v [->|Hv]%define_ids; [apply elem_of_app; right; by left|apply elem_of_app; left; by apply Hu]. }
  exists g2. split_and!.
  - cbn. by rewrite (G_step _ _ _ _ _ E1).
  - rewrite fmap_cons. apply (extends_trans _ [in_id i] (in_id <$> c) g g1 g2); [|done..]. intros v ->%list_elem_of_singleton.
    rewrite fmap_cons in Hnd. apply list.NoDup_app in Hnd as (_ & _ & Hnd). by apply list.NoDup_cons in Hnd as [? _].
  - done.
  - by rewrite <- app_assoc in Hs.
Qed.

Definition fresh_block (u : Usable) : Usable := mkUsable (us_vars u) (us_vals u) [].

Lemma fresh_ids u : ids_of (fresh_block u) ⊆ ids_of u.
Proof. unfold ids_of. cbn. intros v. rewrite !elem_of_app, elem_of_nil. tauto. Qed.

Lemma blocks_succeed bs u g pre :
  knows u g → blocks_ok h u bs = true → ids_of u ⊆ pre → NoDup (pre ++ (in_id <$> layout_of h bs)) → kinds_fit (layout_of h bs) →
  ∃ entries g', visit_blocks name h bs g = Ok (entries, g') ∧ extends (vars ++ vals) (in_id <$> layout_of h bs) g g' ∧
    ∀ b, (entry_point entries b ≤ length (tg_code g'))%nat.
Proof.
  revert u g pre. induction bs as [|b bs IH]; intros u g pre K Hok Hu Hnd Hf.
  { exists [], g. split_and!; [done|apply extends_refl|intros b; cbn; lia]. }
  cbn in Hok. apply andb_true_iff in Hok as [Hc Hok]. fold (fresh_block u) in Hc, Hok. cbn in Hnd, Hf. rewrite fmap_app in Hnd.
  destruct (code_succeeds b (code_of h b) (fresh_block u) g pre) as (g1 & E1 & X1 & K1 & S1); [|done| | | |].
  - eapply knows_subset; [apply fresh_ids|done].
  - intros v Hv. by apply Hu, fresh_ids.
  - rewrite app_assoc in Hnd. by apply list.NoDup_app in Hnd as (Hnd & _).
  - intros i Hi. apply Hf, elem_of_app. by left.
  - destruct (IH _ g1 (pre ++ (in_id <$> code_of h b)) K1 Hok S1) as (entries & g2 & E2 & X2 & L2); [by rewrite <- app_assoc|intros i Hi; apply Hf, elem_of_app; by right|].
    exists ((b, length (tg_code g)) :: entries), g2. split_and!.
    + cbn [visit_blocks]. rewrite (G_step _ _ g (length (tg_code g)) g) by done. by rewrite (G_step _ _ _ _ _ E1), (G_step _ _ _ _ _ E2).
    + cbn. rewrite fmap_app. apply (extends_trans _ _ _ g g1 g2); [|done..].
      intros v Hv Hv'. apply list.NoDup_app in Hnd as (_ & _ & Hnd). apply list.NoDup_app in Hnd as (_ & Hnd & _). by apply (Hnd v).
    + intros a. cbn. destruct (b =? a)%nat; [|apply L2].
      pose proof (prefix_length _ _ (ex_code _ _ _ _ X1)). pose proof (prefix_length _ _ (ex_code _ _ _ _ X2)). lia.
Qed.
End generation.

(** ** The finished handler simulates every instruction *)

Section whole.
Context {W : Type} (m : Machine W) (r0 : Runner W) (name : bytes) (h : IRHandler) (vars vals : list nat).
Context (g0 gF : Gen) (entries : list (nat * nat)) (all : list nat).
Abbreviation own := (vars ++ vals).
Abbreviation ρ := (regs_of gF).
Hypothesis final : final_ok m entries gF.
Hypothesis distinct : NoDup all.
Hypothesis own_all : ∀ v, v ∈ own → v ∈ all.
Hypothesis own_distinct : NoDup own.
Hypothesis no_jumps : jumps_inside g0.
Hypothesis generated : extends own all g0 gF.

Definition is_value (k : InstrKind) : bool := match k with UnaryInstr _ | BinaryInstr _ => true | _ => false end.
Definition kinds_ok (c : list Instr) : Prop :=
  ∀ i, i ∈ c → (in_id i ∈ vars ↔ in_kind i = AllocaInstr) ∧ (in_id i ∈ vals ↔ is_value (in_kind i) = true).

Lemma kinds_ok_fit c : kinds_ok c → kinds_fit vars vals c.
Proof.
  intros H i Hi Hv [Hin|Hin]%elem_of_app; destruct (H i Hi) as [H1 H2]; [apply H1 in Hin|apply H2 in Hin]; by destruct (in_kind i).
Qed.

Lemma own_registers v v' : v ∈ own → v' ∈ own → v ≠ v' → Z.to_nat (ρ v) ≠ Z.to_nat (ρ v').
Proof.
  intros Hv Hv' Hne E. destruct (ex_own _ _ _ _ generated v) as (r & Hr & Hb); [auto..|].
  destruct (ex_own _ _ _ _ generated v') as (r' & Hr' & Hb'); [auto..|]. unfold regs_of in E. rewrite Hr, Hr' in E. cbn in E.
  assert (r = r') as <- by lia. apply Hne. eapply (ex_apart _ _ _ _ generated); [apply own_all, Hv|apply own_all, Hv'|done..].
Qed.

Lemma point_placed i g g' pre post :
  all = pre ++ in_id i :: post → extends own pre g0 g → extends own [in_id i] g g' → extends own post g' gF →
  (in_id i ∈ vars ↔ in_kind i = AllocaInstr) ∧ (in_id i ∈ vals ↔ is_value (in_kind i) = true) →
  placed vars vals ρ i (nregs g) (nregs g').
Proof.
  intros Hall X1 X2 X3 [Hvar Hval]. split.
  - intros v Hv Hne. pose proof (own_all v Hv) as Hin. pose proof distinct as Hnd. rewrite Hall in Hin, Hnd.
    apply list.NoDup_app in Hnd as (_ & Hdis & Hnd). apply list.NoDup_cons in Hnd as [Hid _].
    rewrite elem_of_app, elem_of_cons in Hin. destruct Hin as [Hin|[->|Hin]]; [left| done|right].
    + destruct (ex_own _ _ _ _ X1 v Hin Hv) as (r & Hr & Hb). specialize (Hdis v Hin). rewrite elem_of_cons in Hdis.
      unfold regs_of. rewrite (ex_other _ _ _ _ X3), (ex_other _ _ _ _ X2), Hr by (rewrite ?list_elem_of_singleton; tauto). cbn. lia.
    + destruct (ex_own _ _ _ _ X3 v Hin Hv) as (r & Hr & Hb). unfold regs_of. rewrite Hr. cbn. lia.
  - apply Hvar.
  - intros H. apply Hval in H. by destruct (in_kind i).
Qed.

Fixpoint code_simulated (u : Usable) (c : list Instr) (pc : nat) : Prop :=
  match c with
  | [] => True
  | i :: c => ∃ len, simulates m r0 vars vals ρ (entry_point entries) u i pc len ∧ code_simulated (define i u) c (pc + len)
  end.

Lemma usable_next u b i g g' post :
  usable_ok vars vals ρ u → known ρ u g → instr_ok u i = true → visit name h b i g = Ok ((), g') → extends own post g' gF → in_id i ∉ post →
  (in_id i ∈ vars ↔ in_kind i = AllocaInstr) ∧ (in_id i ∈ vals ↔ is_value (in_kind i) = true) →
  usable_ok vars vals ρ (define i u).
Proof.
  intros [U1 U2 U3] K Hok Hv X Hpost [Hvar Hval]. unfold define. unfold instr_ok in Hok.
  destruct (in_kind i) as [| | | | | | | |op|op| | | |] eqn:Hk; try (by split).
  - split; cbn; [|done|done]. intros v [->|Hin]%elem_of_cons; [by apply Hvar|auto].
  - destruct (in_operands i) as [|[| |x|] ops]; try (by split). split; cbn; [done|done|].
    intros v y [Hin%list_elem_of_In _]%list_elem_of_In%filter_In. by apply U3.
  - destruct (in_operands i) as [|[| |x|] ops] eqn:Ho; try (by split). destruct ops; [|done]. apply bool_decide_eq_true in Hok.
    split; cbn; [done|done|]. intros v y [E|Hin]%elem_of_cons; [|by apply U3]. injection E as -> ->. split; [by apply U1|].
    assert (Hg : g' = tg_set_variable (self i) (u16 (ρ x)) g).
    { unfold visit, visit_load in Hv. rewrite Hk in Hv. unfold operand in Hv. rewrite Ho in Hv.
      change ((r ← getRegister (OInstr x); G_modify (tg_set_variable (self i) r)) g = Ok ((), g')) in Hv.
      rewrite (G_step _ _ _ _ _ (getRegister_known ρ u x g K (var_usable u x Hok))) in Hv. by injection Hv as <-. }
    destruct (known_register ρ u x g K) as [_ E16]; [|by apply var_usable|].
    { pose proof (final_small m vars vals entries gF g' post final X) as Hs. rewrite Hg in Hs. exact Hs. }
    unfold regs_of at 1. rewrite (ex_other _ _ _ _ X) by done. rewrite Hg. unfold register_of. cbn. rewrite bool_decide_true by done. cbn. done.
  - split; cbn; [done| |done]. intros v [->|Hin]%elem_of_cons; [by apply Hval|auto].
  - split; cbn; [done| |done]. intros v [->|Hin]%elem_of_cons; [by apply Hval|auto].
Qed.

(** The loads that may be used are of variables that may be. *)
Definition loads_known (u : Usable) : Prop := ∀ v x, (v, x) ∈ us_loads u → x ∈ us_vars u.

Lemma loads_known_next u i : instr_ok u i = true → loads_known u → loads_known (define i u).
Proof.
  intros Hok L v x. unfold define. unfold instr_ok in Hok. destruct (in_kind i) as [| | | | | | | |op|op| | | |] eqn:Hk; cbn; try apply L.
  - intros H. right. by eapply L.
  - destruct (in_operands i) as [|[| |y|] ops]; try apply L. cbn. intros [H%list_elem_of_In _]%list_elem_of_In%filter_In. by eapply L.
  - destruct (in_operands i) as [|[| |y|] [|]]; try done; try apply L. apply bool_decide_eq_true in Hok. cbn.
    intros [E|H]%elem_of_cons; [by injection E as -> ->|by eapply L].
Qed.

Lemma code_in_final b c u g g2 pre post :
  knows u g → code_ok u c = true → ids_of u ⊆ pre → usable_ok vars vals ρ u → loads_known u → kinds_ok c →
  all = pre ++ (in_id <$> c) ++ post → extends own pre g0 g → visit_code name h b c g = Ok ((), g2) → extends own post g2 gF →
  (∀ i t, i ∈ c → t ∈ targets i → isAfter h b t = true → entry_point entries t = length (tg_code g2)) →
  code_simulated u c (length (tg_code g)).
Proof.
  revert u g pre. induction c as [|i c IH]; intros u g pre K Hok Hu U Lk Hkinds Hall X1 Hv X3 Hafter; [done|].
  cbn in Hok. rewrite !andb_true_iff in Hok. destruct Hok as [[Hi Hterm] Hok]. rewrite fmap_cons in Hall. cbn in Hall.
  pose proof distinct as Hnd. rewrite Hall in Hnd. pose proof (proj1 (list.NoDup_app _ _) Hnd) as (_ & Hdis & Hnd2). apply list.NoDup_cons in Hnd2 as [Hid2 _].
  assert (Hid : in_id i ∉ ids_of u) by (intros H; apply Hu, Hdis in H; by apply H; left).
  pose proof (kinds_ok_fit _ Hkinds) as Hfit. pose proof (Hkinds i ltac:(by left)) as Hki.
  destruct (instr_succeeds name h vars vals own_distinct u b i g K Hi Hid) as (g1 & E1 & X2 & K1); [apply Hfit; by left|].
  cbn [visit_code] in Hv. rewrite (G_step _ _ _ _ _ E1) in Hv.
  assert (Hu1 : ids_of (define i u) ⊆ pre ++ [in_id i]).
  { intros v [->|Hin]%define_ids; [apply elem_of_app; right; by left|apply elem_of_app; left; by apply Hu]. }
  destruct (code_succeeds name h vars vals own_distinct b c (define i u) g1 (pre ++ [in_id i]) K1 Hok Hu1) as (g2' & E2 & Xc & _).
  { rewrite <- app_assoc. cbn. by rewrite app_comm_cons, app_assoc in Hnd; apply list.NoDup_app in Hnd as (Hnd & _). }
  { intros j Hj. apply Hfit. by right. }
  assert (g2' = g2) as -> by congruence.
  assert (X1F : extends own ((in_id <$> c) ++ post) g1 gF).
  { apply (extends_trans _ _ _ g1 g2 gF); [|done..]. intros v Hc Hp. apply list.NoDup_app in Hnd as (_ & _ & Hnd).
    apply list.NoDup_cons in Hnd as [_ Hnd]. apply list.NoDup_app in Hnd as (_ & Hnd & _). by apply (Hnd v). }
  assert (X0F : extends own ([in_id i] ++ (in_id <$> c) ++ post) g gF).
  { apply (extends_trans _ _ _ g g1 gF); [|done..]. by intros v ->%list_elem_of_singleton. }
  assert (Kρ : known ρ u g) by (eapply knows_final; [done|exact X0F|]; intros v Hin; by apply Hdis, Hu).
  pose proof (usable_next u b i g g1 _ U Kρ Hi E1 X1F Hid2 Hki) as U1.
  pose proof (point_placed i g g1 pre _ Hall X1 X2 X1F Hki) as P.
  exists (words g g1). split.
  - destruct (instr_visited m r0 name h vars vals ρ entries gF u b i g Kρ Hi Hid own_distinct) as (g1' & E1' & _ & _ & Hsim); [apply Hfit; by left|].
    assert (g1' = g1) as -> by congruence. refine (Hsim _ ((in_id <$> c) ++ post) final _ X1F _ _ _ own_registers).
    + intros t Ht Ha Hin. rewrite Ht in Hterm. cbn in Hterm. apply bool_decide_eq_true in Hterm. subst c.
      injection Hv as <-. apply (Hafter i); [by left|done..].
    + by eapply jumps_inside_extends.
    + split; [done|done|done|]. intros v x Hvx ->. apply Hid, var_usable. by eapply Lk.
    + symmetry. by apply (ex_other _ _ _ _ X1F).
    + intros r Hr. unfold regs_of. by rewrite Hr.
  - assert (Hl : (length (tg_code g) + words g g1)%nat = length (tg_code g1)).
    { unfold words. pose proof (prefix_length _ _ (ex_code _ _ _ _ X2)). lia. }
    rewrite Hl. apply (IH (define i u) g1 (pre ++ [in_id i])); try done.
    + by apply loads_known_next.
    + intros j Hj. apply Hkinds. by right.
    + by rewrite Hall, <- app_assoc.
    + apply (extends_trans _ pre [in_id i] g0 g g1); [|done..]. intros v Hp ->%list_elem_of_singleton. by apply (Hdis _ Hp); left.
    + intros j t Hj. apply Hafter. by right.
Qed.

(** What a block defines is of its kind. *)
Definition sorted_ids (u : Usable) : Prop := (∀ v, v ∈ us_vars u → v ∈ vars) ∧ (∀ v, v ∈ us_vals u → v ∈ vals).

Lemma sorted_defined c u : kinds_ok c → sorted_ids u → sorted_ids (defined c u).
Proof.
  revert u. induction c as [|i c IH]; intros u Hk S; [done|]. cbn. apply IH; [intros j Hj; apply Hk; by right|].
  destruct (Hk i ltac:(by left)) as [Hvar Hval], S as [S1 S2]. unfold define.
  destruct (in_kind i) as [| | | | | | | |op|op| | | |]; try done; try (by destruct (in_operands i) as [|[]]).
  - split; cbn; [|done]. intros v [->|Hv]%elem_of_cons; [by apply Hvar|auto].
  - split; cbn; [done|]. intros v [->|Hv]%elem_of_cons; [by apply Hval|auto].
  - split; cbn; [done|]. intros v [->|Hv]%elem_of_cons; [by apply Hval|auto].
Qed.

Lemma fresh_usable u : sorted_ids u → usable_ok vars vals ρ (fresh_block u).
Proof. intros [S1 S2]. split; [done|done|]. by intros v x ?%elem_of_nil. Qed.

Lemma entry_point_skip es es' b : b ∉ es.*1 → entry_point (es ++ es') b = entry_point es' b.
Proof.
  induction es as [|[x pc] es IH]; [done|]. cbn. rewrite elem_of_cons. intros H. destruct (Nat.eqb_spec x b) as [->|Hne]; [tauto|]. apply IH. tauto.
Qed.

Lemma next_in_split b before bs : b ∉ before → next_in b (before ++ b :: bs) = head bs.
Proof.
  induction before as [|x before IH]; cbn; [by rewrite bool_decide_true|]. rewrite elem_of_cons. intros H.
  rewrite bool_decide_false by (intros ->; tauto). apply IH. tauto.
Qed.

(** The offset of the first of the blocks. *)
Lemma visit_blocks_head bs g es g' t : visit_blocks name h bs g = Ok (es, g') → head bs = Some t → entry_point es t = length (tg_code g).
Proof.
  destruct bs as [|b bs]; [done|]. cbn [visit_blocks]. intros H [= ->]. rewrite (G_step _ _ g (length (tg_code g)) g) in H by done.
  unfold mbind at 1, G_bind at 1 in H. destruct (visit_code name h t (code_of h t) g) as [[[] g1]|]; [|done].
  unfold mbind at 1, G_bind at 1 in H. destruct (visit_blocks name h bs g1) as [[es' g2]|]; [|done]. injection H as <- <-.
  cbn. by rewrite Nat.eqb_refl.
Qed.

Lemma blocks_in_final bs u g before es0 es pre :
  knows u g → blocks_ok h u bs = true → ids_of u ⊆ pre → sorted_ids u → kinds_ok (layout_of h bs) →
  all = pre ++ (in_id <$> layout_of h bs) → extends own pre g0 g → visit_blocks name h bs g = Ok (es, gF) →
  entries = es0 ++ es → es0.*1 = before → hd_blocks h = before ++ bs → NoDup (hd_blocks h) →
  ∀ b, b ∈ bs → ∃ u', us_loads u' = [] ∧ code_simulated u' (code_of h b) (entry_point entries b).
Proof.
  revert u g before es0 es pre. induction bs as [|a bs IH]; intros u g before es0 es pre K Hok Hu S Hkinds Hall X1 Hv He Hb Hbs Hnd b Hin;
    [by apply elem_of_nil in Hin|].
  cbn in Hok, Hkinds, Hall. apply andb_true_iff in Hok as [Hc Hok]. fold (fresh_block u) in Hc, Hok. rewrite fmap_app in Hall.
  assert (Kf : knows (fresh_block u) g) by (eapply knows_subset; [apply fresh_ids|done]).
  assert (Huf : ids_of (fresh_block u) ⊆ pre) by (intros v Hv'; by apply Hu, fresh_ids).
  assert (Hkc : kinds_ok (code_of h a)) by (intros i Hi; apply Hkinds, elem_of_app; by left).
  assert (Hkr : kinds_ok (layout_of h bs)) by (intros i Hi; apply Hkinds, elem_of_app; by right).
  pose proof distinct as Hda. rewrite Hall in Hda.
  destruct (code_succeeds name h vars vals own_distinct a (code_of h a) (fresh_block u) g pre Kf Hc Huf) as (g1 & E1 & X2 & K1 & S1).
  { rewrite app_assoc in Hda. by apply list.NoDup_app in Hda as (Hda & _). }
  { by apply kinds_ok_fit. }
  destruct (blocks_succeed name h vars vals own_distinct bs _ g1 _ K1 Hok S1) as (es' & gF' & E2 & X3 & _); [by rewrite <- app_assoc|by apply kinds_ok_fit|].
  cbn [visit_blocks] in Hv. rewrite (G_step _ _ g (length (tg_code g)) g) in Hv by done.
  rewrite (G_step _ _ _ _ _ E1), (G_step _ _ _ _ _ E2) in Hv. injection Hv as <- ->.
  rewrite Hbs in Hnd. pose proof (proj1 (list.NoDup_app _ _) Hnd) as (_ & Hdis & Hnd2). apply list.NoDup_cons in Hnd2 as [Ha Hnd2].
  assert (Hab : a ∉ before) by (intros H; apply (Hdis a H); by left).
  assert (Hea : entry_point entries a = length (tg_code g)).
  { rewrite He, entry_point_skip by (by rewrite Hb). cbn. by rewrite Nat.eqb_refl. }
  apply elem_of_cons in Hin as [->|Hin].
  - exists (fresh_block u). split; [done|]. rewrite Hea. eapply (code_in_final a (code_of h a) _ g g1 pre); try done.
    + by apply fresh_usable.
    + by intros v x ?%elem_of_nil.
    + intros i t Hi Ht Haf. unfold isAfter in Haf. apply bool_decide_eq_true in Haf. rewrite Hbs, next_in_split in Haf by done.
      rewrite He, entry_point_skip.
      * cbn. destruct (Nat.eqb_spec a t) as [->|Hne]; [destruct bs; [done|]; injection Haf as ->; by destruct Ha; left|].
        by eapply visit_blocks_head.
      * rewrite Hb. destruct bs as [|t' bs]; [done|]. injection Haf as ->. intros H. apply (Hdis t H). right. by left.
  - eapply (IH (defined (code_of h a) (fresh_block u)) g1 (before ++ [a]) (es0 ++ [(a, length (tg_code g))]) es' (pre ++ (in_id <$> code_of h a))); try done.
    + by apply sorted_defined.
    + by rewrite <- app_assoc.
    + apply (extends_trans _ _ _ g0 g g1); [|done..]. intros v Hp Hv. rewrite app_assoc in Hda. apply list.NoDup_app in Hda as (Hda & _).
      apply list.NoDup_app in Hda as (_ & Hda & _). by apply (Hda v).
    + by rewrite He, <- app_assoc.
    + rewrite fmap_app, Hb. done.
    + by rewrite Hbs, <- app_assoc.
    + by rewrite Hbs.
Qed.

(** ** Runs *)

(** A run of a block that is simulated. *)
Lemma exec_code_simulated u c pc env w d :
  code_simulated u c pc → rel vars vals ρ env w d → loads_hold ρ u env d → regs_ok m d →
  match exec_code (num_exec (m_powl m)) c env w with
  | GoesTo t env' w' => ∃ d', reaches m r0 (Z.of_nat pc) d (Z.of_nat (entry_point entries t)) d' ∧ regs_ok m d' ∧ rel vars vals ρ env' w' d'
  | Left (inl e) _ => ends_with m r0 (Z.of_nat pc) d e
  | Left (inr x) _ => returns m r0 (Z.of_nat pc) d x
  | _ => True
  end.
Proof.
  revert u pc env w d. induction c as [|i c IH]; intros u pc env w d Hc R L Hd; [done|]. destruct Hc as (len & Hi & Hc). cbn [exec_code].
  specialize (Hi env w d R L Hd). destruct (num_exec _ _ _ _ w) as [v w'|n w'|[e|x] w']; [|..|done|done].
  - destruct Hi as (d1 & Re & Hd1 & R1 & L1). specialize (IH _ _ _ _ _ Hc R1 L1 Hd1).
    destruct (exec_code _ c _ w') as [t env2 w2|[e|x] w2| |]; [|by eapply reaches_ends|by eapply reaches_returns|done|done].
    destruct IH as (d2 & Re2 & Hd2 & R2). exists d2. split_and!; [by eapply reaches_trans|done..].
  - destruct (targets i !! n) as [t|] eqn:Et; [by apply Hi|done].
Qed.

Lemma exec_blocks_simulated fuel b env w d x w' :
  (∀ b, b ∈ hd_blocks h → ∃ u, us_loads u = [] ∧ code_simulated u (code_of h b) (entry_point entries b)) →
  (∀ b i t, b ∈ hd_blocks h → i ∈ code_of h b → t ∈ targets i → t ∈ hd_blocks h) →
  b ∈ hd_blocks h → rel vars vals ρ env w d → regs_ok m d →
  exec_blocks (num_exec (m_powl m)) fuel h b env w = Exited x w' →
  match x with inl e => ends_with m r0 (Z.of_nat (entry_point entries b)) d e | inr v => returns m r0 (Z.of_nat (entry_point entries b)) d v end.
Proof.
  intros Hs Ht. revert b env w d. induction fuel as [|fuel IH]; intros b env w d Hb R Hd He; [done|]. cbn in He.
  destruct (Hs b Hb) as (u & Hu & Hc).
  assert (L : loads_hold ρ u env d) by (intros v Hv; rewrite Hu in Hv; by apply elem_of_nil in Hv).
  pose proof (exec_code_simulated u _ _ env w d Hc R L Hd) as Hx.
  destruct (exec_code _ (code_of h b) env w) as [t env2 w2|y w2| |] eqn:Ee; [|..|done|done].
  - destruct Hx as (d2 & Re & Hd2 & R2). assert (Hin : t ∈ hd_blocks h).
    { apply exec_code_goto in Ee as (i & Hi & Hti). by eapply Ht. }
    pose proof (IH t env2 w2 d2 Hin R2 Hd2 He) as Hr. destruct x; [by eapply reaches_ends|by eapply reaches_returns].
  - injection He as -> ->. by destruct x.
Qed.
End whole.
