(* ===== verification/FlowCodegenProgram.v ===== *)
(** * Compiled programs run as their handlers mean

    What generation leaves of the size of the state and of the constant pool, and
    the theorem about whole programs: generated, set up and run. *)
From stdpp Require Import gmap.
From S2P Require Import Prelude FlowType FlowConstants FlowMatch FlowIr FlowInstruction FlowVm FlowProgram FlowBuilder FlowPasses FlowLinks FlowPassesSafety FlowCodegen FlowCodegenSafety FlowCodegenRun.
Implicit Types h : IRHandler.

(** ** How much one instruction adds *)

Definition gen_size (g : Gen) : nat := (nregs g + length (numbers g) + length (tg_code g))%nat.

(** At most [k] registers, constants and words; nothing else of the pool. *)
Definition adds_at_most (k : nat) (g g' : Gen) : Prop :=
  (gen_size g' ≤ gen_size g + k)%nat ∧ cp_handlers (tg_pool g') = cp_handlers (tg_pool g) ∧
  cp_matchDefs (tg_pool g') = cp_matchDefs (tg_pool g) ∧ tg_matchHints g' = tg_matchHints g.
Definition within {A} (k : nat) (c : G A) : Prop := ∀ g a g', c g = Ok (a, g') → adds_at_most k g g'.

Lemma within_bind {A B} j k n (c : G A) (f : A → G B) : within j c → (∀ a, within k (f a)) → (j + k ≤ n)%nat → within n (x ← c; f x).
Proof.
  intros Hc Hf Hn g b g' H. unfold mbind, G_bind in H. destruct (c g) as [[a g1]|] eqn:E; [|done].
  destruct (Hc g a g1 E) as (? & ? & ? & ?). destruct (Hf a g1 b g' H) as (? & ? & ? & ?). split_and!; [lia|congruence..].
Qed.
Lemma within_ret {A} k (a : A) : within k (mret a : G A).
Proof. intros g b g' [= _ <-]. split_and!; [lia|done..]. Qed.
Lemma within_fail {A} k e : within k (G_fail e : G A).
Proof. by intros g b g'. Qed.
Lemma within_lift {A} k (r : result A) : within k (G_lift r).
Proof. intros g b g' H. unfold G_lift in H. destruct r; [|done]. injection H as _ <-. split_and!; [lia|done..]. Qed.
Lemma within_gets {A} k (f : Gen → A) : within k (G_gets f).
Proof. intros g b g' [= _ <-]. split_and!; [lia|done..]. Qed.
Lemma within_word k w : within (S k) (emit_word w).
Proof. intros g b g' [= _ <-]. split_and!; try done. unfold gen_size, nregs, numbers. cbn. rewrite length_app. cbn. lia. Qed.
Lemma within_variable k o r : within k (G_modify (tg_set_variable o r)).
Proof. intros g b g' [= _ <-]. split_and!; try done. unfold gen_size, nregs, numbers. cbn. lia. Qed.
Lemma within_jump k j : within k (G_modify (tg_add_unconditional j)).
Proof. intros g b g' [= _ <-]. split_and!; try done. unfold gen_size, nregs, numbers. cbn. lia. Qed.
Lemma within_conditional k j : within k (G_modify (tg_add_conditional j)).
Proof. intros g b g' [= _ <-]. split_and!; try done. unfold gen_size, nregs, numbers. cbn. lia. Qed.
Lemma within_allocate k n : (n ≤ k)%nat → within k (allocate n).
Proof.
  intros Hn g b g' [= _ <-]. split_and!; try done. unfold gen_size, nregs, numbers. cbn. rewrite length_app, length_replicate. lia.
Qed.
Lemma within_integer k n : within (S k) (G_intern (λ p, makeInteger p n)).
Proof.
  intros g b g'. unfold G_intern, makeInteger, ensureValue. destruct (find_index _ _ _ _); intros [= _ <-]; split_and!; try done;
    unfold gen_size, nregs, numbers; cbn; rewrite ?length_app; cbn; lia.
Qed.
Create HintDb within.
#[export] Hint Resolve within_ret within_fail within_lift within_gets within_word within_variable within_jump within_conditional within_integer : within.

Ltac within_step n :=
  match goal with |- within ?N _ => eapply (within_bind n (N - n)%nat); [|intros ?; cbn [Nat.sub]|lia] end.

Lemma within_constant reg c : register_constant c = true → within 2 (emit_constant reg c).
Proof.
  intros Hc. destruct c; try discriminate Hc; cbn [emit_constant]; unfold emit2; auto with within.
  destruct (_ =? _); [auto with within|]. within_step 1%nat; [auto with within|]. auto with within.
Qed.

Lemma within_allocate_for k n o : (n ≤ k)%nat → within k (allocate_for n o).
Proof.
  intros Hn. unfold allocate_for. within_step n; [by apply within_allocate|]. within_step 0%nat; auto with within.
Qed.

Lemma within_register u o : usable_operand u o = true → within 3 (getRegister o).
Proof.
  intros Hu. unfold getRegister. within_step 0%nat; [auto with within|]. destruct (variable_of o _); [auto with within|].
  destruct o as [|c| |]; try discriminate Hu.
  - destruct (loadable c); [|within_step 1%nat; [by apply within_allocate_for|auto with within]].
    within_step 1%nat; [by apply within_allocate|]. within_step 2%nat; [by apply within_constant|auto with within].
  - within_step 1%nat; [by apply within_allocate_for|auto with within].
Qed.

Lemma within_operand {B} k i n o (f : Operand → G B) : in_operands i !! n = Some o → within k (f o) → within k (x ← operand i n; f x).
Proof. intros Ho Hf. unfold operand. rewrite Ho. exact Hf. Qed.

Lemma within_assert {B} k o s (c : G B) : within k c → within k (_ ← assert_sig o s; c).
Proof. intros H. eapply (within_bind 0 k); [unfold assert_sig, G_assert; auto with within|done|lia]. Qed.

(** The forms of instructions with two operands. *)
Lemma within_rrr u i x y rr : usable_operand u x = true → usable_operand u y = true →
  within 8 (a ← allocate_for 1 (self i); b ← getRegister x; c ← getRegister y; emit3 rr a b c).
Proof.
  intros Hx Hy. within_step 1%nat; [by apply within_allocate_for|]. within_step 3%nat; [by eapply within_register|].
  within_step 3%nat; [by eapply within_register|]. unfold emit3. auto with within.
Qed.
Lemma within_rri u i x ri n : usable_operand u x = true → within 8 (a ← allocate_for 1 (self i); b ← getRegister x; emit3 ri a b n).
Proof.
  intros Hx. within_step 1%nat; [by apply within_allocate_for|]. within_step 3%nat; [by eapply within_register|]. unfold emit3. auto with within.
Qed.

Lemma within_unit {A} k (c : G A) : within k c → within k (_ ← c; mret ()).
Proof. intros H. eapply (within_bind k 0); [done|intros _; auto with within|lia]. Qed.

Lemma within_ext {A} k (c c' : G A) : (∀ g, c g = c' g) → within k c' → within k c.
Proof. intros E H g a g'. rewrite E. apply H. Qed.

Lemma within_assoc u i x y rr ri :
  in_operands i = [x; y] →
  match as_int y, as_int x with Some _, _ => usable_operand u x | None, Some _ => usable_operand u y | None, None => usable_operand u x && usable_operand u y end = true →
  within 8 (emitBinaryAssoc i rr ri).
Proof.
  intros Ho Hok. unfold emitBinaryAssoc. apply within_assert, within_assert. apply (within_operand _ _ _ x); [by rewrite Ho|].
  apply (within_operand _ _ _ y); [by rewrite Ho|].
  apply (within_ext _ _ (a ← allocate_for 1 (self i);
     match as_int y, as_int x with
     | Some n, _ => b ← getRegister x; emit3 ri a b n
     | None, Some n => b ← getRegister y; emit3 ri a b n
     | None, None => b ← getRegister x; c ← getRegister y; emit3 rr a b c
     end)).
  { intros g. unfold mbind, G_bind. destruct (allocate_for 1 (self i) g) as [[a ga]|]; [|done]. by rewrite choose_form. }
  destruct (as_int y); [by eapply within_rri|]. destruct (as_int x); [by eapply within_rri|].
  apply andb_true_iff in Hok as [? ?]. by eapply within_rrr.
Qed.

Lemma within_binary u i op x y : in_operands i = [x; y] → binary_ok u op x y = true → within 8 (visit_binary i op).
Proof.
  intros Ho Hok. unfold binary_ok in Hok. apply andb_true_iff in Hok as [Hc Hok].
  assert (Hassoc : match as_int y, as_int x with
      | Some n, _ => usable_operand u x && immediate n
      | None, Some n => commutative op && usable_operand u y && immediate n
      | None, None => usable_operand u x && usable_operand u y
      end = true → match as_int y, as_int x with Some _, _ => usable_operand u x | None, Some _ => usable_operand u y | None, None => usable_operand u x && usable_operand u y end = true).
  { destruct (as_int y), (as_int x); rewrite ?andb_true_iff; tauto. }
  assert (Hbool : usable_operand u x && usable_operand u y = true → ∀ rr, within 8 (emitBinary i rr)).
  { intros [Hx Hy]%andb_true_iff rr. unfold emitBinary. apply within_assert. apply (within_operand _ _ _ x); [by rewrite Ho|].
    apply (within_operand _ _ _ y); [by rewrite Ho|]. by eapply within_rrr. }
  destruct op; try discriminate Hc; cbn [visit_binary]; apply within_unit; try (by eapply within_assoc; [exact Ho|apply Hassoc]); try (by apply Hbool).
  apply andb_true_iff in Hok as [Hx Hok]. unfold emitBinary_imm. apply within_assert, within_assert. apply (within_operand _ _ _ x); [by rewrite Ho|].
  apply (within_operand _ _ _ y); [by rewrite Ho|].
  apply (within_ext _ _ (a ← allocate_for 1 (self i);
     match as_int y with
     | Some n => b ← getRegister x; emit3 NIPOW a b n
     | None => b ← getRegister x; c ← getRegister y; emit3 NPOW a b c
     end)).
  { intros g. unfold mbind, G_bind. destruct (allocate_for 1 (self i) g) as [[a ga]|]; [|done]. by rewrite choose_immediate. }
  destruct (as_int y); [by eapply within_rri|]. by eapply within_rrr.
Qed.

Lemma within_jumps k o bb : within (S k) (emit_jump o bb).
Proof. unfold emit_jump, emit0. eapply (within_bind (S k) 0); [auto with within|intros ?|lia]. apply (within_bind 0 0); auto with within. Qed.
Lemma within_conditionals k o c bb : within (S k) (emit_conditional o c bb).
Proof. unfold emit_conditional, emit0. eapply (within_bind (S k) 0); [auto with within|intros ?|lia]. apply (within_bind 0 0); auto with within. Qed.
#[export] Hint Resolve within_jumps within_conditionals within_unit : within.

Lemma within_visit name h u b i : instr_ok u i = true → within 8 (visit name h b i).
Proof.
  intros Hok. unfold instr_ok in Hok. unfold visit.
  destruct (in_kind i) as [| | | | | | | |op|op| | | |] eqn:Hk; try discriminate Hok.
  - unfold emit0. auto with within.
  - destruct (in_operands i) as [|[|[|[|[]|]| | | | | | | | | | |]| |] [|]] eqn:Ho; try discriminate Hok.
    unfold visit_alloca. apply (within_operand _ _ _ (OConst (ConstantInt 1))); [by rewrite Ho|]. cbn [getConstantInt].
    change (within 8 (_ ← allocate_for 1 (self i); mret ())). apply within_unit, within_allocate_for. lia.
  - destruct (in_operands i) as [|[| |x|] [|[|[|[]| | | | | | | | | | |]| |] [|o [|]]]] eqn:Ho; try discriminate Hok.
    apply andb_true_iff in Hok as [_ Hu]. unfold visit_store. apply (within_operand _ _ _ (OInstr x)); [by rewrite Ho|].
    apply (within_operand _ _ _ (OConst (ConstantInt 0))); [by rewrite Ho|]. apply (within_operand _ _ _ o); [by rewrite Ho|].
    cbn [getConstantInt]. eapply (within_bind 0 8); [auto with within|intros n|lia]. eapply (within_bind 3 5); [|intros r|lia].
    { by apply (within_register (mkUsable [] [x] [])); cbn; rewrite bool_decide_true by (by left). }
    assert (Hm : within 5 (vs ← G_gets tg_variables; match variable_of o vs with Some x0 => _ ← emit2 MOV (r + n) x0; mret () | None => G_fail AssertionFailure end)).
    { eapply (within_bind 0 5); [auto with within|intros vs|lia]. destruct (variable_of o vs); [unfold emit2|]; auto with within. }
    destruct o as [|c| |]; try done. destruct (loadable c); [|done]. apply within_unit. eapply (within_ext _ _ (v ← emit_constant (r + n) c; mret v)).
    { intros g. unfold mbind, G_bind. by destruct (emit_constant _ c g) as [[]|]. }
    eapply (within_bind 2 3); [by apply within_constant|auto with within|lia].
  - destruct (in_operands i) as [|[| |x|] [|]] eqn:Ho; try discriminate Hok. unfold visit_load. apply (within_operand _ _ _ (OInstr x)); [by rewrite Ho|].
    eapply (within_bind 3 5); [|auto with within|lia]. by apply (within_register (mkUsable [] [x] [])); cbn; rewrite bool_decide_true by (by left).
  - destruct (in_operands i) as [|x [|]] eqn:Ho; [by destruct op..| |by destruct op].
    assert (Hu : usable_operand u x = true) by (by destruct op).
    assert (He : ∀ o, within 8 (emitUnary i o)).
    { intros o. unfold emitUnary. apply within_assert. apply (within_operand _ _ _ x); [by rewrite Ho|].
      within_step 1%nat; [by apply within_allocate_for|]. within_step 3%nat; [by eapply within_register|]. unfold emit2. auto with within. }
    destruct op; try discriminate Hok; cbn [visit_unary]; auto with within.
  - destruct (in_operands i) as [|x [|y [|]]] eqn:Ho; try discriminate Hok. by eapply within_binary.
  - destruct (in_operands i) as [|c [|[| | |t] [|[| | |f] [|]]]] eqn:Ho; try discriminate Hok.
    unfold visit_condbr, block_operand. apply (within_operand _ _ _ c); [by rewrite Ho|]. unfold operand. rewrite Ho.
    change (within 8 (if isAfter h b t then r ← getRegister c; _ ← emit_conditional JZ r f; mret ()
      else if isAfter h b f then r ← getRegister c; _ ← emit_conditional JN r t; mret ()
      else r ← getRegister c; _ ← emit_conditional JN r t; _ ← emit_jump JMP f; mret ())).
    destruct (isAfter h b t); [|destruct (isAfter h b f)]; (eapply (within_bind 3 5); [by eapply within_register|intros r|lia]); auto with within.
    eapply (within_bind 1 4); auto with within.
  - destruct (in_operands i) as [|[| | |t] [|]] eqn:Ho; try discriminate Hok.
    unfold visit_br, block_operand. unfold operand. rewrite Ho.
    change (within 8 (if isAfter h b t then mret () else _ ← emit_jump JMP t; mret ())). destruct (isAfter h b t); auto with within.
  - destruct (in_operands i) as [|[|[|n| | | | | | | | | | |]| |] [|]] eqn:Ho; try discriminate Hok.
    unfold visit_ret. apply (within_operand _ _ _ (OConst (ConstantInt n))); [by rewrite Ho|]. cbn [getConstantInt].
    eapply (within_bind 0 8); [auto with within|intros k|lia]. unfold emit1. auto with within.
Qed.

Lemma within_code name h b c u : code_ok u c = true → within (8 * length c) (visit_code name h b c).
Proof.
  revert u. induction c as [|i c IH]; intros u Hok; cbn [visit_code]; [auto with within|].
  cbn in Hok. rewrite !andb_true_iff in Hok. destruct Hok as [[Hi _] Hok].
  eapply (within_bind 8 (8 * length c)); [by eapply within_visit|intros _; by eapply IH|cbn [length]; lia].
Qed.

Lemma within_blocks name h bs u : blocks_ok h u bs = true → within (8 * length (layout_of h bs)) (visit_blocks name h bs).
Proof.
  revert u. induction bs as [|b bs IH]; intros u Hok; cbn [visit_blocks]; [auto with within|].
  cbn in Hok. apply andb_true_iff in Hok as [Hc Hok]. cbn [layout_of flat_map]. fold (layout_of h bs). rewrite length_app.
  eapply (within_bind 0 (8 * (length (code_of h b) + length (layout_of h bs)))); [auto with within|intros pc|lia].
  eapply (within_bind (8 * length (code_of h b)) (8 * length (layout_of h bs))); [by eapply within_code|intros _|lia].
  eapply (within_bind (8 * length (layout_of h bs)) 0); [by eapply IH|intros es; auto with within|lia].
Qed.

(** ** The kinds of the values *)

Lemma NoDup_fmap_inj {A B} (f : A → B) l x y : NoDup (f <$> l) → x ∈ l → y ∈ l → f x = f y → x = y.
Proof.
  induction l as [|z l IH]; [by intros _ ?%elem_of_nil|]. rewrite fmap_cons, list.NoDup_cons, !elem_of_cons.
  intros [Hz Hnd] [->|Hx] [->|Hy] E; [done| | |by apply IH].
  - destruct Hz. rewrite E. by apply list_elem_of_fmap_2.
  - destruct Hz. rewrite <- E. by apply list_elem_of_fmap_2.
Qed.

Section kinds.
Context (c : list Instr) (ids_distinct : NoDup (in_id <$> c)).

Definition ids_where (P : Instr → bool) : list nat := in_id <$> filter (λ i, P i = true) c.

Lemma ids_where_spec P i : i ∈ c → in_id i ∈ ids_where P ↔ P i = true.
Proof.
  intros Hi. unfold ids_where. rewrite list_elem_of_fmap. split.
  - intros (j & E & Hj). apply list_elem_of_filter in Hj as [Hp Hj]. by rewrite (NoDup_fmap_inj in_id c i j ids_distinct Hi Hj E).
  - intros H. exists i. split; [done|]. by apply list_elem_of_filter.
Qed.

Lemma ids_where_in P v : v ∈ ids_where P → ∃ i, v = in_id i ∧ i ∈ c ∧ P i = true.
Proof. unfold ids_where. rewrite list_elem_of_fmap. intros (i & -> & [Hp Hi]%list_elem_of_filter). by exists i. Qed.

Lemma ids_where_distinct P : NoDup (ids_where P).
Proof.
  apply NoDup_fmap_2_strong; [|by eapply list.NoDup_filter, NoDup_fmap_1].
  intros i j [_ Hi]%list_elem_of_filter [_ Hj]%list_elem_of_filter. by apply (NoDup_fmap_inj in_id c).
Qed.

Definition variable_ids : list nat := ids_where (λ i, bool_decide (in_kind i = AllocaInstr)).
Definition value_ids : list nat := ids_where (λ i, is_value (in_kind i)).

Lemma own_ids_distinct : NoDup (variable_ids ++ value_ids).
Proof.
  apply list.NoDup_app. split_and!; [apply ids_where_distinct| |apply ids_where_distinct].
  intros v Hv Hw. apply ids_where_in in Hv as (i & -> & Hi & Hk). apply bool_decide_eq_true in Hk.
  apply ids_where_spec in Hw; [|done]. by rewrite Hk in Hw.
Qed.

Lemma own_ids_in v : v ∈ variable_ids ++ value_ids → v ∈ in_id <$> c.
Proof. intros [H|H]%elem_of_app; apply ids_where_in in H as (i & -> & Hi & _); by apply list_elem_of_fmap_2. Qed.

Lemma own_ids_kinds : kinds_ok variable_ids value_ids c.
Proof.
  intros i Hi. unfold variable_ids, value_ids. rewrite !ids_where_spec by done. split; [|done]. apply bool_decide_eq_true.
Qed.
End kinds.

(** ** Handlers *)

(** The state before and after a handler. *)
Record gen_ready (g : Gen) : Prop := {
  rd_code : tg_code g = [];
  rd_conditional : tg_conditionalJumps g = [];
  rd_jumps : tg_unconditionalJumps g = [];
  rd_hints : tg_matchHints g = [];
  rd_variables : tg_variables g = [];
  rd_regs : (nregs g ≤ 1)%nat;
}.

(** A machine that runs the code of a handler ends as the handler does. *)
Definition runs_as {W} (m : Machine W) h : Prop :=
  ∀ hp ud w0 n x w, is_Some (m_malloc m hp) → exec_handler (num_exec (m_powl m)) n h [] = Exited x w →
  ∃ fuel, match x with
          | inl e => handler_run m fuel hp ud w0 = Some (inl e)
          | inr b => ∃ r, handler_run m fuel hp ud w0 = Some (inr (r, b))
          end.

Lemma computeRegisterCount_nonneg c : 0 ≤ computeRegisterCount c.
Proof.
  unfold computeRegisterCount. assert (H : ∀ l n, 0 ≤ n → 0 ≤ foldl (λ count i, Z.max count (registerMax i)) n l).
  { induction l as [|x l IH]; intros n Hn; cbn; [done|]. apply IH. lia. }
  by apply H.
Qed.

(** From the simulation to [Handler::run]. *)
Lemma simulated_runs {W} (m : Machine W) h vars vals gF entries :
  (∀ e, getEntryBlock h = Some e → e ∈ hd_blocks h ∧ entry_point entries e = 0%nat) →
  (∀ r0 : Runner W, ∀ b, b ∈ hd_blocks h → ∃ u, us_loads u = [] ∧ code_simulated m r0 vars vals gF entries u (code_of h b) (entry_point entries b)) →
  (∀ b i t, b ∈ hd_blocks h → i ∈ code_of h b → t ∈ targets i → t ∈ hd_blocks h) →
  runs_as m h.
Proof.
  intros He Hs Ht hp ud w0 n x w [[p b] Hm] Hx. unfold exec_handler in Hx. destruct (getEntryBlock h) as [e|]; [|done].
  destruct (He e eq_refl) as [Hin H0].
  set (d := replicate (Z.to_nat (computeRegisterCount (m_code m))) 0).
  set (r0 := mkRunner Running 0 d (<[p := OString [] [b]]> hp) None ud w0).
  assert (Hd : regs_ok m d).
  { unfold regs_ok, d. rewrite length_replicate, Z2Nat.id; [done|apply computeRegisterCount_nonneg]. }
  assert (Hc : ∀ fuel, handler_run m fuel hp ud w0 = interpret m fuel 0 (at_regs r0 d)).
  { intros fuel. unfold handler_run, create, newString. cbn. rewrite Hm. done. }
  assert (R : rel vars vals (regs_of gF) ∅ [] d).
  { split; [intros v _ val Hv; by rewrite lookup_empty in Hv..|]. intros v v' k _ _ Hv. by rewrite lookup_empty in Hv. }
  pose proof (exec_blocks_simulated m r0 h vars vals gF entries n e ∅ [] d x w (Hs r0) Ht Hin R Hd Hx) as Hr. rewrite H0 in Hr.
  destruct x as [f|v].
  - destruct Hr as (k & Hk). exists (k + 1)%nat. rewrite Hc. apply Hk.
  - destruct Hr as (k & r & Hk). exists (k + 1)%nat, r. rewrite Hc. apply Hk.
Qed.

Lemma makeHandler_new p name : name ∉ (cp_handlers p).*1 →
  makeHandler p name = (set_handlers p (cp_handlers p ++ [(name, [])]), length (cp_handlers p)).
Proof.
  intros H. unfold makeHandler. rewrite (proj2 (find_index_None _ _ _ _)); [done|].
  apply List.Forall_forall. intros [n c] Hn%list_elem_of_In. cbn. apply bool_decide_eq_false. intros ->. apply H. apply list_elem_of_fmap.
  by exists (name, c).
Qed.

Lemma handler_ok_facts h : handler_ok h = true →
  blocks_ok h (mkUsable [] [] []) (hd_blocks h) = true ∧ NoDup (hd_blocks h) ∧ NoDup (in_id <$> layout_of h (hd_blocks h)) ∧
  (∀ b i t, b ∈ hd_blocks h → i ∈ code_of h b → t ∈ targets i → t ∈ hd_blocks h).
Proof.
  unfold handler_ok. rewrite !andb_true_iff, !bool_decide_eq_true. intros ([[[H1 H2] H3] H4] & _). split_and!; try done.
  intros b i t Hb Hi Ht. rewrite forallb_forall in H4. specialize (H4 i). rewrite forallb_forall in H4.
  eapply bool_decide_eq_true_1, H4; apply list_elem_of_In; [|done]. unfold layout_of. apply list_elem_of_In, in_flat_map. exists b.
  by rewrite <- !list_elem_of_In.
Qed.

(** [generate] of one handler. *)
Lemma generate_handler_spec name h g :
  gen_ready g → handler_ok h = true → Z.of_nat (length (numbers g) + 8 * length (layout_of h (hd_blocks h))) ≤ 32000 → name ∉ (cp_handlers (tg_pool g)).*1 →
  ∃ g' code, generate_handler name h g = Ok ((), g') ∧ gen_ready g' ∧ cp_handlers (tg_pool g') = cp_handlers (tg_pool g) ++ [(name, code)] ∧
    numbers g `prefix_of` numbers g' ∧ (length (numbers g') ≤ length (numbers g) + 8 * length (layout_of h (hd_blocks h)))%nat ∧
    cp_matchDefs (tg_pool g') = cp_matchDefs (tg_pool g) ∧
    ∀ W (m : Machine W), m_code m = code → numbers g' `prefix_of` cp_numbers (m_pool m) → (∀ b c v, m_powl m b c = Some v → fits 64 v) → runs_as m h.
Proof.
  intros [Rc Rj Ru Rh Rv Rr] Hok Hsize Hname. destruct (handler_ok_facts h Hok) as (Hb & Hnd & Hids & Ht).
  set (c := layout_of h (hd_blocks h)) in *. set (vars := variable_ids c). set (vals := value_ids c).
  set (g1 := tg_set_pool (set_handlers (tg_pool g) (cp_handlers (tg_pool g) ++ [(name, [])])) g).
  assert (K : knows (mkUsable [] [] []) g1).
  { split; [by intros v ?%elem_of_nil|]. intros k. cbn. by rewrite Rv. }
  destruct (blocks_succeed name h vars vals (own_ids_distinct c Hids) (hd_blocks h) _ g1 [] K Hb) as (entries & gF & E & X & Hoff);
    [by intros v ?|done|apply kinds_ok_fit, own_ids_kinds, Hids|].
  destruct (within_blocks name h (hd_blocks h) _ Hb g1 entries gF E) as (Hs & Hh & Hm & Hi). fold c in Hs.
  assert (Hs1 : (gen_size g1 ≤ length (numbers g) + 1)%nat).
  { unfold gen_size. change (nregs g1) with (nregs g). change (numbers g1) with (numbers g). change (tg_code g1) with (tg_code g). rewrite Rc. cbn. lia. }
  unfold gen_size in Hs at 1.
  set (code := final_code entries gF).
  set (g' := mkGen [] [] [] [] [] [] (set_handlers (tg_pool gF) (<[length (cp_handlers (tg_pool g)) := (name, code)]> (cp_handlers (tg_pool gF))))).
  exists g', code. split_and!.
  - unfold generate_handler. rewrite (G_step _ _ g (Z.of_nat (length (cp_handlers (tg_pool g)))) g1) by (unfold G_intern; by rewrite makeHandler_new).
    rewrite (G_step _ _ _ _ _ E). unfold G_modify. rewrite Nat2Z.id, Hi. change (tg_matchHints g1) with (tg_matchHints g). by rewrite Rh.
  - by split; [..|unfold nregs; cbn; lia].
  - cbn. rewrite Hh. cbn. rewrite insert_app_r_alt, Nat.sub_diag by lia. done.
  - apply (ex_numbers _ _ _ _ X).
  - pose proof (ex_regs _ _ _ _ X) as Hr. change (nregs g1) with (nregs g) in Hr. change (numbers g') with (numbers gF).
    unfold gen_size in Hs. change (nregs g1) with (nregs g) in Hs. change (numbers g1) with (numbers g) in Hs. change (tg_code g1) with (tg_code g) in Hs.
    rewrite Rc in Hs. cbn [length] in Hs. lia.
  - cbn. by rewrite Hm.
  - intros W m Hcode Hnum Hpow. change (numbers g') with (numbers gF) in Hnum. apply (simulated_runs m h vars vals gF entries); [| |done].
    + intros e He. unfold getEntryBlock in He. split; [destruct (hd_blocks h); [done|]; injection He as ->; by left|].
      rewrite (visit_blocks_head name h _ g1 entries gF e E He). cbn. by rewrite Rc.
    + intros r0. apply (blocks_in_final m r0 name h vars vals g1 gF entries (in_id <$> c)) with (u := mkUsable [] [] []) (g := g1) (before := []) (es0 := []) (es := entries) (pre := []); try done.
      * split; [done| | |intros b; apply Hoff|done|done]; [split; lia|lia].
      * apply own_ids_in.
      * apply own_ids_distinct, Hids.
      * split; cbn; rewrite ?Rj, ?Ru; by intros j ?%elem_of_nil.
      * by split; intros v ?%elem_of_nil.
      * apply own_ids_kinds, Hids.
      * apply extends_refl.
Qed.

(** ** Programs *)

Definition total_layout (hs : list (bytes * IRHandler)) : list Instr := flat_map (λ p, layout_of p.2 (hd_blocks p.2)) hs.
Definition program_ok (hs : list (bytes * IRHandler)) : bool :=
  forallb (λ p, handler_ok p.2) hs && bool_decide (NoDup hs.*1) && (Z.of_nat (length (total_layout hs)) <=? 4000).

(** Each handler of [hs] has its code in the pool. *)
Definition compiled_to (p : ConstantPool) (nh : bytes * IRHandler) (nc : bytes * list Z) : Prop :=
  nc.1 = nh.1 ∧ ∀ W (m : Machine W), m_code m = nc.2 → cp_numbers p `prefix_of` cp_numbers (m_pool m) →
  (∀ b c v, m_powl m b c = Some v → fits 64 v) → runs_as m nh.2.

Lemma compiled_to_later p p' nh nc : cp_numbers p `prefix_of` cp_numbers p' → compiled_to p nh nc → compiled_to p' nh nc.
Proof. intros Hp [H1 H2]. split; [done|]. intros W m Hc Hn. apply H2; [done|by etrans]. Qed.

Lemma generate_handlers_spec hs g :
  gen_ready g → forallb (λ p, handler_ok p.2) hs = true → NoDup ((cp_handlers (tg_pool g)).*1 ++ hs.*1) →
  Z.of_nat (length (numbers g) + 8 * length (total_layout hs)) ≤ 32000 →
  ∃ g' cs, generate_handlers hs g = Ok ((), g') ∧ cp_handlers (tg_pool g') = cp_handlers (tg_pool g) ++ cs ∧
    numbers g `prefix_of` numbers g' ∧ cp_matchDefs (tg_pool g') = cp_matchDefs (tg_pool g) ∧ Forall2 (compiled_to (tg_pool g')) hs cs.
Proof.
  revert g. induction hs as [|[name h] hs IH]; intros g Rg Hok Hnd Hs.
  { exists g, []. split_and!; [done|by rewrite app_nil_r|done..|constructor]. }
  cbn in Hok. apply andb_true_iff in Hok as [Hh Hok]. cbn in Hs, Hnd. rewrite length_app in Hs.
  destruct (generate_handler_spec name h g Rg Hh) as (g1 & code & E1 & R1 & H1 & N1 & L1 & M1 & X1); [lia| |].
  { apply list.NoDup_app in Hnd as (_ & Hnd & _). intros H. apply (Hnd _ H). by left. }
  destruct (IH g1 R1 Hok) as (g2 & cs & E2 & H2 & N2 & M2 & X2); [|unfold total_layout in *; lia|].
  { rewrite H1, fmap_app, <- app_assoc. done. }
  exists g2, ((name, code) :: cs). split_and!; [|by rewrite H2, H1, <- app_assoc|by etrans|by rewrite M2|].
  - cbn. by rewrite (G_step _ _ _ _ _ E1).
  - constructor; [|done]. split; [done|]. intros W m Hc Hn. apply X1; [done|by etrans].
Qed.

Lemma setup_handlers {W} (cs : list (bytes * list Z)) (p : Program W) :
  foldl (λ p c, createHandler p (fst c) (snd c)) p cs =
    mkProgram (p_cp p) (p_handlers p ++ ((λ c, newHandler c.1 c.2) <$> cs)) (p_matches p) (p_nativeHandlers p) (p_nativeFunctions p).
Proof.
  revert p. induction cs as [|[n c] cs IH]; intros p; cbn; [by rewrite app_nil_r; destruct p|]. rewrite IH. cbn. by rewrite <- app_assoc.
Qed.

Lemma find_handler_at (cs : list (bytes * list Z)) name code :
  NoDup cs.*1 → (name, code) ∈ cs → find_handler ((λ c, newHandler c.1 c.2) <$> cs) name = Some (newHandler name code).
Proof.
  induction cs as [|[n c] cs IH]; [by intros _ ?%elem_of_nil|]. rewrite fmap_cons, list.NoDup_cons, elem_of_cons. cbn. intros [Hn Hnd] [E|Hin].
  - injection E as -> ->. unfold bytes_eqb. by rewrite bool_decide_true.
  - unfold bytes_eqb. rewrite bool_decide_false; [by apply IH|]. intros ->. apply Hn, list_elem_of_fmap. by exists (name, code).
Qed.

Lemma same_runs_runs {W} (m : Machine W) src h : same_runs src h → runs_as m h → runs_as m src.
Proof. intros (_ & _ & E) R hp ud w0 n x w Hm Hx. eapply R; [done|]. by rewrite E. Qed.

(** C18 (refinement). Programs that pass [program_ok] are compiled correctly: handlers
    that compute with 64-bit numbers and booleans in variables and branch, at most 4000
    instructions together, without calls, strings, matches and the operator [BOr]; a
    constant stands on the right of an operator, or on the left of a commutative one, and
    fits 16 bits unsigned there; other constants are 64-bit numbers but not from [-2^15] to
    [-1]; every value is used in its block or behind it in the order of the blocks, a load
    only in its block and before its variable is assigned again. (Outside of these the
    generated code computes something else: [or_is_and], [operands_swapped],
    [immediate_cut], [negative_constant], [load_aliases].) Such a program is generated
    without a failing assertion and set up; each handler is found by its name, and
    [Handler::run] of its code ends, after finitely many instructions, as the handler
    does: with the same result, or with the arithmetic fault that the handler runs into.
    So does a well-formed handler [src] whose values are [values_confined] and that the
    passes of the default optimization level turn into it. *)
Theorem compiled_program_runs (W : Type) (modules : list (bytes * bytes)) (hs : list (bytes * IRHandler)) :
  program_ok hs = true →
  ∃ cp (prog : Program W), generate_program modules hs = Ok cp ∧ setup (newProgram cp) = Ok prog ∧
    ∀ name h, (name, h) ∈ hs → ∃ hd, findHandler prog name = Some hd ∧
      ∀ m : Machine W, m_code m = h_code hd → m_pool m = cp → (∀ b c v, m_powl m b c = Some v → fits 64 v) →
      runs_as m h ∧
      ∀ src, ir_ok src → values_confined src →
        passManager_run (S (length (hd_blocks src))) (passes_of_level 1) src = Ok h → runs_as m src.
Proof.
  unfold program_ok. rewrite !andb_true_iff, bool_decide_eq_true, Z.leb_le. intros [[Hok Hnd] Hs].
  destruct (generate_handlers_spec hs newGen) as (g & cs & E & Hh & _ & Hm & F); [by split|done|done|cbn; lia|].
  cbn in Hh, Hm. set (cp := setModules (tg_pool g) modules). set (hds := (λ c, newHandler c.1 c.2) <$> cs).
  exists cp, (mkProgram cp hds [] [] []).
  assert (Hns : cs.*1 = hs.*1) by (clear -F; induction F as [|[] [] ? ? [H _] F IH]; cbn in *; congruence).
  assert (Hsetup : setup (newProgram (W := W) cp) = Ok (mkProgram cp hds [] [] [])).
  { unfold setup. change (cp_handlers (p_cp (newProgram (W := W) cp))) with (cp_handlers (tg_pool g)). rewrite Hh.
    rewrite setup_handlers. cbn. by rewrite Hm. }
  split_and!; [unfold generate_program; by rewrite E|exact Hsetup|].
  intros name h Hin. apply list_elem_of_lookup in Hin as [i Hi]. destruct (Forall2_lookup_l _ _ _ _ _ F Hi) as ([n code] & Hci & Hn & X).
  cbn in Hn. subst n. exists (newHandler name code). split.
  { unfold findHandler. apply find_handler_at; [by rewrite Hns|by eapply list_elem_of_lookup_2]. }
  intros m Hc Hp Hpow. assert (R : runs_as m h) by (apply X; [done|by rewrite Hp|done]). split; [done|].
  intros src Ho Hv Hpass. destruct (level_one_rounds (length (hd_blocks src)) src) as (h' & _ & _ & Sr & Eh); [lia|done..|].
  assert (h' = h) as -> by (destruct (has_twins h'); congruence). by eapply same_runs_runs.
Qed.

(** ** A handler with a loop

    It counts from 10 down to 0 and adds up from 100000, then compares. *)
Definition loop_code : list (nat * InstrKind * FlowType * list Operand) :=
  [(0%nat, AllocaInstr, TNumber, [OConst (ConstantInt 1)]);
   (0%nat, StoreInstr, TVoid, [OInstr 6; OConst (ConstantInt 0); OConst (ConstantInt 10)]);
   (0%nat, AllocaInstr, TNumber, [OConst (ConstantInt 1)]);
   (0%nat, StoreInstr, TVoid, [OInstr 8; OConst (ConstantInt 0); OConst (ConstantInt 100000)]);
   (0%nat, BrInstr, TVoid, [OBlock 1]);
   (1%nat, LoadInstr, TNumber, [OInstr 6]);
   (1%nat, BinaryInstr ICmpGT, TBoolean, [OInstr 11; OConst (ConstantInt 0)]);
   (1%nat, CondBrInstr, TVoid, [OInstr 12; OBlock 2; OBlock 3]);
   (2%nat, LoadInstr, TNumber, [OInstr 8]);
   (2%nat, LoadInstr, TNumber, [OInstr 6]);
   (2%nat, BinaryInstr IAdd, TNumber, [OInstr 14; OInstr 15]);
   (2%nat, StoreInstr, TVoid, [OInstr 8; OConst (ConstantInt 0); OInstr 16]);
   (2%nat, BinaryInstr ISub, TNumber, [OInstr 15; OConst (ConstantInt 1)]);
   (2%nat, StoreInstr, TVoid, [OInstr 6; OConst (ConstantInt 0); OInstr 18]);
   (2%nat, BrInstr, TVoid, [OBlock 1]);
   (3%nat, LoadInstr, TNumber, [OInstr 8]);
   (3%nat, BinaryInstr IRem, TNumber, [OInstr 21; OConst (ConstantInt 1000)]);
   (3%nat, BinaryInstr ICmpEQ, TBoolean, [OInstr 22; OConst (ConstantInt 55)]);
   (3%nat, CondBrInstr, TVoid, [OInstr 23; OBlock 5; OBlock 4]);
   (4%nat, RetInstr, TVoid, [OConst (ConstantInt 0)]);
   (5%nat, RetInstr, TVoid, [OConst (ConstantInt 1)])].
Definition loop_handler : IRHandler := pushed loop_code (blocks_made 6).

Definition machine_for (code : list Z) (cp : ConstantPool) : Machine unit :=
  mkMachine unit code cp (mkLayout (λ _, 0) (λ _, 0) (λ _, 0) (λ _, 0) (λ _, 0) (λ _, 0) (λ _, 0)) [] [] []
    (λ _, Some (4096, 0)) (λ _ _, None) (λ _, true) (λ _ _, (0, [])) (λ _ _, []).

(** [compiled_program_runs] at the loop: the compiled handler returns [true]. *)
Lemma compiled_program_runs_witness :
  program_ok [(str "main", loop_handler)] = true ∧
  ∃ cp (prog : Program unit) hd, generate_program [] [(str "main", loop_handler)] = Ok cp ∧ setup (newProgram cp) = Ok prog ∧
    findHandler prog (str "main") = Some hd ∧
    ∃ fuel r, handler_run (machine_for (h_code hd) cp) fuel ∅ NoUserdata () = Some (inr (r, true)).
Proof.
  assert (Hok : program_ok [(str "main", loop_handler)] = true) by (vm_compute; reflexivity). split; [exact Hok|].
  destruct (compiled_program_runs unit [] [(str "main", loop_handler)] Hok) as (cp & prog & Eg & Es & H).
  destruct (H (str "main") loop_handler ltac:(by left)) as (hd & Eh & R). exists cp, prog, hd. split; [exact Eg|]. split; [exact Es|]. split; [exact Eh|].
  destruct (R (machine_for (h_code hd) cp) eq_refl eq_refl) as [Rm _]; [discriminate|].
  apply (Rm ∅ NoUserdata () 40%nat (inr true) [Some 0; Some 100055]); [eexists; reflexivity|vm_compute; reflexivity].
Defined.

(** ** Code that does something else

    Outside of the handlers above, the generated code computes something else
    than the handler means. *)
Definition run_generated h : option (fault + bool) :=
  match generate_program [] [(str "main", h)] with
  | Ok cp =>
      match cp_handlers cp with
      | (_, code) :: _ =>
          match handler_run (machine_for code cp) 100 ∅ NoUserdata () with
          | Some (inr (_, b)) => Some (inr b)
          | Some (inl e) => Some (inl e)
          | None => None
          end
      | [] => None
      end
  | Raise _ => None
  end.
Definition run_meant h : option (fault + bool) :=
  match exec_handler (num_exec (λ _ _, None)) 100 h [] with Exited x _ => Some x | _ => None end.

(** One value and a branch on it. *)
Definition branch_on (is_ : list (InstrKind * FlowType * list Operand)) (cond : Operand) : IRHandler :=
  pushed (((λ i, (0%nat, i.1.1, i.1.2, i.2)) <$> is_) ++
    [(0%nat, CondBrInstr, TVoid, [cond; OBlock 1; OBlock 2]);
     (1%nat, RetInstr, TVoid, [OConst (ConstantInt 1)]); (2%nat, RetInstr, TVoid, [OConst (ConstantInt 0)])]) (blocks_made 3).
Definition int (n : Z) : Operand := OConst (ConstantInt n).

(** A variable: the constants of the examples are loaded from it. *)
Definition of_variable (n : Z) : list (InstrKind * FlowType * list Operand) :=
  [(AllocaInstr, TNumber, [int 1]); (StoreInstr, TVoid, [OInstr 3; int 0; int n]); (LoadInstr, TNumber, [OInstr 3])].

(** [visit(BOrInstr)] emits [BAND]. *)
Lemma or_is_and :
  let h := branch_on (of_variable 1 ++ [(BinaryInstr BOr, TBoolean, [OInstr 5; OConst (ConstantBoolean false)])]) (OInstr 6) in
  run_meant h = Some (inr true) ∧ run_generated h = Some (inr false).
Proof. split; vm_compute; reflexivity. Qed.

(** A constant on the left of a subtraction: [10 - x] becomes [x - 10]. *)
Lemma operands_swapped :
  let h := branch_on (of_variable 3 ++ [(BinaryInstr ISub, TNumber, [int 10; OInstr 5]); (BinaryInstr ICmpEQ, TBoolean, [OInstr 6; int 7])]) (OInstr 7) in
  run_meant h = Some (inr true) ∧ run_generated h = Some (inr false).
Proof. split; vm_compute; reflexivity. Qed.

(** An immediate operand is cut to 16 bits: [x + 65536] is [x]. *)
Lemma immediate_cut :
  let h := branch_on (of_variable 3 ++ [(BinaryInstr IAdd, TNumber, [OInstr 5; int 65536]); (BinaryInstr ICmpEQ, TBoolean, [OInstr 6; int 3])]) (OInstr 7) in
  run_meant h = Some (inr false) ∧ run_generated h = Some (inr true).
Proof. split; vm_compute; reflexivity. Qed.

(** A small negative constant is loaded without its sign. *)
Lemma negative_constant :
  let h := branch_on (of_variable (-1) ++ [(BinaryInstr ICmpLT, TBoolean, [OInstr 5; int 0])]) (OInstr 6) in
  run_meant h = Some (inr true) ∧ run_generated h = Some (inr false).
Proof. split; vm_compute; reflexivity. Qed.

(** A load is the register of its variable: an assignment behind it changes the
    loaded value. *)
Lemma load_aliases :
  let h := branch_on (of_variable 1 ++ [(StoreInstr, TVoid, [OInstr 3; int 0; int 0])]) (OInstr 5) in
  run_meant h = Some (inr true) ∧ run_generated h = Some (inr false).
Proof. split; vm_compute; reflexivity. Qed.
