(* ===== verification/FlowFolding.v ===== *)
(** * Folding constants

    What [IRBuilder] computes at once for constant operands is what the virtual
    machine would compute; and where it is something else. *)
From stdpp Require Import gmap.
From S2P Require Import Prelude FlowType NetAddress FlowConstants FlowIr FlowInstruction FlowVm FlowBuilder FlowPassesSafety FlowCodegenSafety FlowCodegenRun.
Implicit Types h : IRHandler.

(** The function of the builder for an operator on two numbers, and on two
    booleans. The compiler converts the power to [int64_t], the machine keeps it
    as a word. *)
Definition create_binary (powl : Z → Z → option Z) (op : BinaryOperator) : option (nat → Operand → Operand → IRHandler → ir_value) :=
  match op with
  | IAdd => Some createAdd | ISub => Some createSub | IMul => Some createMul | IDiv => Some createDiv | IRem => Some createRem
  | IPow => Some (createPow (λ x y, s64 <$> powl x y))
  | IAnd => Some createAnd | IOr => Some createOr | IXor => Some createXor | IShl => Some createShl | IShr => Some createShr
  | ICmpEQ => Some createNCmpEQ | ICmpNE => Some createNCmpNE | ICmpLE => Some createNCmpLE
  | ICmpGE => Some createNCmpGE | ICmpLT => Some createNCmpLT | ICmpGT => Some createNCmpGT
  | _ => None
  end.
Definition create_boolean (op : BinaryOperator) : option (nat → Operand → Operand → IRHandler → ir_value) :=
  match op with BAnd => Some createBAnd | BXor => Some createBXor | _ => None end.
Definition create_unary (op : UnaryOperator) : option (nat → Operand → IRHandler → ir_value) :=
  match op with INeg => Some createNeg | INot => Some createNot | _ => None end.

Definition bool_of (o : Operand) : option bool := match o with OConst (ConstantBoolean x) => Some x | _ => None end.

(** The constant of a word, or the end of the compiler. *)
Definition folded (v : vm Z) h : ir_value :=
  match v with inr w => Ok (OConst (ConstantInt (s64 w)), h) | inl _ => Raise UndefinedBehaviour end.

(** ** Numbers of 64 bits *)

Lemma int64_bounds z : int64 z = true ↔ - 2 ^ 63 ≤ z < 2 ^ 63.
Proof. unfold int64. by rewrite andb_true_iff, Z.leb_le, Z.ltb_lt. Qed.

(** The bits above the 63rd are all equal. *)
Lemma int64_shiftr z : int64 z = true ↔ Z.shiftr z 63 = 0 ∨ Z.shiftr z 63 = -1.
Proof.
  rewrite int64_bounds, Z.shiftr_div_pow2 by lia. pose proof (Z.div_mod z (2 ^ 63)). pose proof (Z.mod_pos_bound z (2 ^ 63)). nia.
Qed.

Lemma int64_bitwise x y : int64 x = true → int64 y = true →
  int64 (Z.land x y) = true ∧ int64 (Z.lor x y) = true ∧ int64 (Z.lxor x y) = true ∧ int64 (Z.lnot x) = true.
Proof.
  intros Hx Hy. assert (Hn : int64 (Z.lnot x) = true) by (rewrite int64_bounds in *; unfold Z.lnot; lia).
  rewrite int64_shiftr in Hx, Hy. rewrite !(int64_shiftr (_ _ _)), Z.shiftr_land, Z.shiftr_lor, Z.shiftr_lxor.
  destruct Hx as [-> | ->], Hy as [-> | ->]; cbn; auto.
Qed.

Lemma int64_shift x y : int64 x = true → 0 ≤ y → int64 (Z.shiftr x y) = true.
Proof.
  rewrite !int64_bounds. intros Hx Hy. rewrite Z.shiftr_div_pow2 by done. assert (1 ≤ 2 ^ y) by (apply (Z.pow_le_mono_r 2 0 y); lia).
  split; [apply Z.div_le_lower_bound; nia|apply Z.div_lt_upper_bound; nia].
Qed.

Lemma signed_unsigned z : int64 z = true → s64 (u64 z) = z.
Proof.
  rewrite int64_bounds. intros H. unfold signed, unsigned. rewrite Zplus_mod_idemp_l, Z.mod_small by lia. lia.
Qed.

(** ** Folding *)

Lemma get_int_arith z h : (c ← get_int z; constant c h) = folded (arith z) h.
Proof.
  unfold get_int, arith. destruct (_ && _) eqn:E; [|done]. cbn. rewrite signed_unsigned by done. done.
Qed.

Lemma get_int_word z h : int64 z = true → (c ← get_int z; constant c h) = folded (inr (u64 z)) h.
Proof. intros H. unfold get_int. unfold int64 in H. rewrite H. cbn. by rewrite signed_unsigned. Qed.

Lemma get_bit_word b h : (c ← get_bit b; constant c h) = folded (inr (bit b)) h.
Proof. by destruct b. Qed.

Lemma create_numeric_constants b op f x y h :
  create_numeric b op f (OConst (ConstantInt x)) (OConst (ConstantInt y)) h = (c ← f x y; constant c h).
Proof. done. Qed.

Lemma bind_ensure {B} (b : bool) (k : result IrConstant) (f : IrConstant → result B) :
  (c ← (_ ← ensure b UndefinedBehaviour; k); f c) = if b then c ← k; f c else Raise UndefinedBehaviour.
Proof. by destruct b. Qed.

(** The power the machine computes is a word. *)
Definition words_only (powl : Z → Z → option Z) : Prop := ∀ x y z, powl x y = Some z → fits 64 z.

Lemma number_folding powl op create b h x y :
  words_only powl → create_binary powl op = Some create → int64 x = true → int64 y = true →
  create b (OConst (ConstantInt x)) (OConst (ConstantInt y)) h = folded (eval_binary powl op x y) h.
Proof.
  intros Hpow Hop Hx Hy. destruct (int64_bitwise x y Hx Hy) as (B1 & B2 & B3 & _).
  destruct op; try discriminate Hop; injection Hop as <-; unfold createAdd, createSub, createMul, createDiv, createRem, createPow, createAnd, createOr, createXor,
    createShl, createShr, createNCmpEQ, createNCmpNE, createNCmpLE, createNCmpGE, createNCmpLT, createNCmpGT; rewrite create_numeric_constants; cbn [eval_binary];
    try apply get_int_arith; try (by apply get_int_word); try apply get_bit_word; try rewrite bind_ensure.
  - unfold divide. destruct (y =? 0); [done|apply get_int_arith].
  - unfold remainder. destruct (y =? 0); [done|]. cbn [negb andb]. destruct (_ && _); [done|apply get_int_arith].
  - destruct (powl x y) as [z|] eqn:E; [|done]. cbn. rewrite get_int_word by apply signed_int64. unfold folded.
    by rewrite signed_unsigned by apply signed_int64.
  - unfold shift_left. destruct (_ && _) eqn:E; [|done]. rewrite get_int_word by apply signed_int64. unfold folded. rewrite signed_unsigned by apply signed_int64. done.
  - unfold shift_right. destruct (_ && _) eqn:E; [|done]. apply get_int_word, int64_shift; [done|]. apply andb_true_iff in E as [?%Z.leb_le _]. done.
Qed.



Lemma unary_folding_agrees op create b x h :
  create_unary op = Some create → int64 x = true → create b (OConst (ConstantInt x)) h = folded (eval_unary op x) h.
Proof.
  intros Hop Hx. destruct (int64_bitwise x x Hx Hx) as (_ & _ & _ & Hn). destruct op; try discriminate Hop; injection Hop as <-; cbn [eval_unary].
  - apply get_int_arith.
  - by apply get_int_word.
Qed.

(** ** Other results *)

(** The exclusive or of two booleans that are not constant is their
    conjunction. *)
Lemma xor_is_and b lhs rhs h h1 v :
  createBXor b lhs rhs h = Ok (v, h1) → (∀ x y, lhs = OConst (ConstantBoolean x) → rhs ≠ OConst (ConstantBoolean y)) →
  h1 = push_new b (BinaryInstr BAnd) TBoolean [lhs; rhs] h.
Proof.
  intros H Hc. unfold createBXor in H. destruct (assert_type h rhs TBoolean); [|done]. cbn in H.
  destruct lhs as [|[]| |]; try (by injection H as <- <-). destruct rhs as [|[]| |]; try (by injection H as <- <-). by destruct (Hc b0 b1).
Qed.

(** Appending the empty string gives the empty string. *)
Lemma append_empty_loses b lhs h : value_type h lhs = Ok TString → (∀ s, lhs ≠ OConst (ConstantString s)) →
  createSAdd b lhs (OConst (ConstantString [])) h = Ok (OConst (ConstantString []), h).
Proof.
  intros Ht Hc. unfold createSAdd, assert_same_type, assert_type. rewrite Ht. cbn. destruct lhs as [|[]| |]; try done. by destruct (Hc s).
Qed.

(** A comparison of constants is a number; its negation fails an assertion. *)
Lemma folded_comparison_is_number :
  (r ← createNCmpEQ 0 (OConst (ConstantInt 1)) (OConst (ConstantInt 1)) newIRHandler; createBNot 0 (fst r) (snd r)) = Raise AssertionFailure.
Proof. reflexivity. Qed.

(** Constant strings are compared by their text, others by whether they are
    empty. *)
Lemma folded_string_order :
  createSCmpLT 0 (OConst (ConstantString (str "a"))) (OConst (ConstantString (str "b"))) newIRHandler = Ok (OConst (ConstantInt 1), newIRHandler) ∧
  string_compare SCMPLT (str "a") (str "b") = false.
Proof. split; vm_compute; reflexivity. Qed.
