(* ===== verification/FlowLexer.v ===== *)
(** * The lexer of the configuration language

    [src/xzero-flow/FlowLexer.cc], [FlowToken.cc]: tokens from a stack of input
    streams, one per included file. A stream is what is left of it and its end-of-file
    bit, which reading or peeking at the end sets. Files and [glob] are
    parameters. *)
From Stdlib Require Import Ascii.
From stdpp Require Import gmap.
From S2P Require Import Prelude NetAddress HeaderFieldList Http1Parser.

(** ** Tokens *)

Module Tok.
Inductive FlowToken :=
  | Unknown
  | Boolean | Number | String | RawString | RegExp | IP | Cidr | NamedParam
  | InterpolatedStringFragment | InterpolatedStringEnd
  | Assign | OrAssign | AndAssign | PlusAssign | MinusAssign | MulAssign | DivAssign
  | Semicolon | Question | Colon | And | Or | Xor
  | Equal | UnEqual | Less | Greater | LessOrEqual | GreaterOrEqual
  | PrefixMatch | SuffixMatch | RegexMatch | In | HashRocket
  | Plus | Minus | Mul | Div | Mod | Shl | Shr | Comma | Pow
  | Not | BitNot | BitOr | BitAnd | BitXor
  | BrOpen | BrClose | RndOpen | RndClose | Begin | End
  | Var | Do | Handler | If | Then | Else | Unless | Match | On | For | Import | From
  | VoidType | BoolType | NumberType | StringType
  | Ident | Period | DblPeriod | Ellipsis | Comment | Eof.

Definition isKeyword (t : FlowToken) : bool :=
  match t with Var | On | For | Do | If | Match | Then | Else | Unless | Import | From | Handler => true | _ => false end.
Definition isReserved (t : FlowToken) : bool := false.
Definition isType (t : FlowToken) : bool := match t with VoidType | BoolType | NumberType | StringType => true | _ => false end.
Definition isOperator (t : FlowToken) : bool :=
  match t with
  | Assign | Question | And | Or | Xor | Equal | UnEqual | Less | Greater | LessOrEqual | GreaterOrEqual
  | PrefixMatch | SuffixMatch | RegexMatch | HashRocket | Plus | Minus | Mul | Div | Shl | Shr | Comma | Pow => true
  | _ => false
  end.
Definition isUnaryOp (t : FlowToken) : bool := match t with Minus | Not | BitNot => true | _ => false end.
Definition isPrimaryOp (t : FlowToken) : bool := false.
Definition isRelOp (t : FlowToken) : bool :=
  match t with
  | Equal | UnEqual | Less | Greater | LessOrEqual | GreaterOrEqual | PrefixMatch | SuffixMatch | RegexMatch => true
  | _ => false
  end.
Definition isLiteral (t : FlowToken) : bool :=
  match t with
  | InterpolatedStringFragment | Boolean | Number | String | RawString | RegExp | IP | Cidr | NamedParam => true
  | _ => false
  end.

Definition c_str (t : FlowToken) : bytes :=
  match t with
  | Unknown => str "Unknown" | Boolean => str "Boolean" | Number => str "Number" | String => str "String"
  | RawString => str "RawString" | RegExp => str "RegExp" | IP => str "IP" | Cidr => str "CIDR"
  | Assign => str "=" | OrAssign => str "|=" | AndAssign => str "&=" | PlusAssign => str "+="
  | MinusAssign => str "-=" | MulAssign => str "*=" | DivAssign => str "/=" | Semicolon => str ";"
  | Question => str "?" | Colon => str ":" | And => str "and" | Or => str "or" | Xor => str "xor"
  | Equal => str "==" | UnEqual => str "!=" | Less => str "<" | Greater => str ">" | LessOrEqual => str "<="
  | GreaterOrEqual => str ">=" | PrefixMatch => str "=^" | SuffixMatch => str "=$" | RegexMatch => str "=~"
  | HashRocket => str "=>" | In => str "in" | Plus => str "+" | Minus => str "-" | Mul => str "*" | Div => str "/"
  | Mod => str "%" | Shl => str "shl" | Shr => str "shr" | Comma => str "," | Pow => str "**" | Not => str "not"
  | BitNot => str "~" | BitOr => str "|" | BitAnd => str "&" | BitXor => str "^" | BrOpen => str "[" | BrClose => str "]"
  | RndOpen => str "(" | RndClose => str ")" | Begin => str "{" | End => str "}" | Var => str "var" | Do => str "do"
  | If => str "if" | Then => str "then" | Else => str "else" | Unless => str "unless" | Match => str "match" | On => str "on"
  | For => str "for" | Import => str "import" | From => str "from" | Handler => str "handler" | VoidType => str "void()"
  | BoolType => str "bool()" | NumberType => str "int()" | StringType => str "string()" | Ident => str "Ident"
  | Period => str "Period" | DblPeriod => str "DblPeriod" | Ellipsis => str "Ellipsis" | Comment => str "Comment"
  | Eof => str "EOF" | NamedParam => str "NamedParam"
  | InterpolatedStringFragment => str "InterpolatedStringFragment" | InterpolatedStringEnd => str "InterpolatedStringEnd"
  end.
End Tok.
#[export] Instance FlowToken_eq_dec : EqDecision Tok.FlowToken.
Proof. solve_decision. Defined.

(** ** Characters *)

Definition chr (a : Ascii.ascii) : Z := Z.of_N (Ascii.N_of_ascii a).
Arguments chr a%_char_scope.
Definition EOF : Z := -1.
Definition isalpha (c : Z) : bool := ((65 <=? c) && (c <=? 90)) || ((97 <=? c) && (c <=? 122)).
Definition isalnum (c : Z) : bool := isalpha c || isdigit c.

(** [unescape]; a backslash at the end is dropped. *)
Fixpoint unescape (s : bytes) : bytes :=
  match s with
  | [] => []
  | c :: s =>
      if c =? chr "\" then
        match s with
        | [] => []
        | d :: s =>
            (if d =? chr "\" then chr "\" else if d =? chr "r" then 13 else if d =? chr "n" then 10 else if d =? chr "t" then 9 else d)
              :: unescape s
        end
      else c :: unescape s
  end.

(** ** State *)

Record FilePos := mkPos { fp_line : Z; fp_column : Z; fp_offset : Z }.
Definition newPos : FilePos := mkPos 1 1 0.
Record FlowLocation := mkLocation { fl_filename : bytes; fl_begin : FilePos; fl_end : FilePos }.

Record LexScope := mkScope {
  sc_filename : bytes;
  sc_rest : bytes;
  sc_eofbit : bool;
  sc_currPos : FilePos;
  sc_nextPos : FilePos;
  sc_backupChar : Z;
}.

Record Lexer := mkLexer {
  lx_contexts : list LexScope;
  lx_char : Z;
  lx_ipv6HexDigits : nat;
  lx_lastLocation : FlowLocation;
  lx_location : FlowLocation;
  lx_token : Tok.FlowToken;
  lx_string : bytes;
  lx_ip : IPAddress;
  lx_number : Z;
  lx_depth : Z;
}.

Definition newLocation : FlowLocation := mkLocation [] newPos newPos.
(** [ip0] is the address the lexer is constructed with. *)
Definition newLexer (ip0 : IPAddress) : Lexer := mkLexer [] EOF 0 newLocation newLocation Tok.Eof [] ip0 0 0.

Definition lx_setContexts x l := mkLexer x (lx_char l) (lx_ipv6HexDigits l) (lx_lastLocation l) (lx_location l) (lx_token l) (lx_string l) (lx_ip l) (lx_number l) (lx_depth l).
Definition lx_setChar x l := mkLexer (lx_contexts l) x (lx_ipv6HexDigits l) (lx_lastLocation l) (lx_location l) (lx_token l) (lx_string l) (lx_ip l) (lx_number l) (lx_depth l).
Definition lx_setDigits x l := mkLexer (lx_contexts l) (lx_char l) x (lx_lastLocation l) (lx_location l) (lx_token l) (lx_string l) (lx_ip l) (lx_number l) (lx_depth l).
Definition lx_setLast x l := mkLexer (lx_contexts l) (lx_char l) (lx_ipv6HexDigits l) x (lx_location l) (lx_token l) (lx_string l) (lx_ip l) (lx_number l) (lx_depth l).
Definition lx_setLocation x l := mkLexer (lx_contexts l) (lx_char l) (lx_ipv6HexDigits l) (lx_lastLocation l) x (lx_token l) (lx_string l) (lx_ip l) (lx_number l) (lx_depth l).
Definition lx_setToken x l := mkLexer (lx_contexts l) (lx_char l) (lx_ipv6HexDigits l) (lx_lastLocation l) (lx_location l) x (lx_string l) (lx_ip l) (lx_number l) (lx_depth l).
Definition lx_setString x l := mkLexer (lx_contexts l) (lx_char l) (lx_ipv6HexDigits l) (lx_lastLocation l) (lx_location l) (lx_token l) x (lx_ip l) (lx_number l) (lx_depth l).
Definition lx_setIp x l := mkLexer (lx_contexts l) (lx_char l) (lx_ipv6HexDigits l) (lx_lastLocation l) (lx_location l) (lx_token l) (lx_string l) x (lx_number l) (lx_depth l).
Definition lx_setNumber x l := mkLexer (lx_contexts l) (lx_char l) (lx_ipv6HexDigits l) (lx_lastLocation l) (lx_location l) (lx_token l) (lx_string l) (lx_ip l) x (lx_depth l).
Definition lx_setDepth x l := mkLexer (lx_contexts l) (lx_char l) (lx_ipv6HexDigits l) (lx_lastLocation l) (lx_location l) (lx_token l) (lx_string l) (lx_ip l) (lx_number l) x.

(** A step of the lexer; [None] when the fuel of a loop has run out. *)
Definition Lx (A : Type) : Type := Lexer → option (result (A * Lexer)).
#[export] Instance Lx_ret : MRet Lx := λ A a l, Some (Ok (a, l)).
#[export] Instance Lx_bind : MBind Lx := λ A B f m l,
  match m l with Some (Ok (a, l)) => f a l | Some (Raise e) => Some (Raise e) | None => None end.
Definition lx_gets {A} (f : Lexer → A) : Lx A := λ l, Some (Ok (f l, l)).
Definition lx_modify (f : Lexer → Lexer) : Lx unit := λ l, Some (Ok ((), f l)).
Definition lx_raise {A} (e : exn) : Lx A := λ _, Some (Raise e).
Definition lx_stop {A} : Lx A := λ _, None.

(** [scope()]; there is none before a stream is opened. *)
Definition scope : Lx LexScope := λ l, match lx_contexts l with s :: _ => Some (Ok (s, l)) | [] => Some (Raise UndefinedBehaviour) end.
Definition set_scope (s : LexScope) : Lx unit :=
  lx_modify (λ l, match lx_contexts l with _ :: cs => lx_setContexts (s :: cs) l | [] => l end).

Definition currentChar : Lx Z := lx_gets lx_char.
Definition isHexChar : Lx bool := c ← currentChar; mret (isxdigit c).

(** ** Reading *)

(** [std::istream::peek] and [get]. *)
Definition peekChar : Lx Z :=
  s ← scope;
  match sc_rest s with
  | c :: _ => mret (if sc_eofbit s then EOF else c)
  | [] => _ ← set_scope (mkScope (sc_filename s) [] true (sc_currPos s) (sc_nextPos s) (sc_backupChar s)); mret EOF
  end.
Definition stream_get : Lx Z :=
  s ← scope;
  match sc_rest s with
  | c :: rest =>
      if sc_eofbit s then mret EOF
      else _ ← set_scope (mkScope (sc_filename s) rest false (sc_currPos s) (sc_nextPos s) (sc_backupChar s)); mret c
  | [] => _ ← set_scope (mkScope (sc_filename s) [] true (sc_currPos s) (sc_nextPos s) (sc_backupChar s)); mret EOF
  end.

Definition lx_eof : Lx bool :=
  c ← currentChar;
  if c =? EOF then mret true else s ← scope; mret (sc_eofbit s).

Definition leaveScope : Lx unit :=
  s ← scope;
  _ ← lx_modify (lx_setChar (sc_backupChar s));
  lx_modify (λ l, lx_setContexts (tail (lx_contexts l)) l).

Definition advance (p : FilePos) (c : Z) : FilePos :=
  if c =? 10 then mkPos (fp_line p + 1) 1 (fp_offset p + 1) else mkPos (fp_line p) (fp_column p + 1) (fp_offset p + 1).

Definition nextChar : Lx Z :=
  c ← currentChar;
  if c =? EOF then mret c
  else
    s ← scope;
    _ ← lx_modify (λ l, lx_setLocation (mkLocation (fl_filename (lx_location l)) (fl_begin (lx_location l)) (sc_currPos s)) l);
    _ ← set_scope (mkScope (sc_filename s) (sc_rest s) (sc_eofbit s) (sc_nextPos s) (sc_nextPos s) (sc_backupChar s));
    ch ← stream_get;
    if ch =? EOF then
      _ ← lx_modify (lx_setChar EOF);
      n ← lx_gets (λ l, length (lx_contexts l));
      _ ← (if (1 <? n)%nat then leaveScope else mret ());
      currentChar
    else
      _ ← lx_modify (lx_setChar ch);
      s ← scope;
      _ ← set_scope (mkScope (sc_filename s) (sc_rest s) (sc_eofbit s) (sc_currPos s) (advance (sc_nextPos s) ch) (sc_backupChar s));
      mret ch.

Definition consume (ch : Z) : Lx bool := c ← currentChar; _ ← nextChar; mret (c =? ch).

Definition enterStream (filename content : bytes) : Lx unit :=
  c ← currentChar;
  _ ← lx_modify (λ l, lx_setContexts (mkScope filename content false newPos newPos c :: lx_contexts l) l);
  _ ← lx_modify (lx_setChar 0);
  _ ← nextChar;
  mret ().

(** ** Comments and commands *)

Section environment.
Context (glob : bytes → option (list bytes)) (read_file : bytes → option bytes) (inet_pton : Z → bytes → option bytes).

(** An exception of [errno] when the file cannot be read. *)
Definition enterFile (filename : bytes) : Lx unit :=
  match read_file filename with Some content => enterStream filename content | None => lx_raise RuntimeError end.

Fixpoint enterFiles (filenames : list bytes) : Lx unit :=
  match filenames with [] => mret () | f :: fs => _ ← enterFile f; enterFiles fs end.

Fixpoint index_of (c : Z) (s : bytes) : option nat :=
  match s with [] => None | x :: s => if x =? c then Some 0%nat else S <$> index_of c s end.
Definition rindex_of (c : Z) (s : bytes) : option nat := (λ k, (length s - 1 - k)%nat) <$> index_of c (rev s).
(** A C string ends at the first zero byte. *)
Definition cut_zero (s : bytes) : bytes := match index_of 0 s with Some n => take n s | None => s end.

Definition processCommand (line : bytes) : Lx unit :=
  if negb (bool_decide (take 7 (cut_zero line) = str "include")) then mret ()
  else
    match index_of 34 line, rindex_of 34 line with
    | Some b, Some e =>
        let pattern := if (b =? e)%nat then drop (S b) line else take (e - b - 1) (drop (S b) line) in
        match glob (cut_zero pattern) with
        | Some files => enterFiles (rev files)
        | None => mret ()
        end
    | _, _ => mret ()
    end.

(** [fuel] bounds the turns of every loop. *)
Context (fuel : nat).

Fixpoint skip_blanks (n : nat) : Lx bool :=
  match n with
  | O => lx_stop
  | S n =>
      e ← lx_eof;
      if e : bool then mret false
      else
        c ← currentChar;
        if negb (isspace c) && isprint c then mret true else _ ← nextChar; skip_blanks n
  end.

(** To the end of the line; whether that is the end of the file. *)
Fixpoint comment_line (n : nat) (line : bytes) : Lx (bytes * bool) :=
  match n with
  | O => lx_stop
  | S n =>
      e ← lx_eof;
      if e : bool then mret (line, true)
      else
        c ← currentChar;
        if c =? 10 then mret (line, false) else _ ← nextChar; comment_line n (line ++ [c])
  end.

Fixpoint comment_block (n : nat) : Lx bool :=
  match n with
  | O => lx_stop
  | S n =>
      e ← lx_eof;
      if e : bool then mret false
      else
        c ← currentChar;
        closes ← (if c =? chr "*" then p ← peekChar; mret (p =? chr "/") else mret false);
        if closes : bool then _ ← nextChar; _ ← nextChar; mret true else _ ← nextChar; comment_block n
  end.

Definition setToken (t : Tok.FlowToken) : Lx Tok.FlowToken := _ ← lx_modify (lx_setToken t); mret t.

Fixpoint consumeSpace_loop (n : nat) : Lx bool :=
  match n with
  | O => lx_stop
  | S n =>
      pending ← skip_blanks fuel;
      e ← (if pending : bool then lx_eof else mret true);
      if e : bool then mret false
      else
        c ← currentChar;
        if c =? chr "#" then
          s ← scope;
          let maybeCommand := fp_column (sc_currPos s) =? 1 in
          _ ← nextChar;
          r ← comment_line fuel [];
          let '(line, ended) := r in
          _ ← (if ended : bool then lx_modify (lx_setToken Tok.Eof) else mret ());
          _ ← (if maybeCommand then processCommand line else mret ());
          if ended : bool then t ← lx_gets lx_token; mret (negb (bool_decide (t = Tok.Eof))) else consumeSpace_loop n
        else
          opens ← (if c =? chr "/" then p ← peekChar; mret (p =? chr "*") else mret false);
          if opens : bool then
            _ ← nextChar;
            closed ← comment_block fuel;
            if closed : bool then consumeSpace_loop n else _ ← setToken Tok.Eof; mret false
          else mret true
  end.
Definition consumeSpace : Lx bool := consumeSpace_loop fuel.

(** ** Literals *)

Definition addString (s : bytes) : Lx unit := lx_modify (λ l, lx_setString (lx_string l ++ s) l).
Definition clearString : Lx unit := lx_modify (lx_setString []).

(** The characters that satisfy [p] are added to the text. *)
Fixpoint collect (p : Z → bool) (n : nat) : Lx unit :=
  match n with
  | O => lx_stop
  | S n => c ← currentChar; if p c then _ ← addString [c]; _ ← nextChar; collect p n else mret ()
  end.

(** To the delimiter; a backslash before it hides it. *)
Fixpoint until_delimiter (delim : Z) (n : nat) (last : Z) : Lx unit :=
  match n with
  | O => lx_stop
  | S n =>
      e ← lx_eof; c ← currentChar;
      if negb e && (negb (c =? delim) || (last =? chr "\")) then _ ← addString [c]; _ ← nextChar; until_delimiter delim n c
      else mret ()
  end.

Definition lx_parseString (result : Tok.FlowToken) : Lx Tok.FlowToken :=
  delim ← currentChar;
  _ ← nextChar;
  _ ← clearString;
  _ ← until_delimiter delim fuel (-1);
  c ← currentChar;
  if c =? delim then _ ← nextChar; setToken result else setToken Tok.Unknown.

Definition parseRawString : Lx Tok.FlowToken :=
  result ← lx_parseString Tok.String;
  _ ← (if bool_decide (result = Tok.String) then lx_modify (λ l, lx_setString (unescape (lx_string l)) l) else mret ());
  mret result.

Definition continueParseRegEx (delim : Z) : Lx bool :=
  _ ← clearString;
  _ ← until_delimiter delim fuel (-1);
  c ← currentChar;
  if c =? delim then _ ← nextChar; _ ← setToken Tok.RegExp; mret true else _ ← setToken Tok.Unknown; mret false.

Fixpoint interpolation_loop (start : bool) (n : nat) (last : Z) : Lx Tok.FlowToken :=
  match n with
  | O => lx_stop
  | S n =>
      e ← lx_eof;
      if e : bool then setToken Tok.Eof
      else
        c ← currentChar;
        if (c =? 34) && negb (last =? chr "\") then
          _ ← nextChar;
          _ ← lx_modify (λ l, lx_setDepth (lx_depth l - 1) l);
          setToken (if start then Tok.String else Tok.InterpolatedStringEnd)
        else if c =? chr "\" then
          _ ← nextChar;
          e ← lx_eof;
          if e : bool then setToken Tok.Eof
          else
            d ← currentChar;
            _ ← addString (if d =? chr "r" then [13] else if d =? chr "n" then [10] else if d =? chr "t" then [9]
                           else if d =? chr "\" then [chr "\"] else [chr "\"; d]);
            _ ← nextChar;
            interpolation_loop start n d
        else if c =? chr "#" then
          d ← nextChar;
          if d =? chr "{" then _ ← nextChar; setToken Tok.InterpolatedStringFragment
          else _ ← addString [chr "#"; u8 d]; _ ← nextChar; interpolation_loop start n d
        else _ ← addString [c]; _ ← nextChar; interpolation_loop start n c
  end.
Definition parseInterpolationFragment (start : bool) : Lx Tok.FlowToken :=
  _ ← clearString; _ ← nextChar; interpolation_loop start fuel (-1).

(** A digit at the end of [numberValue_]; the overflow is undefined, and kept
    apart from the access to a scope that is not there. *)
Definition addDigit (base c : Z) : Lx unit :=
  n ← lx_gets lx_number;
  let z := n * base + (c - 48) in
  if z <? 2 ^ 63 then lx_modify (lx_setNumber z) else lx_raise SignedOverflow.
Fixpoint number_loop (base : Z) (n : nat) : Lx unit :=
  match n with
  | O => lx_stop
  | S n =>
      c ← currentChar;
      if (48 <=? c) && (c - 48 <? base) then _ ← addDigit base c; _ ← addString [c]; _ ← nextChar; number_loop base n
      else mret ()
  end.

(** ** Addresses *)

Definition setIp (family : Z) : Lx bool :=
  l ← lx_gets id;
  let '(ip, ok) := ip_set inet_pton (lx_ip l) (lx_string l) family in
  _ ← lx_modify (lx_setIp ip); mret ok.

Definition continueCidr (range : Z) : Lx Tok.FlowToken :=
  _ ← nextChar;
  c ← currentChar;
  if negb (isdigit c) then setToken Tok.Unknown
  else
    _ ← lx_modify (lx_setNumber 0);
    _ ← number_loop 10 fuel;
    n ← lx_gets lx_number;
    setToken (if range <? n then Tok.Unknown else Tok.Cidr).

Fixpoint hex_digits (n : nat) (i : nat) : Lx nat :=
  match n with
  | O => lx_stop
  | S n => h ← isHexChar; if h : bool then c ← currentChar; _ ← addString [c]; _ ← nextChar; hex_digits n (S i) else mret i
  end.
Definition ipv6HexDigit4 : Lx bool :=
  start ← lx_gets lx_ipv6HexDigits;
  i ← hex_digits fuel start;
  _ ← lx_modify (lx_setDigits 0);
  mret ((1 <=? i) && (i <=? 4))%nat.

(** Whether a single colon, respectively two, come next. *)
Definition single_colon : Lx bool := c ← currentChar; if c =? chr ":" then p ← peekChar; mret (negb (p =? chr ":")) else mret false.
Definition double_colon : Lx bool := c ← currentChar; if c =? chr ":" then p ← peekChar; mret (p =? chr ":") else mret false.

(** [*(':' 1*4HEXDIGIT)]. *)
Fixpoint hex_groups (n : nat) : Lx bool :=
  match n with
  | O => lx_stop
  | S n =>
      more ← single_colon;
      if more : bool then
        _ ← addString [chr ":"]; _ ← nextChar;
        ok ← ipv6HexDigit4;
        if ok : bool then hex_groups n else mret false
      else mret true
  end.
Definition ipv6HexSeq : Lx bool := ok ← ipv6HexDigit4; if ok : bool then hex_groups fuel else mret false.

(** The sequence behind [::], if there is one. *)
Definition hex_tail : Lx bool := _ ← nextChar; _ ← nextChar; h ← isHexChar; if h : bool then ipv6HexSeq else mret true.

Definition ipv6HexPart : Lx bool :=
  double ← double_colon;
  rv ← (if double : bool then _ ← lx_modify (lx_setString (str "::")); hex_tail
        else
          rv ← ipv6HexSeq;
          if rv : bool then
            double ← double_colon;
            if double : bool then _ ← addString (str "::"); hex_tail else mret true
          else mret false);
  c ← currentChar;
  mret (rv && negb (isalnum c || (c =? chr ":"))).

(** The digits of an IPv4 address behind the colons. *)
Fixpoint embedded_ipv4 (n : nat) : Lx unit :=
  match n with
  | O => lx_stop
  | S n =>
      c ← currentChar;
      more ← (if c =? chr "." then p ← peekChar; mret (isdigit p) else mret false);
      if more : bool then _ ← addString [chr "."]; _ ← nextChar; _ ← collect isdigit fuel; embedded_ipv4 n else mret ()
  end.

Definition finish_ipv6 (rv : bool) : Lx Tok.FlowToken :=
  _ ← embedded_ipv4 fuel;
  if negb rv then setToken Tok.Unknown
  else
    ok ← setIp AF_INET6;
    if negb ok then setToken Tok.Unknown
    else c ← currentChar; if negb (c =? chr "/") then setToken Tok.IP else continueCidr 128.

(** A group that is no group returns [false], which is [Unknown], and leaves
    [token_] as it was. *)
Definition continueParseIPv6 (firstComplete : bool) : Lx Tok.FlowToken :=
  if firstComplete then
    ok ← hex_groups fuel;
    if negb ok then mret Tok.Unknown
    else
      double ← double_colon;
      rv ← (if double : bool then _ ← addString (str "::"); hex_tail else mret true);
      finish_ipv6 rv
  else
    _ ← lx_modify (λ l, lx_setDigits (length (lx_string l)) l);
    rv ← ipv6HexPart;
    finish_ipv6 rv.

(** A part of an IPv4 address: a dot and digits. *)
Definition ipv4_part : Lx bool :=
  dot ← consume (chr ".");
  if dot : bool then _ ← addString [chr "."]; _ ← collect isdigit fuel; mret true else mret false.

Definition parseNumber (base : Z) : Lx Tok.FlowToken :=
  _ ← clearString;
  _ ← lx_modify (lx_setNumber 0);
  _ ← number_loop base fuel;
  c ← currentChar;
  size ← lx_gets (λ l, length (lx_string l));
  if (size <=? 4)%nat && (c =? chr ":") then continueParseIPv6 true
  else if (size <? 4)%nat && isxdigit c then continueParseIPv6 false
  else if negb (c =? chr ".") then setToken Tok.Number
  else
    _ ← addString [chr "."]; _ ← nextChar; _ ← collect isdigit fuel;
    third ← ipv4_part;
    if negb third then setToken Tok.Unknown
    else
      fourth ← ipv4_part;
      if negb fourth then setToken Tok.Unknown
      else
        _ ← setIp AF_INET;
        c ← currentChar;
        if negb (c =? chr "/") then setToken Tok.IP else continueCidr 32.

(** ** Words *)

Definition keywords : list (bytes * Tok.FlowToken) :=
  [(str "in", Tok.In); (str "var", Tok.Var); (str "match", Tok.Match); (str "on", Tok.On); (str "for", Tok.For);
   (str "do", Tok.Do); (str "if", Tok.If); (str "then", Tok.Then); (str "else", Tok.Else); (str "unless", Tok.Unless);
   (str "import", Tok.Import); (str "from", Tok.From); (str "handler", Tok.Handler); (str "and", Tok.And); (str "or", Tok.Or);
   (str "xor", Tok.Xor); (str "not", Tok.Not); (str "shl", Tok.Shl); (str "shr", Tok.Shr); (str "bool", Tok.BoolType);
   (str "int", Tok.NumberType); (str "string", Tok.StringType)].
Fixpoint find_keyword (ks : list (bytes * Tok.FlowToken)) (s : bytes) : option Tok.FlowToken :=
  match ks with [] => None | (k, t) :: ks => if bool_decide (k = s) then Some t else find_keyword ks s end.

Definition is_word (c : Z) : bool := isalnum c || (c =? chr "_") || (c =? chr ".").
Fixpoint word_loop (n : nat) (isHex : bool) : Lx bool :=
  match n with
  | O => lx_stop
  | S n =>
      c ← currentChar;
      if is_word c then _ ← addString [c]; _ ← nextChar; word_loop n (isHex && isxdigit c) else mret isHex
  end.

Definition parseIdent : Lx Tok.FlowToken :=
  c ← currentChar;
  _ ← lx_modify (lx_setString [c]);
  _ ← nextChar;
  isHex ← word_loop fuel (isxdigit c);
  c ← currentChar;
  s ← lx_gets lx_string;
  if (c =? chr ":") && negb isHex then _ ← nextChar; mret Tok.NamedParam
  else if (length s <=? 4)%nat && isHex && (c =? chr ":") then continueParseIPv6 true
  else if (length s <? 4)%nat && isHex && isxdigit c then continueParseIPv6 false
  else match find_keyword keywords s with
       | Some t => setToken t
       | None =>
           if bool_decide (s = str "true") || bool_decide (s = str "yes") then _ ← lx_modify (lx_setNumber 1); setToken Tok.Boolean
           else if bool_decide (s = str "false") || bool_decide (s = str "no") then _ ← lx_modify (lx_setNumber 0); setToken Tok.Boolean
           else setToken Tok.Ident
       end.

(** ** Tokens *)

(** One character, then one of the characters that make a longer token of it. *)
Definition token1 (t : Tok.FlowToken) : Lx Tok.FlowToken := _ ← nextChar; setToken t.
Fixpoint token2 (c : Z) (longer : list (Z * Tok.FlowToken)) (t : Tok.FlowToken) : Lx Tok.FlowToken :=
  match longer with
  | [] => setToken t
  | (d, t') :: longer => if c =? d then token1 t' else token2 c longer t
  end.

(** The token that begins with [c]; behind [*] the lexer calls itself. *)
Definition scanToken (again : Lx Tok.FlowToken) (c : Z) : Lx Tok.FlowToken :=
  if c =? chr "~" then token1 Tok.BitNot
  else if c =? chr "=" then
    d ← nextChar;
    token2 d [(chr "=", Tok.Equal); (chr "^", Tok.PrefixMatch); (chr "$", Tok.SuffixMatch); (chr "~", Tok.RegexMatch); (chr ">", Tok.HashRocket)] Tok.Assign
  else if c =? chr "<" then d ← nextChar; token2 d [(chr "<", Tok.Shl); (chr "=", Tok.LessOrEqual)] Tok.Less
  else if c =? chr ">" then d ← nextChar; token2 d [(chr ">", Tok.Shr); (chr "=", Tok.GreaterOrEqual)] Tok.Greater
  else if c =? chr "^" then token1 Tok.BitXor
  else if c =? chr "|" then d ← nextChar; token2 d [(chr "|", Tok.Or); (chr "=", Tok.OrAssign)] Tok.BitOr
  else if c =? chr "&" then d ← nextChar; token2 d [(chr "&", Tok.And); (chr "=", Tok.AndAssign)] Tok.BitAnd
  else if c =? chr "." then
    d ← nextChar;
    if d =? chr "." then d ← nextChar; token2 d [(chr ".", Tok.Ellipsis)] Tok.DblPeriod else setToken Tok.Period
  else if c =? chr ":" then
    p ← peekChar;
    if p =? chr ":" then _ ← clearString; continueParseIPv6 false else token1 Tok.Colon
  else if c =? chr ";" then token1 Tok.Semicolon
  else if c =? chr "," then token1 Tok.Comma
  else if c =? chr "{" then token1 Tok.Begin
  else if c =? chr "}" then
    d ← lx_gets lx_depth;
    if negb (d =? 0) then t ← parseInterpolationFragment false; setToken t else token1 Tok.End
  else if c =? chr "(" then token1 Tok.RndOpen
  else if c =? chr ")" then token1 Tok.RndClose
  else if c =? chr "[" then token1 Tok.BrOpen
  else if c =? chr "]" then token1 Tok.BrClose
  else if c =? chr "+" then token1 Tok.Plus
  else if c =? chr "-" then token1 Tok.Minus
  else if c =? chr "*" then
    d ← nextChar;
    if d =? chr "*" then _ ← again; setToken Tok.Pow else setToken Tok.Mul
  else if c =? chr "/" then token1 Tok.Div
  else if c =? chr "%" then token1 Tok.Mod
  else if c =? chr "!" then d ← nextChar; token2 d [(chr "=", Tok.UnEqual)] Tok.Not
  else if c =? chr "'" then t ← parseRawString; setToken t
  else if c =? 34 then
    _ ← lx_modify (λ l, lx_setDepth (lx_depth l + 1) l);
    t ← parseInterpolationFragment true; setToken t
  else if c =? chr "0" then parseNumber 8
  else if isdigit c then parseNumber 10
  else if isalpha c || (c =? chr "_") then t ← parseIdent; setToken t
  else token1 Tok.Unknown.

Fixpoint nextToken_loop (n : nat) : Lx Tok.FlowToken :=
  match n with
  | O => lx_stop
  | S n =>
      pending ← consumeSpace;
      if negb pending then setToken Tok.Eof
      else
        s ← scope;
        _ ← lx_modify (λ l, lx_setLocation (mkLocation (sc_filename s) (sc_currPos s) (fl_end (lx_location l))) (lx_setLast (lx_location l) l));
        c ← currentChar;
        scanToken (nextToken_loop n) c
  end.
Definition lx_nextToken : Lx Tok.FlowToken := nextToken_loop fuel.

Definition openStream (content filename : bytes) : Lx unit := _ ← enterStream filename content; _ ← lx_nextToken; mret ().
Definition openString (content : bytes) : Lx unit := openStream content (str "<string>").
Definition openLocalFile (filename : bytes) : Lx unit := _ ← enterFile filename; _ ← lx_nextToken; mret ().

(** What the calls of [nextToken] return up to the end, with the text and the number of each
    token. *)
Fixpoint tokens (n : nat) : Lx (list (Tok.FlowToken * bytes * Z)) :=
  match n with
  | O => lx_stop
  | S n =>
      t ← lx_nextToken;
      if bool_decide (t = Tok.Eof) then mret []
      else s ← lx_gets lx_string; v ← lx_gets lx_number; ts ← tokens n; mret ((t, s, v) :: ts)
  end.
Definition lex_source (content : bytes) : Lx (list (Tok.FlowToken * bytes * Z)) := _ ← enterStream (str "<string>") content; tokens fuel.
End environment.
