(* ===== verification/FlowLexerSafety.v ===== *)
(** * The lexer ends

    On a source without included files every call of [nextToken] ends, and each
    token but the last takes something of the source; the only error is a number
    that does not fit. *)
From Stdlib Require Import Ascii.
From stdpp Require Import gmap.
From S2P Require Import Prelude NetAddress HeaderFieldList Http1Parser FlowLexer.
Local Open Scope nat_scope.

(** ** What is left to read *)

Definition stream_size (s : LexScope) : nat := S (length (sc_rest s)).
Definition unread (l : Lexer) : nat := sum_list_with stream_size (lx_contexts l) + (if (lx_char l =? EOF)%Z then 0 else 1).

(** A lexer with a stream, and at most [m] left to read. *)
Definition at_most (m : nat) (l : Lexer) : Prop := lx_contexts l ≠ [] ∧ unread l ≤ m.

Lemma at_most_le m m' l : at_most m l → m ≤ m' → at_most m' l.
Proof. intros [H1 H2] H. split; [done|lia]. Qed.

(** With at most [m] to read and a current character that satisfies [P], the step ends and
    leaves at most [Q a] for its result [a]. *)
Definition ends_on {A} (P : Z → Prop) (m : nat) (Q : A → nat) (c : Lx A) : Prop :=
  ∀ l, P (lx_char l) → at_most m l →
  match c l with
  | Some (Ok (a, l')) => at_most (Q a) l'
  | Some (Raise e) => e = SignedOverflow
  | None => False
  end.
Abbreviation any := (λ _ : Z, True).

Lemma ends_chain {A B} P m (Q : A → nat) (R : B → nat) (c : Lx A) (f : A → Lx B) :
  ends_on P m Q c → (∀ a, ends_on any (Q a) R (f a)) → ends_on P m R (x ← c; f x).
Proof.
  intros Hc Hf l Hl Hm. specialize (Hc l Hl Hm). unfold mbind, Lx_bind.
  destruct (c l) as [[[a l1]|e]|]; [by apply Hf|done|done].
Qed.

Lemma ends_weaken {A} (P P' : Z → Prop) m m' (Q Q' : A → nat) (c : Lx A) :
  ends_on P' m' Q' c → (∀ x, P x → P' x) → m ≤ m' → (∀ a, Q' a ≤ Q a) → ends_on P m Q c.
Proof.
  intros H Hp Hm Hq l Hl Hg. specialize (H l (Hp _ Hl) (at_most_le _ _ _ Hg Hm)).
  destruct (c l) as [[[a l1]|e]|]; try done. by eapply at_most_le.
Qed.

Lemma ends_ret {A} P m (Q : A → nat) a : m ≤ Q a → ends_on P m Q (mret a).
Proof. intros H l _ Hg. by eapply at_most_le. Qed.

(** Steps that read nothing. *)
Definition keeps_input (f : Lexer → Lexer) : Prop := ∀ l, lx_contexts (f l) = lx_contexts l ∧ lx_char (f l) = lx_char l.

Lemma ends_modify {B} P m (Q : B → nat) f (k : Lx B) : keeps_input f → ends_on P m Q k → ends_on P m Q (_ ← lx_modify f; k).
Proof.
  intros Hf Hk l Hl [H1 H2]. destruct (Hf l) as [E1 E2]. apply Hk; [by rewrite E2|]. split; [by rewrite E1|]. unfold unread. by rewrite E1, E2.
Qed.

Lemma ends_modify_last P m (Q : unit → nat) f : keeps_input f → m ≤ Q () → ends_on P m Q (lx_modify f).
Proof.
  intros Hf Hm l Hl [H1 H2]. destruct (Hf l) as [E1 E2]. cbn. split; [by rewrite E1|]. unfold unread in *. rewrite E1, E2. lia.
Qed.

Lemma ends_gets {A B} P m (Q : B → nat) (g : Lexer → A) (k : A → Lx B) : (∀ a, ends_on P m Q (k a)) → ends_on P m Q (x ← lx_gets g; k x).
Proof. intros Hk l Hl Hg. by apply Hk. Qed.

Lemma ends_char {B} P m (Q : B → nat) (k : Z → Lx B) : (∀ c, P c → ends_on (λ x, x = c) m Q (k c)) → ends_on P m Q (c ← currentChar; k c).
Proof. intros Hk l Hl Hg. by apply (Hk (lx_char l)). Qed.

Lemma ends_raise {A} P m (Q : A → nat) : ends_on P m Q (lx_raise SignedOverflow).
Proof. done. Qed.

Lemma ends_scope {B} P m (Q : B → nat) (k : LexScope → Lx B) : (∀ s, ends_on P m Q (k s)) → ends_on P m Q (s ← scope; k s).
Proof. intros Hk l Hl Hg. unfold mbind, Lx_bind, scope. destruct (lx_contexts l) as [|s cs] eqn:E; [by destruct Hg|]. by apply Hk. Qed.

(** [peekChar] may set the end-of-file bit only. *)
Lemma peek_spec l : lx_contexts l ≠ [] →
  ∃ p l', peekChar l = Some (Ok (p, l')) ∧ lx_char l' = lx_char l ∧ lx_contexts l' ≠ [] ∧ unread l' = unread l ∧ peekChar l' = Some (Ok (p, l')).
Proof.
  intros Hc. destruct (lx_contexts l) as [|s cs] eqn:E; [done|].
  destruct (sc_rest s) as [|c rest] eqn:Er.
  - unfold peekChar, scope, mbind, Lx_bind. rewrite E, Er. cbn. rewrite E. eexists _, _. split; [done|]. split_and!; try done.
    unfold unread. cbn. rewrite E. cbn. unfold stream_size. cbn. by rewrite Er.
  - unfold peekChar, scope, mbind, Lx_bind. rewrite E, Er. cbn. eexists _, _. split; [done|]. rewrite E, Er. done.
Qed.

Lemma ends_peek {B} P m (Q : B → nat) (k : Z → Lx B) : (∀ p, ends_on P m Q (k p)) → ends_on P m Q (p ← peekChar; k p).
Proof.
  intros Hk l Hl [H1 H2]. destruct (peek_spec l H1) as (p & l' & E & Ec & Hne & Hu & _). unfold mbind, Lx_bind. rewrite E.
  apply Hk; [by rewrite Ec|]. split; [done|lia].
Qed.

Lemma ends_eof {B} P m (Q : B → nat) (k : bool → Lx B) :
  ends_on P m Q (k true) → ends_on (λ c, P c ∧ c ≠ EOF) m Q (k false) → ends_on P m Q (e ← lx_eof; k e).
Proof.
  intros Ht Hf l Hl [H1 H2]. unfold mbind, Lx_bind, lx_eof, currentChar, lx_gets. cbn. unfold mbind, Lx_bind. cbn.
  destruct (Z.eqb_spec (lx_char l) EOF) as [E|E]; [by apply Ht|]. unfold scope. destruct (lx_contexts l) as [|s cs] eqn:Ec; [done|].
  cbn. assert (at_most m l) by (split; [by rewrite Ec|done]). destruct (sc_eofbit s); [by apply Ht|by apply Hf].
Qed.

(** [nextChar] takes one character, unless there is none. *)
Lemma nextChar_spec l : lx_contexts l ≠ [] →
  ∃ c l', nextChar l = Some (Ok (c, l')) ∧ c = lx_char l' ∧ lx_contexts l' ≠ [] ∧ unread l' ≤ unread l ∧ (lx_char l ≠ EOF → unread l' < unread l).
Proof.
  intros Hc. destruct (lx_contexts l) as [|s cs] eqn:E; [done|].
  destruct (Z.eqb_spec (lx_char l) EOF) as [Ec|Ec].
  { exists (lx_char l), l. split_and!; [|done|by rewrite E|lia|done]. unfold nextChar, currentChar, lx_gets, mbind, Lx_bind. by rewrite (proj2 (Z.eqb_eq _ _) Ec). }
  unfold nextChar, stream_get, leaveScope, set_scope, scope, currentChar, lx_gets, lx_modify, mbind, Lx_bind, mret, Lx_ret.
  rewrite (proj2 (Z.eqb_neq _ _) Ec), E. cbn. rewrite E. destruct s as [name rest eb cur nxt back].
  unfold unread. rewrite E, (proj2 (Z.eqb_neq _ _) Ec). cbn [sum_list_with].
  destruct rest as [|c rest]; [|destruct eb; [|destruct (Z.eqb_spec c EOF) as [->|Hne]]]; cbn;
    rewrite ?(proj2 (Z.eqb_neq _ _) Hne); try (destruct cs as [|s2 cs]); cbn; (eexists _, _; split; [reflexivity|]); (split; [done|]); cbn; unfold stream_size; cbn;
    rewrite ?(proj2 (Z.eqb_neq _ _) Hne); (split; [done|]); try (destruct (back =? EOF)%Z); lia.
Qed.

Lemma ends_next {B} P m (Q : B → nat) (k : Z → Lx B) : (∀ c, ends_on (λ x, x = c) m Q (k c)) → ends_on P m Q (c ← nextChar; k c).
Proof.
  intros Hk l Hl [H1 H2]. destruct (nextChar_spec l H1) as (c & l' & E & Ec & Hne & Hu & _). unfold mbind, Lx_bind. rewrite E.
  apply Hk; [done|]. split; [done|lia].
Qed.

Lemma ends_next_strict {B} (P : Z → Prop) m (Q : B → nat) (k : Z → Lx B) :
  (∀ c, P c → c ≠ EOF) → (∀ c, ends_on (λ x, x = c) m Q (k c)) → ends_on P (S m) Q (c ← nextChar; k c).
Proof.
  intros Hp Hk l Hl [H1 H2]. destruct (nextChar_spec l H1) as (c & l' & E & Ec & Hne & _ & Hu). unfold mbind, Lx_bind. rewrite E.
  apply Hk; [done|]. split; [done|]. specialize (Hu (Hp _ Hl)). lia.
Qed.

Lemma ends_zero {A} P (Q : A → nat) (c : Lx A) : ends_on P 0 Q c.
Proof.
  intros l _ [H1 H2]. unfold unread in H2. destruct (lx_contexts l); [done|]. cbn in H2. unfold stream_size in H2. lia.
Qed.

(** A loop reads a character in every turn. *)
Lemma ends_some {A} P m (Q : A → nat) (c : Lx A) : (∀ m', m = S m' → ends_on P m Q c) → ends_on P m Q c.
Proof. destruct m as [|m']; intros H; [apply ends_zero|by apply (H m')]. Qed.

Lemma keeps_string s : keeps_input (λ l, lx_setString (lx_string l ++ s) l).
Proof. done. Qed.
Lemma keeps_setString s : keeps_input (lx_setString s).
Proof. done. Qed.
Lemma keeps_setToken t : keeps_input (lx_setToken t).
Proof. done. Qed.
Lemma keeps_setNumber n : keeps_input (lx_setNumber n).
Proof. done. Qed.
Lemma keeps_setDigits n : keeps_input (lx_setDigits n).
Proof. done. Qed.
Lemma keeps_setIp a : keeps_input (lx_setIp a).
Proof. done. Qed.
Lemma keeps_depth d : keeps_input (λ l, lx_setDepth (lx_depth l + d)%Z l).
Proof. done. Qed.
Create HintDb lexer.
#[export] Hint Resolve keeps_string keeps_setString keeps_setToken keeps_setNumber keeps_setDigits keeps_setIp keeps_depth : lexer.

Lemma ends_any {A} P m (Q : A → nat) (c : Lx A) : ends_on any m Q c → ends_on P m Q c.
Proof. intros H. by eapply ends_weaken. Qed.

Lemma ends_setToken P m (Q : Tok.FlowToken → nat) t : m ≤ Q t → ends_on P m Q (setToken t).
Proof. intros H. unfold setToken. apply ends_modify; [done|]. by apply ends_ret. Qed.

Lemma ends_addString {B} P m (Q : B → nat) s (k : Lx B) : ends_on P m Q k → ends_on P m Q (_ ← addString s; k).
Proof. intros H. unfold addString. by apply ends_modify. Qed.

(** Not the end of the file. *)
Lemma ne_eof (p : Z → bool) c : p c = true → p EOF = false → c ≠ EOF.
Proof. intros H1 H2 ->. congruence. Qed.

(** ** Loops *)

(** The next turn has one character less to read. *)
Ltac by_induction IH m := eapply (ends_weaken _ any m m); [apply IH; lia|done|lia|intros; lia].

Lemma skip_blanks_ends P m n : m < n → ends_on P m (λ _, m) (skip_blanks n).
Proof.
  revert P m. induction n as [|n IH]; intros P m Hn; [lia|]. cbn [skip_blanks]. apply ends_eof; [by apply ends_ret|].
  apply ends_char. intros c [_ Hc]. destruct (_ && _); [by apply ends_ret|]. apply ends_some. intros m' ->.
  apply ends_next_strict; [by intros ? ->|]. intros d. by_induction IH m'.
Qed.

Lemma comment_line_ends P m n line : m < n → ends_on P m (λ _, m) (comment_line n line).
Proof.
  revert P m line. induction n as [|n IH]; intros P m line Hn; [lia|]. cbn [comment_line]. apply ends_eof; [by apply ends_ret|].
  apply ends_char. intros c [_ Hc]. destruct (c =? 10)%Z; [by apply ends_ret|]. apply ends_some. intros m' ->.
  apply ends_next_strict; [by intros ? ->|]. intros d. by_induction IH m'.
Qed.

(** A test that may peek. *)
Lemma ends_test {B} P m (Q : B → nat) (b : bool) (f : Z → bool) (k : bool → Lx B) :
  (∀ r, ends_on P m Q (k r)) → ends_on P m Q (r ← (if b then p ← peekChar; mret (f p) else mret false); k r).
Proof.
  intros Hk l Hl [H1 H2]. destruct b.
  - destruct (peek_spec l H1) as (p & l' & E & Ec & Hne & Hu & _). unfold mbind, Lx_bind, mret, Lx_ret. rewrite E.
    apply Hk; [by rewrite Ec|]. split; [done|lia].
  - by apply Hk.
Qed.

Lemma comment_block_ends P m n : m < n → ends_on P m (λ _, m) (comment_block n).
Proof.
  revert P m. induction n as [|n IH]; intros P m Hn; [lia|]. cbn [comment_block]. apply ends_eof; [by apply ends_ret|].
  apply ends_char. intros c [_ Hc]. apply ends_test. intros [|].
  - apply ends_next. intros d. apply ends_next. intros e. by apply ends_ret.
  - apply ends_some. intros m' ->. apply ends_next_strict; [by intros ? ->|]. intros d. by_induction IH m'.
Qed.

Lemma collect_ends p P m n : p EOF = false → m < n → ends_on P m (λ _, m) (collect p n).
Proof.
  intros Hp. revert P m. induction n as [|n IH]; intros P m Hn; [lia|]. cbn [collect]. apply ends_char. intros c _.
  destruct (p c) eqn:E; [|by apply ends_ret]. apply ends_addString, ends_some. intros m' ->.
  apply ends_next_strict; [intros ? ->; by eapply ne_eof|]. intros d. by_induction IH m'.
Qed.

Lemma until_delimiter_ends delim P m n last : m < n → ends_on P m (λ _, m) (until_delimiter delim n last).
Proof.
  revert P m last. induction n as [|n IH]; intros P m last Hn; [lia|]. cbn [until_delimiter]. apply ends_eof.
  - apply ends_char. intros c _. by apply ends_ret.
  - apply ends_char. intros c [_ Hc]. cbn [negb andb]. destruct (_ || _); [|by apply ends_ret]. apply ends_addString, ends_some. intros m' ->.
    apply ends_next_strict; [by intros ? ->|]. intros d. by_induction IH m'.
Qed.

Lemma addDigit_ends P m base c : ends_on P m (λ _, m) (addDigit base c).
Proof. unfold addDigit. apply ends_gets. intros n. destruct (_ <? _)%Z; [by apply ends_modify_last|apply ends_raise]. Qed.

Lemma bind_then_any {A B} P m (Q : B → nat) (c : Lx A) (k : A → Lx B) :
  ends_on P m (λ _, m) c → (∀ l, match c l with Some (Ok (_, l')) => lx_char l' = lx_char l | _ => True end) →
  (∀ a, ends_on P m Q (k a)) → ends_on P m Q (x ← c; k x).
Proof.
  intros Hc Hk Hf l Hl Hg. specialize (Hc l Hl Hg). specialize (Hk l). unfold mbind, Lx_bind.
  destruct (c l) as [[[a l1]|e]|]; try done. apply Hf; [by rewrite Hk|done].
Qed.

Lemma addDigit_char base c l : match addDigit base c l with Some (Ok (_, l')) => lx_char l' = lx_char l | _ => True end.
Proof. unfold addDigit, lx_gets, mbind, Lx_bind. by destruct (_ <? _)%Z. Qed.

Lemma number_loop_ends base P m n : m < n → ends_on P m (λ _, m) (number_loop base n).
Proof.
  revert P m. induction n as [|n IH]; intros P m Hn; [lia|]. cbn [number_loop]. apply ends_char. intros c _.
  destruct (_ && _) eqn:E; [|by apply ends_ret]. apply bind_then_any; [apply addDigit_ends|apply addDigit_char|]. intros [].
  apply ends_addString, ends_some. intros m' ->. apply andb_true_iff in E as [E _].
  apply ends_next_strict; [intros ? ->; intros ->; done|]. intros d. by_induction IH m'.
Qed.

(** With a digit to begin with something is read. *)
Lemma number_loop_reads base m n c : (48 <=? c)%Z && (c - 48 <? base)%Z = true → S m < n → ends_on (λ x, x = c) (S m) (λ _, m) (number_loop base n).
Proof.
  intros Hc Hn. destruct n as [|n]; [lia|]. cbn [number_loop]. apply ends_char. intros d ->. rewrite Hc.
  apply bind_then_any; [apply addDigit_ends|apply addDigit_char|]. intros []. apply ends_addString.
  apply ends_next_strict; [intros ? ->; intros ->; done|]. intros d. apply number_loop_ends. lia.
Qed.

Lemma hex_digits_ends P m n i : m < n → ends_on P m (λ _, m) (hex_digits n i).
Proof.
  revert P m i. induction n as [|n IH]; intros P m i Hn; [lia|]. cbn [hex_digits]. unfold isHexChar.
  assert (H : ends_on P m (λ _, m) (c ← currentChar; if isxdigit c then c ← currentChar; _ ← addString [c]; _ ← nextChar; hex_digits n (S i) else mret i)).
  { apply ends_char. intros c _. destruct (isxdigit c) eqn:E; [|by apply ends_ret]. apply ends_char. intros d ->. apply ends_addString, ends_some. intros m' ->.
    apply ends_next_strict; [intros ? ->; by eapply ne_eof|]. intros e. by_induction IH m'. }
  exact H.
Qed.

(** A test of the current character and the one behind it. *)
Lemma ends_pair {B} P m (Q : B → nat) (d : Z) (f : Z → bool) (k : bool → Lx B) :
  ends_on P m Q (k false) → ends_on (λ c, c = d) m Q (k true) →
  ends_on P m Q (r ← (c ← currentChar; if (c =? d)%Z then p ← peekChar; mret (f p) else mret false); k r).
Proof.
  intros Hf Ht l Hl [H1 H2]. unfold mbind, Lx_bind, mret, Lx_ret, currentChar, lx_gets. destruct (Z.eqb_spec (lx_char l) d) as [E|E]; [|by apply Hf].
  destruct (peek_spec l H1) as (p & l' & -> & Ec & Hne & Hu & _). assert (at_most m l') by (split; [done|lia]).
  destruct (f p); [apply Ht|apply Hf]; by rewrite ?Ec.
Qed.

(** Two steps that both leave at most [m]. *)
Lemma ends_seq {A B} P m (Q : B → nat) (c : Lx A) (f : A → Lx B) :
  ends_on any m (λ _, m) c → (∀ a, ends_on any m Q (f a)) → ends_on P m Q (x ← c; f x).
Proof. intros Hc Hf. eapply ends_chain; [by apply ends_any|]. exact Hf. Qed.

Section lexing.
Context (inet_pton : Z → bytes → option bytes) (fuel : nat).

Lemma ipv6HexDigit4_ends P m : m < fuel → ends_on P m (λ _, m) (ipv6HexDigit4 fuel).
Proof.
  intros Hm. unfold ipv6HexDigit4. apply ends_gets. intros s. apply ends_seq; [by apply hex_digits_ends|]. intros i.
  apply ends_modify; [done|]. by apply ends_ret.
Qed.

Lemma hex_groups_ends P m n : m < n → m < fuel → ends_on P m (λ _, m) (hex_groups fuel n).
Proof.
  revert P m. induction n as [|n IH]; intros P m Hn Hf; [lia|]. cbn [hex_groups]. unfold single_colon. apply ends_pair; [by apply ends_ret|].
  apply ends_addString, ends_some. intros m' ->. apply ends_next_strict; [by intros ? ->|]. intros d.
  apply ends_seq; [apply ipv6HexDigit4_ends; lia|]. intros [|]; [by_induction IH m'|apply ends_ret; lia].
Qed.

Lemma ipv6HexSeq_ends P m : m < fuel → ends_on P m (λ _, m) (ipv6HexSeq fuel).
Proof.
  intros Hm. unfold ipv6HexSeq. apply ends_seq; [by apply ipv6HexDigit4_ends|]. intros [|]; [by apply hex_groups_ends|by apply ends_ret].
Qed.

Lemma hex_tail_rest_ends P m : m < fuel → ends_on P m (λ _, m) (_ ← nextChar; h ← isHexChar; if h : bool then ipv6HexSeq fuel else mret true).
Proof.
  intros Hm. apply ends_next. intros c.
  assert (H : ends_on (λ x, x = c) m (λ _, m) (c ← currentChar; if isxdigit c then ipv6HexSeq fuel else mret true)).
  { apply ends_char. intros d ->. destruct (isxdigit c); [by apply ipv6HexSeq_ends|by apply ends_ret]. }
  exact H.
Qed.

Lemma hex_tail_ends P m : m < fuel → ends_on P m (λ _, m) (hex_tail fuel).
Proof. intros Hm. unfold hex_tail. apply ends_next. intros c. by apply hex_tail_rest_ends. Qed.

(** Whether what a part left is an address. *)
Lemma ends_rest_of_part P m (Q : bool → nat) rv : (∀ b, m ≤ Q b) → ends_on P m Q (c ← currentChar; mret (rv && negb (isalnum c || (c =? chr ":")%Z))).
Proof. intros H. apply ends_char. intros c _. by apply ends_ret. Qed.

Lemma ipv6HexPart_ends P m : m < fuel → ends_on P m (λ _, m) (ipv6HexPart fuel).
Proof.
  intros Hm. unfold ipv6HexPart. unfold double_colon at 1. apply ends_pair.
  - apply ends_seq; [|intros rv; apply ends_rest_of_part; intros _; reflexivity]. apply ends_seq; [by apply ipv6HexSeq_ends|]. intros [|]; [|by apply ends_ret].
    unfold double_colon. apply ends_pair; [by apply ends_ret|]. apply ends_addString. by apply hex_tail_ends.
  - apply (ends_chain _ _ (λ _, m)); [|intros rv; apply ends_rest_of_part; intros _; reflexivity]. apply ends_modify; [done|]. by apply hex_tail_ends.
Qed.

Lemma embedded_ipv4_ends P m n : m < n → m < fuel → ends_on P m (λ _, m) (embedded_ipv4 fuel n).
Proof.
  revert P m. induction n as [|n IH]; intros P m Hn Hf; [lia|]. cbn [embedded_ipv4]. apply ends_char. intros c _.
  destruct (Z.eqb_spec c (chr ".")) as [->|Hne].
  - apply (ends_test _ _ _ true isdigit). intros [|]; [|by apply ends_ret]. apply ends_addString, ends_some. intros m' ->.
    apply ends_next_strict; [by intros ? ->|]. intros d. apply ends_seq; [apply collect_ends; [done|lia]|]. intros _. by_induction IH m'.
  - by apply ends_ret.
Qed.

Lemma setIp_ends P m family : ends_on P m (λ _, m) (setIp inet_pton family).
Proof.
  unfold setIp. apply ends_gets. intros l. destruct (ip_set _ _ _ _) as [ip ok]. apply ends_modify; [done|]. by apply ends_ret.
Qed.

Lemma continueCidr_ends P m range : m < fuel → ends_on P m (λ _, m) (continueCidr fuel range).
Proof.
  intros Hm. unfold continueCidr. apply ends_next. intros c. apply ends_char. intros d ->. destruct (negb _); [by apply ends_setToken|].
  apply ends_modify; [done|]. apply ends_seq; [by apply number_loop_ends|]. intros _. apply ends_gets. intros n. by apply ends_setToken.
Qed.

Lemma finish_ipv6_ends P m rv : m < fuel → ends_on P m (λ _, m) (finish_ipv6 inet_pton fuel rv).
Proof.
  intros Hm. unfold finish_ipv6. apply ends_seq; [by apply embedded_ipv4_ends|]. intros _. destruct rv; [|by apply ends_setToken].
  apply ends_seq; [apply setIp_ends|]. intros [|]; [|by apply ends_setToken]. apply ends_char. intros c _.
  destruct (negb _); [by apply ends_setToken|by apply continueCidr_ends].
Qed.

Lemma continueParseIPv6_ends P m first : m < fuel → ends_on P m (λ _, m) (continueParseIPv6 inet_pton fuel first).
Proof.
  intros Hm. unfold continueParseIPv6. destruct first.
  - apply ends_seq; [by apply hex_groups_ends|]. intros [|]; [|by apply ends_ret]. unfold double_colon. apply ends_pair.
    + by apply finish_ipv6_ends.
    + eapply ends_chain; [apply ends_addString; by apply hex_tail_ends|]. intros rv. by apply finish_ipv6_ends.
  - apply ends_modify; [done|]. apply ends_seq; [by apply ipv6HexPart_ends|]. intros rv. by apply finish_ipv6_ends.
Qed.

Lemma ipv4_part_ends P m : m < fuel → ends_on P m (λ _, m) (ipv4_part fuel).
Proof.
  intros Hm. unfold ipv4_part, consume.
  assert (H : ends_on P m (λ _, m) (c ← currentChar; _ ← nextChar; if (c =? chr ".")%Z then _ ← addString [chr "."]; _ ← collect isdigit fuel; mret true else mret false)).
  { apply ends_char. intros c _. apply ends_next. intros d. destruct (_ =? _)%Z; [|by apply ends_ret]. apply ends_addString.
    apply ends_seq; [by apply collect_ends|]. intros _. by apply ends_ret. }
  intros l Hl Hg. specialize (H l Hl Hg). unfold mbind, Lx_bind in *. destruct (currentChar l) as [[[c l1]|]|]; try done.
  by destruct (nextChar l1) as [[[d l2]|]|].
Qed.

(** What follows the digits of a number. *)
Lemma parseNumber_ends m base c : (48 <=? c)%Z && (c - 48 <? base)%Z = true → S m < fuel → ends_on (λ x, x = c) (S m) (λ _, m) (parseNumber inet_pton fuel base).
Proof.
  intros Hc Hm. unfold parseNumber. unfold clearString. apply ends_modify; [done|]. apply ends_modify; [done|].
  apply (ends_chain _ _ (λ _, m)); [by apply number_loop_reads|]. intros _. clear Hc. apply ends_char. intros d _. apply ends_gets. intros size.
  destruct (_ && _); [apply continueParseIPv6_ends; lia|]. destruct (_ && _); [apply continueParseIPv6_ends; lia|].
  destruct (negb _); [by apply ends_setToken|]. apply ends_addString. apply ends_next. intros e.
  apply ends_seq; [apply collect_ends; [done|lia]|]. intros _. apply ends_seq; [apply ipv4_part_ends; lia|]. intros [|]; [|by apply ends_setToken].
  apply ends_seq; [apply ipv4_part_ends; lia|]. intros [|]; [|by apply ends_setToken]. apply ends_seq; [apply setIp_ends|]. intros _.
  apply ends_char. intros g _. destruct (negb _); [by apply ends_setToken|apply continueCidr_ends; lia].
Qed.

(** ** Words and strings *)

Lemma word_loop_ends P m n hex : m < n → ends_on P m (λ _, m) (word_loop n hex).
Proof.
  revert P m hex. induction n as [|n IH]; intros P m hex Hn; [lia|]. cbn [word_loop]. apply ends_char. intros c _.
  destruct (is_word c) eqn:E; [|by apply ends_ret]. apply ends_addString, ends_some. intros m' ->.
  apply ends_next_strict; [intros ? ->; by eapply ne_eof|]. intros d. by_induction IH m'.
Qed.

Lemma parseIdent_ends m c : c ≠ EOF → m < fuel → ends_on (λ x, x = c) (S m) (λ _, m) (parseIdent inet_pton fuel).
Proof.
  intros Hc Hm. unfold parseIdent. apply ends_char. intros d ->. apply ends_modify; [done|]. apply ends_next_strict; [by intros ? ->|]. intros e.
  apply ends_seq; [by apply word_loop_ends|]. intros hex. apply ends_char. intros g _. apply ends_gets. intros s.
  destruct (_ && _); [apply ends_next; intros; by apply ends_ret|]. destruct (_ && _); [by apply continueParseIPv6_ends|].
  destruct (_ && _); [by apply continueParseIPv6_ends|]. destruct (find_keyword _ _); [by apply ends_setToken|].
  destruct (_ || _); [apply ends_modify; [done|by apply ends_setToken]|]. destruct (_ || _); [apply ends_modify; [done|by apply ends_setToken]|].
  by apply ends_setToken.
Qed.

Lemma parseString_ends m c t : c ≠ EOF → m < fuel → ends_on (λ x, x = c) (S m) (λ _, m) (lx_parseString fuel t).
Proof.
  intros Hc Hm. unfold lx_parseString. apply ends_char. intros d ->. apply ends_next_strict; [by intros ? ->|]. intros e. unfold clearString.
  apply ends_modify; [done|]. apply ends_seq; [by apply until_delimiter_ends|]. intros _. apply ends_char. intros g _.
  destruct (_ =? _)%Z; [apply ends_next; intros; by apply ends_setToken|by apply ends_setToken].
Qed.

Lemma parseRawString_ends m c : c ≠ EOF → m < fuel → ends_on (λ x, x = c) (S m) (λ _, m) (parseRawString fuel).
Proof.
  intros Hc Hm. unfold parseRawString. apply (ends_chain _ _ (λ _, m)); [by apply parseString_ends|]. intros t. apply ends_seq; [|intros _; by apply ends_ret].
  destruct (bool_decide _); [by apply ends_modify_last|by apply ends_ret].
Qed.

Lemma interpolation_loop_ends start P m n last : m < n → ends_on P m (λ _, m) (interpolation_loop start n last).
Proof.
  revert P m last. induction n as [|n IH]; intros P m last Hn; [lia|]. cbn [interpolation_loop]. apply ends_eof; [by apply ends_setToken|].
  apply ends_char. intros c [_ Hc]. destruct (_ && _); [apply ends_next; intros; apply ends_modify; [done|by apply ends_setToken]|].
  destruct (_ =? _)%Z; [|destruct (_ =? _)%Z].
  - apply ends_some. intros m' ->. apply ends_next_strict; [by intros ? ->|]. intros d. apply ends_eof; [apply ends_setToken; lia|].
    apply ends_char. intros e _. apply ends_addString. apply ends_next. intros g. by_induction IH m'.
  - apply ends_some. intros m' ->. apply ends_next_strict; [by intros ? ->|]. intros d. destruct (_ =? _)%Z.
    + apply ends_next. intros e. apply ends_setToken. lia.
    + apply ends_addString. apply ends_next. intros e. by_induction IH m'.
  - apply ends_addString, ends_some. intros m' ->. apply ends_next_strict; [by intros ? ->|]. intros d. by_induction IH m'.
Qed.

Lemma parseInterpolation_ends m start c : c ≠ EOF → m < fuel → ends_on (λ x, x = c) (S m) (λ _, m) (parseInterpolationFragment fuel start).
Proof.
  intros Hc Hm. unfold parseInterpolationFragment, clearString. apply ends_modify; [done|]. apply ends_next_strict; [by intros ? ->|]. intros d.
  by apply interpolation_loop_ends.
Qed.

(** ** Space *)

Context (glob : bytes → option (list bytes)) (read_file : bytes → option bytes).
Hypothesis no_includes : ∀ p, glob p = None.

Lemma processCommand_none line l : processCommand glob read_file line l = Some (Ok ((), l)).
Proof.
  unfold processCommand. destruct (negb _); [done|]. destruct (index_of _ _); [|done]. destruct (rindex_of _ _); [|done]. by rewrite no_includes.
Qed.

Lemma ends_command {B} P m (Q : B → nat) (b : bool) line (k : Lx B) :
  ends_on P m Q k → ends_on P m Q (_ ← (if b then processCommand glob read_file line else mret ()); k).
Proof.
  intros Hk l Hl Hg. unfold mbind, Lx_bind. destruct b; [rewrite processCommand_none|]; by apply Hk.
Qed.

Lemma consumeSpace_loop_ends P m n : m < n → m < fuel → ends_on P m (λ _, m) (consumeSpace_loop glob read_file fuel n).
Proof.
  revert P m. induction n as [|n IH]; intros P m Hn Hf; [lia|]. cbn [consumeSpace_loop]. apply ends_seq; [by apply skip_blanks_ends|].
  intros [|]; [|by apply ends_ret]. apply ends_eof; [by apply ends_ret|]. apply ends_char. intros c [_ Hc].
  destruct (_ =? _)%Z.
  - apply ends_scope. intros s. apply ends_some. intros m' ->. apply ends_next_strict; [by intros ? ->|]. intros d.
    apply ends_seq; [apply comment_line_ends; lia|]. intros [line ended]. destruct ended.
    + apply ends_modify; [done|]. apply ends_command. apply ends_gets. intros t. apply ends_ret. lia.
    + apply (ends_chain _ _ (λ _, m')); [by apply ends_ret|]. intros _. apply ends_command. by_induction IH m'.
  - apply ends_test. intros [|]; [|by apply ends_ret]. apply ends_some. intros m' ->. apply ends_next_strict; [by intros ? ->|]. intros d.
    apply ends_seq; [apply comment_block_ends; lia|]. intros [|]; [by_induction IH m'|].
    apply ends_seq; [by apply ends_setToken|]. intros _. apply ends_ret. lia.
Qed.

Lemma bind_inv {A B} (c : Lx A) (f : A → Lx B) l b l' :
  (x ← c; f x) l = Some (Ok (b, l')) → ∃ a l1, c l = Some (Ok (a, l1)) ∧ f a l1 = Some (Ok (b, l')).
Proof. unfold mbind, Lx_bind. destruct (c l) as [[[a l1]|]|]; try done. intros H. by exists a, l1. Qed.

Lemma bind_ok {A B} (c : Lx A) (f : A → Lx B) l a l1 : c l = Some (Ok (a, l1)) → (x ← c; f x) l = f a l1.
Proof. unfold mbind, Lx_bind. by intros ->. Qed.

Lemma bind_assoc {A B C} (c : Lx A) (f : A → Lx B) (g : B → Lx C) l : (y ← (x ← c; f x); g y) l = (x ← c; y ← f x; g y) l.
Proof. unfold mbind, Lx_bind. by destruct (c l) as [[[]|]|]. Qed.

Lemma eof_false l l' : lx_eof l = Some (Ok (false, l')) → l' = l ∧ lx_char l ≠ EOF.
Proof.
  unfold lx_eof, currentChar, lx_gets, mbind, Lx_bind. destruct (Z.eqb_spec (lx_char l) EOF); [done|]. unfold scope.
  destruct (lx_contexts l); [done|]. by intros [= _ <-].
Qed.

(** Space that is followed by something ends at a character. *)
Lemma consumeSpace_pending n l l' : consumeSpace_loop glob read_file fuel n l = Some (Ok (true, l')) → lx_char l' ≠ EOF.
Proof.
  revert l. induction n as [|n IH]; intros l H; [done|]. cbn [consumeSpace_loop] in H.
  apply bind_inv in H as (pending & l1 & _ & H). apply bind_inv in H as (e & l2 & He & H). destruct e; [done|].
  destruct pending; [|done]. apply eof_false in He as [-> Hne]. apply bind_inv in H as (c & l3 & [= <- <-] & H).
  destruct (_ =? _)%Z.
  - apply bind_inv in H as (s & l4 & _ & H). apply bind_inv in H as (d & l5 & _ & H). apply bind_inv in H as ([line ended] & l6 & _ & H).
    apply bind_inv in H as (u1 & l7 & H7 & H). apply bind_inv in H as (u2 & l8 & H8 & H).
    assert (Hl8 : l8 = l7) by (destruct (_ =? _)%Z; [rewrite processCommand_none in H8|]; by injection H8). subst l8.
    destruct ended; [|by apply IH in H]. injection H7 as _ <-. done.
  - apply bind_inv in H as (opens & l4 & H4 & H). destruct opens.
    + apply bind_inv in H as (d & l5 & _ & H). apply bind_inv in H as (closed & l6 & _ & H). destruct closed; [by apply IH in H|].
      apply bind_inv in H as (t & l7 & _ & H). discriminate H.
    + injection H as <-. destruct (_ =? _)%Z; [|injection H4 as <-; done]. apply bind_inv in H4 as (p & l5 & Hp & [= _ <-]).
      destruct (lx_contexts l1) eqn:Ec; [unfold peekChar, scope, mbind, Lx_bind in Hp; by rewrite Ec in Hp|].
      destruct (peek_spec l1) as (q & l6 & E & Ec' & _); [by rewrite Ec|]. rewrite E in Hp. injection Hp as _ <-. by rewrite Ec'.
Qed.

Lemma ends_consumeSpace {B} P m (Q : B → nat) (k : bool → Lx B) : m < fuel →
  ends_on any m Q (k false) → ends_on (λ c, c ≠ EOF) m Q (k true) → ends_on P m Q (b ← consumeSpace glob read_file fuel; k b).
Proof.
  intros Hm Hf Ht l Hl Hg. pose proof (consumeSpace_loop_ends any m fuel Hm Hm l I Hg) as H. unfold mbind, Lx_bind, consumeSpace.
  destruct (consumeSpace_loop glob read_file fuel fuel l) as [[[b l1]|]|] eqn:E; [|done|done]. destruct b; [|by apply Hf].
  apply Ht; [by eapply consumeSpace_pending|done].
Qed.

(** ** Tokens *)

(** What a token leaves: one less, except at the end. *)
Definition left_by (m : nat) (t : Tok.FlowToken) : nat := if bool_decide (t = Tok.Eof) then S m else m.

Lemma left_by_ge m t : m ≤ left_by m t.
Proof. unfold left_by. destruct (bool_decide _); lia. Qed.

Lemma token_ends P m t : ends_on P m (left_by m) (setToken t).
Proof. apply ends_setToken, left_by_ge. Qed.

Lemma token1_ends (P : Z → Prop) m t : (∀ c, P c → c ≠ EOF) → ends_on P (S m) (left_by m) (token1 t).
Proof. intros Hp. unfold token1. apply ends_next_strict; [done|]. intros c. apply token_ends. Qed.

Lemma token1_late P m t : ends_on P m (left_by m) (token1 t).
Proof. unfold token1. apply ends_next. intros c. apply token_ends. Qed.

Lemma token2_ends P m c longer t : ends_on P m (left_by m) (token2 c longer t).
Proof. induction longer as [|[d t'] longer IH]; cbn; [apply token_ends|]. destruct (_ =? _)%Z; [apply token1_late|done]. Qed.

Lemma then_token P m m' (c : Lx Tok.FlowToken) : ends_on P m (λ _, m') c → ends_on P m (left_by m') (t ← c; setToken t).
Proof. intros H. eapply ends_chain; [exact H|]. intros t. apply token_ends. Qed.

Lemma peek_present l p l1 : peekChar l = Some (Ok (p, l1)) → p ≠ EOF →
  l1 = l ∧ ∃ s cs r, lx_contexts l = s :: cs ∧ sc_rest s = p :: r ∧ sc_eofbit s = false.
Proof.
  unfold peekChar, scope, mbind, Lx_bind. destruct (lx_contexts l) as [|s cs]; [done|]. destruct (sc_rest s) as [|c r] eqn:Er.
  - intros H. injection H as <- _. done.
  - destruct (sc_eofbit s) eqn:Ee; intros [= <- <-] Hne; [done|]. split; [done|]. by exists s, cs, r.
Qed.

Lemma double_colon_here l s cs r : lx_char l = chr ":" → lx_contexts l = s :: cs → sc_rest s = chr ":" :: r → sc_eofbit s = false →
  double_colon l = Some (Ok (true, l)).
Proof.
  intros Hc E Er Ee. assert (Hp : peekChar l = Some (Ok (chr ":", l))) by (unfold peekChar, scope, mbind, Lx_bind; by rewrite E, Er, Ee).
  unfold double_colon, currentChar, lx_gets, mbind, Lx_bind. rewrite Hc, Z.eqb_refl, Hp. done.
Qed.

Lemma double_colon_ends m l s cs r :
  m < fuel → lx_char l = chr ":" → lx_contexts l = s :: cs → sc_rest s = chr ":" :: r → sc_eofbit s = false → at_most (S m) l →
  match (_ ← clearString; continueParseIPv6 inet_pton fuel false) l with
  | Some (Ok (a, l')) => at_most (left_by m a) l' | Some (Raise e) => e = SignedOverflow | None => False
  end.
Proof.
  intros Hm Hc E Er Ee Hg.
  set (l2 := lx_setDigits 0 (lx_setString [] l)).
  assert (Hstep : (_ ← clearString; continueParseIPv6 inet_pton fuel false) l =
    (rv ← (_ ← lx_modify (lx_setString (str "::")); hex_tail fuel); rv ← (c ← currentChar; mret (rv && negb (isalnum c || (c =? chr ":")%Z))); finish_ipv6 inet_pton fuel rv) l2).
  { change ((rv ← ipv6HexPart fuel; finish_ipv6 inet_pton fuel rv) l2 = (rv ← (_ ← lx_modify (lx_setString (str "::")); hex_tail fuel); rv ← (c ← currentChar; mret (rv && negb (isalnum c || (c =? chr ":")%Z))); finish_ipv6 inet_pton fuel rv) l2).
    unfold ipv6HexPart. rewrite bind_assoc, (bind_ok _ _ _ _ _ (double_colon_here l2 s cs r Hc E Er Ee)), bind_assoc. done. }
  rewrite Hstep. eapply (ends_weaken (λ x, x = chr ":") (λ x, x = chr ":") (S m) (S m) (left_by m) (λ _, m)); [|done|lia|intros; apply left_by_ge|done|done].
  apply (ends_chain _ _ (λ _, m)).
  - apply ends_modify; [done|]. unfold hex_tail. apply ends_next_strict; [by intros ? ->|]. intros c. by apply hex_tail_rest_ends.
  - intros rv. apply ends_seq; [by apply ends_rest_of_part|]. intros rv'. by apply finish_ipv6_ends.
Qed.

Lemma colon_ends m : m < fuel → ends_on (λ x, x = chr ":") (S m) (left_by m)
  (p ← peekChar; if (p =? chr ":")%Z then _ ← clearString; continueParseIPv6 inet_pton fuel false else token1 Tok.Colon).
Proof.
  intros Hm l Hl Hg. destruct (peek_spec l (proj1 Hg)) as (p & l' & E & Ec & Hne & Hu & _).
  unfold mbind at 1, Lx_bind at 1. rewrite E. assert (Hg' : at_most (S m) l') by (split; [done|destruct Hg; lia]).
  destruct (Z.eqb_spec p (chr ":")) as [->|Hp].
  - destruct (peek_present _ _ _ E) as (-> & s & cs & r & Es & Er & Ee); [done|]. by apply (double_colon_ends m l s cs r).
  - apply (token1_ends (λ x, x = chr ":")); [by intros ? ->|by rewrite Ec|done].
Qed.

(** A token that is read from its first character on. *)
Lemma long_token_ends P m (c : Lx Tok.FlowToken) : ends_on P (S m) (λ _, m) c → ends_on P (S m) (left_by m) c.
Proof. intros H. eapply ends_weaken; [exact H|done|lia|]. intros t. apply left_by_ge. Qed.

Ltac first_character := match goal with |- ends_on _ _ _ (if Z.eqb ?c ?d then _ else _) => destruct (Z.eqb_spec c d) as [->|_] end.

Ltac short_token Hone Htwo :=
  match goal with
  | |- ends_on _ _ _ (if _ then token1 _ else _) => first_character; [apply Hone|]
  | |- ends_on _ _ _ (if _ then (d ← nextChar; token2 d _ _) else _) => first_character; [apply Htwo|]
  end.

Lemma nextToken_loop_ends m n : m < n → S m < fuel → ends_on any (S m) (left_by m) (nextToken_loop glob read_file inet_pton fuel n).
Proof.
  revert m. induction n as [|n IH]; intros m Hn Hf; [lia|]. cbn [nextToken_loop]. apply ends_consumeSpace; [done| |].
  { cbn [negb]. apply ends_setToken. done. }
  cbn [negb]. apply ends_scope. intros s. apply ends_modify; [done|]. apply ends_char. intros c Hc. unfold scanToken.
  assert (Hone : ∀ t, ends_on (λ x, x = c) (S m) (left_by m) (token1 t)) by (intros t; apply token1_ends; by intros ? ->).
  assert (Htwo : ∀ longer t, ends_on (λ x, x = c) (S m) (left_by m) (d ← nextChar; token2 d longer t)).
  { intros longer t. apply ends_next_strict; [by intros ? ->|]. intros d. apply token2_ends. }
  repeat short_token Hone Htwo.
  first_character.
  { apply ends_next_strict; [by intros ? ->|]. intros d. destruct (_ =? _)%Z; [apply ends_next; intros e; apply token2_ends|apply token_ends]. }
  first_character; [apply colon_ends; lia|].
  repeat short_token Hone Htwo.
  first_character.
  { apply ends_gets. intros d. destruct (negb _); [|apply Hone]. apply then_token. apply parseInterpolation_ends; [done|lia]. }
  repeat short_token Hone Htwo.
  first_character.
  { apply ends_next_strict; [by intros ? ->|]. intros d. destruct (_ =? _)%Z; [|apply token_ends].
    destruct m as [|m]; [apply ends_zero|]. apply (ends_chain _ _ (λ _, S m)).
    - eapply ends_weaken; [apply (IH m); lia|done|lia|]. intros t. unfold left_by. destruct (bool_decide _); lia.
    - intros t. apply token_ends. }
  repeat short_token Hone Htwo.
  first_character; [apply then_token, parseRawString_ends; [done|lia]|].
  first_character; [apply ends_modify; [done|]; apply then_token, parseInterpolation_ends; [done|lia]|].
  first_character; [apply long_token_ends, parseNumber_ends; [done|lia]|].
  destruct (isdigit c) eqn:Hd.
  { apply long_token_ends, parseNumber_ends; [|lia]. unfold isdigit in Hd. lia. }
  destruct (_ || _); [|apply Hone]. apply then_token, parseIdent_ends; [done|lia].
Qed.

(** One call of [nextToken]. *)
Lemma nextToken_reads l : lx_contexts l ≠ [] → unread l < fuel →
  match lx_nextToken glob read_file inet_pton fuel l with
  | Some (Ok (t, l')) => lx_contexts l' ≠ [] ∧ unread l' ≤ unread l ∧ (t ≠ Tok.Eof → unread l' < unread l)
  | Some (Raise e) => e = SignedOverflow
  | None => False
  end.
Proof.
  intros Hc Hu. destruct (unread l) as [|m] eqn:E; [by destruct (ends_zero any (λ _ : unit, 0) lx_stop l I (conj Hc (eq_ind_r (λ n, n ≤ 0) (le_n 0) E)))|].
  pose proof (nextToken_loop_ends m fuel ltac:(lia) ltac:(lia) l I (conj Hc (eq_ind_r (λ n, n ≤ S m) (le_n (S m)) E))) as H. unfold lx_nextToken.
  destruct (nextToken_loop _ _ _ _ _ _) as [[[t l']|e]|]; [|done|done]. destruct H as [H1 H2]. split; [done|]. unfold left_by in H2.
  destruct (bool_decide (t = Tok.Eof)) eqn:Et; [split; [lia|]|split; [lia|intros _; lia]]. apply bool_decide_eq_true in Et. done.
Qed.

(** A source is read to its end. *)
Lemma tokens_read n l : lx_contexts l ≠ [] → unread l < fuel → unread l < n →
  match tokens glob read_file inet_pton fuel n l with
  | Some (Ok (ts, l')) => length ts ≤ unread l
  | Some (Raise e) => e = SignedOverflow
  | None => False
  end.
Proof.
  revert l. induction n as [|n IH]; intros l Hc Hf Hn; [lia|]. cbn [tokens]. unfold mbind, Lx_bind. pose proof (nextToken_reads l Hc Hf) as H.
  destruct (lx_nextToken _ _ _ _ l) as [[[t l1]|e]|]; [|done|done]. destruct H as (Hc1 & Hu & Hlt).
  destruct (decide (t = Tok.Eof)) as [->|Ht]; [rewrite bool_decide_eq_true_2 by done; cbn; lia|]. rewrite bool_decide_eq_false_2 by done. specialize (Hlt Ht).
  unfold lx_gets. specialize (IH l1 Hc1 ltac:(lia) ltac:(lia)). destruct (tokens _ _ _ _ n l1) as [[[ts l2]|e]|]; [cbn; lia|done|done].
Qed.

Lemma enterStream_unread name content ip0 : ∃ l, enterStream name content (newLexer ip0) = Some (Ok ((), l)) ∧ lx_contexts l ≠ [] ∧ unread l ≤ S (length content).
Proof.
  unfold enterStream, currentChar, lx_gets, lx_modify. cbn. unfold mbind, Lx_bind.
  destruct (nextChar_spec (lx_setChar 0 (lx_setContexts [mkScope name content false newPos newPos EOF] (newLexer ip0)))) as (c & l & E & _ & Hc & _ & Hu); [done|].
  exists l. split; [|split; [done|]].
  - match type of E with ?a = _ => match goal with |- match ?b with _ => _ end = _ => change b with a end end. by rewrite E.
  - assert (unread (lx_setChar 0 (lx_setContexts [mkScope name content false newPos newPos EOF] (newLexer ip0))) = S (S (length content))) as H.
    { unfold unread, stream_size. cbn. lia. }
    specialize (Hu ltac:(done)). lia.
Qed.

End lexing.

(** C22 (termination). A source is read to its end, when [glob] finds no file for an [#include]:
    with more fuel than it has characters (and one) no loop of the lexer runs out of it, and the
    source has at most one token per character and one. The only error is the overflow that
    [addDigit] has when a number does not fit 63 bits (undefined behaviour, [number_overflows]);
    so no step of the lexer, which reads through [scope()], meets an empty stack of scopes, and no
    file is read that is not there. *)
Theorem lexer_total glob read_file inet_pton fuel ip0 content :
  (∀ p, glob p = None) → S (length content) < fuel →
  match lex_source glob read_file inet_pton fuel content (newLexer ip0) with
  | Some (Ok (ts, l)) => length ts ≤ S (length content)
  | Some (Raise e) => e = SignedOverflow
  | None => False
  end.
Proof.
  intros Hg Hf. unfold lex_source, mbind, Lx_bind. destruct (enterStream_unread (str "<string>") content ip0) as (l & -> & Hc & Hu).
  pose proof (tokens_read inet_pton fuel glob read_file Hg fuel l Hc ltac:(lia) ltac:(lia)) as H.
  destruct (tokens _ _ _ _ _ _) as [[[ts l']|e]|]; [lia|done|done].
Qed.

Lemma lexer_total_witness :
  match lex_source (λ _, None) (λ _, None) (λ _ _, None) 40 (str "on main { return 404 } # '") (newLexer (mkIPAddress AF_INET [] [])) with
  | Some (Ok (ts, l)) => length ts ≤ 27
  | Some (Raise e) => e = SignedOverflow
  | None => False
  end.
Proof. apply (lexer_total (λ _, None) (λ _, None) (λ _ _, None) 40 (mkIPAddress AF_INET [] []) (str "on main { return 404 } # '")); [done|vm_compute; lia]. Defined.
