(* ===== verification/FlowLexerSpelling.v ===== *)
(** * The lexer reads what is written

    A source is a sequence of lexemes with space and comments between them, and the
    lexer returns the lexemes. *)
From Stdlib Require Import Ascii.
From stdpp Require Import gmap.
From S2P Require Import Prelude NetAddress HeaderFieldList Http1Parser FlowLexer FlowLexerSafety.
Local Open Scope nat_scope.

(** ** Sources *)

Inductive Lexeme :=
  | LToken (t : Tok.FlowToken)
  | LIdent (s : bytes)
  | LNumber (v : Z)
  | LBoolean (v : Z)
  | LString (s : bytes).
#[export] Instance Lexeme_eq_dec : EqDecision Lexeme.
Proof. solve_decision. Defined.

(** What a token of the lexer says. *)
Definition lexeme_of (x : Tok.FlowToken * bytes * Z) : Lexeme :=
  let '(t, s, v) := x in
  match t with Tok.Ident => LIdent s | Tok.Number => LNumber v | Tok.Boolean => LBoolean v | Tok.String => LString s | t => LToken t end.

(** Punctuation and operators. *)
Definition symbols : list (bytes * Tok.FlowToken) :=
  [(str "=", Tok.Assign); (str "|=", Tok.OrAssign); (str "&=", Tok.AndAssign); (str ";", Tok.Semicolon); (str ":", Tok.Colon);
   (str "==", Tok.Equal); (str "!=", Tok.UnEqual); (str "<", Tok.Less); (str ">", Tok.Greater); (str "<=", Tok.LessOrEqual);
   (str ">=", Tok.GreaterOrEqual); (str "=^", Tok.PrefixMatch); (str "=$", Tok.SuffixMatch); (str "=~", Tok.RegexMatch);
   (str "=>", Tok.HashRocket); (str "+", Tok.Plus); (str "-", Tok.Minus); (str "*", Tok.Mul); (str "/", Tok.Div); (str "%", Tok.Mod);
   (str ",", Tok.Comma); (str "~", Tok.BitNot); (str "|", Tok.BitOr); (str "&", Tok.BitAnd); (str "^", Tok.BitXor);
   (str "[", Tok.BrOpen); (str "]", Tok.BrClose); (str "(", Tok.RndOpen); (str ")", Tok.RndClose); (str "{", Tok.Begin); (str "}", Tok.End);
   (str "<<", Tok.Shl); (str ">>", Tok.Shr); (str "||", Tok.Or); (str "&&", Tok.And); (str "!", Tok.Not);
   (str ".", Tok.Period); (str "..", Tok.DblPeriod); (str "...", Tok.Ellipsis)].

Definition wordlike (w : bytes) : bool := match w with c :: _ => (isalpha c || (c =? chr "_")%Z) && forallb is_word w | [] => false end.
Definition booleans : list (bytes * Z) := [(str "true", 1%Z); (str "yes", 1%Z); (str "false", 0%Z); (str "no", 0%Z)].

(** A numeral that begins with zero is octal. *)
Definition base_of (ds : bytes) : Z := match ds with c :: _ => if (c =? chr "0")%Z then 8 else 10 | [] => 10 end.
Definition value_from (base v : Z) (ds : bytes) : Z := fold_left (λ v c, v * base + (c - 48))%Z ds v.
Definition value (ds : bytes) : Z := value_from (base_of ds) 0 ds.
Definition numeral (ds : bytes) : Prop :=
  ds ≠ [] ∧ Forall (λ c, (48 <=? c)%Z && (c - 48 <? base_of ds)%Z = true) ds ∧ (value ds < 2 ^ 63)%Z.

Inductive written : Lexeme → bytes → Prop :=
  | written_symbol s t : (s, t) ∈ symbols → written (LToken t) s
  | written_pow : written (LToken Tok.Pow) (str "**")
  | written_keyword w t : (w, t) ∈ keywords → written (LToken t) w
  | written_boolean w v : (w, v) ∈ booleans → written (LBoolean v) w
  | written_ident w : wordlike w = true → w ∉ keywords.*1 → w ∉ booleans.*1 → written (LIdent w) w
  | written_number ds : numeral ds → written (LNumber (value ds)) ds
  | written_raw s : Forall (λ c, c ≠ chr "'" ∧ c ≠ EOF) s → (∀ s0, s ≠ s0 ++ [chr "\"]) → written (LString (unescape s)) (chr "'" :: s ++ [chr "'"])
  | written_text s : Forall (λ c, c ≠ 34%Z ∧ c ≠ chr "\" ∧ c ≠ chr "#" ∧ c ≠ EOF) s → written (LString s) (34%Z :: s ++ [34%Z]).

(** Space and comments. *)
Inductive gap : bytes → Prop :=
  | gap_blanks bs : Forall (λ c, isspace c = true) bs → gap bs
  | gap_line bs t g : Forall (λ c, isspace c = true) bs → Forall (λ c, c ≠ 10%Z ∧ c ≠ EOF) t → gap (10%Z :: g) →
      gap (bs ++ chr "#" :: t ++ 10%Z :: g)
  | gap_block bs t g : Forall (λ c, isspace c = true) bs → Forall (λ c, c ≠ chr "*" ∧ c ≠ EOF) t → head t ≠ Some (chr "/") → gap g →
      gap (bs ++ chr "/" :: chr "*" :: t ++ chr "*" :: chr "/" :: g).

Inductive spells : list Lexeme → bytes → Prop :=
  | spells_end : spells [] []
  | spells_next x t g xs i : written x t → gap g → g ≠ [] → spells xs i → spells (x :: xs) (t ++ g ++ i).

(** ** Running the lexer *)

(** The step ends without an error in [Q]. *)
Definition runs {A} (c : Lx A) (Q : A → Lexer → Prop) (l : Lexer) : Prop :=
  match c l with Some (Ok (a, l')) => Q a l' | _ => False end.

Lemma runs_bind {A B} (c : Lx A) (f : A → Lx B) Q l : runs c (λ a, runs (f a) Q) l → runs (x ← c; f x) Q l.
Proof. unfold runs, mbind, Lx_bind. by destruct (c l) as [[[a l1]|]|]. Qed.

Lemma runs_mono {A} (c : Lx A) (Q R : A → Lexer → Prop) l : runs c Q l → (∀ a l', Q a l' → R a l') → runs c R l.
Proof. unfold runs. destruct (c l) as [[[a l1]|]|]; [|done|done]. auto. Qed.

Lemma runs_ret {A} (a : A) (Q : A → Lexer → Prop) l : Q a l → runs (mret a) Q l.
Proof. done. Qed.

Lemma runs_modify f (Q : unit → Lexer → Prop) l : Q () (f l) → runs (lx_modify f) Q l.
Proof. done. Qed.

Lemma runs_gets {A} (g : Lexer → A) (Q : A → Lexer → Prop) l : Q (g l) l → runs (lx_gets g) Q l.
Proof. done. Qed.

Lemma runs_setToken t (Q : Tok.FlowToken → Lexer → Prop) l : Q t (lx_setToken t l) → runs (setToken t) Q l.
Proof. done. Qed.

(** The lexer has the text [i] before it, on one stream. *)
Definition has_text (i : bytes) (l : Lexer) : Prop :=
  ∃ s, lx_contexts l = [s] ∧
  match i with [] => lx_char l = EOF | c :: r => lx_char l = c ∧ c ≠ EOF ∧ sc_rest s = r ∧ sc_eofbit s = false ∧ Forall (λ c, c ≠ EOF) r end.

#[global] Arguments has_text : simpl never.

(** What reading leaves alone. *)
Definition same_values (l l' : Lexer) : Prop := lx_string l' = lx_string l ∧ lx_number l' = lx_number l ∧ lx_depth l' = lx_depth l.
#[export] Instance same_values_preorder : PreOrder same_values.
Proof. split; [by intros l|]. intros l1 l2 l3 (?&?&?) (?&?&?). split_and!; congruence. Qed.

Definition first (i : bytes) : Z := match i with c :: _ => c | [] => EOF end.

Lemma holds_first i l : has_text i l → lx_char l = first i.
Proof. intros (s & _ & H). by destruct i; [|destruct H]. Qed.

Lemma runs_char i l (Q : Z → Lexer → Prop) : has_text i l → Q (first i) l → runs currentChar Q l.
Proof. intros H HQ. unfold runs, currentChar, lx_gets. by rewrite (holds_first _ _ H). Qed.

Lemma runs_next c i l (Q : Z → Lexer → Prop) :
  has_text (c :: i) l → (∀ l', has_text i l' → same_values l l' → Q (first i) l') → runs nextChar Q l.
Proof.
  intros (s & Hs & Hc & Hne & Hr & He & Hi) HQ. unfold runs, nextChar, currentChar, lx_gets, mbind, Lx_bind. rewrite Hc, (proj2 (Z.eqb_neq _ _) Hne).
  unfold scope. rewrite Hs. unfold set_scope, stream_get, scope, lx_modify, mret, Lx_ret, mbind, Lx_bind. cbn. rewrite Hs. cbn. rewrite Hr, He.
  destruct i as [|d i]; cbn.
  - apply HQ; [|done]. eexists. split; done.
  - apply Forall_cons_1 in Hi as [Hd Hi]. rewrite (proj2 (Z.eqb_neq _ _) Hd). cbn. apply HQ; [|done]. eexists. split; [done|]. cbn. done.
Qed.

Lemma runs_peek c d i l (Q : Z → Lexer → Prop) : has_text (c :: d :: i) l → Q d l → runs peekChar Q l.
Proof. intros (s & Hs & Hc & Hne & Hr & He & Hi) HQ. unfold runs, peekChar, scope, mbind, Lx_bind. by rewrite Hs, Hr, He. Qed.

Lemma runs_eof i l (Q : bool → Lexer → Prop) : has_text i l → Q (match i with [] => true | _ => false end) l → runs lx_eof Q l.
Proof.
  intros H HQ. unfold runs, lx_eof, currentChar, lx_gets, mbind, Lx_bind. rewrite (holds_first _ _ H). destruct i as [|c i]; [done|].
  destruct H as (s & Hs & Hc & Hne & Hr & He & Hi). cbn [first]. rewrite (proj2 (Z.eqb_neq _ _) Hne). unfold scope. rewrite Hs. cbn. by rewrite He.
Qed.

Lemma runs_scope i l (Q : LexScope → Lexer → Prop) : has_text i l → (∀ s, Q s l) → runs scope Q l.
Proof. intros (s & Hs & _) HQ. unfold runs, scope. by rewrite Hs. Qed.

(** Steps that do not read keep the text. *)
Lemma holds_keep i l l' : has_text i l → lx_contexts l' = lx_contexts l → lx_char l' = lx_char l → has_text i l'.
Proof. intros (s & Hs & H) Hc Hch. exists s. rewrite Hc, Hch. done. Qed.

(** ** Space and comments *)

Definition more_text (i : bytes) : bool := match i with [] => false | _ => true end.
Definition visible (i : bytes) : Prop := match i with [] => True | c :: _ => isspace c = false ∧ isprint c = true end.
(** Neither space nor the beginning of a comment. *)
Definition starts (i : bytes) : Prop :=
  match i with
  | [] => True
  | c :: r => isspace c = false ∧ isprint c = true ∧ c ≠ chr "#" ∧ (c = chr "/" → ∃ d r', r = d :: r' ∧ d ≠ chr "*")
  end.

(** The text [i] is left, and nothing else has changed. *)
Definition left_with (i : bytes) (l l' : Lexer) : Prop := has_text i l' ∧ same_values l l'.

Lemma left_with_trans i j l l1 l2 : left_with j l l1 → left_with i l1 l2 → left_with i l l2.
Proof. intros [_ H1] [H H2]. split; [done|]. by transitivity l1. Qed.

Lemma skip_blanks_runs bs i n l : Forall (λ c, isspace c = true) bs → visible i → length bs < n → has_text (bs ++ i) l →
  runs (skip_blanks n) (λ b l', b = more_text i ∧ left_with i l l') l.
Proof.
  revert bs l. induction n as [|n IH]; intros bs l Hbs Hi Hn Hl; [lia|]. cbn [skip_blanks]. apply runs_bind, (runs_eof _ _ _ Hl).
  destruct bs as [|b bs]; cbn [app] in *.
  - destruct i as [|c i]; [by split|]. destruct Hi as [H1 H2]. apply runs_bind, (runs_char _ _ _ Hl). cbn [first]. rewrite H1, H2. by split.
  - apply Forall_cons_1 in Hbs as [Hb Hbs]. apply runs_bind, (runs_char _ _ _ Hl). cbn [first]. rewrite Hb. cbn.
    apply runs_bind, (runs_next _ _ _ _ Hl). intros l1 Hl1 Hs1. cbn [length] in Hn.
    eapply runs_mono; [apply (IH bs); [done|done|lia|done]|]. intros b' l2 [-> H2]. split; [done|]. by eapply left_with_trans.
Qed.

Lemma comment_line_runs t i n line l : Forall (λ c, c ≠ 10%Z ∧ c ≠ EOF) t → length t < n → has_text (t ++ 10%Z :: i) l →
  runs (comment_line n line) (λ r l', r.2 = false ∧ left_with (10%Z :: i) l l') l.
Proof.
  revert t line l. induction n as [|n IH]; intros t line l Ht Hn Hl; [lia|]. cbn [comment_line]. apply runs_bind, (runs_eof _ _ _ Hl).
  destruct t as [|c t]; cbn [app] in *.
  - apply runs_bind, (runs_char _ _ _ Hl). by split.
  - apply Forall_cons_1 in Ht as [[Hc _] Ht]. apply runs_bind, (runs_char _ _ _ Hl). cbn [first]. rewrite (proj2 (Z.eqb_neq _ _) Hc).
    apply runs_bind, (runs_next _ _ _ _ Hl). intros l1 Hl1 Hs1. cbn [length] in Hn.
    eapply runs_mono; [apply (IH t); [done|lia|done]|]. intros r l2 [-> H2]. split; [done|]. by eapply left_with_trans.
Qed.

Lemma runs_test c d i l (b : bool) (f : Z → bool) (Q : bool → Lexer → Prop) :
  has_text (c :: d :: i) l → Q (if b then f d else false) l → runs (if b then p ← peekChar; mret (f p) else mret false) Q l.
Proof. intros Hl HQ. destruct b; [|done]. by apply runs_bind, (runs_peek _ _ _ _ _ Hl). Qed.

Lemma comment_block_runs t i n l : Forall (λ c, c ≠ chr "*" ∧ c ≠ EOF) t → length t < n → has_text (t ++ chr "*" :: chr "/" :: i) l →
  runs (comment_block n) (λ b l', b = true ∧ left_with i l l') l.
Proof.
  revert t l. induction n as [|n IH]; intros t l Ht Hn Hl; [lia|]. cbn [comment_block]. apply runs_bind, (runs_eof _ _ _ Hl).
  destruct t as [|c t]; cbn [app] in *.
  - apply runs_bind, (runs_char _ _ _ Hl). cbn [first]. apply runs_bind, (runs_test _ _ _ _ _ _ _ Hl). cbn.
    apply runs_bind, (runs_next _ _ _ _ Hl). intros l1 Hl1 Hs1. apply runs_bind, (runs_next _ _ _ _ Hl1). intros l2 Hl2 Hs2.
    apply runs_ret. split; [done|]. split; [done|]. by transitivity l1.
  - apply Forall_cons_1 in Ht as [[Hc _] Ht]. apply runs_bind, (runs_char _ _ _ Hl). cbn [first]. rewrite (proj2 (Z.eqb_neq _ _) Hc).
    apply runs_bind, runs_ret, runs_bind, (runs_next _ _ _ _ Hl). intros l1 Hl1 Hs1. cbn [length] in Hn.
    eapply runs_mono; [apply (IH t); [done|lia|done]|]. intros r l2 [-> H2]. split; [done|]. by eapply left_with_trans.
Qed.

(** The star that opens a comment is not taken for the one that closes it. *)
Lemma comment_block_open t i n l : Forall (λ c, c ≠ chr "*" ∧ c ≠ EOF) t → head t ≠ Some (chr "/") → S (length t) < n →
  has_text (chr "*" :: t ++ chr "*" :: chr "/" :: i) l → runs (comment_block n) (λ b l', b = true ∧ left_with i l l') l.
Proof.
  intros Ht Hh Hn Hl. destruct n as [|n]; [lia|]. cbn [comment_block]. apply runs_bind, (runs_eof _ _ _ Hl), runs_bind, (runs_char _ _ _ Hl). cbn [first].
  assert (∃ d r, t ++ chr "*" :: chr "/" :: i = d :: r ∧ d ≠ chr "/") as (d & r & E & Hd).
  { destruct t as [|d t]; cbn; [by eexists _, _|]. eexists _, _. split; [done|]. intros ->. done. }
  rewrite E in Hl. apply runs_bind, (runs_test _ _ _ _ _ _ _ Hl). rewrite (proj2 (Z.eqb_neq _ _) Hd). cbn [Z.eqb]. rewrite Z.eqb_refl.
  apply runs_bind, (runs_next _ _ _ _ Hl). intros l1 Hl1 Hs1. rewrite <- E in Hl1.
  eapply runs_mono; [apply (comment_block_runs t i); [done|lia|done]|]. intros b l2 [-> H2]. split; [done|]. by eapply left_with_trans.
Qed.

Section reading.
Context (glob : bytes → option (list bytes)) (read_file : bytes → option bytes) (inet_pton : Z → bytes → option bytes) (fuel : nat).
Hypothesis no_includes : ∀ p, glob p = None.

Lemma runs_command (b : bool) line (Q : unit → Lexer → Prop) l : Q () l → runs (if b then processCommand glob read_file line else mret ()) Q l.
Proof. intros HQ. unfold runs. destruct b; [by rewrite processCommand_none|done]. Qed.

Lemma starts_visible i : starts i → visible i.
Proof. destruct i; [done|]. by intros (?&?&_). Qed.

(** A turn of the loop, behind its blanks. *)
Ltac behind_blanks bs i := cbn [consumeSpace_loop]; apply runs_bind; eapply runs_mono; [apply (skip_blanks_runs bs i)|].

Lemma consumeSpace_runs g i : gap g → starts i → ∀ n l, length g < n → length g < fuel → has_text (g ++ i) l →
  runs (consumeSpace_loop glob read_file fuel n) (λ b l', b = more_text i ∧ left_with i l l') l.
Proof.
  intros Hg Hi. induction Hg as [bs Hbs|bs t g Hbs Ht _ IH|bs t g Hbs Ht Hh _ IH]; intros n l Hn Hf Hl; (destruct n as [|n]; [lia|]).
  - behind_blanks bs i; [done|by apply starts_visible|done|done|]. intros b l1 [-> [Hl1 Hs1]]. destruct i as [|c r]; [done|].
    destruct Hi as (_ & _ & Hc & Hslash). cbn [more_text].
    apply runs_bind, (runs_eof _ _ _ Hl1). apply runs_bind, (runs_char _ _ _ Hl1). cbn [first]. rewrite (proj2 (Z.eqb_neq _ _) Hc).
    destruct (Z.eqb_spec c (chr "/")) as [E|E]; [|by apply runs_bind, runs_ret, runs_ret].
    destruct (Hslash E) as (d & r' & -> & Hd). apply runs_bind, runs_bind, (runs_peek _ _ _ _ _ Hl1), runs_ret.
    rewrite (proj2 (Z.eqb_neq _ _) Hd). by apply runs_ret.
  - rewrite length_app in Hn, Hf. cbn [length] in Hn, Hf. rewrite length_app in Hn, Hf. cbn [length] in Hn, Hf.
    rewrite <- app_assoc in Hl. cbn [app] in Hl. rewrite <- app_assoc in Hl. cbn [app] in Hl.
    behind_blanks bs (chr "#" :: t ++ 10%Z :: g ++ i); [done|done|lia|done|]. intros b l1 [-> [Hl1 Hs1]]. cbn [more_text].
    apply runs_bind, (runs_eof _ _ _ Hl1), runs_bind, (runs_char _ _ _ Hl1). cbn [first]. rewrite Z.eqb_refl.
    apply runs_bind, (runs_scope _ _ _ Hl1). intros s. apply runs_bind, (runs_next _ _ _ _ Hl1). intros l2 Hl2 Hs2.
    apply runs_bind. eapply runs_mono; [apply (comment_line_runs t (g ++ i)); [done|lia|done]|]. intros [line ended] l3 [[= ->] [Hl3 Hs3]].
    apply runs_bind, runs_ret, runs_bind, runs_command. eapply runs_mono; [apply IH; [cbn; lia|cbn; lia|done]|].
    intros b l4 [-> [Hl4 Hs4]]. split; [done|]. split; [done|]. by repeat (etransitivity; [eassumption|]).
  - rewrite length_app in Hn, Hf. cbn [length] in Hn, Hf. rewrite length_app in Hn, Hf. cbn [length] in Hn, Hf.
    rewrite <- app_assoc in Hl. cbn [app] in Hl. rewrite <- app_assoc in Hl. cbn [app] in Hl.
    behind_blanks bs (chr "/" :: chr "*" :: t ++ chr "*" :: chr "/" :: g ++ i); [done|done|lia|done|]. intros b l1 [-> [Hl1 Hs1]]. cbn [more_text].
    apply runs_bind, (runs_eof _ _ _ Hl1), runs_bind, (runs_char _ _ _ Hl1). cbn [first].
    change (chr "/" =? chr "#")%Z with false. rewrite Z.eqb_refl. apply runs_bind, runs_bind, (runs_peek _ _ _ _ _ Hl1), runs_ret. rewrite Z.eqb_refl.
    apply runs_bind, (runs_next _ _ _ _ Hl1). intros l2 Hl2 Hs2.
    apply runs_bind. eapply runs_mono; [apply (comment_block_open t (g ++ i)); [done|done|lia|done]|]. intros b l3 [-> [Hl3 Hs3]].
    eapply runs_mono; [apply IH; [lia|lia|done]|].
    intros b l4 [-> [Hl4 Hs4]]. split; [done|]. split; [done|]. by repeat (etransitivity; [eassumption|]).
Qed.

(** ** Lexemes *)

(** What ends a lexeme: the first character of a gap. *)
Definition stops (d : Z) : bool := isspace d || (d =? chr "#")%Z || (d =? chr "/")%Z.

Lemma stop_cases d : stops d = true → d ∈ [9; 10; 11; 12; 13; 32; 35; 47]%Z.
Proof.
  unfold stops, isspace. change (chr "#") with 35%Z. change (chr "/") with 47%Z. intros H. assert (d = 9 ∨ d = 10 ∨ d = 11 ∨ d = 12 ∨ d = 13 ∨ d = 32 ∨ d = 35 ∨ d = 47)%Z as Hd by lia.
  rewrite !elem_of_cons. intuition.
Qed.

Lemma isspace_stop c : isspace c = true → stops c = true.
Proof. intros H. unfold stops. by rewrite H. Qed.

Lemma gap_stop g : gap g → g ≠ [] → ∃ d r, g = d :: r ∧ stops d = true.
Proof.
  assert (∀ bs d r, Forall (λ c, isspace c = true) bs → stops d = true → ∃ d' r', bs ++ d :: r = d' :: r' ∧ stops d' = true) as H.
  { intros [|b bs] d r Hbs Hd; [by exists d, r|]. apply Forall_cons_1 in Hbs as [Hb _]. exists b, (bs ++ d :: r). split; [done|]. by apply isspace_stop. }
  intros Hg Hne. destruct Hg as [bs Hbs|bs t g Hbs _ _|bs t g Hbs _ _ _]; [|by apply H..].
  destruct bs as [|b bs]; [done|]. apply Forall_cons_1 in Hbs as [Hb _]. exists b, bs. split; [done|]. by apply isspace_stop.
Qed.

(** The step reads the lexeme [x] and leaves [i]. *)
Definition reads_lexeme (c : Lx Tok.FlowToken) (x : Lexeme) (i : bytes) (l : Lexer) : Prop :=
  runs c (λ t l', t ≠ Tok.Eof ∧ lexeme_of (t, lx_string l', lx_number l') = x ∧ has_text i l' ∧ lx_depth l' = 0%Z) l.

(** A symbol is read character by character. *)
Ltac decide_char :=
  match goal with |- runs (if ?b then _ else _) _ _ => let v := eval vm_compute in b in lazymatch v with true => idtac | false => idtac end; change b with v; cbv iota end.
Ltac read_char :=
  match goal with
  | |- runs (_ ← nextChar; _) _ _ => apply runs_bind; eapply runs_next; [eassumption|]; let l := fresh "l" in let Hs := fresh "Hs" in intros l ? Hs; cbn [first]
  | |- runs (_ ← peekChar; _) _ _ => apply runs_bind; eapply runs_peek; [eassumption|]
  | H : lx_depth ?l = 0%Z |- runs (_ ← lx_gets lx_depth; _) _ ?l => apply runs_bind, runs_gets; rewrite H
  | |- runs (token1 _) _ _ => unfold token1
  | |- runs (token2 _ _ _) _ _ => cbn [token2]
  end.
Ltac same_depth := cbn; repeat match goal with H : same_values _ _ |- _ => destruct H as (_ & _ & H) end; congruence.
Ltac read_symbol := repeat first [decide_char|read_char].

Lemma symbol_reads again s t d i l : (s, t) ∈ symbols → stops d = true → has_text (s ++ d :: i) l → lx_depth l = 0%Z →
  reads_lexeme (scanToken inet_pton fuel again (first s)) (LToken t) (d :: i) l.
Proof.
  intros Hst Hd Hl Hz. unfold symbols in Hst. apply stop_cases in Hd. unfold reads_lexeme, scanToken.
  repeat (apply elem_of_cons in Hst as [[= -> ->]|Hst]); [..|by apply elem_of_nil in Hst]; cbn in Hl; cbn [str first];
    repeat (apply elem_of_cons in Hd as [->|Hd]); try (by apply elem_of_nil in Hd); read_symbol;
    (apply runs_setToken; split_and!; [done|done|by eapply holds_keep|same_depth]).
Qed.

Lemma stop_facts d : stops d = true → is_word d = false ∧ isxdigit d = false ∧ isdigit d = false ∧ (d =? chr ":")%Z = false ∧ (d =? chr ".")%Z = false.
Proof. intros Hd%stop_cases. by repeat (apply elem_of_cons in Hd as [->|Hd]; [done|]); apply elem_of_nil in Hd. Qed.

(** ** Words *)

Lemma runs_addString s (Q : unit → Lexer → Prop) l : Q () (lx_setString (lx_string l ++ s) l) → runs (addString s) Q l.
Proof. done. Qed.

Lemma word_loop_runs w d i n hex l : forallb is_word w = true → stops d = true → length w < n → has_text (w ++ d :: i) l →
  runs (word_loop n hex) (λ _ l', has_text (d :: i) l' ∧ lx_string l' = lx_string l ++ w ∧ lx_depth l' = lx_depth l) l.
Proof.
  intros Hw Hd. revert w hex l Hw. induction n as [|n IH]; intros w hex l Hw Hn Hl; [lia|]. cbn [word_loop].
  apply runs_bind, (runs_char _ _ _ Hl). destruct w as [|c w]; cbn [app first].
  - destruct (stop_facts d Hd) as (-> & _). apply runs_ret. by rewrite app_nil_r.
  - cbn in Hw. apply andb_true_iff in Hw as [-> Hw]. apply runs_bind, runs_addString, runs_bind. cbn [app] in Hl.
    eapply runs_next; [eapply holds_keep; [exact Hl|done|done]|]. intros l1 Hl1 (Hs1 & _ & Hd1). cbn [length] in Hn.
    eapply runs_mono; [apply (IH w); [done|lia|done]|]. intros _ l2 (Hl2 & Hs2 & Hd2). split; [done|]. cbn in Hs1, Hd1.
    rewrite Hs2, Hs1, Hd2, Hd1. by rewrite <- app_assoc.
Qed.

(** What a word is. *)
Definition word_lexeme (w : bytes) : Lexeme :=
  match find_keyword keywords w with
  | Some t => LToken t
  | None =>
      if bool_decide (w = str "true") || bool_decide (w = str "yes") then LBoolean 1
      else if bool_decide (w = str "false") || bool_decide (w = str "no") then LBoolean 0 else LIdent w
  end.

Lemma find_keyword_in ks w t : find_keyword ks w = Some t → (w, t) ∈ ks.
Proof.
  induction ks as [|[k u] ks IH]; [done|]. cbn. destruct (bool_decide_reflect (k = w)) as [->|Hne]; [intros [= ->]; by left|intros H; right; by apply IH].
Qed.

Lemma keyword_token t s v w : (w, t) ∈ keywords → t ≠ Tok.Eof ∧ lexeme_of (t, s, v) = LToken t.
Proof.
  intros H. unfold keywords in H. by repeat (apply elem_of_cons in H as [[= -> ->]|H]; [done|]); apply elem_of_nil in H.
Qed.

Lemma parseIdent_reads w d i l : wordlike w = true → stops d = true → length w < fuel → has_text (w ++ d :: i) l → lx_depth l = 0%Z →
  reads_lexeme (parseIdent inet_pton fuel) (word_lexeme w) (d :: i) l.
Proof.
  intros Hw Hd Hf Hl Hz. destruct w as [|c w]; [done|]. cbn [wordlike] in Hw. apply andb_true_iff in Hw as [_ Hw]. cbn in Hw.
  apply andb_true_iff in Hw as [_ Hw]. unfold reads_lexeme, parseIdent. cbn [app] in Hl. cbn [length] in Hf. apply runs_bind, (runs_char _ _ _ Hl). cbn [first].
  apply runs_bind, runs_modify, runs_bind. eapply runs_next; [eapply holds_keep; [exact Hl|done|done]|]. intros l1 Hl1 (Hs1 & _ & Hd1). cbn in Hs1, Hd1.
  apply runs_bind. eapply runs_mono; [apply (word_loop_runs w d i); [done|done|lia|done]|]. intros hex l2 (Hl2 & Hs2 & Hd2). rewrite Hs1 in Hs2. cbn in Hs2.
  assert (lx_depth l2 = 0%Z) as Hz2 by congruence.
  apply runs_bind, (runs_char _ _ _ Hl2), runs_bind, runs_gets. cbn [first]. rewrite Hs2. destruct (stop_facts d Hd) as (_ & Hx & _ & Hc & _).
  rewrite Hc, Hx, !andb_false_r. cbn [andb]. unfold word_lexeme. destruct (find_keyword keywords (c :: w)) as [t|] eqn:E.
  - apply find_keyword_in in E. destruct (keyword_token t (lx_string l2) (lx_number l2) _ E) as [H1 H2]. by apply runs_setToken.
  - destruct (_ || _); [|destruct (_ || _)];
      [apply runs_bind, runs_modify, runs_setToken..|apply runs_setToken]; split_and!; try done; try (by eapply holds_keep). cbn. by rewrite Hs2.
Qed.

(** ** Numbers *)

Definition digit_of (base c : Z) : bool := (48 <=? c)%Z && (c - 48 <? base)%Z.

Lemma value_from_ge base v ds : (1 ≤ base)%Z → (0 ≤ v)%Z → Forall (λ c, digit_of base c = true) ds → (v ≤ value_from base v ds)%Z.
Proof.
  intros Hb. revert v. induction ds as [|c ds IH]; intros v Hv Hds; [done|]. apply Forall_cons_1 in Hds as [Hc Hds]. unfold digit_of in Hc.
  cbn. assert (v ≤ v * base + (c - 48))%Z by nia. etransitivity; [done|]. apply IH; [lia|done].
Qed.

Lemma number_loop_runs base ds d i n v l :
  (1 ≤ base ≤ 10)%Z → Forall (λ c, digit_of base c = true) ds → stops d = true → (0 ≤ v)%Z → (value_from base v ds < 2 ^ 63)%Z →
  length ds < n → has_text (ds ++ d :: i) l → lx_number l = v →
  runs (number_loop base n) (λ _ l', has_text (d :: i) l' ∧ lx_number l' = value_from base v ds ∧ lx_depth l' = lx_depth l) l.
Proof.
  intros Hb. revert ds v l. induction n as [|n IH]; intros ds v l Hds Hd Hv Hval Hn Hl Hnum; [lia|]. cbn [number_loop].
  apply runs_bind, (runs_char _ _ _ Hl). destruct ds as [|c ds]; cbn [app first] in *.
  - destruct (stop_facts d Hd) as (_ & _ & Hx & _). replace (_ && _) with false; [by apply runs_ret|]. unfold isdigit in Hx. lia.
  - apply Forall_cons_1 in Hds as [Hc Hds]. pose proof Hc as Hc'. unfold digit_of in Hc. rewrite Hc. cbn [length] in Hn.
    assert (0 ≤ v * base + (c - 48))%Z as Hv' by nia. pose proof (value_from_ge base _ ds ltac:(lia) Hv' Hds) as Hle.
    change (value_from base v (c :: ds)) with (value_from base (v * base + (c - 48)) ds) in *.
    apply runs_bind. unfold addDigit. apply runs_bind, runs_gets. rewrite Hnum, (proj2 (Z.ltb_lt _ _)) by lia. apply runs_modify.
    apply runs_bind, runs_addString, runs_bind. eapply runs_next; [eapply holds_keep; [exact Hl|done|done]|]. intros l1 Hl1 (_ & Hn1 & Hd1). cbn in Hn1, Hd1.
    eapply runs_mono; [apply (IH ds (v * base + (c - 48))%Z); try done; lia|]. intros _ l2 (Hl2 & Hn2 & Hd2). split_and!; [done|done|congruence].
Qed.

Lemma parseNumber_reads ds d i l : numeral ds → stops d = true → length ds < fuel → has_text (ds ++ d :: i) l → lx_depth l = 0%Z →
  reads_lexeme (parseNumber inet_pton fuel (base_of ds)) (LNumber (value ds)) (d :: i) l.
Proof.
  intros (Hne & Hds & Hv) Hd Hf Hl Hz. unfold reads_lexeme, parseNumber. apply runs_bind, runs_modify, runs_bind, runs_modify, runs_bind.
  eapply runs_mono; [apply (number_loop_runs (base_of ds) ds d i fuel 0)|].
  { unfold base_of. destruct ds as [|c ds]; [lia|]. destruct (_ =? _)%Z; lia. }
  all: try done. intros _ l1 (Hl1 & Hn1 & Hd1). apply runs_bind, (runs_char _ _ _ Hl1), runs_bind, runs_gets. cbn [first].
  destruct (stop_facts d Hd) as (_ & Hx & _ & Hc & Hp). rewrite Hc, Hx, Hp, !andb_false_r. cbn [negb]. apply runs_setToken. cbn in Hd1.
  split_and!; [done|cbn; by rewrite Hn1|done|cbn; congruence].
Qed.

Lemma scan_word again c : isalpha c || (c =? chr "_")%Z = true → scanToken inet_pton fuel again c = (t ← parseIdent inet_pton fuel; setToken t).
Proof.
  intros H. unfold scanToken. repeat match goal with |- (if Z.eqb c ?k then _ else _) = _ => destruct (Z.eqb_spec c k) as [->|_]; [discriminate H|] end.
  rewrite H. destruct (isdigit c) eqn:E; [|done]. unfold isalpha, isdigit in *. change (chr "_") with 95%Z in H. lia.
Qed.

Lemma scan_digit again c : isdigit c = true → scanToken inet_pton fuel again c = parseNumber inet_pton fuel (base_of [c]).
Proof.
  intros H. unfold scanToken. unfold base_of. repeat match goal with |- (if Z.eqb c ?k then _ else _) = _ => destruct (Z.eqb_spec c k) as [->|_]; [first [discriminate H|reflexivity]|] end.
  by rewrite H.
Qed.

(** ** Strings *)

Lemma until_delimiter_runs delim s i n p l :
  Forall (λ c, c ≠ delim ∧ c ≠ EOF) s → (s = [] → p ≠ chr "\") → (∀ s0, s ≠ s0 ++ [chr "\"]) → length s < n → has_text (s ++ delim :: i) l →
  runs (until_delimiter delim n p) (λ _ l', has_text (delim :: i) l' ∧ lx_string l' = lx_string l ++ s ∧ lx_depth l' = lx_depth l) l.
Proof.
  revert s p l. induction n as [|n IH]; intros s p l Hs Hp Hlast Hn Hl; [lia|]. cbn [until_delimiter].
  apply runs_bind, (runs_eof _ _ _ Hl), runs_bind, (runs_char _ _ _ Hl). destruct s as [|c s]; cbn [app first negb andb] in *.
  - rewrite Z.eqb_refl, (proj2 (Z.eqb_neq _ _) (Hp eq_refl)). apply runs_ret. by rewrite app_nil_r.
  - apply Forall_cons_1 in Hs as [[Hc _] Hs]. rewrite (proj2 (Z.eqb_neq _ _) Hc). cbn [negb orb length] in *.
    apply runs_bind, runs_addString, runs_bind. eapply runs_next; [eapply holds_keep; [exact Hl|done|done]|]. intros l1 Hl1 (Hs1 & _ & Hd1). cbn in Hs1, Hd1.
    eapply runs_mono; [apply (IH s c); [done| | |lia|done]|].
    + intros -> ->. by apply (Hlast []).
    + intros s0 ->. by apply (Hlast (c :: s0)).
    + intros _ l2 (Hl2 & Hs2 & Hd2). split; [done|]. rewrite Hs2, Hs1, Hd2, Hd1. by rewrite <- app_assoc.
Qed.

Lemma parseRawString_reads s d i l :
  Forall (λ c, c ≠ chr "'" ∧ c ≠ EOF) s → (∀ s0, s ≠ s0 ++ [chr "\"]) → S (length s) < fuel →
  has_text (chr "'" :: s ++ chr "'" :: d :: i) l → lx_depth l = 0%Z → reads_lexeme (parseRawString fuel) (LString (unescape s)) (d :: i) l.
Proof.
  intros Hs Hlast Hf Hl Hz. unfold reads_lexeme, parseRawString, lx_parseString. apply runs_bind, runs_bind, (runs_char _ _ _ Hl). cbn [first].
  apply runs_bind. eapply runs_next; [exact Hl|]. intros l1 Hl1 (_ & _ & Hd1). apply runs_bind, runs_modify, runs_bind.
  eapply runs_mono; [apply (until_delimiter_runs (chr "'") s (d :: i)); [done|done|done|lia|done]|]. intros _ l2 (Hl2 & Hs2 & Hd2). cbn in Hs2, Hd2.
  apply runs_bind, (runs_char _ _ _ Hl2). cbn [first]. rewrite Z.eqb_refl. apply runs_bind. eapply runs_next; [exact Hl2|]. intros l3 Hl3 (Hs3 & _ & Hd3).
  apply runs_setToken. rewrite bool_decide_eq_true_2 by done. apply runs_bind, runs_modify, runs_ret.
  split_and!; [done|cbn; by rewrite Hs3, Hs2|done|cbn; congruence].
Qed.

Lemma interpolation_loop_runs s i n p l :
  Forall (λ c, c ≠ 34%Z ∧ c ≠ chr "\" ∧ c ≠ chr "#" ∧ c ≠ EOF) s → p ≠ chr "\" → length s < n → has_text (s ++ 34%Z :: i) l →
  runs (interpolation_loop true n p) (λ t l', t = Tok.String ∧ has_text i l' ∧ lx_string l' = lx_string l ++ s ∧ lx_depth l' = (lx_depth l - 1)%Z) l.
Proof.
  revert s p l. induction n as [|n IH]; intros s p l Hs Hp Hn Hl; [lia|]. cbn [interpolation_loop].
  apply runs_bind, (runs_eof _ _ _ Hl). destruct s as [|c s]; cbn [app] in *; apply runs_bind, (runs_char _ _ _ Hl); cbn [first].
  - rewrite Z.eqb_refl, (proj2 (Z.eqb_neq _ _) Hp). cbn [negb andb]. apply runs_bind. eapply runs_next; [exact Hl|]. intros l1 Hl1 (Hs1 & _ & Hd1).
    apply runs_bind, runs_modify, runs_setToken. split_and!; [done|done|cbn; by rewrite app_nil_r|cbn; by rewrite Hd1].
  - apply Forall_cons_1 in Hs as [(H1 & H2 & H3 & _) Hs]. rewrite (proj2 (Z.eqb_neq _ _) H1), (proj2 (Z.eqb_neq _ _) H2), (proj2 (Z.eqb_neq _ _) H3). cbn [andb length] in *.
    apply runs_bind, runs_addString, runs_bind. eapply runs_next; [eapply holds_keep; [exact Hl|done|done]|]. intros l1 Hl1 (Hs1 & _ & Hd1). cbn in Hs1, Hd1.
    eapply runs_mono; [apply (IH s c); [done|done|lia|done]|]. intros t l2 (-> & Hl2 & Hs2 & Hd2). split; [done|]. split; [done|].
    rewrite Hs2, Hs1, Hd2, Hd1. by rewrite <- app_assoc.
Qed.

Lemma interpolation_reads s d i l :
  Forall (λ c, c ≠ 34%Z ∧ c ≠ chr "\" ∧ c ≠ chr "#" ∧ c ≠ EOF) s → length s < fuel → has_text (34%Z :: s ++ 34%Z :: d :: i) l → lx_depth l = 1%Z →
  reads_lexeme (parseInterpolationFragment fuel true) (LString s) (d :: i) l.
Proof.
  intros Hs Hf Hl Hz. unfold reads_lexeme, parseInterpolationFragment. apply runs_bind, runs_modify, runs_bind.
  eapply runs_next; [eapply holds_keep; [exact Hl|done|done]|]. intros l1 Hl1 (Hs1 & _ & Hd1). cbn in Hs1, Hd1.
  eapply runs_mono; [apply (interpolation_loop_runs s (d :: i)); [done|done|done|done]|]. intros t l2 (-> & Hl2 & Hs2 & Hd2).
  split_and!; [done|cbn; by rewrite Hs2, Hs1|done|rewrite Hd2; lia].
Qed.

(** ** Tokens *)

Lemma reads_setToken c x i l : reads_lexeme c x i l → reads_lexeme (t ← c; setToken t) x i l.
Proof. intros H. apply runs_bind. eapply runs_mono; [exact H|]. intros t l' (?&?&?&?). by apply runs_setToken. Qed.

Lemma nextToken_turn g i n l x rest : gap g → starts i → i ≠ [] → length g < fuel → has_text (g ++ i) l → lx_depth l = 0%Z →
  (∀ l', has_text i l' → lx_depth l' = 0%Z → reads_lexeme (scanToken inet_pton fuel (nextToken_loop glob read_file inet_pton fuel n) (first i)) x rest l') →
  reads_lexeme (nextToken_loop glob read_file inet_pton fuel (S n)) x rest l.
Proof.
  intros Hg Hi Hne Hf Hl Hz HQ. unfold reads_lexeme. cbn [nextToken_loop]. apply runs_bind. unfold consumeSpace.
  eapply runs_mono; [by apply (consumeSpace_runs g i)|]. intros b l1 [-> [Hl1 (_ & _ & Hd1)]]. destruct i as [|c i]; [done|]. cbn [more_text negb].
  apply runs_bind, (runs_scope _ _ _ Hl1). intros s. apply runs_bind, runs_modify, runs_bind. eapply runs_char; [eapply holds_keep; [exact Hl1|done|done]|].
  apply HQ; [done|cbn; congruence].
Qed.

Definition plain_char (c : Z) : bool := negb (isspace c) && isprint c && negb (c =? chr "#")%Z && negb (c =? chr "/")%Z.

Lemma plain_starts c i : plain_char c = true → starts (c :: i).
Proof.
  unfold plain_char. rewrite !andb_true_iff, !negb_true_iff, !Z.eqb_neq. intros [[[H1 H2] H3] H4]. by split_and!.
Qed.

Lemma symbol_starts s t d i : (s, t) ∈ symbols → stops d = true → starts (s ++ d :: i).
Proof.
  intros Hst Hd. assert (d ≠ chr "*") as Hne by (intros ->; done). unfold symbols in Hst.
  repeat (apply elem_of_cons in Hst as [[= -> ->]|Hst]); [try by apply plain_starts..|by apply elem_of_nil in Hst].
  split_and!; try done. intros _. by eexists _, _.
Qed.

Lemma word_starts w : wordlike w = true → ∃ c r, w = c :: r ∧ plain_char c = true ∧ isalpha c || (c =? chr "_")%Z = true.
Proof.
  destruct w as [|c r]; [done|]. cbn [wordlike]. intros [H _]%andb_true_iff. exists c, r. split_and!; [done| |done].
  unfold plain_char, isspace, isprint, isalpha in *. change (chr "_") with 95%Z in H. change (chr "#") with 35%Z. change (chr "/") with 47%Z. lia.
Qed.

Lemma word_token_reads w g d i n l : wordlike w = true → gap g → stops d = true → length g + length w < fuel → has_text (g ++ w ++ d :: i) l → lx_depth l = 0%Z →
  reads_lexeme (nextToken_loop glob read_file inet_pton fuel (S n)) (word_lexeme w) (d :: i) l.
Proof.
  intros Hw Hg Hd Hf Hl Hz. destruct (word_starts w Hw) as (c & r & -> & Hp & Ha).
  eapply nextToken_turn; [exact Hg|by apply (plain_starts c)|done|lia|exact Hl|done|]. intros l' Hl' Hz'. cbn [app first].
  rewrite scan_word by done. apply reads_setToken, parseIdent_reads; [done|done|lia|done|done].
Qed.

Lemma keyword_word w t : (w, t) ∈ keywords → wordlike w = true ∧ word_lexeme w = LToken t.
Proof.
  intros H. unfold keywords in H. by repeat (apply elem_of_cons in H as [[= -> ->]|H]; [done|]); apply elem_of_nil in H.
Qed.

Lemma boolean_word w v : (w, v) ∈ booleans → wordlike w = true ∧ word_lexeme w = LBoolean v.
Proof.
  intros H. unfold booleans in H. by repeat (apply elem_of_cons in H as [[= -> ->]|H]; [done|]); apply elem_of_nil in H.
Qed.

Lemma ident_word w : w ∉ keywords.*1 → w ∉ booleans.*1 → word_lexeme w = LIdent w.
Proof.
  intros Hk Hb. unfold word_lexeme. destruct (find_keyword keywords w) as [t|] eqn:E.
  - apply find_keyword_in in E. exfalso. apply Hk, list_elem_of_fmap. by exists (w, t).
  - unfold booleans in Hb. cbn [fmap list_fmap fst] in Hb. rewrite !not_elem_of_cons in Hb. destruct Hb as (H1 & H2 & H3 & H4 & _).
    by rewrite !bool_decide_eq_false_2.
Qed.

Lemma lexeme_reads x t g d i n l : written x t → gap g → stops d = true → length g + length t < fuel → has_text (g ++ t ++ d :: i) l → lx_depth l = 0%Z → 0 < n →
  reads_lexeme (nextToken_loop glob read_file inet_pton fuel (S n)) x (d :: i) l.
Proof.
  intros Hw Hg Hd Hf Hl Hz Hn. destruct Hw as [s t Hs| |w t Hk|w v Hb|w Hw Hk Hb|ds Hds|s Hs Hlast|s Hs].
  - apply (nextToken_turn g (s ++ d :: i)); [exact Hg|by eapply symbol_starts|by destruct s|lia|exact Hl|done|]. intros l' Hl' Hz'.
    replace (first (s ++ d :: i)) with (first s); [by apply symbol_reads|]. destruct s; [|done]. by apply list_elem_of_In in Hs; cbn in Hs; intuition.
  - apply (nextToken_turn g (chr "*" :: chr "*" :: d :: i)); [exact Hg|by apply plain_starts|done|lia|exact Hl|done|]. intros l' Hl' Hz'. cbn [str app first] in Hl' |- *.
    unfold scanToken, reads_lexeme. read_symbol. apply runs_bind. destruct n as [|n]; [lia|].
    eapply runs_mono; [apply (nextToken_turn [] (chr "*" :: d :: i) n _ (LToken Tok.Mul) (d :: i)); try done; [by constructor|cbn; lia|cbn; destruct Hs as (_ & _ & ->); done|]|].
    + intros l2 Hl2 Hz2. apply (symbol_reads _ (str "*") Tok.Mul); try done. by apply (bool_decide_unpack _).
    + intros t l2 (_ & _ & Hr & Hr'). by apply runs_setToken.
  - destruct (keyword_word w t Hk) as [Hw <-]. by eapply word_token_reads.
  - destruct (boolean_word w v Hb) as [Hw <-]. by eapply word_token_reads.
  - rewrite <- (ident_word w Hk Hb). by eapply word_token_reads.
  - destruct Hds as (Hne & Hall & Hv). destruct ds as [|c ds]; [done|]. pose proof (Forall_inv Hall) as Hc. cbn beta in Hc.
    assert (isdigit c = true) as Hdig. { unfold isdigit. cbn [base_of] in Hc. destruct (c =? chr "0")%Z; lia. }
    apply (nextToken_turn g (c :: ds ++ d :: i)); [exact Hg|apply (plain_starts c)|done|lia|exact Hl|done|].
    { unfold plain_char, isdigit, isspace, isprint in *. change (chr "#") with 35%Z. change (chr "/") with 47%Z. lia. }
    intros l' Hl' Hz'. cbn [app first]. rewrite scan_digit by done. by apply (parseNumber_reads (c :: ds)); [|done|cbn in *; lia| |].
  - cbn [app length] in *. rewrite length_app in Hf. rewrite <- app_assoc in Hl. cbn in Hf, Hl.
    apply (nextToken_turn g (chr "'" :: s ++ chr "'" :: d :: i)); [exact Hg|by apply plain_starts|done|lia|exact Hl|done|]. intros l' Hl' Hz'. cbn [first]. unfold scanToken, reads_lexeme. read_symbol.
    apply reads_setToken, parseRawString_reads; [done|done|lia|done|done].
  - cbn [app length] in *. rewrite length_app in Hf. rewrite <- app_assoc in Hl. cbn in Hf, Hl.
    apply (nextToken_turn g (34%Z :: s ++ 34%Z :: d :: i)); [exact Hg|by apply plain_starts|done|lia|exact Hl|done|]. intros l' Hl' Hz'. cbn [first]. unfold scanToken, reads_lexeme. read_symbol.
    apply runs_bind, runs_modify. apply reads_setToken, interpolation_reads; [done|lia|done|cbn; lia].
Qed.

(** ** Sources *)

Lemma nextToken_end g l : gap g → has_text g l → length g < fuel →
  runs (lx_nextToken glob read_file inet_pton fuel) (λ t _, t = Tok.Eof) l.
Proof.
  intros Hg Hl Hf. unfold lx_nextToken. assert (fuel = S (fuel - 1)) as E by lia. rewrite E at 2. cbn [nextToken_loop]. apply runs_bind.
  unfold consumeSpace. eapply runs_mono; [apply (consumeSpace_runs g []); [done|done|lia|done|by rewrite app_nil_r]|].
  intros b l1 [-> _]. by apply runs_setToken.
Qed.

Lemma tokens_spelled xs i : spells xs i → ∀ g n l, gap g → has_text (g ++ i) l → lx_depth l = 0%Z → length (g ++ i) < fuel → length xs < n → 1 < fuel →
  runs (tokens glob read_file inet_pton fuel n) (λ ts _, lexeme_of <$> ts = xs) l.
Proof.
  induction 1 as [|x t g' xs i Hx Hg' Hne _ IH]; intros g n l Hg Hl Hz Hf Hn H1; (destruct n as [|n]; [cbn in Hn; lia|]); cbn [tokens]; apply runs_bind.
  - rewrite app_nil_r in Hl, Hf. eapply runs_mono; [by apply (nextToken_end g)|]. intros t l1 ->. done.
  - destruct (gap_stop g' Hg' Hne) as (d & r & -> & Hd). unfold lx_nextToken. assert (fuel = S (fuel - 1)) as E by lia. rewrite E at 2. rewrite !length_app in Hf.
    eapply runs_mono; [apply (lexeme_reads x t g d (r ++ i) (fuel - 1)); try done; lia|]. intros u l1 (Hu & Hl1 & Hh & Hz1).
    rewrite bool_decide_eq_false_2 by done. apply runs_bind, runs_gets, runs_bind, runs_gets, runs_bind. cbn [length] in Hn.
    eapply runs_mono; [apply (IH (d :: r)); try done; [rewrite length_app|]; lia|]. intros ts l2 Hts. apply runs_ret. cbn [fmap list_fmap]. by rewrite Hl1, Hts.
Qed.
End reading.

(** A source has no end-of-file mark in it. *)
Lemma gap_bytes g : gap g → Forall (λ c, c ≠ EOF) g.
Proof.
  assert (∀ bs, Forall (λ c, isspace c = true) bs → Forall (λ c, c ≠ EOF) bs) as H.
  { intros bs Hbs. eapply list.Forall_impl; [exact Hbs|]. intros c Hc ->. done. }
  induction 1 as [bs Hbs|bs t g Hbs Ht _ IH|bs t g Hbs Ht Hh _ IH]; [by apply H|..]; (apply Forall_app; split; [by apply H|]);
    repeat (constructor; [done|]); (apply Forall_app; split; [eapply list.Forall_impl; [exact Ht|]; by intros c [_ Hc]|]); [done|by repeat (constructor; [done|])].
Qed.

Lemma word_bytes w : wordlike w = true → Forall (λ c, c ≠ EOF) w.
Proof.
  destruct w as [|c w]; [done|]. cbn [wordlike]. intros [_ H]%andb_true_iff. apply Forall_forall. intros b Hb ->.
  by apply (proj1 (forallb_forall is_word (c :: w)) H EOF) in Hb.
Qed.

Lemma written_bytes x t : written x t → Forall (λ c, c ≠ EOF) t.
Proof.
  assert (Hquote : ∀ q s, q ≠ EOF → Forall (λ c, c ≠ EOF) s → Forall (λ c, c ≠ EOF) (q :: s ++ [q])).
  { intros q s Hq Hs. constructor; [done|]. apply Forall_app. split; [done|]. by repeat constructor. }
  destruct 1 as [s t Hs| |w t Hk|w v Hb|w Hw Hk Hb|ds Hds|s Hs Hlast|s Hs].
  - unfold symbols in Hs. by repeat (apply elem_of_cons in Hs as [[= -> ->]|Hs]; [by repeat constructor|]); apply elem_of_nil in Hs.
  - by repeat constructor.
  - by apply word_bytes, (keyword_word w t).
  - by apply word_bytes, (boolean_word w v).
  - by apply word_bytes.
  - destruct Hds as (_ & Hds & _). eapply list.Forall_impl; [exact Hds|]. intros c Hc ->. done.
  - apply Hquote; [done|]. eapply list.Forall_impl; [exact Hs|]. by intros c [_ Hc].
  - apply Hquote; [done|]. eapply list.Forall_impl; [exact Hs|]. by intros c (_ & _ & _ & Hc).
Qed.

Lemma spells_bytes xs i : spells xs i → Forall (λ c, c ≠ EOF) i.
Proof.
  induction 1 as [|x t g xs i Hx Hg _ _ IH]; [constructor|]. apply Forall_app. split; [by eapply written_bytes|]. apply Forall_app. split; [by apply gap_bytes|done].
Qed.

Lemma spells_length xs i : spells xs i → length xs ≤ length i.
Proof.
  induction 1 as [|x t g xs i Hx Hg Hne _ IH]; [done|]. rewrite !length_app. cbn. destruct g; [done|]. cbn. lia.
Qed.

(** C21 (roundtrip). The lexemes that [written] admits, each followed by a gap that is not empty,
    are read as this sequence: the tokens, with the text and the number that belong to them.
    Admitted are the operators and punctuation the lexer has a token for (the compound assignments
    and the question mark are not among them, [compound_assignment_split]), keywords, booleans,
    identifiers, decimal numbers and octal numbers (those with a leading zero) below [2^63] (a
    larger one overflows, [number_overflows]), text in single quotes without a quote in it and
    without a backslash at its end (its escapes are resolved; [escaped_backslash_hides_quote]) and
    text in double quotes without quote, backslash or hash. A gap is space, line comments up to
    their newline, and block comments without a star in them, whose text does not begin with a
    slash ([comment_closed_early]). No file matches an [#include]. *)
Theorem source_read_back glob read_file inet_pton fuel ip0 g i xs :
  (∀ p, glob p = None) → gap g → spells xs i → S (length (g ++ i)) < fuel →
  ∃ ts l, lex_source glob read_file inet_pton fuel (g ++ i) (newLexer ip0) = Some (Ok (ts, l)) ∧ lexeme_of <$> ts = xs.
Proof.
  intros Hinc Hg Hi Hf.
  assert (runs (lex_source glob read_file inet_pton fuel (g ++ i)) (λ ts _, lexeme_of <$> ts = xs) (newLexer ip0)) as H.
  { unfold lex_source, enterStream. apply runs_bind, runs_bind, runs_gets, runs_bind, runs_modify, runs_bind, runs_modify, runs_bind.
    eapply (runs_next 0 (g ++ i)).
    - eexists. split; [done|]. split_and!; try done. apply Forall_app. split; [by apply gap_bytes|by eapply spells_bytes].
    - intros l1 Hl1 (_ & _ & Hd). apply runs_ret. pose proof (spells_length xs i Hi). rewrite length_app in Hf.
      apply (tokens_spelled glob read_file inet_pton fuel Hinc xs i Hi g); try done; [rewrite length_app|..]; lia. }
  unfold runs in H. destruct (lex_source _ _ _ _ _ _) as [[[ts l]|]|]; [|done|done]. by exists ts, l.
Qed.

Lemma source_read_back_witness :
  let source := str "# main" ++ [10%Z] ++
    (str "handler" ++ [32%Z] ++ str "main" ++ [32%Z] ++ str "{" ++ [10%Z; 9%Z] ++ str "x1" ++ [32%Z] ++ str "=" ++ str "/* octal */" ++ str "017" ++ [32%Z] ++
     str "**" ++ [32%Z] ++ str "'it'" ++ [10%Z] ++ str "}" ++ [10%Z] ++ []) in
  ∃ ts l, lex_source (λ _, None) (λ _, None) (λ _ _, None) 100 source (newLexer (mkIPAddress AF_INET [] [])) = Some (Ok (ts, l)) ∧
  lexeme_of <$> ts = [LToken Tok.Handler; LIdent (str "main"); LToken Tok.Begin; LIdent (str "x1"); LToken Tok.Assign; LNumber 15; LToken Tok.Pow; LString (str "it"); LToken Tok.End].
Proof.
  intros source. unfold source. rewrite (app_assoc (str "# main") [10%Z]).
  assert (Hblank : ∀ bs, forallb isspace bs = true → gap bs) by (intros bs H; apply gap_blanks; by apply Forall_forall; apply forallb_forall).
  assert (Hall : ∀ (f : Z → bool) (P : Z → Prop) s, (∀ c, f c = true → P c) → forallb f s = true → Forall P s).
  { intros f P s Hf H. apply Forall_forall. intros c Hc. apply Hf. by apply (proj1 (forallb_forall f s) H). }
  apply source_read_back; [done| | |vm_compute; lia].
  { apply (gap_line [] (str " main") []); [constructor| |by apply Hblank].
    apply (Hall (λ c, negb (c =? 10) && negb (c =? EOF))%Z); [intros c; rewrite andb_true_iff, !negb_true_iff, !Z.eqb_neq; done|done]. }
  apply spells_next; [apply written_keyword; by apply (bool_decide_unpack _)|by apply Hblank|done|].
  apply spells_next; [by apply written_ident; try apply (bool_decide_unpack _)|by apply Hblank|done|].
  apply spells_next; [apply written_symbol; by apply (bool_decide_unpack _)|by apply Hblank|done|].
  apply spells_next; [by apply written_ident; try apply (bool_decide_unpack _)|by apply Hblank|done|].
  apply spells_next; [apply written_symbol; by apply (bool_decide_unpack _)| |done|].
  { apply (gap_block [] (str " octal ") []); [constructor| |done|by apply Hblank].
    apply (Hall (λ c, negb (c =? chr "*") && negb (c =? EOF))%Z); [intros c; rewrite andb_true_iff, !negb_true_iff, !Z.eqb_neq; done|done]. }
  apply spells_next; [|by apply Hblank|done|].
  { apply (written_number (str "017")). split_and!; [done| |done]. by apply (Hall (λ c, (48 <=? c)%Z && (c - 48 <? 8)%Z)). }
  apply spells_next; [apply written_pow|by apply Hblank|done|].
  apply spells_next; [|by apply Hblank|done|].
  { apply (written_raw (str "it")).
    - apply (Hall (λ c, negb (c =? chr "'") && negb (c =? EOF))%Z); [intros c; rewrite andb_true_iff, !negb_true_iff, !Z.eqb_neq; done|done].
    - intros s0 H%(f_equal (@rev Z)). rewrite rev_app_distr in H. discriminate H. }
  apply spells_next; [apply written_symbol; by apply (bool_decide_unpack _)|by apply Hblank|done|constructor].
Defined.

(** ** What is read otherwise *)

Definition lexed (source : bytes) : option (result (list Lexeme)) :=
  match lex_source (λ _, None) (λ _, None) (λ _ _, None) 60 source (newLexer (mkIPAddress AF_INET [] [])) with
  | Some (Ok (ts, _)) => Some (Ok (lexeme_of <$> ts)) | Some (Raise e) => Some (Raise e) | None => None
  end.

(** The star that opens a comment closes it as well when a slash follows. *)
Lemma comment_closed_early : lexed (str "/*/ x */") = Some (Ok [LIdent (str "x"); LToken Tok.Mul; LToken Tok.Div]).
Proof. reflexivity. Qed.

(** A string that ends with an escaped backslash is not closed. *)
Lemma escaped_backslash_hides_quote : lexed (str "'a\\' b") = Some (Ok [LToken Tok.Unknown]).
Proof. reflexivity. Qed.

(** The tokens of compound assignments and of the question mark are never returned. *)
Lemma compound_assignment_split : lexed (str "x += 1 ? y") = Some (Ok [LIdent (str "x"); LToken Tok.Plus; LToken Tok.Assign; LNumber 1; LToken Tok.Unknown; LIdent (str "y")]).
Proof. reflexivity. Qed.

(** A parameter whose name has only hexadecimal digits is taken for an address. *)
Lemma hex_parameter_unknown : lexed (str "a: 1") = Some (Ok [LToken Tok.Unknown; LNumber 1]).
Proof. reflexivity. Qed.

Lemma number_overflows : lexed (str "9223372036854775808") = Some (Raise SignedOverflow).
Proof. reflexivity. Qed.
