(* ===== verification/Cli.v ===== *)
(** * Command lines

    [src/xzero/cli/CLI.cc], [Flags.cc]: the definitions of flags and the evaluation of
    the arguments of a program. The functions that are called for a flag are recorded
    with the values they get; floating-point numbers are a parameter. *)
From stdpp Require Import gmap.
From S2P Require Import Prelude Http1Generator HttpMessage NetAddress.

Inductive FlagType := FtString | FtNumber | FtFloat | FtIP | FtBool.
#[export] Instance FlagType_eq_dec : EqDecision FlagType.
Proof. solve_decision. Defined.

(** ** Flags *)

Record Flags := mkFlags { fs_set : gmap bytes (FlagType * bytes); fs_raw : list bytes }.
Definition newFlags : Flags := mkFlags ∅ [].

(** [Flags::set]; the style of a flag is not kept. *)
Definition fs_merge (name value : bytes) (t : FlagType) (f : Flags) : Flags := mkFlags (<[name := (t, value)]> (fs_set f)) (fs_raw f).
Definition isSet (name : bytes) (f : Flags) : bool := match fs_set f !! name with Some _ => true | None => false end.
Definition setParameters (v : list bytes) (f : Flags) : Flags := mkFlags (fs_set f) v.

(** The value of a flag of type [t]. *)
Definition fs_get (t : FlagType) (name : bytes) (f : Flags) : result bytes :=
  match fs_set f !! name with
  | None => Raise CliFlagNotFoundError
  | Some (t', v) => if bool_decide (t' = t) then Ok v else Raise CliTypeMismatchError
  end.
Definition fs_getString : bytes → Flags → result bytes := fs_get FtString.
Definition asString (name : bytes) (f : Flags) : result bytes :=
  match fs_set f !! name with None => Raise CliFlagNotFoundError | Some (_, v) => Ok v end.
Definition getNumber (name : bytes) (f : Flags) : result Z := v ← fs_get FtNumber name f; std_stoi v.
Definition getBool (name : bytes) (f : Flags) : bool :=
  match fs_set f !! name with None => false | Some (_, v) => bool_decide (v = str "true") end.

(** [Flags::to_s] for the entries in the order of the hash table. *)
Definition flag_text (x : bytes * (FlagType * bytes)) : bytes :=
  let '(name, (t, v)) := x in
  str "--" ++ name ++
  match t with
  | FtBool => if bool_decide (v = str "true") then [] else str "=false"
  | FtString => str "=" ++ [34] ++ v ++ [34]
  | _ => str "=" ++ v
  end.
Fixpoint fs_to_s (entries : list (bytes * (FlagType * bytes))) : bytes :=
  match entries with [] => [] | [x] => flag_text x | x :: xs => flag_text x ++ [32] ++ fs_to_s xs end.

(** ** Definitions *)

Section Cli.
Context (float : Type) (stof : bytes → result float) (float_to_string : float → bytes).
Context (inet_ntop : Z → bytes → bytes) (inet_pton : Z → bytes → option bytes) (uninit : IPAddress).

(** What the function of a flag is called with. *)
Inductive CliArg := ArgString (s : bytes) | ArgNumber (n : Z) | ArgFloat (x : float) | ArgIP (a : IPAddress) | ArgBool (b : bool).

Record FlagDef := mkFlagDef {
  fd_type : FlagType;
  fd_longOption : bytes;
  fd_shortOption : Z;
  fd_required : bool;
  fd_valuePlaceholder : bytes;
  fd_helpText : bytes;
  fd_defaultValue : bytes;
  fd_callback : option (bytes → result (list CliArg)) }.

Record CLI := mkCLI { cli_flagDefs : list FlagDef; cli_parametersEnabled : bool; cli_parametersPlaceholder : bytes; cli_parametersHelpText : bytes }.
Definition newCLI : CLI := mkCLI [] false [] [].

Definition cli_define (longOpt : bytes) (shortOpt : Z) (required : bool) (t : FlagType) (valuePlaceholder helpText defaultValue : bytes)
    (callback : option (bytes → result (list CliArg))) (c : CLI) : CLI :=
  mkCLI (cli_flagDefs c ++ [mkFlagDef t longOpt shortOpt required valuePlaceholder helpText defaultValue callback])
    (cli_parametersEnabled c) (cli_parametersPlaceholder c) (cli_parametersHelpText c).

(** [callback] says whether there is a function; a default makes the flag optional. *)
Definition converting {A} (callback : bool) (convert : bytes → result A) (arg : A → CliArg) : option (bytes → result (list CliArg)) :=
  Some (λ v, if callback then a ← convert v; Ok [arg a] else Ok []).
Definition to_string (n : Z) : bytes := if n <? 0 then str "-" ++ decimal (- n) else decimal n.
Definition is_required {A} (defaultValue : option A) : bool := match defaultValue with None => true | Some _ => false end.
Definition default_text {A} (print : A → bytes) (defaultValue : option A) : bytes := match defaultValue with None => [] | Some a => print a end.

Definition defineString (longOpt : bytes) (shortOpt : Z) (valuePlaceholder helpText : bytes) (defaultValue : option bytes) (callback : bool) : CLI → CLI :=
  cli_define longOpt shortOpt (is_required defaultValue) FtString valuePlaceholder helpText (default_text id defaultValue)
    (if callback then Some (λ v, Ok [ArgString v]) else None).
Definition defineNumber (longOpt : bytes) (shortOpt : Z) (valuePlaceholder helpText : bytes) (defaultValue : option Z) (callback : bool) : CLI → CLI :=
  cli_define longOpt shortOpt (is_required defaultValue) FtNumber valuePlaceholder helpText (default_text to_string defaultValue)
    (converting callback std_stoi ArgNumber).
Definition defineFloat (longOpt : bytes) (shortOpt : Z) (valuePlaceholder helpText : bytes) (defaultValue : option float) (callback : bool) : CLI → CLI :=
  cli_define longOpt shortOpt (is_required defaultValue) FtFloat valuePlaceholder helpText (default_text float_to_string defaultValue)
    (converting callback stof ArgFloat).
Definition defineIPAddress (longOpt : bytes) (shortOpt : Z) (valuePlaceholder helpText : bytes) (defaultValue : option IPAddress) (callback : bool) : CLI → CLI :=
  cli_define longOpt shortOpt (is_required defaultValue) FtIP valuePlaceholder helpText (default_text (ip_str inet_ntop) defaultValue)
    (converting callback (λ v, Ok (ip_of_text inet_pton uninit v)) ArgIP).
Definition defineBool (longOpt : bytes) (shortOpt : Z) (helpText : bytes) (callback : bool) : CLI → CLI :=
  cli_define longOpt shortOpt false FtBool (str "<bool>") helpText []
    (converting callback (λ v, Ok (bool_decide (v = str "true"))) ArgBool).
Definition enableParameters (valuePlaceholder helpText : bytes) (c : CLI) : CLI := mkCLI (cli_flagDefs c) true valuePlaceholder helpText.

Definition getFloat (name : bytes) (f : Flags) : result float := v ← fs_get FtFloat name f; stof v.
Definition getIPAddress (name : bytes) (f : Flags) : result IPAddress := v ← fs_get FtIP name f; Ok (ip_of_text inet_pton uninit v).

Fixpoint find_flag (p : FlagDef → bool) (fds : list FlagDef) : option FlagDef :=
  match fds with [] => None | fd :: fds => if p fd then Some fd else find_flag p fds end.
Definition find_long (name : bytes) (c : CLI) : option FlagDef := find_flag (λ fd, bool_decide (fd_longOption fd = name)) (cli_flagDefs c).
Definition find_short (o : Z) (c : CLI) : option FlagDef := find_flag (λ fd, fd_shortOption fd =? o) (cli_flagDefs c).
Definition require_long (name : bytes) (c : CLI) : result FlagDef :=
  match find_long name c with Some fd => Ok fd | None => Raise CliUnknownOptionError end.
Definition require_short (o : Z) (c : CLI) : result FlagDef :=
  match find_short o c with Some fd => Ok fd | None => Raise CliUnknownOptionError end.

(** ** Evaluation *)

(** The flags so far and the calls made. *)
Definition Evaluation : Type := Flags * list CliArg.

(** [flags.set] and [call]. *)
Definition set_and_call (c : CLI) (name value : bytes) (t : FlagType) (e : Evaluation) : result Evaluation :=
  fd ← require_long name c;
  calls ← match fd_callback fd with Some f => f value | None => Ok [] end;
  Ok (fs_merge name value t e.1, e.2 ++ calls).

Definition dashed (s : bytes) : bool := match s with x :: _ => x =? 45 | [] => false end.

(** The letters of a short option. [i] is the index of the argument; every switch
    among the letters takes one. *)
Fixpoint short_loop (c : CLI) (args : list bytes) (arg : bytes) (i : nat) (e : Evaluation) : result (nat * Evaluation) :=
  match arg with
  | [] => Ok (i, e)
  | o :: rest =>
      match find_short o c with
      | None => Raise CliUnknownOptionError
      | Some fd =>
          if bool_decide (fd_type fd = FtBool) then
            e ← set_and_call c (fd_longOption fd) (str "true") FtBool e;
            short_loop c args rest (S i) e
          else
            match rest with
            | _ :: _ => e ← set_and_call c (fd_longOption fd) rest (fd_type fd) e; Ok (S i, e)
            | [] =>
                match args !! S i with
                | None => Raise CliMissingOptionValueError
                | Some value =>
                    if dashed value then Raise CliMissingOptionValueError
                    else e ← set_and_call c (fd_longOption fd) value (fd_type fd) e; Ok (S (S i), e)
                end
            end
      end
  end.

(** An option behind two dashes. *)
Fixpoint find_eq (s : bytes) : option (bytes * bytes) :=
  match s with
  | [] => None
  | x :: s => if x =? 61 then Some ([], s) else '(name, value) ← find_eq s; Some (x :: name, value)
  end.
Definition long_option (c : CLI) (args : list bytes) (arg : bytes) (i : nat) (e : Evaluation) : result (nat * Evaluation) :=
  match find_eq arg with
  | Some (name, value) =>
      fd ← require_long name c;
      e ← set_and_call c name value (fd_type fd) e;
      Ok (S i, e)
  | None =>
      fd ← require_long arg c;
      if bool_decide (fd_type fd = FtBool) then e ← set_and_call c arg (str "true") (fd_type fd) e; Ok (S i, e)
      else
        match args !! S i with
        | None => Raise CliMissingOptionValueError
        | Some value => e ← set_and_call c arg value (fd_type fd) e; Ok (S (S i), e)
        end
  end.

(** [only] is the state [Parameters], [n] bounds the turns of the loop. *)
Fixpoint evaluate_loop (c : CLI) (args : list bytes) (n : nat) (only : bool) (i : nat) (e : Evaluation) (params : list bytes) : result (Evaluation * list bytes) :=
  match n with
  | O => Raise Blocked
  | S n =>
      match args !! i with
      | None => Ok (e, params)
      | Some arg =>
          if only then evaluate_loop c args n true (S i) e (params ++ [arg])
          else if bool_decide (arg = str "--") then evaluate_loop c args n true (S i) e params
          else if (2 <? length arg)%nat && dashed arg && dashed (drop 1 arg) then
            '(i, e) ← long_option c args (drop 2 arg) i e; evaluate_loop c args n false i e params
          else if (1 <? length arg)%nat && dashed arg then
            '(i, e) ← short_loop c args (drop 1 arg) i e; evaluate_loop c args n false i e params
          else if cli_parametersEnabled c then evaluate_loop c args n false (S i) e (params ++ [arg])
          else Raise CliUnknownOptionError
      end
  end.

Fixpoint fill_defaults (c : CLI) (fds : list FlagDef) (e : Evaluation) : result Evaluation :=
  match fds with
  | [] => Ok e
  | fd :: fds =>
      e ← match fd_defaultValue fd with
          | _ :: _ => if isSet (fd_longOption fd) e.1 then Ok e else set_and_call c (fd_longOption fd) (fd_defaultValue fd) (fd_type fd) e
          | [] =>
              if bool_decide (fd_type fd = FtBool) then
                if isSet (fd_longOption fd) e.1 then Ok e else set_and_call c (fd_longOption fd) (str "false") FtBool e
              else Ok e
          end;
      fill_defaults c fds e
  end.

Definition cli_evaluate (c : CLI) (args : list bytes) : result Evaluation :=
  '(e, params) ← evaluate_loop c args (S (length args)) false 0 (newFlags, []) [];
  fill_defaults c (cli_flagDefs c) (setParameters params e.1, e.2).
(** The first argument is the program. *)
Definition evaluate_argv (c : CLI) (argv : list bytes) : result Evaluation := cli_evaluate c (drop 1 argv).

(** ** Help *)

(** [std::setw(n) << ' ']. *)
Definition setw (n : nat) : bytes := replicate (Nat.max 1 n) 32.
Fixpoint wordWrap (text : bytes) (currentWidth width indent : nat) : bytes :=
  match text with
  | [] => []
  | x :: text =>
      if (width <=? currentWidth)%nat then [10] ++ setw indent ++ [x] ++ wordWrap text 1 width indent
      else [x] ++ wordWrap text (S currentWidth) width indent
  end.

Definition makeHelpText (width helpTextOffset : nat) (fd : FlagDef) : bytes :=
  let head :=
    [32] ++ (if fd_shortOption fd =? 0 then str "    " else str "-" ++ [fd_shortOption fd] ++ str ", ") ++ str "--" ++ fd_longOption fd ++
    (if bool_decide (fd_type fd = FtBool) then [] else str "=" ++ match fd_valuePlaceholder fd with [] => str "VALUE" | p => p end) in
  let column := length head in
  let '(spacer, column) := if (column <? helpTextOffset)%nat then (setw (helpTextOffset - column), column) else ([10] ++ setw helpTextOffset, helpTextOffset) in
  let text :=
    if negb (bool_decide (fd_type fd = FtBool)) && negb (bool_decide (fd_defaultValue fd = []))
    then fd_helpText fd ++ str " [" ++ fd_defaultValue fd ++ str "]" else fd_helpText fd in
  head ++ spacer ++ wordWrap text column width helpTextOffset ++ [10].

Definition helpText (width helpTextOffset : nat) (c : CLI) : bytes :=
  mjoin (makeHelpText width helpTextOffset <$> cli_flagDefs c) ++
  if cli_parametersEnabled c then
    let head := str "    [--] " ++ cli_parametersPlaceholder c in
    [10] ++ head ++ (if (length head <? helpTextOffset)%nat then setw (helpTextOffset - length head) else [10] ++ setw helpTextOffset) ++
    cli_parametersHelpText c ++ [10]
  else [].
End Cli.

Arguments fd_type {float}. Arguments fd_longOption {float}. Arguments fd_shortOption {float}. Arguments fd_required {float}.
Arguments fd_defaultValue {float}. Arguments fd_callback {float}. Arguments mkFlagDef {float}. Arguments cli_flagDefs {float}.
Arguments cli_parametersEnabled {float}. Arguments newCLI {float}. Arguments find_long {float}. Arguments find_short {float}. Arguments find_flag {float}.
Arguments require_long {float}. Arguments set_and_call {float}. Arguments short_loop {float}. Arguments long_option {float}.
Arguments evaluate_loop {float}. Arguments fill_defaults {float}. Arguments cli_evaluate {float}. Arguments evaluate_argv {float}.
Arguments ArgString {float}. Arguments ArgNumber {float}. Arguments ArgFloat {float}. Arguments ArgIP {float}. Arguments ArgBool {float}.
