(* ===== verification/CliEvaluate.v ===== *)
(** * Command lines are read as they are written

    A command line is a sequence of options, each in one of the forms of the program,
    and parameters; evaluating it sets the flags in this order, then the defaults of
    those that were not set. *)
From stdpp Require Import gmap.
From S2P Require Import Prelude Http1Generator HttpMessage NetAddress Cli.
Local Open Scope nat_scope.

Section Lines.
Context {float : Type}.
Implicit Types (c : CLI float) (fd : FlagDef float).

(** ** What is written *)

Inductive Item :=
  | LongEq (fd : FlagDef float) (v : bytes)       (* --name=v *)
  | LongSep (fd : FlagDef float) (v : bytes)      (* --name v *)
  | LongSwitch (fd : FlagDef float)               (* --name *)
  | ShortInline (fd : FlagDef float) (v : bytes)  (* -nv *)
  | ShortSep (fd : FlagDef float) (v : bytes)     (* -n v *)
  | ShortSwitch (fd : FlagDef float)              (* -n *)
  | Param (p : bytes).

Definition item_words (it : Item) : list bytes :=
  match it with
  | LongEq fd v => [str "--" ++ fd_longOption fd ++ str "=" ++ v]
  | LongSep fd v => [str "--" ++ fd_longOption fd; v]
  | LongSwitch fd => [str "--" ++ fd_longOption fd]
  | ShortInline fd v => [str "-" ++ [fd_shortOption fd] ++ v]
  | ShortSep fd v => [str "-" ++ [fd_shortOption fd]; v]
  | ShortSwitch fd => [str "-" ++ [fd_shortOption fd]]
  | Param p => [p]
  end.

(** The flag, its value and its type. *)
Definition Setting : Type := bytes * bytes * FlagType.
Definition setting (it : Item) : list Setting :=
  match it with
  | LongEq fd v | LongSep fd v | ShortInline fd v | ShortSep fd v => [(fd_longOption fd, v, fd_type fd)]
  | LongSwitch fd | ShortSwitch fd => [(fd_longOption fd, str "true", FtBool)]
  | Param _ => []
  end.
Definition parameter (it : Item) : list bytes := match it with Param p => [p] | _ => [] end.

Definition has_eq (s : bytes) : bool := match find_eq s with Some _ => true | None => false end.

(** The flag is found by its name, and by its letter. *)
Definition named c fd : Prop := find_long (fd_longOption fd) c = Some fd ∧ has_eq (fd_longOption fd) = false.
Definition lettered c fd : Prop := find_short (fd_shortOption fd) c = Some fd ∧ find_long (fd_longOption fd) c = Some fd ∧ fd_shortOption fd ≠ 45%Z.

Definition item_ok c (it : Item) : Prop :=
  match it with
  | LongEq fd v => named c fd
  | LongSep fd v => named c fd ∧ fd_longOption fd ≠ [] ∧ fd_type fd ≠ FtBool
  | LongSwitch fd => named c fd ∧ fd_longOption fd ≠ [] ∧ fd_type fd = FtBool
  | ShortInline fd v => lettered c fd ∧ fd_type fd ≠ FtBool ∧ v ≠ []
  | ShortSep fd v => lettered c fd ∧ fd_type fd ≠ FtBool ∧ dashed v = false
  | ShortSwitch fd => lettered c fd ∧ fd_type fd = FtBool
  | Param p => cli_parametersEnabled c = true ∧ (dashed p = false ∨ p = str "-")
  end.

(** Behind two dashes everything is a parameter. *)
Definition command_line (items : list Item) (raw : option (list bytes)) : list bytes :=
  mjoin (item_words <$> items) ++ match raw with Some ps => str "--" :: ps | None => [] end.
Definition parameters (items : list Item) (raw : option (list bytes)) : list bytes := mjoin (parameter <$> items) ++ default [] raw.

(** ** What it means *)

Fixpoint settle c (ss : list Setting) (e : Evaluation float) : result (Evaluation float) :=
  match ss with [] => Ok e | (name, v, t) :: ss => e ← set_and_call c name v t e; settle c ss e end.

Definition default_of fd : option Setting :=
  match fd_defaultValue fd with
  | _ :: _ => Some (fd_longOption fd, fd_defaultValue fd, fd_type fd)
  | [] => if bool_decide (fd_type fd = FtBool) then Some (fd_longOption fd, str "false", FtBool) else None
  end.

(** The defaults of the flags that are not among [names]. *)
Fixpoint missing (names : list bytes) (fds : list (FlagDef float)) : list Setting :=
  match fds with
  | [] => []
  | fd :: fds =>
      match default_of fd with
      | Some s => if bool_decide (fd_longOption fd ∈ names) then missing names fds else s :: missing (fd_longOption fd :: names) fds
      | None => missing names fds
      end
  end.

(** The last setting of a flag. *)
Definition last_of (name : bytes) (ss : list Setting) : option (FlagType * bytes) :=
  fold_left (λ r s, if bool_decide (s.1.1 = name) then Some (s.2, s.1.2) else r) ss None.

(** ** Items *)

Lemma settle_app c ss ss' e : settle c (ss ++ ss') e = (e ← settle c ss e; settle c ss' e).
Proof.
  revert e. induction ss as [|[[name v] t] ss IH]; intros e; [done|]. cbn. destruct (set_and_call c name v t e) as [e'|x]; [|done]. apply IH.
Qed.

Lemma settle_one c name v t e : settle c [(name, v, t)] e = set_and_call c name v t e.
Proof. cbn. by destruct (set_and_call c name v t e). Qed.

Lemma find_eq_app name v : has_eq name = false → find_eq (name ++ 61%Z :: v) = Some (name, v).
Proof.
  unfold has_eq. induction name as [|x name IH]; [done|]. cbn. destruct (x =? 61)%Z; [done|]. destruct (find_eq name) as [[]|] eqn:E; [done|].
  intros _. by rewrite IH.
Qed.

Lemma find_eq_none name : has_eq name = false → find_eq name = None.
Proof. unfold has_eq. by destruct (find_eq name). Qed.

Lemma next_word (pre post : list bytes) x : (pre ++ x :: post) !! length pre = Some x.
Proof. rewrite lookup_app_r by lia. by rewrite Nat.sub_diag. Qed.

Lemma second_word (pre post : list bytes) x y : (pre ++ x :: y :: post) !! S (length pre) = Some y.
Proof. rewrite lookup_app_r by lia. by replace (S (length pre) - length pre) with 1 by lia. Qed.

Lemma long_turn c args n i e params x : args !! i = Some (45%Z :: 45%Z :: x) → x ≠ [] →
  evaluate_loop c args (S n) false i e params = ('(i, e) ← long_option c args x i e; evaluate_loop c args n false i e params).
Proof. intros Ha Hx. cbn [evaluate_loop]. rewrite Ha, bool_decide_eq_false_2 by (intros [= ->]; done). by destruct x. Qed.

Lemma short_turn c args n i e params o x : args !! i = Some (45%Z :: o :: x) → o ≠ 45%Z →
  evaluate_loop c args (S n) false i e params = ('(i, e) ← short_loop c args (o :: x) i e; evaluate_loop c args n false i e params).
Proof.
  intros Ha Ho. cbn [evaluate_loop]. rewrite Ha, bool_decide_eq_false_2 by (intros [= -> _]; done).
  cbn [dashed drop]. rewrite (proj2 (Z.eqb_neq _ _) Ho), andb_false_r. done.
Qed.

Lemma param_turn c args n i e params p : args !! i = Some p → cli_parametersEnabled c = true → dashed p = false ∨ p = str "-" →
  evaluate_loop c args (S n) false i e params = evaluate_loop c args n false (S i) e (params ++ [p]).
Proof.
  intros Ha Hc Hp. cbn [evaluate_loop]. rewrite Ha, bool_decide_eq_false_2, Hc by (intros ->; destruct Hp; done).
  destruct Hp as [Hp| ->]; [|done]. rewrite Hp. cbn. by rewrite !andb_false_r.
Qed.

Lemma item_turn c pre it post n e params : item_ok c it →
  let args := pre ++ item_words it ++ post in
  evaluate_loop c args (S n) false (length pre) e params =
  (e ← settle c (setting it) e; evaluate_loop c args n false (length (pre ++ item_words it)) e (params ++ parameter it)).
Proof.
  intros Hok args. subst args.
  destruct it as [fd v|fd v|fd|fd v|fd v|fd|p]; cbn [item_words app setting parameter] in *; rewrite ?app_nil_r, ?settle_one, length_app; cbn [length].
  - destruct Hok as [Hf He]. erewrite long_turn; [|apply next_word|by destruct (fd_longOption fd)]. change (str "=" ++ v) with (61%Z :: v). unfold long_option, require_long.
    rewrite find_eq_app, Hf by done. cbn. rewrite Nat.add_1_r. by destruct (set_and_call _ _ _ _ _).
  - destruct Hok as ([Hf He] & Hne & Ht). erewrite long_turn; [|apply next_word|done]. unfold long_option, require_long.
    rewrite find_eq_none, Hf by done. cbn [mbind result_bind]. rewrite bool_decide_eq_false_2, second_word by done. replace (length pre + 2) with (S (S (length pre))) by lia.
    by destruct (set_and_call _ _ _ _ _).
  - destruct Hok as ([Hf He] & Hne & Ht). erewrite long_turn; [|apply next_word|done]. unfold long_option, require_long.
    rewrite find_eq_none, Hf by done. cbn [mbind result_bind]. rewrite bool_decide_eq_true_2, Nat.add_1_r, Ht by done. by destruct (set_and_call _ _ _ _ _).
  - destruct Hok as ((Hs & Hf & Ho) & Ht & Hv). erewrite short_turn; [|apply next_word|done]. cbn [short_loop]. rewrite Hs, bool_decide_eq_false_2, Nat.add_1_r by done.
    destruct v as [|x v]; [done|]. by destruct (set_and_call _ _ _ _ _).
  - destruct Hok as ((Hs & Hf & Ho) & Ht & Hv). erewrite short_turn; [|apply next_word|done]. cbn [short_loop]. rewrite Hs, bool_decide_eq_false_2, second_word by done.
    replace (length pre + 2) with (S (S (length pre))) by lia.
    rewrite Hv. by destruct (set_and_call _ _ _ _ _).
  - destruct Hok as ((Hs & Hf & Ho) & Ht). erewrite short_turn; [|apply next_word|done]. cbn [short_loop]. rewrite Hs, bool_decide_eq_true_2, Nat.add_1_r by done.
    by destruct (set_and_call _ _ _ _ _).
  - destruct Hok as [Hc Hp]. erewrite param_turn; [|apply next_word|done|done]. cbn. by rewrite Nat.add_1_r.
Qed.

(** ** Command lines *)

Lemma raw_turns c args n i e params : i ≤ length args → length args - i < n → evaluate_loop c args n true i e params = Ok (e, params ++ drop i args).
Proof.
  revert i params. induction n as [|n IH]; intros i params Hi Hn; [lia|]. cbn [evaluate_loop]. destruct (args !! i) as [arg|] eqn:E.
  - pose proof (lookup_lt_Some _ _ _ E). rewrite IH by lia. rewrite (drop_S _ _ _ E). by rewrite <- app_assoc.
  - apply lookup_ge_None in E. rewrite drop_ge by lia. by rewrite app_nil_r.
Qed.

Lemma items_turns c items raw pre n e params : Forall (item_ok c) items →
  let args := pre ++ command_line items raw in
  length args - length pre < n →
  evaluate_loop c args n false (length pre) e params =
  (e ← settle c (mjoin (setting <$> items)) e; Ok (e, params ++ parameters items raw)).
Proof.
  intros Hok. revert pre n e params. induction Hok as [|it items Hit _ IH]; intros pre n e params args Hn; (destruct n as [|n]; [lia|]).
  - subst args. unfold command_line, parameters in *. cbn [fmap list_fmap mjoin list_join app settle mbind result_bind] in *. destruct raw as [ps|].
    + cbn [evaluate_loop]. rewrite next_word, bool_decide_eq_true_2 by done. rewrite raw_turns; rewrite length_app in *; cbn [length] in *; [|lia|lia].
      cbn [default]. replace (S (length pre)) with (length (pre ++ [str "--"])) by (rewrite length_app; cbn; lia).
      by rewrite (app_assoc pre [str "--"] ps : pre ++ str "--" :: ps = _), drop_app_length.
    + cbn [evaluate_loop default]. rewrite lookup_ge_None_2 by (rewrite app_nil_r; lia). by rewrite app_nil_r.
  - subst args. unfold command_line, parameters in *. cbn [fmap list_fmap mjoin list_join] in *. rewrite <- !app_assoc in *.
    rewrite item_turn by done. rewrite settle_app. rewrite !length_app in Hn.
    destruct (settle c (setting it) e) as [e'|x]; [|done]. cbn [mbind result_bind]. rewrite (app_assoc pre (item_words it)). unfold command_line, parameters in IH.
    rewrite IH; [by rewrite <- app_assoc|]. assert (0 < length (item_words it)) by (destruct it; cbn; lia). rewrite !length_app.
    assert (Hlen : ∀ x y z : nat, x + (y + z) - x < S n → 0 < y → x + y + z - (x + y) < n) by lia. by apply Hlen.
Qed.

(** ** Defaults *)

Lemma set_and_call_set c name v t e e' : set_and_call c name v t e = Ok e' → fs_set e'.1 = <[name := (t, v)]> (fs_set e.1) ∧ fs_raw e'.1 = fs_raw e.1.
Proof. unfold set_and_call. intros H. inv_result. by subst. Qed.

Lemma set_and_call_raw c name v t ps (f : Flags) calls :
  set_and_call c name v t (setParameters ps f, calls) = (e ← set_and_call c name v t (f, calls); Ok (setParameters ps e.1, e.2)).
Proof. unfold set_and_call. destruct (require_long name c); [|done]. cbn. by destruct (fd_callback _) as [g|]; [destruct (g v)|]. Qed.

Lemma settle_raw c ss ps (f : Flags) calls :
  settle c ss (setParameters ps f, calls) = (e ← settle c ss (f, calls); Ok (setParameters ps e.1, e.2)).
Proof.
  revert f calls. induction ss as [|[[name v] t] ss IH]; intros f calls; [done|]. cbn [settle]. rewrite set_and_call_raw.
  destruct (set_and_call c name v t (f, calls)) as [[f' calls']|x]; [|done]. cbn. apply IH.
Qed.

Lemma isSet_spec name f : isSet name f = bool_decide (name ∈ dom (fs_set f)).
Proof.
  unfold isSet. destruct (fs_set f !! name) as [x|] eqn:E; symmetry; [apply bool_decide_eq_true_2|apply bool_decide_eq_false_2].
  - apply elem_of_dom. by exists x.
  - by apply not_elem_of_dom.
Qed.

Lemma missing_equiv names names' fds : (∀ n, n ∈ names ↔ n ∈ names') → missing names fds = missing names' fds.
Proof.
  revert names names'. induction fds as [|fd fds IH]; intros names names' H; [done|]. cbn. destruct (default_of fd); [|by apply IH].
  rewrite (bool_decide_ext _ _ (H (fd_longOption fd))). destruct (bool_decide _); [by apply IH|]. f_equal. apply IH. intros n. rewrite !elem_of_cons, H. done.
Qed.

Lemma fill_defaults_settle c fds e : fill_defaults c fds e = settle c (missing (elements (dom (fs_set e.1))) fds) e.
Proof.
  revert e. induction fds as [|fd fds IH]; intros e; [done|]. cbn [fill_defaults missing].
  assert (Hset : ∀ v t, (e ← (if isSet (fd_longOption fd) e.1 then Ok e else set_and_call c (fd_longOption fd) v t e); fill_defaults c fds e) =
    settle c (if bool_decide (fd_longOption fd ∈ elements (dom (fs_set e.1))) then missing (elements (dom (fs_set e.1))) fds
              else (fd_longOption fd, v, t) :: missing (fd_longOption fd :: elements (dom (fs_set e.1))) fds) e).
  { intros v t. rewrite isSet_spec, (bool_decide_ext (fd_longOption fd ∈ elements (dom (fs_set e.1))) _ (elem_of_elements _ _)). destruct (bool_decide _); [apply IH|]. cbn [settle].
    destruct (set_and_call c (fd_longOption fd) v t e) as [e'|x] eqn:E; [|done]. cbn. rewrite IH. f_equal. apply missing_equiv. intros n.
    apply set_and_call_set in E as [-> _]. rewrite dom_insert_L, elem_of_elements, elem_of_cons, elem_of_elements. set_solver. }
  unfold default_of. destruct (fd_defaultValue fd) as [|x d]; [|apply Hset]. destruct (bool_decide (fd_type fd = FtBool)); [apply Hset|apply IH].
Qed.

Lemma settle_names c ss e e' : settle c ss e = Ok e' → dom (fs_set e'.1) = list_to_set (ss.*1.*1) ∪ dom (fs_set e.1).
Proof.
  revert e. induction ss as [|[[name v] t] ss IH]; intros e H; cbn [settle] in H; [injection H as <-; set_solver|]. inv_result.
  apply set_and_call_set in Ha as [Hs _]. rewrite (IH _ H), Hs, dom_insert_L. set_solver.
Qed.

Lemma settle_lookup c ss e e' name : settle c ss e = Ok e' →
  fs_set e'.1 !! name = fold_left (λ r s, if bool_decide (s.1.1 = name) then Some (s.2, s.1.2) else r) ss (fs_set e.1 !! name) ∧ fs_raw e'.1 = fs_raw e.1.
Proof.
  revert e. induction ss as [|[[k v] t] ss IH]; intros e H; cbn [settle] in H; [by injection H as <-|]. inv_result.
  apply set_and_call_set in Ha as [Hs Hr]. destruct (IH _ H) as [H1 H2]. rewrite H1, H2, Hs, Hr. split; [|done]. cbn [fold_left]. f_equal. cbn.
  destruct (decide (k = name)) as [->|Hne]; [by rewrite lookup_insert_eq, bool_decide_eq_true_2|by rewrite lookup_insert_ne, bool_decide_eq_false_2].
Qed.

Lemma evaluate_settles c items raw : Forall (item_ok c) items →
  let set := mjoin (setting <$> items) in
  cli_evaluate c (command_line items raw) = settle c (set ++ missing (set.*1.*1) (cli_flagDefs c)) (mkFlags ∅ (parameters items raw), []).
Proof.
  intros Hok set. unfold cli_evaluate. pose proof (items_turns c items raw [] (S (length (command_line items raw))) (newFlags, []) [] Hok) as H.
  cbn [app length] in H. rewrite H by lia. rewrite settle_app. fold set. change (mkFlags ∅ (parameters items raw)) with (setParameters (parameters items raw) newFlags).
  rewrite settle_raw. destruct (settle c set (newFlags, [])) as [[f calls]|x] eqn:E; [|done]. cbn [mbind result_bind fst snd].
  rewrite fill_defaults_settle. cbn [fst snd]. f_equal. apply missing_equiv. intros n. apply settle_names in E. cbn [fst] in E. rewrite elem_of_elements. cbn. rewrite E. set_solver.
Qed.

(** ** Lines that are refused *)

(** What may follow well-written items and is no item: an unknown option, an
    option without its value, a value behind a letter that begins with a dash,
    and a parameter where none is expected. *)
Inductive line_refused c : list bytes → exn → Prop :=
  | refused_long n rest : n ≠ [] → has_eq n = false → find_long n c = None → line_refused c ((str "--" ++ n) :: rest) CliUnknownOptionError
  | refused_short o x rest : o ≠ 45%Z → find_short o c = None → line_refused c ((str "-" ++ o :: x) :: rest) CliUnknownOptionError
  | refused_long_end fd : named c fd → fd_longOption fd ≠ [] → fd_type fd ≠ FtBool → line_refused c [str "--" ++ fd_longOption fd] CliMissingOptionValueError
  | refused_short_end fd : lettered c fd → fd_type fd ≠ FtBool → line_refused c [str "-" ++ [fd_shortOption fd]] CliMissingOptionValueError
  | refused_dashed fd v rest : lettered c fd → fd_type fd ≠ FtBool → dashed v = true →
      line_refused c ((str "-" ++ [fd_shortOption fd]) :: v :: rest) CliMissingOptionValueError
  | refused_param p rest : cli_parametersEnabled c = false → dashed p = false ∨ p = str "-" → line_refused c (p :: rest) CliUnknownOptionError.

Lemma items_prefix c items pre post n e params : Forall (item_ok c) items →
  let args := pre ++ mjoin (item_words <$> items) ++ post in
  evaluate_loop c args (length items + n) false (length pre) e params =
  (e ← settle c (mjoin (setting <$> items)) e;
   evaluate_loop c args n false (length (pre ++ mjoin (item_words <$> items))) e (params ++ mjoin (parameter <$> items))).
Proof.
  intros Hok. revert pre e params. induction Hok as [|it items Hit _ IH]; intros pre e params args; subst args.
  - cbn. by rewrite !app_nil_r.
  - cbn [fmap list_fmap mjoin list_join length Nat.add] in *. rewrite <- !app_assoc, item_turn, settle_app by done.
    destruct (settle c (setting it) e) as [e'|x]; [|done]. cbn [mbind result_bind]. rewrite (app_assoc pre (item_words it)), IH.
    by rewrite !app_assoc.
Qed.

Lemma refused_turn c pre bad x n e params : line_refused c bad x → evaluate_loop c (pre ++ bad) (S n) false (length pre) e params = Raise x.
Proof.
  intros H. destruct H as [m rest Hm He Hf|o y rest Ho Hf|fd [Hf He] Hm Ht|fd (Hf & Hl & Ho) Ht|fd v rest (Hf & Hl & Ho) Ht Hv|p rest Hp Hd].
  - erewrite long_turn; [|apply next_word|done]. unfold long_option, require_long. by rewrite find_eq_none, Hf.
  - erewrite short_turn; [|apply next_word|done]. cbn [short_loop]. by rewrite Hf.
  - erewrite long_turn; [|apply next_word|done]. unfold long_option, require_long. rewrite find_eq_none, Hf by done. cbn [mbind result_bind].
    rewrite bool_decide_eq_false_2, lookup_ge_None_2 by (done || rewrite length_app; cbn; lia). done.
  - erewrite short_turn; [|apply next_word|done]. cbn [short_loop]. rewrite Hf, bool_decide_eq_false_2 by done.
    rewrite lookup_ge_None_2 by (rewrite length_app; cbn; lia). done.
  - erewrite short_turn; [|apply next_word|done]. cbn [short_loop]. rewrite Hf, bool_decide_eq_false_2, second_word, Hv by done. done.
  - cbn [evaluate_loop]. rewrite next_word, bool_decide_eq_false_2, Hp by (intros ->; destruct Hd; done).
    destruct Hd as [Hd| ->]; [rewrite Hd; cbn; by rewrite !andb_false_r|done].
Qed.

Lemma mjoin_length items : length items ≤ length (mjoin (item_words <$> items)).
Proof. induction items as [|it items IH]; [done|]. assert (0 < length (item_words it)) by (destruct it; cbn; lia).
  change (S (length items) ≤ length (item_words it ++ mjoin (item_words <$> items))). rewrite length_app. lia.
Qed.

Lemma evaluate_refused c items bad x : Forall (item_ok c) items → line_refused c bad x →
  cli_evaluate c (mjoin (item_words <$> items) ++ bad) = (_ ← settle c (mjoin (setting <$> items)) (newFlags, []); Raise x).
Proof.
  intros Hok Hb. unfold cli_evaluate. set (words := mjoin _).
  assert (Hn : ∃ n, S (length (words ++ bad)) = length items + S n).
  { assert (Hw : length items ≤ length words) by apply mjoin_length.
    assert (Hl : length (words ++ bad) = length words + length bad) by apply length_app. exists (length (words ++ bad) - length items). lia. }
  destruct Hn as [n ->]. pose proof (items_prefix c items [] bad (S n) (newFlags, []) [] Hok) as H. cbn [app length] in H. fold words in H. rewrite H.
  destruct (settle c _ _) as [e|y]; [|done]. cbn [mbind result_bind]. by rewrite (refused_turn _ _ _ x).
Qed.

(** C23 (functional). A command line of items (an option by its name with the value behind an
    equals sign or in the next argument; an option by its letter with the value behind it, or in
    the next argument if that does not begin with a dash; a switch by its name or by a letter of
    its own; a parameter) is evaluated as it is written: the functions of the flags are called in
    this order, then those of the defaults of the flags that are not given; a flag has the value it
    was given last, or its default, and the parameters are complete. That an option without a
    default is required is not looked at: it may be missing ([required_not_checked]). Behind items,
    an unknown option, an option without its value, a value behind a letter that begins with a dash
    and a parameter where none is expected end the evaluation with their error, after the functions
    of the flags before it have been called. *)
Theorem command_line_read c items raw : Forall (item_ok c) items →
  let given := mjoin (setting <$> items) in
  let all := given ++ missing (given.*1.*1) (cli_flagDefs c) in
  cli_evaluate c (command_line items raw) = settle c all (mkFlags ∅ (parameters items raw), []) ∧
  (∀ f calls, cli_evaluate c (command_line items raw) = Ok (f, calls) → fs_raw f = parameters items raw ∧ ∀ name, fs_set f !! name = last_of name all) ∧
  ∀ bad x, line_refused c bad x → cli_evaluate c (mjoin (item_words <$> items) ++ bad) = (_ ← settle c given (newFlags, []); Raise x).
Proof.
  intros Hok given all. pose proof (evaluate_settles c items raw Hok) as H. split_and!; [exact H| |by intros bad x; apply evaluate_refused].
  intros f calls Hf. rewrite H in Hf.
  split; [by destruct (settle_lookup _ _ _ _ [] Hf)|]. intros name. by destruct (settle_lookup _ _ _ _ name Hf).
Qed.

(** ** Any arguments *)

(** The step gives an index behind [i], or raises something else than for want of fuel. *)
Definition moves_on (i : nat) (r : result (nat * Evaluation float)) : Prop := match r with Ok (j, _) => i < j | Raise x => x ≠ Blocked end.

Lemma find_flag_in (p : FlagDef float → bool) fds fd : find_flag p fds = Some fd → fd ∈ fds.
Proof. induction fds as [|fd' fds IH]; [done|]. cbn. destruct (p fd'); [intros [= ->]; by left|]. intros H. right. by apply IH. Qed.

Section Ends.
Context (c : CLI float) (args : list bytes).
Hypothesis calls_end : ∀ fd f v, fd ∈ cli_flagDefs c → fd_callback fd = Some f → f v ≠ Raise Blocked.

Lemma set_and_call_ends name v t e : set_and_call c name v t e ≠ Raise Blocked.
Proof.
  unfold set_and_call, require_long. destruct (find_long name c) as [fd|] eqn:E; [|done]. apply find_flag_in in E. cbn.
  destruct (fd_callback fd) as [f|] eqn:Ef; [|done]. pose proof (calls_end fd f v E Ef). by destruct (f v) as [|x]; [|intros [= ->]].
Qed.

Lemma moves_set i j name v t e : i < j → moves_on i (e ← set_and_call c name v t e; Ok (j, e)).
Proof. intros H. pose proof (set_and_call_ends name v t e). by destruct (set_and_call c name v t e) as [|x]; [|intros ->]. Qed.

Lemma short_loop_moves arg i j e : arg ≠ [] ∨ i < j → i ≤ j → moves_on i (short_loop c args arg j e).
Proof.
  revert j e. induction arg as [|o arg IH]; intros j e Hne Hij; [by destruct Hne|]. cbn [short_loop]. destruct (find_short o c) as [fd|]; [|done].
  destruct (bool_decide _).
  - pose proof (set_and_call_ends (fd_longOption fd) (str "true") FtBool e). destruct (set_and_call _ _ _ _ _) as [e'|x]; [|by intros ->].
    cbn. apply IH; [right|]; lia.
  - destruct arg as [|o' arg]; [|apply moves_set; lia]. destruct (args !! S j) as [v|]; [|done]. destruct (dashed v); [done|]. apply moves_set. lia.
Qed.

Lemma long_option_moves arg i e : moves_on i (long_option c args arg i e).
Proof.
  unfold long_option, require_long. destruct (find_eq arg) as [[name v]|].
  - destruct (find_long name c) as [fd|]; [|done]. cbn. apply moves_set. lia.
  - destruct (find_long arg c) as [fd|]; [|done]. cbn. destruct (bool_decide _); [apply moves_set; lia|]. destruct (args !! S i); [apply moves_set; lia|done].
Qed.

(** The loop over the arguments ends, whatever they are. *)
Lemma evaluate_loop_ends n only i e params : length args - i < n → evaluate_loop c args n only i e params ≠ Raise Blocked.
Proof.
  revert only i e params. induction n as [|n IH]; intros only i e params Hn; [lia|]. cbn [evaluate_loop]. destruct (args !! i) as [arg|] eqn:E; [|done].
  pose proof (lookup_lt_Some _ _ _ E) as Hi. destruct only; [apply IH; lia|]. destruct (bool_decide _); [apply IH; lia|].
  assert (Hstep : ∀ r, moves_on i r → ('(i, e) ← r; evaluate_loop c args n false i e params) ≠ Raise Blocked).
  { intros [[j e']|x] Hr; [cbn in *; apply IH; lia|]. by intros [= ->]. }
  destruct (_ && dashed (drop 1 arg)); [apply Hstep, long_option_moves|]. destruct (1 <? length arg) eqn:El; cbn [andb].
  - destruct (dashed arg); [apply Hstep, short_loop_moves; [left|done]|]. { destruct arg as [|? [|]]; done. }
    destruct (cli_parametersEnabled c); [apply IH; lia|done].
  - destruct (cli_parametersEnabled c); [apply IH; lia|done].
Qed.

Lemma settle_ends ss e : settle c ss e ≠ Raise Blocked.
Proof.
  revert e. induction ss as [|[[name v] t] ss IH]; intros e; [done|]. cbn [settle]. pose proof (set_and_call_ends name v t e).
  destruct (set_and_call c name v t e) as [e'|x]; [apply IH|]. by intros [= ->].
Qed.

Lemma evaluate_ends : cli_evaluate c args ≠ Raise Blocked.
Proof.
  unfold cli_evaluate. pose proof (evaluate_loop_ends (S (length args)) false 0 (newFlags, []) [] ltac:(lia)) as H.
  destruct (evaluate_loop _ _ _ _ _ _ _) as [[e params]|x]; [cbn|by intros [= ->]]. rewrite fill_defaults_settle. apply settle_ends.
Qed.
End Ends.
End Lines.

(** ** Where command lines are read otherwise *)

Section Examples.
Let cli : CLI unit := defineString unit (str "text") 116 [] [] None true (defineBool unit (str "all") 97 [] true (defineBool unit (str "brief") 98 [] true
  (enableParameters unit [] [] newCLI))).

(** Two switches in one argument take two arguments. *)
Lemma bundled_switches_skip : (λ e, fs_raw e.1) <$> cli_evaluate cli [str "-ab"; str "file"] = Ok [].
Proof. reflexivity. Qed.

(** Behind a switch the value of an option is looked for one argument too far. *)
Lemma bundled_value_lost : cli_evaluate cli [str "-at"; str "x"] = Raise CliMissingOptionValueError.
Proof. reflexivity. Qed.

(** A required option may be missing. *)
Lemma required_not_checked : (λ e, fs_getString (str "text") e.1) <$> cli_evaluate cli [] = Ok (Raise CliFlagNotFoundError).
Proof. reflexivity. Qed.
End Examples.

(** A number that fits [long] but not [int] cannot be given. *)
Lemma long_number_rejected :
  cli_evaluate (defineNumber unit (str "n") 110 [] [] (Some (2 ^ 31)%Z) true newCLI) [] = Raise StdOutOfRange.
Proof. reflexivity. Qed.

(** Lines behind the first are wider than asked for by the offset of the text. *)
Lemma wrapped_line_too_wide : wordWrap (str "abcdef") 0 3 2 = str "abc" ++ [10%Z] ++ str "  def".
Proof. reflexivity. Qed.

Lemma command_line_read_witness :
  let cli : CLI unit := defineString unit (str "text") 116 [] [] (Some (str "none")) true (defineBool unit (str "all") 97 [] true (enableParameters unit [] [] newCLI)) in
  let text : FlagDef unit := mkFlagDef FtString (str "text") 116 false [] [] (str "none") (Some (λ v, Ok [ArgString v])) in
  let items := [LongEq text (str "x=y"); Param (str "file")] in
  command_line items (Some [str "--all"]) = [str "--text=x=y"; str "file"; str "--"; str "--all"] ∧
  cli_evaluate cli (command_line items (Some [str "--all"])) =
    settle cli [(str "text", str "x=y", FtString); (str "all", str "false", FtBool)] (mkFlags ∅ [str "file"; str "--all"], []) ∧
  cli_evaluate cli [str "--text=x=y"; str "file"; str "-t"; str "-black"] = Raise CliMissingOptionValueError.
Proof.
  intros cli text items. split; [done|].
  assert (Hok : Forall (item_ok cli) items) by repeat constructor.
  split; [exact (proj1 (command_line_read cli items (Some [str "--all"]) Hok))|].
  assert (Hb : line_refused cli [str "-t"; str "-black"] CliMissingOptionValueError) by by apply (refused_dashed cli text (str "-black") []).
  exact (proj2 (proj2 (command_line_read cli items None Hok)) _ _ Hb).
Defined.
