(* ===== verification/StringUtil.v ===== *)
(** * Strings

    [src/xzero/StringUtil.cc]: searching, splitting, joining, replacing and comparing
    strings. A position is an [option], [None] for [npos]. A loop that a pattern of no
    characters keeps from ending gives [None]. *)
From stdpp Require Import gmap.
From S2P Require Import Prelude HpackTables HeaderFieldList Http1Parser Http1Generator FastCgi.

(** ** Searching *)

Fixpoint su_find (chr : Z) (s : bytes) : option nat :=
  match s with [] => None | x :: s => if x =? chr then Some 0%nat else S <$> su_find chr s end.
Fixpoint su_findLast (chr : Z) (s : bytes) : option nat :=
  match s with
  | [] => None
  | x :: s => match su_findLast chr s with Some k => Some (S k) | None => if x =? chr then Some 0%nat else None end
  end.

(** [std::string::find]. *)
Definition su_beginsWith (s prefix : bytes) : bool := bool_decide (take (length prefix) s = prefix).
Fixpoint find_str (pattern s : bytes) : option nat :=
  if su_beginsWith s pattern then Some 0%nat else match s with [] => None | _ :: s => S <$> find_str pattern s end.
Definition su_includes (s subject : bytes) : bool := match find_str subject s with Some _ => true | None => false end.

Definition su_endsWith (s suffix : bytes) : bool :=
  if (length s <? length suffix)%nat then false else bool_decide (drop (length s - length suffix) s = suffix).
(** [strncasecmp] ends at a zero byte in both. *)
Definition su_beginsWithIgnoreCase (s prefix : bytes) : bool :=
  if (length s <? length prefix)%nat then false else strncasecmp_eq (take (length prefix) s) prefix.
Definition su_endsWithIgnoreCase (s suffix : bytes) : bool :=
  if (length s <? length suffix)%nat then false else strncasecmp_eq (drop (length s - length suffix) s) suffix.

(** ** Splitting and joining *)

Fixpoint su_split_loop (n : nat) (pattern s : bytes) : option (list bytes) :=
  match n with
  | O => None
  | S n =>
      match find_str pattern s with
      | None => Some [s]
      | Some k => parts ← su_split_loop n pattern (drop (k + length pattern) s); Some (take k s :: parts)
      end
  end.
Definition su_split (s pattern : bytes) : option (list bytes) := su_split_loop (S (length s)) pattern s.

Fixpoint su_join (parts : list bytes) (join : bytes) : bytes :=
  match parts with [] => [] | [x] => x | x :: parts => x ++ join ++ su_join parts join end.

Fixpoint replaceAll_loop (n : nat) (pattern replacement s : bytes) : option bytes :=
  match n with
  | O => None
  | S n =>
      match find_str pattern s with
      | None => Some s
      | Some k => rest ← replaceAll_loop n pattern replacement (drop (k + length pattern) s); Some (take k s ++ replacement ++ rest)
      end
  end.
Definition replaceAll (s pattern replacement : bytes) : option bytes :=
  match s with [] => Some [] | _ => replaceAll_loop (S (length s)) pattern replacement s end.

Fixpoint drop_chars (p : Z → bool) (s : bytes) : bytes := match s with x :: t => if p x then drop_chars p t else s | [] => [] end.
Fixpoint take_chars (p : Z → bool) (s : bytes) : bytes := match s with x :: t => if p x then x :: take_chars p t else [] | [] => [] end.
Definition is_any (pattern : bytes) (c : Z) : bool := match su_find c pattern with Some _ => true | None => false end.
Fixpoint splitByAny_loop (n : nat) (pattern s : bytes) : option (list bytes) :=
  match n with
  | O => None
  | S n =>
      let s := drop_chars (is_any pattern) s in
      match s with
      | [] => Some []
      | _ =>
          let token := take_chars (λ c, negb (is_any pattern c)) s in
          match drop_chars (λ c, negb (is_any pattern c)) s with
          | [] => Some [token]
          | rest => parts ← splitByAny_loop n pattern rest; Some (token :: parts)
          end
      end
  end.
Definition splitByAny (s pattern : bytes) : option (list bytes) := splitByAny_loop (S (length s)) pattern s.

(** [formatv]: one placeholder after the other, in the text with those before already replaced. *)
Fixpoint format_loop (i : Z) (values : list bytes) (s : bytes) : option bytes :=
  match values with [] => Some s | v :: values => s ← replaceAll s (str "$" ++ decimal i) v; format_loop (i + 1) values s end.
Definition formatv (fmt : bytes) (values : list bytes) : option bytes := format_loop 0 values fmt.

(** ** Trimming *)

(** Without a character that is not blank the index runs below zero. *)
Definition su_trim (s : bytes) : result bytes :=
  match drop_chars isspace (rev s) with
  | [] => Raise UndefinedBehaviour
  | r => Ok (drop_chars isspace (rev r))
  end.
(** [back()] of an empty string is undefined. *)
Definition stripTrailingSlashes (s : bytes) : result bytes :=
  match drop_chars (λ c, c =? 47) (rev s) with [] => Raise UndefinedBehaviour | r => Ok (rev r) end.

(** ** Classes *)

Definition isAlphanumeric (c : Z) : bool := ((48 <=? c) && (c <=? 57)) || ((97 <=? c) && (c <=? 122)) || ((65 <=? c) && (c <=? 90)).
Definition isShellSafe (c : Z) : bool := isAlphanumeric c || (c =? 95) || (c =? 45) || (c =? 46).
Definition su_isHexString (s : bytes) : bool := forallb isxdigit s.
Definition su_isAlphanumeric (s : bytes) : bool := forallb isAlphanumeric s.
Definition su_isShellSafe (s : bytes) : bool := forallb isShellSafe s.
Definition stripShell (s : bytes) : bytes := List.filter isShellSafe s.
Definition isDigitString (s : bytes) : bool := forallb isdigit s.
(** The loop over the digits returns before it comes to a point. *)
Definition isNumber (s : bytes) : bool :=
  let s := match s with x :: t => if x =? 45 then t else s | [] => [] end in
  forallb isdigit s.
Definition su_toUpper (s : bytes) : bytes := toupper <$> s.

Fixpoint su_compare (a b : bytes) : Z :=
  match a, b with
  | x :: a, y :: b => if x =? y then su_compare a b else if x <? y then -1 else 1
  | _ :: _, [] => 1
  | [], _ :: _ => -1
  | [], [] => 0
  end.

(** [\x%02x] for a character that cannot be printed; those that can are no tab and no line
    break. *)
Definition sanitize (c : Z) : bytes :=
  if negb (isprint c) then str "\x" ++ [digit_char (c / 16); digit_char (c mod 16)] else [c].
Definition sanitizedStr (s : bytes) : bytes := mjoin (sanitize <$> s).

(** ** Buffers, [BufferUtil.cc] *)

Definition stripTrailingBytes (b : Z) (s : bytes) : bytes := rev (drop_chars (λ c, c =? b) (rev s)).
Definition hex_byte (b : Z) : bytes := [digit_char (Z.shiftr (Z.land b 240) 4); digit_char (Z.land b 15)].
Definition hexPrint (sep reverse : bool) (s : bytes) : bytes :=
  su_join (hex_byte <$> (if reverse then rev s else s)) (if sep then [32] else []).
Definition bits_text (b : Z) : bytes := (λ k, if Z.testbit b (7 - Z.of_nat k) then 49 else 48) <$> seq 0 8.
Definition binPrint (spacing : bool) (s : bytes) : bytes := su_join (bits_text <$> s) (if spacing then [32] else []).

(** ** What they do *)
Local Open Scope nat_scope.

Lemma beginsWith_app p s : su_beginsWith (p ++ s) p = true.
Proof. unfold su_beginsWith. apply bool_decide_eq_true_2. by rewrite take_app_length. Qed.

Lemma beginsWith_split s p : su_beginsWith s p = true → s = p ++ drop (length p) s.
Proof. unfold su_beginsWith. intros H%bool_decide_eq_true. rewrite <- H at 1. by rewrite take_drop. Qed.

(** The first occurrence. *)
Lemma find_str_Some p s k : find_str p s = Some k →
  s = take k s ++ p ++ drop (k + length p) s ∧ k ≤ length s ∧ ∀ j, j < k → su_beginsWith (drop j s) p = false.
Proof.
  revert k. induction s as [|x s IH]; intros k; cbn [find_str]; destruct (su_beginsWith _ p) eqn:E.
  - intros [= <-]. split_and!; [by apply beginsWith_split|lia|intros j Hj; lia].
  - done.
  - intros [= <-]. split_and!; [by apply beginsWith_split|lia|intros j Hj; lia].
  - intros (k' & H & ->)%fmap_Some. destruct (IH k' H) as (H1 & H2 & H3). cbn. split_and!; [by f_equal|lia|].
    intros [|j] Hj; [done|]. apply H3. lia.
Qed.

Lemma find_str_None p s : find_str p s = None → ∀ j, su_beginsWith (drop j s) p = false.
Proof.
  induction s as [|x s IH]; cbn [find_str]; destruct (su_beginsWith _ p) eqn:E; try done.
  - intros _ j. by rewrite drop_nil.
  - intros H%fmap_None [|j]; [done|]. by apply IH.
Qed.

(** What is before the first occurrence has none. *)
Lemma before_first p s k : p ≠ [] → find_str p s = Some k → find_str p (take k s) = None.
Proof.
  intros Hp H. destruct (find_str p (take k s)) as [j|] eqn:E; [|done]. exfalso. destruct (find_str_Some _ _ _ H) as (_ & Hk & Hfirst).
  destruct (find_str_Some _ _ _ E) as (Hj & Hjk & _). assert (Hlen : length (take k s) = k) by (rewrite length_take; lia).
  assert (j < k). { rewrite Hlen in Hjk. destruct (decide (j = k)) as [->|]; [|lia]. apply (f_equal length) in Hj. rewrite !length_app, !length_take in Hj. destruct p; [done|]. cbn [length] in Hj. lia. }
  specialize (Hfirst j ltac:(lia)). rewrite <- (take_drop k s), Hj in Hfirst.
  rewrite <- app_assoc, drop_app_ge in Hfirst by (rewrite length_take; lia). rewrite length_take, Hlen in Hfirst.
  replace (j - j `min` k) with 0 in Hfirst by lia. rewrite drop_0, <- app_assoc, beginsWith_app in Hfirst. done.
Qed.

Lemma split_parts p s n : p ≠ [] → length s < n → ∃ parts, su_split_loop n p s = Some parts ∧ parts ≠ [] ∧ su_join parts p = s ∧
  Forall (λ x, find_str p x = None) parts ∧ ∀ r, replaceAll_loop n p r s = Some (su_join parts r).
Proof.
  intros Hp. revert s. induction n as [|n IH]; intros s Hn; [lia|]. cbn [su_split_loop replaceAll_loop]. destruct (find_str p s) as [k|] eqn:E.
  - destruct (find_str_Some _ _ _ E) as (Hs & Hk & _). assert (Hp' : 0 < length p) by (destruct p; [done|cbn; lia]).
    assert (Hlen : length s = k + (length p + length (drop (k + length p) s))). { rewrite Hs at 1. rewrite !length_app, length_take. lia. }
    destruct (IH (drop (k + length p) s)) as (parts & H1 & H2 & H3 & H4 & H5); [lia|]. exists (take k s :: parts). rewrite H1.
    assert (Hj : ∀ r, su_join (take k s :: parts) r = take k s ++ r ++ su_join parts r) by (intros r; by destruct parts).
    split_and!; [done|done|rewrite Hj, H3; done|constructor; [by apply before_first|done]|]. intros r. by rewrite H5, Hj.
  - exists [s]. split_and!; try done. by repeat constructor.
Qed.

(** Splitting is undone by joining, no part contains the separator, and replacing is splitting at the
    pattern and joining with the replacement. *)
Lemma split_join_replace s p : p ≠ [] → ∃ parts, su_split s p = Some parts ∧ su_join parts p = s ∧
  Forall (λ x, find_str p x = None) parts ∧ ∀ r, replaceAll s p r = Some (su_join parts r).
Proof.
  intros Hp. destruct (split_parts p s (S (length s)) Hp ltac:(lia)) as (parts & H1 & H2 & H3 & H4 & H5). exists parts. split_and!; try done.
  intros r. unfold replaceAll. destruct s as [|x s]; [|apply H5]. specialize (H5 r). cbn in H5. destruct p; [done|]. done.
Qed.

(** With an empty pattern neither ends. *)
Lemma empty_pattern s n r : su_split_loop n [] s = None ∧ replaceAll_loop n [] r s = None.
Proof.
  revert s. induction n as [|n IH]; intros s; [done|]. assert (E : find_str [] s = Some 0) by by destruct s. cbn [su_split_loop replaceAll_loop]. rewrite E.
  destruct (IH (drop (0 + length (@nil Z)) s)) as [-> ->]. done.
Qed.

(** ** Tokens *)

Lemma take_drop_chars p s : take_chars p s ++ drop_chars p s = s.
Proof. induction s as [|x s IH]; [done|]. cbn. destruct (p x); cbn; [by rewrite IH|done]. Qed.

Lemma take_chars_all p s : Forall (λ c, p c = true) (take_chars p s).
Proof. induction s as [|x s IH]; [constructor|]. cbn. destruct (p x) eqn:E; [by constructor|constructor]. Qed.

Lemma drop_chars_first p s x t : drop_chars p s = x :: t → p x = false.
Proof. induction s as [|y s IH]; [done|]. cbn. destruct (p y) eqn:E; [done|]. by intros [= -> ->]. Qed.

Lemma drop_chars_length p s : length (drop_chars p s) ≤ length s.
Proof. induction s as [|x s IH]; [done|]. cbn. destruct (p x); cbn; lia. Qed.

Lemma filter_drop_chars p s : List.filter (λ c, negb (p c)) (drop_chars p s) = List.filter (λ c, negb (p c)) s.
Proof. induction s as [|x s IH]; [done|]. cbn. destruct (p x) eqn:E; cbn; [done|]. by rewrite E. Qed.

Lemma filter_all p (s : bytes) : Forall (λ c, p c = true) s → List.filter p s = s.
Proof. induction 1 as [|x s Hx _ IH]; [done|]. cbn. by rewrite Hx, IH. Qed.

(** The tokens are not empty, have no delimiter in them, and together are the text without its delimiters. *)
Lemma splitByAny_tokens s pattern : ∃ parts, splitByAny s pattern = Some parts ∧
  mjoin parts = List.filter (λ c, negb (is_any pattern c)) s ∧ Forall (λ t, t ≠ [] ∧ Forall (λ c, is_any pattern c = false) t) parts.
Proof.
  unfold splitByAny. assert (H : length s < S (length s)) by lia. revert H. generalize (S (length s)) as n. intros n. revert s. set (p := is_any pattern).
  induction n as [|n IH]; intros s Hn; [lia|]. cbn [splitByAny_loop]. fold p. rewrite <- (filter_drop_chars p s). pose proof (drop_chars_length p s) as Hl.
  destruct (drop_chars p s) as [|x t] eqn:E; [by exists []|]. apply drop_chars_first in E as Hx. set (q := λ c, negb (p c)).
  assert (Htok : take_chars q (x :: t) ≠ [] ∧ Forall (λ c, p c = false) (take_chars q (x :: t))).
  { split; [cbn; unfold q; by rewrite Hx|]. eapply list.Forall_impl; [apply take_chars_all|]. intros c. unfold q. by destruct (p c). }
  assert (Hsplit : List.filter q (x :: t) = take_chars q (x :: t) ++ List.filter q (drop_chars q (x :: t))).
  { rewrite <- (take_drop_chars q (x :: t)) at 1. rewrite List.filter_app. f_equal. apply filter_all, take_chars_all. }
  fold q. rewrite Hsplit. destruct (drop_chars q (x :: t)) as [|y r] eqn:Er.
  - exists [take_chars q (x :: t)]. split_and!; [done|done|constructor; [done|constructor]].
  - destruct (IH (y :: r)) as (parts & H1 & H2 & H3).
    { apply (f_equal length) in Er as Hlen. cbn in Er. unfold q in Er at 1. rewrite Hx in Er. cbn in Er. pose proof (drop_chars_length q t) as Hq. rewrite Er in Hq. cbn in *. lia. }
    exists (take_chars q (x :: t) :: parts). rewrite H1. split_and!; [done|transitivity (take_chars q (x :: t) ++ mjoin parts); [done|f_equal; exact H2]|by constructor].
Qed.

(** Trimming takes blanks only, and all of them. *)
Lemma trim_blanks s t : su_trim s = Ok t → ∃ a b, s = a ++ t ++ b ∧ Forall (λ c, isspace c = true) a ∧ Forall (λ c, isspace c = true) b ∧
  ∃ x y u v, t = x :: u ∧ t = v ++ [y] ∧ isspace x = false ∧ isspace y = false.
Proof.
  unfold su_trim. set (p := isspace). intros H. destruct (drop_chars p (rev s)) as [|y r] eqn:E; [done|]. injection H as <-.
  pose proof (drop_chars_first _ _ _ _ E) as Hy. pose proof (take_drop_chars p (rev s)) as Hs. rewrite E in Hs. apply (f_equal (@rev Z)) in Hs. rewrite rev_involutive, rev_app_distr in Hs.
  exists (take_chars p (rev (y :: r))), (rev (take_chars p (rev s))). rewrite app_assoc, take_drop_chars.
  split_and!; [done|apply take_chars_all|apply List.Forall_rev, take_chars_all|].
  assert (∃ v, drop_chars p (rev r ++ [y]) = v ++ [y]) as [v Hv].
  { generalize (rev r). intros l. induction l as [|x l [v IH]]; [exists []; cbn; by rewrite Hy|]. cbn. destruct (p x); [by exists v|by exists (x :: l)]. }
  cbn [rev]. destruct (drop_chars p (rev r ++ [y])) as [|x u] eqn:Ex; [by destruct v|]. pose proof (drop_chars_first _ _ _ _ Ex) as Hx. by exists x, y, u, v.
Qed.

(** ** Order *)

Lemma su_compare_eq a b : su_compare a b = 0%Z ↔ a = b.
Proof.
  revert b. induction a as [|x a IH]; intros [|y b]; cbn; try done. destruct (Z.eqb_spec x y) as [->|Hne].
  - rewrite IH. split; [by intros ->|by intros [= ->]].
  - split; [by destruct (x <? y)%Z|by intros [= -> ->]].
Qed.

Lemma su_compare_sym a b : su_compare b a = (- su_compare a b)%Z.
Proof.
  revert b. induction a as [|x a IH]; intros [|y b]; cbn; try done. rewrite (Z.eqb_sym y x). destruct (Z.eqb_spec x y); [apply IH|].
  destruct (Z.ltb_spec x y), (Z.ltb_spec y x); lia.
Qed.

Lemma su_compare_trans a b c : su_compare a b = (-1)%Z → su_compare b c = (-1)%Z → su_compare a c = (-1)%Z.
Proof.
  revert b c. induction a as [|x a IH]; intros [|y b] [|z c]; cbn; try done.
  destruct (Z.eqb_spec x y) as [->|H1], (Z.eqb_spec y z) as [->|H2]; try (destruct (Z.eqb_spec x z)); try (destruct (Z.eqb_spec y z)); try done; try lia;
    repeat match goal with |- context[Z.ltb ?u ?v] => destruct (Z.ltb_spec u v) end; try done; try lia; eauto.
Qed.

(** ** Where they fail *)

Lemma decimal_point_no_number : isNumber (str "1.5") = false.
Proof. done. Qed.
Lemma blank_not_trimmed : su_trim (str "  ") = Raise UndefinedBehaviour.
Proof. done. Qed.
(** A value that contains a later placeholder is replaced as well. *)
Lemma placeholder_in_value : formatv (str "$0:$1") [str "a$1"; str "80"] = Some (str "a80:80").
Proof. reflexivity. Qed.
