(* ===== verification/Uri.v ===== *)
(** * URIs

    [src/xzero/Uri.cc]: the parts of a URI, its text, and the parameters of a query.
    Parsing goes through the text once; a part that the text does not have keeps the
    value it had. *)
From S2P Require Import Prelude HeaderFieldList Http1Parser Http1Generator HttpMessage StringUtil.

Record Uri := mkUri { uri_scheme : bytes; uri_userinfo : bytes; uri_host : bytes; uri_port : Z; uri_path : bytes; uri_query : bytes; uri_fragment : bytes }.
Definition newUri : Uri := mkUri [] [] [] 0 [] [] [].

(** ** Decoding *)

(** [std::stoul(s, nullptr, 16)]: blanks, a sign, [0x] before a digit, digits. *)
Definition stoul_digit (c : Z) : Z := if c <=? 57 then c - 48 else if c <=? 70 then c - 55 else c - 87.
Fixpoint stoul_digits (acc : Z) (s : bytes) : Z := match s with c :: s => if isxdigit c then stoul_digits (acc * 16 + stoul_digit c) s else acc | [] => acc end.
Definition hex_unsigned (s : bytes) : option Z :=
  let s := match s with 48 :: x :: d :: t => if ((x =? 120) || (x =? 88)) && isxdigit d then d :: t else s | _ => s end in
  match s with c :: _ => if isxdigit c then Some (stoul_digits 0 s) else None | [] => None end.
Definition stoul16 (s : bytes) : result Z :=
  let s := skip_spaces s in
  let v := match s with
           | c :: t => if c =? 45 then (λ v, u64 (- v)) <$> hex_unsigned t else if c =? 43 then hex_unsigned t else hex_unsigned s
           | [] => None
           end in
  match v with Some v => if v <? 2 ^ 64 then Ok v else Raise StdOutOfRange | None => Raise StdInvalidArgument end.

Fixpoint uri_decode (s : bytes) : result bytes :=
  match s with
  | [] => Ok []
  | c :: s =>
      if c =? 37 then
        match s with
        | a :: b :: s => v ← stoul16 [a; b]; rest ← uri_decode s; Ok (u8 v :: rest)
        | _ => Raise EncodingError
        end
      else rest ← uri_decode s; Ok (c :: rest)
  end.
Definition uri_encode (s : bytes) : result bytes := Raise NotImplementedError.

(** ** Text *)

Definition hostAndPort (u : Uri) : option bytes :=
  if 0 <? uri_port u then formatv (str "$0:$1") [uri_host u; decimal (uri_port u)] else Some (uri_host u).
Definition pathAndQuery (u : Uri) : option bytes :=
  match uri_query u with [] => Some (uri_path u) | q => formatv (str "$0?$1") [uri_path u; q] end.
Definition setPath (p : bytes) (u : Uri) : Uri := mkUri (uri_scheme u) (uri_userinfo u) (uri_host u) (uri_port u) p (uri_query u) (uri_fragment u).

Definition behind (sep s : bytes) : bytes := match s with [] => [] | _ => sep ++ s end.
Definition uri_toString (u : Uri) : bytes :=
  uri_scheme u ++ str ":" ++
  match uri_host u with
  | [] => []
  | h => str "//" ++ match uri_userinfo u with [] => [] | i => i ++ str "@" end ++ h ++
         (if 0 <? uri_port u then str ":" ++ decimal (uri_port u) else [])
  end ++
  uri_path u ++ behind (str "?") (uri_query u) ++ behind (str "#") (uri_fragment u).

(** ** Parsing *)

Definition not_in (delims : bytes) (c : Z) : bool := negb (bool_decide (c ∈ delims)).

Definition parse_scheme (s : bytes) (u : Uri) : Uri * bytes :=
  match drop_chars (not_in (str "/:")) s with
  | 58 :: rest => (mkUri (take_chars (not_in (str "/:")) s) (uri_userinfo u) (uri_host u) (uri_port u) (uri_path u) (uri_query u) (uri_fragment u), rest)
  | _ => (u, s)
  end.

(** The host and the port of an authority; the digits of the port may be followed by
    anything. *)
Definition parse_host (a : bytes) (u : Uri) : result Uri :=
  let host := take_chars (not_in (str ":")) a in
  port ← match drop_chars (not_in (str ":")) a with
         | _ :: x :: rest =>
             match take_chars isdigit (x :: rest) with
             | [] => Ok (uri_port u)
             | digits => match std_stoi digits with Ok p => Ok p | Raise _ => Raise InvalidUriPortError end
             end
         | _ => Ok (uri_port u)
         end;
  Ok (mkUri (uri_scheme u) (uri_userinfo u) host port (uri_path u) (uri_query u) (uri_fragment u)).

Definition parse_userinfo (a : bytes) (u : Uri) : Uri * bytes :=
  match drop_chars (not_in (str "@")) a with
  | _ :: rest => (mkUri (uri_scheme u) (take_chars (not_in (str "@")) a) (uri_host u) (uri_port u) (uri_path u) (uri_query u) (uri_fragment u), rest)
  | [] => (u, a)
  end.

Definition parse_authority (s : bytes) (u : Uri) : result (Uri * bytes) :=
  if (2 <? length s)%nat && su_beginsWith s (str "//") then
    let s := drop 2 s in
    let a := take_chars (not_in (str "/?#")) s in
    u ← match a with [] => Ok u | _ => let '(u, a) := parse_userinfo a u in parse_host a u end;
    Ok (u, drop_chars (not_in (str "/?#")) s)
  else Ok (u, s).

Definition parse_path (s : bytes) (u : Uri) : Uri * bytes :=
  (match take_chars (not_in (str "?#")) s with [] => u | p => setPath p u end, drop_chars (not_in (str "?#")) s).
Definition parse_query (s : bytes) (u : Uri) : Uri * bytes :=
  match s with
  | c :: t =>
      if c =? 63 then
        (match take_chars (not_in (str "#")) t with
         | [] => u
         | q => mkUri (uri_scheme u) (uri_userinfo u) (uri_host u) (uri_port u) (uri_path u) q (uri_fragment u)
         end, drop_chars (not_in (str "#")) t)
      else (u, s)
  | [] => (u, s)
  end.
Definition parse_fragment (s : bytes) (u : Uri) : Uri :=
  match s with
  | c :: x :: t => if c =? 35 then mkUri (uri_scheme u) (uri_userinfo u) (uri_host u) (uri_port u) (uri_path u) (uri_query u) (x :: t) else u
  | _ => u
  end.

Definition parseURI (s : bytes) (u : Uri) : result Uri :=
  let '(u, s) := parse_scheme s u in
  '(u, s) ← parse_authority s u;
  let '(u, s) := parse_path s u in
  let '(u, s) := parse_query s u in
  Ok (parse_fragment s u).
Definition uri_of_text (s : bytes) : result Uri := parseURI s newUri.

(** ** Parameters *)

(** One turn takes a key, a value and the character behind it. *)
Fixpoint query_loop (n : nat) (s : bytes) : result (list (bytes * bytes)) :=
  match n with
  | O => Ok []
  | S n =>
      let word := take_chars (not_in (str "=&")) in
      let rest := drop_chars (not_in (str "=&")) in
      match word s, rest s with
      | k :: key, 61 :: s =>
          match word s with
          | v :: val =>
              key ← uri_decode (k :: key); val ← uri_decode (v :: val);
              params ← query_loop n (drop 1 (rest s));
              Ok ((key, val) :: params)
          | [] => Ok []
          end
      | _, _ => Ok []
      end
  end.
Definition parseQueryString (s : bytes) : result (list (bytes * bytes)) := query_loop (length s) s.
Definition queryParams (u : Uri) : result (list (bytes * bytes)) := match uri_query u with [] => Ok [] | q => parseQueryString q end.
Fixpoint getParam (params : list (bytes * bytes)) (key : bytes) : option bytes :=
  match params with [] => None | (k, v) :: params => if bool_decide (k = key) then Some v else getParam params key end.
