(* ===== verification/UriRoundtrip.v ===== *)
(** * URIs are parsed as they are written

    The text of a URI whose parts do not contain the delimiters that follow them is
    parsed back; so are the parameters of a query. *)
From S2P Require Import Prelude HeaderFieldList Http1Parser Http1Generator Http1Roundtrip HttpMessage StringUtil Uri.

(** ** Numbers *)

Lemma std_digits_app acc s c : Forall (λ c, isdigit c = true) s → isdigit c = true → std_digits acc (s ++ [c]) = std_digits acc s * 10 + (c - 48).
Proof. intros Hs Hc. revert acc. induction Hs as [|x s Hx _ IH]; intros acc; cbn; [by rewrite Hc|]. rewrite Hx. apply IH. Qed.

Lemma std_digits_print fuel n : 0 ≤ n < 10 ^ Z.of_nat fuel → std_digits 0 (print_number fuel 10 n) = n.
Proof.
  revert n. induction fuel as [|fuel IH]; intros n Hn; [cbn in *; lia|]. cbn [print_number].
  assert (Hdig : ∀ d, 0 ≤ d < 10 → digit_char d = 48 + d ∧ isdigit (digit_char d) = true).
  { intros d Hd. unfold digit_char, isdigit. rewrite (proj2 (Z.ltb_lt _ _)) by lia. split; lia. }
  destruct (Z.ltb_spec n 10) as [Hlt|Hge].
  - destruct (Hdig n ltac:(lia)) as [E1 E2]. cbn. rewrite E2, E1. lia.
  - assert (Hq : 0 ≤ n / 10 < 10 ^ Z.of_nat fuel). { split; [apply Z.div_pos; lia|]. apply Z.div_lt_upper_bound; [lia|]. rewrite Nat2Z.inj_succ, Z.pow_succ_r in Hn by lia. lia. }
    destruct (Hdig (n mod 10) (Z.mod_pos_bound n 10 ltac:(lia))) as [E1 E2]. rewrite std_digits_app; [|apply print_decimal_digits; lia|done].
    rewrite IH, E1 by done. pose proof (Z.div_mod n 10 ltac:(lia)). lia.
Qed.

Lemma stox_decimal lo hi n : 0 ≤ n < 2 ^ 64 → lo ≤ n ≤ hi → std_stox lo hi (decimal n) = Ok n.
Proof.
  intros Hn Hr'. pose proof (print_decimal_digits 64 n ltac:(lia)) as Hd. pose proof (std_digits_print 64 n ltac:(lia)) as Hv. unfold decimal.
  destruct (print_number 64 10 n) as [|c s] eqn:E; [by apply print_number_nonempty in E; [|lia]|].
  apply Forall_inv in Hd as Hc. cbn beta in Hc. apply isdigit_range in Hc as Hr. unfold std_stox. cbn [skip_spaces].
  assert (isspace c = false) as -> by (unfold isspace; lia).
  assert (std_unsigned (c :: s) = Some n) as Hu by (cbn [std_unsigned]; by rewrite Hc, Hv).
  assert (c = 48 ∨ c = 49 ∨ c = 50 ∨ c = 51 ∨ c = 52 ∨ c = 53 ∨ c = 54 ∨ c = 55 ∨ c = 56 ∨ c = 57) as Hcase by lia.
  assert (match c :: s with 45 :: t => Z.opp <$> std_unsigned t | 43 :: t => std_unsigned t | _ => std_unsigned (c :: s) end = Some n) as -> by (by destruct_or! Hcase; subst c).
  by rewrite (proj2 (Z.leb_le _ _)), (proj2 (Z.leb_le _ _)) by lia.
Qed.

Lemma stoi_decimal n : 0 ≤ n < 2 ^ 31 → std_stoi (decimal n) = Ok n.
Proof. intros Hn. apply stox_decimal; lia. Qed.

(** ** Delimiters *)

(** What follows begins with none of the characters of [p]. *)
Definition ends_at (p : Z → bool) (s : bytes) : Prop := match s with [] => True | x :: _ => p x = false end.

Lemma chars_app p a b : forallb p a = true → ends_at p b → take_chars p (a ++ b) = a ∧ drop_chars p (a ++ b) = b.
Proof.
  intros Ha Hb. induction a as [|x a IH]; cbn in *.
  - destruct b as [|y b]; [done|]. cbn in *. by rewrite Hb.
  - apply andb_true_iff in Ha as [-> Ha]. destruct (IH Ha) as [-> ->]. done.
Qed.

Lemma chars_all p a : forallb p a = true → take_chars p a = a ∧ drop_chars p a = [].
Proof. intros H. pose proof (chars_app p a [] H I) as [H1 H2]. rewrite app_nil_r in H1, H2. done. Qed.

(** ** Well-formed URIs *)

Definition free_of (delims s : bytes) : Prop := forallb (not_in delims) s = true.

Record uri_ok (u : Uri) : Prop := {
  ok_scheme : free_of (str "/:") (uri_scheme u);
  ok_path : free_of (str "?#") (uri_path u);
  ok_query : free_of (str "#") (uri_query u);
  ok_authority :
    match uri_host u with
    | [] => uri_userinfo u = [] ∧ uri_port u = 0 ∧ su_beginsWith (uri_path u) (str "//") = false
    | _ => free_of (str "/?#:@") (uri_host u) ∧ free_of (str "/?#@") (uri_userinfo u) ∧ 0 ≤ uri_port u < 2 ^ 31 ∧
           ends_at (not_in (str "/")) (uri_path u)
    end }.

Lemma free_of_more delims delims' s : forallb (λ c, bool_decide (c ∈ delims')) delims = true → free_of delims' s → free_of delims s.
Proof.
  rewrite forallb_forall. intros Hsub'. assert (Hsub : ∀ c, c ∈ delims → c ∈ delims').
  { intros c Hc. apply list_elem_of_In, Hsub', bool_decide_eq_true in Hc. done. }
  clear Hsub'. unfold free_of, not_in. rewrite !forallb_forall. intros H c Hc. specialize (H c Hc). rewrite negb_true_iff, bool_decide_eq_false in *. auto.
Qed.

Lemma free_of_app delims a b : free_of delims a → free_of delims b → free_of delims (a ++ b).
Proof. unfold free_of. intros Ha Hb. by rewrite forallb_app, Ha, Hb. Qed.

Lemma digits_free delims s : Forall (λ c, isdigit c = true) s → (∀ c, c ∈ delims → isdigit c = false) → free_of delims s.
Proof.
  intros Hs Hd. unfold free_of, not_in. induction Hs as [|c s Hc _ IH]; [done|]. cbn. rewrite IH, bool_decide_eq_false_2; [done|]. intros Hin%Hd. congruence.
Qed.

(** The text behind the path. *)
Definition tail_text (u : Uri) : bytes := behind (str "?") (uri_query u) ++ behind (str "#") (uri_fragment u).

Lemma tail_ends u delims : bool_decide (63 ∈ delims) && bool_decide (35 ∈ delims) = true → ends_at (not_in delims) (tail_text u).
Proof.
  intros [H1 H2]%andb_true_iff. unfold tail_text.
  destruct (uri_query u) as [|q query]; [destruct (uri_fragment u) as [|f fragment]; [done|]|]; [change (not_in delims 35 = false)|change (not_in delims 63 = false)]; unfold not_in; [by rewrite H2|by rewrite H1].
Qed.

Lemma parse_tail u v : free_of (str "#") (uri_query u) → uri_query v = [] → uri_fragment v = [] →
  (let '(v, s) := parse_query (tail_text u) v in parse_fragment s v) =
  mkUri (uri_scheme v) (uri_userinfo v) (uri_host v) (uri_port v) (uri_path v) (uri_query u) (uri_fragment u).
Proof.
  intros Hq Hvq Hvf. unfold tail_text. destruct v as [sc ui h p pa q f]. cbn in Hvq, Hvf. subst q f. destruct (uri_query u) as [|q query].
  - destruct (uri_fragment u) as [|f fragment]; done.
  - unfold parse_query. change (behind (str "?") (q :: query) ++ behind (str "#") (uri_fragment u)) with (63 :: (q :: query) ++ behind (str "#") (uri_fragment u)).
    cbn [Z.eqb Pos.eqb]. destruct (chars_app _ (q :: query) (behind (str "#") (uri_fragment u)) Hq) as [-> ->]; [by destruct (uri_fragment u)|].
    by destruct (uri_fragment u).
Qed.

Lemma parse_rest u v : uri_ok u → uri_path v = [] → uri_query v = [] → uri_fragment v = [] →
  (let '(v, s) := parse_path (uri_path u ++ tail_text u) v in let '(v, s) := parse_query s v in Ok (parse_fragment s v)) =
  Ok (mkUri (uri_scheme v) (uri_userinfo v) (uri_host v) (uri_port v) (uri_path u) (uri_query u) (uri_fragment u)).
Proof.
  intros Hok Hp Hq Hf. unfold parse_path. destruct (chars_app _ (uri_path u) (tail_text u) (ok_path u Hok)) as [-> ->]; [by apply tail_ends|].
  set (v' := match uri_path u with [] => v | p => setPath p v end). pose proof (parse_tail u v' (ok_query u Hok)) as H.
  assert (Hv : v' = mkUri (uri_scheme v) (uri_userinfo v) (uri_host v) (uri_port v) (uri_path u) [] []).
  { subst v'. destruct v as [sc ui h po pa q f]. cbn in Hp, Hq, Hf. subst. by destruct (uri_path u). }
  rewrite Hv in H |- *. specialize (H eq_refl eq_refl). destruct (parse_query _ _) as [w s]. by rewrite H.
Qed.

Definition port_text (port : Z) : bytes := if 0 <? port then str ":" ++ decimal port else [].

Lemma decimal_free delims n : 0 ≤ n → (∀ c, c ∈ delims → isdigit c = false) → free_of delims (decimal n).
Proof. intros Hn. apply digits_free. by apply print_decimal_digits. Qed.

Lemma parse_host_text host port v : free_of (str ":") host → 0 ≤ port < 2 ^ 31 → uri_port v = 0 →
  parse_host (host ++ port_text port) v = Ok (mkUri (uri_scheme v) (uri_userinfo v) host port (uri_path v) (uri_query v) (uri_fragment v)).
Proof.
  intros Hh Hp Hv. unfold parse_host, port_text. destruct (Z.ltb_spec 0 port) as [Hlt|Hge].
  - destruct (chars_app (not_in (str ":")) host (str ":" ++ decimal port) Hh) as [-> ->]; [done|]. pose proof (stoi_decimal port Hp) as Hs.
    assert (Hd : take_chars isdigit (decimal port) = decimal port).
    { apply chars_all. apply forallb_forall. intros c Hc. pose proof (print_decimal_digits 64 port ltac:(lia)) as H. rewrite Forall_forall in H. by apply H. }
    change (str ":" ++ decimal port) with (58 :: decimal port). destruct (decimal port) as [|x rest] eqn:E; [by apply print_number_nonempty in E; [|lia]|]. by rewrite Hd, Hs.
  - rewrite app_nil_r. destruct (chars_all _ host Hh) as [-> ->]. rewrite Hv. by replace port with 0 by lia.
Qed.

Lemma parse_authority_text u rest v : uri_ok u → uri_host u ≠ [] → ends_at (not_in (str "/?#")) rest → uri_userinfo v = [] → uri_port v = 0 →
  parse_authority (str "//" ++ match uri_userinfo u with [] => [] | i => i ++ str "@" end ++ uri_host u ++ port_text (uri_port u) ++ rest) v =
  Ok (mkUri (uri_scheme v) (uri_userinfo u) (uri_host u) (uri_port u) (uri_path v) (uri_query v) (uri_fragment v), rest).
Proof.
  intros Hok Hne Hr Hvi Hvp. pose proof (ok_authority u Hok) as Ha. destruct (uri_host u) as [|h host] eqn:Eh; [done|]. destruct Ha as (Hhost & Hinfo & Hport & _).
  set (info := match uri_userinfo u with [] => [] | i => i ++ str "@" end). rewrite <- Eh in *. clear Eh.
  assert (Hpt : ∀ ds, (∀ c, c ∈ ds → isdigit c = false ∧ c ≠ 58) → free_of ds (port_text (uri_port u))).
  { intros ds Hds. unfold port_text. destruct (0 <? uri_port u); [|done]. apply free_of_app; [|apply decimal_free; [lia|]; by apply Hds].
    unfold free_of, not_in. cbn. rewrite bool_decide_eq_false_2; [done|]. intros H%Hds. by destruct H. }
  assert (Hfree : free_of (str "/?#") (info ++ uri_host u ++ port_text (uri_port u))).
  { apply free_of_app; [|apply free_of_app].
    - subst info. destruct (uri_userinfo u) as [|i info]; [done|]. apply free_of_app; [|done]. by eapply free_of_more; [|exact Hinfo].
    - by eapply free_of_more; [|exact Hhost].
    - apply Hpt. intros c Hc. cbn in Hc. repeat (apply elem_of_cons in Hc as [->|Hc]; [done|]). by apply elem_of_nil in Hc. }
  unfold parse_authority. set (auth := info ++ uri_host u ++ port_text (uri_port u)) in *.
  replace (str "//" ++ info ++ uri_host u ++ port_text (uri_port u) ++ rest) with (str "//" ++ auth ++ rest) by (subst auth; by rewrite <- !app_assoc).
  rewrite beginsWith_app. assert (Hlen : (2 <? length (str "//" ++ auth ++ rest))%nat = true).
  { apply Nat.ltb_lt. subst auth. rewrite !length_app. destruct (uri_host u); [done|]. cbn. lia. }
  rewrite Hlen. cbn [andb]. change (drop 2 (str "//" ++ auth ++ rest)) with (auth ++ rest). destruct (chars_app _ auth rest Hfree Hr) as [-> ->].
  assert (Hu : (let '(w, a) := parse_userinfo auth v in parse_host a w) =
    Ok (mkUri (uri_scheme v) (uri_userinfo u) (uri_host u) (uri_port u) (uri_path v) (uri_query v) (uri_fragment v))).
  { assert (Hcolon : free_of (str ":") (uri_host u)) by (by eapply free_of_more; [|exact Hhost]). unfold parse_userinfo. subst auth info.
    destruct (uri_userinfo u) as [|i info] eqn:Ei.
    - cbn [app]. assert (Hat : free_of (str "@") (uri_host u ++ port_text (uri_port u))).
      { apply free_of_app; [by eapply free_of_more; [|exact Hhost]|]. apply Hpt. intros c Hc. cbn in Hc. apply elem_of_cons in Hc as [->|Hc]; [done|]. by apply elem_of_nil in Hc. }
      destruct (chars_all _ _ Hat) as [_ ->]. rewrite parse_host_text, Hvi by done. done.
    - rewrite <- app_assoc. destruct (chars_app (not_in (str "@")) (i :: info) (str "@" ++ uri_host u ++ port_text (uri_port u))) as [-> ->]; [by eapply free_of_more; [|exact Hinfo]|done|].
      change (str "@" ++ uri_host u ++ port_text (uri_port u)) with (64 :: uri_host u ++ port_text (uri_port u)). cbv iota beta zeta. by rewrite parse_host_text. }
  assert (Hauth : auth ≠ []) by (subst auth; destruct (uri_host u); [done|by destruct info]). clearbody auth. destruct auth as [|x a]; [done|]. by rewrite Hu.
Qed.

Lemma no_authority u : uri_ok u → uri_host u = [] → su_beginsWith (uri_path u ++ tail_text u) (str "//") = false.
Proof.
  intros Hok Hh. pose proof (ok_authority u Hok) as Ha. rewrite Hh in Ha. destruct Ha as (_ & _ & Hp). unfold su_beginsWith in *. cbn [str length] in *.
  apply bool_decide_eq_false. apply bool_decide_eq_false in Hp. intros H. apply Hp. clear Hp.
  assert (Ht : ∀ n x t, take (S n) (tail_text u) = x :: t → x ≠ 47).
  { intros n x t. unfold tail_text. destruct (uri_query u); [destruct (uri_fragment u); [done|]|]; cbn; by intros [= <- _]. }
  destruct (uri_path u) as [|a [|b p]]; cbn in *; [by apply Ht in H| |done]. injection H as -> H. by apply (Ht 0%nat) in H.
Qed.

(** A URI is parsed back from its text. *)
Theorem uri_roundtrip u : uri_ok u → uri_of_text (uri_toString u) = Ok u.
Proof.
  intros Hok. unfold uri_of_text, parseURI, parse_scheme, uri_toString. fold (tail_text u). fold (port_text (uri_port u)).
  set (body := match uri_host u with [] => [] | h => str "//" ++ match uri_userinfo u with [] => [] | i => i ++ str "@" end ++ h ++ port_text (uri_port u) end ++ uri_path u ++ tail_text u).
  destruct (chars_app (not_in (str "/:")) (uri_scheme u) (str ":" ++ body) (ok_scheme u Hok)) as [-> ->]; [done|].
  change (str ":" ++ body) with (58 :: body). cbv iota beta zeta. cbn [uri_userinfo uri_host uri_port uri_path uri_query uri_fragment newUri].
  set (v := mkUri (uri_scheme u) [] [] 0 [] [] []).
  assert (Hauth : parse_authority body v = Ok (mkUri (uri_scheme u) (uri_userinfo u) (uri_host u) (uri_port u) [] [] [], uri_path u ++ tail_text u)).
  { pose proof (ok_authority u Hok) as Ha. subst body. destruct (uri_host u) as [|h host] eqn:Eh.
    - destruct Ha as (-> & -> & _). unfold parse_authority. cbn [app]. rewrite (no_authority u Hok Eh), andb_false_r. done.
    - destruct Ha as (_ & _ & _ & Hp). rewrite <- Eh. rewrite <- !app_assoc. rewrite (parse_authority_text u); try done; [by rewrite Eh|].
      destruct (uri_path u) as [|x p]; [by apply tail_ends|]. cbn in *. unfold not_in in *. apply negb_false_iff, bool_decide_eq_true in Hp.
      rewrite bool_decide_eq_true_2; [done|]. apply elem_of_cons in Hp as [->|Hp]; [by left|by apply elem_of_nil in Hp]. }
  rewrite Hauth. cbn [mbind result_bind]. pose proof (parse_rest u (mkUri (uri_scheme u) (uri_userinfo u) (uri_host u) (uri_port u) [] [] []) Hok eq_refl eq_refl eq_refl) as H.
  destruct (parse_path _ _) as [w s]. rewrite H. by destruct u.
Qed.

Lemma uri_roundtrip_witness :
  let u := mkUri (str "http") (str "me:pw") (str "example.org") 8080 (str "/a/b") (str "x=1&y=2") (str "top#2") in
  uri_toString u = str "http://me:pw@example.org:8080/a/b?x=1&y=2#top#2" ∧ uri_of_text (uri_toString u) = Ok u.
Proof. intros u. split; [reflexivity|]. apply uri_roundtrip. split; [reflexivity..|]. cbn. split; [reflexivity|]. split; [reflexivity|]. split; [lia|reflexivity]. Defined.

(** ** Parameters *)

(** Text that decoding leaves as it is, and that no delimiter ends. *)
Definition word_ok (s : bytes) : Prop := s ≠ [] ∧ free_of (str "%=&") s.
Fixpoint params_text (params : list (bytes * bytes)) : bytes :=
  match params with [] => [] | [(k, v)] => k ++ str "=" ++ v | (k, v) :: params => k ++ str "=" ++ v ++ str "&" ++ params_text params end.

Lemma decode_plain s : free_of (str "%") s → uri_decode s = Ok s.
Proof.
  unfold free_of. induction s as [|c s IH]; [done|]. cbn [forallb]. intros [Hc Hs]%andb_true_iff. cbn [uri_decode]. unfold not_in in Hc.
  apply negb_true_iff, bool_decide_eq_false in Hc. rewrite (proj2 (Z.eqb_neq c 37)), IH by (done || (intros ->; apply Hc; by left)). done.
Qed.

(** The parameters of a query are parsed back, in their order. *)
Lemma query_roundtrip params : Forall (λ p, word_ok p.1 ∧ word_ok p.2) params → parseQueryString (params_text params) = Ok params.
Proof.
  intros Hok. unfold parseQueryString.
  assert (H : ∀ n, (length params ≤ n)%nat → query_loop n (params_text params) = Ok params).
  { induction Hok as [|[k v] params [[Hk1 Hk2] [Hv1 Hv2]] Hok IH]; intros n Hn; [by destruct n|]. destruct n as [|n]; [cbn in Hn; lia|]. cbn [fst snd length] in *.
    assert (Htext : params_text ((k, v) :: params) = k ++ 61 :: v ++ match params with [] => [] | _ => 38 :: params_text params end).
    { destruct params; cbn; [by rewrite app_nil_r|done]. }
    rewrite Htext. cbn [query_loop]. assert (Hk : free_of (str "=&") k) by by eapply free_of_more; [|exact Hk2].
    assert (Hv : free_of (str "=&") v) by by eapply free_of_more; [|exact Hv2].
    destruct (chars_app _ k (61 :: v ++ match params with [] => [] | _ => 38 :: params_text params end) Hk) as [-> ->]; [done|].
    destruct k as [|x k]; [done|]. destruct (chars_app _ v (match params with [] => [] | _ => 38 :: params_text params end) Hv) as [-> ->]; [by destruct params|].
    destruct v as [|y v]; [done|]. rewrite (decode_plain (x :: k)) by (by eapply free_of_more; [|exact Hk2]). rewrite (decode_plain (y :: v)) by (by eapply free_of_more; [|exact Hv2]). cbn [mbind result_bind].
    replace (drop 1 _) with (params_text params) by by destruct params. by rewrite IH by lia. }
  apply H. clear H. induction Hok as [|[k v] params [[Hk1 _] _] _ IH]; [cbn; lia|]. destruct k as [|z k]; [done|]. destruct params as [|p params]; [cbn; lia|].
  change (params_text ((z :: k, v) :: p :: params)) with ((z :: k) ++ str "=" ++ v ++ str "&" ++ params_text (p :: params)).
  rewrite !length_app. change (length ((z :: k, v) :: p :: params)) with (S (length (p :: params))). change (length (z :: k)) with (S (length k)). lia.
Qed.

(** ** Where URIs are read otherwise *)

(** Another URI does not replace the parts that it does not have. *)
Lemma reparse_keeps_parts : (u ← uri_of_text (str "http://h:80/a?q"); parseURI (str "ftp://g") u) = Ok (mkUri (str "ftp") [] (str "g") 80 (str "/a") (str "q") []).
Proof. reflexivity. Qed.
(** Behind a percent sign one digit is enough, or a sign. *)
Lemma half_escape_accepted : uri_decode (str "%1z%-1") = Ok [1; 255].
Proof. reflexivity. Qed.
Lemma query_stops_at_empty_value : parseQueryString (str "a=&b=1") = Ok [].
Proof. reflexivity. Qed.
