(* ===== verification/IniFile.v ===== *)
(** * INI files

    [src/xzero/text/IniFile.cc]: sections of keys and values, in files and in memory. *)
From stdpp Require Import gmap.
From S2P Require Import Prelude HeaderFieldList Http1Parser StringUtil.

Definition IniSection : Type := gmap bytes bytes.
Definition IniFile : Type := gmap bytes IniSection.

(** [std::map::operator[]] makes the section when there is none. *)
Definition section_of (title : bytes) (f : IniFile) : IniSection := default ∅ (f !! title).
Definition ini_set (title key value : bytes) (f : IniFile) : IniFile := <[title := <[key := value]> (section_of title f)]> f.
Definition ini_containsSection (title : bytes) (f : IniFile) : bool := match f !! title with Some _ => true | None => false end.
Definition ini_getSection (title : bytes) (f : IniFile) : IniSection := if ini_containsSection title f then section_of title f else ∅.
Definition ini_removeSection (title : bytes) (f : IniFile) : IniFile := delete title f.
Definition ini_find (title key : bytes) (f : IniFile) : option bytes := s ← f !! title; s !! key.
Definition ini_contains (title key : bytes) (f : IniFile) : bool := match ini_find title key f with Some _ => true | None => false end.
Definition ini_get (title key : bytes) (f : IniFile) : bytes := default [] (ini_find title key f).
(** The key is erased from a copy of the section. *)
Definition ini_remove (title key : bytes) (f : IniFile) : IniFile := f.
Definition ini_clear (f : IniFile) : IniFile := ∅.

(** ** Loading *)

Definition ini_line (current_title line : bytes) (f : IniFile) : result (bytes * IniFile) :=
  value ← su_trim line;
  match value with
  | [] => Ok (current_title, f)
  | x :: _ =>
      if (x =? 59) || (x =? 35) then Ok (current_title, f)
      else if (x =? 91) && bool_decide (List.last value 0 = 93) then Ok (take (length value - 2) (drop 1 value), f)
      else
        match current_title with
        | [] => Raise RuntimeError
        | _ =>
            match su_find 61 value with
            | Some eq =>
                lhs ← su_trim (take eq value);
                rhs ← su_trim (drop (S eq) value);
                Ok (current_title, ini_set current_title lhs rhs f)
            | None => Ok (current_title, ini_set current_title value [] f)
            end
        end
  end.
Fixpoint ini_lines (current_title : bytes) (lines : list bytes) (f : IniFile) : result IniFile :=
  match lines with
  | [] => Ok f
  | line :: lines => '(title, f) ← ini_line current_title line f; ini_lines title lines f
  end.
Definition ini_load (data : bytes) (f : IniFile) : result IniFile :=
  match su_split data [10] with Some lines => ini_lines [] lines f | None => Raise Blocked end.

(** ** Writing *)

(** The entries of a [std::map] in the order of their keys. *)
Fixpoint insert_sorted {A} (x : bytes * A) (l : list (bytes * A)) : list (bytes * A) :=
  match l with [] => [x] | y :: l => if su_compare x.1 y.1 <? 0 then x :: y :: l else y :: insert_sorted x l end.
Definition in_order {A} (m : gmap bytes A) : list (bytes * A) := fold_right insert_sorted [] (map_to_list m).
Definition row_text (row : bytes * bytes) : bytes := row.1 ++ [61] ++ row.2 ++ [10].
Definition section_text (s : bytes * IniSection) : bytes := [91] ++ s.1 ++ [93; 10] ++ mjoin (row_text <$> in_order s.2) ++ [10].
Definition ini_serialize (f : IniFile) : bytes := mjoin (section_text <$> in_order f).

(** ** What is loaded *)

(** A file is written as lines: titles, rows and comments. *)
Inductive IniLine := Title (t : bytes) | Row (k v : bytes) | Flag (k : bytes) | Remark (hash : bool) (t : bytes).
Definition line_text (l : IniLine) : bytes :=
  match l with Title t => [91] ++ t ++ [93] | Row k v => k ++ [61] ++ v | Flag k => k | Remark hash t => [if hash then 35 else 59] ++ t end.

(** Neither blank at an end nor with a line break. *)
Definition trimmed (s : bytes) : bool :=
  match s with x :: _ => negb (isspace x) && negb (isspace (List.last s 0)) && forallb (λ c, negb (c =? 10)) s | [] => false end.
Definition key_ok (k : bytes) : bool := trimmed k && forallb (λ c, negb (c =? 61)) k && match k with x :: _ => negb ((x =? 59) || (x =? 35) || (x =? 91)) | [] => false end.
Definition line_ok (l : IniLine) : bool :=
  match l with
  | Title t => trimmed t
  | Row k v => key_ok k && trimmed v
  | Flag k => key_ok k
  | Remark _ t => negb (isspace (List.last t 35)) && forallb (λ c, negb (c =? 10)) t
  end.

(** What the lines mean, below a title. *)
Fixpoint meaning (title : bytes) (ls : list IniLine) (f : IniFile) : IniFile :=
  match ls with
  | [] => f
  | Title t :: ls => meaning t ls f
  | Row k v :: ls => meaning title ls (ini_set title k v f)
  | Flag k :: ls => meaning title ls (ini_set title k [] f)
  | Remark _ _ :: ls => meaning title ls f
  end.

(** Rows stand below a title. *)
Fixpoint below_title (titled : bool) (ls : list IniLine) : bool :=
  match ls with
  | [] => true
  | Title _ :: ls => below_title true ls
  | Remark _ _ :: ls => below_title titled ls
  | _ :: ls => titled && below_title titled ls
  end.

Lemma last_app_one (s : bytes) x d : List.last (s ++ [x]) d = x.
Proof. induction s as [|y s IH]; [done|]. cbn. rewrite IH. by destruct s. Qed.

Lemma last_app_nonempty (s t : bytes) d : t ≠ [] → List.last (s ++ t) d = List.last t d.
Proof. intros Ht. induction s as [|y s IH]; [done|]. cbn. rewrite IH. by destruct (s ++ t) eqn:E; [apply app_eq_nil in E as [_ ->]|]. Qed.

Lemma trim_none s x y u v : s = x :: u → s = v ++ [y] → isspace x = false → isspace y = false → su_trim s = Ok s.
Proof.
  intros H1 H2 Hx Hy. unfold su_trim. rewrite H2, rev_app_distr. cbn [rev app drop_chars]. rewrite Hy. cbn [rev]. rewrite rev_involutive, <- H2, H1.
  cbn [drop_chars]. by rewrite Hx.
Qed.

Lemma trimmed_ends s : trimmed s = true → ∃ x u v y, s = x :: u ∧ s = v ++ [y] ∧ isspace x = false ∧ isspace y = false ∧ Forall (λ c, c ≠ 10) s.
Proof.
  destruct s as [|x u]; [done|]. cbn [trimmed]. rewrite !andb_true_iff, !negb_true_iff. intros [[Hx Hy] Hn]. destruct (exists_last (l := x :: u)) as (v & y & E); [done|].
  exists x, u, v, y. rewrite E, last_app_one in Hy. split_and!; try done. apply Forall_forall. intros c Hc ->. apply (proj1 (forallb_forall _ _) Hn) in Hc. done.
Qed.

Lemma trim_trimmed s : trimmed s = true → su_trim s = Ok s.
Proof. intros (x & u & v & y & H1 & H2 & Hx & Hy & _)%trimmed_ends. by eapply trim_none. Qed.

(** The text of a line has no blanks at its ends and no line break. *)
Lemma line_trimmed l : line_ok l = true → su_trim (line_text l) = Ok (line_text l) ∧ Forall (λ c, c ≠ 10) (line_text l).
Proof.
  assert (Hkey : ∀ k, key_ok k = true → trimmed k = true) by (intros k; unfold key_ok; by rewrite !andb_true_iff; intros [[? _] _]).
  destruct l as [t|k v|k|hash t]; cbn [line_ok line_text].
  - intros (x & u & w & y & H1 & H2 & _ & _ & Hn)%trimmed_ends. split; [by apply (trim_none _ 91 93 (t ++ [93]) (91 :: t))|]. constructor; [done|]. apply Forall_app. split; [done|by repeat constructor].
  - intros [Hk%Hkey Hv]%andb_true_iff. apply trimmed_ends in Hk as (x & u & _ & _ & H1 & _ & Hx & _ & Hn). apply trimmed_ends in Hv as (_ & _ & w & y & _ & H2 & _ & Hy & Hm).
    split; [apply (trim_none _ x y (u ++ [61] ++ v) (k ++ [61] ++ w)); [by rewrite H1|by rewrite H2, <- !app_assoc|done|done]|]. apply Forall_app. split; [done|by constructor].
  - intros Hk%Hkey. split; [by apply trim_trimmed|]. by apply trimmed_ends in Hk as (? & ? & ? & ? & _ & _ & _ & _ & Hn).
  - intros [Hy%negb_true_iff Hn]%andb_true_iff. assert (Forall (λ c, c ≠ 10) t) as Hn'.
    { apply Forall_forall. intros c Hc ->. apply (proj1 (forallb_forall _ _) Hn) in Hc. done. }
    split; [| by destruct hash; constructor].
    assert (Hh : isspace (if hash then 35 else 59) = false) by (by destruct hash). destruct (decide (t = [])) as [-> | Ht]; [by destruct hash |].
    destruct (exists_last Ht) as (w & y & ->). rewrite last_app_one in Hy.
    by apply (trim_none _ (if hash then 35 else 59) y (w ++ [y]) ((if hash then 35 else 59) :: w)).
Qed.

(** Text without line breaks at which a line break is put between is split there. *)
Lemma find_str_char c s : Forall (λ x, x ≠ c) s → ∀ t, find_str [c] (s ++ c :: t) = Some (length s).
Proof.
  induction 1 as [|x s Hx _ IH]; intros t; cbn [app find_str].
  - by rewrite (beginsWith_app [c] t : su_beginsWith (c :: t) [c] = true).
  - assert (su_beginsWith (x :: s ++ c :: t) [c] = false) as ->. { unfold su_beginsWith. apply bool_decide_eq_false. cbn. by intros [= ->]. }
    by rewrite IH.
Qed.

Lemma find_str_no_char c s : Forall (λ x, x ≠ c) s → find_str [c] s = None.
Proof.
  induction 1 as [|x s Hx _ IH]; [done|]. cbn [find_str]. assert (su_beginsWith (x :: s) [c] = false) as ->.
  { unfold su_beginsWith. apply bool_decide_eq_false. cbn. by intros [= ->]. } by rewrite IH.
Qed.

Lemma split_join_char c parts n : parts ≠ [] → Forall (Forall (λ x, x ≠ c)) parts → (length parts ≤ n)%nat → su_split_loop n [c] (su_join parts [c]) = Some parts.
Proof.
  intros Hne Hp. revert n. induction Hp as [|p parts Hp Hps IH]; intros n Hn; [done|]. destruct n as [|n]; [cbn in Hn; lia|]. cbn [length] in Hn.
  destruct parts as [|q parts]; [cbn [su_join su_split_loop]; by rewrite find_str_no_char|].
  change (su_join (p :: q :: parts) [c]) with (p ++ c :: su_join (q :: parts) [c]). cbn [su_split_loop]. rewrite find_str_char by done.
  rewrite take_app_length. rewrite <- drop_drop, drop_app_length. cbn [length]. change (drop 1 (c :: su_join (q :: parts) [c])) with (su_join (q :: parts) [c]).
  by rewrite IH by (done || lia).
Qed.

Lemma join_length c parts : (length parts ≤ S (length (su_join parts [c])))%nat.
Proof.
  induction parts as [|p [|q parts] IH]; [cbn; lia..|]. change (su_join (p :: q :: parts) [c]) with (p ++ c :: su_join (q :: parts) [c]). rewrite length_app. cbn [length] in *. lia.
Qed.

Lemma su_find_none c s : forallb (λ x, negb (x =? c)) s = true → su_find c s = None.
Proof. induction s as [|x s IH]; [done|]. cbn. intros [Hx%negb_true_iff Hs]%andb_true_iff. rewrite Hx, IH by done. done. Qed.

Lemma su_find_app c s t : forallb (λ x, negb (x =? c)) s = true → su_find c (s ++ c :: t) = Some (length s).
Proof. induction s as [|x s IH]; cbn; [by rewrite Z.eqb_refl|]. intros [Hx%negb_true_iff Hs]%andb_true_iff. by rewrite Hx, IH. Qed.

Lemma key_first k s : key_ok k = true → ∃ x r, k ++ s = x :: r ∧ (x =? 59) || (x =? 35) = false ∧ (x =? 91) = false.
Proof.
  unfold key_ok. destruct k as [|x k]; [done|]. rewrite !andb_true_iff, negb_true_iff, orb_false_iff. intros [_ [H1 H2]]. by exists x, (k ++ s).
Qed.

Lemma line_loaded title l f : line_ok l = true → (title ≠ [] ∨ below_title false [l] = true) →
  ini_line title (line_text l) f = Ok (match l with Title t => t | _ => title end, meaning title [l] f).
Proof.
  intros Hl Hp. unfold ini_line. destruct (line_trimmed l Hl) as [-> _]. cbn [mbind result_bind]. destruct l as [t|k v|k|hash t]; cbn [line_text line_ok meaning] in *.
  - change ([91] ++ t ++ [93]) with (91 :: t ++ [93]). cbn [Z.eqb Pos.eqb orb]. rewrite bool_decide_eq_true_2 by exact (last_app_one (91 :: t) 93 0). cbn [andb length]. change (drop 1 (91 :: t ++ [93])) with (t ++ [93]).
    replace (S (length (t ++ [93%Z])) - 2)%nat with (length t) by (rewrite length_app; cbn; lia). by rewrite take_app_length.
  - apply andb_true_iff in Hl as [Hk Hv]. destruct Hp as [Hp|Hp]; [|done]. destruct (key_first k ([61] ++ v) Hk) as (x & r & E & H1 & H2). rewrite E, H1, H2, <- E. cbn [andb].
    destruct title as [|a title]; [done|]. unfold key_ok in Hk. rewrite !andb_true_iff in Hk. destruct Hk as [[Hk Heq] _]. change ([61] ++ v) with (61 :: v).
    rewrite su_find_app, take_app_length by done. replace (S (length k)) with (length k + 1)%nat by lia. rewrite <- drop_drop, drop_app_length. cbn [drop].
    by rewrite !trim_trimmed.
  - destruct Hp as [Hp|Hp]; [|done]. destruct (key_first k [] Hl) as (x & r & E & H1 & H2). rewrite app_nil_r in E. rewrite E, H1, H2, <- E. cbn [andb].
    destruct title as [|a title]; [done|]. unfold key_ok in Hl. rewrite !andb_true_iff in Hl. destruct Hl as [[_ Heq] _]. by rewrite su_find_none.
  - by destruct hash.
Qed.

Lemma lines_loaded title ls f : forallb line_ok ls = true → below_title (negb (bool_decide (title = []))) ls = true → ini_lines title (line_text <$> ls) f = Ok (meaning title ls f).
Proof.
  revert title f. induction ls as [|l ls IH]; intros title f Hls Hp; [done|]. cbn [forallb] in Hls. apply andb_true_iff in Hls as [Hl Hls]. cbn [fmap list_fmap ini_lines].
  rewrite line_loaded; [|done|].
  - cbn [mbind result_bind]. destruct l as [t|k v|k|hash t]; cbn [meaning below_title] in *; apply IH; try done.
    + cbn in Hl. destruct t; [done|]. by rewrite bool_decide_eq_false_2.
    + by apply andb_true_iff in Hp as [_ Hp].
    + by apply andb_true_iff in Hp as [_ Hp].
  - destruct (decide (title = [])) as [->|Hne]; [right|by left]. rewrite bool_decide_eq_true_2 in Hp by done. cbn in Hp. destruct l; cbn in *; done.
Qed.

(** A file of titles, rows, flags and comments, one to a line, is loaded as what they say. *)
Theorem ini_loaded ls f : ls ≠ [] → forallb line_ok ls = true → below_title false ls = true →
  ini_load (su_join (line_text <$> ls) [10]) f = Ok (meaning [] ls f).
Proof.
  intros Hne Hok Hp. unfold ini_load, su_split. rewrite split_join_char; [by apply lines_loaded|by destruct ls| |apply join_length].
  apply Forall_fmap, Forall_forall. intros l Hl. apply (proj1 (forallb_forall _ _) Hok) in Hl. by apply line_trimmed.
Qed.

(** ** Where files fail *)

(** A file that [serialize] writes cannot be loaded: it has an empty line. *)
Lemma serialized_not_loaded : ini_load (ini_serialize {[ str "a" := {[ str "k" := str "v" ]} ]}) ∅ = Raise UndefinedBehaviour.
Proof. vm_compute. reflexivity. Qed.
Lemma empty_value_fails : ini_load (str "[a]" ++ [10] ++ str "k=") ∅ = Raise UndefinedBehaviour.
Proof. vm_compute. reflexivity. Qed.
