(* ===== verification/IniSections.v ===== *)
(** * The sections of an INI file

    A file that is written section by section has these sections, and they come in the order
    of their titles. *)
From S2P Require Import Prelude StringUtil IniFile.
From stdpp Require Import gmap sorting.

Definition rows_map (rows : list (bytes * bytes)) (s : IniSection) : IniSection := foldl (λ s r, <[r.1 := r.2]> s) s rows.
Definition section_lines (s : bytes * list (bytes * bytes)) : list IniLine := Title s.1 :: ((λ r, Row r.1 r.2) <$> s.2).
Definition sections_lines (ss : list (bytes * list (bytes * bytes))) : list IniLine := mjoin (section_lines <$> ss).
Definition sections_file (ss : list (bytes * list (bytes * bytes))) : IniFile := list_to_map ((λ s, (s.1, rows_map s.2 ∅)) <$> ss).

Lemma rows_meaning t rows rest f s : f !! t = Some s →
  meaning t (((λ r, Row r.1 r.2) <$> rows) ++ rest) f = meaning t rest (<[t := rows_map rows s]> f).
Proof.
  revert f s. induction rows as [| [k v] rows IH]; intros f s Hs; cbn [fmap list_fmap app meaning]; [f_equal; symmetry; by apply (insert_id (M := gmap bytes)) |].
  unfold ini_set, section_of. rewrite Hs. cbn [default]. rewrite (IH _ (<[k := v]> s)) by apply lookup_insert_eq. f_equal. apply (insert_insert_eq (M := gmap bytes)).
Qed.

(** A section that is not there yet and has a row. *)
Lemma section_meaning title t r rows rest f : f !! t = None →
  meaning title (section_lines (t, r :: rows) ++ rest) f = meaning t rest (<[t := rows_map (r :: rows) ∅]> f).
Proof.
  intros Hf. unfold section_lines. cbn [fst snd fmap list_fmap app meaning]. unfold ini_set at 1, section_of. rewrite Hf. cbn [default].
  rewrite (rows_meaning t rows rest _ (<[r.1 := r.2]> ∅)) by apply (lookup_insert_eq (M := gmap bytes)). f_equal. apply (insert_insert_eq (M := gmap bytes)).
Qed.

Lemma sections_meaning title ss f :
  NoDup ss.*1 → Forall (λ s, s.2 ≠ []) ss → (∀ t, t ∈ ss.*1 → f !! t = None) → meaning title (sections_lines ss) f = sections_file ss ∪ f.
Proof.
  revert title f. induction ss as [| [t rows] ss IH]; intros title f Hd Hne Hf; [symmetry; apply (map_empty_union (M := gmap bytes)) |].
  cbn in Hd. apply NoDup_cons in Hd as [Hn Hd]. apply Forall_cons in Hne as [Hr Hne]. destruct rows as [| r rows]; [done |].
  change (sections_lines ((t, r :: rows) :: ss)) with (section_lines (t, r :: rows) ++ sections_lines ss).
  rewrite section_meaning by (apply Hf; by left). rewrite IH; [| done | done |].
  - change (sections_file ((t, r :: rows) :: ss)) with (<[t := rows_map (r :: rows) ∅]> (sections_file ss)).
    transitivity (<[t := rows_map (r :: rows) ∅]> (sections_file ss ∪ f)); [symmetry; apply (insert_union_r (M := gmap bytes)) | apply (insert_union_l (M := gmap bytes))]. apply not_elem_of_list_to_map_1. rewrite <-list_fmap_compose. exact Hn.
  - intros u Hu. transitivity (f !! u); [apply (lookup_insert_ne (M := gmap bytes)); by intros -> |]. apply Hf. by right.
Qed.

(** ** Their order *)

Definition title_lt {X} (a b : bytes * X) : Prop := (su_compare a.1 b.1 = -1)%Z.
Lemma insert_sorted_perm {X} (x : bytes * X) l : insert_sorted x l ≡ₚ x :: l.
Proof. induction l as [| y l IH]; [done |]. cbn. case_match; [done |]. rewrite IH. by constructor. Qed.
Lemma insert_sorted_sorted {X} (x : bytes * X) l : StronglySorted title_lt l → x.1 ∉ l.*1 → StronglySorted title_lt (insert_sorted x l).
Proof.
  induction 1 as [| y l Hl IH Hy]; intros Hn; [by repeat constructor |]. cbn in Hn. apply not_elem_of_cons in Hn as [Hne Hn]. cbn [insert_sorted].
  assert (Hc : (su_compare x.1 y.1 = -1 ∨ su_compare x.1 y.1 = 1)%Z).
  { clear -Hne. revert Hne. generalize (x.1) (y.1). intros a. induction a as [| u a IH]; intros [| v b]; cbn; auto; [done |].
    intros H. destruct (Z.eqb_spec u v) as [-> |]; [apply IH; by intros -> | case_match; auto]. }
  destruct (Z.ltb_spec (su_compare x.1 y.1) 0) as [Hlt | Hge].
  - constructor; [by constructor |]. assert (title_lt x y) as Hxy by (unfold title_lt; lia). constructor; [done |].
    eapply Forall_impl; [done |]. intros z Hz. by eapply su_compare_trans.
  - constructor; [auto |]. rewrite insert_sorted_perm. constructor; [| done]. unfold title_lt. rewrite su_compare_sym. lia.
Qed.

#[export] Instance title_lt_antisymm {X} : AntiSymm (=) (@title_lt X).
Proof. intros a b H1 H2. unfold title_lt in *. rewrite su_compare_sym in H2. lia. Qed.
Lemma in_order_sorted {X} (m : gmap bytes X) : in_order m ≡ₚ map_to_list m ∧ StronglySorted title_lt (in_order m).
Proof.
  unfold in_order. pose proof (NoDup_fst_map_to_list m) as Hd. induction (map_to_list m) as [| x l IH]; cbn; [by split; [| constructor] |].
  cbn in Hd. apply NoDup_cons in Hd as [Hn Hd]. destruct (IH Hd) as [Hp Hs]. split; [by rewrite insert_sorted_perm, Hp |].
  apply insert_sorted_sorted; [done |]. by rewrite Hp.
Qed.
Lemma in_order_list {X} (l l' : list (bytes * X)) : l' ≡ₚ l → StronglySorted title_lt l' → NoDup l.*1 → in_order (list_to_map l) = l'.
Proof.
  intros Hp Hs Hd. destruct (in_order_sorted (list_to_map l)) as [Hp' Hs']. apply (StronglySorted_unique title_lt); [done.. |].
  by rewrite Hp', map_to_list_to_map.
Qed.

Lemma sorted_NoDup {X} (l : list (bytes * X)) : StronglySorted title_lt l → NoDup l.*1.
Proof.
  induction 1 as [| x l _ IH Hx]; cbn; [constructor |]. constructor; [| done]. intros (y & E & Hy)%list_elem_of_fmap. rewrite Forall_forall in Hx.
  specialize (Hx y Hy). unfold title_lt in Hx. rewrite E, (proj2 (su_compare_eq _ _)) in Hx by done. lia.
Qed.
Lemma sorted_app {X} (l k : list (bytes * X)) :
  StronglySorted title_lt l → StronglySorted title_lt k → (∀ x y, x ∈ l → y ∈ k → title_lt x y) → StronglySorted title_lt (l ++ k).
Proof.
  intros Hl Hk. induction Hl as [| x l Hl IH Hx]; intros H; [done |]. cbn. constructor.
  - apply IH. intros y z Hy Hz. apply H; [by right | done].
  - apply Forall_app. split; [done |]. apply Forall_forall. intros y Hy. apply H; [by left | done].
Qed.
Lemma su_compare_prefix p a b : su_compare (p ++ a) (p ++ b) = su_compare a b.
Proof. induction p as [| x p IH]; [done |]. cbn. by rewrite Z.eqb_refl. Qed.

(** The file has its sections in the order of a sorted permutation of them. *)
Lemma sections_in_order ss ss' : ss' ≡ₚ ss → StronglySorted title_lt ss' → (in_order (sections_file ss)).*1 = ss'.*1.
Proof.
  intros Hp Hs. unfold sections_file. rewrite (in_order_list _ ((λ s, (s.1, rows_map s.2 ∅)) <$> ss')).
  - by rewrite <-list_fmap_compose.
  - by rewrite Hp.
  - clear -Hs. induction Hs as [| x l _ IH Hx]; cbn; constructor; [done |]. by apply Forall_fmap.
  - rewrite <-list_fmap_compose. rewrite <-Hp. by apply sorted_NoDup.
Qed.

Lemma rows_lookup rows s k v : NoDup rows.*1 → (k, v) ∈ rows → rows_map rows s !! k = Some v.
Proof.
  revert s. induction rows as [| [k' v'] rows IH]; intros s Hd Hin; [by apply not_elem_of_nil in Hin |]. cbn in Hd. apply NoDup_cons in Hd as [Hn Hd].
  apply elem_of_cons in Hin as [[= -> ->] | Hin]; [| by apply IH].
  assert (∀ rows s, k' ∉ rows.*1 → rows_map rows s !! k' = s !! k') as Hother.
  { clear. induction rows as [| [u w] rows IH]; intros s Hn; [done |]. cbn in Hn. apply not_elem_of_cons in Hn as [Hne Hn].
    cbn [rows_map foldl]. etransitivity; [by apply IH |]. by apply (lookup_insert_ne (M := gmap bytes)). }
  cbn [rows_map foldl]. etransitivity; [by apply Hother |]. apply (lookup_insert_eq (M := gmap bytes)).
Qed.
(** Every row is found. *)
Lemma section_found ss t rows : NoDup ss.*1 → (t, rows) ∈ ss → NoDup rows.*1 → Forall (λ r, ini_find t r.1 (sections_file ss) = Some r.2) rows.
Proof.
  intros Hd Hin Hr. apply Forall_forall. intros [k v] Hkv. unfold ini_find, sections_file.
  assert ((list_to_map ((λ s, (s.1, rows_map s.2 ∅)) <$> ss) : gmap bytes IniSection) !! t = Some (rows_map rows ∅)) as Hf.
  { apply elem_of_list_to_map_1; [by rewrite <-list_fmap_compose |]. apply list_elem_of_fmap. by exists (t, rows). }
  transitivity (Some (rows_map rows ∅) ≫= (λ s : IniSection, s !! k)); [f_equal; exact Hf |]. cbn. by apply rows_lookup.
Qed.

(** Lines that can be written and read. *)
Definition section_ok (s : bytes * list (bytes * bytes)) : Prop := trimmed s.1 = true ∧ Forall (λ r, key_ok r.1 = true ∧ trimmed r.2 = true) s.2 ∧ s.2 ≠ [].
Lemma sections_ok ss : Forall section_ok ss → forallb line_ok (sections_lines ss) = true.
Proof.
  intros H. unfold sections_lines. induction H as [| [t rows] ss (Ht & Hr & _) _ IH]; [done |].
  change (mjoin (section_lines <$> (t, rows) :: ss)) with (section_lines (t, rows) ++ mjoin (section_lines <$> ss)). rewrite forallb_app, IH, andb_true_r.
  unfold section_lines. cbn [fst snd forallb line_ok] in *. rewrite Ht. cbn [andb]. induction Hr as [| [k v] rows [Hk Hv] _ IHr]; [done |].
  cbn [fmap list_fmap forallb line_ok fst snd]. cbn in Hk, Hv. by rewrite Hk, Hv, IHr.
Qed.
Lemma sections_below ss b : below_title b (sections_lines ss) = true.
Proof.
  unfold sections_lines. revert b. induction ss as [| [t rows] ss IH]; intros b; [done |].
  change (mjoin (section_lines <$> (t, rows) :: ss)) with (section_lines (t, rows) ++ mjoin (section_lines <$> ss)). unfold section_lines at 1. cbn [fst snd app below_title].
  induction rows as [| r rows IHr]; [apply IH |]. cbn [fmap list_fmap app below_title andb]. apply IHr.
Qed.
