(* ===== verification/Utf8.v ===== *)
(** * UTF-8

    [src/xzero/UTF8.cc] and the conversions of [StringUtil.cc]: code points from and to
    their bytes, by the original definition with up to six bytes. *)
From S2P Require Import Prelude.

(** The bits of the [i]-th byte that follows the first one. *)
Definition low6 (b shift : Z) : Z := Z.shiftl (Z.land b 63) shift.

(** At the end of the text the result is 0. *)
Definition nextCodepoint (s : bytes) : result (Z * bytes) :=
  match s with
  | [] => Ok (0, [])
  | b :: s =>
      if b <? 128 then Ok (b, s)
      else if Z.land b 224 =? 192 then
        match s with
        | c :: s => Ok (Z.lor (Z.shiftl (Z.land b 31) 6) (low6 c 0), s)
        | _ => Raise EncodingError
        end
      else if Z.land b 240 =? 224 then
        match s with
        | c :: d :: s => Ok (Z.lor (Z.lor (Z.shiftl (Z.land b 15) 12) (low6 c 6)) (low6 d 0), s)
        | _ => Raise EncodingError
        end
      else if Z.land b 248 =? 240 then
        match s with
        | c :: d :: e :: s => Ok (Z.lor (Z.lor (Z.lor (Z.shiftl (Z.land b 7) 18) (low6 c 12)) (low6 d 6)) (low6 e 0), s)
        | _ => Raise EncodingError
        end
      else if Z.land b 252 =? 248 then
        match s with
        | c :: d :: e :: f :: s =>
            Ok (Z.lor (Z.lor (Z.lor (Z.lor (Z.shiftl (Z.land b 3) 14) (low6 c 18)) (low6 d 12)) (low6 e 6)) (low6 f 0), s)
        | _ => Raise EncodingError
        end
      else if Z.land b 254 =? 252 then
        match s with
        | c :: d :: e :: f :: g :: s =>
            Ok (Z.lor (Z.lor (Z.lor (Z.lor (Z.lor (Z.shiftl (Z.land b 1) 30) (low6 c 24)) (low6 d 18)) (low6 e 12)) (low6 f 6)) (low6 g 0), s)
        | _ => Raise EncodingError
        end
      else Raise EncodingError
  end.

Definition lead (mark mask codepoint shift : Z) : Z := Z.lor mark (Z.land (Z.shiftr codepoint shift) mask).
Definition follow (codepoint shift : Z) : Z := Z.lor 128 (Z.land (Z.shiftr codepoint shift) 63).
Definition encodeCodepoint (c : Z) : bytes :=
  if c <? 2 ^ 7 then [c]
  else if c <? 2 ^ 11 then [lead 192 31 c 6; follow c 0]
  else if c <? 2 ^ 16 then [lead 224 15 c 12; follow c 6; follow c 0]
  else if c <? 2 ^ 21 then [lead 240 7 c 18; follow c 12; follow c 6; follow c 0]
  else if c <? 2 ^ 26 then [lead 248 3 c 24; follow c 18; follow c 12; follow c 6; follow c 0]
  else [lead 252 1 c 30; follow c 24; follow c 18; follow c 11; follow c 6; follow c 0].

(** [None] when a byte that begins no code point keeps the loop where it is. *)
Fixpoint isValidUTF8_loop (n : nat) (s : bytes) : option bool :=
  match n with
  | O => None
  | S n =>
      match s with
      | [] => Some true
      | b :: _ =>
          let skip (k : nat) := if (length s <? k)%nat then Some false else isValidUTF8_loop n (drop k s) in
          if b <? 128 then Some true
          else if Z.land b 224 =? 192 then skip 2%nat
          else if Z.land b 240 =? 224 then skip 3%nat
          else if Z.land b 248 =? 240 then skip 4%nat
          else if Z.land b 252 =? 248 then skip 5%nat
          else if Z.land b 254 =? 252 then skip 6%nat
          else isValidUTF8_loop n s
      end
  end.
Definition isValidUTF8 (s : bytes) : option bool := isValidUTF8_loop (S (length s)) s.

(** A [wchar_t] has 32 bits. Every turn takes a byte. *)
Fixpoint utf8_loop (n : nat) (s : bytes) : result (list Z) :=
  match n with
  | O => Ok []
  | S n => '(c, s) ← nextCodepoint s; if 0 <? c then cs ← utf8_loop n s; Ok (c :: cs) else Ok []
  end.
Definition convertUTF8To16 (s : bytes) : result (list Z) := utf8_loop (S (length s)) s.
Definition convertUTF16To8 (cs : list Z) : bytes := mjoin (encodeCodepoint <$> cs).

(** ** The bytes of a code point *)

(** A marker above a value. *)
Lemma lor_mark n mark x : 0 ≤ n → fits n x → Z.lor (mark * 2 ^ n) x = mark * 2 ^ n + x.
Proof. intros Hn Hx. rewrite Z.lor_comm, <- (Z.shiftl_mul_pow2 mark n) at 1 by lia. rewrite lor_shiftl_add by done. lia. Qed.

Lemma follow_value c shift : 0 ≤ shift → follow c shift = 128 + (c / 2 ^ shift) mod 64.
Proof.
  intros Hs. unfold follow. change 63 with (2 ^ 6 - 1). rewrite land_low, Z.shiftr_div_pow2 by lia. change 128 with (2 * 2 ^ 6). apply lor_mark; [lia|].
  split; [apply Z.mod_pos_bound; lia|]. apply Z.mod_pos_bound. lia.
Qed.

Lemma lead_value mark n c shift : 0 ≤ n → 0 ≤ shift → 0 ≤ c < 2 ^ (shift + n) → lead (mark * 2 ^ n) (2 ^ n - 1) c shift = mark * 2 ^ n + c / 2 ^ shift.
Proof.
  intros Hn Hs Hc. unfold lead. assert (Hq : fits n (c / 2 ^ shift)).
  { split; [apply Z.div_pos; lia|]. apply Z.div_lt_upper_bound; [lia|]. rewrite <- Z.pow_add_r by lia. lia. }
  rewrite land_low, Z.shiftr_div_pow2, Z.mod_small by (exact Hq || lia). by apply lor_mark.
Qed.

Lemma low6_value x shift : 0 ≤ shift → 0 ≤ x < 64 → low6 (128 + x) shift = x * 2 ^ shift.
Proof.
  intros Hs Hx. unfold low6. change 63 with (2 ^ 6 - 1). rewrite land_low by lia. change 128 with (2 * 2 ^ 6). rewrite Z.add_comm, Z.mod_add, Z.mod_small by lia.
  by rewrite Z.shiftl_mul_pow2.
Qed.

(** The first byte tells how many follow. *)
Lemma lead2 b : 192 ≤ b < 224 → Z.land b 224 = 192 ∧ Z.land b 31 = b - 192.
Proof.
  intros Hb. pose proof (byte_forall (λ b, implb ((192 <=? b) && (b <? 224)) ((Z.land b 224 =? 192) && (Z.land b 31 =? b - 192))) eq_refl b ltac:(split; lia)) as H.
  cbv beta in H. rewrite (proj2 (Z.leb_le _ _)), (proj2 (Z.ltb_lt _ _)) in H by lia. cbn [andb implb] in H. rewrite ?andb_true_iff, ?Z.eqb_eq in H. tauto.
Qed.
Lemma lead3 b : 224 ≤ b < 240 → Z.land b 224 = 224 ∧ Z.land b 240 = 224 ∧ Z.land b 15 = b - 224.
Proof.
  intros Hb. pose proof (byte_forall (λ b, implb ((224 <=? b) && (b <? 240)) ((Z.land b 224 =? 224) && ((Z.land b 240 =? 224) && (Z.land b 15 =? b - 224)))) eq_refl b ltac:(split; lia)) as H.
  cbv beta in H. rewrite (proj2 (Z.leb_le _ _)), (proj2 (Z.ltb_lt _ _)) in H by lia. cbn [andb implb] in H. rewrite ?andb_true_iff, ?Z.eqb_eq in H. tauto.
Qed.
Lemma lead4 b : 240 ≤ b < 248 → Z.land b 224 = 224 ∧ Z.land b 240 = 240 ∧ Z.land b 248 = 240 ∧ Z.land b 7 = b - 240.
Proof.
  intros Hb. pose proof (byte_forall (λ b, implb ((240 <=? b) && (b <? 248)) ((Z.land b 224 =? 224) && ((Z.land b 240 =? 240) && ((Z.land b 248 =? 240) && (Z.land b 7 =? b - 240))))) eq_refl b ltac:(split; lia)) as H.
  cbv beta in H. rewrite (proj2 (Z.leb_le _ _)), (proj2 (Z.ltb_lt _ _)) in H by lia. cbn [andb implb] in H. rewrite ?andb_true_iff, ?Z.eqb_eq in H. tauto.
Qed.

Lemma six_bits c shift : 0 ≤ shift → 0 ≤ (c / 2 ^ shift) mod 64 < 64.
Proof. intros _. apply Z.mod_pos_bound. lia. Qed.

(** Digits in base 64. *)
Lemma digits64 q a b : 0 ≤ a < 64 → 0 ≤ b < 64 →
  Z.lor (q * 2 ^ 6) (b * 2 ^ 0) = q * 64 + b ∧ Z.lor (Z.lor (q * 2 ^ 12) (a * 2 ^ 6)) (b * 2 ^ 0) = (q * 64 + a) * 64 + b.
Proof.
  intros Ha Hb. replace (b * 2 ^ 0) with b by lia. split; [by rewrite lor_mark by (lia || (split; lia))|].
  rewrite lor_mark by (lia || (split; lia)). replace (q * 2 ^ 12 + a * 2 ^ 6) with ((q * 64 + a) * 2 ^ 6) by lia. rewrite lor_mark by (lia || (split; lia)). lia.
Qed.

(** A code point of up to 21 bits and its bytes. *)
Lemma codepoint_roundtrip c rest : 0 ≤ c < 2 ^ 21 → nextCodepoint (encodeCodepoint c ++ rest) = Ok (c, rest).
Proof.
  intros Hc. unfold encodeCodepoint. destruct (Z.ltb_spec c (2 ^ 7)) as [H7|H7]; [cbn; by rewrite (proj2 (Z.ltb_lt _ _))|].
  pose proof (six_bits c 0 ltac:(lia)) as Hb0. pose proof (six_bits c 6 ltac:(lia)) as Hb6. pose proof (six_bits c 12 ltac:(lia)) as Hb12.
  assert (H0 : (c / 2 ^ 0) mod 64 = c mod 64) by (by rewrite Z.div_1_r). rewrite H0 in Hb0.
  assert (H1 : c = c / 2 ^ 6 * 64 + c mod 64) by (rewrite (Z.div_mod c 64) at 1 by lia; change (2 ^ 6) with 64; lia).
  assert (H2 : c / 2 ^ 6 = c / 2 ^ 12 * 64 + (c / 2 ^ 6) mod 64).
  { change (2 ^ 12) with (2 ^ 6 * 64). rewrite <- Z.div_div by lia. rewrite (Z.div_mod (c / 2 ^ 6) 64) at 1 by lia. lia. }
  assert (H3 : c / 2 ^ 12 = c / 2 ^ 18 * 64 + (c / 2 ^ 12) mod 64).
  { change (2 ^ 18) with (2 ^ 12 * 64). rewrite <- Z.div_div by lia. rewrite (Z.div_mod (c / 2 ^ 12) 64) at 1 by lia. lia. }
  destruct (Z.ltb_spec c (2 ^ 11)) as [H11|H11]; [|destruct (Z.ltb_spec c (2 ^ 16)) as [H16|H16]].
  - pose proof (lead_value 6 5 c 6 ltac:(lia) ltac:(lia) ltac:(lia)) as Hl. change (6 * 2 ^ 5) with 192 in Hl. change (2 ^ 5 - 1) with 31 in Hl.
    rewrite Hl, follow_value, H0 by lia. assert (Hq : 0 ≤ c / 2 ^ 6 < 32) by lia. destruct (lead2 (192 + c / 2 ^ 6) ltac:(lia)) as [E1 E2].
    cbn [app nextCodepoint]. rewrite (proj2 (Z.ltb_ge _ _)), E1, Z.eqb_refl, E2, low6_value, Z.shiftl_mul_pow2 by lia. replace (192 + c / 2 ^ 6 - 192) with (c / 2 ^ 6) by lia.
    rewrite (proj1 (digits64 (c / 2 ^ 6) 0 (c mod 64) ltac:(lia) Hb0)). by rewrite <- H1.
  - pose proof (lead_value 14 4 c 12 ltac:(lia) ltac:(lia) ltac:(lia)) as Hl. change (14 * 2 ^ 4) with 224 in Hl. change (2 ^ 4 - 1) with 15 in Hl.
    rewrite Hl, !follow_value, H0 by lia. assert (Hq : 0 ≤ c / 2 ^ 12 < 16) by lia. destruct (lead3 (224 + c / 2 ^ 12) ltac:(lia)) as (E1 & E2 & E3).
    cbn [app nextCodepoint]. rewrite (proj2 (Z.ltb_ge _ _)), E1, E2, E3, !low6_value by lia. cbn [Z.eqb Pos.eqb]. rewrite Z.shiftl_mul_pow2 by lia. replace (224 + c / 2 ^ 12 - 224) with (c / 2 ^ 12) by lia.
    rewrite (proj2 (digits64 (c / 2 ^ 12) _ (c mod 64) Hb6 Hb0)). by rewrite <- H2, <- H1.
  - rewrite (proj2 (Z.ltb_lt _ _)) by lia.
    pose proof (lead_value 30 3 c 18 ltac:(lia) ltac:(lia) ltac:(lia)) as Hl. change (30 * 2 ^ 3) with 240 in Hl. change (2 ^ 3 - 1) with 7 in Hl.
    rewrite Hl, !follow_value, H0 by lia. assert (Hq : 0 ≤ c / 2 ^ 18 < 8) by lia. destruct (lead4 (240 + c / 2 ^ 18) ltac:(lia)) as (E1 & E2 & E3 & E4).
    cbn [app nextCodepoint]. rewrite (proj2 (Z.ltb_ge _ _)), E1, E2, E3, E4, !low6_value by lia. cbn [Z.eqb Pos.eqb]. rewrite Z.shiftl_mul_pow2 by lia. replace (240 + c / 2 ^ 18 - 240) with (c / 2 ^ 18) by lia.
    rewrite (lor_mark 18 (c / 2 ^ 18)) by (lia || (split; lia)). replace (c / 2 ^ 18 * 2 ^ 18 + (c / 2 ^ 12) mod 64 * 2 ^ 12) with (c / 2 ^ 12 * 2 ^ 12) by lia.
    rewrite (proj2 (digits64 (c / 2 ^ 12) _ (c mod 64) Hb6 Hb0)). by rewrite <- H2, <- H1.
Qed.

Lemma encode_nonempty c : encodeCodepoint c ≠ [].
Proof. unfold encodeCodepoint. by repeat case_match. Qed.

(** Text of code points other than zero is converted back. *)
Theorem utf8_roundtrip cs : Forall (λ c, 0 < c < 2 ^ 21) cs → convertUTF8To16 (convertUTF16To8 cs) = Ok cs.
Proof.
  intros Hcs. unfold convertUTF8To16. assert (H : ∀ n, (length cs < n)%nat → utf8_loop n (convertUTF16To8 cs) = Ok cs).
  { induction Hcs as [|c cs Hc _ IH]; intros n Hn; (destruct n as [|n]; [lia|]); [done|]. cbn [utf8_loop].
    change (convertUTF16To8 (c :: cs)) with (encodeCodepoint c ++ convertUTF16To8 cs). rewrite codepoint_roundtrip by lia. cbn [mbind result_bind].
    rewrite (proj2 (Z.ltb_lt _ _)) by lia. cbn [length] in Hn. by rewrite IH by lia. }
  apply H. clear H. induction Hcs as [|c cs _ _ IH]; [cbn; lia|]. change (convertUTF16To8 (c :: cs)) with (encodeCodepoint c ++ convertUTF16To8 cs).
  rewrite length_app. pose proof (encode_nonempty c). destruct (encodeCodepoint c); [done|]. cbn [length] in *. lia.
Qed.

(** ** Where it fails *)

(** The first of five bytes is shifted by 14 bits instead of 24. *)
Lemma five_bytes_misread : nextCodepoint (encodeCodepoint (2 ^ 24)) = Ok (2 ^ 14, []).
Proof. reflexivity. Qed.
(** Code points of 26 bits are written with six bytes, the fourth of them from the wrong bits. *)
Lemma six_bytes_miswritten : nextCodepoint (encodeCodepoint (2 ^ 26 + 2 ^ 11)) = Ok (2 ^ 26 + 2 ^ 12 + 2 ^ 11, []).
Proof. reflexivity. Qed.
(** Whatever follows a character of ASCII is valid. *)
Lemma ascii_hides_errors : isValidUTF8 [65; 255] = Some true.
Proof. reflexivity. Qed.
(** A byte that begins no code point is looked at forever. *)
Lemma stray_byte_loops n : isValidUTF8_loop n [128] = None.
Proof. by induction n. Qed.
