(* ===== verification/Dates.v ===== *)
(** * Dates

    [src/xzero/ISO8601.cc], [CivilTime.h] and the conversion of [UnixTime.cc]: dates and
    times of the day from text, and the microseconds since 1970. Behind the end of a text
    there is a zero byte. *)
From S2P Require Import Prelude HeaderFieldList Http1Parser Http1Generator HttpMessage StringUtil.

Record CivilTime := mkCivil { ct_year : Z; ct_month : Z; ct_day : Z; ct_hour : Z; ct_minute : Z; ct_second : Z; ct_millisecond : Z; ct_offset : Z }.
Definition newCivil : CivilTime := mkCivil 0 0 0 0 0 0 0 0.
#[export] Instance CivilTime_eq_dec : EqDecision CivilTime.
Proof. solve_decision. Defined.

Definition setYear x d := mkCivil (u16 x) (ct_month d) (ct_day d) (ct_hour d) (ct_minute d) (ct_second d) (ct_millisecond d) (ct_offset d).
Definition setMonth x d := mkCivil (ct_year d) (u8 x) (ct_day d) (ct_hour d) (ct_minute d) (ct_second d) (ct_millisecond d) (ct_offset d).
Definition setDay x d := mkCivil (ct_year d) (ct_month d) (u8 x) (ct_hour d) (ct_minute d) (ct_second d) (ct_millisecond d) (ct_offset d).
Definition setHour x d := mkCivil (ct_year d) (ct_month d) (ct_day d) (u8 x) (ct_minute d) (ct_second d) (ct_millisecond d) (ct_offset d).
Definition setMinute x d := mkCivil (ct_year d) (ct_month d) (ct_day d) (ct_hour d) (u8 x) (ct_second d) (ct_millisecond d) (ct_offset d).
Definition setSecond x d := mkCivil (ct_year d) (ct_month d) (ct_day d) (ct_hour d) (ct_minute d) (u8 x) (ct_millisecond d) (ct_offset d).
Definition setMillisecond x d := mkCivil (ct_year d) (ct_month d) (ct_day d) (ct_hour d) (ct_minute d) (ct_second d) (u16 x) (ct_offset d).
Definition setOffset x d := mkCivil (ct_year d) (ct_month d) (ct_day d) (ct_hour d) (ct_minute d) (ct_second d) (ct_millisecond d) (s32 x).

(** ** The calendar *)

Definition isLeapYear (year : Z) : bool := ((year mod 4 =? 0) && negb (year mod 100 =? 0)) || (year mod 400 =? 0).
Definition daysInMonth (year month : Z) : Z :=
  if month =? 2 then 28 + (if isLeapYear year then 1 else 0) else u8 (31 - Z.rem (Z.rem (month - 1) 7) 2).

(** ** Text *)

(** [n] digits at the beginning of the text, as a number; an exception of [stoi] is no number. *)
Definition number_at (n : nat) (s : bytes) : option Z :=
  if (length s <? n)%nat || negb (isDigitString (take n s)) then None
  else match std_stoi (take n s) with Ok v => Some v | Raise _ => None end.
Definition char_is (c : Z) (s : bytes) : bool := match s with x :: _ => x =? c | [] => false end.
Definition in_range (lo hi : Z) (v : option Z) : option Z := x ← v; if (lo <=? x) && (x <=? hi) then Some x else None.

Definition parseTimeOffset (s : bytes) (d : CivilTime) : option CivilTime :=
  if (length s =? 1)%nat && (char_is 122 s || char_is 90 s) then Some (setOffset 0 d)
  else
    sign ← (if char_is 43 s then Some 1 else if char_is 45 s then Some (-1) else None);
    hour ← in_range 0 24 (number_at 2 (drop 1 s));
    if negb (char_is 58 (drop 3 s)) then None
    else
      minute ← in_range 0 59 (number_at 2 (drop 4 s));
      Some (setOffset (sign * (hour * 3600 + minute * 60)) d).

Fixpoint count_digits (s : bytes) : nat := match s with x :: s => if isdigit x then S (count_digits s) else 0%nat | [] => 0%nat end.
Definition parseSecondFrac (s : bytes) (d : CivilTime) : option CivilTime :=
  if negb (char_is 46 s) then None
  else
    let n := count_digits (drop 1 s) in
    if (n <? 1)%nat || (3 <? n)%nat then None
    else
      v ← number_at n (drop 1 s);
      parseTimeOffset (drop (1 + n) s) (setMillisecond (v * 10 ^ (3 - Z.of_nat n)) d).

Definition parseSecond (s : bytes) (d : CivilTime) : option CivilTime :=
  if negb (char_is 58 s) then None
  else
    v ← in_range 0 59 (number_at 2 (drop 1 s));
    let d := setSecond v d in
    match parseSecondFrac (drop 3 s) d with Some d => Some d | None => parseTimeOffset (drop 3 s) d end.
Definition parseMinute (s : bytes) (d : CivilTime) : option CivilTime :=
  if negb (char_is 58 s) then None
  else v ← in_range 0 59 (number_at 2 (drop 1 s)); parseSecond (drop 3 s) (setMinute v d).
Definition parseHour (s : bytes) (d : CivilTime) : option CivilTime :=
  if negb (char_is 84 s || char_is 116 s) then None
  else v ← in_range 0 24 (number_at 2 (drop 1 s)); parseMinute (drop 3 s) (setHour v d).

(** The two bytes behind the dash are copied before they are looked at. *)
Definition parseDay (s : bytes) (d : CivilTime) : result (option CivilTime) :=
  if negb (char_is 45 s) then Ok None
  else if (length s =? 1)%nat then Raise UndefinedBehaviour
  else
    match number_at 2 (drop 1 s) with
    | None => Ok None
    | Some v =>
        if (0 <? v) && (v <=? daysInMonth (ct_year d) v) then
          if (3 <? length s)%nat then Ok (parseHour (drop 3 s) (setDay v d)) else Ok (Some (setDay v d))
        else Ok None
    end.
Definition parseMonth (s : bytes) (d : CivilTime) : result (option CivilTime) :=
  if (length s <? 3)%nat || negb (char_is 45 s) then Ok None
  else
    match in_range 1 12 (number_at 2 (drop 1 s)) with
    | None => Ok None
    | Some v => if (3 <? length s)%nat then parseDay (drop 3 s) (setMonth v d) else Ok (Some (setMonth v d))
    end.
Definition parseYear (s : bytes) (d : CivilTime) : result (option CivilTime) :=
  match number_at 4 s with
  | None => Ok None
  | Some v => if (4 <? length s)%nat then parseMonth (drop 4 s) (setYear v d) else Ok (Some (setYear v d))
  end.
Definition iso_parse (s : bytes) : result (option CivilTime) := parseYear s newCivil.

(** ** Time since 1970 *)

Fixpoint year_days (n : nat) (y : Z) : Z := match n with O => 0 | S n => 365 + (if isLeapYear y then 1 else 0) + year_days n (y + 1) end.
Fixpoint month_days (n : nat) (year month : Z) : Z := match n with O => 0 | S n => daysInMonth year month + month_days n year (month + 1) end.
Definition civil_days (d : CivilTime) : Z :=
  ct_day d - 1 + year_days (Z.to_nat (ct_year d - 1970)) 1970 + month_days (Z.to_nat (ct_month d - 1)) (ct_year d) 1.
Definition unixMicros (d : CivilTime) : Z :=
  u64 (civil_days d * 86400000000 + ct_hour d * 3600000000 + ct_minute d * 60000000 + ct_second d * 1000000 + ct_millisecond d * 1000 - ct_offset d * 1000000).

(** ** The text of a date *)

Definition two (n : Z) : bytes := [48 + n / 10; 48 + n mod 10].
Definition three (n : Z) : bytes := [48 + n / 100; 48 + n / 10 mod 10; 48 + n mod 10].
Definition four (n : Z) : bytes := [48 + n / 1000; 48 + n / 100 mod 10; 48 + n / 10 mod 10; 48 + n mod 10].
Definition offset_text (o : Z) : bytes :=
  if o =? 0 then str "Z" else (if 0 <? o then str "+" else str "-") ++ two (Z.abs o / 3600) ++ str ":" ++ two (Z.abs o mod 3600 / 60).
Definition iso_text (d : CivilTime) : bytes :=
  four (ct_year d) ++ str "-" ++ two (ct_month d) ++ str "-" ++ two (ct_day d) ++ str "T" ++
  two (ct_hour d) ++ str ":" ++ two (ct_minute d) ++ str ":" ++ two (ct_second d) ++ str "." ++ three (ct_millisecond d) ++ offset_text (ct_offset d).

Record civil_ok (d : CivilTime) : Prop := {
  ok_year : 0 ≤ ct_year d < 10000;
  ok_month : 1 ≤ ct_month d ≤ 12;
  ok_day : 1 ≤ ct_day d ≤ daysInMonth (ct_year d) (ct_month d);
  ok_hour : 0 ≤ ct_hour d ≤ 24;
  ok_minute : 0 ≤ ct_minute d < 60;
  ok_second : 0 ≤ ct_second d < 60;
  ok_millisecond : 0 ≤ ct_millisecond d < 1000;
  ok_offset : ct_offset d mod 60 = 0 ∧ Z.abs (ct_offset d) < 90000 }.

(** A property of a range of numbers that has been computed for each of them. *)
Lemma range_forall (P : Z → bool) n : forallb P (seqZ 0 n) = true → ∀ k, 0 ≤ k < n → P k = true.
Proof. intros H k Hk. rewrite forallb_forall in H. apply H, list_elem_of_In, elem_of_seqZ. lia. Qed.

Definition digits_read (f : Z → bytes) (n : Z) : bool :=
  isDigitString (f n) && match std_stoi (f n) with Ok v => v =? n | Raise _ => false end.
Lemma digits_read_all : forallb (digits_read two) (seqZ 0 100) && forallb (digits_read three) (seqZ 0 1000) && forallb (digits_read four) (seqZ 0 10000) = true.
Proof. vm_compute. reflexivity. Qed.

Lemma number_read f k n s : length (f n) = k → digits_read f n = true → number_at k (f n ++ s) = Some n.
Proof.
  intros Hk [H1 H2]%andb_true_iff. unfold number_at. rewrite take_app_length' by done. rewrite H1, length_app, Hk.
  destruct (Nat.ltb_spec (k + length s) k) as [?|_]; [lia |]. cbn. destruct (std_stoi (f n)); [| done]. f_equal. lia.
Qed.

Lemma two_read n s : 0 ≤ n < 100 → number_at 2 (two n ++ s) = Some n.
Proof. intros Hn. pose proof digits_read_all as [[H _]%andb_true_iff _]%andb_true_iff. apply number_read; [done |]. by apply (range_forall _ _ H). Qed.
Lemma three_read n s : 0 ≤ n < 1000 → number_at 3 (three n ++ s) = Some n.
Proof. intros Hn. pose proof digits_read_all as [[_ H]%andb_true_iff _]%andb_true_iff. apply number_read; [done |]. by apply (range_forall _ _ H). Qed.
Lemma four_read n s : 0 ≤ n < 10000 → number_at 4 (four n ++ s) = Some n.
Proof. intros Hn. pose proof digits_read_all as [_ H]%andb_true_iff. apply number_read; [done |]. by apply (range_forall _ _ H). Qed.

Lemma in_range_read lo hi n : lo ≤ n ≤ hi → in_range lo hi (Some n) = Some n.
Proof. intros H. cbn. by rewrite (proj2 (Z.leb_le _ _)), (proj2 (Z.leb_le _ _)) by lia. Qed.

(** ** What is written is read back *)

Lemma offset_read o d : o mod 60 = 0 → Z.abs o < 90000 → parseTimeOffset (offset_text o) d = Some (setOffset o d).
Proof.
  intros Hm Ho. unfold offset_text. destruct (Z.eqb_spec o 0) as [-> | Hz]; [done |].
  assert (Hhour : 0 ≤ Z.abs o / 3600 ≤ 24) by (split; [apply Z.div_pos | apply Z.lt_succ_r, Z.div_lt_upper_bound]; lia).
  assert (Hmin : 0 ≤ Z.abs o mod 3600 / 60 ≤ 59)
    by (pose proof (Z.mod_pos_bound (Z.abs o) 3600); split; [apply Z.div_pos | apply Z.lt_succ_r, Z.div_lt_upper_bound]; lia).
  assert (Habs : Z.abs o / 3600 * 3600 + Z.abs o mod 3600 / 60 * 60 = Z.abs o).
  { pose proof (Z.div_mod (Z.abs o) 3600). assert (Z.abs o mod 3600 mod 60 = 0); [| pose proof (Z.div_mod (Z.abs o mod 3600) 60); lia].
    rewrite Z.mod_mod_divide by (by exists 60). destruct (Z.abs_spec o) as [[_ ->] | [_ ->]]; [done |]. by apply Z.mod_opp_l_z. }
  assert (parseTimeOffset ((if 0 <? o then str "+" else str "-") ++ two (Z.abs o / 3600) ++ str ":" ++ two (Z.abs o mod 3600 / 60)) d
          = Some (setOffset ((if 0 <? o then 1 else -1) * Z.abs o) d)) as ->.
  { rewrite <-Habs at 3. set (h := Z.abs o / 3600) in *. set (m := Z.abs o mod 3600 / 60) in *.
    pose proof (two_read h (58 :: two m) ltac:(lia)) as Hh. pose proof (two_read m [] ltac:(lia)) as Hr. rewrite app_nil_r in Hr.
    unfold parseTimeOffset. destruct (0 <? o);
      change (drop 1 _) with (two h ++ 58 :: two m); change (drop 3 _) with (58 :: two m); change (drop 4 _) with (two m);
      rewrite Hh, Hr, !in_range_read by lia; reflexivity. }
  do 2 f_equal. destruct (Z.ltb_spec 0 o); lia.
Qed.

Lemma offset_no_digit o : count_digits (offset_text o) = 0%nat.
Proof. unfold offset_text. by destruct (o =? 0); [| destruct (0 <? o)]. Qed.

Lemma three_counted n s : 0 ≤ n < 1000 → count_digits (three n ++ s) = (3 + count_digits s)%nat.
Proof.
  intros Hn. unfold three. cbn [app count_digits].
  assert (Hd : ∀ x, 0 ≤ x < 10 → isdigit (48 + x) = true) by (intros x Hx; unfold isdigit; lia).
  rewrite !Hd; [done | apply Z.mod_pos_bound; lia | apply Z.mod_pos_bound; lia |].
  split; [apply Z.div_pos | apply Z.div_lt_upper_bound]; lia.
Qed.

Lemma fraction_read m o d :
  0 ≤ m < 1000 → o mod 60 = 0 → Z.abs o < 90000 → parseSecondFrac (str "." ++ three m ++ offset_text o) d = Some (setOffset o (setMillisecond m d)).
Proof.
  intros Hm Ho Hb. unfold parseSecondFrac. change (drop 1 _) with (three m ++ offset_text o).
  rewrite three_counted, offset_no_digit by done. cbn [Nat.add negb str]. change (char_is 46 _) with true. cbn [negb].
  change ((3 <? 1)%nat || (3 <? 3)%nat) with false. cbn iota. rewrite three_read by done. cbn [mbind option_bind].
  change (parseTimeOffset (offset_text o) (setMillisecond (m * 1) d) = Some (setOffset o (setMillisecond m d))). by rewrite offset_read, Z.mul_1_r.
Qed.

(** The two digits behind a mark are read, and the rest of the text is left. *)
Lemma time_read d h mi s m o :
  0 ≤ h ≤ 24 → 0 ≤ mi < 60 → 0 ≤ s < 60 → 0 ≤ m < 1000 → o mod 60 = 0 → Z.abs o < 90000 →
  parseHour (str "T" ++ two h ++ str ":" ++ two mi ++ str ":" ++ two s ++ str "." ++ three m ++ offset_text o) d
  = Some (setOffset o (setMillisecond m (setSecond s (setMinute mi (setHour h d))))).
Proof.
  intros Hh Hmi Hs Hm Ho Hb. unfold parseHour. change (char_is 84 _) with true. cbn [orb negb].
  set (rest := str "." ++ three m ++ offset_text o). change (drop 1 _) with (two h ++ str ":" ++ two mi ++ str ":" ++ two s ++ rest).
  rewrite two_read, in_range_read by lia. cbn [mbind option_bind]. change (drop 3 _) with (str ":" ++ two mi ++ str ":" ++ two s ++ rest).
  unfold parseMinute. change (char_is 58 _) with true. cbn [negb]. change (drop 1 _) with (two mi ++ str ":" ++ two s ++ rest).
  rewrite two_read, in_range_read by lia. cbn [mbind option_bind]. change (drop 3 _) with (str ":" ++ two s ++ rest).
  unfold parseSecond. change (char_is 58 _) with true. cbn [negb]. change (drop 1 _) with (two s ++ rest).
  rewrite two_read, in_range_read by lia. cbn [mbind option_bind]. change (drop 3 _) with rest. unfold rest. by rewrite fraction_read.
Qed.

Lemma any_day y v : 1 ≤ v ≤ 31 → (0 <? v) && (v <=? daysInMonth y v) = true.
Proof.
  intros Hv. unfold daysInMonth. destruct (Z.eqb_spec v 2) as [-> | Hn]; [by destruct (isLeapYear y) |].
  pose proof (range_forall (λ v, (v =? 0) || (v =? 2) || (0 <? v) && (v <=? u8 (31 - Z.rem (Z.rem (v - 1) 7) 2))) 32 eq_refl v ltac:(lia)) as H. cbv beta in H. lia.
Qed.

Lemma daysInMonth_le y k : 1 ≤ k ≤ 12 → 28 ≤ daysInMonth y k ≤ 31.
Proof.
  intros Hk. unfold daysInMonth. destruct (Z.eqb_spec k 2); [destruct (isLeapYear y); lia |].
  pose proof (range_forall (λ v, (v =? 0) || (28 <=? u8 (31 - Z.rem (Z.rem (v - 1) 7) 2)) && (u8 (31 - Z.rem (Z.rem (v - 1) 7) 2) <=? 31)) 13 eq_refl k ltac:(lia)) as H. cbv beta in H. lia.
Qed.

Lemma civil_set d :
  civil_ok d →
  setOffset (ct_offset d) (setMillisecond (ct_millisecond d) (setSecond (ct_second d) (setMinute (ct_minute d) (setHour (ct_hour d)
    (setDay (ct_day d) (setMonth (ct_month d) (setYear (ct_year d) newCivil))))))) = d.
Proof.
  intros [Hy Hmo Hd Hh Hmi Hs Hms [Ho Hb]]. pose proof (daysInMonth_le (ct_year d) (ct_month d) Hmo). destruct d as [y mo dy h mi s ms o].
  cbn [ct_year ct_month ct_day ct_hour ct_minute ct_second ct_millisecond ct_offset] in *.
  change (setYear y newCivil) with (mkCivil (u16 y) 0 0 0 0 0 0 0). change (setMonth mo _) with (mkCivil (u16 y) (u8 mo) 0 0 0 0 0 0).
  change (setDay dy _) with (mkCivil (u16 y) (u8 mo) (u8 dy) 0 0 0 0 0). change (setHour h _) with (mkCivil (u16 y) (u8 mo) (u8 dy) (u8 h) 0 0 0 0).
  change (setMinute mi _) with (mkCivil (u16 y) (u8 mo) (u8 dy) (u8 h) (u8 mi) 0 0 0).
  change (setSecond s _) with (mkCivil (u16 y) (u8 mo) (u8 dy) (u8 h) (u8 mi) (u8 s) 0 0).
  change (setMillisecond ms _) with (mkCivil (u16 y) (u8 mo) (u8 dy) (u8 h) (u8 mi) (u8 s) (u16 ms) 0).
  change (setOffset o _) with (mkCivil (u16 y) (u8 mo) (u8 dy) (u8 h) (u8 mi) (u8 s) (u16 ms) (s32 o)). unfold unsigned, signed.
  rewrite !Z.mod_small by lia. f_equal. lia.
Qed.

(** A date is read back from its text. *)
Theorem iso_roundtrip d : civil_ok d → iso_parse (iso_text d) = Ok (Some d).
Proof.
  intros Hok. pose proof Hok as [Hy Hmo Hd Hh Hmi Hs Hms [Ho Hb]]. pose proof (daysInMonth_le (ct_year d) (ct_month d) Hmo).
  unfold iso_parse, iso_text. set (time := str "T" ++ _).
  unfold parseYear. rewrite four_read by lia. change (drop 4 _) with (str "-" ++ two (ct_month d) ++ str "-" ++ two (ct_day d) ++ time).
  change (4 <? length _)%nat with true. cbn iota.
  unfold parseMonth. change ((length _ <? 3)%nat) with false. change (char_is 45 _) with true. cbn [negb orb].
  change (drop 1 _) with (two (ct_month d) ++ str "-" ++ two (ct_day d) ++ time). rewrite two_read, in_range_read by lia.
  change (3 <? length _)%nat with true. cbn iota. change (drop 3 _) with (str "-" ++ two (ct_day d) ++ time).
  unfold parseDay. change (char_is 45 _) with true. cbn [negb]. change ((length _ =? 1)%nat) with false. cbn iota.
  change (drop 1 _) with (two (ct_day d) ++ time). rewrite two_read by lia. rewrite any_day by lia.
  change (3 <? length _)%nat with true. cbn iota. change (drop 3 _) with time. unfold time. rewrite time_read by (done || lia).
  by rewrite civil_set.
Qed.

(** ** The days since 1970 *)

(** Leap days before a year; 477 of them are before 1970. *)
Definition leap_days (y : Z) : Z := (y - 1) / 4 - (y - 1) / 100 + (y - 1) / 400.
Definition days_before_year (y : Z) : Z := 365 * (y - 1970) + leap_days y - 477.
Definition days_before_month (y m : Z) : Z :=
  default 0 ([0; 31; 59; 90; 120; 151; 181; 212; 243; 273; 304; 334] !! Z.to_nat (m - 1)) + (if (2 <? m) && isLeapYear y then 1 else 0).

Lemma quotient_step y k : 0 < k → y / k - (y - 1) / k = if y mod k =? 0 then 1 else 0.
Proof.
  intros Hk. pose proof (Z.div_mod y k ltac:(lia)). pose proof (Z.mod_pos_bound y k Hk).
  destruct (Z.eqb_spec (y mod k) 0) as [E | E].
  - rewrite <-(Z.div_unique (y - 1) k (y / k - 1) (k - 1)); lia.
  - rewrite <-(Z.div_unique (y - 1) k (y / k) (y mod k - 1)); lia.
Qed.

Lemma leap_step y : leap_days (y + 1) = leap_days y + (if isLeapYear y then 1 else 0).
Proof.
  unfold leap_days, isLeapYear. rewrite Z.add_simpl_r.
  pose proof (quotient_step y 4 ltac:(lia)). pose proof (quotient_step y 100 ltac:(lia)). pose proof (quotient_step y 400 ltac:(lia)).
  pose proof (Z.mod_mod_divide y 100 4 ltac:(by exists 25)) as H4. pose proof (Z.mod_mod_divide y 400 100 ltac:(by exists 4)) as H100.
  destruct (Z.eqb_spec (y mod 400) 0) as [E400 | _]; [rewrite E400 in H100; change (0 mod 100) with 0 in H100; rewrite <-H100 in * |].
  - change (0 mod 4) with 0 in H4. rewrite <-H4 in *. cbn in *. lia.
  - destruct (Z.eqb_spec (y mod 100) 0) as [E100 | _]; [rewrite E100 in H4; change (0 mod 4) with 0 in H4; rewrite <-H4 in * |]; cbn in *; [lia |].
    destruct (y mod 4 =? 0); cbn in *; lia.
Qed.

Lemma year_days_spec n y : year_days n y = 365 * Z.of_nat n + leap_days (y + Z.of_nat n) - leap_days y.
Proof.
  induction n as [| n IH] in y |- *; [rewrite Z.add_0_r; cbn; lia |].
  cbn [year_days]. rewrite IH, leap_step. replace (y + 1 + Z.of_nat n) with (y + Z.of_nat (S n)) by lia. lia.
Qed.

Lemma month_days_spec y m : 1 ≤ m ≤ 12 → month_days (Z.to_nat (m - 1)) y 1 = days_before_month y m.
Proof.
  intros Hm. assert (H : ∀ k, (k < 12)%nat → month_days k y 1 = days_before_month y (Z.of_nat k + 1)).
  { intros k Hk. unfold days_before_month. do 12 (destruct k as [| k]; [cbn; unfold daysInMonth; cbn; destruct (isLeapYear y); reflexivity |]). lia. }
  rewrite H by lia. f_equal. lia.
Qed.

(** The loops over the years and the months count what the calendar has in closed form, and
    no product wraps while the instant is not before 1970. *)
Theorem unix_reference d :
  civil_ok d → 1970 ≤ ct_year d →
  let days := days_before_year (ct_year d) + days_before_month (ct_year d) (ct_month d) + ct_day d - 1 in
  let micros := ((((days * 24 + ct_hour d) * 60 + ct_minute d) * 60 + ct_second d - ct_offset d) * 1000 + ct_millisecond d) * 1000 in
  civil_days d = days ∧ unixMicros d = if micros <? 0 then 2 ^ 64 + micros else micros.
Proof.
  intros [Hy Hmo Hd Hh Hmi Hs Hms [_ Hb]] H70. cbv zeta.
  assert (civil_days d = days_before_year (ct_year d) + days_before_month (ct_year d) (ct_month d) + ct_day d - 1) as E.
  { unfold civil_days. rewrite year_days_spec, month_days_spec by lia. unfold days_before_year.
    replace (1970 + Z.of_nat (Z.to_nat (ct_year d - 1970))) with (ct_year d) by lia. change (leap_days 1970) with 477. lia. }
  split; [done |]. unfold unixMicros. rewrite E.
  assert (0 ≤ days_before_month (ct_year d) (ct_month d) < 400).
  { unfold days_before_month. destruct (_ && _); destruct (Z.to_nat (ct_month d - 1)) as [| k]; cbn; try lia; do 12 (destruct k as [| k]; cbn; try lia). }
  assert (0 ≤ days_before_year (ct_year d) < 8030 * 366).
  { unfold days_before_year, leap_days. pose proof (Z.div_mod (ct_year d - 1) 4). pose proof (Z.div_mod (ct_year d - 1) 100). pose proof (Z.div_mod (ct_year d - 1) 400).
    pose proof (Z.mod_pos_bound (ct_year d - 1) 4). pose proof (Z.mod_pos_bound (ct_year d - 1) 100). pose proof (Z.mod_pos_bound (ct_year d - 1) 400). lia. }
  pose proof (daysInMonth_le (ct_year d) (ct_month d) Hmo).
  set (days := days_before_year (ct_year d) + days_before_month (ct_year d) (ct_month d) + ct_day d - 1) in *.
  assert (0 ≤ days < 8031 * 366 + 400) by lia. clearbody days. unfold unsigned.
  destruct (Z.ltb_spec (((((days * 24 + ct_hour d) * 60 + ct_minute d) * 60 + ct_second d - ct_offset d) * 1000 + ct_millisecond d) * 1000) 0).
  - symmetry. apply (Z.mod_unique _ _ (-1)); lia.
  - rewrite Z.mod_small; lia.
Qed.

(** 2015-03-01T00:00:00Z, in a year that is no leap year, and the leap day of 2016. *)
Example march_2015 : option_map unixMicros (match iso_parse (str "2015-03-01T00:00:00.000Z") with Ok d => d | Raise _ => None end) = Some 1425168000000000.
Proof. vm_compute. reflexivity. Qed.
Example leap_day_2016 : option_map unixMicros (match iso_parse (str "2016-02-29T12:30:00+01:00") with Ok d => d | Raise _ => None end) = Some 1456745400000000.
Proof. vm_compute. reflexivity. Qed.

(** ** Where the dates are wrong *)

(** The day is compared with the days of the month whose number is the day: 31 days are in every month. *)
Lemma february_31 : iso_parse (str "2015-02-31") = Ok (Some (mkCivil 2015 2 31 0 0 0 0 0)).
Proof. vm_compute. reflexivity. Qed.
Lemma every_month_has_31 v d : 1 ≤ v ≤ 31 → parseDay (str "-" ++ two v ++ []) d = Ok (Some (setDay v d)).
Proof.
  intros Hv. unfold parseDay. change (char_is 45 _) with true. cbn [negb]. change ((length _ =? 1)%nat) with false. cbn iota.
  change (drop 1 _) with (two v ++ []). rewrite two_read, any_day by lia. reflexivity.
Qed.
(** The two digits of the day are copied without a look at the end of the text. *)
Lemma dash_at_end : iso_parse (str "2015-02-") = Raise UndefinedBehaviour.
Proof. vm_compute. reflexivity. Qed.
(** What follows the minutes of an offset is not looked at. *)
Lemma tail_ignored : iso_parse (str "2015-02-01T10:00:00+01:00 or so") = iso_parse (str "2015-02-01T10:00:00+01:00").
Proof. vm_compute. reflexivity. Qed.
(** A year before 1970 is counted as 1970. *)
Lemma before_1970 d y : y ≤ 1970 → 0 ≤ y → isLeapYear y = isLeapYear 1970 → civil_days (setYear y d) = civil_days (setYear 1970 d).
Proof.
  intros Hy H0 Hl. unfold civil_days. change (ct_year (setYear y d)) with (u16 y). change (ct_year (setYear 1970 d)) with 1970.
  change (ct_month (setYear y d)) with (ct_month d). change (ct_month (setYear 1970 d)) with (ct_month d).
  change (ct_day (setYear y d)) with (ct_day d). change (ct_day (setYear 1970 d)) with (ct_day d).
  unfold unsigned. rewrite Z.mod_small by lia. replace (Z.to_nat (y - 1970)) with 0%nat by lia. f_equal.
  assert (H : ∀ n k, month_days n y k = month_days n 1970 k); [| apply H].
  induction n as [| n IH]; intros k; [done |]. cbn [month_days]. rewrite IH. unfold daysInMonth. by rewrite Hl.
Qed.
