(* ===== verification/HttpChannel.v ===== *)
(** * The HTTP channel

    [src/xzero/http/HttpChannel.cc] with [HttpResponse.cc], [HttpRequest.cc] and
    [HttpOutputCompressor.cc]: the layer between the parser of a connection,
    the application's request handler and the transport that sends the response.

    The channel is a state; its operations are computations of the monad [M],
    which threads the state, keeps it when an exception is thrown, and records
    the calls made to the transport. The transport is a parameter: a
    computation for each of its calls, over the channel and a state of its own.

    A handler is a program [Prog] that reads the request and the response and
    calls operations of the response; it sees the exceptions these throw, may
    throw itself, and may leave callbacks: for the end of the request's content
    and for the completion of a write. *)
From S2P Require Import Prelude HeaderFieldList Http1Parser Http1Generator RequestUri HttpMessage.

Inductive HttpChannelState := READING | HANDLING | SENDING.

#[export] Instance HttpChannelState_eq_dec : EqDecision HttpChannelState.
Proof. solve_decision. Defined.

(** [connectionHeaderFields] of [HttpResponse.cc]. *)
Definition connectionHeaderFields : list bytes := [
  str "Connection"; str "Content-Length"; str "Close"; str "Keep-Alive"; str "TE"; str "Trailer";
  str "Transfer-Encoding"; str "Upgrade"].

Definition requireValidHeader (name : bytes) : result unit :=
  ensure (negb (existsb (iequals_str name) connectionHeaderFields)) InvalidArgumentError.

Section channel.
Context {F S : Type} `{FilterImpl F}.

(** ** Handlers *)

(** The operations of the response that change it without sending anything;
    the last one goes through the reference that [headers()] returns, past the
    checks. *)
Inductive InfoOp :=
  | SetVersion (v : HttpVersion)
  | SetStatus (code : Z)
  | SetReason (text : bytes)
  | SetContentLength (size : Z)
  | ResetContentLength
  | AddHeader (name value : bytes)
  | AppendHeader (name value delim : bytes)
  | PrependHeader (name value delim : bytes)
  | SetHeader (name value : bytes)
  | RemoveHeader (name : bytes)
  | RemoveAllHeaders
  | RegisterTrailer (name : bytes)
  | AppendTrailer (name value delim : bytes)
  | SetTrailer (name value : bytes)
  | AddOutputFilter (f : F)
  | RemoveAllOutputFilters
  | OverwriteRaw (name value : bytes).

(** A callback of [onPostProcess]: operations of that kind, or the output
    compressor ([HttpOutputCompressor::inject]). A callback of [onResponseEnd] is
    a number, its invocation is recorded. *)
Record Compressor := mkCompressor {
  oc_minSize : Z;
  oc_maxSize : Z;
  oc_level : Z;
  oc_contentTypes : list bytes;
}.

Inductive PostHook := HookOps (ops : list InfoOp) | HookCompress (c : Compressor).

(** What a handler can read of the response. *)
Record RespView := mkRespView { v_info : RespInfo; v_committed : bool; v_actual : Z }.

Inductive Prog : Type :=
  | PDone
  | PThrow (e : exn)
  | PRead (k : HttpRequest → RespView → Prog)
  | PInfo (op : InfoOp) (k : result unit → Prog)
  | PWriteRef (data : bytes) (onComplete : option (bool → Prog)) (k : result unit → Prog)
  | PWriteBuffer (data : bytes) (onComplete : option (bool → Prog)) (k : result unit → Prog)
  | PWriteFile (file : FileView) (onComplete : option (bool → Prog)) (k : result unit → Prog)
  | PContinue (onComplete : option (bool → Prog)) (k : result unit → Prog)
  | PError (code : Z) (message : bytes) (k : result unit → Prog)
  | PCompleted (k : result unit → Prog)
  | PPostProcess (h : PostHook) (k : Prog)
  | PResponseEnd (h : nat) (k : Prog)
  | PConsume (onReady : option Prog) (k : Prog)
  | PDiscard (onReady : option Prog) (k : Prog).

(** [CompletionHandler]; [None] is [nullptr]. *)
Abbreviation CompletionHandler := (option (bool → Prog)).

(** ** The transport's calls, and what else is recorded

    The calls of [HttpTransport]: a head with its first chunk, [LContinue] for
    the intermediate response; [LFlush] is the [send] of [completed], which has
    what the filters still hold. *)
Inductive Call :=
  | LHead (info : RespInfo) (chunk : bytes) (onComplete : CompletionHandler)
  | LContinue (info : RespInfo) (onComplete : CompletionHandler)
  | LSend (chunk : bytes) (onComplete : CompletionHandler)
  | LSendFile (file : FileView) (onComplete : CompletionHandler)
  | LFlush (chunk : bytes)
  | LCompleted
  | LAbort.

(** [LThrown]: the call recorded last ended with an exception. *)
Inductive Entry := LCall (c : Call) | LThrown (c : Call) | LResponseEnd (h : nat) | LReset.

(** ** State *)

Record Channel := mkChannel {
  ch_state : HttpChannelState;
  ch_request : HttpRequest;
  ch_info : RespInfo;
  ch_committed : bool;
  ch_bytesTransmitted : Z;
  ch_actual : Z;
  ch_filters : list F;
  ch_onPostProcess : list PostHook;
  ch_onResponseEnd : list nat;
  ch_consumes : bool;
  ch_onReady : option Prog;
  ch_handler : Prog;
}.

Definition newChannel (handler : Prog) : Channel :=
  mkChannel READING newHttpRequest newRespInfo false 0 0 [] [] [] false None handler.

Definition with_chState (x : HttpChannelState) (c : Channel) : Channel :=
  mkChannel x (ch_request c) (ch_info c) (ch_committed c) (ch_bytesTransmitted c) (ch_actual c) (ch_filters c)
    (ch_onPostProcess c) (ch_onResponseEnd c) (ch_consumes c) (ch_onReady c) (ch_handler c).
Definition on_request (f : HttpRequest → HttpRequest) (c : Channel) : Channel :=
  mkChannel (ch_state c) (f (ch_request c)) (ch_info c) (ch_committed c) (ch_bytesTransmitted c) (ch_actual c)
    (ch_filters c) (ch_onPostProcess c) (ch_onResponseEnd c) (ch_consumes c) (ch_onReady c) (ch_handler c).
Definition with_info (x : RespInfo) (c : Channel) : Channel :=
  mkChannel (ch_state c) (ch_request c) x (ch_committed c) (ch_bytesTransmitted c) (ch_actual c) (ch_filters c)
    (ch_onPostProcess c) (ch_onResponseEnd c) (ch_consumes c) (ch_onReady c) (ch_handler c).
Definition with_committed (x : bool) (c : Channel) : Channel :=
  mkChannel (ch_state c) (ch_request c) (ch_info c) x (ch_bytesTransmitted c) (ch_actual c) (ch_filters c)
    (ch_onPostProcess c) (ch_onResponseEnd c) (ch_consumes c) (ch_onReady c) (ch_handler c).
Definition with_bytesTransmitted (x : Z) (c : Channel) : Channel :=
  mkChannel (ch_state c) (ch_request c) (ch_info c) (ch_committed c) x (ch_actual c) (ch_filters c)
    (ch_onPostProcess c) (ch_onResponseEnd c) (ch_consumes c) (ch_onReady c) (ch_handler c).
Definition with_actual (x : Z) (c : Channel) : Channel :=
  mkChannel (ch_state c) (ch_request c) (ch_info c) (ch_committed c) (ch_bytesTransmitted c) x (ch_filters c)
    (ch_onPostProcess c) (ch_onResponseEnd c) (ch_consumes c) (ch_onReady c) (ch_handler c).
Definition with_filters (x : list F) (c : Channel) : Channel :=
  mkChannel (ch_state c) (ch_request c) (ch_info c) (ch_committed c) (ch_bytesTransmitted c) (ch_actual c) x
    (ch_onPostProcess c) (ch_onResponseEnd c) (ch_consumes c) (ch_onReady c) (ch_handler c).
Definition with_hooks (post : list PostHook) (ends : list nat) (c : Channel) : Channel :=
  mkChannel (ch_state c) (ch_request c) (ch_info c) (ch_committed c) (ch_bytesTransmitted c) (ch_actual c)
    (ch_filters c) post ends (ch_consumes c) (ch_onReady c) (ch_handler c).
Definition with_content (consumes : bool) (ready : option Prog) (c : Channel) : Channel :=
  mkChannel (ch_state c) (ch_request c) (ch_info c) (ch_committed c) (ch_bytesTransmitted c) (ch_actual c)
    (ch_filters c) (ch_onPostProcess c) (ch_onResponseEnd c) consumes ready (ch_handler c).
Definition with_handler (x : Prog) (c : Channel) : Channel :=
  mkChannel (ch_state c) (ch_request c) (ch_info c) (ch_committed c) (ch_bytesTransmitted c) (ch_actual c)
    (ch_filters c) (ch_onPostProcess c) (ch_onResponseEnd c) (ch_consumes c) (ch_onReady c) x.

(** The channel, the transport's own state and the record of what happened. *)
Record World := mkWorld { w_channel : Channel; w_transport : S; w_log : list Entry }.

Definition M (A : Type) : Type := World → result A * World.

#[export] Instance M_ret : MRet M := λ A a w, (Ok a, w).
#[export] Instance M_bind : MBind M := λ A B f m w,
  match m w with (Ok a, w') => f a w' | (Raise e, w') => (Raise e, w') end.

Definition throw {A} (e : exn) : M A := λ w, (Raise e, w).
Definition lift {A} (r : result A) : M A := λ w, (r, w).
Definition gets {A} (f : Channel → A) : M A := λ w, (Ok (f (w_channel w)), w).
Definition modify (f : Channel → Channel) : M unit := λ w,
  (Ok (), mkWorld (f (w_channel w)) (w_transport w) (w_log w)).
Definition record (e : Entry) : M unit := λ w, (Ok (), mkWorld (w_channel w) (w_transport w) (w_log w ++ [e])).
(** [try]: the outcome as a value. *)
Definition attempt {A} (m : M A) : M (result A) := λ w, let '(r, w') := m w in (Ok r, w').

(** ** Configuration

    The text of the date ([None] without a date generator), the version of the
    package, the text [what] of an exception, the limit on request bodies. *)
Record Config := mkConfig {
  cfg_date : option bytes;
  cfg_server : bytes;
  cfg_what : exn → bytes;
  cfg_maxRequestBodyLength : Z;
  cfg_compressor : option Compressor;
}.

Context (cfg : Config) (transport : Call → M unit).

(** Every call to the transport is recorded before it is made, and whether the
    transport refused it with an exception after it was made. *)
Definition thrown (c : Call) (out : result unit * World) : result unit * World :=
  match out with (Ok u, w) => (Ok u, w) | (Raise e, w) => (Raise e, (record (LThrown c) w).2) end.

Definition watched (c : Call) : M unit := λ w, thrown c (transport c w).
Definition call (c : Call) : M unit := _ ← record (LCall c); watched c.

(** ** [HttpResponse]: its state *)

Definition requireNotSendingAlready : M unit :=
  st ← gets ch_state;
  match st with READING | HANDLING => mret () | SENDING => throw IllegalStateError end.

Definition requireMutableInfo : M unit :=
  committed ← gets ch_committed;
  if (committed : bool) then throw IllegalStateError else requireNotSendingAlready.

Definition on_info (f : RespInfo → result RespInfo) : M unit :=
  i ← gets ch_info;
  i' ← lift (f i);
  modify (with_info i').

Definition on_headers (f : HeaderFieldList → result HeaderFieldList) : M unit :=
  on_info (λ i, h ← f (i_headers i); Ok (info_setHeaders h i)).
Definition on_trailers (f : HeaderFieldList → result HeaderFieldList) : M unit :=
  on_info (λ i, h ← f (i_trailers i); Ok (info_setTrailers h i)).

Definition addOutputFilter (f : F) : M unit :=
  committed ← gets ch_committed;
  if (committed : bool) then throw IllegalStateError
  else modify (λ c, with_filters (ch_filters c ++ [f]) c).

Definition removeAllOutputFilters : M unit :=
  committed ← gets ch_committed;
  if (committed : bool) then throw IllegalStateError else modify (with_filters []).

Definition registerTrailer (name : bytes) : M unit :=
  _ ← requireMutableInfo;
  _ ← lift (requireValidHeader name);
  i ← gets ch_info;
  if hl_contains name (i_trailers i) then throw InvalidArgumentError
  else on_trailers (hl_push_back name []).

Definition updateTrailer (name : bytes) (f : HeaderFieldList → result HeaderFieldList) : M unit :=
  _ ← requireNotSendingAlready;
  _ ← lift (requireValidHeader name);
  i ← gets ch_info;
  if negb (hl_contains name (i_trailers i)) then throw IllegalStateError else on_trailers f.

Definition info_op (op : InfoOp) : M unit :=
  match op with
  | SetVersion v => _ ← requireMutableInfo; on_info (λ i, Ok (info_setVersion v i))
  | SetStatus code => _ ← requireMutableInfo; on_info (λ i, Ok (info_setStatus code i))
  | SetReason text => _ ← requireMutableInfo; on_info (λ i, Ok (info_setReason text i))
  | SetContentLength size => _ ← requireMutableInfo; on_info (λ i, Ok (info_setContentLength size i))
  | ResetContentLength => _ ← requireMutableInfo; on_info (λ i, Ok (info_setContentLength UnknownContentLength i))
  | AddHeader name value =>
      _ ← requireMutableInfo; _ ← lift (requireValidHeader name); on_headers (hl_push_back name value)
  | AppendHeader name value delim =>
      _ ← requireMutableInfo; _ ← lift (requireValidHeader name); on_headers (hl_append name value delim)
  | PrependHeader name value delim =>
      _ ← requireMutableInfo; _ ← lift (requireValidHeader name); on_headers (hl_prepend name value delim)
  | SetHeader name value =>
      _ ← requireMutableInfo; _ ← lift (requireValidHeader name); on_headers (hl_overwrite name value)
  | RemoveHeader name => _ ← requireMutableInfo; on_headers (λ h, Ok (hl_remove name h))
  | RemoveAllHeaders => _ ← requireMutableInfo; on_headers (λ _, Ok [])
  | RegisterTrailer name => registerTrailer name
  | AppendTrailer name value delim => updateTrailer name (hl_append name value delim)
  | SetTrailer name value => updateTrailer name (hl_overwrite name value)
  | AddOutputFilter f => addOutputFilter f
  | RemoveAllOutputFilters => removeAllOutputFilters
  | OverwriteRaw name value => on_headers (hl_overwrite name value)
  end.

Fixpoint info_ops (ops : list InfoOp) : M unit :=
  match ops with [] => mret () | op :: ops => _ ← info_op op; info_ops ops end.

(** ** [HttpOutputCompressor] *)

Definition containsMimeType (value : bytes) (c : Compressor) : bool := bool_decide (value ∈ oc_contentTypes c).

Definition tryEncode (encoding : bytes) (level : Z) (accepts : list bytes) : M bool :=
  if negb (bool_decide (encoding ∈ accepts)) then mret false
  else
    _ ← info_op (AppendHeader (str "Vary") (str "Accept-Encoding") (str ","));
    _ ← info_op ResetContentLength;
    _ ← info_op (AddHeader (str "Content-Encoding") encoding);
    _ ← info_op (AddOutputFilter (gzip_filter level));
    mret true.

Definition compressor_postProcess (c : Compressor) : M unit :=
  i ← gets ch_info;
  q ← gets ch_request;
  if hl_contains (str "Content-Encoding") (i_headers i) then mret () else
  let chunked := negb (info_hasContentLength i) in
  let size := if chunked then 0 else i_contentLength i in
  if negb chunked && ((size <? oc_minSize c) || (oc_maxSize c <? size)) then mret () else
  if negb (containsMimeType (hl_get (str "Content-Type") (i_headers i)) c) then mret () else
  match hl_get (str "Accept-Encoding") (q_headers q) with
  | [] => mret ()
  | r => _ ← tryEncode (str "gzip") (oc_level c) (tokenize (str ", ") r); mret ()
  end.

Definition run_hook (h : PostHook) : M unit :=
  match h with HookOps ops => info_ops ops | HookCompress c => compressor_postProcess c end.

Fixpoint run_hooks (hs : list PostHook) : M unit :=
  match hs with [] => mret () | h :: hs => _ ← run_hook h; run_hooks hs end.
(** ** [HttpChannel]: sending *)

Definition ch_setState (st : HttpChannelState) : M unit := modify (with_chState st).

Definition onBeforeSend : M unit :=
  st ← gets ch_state;
  match st with
  | SENDING => throw IllegalStateError
  | HANDLING | READING =>
      committed ← gets ch_committed;
      if (committed : bool) then mret ()
      else match cfg_compressor cfg with Some c => compressor_postProcess c | None => mret () end
  end.

(** The intermediate response has the version of the request, no headers and a
    content length of 0. *)
Definition send100Continue (onComplete : CompletionHandler) : M unit :=
  q ← gets ch_request;
  if negb (q_expect100Continue q) then throw IllegalStateError else
  _ ← modify (on_request (req_setExpect100Continue false));
  call (LContinue (mkRespInfo (q_version q) 100 (str "Continue") false 0 [] []) onComplete).

Definition commitInline : M RespInfo :=
  i ← gets ch_info;
  if i_status i =? 0 then throw IllegalStateError else
  hooks ← gets ch_onPostProcess;
  _ ← run_hooks hooks;
  q ← gets ch_request;
  _ ← (if q_expect100Continue q then send100Continue None else mret ());
  _ ← modify (with_committed true);
  _ ← on_info (λ i, Ok (info_setIsHead (bool_decide (q_method q = HEAD)) i));
  _ ← on_headers (λ h, if hl_contains (str "Server") h then Ok h
                       else hl_push_back (str "Server") (str "xzero/" ++ cfg_server cfg) h);
  i ← gets ch_info;
  _ ← match cfg_date cfg with
      | Some date =>
          if negb (hl_contains (str "Date") (i_headers i)) && (200 <=? i_status i)
          then on_headers (hl_push_back (str "Date") date) else mret ()
      | None => mret ()
      end;
  gets ch_info.

(** [Filter::applyFilters] on the channel's filters, which keep their state. *)
Definition filtered (input : bytes) (last : bool) : M bytes :=
  fs ← gets ch_filters;
  '(fs', out) ← lift (applyFilters fs input [] last);
  _ ← modify (with_filters fs');
  mret out.

Definition filtered_file (file : FileView) : M bytes :=
  fs ← gets ch_filters;
  '(fs', out) ← lift (applyFilters_file fs file [] false);
  _ ← modify (with_filters fs');
  mret out.

(** The two branches every [send] ends with. *)
Definition send_chunk (data : bytes) (onComplete : CompletionHandler) : M unit :=
  committed ← gets ch_committed;
  if negb committed then info ← commitInline; call (LHead info data onComplete)
  else call (LSend data onComplete).

Definition send_ref (data : bytes) (onComplete : CompletionHandler) : M unit :=
  _ ← onBeforeSend;
  fs ← gets ch_filters;
  match fs with
  | [] => send_chunk data onComplete
  | _ => out ← filtered data false; send_chunk out onComplete
  end.

Definition send_buffer (data : bytes) (onComplete : CompletionHandler) : M unit :=
  _ ← onBeforeSend;
  fs ← gets ch_filters;
  data ← match fs with [] => mret data | _ => filtered data false end;
  send_chunk data onComplete.

Definition send_file (file : FileView) (onComplete : CompletionHandler) : M unit :=
  _ ← onBeforeSend;
  fs ← gets ch_filters;
  match fs with
  | [] =>
      committed ← gets ch_committed;
      if negb committed then
        info ← commitInline;
        _ ← call (LHead info [] None);
        call (LSendFile file onComplete)
      else call (LSendFile file onComplete)
  | _ => out ← filtered_file file; send_chunk out onComplete
  end.

Definition commit (onComplete : CompletionHandler) : M unit := send_ref [] onComplete.

(** [HttpChannel::completed]. *)
Definition ch_completed : M unit :=
  i ← gets ch_info;
  if i_status i =? 444 then call LAbort else
  q ← gets ch_request;
  actual ← gets ch_actual;
  if negb (bool_decide (q_method q = HEAD)) && info_hasContentLength i && (actual <? i_contentLength i)
  then throw RuntimeError else
  st ← gets ch_state;
  if negb (bool_decide (st = HANDLING)) then throw IllegalStateError else
  fs ← gets ch_filters;
  committed ← gets ch_committed;
  _ ← match fs with
      | _ :: _ => out ← filtered [] true; call (LFlush out)
      | [] =>
          if negb committed then
            _ ← (if negb (info_hasContentLength i) && negb (bool_decide (q_method q = HEAD))
                 then info_op (SetContentLength 0) else mret ());
            info ← commitInline;
            call (LHead info [] None)
          else mret ()
      end;
  call LCompleted.

(** ** [HttpResponse]: sending *)

Definition sendError (code : Z) (message : bytes) : M unit :=
  if negb (isError code) then throw InvalidArgumentError else
  _ ← info_op (SetStatus code);
  _ ← info_op (SetReason message);
  ch_completed.

Definition addActual (n : Z) : M unit := modify (λ c, with_actual (u64 (ch_actual c + n)) c).

Definition write_ref (data : bytes) (onComplete : CompletionHandler) : M unit :=
  _ ← addActual (Z.of_nat (length data)); send_ref data onComplete.
Definition write_buffer (data : bytes) (onComplete : CompletionHandler) : M unit :=
  _ ← addActual (Z.of_nat (length data)); send_buffer data onComplete.
Definition write_file (file : FileView) (onComplete : CompletionHandler) : M unit :=
  _ ← addActual (fv_size file); send_file file onComplete.

(** ** Running a handler *)

Definition view (c : Channel) : RespView := mkRespView (ch_info c) (ch_committed c) (ch_actual c).

Fixpoint run_prog (p : Prog) : M unit :=
  match p with
  | PDone => mret ()
  | PThrow e => throw e
  | PRead k => λ w, run_prog (k (ch_request (w_channel w)) (view (w_channel w))) w
  | PInfo op k => λ w, let '(r, w') := info_op op w in run_prog (k r) w'
  | PWriteRef data cb k => λ w, let '(r, w') := write_ref data cb w in run_prog (k r) w'
  | PWriteBuffer data cb k => λ w, let '(r, w') := write_buffer data cb w in run_prog (k r) w'
  | PWriteFile file cb k => λ w, let '(r, w') := write_file file cb w in run_prog (k r) w'
  | PContinue cb k => λ w, let '(r, w') := send100Continue cb w in run_prog (k r) w'
  | PError code message k => λ w, let '(r, w') := sendError code message w in run_prog (k r) w'
  | PCompleted k => λ w, let '(r, w') := ch_completed w in run_prog (k r) w'
  | PPostProcess h k =>
      λ w, run_prog k (modify (λ c, with_hooks (ch_onPostProcess c ++ [h]) (ch_onResponseEnd c) c) w).2
  | PResponseEnd h k =>
      λ w, run_prog k (modify (λ c, with_hooks (ch_onPostProcess c) (ch_onResponseEnd c ++ [h]) c) w).2
  | PConsume ready k => λ w, run_prog k (modify (with_content true ready) w).2
  | PDiscard ready k => λ w, run_prog k (modify (with_content false ready) w).2
  end.

(** ** [HttpChannel]: receiving *)

(** [reset]: the hooks for the head, and the callbacks of the content, stay. *)
Definition ch_reset : M unit :=
  _ ← record LReset;
  modify (λ c, mkChannel READING (request_recycle (ch_request c)) newRespInfo false 0 0 []
                 (ch_onPostProcess c) (ch_onResponseEnd c) (ch_consumes c) (ch_onReady c) (ch_handler c)).

Fixpoint fire_end (hs : list nat) : M unit :=
  match hs with [] => mret () | h :: hs => _ ← record (LResponseEnd h); fire_end hs end.

Definition responseEnd : M unit :=
  hs ← gets ch_onResponseEnd;
  _ ← modify (λ c, with_hooks (ch_onPostProcess c) [] c);
  fire_end hs.

Definition onMessageBegin (method entity : bytes) (version : HttpVersion) : M unit :=
  _ ← info_op (SetVersion version);
  _ ← modify (on_request (req_setVersion version));
  _ ← modify (on_request (req_setMethod method));
  q ← gets ch_request;
  let '(ok, u) := setUri entity (q_uri q) in
  _ ← modify (on_request (req_withUri u));
  if negb ok then throw (BadMessage 400) else mret ().

Definition onMessageHeader (name value : bytes) : M unit :=
  q ← gets ch_request;
  h ← lift (hl_push_back name value (q_headers q));
  _ ← modify (on_request (req_setHeaders h));
  _ ← (if iequals name (str "Expect") && iequals value (str "100-continue")
       then modify (on_request (req_setExpect100Continue true)) else mret ());
  if iequals name (str "Host") then
    match q_host q with
    | [] => modify (on_request (req_setHost value))
    | _ => _ ← ch_setState HANDLING; throw (BadMessage 400)
    end
  else mret ().

(** [handleRequest]: what the handler throws is answered with status 500. *)
Definition handle_exception (e : exn) : M unit := sendError 500 (cfg_what cfg e).

Definition invoke_handler : M unit :=
  p ← gets ch_handler;
  r ← attempt (run_prog p);
  match r with Ok _ => mret () | Raise e => handle_exception e end.

Definition refuse_body : M unit :=
  q ← gets ch_request;
  _ ← (if q_expect100Continue q then
         _ ← modify (on_request (req_setExpect100Continue false)); info_op (SetStatus 417)
       else info_op (SetStatus 413));
  ch_completed.

Definition handleRequest : M unit :=
  q ← gets ch_request;
  if hl_contains (str "Content-Length") (q_headers q) then
    n ← lift (std_stoi (hl_get (str "Content-Length") (q_headers q)));
    if cfg_maxRequestBodyLength cfg <? u64 n then refuse_body else invoke_handler
  else invoke_handler.

Definition onMessageHeaderEnd : M unit :=
  st ← gets ch_state;
  if bool_decide (st = HANDLING) then mret () else
  _ ← ch_setState HANDLING;
  q ← gets ch_request;
  if bool_decide (q_version q = VERSION_1_1) && negb (hl_contains (str "Host") (q_headers q))
  then throw (BadMessage 400) else handleRequest.

Definition onMessageContent (chunk : bytes) : M unit :=
  consumes ← gets ch_consumes;
  _ ← modify (on_request (λ q, req_setContentLength (u64 (q_contentLength q + Z.of_nat (length chunk))) q));
  if (consumes : bool) then modify (on_request (req_writeContent chunk)) else mret ().

Definition onMessageEnd : M unit :=
  ready ← gets ch_onReady;
  match ready with Some p => run_prog p | None => mret () end.

Definition onProtocolError (code : Z) (message : bytes) : M unit := sendError code message.

(** The events of a parser, as this listener handles them; the events of a
    response are ignored ([HttpListener.cc]), a parser's error has no text. *)
Definition on_event (ev : http_event) : M unit :=
  match ev with
  | RequestBegin method entity version => onMessageBegin method entity version
  | ResponseBegin _ _ _ | MessageBegin => mret ()
  | MessageHeader name value => onMessageHeader name value
  | MessageHeaderEnd => onMessageHeaderEnd
  | MessageContent chunk => onMessageContent chunk
  | MessageEnd => onMessageEnd
  | ProtocolErrorEvent status => onProtocolError status []
  end.

Fixpoint on_events (evs : list http_event) : M unit :=
  match evs with [] => mret () | ev :: evs => _ ← on_event ev; on_events evs end.

End channel.

Arguments InfoOp : clear implicits.
Arguments PostHook : clear implicits.
Arguments Prog : clear implicits.
Arguments Call : clear implicits.
Arguments Entry : clear implicits.
Arguments Channel : clear implicits.
Arguments World : clear implicits.
Arguments M : clear implicits.
