(* ===== verification/HttpChannelSafety.v ===== *)
(** * What the HTTP channel guarantees

    Over any handler, any callbacks and any transport that behaves, the head of
    a response is handed to the transport once and before its body, and from
    then on the response object says what was sent ([head_once_and_frozen]). A
    handler that fails before anything was sent is answered with status 500. *)
From stdpp Require Import relations.
From S2P Require Import Prelude HeaderFieldList Http1Parser Http1Generator HttpMessage HttpChannel.

Section safety.
Context {F S : Type} `{FilterImpl F}.
Implicit Types (w : World F S) (c : Call F) (p : Prog F).

(** ** What a transport may do to the channel

    Besides its own state it changes header fields of the response (it adds
    those of the connection), the channel's state, the number of bytes sent and
    the request; it tells the channel that the response ended, and resets the
    channel. *)
Definition set_channel (ch : Channel F) w : World F S := mkWorld ch (w_transport w) (w_log w).

Inductive quiet_step : World F S → World F S → Prop :=
  | step_transport w s : quiet_step w (mkWorld (w_channel w) s (w_log w))
  | step_headers w h : quiet_step w (set_channel (with_info (info_setHeaders h (ch_info (w_channel w))) (w_channel w)) w)
  | step_state w st : quiet_step w (set_channel (with_chState st (w_channel w)) w)
  | step_transmitted w n : quiet_step w (set_channel (with_bytesTransmitted n (w_channel w)) w)
  | step_request w f : quiet_step w (set_channel (on_request f (w_channel w)) w)
  | step_end w : quiet_step w (responseEnd w).2.

Inductive chan_step : World F S → World F S → Prop :=
  | step_quiet w w' : quiet_step w w' → chan_step w w'
  | step_reset w : chan_step w (ch_reset w).2.

(** Only the call that completes a response may lead to a reset. *)
Class TransportBehaves (transport : Call F → M F S unit) := {
  transport_quiet c w : c ≠ LCompleted → rtc quiet_step w (transport c w).2;
  transport_completed w : rtc chan_step w (transport LCompleted w).2;
}.

(** ** The specification: an automaton over the record *)

(** What the head of a response fixes. *)
Definition head_of (i : RespInfo) : HttpVersion * Z * bytes * bool * Z :=
  (i_version i, i_status i, i_reason i, i_isHead i, i_contentLength i).

(** Since the last reset: no head was handed to the transport, one was, or one
    was and the transport refused it with an exception. *)
Definition Head : Type := HttpVersion * Z * bytes * bool * Z.
Inductive HeadState := NoHead | HeadSent (h : Head) | HeadRefused (h : Head).

Definition head_in (st : HeadState) : option Head :=
  match st with NoHead => None | HeadSent h | HeadRefused h => Some h end.

(** [None] once the rules are broken: one head, and no part of the body before
    it. A refused head does not break them, and what the channel sends after it
    does not either. *)
Definition log_step (st : HeadState) (e : Entry F) : option HeadState :=
  match e, st with
  | LCall (LHead i _ _), NoHead => Some (HeadSent (head_of i))
  | LCall (LHead _ _ _), _ => None
  | LThrown (LHead _ _ _), HeadSent h => Some (HeadRefused h)
  | LCall (LSend _ _), NoHead | LCall (LSendFile _ _), NoHead => None
  | LReset, _ => Some NoHead
  | _, _ => Some st
  end.

Fixpoint log_scan (st : HeadState) (log : list (Entry F)) : option HeadState :=
  match log with
  | [] => Some st
  | e :: log => match log_step st e with Some st => log_scan st log | None => None end
  end.

Definition expected_head (ch : Channel F) : option Head :=
  if ch_committed ch then Some (head_of (ch_info ch)) else None.

(** The invariant: the record keeps the rules, and the channel agrees with it. *)
Definition log_inv w : Prop := head_in <$> log_scan NoHead (w_log w) = Some (expected_head (w_channel w)).

Lemma log_scan_app st l e st' : log_scan st l = Some st' → log_scan st (l ++ [e]) = log_step st' e.
Proof.
  revert st; induction l as [|x l IH]; intros st Hl; cbn in *.
  - injection Hl as ->. by destruct (log_step st' e).
  - destruct (log_step st x); [by apply IH|done].
Qed.

Lemma log_inv_scan w :
  log_inv w ↔ ∃ st, log_scan NoHead (w_log w) = Some st ∧ head_in st = expected_head (w_channel w).
Proof.
  unfold log_inv. destruct (log_scan NoHead (w_log w)) as [st|]; cbn.
  - split; [intros [= E]; by exists st|intros (? & [= <-] & ->); done].
  - split; [done|by intros (? & ? & _)].
Qed.

(** An entry that keeps what the record says about the head. *)
Definition keeps_head (e : Entry F) : Prop := ∀ st, head_in <$> log_step st e = Some (head_in st).

Lemma log_inv_entry e w w' :
  keeps_head e → w_channel w' = w_channel w → w_log w' = w_log w ++ [e] → log_inv w → log_inv w'.
Proof.
  intros He Hc Hl (st & Hs & Hh)%log_inv_scan. unfold log_inv.
  rewrite Hl, (log_scan_app _ _ _ _ Hs), He, Hh. by rewrite Hc.
Qed.

(** ** Computations that keep the invariant

    A unary program logic: [keeps m] holds if [m] leads from worlds with the
    invariant to worlds with the invariant, whether it returns or throws. *)
Definition keeps {A} (m : M F S A) : Prop := ∀ w, log_inv w → log_inv (m w).2.

Lemma keeps_ret {A} (a : A) : keeps (mret a).
Proof. by intros w. Qed.
Lemma keeps_throw {A} e : keeps (throw (A:=A) e).
Proof. by intros w. Qed.
Lemma keeps_lift {A} (r : result A) : keeps (lift r).
Proof. by intros w. Qed.
Lemma keeps_gets {A} (f : Channel F → A) : keeps (gets f).
Proof. by intros w. Qed.
Lemma keeps_bind {A B} (m : M F S A) (k : A → M F S B) : keeps m → (∀ a, keeps (k a)) → keeps (m ≫= k).
Proof.
  intros Hm Hk w Hw. unfold mbind, M_bind. specialize (Hm w Hw).
  destruct (m w) as [[a|e] w']; [by apply Hk|done].
Qed.
Lemma keeps_attempt {A} (m : M F S A) : keeps m → keeps (attempt m).
Proof. intros Hm w Hw. unfold attempt. specialize (Hm w Hw). by destruct (m w). Qed.
Lemma keeps_if {A} (b : bool) (m m' : M F S A) : keeps m → keeps m' → keeps (if b then m else m').
Proof. by destruct b. Qed.
Lemma keeps_modify f : (∀ ch, expected_head (f ch) = expected_head ch) → keeps (modify f).
Proof. intros Hf w Hw. unfold log_inv, modify in *. cbn [snd w_channel w_log]. by rewrite Hf. Qed.
Lemma keeps_record e : keeps_head e → keeps (record e).
Proof. intros He w. by apply (log_inv_entry e). Qed.

(** [opens m]: from a response that is not committed, [m] leads to one that is
    not. *)
Definition uncommitted w : Prop := ch_committed (w_channel w) = false.
Definition opens {A} (m : M F S A) : Prop :=
  ∀ w, uncommitted w → log_inv w → uncommitted (m w).2 ∧ log_inv (m w).2.

Lemma opens_bind {A B} (m : M F S A) (k : A → M F S B) : opens m → (∀ a, opens (k a)) → opens (m ≫= k).
Proof.
  intros Hm Hk w Hu Hw. unfold mbind, M_bind. destruct (Hm w Hu Hw) as [Hu' Hw'].
  destruct (m w) as [[a|e] w']; [by apply Hk|done].
Qed.
Lemma opens_ret {A} (a : A) : opens (mret a).
Proof. by intros w. Qed.
Lemma opens_throw {A} e : opens (throw (A:=A) e).
Proof. by intros w. Qed.
Lemma opens_lift {A} (r : result A) : opens (lift r).
Proof. by intros w. Qed.
Lemma opens_gets {A} (f : Channel F → A) : opens (gets f).
Proof. by intros w. Qed.
Lemma opens_if {A} (b : bool) (m m' : M F S A) : opens m → opens m' → opens (if b then m else m').
Proof. by destruct b. Qed.
Lemma opens_modify f : (∀ ch, ch_committed (f ch) = ch_committed ch) → opens (modify f).
Proof.
  intros Hf w Hu Hw. unfold uncommitted, log_inv, expected_head, modify in *. cbn.
  rewrite Hf, Hu. by rewrite Hu in Hw.
Qed.
Lemma opens_record e : keeps_head e → opens (record e).
Proof. intros He w Hu Hw. split; [done|]. by apply keeps_record. Qed.
End safety.

Create HintDb keeps.
#[export] Hint Resolve keeps_ret keeps_throw keeps_lift keeps_gets keeps_bind keeps_attempt keeps_if
  opens_ret opens_throw opens_lift opens_gets opens_bind opens_if : keeps.
#[export] Hint Extern 3 (keeps (modify _)) => apply keeps_modify; done : keeps.
#[export] Hint Extern 3 (keeps (record _)) => apply keeps_record; by intros [| |] : keeps.
#[export] Hint Extern 3 (opens (modify _)) => apply opens_modify; done : keeps.
#[export] Hint Extern 3 (opens (record _)) => apply opens_record; by intros [| |] : keeps.

(** Goals about a computation: split at binds, conditions and matches. *)
Ltac mstep :=
  match goal with
  | |- _ => solve [auto with keeps nocore]
  | |- keeps (_ ≫= _) => apply keeps_bind; [|intros ?]
  | |- opens (_ ≫= _) => apply opens_bind; [|intros ?]
  | |- keeps (if _ then _ else _) => apply keeps_if
  | |- opens (if _ then _ else _) => apply opens_if
  | |- keeps (match ?x with _ => _ end) => destruct x
  | |- opens (match ?x with _ => _ end) => destruct x
  end.
Ltac msteps := repeat mstep.

Section response.
Context {F S : Type} `{FilterImpl F}.
Implicit Types (w : World F S) (c : Call F) (p : Prog F).

Lemma opens_info f : opens (S:=S) (F:=F) (on_info f).
Proof. unfold on_info. msteps. Qed.

Lemma keeps_mutable (m : M F S unit) : opens m → keeps (_ ← requireMutableInfo; m).
Proof.
  intros Hm w Hw. unfold requireMutableInfo, requireNotSendingAlready, mbind, M_bind, gets, throw. cbn.
  destruct (ch_committed (w_channel w)) eqn:Hc; cbn; [done|].
  destruct (ch_state (w_channel w)); cbn; try done; by apply Hm.
Qed.

Lemma keeps_trailers f : keeps (S:=S) (F:=F) (on_trailers f).
Proof.
  unfold on_trailers, on_info. intros w Hw. cbn. unfold mbind, M_bind, gets, lift, modify. cbn.
  destruct (f (i_trailers (ch_info (w_channel w)))); cbn; done.
Qed.

Lemma keeps_updateTrailer name f : keeps (S:=S) (F:=F) (updateTrailer name f).
Proof. unfold updateTrailer, requireNotSendingAlready. msteps. apply keeps_trailers. Qed.

Lemma opens_filter f : opens (S:=S) (F:=F) (addOutputFilter f).
Proof. unfold addOutputFilter. msteps. Qed.

Lemma keeps_info_op op : keeps (S:=S) (F:=F) (info_op op).
Proof.
  destruct op; cbn [info_op]; try (apply keeps_mutable; unfold on_headers, on_trailers; msteps; apply opens_info).
  - apply keeps_updateTrailer.
  - apply keeps_updateTrailer.
  - unfold addOutputFilter. msteps.
  - unfold removeAllOutputFilters. msteps.
  - intros w Hw. unfold on_headers, on_info, mbind, M_bind, gets, lift, modify. cbn.
    destruct (hl_overwrite name value _); done.
Qed.

Lemma opens_info_op op : opens (S:=S) (F:=F) (info_op op).
Proof.
  destruct op; cbn [info_op];
    unfold on_headers, registerTrailer, updateTrailer, on_trailers, addOutputFilter, removeAllOutputFilters,
      requireMutableInfo, requireNotSendingAlready; msteps; apply opens_info.
Qed.
Hint Resolve keeps_info_op opens_info_op : keeps.

Lemma opens_compressor comp : opens (S:=S) (F:=F) (compressor_postProcess comp).
Proof. unfold compressor_postProcess, tryEncode. msteps. Qed.

Lemma opens_hooks hs : opens (S:=S) (F:=F) (run_hooks hs).
Proof.
  induction hs as [|[ops|comp] hs IH]; cbn [run_hooks run_hook]; msteps; try done; [|apply opens_compressor].
  induction ops; cbn [info_ops]; by msteps.
Qed.
Hint Resolve opens_compressor opens_hooks : keeps.

(** ** The transport's steps keep the invariant *)

Lemma keeps_fire_end hs : keeps (S:=S) (F:=F) (fire_end hs).
Proof. induction hs; cbn [fire_end]; by msteps. Qed.

Lemma fire_end_channel hs w : w_channel (fire_end hs w).2 = w_channel w.
Proof. revert w; induction hs as [|h hs IH]; intros w; [done|]. cbn [fire_end]. apply (IH (mkWorld _ _ _)). Qed.

Lemma keeps_responseEnd : keeps (S:=S) (F:=F) responseEnd.
Proof. unfold responseEnd. msteps. apply keeps_fire_end. Qed.

Lemma keeps_reset : keeps (S:=S) (F:=F) ch_reset.
Proof.
  intros w (st & Hs & _)%log_inv_scan. change (head_in <$> log_scan NoHead (w_log w ++ [LReset]) = Some None).
  rewrite (log_scan_app _ _ _ _ Hs). by destruct st.
Qed.

Lemma quiet_inv w w' :
  quiet_step w w' → log_inv w → log_inv w' ∧ ch_committed (w_channel w') = ch_committed (w_channel w).
Proof.
  intros [| | | | |] Hw; try done. split; [by apply keeps_responseEnd|].
  unfold responseEnd, mbind, M_bind, gets, modify. cbn. by rewrite fire_end_channel.
Qed.

Lemma quiets_inv w w' :
  rtc quiet_step w w' → log_inv w → log_inv w' ∧ ch_committed (w_channel w') = ch_committed (w_channel w).
Proof.
  induction 1 as [|w w1 w2 H1 _ IH]; intros Hw; [done|].
  destruct (quiet_inv _ _ H1 Hw) as [Hw1 <-]. by apply IH.
Qed.

Lemma steps_inv w w' : rtc chan_step w w' → log_inv w → log_inv w'.
Proof.
  induction 1 as [|w w1 w2 H1 _ IH]; intros Hw; [done|]. apply IH.
  destruct H1 as [w w1 H1|w]; [by destruct (quiet_inv _ _ H1 Hw)|by apply keeps_reset].
Qed.
End response.

Section sending.
Context {F S : Type} `{FilterImpl F} (cfg : Config) (transport : Call F → M F S unit) `{!TransportBehaves transport}.
Implicit Types (w : World F S) (c : Call F) (p : Prog F).

#[local] Hint Resolve keeps_info_op opens_info_op opens_compressor opens_hooks : keeps.

Abbreviation call := (call transport).

(** The record after a call, before the transport is invoked. *)
Definition called c w : World F S := mkWorld (w_channel w) (w_transport w) (w_log w ++ [LCall c]).

Lemma call_eq c w : call c w = watched transport c (called c w).
Proof. done. Qed.

(** That a call was refused changes nothing but the record. *)
Lemma thrown_inv c (out : result unit * World F S) :
  log_inv out.2 →
  log_inv (thrown c out).2 ∧ w_channel (thrown c out).2 = w_channel out.2 ∧ (thrown c out).1 = out.1.
Proof.
  destruct out as [[[]|e] w]; cbn; [done|]. intros Hw. split; [|done].
  by apply (log_inv_entry (LThrown c) w); [intros []; by destruct c| | |].
Qed.

Lemma call_quiet c w :
  c ≠ LCompleted → log_inv (called c w) →
  log_inv (call c w).2 ∧ ch_committed (w_channel (call c w).2) = ch_committed (w_channel w).
Proof.
  intros Hc Hw. rewrite call_eq. unfold watched.
  destruct (quiets_inv (called c w) _ (transport_quiet c _ Hc) Hw) as [Hw' Hc'].
  destruct (thrown_inv c _ Hw') as (Hw2 & -> & _). by rewrite Hc'.
Qed.

Definition neutral c : Prop := keeps_head (LCall c).

Lemma called_neutral c w : neutral c → log_inv w → log_inv (called c w).
Proof. intros Hc. by apply (log_inv_entry (LCall c)). Qed.

Lemma keeps_call c : neutral c → keeps (call c).
Proof.
  intros Hc w Hw. pose proof (called_neutral c w Hc Hw) as Hw'.
  assert (c = LCompleted ∨ c ≠ LCompleted) as [->|Hn] by (destruct c; auto); [|by apply call_quiet].
  rewrite call_eq. apply thrown_inv. eapply steps_inv; [apply transport_completed|done].
Qed.
Lemma opens_call c : c ≠ LCompleted → neutral c → opens (call c).
Proof.
  intros Hn Hc w Hu Hw. destruct (call_quiet c w Hn (called_neutral c w Hc Hw)) as [Hw' Hu'].
  unfold uncommitted in *. by rewrite Hu'.
Qed.

Lemma committed_call c w :
  c ≠ LCompleted → (∀ st, st ≠ NoHead → log_step st (LCall c) = Some st) →
  ch_committed (w_channel w) = true → log_inv w → log_inv (call c w).2.
Proof.
  intros Hn Hc Hu (st & Hs & Hh)%log_inv_scan. apply call_quiet; [done|].
  unfold log_inv, called. cbn [w_log w_channel]. rewrite (log_scan_app _ _ _ _ Hs).
  rewrite Hc; [cbn; by rewrite Hh|]. intros ->. unfold expected_head in Hh. by rewrite Hu in Hh.
Qed.

(** Committed, but the head is not recorded yet. *)
Definition head_due w : Prop := ch_committed (w_channel w) = true ∧ log_scan NoHead (w_log w) = Some NoHead.

Lemma head_call w chunk cb :
  head_due w →
  log_inv (call (LHead (ch_info (w_channel w)) chunk cb) w).2 ∧
  ch_committed (w_channel (call (LHead (ch_info (w_channel w)) chunk cb) w).2) = true.
Proof.
  intros [Hu Hw]. destruct (call_quiet (LHead (ch_info (w_channel w)) chunk cb) w) as [Hw' Hc']; [done| |by rewrite Hc'].
  unfold log_inv, called. cbn [w_log w_channel]. rewrite (log_scan_app _ _ _ _ Hw).
  unfold expected_head. by rewrite Hu.
Qed.

Lemma opens_continue cb : opens (send100Continue transport cb).
Proof. unfold send100Continue. msteps. apply opens_call; [done|by intros []]. Qed.

Lemma keeps_continue cb : keeps (send100Continue transport cb).
Proof. unfold send100Continue. msteps. apply keeps_call. by intros []. Qed.

(** The steps of [commitInline] up to the commit, and after it. *)
Definition commit_prefix : M F S HttpRequest :=
  i ← gets ch_info;
  if i_status i =? 0 then throw IllegalStateError else
  hooks ← gets ch_onPostProcess;
  _ ← run_hooks hooks;
  q ← gets ch_request;
  _ ← (if q_expect100Continue q then send100Continue transport None else mret ());
  mret q.

Lemma opens_commit_prefix : opens commit_prefix.
Proof. unfold commit_prefix. msteps. apply opens_continue. Qed.

Definition commit_suffix (q : HttpRequest) : M F S RespInfo :=
  _ ← modify (with_committed true);
  _ ← on_info (λ i, Ok (info_setIsHead (bool_decide (q_method q = HEAD)) i));
  _ ← on_headers (λ h, if hl_contains (str "Server") h then Ok h
                       else hl_push_back (str "Server") (str "xzero/" ++ cfg_server cfg) h);
  i ← gets ch_info;
  _ ← match cfg_date cfg with
      | Some date =>
          if negb (hl_contains (str "Date") (i_headers i)) && (200 <=? i_status i)
          then on_headers (hl_push_back (str "Date") date) else mret ()
      | None => mret ()
      end;
  gets ch_info.

Lemma commit_split w : commitInline cfg transport w = (q ← commit_prefix; commit_suffix q) w.
Proof.
  unfold commitInline, commit_prefix, commit_suffix, mbind, M_bind, gets, mret, M_ret. cbn.
  destruct (i_status _ =? 0); [done|]. destruct (run_hooks _ w) as [[]  w1]; [|done].
  destruct (q_expect100Continue _); [|done]. by destruct (send100Continue _ _ _) as [[] w2].
Qed.

(** After a commit only header fields have been added. *)
Lemma commit_suffix_spec q w :
  ∃ added, let i := info_setHeaders (i_headers (ch_info (w_channel w)) ++ added)
      (info_setIsHead (bool_decide (q_method q = HEAD)) (ch_info (w_channel w))) in
  commit_suffix q w = (Ok i, set_channel (with_info i (with_committed true (w_channel w))) w).
Proof.
  unfold commit_suffix, on_headers, on_info, mbind, M_bind, gets, modify, lift, mret, M_ret. cbn.
  assert (Hnil : ∀ l : HeaderFieldList, l ++ [] = l) by apply app_nil_r.
  destruct (hl_contains _ (i_headers _)); cbn; (destruct (cfg_date cfg); [destruct (_ && _)|]);
    first [eexists; reflexivity|exists []; by rewrite Hnil|eexists [_; _]; cbn; rewrite <- app_assoc; reflexivity].
Qed.

Lemma commitInline_spec w :
  uncommitted w → log_inv w →
  match commitInline cfg transport w with
  | (Ok i, w') => head_due w' ∧ i = ch_info (w_channel w')
  | (Raise _, w') => log_inv w'
  end.
Proof.
  intros Hu Hw. rewrite commit_split. unfold mbind, M_bind. destruct (opens_commit_prefix w Hu Hw) as [Hu' Hw'].
  destruct (commit_prefix w) as [[q|e] w']; [|done]. destruct (commit_suffix_spec q w') as (h & ->). cbn in *.
  repeat split. apply log_inv_scan in Hw' as (st & Hs & Hh). unfold uncommitted, expected_head in *.
  rewrite Hu' in Hh. by destruct st.
Qed.

(** A commit followed by the head. *)
Definition commit_with (chunk : bytes) (cb : option (bool → Prog F)) : M F S unit :=
  info ← commitInline cfg transport; call (LHead info chunk cb).

Lemma commit_head w chunk cb :
  uncommitted w → log_inv w →
  log_inv (commit_with chunk cb w).2 ∧
  ((commit_with chunk cb w).1 = Ok () → ch_committed (w_channel (commit_with chunk cb w).2) = true).
Proof.
  intros Hu Hw. pose proof (commitInline_spec w Hu Hw) as Hc. unfold commit_with, mbind, M_bind.
  destruct (commitInline cfg transport w) as [[i|e] w1]; [|done]. destruct Hc as [Hd ->].
  pose proof (head_call w1 chunk cb Hd) as [H1 H2]. by destruct (call _ w1).
Qed.

Lemma keeps_send_chunk data cb : keeps (send_chunk cfg transport data cb).
Proof.
  intros w Hw. unfold send_chunk, mbind at 1, M_bind at 1, gets. cbn -[mbind M_bind].
  destruct (ch_committed (w_channel w)) eqn:Hc; cbn -[mbind M_bind].
  - apply committed_call; [done|by intros []|done..].
  - by apply commit_head.
Qed.
Hint Resolve keeps_send_chunk : keeps.

Lemma keeps_onBeforeSend : keeps (S:=S) (F:=F) (onBeforeSend cfg).
Proof.
  intros w Hw. unfold onBeforeSend, mbind, M_bind, gets. cbn.
  destruct (ch_state (w_channel w)), (ch_committed (w_channel w)) eqn:Hc, (cfg_compressor cfg); cbn; try done; by apply opens_compressor.
Qed.
Hint Resolve keeps_onBeforeSend : keeps.

Lemma keeps_filtered input last : keeps (S:=S) (F:=F) (filtered input last).
Proof. unfold filtered. msteps. Qed.
Lemma keeps_filtered_file file : keeps (S:=S) (F:=F) (filtered_file file).
Proof. unfold filtered_file. msteps. Qed.
Hint Resolve keeps_filtered keeps_filtered_file : keeps.

Lemma keeps_send_ref data cb : keeps (send_ref cfg transport data cb).
Proof. unfold send_ref. msteps. Qed.
Lemma keeps_send_buffer data cb : keeps (send_buffer cfg transport data cb).
Proof. unfold send_buffer. msteps. Qed.

(** Sending a file commits first, then hands over the file. *)
Lemma keeps_send_file file cb : keeps (send_file cfg transport file cb).
Proof.
  unfold send_file. apply keeps_bind; [msteps|intros _]. apply keeps_bind; [msteps|intros [|f fs]]; [|msteps].
  intros w Hw. unfold mbind at 1, M_bind at 1, gets. cbn -[mbind M_bind].
  destruct (ch_committed (w_channel w)) eqn:Hc; cbn -[mbind M_bind];
    [apply committed_call; [done|by intros []|done..]|].
  pose proof (commit_head w [] None Hc Hw) as Hh. unfold commit_with, mbind, M_bind in *.
  destruct (commitInline cfg transport w) as [[i|e] w1]; [|apply Hh].
  destruct (call (LHead i [] None) w1) as [[[]|e] w2]; [|apply Hh].
  apply committed_call; [done|by intros []|by apply Hh|apply Hh].
Qed.
Hint Resolve keeps_send_ref keeps_send_buffer keeps_send_file : keeps.

Lemma keeps_completed_call : keeps (call LCompleted).
Proof. apply keeps_call. by intros []. Qed.
Lemma keeps_abort_call : keeps (call LAbort).
Proof. apply keeps_call. by intros []. Qed.
Lemma keeps_flush_call out : keeps (call (LFlush out)).
Proof. apply keeps_call. by intros []. Qed.
Hint Resolve keeps_completed_call keeps_abort_call keeps_flush_call : keeps.

(** The empty body that [completed] commits. *)
Definition set_empty (i : RespInfo) (q : HttpRequest) : M F S unit :=
  if negb (info_hasContentLength i) && negb (bool_decide (q_method q = HEAD))
  then info_op (SetContentLength 0) else mret ().

Definition commit_empty (i : RespInfo) (q : HttpRequest) : M F S unit := _ ← set_empty i q; commit_with [] None.

Lemma commit_empty_inv i q w : uncommitted w → log_inv w → log_inv (commit_empty i q w).2.
Proof.
  intros Hu Hw. assert (Ho : opens (set_empty i q)) by (unfold set_empty; msteps).
  unfold commit_empty, mbind, M_bind. destruct (Ho w Hu Hw) as [Hu1 Hw1].
  destruct (set_empty i q w) as [[[]|e] w1]; [by apply commit_head|done].
Qed.

(** What [completed] sends once its tests have passed. *)
Definition last_body (i : RespInfo) (q : HttpRequest) (fs : list F) (committed : bool) : M F S unit :=
  match fs with
  | _ :: _ => out ← filtered [] true; call (LFlush out)
  | [] => if negb committed then commit_empty i q else mret ()
  end.

Lemma keeps_finish_body i q fs :
  keeps (committed ← gets ch_committed; _ ← last_body i q fs committed; call LCompleted).
Proof.
  intros w Hw. unfold mbind at 1, M_bind at 1, gets. unfold mbind, M_bind.
  assert (Hb : log_inv (last_body i q fs (ch_committed (w_channel w)) w).2).
  { destruct fs as [|f fs]; cbn [last_body].
    - destruct (ch_committed (w_channel w)) eqn:Hc; [done|]. by apply commit_empty_inv.
    - revert w Hw. fold (keeps (out ← filtered (F:=F) (S:=S) [] true; call (LFlush out))). msteps. }
  destruct (last_body _ _ _ _ w) as [[[]|e] w']; [by apply keeps_completed_call|done].
Qed.

Lemma keeps_ch_completed : keeps (ch_completed cfg transport).
Proof.
  unfold ch_completed. apply keeps_bind; [msteps|intros i]. apply keeps_if; [msteps|].
  apply keeps_bind; [msteps|intros q]. apply keeps_bind; [msteps|intros actual]. apply keeps_if; [msteps|].
  apply keeps_bind; [msteps|intros st]. apply keeps_if; [msteps|].
  apply keeps_bind; [msteps|intros fs]. apply (keeps_finish_body i q fs).
Qed.
Hint Resolve keeps_ch_completed : keeps.

(** ** Handlers and events *)

Lemma keeps_sendError code message : keeps (sendError cfg transport code message).
Proof. unfold sendError. msteps. Qed.

Lemma keeps_write_ref data cb : keeps (write_ref cfg transport data cb).
Proof. unfold write_ref, addActual. msteps. Qed.
Lemma keeps_write_buffer data cb : keeps (write_buffer cfg transport data cb).
Proof. unfold write_buffer, addActual. msteps. Qed.
Lemma keeps_write_file file cb : keeps (write_file cfg transport file cb).
Proof. unfold write_file, addActual. msteps. Qed.
Hint Resolve keeps_sendError keeps_write_ref keeps_write_buffer keeps_write_file keeps_continue : keeps.

Lemma keeps_run_prog p : keeps (run_prog cfg transport p).
Proof.
  induction p; intros w Hw; cbn [run_prog]; try done; try (by auto);
    try (match goal with IH : ∀ a, keeps (run_prog _ _ (?k a)) |- context [?m w] =>
      assert (Hm : log_inv (m w).2) by (revert w Hw; fold (keeps m); msteps);
      destruct (m w) as [r w']; by apply IH end).
  match goal with IH : ∀ _ _, keeps _ |- _ => by apply IH end.
Qed.
Hint Resolve keeps_run_prog : keeps.

Lemma keeps_handleRequest : keeps (handleRequest cfg transport).
Proof. unfold handleRequest, refuse_body, invoke_handler, handle_exception. msteps. Qed.
Hint Resolve keeps_handleRequest : keeps.

Lemma keeps_on_event ev : keeps (on_event cfg transport ev).
Proof.
  destruct ev; cbn [on_event]; unfold onMessageBegin, onMessageHeader, onMessageHeaderEnd, onMessageContent,
    onMessageEnd, onProtocolError, ch_setState; msteps.
Qed.

(** ** Reachable worlds

    From a new channel: the events of the parser in any order, callbacks of
    writes run with any handler program, and whatever the transport does on its
    own. *)
Inductive reachable : World F S → Prop :=
  | reach_new handler s : reachable (mkWorld (newChannel handler) s [])
  | reach_event ev w : reachable w → reachable (on_event cfg transport ev w).2
  | reach_callback p w : reachable w → reachable (run_prog cfg transport p w).2
  | reach_transport w w' : chan_step w w' → reachable w → reachable w'.

Lemma reachable_inv w : reachable w → log_inv w.
Proof.
  induction 1 as [|ev w _ IH|p w _ IH|w w' Hs _ IH].
  - done.
  - by apply keeps_on_event.
  - by apply keeps_run_prog.
  - eapply steps_inv; [by apply rtc_once|done].
Qed.

(** In every reachable world the record of the transport's calls keeps the
    rules of a response: since the last reset at most one head was handed to the
    transport, and no part of the body before it; the channel is committed if
    and only if a head was handed over -- also if the transport refused it --,
    and then the version, status, reason, content length and kind of the
    response are still those that were handed over, whatever the handler has
    called since. *)
Definition keeps_rules w : Prop :=
  ∃ st, log_scan NoHead (w_log w) = Some st ∧
    (ch_committed (w_channel w) = true ↔ st ≠ NoHead) ∧
    (∀ h, head_in st = Some h → h = head_of (ch_info (w_channel w))).

Lemma inv_rules w : log_inv w → keeps_rules w.
Proof.
  intros (st & Hs & Hh)%log_inv_scan. exists st. split; [done|]. unfold expected_head in Hh.
  destruct (ch_committed (w_channel w)), st; cbn in *; try done; repeat split; try done; congruence.
Qed.

Theorem head_once_and_frozen w : reachable w → keeps_rules w.
Proof. intros Hr. by apply inv_rules, reachable_inv. Qed.
End sending.
