(* ===== verification/HttpMock.v ===== *)
(** * The mock transport, and requests answered through it

    [src/xzero/http/mock/Transport.cc]: a transport that keeps the response it
    is given, which the tests use to run a request against a handler. It
    discharges the interface [TransportBehaves]. *)
From stdpp Require Import relations.
From S2P Require Import Prelude HeaderFieldList Http1Parser Http1Generator RequestUri HttpMessage HttpChannel HttpChannelSafety.

Section mock.
Context {F : Type} `{FilterImpl F}.

(** The executor's tasks are the completion callbacks, with their argument. *)
Record MockTransport := mkMock {
  mk_isAborted : bool;
  mk_isCompleted : bool;
  mk_responseInfo : RespInfo;
  mk_responseBody : bytes;
  mk_tasks : list (Prog F);
}.

Definition newMock : MockTransport := mkMock false false newRespInfo [] [].

Definition mk_complete (cb : option (bool → Prog F)) (m : MockTransport) : MockTransport :=
  match cb with
  | Some k => mkMock (mk_isAborted m) (mk_isCompleted m) (mk_responseInfo m) (mk_responseBody m) (mk_tasks m ++ [k true])
  | None => m
  end.

Definition mk_send_info (info : RespInfo) (chunk : bytes) (cb : option (bool → Prog F)) (m : MockTransport) : MockTransport :=
  mk_complete cb (mkMock (mk_isAborted m) (mk_isCompleted m) info (mk_responseBody m ++ chunk) (mk_tasks m)).

Definition mk_send (chunk : bytes) (cb : option (bool → Prog F)) (m : MockTransport) : MockTransport :=
  mk_complete cb (mkMock (mk_isAborted m) (mk_isCompleted m) (mk_responseInfo m) (mk_responseBody m ++ chunk) (mk_tasks m)).

Definition mk_abort (m : MockTransport) : MockTransport :=
  mkMock true (mk_isCompleted m) (mk_responseInfo m) (mk_responseBody m) (mk_tasks m).

Definition mk_completed (trailers : HeaderFieldList) (m : MockTransport) : MockTransport :=
  mkMock (mk_isAborted m) true (info_setTrailers trailers (mk_responseInfo m)) (mk_responseBody m) (mk_tasks m).

Definition mock_call (c : Call F) : M F MockTransport unit := λ w,
  let m := w_transport w in
  let done m' := (Ok (), mkWorld (w_channel w) m' (w_log w)) in
  match c with
  | LHead info chunk cb => done (mk_send_info info chunk cb m)
  | LContinue info cb => done (mk_send_info info [] cb m)
  | LSend chunk cb => done (mk_send chunk cb m)
  | LSendFile file cb => match fileView_fill file with Ok data => done (mk_send data cb m) | Raise e => (Raise e, w) end
  | LFlush chunk => done (mk_send chunk None m)
  | LCompleted => done (mk_completed (i_trailers (ch_info (w_channel w))) m)
  | LAbort => done (mk_abort m)
  end.

#[export] Instance mock_behaves : TransportBehaves mock_call.
Proof.
  split; [intros c w Hc|intros w]; unfold mock_call.
  - destruct c as [| | |file cb| | |]; cbn; [..|destruct (fileView_fill file); [|done]| | |]; apply rtc_once, (step_transport _ _).
  - apply rtc_once, step_quiet, (step_transport _ _).
Qed.

(** The exceptions that derive from [RuntimeError]. *)
Definition is_RuntimeError (e : exn) : bool :=
  match e with
  | StdInvalidArgument | StdOutOfRange | StdRuntimeError | AssertionFailure | UndefinedBehaviour | Blocked => false
  | _ => true
  end.

Definition mock_request_events (version : HttpVersion) (method entity : bytes) (headers : HeaderFieldList) (body : bytes) :
    list http_event :=
  RequestBegin method entity version :: ((λ f, MessageHeader (fld_name f) (fld_value f)) <$> headers) ++
  [MessageHeaderEnd; MessageContent body; MessageEnd].

(** [Transport::run]: a new channel; what the channel throws is answered. *)
Definition mock_run (cfg : Config) (handler : Prog F) (version : HttpVersion) (method entity : bytes)
    (headers : HeaderFieldList) (body : bytes) (m : MockTransport) : result unit * World F MockTransport :=
  let w := mkWorld (newChannel handler)
             (mkMock false false (mk_responseInfo m) (mk_responseBody m) (mk_tasks m)) [] in
  match on_events cfg mock_call (mock_request_events version method entity headers body) w with
  | (Raise e, w') =>
      match e with
      | BadMessage status => sendError cfg mock_call status (cfg_what cfg e) w'
      | _ => if is_RuntimeError e then sendError cfg mock_call 500 (cfg_what cfg e) w' else (Raise e, w')
      end
  | out => out
  end.
End mock.
Arguments MockTransport : clear implicits.

(** ** A handler that fails *)

Section failing.
Context {F S : Type} `{FilterImpl F} (cfg : Config) (transport : Call F → M F S unit).
Implicit Types (w : World F S) (p : Prog F).

(** The response to a failure, before and after [completed] has chosen a content
    length for it, and whether a body that was announced is missing. *)
Definition failed_info (code : Z) (message : bytes) (i : RespInfo) : RespInfo :=
  info_setReason message (info_setStatus code i).

Definition error_info (code : Z) (message : bytes) (i : RespInfo) (q : HttpRequest) : RespInfo :=
  let i := failed_info code message i in
  if negb (info_hasContentLength i) && negb (bool_decide (q_method q = HEAD)) then info_setContentLength 0 i else i.

Definition body_missing (ch : Channel F) : bool :=
  negb (bool_decide (q_method (ch_request ch) = HEAD)) && info_hasContentLength (ch_info ch) &&
  (ch_actual ch <? i_contentLength (ch_info ch)).

Lemma commit_plain chunk cb w :
  i_status (ch_info (w_channel w)) ≠ 0 → ch_onPostProcess (w_channel w) = [] →
  q_expect100Continue (ch_request (w_channel w)) = false →
  ∃ added, let i := info_setHeaders (i_headers (ch_info (w_channel w)) ++ added)
      (info_setIsHead (bool_decide (q_method (ch_request (w_channel w)) = HEAD)) (ch_info (w_channel w))) in
  commit_with cfg transport chunk cb w =
  call transport (LHead i chunk cb) (set_channel (with_info i (with_committed true (w_channel w))) w).
Proof.
  intros Hs Hp Hq. destruct (commit_suffix_spec (F:=F) (S:=S) cfg (ch_request (w_channel w)) w) as (h & Hw).
  exists h. cbn zeta in *. unfold commit_with, mbind, M_bind. rewrite commit_split.
  unfold commit_prefix, mbind, M_bind, gets, mret, M_ret.
  rewrite (proj2 (Z.eqb_neq _ _) Hs), Hp. cbn [run_hooks]. unfold mret, M_ret. by rewrite Hq, Hw.
Qed.

Lemma sendError_empty code message w :
  isError code = true → code ≠ 444 → ch_committed (w_channel w) = false → ch_state (w_channel w) = HANDLING →
  ch_filters (w_channel w) = [] →
  sendError cfg transport code message w =
  if body_missing (w_channel w)
  then (Raise RuntimeError, set_channel (with_info (failed_info code message (ch_info (w_channel w))) (w_channel w)) w)
  else (_ ← commit_with cfg transport [] None; call transport LCompleted)
         (set_channel (with_info (error_info code message (ch_info (w_channel w)) (ch_request (w_channel w))) (w_channel w)) w).
Proof.
  intros He Hn Hc Hs Hf. destruct w as [ch s l]. cbn [w_channel] in *.
  unfold sendError. rewrite He. cbn -[mbind M_bind ch_completed].
  unfold ch_completed, commit_with, info_op, requireMutableInfo, requireNotSendingAlready, on_info, lift, modify, gets, throw,
    mret, M_ret, set_channel, error_info, failed_info, body_missing.
  unfold mbind, M_bind. destruct ch; cbn -[Z.eqb] in *; subst; cbn -[Z.eqb].
  rewrite (proj2 (Z.eqb_neq _ _) Hn). unfold info_hasContentLength. cbn -[Z.eqb bool_decide commitInline].
  destruct (bool_decide (q_method ch_request = HEAD)), (i_contentLength ch_info =? UnknownContentLength);
    cbn -[commitInline]; try reflexivity.
  destruct (ch_actual <? i_contentLength ch_info); cbn; reflexivity.
Qed.

(** C12 (error). A handler throws in the handling state before the response is
    committed, having installed no output filters or post-process hooks and left
    no 100-continue due. If it has announced a body (a content length above what
    it has written, for a request other than HEAD), the client gets no answer:
    nothing is handed to the transport and a [RuntimeError] leaves the channel.
    Otherwise the transport is handed one head with status 500 and the text of
    the exception, without a body -- the content length is the one chosen, or 0,
    or left open for a HEAD request --, and then the completion. *)
Theorem failed_handler_answered w w1 e :
  run_prog cfg transport (ch_handler (w_channel w)) w = (Raise e, w1) →
  ch_committed (w_channel w1) = false → ch_state (w_channel w1) = HANDLING → ch_filters (w_channel w1) = [] →
  ch_onPostProcess (w_channel w1) = [] → q_expect100Continue (ch_request (w_channel w1)) = false →
  let i1 := ch_info (w_channel w1) in
  let head := bool_decide (q_method (ch_request (w_channel w1)) = HEAD) in
  if body_missing (w_channel w1)
  then (invoke_handler cfg transport w).1 = Raise RuntimeError ∧ w_log (invoke_handler cfg transport w).2 = w_log w1
  else ∃ i, head_of i = (i_version i1, 500, cfg_what cfg e, head,
         if info_hasContentLength i1 || head then i_contentLength i1 else 0) ∧
    invoke_handler cfg transport w =
    (_ ← call transport (LHead i [] None); call transport LCompleted)
      (set_channel (with_info i (with_committed true (w_channel w1))) w1).
Proof.
  intros Hr Hc Hs Hf Hp Hq i1 head.
  assert (Hi : invoke_handler cfg transport w = sendError cfg transport 500 (cfg_what cfg e) w1).
  { unfold invoke_handler, mbind, M_bind, gets, attempt. by rewrite Hr. }
  rewrite Hi, sendError_empty by done. destruct (body_missing (w_channel w1)); [done|].
  fold i1. set (i0 := error_info 500 (cfg_what cfg e) i1 (ch_request (w_channel w1))).
  set (w2 := set_channel _ w1).
  assert (Hi0 : head_of i0 = (i_version i1, 500, cfg_what cfg e, i_isHead i1,
    if info_hasContentLength i1 || head then i_contentLength i1 else 0) ∧ i_status i0 = 500).
  { unfold i0, error_info, failed_info, info_hasContentLength. fold head. cbn.
    by destruct (i_contentLength i1 =? UnknownContentLength), head. }
  destruct Hi0 as [Hi0 Hst].
  destruct (commit_plain [] None w2) as (h & Hw); try done; [unfold w2; cbn; by rewrite Hst|].
  exists (info_setHeaders (i_headers i0 ++ h) (info_setIsHead head i0)). split.
  - unfold head_of in *. cbn. by injection Hi0 as -> -> -> _ ->.
  - unfold mbind, M_bind. rewrite Hw. unfold w2, set_channel. cbn [w_channel w_transport w_log].
    destruct w1 as [[] ? ?]. reflexivity.
Qed.
End failing.

(** ** A request that reaches its handler *)

Section arriving.
Context {F S : Type} `{FilterImpl F} (cfg : Config) (transport : Call F → M F S unit).
Implicit Types (w : World F S) (p : Prog F).

(** The host of a request: a second [Host] field is an error, unless the first
    was empty. *)
Fixpoint host_of (host : bytes) (headers : list (bytes * bytes)) : option bytes :=
  match headers with
  | [] => Some host
  | (name, value) :: headers =>
      if iequals name (str "Host") then match host with [] => host_of value headers | _ => None end
      else host_of host headers
  end.

Definition expects (h : bytes * bytes) : bool := iequals h.1 (str "Expect") && iequals h.2 (str "100-continue").
Definition field_of (h : bytes * bytes) : HeaderField := mkField h.1 h.2 false.
Definition header_events (headers : list (bytes * bytes)) : list http_event := (λ h, MessageHeader h.1 h.2) <$> headers.

(** The request with more fields. *)
Definition add_fields (headers : list (bytes * bytes)) (host : bytes) (q : HttpRequest) : HttpRequest :=
  req_setExpect100Continue (q_expect100Continue q || existsb expects headers)
    (req_setHost host (req_setHeaders (q_headers q ++ (field_of <$> headers)) q)).

Lemma on_events_app evs evs' w :
  on_events cfg transport (evs ++ evs') w = (_ ← on_events cfg transport evs; on_events cfg transport evs') w.
Proof.
  revert w; induction evs as [|ev evs IH]; intros w; cbn [app on_events]; [done|].
  unfold mbind, M_bind in *. destruct (on_event cfg transport ev w) as [[[]|e] w']; [by rewrite IH|done].
Qed.

Lemma on_headers_spec headers : ∀ w,
  Forall (λ h, h.1 ≠ []) headers →
  match host_of (q_host (ch_request (w_channel w))) headers with
  | Some host => on_events cfg transport (header_events headers) w =
      (Ok (), set_channel (on_request (add_fields headers host) (w_channel w)) w)
  | None => (on_events cfg transport (header_events headers) w).1 = Raise (BadMessage 400)
  end.
Proof.
  induction headers as [|[name value] headers IH]; intros w Hne; cbn [host_of header_events fmap list_fmap on_events].
  - unfold mret, M_ret. f_equal. destruct w as [[st []] s l]. unfold set_channel, on_request, add_fields. cbn.
    by rewrite app_nil_r, orb_false_r.
  - apply Forall_cons_iff in Hne as [Hn Hne]. cbn in Hn.
    set (q := ch_request (w_channel w)) in *.
    set (e := iequals name (str "Expect") && iequals value (str "100-continue")).
    (* what one field does *)
    pose (q1 := req_setExpect100Continue (q_expect100Continue q || e) (req_setHeaders (q_headers q ++ [mkField name value false]) q)).
    assert (H1 : on_event cfg transport (MessageHeader name value) w =
      if iequals name (str "Host") then
        match q_host q with
        | [] => (Ok (), set_channel (on_request (λ _, req_setHost value q1) (w_channel w)) w)
        | _ => (Raise (BadMessage 400), set_channel (with_chState HANDLING (on_request (λ _, q1) (w_channel w))) w)
        end
      else (Ok (), set_channel (on_request (λ _, q1) (w_channel w)) w)).
    { cbn [on_event]. unfold onMessageHeader, hl_push_back, hl_push_field, mbind, M_bind, gets, lift, modify, ch_setState, throw, mret, M_ret.
      destruct name as [|c name]; [done|]. cbn [fld_name]. fold e. subst q q1. destruct w as [[st [] i cm bt ac fs pp re cs rd hd] s l].
      clearbody e. destruct (iequals (c :: name) (str "Host")), e, q_host; cbn; by rewrite ?orb_true_r, ?orb_false_r. }
    unfold mbind, M_bind. change (MessageHeader (name, value).1 (name, value).2) with (MessageHeader name value). rewrite H1.
    assert (Hadd : ∀ h h', add_fields headers h (req_setHost h' q1) = add_fields ((name, value) :: headers) h q).
    { intros h h'. unfold add_fields, q1. cbn -[str iequals expects]. change (expects (name, value)) with e.
      by rewrite <- app_assoc, orb_assoc. }
    destruct (iequals name (str "Host")).
    + destruct (q_host q) eqn:Hq; [|done].
      pose proof (IH (set_channel (on_request (λ _, req_setHost value q1) (w_channel w)) w) Hne) as Hi. cbn in Hi.
      destruct (host_of value headers) as [h|]; [|exact Hi]. unfold header_events in Hi. rewrite Hi.
      unfold set_channel, on_request. cbn. by rewrite Hadd.
    + pose proof (IH (set_channel (on_request (λ _, q1) (w_channel w)) w) Hne) as Hi. cbn in Hi.
      fold q. destruct (host_of (q_host q) headers) as [h|]; [|exact Hi]. unfold header_events in Hi. rewrite Hi.
      unfold set_channel, on_request. cbn. replace q1 with (req_setHost (q_host q) q1) by (by destruct q). by rewrite Hadd.
Qed.

(** What becomes of the head of a request on a new channel,
    on every branch: if its path is refused, if it has two hosts, or if it is
    a request of HTTP/1.1 without a host, the channel throws a bad message with
    status 400 and the handler does not run; otherwise the request is handled,
    and the handler finds in it the method, the decoded path, the version, all
    header fields in the order they were received, the host, and whether the
    client expects to be told to continue. *)
Theorem request_arrives handler s method entity version headers :
  Forall (λ h, h.1 ≠ []) headers →
  let out := on_events cfg transport (RequestBegin method entity version :: header_events headers ++ [MessageHeaderEnd])
               (mkWorld (newChannel handler) s []) in
  match setUri entity newUriInfo, host_of [] headers with
  | (true, u), Some host =>
      let q := mkHttpRequest version method (to_method method) u 0 (field_of <$> headers) None None 0 host false
                 (existsb expects headers) [] [] in
      if bool_decide (version = VERSION_1_1) && negb (hl_contains (str "Host") (field_of <$> headers))
      then out.1 = Raise (BadMessage 400)
      else out = handleRequest cfg transport (mkWorld
             (on_request (λ _, q) (with_info (info_setVersion version newRespInfo) (with_chState HANDLING (newChannel handler)))) s [])
  | _, _ => out.1 = Raise (BadMessage 400)
  end.
Proof.
  intros Hne out. destruct (setUri entity newUriInfo) as [ok u] eqn:Hu.
  (* the request line *)
  pose (w0 := mkWorld (on_request (λ _, req_withUri u (req_setMethod method (req_setVersion version newHttpRequest)))
    (with_info (info_setVersion version newRespInfo) (newChannel handler))) s []).
  assert (H0 : onMessageBegin (F:=F) method entity version (mkWorld (newChannel handler) s []) =
    (if ok then Ok () else Raise (BadMessage 400), w0)).
  { unfold onMessageBegin, info_op, requireMutableInfo, requireNotSendingAlready, on_info, mbind, M_bind, gets, lift, modify, throw, mret, M_ret.
    cbn -[setUri str]. rewrite Hu. by destruct ok. }
  assert (Hout : out = if ok then on_events cfg transport (header_events headers ++ [MessageHeaderEnd]) w0
                       else (Raise (BadMessage 400), w0)).
  { subst out. cbn [on_events on_event]. unfold mbind, M_bind. rewrite H0. by destruct ok. }
  clearbody out. subst out. destruct ok; [|done].
  (* the fields *)
  rewrite on_events_app. unfold mbind, M_bind. clear H0. pose proof (on_headers_spec headers w0 Hne) as Hh.
  change (q_host (ch_request (w_channel w0))) with (@nil Z) in Hh.
  destruct (host_of [] headers) as [host|]; [|destruct (on_events cfg transport (header_events headers) w0) as [[[]|e] w1]; cbn in *; [done|by injection Hh as ->]].
  rewrite Hh. set (w1 := set_channel _ w0).
  assert (H1 : on_events cfg transport [MessageHeaderEnd] w1 = onMessageHeaderEnd cfg transport w1).
  { cbn [on_events on_event]. unfold mbind, M_bind. by destruct (onMessageHeaderEnd cfg transport w1) as [[[]|e] w2]. }
  rewrite H1. unfold onMessageHeaderEnd, mbind, M_bind, gets, ch_setState, modify, throw. cbn -[str hl_contains handleRequest].
  change (bool_decide (READING = HANDLING)) with false. cbn beta iota.
  change (q_headers (ch_request (w_channel w1))) with (field_of <$> headers).
  change (q_version (ch_request (w_channel w1))) with version.
  destruct (bool_decide (version = VERSION_1_1) && _); reflexivity.
Qed.
End arriving.

(** ** Examples

    Filters that pass their input on; a configuration without date and
    compressor; handlers and the requests they get. *)
Definition id_filter : FilterImpl unit :=
  {| filter_apply := λ f input out _, Ok (f, out ++ input); gzip_filter := λ _, () |}.
#[export] Existing Instance id_filter | 100.

Definition plain_config : Config := mkConfig None (str "0.11") (λ e, str "failed") 1024 None.

Definition then_ {F} (p : Prog F) : result unit → Prog F :=
  λ r, match r with Ok _ => p | Raise e => PThrow e end.

Definition hello : Prog unit :=
  PInfo (SetStatus 200) (then_ (PWriteRef (str "Hello, ") None (then_ (PWriteRef (str "World") None (then_ (PCompleted (then_ PDone))))))).

Definition failing : Prog unit :=
  PInfo (SetStatus 200) (then_ (PInfo (AddHeader (str "X") (str "1")) (then_ (PThrow IllegalStateError)))).

Definition host_header : HeaderFieldList := [mkField (str "Host") (str "x") false].

Definition hello_world : World unit (MockTransport unit) :=
  (mock_run plain_config hello VERSION_1_1 (str "GET") (str "/") host_header [] newMock).2.

Example hello_answered :
  let m := w_transport hello_world in
  mk_responseBody m = str "Hello, World" ∧ i_status (mk_responseInfo m) = 200 ∧ mk_isCompleted m = true.
Proof. by vm_compute. Qed.

Definition fresh_world (p : Prog unit) : World unit (MockTransport unit) := mkWorld (newChannel p) newMock [].
Definition handling_world (p : Prog unit) : World unit (MockTransport unit) :=
  set_channel (with_chState HANDLING (newChannel p)) (fresh_world p).

Lemma head_once_and_frozen_witness :
  let w := (run_prog plain_config mock_call hello (handling_world hello)).2 in
  ch_committed (w_channel w) = true ∧ keeps_rules w.
Proof.
  split; [vm_compute; reflexivity|].
  apply (head_once_and_frozen plain_config mock_call). apply reach_callback.
  apply (reach_transport _ _ (fresh_world hello)); [|apply reach_new].
  apply step_quiet, (step_state (fresh_world hello) HANDLING).
Defined.

(** A handler that throws, and one that has announced a body before. *)
Definition announcing : Prog unit := PInfo (SetContentLength 5) (then_ (PThrow IllegalStateError)).

Lemma failed_handler_answered_witness :
  (let w1 := (run_prog plain_config mock_call failing (handling_world failing)).2 in
   ∃ i, head_of i = (UNKNOWN, 500, str "failed", false, 0) ∧
    invoke_handler plain_config mock_call (handling_world failing) =
    (_ ← call mock_call (LHead i [] None); call mock_call LCompleted)
      (set_channel (with_info i (with_committed true (w_channel w1))) w1)) ∧
  (invoke_handler plain_config mock_call (handling_world announcing)).1 = Raise RuntimeError ∧
  w_log (invoke_handler plain_config mock_call (handling_world announcing)).2 = [].
Proof.
  split.
  - exact (failed_handler_answered plain_config mock_call (handling_world failing)
      (run_prog plain_config mock_call failing (handling_world failing)).2 IllegalStateError
      eq_refl eq_refl eq_refl eq_refl eq_refl eq_refl).
  - exact (failed_handler_answered plain_config mock_call (handling_world announcing)
      (run_prog plain_config mock_call announcing (handling_world announcing)).2 IllegalStateError
      eq_refl eq_refl eq_refl eq_refl eq_refl eq_refl).
Defined.

Lemma request_arrives_witness :
  on_events plain_config mock_call
    (RequestBegin (str "GET") (str "/a") VERSION_1_1 :: header_events [(str "Host", str "x"); (str "Accept", str "*")] ++ [MessageHeaderEnd])
    (fresh_world hello) =
  handleRequest plain_config mock_call (mkWorld
    (on_request (λ _, mkHttpRequest VERSION_1_1 (str "GET") GET (mkUriInfo (str "/a") (str "/a") [] 1) 0
       [mkField (str "Host") (str "x") false; mkField (str "Accept") (str "*") false] None None 0 (str "x") false false [] [])
     (with_info (info_setVersion VERSION_1_1 newRespInfo) (with_chState HANDLING (newChannel hello)))) newMock []).
Proof.
  exact (request_arrives plain_config mock_call hello newMock (str "GET") (str "/a") VERSION_1_1
    [(str "Host", str "x"); (str "Accept", str "*")] ltac:(by repeat constructor)).
Defined.

(** ** Where the channel does something else *)

(** With an output filter and nothing written, [completed] sends what the
    filters hold, and no head. *)
Lemma flushed_without_head :
  let p := PInfo (SetStatus 200) (then_ (PInfo (AddOutputFilter ()) (then_ (PCompleted (then_ PDone))))) in
  let '(r, w) := invoke_handler plain_config mock_call (handling_world p) in
  r = Ok () ∧ w_log w = [LCall (LFlush []); LCall LCompleted].
Proof. by vm_compute. Qed.

(** An exception after the commit is not answered either: the status cannot be
    changed any more, and that is the exception that leaves the channel. *)
Lemma error_after_commit :
  let p := PInfo (SetStatus 200) (then_ (PWriteRef (str "x") None (then_ (PThrow RuntimeError)))) in
  let '(r, w) := invoke_handler plain_config mock_call (handling_world p) in
  r = Raise IllegalStateError ∧ length (w_log w) = 1%nat.
Proof. by vm_compute. Qed.

(** The compressor as a post-process hook: it declares the encoding and adds
    its filter when the first chunk has passed the filters already, so that the
    chunk is sent as it is. *)
Definition marking_filter : FilterImpl Z :=
  {| filter_apply := λ f input out _, Ok (f, out ++ ((λ b, b + f) <$> input)); gzip_filter := λ _, 1 |}.

Definition text_compressor : Compressor := mkCompressor 0 1000 9 [str "text/plain"].

Definition injected : Prog Z :=
  PPostProcess (HookCompress text_compressor)
    (PInfo (SetStatus 200) (then_ (PInfo (AddHeader (str "Content-Type") (str "text/plain"))
      (then_ (PWriteRef [10] None (then_ (PWriteRef [20] None (then_ PDone)))))))).

Lemma first_chunk_unfiltered :
  let q := req_setHeaders [mkField (str "Accept-Encoding") (str "gzip") false] in
  let w := mkWorld (on_request q (with_chState HANDLING (newChannel injected))) (newMock (F:=Z)) [] in
  let w' := (invoke_handler (H:=marking_filter) plain_config mock_call w).2 in
  hl_get (str "Content-Encoding") (i_headers (mk_responseInfo (w_transport w'))) = str "gzip" ∧
  mk_responseBody (w_transport w') = [10; 21].
Proof. by vm_compute. Qed.

(** After a reset the length of the request's content counts from the unknown
    length, [2 ^ 64 - 1]: it is one too small from the second request on. *)
Lemma recycled_length_off_by_one {F S} `{FilterImpl F} (w : World F S) chunk :
  0 < Z.of_nat (length chunk) < 2 ^ 64 →
  let w' := (onMessageContent chunk (ch_reset w).2).2 in
  q_contentLength (ch_request (w_channel w')) = Z.of_nat (length chunk) - 1.
Proof.
  intros Hl. unfold onMessageContent, ch_reset, mbind, M_bind, gets, modify, record. cbn -[Z.add UnknownContentLength].
  assert (Hu : u64 (UnknownContentLength + Z.of_nat (length chunk)) = Z.of_nat (length chunk) - 1).
  { unfold unsigned, UnknownContentLength. symmetry. apply (Z.mod_unique _ _ 1); lia. }
  destruct (ch_consumes (w_channel w)); cbn -[Z.add UnknownContentLength]; exact Hu.
Qed.
