(* ===== verification/HttpFile.v ===== *)
(** * Static files

    [src/xzero/http/HttpRangeDef.h] and [HttpFileHandler.cc]: a file is answered
    as a whole, as one range of its bytes or as several, subject to the
    conditions of the request. The handler works on the response of
    [HttpChannel].

    A file is what the handler asks of it: its attributes, the result of opening
    it and its bytes. The parser of dates and the generator of boundaries are
    parameters. *)
From Stdlib Require Import String.
From S2P Require Import Prelude HeaderFieldList Http1Parser Http1Generator RequestUri HttpMessage HttpChannel.

(** ** [HttpRangeDef] *)

(** [npos], also what [strtoul] returns when the number is too large. *)
Definition npos : Z := 2 ^ 64 - 1.

(** [strtoul]: white space, a sign, digits; without a digit nothing is read. The
    number and the characters behind it. *)
Fixpoint take_digits (s : bytes) : bytes * bytes :=
  match s with
  | c :: t => if isdigit c then let '(ds, rest) := take_digits t in (c :: ds, rest) else ([], s)
  | [] => ([], [])
  end.
Definition digits_value (ds : bytes) : Z := foldl (λ v c, v * 10 + (c - 48)) 0 ds.
Definition strtoul (s : bytes) : Z * bytes :=
  let '(negative, t) := match skip_spaces s with
                        | 45 :: t => (true, t)
                        | 43 :: t => (false, t)
                        | t => (false, t)
                        end in
  match take_digits t with
  | ([], _) => (0, s)
  | (ds, rest) =>
      let v := digits_value ds in
      (if npos <? v then npos else if (negative : bool) then u64 (- v) else v, rest)
  end.

(** What follows the specification is a delimiter of the tokenizer or the end of
    the text, neither of which is a dash or part of a number. *)
Definition parseRangeSpec (spec : bytes) : option (Z * Z) :=
  match spec with
  | [] => None
  | c :: _ =>
      let '(a, rest) := if isdigit c then strtoul spec else (npos, spec) in
      match rest with
      | 45 :: [] => Some (a, npos)
      | 45 :: rest => match strtoul rest with (b, []) => Some (a, b) | _ => None end
      | _ => None
      end
  end.

Fixpoint parseRangeSpecs (specs : list bytes) (ranges : list (Z * Z)) : list (Z * Z) * bool :=
  match specs with
  | [] => (ranges, true)
  | spec :: specs => match parseRangeSpec spec with
                     | Some r => parseRangeSpecs specs (ranges ++ [r])
                     | None => (ranges, false)
                     end
  end.

(** One step of a tokenizer: [end()] and [nextToken()] over the rest of the
    input, keeping the last token. *)
Definition nextToken (delims : bytes) (token s : bytes) : bytes * bytes :=
  match consumeDelimiter delims s with [] => (token, []) | s => tok_word delims s end.

(** The loop of [parse]: [token] is what [spec.token()] returns. Each round takes
    at least one token. *)
Fixpoint range_loop (fuel : nat) (token s : bytes) (ranges : list (Z * Z)) : list (Z * Z) * bool :=
  match consumeDelimiter (str "=") s, fuel with
  | [], _ | _, O => (ranges, true)
  | s, S fuel =>
      if bool_decide (token = str "bytes") then
        let '(token, s) := nextToken (str "=") token s in
        match parseRangeSpecs (tokenize (str ",") token) ranges with
        | (ranges, true) => let '(token, s) := nextToken (str "=") token s in range_loop fuel token s ranges
        | out => out
        end
      else let '(token, s) := nextToken (str "=") token s in range_loop fuel token s ranges
  end.

Definition range_parse (value : bytes) : list (Z * Z) * bool := range_loop (length value) [] value [].

(** [str()]. *)
Definition range_item (r : Z * Z) : bytes :=
  (if r.1 =? npos then [] else decimal r.1) ++ [45] ++ (if r.2 =? npos then [] else decimal r.2).
Fixpoint range_items (rs : list (Z * Z)) : bytes :=
  match rs with
  | [] => []
  | [r] => range_item r
  | r :: rs => range_item r ++ str ", " ++ range_items rs
  end.

(** ** [HttpFileHandler] *)

Record File := mkFile {
  fl_isRegular : bool;
  fl_errorCode : Z;
  fl_etag : bytes;
  fl_lastModified : bytes;
  fl_mtime : Z;
  fl_mimetype : bytes;
  (** [errno] when opening the file fails *)
  fl_openError : option Z;
  fl_data : bytes;
}.
Definition fl_size (f : File) : Z := Z.of_nat (length (fl_data f)).

(** [FileView(fd, offset, length, ...)]: reading ends with the file. *)
Definition file_view (f : File) (offset size : Z) : FileView :=
  mkFileView size (take (Z.to_nat size) (drop (Z.to_nat offset) (fl_data f))).

Definition ENOENT : Z := 2.
Definition EPERM : Z := 1.
Definition EACCES : Z := 13.

Definition makeOffsets (p : Z * Z) (actualSize : Z) : Z * Z :=
  if p.1 =? npos then (u64 (actualSize - p.2), u64 (actualSize - 1))
  else if (p.2 =? npos) && (actualSize <? p.2) then (p.1, u64 (actualSize - 1))
  else p.

Definition partLength (o : Z * Z) : Z := u64 (1 + o.2 - o.1).

Fixpoint numdigits_loop (fuel : nat) (number : Z) : Z :=
  match fuel with
  | O => 0
  | S fuel => 1 + (if number / 10 =? 0 then 0 else numdigits_loop fuel (number / 10))
  end.
(** Twenty digits are enough for 64 bits. *)
Definition numdigits (number : Z) : Z := numdigits_loop 20 number.

Section handler.
Context {F S : Type} `{FilterImpl F} (cfg : Config) (transport : Call F → M F S unit).
(** [UnixTime::parseString] with the format of HTTP dates. *)
Context (parse_time : bytes → option Z).
Context (generateBoundaryID : bytes).

(** [.get()] of an option without a value throws. *)
Definition the_time (value : bytes) : result Z :=
  match parse_time value with Some t => Ok t | None => Raise RuntimeError end.

(** The status, or [0] for [HttpStatus::Undefined]. *)
Definition handleClientCache (f : File) (h : HeaderFieldList) : result Z :=
  let noneMatch := hl_get (str "If-None-Match") h in
  if negb (bool_decide (noneMatch = [])) && bool_decide (noneMatch = fl_etag f) then Ok 304 else
  let modifiedSince := hl_get (str "If-Modified-Since") h in
  notModified ← (if bool_decide (modifiedSince = []) then Ok false
                 else dt ← the_time modifiedSince; Ok (negb (dt <? fl_mtime f)));
  if (notModified : bool) then Ok 304 else
  let ifMatch := hl_get (str "If-Match") h in
  if negb (bool_decide (ifMatch = [])) && negb (bool_decide (ifMatch = str "*")) && negb (bool_decide (ifMatch = fl_etag f))
  then Ok 412 else
  let unmodifiedSince := hl_get (str "If-Unmodified-Since") h in
  modified ← (if bool_decide (unmodifiedSince = []) then Ok false
              else dt ← the_time unmodifiedSince; Ok (negb (fl_mtime f <=? dt)));
  Ok (if (modified : bool) then 412 else 0).

(** The head of a part, and its length as it is computed beforehand. *)
Definition part_head (f : File) (boundary : bytes) (o : Z * Z) : bytes :=
  CRLF ++ str "--" ++ boundary ++ CRLF ++ str "Content-Type: " ++ fl_mimetype f ++ CRLF ++
  str "Content-Range: bytes " ++ decimal o.1 ++ str "-" ++ decimal o.2 ++ str "/" ++ decimal (fl_size f) ++ CRLF ++ CRLF.
Definition headerLen (f : File) (boundary : bytes) (o : Z * Z) : Z :=
  4 + Z.of_nat (length boundary) + 16 + Z.of_nat (length (fl_mimetype f)) + 23 + numdigits o.1 + 1 + numdigits o.2 + 1 +
  numdigits (fl_size f) + 4.
Definition trailer (boundary : bytes) : bytes := CRLF ++ str "--" ++ boundary ++ str "--" ++ CRLF.

Fixpoint contentLength (f : File) (boundary : bytes) (ranges : list (Z * Z)) (sum : Z) : Z :=
  match ranges with
  | [] => u64 (sum + (4 + Z.of_nat (length boundary) + 4))
  | r :: ranges =>
      let o := makeOffsets r (fl_size f) in
      contentLength f boundary ranges (u64 (sum + (headerLen f boundary o + partLength o)))
  end.

(** The loop that writes the parts; [false] when it ended the response early. *)
Fixpoint write_parts (f : File) (isHeadReq : bool) (boundary : bytes) (ranges : list (Z * Z)) : M F S bool :=
  match ranges with
  | [] => mret true
  | r :: ranges =>
      let o := makeOffsets r (fl_size f) in
      if o.2 <? o.1 then
        _ ← info_op (SetStatus 206);
        _ ← ch_completed cfg transport;
        mret false
      else
        _ ← (if isHeadReq then mret ()
             else _ ← write_buffer cfg transport (part_head f boundary o) None;
                  write_file cfg transport (file_view f o.1 (partLength o)) None);
        write_parts f isHeadReq boundary ranges
  end.

Definition handleMultipart (f : File) (isHeadReq : bool) (ranges : list (Z * Z)) : M F S bool :=
  let boundary := generateBoundaryID in
  _ ← info_op (SetContentLength (contentLength f boundary ranges 0));
  _ ← info_op (AddHeader (str "Content-Type") (str "multipart/byteranges; boundary=" ++ boundary));
  more ← write_parts f isHeadReq boundary ranges;
  if (more : bool) then
    _ ← write_buffer cfg transport (trailer boundary) None;
    _ ← ch_completed cfg transport;
    mret true
  else mret true.

Definition contentRange (f : File) (o : Z * Z) : bytes :=
  str "bytes " ++ decimal o.1 ++ str "-" ++ decimal o.2 ++ str "/" ++ decimal (fl_size f).

(** [sendError] with the default message, which is empty. *)
Definition handleSinglepart (f : File) (isHeadReq : bool) (range : Z * Z) : M F S bool :=
  let o := makeOffsets range (fl_size f) in
  if o.2 <? o.1 then _ ← sendError cfg transport 416 []; mret true else
  _ ← info_op (AddHeader (str "Content-Type") (fl_mimetype f));
  _ ← info_op (SetContentLength (partLength o));
  _ ← info_op (AddHeader (str "Content-Range") (contentRange f o));
  _ ← (if isHeadReq then mret () else write_file cfg transport (file_view f o.1 (partLength o)) None);
  _ ← ch_completed cfg transport;
  mret true.

Definition handleRangeRequest (f : File) (isHeadReq : bool) (h : HeaderFieldList) : M F S bool :=
  let range_value := hl_get (str "Range") h in
  if bool_decide (range_value = []) then mret false else
  let '(ranges, ok) := range_parse range_value in
  if negb ok then mret false else
  let ifRange := hl_get (str "If-Range") h in
  if negb (bool_decide (ifRange = [])) && negb (bool_decide (ifRange = fl_etag f)) &&
     negb (bool_decide (ifRange = fl_lastModified f)) then mret false else
  _ ← info_op (SetStatus 206);
  match ranges with
  | [] => throw UndefinedBehaviour
  | [range] => handleSinglepart f isHeadReq range
  | _ => handleMultipart f isHeadReq ranges
  end.

(** [handle]: the status; for [304], [206] and [200] the response has been
    completed. *)
Definition file_handle (f : File) : M F S Z :=
  if negb (fl_isRegular f) then mret 404 else
  q ← gets ch_request;
  status ← lift (handleClientCache f (q_headers q));
  if status =? 304 then
    _ ← info_op (SetStatus 304);
    _ ← ch_completed cfg transport;
    mret 304
  else if status =? 412 then mret 412
  else if negb (status =? 0) then throw InternalError
  else if negb (fl_errorCode f =? 0) then
    (if fl_errorCode f =? ENOENT then mret 404
     else if (fl_errorCode f =? EACCES) || (fl_errorCode f =? EPERM) then mret 403
     else throw RuntimeError)
  else
    let get := bool_decide (q_method q = GET) in
    if get && bool_decide (is_Some (fl_openError f)) then
      match fl_openError f with
      | Some e => if (e =? EPERM) || (e =? EACCES) then mret 403 else throw RuntimeError
      | None => mret 403
      end
    else if negb get && negb (bool_decide (q_method q = HEAD)) then mret 405
    else
      _ ← info_op (AddHeader (str "Allow") (str "GET, HEAD"));
      _ ← info_op (AddHeader (str "Last-Modified") (fl_lastModified f));
      _ ← info_op (AddHeader (str "ETag") (fl_etag f));
      partial ← handleRangeRequest f (negb get) (q_headers q);
      if (partial : bool) then mret 206 else
      i ← gets ch_info;
      _ ← (if isError (i_status i) then mret () else info_op (SetStatus 200));
      _ ← info_op (AddHeader (str "Accept-Ranges") (str "bytes"));
      _ ← info_op (AddHeader (str "Content-Type") (fl_mimetype f));
      _ ← info_op (SetContentLength (fl_size f));
      _ ← (if get then write_file cfg transport (file_view f 0 (fl_size f)) None else mret ());
      _ ← ch_completed cfg transport;
      mret 200.
End handler.

(** ** What is to be sent

    The ranges the request asks for, if it does; where a part is in the file. *)
Definition requested (f : File) (h : HeaderFieldList) : option (list (Z * Z)) :=
  let value := hl_get (str "Range") h in
  let ifRange := hl_get (str "If-Range") h in
  if bool_decide (value = []) || negb (range_parse value).2 ||
     negb (bool_decide (ifRange = []) || bool_decide (ifRange = fl_etag f) || bool_decide (ifRange = fl_lastModified f))
  then None else Some (range_parse value).1.

Definition slice (f : File) (o : Z * Z) : bytes :=
  take (Z.to_nat (o.2 - o.1 + 1)) (drop (Z.to_nat o.1) (fl_data f)).

(** A range that lies within the file. *)
Definition satisfiable (f : File) (r : Z * Z) : Prop :=
  let o := makeOffsets r (fl_size f) in 0 ≤ o.1 ≤ o.2 ∧ o.2 < fl_size f.

Definition part (f : File) (boundary : bytes) (r : Z * Z) : bytes :=
  let o := makeOffsets r (fl_size f) in part_head f boundary o ++ slice f o.

Definition expected (f : File) (boundary : bytes) (ranges : option (list (Z * Z))) : Z * bytes :=
  match ranges with
  | None => (200, fl_data f)
  | Some [r] => (206, slice f (makeOffsets r (fl_size f)))
  | Some rs => (206, concat (part f boundary <$> rs) ++ trailer boundary)
  end.

(** ** Lengths *)

Lemma numdigits_loop_print fuel : ∀ n, 0 ≤ n < 10 ^ Z.of_nat fuel → (0 < fuel)%nat →
  ∀ fuel', (fuel ≤ fuel')%nat → numdigits_loop fuel n = Z.of_nat (length (print_number fuel' 10 n)).
Proof.
  induction fuel as [|fuel IH]; intros n Hn Hf fuel' Hle; [lia|]. destruct fuel' as [|fuel']; [lia|].
  cbn [numdigits_loop print_number]. destruct (Z.ltb_spec n 10).
  - rewrite Z.div_small by lia. done.
  - assert (1 ≤ n / 10) by (apply Z.div_le_lower_bound; lia). rewrite (proj2 (Z.eqb_neq _ _)) by lia.
    rewrite length_app. cbn [length]. rewrite Nat2Z.inj_succ, Z.pow_succ_r in Hn by lia.
    assert (n / 10 < 10 ^ Z.of_nat fuel) by (apply Z.div_lt_upper_bound; lia).
    destruct fuel as [|fuel]; [cbn in *; lia|].
    rewrite (IH (n / 10)) with (fuel' := fuel') by lia. lia.
Qed.
Lemma numdigits_decimal n : 0 ≤ n < 2 ^ 64 → numdigits n = Z.of_nat (length (decimal n)).
Proof. intros Hn. apply numdigits_loop_print; lia. Qed.

Lemma headerLen_length f boundary o :
  0 ≤ o.1 < 2 ^ 64 → 0 ≤ o.2 < 2 ^ 64 → fl_size f < 2 ^ 64 →
  headerLen f boundary o = Z.of_nat (length (part_head f boundary o)).
Proof.
  intros H1 H2 H3. unfold headerLen, part_head. rewrite !numdigits_decimal by (unfold fl_size in *; lia).
  rewrite !length_app. cbn. lia.
Qed.
Lemma slice_length f o : 0 ≤ o.1 ≤ o.2 → o.2 < fl_size f → Z.of_nat (length (slice f o)) = o.2 - o.1 + 1.
Proof. intros H1 H2. unfold slice, fl_size in *. rewrite length_take, length_drop. lia. Qed.
Lemma trailer_length boundary : Z.of_nat (length (trailer boundary)) = 4 + Z.of_nat (length boundary) + 4.
Proof. unfold trailer. rewrite !length_app. cbn. lia. Qed.

Section lengths.
Context (f : File) (boundary : bytes) (Hsize : fl_size f < 2 ^ 64).

Lemma partLength_slice o : 0 ≤ o.1 ≤ o.2 → o.2 < fl_size f → partLength o = Z.of_nat (length (slice f o)).
Proof. intros H1 H2. rewrite slice_length by done. unfold partLength, u64. rewrite Z.mod_small; lia. Qed.

Lemma part_length r : satisfiable f r →
  let o := makeOffsets r (fl_size f) in headerLen f boundary o + partLength o = Z.of_nat (length (part f boundary r)).
Proof.
  intros [H1 H2] o. fold o in H1, H2. rewrite partLength_slice by done.
  rewrite headerLen_length by lia. unfold part. fold o. rewrite length_app. lia.
Qed.

(** The length computed beforehand is that of the body, modulo 2^64. *)
Lemma contentLength_body ranges sum : Forall (satisfiable f) ranges →
  contentLength f boundary ranges sum =
  u64 (sum + Z.of_nat (length (concat (part f boundary <$> ranges) ++ trailer boundary))).
Proof.
  intros Hr. revert sum. induction Hr as [|r ranges Hr _ IH]; intros sum; cbn [contentLength fmap list_fmap concat].
  - cbn [app]. by rewrite trailer_length.
  - rewrite part_length, IH by done. unfold u64. rewrite Zplus_mod_idemp_l. f_equal. rewrite !length_app. lia.
Qed.
End lengths.
