(* ===== verification/HttpFileServing.v ===== *)
(** * What the file handler serves

    Over the mock transport: a request for a whole file, for one range or for
    several is answered with exactly the bytes asked for, and the content length
    announced is the length of the body ([file_served]). *)
From Stdlib Require Import String.
From S2P Require Import Prelude HeaderFieldList Http1Parser Http1Generator RequestUri HttpMessage HttpChannel HttpChannelSafety HttpMock HttpFile.

Section serving.
Context {F : Type} `{FilterImpl F} (cfg : Config) (Hcomp : cfg_compressor cfg = None).
Abbreviation world := (World F (MockTransport F)).
Implicit Types (w : world) (i : RespInfo) (body : bytes).

(** A response nothing has been sent of, with this head; and one of which this
    much has been sent. *)
Record unsent w i : Prop := mk_unsent {
  un_committed : ch_committed (w_channel w) = false;
  un_state : ch_state (w_channel w) = HANDLING;
  un_filters : ch_filters (w_channel w) = [];
  un_hooks : ch_onPostProcess (w_channel w) = [];
  un_expect : q_expect100Continue (ch_request (w_channel w)) = false;
  un_actual : ch_actual (w_channel w) = 0;
  un_info : ch_info (w_channel w) = i;
}.
Record sending w i (old body : bytes) : Prop := mk_sending {
  se_committed : ch_committed (w_channel w) = true;
  se_state : ch_state (w_channel w) = HANDLING;
  se_filters : ch_filters (w_channel w) = [];
  se_actual : ch_actual (w_channel w) = Z.of_nat (length body);
  se_info : ch_info (w_channel w) = i;
  se_head : mk_responseInfo (w_transport w) = i;
  se_body : mk_responseBody (w_transport w) = old ++ body;
}.

(** The head that is sent: header fields have been added. *)
Definition completed_head i i' : Prop :=
  i_status i' = i_status i ∧ i_contentLength i' = i_contentLength i ∧ ∃ added, i_headers i' = i_headers i ++ added.

(** ** Steps *)

Definition simple_op (op : InfoOp F) : option (RespInfo → RespInfo) :=
  match op with
  | SetStatus code => Some (info_setStatus code)
  | SetContentLength size => Some (info_setContentLength size)
  | AddHeader name value =>
      match name with
      | [] => None
      | _ => if existsb (iequals_str name) connectionHeaderFields then None
             else Some (λ i, info_setHeaders (i_headers i ++ [mkField name value false]) i)
      end
  | _ => None
  end.

Lemma info_op_unsent op g w i : simple_op op = Some g → unsent w i →
  let w' := set_channel (with_info (g i) (w_channel w)) w in
  info_op op w = (Ok (), w') ∧ unsent w' (g i).
Proof.
  intros Hop [H1 H2 H3 H4 H5 H6 H7]. destruct w as [[] t l]. cbn in *; subst. cbn zeta. split; [|by split].
  unfold info_op, requireMutableInfo, requireNotSendingAlready, on_headers, on_info, mbind, M_bind, gets, modify, lift, mret, M_ret.
  destruct op; try discriminate; cbn -[existsb connectionHeaderFields] in *; simplify_eq; try done. destruct name as [|c name]; [done|]. unfold requireValidHeader.
  destruct (existsb _ connectionHeaderFields); [done|]. injection Hop as <-. reflexivity.
Qed.

Lemma before_more w i old body : sending w i old body → onBeforeSend cfg w = (Ok (), w).
Proof. intros [H1 H2 _ _ _ _ _]. unfold onBeforeSend, mbind, M_bind, gets. cbn. rewrite H2. cbn. by rewrite H1. Qed.

Definition body_length (b : bytes) : Z := Z.of_nat (length b).

Lemma actual_unsent w i n : unsent w i → 0 ≤ n < 2 ^ 64 →
  addActual n w = (Ok (), set_channel (with_actual n (w_channel w)) w).
Proof.
  intros [_ _ _ _ _ H6 _] Hn. unfold addActual, modify, set_channel. rewrite H6. unfold u64. by rewrite Z.mod_small.
Qed.
Lemma committed_unsent n w i : unsent w i → i_status i ≠ 0 →
  let w1 := set_channel (with_actual n (w_channel w)) w in
  onBeforeSend cfg w1 = (Ok (), w1) ∧ ch_filters (w_channel w1) = [] ∧ ch_committed (w_channel w1) = false ∧
  ∃ i', completed_head i i' ∧
    commitInline cfg mock_call w1 = (Ok i', set_channel (with_info i' (with_committed true (w_channel w1))) w1).
Proof.
  intros Hu Hs w1.
  destruct Hu as [H1 H2 H3 H4 H5 H6 H7].
  split; [|split; [done|split; [done|]]].
  - unfold onBeforeSend, mbind, M_bind, gets. cbn. rewrite H2. cbn. rewrite H1, Hcomp. done.
  - destruct (commit_suffix_spec (F:=F) (S:=MockTransport F) cfg (ch_request (w_channel w1)) w1) as (added & Hw). cbn zeta in Hw.
    exists (info_setHeaders (i_headers i ++ added) (info_setIsHead (bool_decide (q_method (ch_request (w_channel w1)) = HEAD)) i)).
    split; [split_and!; [done..|]; by exists added|]. rewrite commit_split.
    unfold commit_prefix, mbind, M_bind, gets, mret, M_ret. change (ch_info (w_channel w1)) with (ch_info (w_channel w)) in *.
    rewrite H7 in *. rewrite (proj2 (Z.eqb_neq _ _) Hs). change (ch_onPostProcess (w_channel w1)) with (ch_onPostProcess (w_channel w)).
    rewrite H4. cbn [run_hooks]. unfold mret, M_ret. change (q_expect100Continue (ch_request (w_channel w1))) with (q_expect100Continue (ch_request (w_channel w))).
    rewrite H5. exact Hw.
Qed.

Lemma first_buffer w i data : unsent w i → i_status i ≠ 0 → body_length data < 2 ^ 64 →
  ∃ i' w', write_buffer cfg mock_call data None w = (Ok (), w') ∧ completed_head i i' ∧
    sending w' i' (mk_responseBody (w_transport w)) data.
Proof.
  intros Hu Hs Hl. destruct (committed_unsent (body_length data) w i Hu Hs) as (Hb & Hf & Hc & i' & Hi' & Hi).
  unfold write_buffer, mbind, M_bind. fold (body_length data). rewrite (actual_unsent w i) by (done || (unfold body_length in *; lia)).
  unfold send_buffer, send_chunk, mbind, M_bind, gets, mret, M_ret. rewrite Hb, Hf, Hc. cbn [negb]. rewrite Hi.
  eexists i', _. split; [reflexivity|]. split; [done|]. by destruct Hu; split.
Qed.
Lemma first_file w i file data : unsent w i → i_status i ≠ 0 → body_length data < 2 ^ 64 → fileView_fill file = Ok data →
  ∃ i' w', write_file cfg mock_call file None w = (Ok (), w') ∧ completed_head i i' ∧
    sending w' i' (mk_responseBody (w_transport w)) data.
Proof.
  intros Hu Hs Hl Hfile. assert (Hsz : fv_size file = body_length data).
  { unfold fileView_fill in Hfile. destruct (Z.eqb_spec (Z.of_nat (length (fv_data file))) (fv_size file)); [|done]. by simplify_eq. }
  destruct (committed_unsent (body_length data) w i Hu Hs) as (Hb & Hf & Hc & i' & Hi' & Hi).
  unfold write_file, mbind, M_bind. rewrite Hsz, (actual_unsent w i) by (done || (unfold body_length in *; lia)).
  unfold send_file, mbind, M_bind, gets, mret, M_ret. rewrite Hb, Hf, Hc. cbn [negb]. rewrite Hi.
  unfold call, watched, thrown, mbind, M_bind, record, mock_call. cbn. rewrite Hfile.
  eexists i', _. split; [reflexivity|]. split; [done|]. destruct Hu; split; try done. cbn. by rewrite app_nil_r.
Qed.

(** Further chunks. *)
Lemma actual_sending w i old body n : sending w i old body → 0 ≤ n → body_length body + n < 2 ^ 64 →
  addActual n w = (Ok (), set_channel (with_actual (body_length body + n) (w_channel w)) w).
Proof.
  intros [_ _ _ H4 _ _ _] Hn Hlt. unfold addActual, modify, set_channel. rewrite H4. fold (body_length body). unfold u64.
  rewrite Z.mod_small; [done|]. unfold body_length in *. lia.
Qed.
Lemma more_buffer w i old body data : sending w i old body → body_length (body ++ data) < 2 ^ 64 →
  ∃ w', write_buffer cfg mock_call data None w = (Ok (), w') ∧ sending w' i old (body ++ data).
Proof.
  unfold body_length. rewrite length_app, Nat2Z.inj_add. fold (body_length body) (body_length data). intros Hs Hlt.
  unfold write_buffer, mbind, M_bind. fold (body_length data). rewrite (actual_sending w i old body) by (done || (unfold body_length in *; lia)).
  destruct Hs as [H1 H2 H3 H4 H5 H6 H7].
  unfold send_buffer, send_chunk, onBeforeSend, mbind, M_bind, gets, mret, M_ret. cbn. rewrite H2. cbn. rewrite H1. cbn. rewrite H3. cbn. rewrite H1.
  eexists. split; [reflexivity|]. split; try done; cbn.
  - rewrite length_app, Nat2Z.inj_add. done.
  - rewrite H7. by rewrite app_assoc.
Qed.
Lemma more_file w i old body file data : sending w i old body → body_length (body ++ data) < 2 ^ 64 → fileView_fill file = Ok data →
  ∃ w', write_file cfg mock_call file None w = (Ok (), w') ∧ sending w' i old (body ++ data).
Proof.
  unfold body_length. rewrite length_app, Nat2Z.inj_add. fold (body_length body) (body_length data). intros Hs Hlt Hfile.
  assert (Hsz : fv_size file = body_length data).
  { unfold fileView_fill in Hfile. destruct (Z.eqb_spec (Z.of_nat (length (fv_data file))) (fv_size file)); [|done]. by simplify_eq. }
  unfold write_file, mbind, M_bind. rewrite Hsz, (actual_sending w i old body) by (done || (unfold body_length in *; lia)).
  destruct Hs as [H1 H2 H3 H4 H5 H6 H7].
  unfold send_file, onBeforeSend, mbind, M_bind, gets, mret, M_ret. cbn. rewrite H2. cbn. rewrite H1. cbn. rewrite H3. cbn. rewrite H1. cbn.
  unfold call, watched, thrown, mbind, M_bind, record, mock_call. cbn. rewrite Hfile.
  eexists. split; [reflexivity|]. split; try done; cbn.
  - rewrite length_app, Nat2Z.inj_add. done.
  - rewrite H7. by rewrite app_assoc.
Qed.

(** The end of a response that has all its bytes. *)
Lemma completed_sending w i old body :
  sending w i old body → i_status i ≠ 444 → i_contentLength i = body_length body →
  ∃ w', ch_completed cfg mock_call w = (Ok (), w') ∧ mk_isCompleted (w_transport w') = true ∧
    mk_responseBody (w_transport w') = old ++ body ∧ mk_responseInfo (w_transport w') = i.
Proof.
  intros [H1 H2 H3 H4 H5 H6 H7] Hs Hl. unfold ch_completed, mbind, M_bind, gets, mret, M_ret. cbn.
  rewrite H5, (proj2 (Z.eqb_neq _ _) Hs), H4, Hl. unfold body_length. rewrite Z.ltb_irrefl, andb_false_r. cbn. rewrite H2.
  rewrite bool_decide_eq_true_2 by done. cbn [negb]. rewrite H3, H1. cbn.
  eexists. split; [reflexivity|]. split; [done|]. split; [done|]. cbn. rewrite H5, H6. by destruct i.
Qed.

(** ** The parts of a file *)

Context (f : File) (Hsize : fl_size f < 2 ^ 64).

Lemma fill_slice o : 0 ≤ o.1 ≤ o.2 → o.2 < fl_size f → fileView_fill (file_view f o.1 (partLength o)) = Ok (slice f o).
Proof.
  intros H1 H2. assert (Hp : partLength o = o.2 - o.1 + 1).
  { unfold partLength, u64. rewrite Z.mod_small by lia. lia. }
  unfold fileView_fill, file_view. cbn [fv_size fv_data]. rewrite Hp. change (take _ (drop _ _)) with (slice f o).
  by rewrite slice_length, Z.eqb_refl.
Qed.
Lemma fill_whole : fileView_fill (file_view f 0 (fl_size f)) = Ok (fl_data f).
Proof.
  unfold fileView_fill, file_view, fl_size. cbn [fv_size fv_data drop]. rewrite Nat2Z.id, firstn_all, Z.eqb_refl. done.
Qed.

Lemma blen_le a b : body_length a ≤ body_length (a ++ b).
Proof. unfold body_length. rewrite length_app. lia. Qed.

(** The parts that follow the first. *)
Lemma write_parts_more boundary ranges : Forall (satisfiable f) ranges → ∀ w i old body,
  sending w i old body → body_length (body ++ concat (part f boundary <$> ranges)) < 2 ^ 64 →
  ∃ w', write_parts cfg mock_call f false boundary ranges w = (Ok true, w') ∧
    sending w' i old (body ++ concat (part f boundary <$> ranges)).
Proof.
  induction 1 as [|r ranges [Hr1 Hr2] _ IH]; intros w i old body Hs Hl; cbn [write_parts fmap list_fmap concat] in *.
  { exists w. by rewrite app_nil_r. }
  set (o := makeOffsets r (fl_size f)) in *. rewrite (proj2 (Z.ltb_ge _ _)) by lia.
  assert (Hpart : part f boundary r = part_head f boundary o ++ slice f o) by done. rewrite Hpart in *.
  rewrite <- !app_assoc in *. rewrite !(app_assoc body) in *.
  destruct (more_buffer w i old body (part_head f boundary o) Hs) as (w1 & Hw1 & Hs1).
  { eapply Z.le_lt_trans; [|exact Hl]. apply blen_le. }
  destruct (more_file w1 i old _ (file_view f o.1 (partLength o)) (slice f o) Hs1) as (w2 & Hw2 & Hs2).
  { eapply Z.le_lt_trans; [|exact Hl]. rewrite app_assoc. apply blen_le. }
  { by apply fill_slice. }
  unfold mbind, M_bind. rewrite Hw1, Hw2. rewrite (app_assoc _ (slice f o)) in *. by apply IH.
Qed.

(** All parts, the first of them with the head. *)
Lemma write_parts_all boundary r ranges w i :
  Forall (satisfiable f) (r :: ranges) → unsent w i → i_status i ≠ 0 →
  body_length (concat (part f boundary <$> r :: ranges)) < 2 ^ 64 →
  ∃ i' w', write_parts cfg mock_call f false boundary (r :: ranges) w = (Ok true, w') ∧ completed_head i i' ∧
    sending w' i' (mk_responseBody (w_transport w)) (concat (part f boundary <$> r :: ranges)).
Proof.
  intros Hall Hu Hst Hl. inversion_clear Hall as [|? ? [Hr1 Hr2] Hrs]. cbn [write_parts fmap list_fmap concat] in *.
  set (o := makeOffsets r (fl_size f)) in *. rewrite (proj2 (Z.ltb_ge _ _)) by lia.
  assert (Hpart : part f boundary r = part_head f boundary o ++ slice f o) by done. rewrite Hpart in *.
  destruct (first_buffer w i (part_head f boundary o) Hu Hst) as (i' & w1 & Hw1 & Hi' & Hs1).
  { eapply Z.le_lt_trans; [|exact Hl]. rewrite <- app_assoc. apply blen_le. }
  destruct (more_file w1 i' _ _ (file_view f o.1 (partLength o)) (slice f o) Hs1) as (w2 & Hw2 & Hs2).
  { eapply Z.le_lt_trans; [|exact Hl]. apply blen_le. }
  { by apply fill_slice. }
  destruct (write_parts_more boundary ranges Hrs w2 i' _ _ Hs2 Hl) as (w3 & Hw3 & Hs3).
  exists i', w3. split; [|done]. unfold mbind, M_bind. rewrite Hw1, Hw2. exact Hw3.
Qed.

(** ** Whole responses *)

Definition answered_with w w' (status : Z) body : Prop :=
  let m := w_transport w' in
  mk_isCompleted m = true ∧ mk_responseBody m = mk_responseBody (w_transport w) ++ body ∧
  i_status (mk_responseInfo m) = status ∧ i_contentLength (mk_responseInfo m) = body_length body.

Lemma served_outside w v w' status body : w_transport v = w_transport w → answered_with v w' status body → answered_with w w' status body.
Proof. unfold answered_with. by intros ->. Qed.

Lemma finish_served w0 w i i' body status : i_status i = status → i_contentLength i = body_length body → status ≠ 444 →
  completed_head i i' → sending w i' (mk_responseBody (w_transport w0)) body →
  ∃ w', ch_completed cfg mock_call w = (Ok (), w') ∧ answered_with w0 w' status body ∧ mk_responseInfo (w_transport w') = i'.
Proof.
  intros Hs Hl Hne (H1 & H2 & _) Hsend. destruct (completed_sending w i' _ body Hsend) as (w' & Hw & Hc & Hb & Hi); [congruence..|].
  exists w'. split_and!; [done|split_and!; congruence|done].
Qed.

(** An operation on the head, and what follows it. *)
Definition same_outside w w' : Prop := w_transport w' = w_transport w ∧ ch_request (w_channel w') = ch_request (w_channel w).

Lemma op_then {A} op g w i (k : unit → M F (MockTransport F) A) : simple_op op = Some g → unsent w i →
  ∃ w', (info_op op ≫= k) w = k () w' ∧ unsent w' (g i) ∧ same_outside w w'.
Proof.
  intros Hg Hu. destruct (info_op_unsent op g w i Hg Hu) as [He Hu1]. eexists. split; [|by split].
  unfold mbind, M_bind. by rewrite He.
Qed.
Ltac op_step := match goal with
  | Hu : unsent ?w ?i |- context [(info_op ?op ≫= ?k) ?w] =>
      let w' := fresh "w" in let He := fresh "He" in let Hu' := fresh "Hu" in
      destruct (op_then op _ w i k eq_refl Hu) as (w' & He & Hu' & ? & ?); rewrite He; clear He Hu
  end.

Lemma single_served w i r : satisfiable f r → unsent w i → i_status i = 206 →
  ∃ w', handleSinglepart cfg mock_call f false r w = (Ok true, w') ∧
    answered_with w w' 206 (slice f (makeOffsets r (fl_size f))) ∧
    mkField (str "Content-Range") (contentRange f (makeOffsets r (fl_size f))) false ∈ i_headers (mk_responseInfo (w_transport w')).
Proof.
  intros [Hr1 Hr2] Hu Hst. unfold handleSinglepart. set (o := makeOffsets r (fl_size f)) in *.
  rewrite (proj2 (Z.ltb_ge _ _)) by lia. op_step. op_step. op_step.
  match goal with Hu : unsent ?w1 ?x |- _ => set (i1 := x) in Hu; rename Hu into Hu1; rename w1 into v end.
  assert (Hp : partLength o = body_length (slice f o)) by (by apply partLength_slice).
  destruct (first_file v i1 (file_view f o.1 (partLength o)) (slice f o) Hu1) as (i' & w4 & Hw4 & Hi' & Hs4);
    [unfold i1; cbn; lia|unfold body_length; rewrite slice_length by done; unfold fl_size in *; lia|by apply fill_slice|].
  assert (Ht : w_transport v = w_transport w) by congruence. rewrite Ht in Hs4.
  destruct (finish_served w w4 i1 i' _ 206 Hst Hp ltac:(done) Hi' Hs4) as (w5 & Hw5 & Hserved & Hhead).
  exists w5. split_and!; [|done|].
  - unfold mbind, M_bind. by rewrite Hw4, Hw5.
  - rewrite Hhead. destruct Hi' as (_ & _ & added & ->). unfold i1. cbn.
    apply elem_of_app. left. apply elem_of_app. right. by left.
Qed.

(** A range whose first position is behind its last is refused. *)
Lemma single_refused w i r :
  let o := makeOffsets r (fl_size f) in
  o.2 < o.1 → unsent w i → i_contentLength i = UnknownContentLength →
  q_method (ch_request (w_channel w)) = GET →
  ∃ w', handleSinglepart cfg mock_call f false r w = (Ok true, w') ∧ answered_with w w' 416 [].
Proof.
  intros o Ho [H1 H2 H3 H4 H5 H6 H7] Hl Hget. unfold handleSinglepart. fold o. rewrite (proj2 (Z.ltb_lt _ _)) by done.
  unfold mbind at 1, M_bind at 1. rewrite sendError_empty by done.
  unfold body_missing, error_info, failed_info, info_hasContentLength. rewrite H7. cbn [i_contentLength info_setReason info_setStatus].
  rewrite Hl, Z.eqb_refl, andb_false_r. cbn [andb]. rewrite Hget, bool_decide_eq_false_2 by done. cbn [negb andb].
  match goal with |- context [set_channel (with_info ?x _) w] => set (i0 := x); set (w2 := set_channel (with_info i0 (w_channel w)) w) end.
  destruct (commit_plain cfg mock_call [] None w2) as (h & Hw); [done..|].
  unfold mbind, M_bind. rewrite Hw. eexists. split; [reflexivity|].
  unfold answered_with, w2. cbn. by rewrite app_nil_r.
Qed.

(** A range that begins in the file and ends behind it: the head goes out and
    reading the file fails. *)
Lemma single_beyond w i r :
  let o := makeOffsets r (fl_size f) in
  0 ≤ o.1 ≤ o.2 → fl_size f ≤ o.2 < npos → unsent w i → i_status i = 206 →
  let out := handleSinglepart cfg mock_call f false r w in
  out.1 = Raise RuntimeError ∧ i_status (mk_responseInfo (w_transport out.2)) = 206 ∧
  mk_isCompleted (w_transport out.2) = mk_isCompleted (w_transport w) ∧
  mk_responseBody (w_transport out.2) = mk_responseBody (w_transport w).
Proof.
  intros o Ho1 Ho2 Hu Hst. unfold handleSinglepart. fold o. cbv zeta.
  rewrite (proj2 (Z.ltb_ge _ _)) by lia. op_step. op_step. op_step.
  match goal with Hu : unsent ?w1 ?x |- _ => set (i1 := x) in Hu; rename Hu into Hu1; rename w1 into v end.
  assert (Ht : w_transport v = w_transport w) by congruence. rewrite <- Ht.
  assert (Hp : partLength o = o.2 - o.1 + 1) by (unfold partLength, u64, npos in *; rewrite Z.mod_small; lia).
  assert (Hfill : fileView_fill (file_view f o.1 (partLength o)) = Raise RuntimeError).
  { unfold fileView_fill, file_view. cbn [fv_size fv_data]. rewrite (proj2 (Z.eqb_neq _ _)); [done|].
    rewrite Hp, length_take, length_drop. unfold fl_size in *. lia. }
  assert (Hn : 0 ≤ partLength o < 2 ^ 64) by (rewrite Hp; unfold npos in *; lia).
  destruct (committed_unsent (partLength o) v i1 Hu1) as (Hb & Hf & Hc & i' & Hi' & Hi); [unfold i1; cbn; lia|].
  unfold write_file, mbind, M_bind. change (fv_size (file_view f o.1 (partLength o))) with (partLength o).
  rewrite (actual_unsent v i1) by done.
  unfold send_file, mbind, M_bind, gets, mret, M_ret. rewrite Hb, Hf, Hc. cbn [negb]. rewrite Hi.
  unfold call, watched, thrown, mbind, M_bind, record, mock_call. cbn -[fileView_fill file_view partLength]. rewrite Hfill.
  destruct Hi' as (His & _). cbn. rewrite app_nil_r. by rewrite His.
Qed.

Lemma multi_served boundary w i r ranges :
  Forall (satisfiable f) (r :: ranges) → unsent w i → i_status i = 206 →
  let body := concat (part f boundary <$> r :: ranges) ++ trailer boundary in
  body_length body < 2 ^ 64 →
  ∃ w', handleMultipart cfg mock_call boundary f false (r :: ranges) w = (Ok true, w') ∧ answered_with w w' 206 body.
Proof.
  intros Hall Hu Hst body Hl. unfold handleMultipart. op_step. op_step.
  match goal with Hu : unsent ?w1 ?x |- _ => set (i1 := x) in Hu; rename Hu into Hu1; rename w1 into v end.
  destruct (write_parts_all boundary r ranges v i1 Hall Hu1) as (i' & w3 & Hw3 & Hi' & Hs3);
    [unfold i1; cbn; lia|eapply Z.le_lt_trans; [apply blen_le|exact Hl]|].
  destruct (more_buffer w3 i' _ _ (trailer boundary) Hs3 Hl) as (w4 & Hw4 & Hs4).
  assert (Ht : w_transport v = w_transport w) by congruence. rewrite Ht in Hs4.
  assert (Hlen : i_contentLength i1 = body_length body).
  { unfold i1. cbn [i_contentLength info_setHeaders info_setContentLength]. rewrite contentLength_body by done.
    unfold u64. apply Z.mod_small. unfold body_length in *. lia. }
  destruct (finish_served w w4 i1 i' _ 206 Hst Hlen ltac:(done) Hi' Hs4) as (w5 & Hw5 & Hserved & _).
  exists w5. split; [|done]. unfold mbind, M_bind. rewrite Hw3. cbn beta iota. by rewrite Hw4, Hw5.
Qed.

Lemma whole_served w i : unsent w i → i_status i = 200 →
  ∃ w', (_ ← info_op (AddHeader (str "Accept-Ranges") (str "bytes"));
         _ ← info_op (AddHeader (str "Content-Type") (fl_mimetype f));
         _ ← info_op (SetContentLength (fl_size f));
         _ ← write_file cfg mock_call (file_view f 0 (fl_size f)) None;
         _ ← ch_completed cfg mock_call;
         mret 200) w = (Ok 200, w') ∧ answered_with w w' 200 (fl_data f).
Proof.
  intros Hu Hst. op_step. op_step. op_step.
  match goal with Hu : unsent ?w1 ?x |- _ => set (i1 := x) in Hu; rename Hu into Hu1; rename w1 into v end.
  destruct (first_file v i1 (file_view f 0 (fl_size f)) (fl_data f) Hu1) as (i' & w4 & Hw4 & Hi' & Hs4);
    [unfold i1; cbn; lia|done|apply fill_whole|].
  assert (Ht : w_transport v = w_transport w) by congruence. rewrite Ht in Hs4.
  destruct (finish_served w w4 i1 i' _ 200 Hst eq_refl ltac:(done) Hi' Hs4) as (w5 & Hw5 & Hserved & _).
  exists w5. split; [|done]. unfold mbind, M_bind. by rewrite Hw4, Hw5.
Qed.

(** What [handleRangeRequest] decides. *)
Lemma range_request_requested boundary h :
  handleRangeRequest cfg mock_call boundary f false h =
  match requested f h with
  | None => mret false
  | Some ranges =>
      _ ← info_op (SetStatus 206);
      match ranges with
      | [] => throw UndefinedBehaviour
      | [range] => handleSinglepart cfg mock_call f false range
      | _ => handleMultipart cfg mock_call boundary f false ranges
      end
  end.
Proof.
  unfold handleRangeRequest, requested. destruct (bool_decide (hl_get (str "Range") h = [])); [done|].
  destruct (range_parse _) as [ranges ok]. cbn [snd fst orb]. destruct ok; [|done]. cbn [negb orb].
  rewrite !negb_orb. by destruct (_ && _).
Qed.

(** The answer to a GET request, by the ranges it asks for. *)
Definition file_answer (boundary : bytes) (ranges : option (list (Z * Z))) w (out : result Z * world) : Prop :=
  let served := ∃ w', out = (Ok (expected f boundary ranges).1, w') ∧
    answered_with w w' (expected f boundary ranges).1 (expected f boundary ranges).2 in
  match ranges with
  | None => served
  | Some [] => out.1 = Raise UndefinedBehaviour
  | Some [r] =>
      let o := makeOffsets r (fl_size f) in
      (satisfiable f r → served) ∧
      (o.2 < o.1 → ∃ w', out = (Ok 206, w') ∧ answered_with w w' 416 []) ∧
      (0 ≤ o.1 ≤ o.2 → fl_size f ≤ o.2 < npos →
       out.1 = Raise RuntimeError ∧ i_status (mk_responseInfo (w_transport out.2)) = 206 ∧
       mk_isCompleted (w_transport out.2) = mk_isCompleted (w_transport w) ∧
       mk_responseBody (w_transport out.2) = mk_responseBody (w_transport w))
  | Some rs =>
      Forall (satisfiable f) rs → body_length (expected f boundary ranges).2 < 2 ^ 64 → served
  end.

(** C17 (functional). How a GET request for a readable regular file is answered
    over the mock transport, on a channel without output filters, post-process
    hooks or compressor, with no 100-continue due and nothing chosen or sent of
    the response yet, when the conditional header fields let the request
    through. Without a (valid) range: status 200 and the whole file. With one
    range: if it lies within the file, status 206 and exactly its bytes; if it
    begins behind its end, status 416 and no body; if it begins within and ends
    behind the file, the head of a 206 goes out and an exception is thrown. With
    several ranges that all lie within the file: status 206, every range under
    its head and the closing boundary. A Range field that yields no range at all
    is undefined behaviour. Whenever the response is completed, the content
    length announced before the body is the length of the body. *)
Theorem file_served parse_time boundary w i :
  let q := ch_request (w_channel w) in
  unsent w i → i_status i = 0 → i_contentLength i = UnknownContentLength → q_method q = GET →
  fl_isRegular f = true → fl_errorCode f = 0 → fl_openError f = None → handleClientCache parse_time f (q_headers q) = Ok 0 →
  file_answer boundary (requested f (q_headers q)) w (file_handle cfg mock_call parse_time boundary f w).
Proof.
  intros q Hu Hst Hlen Hget Hreg Herr Hopen Hcache. set (ranges := requested f (q_headers q)).
  assert (Hstart : file_handle cfg mock_call parse_time boundary f w =
    (_ ← info_op (AddHeader (str "Allow") (str "GET, HEAD"));
     _ ← info_op (AddHeader (str "Last-Modified") (fl_lastModified f));
     _ ← info_op (AddHeader (str "ETag") (fl_etag f));
     partial ← handleRangeRequest cfg mock_call boundary f false (q_headers q);
     if (partial : bool) then mret 206 else
     i ← gets ch_info;
     _ ← (if isError (i_status i) then mret () else info_op (SetStatus 200));
     _ ← info_op (AddHeader (str "Accept-Ranges") (str "bytes"));
     _ ← info_op (AddHeader (str "Content-Type") (fl_mimetype f));
     _ ← info_op (SetContentLength (fl_size f));
     _ ← write_file cfg mock_call (file_view f 0 (fl_size f)) None;
     _ ← ch_completed cfg mock_call;
     mret 200) w).
  { unfold file_handle. rewrite Hreg. cbn [negb]. unfold mbind at 1, M_bind at 1, gets at 1. fold q.
    unfold mbind at 1, M_bind at 1, lift at 1. rewrite Hcache, Herr, Hopen, Hget.
    rewrite !bool_decide_eq_true_2 by done. rewrite bool_decide_eq_false_2 by (by intros []). done. }
  rewrite Hstart. clear Hstart. op_step. op_step. op_step.
  match goal with Hu : unsent ?w1 ?x |- _ => set (i1 := x) in Hu; rename Hu into Hu1; rename w1 into v end.
  assert (Ht : w_transport v = w_transport w) by congruence.
  assert (Hq : ch_request (w_channel v) = q) by (unfold q; congruence).
  rewrite range_request_requested. fold ranges.
  unfold mbind at 1, M_bind at 1. destruct ranges as [[|r [|r2 rs]]|].
  - op_step. done.
  - op_step. match goal with Hu : unsent ?w2 ?x, Ht : w_transport ?w2 = w_transport v, Hq : ch_request (w_channel ?w2) = _ |- _ =>
      rename w2 into v2; set (i2 := x) in Hu; rename Hu into Hu2; rename Ht into Ht2; rename Hq into Hq2 end.
    assert (Ht3 : w_transport v2 = w_transport w) by congruence. unfold file_answer; cbn [expected fst snd]. rewrite <- Ht3. split_and!.
    + intros Hsat. destruct (single_served v2 i2 r Hsat Hu2 eq_refl) as (w' & Hw' & Hs & _).
      rewrite Hw'. exists w'. split; [done|]. by eapply served_outside; [|exact Hs].
    + intros Ho. destruct (single_refused v2 i2 r Ho Hu2) as (w' & Hw' & Hs); [done|by rewrite Hq2, Hq|].
      rewrite Hw'. exists w'. split; [done|]. by eapply served_outside; [|exact Hs].
    + intros Ho1 Ho2. pose proof (single_beyond v2 i2 r Ho1 Ho2 Hu2 eq_refl) as (Hr & Hrest).
      destruct (handleSinglepart cfg mock_call f false r v2) as [[b|e] w']; [done|]. cbn [fst snd] in *. by simplify_eq.
  - op_step. unfold file_answer; cbn [expected fst snd]. intros Hsat Hl.
    match goal with Hu : unsent ?w2 ?x |- _ => destruct (multi_served boundary w2 x r (r2 :: rs)) as (w' & Hw' & Hs);
      [done|done|done|done|] end.
    rewrite Hw'. exists w'. split; [done|]. eapply served_outside; [|exact Hs]. congruence.
  - unfold mret at 1, M_ret at 1, gets, mbind at 1, M_bind at 1.
    rewrite (un_info _ _ Hu1). unfold i1. cbn [i_status info_setHeaders]. rewrite Hst.
    change (isError 0) with false. cbn beta iota. op_step. unfold file_answer; cbn [expected fst snd].
    match goal with Hu : unsent ?w2 ?x |- _ => destruct (whole_served w2 x) as (w' & Hw' & Hs); [done|done|] end.
    rewrite Hw'. exists w'. split; [done|]. eapply served_outside; [|exact Hs]. congruence.
Qed.
End serving.

(** ** Examples *)

Definition demo_file : File :=
  mkFile true 0 (str "tag") (str "Sun, 06 Nov 1994 08:49:37 GMT") 784111777 (str "text/plain") None (str "Hello, World").
Definition asks (fields : list (bytes * bytes)) : HttpRequest :=
  req_setMethod (str "GET") (req_setHeaders (field_of <$> fields) newHttpRequest).
Definition file_world (fields : list (bytes * bytes)) : World unit (MockTransport unit) :=
  set_channel (on_request (λ _, asks fields) (w_channel (handling_world hello))) (handling_world hello).
Definition no_dates (value : bytes) : option Z := None.

Example two_parts :
  let w' := (file_handle plain_config mock_call no_dates (str "sep") demo_file (file_world [(str "Range", str "bytes=0-4,7-")])).2 in
  i_contentLength (mk_responseInfo (w_transport w')) = 154 ∧
  requested demo_file (q_headers (asks [(str "Range", str "bytes=0-4,7-")])) = Some [(0, 4); (7, npos)].
Proof. by vm_compute. Qed.

Definition two_ranges : World unit (MockTransport unit) := file_world [(str "Range", str "bytes=0-4,7-")].
Lemma two_ranges_satisfiable :
  Forall (satisfiable demo_file) (default [] (requested demo_file (q_headers (ch_request (w_channel two_ranges))))).
Proof.
  replace (requested _ _) with (Some [(0, 4); (7, npos)]) by (by vm_compute).
  repeat constructor; by vm_compute.
Qed.

(** Two ranges, a range behind the end, and no range. *)
Lemma file_served_witness :
  (∃ w', file_handle plain_config mock_call no_dates (str "sep") demo_file two_ranges = (Ok 206, w') ∧
    answered_with two_ranges w' 206 (expected demo_file (str "sep") (Some [(0, 4); (7, npos)])).2) ∧
  (file_handle plain_config mock_call no_dates (str "sep") demo_file (file_world [(str "Range", str "bytes=7-99")])).1 =
    Raise RuntimeError ∧
  (file_handle plain_config mock_call no_dates (str "sep") demo_file (file_world [(str "Range", str "lines")])).1 =
    Raise UndefinedBehaviour.
Proof.
  split_and!.
  - pose proof (file_served plain_config eq_refl demo_file ltac:(by vm_compute) no_dates (str "sep") two_ranges newRespInfo
      ltac:(by split) eq_refl eq_refl ltac:(by vm_compute) eq_refl eq_refl eq_refl ltac:(by vm_compute)) as Hf.
    pose proof two_ranges_satisfiable as Hsat.
    replace (requested demo_file (q_headers (ch_request (w_channel two_ranges)))) with (Some [(0, 4); (7, npos)]) in *
      by (by vm_compute).
    apply Hf; [exact Hsat|by vm_compute].
  - pose proof (file_served plain_config eq_refl demo_file ltac:(by vm_compute) no_dates (str "sep")
      (file_world [(str "Range", str "bytes=7-99")]) newRespInfo
      ltac:(by split) eq_refl eq_refl ltac:(by vm_compute) eq_refl eq_refl eq_refl ltac:(by vm_compute)) as Hf.
    replace (requested _ _) with (Some [(7, 99)]) in Hf by (by vm_compute).
    apply Hf; by vm_compute.
  - pose proof (file_served plain_config eq_refl demo_file ltac:(by vm_compute) no_dates (str "sep")
      (file_world [(str "Range", str "lines")]) newRespInfo
      ltac:(by split) eq_refl eq_refl ltac:(by vm_compute) eq_refl eq_refl eq_refl ltac:(by vm_compute)) as Hf.
    replace (requested _ _) with (Some (@nil (Z * Z))) in Hf by (by vm_compute). exact Hf.
Defined.

(** ** Behaviours that are not intended *)

(** A last position beyond the end of the file is not cut: reading fails after
    the head has been sent. *)
Lemma range_beyond_end :
  let out := file_handle plain_config mock_call no_dates (str "sep") demo_file (file_world [(str "Range", str "bytes=7-99")]) in
  out.1 = Raise RuntimeError ∧ i_contentLength (mk_responseInfo (w_transport out.2)) = 93 ∧
  mk_isCompleted (w_transport out.2) = false.
Proof. by vm_compute. Qed.

(** A Range field without any range is an access to an element of an empty
    vector. *)
Lemma range_without_ranges :
  (file_handle plain_config mock_call no_dates (str "sep") demo_file (file_world [(str "Range", str "lines")])).1 =
  Raise UndefinedBehaviour.
Proof. by vm_compute. Qed.

(** A space behind the comma makes the field invalid. *)
Lemma range_with_space : range_parse (str "bytes=0-1, 4-5") = ([(0, 1)], false).
Proof. by vm_compute. Qed.

(** An entity tag that does not match is overruled by the date. *)
Lemma none_match_overruled :
  handleClientCache (λ _, Some 784111777) demo_file
    (field_of <$> [(str "If-None-Match", str "other"); (str "If-Modified-Since", str "Sun, 06 Nov 1994 08:49:37 GMT")]) = Ok 304.
Proof. by vm_compute. Qed.

(** A date that cannot be read is an exception instead of being ignored. *)
Lemma bad_date_raises :
  handleClientCache no_dates demo_file (field_of <$> [(str "If-Modified-Since", str "yesterday")]) = Raise RuntimeError.
Proof. by vm_compute. Qed.
