(* ===== verification/HttpCluster.v ===== *)
(** * The HTTP cluster

    [src/xzero/http/client]: a load balancer. A request is given a token by its
    bucket of the shaper and handed to a member by the scheduler, or it waits in
    its bucket's queue until a member is free, or it is refused. [HttpCluster.cc]
    with [HttpClusterScheduler.cc], [HttpClusterMember.cc],
    [HttpClusterRequest.cc] and [HttpHealthMonitor.cc].

    Requests are objects that the cluster, the queues and the members' clients
    share: they are kept in a store under their number. Members are numbered by
    their position. The HTTP client is a parameter in the sense that its
    outcomes are inputs: [cl_inflight] has the requests sent and not answered
    yet. What the executor is given to do later is [cl_tasks]. What the caller's
    listener is told is recorded in [cl_output]. *)
From stdpp Require Import gmap.
From S2P Require Import Prelude HeaderFieldList Http1Parser Http1Generator TokenShaper HttpMessage.

(** ** What the cluster asks of its shaper *)

(** Buckets are addressed as in [TokenShaper], requests are numbers. *)
Class Shaper (Q : Type) := {
  sh_get : list nat → Z → Q → Z * Q;
  sh_put : list nat → Z → Q → result Q;
  sh_enqueue : nat → Z → list nat → Q → Q * list nat;
  sh_dequeue : Q → result (option nat * Q);
  sh_timer : Z → list nat → Q → Q * list nat;
  sh_resize : Z → Q → result Q;
  sh_size : Q → Z;
  sh_ceil : list nat → Q → Z;
  sh_queued : list nat → Q → Z;
  sh_name : list nat → Q → bytes;
}.

(** ** Health monitor *)

Inductive HealthState := HUndefined | HOffline | HOnline.
#[export] Instance HealthState_eq_dec : EqDecision HealthState.
Proof. solve_decision. Defined.

Record HttpHealthMonitor := mkHealthMonitor {
  hm_successThreshold : Z;
  hm_successCodes : list Z;
  hm_state : HealthState;
  hm_totalFailCount : Z;
  hm_consecutiveSuccessCount : Z;
  (** whether a check is under way; otherwise a timer is armed *)
  hm_checking : bool;
}.

(** The constructor starts the first check. *)
Definition newHealthMonitor (threshold : Z) (codes : list Z) : HttpHealthMonitor :=
  mkHealthMonitor threshold codes HUndefined 0 0 true.

Definition isOnline (h : HttpHealthMonitor) : bool := bool_decide (hm_state h = HOnline).

Definition hm_setState (st : HealthState) (h : HttpHealthMonitor) : HttpHealthMonitor :=
  mkHealthMonitor (hm_successThreshold h) (hm_successCodes h) st (hm_totalFailCount h) (hm_consecutiveSuccessCount h) (hm_checking h).
Definition hm_setCounts (fails successes : Z) (h : HttpHealthMonitor) : HttpHealthMonitor :=
  mkHealthMonitor (hm_successThreshold h) (hm_successCodes h) (hm_state h) fails successes (hm_checking h).
Definition hm_setChecking (b : bool) (h : HttpHealthMonitor) : HttpHealthMonitor :=
  mkHealthMonitor (hm_successThreshold h) (hm_successCodes h) (hm_state h) (hm_totalFailCount h) (hm_consecutiveSuccessCount h) b.
(** [recheck] arms the timer, [onCheckNow] sends the request. *)
Definition recheck : HttpHealthMonitor → HttpHealthMonitor := hm_setChecking false.
Definition onCheckNow : HttpHealthMonitor → HttpHealthMonitor := hm_setChecking true.

(** ** Members and requests *)

Record Member := mkMember {
  mb_name : bytes;
  mb_capacity : Z;
  mb_enabled : bool;
  mb_load : Counter;
  mb_health : HttpHealthMonitor;
}.

Definition mb_setCapacity (x : Z) (m : Member) : Member := mkMember (mb_name m) x (mb_enabled m) (mb_load m) (mb_health m).
Definition mb_setEnabled (x : bool) (m : Member) : Member := mkMember (mb_name m) (mb_capacity m) x (mb_load m) (mb_health m).
Definition mb_setLoad (x : Counter) (m : Member) : Member := mkMember (mb_name m) (mb_capacity m) (mb_enabled m) x (mb_health m).
Definition mb_setHealth (x : HttpHealthMonitor) (m : Member) : Member :=
  mkMember (mb_name m) (mb_capacity m) (mb_enabled m) (mb_load m) x.

Inductive SchedulerStatus := SUnavailable | SSuccess | SOverloaded.
#[export] Instance SchedulerStatus_eq_dec : EqDecision SchedulerStatus.
Proof. solve_decision. Defined.

Record ClusterRequest := mkClusterRequest {
  cr_bucket : option (list nat);
  cr_backend : option nat;
  cr_tryCount : Z;
  cr_tokens : Z;
  cr_proxyVersion : HttpVersion;
  cr_proxyId : bytes;
  cr_viaText : bytes;
}.

Definition newClusterRequest (version : HttpVersion) (proxyId : bytes) : ClusterRequest :=
  mkClusterRequest None None 0 0 version proxyId [].

Definition cr_setBucket (b : list nat) (r : ClusterRequest) : ClusterRequest :=
  mkClusterRequest (Some b) (cr_backend r) (cr_tryCount r) (cr_tokens r) (cr_proxyVersion r) (cr_proxyId r) (cr_viaText r).
Definition cr_setBackend (m : option nat) (r : ClusterRequest) : ClusterRequest :=
  mkClusterRequest (cr_bucket r) m (cr_tryCount r) (cr_tokens r) (cr_proxyVersion r) (cr_proxyId r) (cr_viaText r).
Definition cr_setTokens (n : Z) (r : ClusterRequest) : ClusterRequest :=
  mkClusterRequest (cr_bucket r) (cr_backend r) (cr_tryCount r) n (cr_proxyVersion r) (cr_proxyId r) (cr_viaText r).
Definition cr_setVia (t : bytes) (r : ClusterRequest) : ClusterRequest :=
  mkClusterRequest (cr_bucket r) (cr_backend r) (cr_tryCount r) (cr_tokens r) (cr_proxyVersion r) (cr_proxyId r) t.

(** ** State of the cluster *)

Inductive Scheduler := RoundRobin (next : nat) | Chance.

Inductive Task := TDequeued (cr member : nat) | TTimeout (cr : nat).

(** What the listener of a request is told. *)
Inductive Output :=
  | OBegin (cr : nat) (version : HttpVersion) (status : Z) (text : bytes)
  | OHeader (cr : nat) (name value : bytes)
  | OHeaderEnd (cr : nat)
  | OContent (cr : nat) (body : bytes)
  | OEnd (cr : nat).

Record Cluster (Q : Type) := mkCluster {
  cl_enabled : bool;
  cl_stickyOfflineMode : bool;
  cl_enqueueOnUnavailable : bool;
  cl_queueLimit : Z;
  cl_retryAfter : Z;
  cl_maxRetryCount : Z;
  cl_shaper : Q;
  cl_members : list Member;
  cl_scheduler : Scheduler;
  cl_queued : Counter;
  cl_dropped : Z;
  cl_requests : gmap nat ClusterRequest;
  cl_inflight : list (nat * nat);
  cl_tasks : list Task;
  cl_output : list Output;
}.
Arguments mkCluster {Q}.
Arguments cl_enabled {Q}. Arguments cl_stickyOfflineMode {Q}. Arguments cl_enqueueOnUnavailable {Q}.
Arguments cl_queueLimit {Q}. Arguments cl_retryAfter {Q}. Arguments cl_maxRetryCount {Q}. Arguments cl_shaper {Q}.
Arguments cl_members {Q}. Arguments cl_scheduler {Q}. Arguments cl_queued {Q}. Arguments cl_dropped {Q}.
Arguments cl_requests {Q}. Arguments cl_inflight {Q}. Arguments cl_tasks {Q}. Arguments cl_output {Q}.

Section cluster.
Context {Q : Type} `{Shaper Q}.

Definition cl_setShaper (x : Q) (c : Cluster Q) : Cluster Q :=
  mkCluster (cl_enabled c) (cl_stickyOfflineMode c) (cl_enqueueOnUnavailable c) (cl_queueLimit c) (cl_retryAfter c)
    (cl_maxRetryCount c) x (cl_members c) (cl_scheduler c) (cl_queued c) (cl_dropped c) (cl_requests c) (cl_inflight c)
    (cl_tasks c) (cl_output c).
Definition cl_setMembers (x : list Member) (c : Cluster Q) : Cluster Q :=
  mkCluster (cl_enabled c) (cl_stickyOfflineMode c) (cl_enqueueOnUnavailable c) (cl_queueLimit c) (cl_retryAfter c)
    (cl_maxRetryCount c) (cl_shaper c) x (cl_scheduler c) (cl_queued c) (cl_dropped c) (cl_requests c) (cl_inflight c)
    (cl_tasks c) (cl_output c).
Definition cl_setScheduler (x : Scheduler) (c : Cluster Q) : Cluster Q :=
  mkCluster (cl_enabled c) (cl_stickyOfflineMode c) (cl_enqueueOnUnavailable c) (cl_queueLimit c) (cl_retryAfter c)
    (cl_maxRetryCount c) (cl_shaper c) (cl_members c) x (cl_queued c) (cl_dropped c) (cl_requests c) (cl_inflight c)
    (cl_tasks c) (cl_output c).
Definition cl_setCounts (queued : Counter) (dropped : Z) (c : Cluster Q) : Cluster Q :=
  mkCluster (cl_enabled c) (cl_stickyOfflineMode c) (cl_enqueueOnUnavailable c) (cl_queueLimit c) (cl_retryAfter c)
    (cl_maxRetryCount c) (cl_shaper c) (cl_members c) (cl_scheduler c) queued dropped (cl_requests c) (cl_inflight c)
    (cl_tasks c) (cl_output c).
Definition cl_setRequests (x : gmap nat ClusterRequest) (c : Cluster Q) : Cluster Q :=
  mkCluster (cl_enabled c) (cl_stickyOfflineMode c) (cl_enqueueOnUnavailable c) (cl_queueLimit c) (cl_retryAfter c)
    (cl_maxRetryCount c) (cl_shaper c) (cl_members c) (cl_scheduler c) (cl_queued c) (cl_dropped c) x (cl_inflight c)
    (cl_tasks c) (cl_output c).
Definition cl_setInflight (x : list (nat * nat)) (c : Cluster Q) : Cluster Q :=
  mkCluster (cl_enabled c) (cl_stickyOfflineMode c) (cl_enqueueOnUnavailable c) (cl_queueLimit c) (cl_retryAfter c)
    (cl_maxRetryCount c) (cl_shaper c) (cl_members c) (cl_scheduler c) (cl_queued c) (cl_dropped c) (cl_requests c) x
    (cl_tasks c) (cl_output c).
Definition cl_setTasks (x : list Task) (c : Cluster Q) : Cluster Q :=
  mkCluster (cl_enabled c) (cl_stickyOfflineMode c) (cl_enqueueOnUnavailable c) (cl_queueLimit c) (cl_retryAfter c)
    (cl_maxRetryCount c) (cl_shaper c) (cl_members c) (cl_scheduler c) (cl_queued c) (cl_dropped c) (cl_requests c)
    (cl_inflight c) x (cl_output c).
Definition cl_setOutput (x : list Output) (c : Cluster Q) : Cluster Q :=
  mkCluster (cl_enabled c) (cl_stickyOfflineMode c) (cl_enqueueOnUnavailable c) (cl_queueLimit c) (cl_retryAfter c)
    (cl_maxRetryCount c) (cl_shaper c) (cl_members c) (cl_scheduler c) (cl_queued c) (cl_dropped c) (cl_requests c)
    (cl_inflight c) (cl_tasks c) x.

(** A computation over the cluster: state passing, with exceptions. *)
Definition C (A : Type) : Type := Cluster Q → result (A * Cluster Q).
#[export] Instance C_ret : MRet C := λ A a c, Ok (a, c).
#[export] Instance C_bind : MBind C := λ A B f m c, match m c with Ok (a, c') => f a c' | Raise e => Raise e end.

Definition cl_get {A} (f : Cluster Q → A) : C A := λ c, Ok (f c, c).
Definition cl_put (f : Cluster Q → Cluster Q) : C unit := λ c, Ok ((), f c).
Definition cl_raise {A} (e : exn) : C A := λ _, Raise e.

Definition on_shaper (f : Q → result Q) : C unit := λ c, q ← f (cl_shaper c); Ok ((), cl_setShaper q c).
Definition on_member (i : nat) (f : Member → Member) : C unit := cl_put (λ c, cl_setMembers (alter f i (cl_members c)) c).
Definition on_cr (r : nat) (f : ClusterRequest → ClusterRequest) : C unit :=
  cl_put (λ c, cl_setRequests (alter f r (cl_requests c)) c).
Definition post (t : Task) : C unit := cl_put (λ c, cl_setTasks (cl_tasks c ++ [t]) c).
Definition emit (o : Output) : C unit := cl_put (λ c, cl_setOutput (cl_output c ++ [o]) c).

(** A pointer to a request or a member that does not exist would be followed. *)
Definition the_cr (r : nat) : C ClusterRequest := λ c,
  match cl_requests c !! r with Some x => Ok (x, c) | None => Raise UndefinedBehaviour end.
Definition the_member (i : nat) : C Member := λ c,
  match cl_members c !! i with Some x => Ok (x, c) | None => Raise UndefinedBehaviour end.

(** ** [HttpClusterRequest]: the listener of the response *)

Definition via_version (v : HttpVersion) : result bytes :=
  match v with
  | VERSION_0_9 => Ok (str "0.9")
  | VERSION_1_0 => Ok (str "1.0")
  | VERSION_1_1 => Ok (str "1.1")
  | VERSION_2_0 => Ok (str "2.0")
  | UNKNOWN => Raise StdRuntimeError
  end.

Definition cr_onMessageBegin (r : nat) (v : HttpVersion) (code : Z) (text : bytes) : C unit := emit (OBegin r v code text).

(** [Via] fields are collected. *)
Definition cr_onMessageHeader (r : nat) (name value : bytes) : C unit :=
  if bool_decide (name = str "Via") then
    on_cr r (λ x, cr_setVia ((match cr_viaText x with [] => [] | t => t ++ [32] end) ++ value) x)
  else emit (OHeader r name value).

Definition cr_onMessageHeaderEnd (r : nat) : C unit :=
  x ← the_cr r;
  _ ← match cr_proxyId x, cr_viaText x with
      | [], [] => mret ()
      | [], via => emit (OHeader r (str "Via") via)
      | id, via => λ c, v ← via_version (cr_proxyVersion x); emit (OHeader r (str "Via") (v ++ [32] ++ id ++ via)) c
      end;
  emit (OHeaderEnd r).

(** ** Queue *)

Definition cl_dequeue : C (option nat) := λ c,
  '(r, q) ← sh_dequeue (cl_shaper c);
  let c := cl_setShaper q c in
  match r with
  | Some r => Ok (Some r, cl_setCounts (counter_decrement 1 (cl_queued c)) (cl_dropped c) c)
  | None => Ok (None, c)
  end.

(** [dequeueTo]: what is to be done with the request is posted. *)
Definition dequeueTo (m : nat) : C unit :=
  r ← cl_dequeue;
  match r with Some r => post (TDequeued r m) | None => mret () end.

Definition onProcessingSucceed (m : nat) : C unit := dequeueTo m.
Definition mb_release (m : nat) : C unit := onProcessingSucceed m.

(** The end of a response gives the tokens back and the member a new request. *)
Definition cr_onMessageEnd (r : nat) : C unit :=
  x ← the_cr r;
  _ ← (if negb (cr_tokens x =? 0) then
         match cr_bucket x, cr_backend x with
         | Some b, Some m => _ ← on_shaper (sh_put b (cr_tokens x)); mb_release m
         | _, _ => cl_raise AssertionFailure
         end
       else mret ());
  emit (OEnd r).

(** [serviceUnavailable]; the text is that of status 503 for any status. *)
Definition serviceUnavailable (r : nat) (status : Z) : C unit :=
  _ ← cr_onMessageBegin r VERSION_1_1 status (status_text 503);
  x ← the_cr r;
  _ ← match cr_bucket x with
      | Some b => name ← cl_get (λ c, sh_name b (cl_shaper c)); cr_onMessageHeader r (str "Cluster-Bucket") name
      | None => mret ()
      end;
  retryAfter ← cl_get cl_retryAfter;
  _ ← (if negb (retryAfter =? 0) then cr_onMessageHeader r (str "Retry-After") (decimal (retryAfter / 1000000)) else mret ());
  _ ← cr_onMessageHeaderEnd r;
  _ ← cr_onMessageEnd r;
  cl_put (λ c, cl_setCounts (cl_queued c) (u64 (cl_dropped c + 1)) c).

(** A request that waited too long. *)
Definition cl_onTimeout (r : nat) : C unit :=
  _ ← cl_put (λ c, cl_setCounts (counter_decrement 1 (cl_queued c)) (cl_dropped c) c);
  post (TTimeout r).

Fixpoint onTimeouts (rs : list nat) : C unit :=
  match rs with [] => mret () | r :: rs => _ ← cl_onTimeout r; onTimeouts rs end.

(** [enqueue] at the time [now]; the bucket hands back what has timed out. *)
Definition cl_enqueue (now : Z) (r : nat) : C unit :=
  x ← the_cr r;
  match cr_bucket x with
  | None => cl_raise UndefinedBehaviour
  | Some b =>
      c ← cl_get id;
      if sh_queued b (cl_shaper c) <? cl_queueLimit c then
        _ ← on_cr r (cr_setBackend None);
        gone ← (λ c, let '(q, gone) := sh_enqueue r now b (cl_shaper c) in Ok (gone, cl_setShaper q c));
        _ ← onTimeouts gone;
        cl_put (λ c, cl_setCounts (counter_increment 1 (cl_queued c)) (cl_dropped c) c)
      else serviceUnavailable r 503
  end.

(** ** Members *)

Definition onCapacityChanged (i : nat) (old : Z) : C unit :=
  m ← the_member i;
  if mb_enabled m then on_shaper (λ q, sh_resize (u64 (sh_size q - old + mb_capacity m)) q) else mret ().

Definition setCapacity (i : nat) (n : Z) : C unit :=
  m ← the_member i;
  _ ← on_member i (mb_setCapacity n);
  onCapacityChanged i (mb_capacity m).

(** Meant for a change of [isEnabled]. *)
Definition onEnabledChanged (i : nat) : C unit :=
  m ← the_member i;
  if mb_enabled m then on_shaper (λ q, sh_resize (u64 (sh_size q + mb_capacity m)) q)
  else on_shaper (λ q, sh_resize (u64 (sh_size q - mb_capacity m)) q).

(** [setEnabled] of a member tells nobody; [onEnabledChanged] is not called. *)
Definition setEnabled (i : nat) (b : bool) : C unit := on_member i (mb_setEnabled b).

Definition onHealthChanged (i : nat) (oldState : HealthState) : C unit :=
  m ← the_member i;
  if negb (mb_enabled m) then mret () else
  if isOnline (mb_health m) then
    _ ← on_shaper (λ q, sh_resize (u64 (sh_size q + mb_capacity m)) q);
    sticky ← cl_get cl_stickyOfflineMode;
    if negb sticky then dequeueTo i else setEnabled i false
  else if bool_decide (oldState = HOnline) then on_shaper (λ q, sh_resize (u64 (sh_size q - mb_capacity m)) q)
  else mret ().

Definition setHealth (i : nat) (st : HealthState) : C unit :=
  m ← the_member i;
  if bool_decide (st = HUndefined) then cl_raise AssertionFailure else
  if bool_decide (hm_state (mb_health m) = st) then mret () else
  _ ← on_member i (λ m, mb_setHealth (hm_setState st (mb_health m)) m);
  onHealthChanged i (hm_state (mb_health m)).

Definition on_health (i : nat) (f : HttpHealthMonitor → HttpHealthMonitor) : C unit :=
  on_member i (λ m, mb_setHealth (f (mb_health m)) m).

Definition logSuccess (i : nat) : C unit :=
  _ ← on_health i (λ h, hm_setCounts (hm_totalFailCount h) (u64 (hm_consecutiveSuccessCount h + 1)) h);
  m ← the_member i;
  let h := mb_health m in
  _ ← (if (hm_successThreshold h <=? hm_consecutiveSuccessCount h) && negb (bool_decide (hm_state h = HOnline))
       then setHealth i HOnline else mret ());
  on_health i recheck.

Definition logFailure (i : nat) : C unit :=
  _ ← on_health i (λ h, hm_setCounts (u64 (hm_totalFailCount h + 1)) 0 h);
  _ ← setHealth i HOffline;
  on_health i recheck.

(** The outcome of a check: no response, or one with this status. *)
Definition checked (i : nat) (status : option Z) : C unit :=
  m ← the_member i;
  match status with
  | None => logFailure i
  | Some code => if bool_decide (code ∈ hm_successCodes (mb_health m)) then logSuccess i else logFailure i
  end.

(** [tryProcess]; [process] hands the request to the client and succeeds. *)
Definition tryProcess (r i : nat) : C SchedulerStatus :=
  m ← the_member i;
  if negb (mb_enabled m) then mret SUnavailable else
  if negb (isOnline (mb_health m)) then mret SUnavailable else
  if negb (mb_capacity m =? 0) && (mb_capacity m <=? c_current (mb_load m)) then mret SOverloaded else
  _ ← on_member i (λ m, mb_setLoad (counter_increment 1 (mb_load m)) m);
  _ ← on_cr r (cr_setBackend (Some i));
  _ ← cl_put (λ c, cl_setInflight (cl_inflight c ++ [(r, i)]) c);
  mret SSuccess.

(** ** Schedulers *)

(** The loop of [RoundRobin::schedule]: [k] rounds are left; on success the
    position stays where it is. *)
Fixpoint rr_loop (r limit k next unavailable : nat) : C (SchedulerStatus * nat) :=
  match k with
  | O => mret (if (unavailable =? limit)%nat then SUnavailable else SOverloaded, next)
  | S k =>
      let next := if (limit <=? next)%nat then O else next in
      st ← tryProcess r next;
      match st with
      | SSuccess => mret (SSuccess, next)
      | SUnavailable => rr_loop r limit k (S next) (S unavailable)
      | SOverloaded => rr_loop r limit k (S next) unavailable
      end
  end.

Fixpoint chance_loop (r size k i unavailable : nat) : C SchedulerStatus :=
  match k with
  | O => mret (if (unavailable <? size)%nat then SOverloaded else SUnavailable)
  | S k =>
      st ← tryProcess r i;
      match st with
      | SSuccess => mret SSuccess
      | SUnavailable => chance_loop r size k (S i) (S unavailable)
      | SOverloaded => chance_loop r size k (S i) unavailable
      end
  end.

Definition scheduler_schedule (r : nat) : C SchedulerStatus :=
  c ← cl_get id;
  let n := length (cl_members c) in
  match cl_scheduler c with
  | RoundRobin next =>
      '(st, next) ← rr_loop r n n next 0;
      _ ← cl_put (cl_setScheduler (RoundRobin next));
      mret st
  | Chance => chance_loop r n n 0 0
  end.

(** [setScheduler] by name. *)
Definition setScheduler (value : bytes) : C bool :=
  if bool_decide (value = str "rr") then _ ← cl_put (cl_setScheduler (RoundRobin 0)); mret true
  else if bool_decide (value = str "chance") then _ ← cl_put (cl_setScheduler Chance); mret true
  else mret false.
(** The name a scheduler has in the configuration. *)
Definition scheduler_name (s : Scheduler) : bytes := match s with RoundRobin _ => str "rr" | Chance => str "rr" end.

(** ** Scheduling *)

Definition verifyTryCount (r : nat) : C bool :=
  x ← the_cr r;
  limit ← cl_get cl_maxRetryCount;
  if cr_tryCount x <=? limit then mret true else _ ← serviceUnavailable r 503; mret false.

Definition reschedule (now : Z) (r : nat) : C unit :=
  ok ← verifyTryCount r;
  if (ok : bool) then
    st ← scheduler_schedule r;
    if negb (bool_decide (st = SSuccess)) then cl_enqueue now r else mret ()
  else mret ().

Definition shaper_get (b : list nat) (n : Z) : C Z := λ c, let '(m, q) := sh_get b n (cl_shaper c) in Ok (m, cl_setShaper q c).

Definition cl_schedule (now : Z) (r : nat) (b : list nat) : C unit :=
  _ ← on_cr r (cr_setBucket b);
  c ← cl_get id;
  if negb (cl_enabled c) then serviceUnavailable r 503 else
  m ← shaper_get b 1;
  if negb (m =? 0) then
    _ ← on_cr r (cr_setTokens 1);
    st ← scheduler_schedule r;
    if bool_decide (st = SSuccess) then mret () else
    _ ← on_shaper (sh_put b 1);
    _ ← on_cr r (cr_setTokens 0);
    if bool_decide (st = SUnavailable) && negb (cl_enqueueOnUnavailable c) then serviceUnavailable r 503
    else cl_enqueue now r
  else
    ceil ← cl_get (λ c, sh_ceil b (cl_shaper c));
    if (0 <? ceil) || cl_enqueueOnUnavailable c then cl_enqueue now r else serviceUnavailable r 503.

(** A task of the executor. *)
Definition run_task (now : Z) (t : Task) : C unit :=
  match t with
  | TTimeout r => serviceUnavailable r 504
  | TDequeued r i =>
      _ ← on_cr r (cr_setTokens 1);
      st ← tryProcess r i;
      if negb (bool_decide (st = SSuccess)) then _ ← on_cr r (cr_setTokens 0); reschedule now r
      else _ ← verifyTryCount r; mret ()
  end.

(** ** Responses of the members *)

Definition onProcessingFailed (now : Z) (r : nat) : C unit :=
  x ← the_cr r;
  match cr_bucket x with
  | None => cl_raise AssertionFailure
  | Some b =>
      if cr_tokens x =? 0 then cl_raise AssertionFailure else
      _ ← on_shaper (sh_put b 1);
      _ ← on_cr r (cr_setTokens 0);
      reschedule now r
  end.

Definition unload (i : nat) : C unit := on_member i (λ m, mb_setLoad (counter_decrement 1 (mb_load m)) m).

(** The client gives up the request [r] of member [i]. *)
Definition mb_onFailure (now : Z) (r i : nat) : C unit :=
  _ ← unload i;
  _ ← setHealth i HOffline;
  _ ← on_cr r (cr_setBackend None);
  onProcessingFailed now r.

(** Header fields of the member's connection that are not passed on. *)
Definition memberConnectionFields : list bytes :=
  [str "Connection"; str "Close"; str "Keep-Alive"; str "TE"; str "Trailer"; str "Transfer-Encoding"; str "Upgrade"].

Fixpoint pass_headers (r : nat) (hs : HeaderFieldList) : C unit :=
  match hs with
  | [] => mret ()
  | f :: hs =>
      _ ← (if existsb (iequals_str (fld_name f)) memberConnectionFields then mret ()
           else cr_onMessageHeader r (fld_name f) (fld_value f));
      pass_headers r hs
  end.

Definition mb_onResponseReceived (r i : nat) (info : RespInfo) (body : bytes) : C unit :=
  _ ← unload i;
  _ ← cr_onMessageBegin r (i_version info) (i_status info) (i_reason info);
  _ ← pass_headers r (i_headers info);
  _ ← cr_onMessageHeaderEnd r;
  _ ← emit (OContent r body);
  cr_onMessageEnd r.

(** ** The cluster as a transition system *)

Inductive cluster_event :=
  | EvSchedule (r : nat) (b : list nat) (version : HttpVersion) (proxyId : bytes)
  | EvResponse (r i : nat) (info : RespInfo) (body : bytes)
  | EvClientFailure (r i : nat)
  | EvTask
  | EvTimer (b : list nat)
  | EvChecked (i : nat) (status : option Z)
  | EvCapacity (i : nat) (n : Z)
  | EvEnabled (i : nat) (b : bool).

(** The client is done with a request. *)
Fixpoint remove_one (x : nat * nat) (l : list (nat * nat)) : option (list (nat * nat)) :=
  match l with
  | [] => None
  | y :: l => if bool_decide (y = x) then Some l else (y ::.) <$> remove_one x l
  end.

Definition finish (r i : nat) : C unit := λ c,
  match remove_one (r, i) (cl_inflight c) with
  | Some l => Ok ((), cl_setInflight l c)
  | None => Raise UndefinedBehaviour
  end.

Definition cluster_step (now : Z) (ev : cluster_event) : C unit :=
  match ev with
  | EvSchedule r b version proxyId =>
      _ ← cl_put (λ c, cl_setRequests (<[r := newClusterRequest version proxyId]> (cl_requests c)) c);
      cl_schedule now r b
  | EvResponse r i info body => _ ← finish r i; mb_onResponseReceived r i info body
  | EvClientFailure r i => _ ← finish r i; mb_onFailure now r i
  | EvTask =>
      ts ← cl_get cl_tasks;
      match ts with [] => mret () | t :: ts => _ ← cl_put (cl_setTasks ts); run_task now t end
  | EvTimer b => λ c, let '(q, gone) := sh_timer now b (cl_shaper c) in onTimeouts gone (cl_setShaper q c)
  | EvChecked i status => checked i status
  | EvCapacity i n => setCapacity i n
  | EvEnabled i b => setEnabled i b
  end.

(** ** Making a cluster *)

(** The constructor, with the defaults; times are in microseconds. The shaper starts
    with no tokens: it grows as members come online. *)
Definition newCluster (shaper : Q) : Cluster Q :=
  mkCluster true false true 1000 30000000 3 shaper [] (RoundRobin 0) newCounter 0 ∅ [] [] [].

Definition addMember (name : bytes) (capacity : Z) (enabled : bool) : C unit :=
  cl_put (λ c, cl_setMembers (cl_members c ++ [mkMember name capacity enabled newCounter (newHealthMonitor 3 [200])]) c).

Definition findMember (name : bytes) (c : Cluster Q) : option nat :=
  fst <$> list_find (λ m, mb_name m = name) (cl_members c).
End cluster.
Arguments C : clear implicits.
