(* ===== verification/HttpClusterSafety.v ===== *)
(** * What the HTTP cluster guarantees

    Over any sequence of events: every request that was scheduled is at any time
    in exactly one place, with a member, in a queue, in a posted task, or
    answered ([no_request_lost]); a member's load is the number of requests it
    has, and stays within its capacity ([members_within_capacity]). The
    scheduler finds a member whenever one can take the request
    ([scheduler_work_conserving]).

    The shaper is any one that meets [ShaperLaws]; the tree of token buckets
    does ([token_shaper_laws]). *)
From stdpp Require Import gmap.
From S2P Require Import Prelude HeaderFieldList Http1Parser Http1Generator TokenShaper HttpMessage HttpCluster.

(** ** What the cluster relies on

    The requests that wait in the queues, and the buckets there are. *)
Class ShaperLaws (Q : Type) `{Shaper Q} := {
  sh_items : Q → list nat;
  sh_valid : list nat → Q → Prop;
  get_items b n q : sh_items (sh_get b n q).2 ≡ₚ sh_items q;
  put_items b n q q' : sh_put b n q = Ok q' → sh_items q' ≡ₚ sh_items q;
  resize_items n q q' : sh_resize n q = Ok q' → sh_items q' ≡ₚ sh_items q;
  enqueue_items r now b q : sh_valid b q →
    sh_items (sh_enqueue r now b q).1 ++ (sh_enqueue r now b q).2 ≡ₚ r :: sh_items q;
  timer_items now b q : sh_items (sh_timer now b q).1 ++ (sh_timer now b q).2 ≡ₚ sh_items q;
  dequeue_items q x q' : sh_dequeue q = Ok (x, q') → option_list x ++ sh_items q' ≡ₚ sh_items q;
  get_valid b n q b' : sh_valid b' q → sh_valid b' (sh_get b n q).2;
  put_valid b n q q' b' : sh_put b n q = Ok q' → sh_valid b' q → sh_valid b' q';
  resize_valid n q q' b' : sh_resize n q = Ok q' → sh_valid b' q → sh_valid b' q';
  enqueue_valid r now b q b' : sh_valid b' q → sh_valid b' (sh_enqueue r now b q).1;
  timer_valid now b q b' : sh_valid b' q → sh_valid b' (sh_timer now b q).1;
  dequeue_valid q x q' b' : sh_dequeue q = Ok (x, q') → sh_valid b' q → sh_valid b' q';
}.

Section places.
Context {Q : Type} `{ShaperLaws Q}.
Implicit Types (c : Cluster Q).

Definition task_request (t : Task) : nat := match t with TDequeued r _ | TTimeout r => r end.
Definition answered (o : Output) : option nat := match o with OEnd r => Some r | _ => None end.

(** Where requests are. *)
Definition places c : list nat :=
  (cl_inflight c).*1 ++ sh_items (cl_shaper c) ++ (task_request <$> cl_tasks c) ++ omap answered (cl_output c).

(** A request's bucket is one of the shaper's, and its tries are within the limit. *)
Definition cr_ok c (x : ClusterRequest) : Prop :=
  (∀ b, cr_bucket x = Some b → sh_valid b (cl_shaper c)) ∧ cr_tryCount x ≤ cl_maxRetryCount c.
Definition requests_ok c : Prop := 0 ≤ cl_maxRetryCount c ∧ ∀ r x, cl_requests c !! r = Some x → cr_ok c x.

(** [adds m l]: [m] puts the requests of [l] somewhere, and moves others. *)
Definition adds {A} (m : C Q A) (l : A → list nat) : Prop :=
  ∀ c a c', m c = Ok (a, c') → requests_ok c → places c' ≡ₚ l a ++ places c ∧ requests_ok c'.

Lemma adds_ret {A} (a : A) (l : A → list nat) : l a = [] → adds (mret a) l.
Proof. intros Hl c a' c' [= <- <-] Hb. by rewrite Hl. Qed.
Lemma adds_raise {A} e (l : A → list nat) : adds (cl_raise e) l.
Proof. by intros c a c' Hm. Qed.
Lemma adds_get {A} (f : Cluster Q → A) : adds (cl_get f) (λ _, []).
Proof. by intros c a c' [= <- <-] Hb. Qed.
Lemma adds_cr r : adds (the_cr (Q:=Q) r) (λ _, []).
Proof. intros c a c' Hm Hb. unfold the_cr in Hm. destruct (cl_requests c !! r); by simplify_eq. Qed.
Lemma adds_member i : adds (the_member (Q:=Q) i) (λ _, []).
Proof. intros c a c' Hm Hb. unfold the_member in Hm. destruct (cl_members c !! i); by simplify_eq. Qed.

(** In sequence; the common case is a first step that puts nothing anywhere. *)
Lemma adds_seq {A B} (m : C Q A) (k : A → C Q B) (l1 : A → list nat) (l2 : A → B → list nat) (l : B → list nat) :
  adds m l1 → (∀ a, adds (k a) (l2 a)) → (∀ a b, l2 a b ++ l1 a ≡ₚ l b) → adds (m ≫= k) l.
Proof.
  intros Hm Hk Hl c b c' Hc Hb. unfold mbind, C_bind in Hc. destruct (m c) as [[a c1]|e] eqn:Hmc; [|done].
  destruct (Hm _ _ _ Hmc Hb) as [H1 Hb1]. destruct (Hk a _ _ _ Hc Hb1) as [H2 Hb2].
  split; [|done]. by rewrite H2, H1, app_assoc, Hl.
Qed.
Lemma adds_bind {A B} (m : C Q A) (k : A → C Q B) (l : B → list nat) :
  adds m (λ _, []) → (∀ a, adds (k a) l) → adds (m ≫= k) l.
Proof. intros Hm Hk. apply (adds_seq m k (λ _, []) (λ _, l)); [done..|]. intros. by rewrite app_nil_r. Qed.
Lemma adds_then {A B} (m : C Q A) (k : A → C Q B) (l : list nat) :
  adds m (λ _, l) → (∀ a, adds (k a) (λ _, [])) → adds (m ≫= k) (λ _, l).
Proof. intros Hm Hk. by apply (adds_seq m k (λ _, l) (λ _ _, [])). Qed.
Lemma adds_last {A B} (m : C Q A) (b : B) (l0 : list nat) (l : B → list nat) :
  adds m (λ _, l0) → l b = l0 → adds (m ≫= λ _, mret b) l.
Proof.
  intros Hm Hl c b' c' Hc Hb. unfold mbind, C_bind in Hc. destruct (m c) as [[a c1]|e] eqn:Hmc; [|done].
  injection Hc as <- <-. rewrite Hl. by apply (Hm _ _ _ Hmc).
Qed.
Lemma adds_if {A} (b : bool) (m m' : C Q A) l : adds m l → adds m' l → adds (if b then m else m') l.
Proof. by destruct b. Qed.

(** [moves l0 m l]: [m] puts the requests of [l] somewhere, those of [l0] among
    them having been put there before. *)
Definition moves {A} (l0 : list nat) (m : C Q A) (l : A → list nat) : Prop :=
  ∀ c a c', m c = Ok (a, c') → requests_ok c → l0 ++ places c' ≡ₚ l a ++ places c ∧ requests_ok c'.

Lemma moves_adds {A} (m : C Q A) l : moves [] m l → adds m l.
Proof. done. Qed.
Lemma moves_seq {A B} (m : C Q A) (k : A → C Q B) l0 (l1 : A → list nat) (l : B → list nat) :
  moves l0 m l1 → (∀ a, moves (l1 a) (k a) l) → moves l0 (m ≫= k) l.
Proof.
  intros Hm Hk c b c' Hc Hb. unfold mbind, C_bind in Hc. destruct (m c) as [[a c1]|e] eqn:Hmc; [|done].
  destruct (Hm _ _ _ Hmc Hb) as [H1 Hb1]. destruct (Hk a _ _ _ Hc Hb1) as [H2 Hb2]. split; [|done].
  apply (Permutation_app_inv_l (l1 a)). rewrite !app_assoc, (Permutation_app_comm (l1 a) l0), (Permutation_app_comm (l1 a) (l b)).
  by rewrite <- !app_assoc, H2, <- H1, !app_assoc, (Permutation_app_comm l0 (l b)).
Qed.
Lemma moves_ret {A} l0 (a : A) (l : A → list nat) : l a = l0 → moves l0 (mret a) l.
Proof. intros Hl c a' c' [= <- <-] Hb. by rewrite Hl. Qed.
Lemma adds_moves {A} (m : C Q A) l0 l : adds m l → moves l0 m (λ a, l0 ++ l a).
Proof. intros Hm c a c' Hc Hb. destruct (Hm _ _ _ Hc Hb) as [H1 H2]. split; [|done]. by rewrite H1, app_assoc. Qed.
Lemma moves_if {A} (b : bool) (m m' : C Q A) l0 l : moves l0 m l → moves l0 m' l → moves l0 (if b then m else m') l.
Proof. by destruct b. Qed.

(** A change of the state that does not concern requests or buckets. *)
Definition inert (f : Cluster Q → Cluster Q) : Prop :=
  ∀ c, cl_inflight (f c) = cl_inflight c ∧ cl_shaper (f c) = cl_shaper c ∧ cl_tasks (f c) = cl_tasks c ∧
    cl_output (f c) = cl_output c ∧ cl_requests (f c) = cl_requests c ∧ cl_maxRetryCount (f c) = cl_maxRetryCount c.

Lemma adds_inert f : inert f → adds (cl_put f) (λ _, []).
Proof.
  intros Hf c [] c' [= <-] Hb. destruct (Hf c) as (H1 & H2 & H3 & H4 & H5 & H6). unfold places, requests_ok, cr_ok.
  by rewrite H1, H2, H3, H4, H5, H6.
Qed.
Lemma adds_on_member i f : adds (on_member (Q:=Q) i f) (λ _, []).
Proof. by apply adds_inert. Qed.

Lemma requests_ok_alter r f c :
  (∀ x, cr_ok c x → cr_ok c (f x)) → requests_ok c → requests_ok (cl_setRequests (alter f r (cl_requests c)) c).
Proof.
  intros Hf [Hlim Hb]. split; [done|]. intros r' x Hx. cbn in Hx.
  apply lookup_alter_Some in Hx as [(<- & y & Hy & ->)|[_ Hx]]; [by apply Hf, (Hb r)|by apply (Hb r')].
Qed.
Lemma adds_on_cr r f :
  (∀ x, cr_bucket (f x) = cr_bucket x) → (∀ x, cr_tryCount (f x) = cr_tryCount x) → adds (on_cr (Q:=Q) r f) (λ _, []).
Proof.
  intros Hf Hg c [] c' [= <-] Hb. split; [done|]. apply requests_ok_alter; [|done].
  intros x [H1 H2]. split; [by rewrite Hf|by rewrite Hg].
Qed.

Lemma requests_ok_shaper c q :
  (∀ b, sh_valid b (cl_shaper c) → sh_valid b q) → requests_ok c → requests_ok (cl_setShaper q c).
Proof. intros Hv [Hlim Hb]. split; [done|]. intros r x Hx. destruct (Hb r x Hx) as [H1 H2]. split; auto. Qed.

Lemma adds_on_shaper f :
  (∀ q q', f q = Ok q' → sh_items q' ≡ₚ sh_items q ∧ ∀ b, sh_valid b q → sh_valid b q') →
  adds (on_shaper (Q:=Q) f) (λ _, []).
Proof.
  intros Hf c [] c' Hm Hb. unfold on_shaper in Hm. destruct (f (cl_shaper c)) as [q|e] eqn:Hq; [|done].
  injection Hm as <-. destruct (Hf _ _ Hq) as [Hi Hv]. split; [unfold places; cbn; by rewrite Hi|]. by apply requests_ok_shaper.
Qed.
Lemma adds_put b n : adds (on_shaper (Q:=Q) (sh_put b n)) (λ _, []).
Proof. apply adds_on_shaper. intros q q' Hq. split; [by eapply put_items|]. intros; by eapply put_valid. Qed.
Lemma adds_resize n : adds (on_shaper (Q:=Q) (λ q, sh_resize (n q) q)) (λ _, []).
Proof. apply adds_on_shaper. intros q q' Hq. split; [by eapply resize_items|]. intros; by eapply resize_valid. Qed.

Lemma adds_shaper_get b n : adds (shaper_get (Q:=Q) b n) (λ _, []).
Proof.
  intros c a c' Hm Hb. unfold shaper_get in Hm. pose proof (get_items b n (cl_shaper c)) as Hi.
  pose proof (get_valid b n (cl_shaper c)) as Hv. destruct (sh_get b n (cl_shaper c)) as [z q]. injection Hm as <- <-.
  split; [unfold places; cbn; by rewrite Hi|]. apply requests_ok_shaper; [|done]. intros b'. apply Hv.
Qed.

(** What is said to a listener; the end of a response is the answer. *)
Lemma adds_emit o : adds (emit (Q:=Q) o) (λ _, option_list (answered o)).
Proof.
  intros c [] c' [= <-] Hb. split; [|done]. unfold places. cbn. rewrite omap_app. cbn.
  destruct (answered o) as [r|]; cbn; [|by rewrite app_nil_r]. rewrite !app_assoc. by rewrite Permutation_app_comm.
Qed.
Lemma adds_post t : adds (post (Q:=Q) t) (λ _, [task_request t]).
Proof.
  intros c [] c' [= <-] Hb. split; [|done]. unfold places. cbn. rewrite fmap_app. cbn.
  rewrite <- !app_assoc. cbn. by rewrite <- !Permutation_middle.
Qed.

(** Taking a request out of the queue. *)
Lemma cl_dequeue_places c x c' :
  cl_dequeue c = Ok (x, c') → requests_ok c → option_list x ++ places c' ≡ₚ places c ∧ requests_ok c'.
Proof.
  intros Hm Hb. unfold cl_dequeue in Hm. destruct (sh_dequeue (cl_shaper c)) as [[y q]|e] eqn:Hq; [|done].
  pose proof (dequeue_items _ _ _ Hq) as Hi. cbn in Hm.
  assert (Hp : option_list y ++ places (cl_setShaper q c) ≡ₚ places c).
  { unfold places. cbn. rewrite <- Hi. destruct y; cbn; [|done]. by rewrite <- Permutation_middle. }
  assert (Hok : requests_ok (cl_setShaper q c)).
  { apply requests_ok_shaper; [|done]. intros b. by eapply dequeue_valid. }
  destruct y; injection Hm as <- <-; done.
Qed.
End places.

Create HintDb cluster.
#[export] Hint Resolve adds_raise adds_get adds_cr adds_member adds_bind adds_if adds_on_member adds_put adds_resize
  adds_shaper_get adds_post : cluster.
#[export] Hint Extern 1 (adds (mret _) _) => apply adds_ret; done : cluster.
#[export] Hint Extern 3 (adds (on_cr _ _) _) => apply adds_on_cr; done : cluster.
#[export] Hint Extern 3 (adds (cl_put _) _) => apply adds_inert; done : cluster.
#[export] Hint Extern 3 (adds (emit ?o) _) => exact (adds_emit o) : cluster.

Ltac cstep :=
  match goal with
  | |- _ => solve [auto with cluster nocore]
  | |- adds (_ ≫= _) (λ _, _ :: _) => apply adds_then; [solve [auto with cluster nocore]|intros ?]
  | |- adds (_ ≫= (λ _, mret _)) _ => eapply adds_last; [solve [eauto with cluster nocore]|done]
  | |- adds (?m ≫= _) _ => lazymatch m with scheduler_schedule _ => fail | _ => apply adds_bind; [|intros ?] end
  | |- adds (if _ then _ else _) _ => apply adds_if
  | |- adds (match ?x with _ => _ end) _ => destruct x
  end.
Ltac csteps := repeat cstep.

Section operations.
Context {Q : Type} `{ShaperLaws Q}.
Implicit Types (c : Cluster Q).

Lemma adds_dequeueTo m : adds (dequeueTo (Q:=Q) m) (λ _, []).
Proof.
  intros c [] c' Hm Hb. unfold dequeueTo, mbind, C_bind in Hm.
  destruct (cl_dequeue c) as [[x c1]|e] eqn:Hd; [|done]. destruct (cl_dequeue_places _ _ _ Hd Hb) as [Hp Hb1].
  destruct x as [r|]; cbn in Hp.
  - destruct (adds_post (TDequeued r m) _ _ _ Hm Hb1) as [H1 H2]. split; [|done]. cbn in *. by rewrite H1.
  - injection Hm as <-. done.
Qed.
#[local] Hint Resolve adds_dequeueTo : cluster.

Lemma adds_onTimeouts rs : adds (onTimeouts (Q:=Q) rs) (λ _, rs).
Proof.
  induction rs as [|r rs IH]; cbn [onTimeouts]; [csteps|].
  eapply (adds_seq _ _ (λ _, [r]) (λ _ _, rs)); [|done|].
  - unfold cl_onTimeout. csteps.
  - intros _ _. by rewrite (Permutation_app_comm rs [r]).
Qed.

Lemma adds_header r name value : adds (cr_onMessageHeader (Q:=Q) r name value) (λ _, []).
Proof. unfold cr_onMessageHeader. csteps. Qed.
Lemma adds_header_end r : adds (cr_onMessageHeaderEnd (Q:=Q) r) (λ _, []).
Proof.
  unfold cr_onMessageHeaderEnd. csteps; intros c [] c' Hm; destruct (via_version _); try done;
    by apply (adds_emit (OHeader r _ _) _ _ _ Hm).
Qed.
#[local] Hint Resolve adds_header adds_header_end : cluster.

(** The end of a response puts its request among the answered ones. *)
Lemma adds_end r : adds (cr_onMessageEnd (Q:=Q) r) (λ _, [r]).
Proof. unfold cr_onMessageEnd, mb_release, onProcessingSucceed. csteps. Qed.
#[local] Hint Resolve adds_end : cluster.

Lemma adds_unavailable r status : adds (serviceUnavailable (Q:=Q) r status) (λ _, [r]).
Proof. unfold serviceUnavailable, cr_onMessageBegin. csteps. Qed.
#[local] Hint Resolve adds_unavailable : cluster.

(** A request that is put into its bucket's queue; those that have waited too
    long leave it. *)
Lemma adds_enqueue now r : adds (cl_enqueue (Q:=Q) now r) (λ _, [r]).
Proof.
  intros c [] c' Hm Hb. revert Hm. unfold cl_enqueue. unfold mbind at 1, C_bind at 1, the_cr.
  destruct (cl_requests c !! r) as [x|] eqn:Hx; [|done]. destruct (cr_bucket x) as [b|] eqn:Hxb; [|done].
  unfold mbind at 1, C_bind at 1, cl_get. destruct (_ <? _); [|intros Hm; by apply (adds_unavailable r 503 _ _ _ Hm)].
  unfold mbind at 1, C_bind at 1. cbn [on_cr cl_put].
  set (c1 := cl_setRequests _ c). intros Hm.
  assert (Hb1 : requests_ok c1) by (by apply requests_ok_alter).
  assert (Hv : sh_valid b (cl_shaper c1)) by (by apply (proj2 Hb r x)).
  revert Hm. unfold mbind at 1, C_bind at 1. pose proof (enqueue_items r now b _ Hv) as Hi.
  pose proof (enqueue_valid r now b (cl_shaper c1)) as Hv'. destruct (sh_enqueue r now b (cl_shaper c1)) as [q gone].
  set (m := onTimeouts gone ≫= _). intros Hm. cbn in Hi.
  assert (Ha : adds m (λ _, gone)).
  { unfold m. apply (adds_then _ _ gone); [apply adds_onTimeouts|intros _; csteps]. }
  destruct (Ha _ _ _ Hm) as [H1 H2]; [by apply requests_ok_shaper|]. split; [|done]. rewrite H1.
  unfold places. cbn. rewrite Permutation_middle, (Permutation_app_comm gone), <- app_assoc. f_equiv.
  change (r :: sh_items (cl_shaper c) ++ ?l) with ((r :: sh_items (cl_shaper c)) ++ l). rewrite <- Hi, <- !app_assoc. f_equiv.
  by rewrite (Permutation_app_comm gone), <- app_assoc.
Qed.

Lemma adds_capacity i old : adds (onCapacityChanged (Q:=Q) i old) (λ _, []).
Proof. unfold onCapacityChanged. csteps. Qed.
#[local] Hint Resolve adds_enqueue adds_capacity : cluster.
Lemma adds_setHealth i st : adds (setHealth (Q:=Q) i st) (λ _, []).
Proof. unfold setHealth, onHealthChanged, setEnabled. csteps. Qed.
#[local] Hint Resolve adds_setHealth : cluster.
Lemma adds_checked i status : adds (checked (Q:=Q) i status) (λ _, []).
Proof. unfold checked, logSuccess, logFailure, on_health. csteps. Qed.

(** A member takes the request, or leaves it where it was. *)
Definition taken (r : nat) (st : SchedulerStatus) : list nat := if bool_decide (st = SSuccess) then [r] else [].

Lemma adds_send r i : adds (cl_put (Q:=Q) (λ c, cl_setInflight (cl_inflight c ++ [(r, i)]) c)) (λ _, [r]).
Proof.
  intros c [] c' [= <-] Hb. split; [|done]. unfold places. cbn. rewrite fmap_app. cbn. rewrite <- app_assoc. cbn.
  by rewrite <- Permutation_middle.
Qed.
#[local] Hint Resolve adds_send : cluster.
Lemma adds_tryProcess r i : adds (tryProcess (Q:=Q) r i) (taken r).
Proof. unfold tryProcess. csteps. Qed.
#[local] Hint Resolve adds_tryProcess : cluster.

(** The loops over the members: when one takes the request the loop ends. *)
Lemma adds_rr_loop r limit k : ∀ next u, adds (rr_loop (Q:=Q) r limit k next u) (λ p, taken r p.1).
Proof.
  induction k as [|k IH]; intros next u; cbn [rr_loop].
  { apply adds_ret. by destruct (u =? limit)%nat. }
  apply moves_adds. eapply moves_seq; [apply adds_tryProcess|]. intros []; [apply IH|by apply moves_ret|apply IH].
Qed.
Lemma adds_chance_loop r size k : ∀ i u, adds (chance_loop (Q:=Q) r size k i u) (taken r).
Proof.
  induction k as [|k IH]; intros i u; cbn [chance_loop].
  { apply adds_ret. by destruct (u <? size)%nat. }
  apply moves_adds. eapply moves_seq; [apply adds_tryProcess|]. intros []; [apply IH|by apply moves_ret|apply IH].
Qed.
Lemma adds_scheduler r : adds (scheduler_schedule (Q:=Q) r) (taken r).
Proof.
  apply adds_bind; [apply adds_get|]. intros c0. destruct (cl_scheduler c0); [|apply adds_chance_loop].
  apply moves_adds. eapply moves_seq; [apply adds_rr_loop|]. intros [st n].
  eapply moves_seq; [apply (adds_moves _ _ (λ _, [])); by apply adds_inert|]. intros []. cbn. rewrite app_nil_r. by apply moves_ret.
Qed.

(** The tries are never counted, so the limit is never reached. *)
Lemma adds_verify r (l : list nat) : adds (verifyTryCount (Q:=Q) r) (λ ok, if ok then [] else l).
Proof.
  intros c a c' Hm Hb. revert Hm. unfold verifyTryCount, mbind, C_bind, the_cr, cl_get.
  destruct (cl_requests c !! r) as [x|] eqn:Hx; [|done]. destruct (proj2 Hb r x Hx) as [_ Hle].
  rewrite (proj2 (Z.leb_le _ _) Hle). by intros [= <- <-].
Qed.

Lemma adds_reschedule now r : adds (reschedule (Q:=Q) now r) (λ _, [r]).
Proof.
  apply moves_adds. eapply moves_seq; [apply (adds_verify r [r])|]. intros []; [|by apply moves_ret].
  eapply moves_seq; [apply adds_scheduler|]. intros []; cbn; [apply adds_enqueue|by apply moves_ret|apply adds_enqueue].
Qed.
#[local] Hint Resolve adds_reschedule : cluster.

(** What follows the scheduler's answer. *)
Lemma adds_attempt {B} (m : C Q SchedulerStatus) r (k : SchedulerStatus → C Q B) :
  adds m (taken r) → moves [r] (k SSuccess) (λ _, [r]) → (∀ st, st ≠ SSuccess → adds (k st) (λ _, [r])) →
  adds (m ≫= k) (λ _, [r]).
Proof.
  intros Hm Hs Hk. apply moves_adds. eapply moves_seq; [exact Hm|]. intros st. unfold taken.
  destruct (decide (st = SSuccess)) as [->|Hst]; [done|]. rewrite bool_decide_eq_false_2 by done. by apply Hk.
Qed.

Lemma adds_schedule now r b c :
  ∀ c', cl_schedule now r b c = Ok ((), c') → sh_valid b (cl_shaper c) → requests_ok c →
  places c' ≡ₚ r :: places c ∧ requests_ok c'.
Proof.
  intros c' Hm Hv Hb. revert Hm. unfold cl_schedule. unfold mbind at 1, C_bind at 1. cbn [on_cr cl_put].
  set (c1 := cl_setRequests _ c). change (places c) with (places c1).
  set (m := cl_get id ≫= _). intros Hm. assert (Ha : adds m (λ _, [r])).
  { unfold m. csteps. apply adds_attempt; [apply adds_scheduler|by apply moves_ret|]. intros st Hst.
    rewrite bool_decide_eq_false_2 by done. csteps. }
  apply (Ha _ _ _ Hm), requests_ok_alter; [|done]. intros x [H1 H2]. split; [|done]. intros b' [= <-]. done.
Qed.

Lemma adds_run_task now t : adds (run_task (Q:=Q) now t) (λ _, [task_request t]).
Proof.
  destruct t as [r i|r]; cbn [run_task task_request]; [|csteps].
  apply adds_bind; [by apply adds_on_cr|]. intros []. apply adds_attempt; [apply adds_tryProcess|..].
  - cbn. eapply moves_seq; [apply adds_moves, (adds_verify r [])|]. intros []; by apply moves_ret.
  - intros st Hst. rewrite bool_decide_eq_false_2 by done. cbn [negb]. csteps.
Qed.

Lemma adds_pass_headers r hs : adds (pass_headers (Q:=Q) r hs) (λ _, []).
Proof. induction hs as [|f hs IH]; cbn [pass_headers]; csteps. Qed.
#[local] Hint Resolve adds_pass_headers : cluster.
Lemma adds_failure now r i : adds (mb_onFailure (Q:=Q) now r i) (λ _, [r]).
Proof. unfold mb_onFailure, unload, onProcessingFailed. csteps. Qed.
Lemma adds_response r i info body : adds (mb_onResponseReceived (Q:=Q) r i info body) (λ _, [r]).
Proof. unfold mb_onResponseReceived, unload, cr_onMessageBegin. csteps. Qed.

Lemma remove_one_perm x l l' : remove_one x l = Some l' → x :: l' ≡ₚ l.
Proof.
  revert l'. induction l as [|y l IH]; intros l' Hl; [done|]. cbn in Hl. case_bool_decide as Hy; [naive_solver|].
  apply fmap_Some in Hl as (l'' & Hl & ->). by rewrite <- (IH l''), Permutation_swap.
Qed.
Lemma moves_finish r i : moves [r] (finish (Q:=Q) r i) (λ _, []).
Proof.
  intros c [] c' Hm Hb. unfold finish in Hm. destruct (remove_one _ _) as [l|] eqn:Hl; [|done]. injection Hm as <-.
  split; [|done]. apply remove_one_perm in Hl. unfold places. cbn. by rewrite <- Hl.
Qed.
Lemma adds_finished {A} r i (m : C Q A) : adds m (λ _, [r]) → adds (finish r i ≫= λ _, m) (λ _, []).
Proof.
  intros Hm c a c' Hc Hb. unfold mbind, C_bind in Hc. destruct (finish r i c) as [[[] c1]|e] eqn:Hf; [|done].
  destruct (moves_finish r i _ _ _ Hf Hb) as [H1 Hb1]. destruct (Hm _ _ _ Hc Hb1) as [H2 Hb2]. split; [|done].
  cbn in *. by rewrite H2.
Qed.

(** A request is new when it is scheduled, and its bucket exists. *)
Definition bucket_known c (ev : cluster_event) : Prop :=
  match ev with EvSchedule r b _ _ => sh_valid b (cl_shaper c) | _ => True end.
Definition scheduled (ev : cluster_event) : list nat := match ev with EvSchedule r _ _ _ => [r] | _ => [] end.

Lemma step_places now ev c c' :
  cluster_step now ev c = Ok ((), c') → bucket_known c ev → requests_ok c →
  places c' ≡ₚ scheduled ev ++ places c ∧ requests_ok c'.
Proof.
  intros Hm He Hb. destruct ev as [r b v id|r i info body|r i| |b|i st|i n|i b]; cbn [cluster_step scheduled] in *.
  - apply (adds_schedule now r b _ _ Hm He). destruct Hb as [H1 H2]. split; [done|]. intros r' x Hx. cbn in Hx.
    apply lookup_insert_Some in Hx as [[_ <-]|[_ Hx]]; [done|by apply (H2 r')].
  - by apply (adds_finished r i _ (adds_response r i info body) _ _ _ Hm).
  - by apply (adds_finished r i _ (adds_failure now r i) _ _ _ Hm).
  - revert Hm. unfold mbind at 1, C_bind at 1, cl_get. destruct (cl_tasks c) as [|t ts] eqn:Ht; [by intros [= <-]|].
    intros Hm. destruct (adds_run_task now t _ _ _ Hm) as [H1 H2]; [done|]. split; [|done]. rewrite H1.
    unfold places. cbn. rewrite Ht. cbn. by rewrite Permutation_middle, Permutation_middle.
  - pose proof (timer_items now b (cl_shaper c)) as Hi. pose proof (timer_valid now b (cl_shaper c)) as Hv.
    destruct (sh_timer now b (cl_shaper c)) as [q gone]. cbn in Hi.
    destruct (adds_onTimeouts gone _ _ _ Hm) as [H1 H2]; [by apply requests_ok_shaper|]. split; [|done]. rewrite H1.
    unfold places. cbn. rewrite <- Hi. rewrite (Permutation_app_comm gone), <- !app_assoc. do 2 f_equiv.
    by rewrite (Permutation_app_comm gone), <- app_assoc.
  - by apply (adds_checked i st _ _ _ Hm).
  - assert (Ha : adds (setCapacity (Q:=Q) i n) (λ _, [])) by (unfold setCapacity; csteps). by apply (Ha _ _ _ Hm).
  - by apply (adds_on_member i _ _ _ _ Hm).
Qed.

(** Events in order of time, as long as none ends in an exception. *)
Inductive cluster_run : Cluster Q → list cluster_event → Cluster Q → Prop :=
  | run_nil c : cluster_run c [] c
  | run_cons now ev evs c c1 c2 :
      bucket_known c ev → cluster_step now ev c = Ok ((), c1) → cluster_run c1 evs c2 → cluster_run c (ev :: evs) c2.

(** C13 (invariant). Requests are neither lost nor duplicated: after any events,
    the requests that were scheduled are exactly those that are with a member,
    in a queue, in a posted task or answered, each counted as often as it was
    scheduled; for any shaper that keeps what it is given. *)
Theorem no_request_lost c evs c' :
  cluster_run c evs c' → requests_ok c →
  (cl_inflight c').*1 ++ sh_items (cl_shaper c') ++ (task_request <$> cl_tasks c') ++ omap answered (cl_output c')
    ≡ₚ (evs ≫= scheduled) ++ places c.
Proof.
  change (cluster_run c evs c' → requests_ok c → places c' ≡ₚ (evs ≫= scheduled) ++ places c).
  induction 1 as [|now ev evs c c1 c2 He Hs _ IH]; intros Hb; [done|].
  destruct (step_places _ _ _ _ Hs He Hb) as [H1 H2]. rewrite (IH H2), H1. cbn.
  by rewrite !app_assoc, (Permutation_app_comm (_ ≫= _)).
Qed.
End operations.

(** ** Load of the members

    The limit that the capacities of a member keep within; [0] for none. *)
Class Limits := limit_of : nat → Z.

Section load.
Context {Q : Type} `{Shaper Q} `{Limits}.
Implicit Types (c : Cluster Q).

(** How many requests member [i] has. *)
Definition with_member (i : nat) c : Z := Z.of_nat (length (filter (λ p, p.2 = i) (cl_inflight c))).

(** The load of a member counts its requests, which are within its limit. *)
Definition load_ok c (i : nat) (m : Member) : Prop :=
  fits 64 (mb_capacity m) ∧ c_current (mb_load m) = u64 (with_member i c) ∧
  (0 < limit_of i → limit_of i < 2 ^ 64 ∧ 0 < mb_capacity m ≤ limit_of i ∧ with_member i c ≤ limit_of i).
Definition loads_ok c : Prop := ∀ i m, cl_members c !! i = Some m → load_ok c i m.

Definition keeps_load {A} (m : C Q A) : Prop := ∀ c a c', m c = Ok (a, c') → loads_ok c → loads_ok c'.

Lemma kl_bind {A B} (m : C Q A) (k : A → C Q B) : keeps_load m → (∀ a, keeps_load (k a)) → keeps_load (m ≫= k).
Proof.
  intros Hm Hk c b c' Hc Hl. unfold mbind, C_bind in Hc. destruct (m c) as [[a c1]|e] eqn:Hmc; [|done].
  by eapply Hk, Hm.
Qed.
(** What leaves the members and their requests alone. *)
Lemma kl_quiet {A} (m : C Q A) :
  (∀ c a c', m c = Ok (a, c') → cl_members c' = cl_members c ∧ cl_inflight c' = cl_inflight c) → keeps_load m.
Proof. intros Hm c a c' Hc Hl i x. unfold load_ok, with_member. destruct (Hm _ _ _ Hc) as [-> ->]. apply Hl. Qed.
Lemma kl_put f : (∀ c, cl_members (f c) = cl_members c ∧ cl_inflight (f c) = cl_inflight c) → keeps_load (cl_put (Q:=Q) f).
Proof. intros Hf. apply kl_quiet. intros c a c' [= _ <-]. apply Hf. Qed.
Lemma kl_ret {A} (a : A) : keeps_load (mret a : C Q A).
Proof. by intros c a' c' [= _ <-]. Qed.
Lemma alter_member f i j (l : list Member) x :
  alter f i l !! j = Some x → (i = j ∧ ∃ y, l !! j = Some y ∧ f y = x) ∨ (i ≠ j ∧ l !! j = Some x).
Proof.
  destruct (decide (i = j)) as [<-|Hij]; [|rewrite list_lookup_alter_ne by done; by right].
  rewrite list_lookup_alter, decide_True by done. destruct (l !! i) as [y|]; intros [= <-]. left. eauto.
Qed.
Lemma kl_on_member i f :
  (∀ m, mb_load (f m) = mb_load m) → (∀ m, mb_capacity (f m) = mb_capacity m) → keeps_load (on_member (Q:=Q) i f).
Proof.
  intros Hf Hg c [] c' [= <-] Hl j x Hx. cbn in Hx. apply alter_member in Hx.
  destruct Hx as [(<- & y & Hy & <-)|[_ Hx]]; [|by apply Hl].
  unfold load_ok. rewrite Hf, Hg. by apply (Hl _ _ Hy).
Qed.
End load.

(** Primitive steps that do not concern members. *)
Ltac kl_primitive :=
  apply kl_quiet; intros ? ? ? ?;
  unfold on_shaper, shaper_get, on_cr, emit, post, cl_put, cl_get, cl_raise, the_cr, the_member, cl_dequeue, mbind, result_bind in *;
  repeat case_match; simplify_eq/=; done.
Create HintDb load.
#[export] Hint Resolve kl_ret : load.
#[export] Hint Extern 2 (keeps_load (on_member _ _)) => apply kl_on_member; done : load.
Ltac klstep :=
  match goal with
  | |- _ => solve [auto with load nocore]
  | |- keeps_load (_ ≫= _) => apply kl_bind; [|intros ?]
  | |- keeps_load (match ?x with _ => _ end) => destruct x
  | |- _ => solve [kl_primitive]
  end.
Ltac klsteps := repeat klstep.

Section load_operations.
Context {Q : Type} `{Shaper Q} `{Limits}.
Implicit Types (c : Cluster Q).

Lemma kl_dequeueTo m : keeps_load (dequeueTo (Q:=Q) m).
Proof. unfold dequeueTo. klsteps. Qed.
#[local] Hint Resolve kl_dequeueTo : load.
Lemma kl_header r name value : keeps_load (cr_onMessageHeader (Q:=Q) r name value).
Proof. unfold cr_onMessageHeader. klsteps. Qed.
Lemma kl_header_end r : keeps_load (cr_onMessageHeaderEnd (Q:=Q) r).
Proof. unfold cr_onMessageHeaderEnd. klsteps. Qed.
Lemma kl_end r : keeps_load (cr_onMessageEnd (Q:=Q) r).
Proof. unfold cr_onMessageEnd, mb_release, onProcessingSucceed. klsteps. Qed.
#[local] Hint Resolve kl_header kl_header_end kl_end : load.
Lemma kl_unavailable r status : keeps_load (serviceUnavailable (Q:=Q) r status).
Proof. unfold serviceUnavailable, cr_onMessageBegin. klsteps. Qed.
#[local] Hint Resolve kl_unavailable : load.
Lemma kl_onTimeouts rs : keeps_load (onTimeouts (Q:=Q) rs).
Proof. induction rs; cbn [onTimeouts]; unfold cl_onTimeout; klsteps. Qed.
#[local] Hint Resolve kl_onTimeouts : load.
Lemma kl_enqueue now r : keeps_load (cl_enqueue (Q:=Q) now r).
Proof. unfold cl_enqueue. klsteps. Qed.
Lemma kl_setHealth i st : keeps_load (setHealth (Q:=Q) i st).
Proof. unfold setHealth, onHealthChanged, setEnabled. klsteps. Qed.
#[local] Hint Resolve kl_enqueue kl_setHealth : load.
Lemma kl_checked i st : keeps_load (checked (Q:=Q) i st).
Proof. unfold checked, logSuccess, logFailure, on_health. klsteps. Qed.
Lemma kl_pass_headers r hs : keeps_load (pass_headers (Q:=Q) r hs).
Proof. induction hs; cbn [pass_headers]; klsteps. Qed.

(** Requests of a member when one is sent or answered. *)
Lemma with_member_sent j r i c c' :
  cl_inflight c' = cl_inflight c ++ [(r, i)] → with_member j c' = with_member j c + (if decide (i = j) then 1 else 0).
Proof.
  intros Hc. unfold with_member. rewrite Hc, list.filter_app, length_app, filter_cons. cbn [snd].
  destruct (decide _); cbn; lia.
Qed.

(** Only a member with room takes a request. *)
Lemma kl_tryProcess r i : keeps_load (tryProcess (Q:=Q) r i).
Proof.
  intros c st c' Hm Hl. revert Hm. unfold tryProcess, mbind, C_bind, the_member.
  destruct (cl_members c !! i) as [m|] eqn:Hi; [|done]. destruct (negb (mb_enabled m)); [by intros [= _ <-]|].
  destruct (negb (isOnline _)); [by intros [= _ <-]|].
  destruct (negb (mb_capacity m =? 0) && (mb_capacity m <=? c_current (mb_load m))) eqn:Hfull; [by intros [= _ <-]|].
  cbn. intros [= _ <-] j x Hx. cbn in Hx. destruct (Hl _ _ Hi) as (H1 & H2 & H3).
  assert (Hpos : 0 ≤ with_member i c) by (unfold with_member; lia).
  unfold load_ok. rewrite (with_member_sent j r i c) by done. apply alter_member in Hx.
  destruct Hx as [(<- & y & Hy & <-)|[Hne Hx]]; cbn.
  - simplify_eq. rewrite decide_True by done. cbn. rewrite H2. unfold u64 in *. rewrite H2 in Hfull.
    split_and!; [done|by rewrite Zplus_mod_idemp_l|]. intros Hc. specialize (H3 Hc) as (Hb & Hcap & Hw).
    rewrite Z.mod_small in Hfull by lia. lia.
  - rewrite decide_False by done. rewrite Z.add_0_r. by apply Hl.
Qed.
#[local] Hint Resolve kl_tryProcess : load.

Lemma kl_rr_loop r limit k : ∀ next u, keeps_load (rr_loop (Q:=Q) r limit k next u).
Proof. induction k as [|k IH]; intros next u; cbn [rr_loop]; klsteps; apply IH. Qed.
Lemma kl_chance_loop r size k : ∀ i u, keeps_load (chance_loop (Q:=Q) r size k i u).
Proof. induction k as [|k IH]; intros i u; cbn [chance_loop]; klsteps; apply IH. Qed.
#[local] Hint Resolve kl_rr_loop kl_chance_loop kl_pass_headers kl_checked : load.
Lemma kl_scheduler r : keeps_load (scheduler_schedule (Q:=Q) r).
Proof. unfold scheduler_schedule. klsteps. Qed.
Lemma kl_verify r : keeps_load (verifyTryCount (Q:=Q) r).
Proof. unfold verifyTryCount. klsteps. Qed.
#[local] Hint Resolve kl_scheduler kl_verify : load.
Lemma kl_reschedule now r : keeps_load (reschedule (Q:=Q) now r).
Proof. unfold reschedule. klsteps. Qed.
#[local] Hint Resolve kl_reschedule : load.
Lemma kl_schedule now r b : keeps_load (cl_schedule (Q:=Q) now r b).
Proof. unfold cl_schedule. klsteps. Qed.
Lemma kl_run_task now t : keeps_load (run_task (Q:=Q) now t).
Proof. unfold run_task. klsteps. Qed.
#[local] Hint Resolve kl_schedule kl_run_task : load.

Lemma with_member_done j r i c c' :
  (r, i) :: cl_inflight c' ≡ₚ cl_inflight c → with_member j c' = with_member j c - (if decide (i = j) then 1 else 0).
Proof. intros Hc. unfold with_member. rewrite <- Hc, filter_cons. cbn [snd]. destruct (decide _); cbn; lia. Qed.

(** The client is done with a request: the member has one less. *)
Lemma finish_unload {A} r i (k : C Q A) : keeps_load k → keeps_load (finish r i ≫= λ _, unload i ≫= λ _, k).
Proof.
  intros Hk c a c' Hm Hl. revert Hm. unfold mbind, C_bind, finish.
  destruct (remove_one (r, i) (cl_inflight c)) as [l|] eqn:Hr; [|done]. apply remove_one_perm in Hr.
  cbn. intros Hm. refine (Hk _ _ _ Hm _). intros j x Hx. cbn in Hx.
  unfold load_ok. rewrite (with_member_done j r i c) by done. apply alter_member in Hx as [(<- & y & Hy & <-)|[Hne Hx]].
  - rewrite decide_True by done. destruct (Hl _ _ Hy) as (H1 & H2 & H3). cbn. rewrite H2. unfold u64.
    split_and!; [done|by rewrite Zminus_mod_idemp_l|]. intros Hc. specialize (H3 Hc). lia.
  - rewrite decide_False, Z.sub_0_r by done. by apply Hl.
Qed.

(** A change of a capacity respects the limit of the member. *)
Definition resize_ok (ev : cluster_event) : Prop :=
  match ev with EvCapacity i n => fits 64 n ∧ (0 < limit_of i → 0 < n ≤ limit_of i) | _ => True end.

Lemma kl_setCapacity i n : resize_ok (EvCapacity i n) → keeps_load (setCapacity (Q:=Q) i n).
Proof.
  intros [Hn Hl]. unfold setCapacity. apply kl_bind; [klsteps|intros m]. apply kl_bind; [|intros _; unfold onCapacityChanged; klsteps].
  intros c [] c' [= <-] Hc j x Hx. cbn in Hx. apply alter_member in Hx.
  destruct Hx as [(<- & y & Hy & <-)|[_ Hx]]; [|by apply Hc].
  destruct (Hc _ _ Hy) as (H1 & H2 & H3). split_and!; [done|done|]. cbn. intros Hpos.
  destruct (H3 Hpos) as (? & ? & ?). auto.
Qed.

Lemma kl_step now ev : resize_ok ev → keeps_load (cluster_step (Q:=Q) now ev).
Proof.
  intros Hev. destruct ev as [r b v id|r i info body|r i| |b|i st|i n|i b]; cbn [cluster_step]; [klsteps|..].
  - unfold mb_onResponseReceived, cr_onMessageBegin. apply finish_unload. klsteps.
  - unfold mb_onFailure, onProcessingFailed. apply finish_unload. klsteps.
  - klsteps.
  - intros c [] c' Hm Hl. destruct (sh_timer _ _ _) as [q gone]. by apply (kl_onTimeouts gone _ _ _ Hm).
  - klsteps.
  - by apply kl_setCapacity.
  - unfold setEnabled. klsteps.
Qed.
End load_operations.

(** C14 (bounds). Over any events of the cluster, for any shaper: the load counter
    of a member is the number of the requests it has, and this number never
    exceeds a limit that every capacity the member has had is within (capacities
    are positive; 0 stands for no limit). In particular a member whose capacity
    is not changed never has more requests than its capacity; lowering the
    capacity of a member takes no requests from it. *)
Theorem members_within_capacity {Q} `{ShaperLaws Q} `{Limits} (c c' : Cluster Q) evs i m :
  cluster_run c evs c' → Forall resize_ok evs → loads_ok c → cl_members c' !! i = Some m →
  c_current (mb_load m) = u64 (with_member i c') ∧
  (0 < limit_of i → mb_capacity m ≤ limit_of i ∧ with_member i c' ≤ limit_of i).
Proof.
  intros Hrun Hevs Hl Hm. enough (loads_ok c') as Hl'.
  { destruct (Hl' i m Hm) as (_ & Hc & Hb). split; [done|]. intros Hpos. destruct (Hb Hpos) as (_ & [_ ?] & ?). done. }
  clear Hm. induction Hrun as [|now ev evs c c1 c2 He Hs _ IH]; [done|]. inversion_clear Hevs. apply IH; [done|].
  by eapply (kl_step now ev).
Qed.

(** ** Schedulers *)

(** A member can be used, and can take one more request. *)
Definition mb_usable (m : Member) : bool := mb_enabled m && isOnline (mb_health m).
Definition has_room (m : Member) : bool := (mb_capacity m =? 0) || (c_current (mb_load m) <? mb_capacity m).

Section scheduler.
Context {Q : Type} `{Shaper Q}.
Implicit Types (c : Cluster Q).

(** Request [r] has been handed to a member that can take it. *)
Definition handed (r : nat) c c' : Prop :=
  ∃ i m, cl_members c !! i = Some m ∧ mb_usable m ∧ has_room m ∧ cl_inflight c' = cl_inflight c ++ [(r, i)].

Lemma tryProcess_spec r i c m : cl_members c !! i = Some m →
  ∃ c', tryProcess r i c = Ok (if mb_usable m then if has_room m then SSuccess else SOverloaded else SUnavailable, c') ∧
    if mb_usable m && has_room m then handed r c c' else c' = c.
Proof.
  intros Hi. unfold tryProcess, mbind, C_bind, the_member. rewrite Hi. unfold mb_usable, has_room.
  destruct (mb_enabled m) eqn:He; cbn; [|by eexists]. destruct (isOnline (mb_health m)) eqn:Ho; cbn; [|by eexists].
  rewrite Z.leb_antisym. destruct (mb_capacity m =? 0) eqn:Hc, (c_current (mb_load m) <? mb_capacity m) eqn:Hr; cbn;
    eexists; (split; [done|]); cbn; try done; exists i, m; unfold mb_usable, has_room; rewrite He, Ho, Hc, Hr; done.
Qed.

Definition unusable_at c (i : nat) : Prop := ∃ m, cl_members c !! i = Some m ∧ ¬ mb_usable m.
#[local] Instance unusable_at_dec c i : Decision (unusable_at c i).
Proof.
  destruct (cl_members c !! i) as [m|] eqn:Hm; [|right; intros (m & Hm' & _); congruence].
  destruct (mb_usable m) eqn:Hu; [right; intros (m' & Hm' & Hn)|left; exists m; rewrite Hu; naive_solver].
  rewrite Hm in Hm'. simplify_eq. apply Hn. by rewrite Hu.
Defined.

(** What a loop over the positions [ps] ends with: a member has taken the
    request, or nothing has changed and the verdict is that on the number of
    unusable members. *)
Definition scanned (r : nat) (ps : list nat) (u : nat) (verdict : nat → SchedulerStatus) c (st : SchedulerStatus) c' : Prop :=
  st = SSuccess ∧ handed r c c' ∨
  st = verdict (u + length (filter (unusable_at c) ps))%nat ∧ c' = c ∧
    ∀ i m, i ∈ ps → cl_members c !! i = Some m → ¬ (mb_usable m ∧ has_room m).

Lemma scanned_cons {A} r i ps u verdict c (k : SchedulerStatus → C Q A) (status : A → SchedulerStatus) :
  (i < length (cl_members c))%nat →
  (∃ a, k SSuccess = mret a ∧ status a = SSuccess) →
  (∀ st u', st ≠ SSuccess → u' = (if decide (st = SUnavailable) then S u else u) →
     ∃ a c', k st c = Ok (a, c') ∧ scanned r ps u' verdict c (status a) c') →
  ∃ a c', (tryProcess r i ≫= k) c = Ok (a, c') ∧ scanned r (i :: ps) u verdict c (status a) c'.
Proof.
  intros Hi (a & Ha & Hsa) Hk. apply lookup_lt_is_Some in Hi as [m Hm].
  destruct (tryProcess_spec r i c m Hm) as (c1 & Ht & Hc1). unfold mbind, C_bind. rewrite Ht.
  assert (Hdec : filter (unusable_at c) (i :: ps) =
    if mb_usable m then filter (unusable_at c) ps else i :: filter (unusable_at c) ps).
  { rewrite filter_cons. destruct (decide _) as [(m' & Hm' & Hu)|Hn], (mb_usable m) eqn:Hum; simplify_eq; try done.
    - rewrite Hum in Hu. by destruct Hu.
    - destruct Hn. exists m. rewrite Hum. naive_solver. }
  unfold scanned. rewrite Hdec. destruct (mb_usable m) eqn:Hu; [destruct (has_room m) eqn:Hr|]; cbn in Hc1; subst.
  - rewrite Ha. exists a, c1. split; [done|]. by left.
  - destruct (Hk SOverloaded u) as (a' & c' & Hka & Hs); [done..|]. rewrite Hka. exists a', c'. split; [done|].
    destruct Hs as [Hs|(Hs1 & Hs2 & Hs3)]; [by left|right]. split_and!; [done..|].
    intros j m' [->|Hj]%elem_of_cons Hm'; [|by apply (Hs3 j)]. simplify_eq. rewrite Hr. naive_solver.
  - destruct (Hk SUnavailable (S u)) as (a' & c' & Hka & Hs); [done..|]. rewrite Hka. exists a', c'. split; [done|].
    destruct Hs as [Hs|(Hs1 & Hs2 & Hs3)]; [by left|right]. split_and!; [cbn [length]; by rewrite <- plus_n_Sm|done|].
    intros j m' [->|Hj]%elem_of_cons Hm'; [|by apply (Hs3 j)]. simplify_eq. rewrite Hu. naive_solver.
Qed.

(** The positions the round-robin loop visits. *)
Fixpoint rr_positions (limit next k : nat) : list nat :=
  match k with O => [] | S k => let i := if (limit <=? next)%nat then O else next in i :: rr_positions limit (S i) k end.

Lemma rr_positions_all n j : (j < n)%nat → ∀ next, j ∈ rr_positions n next n.
Proof.
  intros Hj. assert (Hsome : ∀ k next, (next ≤ j < next + k)%nat → j ∈ rr_positions n next k).
  { induction k as [|k IH]; intros next Hn; [lia|]. cbn. destruct (Nat.leb_spec n next); [lia|].
    destruct (decide (next = j)) as [->|]; [by left|right; apply IH; lia]. }
  assert (Hwrap : ∀ k next, (next ≤ n)%nat → (n - next + j < k)%nat → j ∈ rr_positions n next k).
  { induction k as [|k IH]; intros next Hn Hk; [lia|]. cbn. destruct (Nat.leb_spec n next).
    - destruct (decide (j = O)) as [->|]; [by left|right; apply Hsome; lia].
    - right. apply IH; lia. }
  intros next. destruct n as [|n]; [lia|]. cbn [rr_positions]. set (i := if (S n <=? next)%nat then O else next).
  assert (Hi : (i ≤ n)%nat) by (unfold i; destruct (Nat.leb_spec (S n) next); lia).
  destruct (decide (i = j)) as [->|]; [by left|right].
  destruct (decide (i < j)%nat); [apply Hsome|apply Hwrap]; lia.
Qed.
Lemma rr_positions_lt n k j : (0 < n)%nat → ∀ next, j ∈ rr_positions n next k → (j < n)%nat.
Proof.
  intros Hn. induction k as [|k IH]; intros next; cbn; [by intros ?%elem_of_nil|].
  intros [->|Hj]%elem_of_cons; [destruct (Nat.leb_spec n next); lia|by eapply IH].
Qed.
Lemma rr_positions_length n next k : length (rr_positions n next k) = k.
Proof. revert next. induction k; intros; cbn; auto. Qed.

Lemma rr_loop_scanned r n k c : n = length (cl_members c) → (0 < n ∨ k = 0)%nat → ∀ next u,
  ∃ p c', rr_loop r n k next u c = Ok (p, c') ∧
    scanned r (rr_positions n next k) u (λ u, if (u =? n)%nat then SUnavailable else SOverloaded) c p.1 c'.
Proof.
  intros Hn Hpos. induction k as [|k IH]; intros next u.
  { eexists _, c. split; [done|]. right. cbn. rewrite Nat.add_0_r. split_and!; [done..|]. intros i m Hi. by apply elem_of_nil in Hi. }
  cbn [rr_loop rr_positions]. apply (scanned_cons _ _ _ _ _ _ _ fst).
  - destruct (Nat.leb_spec n next); lia.
  - by eexists.
  - intros st u' Hst ->. destruct st; [|done|]; cbn; apply IH; lia.
Qed.
Lemma chance_loop_scanned r n k c : ∀ i u, (i + k ≤ length (cl_members c))%nat →
  ∃ st c', chance_loop r n k i u c = Ok (st, c') ∧
    scanned r (seq i k) u (λ u, if (u <? n)%nat then SOverloaded else SUnavailable) c st c'.
Proof.
  induction k as [|k IH]; intros i u Hi.
  { eexists _, c. split; [done|]. right. cbn. rewrite Nat.add_0_r. split_and!; [done..|]. intros j m Hj. by apply elem_of_nil in Hj. }
  cbn [chance_loop seq]. apply (scanned_cons _ _ _ _ _ _ _ id); [lia|by eexists|].
  intros st u' Hst ->. destruct st; [|done|]; cbn; apply IH; lia.
Qed.

(** What a scheduler answers when it has asked every member. *)
Definition answer_ok (r : nat) c (st : SchedulerStatus) c' : Prop :=
  match st with
  | SSuccess => handed r c c'
  | SOverloaded => (∀ m, m ∈ cl_members c → ¬ (mb_usable m ∧ has_room m)) ∧ (∃ m, m ∈ cl_members c ∧ mb_usable m) ∧
      cl_inflight c' = cl_inflight c ∧ cl_members c' = cl_members c
  | SUnavailable => (∀ m, m ∈ cl_members c → ¬ mb_usable m) ∧ cl_inflight c' = cl_inflight c ∧ cl_members c' = cl_members c
  end.

Lemma filter_whole {A} (P : A → Prop) `{∀ x, Decision (P x)} (l : list A) : (∀ x, x ∈ l → P x) → filter P l = l.
Proof.
  induction l as [|x l IH]; intros Hl; [done|]. rewrite filter_cons, decide_True by (apply Hl; by left).
  f_equal. apply IH. intros y Hy. apply Hl. by right.
Qed.

Lemma scanned_all r ps verdict c st c' :
  let n := length (cl_members c) in
  scanned r ps 0 verdict c st c' → length ps = n → (∀ j, j ∈ ps ↔ (j < n)%nat) →
  (∀ u, (u ≤ n)%nat → verdict u = if decide (u = n) then SUnavailable else SOverloaded) → answer_ok r c st c'.
Proof.
  intros n [[-> Hs]|(-> & -> & Hs)] Hlen Hps Hv; [done|]. cbn [Nat.add].
  pose proof (length_filter (unusable_at c) ps) as Hle. rewrite Hlen in Hle. rewrite Hv by done.
  assert (Hall : ∀ m, m ∈ cl_members c → ¬ (mb_usable m ∧ has_room m)).
  { intros m [i Hi]%list_elem_of_lookup. apply (Hs i); [|done]. apply Hps. by eapply lookup_lt_Some. }
  destruct (decide _) as [Heq|Hne]; cbn [answer_ok]; split_and!; try done.
  - intros m [i Hi]%list_elem_of_lookup Hu. assert (Hin : i ∈ ps) by (apply Hps; by eapply lookup_lt_Some).
    apply (length_filter_lt (unusable_at c)) in Hin; [lia|]. intros (m' & Hm' & Hn). by simplify_eq.
  - destruct (decide (Exists (λ m, mb_usable m) (cl_members c))) as [Hex|Hnex]; [by apply list.Exists_exists in Hex|].
    destruct Hne. rewrite filter_whole; [done|]. intros i [m Hm]%Hps%lookup_lt_is_Some.
    exists m. split; [done|]. intros Hu. apply Hnex, list.Exists_exists. exists m. split; [|done].
    by eapply list_elem_of_lookup_2.
Qed.

(** A scheduler, round-robin or chance, answers correctly on
    every cluster: with success it has handed the request to a member that is
    enabled, online and below its capacity; it says overloaded only when some
    member is enabled and online but none of these has room; it says unavailable
    only when no member is enabled and online; and unless it succeeds it changes
    neither the members nor what they have. *)
Theorem scheduler_work_conserving r c :
  ∃ st c', scheduler_schedule r c = Ok (st, c') ∧ answer_ok r c st c'.
Proof.
  unfold scheduler_schedule. unfold mbind at 1, C_bind at 1, cl_get. cbn [id]. set (n := length (cl_members c)).
  destruct (cl_scheduler c) as [next|].
  - unfold mbind, C_bind.
    destruct (rr_loop_scanned r n n c eq_refl ltac:(lia) next 0) as ([st next'] & c1 & Hr & Hs).
    rewrite Hr. exists st. eexists. split; [done|].
    assert (Ha : answer_ok r c st c1); [|by destruct st].
    apply (scanned_all _ _ _ _ _ _ Hs); [apply rr_positions_length| |].
    + intros j. split; [|intros Hj; by apply rr_positions_all]. fold n. clear.
      destruct n as [|n']; [by intros ?%elem_of_nil|]. apply rr_positions_lt. lia.
    + intros u Hu. destruct (Nat.eqb_spec u n), (decide (u = length (cl_members c))); done.
  - destruct (chance_loop_scanned r n n c 0 0 ltac:(lia)) as (st & c1 & Hr & Hs). exists st, c1. split; [done|].
    apply (scanned_all _ _ _ _ _ _ Hs); [apply length_seq|intros j; rewrite elem_of_seq; lia|].
    intros u Hu. destruct (Nat.ltb_spec u n), (decide (u = length (cl_members c))); try done; lia.
Qed.
End scheduler.
