(* ===== verification/HttpClusterShaper.v ===== *)
(** * The cluster on the token shaper

    [HttpCluster] keeps its requests in a [TokenShaper<HttpClusterRequest>]: the
    tree of buckets of [TokenShaper] is the shaper of [HttpCluster]
    ([node_shaper]) and meets what the cluster relies on ([node_shaper_laws]).
    The runs at the end are those of a cluster with such a tree. *)
From stdpp Require Import gmap.
From Stdlib Require Import String.
From S2P Require Import Prelude HeaderFieldList Http1Parser Http1Generator TokenShaper TokenShaperQueue HttpMessage HttpCluster HttpClusterSafety.

(** ** The operations

    A bucket is addressed from itself up to the root, as [get] and [put] go. *)
Fixpoint height {T} (t : Node T) : nat := S (foldr (λ c n, Nat.max (height c) n) O (children t)).

Definition node_data {T} (b : list nat) (t : Node T) : option (NodeData T) := nd <$> lookup_node (rev b) t.

#[export] Instance node_shaper : Shaper (Node nat) := {
  sh_get := get;
  sh_put := put;
  sh_enqueue r now b t := (enqueue r now (rev b) t).1;
  sh_dequeue t := dequeue (height t) [] t;
  sh_timer now b t :=
    match lookup_node (rev b) t with
    | Some x => let '(d, gone, _) := updateQueueTimer now (nd x) in (replace_node (rev b) (mkNode d (children x)) t, gone)
    | None => (t, [])
    end;
  sh_resize := resize;
  sh_size t := nd_rate (nd t);
  sh_ceil b t := default 0 (nd_ceil <$> node_data b t);
  sh_queued b t := default 0 (c_current ∘ nd_queued <$> node_data b t);
  sh_name b t := default [] (nd_name <$> node_data b t);
}.

(** ** Waiting requests *)

Definition queue_items (d : NodeData nat) : list nat := (nd_queue d).*1.
Fixpoint items (t : Node nat) : list nat := queue_items (nd t) ++ concat (items <$> children t).

(** The same requests wait, and every bucket still has its queue. *)
Record kept (t t' : Node nat) : Prop := mk_kept {
  kept_items : items t' ≡ₚ items t;
  kept_nodes p x : lookup_node p t = Some x → ∃ x', lookup_node p t' = Some x' ∧ nd_queue (nd x') = nd_queue (nd x);
}.
#[export] Instance kept_preorder : PreOrder kept.
Proof.
  split; [split; eauto|]. intros t1 t2 t3 [H1 H2] [H3 H4]. split; [by rewrite H3|]. intros p x Hx.
  destruct (H2 _ _ Hx) as (y & Hy & <-). eauto.
Qed.
Lemma kept_valid t t' p : kept t t' → is_Some (lookup_node p t) → is_Some (lookup_node p t').
Proof. intros Hk [x Hx]. destruct (kept_nodes _ _ Hk _ _ Hx) as (x' & Hx' & _). eauto. Qed.

Lemma concat_alter (f : Node nat → Node nat) i cs c (a b : list nat) :
  cs !! i = Some c → a ++ items (f c) ≡ₚ b ++ items c →
  a ++ concat (items <$> alter f i cs) ≡ₚ b ++ concat (items <$> cs).
Proof.
  revert i; induction cs as [|c' cs IH]; intros [|i] Hi Hf; try done; cbn in *; simplify_eq.
  - by rewrite !app_assoc, Hf.
  - change (alter f (S i) (c' :: cs)) with (c' :: alter f i cs). cbn.
    rewrite !app_assoc, !(Permutation_app_comm _ (items c')), <- !app_assoc. f_equiv. by apply (IH i).
Qed.

(** A change of one bucket changes what waits by what it changes of its queue. *)
Lemma items_alter f p : ∀ t x, lookup_node p t = Some x →
  queue_items (nd x) ++ items (alter_node (on_data f) p t) ≡ₚ queue_items (f (nd x)) ++ items t.
Proof.
  induction p as [|i p IH]; intros [d cs] x Hx; cbn [lookup_node] in Hx.
  - simplify_eq. cbn. by rewrite !app_assoc, (Permutation_app_comm (queue_items d)).
  - cbn [children] in Hx. destruct (cs !! i) as [c|] eqn:Hi; [|done]. cbn.
    rewrite !app_assoc, !(Permutation_app_comm _ (queue_items d)), <- !app_assoc. f_equiv.
    by apply (concat_alter _ i _ c); [|apply IH].
Qed.
Lemma alter_missing (f : Node nat → Node nat) p : ∀ t, lookup_node p t = None → alter_node f p t = t.
Proof.
  induction p as [|i p IH]; intros [d cs]; cbn; [done|]. intros Hi. f_equal. apply list_eq. intros j.
  destruct (decide (i = j)) as [<-|]; [|by rewrite list_lookup_alter_ne].
  rewrite list_lookup_alter_eq. destruct (cs !! i) as [c|]; [|done]. cbn. by rewrite IH.
Qed.
Lemma nodes_alter (f : NodeData nat → NodeData nat) p : ∀ q t,
  is_Some (lookup_node q t) → is_Some (lookup_node q (alter_node (on_data f) p t)).
Proof.
  induction p as [|i p IH]; intros [|j q] t; cbn; try done.
  destruct (decide (i = j)) as [<-|]; [|by rewrite list_lookup_alter_ne].
  rewrite list_lookup_alter_eq. destruct (children t !! i); [apply IH|done].
Qed.

Lemma kept_alter f p t : (∀ d, nd_queue (f d) = nd_queue d) → kept t (alter_node (on_data f) p t).
Proof.
  intros Hf. split.
  - destruct (lookup_node p t) as [x|] eqn:Hx; [|by rewrite alter_missing].
    pose proof (items_alter f p t x Hx) as Hi. unfold queue_items in Hi. rewrite Hf in Hi. by apply Permutation_app_inv_l in Hi.
  - intros q x Hx. destruct (nodes_alter f p q t ltac:(eauto)) as [x' Hx']. exists x'. split; [done|].
    destruct (lookup_on_data f p q t x' Hx') as (y & Hy & _ & ->). simplify_eq. by destruct (decide _).
Qed.
Lemma replace_alter p : ∀ (t x : Node nat) d, lookup_node p t = Some x →
  replace_node p (mkNode d (children x)) t = alter_node (on_data (λ _, d)) p t.
Proof.
  unfold replace_node. induction p as [|i p IH]; intros [d' cs] x d Hx; cbn in *; [by simplify_eq|]. f_equal.
  destruct (cs !! i) as [c|] eqn:Hi; [|done]. apply list_alter_ext; [|done]. intros c' Hc'. simplify_eq. by apply IH.
Qed.

(** ** Tokens *)

Lemma kept_bump_up up n : ∀ t, kept t (bump_up up n t).
Proof.
  induction up as [|i up IH]; intros t; cbn [bump_up].
  - by apply kept_alter.
  - etransitivity; [|apply IH]. by apply kept_alter.
Qed.
Lemma kept_get up n : ∀ t, kept t (get up n t).2.
Proof.
  induction up as [|i up IH]; intros t; cbn [get]; destruct (lookup_node _ t); try done;
    destruct (assured _ _); try apply kept_bump_up; destruct (_ <=? _); try done.
  specialize (IH t). destruct (get up n t) as [m t']. destruct (m =? 0); [done|]. etransitivity; [done|].
  by apply kept_alter.
Qed.
Lemma kept_put up n : ∀ t t', put up n t = Ok t' → kept t t'.
Proof.
  induction up as [|i up IH]; intros t t'; cbn [put]; (destruct (lookup_node _ t); [|done]);
    (destruct (may_drop _ _); [|done]); intros Hp.
  - injection Hp as <-. by apply (kept_alter _ []).
  - etransitivity; [|by apply IH]. by apply kept_alter.
Qed.

(** ** Rates *)

Lemma kept_node d d' cs cs' : nd_queue d' = nd_queue d → Forall2 kept cs cs' → kept (mkNode d cs) (mkNode d' cs').
Proof.
  intros Hd Hcs. split.
  - cbn. unfold queue_items. rewrite Hd. f_equiv. induction Hcs as [|c c' cs cs' Hc _ IH]; [done|]. cbn. by rewrite IH, (kept_items _ _ Hc).
  - intros [|i p] x; cbn; [intros [= <-]; by eauto|]. destruct (cs !! i) as [c|] eqn:Hi; [|done].
    destruct (Forall2_lookup_l _ _ _ _ _ Hcs Hi) as (c' & -> & Hc). apply Hc.
Qed.

Lemma kept_update : ∀ (t : Node nat) prate pceil t', update prate pceil t = Ok t' → kept t t'.
Proof.
  fix IH 1. intros [d cs] prate pceil t'. cbn. destruct (scale prate _) as [rate|]; [|done]. cbn.
  destruct (scale pceil _) as [ceil|]; [|done]. cbn. destruct (_ cs) as [cs'|] eqn:Hcs; [|done]. cbn.
  intros [= <-]. apply kept_node; [done|]. revert cs' Hcs. induction cs as [|c cs IHcs]; intros cs'; [by intros [= <-]|].
  destruct (update rate ceil c) as [c'|] eqn:Hc; [|done]. cbn. destruct (_ cs) as [cs''|] eqn:Hcs; [|done].
  intros [= <-]. constructor; [by eapply IH|by apply IHcs].
Qed.
Lemma kept_update_all prate pceil : ∀ cs cs', update_all prate pceil cs = Ok cs' → Forall2 kept cs cs'.
Proof.
  induction cs as [|c cs IH]; intros cs'; cbn; [by intros [= <-]|].
  destruct (update prate pceil c) as [c'|] eqn:Hc; [|done]. cbn.
  destruct (update_all prate pceil cs) as [cs''|]; [|done]. intros [= <-].
  constructor; [by eapply kept_update|by apply IH].
Qed.
Lemma kept_resize n t t' : resize n t = Ok t' → kept t t'.
Proof.
  unfold resize, update_root. destruct (_ =? _); [by intros [= <-]|]. destruct t as [d cs]. cbn.
  destruct (scale n (nd_ratePercent d)) as [rate|]; [|done]. cbn.
  destruct (scale n (nd_ceilPercent d)) as [ceil|]; [|done]. cbn.
  destruct (update_all rate ceil cs) as [cs'|] eqn:Hcs; [|done]. intros [= <-].
  apply kept_node; [done|by eapply kept_update_all].
Qed.

(** ** Queues *)

Lemma expire_items now timeout (q : list (nat * Z)) :
  (expire now timeout q).1.*1 ++ (expire now timeout q).2 ≡ₚ q.*1.
Proof.
  induction q as [|[x ctime] q IH]; cbn; [done|]. destruct (_ <? _); cbn; [by rewrite app_nil_r|].
  destruct (expire now timeout q) as [rest gone]. cbn in *. by rewrite <- Permutation_middle, IH.
Qed.
Lemma timer_queue now d :
  queue_items (updateQueueTimer now d).1.1 ++ (updateQueueTimer now d).1.2 ≡ₚ queue_items d.
Proof.
  unfold updateQueueTimer. pose proof (expire_items now (nd_queueTimeout d) (nd_queue d)) as He.
  by destruct (expire _ _ _) as [rest gone].
Qed.
(** The queue of a bucket is replaced, and some of what it had is handed out. *)
Lemma items_replace p (t x : Node nat) d gone added :
  lookup_node p t = Some x → queue_items d ++ gone ≡ₚ added ++ queue_items (nd x) →
  items (replace_node p (mkNode d (children x)) t) ++ gone ≡ₚ added ++ items t.
Proof.
  intros Hx Hd. rewrite (replace_alter p t x d Hx). pose proof (items_alter (λ _, d) p t x Hx) as Hi. cbn in Hi.
  apply (Permutation_app_inv_l (queue_items (nd x))). rewrite app_assoc, Hi, <- app_assoc, (Permutation_app_comm (items t)).
  rewrite !app_assoc, Hd. by rewrite (Permutation_app_comm added).
Qed.
(** At most one request is taken out. *)
Definition took (t : Node nat) (item : option nat) (t' : Node nat) : Prop :=
  option_list item ++ items t' ≡ₚ items t ∧ ∀ p, is_Some (lookup_node p t) → is_Some (lookup_node p t').

Lemma kept_took t t' : kept t t' → took t None t'.
Proof. intros Hk. split; [apply Hk|]. intros p. by apply kept_valid. Qed.
Lemma took_after t t1 item t2 : took t None t1 → took t1 item t2 → took t item t2.
Proof. intros [H1 H2] [H3 H4]. split; [|auto]. by rewrite H3. Qed.

Lemma dequeue_own_took up (t : Node nat) : took t (dequeue_own up t).1 (dequeue_own up t).2.
Proof.
  unfold dequeue_own. destruct (lookup_node (rev up) t) as [x|] eqn:Hx; [|done].
  destruct (nd_queue (nd x)) as [|[item ctime] q] eqn:Hq; [done|].
  pose proof (kept_get up 1 t) as Hk. destruct (get up 1 t) as [m t1]. cbn in Hk.
  destruct (m =? 0); [by apply kept_took|]. eapply took_after; [by apply kept_took|].
  split; [|intros p; apply nodes_alter]. destruct (kept_nodes _ _ Hk _ _ Hx) as (x1 & Hx1 & Hq1).
  pose proof (items_alter pop_queue (rev up) t1 x1 Hx1) as Hi. unfold queue_items in Hi. rewrite Hq1, Hq in Hi. cbn in Hi.
  rewrite Hq1, Hq in Hi. cbn in Hi. apply (Permutation_app_inv_l (q.*1)). rewrite <- Hi. cbn. by rewrite Permutation_middle.
Qed.

Lemma round_took deq up : (∀ i t item t', deq (i :: up) t = Ok (item, t') → took t item t') →
  ∀ k count t item t', dequeue_round deq up k count t = Ok (item, t') → took t item t'.
Proof.
  intros Hdeq. induction k as [|k IH]; intros count t item t'; cbn; [by intros [= <- <-]|].
  destruct (lookup_node (rev up) t) as [x|]; [|done]. case_match; [|done].
  set (t1 := alter_node _ _ t). assert (Ht1 : took t None t1) by (by apply kept_took, kept_alter).
  destruct (deq _ t1) as [[item2 t2]|] eqn:Hd; [|done]. apply Hdeq in Hd. cbn.
  destruct item2; [intros [= <- <-]; by eapply took_after|]. intros Hr. apply IH in Hr. eauto using took_after.
Qed.
Lemma dequeue_took fuel : ∀ up t item t', dequeue fuel up t = Ok (item, t') → took t item t'.
Proof.
  induction fuel as [|fuel IH]; intros up t item t'; cbn [dequeue]; [done|].
  destruct (lookup_node (rev up) t) as [x|]; [|done].
  destruct (dequeue_round _ _ _ _ _) as [[item2 t2]|] eqn:Hr; [|done].
  apply round_took in Hr; [|intros i; apply IH]. cbn. destruct item2; [by intros [= <- <-]|].
  intros Hd. pose proof (dequeue_own_took up t2) as Ho. destruct (dequeue_own up t2). simplify_eq. by eapply took_after.
Qed.

(** ** The laws *)

Lemma enqueue_took r now b (t : Node nat) : is_Some (lookup_node (rev b) t) →
  items (sh_enqueue r now b t).1 ++ (sh_enqueue r now b t).2 ≡ₚ r :: items t.
Proof.
  intros [x Hx]. cbn. unfold enqueue. rewrite Hx. set (d := set_queue _ _ _ _).
  pose proof (timer_queue now d) as Hd. destruct (updateQueueTimer now d) as [[d' gone] timer]. cbn in *.
  apply (items_replace _ _ x _ _ [r]); [done|]. rewrite Hd. unfold queue_items, d. cbn. rewrite fmap_app. cbn.
  by rewrite Permutation_app_comm.
Qed.
Lemma timer_took now b (t : Node nat) : items (sh_timer now b t).1 ++ (sh_timer now b t).2 ≡ₚ items t.
Proof.
  cbn. destruct (lookup_node (rev b) t) as [x|] eqn:Hx; cbn; [|by rewrite app_nil_r].
  pose proof (timer_queue now (nd x)) as Hd. destruct (updateQueueTimer now (nd x)) as [[d' gone] timer]. cbn in *.
  by apply (items_replace _ _ x _ _ []).
Qed.
Lemma replace_valid p q (t x : Node nat) d : lookup_node p t = Some x → is_Some (lookup_node q t) →
  is_Some (lookup_node q (replace_node p (mkNode d (children x)) t)).
Proof. intros Hx Hq. rewrite (replace_alter p t x d Hx). by apply nodes_alter. Qed.

#[export] Instance node_shaper_laws : ShaperLaws (Node nat).
Proof.
  refine {| sh_items := items; sh_valid b t := is_Some (lookup_node (rev b) t) |}.
  - intros b n q. apply kept_get.
  - intros b n q q' Hq. by apply (kept_put _ _ _ _ Hq).
  - intros n q q' Hq. by apply (kept_resize _ _ _ Hq).
  - apply enqueue_took.
  - apply timer_took.
  - intros q x q' Hq. by apply dequeue_took in Hq as [? _].
  - intros b n q b'. apply kept_valid, kept_get.
  - intros b n q q' b' Hq. apply kept_valid, (kept_put _ _ _ _ Hq).
  - intros n q q' b' Hq. apply kept_valid, (kept_resize _ _ _ Hq).
  - intros r now b q b' Hv. cbn. unfold enqueue. destruct (lookup_node (rev b) q) as [x|] eqn:Hx; [|done].
    destruct (updateQueueTimer _ _) as [[d' gone] timer]. by apply replace_valid.
  - intros now b q b' Hv. cbn. destruct (lookup_node (rev b) q) as [x|] eqn:Hx; [|done].
    destruct (updateQueueTimer _ _) as [[d' gone] timer]. by apply replace_valid.
  - intros q x q' b' Hq. apply dequeue_took in Hq as [_ Hv]. apply Hv.
Defined.

(** ** A cluster with two members *)

(** Events at consecutive seconds. *)
Fixpoint cluster_steps (now : Z) (evs : list cluster_event) (c : Cluster (Node nat)) : result (Cluster (Node nat)) :=
  match evs with
  | [] => Ok c
  | ev :: evs => '(_, c) ← cluster_step now ev c; cluster_steps (now + 1000000) evs c
  end.

(** Each member passes three checks. *)
Definition two_members (capacity : Z) : result (Cluster (Node nat)) :=
  '(_, c) ← addMember (str "a") capacity true (newCluster (createRoot 0));
  '(_, c) ← addMember (str "b") capacity true c;
  cluster_steps 0 [EvChecked 0 (Some 200); EvChecked 0 (Some 200); EvChecked 0 (Some 200);
                   EvChecked 1 (Some 200); EvChecked 1 (Some 200); EvChecked 1 (Some 200)] c.

Definition request (r : nat) : cluster_event := EvSchedule r [] VERSION_1_1 (str "x0").
Definition answer (r i : nat) : cluster_event :=
  EvResponse r i (mkRespInfo VERSION_1_1 200 (str "Ok") false 2 [mkField (str "Server") (str "b") false] []) (str "hi").
Definition at_work (rc : result (Cluster (Node nat))) : result (list (nat * nat) * list nat * list Task) :=
  c ← rc; Ok (cl_inflight c, items (cl_shaper c), cl_tasks c).

(** Requests to the root bucket, which always exists. *)
Definition to_root (ev : cluster_event) : Prop := match ev with EvSchedule _ b _ _ => b = [] | _ => True end.

Lemma steps_run evs : ∀ now c c', cluster_steps now evs c = Ok c' → Forall to_root evs → cluster_run c evs c'.
Proof.
  induction evs as [|ev evs IH]; intros now c c' Hs Hr; [injection Hs as <-; constructor|].
  cbn in Hs. inversion Hr as [|? ? He Hr']; subst. destruct (cluster_step now ev c) as [[[] c1]|] eqn:Hc; [|done].
  econstructor; [|exact Hc|by eapply IH]. destruct ev; cbn in *; subst; by try eexists.
Qed.

(** Three requests for two members with room for one each: the third waits, and
    is served when the first is answered. *)
Definition busy_events : list cluster_event := [request 1; request 2; request 3; answer 1 0; EvTask].

Example third_waits :
  at_work (c ← two_members 1; cluster_steps 10000000 (take 3 busy_events) c) = Ok ([(1, 0); (2, 1)]%nat, [3%nat], []).
Proof. by vm_compute. Qed.

Lemma two_members_ok capacity c : two_members capacity = Ok c → cl_requests c = ∅ → cl_maxRetryCount c = 3 → requests_ok c.
Proof. intros _ Hr Hm. split; [lia|]. intros r x. by rewrite Hr. Qed.

Lemma no_request_lost_witness :
  ∃ c c', two_members 1 = Ok c ∧ cluster_run c busy_events c' ∧
  (cl_inflight c').*1 ++ sh_items (cl_shaper c') ++ (task_request <$> cl_tasks c') ++ omap answered (cl_output c')
    ≡ₚ [1; 2; 3]%nat ++ places c.
Proof.
  destruct (two_members 1) as [c|e] eqn:Hc; [|by vm_compute in Hc].
  assert (Hok : requests_ok c).
  { apply (two_members_ok 1); [done|..]; vm_compute in Hc; injection Hc as <-; reflexivity. }
  destruct (cluster_steps 10000000 busy_events c) as [c'|e] eqn:Hs;
    [|exfalso; revert Hs; vm_compute in Hc; injection Hc as <-; by vm_compute].
  assert (Hr : cluster_run c busy_events c') by (apply (steps_run _ _ _ _ Hs); by repeat constructor).
  exists c, c'. split; [done|]. split; [done|]. exact (no_request_lost c busy_events c' Hr Hok).
Defined.

(** The capacities of both members stay within two; that of the first is raised. *)
Definition two_each : Limits := λ _, 2.
Definition busy_raised : list cluster_event := EvCapacity 0 2 :: busy_events.

Lemma members_within_capacity_witness :
  ∃ c c' m, two_members 1 = Ok c ∧ cluster_run c busy_raised c' ∧ cl_members c' !! 0%nat = Some m ∧
  c_current (mb_load m) = u64 (with_member 0 c') ∧ (0 < 2 → mb_capacity m ≤ 2 ∧ with_member 0 c' ≤ 2).
Proof.
  destruct (two_members 1) as [c|e] eqn:Hc; [|by vm_compute in Hc].
  assert (Hok : loads_ok (H0:=two_each) c).
  { vm_compute in Hc; injection Hc as <-. intros [|[|i]] m Hm; [..|done]; injection Hm as <-; by vm_compute. }
  destruct (cluster_steps 10000000 busy_raised c) as [c'|e] eqn:Hs;
    [|exfalso; revert Hs; vm_compute in Hc; injection Hc as <-; by vm_compute].
  assert (Hr : cluster_run c busy_raised c') by (apply (steps_run _ _ _ _ Hs); by repeat constructor).
  destruct (cl_members c' !! 0%nat) as [m|] eqn:Hm;
    [|exfalso; revert Hs Hm; vm_compute in Hc; injection Hc as <-; vm_compute; by intros [= <-]].
  exists c, c', m. do 3 (split; [done|]).
  apply (members_within_capacity (H1:=two_each) c c' busy_raised 0 m Hr); [by repeat constructor|done|done].
Defined.

(** ** Behaviours that are not intended *)

(** Round-robin stays with the first member as long as it has room. *)
Lemma round_robin_stays :
  at_work (c ← two_members 3; cluster_steps 10000000 [request 1; request 2] c) = Ok ([(1, 0); (2, 0)]%nat, [], []).
Proof. by vm_compute. Qed.

(** A request whose member fails is given to another without a token: when that
    one answers, the request that waits stays in the queue. *)
Lemma retried_stalls_queue :
  at_work (c ← two_members 1; cluster_steps 10000000 [request 1; EvClientFailure 1 0; request 2; answer 1 1] c) =
  Ok ([], [2%nat], []).
Proof. by vm_compute. Qed.

(** When the second member fails too, an assertion does. *)
Lemma second_failure_asserts :
  at_work (c ← two_members 1; cluster_steps 10000000 [request 1; EvClientFailure 1 0; EvClientFailure 1 1] c) =
  Raise AssertionFailure.
Proof. by vm_compute. Qed.

(** A member goes offline between taking a request from the queue and serving it:
    the token of the request is kept by nobody. *)
Definition tokens_out (rc : result (Cluster (Node nat))) : result Z := c ← rc; Ok (actualRate (cl_shaper c)).
Lemma dequeued_token_lost :
  let evs := [request 1; request 2; request 3; answer 1 0; EvChecked 0 None; EvTask] in
  at_work (c ← two_members 1; cluster_steps 10000000 evs c) = Ok ([(2, 1)]%nat, [3%nat], []) ∧
  tokens_out (c ← two_members 1; cluster_steps 10000000 evs c) = Ok 2.
Proof. by vm_compute. Qed.

(** Disabling a member does not take its tokens away, and a member that was
    forced offline is online again after one check. *)
Lemma disabled_keeps_tokens :
  (c ← two_members 1; c ← cluster_steps 10000000 [EvEnabled 0 false; EvEnabled 1 false] c; Ok (nd_rate (nd (cl_shaper c)))) = Ok 2.
Proof. by vm_compute. Qed.
Lemma threshold_bypassed :
  (c ← two_members 1; c ← cluster_steps 10000000 [request 1; EvClientFailure 1 0; EvChecked 0 (Some 200)] c;
   Ok (isOnline ∘ mb_health <$> cl_members c)) = Ok [true; true].
Proof. by vm_compute. Qed.
