(* ===== verification/JsonWriter.v ===== *)
(** * JSON

    [src/xzero/JsonWriter.cc]: text of JSON from a sequence of calls. The writer keeps a
    stack of what is open; the back of the [std::deque] is the head of the list. *)
From S2P Require Import Prelude.

Inductive JsonType := JtValue | JtObject | JtArray.
#[export] Instance JsonType_eq_dec : EqDecision JsonType.
Proof. solve_decision. Defined.
Record StackFrame := mkFrame { fr_type : JsonType; fr_fieldCount : nat }.
Record JsonWriter := mkWriter { jw_output : bytes; jw_stack : list StackFrame }.
Definition newWriter (output : bytes) : JsonWriter := mkWriter output [].

(** What the calls of a [JsonWriter&] do, one after the other. *)
Definition JsonOp : Type := JsonWriter → result JsonWriter.
Definition jw_skip : JsonOp := Ok.
Definition jw_then (a b : JsonOp) : JsonOp := λ w, w ← a w; b w.
Declare Scope json_scope.
Delimit Scope json_scope with json.
Notation "a ;; b" := (jw_then a b) (at level 100, b at level 200, right associativity) : json_scope.
Open Scope json_scope.
Fixpoint jw_all (ops : list JsonOp) : JsonOp := match ops with [] => jw_skip | o :: ops => o ;; jw_all ops end.

Definition put_text (s : bytes) : JsonOp := λ w, Ok (mkWriter (jw_output w ++ s) (jw_stack w)).
Definition push_frame (t : JsonType) : JsonOp := λ w, Ok (mkWriter (jw_output w) (mkFrame t 0 :: jw_stack w)).
Definition pop_frame : JsonOp := λ w,
  match jw_stack w with _ :: st => Ok (mkWriter (jw_output w) st) | [] => Raise UndefinedBehaviour end.
Definition incrementFieldCount : JsonOp := λ w,
  match jw_stack w with
  | f :: st => Ok (mkWriter (jw_output w) (mkFrame (fr_type f) (S (fr_fieldCount f)) :: st))
  | [] => Raise UndefinedBehaviour
  end.
Definition isValue (w : JsonWriter) : bool := match jw_stack w with f :: _ => bool_decide (fr_type f = JtValue) | [] => false end.

Definition indent_text (n : nat) : bytes := mjoin (replicate n (str "  ")).
Definition jw_indent : JsonOp := λ w, put_text (indent_text (length (jw_stack w))) w.

Definition jw_begin (t : JsonType) : JsonOp := λ w,
  match jw_stack w with
  | [] => push_frame t w
  | f :: _ =>
      (put_text (if (0 <? fr_fieldCount f)%nat then str "," ++ [10] else if bool_decide (fr_type f = JtArray) then [10] else []) ;;
       jw_indent ;; incrementFieldCount ;; push_frame t) w
  end.
Definition preValue : JsonOp := λ w,
  match jw_stack w with
  | f :: _ =>
      if bool_decide (fr_type f = JtValue) then incrementFieldCount w
      else (put_text (if (0 <? fr_fieldCount f)%nat then str "," ++ [10] else [10]) ;; jw_indent ;; incrementFieldCount) w
  | [] => incrementFieldCount w
  end.
Definition postValue : JsonOp := λ w, if isValue w then pop_frame w else Ok w.

Definition quoted (s : bytes) : bytes := [34] ++ s ++ [34].
Definition jw_name (n : bytes) : JsonOp := jw_begin JtValue ;; put_text (quoted n ++ str ": ").
Definition beginObject (n : bytes) : JsonOp := λ w,
  match n with
  | _ :: _ => (jw_begin JtObject ;; put_text (quoted n ++ str ": {" ++ [10])) w
  | [] =>
      (match jw_stack w with
       | f :: st => if bool_decide (fr_type f = JtValue) then λ _, Ok (mkWriter (jw_output w) (mkFrame JtObject (fr_fieldCount f) :: st)) else jw_begin JtObject
       | [] => jw_begin JtObject
       end ;; put_text (str "{" ++ [10])) w
  end.
Definition endObject : JsonOp := put_text [10] ;; pop_frame ;; jw_indent ;; put_text (str "}").
Definition beginArray (n : bytes) : JsonOp := jw_begin JtArray ;; put_text (quoted n ++ str ": [").
Definition endArray : JsonOp := put_text [10] ;; pop_frame ;; jw_indent ;; put_text (str "]").

(** The text of a number, or of a truth value. *)
Definition jw_value (text : bytes) : JsonOp := preValue ;; put_text text ;; postValue.
Definition jw_string (s : bytes) : JsonOp := jw_value (quoted s).
Definition bool_text (b : bool) : bytes := if b then str "true" else str "false".
Definition jw_bool (b : bool) : JsonOp := jw_value (bool_text b).

(** ** Trees *)

Inductive Json := JText (text : bytes) | JObj (fields : list (bytes * Json)) | JArr (elements : list Json).

(** How deep a tree is printed. *)
Fixpoint render (d : nat) (j : Json) {struct j} : bytes :=
  match j with
  | JText t => t
  | JObj fs =>
      str "{" ++ [10] ++
      (fix go (first : bool) fs :=
         match fs with
         | [] => []
         | (k, v) :: fs => (if first then [] else str "," ++ [10]) ++ indent_text (S d) ++ quoted k ++ str ": " ++ render (S d) v ++ go false fs
         end) true fs ++ [10] ++ indent_text d ++ str "}"
  | JArr es =>
      str "[" ++
      (fix go (first : bool) es :=
         match es with
         | [] => []
         | e :: es => (if first then [10] else str "," ++ [10]) ++ indent_text (S d) ++ render (S d) e ++ go false es
         end) true es ++ [10] ++ indent_text d ++ str "]"
  end.
Definition render_fields (d : nat) : bool → list (bytes * Json) → bytes :=
  fix go first fs :=
    match fs with
    | [] => []
    | (k, v) :: fs => (if first then [] else str "," ++ [10]) ++ indent_text d ++ quoted k ++ str ": " ++ render d v ++ go false fs
    end.
Definition render_elements (d : nat) : bool → list Json → bytes :=
  fix go first es :=
    match es with
    | [] => []
    | e :: es => (if first then [10] else str "," ++ [10]) ++ indent_text d ++ render d e ++ go false es
    end.

(** ** A sequence of calls writes a tree

    [writes_value p j]: where a value is expected, [p] writes [j]; [writes_field p k j]: inside
    an object, it writes a field. *)
Definition sep (n : nat) (first : bytes) : bytes := if (0 <? n)%nat then str "," ++ [10] else first.
Definition writes_value (p : JsonOp) (j : Json) : Prop :=
  (∀ out st, p (mkWriter out (mkFrame JtValue 0 :: st)) = Ok (mkWriter (out ++ render (length st) j) st)) ∧
  (∀ out n st, p (mkWriter out (mkFrame JtArray n :: st)) =
     Ok (mkWriter (out ++ sep n [10] ++ indent_text (S (length st)) ++ render (S (length st)) j) (mkFrame JtArray (S n) :: st))).
Definition writes_field (p : JsonOp) (k : bytes) (j : Json) : Prop := ∀ out n st,
  p (mkWriter out (mkFrame JtObject n :: st)) =
  Ok (mkWriter (out ++ sep n [] ++ indent_text (S (length st)) ++ quoted k ++ str ": " ++ render (S (length st)) j) (mkFrame JtObject (S n) :: st)).
(** What is inside an object, or an array. *)
Definition writes_fields (p : JsonOp) (fs : list (bytes * Json)) : Prop := ∀ out n st,
  p (mkWriter out (mkFrame JtObject n :: st)) =
  Ok (mkWriter (out ++ render_fields (S (length st)) (bool_decide (n = 0%nat)) fs) (mkFrame JtObject (n + length fs) :: st)).
Definition writes_elements (p : JsonOp) (es : list Json) : Prop := ∀ out n st,
  p (mkWriter out (mkFrame JtArray n :: st)) =
  Ok (mkWriter (out ++ render_elements (S (length st)) (bool_decide (n = 0%nat)) es) (mkFrame JtArray (n + length es) :: st)).

Lemma render_obj d fs : render d (JObj fs) = str "{" ++ [10] ++ render_fields (S d) true fs ++ [10] ++ indent_text d ++ str "}".
Proof. done. Qed.
Lemma render_arr d es : render d (JArr es) = str "[" ++ render_elements (S d) true es ++ [10] ++ indent_text d ++ str "]".
Proof. done. Qed.
Lemma sep_first n b : sep n b = if bool_decide (n = 0%nat) then b else str "," ++ [10].
Proof. by destruct n. Qed.

(** The calls before an unknown one, on a known stack. *)
Ltac json_calls :=
  cbv [beginObject beginArray jw_then jw_begin put_text push_frame jw_indent sep];
  cbn [jw_stack jw_output fr_type fr_fieldCount mbind result_bind incrementFieldCount length];
  change (bool_decide (JtArray = JtValue)) with false; change (bool_decide (JtArray = JtArray)) with true; change (bool_decide (JtObject = JtArray)) with false;
  cbn [jw_stack jw_output fr_type fr_fieldCount mbind result_bind incrementFieldCount length];
  rewrite <-?app_assoc; reflexivity.

Lemma text_written t : writes_value (jw_value t) (JText t).
Proof.
  split; [done |]. intros out n st. cbv [jw_value jw_then preValue postValue put_text jw_indent].
  cbn [jw_stack fr_type fr_fieldCount]. change (bool_decide (JtArray = JtValue)) with false.
  cbn [mbind result_bind incrementFieldCount jw_stack jw_output fr_type fr_fieldCount length render]. unfold isValue. cbn [jw_stack fr_type].
  change (bool_decide (JtArray = JtValue)) with false. unfold sep. by rewrite <-!app_assoc.
Qed.

Lemma value_field p k j : writes_value p j → writes_field (jw_name k ;; p) k j.
Proof.
  intros [Hv _] out n st. cbv [jw_name jw_then jw_begin put_text jw_indent push_frame]. cbn [jw_stack jw_output fr_fieldCount fr_type incrementFieldCount mbind result_bind length].
  rewrite Hv. cbn [length]. unfold sep. by rewrite <-!app_assoc.
Qed.

Lemma fields_nil : writes_fields jw_skip [].
Proof. intros out n st. cbn. by rewrite app_nil_r, Nat.add_0_r. Qed.
Lemma fields_cons p ps k j fs : writes_field p k j → writes_fields ps fs → writes_fields (p ;; ps) ((k, j) :: fs).
Proof.
  intros Hp Hps out n st. unfold jw_then. rewrite Hp. cbn [mbind result_bind]. rewrite Hps, sep_first. cbn [render_fields length].
  rewrite (bool_decide_eq_false_2 (S n = 0%nat)) by done. rewrite <-!app_assoc. by replace (S n + length fs)%nat with (n + S (length fs))%nat by lia.
Qed.
Lemma elements_nil : writes_elements jw_skip [].
Proof. intros out n st. cbn. by rewrite app_nil_r, Nat.add_0_r. Qed.
Lemma elements_cons p ps j es : writes_value p j → writes_elements ps es → writes_elements (p ;; ps) (j :: es).
Proof.
  intros [_ Hp] Hps out n st. unfold jw_then. rewrite Hp. cbn [mbind result_bind]. rewrite Hps, sep_first. cbn [render_elements length].
  rewrite (bool_decide_eq_false_2 (S n = 0%nat)) by done. rewrite <-!app_assoc. by replace (S n + length es)%nat with (n + S (length es))%nat by lia.
Qed.
Lemma elements_all {A} (f : A → JsonOp) (g : A → Json) l : (∀ x, x ∈ l → writes_value (f x) (g x)) → writes_elements (jw_all (f <$> l)) (g <$> l).
Proof. induction l as [| x l IH]; intros H; [apply elements_nil |]. cbn. apply elements_cons; [apply H, list_elem_of_here |]. apply IH. intros y Hy. by apply H, list_elem_of_further. Qed.

Lemma object_closed p fs out st : writes_fields p fs →
  (p ;; endObject) (mkWriter (out ++ str "{" ++ [10]) (mkFrame JtObject 0 :: st)) = Ok (mkWriter (out ++ render (length st) (JObj fs)) st).
Proof.
  intros Hp. unfold jw_then at 1. rewrite Hp. cbv [endObject jw_then put_text pop_frame jw_indent]. cbn [mbind result_bind jw_stack jw_output].
  rewrite render_obj, bool_decide_eq_true_2 by done. by rewrite <-!app_assoc.
Qed.

Lemma then_step (a b : JsonOp) w w' : a w = Ok w' → (a ;; b) w = b w'.
Proof. intros H. unfold jw_then. by rewrite H. Qed.

(** An object where a value stands. *)
Lemma object_written p fs : writes_fields p fs → writes_value (beginObject [] ;; p ;; endObject) (JObj fs).
Proof.
  intros Hp. split; [intros out st | intros out n st].
  - rewrite (then_step _ _ _ (mkWriter (out ++ str "{" ++ [10]) (mkFrame JtObject 0 :: st))) by done. by apply object_closed.
  - rewrite (then_step _ _ _ (mkWriter ((out ++ sep n [10] ++ indent_text (S (length st))) ++ str "{" ++ [10]) (mkFrame JtObject 0 :: mkFrame JtArray (S n) :: st))).
    + rewrite (object_closed p fs) by done. by rewrite <-!app_assoc.
    + json_calls.
Qed.

Lemma object_field p k fs : k ≠ [] → writes_fields p fs → writes_field (beginObject k ;; p ;; endObject) k (JObj fs).
Proof.
  intros Hk Hp out n st.
  rewrite (then_step _ _ _ (mkWriter ((out ++ sep n [] ++ indent_text (S (length st)) ++ quoted k ++ str ": ") ++ str "{" ++ [10]) (mkFrame JtObject 0 :: mkFrame JtObject (S n) :: st))).
  - rewrite (object_closed p fs) by done. by rewrite <-!app_assoc.
  - destruct k as [| c k]; [done |]. json_calls.
Qed.

Lemma array_field p k es : writes_elements p es → writes_field (beginArray k ;; p ;; endArray) k (JArr es).
Proof.
  intros Hp out n st.
  rewrite (then_step _ _ _ (mkWriter (out ++ sep n [] ++ indent_text (S (length st)) ++ quoted k ++ str ": [") (mkFrame JtArray 0 :: mkFrame JtObject (S n) :: st))).
  - unfold jw_then at 1. rewrite Hp. cbv [endArray jw_then put_text pop_frame jw_indent]. cbn [mbind result_bind jw_stack jw_output].
    rewrite render_arr, bool_decide_eq_true_2 by done. cbn [length]. by rewrite <-!app_assoc.
  - json_calls.
Qed.

(** An object that is a text of its own. *)
Theorem json_document p fs out : writes_fields p fs → (beginObject [] ;; p ;; endObject) (newWriter out) = Ok (mkWriter (out ++ render 0 (JObj fs)) []).
Proof. intros Hp. rewrite (then_step _ _ _ (mkWriter (out ++ str "{" ++ [10]) [mkFrame JtObject 0])) by done. by apply object_closed. Qed.

(** Strings are not escaped: one with a quote in it can read like more fields. *)
Lemma injected_field :
  render 0 (JObj [(str "name", JText (quoted (str "x" ++ [34] ++ str "," ++ [10] ++ str "  " ++ quoted (str "enabled") ++ str ": " ++ quoted (str "true") ++ str "," ++ [10] ++ str "  " ++ quoted (str "y") ++ str ": " ++ [34])))]) =
  render 0 (JObj [(str "name", JText (quoted (str "x"))); (str "enabled", JText (quoted (str "true"))); (str "y", JText (quoted []))]).
Proof. vm_compute. reflexivity. Qed.
