(* ===== verification/HttpClusterConfig.v ===== *)
(** * The configuration of an HTTP cluster

    [src/xzero/http/client/HttpCluster.cc]: what a cluster keeps besides the state of
    [HttpCluster], its members' settings ([HttpClusterMember.h], [HttpHealthMonitor.h]), the
    configuration as text and from text, and the JSON the cluster and its parts are shown as.
    The buckets are those of [TokenShaper]. Durations are in microseconds. The conversions
    between text and floating-point numbers or addresses are parameters. *)
From stdpp Require Import gmap.
From Stdlib Require Import SpecFloat.
From S2P Require Import Prelude HeaderFieldList Http1Parser Http1Generator NetAddress TokenShaper HttpMessage HttpCluster HttpClusterShaper StringUtil IniFile JsonWriter.

(** [mutable_] has no value before a configuration is loaded. *)
Record ClusterSettings := mkSettings {
  st_name : bytes;
  st_storagePath : bytes;
  st_mutable : option bool;
  st_allowXSendfile : bool;
  st_queueTimeout : Z;
  st_connectTimeout : Z;
  st_readTimeout : Z;
  st_writeTimeout : Z;
  st_hcHostHeader : bytes;
  st_hcRequestPath : bytes;
  st_hcFcgiScriptFilename : bytes;
  st_hcInterval : Z;
  st_hcSuccessThreshold : Z;
  st_hcSuccessCodes : list Z;
}.
Definition st_set_mutable (x : option bool) (s : ClusterSettings) : ClusterSettings :=
  mkSettings (st_name s) (st_storagePath s) x (st_allowXSendfile s) (st_queueTimeout s) (st_connectTimeout s) (st_readTimeout s) (st_writeTimeout s) (st_hcHostHeader s) (st_hcRequestPath s) (st_hcFcgiScriptFilename s) (st_hcInterval s) (st_hcSuccessThreshold s) (st_hcSuccessCodes s).
Definition st_set_allowXSendfile (x : bool) (s : ClusterSettings) : ClusterSettings :=
  mkSettings (st_name s) (st_storagePath s) (st_mutable s) x (st_queueTimeout s) (st_connectTimeout s) (st_readTimeout s) (st_writeTimeout s) (st_hcHostHeader s) (st_hcRequestPath s) (st_hcFcgiScriptFilename s) (st_hcInterval s) (st_hcSuccessThreshold s) (st_hcSuccessCodes s).
Definition st_set_queueTimeout (x : Z) (s : ClusterSettings) : ClusterSettings :=
  mkSettings (st_name s) (st_storagePath s) (st_mutable s) (st_allowXSendfile s) x (st_connectTimeout s) (st_readTimeout s) (st_writeTimeout s) (st_hcHostHeader s) (st_hcRequestPath s) (st_hcFcgiScriptFilename s) (st_hcInterval s) (st_hcSuccessThreshold s) (st_hcSuccessCodes s).
Definition st_set_connectTimeout (x : Z) (s : ClusterSettings) : ClusterSettings :=
  mkSettings (st_name s) (st_storagePath s) (st_mutable s) (st_allowXSendfile s) (st_queueTimeout s) x (st_readTimeout s) (st_writeTimeout s) (st_hcHostHeader s) (st_hcRequestPath s) (st_hcFcgiScriptFilename s) (st_hcInterval s) (st_hcSuccessThreshold s) (st_hcSuccessCodes s).
Definition st_set_readTimeout (x : Z) (s : ClusterSettings) : ClusterSettings :=
  mkSettings (st_name s) (st_storagePath s) (st_mutable s) (st_allowXSendfile s) (st_queueTimeout s) (st_connectTimeout s) x (st_writeTimeout s) (st_hcHostHeader s) (st_hcRequestPath s) (st_hcFcgiScriptFilename s) (st_hcInterval s) (st_hcSuccessThreshold s) (st_hcSuccessCodes s).
Definition st_set_writeTimeout (x : Z) (s : ClusterSettings) : ClusterSettings :=
  mkSettings (st_name s) (st_storagePath s) (st_mutable s) (st_allowXSendfile s) (st_queueTimeout s) (st_connectTimeout s) (st_readTimeout s) x (st_hcHostHeader s) (st_hcRequestPath s) (st_hcFcgiScriptFilename s) (st_hcInterval s) (st_hcSuccessThreshold s) (st_hcSuccessCodes s).
Definition st_set_hcHostHeader (x : bytes) (s : ClusterSettings) : ClusterSettings :=
  mkSettings (st_name s) (st_storagePath s) (st_mutable s) (st_allowXSendfile s) (st_queueTimeout s) (st_connectTimeout s) (st_readTimeout s) (st_writeTimeout s) x (st_hcRequestPath s) (st_hcFcgiScriptFilename s) (st_hcInterval s) (st_hcSuccessThreshold s) (st_hcSuccessCodes s).
Definition st_set_hcRequestPath (x : bytes) (s : ClusterSettings) : ClusterSettings :=
  mkSettings (st_name s) (st_storagePath s) (st_mutable s) (st_allowXSendfile s) (st_queueTimeout s) (st_connectTimeout s) (st_readTimeout s) (st_writeTimeout s) (st_hcHostHeader s) x (st_hcFcgiScriptFilename s) (st_hcInterval s) (st_hcSuccessThreshold s) (st_hcSuccessCodes s).
Definition st_set_hcFcgiScriptFilename (x : bytes) (s : ClusterSettings) : ClusterSettings :=
  mkSettings (st_name s) (st_storagePath s) (st_mutable s) (st_allowXSendfile s) (st_queueTimeout s) (st_connectTimeout s) (st_readTimeout s) (st_writeTimeout s) (st_hcHostHeader s) (st_hcRequestPath s) x (st_hcInterval s) (st_hcSuccessThreshold s) (st_hcSuccessCodes s).
Definition st_set_hcInterval (x : Z) (s : ClusterSettings) : ClusterSettings :=
  mkSettings (st_name s) (st_storagePath s) (st_mutable s) (st_allowXSendfile s) (st_queueTimeout s) (st_connectTimeout s) (st_readTimeout s) (st_writeTimeout s) (st_hcHostHeader s) (st_hcRequestPath s) (st_hcFcgiScriptFilename s) x (st_hcSuccessThreshold s) (st_hcSuccessCodes s).
Definition st_set_hcSuccessThreshold (x : Z) (s : ClusterSettings) : ClusterSettings :=
  mkSettings (st_name s) (st_storagePath s) (st_mutable s) (st_allowXSendfile s) (st_queueTimeout s) (st_connectTimeout s) (st_readTimeout s) (st_writeTimeout s) (st_hcHostHeader s) (st_hcRequestPath s) (st_hcFcgiScriptFilename s) (st_hcInterval s) x (st_hcSuccessCodes s).
Definition st_set_hcSuccessCodes (x : list Z) (s : ClusterSettings) : ClusterSettings :=
  mkSettings (st_name s) (st_storagePath s) (st_mutable s) (st_allowXSendfile s) (st_queueTimeout s) (st_connectTimeout s) (st_readTimeout s) (st_writeTimeout s) (st_hcHostHeader s) (st_hcRequestPath s) (st_hcFcgiScriptFilename s) (st_hcInterval s) (st_hcSuccessThreshold s) x.

(** Of a member, what does not matter for the schedule. *)
Record MemberInfo := mkMemberInfo {
  mi_ip : IPAddress;
  mi_port : Z;
  mi_terminateProtection : bool;
  mi_protocol : bytes;
  mi_connectTimeout : Z;
  mi_readTimeout : Z;
  mi_writeTimeout : Z;
  mi_hcHostHeader : bytes;
  mi_hcRequestPath : bytes;
  mi_hcFcgiScriptFilename : bytes;
  mi_hcInterval : Z;
}.
Definition mi_set_terminateProtection (x : bool) (m : MemberInfo) : MemberInfo :=
  mkMemberInfo (mi_ip m) (mi_port m) x (mi_protocol m) (mi_connectTimeout m) (mi_readTimeout m) (mi_writeTimeout m) (mi_hcHostHeader m) (mi_hcRequestPath m) (mi_hcFcgiScriptFilename m) (mi_hcInterval m).
Definition mi_set_hcHostHeader (x : bytes) (m : MemberInfo) : MemberInfo :=
  mkMemberInfo (mi_ip m) (mi_port m) (mi_terminateProtection m) (mi_protocol m) (mi_connectTimeout m) (mi_readTimeout m) (mi_writeTimeout m) x (mi_hcRequestPath m) (mi_hcFcgiScriptFilename m) (mi_hcInterval m).
Definition mi_set_hcRequestPath (x : bytes) (m : MemberInfo) : MemberInfo :=
  mkMemberInfo (mi_ip m) (mi_port m) (mi_terminateProtection m) (mi_protocol m) (mi_connectTimeout m) (mi_readTimeout m) (mi_writeTimeout m) (mi_hcHostHeader m) x (mi_hcFcgiScriptFilename m) (mi_hcInterval m).
Definition mi_set_hcInterval (x : Z) (m : MemberInfo) : MemberInfo :=
  mkMemberInfo (mi_ip m) (mi_port m) (mi_terminateProtection m) (mi_protocol m) (mi_connectTimeout m) (mi_readTimeout m) (mi_writeTimeout m) (mi_hcHostHeader m) (mi_hcRequestPath m) (mi_hcFcgiScriptFilename m) x.

(** [dr_info] has the members of [dr_cluster], in their order. *)
Record Director := mkDirector { dr_settings : ClusterSettings; dr_cluster : Cluster (Node nat); dr_info : list MemberInfo }.
Definition on_settings (f : ClusterSettings → ClusterSettings) (d : Director) : Director := mkDirector (f (dr_settings d)) (dr_cluster d) (dr_info d).
Definition on_cluster (f : Cluster (Node nat) → Cluster (Node nat)) (d : Director) : Director := mkDirector (dr_settings d) (f (dr_cluster d)) (dr_info d).
Definition on_infos (f : MemberInfo → MemberInfo) (d : Director) : Director := mkDirector (dr_settings d) (dr_cluster d) (f <$> dr_info d).

Definition cl_set_enabled (x : bool) (c : Cluster (Node nat)) : Cluster (Node nat) :=
  mkCluster x (cl_stickyOfflineMode c) (cl_enqueueOnUnavailable c) (cl_queueLimit c) (cl_retryAfter c) (cl_maxRetryCount c) (cl_shaper c) (cl_members c) (cl_scheduler c) (cl_queued c) (cl_dropped c) (cl_requests c) (cl_inflight c) (cl_tasks c) (cl_output c).
Definition cl_set_stickyOfflineMode (x : bool) (c : Cluster (Node nat)) : Cluster (Node nat) :=
  mkCluster (cl_enabled c) x (cl_enqueueOnUnavailable c) (cl_queueLimit c) (cl_retryAfter c) (cl_maxRetryCount c) (cl_shaper c) (cl_members c) (cl_scheduler c) (cl_queued c) (cl_dropped c) (cl_requests c) (cl_inflight c) (cl_tasks c) (cl_output c).
Definition cl_set_enqueueOnUnavailable (x : bool) (c : Cluster (Node nat)) : Cluster (Node nat) :=
  mkCluster (cl_enabled c) (cl_stickyOfflineMode c) x (cl_queueLimit c) (cl_retryAfter c) (cl_maxRetryCount c) (cl_shaper c) (cl_members c) (cl_scheduler c) (cl_queued c) (cl_dropped c) (cl_requests c) (cl_inflight c) (cl_tasks c) (cl_output c).
Definition cl_set_queueLimit (x : Z) (c : Cluster (Node nat)) : Cluster (Node nat) :=
  mkCluster (cl_enabled c) (cl_stickyOfflineMode c) (cl_enqueueOnUnavailable c) x (cl_retryAfter c) (cl_maxRetryCount c) (cl_shaper c) (cl_members c) (cl_scheduler c) (cl_queued c) (cl_dropped c) (cl_requests c) (cl_inflight c) (cl_tasks c) (cl_output c).
Definition cl_set_retryAfter (x : Z) (c : Cluster (Node nat)) : Cluster (Node nat) :=
  mkCluster (cl_enabled c) (cl_stickyOfflineMode c) (cl_enqueueOnUnavailable c) (cl_queueLimit c) x (cl_maxRetryCount c) (cl_shaper c) (cl_members c) (cl_scheduler c) (cl_queued c) (cl_dropped c) (cl_requests c) (cl_inflight c) (cl_tasks c) (cl_output c).
Definition cl_set_maxRetryCount (x : Z) (c : Cluster (Node nat)) : Cluster (Node nat) :=
  mkCluster (cl_enabled c) (cl_stickyOfflineMode c) (cl_enqueueOnUnavailable c) (cl_queueLimit c) (cl_retryAfter c) x (cl_shaper c) (cl_members c) (cl_scheduler c) (cl_queued c) (cl_dropped c) (cl_requests c) (cl_inflight c) (cl_tasks c) (cl_output c).

Definition fromMilliseconds (n : Z) : Z := u64 (u64 n * 1000).
Definition fromSeconds (n : Z) : Z := u64 (u64 n * 1000000).
Definition milliseconds (d : Z) : Z := d / 1000.
Definition seconds (d : Z) : Z := d / 1000000.

(** The constructor with its defaults. *)
Definition newDirector (name storagePath : bytes) : Director :=
  mkDirector
    (mkSettings name storagePath None true 30000000 4000000 30000000 8000000 (str "healthcheck") (str "/") [] 4000000 3 [200])
    (newCluster (createRoot 0)) [].

(** ** Members *)

Definition dr_addMember (name : bytes) (ip : IPAddress) (port capacity : Z) (enabled terminateProtection : bool) (protocol : bytes) (hcInterval : Z) (d : Director) : Director :=
  let s := dr_settings d in
  mkDirector s
    (cl_setMembers (cl_members (dr_cluster d) ++ [mkMember name capacity enabled newCounter (newHealthMonitor (st_hcSuccessThreshold s) (st_hcSuccessCodes s))]) (dr_cluster d))
    (dr_info d ++ [mkMemberInfo ip port terminateProtection protocol (st_connectTimeout s) (st_readTimeout s) (st_writeTimeout s)
       (st_hcHostHeader s) (st_hcRequestPath s) (st_hcFcgiScriptFilename s) hcInterval]).

(** The member is deleted; what still points to it is not told. *)
Definition removeMember (name : bytes) (d : Director) : Director :=
  match findMember name (dr_cluster d) with
  | Some i => mkDirector (dr_settings d) (cl_setMembers (delete i (cl_members (dr_cluster d))) (dr_cluster d)) (delete i (dr_info d))
  | None => d
  end.

Definition setHealthCheckHostHeader (v : bytes) (d : Director) : Director := on_infos (mi_set_hcHostHeader v) (on_settings (st_set_hcHostHeader v) d).
Definition setHealthCheckRequestPath (v : bytes) (d : Director) : Director := on_infos (mi_set_hcRequestPath v) (on_settings (st_set_hcRequestPath v) d).
Definition setHealthCheckInterval (v : Z) (d : Director) : Director := on_infos (mi_set_hcInterval v) (on_settings (st_set_hcInterval v) d).
Definition on_monitors (f : HttpHealthMonitor → HttpHealthMonitor) : Director → Director :=
  on_cluster (λ c, cl_setMembers ((λ m, mb_setHealth (f (mb_health m)) m) <$> cl_members c) c).
Definition setHealthCheckSuccessThreshold (v : Z) (d : Director) : Director :=
  on_monitors (λ h, mkHealthMonitor v (hm_successCodes h) (hm_state h) (hm_totalFailCount h) (hm_consecutiveSuccessCount h) (hm_checking h))
    (on_settings (st_set_hcSuccessThreshold v) d).
Definition setHealthCheckSuccessCodes (v : list Z) (d : Director) : Director :=
  on_monitors (λ h, mkHealthMonitor (hm_successThreshold h) v (hm_state h) (hm_totalFailCount h) (hm_consecutiveSuccessCount h) (hm_checking h))
    (on_settings (st_set_hcSuccessCodes v) d).

Definition findBucket (name : bytes) (d : Director) : option (list nat) := findChild name (cl_shaper (dr_cluster d)).
Definition dr_createBucket (name : bytes) (rate ceil : float) (d : Director) : result (TokenShaperError * Director) :=
  '(ec, t) ← createChild name rate ceil [] (cl_shaper (dr_cluster d)); Ok (ec, on_cluster (cl_setShaper t) d).
(** An unknown name changes nothing. *)
Definition dr_setScheduler (value : bytes) (d : Director) : result Director := '(_, c) ← setScheduler value (dr_cluster d); Ok (on_cluster (λ _, c) d).

Section Config.
(** [strtof]: the number and how many characters it has; [operator<<] of a [float]; [inet_ntop], [inet_pton]. *)
Context (strtof : bytes → float * nat) (float_text : float → bytes).
Context (inet_ntop : Z → bytes → bytes) (inet_pton : Z → bytes → option bytes) (uninit : IPAddress).

(** ** The configuration as text *)

Definition config_row (k v : bytes) : bytes := k ++ str "=" ++ v ++ [10].
Definition int_text (n : Z) : bytes := if n <? 0 then str "-" ++ decimal (- n) else decimal n.
Definition bucket_text (b : Node nat) : bytes :=
  str "[bucket=" ++ nd_name (nd b) ++ str "]" ++ [10] ++
  config_row (str "rate") (float_text (nd_ratePercent (nd b))) ++
  config_row (str "ceil") (float_text (nd_ceilPercent (nd b))) ++ [10].
Definition backend_text (m : Member) (i : MemberInfo) : bytes :=
  str "[backend=" ++ mb_name m ++ str "]" ++ [10] ++
  config_row (str "capacity") (decimal (mb_capacity m)) ++
  config_row (str "enabled") (bool_text (mb_enabled m)) ++
  config_row (str "protocol") (mi_protocol i) ++
  config_row (str "health-check-interval") (decimal (milliseconds (mi_hcInterval i))) ++
  config_row (str "host") (ip_str inet_ntop (mi_ip i)) ++
  config_row (str "port") (int_text (mi_port i)) ++ [10].
Definition configuration (d : Director) : bytes :=
  let s := dr_settings d in let c := dr_cluster d in
  str "# vim:syntax=dosini" ++ [10] ++
  str "# !!! DO NOT EDIT !!! THIS FILE IS GENERATED AUTOMATICALLY !!!" ++ [10; 10] ++
  str "[director]" ++ [10] ++
  config_row (str "enabled") (bool_text (cl_enabled c)) ++
  config_row (str "queue-limit") (decimal (cl_queueLimit c)) ++
  config_row (str "queue-timeout") (decimal (milliseconds (st_queueTimeout s))) ++
  config_row (str "retry-after") (decimal (seconds (cl_retryAfter c))) ++
  config_row (str "max-retry-count") (decimal (cl_maxRetryCount c)) ++
  config_row (str "sticky-offline-mode") (bool_text (cl_stickyOfflineMode c)) ++
  config_row (str "allow-x-sendfile") (bool_text (st_allowXSendfile s)) ++
  config_row (str "enqueue-on-unavailable") (bool_text (cl_enqueueOnUnavailable c)) ++
  config_row (str "connect-timeout") (decimal (milliseconds (st_connectTimeout s))) ++
  config_row (str "read-timeout") (decimal (milliseconds (st_readTimeout s))) ++
  config_row (str "write-timeout") (decimal (milliseconds (st_writeTimeout s))) ++
  config_row (str "health-check-success-threshold") (decimal (st_hcSuccessThreshold s)) ++
  config_row (str "health-check-host-header") (st_hcHostHeader s) ++
  config_row (str "health-check-request-path") (st_hcRequestPath s) ++
  config_row (str "health-check-fcgi-script-filename") (st_hcFcgiScriptFilename s) ++
  config_row (str "scheduler") (scheduler_name (cl_scheduler c)) ++ [10] ++
  mjoin (bucket_text <$> children (cl_shaper c)) ++
  mjoin (zip_with backend_text (cl_members c) (dr_info d)).

(** The files of the directory of clusters. *)
Definition Files : Type := gmap bytes bytes.
Definition saveConfiguration (d : Director) (fs : Files) : Files := <[st_storagePath (dr_settings d) := configuration d]> fs.

(** ** The configuration from text *)

(** A value that has to be there. *)
Definition load_value (f : IniFile) (title key : bytes) : result bytes :=
  match ini_find title key f with Some v => Ok v | None => Raise RuntimeError end.
Definition load_number (f : IniFile) (title key : bytes) : result Z := v ← load_value f title key; std_stoll v.
Definition load_ms (f : IniFile) (title key : bytes) : result Z := n ← load_number f title key; Ok (fromMilliseconds n).
Definition is_true (v : bytes) : bool := bool_decide (v = str "true").

(** [std::atoi] has no defined result for what does not fit. *)
Definition std_atoi (s : bytes) : result Z :=
  match std_stoi s with Ok v => Ok v | Raise StdInvalidArgument => Ok 0 | Raise _ => Raise UndefinedBehaviour end.

Definition loadBackend (f : IniFile) (key : bytes) (d : Director) : result Director :=
  let name := drop 8 key in
  capacity ← load_number f key (str "capacity");
  protocol ← load_value f key (str "protocol");
  enabled ← load_value f key (str "enabled");
  interval ← load_ms f key (str "health-check-interval");
  host ← load_value f key (str "host");
  portStr ← load_value f key (str "port");
  port ← std_atoi portStr;
  if port <=? 0 then Raise RuntimeError
  else Ok (dr_addMember name (ip_of_text inet_pton uninit host) port (u64 capacity) (is_true enabled) false protocol interval d).

Definition loadBucket (f : IniFile) (key : bytes) (d : Director) : result Director :=
  let name := drop 7 key in
  rateStr ← load_value f key (str "rate");
  ceilStr ← load_value f key (str "ceil");
  '(ec, d) ← dr_createBucket name (strtof rateStr).1 (strtof ceilStr).1 d;
  match ec with Success => Ok d | _ => Raise RuntimeError end.

Definition load_section (f : IniFile) (key : bytes) (d : Director) : result Director :=
  if bool_decide (key = str "director") || bool_decide (key = str "cache") then Ok d
  else if su_beginsWith key (str "backend=") then loadBackend f key d
  else if su_beginsWith key (str "bucket=") then loadBucket f key d
  else Raise RuntimeError.
Fixpoint load_sections (f : IniFile) (keys : list bytes) (d : Director) : result Director :=
  match keys with [] => Ok d | k :: keys => d ← load_section f k d; load_sections f keys d end.

(** The numbers and names of section [director]. A threshold that is empty is passed over. *)
Definition load_globals (f : IniFile) (d : Director) : result (Director * nat) :=
  let D := str "director" in
  let '(d, changed) := match ini_find D (str "enabled") f with Some v => (on_cluster (cl_set_enabled (is_true v)) d, 0%nat) | None => (d, 1%nat) end in
  n ← load_number f D (str "queue-limit");
  let d := on_cluster (cl_set_queueLimit (u64 n)) d in
  t ← load_ms f D (str "queue-timeout");
  let d := on_cluster (λ c, cl_setShaper (setQueueTimeout t (cl_shaper c)) c) (on_settings (st_set_queueTimeout t) d) in
  n ← load_number f D (str "retry-after");
  let d := on_cluster (cl_set_retryAfter (fromSeconds n)) d in
  t ← load_ms f D (str "connect-timeout");
  let d := on_settings (st_set_connectTimeout t) d in
  t ← load_ms f D (str "read-timeout");
  let d := on_settings (st_set_readTimeout t) d in
  t ← load_ms f D (str "write-timeout");
  let d := on_settings (st_set_writeTimeout t) d in
  n ← load_number f D (str "max-retry-count");
  let d := on_cluster (cl_set_maxRetryCount (u64 n)) d in
  v ← load_value f D (str "sticky-offline-mode");
  let d := on_cluster (cl_set_stickyOfflineMode (is_true v)) d in
  let '(d, changed) := match ini_find D (str "allow-x-sendfile") f with
                       | Some v => (on_settings (st_set_allowXSendfile (is_true v)) d, changed)
                       | None => (on_settings (st_set_allowXSendfile false) d, S changed)
                       end in
  let '(d, changed) := match ini_find D (str "enqueue-on-unavailable") f with
                       | Some v => (on_settings (st_set_allowXSendfile (is_true v)) d, changed)
                       | None => (on_cluster (cl_set_enqueueOnUnavailable false) d, S changed)
                       end in
  d ← match ini_find D (str "health-check-success-threshold") f with
      | Some (x :: v) => i ← std_stoi (x :: v); if i =? 0 then Raise RuntimeError else Ok (on_settings (st_set_hcSuccessThreshold (u32 i)) d)
      | _ => Ok d
      end;
  v ← load_value f D (str "health-check-host-header");
  let d := on_settings (st_set_hcHostHeader v) d in
  v ← load_value f D (str "health-check-request-path");
  let d := on_settings (st_set_hcRequestPath v) d in
  let d := on_settings (st_set_hcFcgiScriptFilename (ini_get D (str "health-check-fcgi-script-filename") f)) d in
  match ini_find D (str "scheduler") f with
  | Some v => d ← dr_setScheduler v d; Ok (d, changed)
  | None => Ok (d, S changed)
  end.

(** What is loaded is written back when something was missing. *)
Definition configure (f : IniFile) (d : Director) (fs : Files) : result (Director * Files) :=
  '(d, changed) ← load_globals f d;
  d ← load_sections f (fst <$> in_order f) d;
  let d := on_settings (st_set_mutable (Some true)) d in
  Ok (d, if (0 <? changed)%nat then saveConfiguration d fs else fs).
Definition setConfiguration (text : bytes) (d : Director) (fs : Files) : result (Director * Files) :=
  f ← ini_load text ∅; configure f d fs.

(** ** JSON *)

Context (fixed_text : float → bytes).  (* [snprintf("%f")] *)
Definition field_text (k t : bytes) : JsonOp := jw_name k ;; jw_value t.
Definition field_string (k s : bytes) : JsonOp := jw_name k ;; jw_string s.
Definition field_bool (k : bytes) (b : bool) : JsonOp := jw_name k ;; jw_bool b.
Definition field_number (k : bytes) (n : Z) : JsonOp := field_text k (decimal n).

Definition counter_json (c : Counter) : JsonOp :=
  beginObject [] ;; (field_number (str "current") (c_current c) ;; field_number (str "max") (c_max c) ;; field_number (str "total") (c_total c) ;; jw_skip) ;; endObject.
Fixpoint node_json (t : Node nat) : JsonOp :=
  let d := nd t in
  beginObject [] ;;
  (field_string (str "name") (nd_name d) ;;
   field_text (str "rate") (fixed_text (nd_ratePercent d)) ;;
   field_text (str "ceil") (fixed_text (nd_ceilPercent d)) ;;
   field_number (str "token-rate") (nd_rate d) ;;
   field_number (str "token-ceil") (nd_ceil d) ;;
   (beginObject (str "stats") ;;
    ((jw_name (str "load") ;; counter_json (nd_actualRate d)) ;;
     (jw_name (str "queued") ;; counter_json (nd_queued d)) ;;
     field_number (str "dropped") (nd_dropped d) ;; jw_skip) ;;
    endObject) ;;
   (beginArray (str "children") ;; jw_all (node_json <$> children t) ;; endArray) ;; jw_skip) ;;
  endObject.
Definition health_text (h : HealthState) : bytes := match h with HUndefined => str "undefined" | HOffline => str "offline" | HOnline => str "online" end.
Definition monitor_json (h : HttpHealthMonitor) (i : MemberInfo) : JsonOp :=
  beginObject [] ;;
  (field_string (str "state") (health_text (hm_state h)) ;; field_number (str "interval") (milliseconds (mi_hcInterval i)) ;; jw_skip) ;;
  endObject.
Definition member_json (m : Member) (i : MemberInfo) : JsonOp :=
  beginObject [] ;;
  (field_string (str "name") (mb_name m) ;;
   field_number (str "capacity") (mb_capacity m) ;;
   field_bool (str "terminate-protection") (mi_terminateProtection i) ;;
   field_bool (str "enabled") (mb_enabled m) ;;
   field_string (str "protocol") (mi_protocol i) ;;
   field_string (str "hostname") (ip_str inet_ntop (mi_ip i)) ;;
   field_text (str "port") (int_text (mi_port i)) ;;
   (beginObject (str "stats") ;; ((jw_name (str "load") ;; counter_json (mb_load m)) ;; jw_skip) ;; endObject) ;;
   (jw_name (str "health") ;; monitor_json (mb_health m) i) ;; jw_skip) ;;
  endObject.
(** [load_] of a cluster is never counted. [mutable_] is read whether it has a value or not. *)
Definition cluster_json (d : Director) : JsonOp := λ w,
  let s := dr_settings d in let c := dr_cluster d in
  match st_mutable s with
  | None => Raise UndefinedBehaviour
  | Some mut =>
      (beginObject [] ;;
       (field_bool (str "mutable") mut ;;
        field_bool (str "enabled") (cl_enabled c) ;;
        field_number (str "queue-limit") (cl_queueLimit c) ;;
        field_number (str "queue-timeout") (milliseconds (st_queueTimeout s)) ;;
        field_number (str "retry-after") (seconds (cl_retryAfter c)) ;;
        field_number (str "max-retry-count") (cl_maxRetryCount c) ;;
        field_bool (str "sticky-offline-mode") (cl_stickyOfflineMode c) ;;
        field_bool (str "allow-x-sendfile") (st_allowXSendfile s) ;;
        field_bool (str "enqueue-on-unavailable") (cl_enqueueOnUnavailable c) ;;
        field_number (str "connect-timeout") (milliseconds (st_connectTimeout s)) ;;
        field_number (str "read-timeout") (milliseconds (st_readTimeout s)) ;;
        field_number (str "write-timeout") (milliseconds (st_writeTimeout s)) ;;
        field_string (str "health-check-host-header") (st_hcHostHeader s) ;;
        field_string (str "health-check-request-path") (st_hcRequestPath s) ;;
        field_string (str "health-check-fcgi-script-name") (st_hcFcgiScriptFilename s) ;;
        field_string (str "scheduler") (scheduler_name (cl_scheduler c)) ;;
        (beginObject (str "stats") ;;
         ((jw_name (str "load") ;; counter_json newCounter) ;;
          (jw_name (str "queued") ;; counter_json (cl_queued c)) ;;
          field_number (str "dropped") (cl_dropped c) ;; jw_skip) ;;
         endObject) ;;
        (jw_name (str "shaper") ;; node_json (cl_shaper c)) ;;
        (beginArray (str "members") ;; jw_all (zip_with member_json (cl_members c) (dr_info d)) ;; endArray) ;; jw_skip) ;;
       endObject) w
  end.
End Config.
