(* ===== verification/HttpClusterConfigRoundtrip.v ===== *)
(** * What a configuration restores

    The configuration of a cluster is a text of lines ([configuration_lines]), which cannot be
    loaded because of its empty lines. With these left out, a new cluster that loads it becomes
    what [restored] says. *)
From stdpp Require Import gmap sorting.
From Stdlib Require Import SpecFloat.
From S2P Require Import Prelude HeaderFieldList Http1Parser Http1Generator Http1Roundtrip NetAddress TokenShaper HttpMessage HttpCluster HttpClusterShaper StringUtil UriRoundtrip IniFile IniSections JsonWriter HttpClusterConfig.

Section Config.
Context (strtof : bytes → float * nat) (float_text : float → bytes).
Context (inet_ntop : Z → bytes → bytes) (inet_pton : Z → bytes → option bytes) (uninit : IPAddress).

(** ** The lines *)

Definition director_rows (d : Director) : list (bytes * bytes) :=
  let s := dr_settings d in let c := dr_cluster d in
  [(str "enabled", bool_text (cl_enabled c));
   (str "queue-limit", decimal (cl_queueLimit c));
   (str "queue-timeout", decimal (milliseconds (st_queueTimeout s)));
   (str "retry-after", decimal (seconds (cl_retryAfter c)));
   (str "max-retry-count", decimal (cl_maxRetryCount c));
   (str "sticky-offline-mode", bool_text (cl_stickyOfflineMode c));
   (str "allow-x-sendfile", bool_text (st_allowXSendfile s));
   (str "enqueue-on-unavailable", bool_text (cl_enqueueOnUnavailable c));
   (str "connect-timeout", decimal (milliseconds (st_connectTimeout s)));
   (str "read-timeout", decimal (milliseconds (st_readTimeout s)));
   (str "write-timeout", decimal (milliseconds (st_writeTimeout s)));
   (str "health-check-success-threshold", decimal (st_hcSuccessThreshold s));
   (str "health-check-host-header", st_hcHostHeader s);
   (str "health-check-request-path", st_hcRequestPath s);
   (str "health-check-fcgi-script-filename", st_hcFcgiScriptFilename s);
   (str "scheduler", scheduler_name (cl_scheduler c))].
Definition bucket_section (b : Node nat) : bytes * list (bytes * bytes) :=
  (str "bucket=" ++ nd_name (nd b), [(str "rate", float_text (nd_ratePercent (nd b))); (str "ceil", float_text (nd_ceilPercent (nd b)))]).
Definition backend_section (m : Member) (i : MemberInfo) : bytes * list (bytes * bytes) :=
  (str "backend=" ++ mb_name m,
   [(str "capacity", decimal (mb_capacity m)); (str "enabled", bool_text (mb_enabled m)); (str "protocol", mi_protocol i);
    (str "health-check-interval", decimal (milliseconds (mi_hcInterval i))); (str "host", ip_str inet_ntop (mi_ip i)); (str "port", int_text (mi_port i))]).
Definition config_sections (d : Director) : list (bytes * list (bytes * bytes)) :=
  (str "director", director_rows d) :: (bucket_section <$> children (cl_shaper (dr_cluster d))) ++
  zip_with backend_section (cl_members (dr_cluster d)) (dr_info d).
Definition config_remarks : list IniLine :=
  [Remark true (str " vim:syntax=dosini"); Remark true (str " !!! DO NOT EDIT !!! THIS FILE IS GENERATED AUTOMATICALLY !!!")].
Definition config_lines (d : Director) : list IniLine := config_remarks ++ sections_lines (config_sections d).

(** The configuration has these lines, and an empty one behind the remarks and every section. *)
Definition lines_text (ls : list IniLine) : bytes := mjoin ((λ l, line_text l ++ [10]) <$> ls).
Definition section_block (s : bytes * list (bytes * bytes)) : bytes := lines_text (section_lines s) ++ [10].

Lemma lines_text_app a b : lines_text (a ++ b) = lines_text a ++ lines_text b.
Proof. unfold lines_text. by rewrite fmap_app, join_app. Qed.
Lemma rows_text rows : lines_text ((λ r, Row r.1 r.2) <$> rows) = mjoin ((λ r, config_row r.1 r.2) <$> rows).
Proof. unfold lines_text. rewrite <-list_fmap_compose. f_equal. apply list_fmap_ext. intros i [k v] _. cbn [compose line_text fst snd]. unfold config_row. by rewrite <-!app_assoc. Qed.
Lemma block_text t rows : section_block (t, rows) = [91] ++ t ++ [93; 10] ++ mjoin ((λ r, config_row r.1 r.2) <$> rows) ++ [10].
Proof. unfold section_block, section_lines. change (?a :: ?b) with ([a] ++ b). rewrite lines_text_app, rows_text. unfold lines_text. cbn [fmap list_fmap mjoin list_join line_text fst snd]. by rewrite app_nil_r, <-!app_assoc. Qed.

Lemma configuration_lines d : configuration float_text inet_ntop d = lines_text config_remarks ++ [10] ++ mjoin (section_block <$> config_sections d).
Proof.
  unfold config_sections. cbn [fmap list_fmap mjoin list_join]. rewrite fmap_app, join_app, block_text.
  assert (Hb : ∀ l, mjoin (section_block <$> (bucket_section <$> l)) = mjoin (bucket_text float_text <$> l)).
  { intros l. rewrite <-list_fmap_compose. f_equal. apply list_fmap_ext. intros i b _. cbn [compose]. unfold bucket_section. rewrite block_text.
    unfold bucket_text. cbn [fmap list_fmap mjoin list_join fst snd]. rewrite app_nil_r, <-!app_assoc. reflexivity. }
  assert (Hm : ∀ l k, mjoin (section_block <$> zip_with backend_section l k) = mjoin (zip_with (backend_text inet_ntop) l k)).
  { induction l as [| m l IH]; intros [| i k]; [done.. |]. cbn [zip_with fmap list_fmap mjoin list_join]. rewrite IH. f_equal. unfold backend_section. rewrite block_text.
    unfold backend_text. cbn [fmap list_fmap mjoin list_join fst snd]. rewrite app_nil_r, <-!app_assoc. reflexivity. }
  rewrite Hb, Hm. unfold configuration, director_rows, config_remarks, lines_text. cbn [fmap list_fmap mjoin list_join fst snd line_text].
  rewrite !app_nil_r, <-!app_assoc. reflexivity.
Qed.

(** ** What can be written and restored *)

Definition whole (unit t : Z) : Prop := t mod unit = 0 ∧ 0 ≤ t < 2 ^ 63.
Record member_ok (m : Member) (i : MemberInfo) : Prop := {
  mk_name : trimmed (str "backend=" ++ mb_name m) = true;
  mk_capacity : 0 ≤ mb_capacity m < 2 ^ 63;
  mk_protocol : trimmed (mi_protocol i) = true;
  mk_interval : whole 1000 (mi_hcInterval i);
  mk_host : trimmed (ip_str inet_ntop (mi_ip i)) = true;
  mk_port : 0 < mi_port i < 2 ^ 31 }.
(** The text of a number is read as this number. *)
Record bucket_ok (b : Node nat) : Prop := {
  bk_name : trimmed (str "bucket=" ++ nd_name (nd b)) = true;
  bk_rate : trimmed (float_text (nd_ratePercent (nd b))) = true ∧ (strtof (float_text (nd_ratePercent (nd b)))).1 = nd_ratePercent (nd b);
  bk_ceil : trimmed (float_text (nd_ceilPercent (nd b))) = true ∧ (strtof (float_text (nd_ceilPercent (nd b)))).1 = nd_ceilPercent (nd b) }.
Definition ascending (names : list bytes) : Prop := StronglySorted (λ a b, su_compare a b = -1) names.
Record director_ok (d : Director) : Prop := {
  dk_limits : 0 ≤ cl_queueLimit (dr_cluster d) < 2 ^ 63 ∧ 0 ≤ cl_maxRetryCount (dr_cluster d) < 2 ^ 63;
  dk_retry : whole 1000000 (cl_retryAfter (dr_cluster d));
  dk_times : whole 1000 (st_queueTimeout (dr_settings d)) ∧ whole 1000 (st_connectTimeout (dr_settings d)) ∧
    whole 1000 (st_readTimeout (dr_settings d)) ∧ whole 1000 (st_writeTimeout (dr_settings d));
  dk_threshold : 0 < st_hcSuccessThreshold (dr_settings d) < 2 ^ 31;
  dk_texts : trimmed (st_hcHostHeader (dr_settings d)) = true ∧ trimmed (st_hcRequestPath (dr_settings d)) = true ∧
    trimmed (st_hcFcgiScriptFilename (dr_settings d)) = true;
  dk_members : Forall2 member_ok (cl_members (dr_cluster d)) (dr_info d);
  dk_buckets : Forall bucket_ok (children (cl_shaper (dr_cluster d)));
  dk_member_names : ascending (mb_name <$> cl_members (dr_cluster d));
  dk_bucket_names : ascending ((λ b, nd_name (nd b)) <$> children (cl_shaper (dr_cluster d))) }.

(** Buckets made one after the other. *)
Fixpoint create_buckets (bs : list (Node nat)) (t : Node nat) : option (Node nat) :=
  match bs with
  | [] => Some t
  | b :: bs => match createChild (nd_name (nd b)) (nd_ratePercent (nd b)) (nd_ceilPercent (nd b)) [] t with Ok (Success, t) => create_buckets bs t | _ => None end
  end.

(** The settings come back but for five of them: whether requests are queued when no member is
    available has the default, and whether [X-Sendfile] is allowed has its value instead; the
    interval and the codes of the health check have their defaults; members are not protected.
    The buckets are made anew, with no tokens, and the members are not checked yet. *)
Definition restored_member (d : Director) (m : Member) : Member :=
  mkMember (mb_name m) (mb_capacity m) (mb_enabled m) newCounter (newHealthMonitor (st_hcSuccessThreshold (dr_settings d)) [200]).
Definition restored_info (d : Director) (i : MemberInfo) : MemberInfo :=
  let s := dr_settings d in
  mkMemberInfo (ip_of_text inet_pton uninit (ip_str inet_ntop (mi_ip i))) (mi_port i) false (mi_protocol i) (st_connectTimeout s) (st_readTimeout s) (st_writeTimeout s)
    (st_hcHostHeader s) (st_hcRequestPath s) (st_hcFcgiScriptFilename s) (mi_hcInterval i).
Definition restored_settings (d : Director) (name path : bytes) (mut : option bool) : ClusterSettings :=
  let s := dr_settings d in
  mkSettings name path mut (cl_enqueueOnUnavailable (dr_cluster d)) (st_queueTimeout s) (st_connectTimeout s) (st_readTimeout s) (st_writeTimeout s)
    (st_hcHostHeader s) (st_hcRequestPath s) (st_hcFcgiScriptFilename s) 4000000 (st_hcSuccessThreshold s) [200].
Definition restored_cluster (d : Director) (t : Node nat) (ms : list Member) : Cluster (Node nat) :=
  let c := dr_cluster d in
  mkCluster (cl_enabled c) (cl_stickyOfflineMode c) true (cl_queueLimit c) (cl_retryAfter c) (cl_maxRetryCount c) t ms (RoundRobin 0) newCounter 0 ∅ [] [] [].
Definition restored (d : Director) (name path : bytes) (t : Node nat) : Director :=
  mkDirector (restored_settings d name path (Some true)) (restored_cluster d t (restored_member d <$> cl_members (dr_cluster d))) (restored_info d <$> dr_info d).

(** ** The lines are loaded *)

Lemma decimal_trimmed n : 0 ≤ n → trimmed (decimal n) = true.
Proof.
  intros Hn. pose proof (print_decimal_digits 64 n Hn) as Hd. unfold decimal. destruct (print_number 64 10 n) as [| c s] eqn:E; [by apply print_number_nonempty in E; [| lia] |].
  assert (Hs : ∀ x, isdigit x = true → isspace x = false ∧ (x =? 10) = false) by (intros x; unfold isdigit, isspace; lia).
  cbn [trimmed]. rewrite !andb_true_iff, !negb_true_iff. split_and!.
  - apply Hs. by apply Forall_inv in Hd.
  - destruct (exists_last (l := c :: s)) as (v & y & El); [done |]. rewrite El, last_app_one. apply Hs. rewrite El in Hd. apply Forall_app in Hd as [_ Hy]. exact (Forall_inv Hy).
  - apply forallb_forall. intros x Hx. rewrite negb_true_iff. apply Hs. rewrite Forall_forall in Hd. by apply Hd.
Qed.
Lemma bool_trimmed b : trimmed (bool_text b) = true. Proof. by destruct b. Qed.
Lemma port_trimmed n : 0 < n → trimmed (int_text n) = true.
Proof. intros Hn. unfold int_text. rewrite (proj2 (Z.ltb_ge _ _)) by lia. apply decimal_trimmed. lia. Qed.
Lemma scheduler_trimmed s : trimmed (scheduler_name s) = true. Proof. by destruct s. Qed.

Lemma config_sections_ok d : director_ok d → Forall section_ok (config_sections d).
Proof.
  intros Hd. destruct Hd as [[? ?] [? ?] ([? ?] & [? ?] & [? ?] & [? ?]) ? (? & ? & ?) Hm Hb _ _].
  assert (∀ u t, 0 < u → 0 ≤ t → 0 ≤ t / u) as Hq by (intros; by apply Z.div_pos).
  unfold config_sections. constructor; [| apply Forall_app; split].
  - split; [done |]. split; [| done]. unfold director_rows, milliseconds, seconds. cbv zeta.
    repeat (apply Forall_cons; [split; [done |]; cbn [snd]; first [apply bool_trimmed | apply scheduler_trimmed | done | apply decimal_trimmed; solve [lia | apply Hq; lia]] |]). constructor.
  - apply Forall_fmap. eapply Forall_impl; [| exact Hb]. intros b [? [? _] [? _]]. split; [done |]. split; [| done]. by repeat constructor.
  - clear -Hm Hq. induction Hm as [| m i ms js [? ? ? [? ?] ? ?] _ IH]; [constructor |]. cbn [zip_with]. constructor; [| done]. split; [done |]. split; [| done].
    unfold backend_section, milliseconds. cbn [snd].
    repeat (apply Forall_cons; [split; [done |]; cbn [snd]; first [apply bool_trimmed | done | apply port_trimmed; lia | apply decimal_trimmed; solve [lia | apply Hq; lia]] |]). constructor.
Qed.

(** The order of the sections in the loaded file. *)
Definition sorted_sections (d : Director) : list (bytes * list (bytes * bytes)) :=
  zip_with backend_section (cl_members (dr_cluster d)) (dr_info d) ++ (bucket_section <$> children (cl_shaper (dr_cluster d))) ++ [(str "director", director_rows d)].
Lemma ascending_sections {X} (f : X → bytes * list (bytes * bytes)) (name : X → bytes) p l :
  (∀ x, (f x).1 = p ++ name x) → ascending (name <$> l) → StronglySorted title_lt (f <$> l).
Proof.
  intros Hf H. induction l as [| x l IH]; cbn in *; [constructor |]. inversion_clear H as [| ? ? Hl Hx]. constructor; [by apply IH |].
  apply Forall_fmap. apply Forall_fmap in Hx. eapply Forall_impl; [| exact Hx]. intros y Hy. unfold title_lt, compose in *. by rewrite !Hf, su_compare_prefix.
Qed.
Lemma sections_sorted d : director_ok d → StronglySorted title_lt (sorted_sections d) ∧ sorted_sections d ≡ₚ config_sections d.
Proof.
  intros Hd. pose proof (Forall2_length (dk_members d Hd)) as Hlen. split.
  - assert (zip_with backend_section (cl_members (dr_cluster d)) (dr_info d) = uncurry backend_section <$> zip (cl_members (dr_cluster d)) (dr_info d)) as Ez.
    { clear. generalize (dr_info d). induction (cl_members (dr_cluster d)) as [| m ms IH]; intros [| i js]; [done.. |]. cbn. by rewrite IH. }
    unfold sorted_sections. apply sorted_app; [rewrite Ez; apply (ascending_sections _ (λ x, mb_name x.1) (str "backend=")) | apply sorted_app |].
    + by intros [m i].
    + change (λ x : Member * MemberInfo, mb_name x.1) with (mb_name ∘ @fst Member MemberInfo). rewrite (list_fmap_compose fst mb_name), fst_zip by lia. apply (dk_member_names d Hd).
    + apply (ascending_sections _ (λ b, nd_name (nd b)) (str "bucket=")); [done |]. apply (dk_bucket_names d Hd).
    + repeat constructor.
    + intros x y (b & -> & _)%list_elem_of_fmap ->%list_elem_of_singleton. reflexivity.
    + intros x y Hx Hy. rewrite Ez in Hx. apply list_elem_of_fmap in Hx as ([m i] & -> & _).
      apply elem_of_app in Hy as [(b & -> & _)%list_elem_of_fmap | ->%list_elem_of_singleton]; reflexivity.
  - unfold sorted_sections, config_sections. rewrite (Permutation_app_comm (zip_with _ _ _)), <-app_assoc. cbn [app]. rewrite Permutation_app_comm. cbn [app].
    constructor. rewrite Permutation_app_comm. done.
Qed.

Lemma director_keys d : NoDup (director_rows d).*1.
Proof. apply (bool_decide_unpack (NoDup _)). vm_compute. exact I. Qed.
Lemma backend_keys m i : NoDup (backend_section m i).2.*1.
Proof. apply (bool_decide_unpack (NoDup _)). vm_compute. exact I. Qed.
Lemma bucket_keys b : NoDup (bucket_section b).2.*1.
Proof. apply (bool_decide_unpack (NoDup _)). vm_compute. exact I. Qed.

Definition found (f : IniFile) (s : bytes * list (bytes * bytes)) : Prop := Forall (λ r, ini_find s.1 r.1 f = Some r.2) s.2.
Lemma config_found d : director_ok d → Forall (found (sections_file (config_sections d))) (config_sections d).
Proof.
  intros Hd. destruct (sections_sorted d Hd) as [Hs Hp]. assert (NoDup (config_sections d).*1) as Hn by (rewrite <-Hp; by apply sorted_NoDup).
  apply Forall_forall. intros [t rows] Hin. assert (NoDup rows.*1); [| apply section_found; try done; by apply list_elem_of_In].
  unfold config_sections in Hin. destruct Hin as [Hin | Hin]; [injection Hin as _ <-; apply director_keys |].
  apply in_app_or in Hin as [Hin | Hin]; apply list_elem_of_In in Hin.
  - apply list_elem_of_fmap in Hin as (b & [= _ ->] & _). apply (bucket_keys b).
  - apply elem_of_lookup_zip_with in Hin as (k & m & i & [= _ ->] & _ & _). apply (backend_keys m i).
Qed.

Lemma is_true_text b : is_true (bool_text b) = b. Proof. by destruct b. Qed.
Lemma stoll_decimal n : 0 ≤ n < 2 ^ 63 → std_stoll (decimal n) = Ok n. Proof. intros Hn. apply stox_decimal; lia. Qed.
Lemma load_number_ok f t k n : ini_find t k f = Some (decimal n) → 0 ≤ n < 2 ^ 63 → load_number f t k = Ok n.
Proof. intros Hf Hn. unfold load_number, load_value. rewrite Hf. by apply stoll_decimal. Qed.
Lemma whole_quotient u t : 0 < u → whole u t → 0 ≤ t / u < 2 ^ 63 ∧ t / u * u = t.
Proof.
  intros Hu [Hm Ht]. pose proof (Z.div_mod t u ltac:(lia)). assert (0 ≤ t / u) by (apply Z.div_pos; lia). split; [| lia]. split; [done |].
  apply Z.div_lt_upper_bound; nia.
Qed.
Lemma load_ms_ok f t k n : ini_find t k f = Some (decimal (milliseconds n)) → whole 1000 n → load_ms f t k = Ok n.
Proof.
  intros Hf Hn. destruct (whole_quotient 1000 n ltac:(lia) Hn) as [Hq He]. destruct Hn as [_ Hn]. unfold load_ms.
  rewrite (load_number_ok _ _ _ _ Hf Hq). cbn [mbind result_bind]. unfold fromMilliseconds, milliseconds, unsigned. rewrite (Z.mod_small (n / 1000)) by lia. rewrite He, Z.mod_small by lia. done.
Qed.

Lemma globals_loaded d name path f : director_ok d → found f (str "director", director_rows d) →
  load_globals f (newDirector name path) =
  Ok (mkDirector (restored_settings d name path None) (restored_cluster d (setQueueTimeout (st_queueTimeout (dr_settings d)) (createRoot 0)) []) [], 0%nat).
Proof.
  intros Hd Hf. destruct Hd as [[Hl1 Hl2] Hr (Ht1 & Ht2 & Ht3 & Ht4) Hth _ _ _ _ _]. unfold found, director_rows in Hf. cbn [fst snd] in Hf.
  repeat match goal with H : Forall _ (_ :: _) |- _ => apply Forall_cons_iff in H; destruct H as [? H] end.
  cbn [fst snd] in *.
  destruct (whole_quotient 1000000 _ ltac:(lia) Hr) as [Hq He]. destruct Hr as [_ Hr].
  assert (Hretry : fromSeconds (cl_retryAfter (dr_cluster d) / 1000000) = cl_retryAfter (dr_cluster d)).
  { unfold fromSeconds, unsigned. rewrite (Z.mod_small (_ / _)) by lia. by rewrite He, Z.mod_small by lia. }
  unfold load_globals. cbv zeta.
  repeat match goal with
  | H : ini_find _ ?k _ = Some (decimal (milliseconds _)) |- context [load_ms _ _ ?k] => rewrite (load_ms_ok _ _ _ _ H) by done
  | H : ini_find _ ?k _ = Some (decimal _) |- context [load_number _ _ ?k] => rewrite (load_number_ok _ _ _ _ H) by (unfold seconds; lia)
  | H : ini_find _ ?k _ = Some _ |- context [load_value _ _ ?k] => unfold load_value at 1; rewrite H
  | H : ini_find _ ?k _ = Some _ |- context [ini_get _ ?k] => unfold ini_get; rewrite H
  | H : ini_find _ ?k _ = Some _ |- context [ini_find _ ?k _] => rewrite H
  end.
  cbn [mbind result_bind default]. rewrite !is_true_text.
  pose proof (decimal_trimmed (st_hcSuccessThreshold (dr_settings d)) ltac:(lia)) as Hdt.
  pose proof (stox_decimal (- 2 ^ 31) (2 ^ 31 - 1) (st_hcSuccessThreshold (dr_settings d)) ltac:(lia) ltac:(lia)) as Hst.
  destruct (decimal (st_hcSuccessThreshold (dr_settings d))) as [| x v]; [done |]. unfold std_stoi. rewrite Hst. cbn [mbind result_bind].
  rewrite (proj2 (Z.eqb_neq _ _)) by lia. cbn [mbind result_bind].
  assert (∀ c : Cluster (Node nat), setScheduler (scheduler_name (cl_scheduler (dr_cluster d))) c = Ok (true, cl_setScheduler (RoundRobin 0) c)) as Hsch by (intros c; by destruct (cl_scheduler _)).
  unfold dr_setScheduler. rewrite Hsch. cbn [mbind result_bind].
  unfold seconds. rewrite Hretry. unfold unsigned. rewrite !Z.mod_small by lia. reflexivity.
Qed.


Lemma load_sections_app f a b d : load_sections strtof inet_pton uninit f (a ++ b) d = (d ← load_sections strtof inet_pton uninit f a d; load_sections strtof inet_pton uninit f b d).
Proof. revert d. induction a as [| k a IH]; intros d; [done |]. cbn [app load_sections]. destruct (load_section _ _ _ f k d); [apply IH | done]. Qed.

Definition with_members (d : Director) (s : ClusterSettings) (t : Node nat) (ms : list Member) (infos : list MemberInfo) : Director :=
  mkDirector s (restored_cluster d t (restored_member d <$> ms)) (restored_info d <$> infos).

Lemma backend_loaded f d name path t m i ms infos : member_ok m i → found f (backend_section m i) →
  load_section strtof inet_pton uninit f (str "backend=" ++ mb_name m) (with_members d (restored_settings d name path None) t ms infos) =
  Ok (with_members d (restored_settings d name path None) t (ms ++ [m]) (infos ++ [i])).
Proof.
  intros [Hn Hc Hp Hi Hh Ht] Hf. unfold found, backend_section in Hf. cbn [fst snd] in Hf.
  repeat match goal with H : Forall _ (_ :: _) |- _ => apply Forall_cons_iff in H; destruct H as [? H] end. cbn [fst snd] in *.
  unfold load_section. rewrite beginsWith_app. change (bool_decide (str "backend=" ++ mb_name m = str "director") || _) with false. cbn iota.
  unfold loadBackend. cbv zeta.
  repeat match goal with
  | H : ini_find _ ?k _ = Some (decimal (milliseconds _)) |- context [load_ms _ _ ?k] => rewrite (load_ms_ok _ _ _ _ H) by done
  | H : ini_find _ ?k _ = Some (decimal _) |- context [load_number _ _ ?k] => rewrite (load_number_ok _ _ _ _ H) by lia
  | H : ini_find _ ?k _ = Some _ |- context [load_value _ _ ?k] => unfold load_value at 1; rewrite H
  end.
  cbn [mbind result_bind]. unfold std_atoi, int_text. rewrite (proj2 (Z.ltb_ge _ _)) by lia. rewrite stoi_decimal by lia. cbn [mbind result_bind].
  rewrite (proj2 (Z.leb_gt _ _)) by lia. rewrite is_true_text. unfold unsigned. rewrite Z.mod_small by lia.
  change (drop 8 (str "backend=" ++ mb_name m)) with (mb_name m). unfold with_members. rewrite !fmap_app. reflexivity.
Qed.

Lemma backends_loaded f d name path t ms infos ms0 infos0 : Forall2 member_ok ms infos → Forall (found f) (zip_with backend_section ms infos) →
  load_sections strtof inet_pton uninit f (zip_with backend_section ms infos).*1 (with_members d (restored_settings d name path None) t ms0 infos0) =
  Ok (with_members d (restored_settings d name path None) t (ms0 ++ ms) (infos0 ++ infos)).
Proof.
  intros Hok. revert ms0 infos0. induction Hok as [| m i ms infos Hm _ IH]; intros ms0 infos0 Hf; [by rewrite !app_nil_r |].
  cbn [zip_with] in Hf. apply Forall_cons_iff in Hf as [Hf Hfs]. cbn [zip_with fmap list_fmap load_sections fst backend_section].
  rewrite (backend_loaded f d name path t m i) by done. cbn [mbind result_bind]. rewrite IH by done. by rewrite <-!app_assoc.
Qed.

Lemma bucket_loaded f d s t t' b ms infos : bucket_ok b → found f (bucket_section b) →
  createChild (nd_name (nd b)) (nd_ratePercent (nd b)) (nd_ceilPercent (nd b)) [] t = Ok (Success, t') →
  load_section strtof inet_pton uninit f (str "bucket=" ++ nd_name (nd b)) (with_members d s t ms infos) = Ok (with_members d s t' ms infos).
Proof.
  intros [Hn [_ Hr] [_ Hc]] Hf Hcr. unfold found, bucket_section in Hf. cbn [fst snd] in Hf.
  repeat match goal with H : Forall _ (_ :: _) |- _ => apply Forall_cons_iff in H; destruct H as [? H] end. cbn [fst snd] in *.
  unfold load_section. rewrite beginsWith_app. change (bool_decide (str "bucket=" ++ nd_name (nd b) = str "director") || _) with false.
  change (su_beginsWith (str "bucket=" ++ nd_name (nd b)) (str "backend=")) with false. cbn iota.
  unfold loadBucket. cbv zeta.
  repeat match goal with H : ini_find _ ?k _ = Some _ |- context [load_value _ _ ?k] => unfold load_value at 1; rewrite H end.
  cbn [mbind result_bind]. change (drop 7 (str "bucket=" ++ nd_name (nd b))) with (nd_name (nd b)). rewrite Hr, Hc. unfold dr_createBucket.
  change (cl_shaper (dr_cluster (with_members d s t ms infos))) with t. by rewrite Hcr.
Qed.

Lemma buckets_loaded f d s bs t t' ms infos : Forall bucket_ok bs → Forall (found f) (bucket_section <$> bs) → create_buckets bs t = Some t' →
  load_sections strtof inet_pton uninit f (bucket_section <$> bs).*1 (with_members d s t ms infos) = Ok (with_members d s t' ms infos).
Proof.
  intros Hok. revert t. induction Hok as [| b bs Hb _ IH]; intros t Hf Hc; [by injection Hc as -> |].
  cbn [fmap list_fmap] in Hf. apply Forall_cons_iff in Hf as [Hf Hfs]. cbn [create_buckets] in Hc.
  destruct (createChild _ _ _ _ _) as [[[] t1] |] eqn:E; try done. cbn [fmap list_fmap load_sections fst bucket_section].
  rewrite (bucket_loaded f d s t t1) by done. cbn [mbind result_bind]. by apply IH.
Qed.

Lemma edited_loaded d name path t fs :
  director_ok d → create_buckets (children (cl_shaper (dr_cluster d))) (setQueueTimeout (st_queueTimeout (dr_settings d)) (createRoot 0)) = Some t →
  setConfiguration strtof float_text inet_ntop inet_pton uninit (su_join (line_text <$> config_lines d) [10]) (newDirector name path) fs = Ok (restored d name path t, fs).
Proof.
  intros Hd Ht. unfold setConfiguration. pose proof (config_sections_ok d Hd) as Hok.
  destruct (sections_sorted d Hd) as [Hs Hp]. pose proof (config_found d Hd) as Hf.
  rewrite ini_loaded; [| done | unfold config_lines; rewrite forallb_app, (sections_ok _ Hok); vm_compute; reflexivity | exact (sections_below (config_sections d) false)].
  change (meaning [] (config_lines d) ∅) with (meaning [] (sections_lines (config_sections d)) ∅).
  rewrite sections_meaning; [| rewrite <-Hp; by apply sorted_NoDup | by eapply Forall_impl; [| exact Hok]; intros s (_ & _ & ?) | done].
  cbn [mbind result_bind]. assert (sections_file (config_sections d) ∪ ∅ = sections_file (config_sections d)) as -> by apply (map_union_empty (M := gmap bytes)).
  set (f := sections_file (config_sections d)) in *. unfold configure. unfold config_sections in Hf. apply Forall_cons_iff in Hf as [Hfd Hf].
  apply Forall_app in Hf as [Hfb Hfm]. rewrite (globals_loaded d) by done. cbn [mbind result_bind].
  change (fst <$> in_order f) with ((in_order f).*1). unfold f at 2. rewrite (sections_in_order _ (sorted_sections d)) by done. unfold sorted_sections. rewrite !fmap_app.
  change (mkDirector (restored_settings d name path None) (restored_cluster d ?r []) []) with (with_members d (restored_settings d name path None) r [] []).
  rewrite load_sections_app, (backends_loaded _ _ _ _ _ _ _ [] []) by (try apply (dk_members d Hd); done). cbn [mbind result_bind app].
  rewrite load_sections_app, (buckets_loaded _ _ _ _ _ t) by (try apply (dk_buckets d Hd); done). cbn [mbind result_bind]. reflexivity.
Qed.

(** ** The text that is written *)

Lemma split_char_step c l r n : Forall (λ x, x ≠ c) l →
  su_split_loop (S n) [c] (l ++ c :: r) = (parts ← su_split_loop n [c] r; Some (l :: parts)).
Proof.
  intros Hl. cbn [su_split_loop]. rewrite find_str_char, take_app_length by done.
  by rewrite <-drop_drop, drop_app_length.
Qed.

(** A text whose third line is empty cannot be loaded if the first two are remarks. *)
Lemma empty_line_unreadable l1 l2 r :
  line_ok (Remark true l1) = true → line_ok (Remark true l2) = true →
  ini_load (line_text (Remark true l1) ++ 10 :: line_text (Remark true l2) ++ 10 :: 10 :: r) ∅ = Raise UndefinedBehaviour.
Proof.
  intros H1 H2. destruct (line_trimmed _ H1) as [_ Hn1]. destruct (line_trimmed _ H2) as [_ Hn2].
  unfold ini_load, su_split.
  assert (Hlen : ∃ n, S (length (line_text (Remark true l1) ++ 10 :: line_text (Remark true l2) ++ 10 :: 10 :: r)) = S (S (S n)) ∧ (length r < n)%nat).
  { cbn [line_text app length]. rewrite !length_app. cbn [length]. rewrite !length_app. cbn [length].
    exists (length l1 + length l2 + length r + 3)%nat. cbn [line_text app length]. lia. }
  destruct Hlen as (n & -> & Hn). destruct (split_parts [10] r n) as (parts & Hp & _); [done | lia |].
  rewrite split_char_step by done. rewrite (split_char_step 10 (line_text (Remark true l2))) by done.
  change (10 :: r) with ([] ++ 10 :: r). rewrite split_char_step by done. rewrite Hp. cbn [mbind option_bind].
  cbn [ini_lines]. rewrite (line_loaded [] (Remark true l1)) by (done || by right). cbn [mbind result_bind].
  rewrite (line_loaded [] (Remark true l2)) by (done || by right). reflexivity.
Qed.

Lemma configuration_unreadable d name path fs :
  setConfiguration strtof float_text inet_ntop inet_pton uninit (configuration float_text inet_ntop d) (newDirector name path) fs =
  Raise UndefinedBehaviour.
Proof.
  unfold setConfiguration. rewrite configuration_lines. unfold config_remarks, lines_text. cbn [fmap list_fmap mjoin list_join].
  rewrite app_nil_r, <-!app_assoc. set (rest := mjoin _).
  pose proof (empty_line_unreadable (str " vim:syntax=dosini")
    (str " !!! DO NOT EDIT !!! THIS FILE IS GENERATED AUTOMATICALLY !!!") rest) as Hu.
  change (?a ++ [10] ++ ?b ++ [10] ++ [10] ++ rest) with (a ++ 10 :: b ++ 10 :: 10 :: rest). by rewrite Hu.
Qed.

Lemma mjoin_cons {X Y} (f : X → list Y) x l : mjoin (f <$> x :: l) = f x ++ mjoin (f <$> l).
Proof. done. Qed.

(** Without the empty lines of a text. *)
Definition drop_empty_lines (text : bytes) : bytes :=
  match su_split text [10] with Some lines => su_join (filter (λ l, l ≠ []) lines) [10] | None => text end.

(** The lines that are written, with the empty ones. *)
Definition written_lines (d : Director) : list bytes :=
  (line_text <$> config_remarks) ++ [[]] ++ mjoin ((λ s, (line_text <$> section_lines s) ++ [[]]) <$> config_sections d).

Lemma join_ended ls : su_join (ls ++ [[]]) [10] = mjoin ((λ l, l ++ [10]) <$> ls).
Proof.
  induction ls as [| l ls IH]; [done |].
  change (mjoin ((λ l, l ++ [10]) <$> l :: ls)) with ((l ++ [10]) ++ mjoin ((λ l, l ++ [10]) <$> ls)).
  rewrite <-IH. destruct ls as [| l' ls]; cbn [app su_join]; by rewrite <-!app_assoc.
Qed.

Lemma configuration_written d : configuration float_text inet_ntop d = su_join (written_lines d ++ [[]]) [10].
Proof.
  rewrite configuration_lines, join_ended. unfold written_lines. rewrite !fmap_app, !join_app.
  assert (Hl : ∀ ls, lines_text ls = mjoin ((λ l, l ++ [10]) <$> (line_text <$> ls)))
    by (intros; unfold lines_text; by rewrite <-list_fmap_compose).
  rewrite Hl. f_equal. change (mjoin ((λ l : bytes, l ++ [10]) <$> [[]])) with ([10] : bytes). f_equal.
  induction (config_sections d) as [| s ss IH]; [done |]. rewrite !mjoin_cons.
  rewrite fmap_app, join_app, IH, fmap_app, join_app, <-Hl. done.
Qed.

Lemma line_nonempty l : match l with Flag _ => False | _ => True end → line_text l ≠ [].
Proof. destruct l as [t | k v | k | hash t]; cbn; [done | | done | done]. intros _ H. apply (f_equal length) in H. rewrite length_app in H. cbn in H. lia. Qed.

Lemma written_kept d : filter (λ l, l ≠ []) (written_lines d ++ [[]]) = line_text <$> config_lines d.
Proof.
  assert (Hs : ∀ s, filter (λ l, l ≠ []) ((line_text <$> section_lines s) ++ [[]]) = line_text <$> section_lines s).
  { intros [t rows]. rewrite list.filter_app, (filter_cons_False _ []), app_nil_r by (intros Hn; by apply Hn).
    unfold section_lines. cbn [fst snd]. rewrite !fmap_cons, filter_cons_True by done. f_equal.
    induction rows as [| [k v] rows IH]; [done |]. rewrite !fmap_cons, filter_cons_True by (by apply (line_nonempty (Row k v))). by rewrite IH. }
  assert (Hr : filter (λ l, l ≠ []) (line_text <$> config_remarks) = line_text <$> config_remarks) by (by vm_compute).
  assert (He : filter (λ l : bytes, l ≠ []) [[]] = []) by done.
  unfold written_lines, config_lines. rewrite !list.filter_app, fmap_app, He, Hr, app_nil_r. f_equal. cbn [app]. unfold sections_lines.
  induction (config_sections d) as [| s ss IH]; [done |]. rewrite !mjoin_cons. by rewrite list.filter_app, Hs, fmap_app, IH.
Qed.

Lemma written_no_breaks d : director_ok d → Forall (Forall (λ x, x ≠ 10)) (written_lines d ++ [[]]).
Proof.
  intros Hd. assert (Hl : Forall (Forall (λ x, x ≠ 10)) (line_text <$> config_lines d)).
  { apply Forall_fmap, Forall_forall. intros l Hl. apply line_trimmed.
    assert (Hok : forallb line_ok (config_lines d) = true).
    { unfold config_lines. rewrite forallb_app, (sections_ok _ (config_sections_ok d Hd)). vm_compute. reflexivity. }
    by apply (proj1 (forallb_forall _ _) Hok) in Hl. }
  rewrite <-written_kept in Hl. apply Forall_forall. intros l Hin. destruct (decide (l = [])) as [-> | Hne]; [done |].
  rewrite Forall_forall in Hl. apply Hl. apply list_elem_of_In, list_elem_of_filter. split; [done |]. by apply list_elem_of_In.
Qed.

Lemma configuration_edited d : director_ok d →
  drop_empty_lines (configuration float_text inet_ntop d) = su_join (line_text <$> config_lines d) [10].
Proof.
  intros Hd. unfold drop_empty_lines, su_split. rewrite configuration_written.
  rewrite split_join_char; [by rewrite written_kept | by destruct (written_lines d) | by apply written_no_breaks | apply join_length].
Qed.

(** C15 (roundtrip). What a cluster saves it cannot load: for every cluster, loading the text of its
    configuration is undefined behaviour, at the empty line behind the remarks. When the empty lines
    are removed from the text, a new cluster loads it into what [restored] says, and nothing is
    written back, provided ([director_ok]) the texts in it -- names, protocols, addresses, and the
    host, path and script of the health check -- are not empty, not blank at an end and without line
    breaks, times are whole milliseconds (the retry delay whole seconds), numbers are in range, the text of a
    percentage is read as this percentage, and buckets and members are in the order of their names. *)
Theorem configuration_restored d name path t fs :
  let load text := setConfiguration strtof float_text inet_ntop inet_pton uninit text (newDirector name path) fs in
  load (configuration float_text inet_ntop d) = Raise UndefinedBehaviour ∧
  (director_ok d →
   create_buckets (children (cl_shaper (dr_cluster d))) (setQueueTimeout (st_queueTimeout (dr_settings d)) (createRoot 0)) = Some t →
   load (drop_empty_lines (configuration float_text inet_ntop d)) = Ok (restored d name path t, fs)).
Proof.
  cbv zeta. split; [apply configuration_unreadable |]. intros Hd Ht. rewrite configuration_edited by done. by apply edited_loaded.
Qed.
End Config.

(** ** A cluster with a bucket and two members *)

Definition ex_text (f : float) : bytes := match f with S754_finite _ _ _ => str "1" | _ => str "0" end.
Definition ex_number (s : bytes) : float * nat := (if bool_decide (s = str "1") then f32_one else f32_zero, length s).
Definition ex_name_of (family : Z) (s : bytes) : bytes := str "10.0.0.1".
Definition ex_bytes_of (family : Z) (s : bytes) : option bytes := Some [10; 0; 0; 1].
Definition ex_ip : IPAddress := mkIPAddress AF_INET (str "10.0.0.1") ([10; 0; 0; 1] ++ replicate 12 0).
Definition ex_two (first second : bytes) : Director :=
  let d := on_settings (st_set_hcFcgiScriptFilename (str "/check.php")) (newDirector (str "app") (str "/app.conf")) in
  let d := on_cluster (λ c, cl_setShaper (mkNode (nd (createRoot 0)) [mkNode (newNodeData (str "vip") 0 0 f32_zero f32_one) []]) (cl_set_enqueueOnUnavailable false c)) d in
  dr_addMember second ex_ip 81 0 false true (str "http") 2000000 (dr_addMember first ex_ip 80 10 true false (str "http") 1000000 d).
Definition ex_load (text : bytes) : result (Director * Files) :=
  setConfiguration ex_number ex_text ex_name_of ex_bytes_of ex_ip text (newDirector (str "app") (str "/app.conf")) ∅.
Definition ex_tree : Node nat := mkNode (set_queueTimeout 30000000 (nd (createRoot 0))) [mkNode (newNodeData (str "vip") 0 0 f32_zero f32_one) []].

Lemma ex_ok : director_ok ex_number ex_text ex_name_of (ex_two (str "a") (str "b")).
Proof.
  split; try (cbn; done || (repeat split; done) || lia).
  - constructor; [| constructor; [| constructor]]; split; (split; done) || done || (cbn; lia).
  - repeat constructor.
  - repeat constructor.
  - repeat constructor.
Qed.

Lemma configuration_restored_witness :
  ex_load (configuration ex_text ex_name_of (ex_two (str "a") (str "b"))) = Raise UndefinedBehaviour ∧
  ex_load (drop_empty_lines (configuration ex_text ex_name_of (ex_two (str "a") (str "b")))) =
  Ok (restored ex_name_of ex_bytes_of ex_ip (ex_two (str "a") (str "b")) (str "app") (str "/app.conf") ex_tree, ∅).
Proof.
  unfold ex_load. pose proof (configuration_restored ex_number ex_text ex_name_of ex_bytes_of ex_ip (ex_two (str "a") (str "b"))
    (str "app") (str "/app.conf") ex_tree ∅) as [Hu Hr].
  split; [exact Hu | apply Hr; [exact ex_ok | vm_compute; reflexivity]].
Defined.

(** ** Where a configuration is not restored *)

(** Whether to queue is lost: its value becomes that of [X-Sendfile]. *)
Lemma enqueue_not_restored :
  match ex_load (su_join (line_text <$> config_lines ex_text ex_name_of (ex_two (str "a") (str "b"))) [10]) with
  | Ok (d, _) => (cl_enqueueOnUnavailable (dr_cluster d), st_allowXSendfile (dr_settings d)) | Raise _ => (false, true) end = (true, false).
Proof. vm_compute. reflexivity. Qed.
(** The members come back in the order of their names. *)
Lemma members_reordered :
  match ex_load (su_join (line_text <$> config_lines ex_text ex_name_of (ex_two (str "b") (str "a"))) [10]) with
  | Ok (d, _) => mb_name <$> cl_members (dr_cluster d) | Raise _ => [] end = [str "a"; str "b"].
Proof. vm_compute. reflexivity. Qed.
(** Buckets have their own timeout, not the one of the cluster. *)
Lemma bucket_timeout_not_set : nd_queueTimeout ∘ nd <$> children ex_tree = [50000000].
Proof. reflexivity. Qed.
(** A configuration that is loaded again adds its members again. *)
Lemma loaded_twice :
  match (x ← ini_load (su_join (line_text <$> config_remarks ++ section_lines (str "director", director_rows (ex_two (str "a") (str "b"))) ++
           sections_lines (zip_with (backend_section ex_name_of) (cl_members (dr_cluster (ex_two (str "a") (str "b")))) (dr_info (ex_two (str "a") (str "b"))))) [10]) ∅;
         y ← configure ex_number ex_text ex_name_of ex_bytes_of ex_ip x (newDirector [] []) ∅;
         configure ex_number ex_text ex_name_of ex_bytes_of ex_ip x y.1 y.2) with
  | Ok (d, _) => mb_name <$> cl_members (dr_cluster d) | Raise _ => [] end = [str "a"; str "b"; str "a"; str "b"].
Proof. vm_compute. reflexivity. Qed.
