(* ===== verification/HttpClusterJson.v ===== *)
(** * The JSON of a cluster

    The calls with which a cluster, its members and its buckets are shown write the text of
    a tree; every object is closed where it belongs. *)
From stdpp Require Import gmap.
From Stdlib Require Import SpecFloat.
From S2P Require Import Prelude HeaderFieldList Http1Parser Http1Generator NetAddress TokenShaper HttpMessage HttpCluster HttpClusterShaper StringUtil IniFile JsonWriter HttpClusterConfig.

Create HintDb json discriminated.

Section Json.
Context (fixed_text : float → bytes) (inet_ntop : Z → bytes → bytes).

Definition number_tree (n : Z) : Json := JText (decimal n).
Definition string_tree (s : bytes) : Json := JText (quoted s).
Definition bool_tree (b : bool) : Json := JText (bool_text b).
Definition counter_tree (c : Counter) : Json :=
  JObj [(str "current", number_tree (c_current c)); (str "max", number_tree (c_max c)); (str "total", number_tree (c_total c))].
Fixpoint node_tree (t : Node nat) : Json :=
  let d := nd t in
  JObj [(str "name", string_tree (nd_name d)); (str "rate", JText (fixed_text (nd_ratePercent d))); (str "ceil", JText (fixed_text (nd_ceilPercent d)));
    (str "token-rate", number_tree (nd_rate d)); (str "token-ceil", number_tree (nd_ceil d));
    (str "stats", JObj [(str "load", counter_tree (nd_actualRate d)); (str "queued", counter_tree (nd_queued d)); (str "dropped", number_tree (nd_dropped d))]);
    (str "children", JArr (node_tree <$> children t))].
Definition monitor_tree (h : HttpHealthMonitor) (i : MemberInfo) : Json :=
  JObj [(str "state", string_tree (health_text (hm_state h))); (str "interval", number_tree (milliseconds (mi_hcInterval i)))].
Definition member_tree (m : Member) (i : MemberInfo) : Json :=
  JObj [(str "name", string_tree (mb_name m)); (str "capacity", number_tree (mb_capacity m)); (str "terminate-protection", bool_tree (mi_terminateProtection i));
    (str "enabled", bool_tree (mb_enabled m)); (str "protocol", string_tree (mi_protocol i)); (str "hostname", string_tree (ip_str inet_ntop (mi_ip i)));
    (str "port", JText (int_text (mi_port i))); (str "stats", JObj [(str "load", counter_tree (mb_load m))]); (str "health", monitor_tree (mb_health m) i)].
Definition cluster_fields (d : Director) (mut : bool) : list (bytes * Json) :=
  let s := dr_settings d in let c := dr_cluster d in
  [(str "mutable", bool_tree mut); (str "enabled", bool_tree (cl_enabled c)); (str "queue-limit", number_tree (cl_queueLimit c));
   (str "queue-timeout", number_tree (milliseconds (st_queueTimeout s))); (str "retry-after", number_tree (seconds (cl_retryAfter c)));
   (str "max-retry-count", number_tree (cl_maxRetryCount c)); (str "sticky-offline-mode", bool_tree (cl_stickyOfflineMode c));
   (str "allow-x-sendfile", bool_tree (st_allowXSendfile s)); (str "enqueue-on-unavailable", bool_tree (cl_enqueueOnUnavailable c));
   (str "connect-timeout", number_tree (milliseconds (st_connectTimeout s))); (str "read-timeout", number_tree (milliseconds (st_readTimeout s)));
   (str "write-timeout", number_tree (milliseconds (st_writeTimeout s))); (str "health-check-host-header", string_tree (st_hcHostHeader s));
   (str "health-check-request-path", string_tree (st_hcRequestPath s)); (str "health-check-fcgi-script-name", string_tree (st_hcFcgiScriptFilename s));
   (str "scheduler", string_tree (scheduler_name (cl_scheduler c)));
   (str "stats", JObj [(str "load", counter_tree newCounter); (str "queued", counter_tree (cl_queued c)); (str "dropped", number_tree (cl_dropped c))]);
   (str "shaper", node_tree (cl_shaper c)); (str "members", JArr (zip_with member_tree (cl_members c) (dr_info d)))].

Lemma field_written k t : writes_field (field_text k t) k (JText t).
Proof. apply value_field, text_written. Qed.
Lemma string_field k s : writes_field (field_string k s) k (string_tree s).
Proof. apply value_field, text_written. Qed.
Lemma bool_field k b : writes_field (field_bool k b) k (bool_tree b).
Proof. apply value_field, text_written. Qed.
Lemma number_field k n : writes_field (field_number k n) k (number_tree n).
Proof. apply value_field, text_written. Qed.
Ltac fields :=
  repeat lazymatch goal with
  | |- writes_fields (jw_then _ _) _ => apply fields_cons
  | |- writes_fields jw_skip _ => apply fields_nil
  | |- writes_field (field_text _ _) _ _ => apply field_written
  | |- writes_field (field_string _ _) _ _ => apply string_field
  | |- writes_field (field_bool _ _) _ _ => apply bool_field
  | |- writes_field (field_number _ _) _ _ => apply number_field
  | |- writes_field (jw_then (jw_name _) _) _ _ => apply value_field
  | |- writes_field (jw_then (beginObject _) _) _ _ => apply object_field; [done |]
  | |- writes_field (jw_then (beginArray _) _) _ _ => apply array_field
  | |- writes_value _ _ => solve [auto with json]
  end.

Lemma counter_written c : writes_value (counter_json c) (counter_tree c).
Proof. apply object_written. fields. Qed.
#[local] Hint Resolve counter_written : json.
Lemma elements_zip {A B} (f : A → B → JsonOp) (g : A → B → Json) l k : (∀ a b, writes_value (f a b) (g a b)) → writes_elements (jw_all (zip_with f l k)) (zip_with g l k).
Proof. intros H. revert k. induction l as [| a l IH]; intros [| b k]; try apply elements_nil. cbn. by apply elements_cons. Qed.

Lemma node_written t : writes_value (node_json fixed_text t) (node_tree t).
Proof.
  revert t. fix IH 1. intros [d cs]. apply object_written. cbn [nd children].
  assert (writes_elements (jw_all (node_json fixed_text <$> cs)) (node_tree <$> cs)) as Hcs.
  { induction cs as [| c cs IHcs]; [apply elements_nil |]. cbn. apply elements_cons; [apply IH | apply IHcs]. }
  clear IH. fields. exact Hcs.
Qed.
Lemma monitor_written h i : writes_value (monitor_json h i) (monitor_tree h i).
Proof. apply object_written. fields. Qed.
#[local] Hint Resolve node_written monitor_written : json.
Lemma member_written m i : writes_value (member_json inet_ntop m i) (member_tree m i).
Proof. apply object_written. fields. Qed.

(** A cluster is shown as a text of JSON with its settings, its buckets and its members. *)
Theorem cluster_shown d mut out : st_mutable (dr_settings d) = Some mut →
  cluster_json inet_ntop fixed_text d (newWriter out) = Ok (mkWriter (out ++ render 0 (JObj (cluster_fields d mut))) []).
Proof.
  intros Hm. unfold cluster_json. rewrite Hm. apply json_document. unfold cluster_fields. fields. apply elements_zip. intros m i. apply member_written.
Qed.
End Json.
