(* ===== verification/HttpClusterApi.v ===== *)
(** * Administration of clusters over HTTP

    [src/xzero/http/client/HttpClusterApiHandler.cc], and the clusters of the proxy module,
    [src/x0d/modules/proxy.cc], that it works on. What is called on the response is recorded
    in order. A pointer to a cluster is its name. *)
From stdpp Require Import gmap.
From Stdlib Require Import SpecFloat.
From S2P Require Import Prelude HeaderFieldList Http1Parser Http1Generator NetAddress TokenShaper HttpMessage HttpCluster HttpClusterShaper StringUtil Uri IniFile JsonWriter HttpClusterConfig.

Inductive ResponseCall := RcStatus (code : Z) | RcHeader (name value : bytes) | RcContentLength (n : Z) | RcWrite (body : bytes) | RcCompleted.
Record ApiRequest := mkApiRequest { rq_method : HttpMethod; rq_path : bytes; rq_query : bytes; rq_content : bytes; rq_localPort : Z }.
Record ApiState := mkApi { as_clusters : gmap bytes Director; as_files : Files; as_errorCount : nat; as_response : list ResponseCall }.

Definition A (X : Type) : Type := ApiState → result (X * ApiState).
#[export] Instance A_ret : MRet A := λ X x st, Ok (x, st).
#[export] Instance A_bind : MBind A := λ X Y f m st, match m st with Ok (x, st) => f x st | Raise e => Raise e end.
Definition api_lift {X} (r : result X) : A X := λ st, match r with Ok x => Ok (x, st) | Raise e => Raise e end.
Definition api_respond (c : ResponseCall) : A unit := λ st, Ok ((), mkApi (as_clusters st) (as_files st) (as_errorCount st) (as_response st ++ [c])).
Definition api_error : A unit := λ st, Ok ((), mkApi (as_clusters st) (as_files st) (S (as_errorCount st)) (as_response st)).
Definition api_errors : A nat := λ st, Ok (as_errorCount st, st).
Definition put_cluster (name : bytes) (d : Director) : A unit := λ st, Ok ((), mkApi (<[name := d]> (as_clusters st)) (as_files st) (as_errorCount st) (as_response st)).
Definition put_files (f : Files) : A unit := λ st, Ok ((), mkApi (as_clusters st) f (as_errorCount st) (as_response st)).
Definition api_files : A Files := λ st, Ok (as_files st, st).
Definition the_cluster (name : bytes) : A Director := λ st,
  match as_clusters st !! name with Some d => Ok (d, st) | None => Raise UndefinedBehaviour end.
Definition on_director (name : bytes) (f : Director → Director) : A unit := d ← the_cluster name; put_cluster name (f d).

Definition joinPaths (base append : bytes) : bytes :=
  match base, append with
  | [], _ => append
  | _, [] => base
  | _, c :: rest =>
      if List.last base 0 =? 47 then if c =? 47 then base ++ rest else base ++ append
      else if c =? 47 then base ++ append else base ++ [47] ++ append
  end.

Definition api_generate (status : Z) : A unit := _ ← api_respond (RcStatus status); api_respond RcCompleted.
Definition api_json (body : bytes) : A unit :=
  _ ← api_respond (RcStatus 200);
  _ ← api_respond (RcHeader (str "Cache-Control") (str "no-cache"));
  _ ← api_respond (RcHeader (str "Content-Type") (str "application/json"));
  _ ← api_respond (RcHeader (str "Access-Control-Allow-Origin") (str "*"));
  _ ← api_respond (RcContentLength (Z.of_nat (length body)));
  _ ← api_respond (RcWrite body);
  api_respond RcCompleted.
Definition api_written (p : JsonOp) (tail : bytes) : A bytes := w ← api_lift (p (newWriter [])); mret (jw_output w ++ tail).

(** What is between the slashes behind the first character; an empty last part is left out. *)
Fixpoint path_parts (part s : bytes) : list bytes :=
  match s with
  | [] => match part with [] => [] | _ => [part] end
  | c :: s => if c =? 47 then part :: path_parts [] s else path_parts (part ++ [c]) s
  end.
Definition path_tokens (s : bytes) : list bytes := path_parts [] (drop 1 s).

Section Api.
Context (strtof : bytes → float * nat) (float_text : float → bytes) (fixed_text : float → bytes).
Context (inet_ntop : Z → bytes → bytes) (inet_pton : Z → bytes → option bytes) (uninit : IPAddress).
(** The directory of the files, and the order in which a hash map has its entries. *)
Context (clusterdir : bytes) (hash_order : gmap bytes Director → list (bytes * Director)).

Definition api_save (name : bytes) : A unit :=
  d ← the_cluster name; fs ← api_files; put_files (saveConfiguration float_text inet_ntop d fs).
Definition api_configure (name text : bytes) : A unit :=
  d ← the_cluster name; fs ← api_files;
  '(d, fs) ← api_lift (setConfiguration strtof float_text inet_ntop inet_pton uninit text d fs);
  _ ← put_cluster name d; put_files fs.

(** ** The clusters of the proxy module *)

Definition findCluster (name : bytes) : A (option Director) := λ st, Ok (as_clusters st !! name, st).
Definition pm_createCluster (name path : bytes) : A unit :=
  c ← findCluster name;
  match c with
  | Some _ => mret ()
  | None =>
      _ ← put_cluster name (newDirector name path);
      fs ← api_files;
      match fs !! path with Some text => api_configure name text | None => api_save name end
  end.
Definition pm_destroyCluster (name : bytes) : A unit := λ st,
  Ok ((), mkApi (delete name (as_clusters st)) (as_files st) (as_errorCount st) (as_response st)).

(** ** Parameters *)

Section Handler.
Context (rq : ApiRequest) (params : gmap bytes bytes) (tokens : list bytes).

(** [None]: false, with the result as it was. *)
Definition loadParam {X} (key : bytes) (convert : bytes → A (option X)) : A (option X) :=
  match params !! key with None => _ ← api_error; mret None | Some v => convert v end.
Definition tryLoad {X} (key : bytes) (convert : bytes → A (option X)) (old : X) : A (option X) :=
  match params !! key with None => mret (Some old) | Some _ => loadParam key convert end.

Definition as_bool (v : bytes) : A (option bool) :=
  if bool_decide (v = str "true") || bool_decide (v = str "1") then mret (Some true)
  else if bool_decide (v = str "false") || bool_decide (v = str "0") then mret (Some false)
  else _ ← api_error; mret None.
Definition as_number (v : bytes) : A (option Z) := n ← api_lift (std_stoi v); mret (Some n).
Definition as_size (v : bytes) : A (option Z) := n ← api_lift (std_stoll v); mret (Some (u64 n)).
Definition as_duration (v : bytes) : A (option Z) := n ← api_lift (std_stoll v); mret (Some (fromMilliseconds n)).
Definition as_string (v : bytes) : A (option bytes) := mret (Some v).
Definition as_ip (v : bytes) : A (option IPAddress) := mret (Some (ip_of_text inet_pton uninit v)).
(** The number has to be all of the value. *)
Definition as_float (v : bytes) : A (option float) := mret (if bool_decide ((strtof v).2 = length v) then Some (strtof v).1 else None).

(** ** Clusters *)

Definition index : A unit := λ st,
  (body ← api_written (beginObject [] ;; (jw_all ((λ c, jw_name c.1 ;; cluster_json inet_ntop fixed_text c.2) <$> hash_order (as_clusters st))) ;; endObject) [10];
   api_json body) st.
Definition processIndex : A unit := if bool_decide (rq_method rq = GET) then index else api_generate 405.

(** A parameter that cannot be read ends the update with status 400. *)
Definition or_reject {X} (m : A (option X)) (k : X → A Z) : A Z := r ← m; match r with Some x => k x | None => mret 400 end.

Definition doUpdateCluster (name : bytes) (status : Z) : A Z :=
  d ← the_cluster name;
  let s := dr_settings d in let c := dr_cluster d in
  match st_mutable s with
  | None => api_lift (Raise UndefinedBehaviour)
  | Some false => mret 403
  | Some true =>
      or_reject (tryLoad (str "enabled") as_bool (cl_enabled c)) (λ enabled,
      or_reject (tryLoad (str "queue-limit") as_size (cl_queueLimit c)) (λ queueLimit,
      or_reject (tryLoad (str "queue-timeout") as_duration (st_queueTimeout s)) (λ queueTimeout,
      or_reject (tryLoad (str "retry-after") as_duration (cl_retryAfter c)) (λ retryAfter,
      or_reject (tryLoad (str "connect-timeout") as_duration (st_connectTimeout s)) (λ connectTimeout,
      or_reject (tryLoad (str "read-timeout") as_duration (st_readTimeout s)) (λ readTimeout,
      or_reject (tryLoad (str "write-timeout") as_duration (st_writeTimeout s)) (λ writeTimeout,
      or_reject (tryLoad (str "max-retry-count") as_size (cl_maxRetryCount c)) (λ maxRetryCount,
      or_reject (tryLoad (str "sticky-offline-mode") as_bool (cl_stickyOfflineMode c)) (λ stickyOfflineMode,
      or_reject (tryLoad (str "allow-x-sendfile") as_bool (st_allowXSendfile s)) (λ allowXSendfile,
      or_reject (tryLoad (str "enqueue-on-unavailable") as_bool (cl_enqueueOnUnavailable c)) (λ enqueueOnUnavailable,
      or_reject (tryLoad (str "health-check-host-header") as_string (st_hcHostHeader s)) (λ hcHostHeader,
      or_reject (tryLoad (str "health-check-request-path") as_string (st_hcRequestPath s)) (λ hcRequestPath,
      or_reject (tryLoad (str "scheduler") as_string (scheduler_name (cl_scheduler c))) (λ scheduler,
      let d := on_cluster (λ c,
        cl_set_enabled enabled (cl_set_queueLimit queueLimit (cl_set_retryAfter retryAfter (cl_set_maxRetryCount maxRetryCount
          (cl_set_stickyOfflineMode stickyOfflineMode (cl_set_enqueueOnUnavailable enqueueOnUnavailable c)))))) d in
      let d := on_settings (λ s,
        st_set_queueTimeout queueTimeout (st_set_connectTimeout connectTimeout (st_set_readTimeout readTimeout
          (st_set_writeTimeout writeTimeout (st_set_allowXSendfile allowXSendfile s))))) d in
      let d := setHealthCheckRequestPath hcRequestPath (setHealthCheckHostHeader hcHostHeader d) in
      d ← api_lift (dr_setScheduler scheduler d);
      _ ← put_cluster name d;
      _ ← api_save name;
      mret status))))))))))))))
  end.

Definition api_createCluster (name : bytes) : A unit :=
  let path := joinPaths clusterdir (name ++ str ".cluster.conf") in
  _ ← pm_createCluster name path;
  fs ← api_files;
  _ ← match fs !! path with Some text => api_configure name text | None => mret () end;
  location ← match formatv (str "http://$0:$1/") (if rq_localPort rq =? 80 then [name] else [name; int_text (rq_localPort rq)]) with
             | Some l => mret l
             | None => api_lift (Raise Blocked)
             end;
  status ← doUpdateCluster name 201;
  _ ← api_respond (RcStatus status);
  _ ← api_respond (RcHeader (str "Location") location);
  api_respond RcCompleted.

Definition showCluster (name : bytes) : A unit :=
  d ← the_cluster name; body ← api_written (cluster_json inet_ntop fixed_text d) []; api_json body.
Definition updateCluster (name : bytes) : A unit := status ← doUpdateCluster name 200; api_generate status.
Definition switchCluster (b : bool) (name : bytes) : A unit :=
  _ ← on_director name (on_cluster (cl_set_enabled b)); _ ← api_save name; api_generate 204.
Definition disableCluster : bytes → A unit := switchCluster false.
Definition enableCluster : bytes → A unit := switchCluster true.
Definition api_destroyCluster (name : bytes) : A unit := _ ← pm_destroyCluster name; api_generate 204.

Definition processCluster (name : bytes) : A unit :=
  if bool_decide (rq_method rq = PUT) then api_createCluster name else
  c ← findCluster name;
  match c with
  | None => api_generate 404
  | Some _ =>
      match rq_method rq with
      | GET => showCluster name
      | POST => updateCluster name
      | LOCK => disableCluster name
      | UNLOCK => enableCluster name
      | DELETE => api_destroyCluster name
      | _ => api_generate 405
      end
  end.

(** ** Buckets *)

(** Both numbers have to be there. *)
Definition with_rates (k : float → float → A unit) : A unit :=
  rate ← loadParam (str "rate") as_float;
  match rate with
  | None => api_generate 400
  | Some rate =>
      ceil ← loadParam (str "ceil") as_float;
      match ceil with None => api_generate 400 | Some ceil => k rate ceil end
  end.
Definition bucket_changed (cluster : bytes) (r : Director → result (TokenShaperError * Director)) : A unit :=
  d ← the_cluster cluster;
  '(ec, d) ← api_lift (r d);
  _ ← put_cluster cluster d;
  match ec with Success => api_generate 204 | _ => api_generate 400 end.
Definition bucket_setRate (path : list nat) (rate ceil : float) (d : Director) : result (TokenShaperError * Director) :=
  '(ec, t) ← setRateCeil rate ceil path (cl_shaper (dr_cluster d)); Ok (ec, on_cluster (cl_setShaper t) d).
Definition createBucket (cluster name : bytes) : A unit :=
  with_rates (λ rate ceil,
    bucket_changed cluster (λ d, match findBucket name d with None => dr_createBucket name rate ceil d | Some b => bucket_setRate b rate ceil d end)).
Definition updateBucket (cluster name : bytes) : A unit :=
  with_rates (λ rate ceil,
    d ← the_cluster cluster;
    match findBucket name d with
    | None => api_generate 404
    | Some b => bucket_changed cluster (bucket_setRate b rate ceil)
    end).
Definition showBucket (cluster name : bytes) : A unit :=
  d ← the_cluster cluster;
  match findBucket name d with
  | None => api_generate 404
  | Some b =>
      match lookup_node b (cl_shaper (dr_cluster d)) with
      | Some t => body ← api_written (node_json fixed_text t) []; api_json body
      | None => api_lift (Raise UndefinedBehaviour)
      end
  end.
Definition destroyBucket (cluster name : bytes) : A unit :=
  d ← the_cluster cluster;
  match findBucket name d with
  | None => api_generate 404
  | Some b =>
      _ ← put_cluster cluster (on_cluster (λ c, cl_setShaper (destroyNode b (cl_shaper c)) c) d);
      _ ← api_save cluster; api_generate 204
  end.
Definition processBucket (cluster name : bytes) : A unit :=
  c ← findCluster cluster;
  match c with
  | None => api_generate 404
  | Some _ =>
      match rq_method rq with
      | PUT => createBucket cluster name
      | GET => showBucket cluster name
      | POST => updateBucket cluster name
      | DELETE => destroyBucket cluster name
      | _ => api_generate 405
      end
  end.

(** ** Backends *)

(** [IPAddress()]. *)
Definition no_address : IPAddress := mkIPAddress 0 [] (replicate 16 0).
Definition createBackend (cluster name : bytes) : A unit :=
  ip ← loadParam (str "host") as_ip;
  port ← loadParam (str "port") as_number;
  capacity ← tryLoad (str "capacity") as_size 0;
  enabled ← tryLoad (str "enabled") as_bool true;
  protocol ← tryLoad (str "protocol") as_string (str "http");
  errors ← api_errors;
  if (0 <? errors)%nat then api_generate 400
  else
    d ← the_cluster cluster;
    _ ← match findMember name (dr_cluster d) with
        | None =>
            _ ← put_cluster cluster (dr_addMember name (default no_address ip) (default 0 port) (default 0 capacity) (default true enabled) false (default (str "http") protocol) 10000000 d);
            api_save cluster
        | Some _ => mret ()
        end;
    api_generate 204.

(** The operations of [HttpCluster] on a director. *)
Definition on_C {X} (m : C (Node nat) X) (d : Director) : result Director := '(_, c) ← m (dr_cluster d); Ok (on_cluster (λ _, c) d).

(** An immutable cluster is answered, and then updated like any other. *)
Definition updateBackend (cluster : bytes) (i : nat) : A unit :=
  d ← the_cluster cluster;
  match st_mutable (dr_settings d), cl_members (dr_cluster d) !! i, dr_info d !! i with
  | Some mut, Some m, Some info =>
      _ ← (if mut then mret () else api_generate 403);
      enabled ← tryLoad (str "enabled") as_bool (mb_enabled m);
      capacity ← tryLoad (str "capacity") as_size (mb_capacity m);
      protect ← tryLoad (str "terminate-protection") as_bool (mi_terminateProtection info);
      interval ← tryLoad (str "health-check-interval") as_duration (mi_hcInterval info);
      errors ← api_errors;
      if (0 <? errors)%nat then api_generate 400
      else
        let capacity := default (mb_capacity m) capacity in
        d ← (if mb_capacity m =? capacity then mret d
             else api_lift (on_C (_ ← on_shaper (λ q, sh_resize (u64 (sh_size q - mb_capacity m + capacity)) q); setCapacity i capacity) d));
        let d := mkDirector (dr_settings d) (dr_cluster d)
                   (alter (λ x, mi_set_hcInterval (default (mi_hcInterval info) interval) (mi_set_terminateProtection (default (mi_terminateProtection info) protect) x)) i (dr_info d)) in
        d ← api_lift (on_C (setEnabled i (default (mb_enabled m) enabled)) d);
        _ ← put_cluster cluster d;
        _ ← api_save cluster;
        api_generate 204
  | _, _, _ => api_lift (Raise UndefinedBehaviour)
  end.
Definition showBackend (cluster : bytes) (i : nat) : A unit :=
  d ← the_cluster cluster;
  match cl_members (dr_cluster d) !! i, dr_info d !! i with
  | Some m, Some info => body ← api_written (member_json inet_ntop m info) [10]; api_json body
  | _, _ => api_lift (Raise UndefinedBehaviour)
  end.
Definition switchBackend (b : bool) (cluster : bytes) (i : nat) : A unit :=
  d ← the_cluster cluster;
  d ← api_lift (on_C (setEnabled i b) d);
  _ ← put_cluster cluster d;
  _ ← api_respond (RcStatus 204);
  _ ← api_respond (RcHeader (str "Cache-Control") (str "no-cache"));
  _ ← api_respond (RcHeader (str "Access-Control-Allow-Origin") (str "*"));
  api_respond RcCompleted.
Definition enableBackend : bytes → nat → A unit := switchBackend true.
Definition disableBackend : bytes → nat → A unit := switchBackend false.
(** Nothing is done, and nothing is answered. *)
Definition destroyBackend (cluster : bytes) (i : nat) : A unit := mret ().
Definition processBackend (cluster name : bytes) : A unit :=
  c ← findCluster cluster;
  match c with
  | None => api_generate 404
  | Some d =>
      if bool_decide (rq_method rq = PUT) then createBackend cluster name else
      match findMember name (dr_cluster d) with
      | None => api_generate 404
      | Some i =>
          match rq_method rq with
          | GET => showBackend cluster i
          | POST => updateBackend cluster i
          | UNLOCK => enableBackend cluster i
          | LOCK => disableBackend cluster i
          | DELETE => destroyBackend cluster i
          | _ => api_generate 404
          end
      end
  end.

Definition createBackendOrBucket (cluster kind : bytes) : A unit :=
  if negb (bool_decide (rq_method rq = PUT)) then api_generate 405 else
  c ← findCluster cluster;
  match c with
  | None => api_generate 404
  | Some _ =>
      name ← loadParam (str "name") as_string;
      match name with
      | None | Some [] => api_generate 400
      | Some name =>
          if bool_decide (kind = str "buckets") then createBucket cluster name
          else if bool_decide (kind = str "backends") then createBackend cluster name
          else api_generate 400
      end
  end.

Definition api_route : A unit :=
  match tokens with
  | [cluster; kind; name] =>
      if bool_decide (kind = str "buckets") then processBucket cluster name
      else if bool_decide (kind = str "backends") then processBackend cluster name
      else mret ()
  | [cluster; kind] => createBackendOrBucket cluster kind
  | [cluster] => processCluster cluster
  | [] => processIndex
  | _ => api_generate 400
  end.
End Handler.

(** The parameters of the query replace those of the content. *)
Definition api_params (rq : ApiRequest) : result (gmap bytes bytes) :=
  a ← parseQueryString (rq_content rq); b ← parseQueryString (rq_query rq);
  Ok (foldl (λ m p, <[p.1 := p.2]> m) ∅ (a ++ b)).
Definition api_path (prefix path : bytes) : bytes := match drop (length prefix) path with [] => str "/" | s => s end.

Definition api_run (prefix : bytes) (rq : ApiRequest) : A bool :=
  if negb (su_beginsWith (rq_path rq) prefix) then mret false else
  params ← api_lift (api_params rq);
  _ ← api_route rq params (path_tokens (api_path prefix (rq_path rq)));
  mret true.
End Api.
