(* ===== verification/HttpClusterApiSafety.v ===== *)
(** * What the administration answers

    Every request is answered as [api_answers] says, mostly once, by a status, then header
    fields and content, then the end; and what is refused has changed nothing. *)
From stdpp Require Import gmap.
From Stdlib Require Import SpecFloat.
From S2P Require Import Prelude HeaderFieldList Http1Parser Http1Generator NetAddress TokenShaper HttpMessage HttpCluster HttpClusterShaper StringUtil Uri IniFile JsonWriter HttpClusterConfig HttpClusterApi.

(** ** Answers *)

Definition is_part (c : ResponseCall) : Prop := match c with RcHeader _ _ | RcContentLength _ | RcWrite _ => True | _ => False end.
(** The calls of whole responses with these statuses. *)
Inductive Answers : list Z → list ResponseCall → Prop :=
  | answers_nil : Answers [] []
  | answers_cons code parts codes l : Forall is_part parts → Answers codes l → Answers (code :: codes) (RcStatus code :: parts ++ RcCompleted :: l).

Lemma answers_app c1 l1 c2 l2 : Answers c1 l1 → Answers c2 l2 → Answers (c1 ++ c2) (l1 ++ l2).
Proof. induction 1 as [| code parts codes l Hp _ IH]; intros H2; [done |]. cbn. rewrite <-app_assoc. cbn. constructor; auto. Qed.

Definition same_data (st st' : ApiState) : Prop := as_clusters st' = as_clusters st ∧ as_files st' = as_files st.
Definition refused (codes : list Z) : Prop := Forall (λ c, 400 ≤ c) codes.

(** ** Programs

    [handled n m]: [m] answers [n] times and changes nothing when all of it is refused;
    [api_answered_times n m]: [m] answers [n] times; [quiet m]: it does not answer; [api_reading m]: it does
    not change the data either. *)
Definition api_answered_times {X} (n : nat) (m : A X) : Prop := ∀ st x st', m st = Ok (x, st') →
  ∃ codes l, as_response st' = as_response st ++ l ∧ Answers codes l ∧ length codes = n.
Definition handled {X} (n : nat) (m : A X) : Prop := ∀ st x st', m st = Ok (x, st') →
  ∃ codes l, as_response st' = as_response st ++ l ∧ Answers codes l ∧ length codes = n ∧ (refused codes → same_data st st').
Definition quiet {X} (m : A X) : Prop := ∀ st x st', m st = Ok (x, st') → as_response st' = as_response st.
Definition api_reading {X} (m : A X) : Prop := ∀ st x st', m st = Ok (x, st') → as_response st' = as_response st ∧ same_data st st'.

Lemma same_refl st : same_data st st. Proof. done. Qed.
Lemma same_trans a b c : same_data a b → same_data b c → same_data a c.
Proof. intros [H1 H2] [H3 H4]. split; congruence. Qed.

Lemma api_bind_ok {X Y} (m : A X) (k : X → A Y) st y st'' : (m ≫= k) st = Ok (y, st'') → ∃ x st', m st = Ok (x, st') ∧ k x st' = Ok (y, st'').
Proof. unfold mbind, A_bind. destruct (m st) as [[x st'] |] eqn:E; [| done]. eauto. Qed.

Lemma reading_quiet {X} (m : A X) : api_reading m → quiet m.
Proof. intros H st x st' Hm. by apply H in Hm as [? _]. Qed.
Lemma handled_answered {X} n (m : A X) : handled n m → api_answered_times n m.
Proof. intros H st x st' Hm. apply H in Hm as (codes & l & ? & ? & ? & _). eauto. Qed.
Lemma quiet_bind {X Y} (m : A X) (k : X → A Y) : quiet m → (∀ x, quiet (k x)) → quiet (m ≫= k).
Proof. intros Hm Hk st y st'' (x & st' & H1 & H2)%api_bind_ok. apply Hm in H1. apply Hk in H2. congruence. Qed.
Lemma reading_bind {X Y} (m : A X) (k : X → A Y) : api_reading m → (∀ x, api_reading (k x)) → api_reading (m ≫= k).
Proof. intros Hm Hk st y st'' (x & st' & H1 & H2)%api_bind_ok. apply Hm in H1 as [??]. apply Hk in H2 as [??]. split; [congruence | by eapply same_trans]. Qed.
Lemma handled_bind {X Y} n (m : A X) (k : X → A Y) : api_reading m → (∀ x, handled n (k x)) → handled n (m ≫= k).
Proof.
  intros Hm Hk st y st'' (x & st' & H1 & H2)%api_bind_ok. apply Hm in H1 as [Hr Hs]. apply Hk in H2 as (codes & l & H3 & H4 & H5 & H6).
  exists codes, l. rewrite H3, Hr. split_and!; try done. intros H. by eapply same_trans; [| apply H6].
Qed.
Lemma answered_bind {X Y} n (m : A X) (k : X → A Y) : quiet m → (∀ x, api_answered_times n (k x)) → api_answered_times n (m ≫= k).
Proof. intros Hm Hk st y st'' (x & st' & H1 & H2)%api_bind_ok. apply Hm in H1 as Hr. apply Hk in H2 as (codes & l & H3 & H4 & H5). exists codes, l. by rewrite H3, Hr. Qed.
Lemma handled_after {X Y} n k (m : A X) (f : X → A Y) : handled n m → (∀ x, handled k (f x)) → handled (n + k) (m ≫= f).
Proof.
  intros Hm Hf st y st'' (x & st' & H1 & H2)%api_bind_ok. apply Hm in H1 as (c1 & l1 & R1 & A1 & N1 & S1). apply Hf in H2 as (c2 & l2 & R2 & A2 & N2 & S2).
  exists (c1 ++ c2), (l1 ++ l2). rewrite R2, R1, app_assoc, length_app, N1, N2. split_and!; [done | by apply answers_app | done |].
  intros [H3 H4]%Forall_app. by eapply same_trans; [apply S1 | apply S2].
Qed.

Lemma quiet_ret {X} (x : X) : quiet (mret x). Proof. by intros st y st' [= -> ->]. Qed.
Lemma reading_ret {X} (x : X) : api_reading (mret x). Proof. by intros st y st' [= -> ->]. Qed.
Lemma reading_lift {X} (r : result X) : api_reading (api_lift r). Proof. intros st y st'. unfold api_lift. by destruct r; intros [= -> ->]. Qed.
Lemma reading_error : api_reading api_error. Proof. by intros st y st' [= <- <-]. Qed.
Lemma reading_errors : api_reading api_errors. Proof. by intros st y st' [= <- <-]. Qed.
Lemma reading_files : api_reading api_files. Proof. by intros st y st' [= <- <-]. Qed.
Lemma reading_cluster name : api_reading (the_cluster name). Proof. intros st y st'. unfold the_cluster. destruct (_ !! _); [| done]. by intros [= <- <-]. Qed.
Lemma reading_find name : api_reading (findCluster name). Proof. by intros st y st' [= <- <-]. Qed.
Lemma quiet_put name d : quiet (put_cluster name d). Proof. by intros st y st' [= <- <-]. Qed.
Lemma quiet_files f : quiet (put_files f). Proof. by intros st y st' [= <- <-]. Qed.
Lemma quiet_destroy name : quiet (pm_destroyCluster name). Proof. by intros st y st' [= <- <-]. Qed.
Lemma handled_raise {X} n e : handled n (api_lift (Raise e) : A X). Proof. by intros st x st' ?. Qed.
Create HintDb api discriminated.
#[export] Hint Resolve quiet_ret reading_ret reading_lift reading_error reading_errors reading_files reading_cluster reading_find quiet_put quiet_files quiet_destroy
  reading_quiet handled_raise : api.

(** [quiet] and [reading] programs are made of such. *)
Ltac reads := repeat first [apply reading_bind; [| intros ?] | case_match | progress auto with api].
Ltac quiets := repeat first [apply quiet_bind; [| intros ?] | case_match | progress auto with api | apply reading_quiet; solve [reads]].

Definition appended (l : list ResponseCall) (st : ApiState) : ApiState := mkApi (as_clusters st) (as_files st) (as_errorCount st) (as_response st ++ l).
Lemma generate_calls code st : api_generate code st = Ok ((), appended [RcStatus code; RcCompleted] st).
Proof. unfold api_generate, api_respond, mbind, A_bind, appended. cbn [as_clusters as_files as_errorCount as_response]. by rewrite <-app_assoc. Qed.
Lemma answers_plain code parts : Forall is_part parts → Answers [code] (RcStatus code :: parts ++ [RcCompleted]).
Proof. intros H. by apply answers_cons; [| constructor]. Qed.

(** One answer, which is not a refusal. *)
Definition positive {X} (m : A X) : Prop := ∀ st x st', m st = Ok (x, st') →
  ∃ code parts, as_response st' = as_response st ++ RcStatus code :: parts ++ [RcCompleted] ∧ Forall is_part parts ∧ code < 400.
Lemma positive_handled {X} (m : A X) : positive m → handled 1 m.
Proof.
  intros Hm st x st' H. apply Hm in H as (code & parts & Hr & Hp & Hc). exists [code], (RcStatus code :: parts ++ [RcCompleted]).
  split_and!; [done | by apply answers_plain | done |]. intros H. apply Forall_inv in H. cbn in H. lia.
Qed.
Lemma positive_bind {X Y} (m : A X) (k : X → A Y) : quiet m → (∀ x, positive (k x)) → positive (m ≫= k).
Proof. intros Hm Hk st y st'' (x & st' & H1 & H2)%api_bind_ok. apply Hm in H1 as Hr. apply Hk in H2 as (code & parts & H3 & ?). exists code, parts. by rewrite H3, Hr. Qed.
Lemma positive_final code parts (m : A unit) : Forall is_part parts → code < 400 → (∀ st, m st = Ok ((), appended (RcStatus code :: parts ++ [RcCompleted]) st)) → positive m.
Proof. intros Hp Hc Hm st x st' H. rewrite Hm in H. injection H as _ <-. by exists code, parts. Qed.
Lemma positive_generate code : code < 400 → positive (api_generate code).
Proof. intros Hc. apply (positive_final code []); [done.. |]. intros st. apply generate_calls. Qed.
Lemma generate_handled code : handled 1 (api_generate code).
Proof.
  intros st x st' H. rewrite generate_calls in H. injection H as _ <-. exists [code], [RcStatus code; RcCompleted].
  split_and!; [done | by apply (answers_plain code []) | done | done].
Qed.
Lemma answered_generate code : api_answered_times 1 (api_generate code).
Proof. apply handled_answered, generate_handled. Qed.
Lemma json_positive body : positive (api_json body).
Proof.
  apply (positive_final 200 [RcHeader (str "Cache-Control") (str "no-cache"); RcHeader (str "Content-Type") (str "application/json");
    RcHeader (str "Access-Control-Allow-Origin") (str "*"); RcContentLength (Z.of_nat (length body)); RcWrite body]); [by repeat constructor | done |].
  intros st. unfold api_json, api_respond, mbind, A_bind, appended. cbn [as_clusters as_files as_errorCount as_response]. by rewrite <-!app_assoc.
Qed.
Lemma json_handled body : handled 1 (api_json body).
Proof. apply positive_handled, json_positive. Qed.
#[export] Hint Resolve generate_handled json_handled : api.

(** ** The parts of the handler *)

Section Api.
Context (strtof : bytes → float * nat) (float_text : float → bytes) (fixed_text : float → bytes).
Context (inet_ntop : Z → bytes → bytes) (inet_pton : Z → bytes → option bytes) (uninit : IPAddress).
Context (clusterdir : bytes) (hash_order : gmap bytes Director → list (bytes * Director)).

Lemma reading_load {X} params key (c : bytes → A (option X)) : (∀ v, api_reading (c v)) → api_reading (loadParam params key c).
Proof. intros Hc. unfold loadParam. reads. Qed.
Lemma reading_try {X} params key (c : bytes → A (option X)) old : (∀ v, api_reading (c v)) → api_reading (tryLoad params key c old).
Proof. intros Hc. unfold tryLoad. case_match; [by apply reading_load | auto with api]. Qed.
Lemma reading_bool v : api_reading (as_bool v). Proof. unfold as_bool. reads. Qed.
Lemma reading_int v : api_reading (as_number v). Proof. unfold as_number. reads. Qed.
Lemma reading_size v : api_reading (as_size v). Proof. unfold as_size. reads. Qed.
Lemma reading_duration v : api_reading (as_duration v). Proof. unfold as_duration. reads. Qed.
Lemma reading_string v : api_reading (as_string v). Proof. unfold as_string. reads. Qed.
Lemma reading_ip v : api_reading (as_ip inet_pton uninit v). Proof. unfold as_ip. reads. Qed.
Lemma reading_float v : api_reading (as_float strtof v). Proof. unfold as_float. reads. Qed.
Lemma reading_written p tail : api_reading (api_written p tail). Proof. unfold api_written. reads. Qed.
Lemma quiet_save name : quiet (api_save float_text inet_ntop name). Proof. unfold api_save. quiets. Qed.
Lemma quiet_configure name text : quiet (api_configure strtof float_text inet_ntop inet_pton uninit name text). Proof. unfold api_configure. quiets. Qed.
Lemma quiet_create name path : quiet (pm_createCluster strtof float_text inet_ntop inet_pton uninit name path).
Proof. unfold pm_createCluster. quiets. Qed.
Lemma quiet_on_director name f : quiet (on_director name f). Proof. unfold on_director. quiets. Qed.
#[local] Hint Resolve reading_load reading_try reading_bool reading_int reading_size reading_duration reading_string reading_ip reading_float reading_written
  quiet_save quiet_configure quiet_create quiet_on_director : api.
Ltac handles := repeat first [progress auto with api | apply handled_bind; [solve [reads] | intros ?] | case_match].

Ltac concludes := repeat first [apply positive_bind; [solve [quiets] | intros ?] | apply positive_generate; lia | apply json_positive | case_match].

(** Either the update is made and has its status, or it has status 400 or 403 and nothing is changed. *)
Definition updates (status : Z) (m : A Z) : Prop := ∀ st code st', m st = Ok (code, st') →
  as_response st' = as_response st ∧ (code = status ∨ 400 ≤ code ∧ same_data st st').
Lemma updates_reject {X} status (m : A (option X)) k : api_reading m → (∀ x, updates status (k x)) → updates status (or_reject m k).
Proof.
  intros Hm Hk st code st'' (x & st' & H1 & H2)%api_bind_ok. apply Hm in H1 as [Hr Hs]. destruct x as [x |].
  - apply Hk in H2 as [H3 [H4 | [H4 H5]]]; (split; [congruence |]); [by left | right]. split; [done | by eapply same_trans].
  - injection H2 as <- <-. split; [done | right]. split; [lia | done].
Qed.
Lemma updates_bind {X} status (m : A X) k : api_reading m → (∀ x, updates status (k x)) → updates status (m ≫= k).
Proof.
  intros Hm Hk st code st'' (x & st' & H1 & H2)%api_bind_ok. apply Hm in H1 as [Hr Hs].
  apply Hk in H2 as [H3 [H4 | [H4 H5]]]; (split; [congruence |]); [by left | right]. split; [done | by eapply same_trans].
Qed.
Lemma updates_quiet {X} status (m : A X) : quiet m → updates status (_ ← m; mret status).
Proof. intros Hm st code st'' (x & st' & H1 & H2)%api_bind_ok. apply Hm in H1. injection H2 as <- <-. split; [done | by left]. Qed.
Lemma doUpdate_updates params name status : updates status (doUpdateCluster float_text inet_ntop params name status).
Proof.
  apply updates_bind; [apply reading_cluster |]. intros d. cbv zeta. destruct (st_mutable _) as [[|] |].
  - do 14 (apply updates_reject; [auto with api | intros ?]). apply updates_bind; [apply reading_lift | intros ?].
    intros st code st' H. assert (quiet (_ ← put_cluster name x13; _ ← api_save float_text inet_ntop name; mret status)) as Hq by quiets.
    split; [by eapply Hq |]. left. apply api_bind_ok in H as (? & ? & _ & H). apply api_bind_ok in H as (? & ? & _ & H). by injection H as <- _.
  - intros st code st' [= <- <-]. split; [done |]. right. split; [lia | done].
  - by intros st code st' ?.
Qed.
Lemma handled_update m status : updates status m → status < 400 → handled 1 (code ← m; api_generate code).
Proof.
  intros Hm Hs st x st'' (code & st' & H1 & H2)%api_bind_ok. apply Hm in H1 as [Hr H1]. rewrite generate_calls in H2. injection H2 as _ <-.
  exists [code], [RcStatus code; RcCompleted]. cbn. rewrite Hr. split_and!; [done | by apply (answers_plain code []) | done |].
  intros H. apply Forall_inv in H. cbn in H. destruct H1 as [-> | [_ [H3 H4]]]; [lia | done].
Qed.

Lemma handled_eta {X} n (f : ApiState → A X) : (∀ st, handled n (f st)) → handled n (λ st, f st st).
Proof. intros H st x st' Hs. exact (H st st x st' Hs). Qed.

Lemma index_handled : handled 1 (index fixed_text inet_ntop hash_order).
Proof. unfold index. apply (handled_eta 1 (λ st, body ← _; api_json body)). intros st. handles. Qed.
Lemma show_handled name : handled 1 (showCluster fixed_text inet_ntop name).
Proof. unfold showCluster. handles. Qed.
Lemma switch_positive b name : positive (switchCluster float_text inet_ntop b name).
Proof. unfold switchCluster. concludes. Qed.
Lemma destroy_positive name : positive (api_destroyCluster name).
Proof. unfold api_destroyCluster. concludes. Qed.
Lemma update_handled params name : handled 1 (updateCluster float_text inet_ntop params name).
Proof. unfold updateCluster. apply (handled_update _ 200); [apply doUpdate_updates | lia]. Qed.

(** A bucket that refuses its new numbers is as it was. *)
Definition refusing (r : Director → result (TokenShaperError * Director)) : Prop := ∀ d ec d', r d = Ok (ec, d') → ec = Success ∨ d' = d.
Lemma director_id d : on_cluster (cl_setShaper (cl_shaper (dr_cluster d))) d = d.
Proof. by destruct d as [s [] i]. Qed.
Lemma refusing_node (f : Node nat → result (TokenShaperError * Node nat)) :
  (∀ t ec t', f t = Ok (ec, t') → ec = Success ∨ t' = t) → refusing (λ d, '(ec, t) ← f (cl_shaper (dr_cluster d)); Ok (ec, on_cluster (cl_setShaper t) d)).
Proof.
  intros Hf d ec d' H. destruct (f _) as [[e t] |] eqn:E; [| done]. cbn in H. injection H as <- <-.
  apply Hf in E as [? | ->]; [by left | right]. apply director_id.
Qed.
Lemma create_refusing name rate ceil : refusing (dr_createBucket name rate ceil).
Proof.
  apply (refusing_node (createChild name rate ceil [])). intros t ec t' H. unfold createChild in H. cbn [lookup_node] in H.
  repeat (case_match; simplify_eq; try by right). destruct (scale (nd_rate _) _) as [a |]; [destruct (scale (nd_ceil _) _) as [b |] |]; cbn in H; try done. injection H as <- _. by left.
Qed.
Lemma rate_refusing b rate ceil : refusing (bucket_setRate b rate ceil).
Proof.
  apply (refusing_node (setRateCeil rate ceil b)). intros t ec t' H. unfold setRateCeil, with_parent in H.
  repeat (case_match; simplify_eq; try by right). destruct (update _ _ _); cbn in H; [| done]. injection H as <- _. by left.
Qed.
Lemma bucket_handled cluster r : refusing r → handled 1 (bucket_changed cluster r).
Proof.
  intros Hr st x st' H. unfold bucket_changed in H. apply api_bind_ok in H as (d & st1 & H1 & H). unfold the_cluster in H1.
  destruct (as_clusters st !! cluster) as [d' |] eqn:Ed; [| done]. injection H1 as <- <-.
  apply api_bind_ok in H as ([ec d2] & st2 & H2 & H). unfold api_lift in H2. destruct (r d') as [[ec' d2'] |] eqn:E; [| done]. injection H2 as -> -> <-.
  apply Hr in E. apply api_bind_ok in H as (y & st3 & H3 & H). injection H3 as _ <-.
  assert (∃ code, x = () ∧ st' = appended [RcStatus code; RcCompleted] (mkApi (<[cluster := d2]> (as_clusters st)) (as_files st) (as_errorCount st) (as_response st)) ∧ (ec = Success → code < 400)) as (code & -> & -> & Hc).
  { destruct x. destruct ec; rewrite generate_calls in H; injection H as <-; eexists; (split; [done |]); (split; [done |]); try done; lia. }
  exists [code], [RcStatus code; RcCompleted]. split_and!; [done | by apply (answers_plain code []) | done |].
  intros Hf. apply Forall_inv in Hf. cbn in Hf. destruct E as [E | ->]; [apply Hc in E; lia |]. split; [cbn; by apply insert_id | done].
Qed.
Lemma rates_handled params k : (∀ r c, handled 1 (k r c)) → handled 1 (with_rates strtof params k).
Proof. intros Hk. unfold with_rates. handles. Qed.
Lemma createBucket_handled params cluster name : handled 1 (createBucket strtof params cluster name).
Proof. apply rates_handled. intros r c. apply bucket_handled. intros d ec d'. case_match; [apply rate_refusing | apply create_refusing]. Qed.
Lemma updateBucket_handled params cluster name : handled 1 (updateBucket strtof params cluster name).
Proof. apply rates_handled. intros r c. apply handled_bind; [reads | intros d]. case_match; [by apply bucket_handled, rate_refusing | auto with api]. Qed.
Lemma showBucket_handled cluster name : handled 1 (showBucket fixed_text cluster name).
Proof. unfold showBucket. handles. Qed.
Lemma destroyBucket_handled cluster name : handled 1 (destroyBucket float_text inet_ntop cluster name).
Proof. unfold destroyBucket. apply handled_bind; [reads |]. intros d. case_match; [| auto with api]. apply positive_handled. concludes. Qed.

Lemma createBackend_handled params cluster name : handled 1 (createBackend float_text inet_ntop inet_pton uninit params cluster name).
Proof. unfold createBackend. do 6 (apply handled_bind; [solve [reads] | intros ?]). case_match; [auto with api |]. apply positive_handled. concludes. Qed.
(** How often a backend that is there is answered for. *)
Definition backend_answers (m : HttpMethod) (d : Director) : nat :=
  match m with DELETE => 0 | POST => if bool_decide (st_mutable (dr_settings d) = Some false) then 2 else 1 | _ => 1 end.
Definition handled_at {X} (st : ApiState) (n : nat) (m : A X) : Prop := ∀ x st', m st = Ok (x, st') →
  ∃ codes l, as_response st' = as_response st ++ l ∧ Answers codes l ∧ length codes = n ∧ (refused codes → same_data st st').
Lemma handled_here {X} st n (m : A X) : handled n m → handled_at st n m. Proof. intros H x st'. apply H. Qed.
Lemma at_cluster {X} st cluster n (k : Director → A X) : (∀ d, as_clusters st !! cluster = Some d → handled (n d) (k d)) →
  ∀ d, as_clusters st !! cluster = Some d → handled_at st (n d) (d ← the_cluster cluster; k d).
Proof.
  intros Hk d Hd x st' (d' & st1 & H1 & H)%api_bind_ok. unfold the_cluster in H1. rewrite Hd in H1. injection H1 as <- <-. by eapply Hk.
Qed.
Lemma updateBackend_handled params cluster i st d :
  as_clusters st !! cluster = Some d → handled_at st (backend_answers POST d) (updateBackend float_text inet_ntop params cluster i).
Proof.
  revert d. unfold updateBackend. apply (at_cluster st cluster (backend_answers POST)). intros d Hd. unfold backend_answers.
  destruct (st_mutable _) as [mut |]; [| by apply handled_raise].
  destruct (cl_members _ !! i) as [m |]; [| by apply handled_raise]. destruct (dr_info d !! i) as [info |]; [| by apply handled_raise].
  destruct mut; [rewrite bool_decide_eq_false_2 by done; apply handled_bind; [apply reading_ret |] |
    rewrite bool_decide_eq_true_2 by done; apply (handled_after 1 1); [apply generate_handled |]]; intros _;
    do 5 (apply handled_bind; [solve [reads] | intros ?]); (case_match; [auto with api |]); apply positive_handled; concludes.
Qed.
Lemma showBackend_handled cluster i : handled 1 (showBackend inet_ntop cluster i).
Proof.
  unfold showBackend. apply handled_bind; [apply reading_cluster | intros d]. destruct (cl_members _ !! i) as [m |]; [| apply handled_raise].
  destruct (dr_info d !! i) as [info |]; [| apply handled_raise]. apply handled_bind; [apply reading_written | intros body]. apply json_handled.
Qed.
Lemma switchBackend_handled b cluster i : handled 1 (switchBackend b cluster i).
Proof.
  apply positive_handled. unfold switchBackend. do 3 (apply positive_bind; [solve [quiets] | intros ?]).
  apply (positive_final 204 [RcHeader (str "Cache-Control") (str "no-cache"); RcHeader (str "Access-Control-Allow-Origin") (str "*")]); [by repeat constructor | done |].
  intros st. unfold api_respond, mbind, A_bind, appended. cbn [as_clusters as_files as_errorCount as_response]. by rewrite <-!app_assoc.
Qed.

Lemma backendOrBucket_handled rq params cluster kind :
  handled 1 (createBackendOrBucket strtof float_text inet_ntop inet_pton uninit rq params cluster kind).
Proof.
  unfold createBackendOrBucket. case_match; [auto with api |]. apply handled_bind; [reads | intros c]. case_match; [| auto with api].
  apply handled_bind; [reads | intros name]. destruct name as [[| x name] |]; [auto with api | | auto with api].
  case_match; [apply createBucket_handled |]. case_match; [apply createBackend_handled | auto with api].
Qed.
Lemma bucket_route rq params cluster name : handled 1 (processBucket strtof float_text fixed_text inet_ntop rq params cluster name).
Proof.
  unfold processBucket. apply handled_bind; [reads | intros c]. case_match; [| auto with api].
  case_match; auto using createBucket_handled, showBucket_handled, updateBucket_handled, destroyBucket_handled with api.
Qed.

(** How often a request is answered: not for the deletion of a backend, nor for an unknown
    kind of thing; twice for the update of a backend of an immutable cluster. *)
Definition api_answers (m : HttpMethod) (tokens : list bytes) (clusters : gmap bytes Director) : nat :=
  match tokens with
  | [cluster; kind; name] =>
      if bool_decide (kind = str "buckets") then 1
      else if bool_decide (kind = str "backends") then
        match clusters !! cluster with
        | Some d => if bool_decide (m = PUT) then 1 else match findMember name (dr_cluster d) with Some _ => backend_answers m d | None => 1 end
        | None => 1
        end
      else 0
  | _ => 1
  end.
Lemma backend_route rq params cluster name st :
  handled_at st (api_answers (rq_method rq) [cluster; str "backends"; name] (as_clusters st))
    (processBackend float_text inet_ntop inet_pton uninit rq params cluster name).
Proof.
  cbn [api_answers]. rewrite bool_decide_eq_false_2, bool_decide_eq_true_2 by done. intros x st' (c & st1 & H1 & H)%api_bind_ok. injection H1 as <- <-.
  destruct (as_clusters st !! cluster) as [d |] eqn:Ed; [| by apply generate_handled in H].
  case_bool_decide; [by apply createBackend_handled in H |]. destruct (findMember name (dr_cluster d)) as [i |]; [| by apply generate_handled in H].
  destruct (rq_method rq); try by apply generate_handled in H.
  - by apply showBackend_handled in H.
  - by eapply updateBackend_handled in H.
  - injection H as _ <-. exists [], []. rewrite app_nil_r. split_and!; [done | constructor | done | done].
  - by apply switchBackend_handled in H.
  - by apply switchBackend_handled in H.
Qed.

Lemma quiet_update params name status : quiet (doUpdateCluster float_text inet_ntop params name status).
Proof. intros st x st' H. by apply doUpdate_updates in H as [? _]. Qed.
Lemma create_answered rq params name :
  api_answered_times 1 (api_createCluster strtof float_text inet_ntop inet_pton uninit clusterdir rq params name).
Proof.
  unfold api_createCluster. cbv zeta. do 4 (apply answered_bind; [first [solve [auto with api] | solve [quiets]] | intros ?]).
  apply answered_bind; [apply quiet_update | intros status]. intros st y st' H.
  exists [status], [RcStatus status; RcHeader (str "Location") x2; RcCompleted]. unfold api_respond, mbind, A_bind in H. injection H as _ <-. cbn [as_response].
  split_and!; [by rewrite <-!app_assoc | by apply (answers_plain status [RcHeader _ _]); repeat constructor | done].
Qed.

Lemma cluster_route rq params name st :
  if bool_decide (rq_method rq = PUT) then api_answered_times 1 (processCluster strtof float_text fixed_text inet_ntop inet_pton uninit clusterdir rq params name)
  else handled_at st 1 (processCluster strtof float_text fixed_text inet_ntop inet_pton uninit clusterdir rq params name).
Proof.
  unfold processCluster. case_bool_decide; [apply create_answered |]. apply handled_here, handled_bind; [apply reading_find | intros c].
  destruct c as [c |]; [| apply generate_handled].
  destruct (rq_method rq); try apply generate_handled; [apply show_handled | apply update_handled | apply positive_handled ..];
    [apply destroy_positive | apply switch_positive | apply switch_positive].
Qed.

End Api.

(** ** Runs

    A cluster with a member, one bucket of half of the tokens, and what the system's functions
    are taken to be. *)
Definition ex_strtof (s : bytes) : float * nat := (binary_normalize 24 128 (default 0 (std_unsigned s)) 0 false, length s).
Definition ex_float_text (f : float) : bytes := str "1".
Definition ex_pton (family : Z) (s : bytes) : option bytes := Some [127; 0; 0; 1].
Definition ex_ntop (family : Z) (s : bytes) : bytes := str "127.0.0.1".
Definition ex_address : IPAddress := mkIPAddress AF_INET (str "127.0.0.1") ([127; 0; 0; 1] ++ replicate 12 0).
Definition ex_director (mut : bool) : Director :=
  on_settings (st_set_mutable (Some mut)) (dr_addMember (str "b1") ex_address 8080 10 true true (str "http") 1000000 (newDirector (str "app") (str "/var/app.cluster.conf"))).
Definition ex_state (mut : bool) : ApiState := mkApi {[ str "app" := ex_director mut ]} ∅ 0 [].
Definition ex_run : ApiRequest → ApiState → result (bool * ApiState) :=
  api_run ex_strtof ex_float_text ex_float_text ex_ntop ex_pton no_address (str "/var") map_to_list (str "/api").
Definition ex_post (path content : bytes) : ApiRequest := mkApiRequest POST path [] content 80.


Definition calls_of (r : result (bool * ApiState)) : option (list ResponseCall) := match r with Ok (_, st) => Some (as_response st) | Raise _ => None end.
Definition cluster_of (name : bytes) (r : result (bool * ApiState)) : option Director := match r with Ok (_, st) => as_clusters st !! name | Raise _ => None end.

Example bad_value_refused : calls_of (ex_run (ex_post (str "/api/app") (str "queue-limit=7&enabled=maybe")) (ex_state true)) = Some [RcStatus 400; RcCompleted].
Proof. vm_compute. reflexivity. Qed.

(** ** Where the administration does not do what it means to *)

(** A backend of an immutable cluster is refused, and then updated and answered again. *)
Lemma immutable_updated :
  calls_of (ex_run (ex_post (str "/api/app/backends/b1") (str "enabled=false")) (ex_state false)) = Some [RcStatus 403; RcCompleted; RcStatus 204; RcCompleted] ∧
  (mb_enabled <$> (d ← cluster_of (str "app") (ex_run (ex_post (str "/api/app/backends/b1") (str "enabled=false")) (ex_state false)); cl_members (dr_cluster d) !! 0%nat)) = Some false.
Proof. vm_compute. done. Qed.
(** The deletion of a backend has no effect and no answer. *)
Lemma delete_unanswered : ex_run (mkApiRequest DELETE (str "/api/app/backends/b1") [] [] 80) (ex_state true) = Ok (true, ex_state true).
Proof. vm_compute. reflexivity. Qed.
(** [LOCK] disables a cluster, where the table of requests says that it enables it. *)
Lemma lock_disables : cl_enabled ∘ dr_cluster <$> cluster_of (str "app") (ex_run (mkApiRequest LOCK (str "/api/app") [] [] 80) (ex_state true)) = Some false.
Proof. vm_compute. reflexivity. Qed.
(** A change of capacity is counted twice, and for a member that is not online. *)
Lemma capacity_twice : nd_rate ∘ nd ∘ cl_shaper ∘ dr_cluster <$> cluster_of (str "app") (ex_run (ex_post (str "/api/app/backends/b1") (str "capacity=25")) (ex_state true)) = Some 30.
Proof. vm_compute. reflexivity. Qed.
(** The time after which to retry is read in milliseconds, and written to the file in seconds. *)
Lemma retry_after_milliseconds : seconds ∘ cl_retryAfter ∘ dr_cluster <$> cluster_of (str "app") (ex_run (ex_post (str "/api/app") (str "retry-after=30")) (ex_state true)) = Some 0.
Proof. vm_compute. reflexivity. Qed.
(** The timeout of the queue does not reach the buckets. *)
Lemma queue_timeout_kept : nd_queueTimeout ∘ nd ∘ cl_shaper ∘ dr_cluster <$> cluster_of (str "app") (ex_run (ex_post (str "/api/app") (str "queue-timeout=5")) (ex_state true)) = Some 50000000.
Proof. vm_compute. reflexivity. Qed.
(** The file of a cluster that is made is loaded again at once, and has empty lines. *)
Lemma created_unreadable : ex_run (mkApiRequest PUT (str "/api/new") [] [] 80) (mkApi ∅ ∅ 0 []) = Raise UndefinedBehaviour.
Proof. vm_compute. reflexivity. Qed.
(** A number that is none ends the request with an exception instead of status 400. *)
Lemma bad_number_raises : ex_run (ex_post (str "/api/app") (str "queue-limit=x")) (ex_state true) = Raise StdInvalidArgument.
Proof. vm_compute. reflexivity. Qed.
(** Before a configuration is loaded, whether a cluster may be changed is read without having a value. *)
Lemma mutable_unset : ex_run (mkApiRequest GET (str "/api/app") [] [] 80) (mkApi {[ str "app" := newDirector (str "app") [] ]} ∅ 0 []) = Raise UndefinedBehaviour.
Proof. vm_compute. reflexivity. Qed.
