(* ===== verification/Http1Connection.v ===== *)
(** * The HTTP/1 connection

    [src/xzero/http/http1/Connection.cc] and [Channel.cc]: the connection is the
    transport of its channel. It feeds the parser with what it reads, the
    channel with the parser's events, the generator with what the channel sends,
    and decides what happens when a response is complete: the connection is
    kept for the next request, upgraded, or closed.

    The socket is the sequence of events [conn_event]: bytes read, an end of
    file, a flush of some of the pending bytes, a failure, a posted task. Bytes
    wait in the writer between [g1_written], what the generator wrote, and
    [hc_flushed], how much of it left. *)
From stdpp Require Import relations.
From S2P Require Import Prelude HeaderFieldList InputBuffer Http1Parser Http1Fragments Http1Generator Http2 Base64 HttpMessage HttpChannel HttpChannelSafety.

Section connection.
Context {F : Type} `{FilterImpl F}.

(** [onComplete_]: a callback of the channel, [onResponseComplete], or the
    callback of an intermediate response, which asks for more input first. *)
Inductive Completer := CUser (k : bool → Prog F) | CResponse | CContinue (k : option (bool → Prog F)).

(** The members of [http1::Channel] and of [Connection] beyond the channel's;
    the interest in reading and writing, the number of posted [parseFragment]s,
    and whether the endpoint was closed or handed to another protocol. *)
Record Http1Conn := mkHttp1Conn {
  hc_persistent : bool;
  hc_connectionOptions : list bytes;
  hc_connectionHeaders : HeaderFieldList;
  hc_parser : Http1Parser;
  hc_buffer : InputBuffer;
  hc_inputOffset : nat;
  hc_generator : Http1Generator;
  hc_flushed : nat;
  hc_onComplete : option Completer;
  hc_requestCount : Z;
  hc_wantFill : bool;
  hc_wantFlush : bool;
  hc_posted : nat;
  hc_closed : bool;
  hc_upgraded : bool;
}.

Definition hc_setPersistent (x : bool) (c : Http1Conn) : Http1Conn :=
  mkHttp1Conn x (hc_connectionOptions c) (hc_connectionHeaders c) (hc_parser c) (hc_buffer c) (hc_inputOffset c)
    (hc_generator c) (hc_flushed c) (hc_onComplete c) (hc_requestCount c) (hc_wantFill c) (hc_wantFlush c) (hc_posted c)
    (hc_closed c) (hc_upgraded c).
Definition hc_setOptions (x : list bytes) (h : HeaderFieldList) (c : Http1Conn) : Http1Conn :=
  mkHttp1Conn (hc_persistent c) x h (hc_parser c) (hc_buffer c) (hc_inputOffset c)
    (hc_generator c) (hc_flushed c) (hc_onComplete c) (hc_requestCount c) (hc_wantFill c) (hc_wantFlush c) (hc_posted c)
    (hc_closed c) (hc_upgraded c).
Definition hc_setParser (x : Http1Parser) (c : Http1Conn) : Http1Conn :=
  mkHttp1Conn (hc_persistent c) (hc_connectionOptions c) (hc_connectionHeaders c) x (hc_buffer c) (hc_inputOffset c)
    (hc_generator c) (hc_flushed c) (hc_onComplete c) (hc_requestCount c) (hc_wantFill c) (hc_wantFlush c) (hc_posted c)
    (hc_closed c) (hc_upgraded c).
Definition hc_setInput (x : InputBuffer) (off : nat) (c : Http1Conn) : Http1Conn :=
  mkHttp1Conn (hc_persistent c) (hc_connectionOptions c) (hc_connectionHeaders c) (hc_parser c) x off
    (hc_generator c) (hc_flushed c) (hc_onComplete c) (hc_requestCount c) (hc_wantFill c) (hc_wantFlush c) (hc_posted c)
    (hc_closed c) (hc_upgraded c).
Definition hc_setGenerator (x : Http1Generator) (c : Http1Conn) : Http1Conn :=
  mkHttp1Conn (hc_persistent c) (hc_connectionOptions c) (hc_connectionHeaders c) (hc_parser c) (hc_buffer c)
    (hc_inputOffset c) x (hc_flushed c) (hc_onComplete c) (hc_requestCount c) (hc_wantFill c) (hc_wantFlush c) (hc_posted c)
    (hc_closed c) (hc_upgraded c).
Definition hc_setFlushed (x : nat) (c : Http1Conn) : Http1Conn :=
  mkHttp1Conn (hc_persistent c) (hc_connectionOptions c) (hc_connectionHeaders c) (hc_parser c) (hc_buffer c)
    (hc_inputOffset c) (hc_generator c) x (hc_onComplete c) (hc_requestCount c) (hc_wantFill c) (hc_wantFlush c) (hc_posted c)
    (hc_closed c) (hc_upgraded c).
Definition hc_setCompleter (x : option Completer) (c : Http1Conn) : Http1Conn :=
  mkHttp1Conn (hc_persistent c) (hc_connectionOptions c) (hc_connectionHeaders c) (hc_parser c) (hc_buffer c)
    (hc_inputOffset c) (hc_generator c) (hc_flushed c) x (hc_requestCount c) (hc_wantFill c) (hc_wantFlush c) (hc_posted c)
    (hc_closed c) (hc_upgraded c).
Definition hc_setRequestCount (x : Z) (c : Http1Conn) : Http1Conn :=
  mkHttp1Conn (hc_persistent c) (hc_connectionOptions c) (hc_connectionHeaders c) (hc_parser c) (hc_buffer c)
    (hc_inputOffset c) (hc_generator c) (hc_flushed c) (hc_onComplete c) x (hc_wantFill c) (hc_wantFlush c) (hc_posted c)
    (hc_closed c) (hc_upgraded c).
Definition hc_setInterest (fill flush : bool) (c : Http1Conn) : Http1Conn :=
  mkHttp1Conn (hc_persistent c) (hc_connectionOptions c) (hc_connectionHeaders c) (hc_parser c) (hc_buffer c)
    (hc_inputOffset c) (hc_generator c) (hc_flushed c) (hc_onComplete c) (hc_requestCount c) fill flush (hc_posted c)
    (hc_closed c) (hc_upgraded c).
Definition hc_setPosted (x : nat) (c : Http1Conn) : Http1Conn :=
  mkHttp1Conn (hc_persistent c) (hc_connectionOptions c) (hc_connectionHeaders c) (hc_parser c) (hc_buffer c)
    (hc_inputOffset c) (hc_generator c) (hc_flushed c) (hc_onComplete c) (hc_requestCount c) (hc_wantFill c) (hc_wantFlush c)
    x (hc_closed c) (hc_upgraded c).
Definition hc_setEnd (closed upgraded : bool) (c : Http1Conn) : Http1Conn :=
  mkHttp1Conn (hc_persistent c) (hc_connectionOptions c) (hc_connectionHeaders c) (hc_parser c) (hc_buffer c)
    (hc_inputOffset c) (hc_generator c) (hc_flushed c) (hc_onComplete c) (hc_requestCount c) (hc_wantFill c) (hc_wantFlush c)
    (hc_posted c) closed upgraded.

Definition hc_input (c : Http1Conn) : bytes := ib_data (hc_buffer c).

Definition newHttp1Conn (inputBufferSize : Z) : Http1Conn :=
  mkHttp1Conn false [] [] (newHttp1Parser REQUEST) (newInputBuffer inputBufferSize) 0 newHttp1Generator 0 None 0 false false 0 false false.

(** The limits of the connection: requests on it, seconds between them. *)
Context (requestMax maxKeepAlive : Z).

Definition conn_gets {A} (f : Http1Conn → A) : M F Http1Conn A := λ w, (Ok (f (w_transport w)), w).
Definition conn_modify (f : Http1Conn → Http1Conn) : M F Http1Conn unit := λ w,
  (Ok (), mkWorld (w_channel w) (f (w_transport w)) (w_log w)).

Definition wantFill : M F Http1Conn unit := conn_modify (λ c, hc_setInterest true (hc_wantFlush c) c).
Definition wantFlush : M F Http1Conn unit := conn_modify (λ c, hc_setInterest (hc_wantFill c) true c).
Definition closeEndPoint : M F Http1Conn unit := conn_modify (λ c, hc_setEnd true (hc_upgraded c) c).

Definition writer_empty (c : Http1Conn) : bool := (length (g1_written (hc_generator c)) =? hc_flushed c)%nat.

(** ** Completion callbacks *)

Definition setCompleter (cb : option Completer) : M F Http1Conn unit :=
  old ← conn_gets hc_onComplete;
  match cb, old with
  | Some _, Some _ => throw IllegalStateError
  | _, _ => conn_modify (hc_setCompleter cb)
  end.

Definition setCompleter_status (cb : option (bool → Prog F)) (status : Z) : M F Http1Conn unit :=
  if negb (status =? 100) then setCompleter (CUser <$> cb) else setCompleter (Some (CContinue cb)).

(** ** Sending *)

Definition keepAlive_text (left : Z) : bytes :=
  str "timeout=" ++ decimal maxKeepAlive ++ str ", max=" ++ decimal left.

(** [patchResponseInfo] changes the response it is given a reference to, which
    for these statuses is the one of the channel. *)
Definition patchResponseInfo (info : RespInfo) : M F Http1Conn RespInfo :=
  if 200 <=? i_status info then
    persistent ← conn_gets hc_persistent;
    count ← conn_gets hc_requestCount;
    headers ←
      (if persistent && (count <? requestMax) then
         _ ← conn_modify (hc_setRequestCount (count + 1));
         lift (h ← hl_append (str "Connection") (str "Keep-Alive") (str ", ") (i_headers info);
               hl_push_back (str "Keep-Alive") (keepAlive_text (requestMax - (count + 1))) h)
       else
         _ ← conn_modify (hc_setPersistent false);
         lift (hl_append (str "Connection") (str "close") (str ", ") (i_headers info)));
    _ ← modify (λ ch, with_info (info_setHeaders headers (ch_info ch)) ch);
    mret (info_setHeaders headers info)
  else mret info.

Definition generate (f : Http1Generator → result Http1Generator) : M F Http1Conn unit :=
  g ← conn_gets hc_generator;
  g' ← lift (f g);
  conn_modify (hc_setGenerator g').

(** [generateResponse] writes the head before it looks at the body. *)
Definition conn_send_info (info : RespInfo) (chunk : bytes) (cb : option (bool → Prog F)) : M F Http1Conn unit :=
  _ ← setCompleter_status cb (i_status info);
  info ← patchResponseInfo info;
  _ ← generate (generateResponseInfo (to_generator info));
  _ ← generate (generateBody chunk);
  _ ← generate (λ g, Ok (flushBuffer g));
  wantFlush.

Definition conn_send (chunk : bytes) (cb : option (bool → Prog F)) : M F Http1Conn unit :=
  _ ← setCompleter (CUser <$> cb);
  _ ← generate (generateBody chunk);
  wantFlush.

Definition conn_send_file (file : FileView) (cb : option (bool → Prog F)) : M F Http1Conn unit :=
  _ ← setCompleter (CUser <$> cb);
  _ ← generate (generateBodyFile (fv_data file));
  wantFlush.

(** ** The end of a response *)

(** [Channel::reset]: the connection's options are cleared, what they named is
    kept in [connectionHeaders_]. *)
Definition h1_reset : M F Http1Conn unit :=
  _ ← conn_modify (λ c, hc_setOptions [] (hc_connectionHeaders c) c);
  ch_reset.

Definition end_response : M F Http1Conn unit :=
  n ← conn_gets (λ c, g1_bytesTransmitted (hc_generator c));
  _ ← modify (with_bytesTransmitted n);
  responseEnd.

Definition onResponseComplete (succeed : bool) : M F Http1Conn unit :=
  _ ← end_response;
  if negb succeed then mret () else
  i ← gets ch_info;
  if i_status i =? 101 then conn_modify (λ c, hc_setEnd (hc_closed c) true c) else
  persistent ← conn_gets hc_persistent;
  if (persistent : bool) then
    _ ← h1_reset;
    _ ← generate (λ g, Ok (g1_reset g));
    c ← conn_gets id;
    if (hc_inputOffset c <? length (hc_input c))%nat then conn_modify (λ c, hc_setPosted (S (hc_posted c)) c)
    else wantFill
  else closeEndPoint.

Definition conn_completed : M F Http1Conn unit :=
  q ← gets ch_request;
  g ← conn_gets hc_generator;
  if negb (bool_decide (q_method q = HEAD)) && negb (g1_chunked g) && (0 <? remainingContentLength g)
  then throw IllegalStateError else
  i ← gets ch_info;
  _ ← generate (λ g, Ok (generateTrailer (field_pair <$> i_trailers i) g));
  empty ← conn_gets writer_empty;
  if (empty : bool) then onResponseComplete true
  else _ ← setCompleter (Some CResponse); wantFlush.

Definition conn_abort : M F Http1Conn unit := _ ← end_response; closeEndPoint.

(** The connection as the transport of its channel. *)
Definition h1_transport (c : Call F) : M F Http1Conn unit :=
  match c with
  | LHead info chunk cb => conn_send_info info chunk cb
  | LContinue info cb => conn_send_info info [] cb
  | LSend chunk cb => conn_send chunk cb
  | LSendFile file cb => conn_send_file file cb
  | LFlush chunk => conn_send chunk None
  | LCompleted => conn_completed
  | LAbort => conn_abort
  end.

(** ** [http1::Channel]: the listener of the parser *)

Context (cfg : Config).

Definition noteReceived : M F Http1Conn unit :=
  n ← conn_gets (λ c, p_bytesReceived (hc_parser c));
  modify (on_request (req_setBytesReceived n)).

Definition h1_onMessageBegin (method entity : bytes) (version : HttpVersion) : M F Http1Conn unit :=
  _ ← noteReceived;
  _ ← match version with
      | VERSION_1_1 => conn_modify (hc_setPersistent true)
      | VERSION_1_0 | VERSION_0_9 => conn_modify (hc_setPersistent false)
      | _ => throw IllegalStateError
      end;
  onMessageBegin method entity version.

(** The options of a [Connection] field, which is not passed on. *)
Definition connectionOption (option : bytes) : M F Http1Conn unit :=
  _ ← conn_modify (λ c, hc_setOptions (hc_connectionOptions c ++ [option]) (hc_connectionHeaders c) c);
  if iequals option (str "Keep-Alive") then conn_modify (hc_setPersistent true)
  else if iequals option (str "close") then conn_modify (hc_setPersistent false) else mret ().

Fixpoint each_option (options : list bytes) : M F Http1Conn unit :=
  match options with [] => mret () | o :: options => _ ← connectionOption o; each_option options end.

Definition h1_onMessageHeader (name value : bytes) : M F Http1Conn unit :=
  _ ← noteReceived;
  if negb (iequals name (str "Connection")) then onMessageHeader name value
  else each_option (tokenize (str ", ") value).

(** The fields the options name leave the request. *)
Fixpoint hide_fields (options : list bytes) : M F Http1Conn unit :=
  match options with
  | [] => mret ()
  | name :: options =>
      q ← gets ch_request;
      c ← conn_gets id;
      h ← lift (hl_push_back name (hl_get name (q_headers q)) (hc_connectionHeaders c));
      _ ← conn_modify (hc_setOptions (hc_connectionOptions c) h);
      _ ← modify (on_request (λ q, req_setHeaders (hl_remove name (q_headers q)) q));
      hide_fields options
  end.

(** [h2cUpgradeHandler]: the handler that answers with 101 instead of the
    application's. *)
Definition rethrow (k : Prog F) : result unit → Prog F := λ r, match r with Ok _ => k | Raise e => PThrow e end.

Definition h2cUpgradeHandler : Prog F :=
  PInfo (SetStatus 101) (rethrow (PInfo (OverwriteRaw (str "Upgrade") (str "h2c")) (rethrow (PCompleted (rethrow PDone))))).

(** [h2cVerifyUpgrade]: settings that cannot be decoded leave the handler as
    it is. *)
Definition h2cVerifyUpgrade (settingsPayload : bytes) : M F Http1Conn unit :=
  settings ← lift (base64_decode base64url_indexmap settingsPayload);
  r ← lift (decodeSettings settings);
  match r with
  | inr _ => mret ()
  | inl _ => modify (with_handler h2cUpgradeHandler)
  end.

Definition h1_onMessageHeaderEnd : M F Http1Conn unit :=
  _ ← noteReceived;
  q ← gets ch_request;
  let h2c := bool_decide (hl_get (str "Upgrade") (q_headers q) = str "h2c") in
  let settings := hl_get (str "HTTP2-Settings") (q_headers q) in
  _ ← modify (on_request (λ q, req_setHeaders (hl_remove (str "Connection") (q_headers q)) q));
  options ← conn_gets hc_connectionOptions;
  _ ← hide_fields options;
  _ ← (if h2c then h2cVerifyUpgrade settings else mret ());
  onMessageHeaderEnd cfg h1_transport.

Definition h1_onProtocolError (code : Z) (message : bytes) : M F Http1Conn unit :=
  _ ← noteReceived;
  committed ← gets ch_committed;
  if negb committed then
    _ ← conn_modify (hc_setPersistent false);
    q ← gets ch_request;
    _ ← info_op (SetVersion (if negb (bool_decide (q_version q = UNKNOWN)) then q_version q else VERSION_0_9));
    sendError cfg h1_transport code message
  else call h1_transport LAbort.

Definition h1_on_event (ev : http_event) : M F Http1Conn unit :=
  match ev with
  | RequestBegin method entity version => h1_onMessageBegin method entity version
  | ResponseBegin _ _ _ | MessageBegin => mret ()
  | MessageHeader name value => h1_onMessageHeader name value
  | MessageHeaderEnd => h1_onMessageHeaderEnd
  | MessageContent chunk => onMessageContent chunk
  | MessageEnd => onMessageEnd cfg h1_transport
  | ProtocolErrorEvent status => h1_onProtocolError status []
  end.

(** ** Reading

    The loop of the parser with the listener called from within it: an
    exception of the listener leaves the loop; the parser keeps the state it
    has reached, but for a protocol error, whose state is only entered after
    the listener returns. *)
Fixpoint conn_deliver (before : Http1Parser) (evs : list http_event) : M F Http1Conn unit :=
  match evs with
  | [] => mret ()
  | ev :: evs =>
      r ← attempt (h1_on_event ev);
      match r with
      | Ok _ => conn_deliver before evs
      | Raise e =>
          _ ← match ev with ProtocolErrorEvent _ => conn_modify (hc_setParser before) | _ => mret () end;
          throw e
      end
  end.

Fixpoint conn_loop (fuel : nat) (mem : bytes) (pos : nat) : M F Http1Conn nat :=
  p ← conn_gets hc_parser;
  match mem !! pos, fuel with
  | None, _ =>
      let '(p', pos', evs, _) := end_of_fragment pos p in
      _ ← conn_modify (hc_setParser p');
      _ ← conn_deliver p evs;
      mret pos'
  | Some _, O => throw Blocked
  | Some c, S fuel =>
      let out := http1_step mem pos c p in
      _ ← conn_modify (hc_setParser (receive (o_consumed out) (o_parser out)));
      _ ← conn_deliver p (o_events out);
      match o_control out with
      | Done => mret (pos + o_consumed out)%nat
      | Throw e => throw e
      | Continue => conn_loop fuel mem (pos + o_consumed out)
      end
  end.

(** What [parseFragment] does with a [BadMessage] of the channel. *)
Definition answer_bad_message (status : Z) : M F Http1Conn unit :=
  i ← gets ch_info;
  _ ← (if bool_decide (i_version i = UNKNOWN) then info_op (SetVersion VERSION_0_9) else mret ());
  st ← gets ch_state;
  _ ← (if bool_decide (st = READING) then ch_setState HANDLING else mret ());
  sendError cfg h1_transport status (cfg_what cfg (BadMessage status)).

Definition conn_parseFragment : M F Http1Conn unit :=
  c ← conn_gets id;
  r ← attempt (conn_loop (4 * (length (hc_input c) - hc_inputOffset c) + 4) (hc_input c) (hc_inputOffset c));
  match r with
  | Ok pos =>
      _ ← conn_modify (λ c, hc_setInput (hc_buffer c) pos c);
      p ← conn_gets hc_parser;
      if negb (bool_decide (p_state p = MESSAGE_BEGIN)) then wantFill else mret ()
  | Raise (BadMessage status) => answer_bad_message status
  | Raise e => throw e
  end.

(** [onFillable], with what there is to be read. The parser's references are
    pointers into the buffer: if [fill] gives it a new block while the parser
    still reads some of them, what follows is undefined. *)
Definition onFillable (data : bytes) : M F Http1Conn unit :=
  c ← conn_gets id;
  let b := ib_fill data (hc_buffer c) in
  _ ← conn_modify (λ c, hc_setInput b (hc_inputOffset c) (hc_setInterest false (hc_wantFlush c) c));
  match data with
  | [] => conn_abort
  | _ =>
      if negb (ib_block b =? ib_block (hc_buffer c))%nat && holds_refs (hc_parser c)
      then throw UndefinedBehaviour else conn_parseFragment
  end.

(** ** Writing *)

Definition invokeCompleter (success : bool) : M F Http1Conn unit :=
  cb ← conn_gets hc_onComplete;
  match cb with
  | None => mret ()
  | Some cb =>
      _ ← conn_modify (hc_setCompleter None);
      match cb with
      | CUser k => run_prog cfg h1_transport (k success)
      | CResponse => onResponseComplete success
      | CContinue k =>
          _ ← wantFill;
          match k with Some k => run_prog cfg h1_transport (k success) | None => mret () end
      end
  end.

(** [onFlushable]: the endpoint takes up to [n] of the pending bytes. *)
Definition onFlushable (n : nat) : M F Http1Conn unit :=
  _ ← ch_setState SENDING;
  _ ← conn_modify (λ c, hc_setInterest (hc_wantFill c) false
        (hc_setFlushed (Nat.min (length (g1_written (hc_generator c))) (hc_flushed c + n)) c));
  complete ← conn_gets writer_empty;
  if (complete : bool) then _ ← ch_setState HANDLING; invokeCompleter true else wantFlush.

Definition onInterestFailure : M F Http1Conn unit := _ ← invokeCompleter false; conn_abort.

(** ** The connection's events *)

Inductive conn_event :=
  | EvFillable (data : bytes)
  | EvFlushable (n : nat)
  | EvPosted
  | EvFailure.

Definition conn_step (ev : conn_event) : M F Http1Conn unit :=
  match ev with
  | EvFillable data => onFillable data
  | EvFlushable n => onFlushable n
  | EvPosted => _ ← conn_modify (λ c, hc_setPosted (pred (hc_posted c)) c); conn_parseFragment
  | EvFailure => onInterestFailure
  end.

(** A new connection: the addresses are those of the endpoint. *)
Definition new_connection (inputBufferSize : Z) (handler : Prog F) (remote local : option bytes) : World F Http1Conn :=
  mkWorld (on_request (req_setAddresses remote local) (newChannel handler)) (newHttp1Conn inputBufferSize) [].

(** Events one after the other; an exception of one does not prevent the next. *)
Fixpoint conn_run (evs : list conn_event) (w : World F Http1Conn) : World F Http1Conn :=
  match evs with [] => w | ev :: evs => conn_run evs (conn_step ev w).2 end.
End connection.
Arguments Completer : clear implicits.
Arguments Http1Conn : clear implicits.
