(* ===== verification/Http1Serving.v ===== *)
(** * The HTTP/1 connection serves by the rules

    The connection discharges the interface of a transport ([h1_behaves]), so
    that what is shown of the channel over any transport holds of it; over any
    sequence of socket events the responses keep the rules of a response
    ([connection_keeps_rules]). Then runs that show what it does instead of
    what it means to do. *)
From Stdlib Require Import String.
From stdpp Require Import relations.
From S2P Require Import Prelude HeaderFieldList Http1Parser Http1Generator HttpMessage HttpChannel HttpChannelSafety HttpMock Http1Connection.

Section quiet.
Context {F : Type} `{FilterImpl F} (requestMax maxKeepAlive : Z).
Abbreviation conn_world := (World F (Http1Conn F)).
Implicit Types (w : World F (Http1Conn F)).

(** ** Computations made of a transport's steps *)

Definition quietly {A} (m : M F (Http1Conn F) A) : Prop := ∀ w, rtc quiet_step w (m w).2.
Definition behaves {A} (m : M F (Http1Conn F) A) : Prop := ∀ w, rtc chan_step w (m w).2.

Lemma quietly_bind {A B} (m : M F (Http1Conn F) A) (k : A → M F (Http1Conn F) B) :
  quietly m → (∀ a, quietly (k a)) → quietly (m ≫= k).
Proof.
  intros Hm Hk w. unfold mbind, M_bind. specialize (Hm w). destruct (m w) as [[a|e] w']; [|done].
  etrans; [exact Hm|apply Hk].
Qed.
Lemma behaves_bind {A B} (m : M F (Http1Conn F) A) (k : A → M F (Http1Conn F) B) :
  behaves m → (∀ a, behaves (k a)) → behaves (m ≫= k).
Proof.
  intros Hm Hk w. unfold mbind, M_bind. specialize (Hm w). destruct (m w) as [[a|e] w']; [|done].
  etrans; [exact Hm|apply Hk].
Qed.
Lemma quietly_behaves {A} (m : M F (Http1Conn F) A) : quietly m → behaves m.
Proof. intros Hm w. specialize (Hm w). induction Hm; [done|]. eapply rtc_l; [by apply step_quiet|done]. Qed.
Lemma quietly_ret {A} (a : A) : quietly (mret a).
Proof. intros w. done. Qed.
Lemma quietly_throw {A} e : quietly (throw (A:=A) e).
Proof. intros w. done. Qed.
Lemma quietly_lift {A} (r : result A) : quietly (lift r).
Proof. intros w. done. Qed.
Lemma quietly_gets {A} (f : Channel F → A) : quietly (gets f).
Proof. intros w. done. Qed.
Lemma quietly_conn_gets {A} (f : Http1Conn F → A) : quietly (conn_gets f).
Proof. intros w. done. Qed.
Lemma quietly_conn_modify f : quietly (conn_modify f).
Proof. intros w. apply rtc_once, step_transport. Qed.
Lemma quietly_headers h : quietly (modify (λ ch : Channel F, with_info (info_setHeaders h (ch_info ch)) ch)).
Proof. intros w. apply rtc_once, (step_headers w h). Qed.
Lemma quietly_transmitted n : quietly (modify (with_bytesTransmitted n)).
Proof. intros w. apply rtc_once, (step_transmitted w n). Qed.
Lemma quietly_end : quietly responseEnd.
Proof. intros w. apply rtc_once, step_end. Qed.
Lemma behaves_reset : behaves ch_reset.
Proof. intros w. apply rtc_once, step_reset. Qed.
End quiet.

Create HintDb quiet.
#[export] Hint Resolve quietly_ret quietly_throw quietly_lift quietly_gets quietly_conn_gets quietly_conn_modify
  quietly_headers quietly_transmitted quietly_end behaves_reset : quiet.

Ltac qstep :=
  match goal with
  | |- _ => solve [auto with quiet nocore]
  | |- quietly (_ ≫= _) => apply quietly_bind; [|intros ?]
  | |- behaves (_ ≫= _) => apply behaves_bind; [|intros ?]
  | |- quietly (match ?x with _ => _ end) => destruct x
  | |- behaves (match ?x with _ => _ end) => destruct x
  | |- quietly (match ?x with _ => _ end _) => destruct x
  | |- behaves _ => apply quietly_behaves
  end.
Ltac qsteps := repeat qstep.

Section serving.
Context {F : Type} `{FilterImpl F} (requestMax maxKeepAlive : Z) (cfg : Config).
Implicit Types (w : World F (Http1Conn F)).

Lemma quietly_completer cb : quietly (F:=F) (setCompleter cb).
Proof. unfold setCompleter. qsteps. Qed.
Lemma quietly_generate f : quietly (F:=F) (generate f).
Proof. unfold generate. qsteps. Qed.
Lemma quietly_patch info : quietly (F:=F) (patchResponseInfo requestMax maxKeepAlive info).
Proof. unfold patchResponseInfo. qsteps. Qed.
Lemma quietly_end_response : quietly (F:=F) end_response.
Proof. unfold end_response. qsteps. Qed.
#[local] Hint Resolve quietly_completer quietly_generate quietly_patch quietly_end_response : quiet.

Lemma behaves_onResponseComplete b : behaves (F:=F) (onResponseComplete b).
Proof. unfold onResponseComplete, h1_reset, wantFill, closeEndPoint. qsteps. Qed.
#[local] Hint Resolve behaves_onResponseComplete : quiet.

#[export] Instance h1_behaves : TransportBehaves (h1_transport (F:=F) requestMax maxKeepAlive).
Proof.
  split; intros.
  - fold (quietly (h1_transport requestMax maxKeepAlive c)). revert w.
    fold (quietly (F:=F) (h1_transport requestMax maxKeepAlive c)).
    destruct c; cbn [h1_transport]; try done; unfold conn_send_info, conn_send, conn_send_file, conn_abort, setCompleter_status,
      wantFlush, closeEndPoint; qsteps.
  - revert w. fold (behaves (F:=F) (h1_transport requestMax maxKeepAlive LCompleted)). cbn [h1_transport].
    unfold conn_completed, wantFlush. qsteps.
Qed.

(** ** The connection's own operations keep the invariant *)

Abbreviation transport := (h1_transport (F:=F) requestMax maxKeepAlive).

Lemma keeps_behaves {A} (m : M F (Http1Conn F) A) : behaves m → keeps m.
Proof. intros Hm w Hw. exact (steps_inv w _ (Hm w) Hw). Qed.
Lemma keeps_conn_modify f : keeps (conn_modify (F:=F) f).
Proof. apply keeps_behaves, quietly_behaves, quietly_conn_modify. Qed.
Lemma keeps_conn_gets {A} (f : Http1Conn F → A) : keeps (conn_gets f).
Proof. by intros w. Qed.
Lemma keeps_onResponseComplete b : keeps (onResponseComplete (F:=F) b).
Proof. apply keeps_behaves, behaves_onResponseComplete. Qed.
#[local] Hint Resolve keeps_conn_modify keeps_conn_gets keeps_onResponseComplete : keeps.

Lemma keeps_begin method entity version : keeps (onMessageBegin (F:=F) (S:=Http1Conn F) method entity version).
Proof. exact (keeps_on_event cfg transport (RequestBegin method entity version)). Qed.
Lemma keeps_header name value : keeps (onMessageHeader (F:=F) (S:=Http1Conn F) name value).
Proof. exact (keeps_on_event cfg transport (MessageHeader name value)). Qed.
Lemma keeps_content chunk : keeps (onMessageContent (F:=F) (S:=Http1Conn F) chunk).
Proof. exact (keeps_on_event cfg transport (MessageContent chunk)). Qed.
Lemma keeps_header_end : keeps (onMessageHeaderEnd cfg transport).
Proof. exact (keeps_on_event cfg transport MessageHeaderEnd). Qed.
Lemma keeps_end : keeps (onMessageEnd cfg transport).
Proof. exact (keeps_on_event cfg transport MessageEnd). Qed.
Lemma keeps_run p : keeps (run_prog cfg transport p).
Proof. apply keeps_run_prog, _. Qed.
Lemma keeps_error code message : keeps (sendError cfg transport code message).
Proof. apply keeps_sendError, _. Qed.
Lemma keeps_abort : keeps (call transport LAbort).
Proof. apply keeps_abort_call, _. Qed.
#[local] Hint Resolve keeps_begin keeps_header keeps_content keeps_header_end keeps_end keeps_run keeps_error keeps_abort
  keeps_info_op : keeps.

Lemma keeps_options options : keeps (each_option (F:=F) options).
Proof. induction options; cbn [each_option]; unfold connectionOption; msteps. Qed.
Lemma keeps_hide options : keeps (hide_fields (F:=F) options).
Proof. induction options; cbn [hide_fields]; msteps. Qed.
#[local] Hint Resolve keeps_options keeps_hide : keeps.

Lemma keeps_h1_event ev : keeps (h1_on_event requestMax maxKeepAlive cfg ev).
Proof.
  destruct ev; cbn [h1_on_event]; unfold h1_onMessageBegin, h1_onMessageHeader, h1_onMessageHeaderEnd, h1_onProtocolError,
    h2cVerifyUpgrade, noteReceived; msteps.
Qed.
#[local] Hint Resolve keeps_h1_event : keeps.

Lemma keeps_deliver before evs : keeps (conn_deliver requestMax maxKeepAlive cfg before evs).
Proof. induction evs; cbn [conn_deliver]; msteps. Qed.
#[local] Hint Resolve keeps_deliver : keeps.

Lemma keeps_conn_loop fuel mem pos : keeps (conn_loop requestMax maxKeepAlive cfg fuel mem pos).
Proof. revert pos; induction fuel; intros pos; cbn [conn_loop]; msteps. Qed.
#[local] Hint Resolve keeps_conn_loop : keeps.

Lemma keeps_parseFragment : keeps (conn_parseFragment requestMax maxKeepAlive cfg).
Proof. unfold conn_parseFragment, answer_bad_message, wantFill, ch_setState. msteps. Qed.
#[local] Hint Resolve keeps_parseFragment : keeps.

Lemma keeps_conn_abort : keeps (conn_abort (F:=F)).
Proof. apply keeps_behaves, quietly_behaves. unfold conn_abort, closeEndPoint. qsteps. Qed.
#[local] Hint Resolve keeps_conn_abort : keeps.

Lemma keeps_invokeCompleter b : keeps (invokeCompleter requestMax maxKeepAlive cfg b).
Proof. unfold invokeCompleter, wantFill. msteps. Qed.
#[local] Hint Resolve keeps_invokeCompleter : keeps.

Lemma keeps_conn_step ev : keeps (conn_step requestMax maxKeepAlive cfg ev).
Proof. destruct ev; cbn [conn_step]; unfold onFillable, onFlushable, onInterestFailure, ch_setState, wantFlush; msteps. Qed.

Lemma conn_run_inv evs w : log_inv w → log_inv (conn_run requestMax maxKeepAlive cfg evs w).
Proof. revert w; induction evs as [|ev evs IH]; intros w Hw; cbn; [done|]. by apply IH, keeps_conn_step. Qed.

(** C11 (safety). Whatever the client sends and in whatever pieces, whenever the
    socket takes bytes or fails, and whatever the handler does, including
    completing a response late or from a callback, failing, or writing after
    it: between two resets of the channel the connection is handed at most one
    head, and no chunk or file of the body before it (what filters hold back is
    flushed without a head). The channel is committed exactly if a head was
    handed over -- also if the connection refused it with an exception, in which
    case the head is lost and chunks may follow ([body_without_head]) --, and
    from then on the response object keeps the version, status, reason, content
    length and kind that were handed over. Header fields may still change. *)
Theorem connection_keeps_rules evs bufferSize handler remote local :
  keeps_rules (conn_run requestMax maxKeepAlive cfg evs (new_connection bufferSize handler remote local)).
Proof. apply inv_rules. by apply conn_run_inv. Qed.
End serving.

(** ** Runs *)

Definition text_request (lines : list String.string) : bytes := concat ((λ l, str l ++ CRLF) <$> lines) ++ CRLF.

Definition serve (handler : Prog unit) (evs : list conn_event) : World unit (Http1Conn unit) :=
  conn_run 5 30 plain_config evs (new_connection 65536 handler (Some (str "1.2.3.4:5")) None).

Definition bytes_sent (w : World unit (Http1Conn unit)) : bytes := g1_written (hc_generator (w_transport w)).
Definition conn_outcome (handler : Prog unit) (data : bytes) : result unit :=
  (conn_step 5 30 plain_config (EvFillable data) (new_connection 65536 handler None None)).1.

Example hello_served :
  let w := serve hello [EvFillable (text_request ["GET / HTTP/1.1"; "Host: x"]%string); EvFlushable 1000] in
  bytes_sent w = str "HTTP/1.1 200 Ok" ++ CRLF ++ str "Server: xzero/0.11" ++ CRLF ++ str "Connection: Keep-Alive" ++ CRLF ++
    str "Keep-Alive: timeout=30, max=4" ++ CRLF ++ str "Transfer-Encoding: chunked" ++ CRLF ++ CRLF ++
    str "7" ++ CRLF ++ str "Hello, " ++ CRLF ++ str "5" ++ CRLF ++ str "World" ++ CRLF ++ str "0" ++ CRLF ++ CRLF ∧
  hc_wantFill (w_transport w) = true ∧ hc_closed (w_transport w) = false.
Proof. by vm_compute. Qed.

(** A request the parser rejects is not answered: the channel is still
    reading, and [completed] throws; the connection only expects the exception
    of a bad message. *)
Lemma protocol_error_unanswered :
  let data := text_request ["GET"]%string in
  conn_outcome hello data = Raise IllegalStateError ∧ bytes_sent (serve hello [EvFillable data]) = [].
Proof. by vm_compute. Qed.

(** A request the channel rejects is answered, but not consumed: with a
    persistent connection it is parsed, and answered, again. *)
Definition heads (w : World unit (Http1Conn unit)) : list Z :=
  omap (λ e, match e with LCall (LHead i _ _) => Some (i_status i) | _ => None end) (w_log w).

Lemma bad_request_answered_again :
  let data := text_request ["GET / HTTP/1.1"]%string in
  heads (serve hello [EvFillable data; EvFlushable 1000; EvPosted; EvFlushable 1000; EvPosted]) = [400; 400; 400].
Proof. by vm_compute. Qed.

(** The second request on a connection has no addresses. *)
Definition asks_address : Prog unit :=
  PRead (λ q _, PInfo (SetStatus (match q_remoteAddress q with Some _ => 200 | None => 404 end)) (then_ (PCompleted (then_ PDone)))).

Lemma addresses_lost :
  let data := text_request ["GET / HTTP/1.1"; "Host: x"]%string in
  heads (serve asks_address [EvFillable data; EvFlushable 1000; EvFillable data]) = [200; 404].
Proof. by vm_compute. Qed.

(** A client that expects to be told to continue, a handler that wants to know
    when its chunk was sent: the intermediate response occupies the completion
    callback, the head of the response is refused when the response is already
    marked as committed, and never sent. *)
Definition notified : Prog unit :=
  PInfo (SetStatus 200) (then_ (PWriteRef (str "x") (Some (λ _, PDone)) (then_ (PCompleted (then_ PDone))))).

Lemma continue_prevents_head :
  let data := text_request ["PUT / HTTP/1.1"; "Host: x"; "Expect: 100-continue"]%string in
  let w := serve notified [EvFillable data] in
  conn_outcome notified data = Raise IllegalStateError ∧ ch_committed (w_channel w) = true ∧
  bytes_sent w = str "HTTP/1.1 100 Continue" ++ CRLF ++ CRLF.
Proof. by vm_compute. Qed.

(** A handler that goes on after its chunk was refused sends a body without a
    head; the record shows the refusal. *)
Definition insists : Prog unit :=
  PInfo (SetStatus 200) (then_ (PWriteRef (str "x") (Some (λ _, PDone))
    (λ _, PWriteRef (str "yz") None (then_ PDone)))).

Lemma body_without_head :
  let data := text_request ["PUT / HTTP/1.1"; "Host: x"; "Expect: 100-continue"]%string in
  let w := serve insists [EvFillable data] in
  bytes_sent w = str "HTTP/1.1 100 Continue" ++ CRLF ++ CRLF ++ str "yz" ∧
  log_scan NoHead (w_log w) = Some (HeadRefused (VERSION_1_1, 200, [], false, UnknownContentLength)).
Proof. by vm_compute. Qed.

(** A head that arrives in two pieces when the buffer is nearly full: the parser
    keeps a pointer into the block the buffer has left. *)
Lemma long_head_dangles :
  let first := str "GET /" ++ repeat 97 5000 in
  let w := (conn_step 5 30 plain_config (EvFillable first) (new_connection 8192 hello None None)).2 in
  (conn_step 5 30 plain_config (EvFillable (str "b HTTP/1.1")) w).1 = Raise UndefinedBehaviour.
Proof. by vm_compute. Qed.

(** A chunk without a callback discards the callback of the chunk before it. *)
Definition loses_callback : Prog unit :=
  PInfo (SetStatus 200) (then_ (PWriteRef (str "x") (Some (λ _, PCompleted (then_ PDone)))
    (then_ (PWriteRef (str "y") None (then_ PDone))))).

Lemma callback_discarded :
  let data := text_request ["GET / HTTP/1.1"; "Host: x"]%string in
  let w := serve loses_callback [EvFillable data; EvFlushable 1000; EvFlushable 1000] in
  writer_empty (w_transport w) = true ∧ hc_onComplete (w_transport w) = None ∧ LCall LCompleted ∉ w_log w.
Proof. vm_compute. split; [done|]. split; [done|]. intros Hin. repeat (apply elem_of_cons in Hin as [|Hin]; [done|]). by apply elem_of_nil in Hin. Qed.
